(* ===== verification/_CoqProject ===== *)
-Q . S2P
Prelude.v
Str.v
Utf8.v
Json.v
BTree.v
Protocol.v
SwitchConfig.v
Routing.v
Connector.v
ChatReq.v
ChatPairing.v
AnthropicReq.v
AnthropicFacts.v
Expressible.v
ChatSse.v
AnthropicSse.v
Sse.v
Egress.v
CompressConfig.v
Router.v
Collapse.v
Truncate.v
Diff.v
LogC.v
SearchC.v
Tabular.v
Preprocess.v
Ccr.v
Transform.v
SeekSequence.v
PatchParser.v
PatchFacts.v
PatchPrint.v
Replace.v
PatchApply.v
PatchDelta.v
PatchVerify.v
OutputTrunc.v
Fragments.v
Normalize.v
History.v
HistoryFacts.v
AbsPath.v
ExecPolicy.v
ExecPolicyFacts.v
PolicyParser.v
StreamText.v
InlineTag.v
TaggedLine.v
AssistantText.v
ShellCommand.v
ShellSafety.v
PathFacts.v
Permissions.v
PermissionFacts.v
ApprovalPolicy.v
ApprovalFacts.v
PatchSafety.v
PolicyTransforms.v
PolicyTransformFacts.v
PermissionGrants.v
SandboxManager.v
Orchestrator.v
HeadTail.v
IpAddr.v
HostPolicy.v
NetConfig.v
MitmHook.v
NetState.v
NetProxy.v
NetApproval.v
NetApprovalFacts.v
NetApprovalCalls.v
ConfigLayers.v
ConfigLayerFacts.v
Requirements.v
RequirementsFacts.v
ThreadHistory.v
ThreadHistoryFacts.v
ThreadReplay.v
