(* ===== verification/Prelude.v ===== *)
(** * codez: a verification library

    codez is a derivative of codex, a coding agent: an upstream snapshot (codex-rs) with two
    features of its own, which hook into the point where codex sends a request to a language
    model.  This library models both features completely, and of upstream the code between a
    model's answer and an effect on the machine: reading a patch and applying it, deciding
    whether a command may run and in which sandbox, which files and hosts it may reach, and
    what of all this goes back into the conversation.

    ** The program

    llm-compress (zmod/llm-compress) runs first.  It rewrites the texts of the tool outputs
    of a request: a protection gate leaves errors alone, preprocessing passes normalise
    lines, a router picks one of six compressors, a store on disk keeps the original of what
    was dropped, and a size gate refuses anything longer.

    llm-switch (zmod/llm-switch) runs next.  It decides whether the request goes to another
    provider, by the purpose of the session or by provider id; translates the Responses
    request to Chat Completions or Anthropic Messages; sends it; and turns the streamed
    answer back into the events codex expects.

    Upstream, the answer is text and tool calls.  The text streams through parsers that hide
    citations and plans (utils/stream-parser).  A patch is parsed, checked against the files
    and applied (apply-patch).  A command is judged by rules (execpolicy, shell-command,
    core/src/exec_policy.rs); the orchestrator (core/src/tools/orchestrator.rs) asks hooks,
    a guardian or the user when it must, picks a sandbox for the permission profile
    (protocol/src/permissions.rs, sandboxing) and runs it.  The command's connections go
    through a proxy (network-proxy) whose lists a managed configuration constrains and which
    asks the approval service of the session about unknown hosts
    (core/src/tools/network_approval.rs).  The settings all this reads are composed from
    layers of configuration and of an administrator's requirements (config).  Outputs are
    cut and recorded in the history (utils/output-truncation, core/src/unified_exec,
    core/src/context_manager).  What happened is also kept as a rollout, from which the app
    server builds the turns and items that its clients show
    (app-server-protocol/src/protocol/thread_history.rs), whole or change by change.

    ** Files

    Shared:
    - [Prelude]: results with [let?], loops that may fail, machine integers, hash iteration
      order, lists, options, tactics and hint databases;
    - [Str], [Utf8]: Rust's [str] and [char] (strings are their UTF-8 bytes), lower case;
    - [BTree]: maps in key order ([BTreeMap<i64, _>]) and in the order of insertion;
    - [Json]: [serde_json::Value];
    - [Protocol]: the types of codex-rs/protocol, codex-api and codex-client;
    - [AbsPath] with [PathFacts]: utils/absolute-path.

    llm-switch: [SwitchConfig] (config.rs, http.rs), [Routing] (purpose.rs, namespace.rs and
    the routing half of lib.rs), [Connector] (connector/mod.rs, with the trait
    [SseTranslator] as a class and what the engine relies on as the class [TranslatorLaws]),
    [ChatReq] with [ChatPairing], [AnthropicReq] with [AnthropicFacts], [Expressible] (what
    the two request builders accept), [ChatSse] and [AnthropicSse] (the accumulators and
    their batch specifications), [Sse] (the engine of sse.rs over any translator), [Egress]
    (chat.rs, anthropic.rs, pipeline.rs, transform/mod.rs and [run] of lib.rs).

    llm-compress: [CompressConfig] (config.rs, command.rs, score.rs, protect.rs), [Router]
    (router.rs, with the trait [Compressor] as a record of operations and the class
    [CompressorOk] that each compressor discharges), [Collapse] (the folding loop three
    compressors share), [Truncate], [Diff], [LogC], [SearchC], [Tabular] (the six
    compressors), [Preprocess], [Ccr] (ccr.rs over a model of the file system), [Transform]
    (lib.rs and stats.rs).

    apply-patch: [SeekSequence] (seek_sequence.rs), [PatchParser] (streaming_parser.rs and
    parser.rs) with [PatchFacts] and [PatchPrint], [Replace] and [PatchApply] (lib.rs) with
    [PatchDelta], [PatchVerify] (invocation.rs), [PatchSafety] (core/src/safety.rs).

    The conversation: [StreamText] (the trait [StreamTextParser] as a class with its laws,
    utf8_stream.rs), [InlineTag], [TaggedLine], [AssistantText] (utils/stream-parser);
    [OutputTrunc] (utils/string, utils/output-truncation), [HeadTail]
    (head_tail_buffer.rs); [Fragments] (context-fragments), [Normalize], [History] and
    [HistoryFacts] (core/src/context_manager).

    Commands and permissions: [ExecPolicy], [ExecPolicyFacts], [PolicyParser] (execpolicy);
    [ShellCommand], [ShellSafety] (shell-command); [ApprovalPolicy], [ApprovalFacts]
    (core/src/exec_policy.rs, execpolicy/src/amend.rs); [Permissions], [PermissionFacts]
    (protocol/src/permissions.rs); [PolicyTransforms], [PolicyTransformFacts]
    (sandboxing/src/policy_transforms.rs); [PermissionGrants] (permission requests of a
    session); [SandboxManager] (sandboxing/src/manager.rs); [Orchestrator].

    The network: [IpAddr], [HostPolicy] (policy.rs), [NetConfig] (config.rs), [MitmHook]
    (mitm_hook.rs), [NetState] (state.rs), [NetProxy] (runtime.rs, network_policy.rs,
    connect_policy.rs) of network-proxy; [NetApproval], [NetApprovalFacts],
    [NetApprovalCalls] (core/src/tools/network_approval.rs).

    Configuration: [ConfigLayers], [ConfigLayerFacts] (merge.rs, key_aliases.rs, overrides.rs,
    fingerprint.rs and state.rs of config); [Requirements], [RequirementsFacts]
    (config_requirements.rs, constraint.rs, requirements_exec_policy.rs, hook_config.rs and
    requirements_layers of config).

    What clients see: [ThreadHistory] (thread_history.rs and item_builders.rs of
    app-server-protocol), [ThreadHistoryFacts] (the accumulator of changes and a client that
    applies them), [ThreadReplay] (the handlers against that client).

    ** How code is modelled

    Functions that return [Result] return the type [Result]; a loop with [?] in its body is
    [fold_res].  Mutable state is passed explicitly: accumulators, the translators' states,
    the files and the registry of a request ([Ccr.World]), the file system of a patch, the
    parser of a patch.  Panics, which the router catches, are values of the type [Call]; a
    [Vec] operation that may panic returns an option, and it is proved that it does not.
    The orchestrator runs in a small monad over the state of its environment which also
    records what was asked and attempted.  [i64] additions wrap and [usize] operations
    saturate where the source says so; other sizes are natural numbers.  [HashMap]
    iteration takes an arbitrary order ([HashOrder]), so a theorem about code that iterates
    one holds for every order.

    Concurrent code is a step relation over the shared state and the tasks, one step for
    each stretch between two points where a lock is given up: permission requests and their
    answers ([PermissionGrants]), updates of the proxy ([NetProxy.step]), network approvals
    ([NetApproval.step], whose pending approvals are references into a store, since the
    request that asks and those that wait share one, and whose requests may be dropped at any
    of these points).  Theorems about them are about every
    reachable state.  The spawned reader of sse.rs is the sequence of values it sends to a
    consumer that keeps listening; a consumer that goes away cuts the sequence.

    Code outside the repository is a parameter, a class or a record, with its documented
    behaviour: parsers and printers of JSON, TOML, TOON, XML, header values, URLs and globs
    ([SerdeJson], [GlobLaws], [UrlHosts], [RequirementsSerde], [WildMatch] and others);
    tree-sitter's bash grammar ([BashGrammar]), Starlark, [shlex]; the executor's file system with its laws
    ([FileSystemLaws], about any set of paths of which no two lead to the same file) and path
    URIs; the outcome of each file operation, the environment, name
    resolution, image decoding; the answers of hooks, guardian and user.  Nothing is assumed
    of parsers and codecs where no law is named.  Of platforms, the Linux build.

    A few loops take fuel, each with a proof that the fuel it is given is enough:
    [Sse.drain_loop] and the loop of [InlineTag] take the length of the buffer, of which
    each turn removes a frame or a delimiter; shell detection takes the length of the path;
    walks over syntax trees take the number of nodes.

    ** What is proved

    Streams: the events of a response do not depend on how its bytes are cut into chunks
    ([Sse.chunking_irrelevant]); every turn ends exactly once and records the text it
    displayed ([Sse.turn_ends_once]); each accumulator equals a specification that reads the
    whole stream at once; end to end, [Egress.run_delivers].  Streamed assistant text equals
    a reference that reads the whole text ([AssistantText.assistant_stream_spec]).

    Requests: after translation every call has its result next to it and no result is stray
    ([ChatPairing], [AnthropicFacts]); roles alternate for Anthropic; the result does not
    depend on hash order; exactly which requests are refused ([Expressible]).

    Compression: nothing but output texts changes, none grows, errors stay byte for byte,
    and a growing conversation keeps its compressed prefix as long as the store's directory
    stays writable or not ([Transform]); what each
    compressor keeps, with placeholders that can be expanded back to one entry per line;
    the store's names are safe and its clean-up respects the limits.

    Patches: the parser reads back what is printed and does not depend on how the text
    arrives ([PatchPrint], [PatchFacts]); an update rewrites exactly the regions it found
    ([Replace]); the record of committed changes is exact also after a failure half way
    ([PatchDelta]); what the user was shown is what happens ([PatchVerify]); a patch that
    needs no approval writes only where the policy lets it ([PatchSafety]).

    History: after normalisation every call id has its output ([Normalize]); a rollback cuts
    the turns it is asked for ([HistoryFacts]); a capped buffer keeps the first and the last
    bytes ([HeadTail]).

    Commands: a command is judged by the strictest rule that covers it ([ExecPolicyFacts]);
    no command is both known safe and dangerous ([ShellSafety]); what runs without a
    question, and what outside the sandbox ([ApprovalFacts]); access to a path is that of
    the most specific entry, denials survive, metadata is protected ([PermissionFacts]); a
    grant is bounded by the request and the answer ([PolicyTransformFacts]) and later commands are allowed
    what was answered ([PermissionGrants]); every attempt of the orchestrator was authorised
    and keeps denied reads denied ([Orchestrator]).

    Network: however updates, reloads and requests interleave, a managed allowlist confines
    what is reached and managed denials hold, for entries that the url library and the globs
    read alike ([NetProxy.managed_policy_enforced]); the
    private addresses are exactly those of the registries ([IpAddr.non_public_exact]).  A
    request the proxy asks about is let through only on an approval for its own host,
    protocol, port and environment; each is asked about once at a time; a request waits for
    ever only if the one it waits for was dropped, no wake-up is lost ([NetApprovalFacts]); a command is told of a refusal exactly
    when there was one ([NetApprovalCalls]).

    Configuration: each setting has the value of the highest layer that sets it, under the
    current or the old name of its key, and its origin names that layer
    ([ConfigLayerFacts]).  What any layer of requirements forbids is kept by the composition
    ([RequirementsFacts.layers_add_up]), binds the commands of a session whose rule files
    parse ([RequirementsFacts.managed_rules_bind]) and confines the constrained values made
    of it ([RequirementsFacts.requirements_confine_values]).

    Clients: the changes reported for a batch of rollout items, applied to the turns from
    before, give the turns built from the whole rollout, with rollbacks and late events;
    ids stay distinct ([ThreadReplay.changes_replay]).

    Some theorems state behaviour that its documentation does not promise: files deleted
    while pointers to them are being written ([Ccr.eviction_breaks_pointer]), dropped lines
    that no store keeps ([Transform.lossy_toon_not_stored]), CR LF text
    ([Preprocess.crlf_lines_dropped], [Sse.unframed_bytes_dropped]), a denied address
    reached under another spelling ([NetProxy.Sample.denied_address_respelled]), blocked
    events lost to an update ([NetProxy.Sample.event_lost_by_update]), requests stranded
    when the one that asks is dropped ([NetApprovalFacts.dropped_owner_strands]), a file lost
    when it is moved through a link to its own directory
    ([PatchDelta.move_through_link_deletes]), origins
    that name keys the configuration does not have ([ConfigLayerFacts.Layered.stale_origin]),
    an app that a lower layer of requirements turns off and a higher one on again
    ([RequirementsFacts.Managed.app_disablement_overridden]), a turn context whose id is not
    used ([ThreadReplay.turn_context_id_unused]).

    ** What is not modelled

    The user interfaces (tui, the app server and the rest of its protocol, cli), the
    summaries of commands that they show (parse_command.rs, a parameter of [ThreadHistory]),
    the connection to codex's own backend, login, telemetry and analytics, persistence of sessions and memories,
    plugins, MCP and skills, the executor and the sandbox programs themselves, and builds
    for macOS and Windows.  Most of it is input and output, rendering, generated protocol
    types or platform calls; what logic it has is beside the path above.  Within the
    modelled parts: tracing and telemetry, process-wide caches of configuration and HTTP
    clients, the texts of a few error messages where nothing reads them, and the proxy's
    transport (its HTTP and SOCKS servers and the certificates of interception). *)

From stdpp Require Export base tactics list strings gmap pretty fin_maps sorting.
From Stdlib Require Export Ascii.
From Stdlib Require Import Lia.

(** ** Fallible code: Rust's [Result] *)

Inductive Result (A E : Type) : Type :=
| Ok (a : A)
| Err (e : E).

Arguments Ok {A E} a.
Arguments Err {A E} e.

Definition res_bind {A B E : Type} (m : Result A E) (k : A → Result B E) : Result B E :=
  match m with
  | Ok a => k a
  | Err e => Err e
  end.

(** [Result::map_err] *)
Definition map_err {A E F : Type} (f : E → F) (m : Result A E) : Result A F :=
  match m with
  | Ok a => Ok a
  | Err e => Err (f e)
  end.

Definition is_ok {A E : Type} (m : Result A E) : bool :=
  match m with Ok _ => true | Err _ => false end.

Declare Scope codez_scope.
Delimit Scope codez_scope with codez.

(** Rust's [let x = m?; k]. *)
Notation "'let?' x ':=' m 'in' k" := (res_bind m (λ x, k))
  (at level 10, x binder, m at level 100, k at level 200) : codez_scope.
Notation "'let?' ' p ':=' m 'in' k" :=
  (res_bind m (λ x, match x with p => k end))
  (at level 10, p strict pattern, m at level 100, k at level 200) : codez_scope.
Open Scope codez_scope.

Lemma map_err_ok {A E F} (f : E → F) (m : Result A E) a : map_err f m = Ok a → m = Ok a.
Proof. destruct m; simpl; congruence. Qed.

Lemma res_bind_ok {A B E} (m : Result A E) (k : A → Result B E) b :
  res_bind m k = Ok b ↔ ∃ a, m = Ok a ∧ k a = Ok b.
Proof. destruct m; naive_solver. Qed.

Lemma res_bind_err {A B E} (m : Result A E) (k : A → Result B E) e :
  res_bind m k = Err e ↔ m = Err e ∨ ∃ a, m = Ok a ∧ k a = Err e.
Proof. destruct m; naive_solver. Qed.

Lemma is_ok_true {A E} (m : Result A E) : is_ok m = true ↔ ∃ a, m = Ok a.
Proof. destruct m; naive_solver. Qed.

(** Run a fallible step over a list, threading a state; stop at the first
    error (a [for] loop whose body uses [?] or [return Err(..)]). *)
Fixpoint fold_res {S A E : Type} (f : S → A → Result S E) (s : S) (l : list A) :
  Result S E :=
  match l with
  | [] => Ok s
  | x :: l' => let? s' := f s x in fold_res f s' l'
  end.

Lemma fold_res_app {S A E} (f : S → A → Result S E) s l1 l2 :
  fold_res f s (l1 ++ l2) = let? s' := fold_res f s l1 in fold_res f s' l2.
Proof.
  revert s; induction l1 as [|x l1 IH]; intros s; simpl; [done|].
  destruct (f s x); simpl; [apply IH|done].
Qed.

(** An invariant of the loop body is an invariant of the loop. *)
Lemma fold_res_inv {S A E} (f : S → A → Result S E) (P : S → Prop) l s s' :
  (∀ s x s1, x ∈ l → P s → f s x = Ok s1 → P s1) →
  P s → fold_res f s l = Ok s' → P s'.
Proof.
  revert s; induction l as [|x l IH]; intros s Hf Hs; simpl; [naive_solver|].
  intros (s1 & H1 & H2)%res_bind_ok.
  eapply (IH s1); eauto; [|eapply Hf; eauto; left].
  intros s0 y s2 Hy; apply Hf; by right.
Qed.

(** The same, with the prefix of the list already processed as a ghost. *)
Lemma fold_res_inv_prefix {S A E} (f : S → A → Result S E) (P : list A → S → Prop) l s s' :
  (∀ pre s x s1, P pre s → f s x = Ok s1 → P (pre ++ [x]) s1) →
  P [] s → fold_res f s l = Ok s' → P l s'.
Proof.
  intros Hf Hs Hrun.
  assert (∀ pre l s, P pre s → fold_res f s l = Ok s' → P (pre ++ l) s') as Haux.
  { clear -Hf. intros pre l; revert pre; induction l as [|x l IH]; intros pre s Hs; simpl.
    - rewrite app_nil_r. naive_solver.
    - intros (s1 & H1 & H2)%res_bind_ok.
      rewrite cons_middle, app_assoc. eapply IH; eauto. }
  by apply (Haux [] l s).
Qed.

(** ** Machine integers *)

Definition i64_min : Z := (- 2 ^ 63)%Z.
Definition i64_max : Z := (2 ^ 63 - 1)%Z.
Definition u64_max : Z := (2 ^ 64 - 1)%Z.

Definition in_i64 (z : Z) : bool := bool_decide (i64_min ≤ z ≤ i64_max)%Z.
Definition in_u64 (z : Z) : bool := bool_decide (0 ≤ z ≤ u64_max)%Z.

(** Two's complement wrap-around of an [i64] operation (release builds). *)
Definition wrap_i64 (z : Z) : Z := ((z + 2 ^ 63) `mod` 2 ^ 64 - 2 ^ 63)%Z.

Lemma wrap_i64_id z : in_i64 z = true → wrap_i64 z = z.
Proof.
  unfold in_i64, wrap_i64, i64_min, i64_max. intros H%bool_decide_eq_true.
  rewrite Z.mod_small; lia.
Qed.

Lemma wrap_i64_range z : in_i64 (wrap_i64 z) = true.
Proof.
  unfold in_i64, wrap_i64, i64_min, i64_max. apply bool_decide_eq_true.
  pose proof (Z.mod_pos_bound (z + 2 ^ 63) (2 ^ 64) ltac:(lia)). lia.
Qed.

(** ** Hash iteration order

    [HashMap] and [HashSet] iterate in an unspecified order.  Code that iterates
    over one takes the order as a parameter: any rearrangement of the keys. *)
Class HashOrder := {
  hash_order : list string → list string;
  hash_order_perm : ∀ l, hash_order l ≡ₚ l;
}.

Program Definition hash_order_id : HashOrder := {| hash_order l := l |}.
Next Obligation. done. Qed.

Program Definition hash_order_rev : HashOrder := {| hash_order := reverse |}.
Next Obligation. intros l. apply reverse_Permutation. Qed.

(** ** Lists *)

(** [xs.windows(2)] *)
Fixpoint windows2 {A} (l : list A) : list (A * A) :=
  match l with
  | x :: (y :: _) as l' => (x, y) :: windows2 l'
  | _ => []
  end.

Fixpoint take_while {A} (p : A → bool) (l : list A) : list A :=
  match l with
  | [] => []
  | x :: l' => if p x then x :: take_while p l' else []
  end.

Fixpoint drop_while {A} (p : A → bool) (l : list A) : list A :=
  match l with
  | [] => []
  | x :: l' => if p x then drop_while p l' else l
  end.

Lemma take_drop_while {A} (p : A → bool) l : take_while p l ++ drop_while p l = l.
Proof. induction l as [|x l IH]; simpl; [done|]. destruct (p x); simpl; congruence. Qed.

Lemma take_while_forallb {A} (p : A → bool) l : forallb p (take_while p l) = true.
Proof. induction l as [|x l IH]; simpl; [done|]. destruct (p x) eqn:E; simpl; [by rewrite E|done]. Qed.

Lemma drop_while_head {A} (p : A → bool) l x l' : drop_while p l = x :: l' → p x = false.
Proof. induction l as [|y l IH]; simpl; [done|]. destruct (p y) eqn:E; [done|]. naive_solver. Qed.

Lemma length_drop_while {A} (p : A → bool) l : length (drop_while p l) ≤ length l.
Proof. induction l as [|y l IH]; simpl; [done|]. destruct (p y); simpl; lia. Qed.

(** Rust's [sort_by]/[sort_by_key] are stable; [le x y] is "x may come before y".
    Elements are inserted from the right, each before the first element it may
    precede, so equal elements keep their order. *)
Fixpoint insert_by {A} (le : A → A → bool) (x : A) (l : list A) : list A :=
  match l with
  | [] => [x]
  | y :: l' => if le x y then x :: l else y :: insert_by le x l'
  end.

Definition sort_by {A} (le : A → A → bool) (l : list A) : list A :=
  foldr (insert_by le) [] l.

Lemma insert_by_perm {A} (le : A → A → bool) x l : insert_by le x l ≡ₚ x :: l.
Proof.
  induction l as [|y l IH]; simpl; [done|]. destruct (le x y); [done|].
  rewrite IH. apply Permutation_swap.
Qed.

Lemma sort_by_perm {A} (le : A → A → bool) l : sort_by le l ≡ₚ l.
Proof. induction l as [|x l IH]; simpl; [done|]. by rewrite insert_by_perm, IH. Qed.

Section sort_sorted.
Context {A : Type} (le : A → A → bool).
Hypothesis le_total : ∀ x y, le x y = true ∨ le y x = true.
Hypothesis le_trans : ∀ x y z, le x y = true → le y z = true → le x z = true.

Lemma insert_by_sorted x l :
  StronglySorted (λ a b, le a b = true) l →
  StronglySorted (λ a b, le a b = true) (insert_by le x l).
Proof.
  induction 1 as [|y l Hl IH Hy]; simpl; [repeat constructor|].
  destruct (le x y) eqn:E.
  - constructor; [by constructor|]. constructor; [done|].
    eapply Forall_impl; [done|]. intros z Hz; simpl in *. eauto.
  - constructor; [done|]. rewrite insert_by_perm. constructor; [|done].
    destruct (le_total x y); congruence.
Qed.

Lemma sort_by_sorted l : StronglySorted (λ a b, le a b = true) (sort_by le l).
Proof. induction l as [|x l IH]; simpl; [constructor|]. by apply insert_by_sorted. Qed.
End sort_sorted.

(** [Iterator::max_by] and [max_by_key]: of equal maxima the last one. *)
Definition max_step {A} (le : A → A → bool) (best : option A) (x : A) : option A :=
  match best with
  | None => Some x
  | Some b => if le b x then Some x else Some b
  end.

Definition max_by {A} (le : A → A → bool) (l : list A) : option A :=
  fold_left (max_step le) l None.

Section max_by.
Context {A : Type} (le : A → A → bool).
Hypothesis le_total : ∀ x y, le x y = true ∨ le y x = true.
Hypothesis le_trans : ∀ x y z, le x y = true → le y z = true → le x z = true.

Lemma max_fold_spec l b :
  ∃ x, fold_left (max_step le) l (Some b) = Some x ∧ (x = b ∨ x ∈ l) ∧
    le b x = true ∧ ∀ y, y ∈ l → le y x = true.
Proof.
  assert (∀ x, le x x = true) as Hrefl by (intros x; by destruct (le_total x x)).
  revert b. induction l as [|a l IH]; intros b; simpl.
  - exists b. split_and!; auto. by intros y Hy%not_elem_of_nil.
  - destruct (le b a) eqn:E.
    + destruct (IH a) as (x & -> & Hx & Ha & Hl). exists x. split_and!; [done| |by eapply le_trans|].
      * destruct Hx as [->|Hx]; right; [apply list_elem_of_here|by apply list_elem_of_further].
      * intros y [->|Hy]%elem_of_cons; auto.
    + destruct (IH b) as (x & -> & Hx & Hb & Hl). exists x. split_and!; [done| |done|].
      * destruct Hx as [->|Hx]; [by left|right; by apply list_elem_of_further].
      * intros y [->|Hy]%elem_of_cons; [|auto]. destruct (le_total b a) as [?|Hab]; [congruence|].
        by eapply le_trans.
Qed.

Lemma max_by_spec l :
  match max_by le l with
  | Some x => x ∈ l ∧ ∀ y, y ∈ l → le y x = true
  | None => l = []
  end.
Proof.
  destruct l as [|a l]; [done|]. unfold max_by. cbn [fold_left max_step].
  destruct (max_fold_spec l a) as (x & -> & Hx & Ha & Hl). split.
  - destruct Hx as [->|Hx]; [apply list_elem_of_here|by apply list_elem_of_further].
  - by intros y [->|Hy]%elem_of_cons; auto.
Qed.
End max_by.

Lemma Permutation_filter_bool {A} (p : A → bool) (l k : list A) :
  l ≡ₚ k → List.filter p l ≡ₚ List.filter p k.
Proof.
  induction 1; simpl; repeat case_match; eauto using Permutation.
Qed.

Lemma filter_all {A} (p : A → bool) l : (∀ x, x ∈ l → p x = true) → List.filter p l = l.
Proof.
  induction l as [|x l IH]; simpl; intros Hp; [done|].
  rewrite Hp by left. rewrite IH; [done|]. intros y Hy. apply Hp. by right.
Qed.

Lemma sublist_filter_bool {A} (p : A → bool) l : List.filter p l `sublist_of` l.
Proof. induction l as [|x l IH]; simpl; [constructor|]. destruct (p x); by constructor. Qed.

Lemma sorted_take_drop {A} (R : A → A → Prop) l k x y :
  StronglySorted R l → x ∈ take k l → y ∈ drop k l → R x y.
Proof.
  intros Hl. revert k; induction Hl as [|z l Hl IH Hz]; intros [|k]; simpl.
  - by rewrite elem_of_nil.
  - by rewrite elem_of_nil.
  - by rewrite elem_of_nil.
  - intros [->|Hx]%elem_of_cons Hy; [|by eapply IH].
    rewrite Forall_forall in Hz. apply Hz. rewrite <-(take_drop k l). apply elem_of_app. by right.
Qed.

(** ** Options *)

(** [o1.or(o2)] *)
Definition opt_or {A} (o1 o2 : option A) : option A :=
  match o1 with Some _ => o1 | None => o2 end.

Lemma opt_or_last {A B} (f : A → option B) l x :
  opt_or (f x) (last (omap f l)) = last (omap f (l ++ [x])).
Proof.
  rewrite omap_app. simpl. destruct (f x) as [y|]; simpl.
  - by rewrite last_snoc.
  - by rewrite app_nil_r.
Qed.

Lemma opt_or_head {A B} (f : A → option B) l x :
  opt_or (head (omap f l)) (f x) = head (omap f (l ++ [x])).
Proof.
  rewrite omap_app. destruct (omap f l); simpl; [|done]. by destruct (f x).
Qed.

Lemma default_last_snoc {A B} (f : A → option B) d l x :
  default d (last (omap f (l ++ [x]))) = default (default d (last (omap f l))) (f x).
Proof. rewrite <-opt_or_last. by destruct (f x). Qed.

(** ** Automation *)

Create HintDb codez.
Create Rewrite HintDb codez_str.

(** An equation between closed terms, by evaluation; the value is not read back. *)
Ltac vm_refl := lazymatch goal with |- ?a = ?b => exact (@eq_refl _ b <: a = b) end.

(** Case analysis on every [match]/[if] of the goal, with the equations kept. *)
Ltac crush_match := repeat (case_match; simplify_eq/=; try done).

(** Invert chains of [let?]. *)
Ltac inv_res :=
  repeat match goal with
  | H : res_bind _ _ = Ok _ |- _ =>
      let a := fresh "a" in let H1 := fresh "Hok" in
      apply res_bind_ok in H as (a & H1 & H); simplify_eq/=
  | H : Ok _ = Ok _ |- _ => injection H as H; subst
  | H : Err _ = Ok _ |- _ => discriminate H
  | H : Ok _ = Err _ |- _ => discriminate H
  end.

#[export] Hint Resolve sort_by_perm insert_by_perm hash_order_perm : codez.
