(* ===== verification/Str.v ===== *)
(** * The parts of Rust's [str] and [char] that the sources use

    A Rust [String]/[&str] is its sequence of UTF-8 bytes: the type [string], whose
    elements are bytes, with [String.length] as [str::len].  [chars] splits a string
    into its characters, each kept as its own UTF-8 encoding. *)

From S2P Require Import Prelude.

(** ** Append and length *)

Lemma str_app_nil_r (s : string) : s +:+ EmptyString = s.
Proof. induction s as [|a s IH]; [done|]. unfold String.app in *; simpl; by f_equal. Qed.

Lemma str_app_cons a (s t : string) : String a s +:+ t = String a (s +:+ t).
Proof. done. Qed.

Lemma str_app_nil_l (s : string) : EmptyString +:+ s = s.
Proof. done. Qed.

Lemma str_app_assoc (s t u : string) : s +:+ (t +:+ u) = (s +:+ t) +:+ u.
Proof. induction s as [|a s IH]; [done|]. rewrite !str_app_cons. by f_equal. Qed.

Lemma str_len_app (s t : string) :
  String.length (s +:+ t) = String.length s + String.length t.
Proof. induction s as [|a s IH]; [done|]. rewrite str_app_cons; simpl; lia. Qed.

Lemma str_len_0 (s : string) : String.length s = 0 ↔ s = EmptyString.
Proof. destruct s; naive_solver. Qed.

Lemma str_app_eq_nil (s t : string) : s +:+ t = EmptyString ↔ s = EmptyString ∧ t = EmptyString.
Proof. destruct s, t; naive_solver. Qed.

#[export] Hint Rewrite str_len_app str_app_nil_r str_app_nil_l : codez_str.

(** [str::is_empty] *)
Definition str_is_empty (s : string) : bool :=
  match s with EmptyString => true | _ => false end.

Lemma str_is_empty_true s : str_is_empty s = true ↔ s = EmptyString.
Proof. destruct s; naive_solver. Qed.

Lemma str_is_empty_false s : str_is_empty s = false ↔ s ≠ EmptyString.
Proof. destruct s; naive_solver. Qed.

(** [str1 == str2] *)
Definition str_eqb (s t : string) : bool := bool_decide (s = t).

Lemma str_eqb_true s t : str_eqb s t = true ↔ s = t.
Proof. apply bool_decide_eq_true. Qed.

Lemma str_eqb_false s t : str_eqb s t = false ↔ s ≠ t.
Proof. apply bool_decide_eq_false. Qed.

Lemma str_eqb_refl s : str_eqb s s = true.
Proof. by apply str_eqb_true. Qed.

(** ** Bytes *)

Definition byte_val (c : ascii) : N := N_of_ascii c.

(** [u8::is_ascii_digit] *)
Definition is_ascii_digit (c : ascii) : bool :=
  (48 <=? byte_val c)%N && (byte_val c <=? 57)%N.
Definition is_ascii_upper (c : ascii) : bool :=
  (65 <=? byte_val c)%N && (byte_val c <=? 90)%N.
Definition is_ascii_lower (c : ascii) : bool :=
  (97 <=? byte_val c)%N && (byte_val c <=? 122)%N.
(** [is_ascii_alphanumeric] *)
Definition is_ascii_alnum (c : ascii) : bool :=
  is_ascii_digit c || is_ascii_upper c || is_ascii_lower c.
Definition is_ascii_byte (c : ascii) : bool := (byte_val c <? 128)%N.

Definition byte_eqb (a b : ascii) : bool := bool_decide (a = b).

Lemma byte_eqb_true a b : byte_eqb a b = true ↔ a = b.
Proof. apply bool_decide_eq_true. Qed.

Lemma byte_eqb_false a b : byte_eqb a b = false ↔ a ≠ b.
Proof. apply bool_decide_eq_false. Qed.

Lemma byte_eqb_refl a : byte_eqb a a = true.
Proof. by apply byte_eqb_true. Qed.

Definition newline : ascii := "010"%char.
Definition carriage_return : ascii := "013"%char.
Definition tab : ascii := "009"%char.
Definition double_quote : ascii := "034"%char.
Definition single_quote : ascii := "039"%char.

Definition NL : string := String newline EmptyString.

(** A string as the list of its bytes, [as_bytes]. *)
Definition as_bytes (s : string) : list ascii := String.list_ascii_of_string s.
Definition of_bytes (l : list ascii) : string := String.string_of_list_ascii l.

Lemma of_as_bytes s : of_bytes (as_bytes s) = s.
Proof. apply String.string_of_list_ascii_of_string. Qed.

Lemma as_of_bytes l : as_bytes (of_bytes l) = l.
Proof. apply String.list_ascii_of_string_of_list_ascii. Qed.

Lemma as_bytes_app s t : as_bytes (s +:+ t) = as_bytes s ++ as_bytes t.
Proof. induction s as [|a s IH]; [done|]. rewrite str_app_cons; simpl. by f_equal. Qed.

Lemma of_bytes_app l k : of_bytes (l ++ k) = of_bytes l +:+ of_bytes k.
Proof. induction l as [|a l IH]; [done|]. simpl. rewrite str_app_cons. by f_equal. Qed.

Lemma length_as_bytes s : length (as_bytes s) = String.length s.
Proof. induction s; simpl; [done|]. by f_equal. Qed.

Lemma length_of_bytes l : String.length (of_bytes l) = length l.
Proof. induction l; simpl; [done|]. by f_equal. Qed.

Lemma as_bytes_inj s t : as_bytes s = as_bytes t → s = t.
Proof. intros H. by rewrite <-(of_as_bytes s), <-(of_as_bytes t), H. Qed.

(** [s.contains(c)] for an ASCII character *)
Definition contains_char (c : ascii) (s : string) : bool :=
  existsb (byte_eqb c) (as_bytes s).

Lemma contains_char_cons c a s :
  contains_char c (String a s) = byte_eqb c a || contains_char c s.
Proof. done. Qed.

Lemma contains_char_app c s t :
  contains_char c (s +:+ t) = contains_char c s || contains_char c t.
Proof. unfold contains_char. by rewrite as_bytes_app, existsb_app. Qed.

(** ** Prefixes, suffixes, substrings *)

(** [str::strip_prefix] *)
Fixpoint strip_prefix (p s : string) : option string :=
  match p, s with
  | EmptyString, _ => Some s
  | String a p', String b s' => if byte_eqb a b then strip_prefix p' s' else None
  | String _ _, EmptyString => None
  end.

Definition starts_with (p s : string) : bool := bool_decide (is_Some (strip_prefix p s)).

Lemma strip_prefix_some p s r : strip_prefix p s = Some r ↔ s = p +:+ r.
Proof.
  revert s; induction p as [|a p IH]; intros s; simpl.
  - rewrite str_app_nil_l. naive_solver.
  - destruct s as [|b s]; [naive_solver|]. rewrite str_app_cons.
    destruct (byte_eqb a b) eqn:E.
    + apply byte_eqb_true in E as ->. rewrite IH. naive_solver.
    + apply byte_eqb_false in E. naive_solver.
Qed.

Lemma starts_with_true p s : starts_with p s = true ↔ ∃ r, s = p +:+ r.
Proof.
  unfold starts_with. rewrite bool_decide_eq_true. unfold is_Some.
  setoid_rewrite strip_prefix_some. done.
Qed.

Lemma starts_with_app p r : starts_with p (p +:+ r) = true.
Proof. apply starts_with_true. eauto. Qed.

(** First [n] bytes, [&s[..n]], and the rest, [&s[n..]]. *)
Fixpoint str_take (n : nat) (s : string) : string :=
  match n, s with
  | S n', String a s' => String a (str_take n' s')
  | _, _ => EmptyString
  end.

Fixpoint str_drop (n : nat) (s : string) : string :=
  match n, s with
  | S n', String _ s' => str_drop n' s'
  | _, _ => s
  end.

Lemma str_take_drop n s : str_take n s +:+ str_drop n s = s.
Proof.
  revert s; induction n as [|n IH]; intros [|a s]; try done.
  simpl. rewrite str_app_cons. by f_equal.
Qed.

Lemma str_len_take n s : String.length (str_take n s) = min n (String.length s).
Proof. revert s; induction n as [|n IH]; intros [|a s]; simpl; auto. Qed.

Lemma str_len_drop n s : String.length (str_drop n s) = String.length s - n.
Proof. revert s; induction n as [|n IH]; intros [|a s]; simpl; auto. Qed.

Lemma str_take_app_len s t : str_take (String.length s) (s +:+ t) = s.
Proof. induction s as [|a s IH]; [by destruct t|]. rewrite str_app_cons; simpl. by f_equal. Qed.

Lemma str_drop_app_len s t : str_drop (String.length s) (s +:+ t) = t.
Proof. induction s as [|a s IH]; [by destruct t|]. rewrite str_app_cons; simpl. done. Qed.

(** [str::ends_with] *)
Definition ends_with (p s : string) : bool :=
  (String.length p <=? String.length s) &&
  str_eqb (str_drop (String.length s - String.length p) s) p.

Lemma ends_with_true p s : ends_with p s = true ↔ ∃ r, s = r +:+ p.
Proof.
  unfold ends_with. rewrite andb_true_iff, Nat.leb_le, str_eqb_true. split.
  - intros [Hl Hd]. exists (str_take (String.length s - String.length p) s).
    rewrite <-Hd at 2. by rewrite str_take_drop.
  - intros [r ->]. rewrite str_len_app. split; [lia|].
    replace (_ + _ - _) with (String.length r) by lia. apply str_drop_app_len.
Qed.

(** [str::find(needle)]: byte index of the first occurrence. *)
Fixpoint find (needle s : string) : option nat :=
  if starts_with needle s then Some 0
  else match s with
       | EmptyString => None
       | String _ s' => S <$> find needle s'
       end.

Definition contains (needle s : string) : bool := bool_decide (is_Some (find needle s)).

Lemma find_some needle s n :
  find needle s = Some n → ∃ r, s = str_take n s +:+ (needle +:+ r).
Proof.
  revert n; induction s as [|a s IH]; intros n; simpl; case_match; intros Hn; simplify_eq.
  - apply starts_with_true in H as [r ->]. eauto.
  - apply starts_with_true in H as [r Hr]. exists r. simpl. by rewrite <-Hr.
  - destruct (find needle s) as [m|] eqn:E; simplify_eq/=.
    destruct (IH m eq_refl) as [r Hr]. exists r. rewrite str_app_cons. by f_equal.
Qed.

Lemma str_take_app_le k u t : k ≤ String.length u → str_take k (u +:+ t) = str_take k u.
Proof.
  revert k; induction u as [|b u IH]; intros [|k]; simpl; intros; auto; [lia|].
  f_equal. apply IH. lia.
Qed.

Lemma starts_with_app_r p s t : starts_with p s = true → starts_with p (s +:+ t) = true.
Proof. rewrite !starts_with_true. intros [r ->]. exists (r +:+ t). by rewrite str_app_assoc. Qed.

Lemma starts_with_app_inv p s t :
  String.length p ≤ String.length s →
  starts_with p (s +:+ t) = true → starts_with p s = true.
Proof.
  rewrite !starts_with_true. intros Hlen [r Hr].
  exists (str_drop (String.length p) s).
  apply (f_equal (str_take (String.length p))) in Hr.
  rewrite str_take_app_len, (str_take_app_le _ _ _ Hlen) in Hr.
  by rewrite <-Hr at 1; rewrite str_take_drop.
Qed.

Lemma starts_with_len p s : starts_with p s = true → String.length p ≤ String.length s.
Proof. intros [r ->]%starts_with_true. rewrite str_len_app. lia. Qed.

Lemma find_len needle s n : find needle s = Some n → n + String.length needle ≤ String.length s.
Proof.
  revert n; induction s as [|a s IH]; intros n; simpl; case_match; intros; simplify_eq;
    try (apply starts_with_len in H; simpl in *; lia).
  destruct (find needle s) as [m|] eqn:E; simplify_eq/=. specialize (IH m eq_refl). lia.
Qed.

Lemma find_app needle s t n : find needle s = Some n → find needle (s +:+ t) = Some n.
Proof.
  revert n; induction s as [|a s IH]; intros n Hn.
  - simpl in Hn. case_match; simplify_eq. apply starts_with_true in H as [r Hr].
    symmetry in Hr. apply str_app_eq_nil in Hr as [-> ->]. by destruct t.
  - pose proof (find_len _ _ _ Hn) as Hlen. rewrite str_app_cons. simpl in Hn |- *.
    destruct (starts_with needle (String a s)) eqn:E.
    + simplify_eq. apply (starts_with_app_r _ _ t) in E. rewrite str_app_cons in E. by rewrite E.
    + destruct (find needle s) as [m|] eqn:Em; simplify_eq/=. rewrite (IH m eq_refl).
      destruct (starts_with needle (String a (s +:+ t))) eqn:E2; [|done].
      rewrite <-str_app_cons in E2. apply starts_with_app_inv in E2; [congruence|simpl; lia].
Qed.

(** ** Splitting and joining *)

(** [s.split(c)] for an ASCII character: never empty. *)
Fixpoint split_char (c : ascii) (s : string) : list string :=
  match s with
  | EmptyString => [EmptyString]
  | String a s' =>
      if byte_eqb a c then EmptyString :: split_char c s'
      else match split_char c s' with
           | x :: l => String a x :: l
           | [] => [String a EmptyString]
           end
  end.

(** [parts.join(sep)] *)
Definition join (sep : string) (l : list string) : string := String.concat sep l.

(** [parts.concat()] *)
Definition concat_str (l : list string) : string := foldr String.app EmptyString l.

Lemma split_char_nonempty c s : split_char c s ≠ [].
Proof. destruct s; simpl; repeat case_match; done. Qed.

Lemma join_cons sep x l : l ≠ [] → join sep (x :: l) = x +:+ (sep +:+ join sep l).
Proof. destruct l; done. Qed.

Lemma join_snoc sep ps x : ps ≠ [] → join sep (ps ++ [x]) = join sep ps +:+ (sep +:+ x).
Proof.
  induction ps as [|p ps IH]; [done|]. intros _. destruct ps as [|q ps]; [done|].
  change ((p :: q :: ps) ++ [x]) with (p :: ((q :: ps) ++ [x])).
  rewrite !join_cons by done. rewrite IH by done. by rewrite !str_app_assoc.
Qed.

Lemma join_cons_char sep a x l : join sep (String a x :: l) = String a (join sep (x :: l)).
Proof. destruct l; done. Qed.

Lemma join_split_char c s : join (String c EmptyString) (split_char c s) = s.
Proof.
  induction s as [|a s IH]; simpl; [done|]. destruct (byte_eqb a c) eqn:E.
  - apply byte_eqb_true in E as ->.
    rewrite join_cons by apply split_char_nonempty. by rewrite IH.
  - destruct (split_char c s) as [|x l] eqn:El; [by apply split_char_nonempty in El|].
    rewrite join_cons_char. by f_equal.
Qed.

Lemma split_char_no_sep c s : Forall (λ p, contains_char c p = false) (split_char c s).
Proof.
  induction s as [|a s IH]; simpl; [by repeat constructor|]. destruct (byte_eqb a c) eqn:E.
  - by constructor.
  - destruct (split_char c s) as [|x l] eqn:El; [by apply split_char_nonempty in El|].
    inversion IH; subst. constructor; [|done]. rewrite contains_char_cons, H1.
    apply byte_eqb_false in E. rewrite orb_false_r. apply byte_eqb_false. congruence.
Qed.

Lemma split_char_app_sep c p s :
  contains_char c p = false →
  split_char c (p +:+ String c s) = p :: split_char c s.
Proof.
  induction p as [|a p IH]; intros Hp.
  - rewrite str_app_nil_l. simpl. by rewrite byte_eqb_refl.
  - rewrite contains_char_cons, orb_false_iff in Hp. destruct Hp as [H1 H2].
    rewrite str_app_cons. simpl. rewrite IH by done.
    apply byte_eqb_false in H1. by rewrite (proj2 (byte_eqb_false a c)).
Qed.

Lemma split_char_single c p : contains_char c p = false → split_char c p = [p].
Proof.
  induction p as [|a p IH]; intros Hp; [done|].
  rewrite contains_char_cons, orb_false_iff in Hp. destruct Hp as [H1 H2]. simpl.
  rewrite IH by done. apply byte_eqb_false in H1. by rewrite (proj2 (byte_eqb_false a c)).
Qed.

(** Splitting undoes joining when no piece has the separator. *)
Lemma split_char_join c l :
  l ≠ [] → Forall (λ p, contains_char c p = false) l →
  split_char c (join (String c EmptyString) l) = l.
Proof.
  intros Hne Hall. induction Hall as [|p l Hp Hl IH]; [done|].
  destruct l as [|q l]; [by apply split_char_single|].
  rewrite join_cons by done. rewrite str_app_cons, str_app_nil_l.
  rewrite split_char_app_sep by done. by rewrite IH.
Qed.

Lemma split_char_app_word c w s x l :
  contains_char c w = false → split_char c s = x :: l → split_char c (w +:+ s) = (w +:+ x) :: l.
Proof.
  intros Hw Hs. induction w as [|a w IH]; [done|].
  rewrite contains_char_cons, orb_false_iff in Hw. destruct Hw as [H1 H2].
  rewrite !str_app_cons. cbn [split_char]. rewrite IH by done.
  apply byte_eqb_false in H1. by rewrite (proj2 (byte_eqb_false a c)).
Qed.

Lemma split_char_app_mid c s t :
  split_char c (s +:+ String c t) = split_char c s ++ split_char c t.
Proof.
  induction s as [|a s IH]; rewrite ?str_app_nil_l, ?str_app_cons; simpl.
  - by rewrite byte_eqb_refl.
  - rewrite IH. destruct (byte_eqb a c); [done|].
    pose proof (split_char_nonempty c s). by destruct (split_char c s).
Qed.

Definition sum_len (l : list string) : nat := sum_list_with String.length l.

Lemma str_len_join sep l :
  String.length (join sep l) = sum_len l + (length l - 1) * String.length sep.
Proof.
  induction l as [|x l IH]; [done|]. destruct l as [|y l]; [simpl; lia|].
  rewrite join_cons by done. rewrite !str_len_app, IH. simpl. lia.
Qed.

Lemma str_len_concat l : String.length (concat_str l) = sum_len l.
Proof. induction l as [|x l IH]; [done|]. simpl. rewrite str_len_app. by rewrite IH. Qed.

Lemma concat_str_app l k : concat_str (l ++ k) = concat_str l +:+ concat_str k.
Proof. induction l as [|x l IH]; [done|]. simpl. by rewrite IH, str_app_assoc. Qed.

(** [Some(s)] with [!s.is_empty()] *)
Definition nonempty (o : option string) : option string :=
  match o with
  | Some s => if negb (str_is_empty s) then Some s else None
  | None => None
  end.

Lemma concat_str_snoc_opt {A} (f : A → option string) l x :
  concat_str (omap f (l ++ [x])) = concat_str (omap f l) +:+ default EmptyString (f x).
Proof.
  rewrite omap_app, concat_str_app. f_equal. simpl. destruct (f x); simpl; [|done].
  by rewrite str_app_nil_r.
Qed.

(** [str::strip_suffix] *)
Definition strip_suffix (p s : string) : option string :=
  if ends_with p s then Some (str_take (String.length s - String.length p) s) else None.

(** [str::lines]: pieces of [split('\n')], a [\r] before each [\n] removed, the
    piece after a final [\n] not yielded. *)
Definition strip_cr (p : string) : string :=
  default p (strip_suffix (String carriage_return EmptyString) p).

Fixpoint lines_of (pieces : list string) : list string :=
  match pieces with
  | [] => []
  | [last] => if str_is_empty last then [] else [last]
  | p :: ps => strip_cr p :: lines_of ps
  end.

Definition lines (s : string) : list string := lines_of (split_char newline s).

(** ** Characters *)

Definition is_cont (c : ascii) : bool :=
  (128 <=? byte_val c)%N && (byte_val c <=? 191)%N.

Definition in_range (lo hi : N) (c : ascii) : bool :=
  (lo <=? byte_val c)%N && (byte_val c <=? hi)%N.

(** Number of bytes of the UTF-8 character at the front, if it is well formed
    (no overlong form, no surrogate, at most U+10FFFF). *)
Definition utf8_width (s : string) : option nat :=
  match s with
  | EmptyString => None
  | String a s1 =>
      if is_ascii_byte a then Some 1
      else match s1 with
      | EmptyString => None
      | String b s2 =>
          if in_range 194 223 a then if is_cont b then Some 2 else None
          else match s2 with
          | EmptyString => None
          | String c s3 =>
              if (byte_val a =? 224)%N then
                if in_range 160 191 b && is_cont c then Some 3 else None
              else if (byte_val a =? 237)%N then
                if in_range 128 159 b && is_cont c then Some 3 else None
              else if in_range 225 239 a then
                if is_cont b && is_cont c then Some 3 else None
              else match s3 with
              | EmptyString => None
              | String d _ =>
                  if (byte_val a =? 240)%N then
                    if in_range 144 191 b && is_cont c && is_cont d then Some 4 else None
                  else if (byte_val a =? 244)%N then
                    if in_range 128 143 b && is_cont c && is_cont d then Some 4 else None
                  else if in_range 241 243 a then
                    if is_cont b && is_cont c && is_cont d then Some 4 else None
                  else None
              end
          end
      end
  end.

(** [str::chars], each character as its encoding.  A [str] is always well formed;
    a byte that starts no character is a piece of its own, which makes [chars]
    total and [concat_str_chars] unconditional. *)
Fixpoint chars (s : string) : list string :=
  match s with
  | EmptyString => []
  | String a s1 =>
      match utf8_width s, s1 with
      | Some 2, String b s2 => String a (String b EmptyString) :: chars s2
      | Some 3, String b (String c s3) =>
          String a (String b (String c EmptyString)) :: chars s3
      | Some 4, String b (String c (String d s4)) =>
          String a (String b (String c (String d EmptyString))) :: chars s4
      | _, _ => String a EmptyString :: chars s1
      end
  end.

Definition char_ok (c : string) : bool :=
  bool_decide (utf8_width c = Some (String.length c)).

(** [std::str::from_utf8(..).is_ok()] *)
Definition utf8_valid (s : string) : bool := forallb char_ok (chars s).

Lemma utf8_width_bounds s n : utf8_width s = Some n → 1 ≤ n ≤ 4 ∧ n ≤ String.length s.
Proof. unfold utf8_width. repeat case_match; intros; simplify_eq/=; lia. Qed.

(** One step of [chars]: a character is cut off the front. *)
Lemma chars_step s :
  s ≠ EmptyString →
  ∃ c t, s = c +:+ t ∧ chars s = c :: chars t ∧ 1 ≤ String.length c ∧
         (utf8_width s = Some (String.length c) ∨ utf8_width s = None).
Proof.
  destruct s as [|a s1]; [done|]; intros _.
  assert (∃ o, utf8_width (String a s1) = o) as [o Ho] by eauto.
  assert (o = Some 1 ∨ o = None → ∃ c t, String a s1 = c +:+ t ∧
    chars (String a s1) = c :: chars t ∧ 1 ≤ String.length c ∧
    (o = Some (String.length c) ∨ o = None)) as H1.
  { intros H. exists (String a EmptyString), s1. split; [done|].
    split; [|simpl; naive_solver]. cbn [chars]. rewrite Ho. by destruct H as [-> | ->]. }
  rewrite Ho. destruct o as [n|]; [|by apply H1; right].
  pose proof (utf8_width_bounds _ _ Ho) as [Hn Hl]. simpl in Hl.
  destruct (decide (n = 1)) as [->|Hn1]; [by apply H1; left|]. clear H1.
  destruct (decide (n = 2)) as [->|Hn2].
  { destruct s1 as [|b s2]; [simpl in *; lia|].
    exists (String a (String b EmptyString)), s2. cbn [chars]. rewrite Ho. naive_solver. }
  destruct (decide (n = 3)) as [->|Hn3].
  { destruct s1 as [|b [|c s3]]; try (simpl in *; lia).
    exists (String a (String b (String c EmptyString))), s3. cbn [chars]. rewrite Ho.
    naive_solver lia. }
  destruct (decide (n = 4)) as [->|Hn4]; [|lia].
  destruct s1 as [|b [|c [|d s4]]]; try (simpl in *; lia).
  exists (String a (String b (String c (String d EmptyString)))), s4. cbn [chars]. rewrite Ho.
  naive_solver lia.
Qed.

Lemma str_len_ind (P : string → Prop) :
  (∀ s, (∀ t, String.length t < String.length s → P t) → P s) → ∀ s, P s.
Proof.
  intros IH s. assert (∀ n t, String.length t < n → P t) as Haux.
  { induction n as [|n IHn]; intros t Ht; [lia|]. apply IH. intros u Hu. apply IHn. lia. }
  apply (Haux (S (String.length s))). lia.
Qed.

Lemma concat_str_chars s : concat_str (chars s) = s.
Proof.
  induction s as [s IH] using str_len_ind.
  destruct (decide (s = EmptyString)) as [->|Hne]; [done|].
  destruct (chars_step s Hne) as (c & t & -> & -> & Hc & _). simpl. f_equal.
  apply IH. rewrite str_len_app. lia.
Qed.

(** Every byte of a multi-byte character is 128 or more. *)
Lemma multibyte_no_newline a b s :
  utf8_width (String a (String b s)) = Some (S (S (String.length s))) →
  contains_char newline (String a (String b s)) = false.
Proof.
  assert (∀ c lo hi, (11 ≤ lo)%N → in_range lo hi c = true → byte_eqb newline c = false) as Haux.
  { intros c lo hi Hlo H. unfold in_range in H. apply andb_true_iff in H as [H _].
    apply N.leb_le in H. apply byte_eqb_false. intros <-. change (byte_val newline) with 10%N in H. lia. }
  assert (∀ c, is_cont c = true → byte_eqb newline c = false) as Hcont
    by (intros c Hc; by apply (Haux c 128%N 191%N)).
  unfold contains_char, as_bytes. intros Hw.
  assert (byte_eqb newline a = false) as Ha.
  { unfold utf8_width in Hw. destruct (is_ascii_byte a) eqn:E; [by injection Hw as ?|].
    apply byte_eqb_false. intros <-. done. }
  unfold utf8_width in Hw. destruct (is_ascii_byte a); [by injection Hw as ?|].
  destruct s as [|c [|d [|e s]]];
    cbn [existsb String.length String.list_ascii_of_string] in *; rewrite Ha;
    repeat match goal with
    | H : (if ?b then _ else _) = Some _ |- _ => destruct b eqn:?; try discriminate H
    | H : _ && _ = true |- _ => apply andb_true_iff in H as [? ?]
    end; simplify_eq;
    repeat match goal with
    | H : is_cont ?c = true |- _ => rewrite (Hcont c H) in *; clear H
    | H : in_range ?lo ?hi ?c = true |- context [byte_eqb newline ?c] =>
        rewrite (Haux c lo hi ltac:(lia) H); clear H
    end; try done.
Qed.

(** A character other than the newline has no newline byte. *)
Lemma chars_newline s : Forall (λ c, c ≠ NL → contains_char newline c = false) (chars s).
Proof.
  induction s as [s IH] using str_len_ind. destruct s as [|a s1]; [constructor|].
  assert (String a EmptyString ≠ NL → contains_char newline (String a EmptyString) = false) as H1.
  { intros Hn. rewrite contains_char_cons. apply orb_false_iff. split; [|done].
    apply byte_eqb_false. intros <-. done. }
  cbn [chars]. destruct (utf8_width (String a s1)) as [[|[|[|[|[|n]]]]]|] eqn:E;
    repeat case_match; subst; constructor; try done; try (apply IH; simpl; lia);
    intros _; apply multibyte_no_newline; unfold utf8_width in *; repeat case_match; simplify_eq; done.
Qed.

Lemma utf8_width_app s t n : utf8_width s = Some n → utf8_width (s +:+ t) = Some n.
Proof.
  destruct s as [|a [|b [|c [|d s]]]]; rewrite ?str_app_cons, ?str_app_nil_l; unfold utf8_width.
  all: repeat match goal with |- context [if ?b then _ else _] => destruct b end; done.
Qed.

Lemma chars_ok_app c t : char_ok c = true → chars (c +:+ t) = c :: chars t.
Proof.
  unfold char_ok. intros H%bool_decide_eq_true.
  pose proof (utf8_width_bounds _ _ H) as [Hn _]. apply (utf8_width_app _ t) in H.
  destruct c as [|a [|b [|x [|d [|e u]]]]]; simpl in Hn; try lia; clear Hn.
  all: rewrite ?str_app_cons, ?str_app_nil_l in *; cbn [chars]; by rewrite H.
Qed.

Lemma chars_concat l t :
  forallb char_ok l = true → chars (concat_str l +:+ t) = l ++ chars t.
Proof.
  induction l as [|c l IH]; simpl; [done|]. intros [Hc Hl]%andb_true_iff.
  rewrite <-str_app_assoc, chars_ok_app by done. by rewrite IH.
Qed.

Lemma chars_app s t : utf8_valid s = true → chars (s +:+ t) = chars s ++ chars t.
Proof. intros H. rewrite <-(concat_str_chars s) at 1. by apply chars_concat. Qed.

Lemma utf8_valid_concat l : forallb char_ok l = true → utf8_valid (concat_str l) = true.
Proof.
  intros H. unfold utf8_valid. pose proof (chars_concat l EmptyString H) as Hc.
  rewrite str_app_nil_r in Hc. simpl in Hc. by rewrite Hc, app_nil_r.
Qed.

Lemma utf8_valid_app s t :
  utf8_valid s = true → utf8_valid t = true → utf8_valid (s +:+ t) = true.
Proof.
  intros Hs Ht. unfold utf8_valid. rewrite chars_app by done.
  rewrite forallb_app. by apply andb_true_iff.
Qed.


(** [char::len_utf8] summed while it fits: the cut loop
    [for (idx, ch) in s.char_indices() { .. if end <= budget { cut = end } else { break } }]
    returns the byte index of the last boundary reached. *)
Fixpoint cut_loop (budget idx : nat) (cs : list string) (cut : nat) : nat :=
  match cs with
  | [] => cut
  | ch :: cs' =>
      let e := idx + String.length ch in
      if e <=? budget then cut_loop budget e cs' e else cut
  end.

Lemma cut_loop_spec budget idx cs :
  idx ≤ budget →
  ∃ k, cut_loop budget idx cs idx = idx + sum_len (take k cs) ∧
       idx + sum_len (take k cs) ≤ budget ∧
       (∀ ch, cs !! k = Some ch → budget < idx + sum_len (take k cs) + String.length ch).
Proof.
  revert idx; induction cs as [|ch cs IH]; intros idx Hidx; simpl.
  - exists 0. rewrite ?take_nil. simpl. naive_solver lia.
  - destruct (Nat.leb_spec (idx + String.length ch) budget) as [Hle|Hgt].
    + destruct (IH (idx + String.length ch) Hle) as (k & H1 & H2 & H3).
      exists (S k). unfold sum_len in *. simpl. split_and!; [lia|lia|].
      intros c Hc. specialize (H3 c Hc). lia.
    + exists 0. unfold sum_len. simpl. split_and!; [lia|lia|]. intros c ?; simplify_eq. lia.
Qed.

(** The cut is at a character boundary: what is kept is a prefix of the characters. *)
Lemma str_take_chars k s :
  str_take (sum_len (take k (chars s))) s = concat_str (take k (chars s)).
Proof.
  rewrite <-(concat_str_chars s) at 2. rewrite <-(take_drop k (chars s)) at 2.
  rewrite concat_str_app, <-str_len_concat. apply str_take_app_len.
Qed.

Definition cut_at (budget : nat) (s : string) : string :=
  str_take (cut_loop budget 0 (chars s) 0) s.

Lemma cut_at_spec budget s :
  ∃ k, cut_at budget s = concat_str (take k (chars s)) ∧
       String.length (cut_at budget s) ≤ budget ∧
       (∀ ch, chars s !! k = Some ch →
              budget < String.length (cut_at budget s) + String.length ch).
Proof.
  destruct (cut_loop_spec budget 0 (chars s) ltac:(lia)) as (k & H1 & H2 & H3).
  exists k. unfold cut_at. rewrite H1, Nat.add_0_l, str_take_chars.
  rewrite str_len_concat. naive_solver.
Qed.

Lemma cut_at_valid budget s : utf8_valid s = true → utf8_valid (cut_at budget s) = true.
Proof.
  intros Hs. destruct (cut_at_spec budget s) as (k & -> & _).
  apply utf8_valid_concat. unfold utf8_valid in Hs.
  rewrite <-(take_drop k (chars s)), forallb_app in Hs. by apply andb_true_iff in Hs as [? _].
Qed.

(** ** Character classes and case *)

Definition char_bytes (c : string) : list N := byte_val <$> as_bytes c.

(** [char::is_whitespace]: the Unicode [White_Space] characters. *)
Definition is_whitespace (c : string) : bool :=
  match char_bytes c with
  | [b] => ((9 <=? b)%N && (b <=? 13)%N) || (b =? 32)%N
  | [b1; b2] => (b1 =? 194)%N && ((b2 =? 133)%N || (b2 =? 160)%N)
  | [b1; b2; b3] =>
      ((b1 =? 225)%N && (b2 =? 154)%N && (b3 =? 128)%N)
      || ((b1 =? 226)%N && (b2 =? 128)%N &&
          (((128 <=? b3)%N && (b3 <=? 138)%N) || (b3 =? 168)%N || (b3 =? 169)%N || (b3 =? 175)%N))
      || ((b1 =? 226)%N && (b2 =? 129)%N && (b3 =? 159)%N)
      || ((b1 =? 227)%N && (b2 =? 128)%N && (b3 =? 128)%N)
  | _ => false
  end.

(** The Unicode data that the standard library uses beyond ASCII. *)
Class Unicode := {
  unicode_lowercase : string → string;      (** [str::to_lowercase] of non-ASCII text *)
  unicode_alphanumeric : string → bool;     (** [char::is_alphanumeric] beyond ASCII *)
  debug_str : string → string;              (** [format!("{s:?}")]: quoted and escaped *)
}.

(** An instance to run examples with: no case or letter beyond ASCII. *)
Definition ascii_only : Unicode :=
  {| unicode_lowercase s := s; unicode_alphanumeric _ := false;
     debug_str s := String double_quote (s +:+ String double_quote EmptyString) |}.

Definition is_ascii (s : string) : bool := forallb is_ascii_byte (as_bytes s).

Definition lower_byte (c : ascii) : ascii :=
  if is_ascii_upper c then ascii_of_N (byte_val c + 32) else c.

Definition ascii_lowercase (s : string) : string := of_bytes (lower_byte <$> as_bytes s).

(** [str::to_lowercase] *)
Definition to_lowercase `{Unicode} (s : string) : string :=
  if is_ascii s then ascii_lowercase s else unicode_lowercase s.

(** [char::is_alphanumeric] *)
Definition is_alphanumeric `{Unicode} (c : string) : bool :=
  match c with
  | String a EmptyString => is_ascii_alnum a
  | _ => unicode_alphanumeric c
  end.

(** [str::trim_start], [trim_end], [trim] *)
Definition trim_start (s : string) : string :=
  concat_str (drop_while is_whitespace (chars s)).

Definition trim_end (s : string) : string :=
  concat_str (reverse (drop_while is_whitespace (reverse (chars s)))).

Definition trim (s : string) : string :=
  concat_str (reverse (drop_while is_whitespace
    (reverse (drop_while is_whitespace (chars s))))).

(** [str::split_whitespace] *)
Fixpoint words_of (cs : list string) (cur : string) : list string :=
  match cs with
  | [] => if str_is_empty cur then [] else [cur]
  | c :: cs' =>
      if is_whitespace c then
        if str_is_empty cur then words_of cs' EmptyString else cur :: words_of cs' EmptyString
      else words_of cs' (cur +:+ c)
  end.

Definition split_whitespace (s : string) : list string := words_of (chars s) EmptyString.

(** [trim_start_matches(c)], [trim_end_matches(c)] for an ASCII character *)
Definition trim_start_char (c : ascii) (s : string) : string :=
  of_bytes (drop_while (byte_eqb c) (as_bytes s)).

Definition trim_end_char (c : ascii) (s : string) : string :=
  of_bytes (reverse (drop_while (byte_eqb c) (reverse (as_bytes s)))).

Lemma trim_len s : String.length (trim s) ≤ String.length s.
Proof.
  unfold trim. rewrite <-(concat_str_chars s) at 2. rewrite !str_len_concat.
  set (l := chars s). clearbody l.
  rewrite <-(take_drop_while is_whitespace l) at 2.
  set (k := drop_while is_whitespace l). clearbody k.
  rewrite <-(reverse_involutive k) at 2.
  rewrite <-(take_drop_while is_whitespace (reverse k)) at 2.
  unfold sum_len. rewrite reverse_app, !sum_list_with_app. lia.
Qed.

Lemma join_valid l :
  Forall (λ x, utf8_valid x = true) l → utf8_valid (join NL l) = true.
Proof.
  induction 1 as [|x l Hx Hl IH]; [done|]. destruct l as [|y l]; [done|].
  rewrite join_cons by done. apply utf8_valid_app; [done|]. by apply utf8_valid_app.
Qed.

(** *** What trimming leaves alone *)

Lemma chars_ascii a s : is_ascii_byte a = true → chars (String a s) = String a EmptyString :: chars s.
Proof. intros Ha. cbn [chars]. unfold utf8_width. by rewrite Ha. Qed.

(** The text ends with a character that is no white space. *)
Definition ends_clean (s : string) : bool :=
  match last (chars s) with Some c => negb (is_whitespace c) | None => false end.

Lemma trim_end_clean s : ends_clean s = true → trim_end s = s.
Proof.
  unfold ends_clean, trim_end. intros Hc. rewrite <-(concat_str_chars s) at 2. f_equal.
  destruct (chars s) as [|c cs _] using rev_ind; [done|]. rewrite last_snoc in Hc.
  rewrite reverse_snoc. simpl. apply negb_true_iff in Hc. rewrite Hc.
  by rewrite reverse_cons, reverse_involutive.
Qed.

Lemma ends_clean_app s t : utf8_valid s = true → ends_clean t = true → ends_clean (s +:+ t) = true.
Proof.
  unfold ends_clean. intros Hs Ht. rewrite chars_app, last_app by done. by destruct (last (chars t)).
Qed.

Lemma ends_clean_nonempty s : ends_clean s = true → s ≠ EmptyString.
Proof. by intros H ->. Qed.

(** A text that starts with a visible ASCII character still does. *)
Lemma drop_while_snoc_keep {A} (p : A → bool) l x :
  p x = false → ∃ k, drop_while p (l ++ [x]) = k ++ [x].
Proof.
  intros Hx. induction l as [|y l IH]; simpl; [rewrite Hx; by exists []|].
  destruct (p y); [done|]. by exists (y :: l).
Qed.

Section visible.
Variables (a : ascii) (s : string).
Hypothesis Ha : is_ascii_byte a = true.
Hypothesis Hw : is_whitespace (String a EmptyString) = false.

Lemma trim_visible : trim (String a s) = trim_end (String a s).
Proof. unfold trim, trim_end. rewrite chars_ascii by done. simpl. by rewrite Hw. Qed.

Lemma trim_end_visible : ∃ r, trim_end (String a s) = String a r.
Proof.
  unfold trim_end. rewrite chars_ascii, reverse_cons by done.
  destruct (drop_while_snoc_keep is_whitespace (reverse (chars s)) (String a EmptyString) Hw) as [k ->].
  rewrite reverse_snoc. by exists (concat_str (reverse k)).
Qed.
End visible.

(** *** Carriage returns at the end *)

Definition ends_cr (s : string) : bool := ends_with (String carriage_return EmptyString) s.

Lemma strip_cr_id s : ends_cr s = false → strip_cr s = s.
Proof. unfold ends_cr, strip_cr, strip_suffix. by intros ->. Qed.

Lemma ends_cr_app m s : contains_char carriage_return m = false → ends_cr s = false → ends_cr (m +:+ s) = false.
Proof.
  intros Hm Hs. induction m as [|a m IH]; [done|].
  rewrite contains_char_cons, orb_false_iff in Hm. destruct Hm as [Ha Hm]. specialize (IH Hm).
  apply not_true_iff_false. intros [r Hr]%ends_with_true.
  destruct r as [|b r]; rewrite str_app_cons, ?str_app_nil_l, ?str_app_cons in Hr.
  - injection Hr as -> _. by rewrite byte_eqb_refl in Ha.
  - injection Hr as -> Hr. apply not_true_iff_false in IH. apply IH, ends_with_true. eauto.
Qed.

Lemma lines_join ls x :
  Forall (λ l, contains_char newline l = false ∧ ends_cr l = false) ls →
  contains_char newline x = false → x ≠ EmptyString →
  lines (join NL (ls ++ [x])) = ls ++ [x].
Proof.
  intros Hls Hx Hne. unfold lines. rewrite split_char_join; [|by destruct ls|].
  - induction Hls as [|l ls [_ Hl] Hls IH]; simpl; [by apply str_is_empty_false in Hne as ->|].
    destruct (ls ++ [x]) as [|y k] eqn:E; [by destruct ls|]. rewrite strip_cr_id by done. by f_equal.
  - apply Forall_app. split; [|by constructor]. eapply Forall_impl; [done|]. by intros l [? _].
Qed.

(** ** Decimal formatting, [format!("{n}")] *)

Definition fmt_nat (n : nat) : string := pretty n.

Lemma fmt_nat_inj n m : fmt_nat n = fmt_nat m → n = m.
Proof. apply (inj pretty). Qed.

(** [format!("{b:02x}")] *)
Definition hex_digit (n : N) : ascii :=
  if (n <? 10)%N then ascii_of_N (48 + n) else ascii_of_N (87 + n).

Definition hex_byte (b : ascii) : string :=
  String (hex_digit (byte_val b / 16)) (String (hex_digit (byte_val b `mod` 16)) EmptyString).

(** ** Where [find] finds *)

Lemma find_none_at needle s i : find needle s = None → starts_with needle (str_drop i s) = false.
Proof.
  revert i; induction s as [|a s IH]; intros i; cbn [find].
  - destruct (starts_with needle EmptyString) eqn:E; [done|]. by destruct i.
  - destruct (starts_with needle (String a s)) eqn:E; [done|]. destruct i as [|i]; [done|].
    simpl. intros H. apply IH. by destruct (find needle s).
Qed.

Lemma find_some_at needle s k : find needle s = Some k → starts_with needle (str_drop k s) = true.
Proof.
  intros H. destruct (find_some _ _ _ H) as [r Hr]. pose proof (find_len _ _ _ H) as Hl.
  rewrite Hr. replace k with (String.length (str_take k s)) at 1 by (rewrite str_len_take; lia).
  rewrite str_drop_app_len. apply starts_with_app.
Qed.

Lemma find_first needle s k i :
  find needle s = Some k → i < k → starts_with needle (str_drop i s) = false.
Proof.
  revert k i; induction s as [|a s IH]; intros k i; cbn [find].
  - destruct (starts_with needle EmptyString); intros; simplify_eq; lia.
  - destruct (starts_with needle (String a s)) eqn:E; [intros; simplify_eq; lia|].
    destruct (find needle s) as [m|] eqn:Em; [|done]. simpl. intros [= <-] Hi.
    destruct i as [|i]; [done|]. apply (IH m); [done|lia].
Qed.

Lemma str_drop_drop n m s : str_drop n (str_drop m s) = str_drop (m + n) s.
Proof. revert s; induction m as [|m IH]; intros [|a s]; simpl; auto. by destruct n. Qed.

Lemma str_drop_app n s t : n ≤ String.length s → str_drop n (s +:+ t) = str_drop n s +:+ t.
Proof.
  revert s; induction n as [|n IH]; intros [|a s]; simpl; try done; [lia|].
  intros H. apply IH. lia.
Qed.

(** A text that begins at two places: it fits before the end, or the end cuts it. *)
Lemma starts_with_across p s t :
  starts_with p (s +:+ t) = true → String.length s < String.length p → s = str_take (String.length s) p.
Proof.
  intros [r Hr]%starts_with_true Hl. apply (f_equal (str_take (String.length s))) in Hr.
  by rewrite str_take_app_len, str_take_app_le in Hr by lia.
Qed.

Lemma find_cut needle s k :
  find needle s = Some k → s = str_take k s +:+ (needle +:+ str_drop (k + String.length needle) s).
Proof.
  intros H. destruct (find_some _ _ _ H) as [r Hr]. pose proof (find_len _ _ _ H) as Hl.
  rewrite Hr at 1. do 2 f_equal. rewrite <-str_drop_drop. rewrite Hr at 1.
  replace k with (String.length (str_take k s)) at 1 by (rewrite str_len_take; lia).
  by rewrite str_drop_app_len, str_drop_app_len.
Qed.

Lemma find_none_drop needle s k : find needle s = None → find needle (str_drop k s) = None.
Proof.
  intros H. destruct (find needle (str_drop k s)) as [i|] eqn:E; [|done].
  apply find_some_at in E. rewrite str_drop_drop in E. by rewrite (find_none_at _ _ _ H) in E.
Qed.

Lemma contains_drop needle s i : starts_with needle (str_drop i s) = true → contains needle s = true.
Proof.
  intros H. unfold contains. apply bool_decide_eq_true. destruct (find needle s) eqn:E; [eauto|].
  by rewrite (find_none_at _ _ i E) in H.
Qed.

Example chars_example :
  chars "a行x" = ["a"; "行"; "x"] ∧ utf8_valid "a行x" = true ∧ trim " a行  " = "a行" ∧
  lines ("a" +:+ String carriage_return NL +:+ "b") = ["a"; "b"] ∧
  cut_at 3 "a行x" = "a".
Proof. repeat split; vm_compute; reflexivity. Qed.
