(* ===== verification/Utf8.v ===== *)
(** * UTF-8 decoding

    [std::str::from_utf8] with its errors, character boundaries, and the facts about UTF-8
    that stream parsers rely on: the encoding synchronises itself, a text can be cut where
    a character begins, and bytes that end inside a character can always be continued.  Then the facts about lower case. *)

From S2P Require Import Prelude Str.

(** [str::is_char_boundary] *)
Definition is_char_boundary (s : string) (n : nat) : bool :=
  match str_drop n s with
  | EmptyString => n =? String.length s
  | String a _ => negb (is_cont a)
  end.

(** ** [std::str::from_utf8] *)

(** The second bytes allowed after a lead byte of three or four. *)
Definition second_ok (a b : ascii) : bool :=
  if (byte_val a =? 224)%N then in_range 160 191 b
  else if (byte_val a =? 237)%N then in_range 128 159 b
  else if (byte_val a =? 240)%N then in_range 144 191 b
  else if (byte_val a =? 244)%N then in_range 128 143 b
  else is_cont b.

(** [Utf8Error::error_len] for bytes that begin with no character: the length of the
    sequence to skip, or [None] when the bytes end before the character does. *)
Definition bad_len (s : string) : option nat :=
  match s with
  | EmptyString => None
  | String a s1 =>
      if in_range 194 223 a then match s1 with EmptyString => None | _ => Some 1 end
      else if in_range 224 239 a then
        match s1 with
        | EmptyString => None
        | String b s2 =>
            if second_ok a b then match s2 with EmptyString => None | _ => Some 2 end
            else Some 1
        end
      else if in_range 240 244 a then
        match s1 with
        | EmptyString => None
        | String b s2 =>
            if second_ok a b then
              match s2 with
              | EmptyString => None
              | String c s3 =>
                  if is_cont c then match s3 with EmptyString => None | _ => Some 3 end
                  else Some 2
              end
            else Some 1
        end
      else Some 1
  end.

Record Utf8Error := { valid_up_to : nat; error_len : option nat }.

(** The characters before the first malformed sequence. *)
Definition good_prefix (s : string) : string := concat_str (take_while char_ok (chars s)).

Definition from_utf8 (s : string) : Result string Utf8Error :=
  let n := String.length (good_prefix s) in
  if n =? String.length s then Ok s
  else Err {| valid_up_to := n; error_len := bad_len (str_drop n s) |}.

(** ** Boundaries *)

Lemma utf8_width_head a s n : utf8_width (String a s) = Some n → is_cont a = false.
Proof.
  unfold utf8_width, is_ascii_byte, is_cont, in_range. intros Hw. apply not_true_iff_false. intros Hc.
  apply andb_true_iff in Hc as [H1%N.leb_le H2%N.leb_le].
  repeat case_match; simplify_eq;
    repeat match goal with
    | H : (_ && _) = true |- _ => apply andb_true_iff in H as [? ?]
    | H : (_ <=? _)%N = true |- _ => apply N.leb_le in H
    | H : (_ <? _)%N = true |- _ => apply N.ltb_lt in H
    | H : (_ =? _)%N = true |- _ => apply N.eqb_eq in H
    end; lia.
Qed.

(** A well-formed text does not begin inside a character. *)
Lemma valid_head a s : utf8_valid (String a s) = true → is_cont a = false.
Proof.
  intros Hv. destruct (chars_step (String a s)) as (c & t & Heq & Hcs & Hc & _); [done|].
  unfold utf8_valid in Hv. rewrite Hcs in Hv. simpl in Hv. apply andb_true_iff in Hv as [Hok _].
  unfold char_ok in Hok. apply bool_decide_eq_true in Hok.
  destruct c as [|b c]; [simpl in Hc; lia|]. rewrite str_app_cons in Heq. injection Heq as <- _.
  by eapply utf8_width_head.
Qed.

Lemma boundary_app s t : utf8_valid t = true → is_char_boundary (s +:+ t) (String.length s) = true.
Proof.
  intros Ht. unfold is_char_boundary. rewrite str_drop_app_len. destruct t as [|a t].
  - rewrite str_app_nil_r. by apply Nat.eqb_refl.
  - by rewrite (valid_head _ _ Ht).
Qed.


(** Two ways to cut the same text. *)
Lemma str_app_split (c u a t : string) :
  c +:+ u = a +:+ t → String.length c ≤ String.length a → ∃ a', a = c +:+ a' ∧ u = a' +:+ t.
Proof.
  revert a; induction c as [|b c IH]; intros a He Hl; [by exists a|].
  destruct a as [|b' a]; simpl in Hl; [lia|]. rewrite !str_app_cons in He. injection He as -> He.
  destruct (IH a He ltac:(lia)) as (a' & -> & ->). by exists a'.
Qed.

Lemma str_app_inj_l (s t u : string) : s +:+ t = s +:+ u → t = u.
Proof. induction s as [|a s IH]; [done|]. rewrite !str_app_cons. intros [= H]. auto. Qed.

Lemma utf8_valid_cons c t :
  char_ok c = true → utf8_valid (c +:+ t) = utf8_valid t.
Proof. intros Hc. unfold utf8_valid. rewrite chars_ok_app by done. simpl. by rewrite Hc. Qed.

Lemma utf8_valid_app_l s t : utf8_valid s = true → utf8_valid (s +:+ t) = utf8_valid t.
Proof. intros Hs. unfold utf8_valid in *. by rewrite chars_app, forallb_app, Hs by done. Qed.

Lemma utf8_valid_char c : char_ok c = true → utf8_valid c = true.
Proof. intros Hc. rewrite <-(str_app_nil_r c). by rewrite utf8_valid_cons. Qed.

Lemma utf8_valid_all ts : Forall (λ t, utf8_valid t = true) ts → utf8_valid (concat_str ts) = true.
Proof. induction 1; simpl; [done|]. by apply utf8_valid_app. Qed.

(** A valid text that is not empty begins with a character. *)
Lemma utf8_valid_inv s :
  utf8_valid s = true → s ≠ EmptyString →
  ∃ c t, s = c +:+ t ∧ char_ok c = true ∧ c ≠ EmptyString ∧ utf8_valid t = true.
Proof.
  intros Hv Hne. destruct (chars_step s Hne) as (c & t & -> & Hcs & Hl & _).
  unfold utf8_valid in Hv. rewrite Hcs in Hv. simpl in Hv. apply andb_true_iff in Hv as [Hc Ht].
  exists c, t. repeat split; try done. intros ->. simpl in Hl. lia.
Qed.

Lemma in_range_cont lo hi b : (128 ≤ lo)%N → (hi ≤ 191)%N → in_range lo hi b = true → is_cont b = true.
Proof.
  unfold in_range, is_cont. rewrite !andb_true_iff, !N.leb_le. lia.
Qed.

Lemma second_ok_cont a b : second_ok a b = true → is_cont b = true.
Proof. unfold second_ok. repeat case_match; try done; apply in_range_cont; lia. Qed.

(** The bytes of a character after its first continue it. *)
Lemma char_tail_cont a c : char_ok (String a c) = true → forallb is_cont (as_bytes c) = true.
Proof.
  unfold char_ok. intros H%bool_decide_eq_true.
  destruct c as [|b [|x [|d [|e u]]]]; [done|..].
  4: { apply utf8_width_bounds in H as [? _]. simpl in *. lia. }
  all: unfold utf8_width in H; repeat case_match; simplify_eq/=;
    repeat match goal with
    | H : (_ && _) = true |- _ => apply andb_true_iff in H as [? ?]
    | H : in_range ?lo ?hi ?b = true |- _ => apply (in_range_cont lo hi b) in H; [|lia..]
    end; by repeat match goal with H : is_cont _ = true |- _ => rewrite H; clear H end.
Qed.

(** The text begins where a character can: at the end, or at a byte that continues none. *)
Definition starts_char (t : string) : bool :=
  match t with EmptyString => true | String a _ => negb (is_cont a) end.

Lemma valid_starts_char t : utf8_valid t = true → starts_char t = true.
Proof. destruct t as [|a t]; [done|]. intros H. simpl. by rewrite (valid_head _ _ H). Qed.

(** UTF-8 synchronises itself: a valid text may be cut before any byte that begins a
    character. *)
Lemma valid_cut a t : utf8_valid (a +:+ t) = true → starts_char t = true → utf8_valid a = true ∧ utf8_valid t = true.
Proof.
  induction a as [a IH] using str_len_ind. intros Hv Ht.
  destruct (decide (a = EmptyString)) as [->|Hne]; [done|].
  destruct (utf8_valid_inv _ Hv) as (c & u & He & Hc & Hcne & Hu).
  { by intros [? _]%str_app_eq_nil. }
  destruct (decide (String.length c ≤ String.length a)) as [Hl|Hl].
  - destruct (str_app_split c u a t (eq_sym He) Hl) as (a' & -> & ->).
    rewrite utf8_valid_cons by done. apply IH; [|done..].
    rewrite str_len_app. destruct c; simpl; [done|lia].
  - destruct (str_app_split a t c u He ltac:(lia)) as (d & -> & ->).
    destruct a as [|x a]; [done|]. apply char_tail_cont in Hc.
    rewrite as_bytes_app, forallb_app in Hc. apply andb_true_iff in Hc as [_ Hd].
    destruct d as [|y d]; [rewrite str_app_nil_r in Hl; lia|].
    rewrite str_app_cons in Ht. simpl in Ht, Hd. by destruct (is_cont y).
Qed.

(** ** What [from_utf8] reports *)

(** The width of a character depends on its own bytes only. *)
Lemma utf8_width_take c t : utf8_width (c +:+ t) = Some (String.length c) → utf8_width c = Some (String.length c).
Proof.
  destruct c as [|a [|b [|x [|d [|e u]]]]]; rewrite ?str_app_cons, ?str_app_nil_l.
  - intros H. apply utf8_width_bounds in H. simpl in H. lia.
  - unfold utf8_width. repeat case_match; by intros.
  - unfold utf8_width. repeat case_match; by intros.
  - unfold utf8_width. repeat case_match; by intros.
  - done.
  - intros H. apply utf8_width_bounds in H. simpl in H. lia.
Qed.

Lemma good_prefix_spec s :
  ∃ r, s = good_prefix s +:+ r ∧ utf8_valid (good_prefix s) = true ∧
       (r = EmptyString ∨ utf8_width r = None).
Proof.
  induction s as [s IH] using str_len_ind. destruct (decide (s = EmptyString)) as [->|Hne].
  { exists EmptyString. auto. }
  destruct (chars_step s Hne) as (c & t & -> & Hcs & Hl & Hw). unfold good_prefix. rewrite Hcs. simpl.
  destruct (char_ok c) eqn:Hc.
  - simpl. destruct (IH t) as (r & Ht & Hv & Hr); [rewrite str_len_app; lia|].
    exists r. fold (good_prefix t). rewrite <-str_app_assoc, <-Ht. split; [done|].
    by rewrite utf8_valid_cons.
  - exists (c +:+ t). split; [done|]. split; [done|]. right. destruct Hw as [Hw|Hw]; [|done].
    apply utf8_width_take in Hw. unfold char_ok in Hc. by apply bool_decide_eq_false in Hc.
Qed.

Lemma utf8_width_invalid r : utf8_width r = None → r ≠ EmptyString → utf8_valid r = false.
Proof.
  intros Hw Hne. apply not_true_iff_false. intros Hv.
  destruct (utf8_valid_inv r Hv Hne) as (c & t & -> & Hc & _ & _). unfold char_ok in Hc.
  apply bool_decide_eq_true in Hc. by rewrite (utf8_width_app _ t _ Hc) in Hw.
Qed.

Lemma from_utf8_ok s : utf8_valid s = true → from_utf8 s = Ok s.
Proof.
  intros Hv. unfold from_utf8. destruct (good_prefix_spec s) as (r & Hs & Hg & Hr).
  assert (r = EmptyString) as ->.
  { destruct Hr as [->|Hr]; [done|]. destruct (decide (r = EmptyString)) as [|Hne]; [done|].
    rewrite Hs, (utf8_valid_app_l _ _ Hg) in Hv. by rewrite (utf8_width_invalid r Hr Hne) in Hv. }
  rewrite str_app_nil_r in Hs. rewrite <-Hs. by rewrite Nat.eqb_refl.
Qed.

(** The text is its good prefix, then a sequence that begins with no character. *)
Lemma from_utf8_cases s :
  (from_utf8 s = Ok s ∧ utf8_valid s = true) ∨
  (∃ g r, s = g +:+ r ∧ utf8_valid g = true ∧ r ≠ EmptyString ∧ utf8_width r = None ∧
          from_utf8 s = Err {| valid_up_to := String.length g; error_len := bad_len r |}).
Proof.
  destruct (good_prefix_spec s) as (r & Hs & Hg & Hr).
  destruct (decide (r = EmptyString)) as [->|Hne].
  - left. rewrite str_app_nil_r in Hs. rewrite <-Hs in Hg. auto using from_utf8_ok.
  - right. exists (good_prefix s), r. destruct Hr as [?|Hr]; [done|].
    repeat split; try done. unfold from_utf8.
    assert (String.length (good_prefix s) <> String.length s) as Hl.
    { rewrite Hs at 2. rewrite str_len_app. destruct r; simpl; [done|lia]. }
    apply Nat.eqb_neq in Hl. rewrite Hl. do 2 f_equal. f_equal.
    rewrite Hs at 2. apply str_drop_app_len.
Qed.

Ltac split_bytes :=
  repeat match goal with
  | H : (_ && _) = true |- _ => apply andb_true_iff in H as [? ?]
  | H : (_ <=? _)%N = true |- _ => apply N.leb_le in H
  | H : (_ <? _)%N = true |- _ => apply N.ltb_lt in H
  | H : (_ =? _)%N = true |- _ => apply N.eqb_eq in H
  | H : (_ =? _)%N = false |- _ => apply N.eqb_neq in H
  | H : (_ <? _)%N = false |- _ => apply N.ltb_ge in H
  | H : (_ && _) = false |- _ => apply andb_false_iff in H as [?|?]
  | H : (_ <=? _)%N = false |- _ => apply N.leb_gt in H
  end.

(** The widths by lead byte. *)
Lemma width_2 a b : in_range 194 223 a = true → is_cont b = true → utf8_width (String a (String b EmptyString)) = Some 2.
Proof.
  intros Ha Hb. cbn [utf8_width]. rewrite Ha, Hb. by destruct (is_ascii_byte a) eqn:E;
    [unfold is_ascii_byte, in_range in *; split_bytes; lia|].
Qed.

Lemma width_3 a b c :
  in_range 224 239 a = true → second_ok a b = true → is_cont c = true →
  utf8_width (String a (String b (String c EmptyString))) = Some 3.
Proof.
  intros Ha Hb Hc. cbn [utf8_width]. rewrite Hc, !andb_true_r. unfold second_ok in Hb.
  destruct (is_ascii_byte a) eqn:E; [unfold is_ascii_byte, in_range in *; split_bytes; lia|].
  destruct (in_range 194 223 a) eqn:E2; [unfold in_range in *; split_bytes; lia|].
  destruct (byte_val a =? 224)%N eqn:E3; [by rewrite Hb|].
  destruct (byte_val a =? 237)%N eqn:E4; [by rewrite Hb|].
  destruct (in_range 225 239 a) eqn:E5; [|unfold in_range in *; split_bytes; lia].
  repeat case_match; try done; unfold in_range in *; split_bytes; lia.
Qed.

Lemma width_4 a b c d :
  in_range 240 244 a = true → second_ok a b = true → is_cont c = true → is_cont d = true →
  utf8_width (String a (String b (String c (String d EmptyString)))) = Some 4.
Proof.
  intros Ha Hb Hc Hd. cbn [utf8_width]. rewrite Hc, Hd, !andb_true_r. unfold second_ok in Hb.
  destruct (is_ascii_byte a) eqn:E; [unfold is_ascii_byte, in_range in *; split_bytes; lia|].
  destruct (in_range 194 223 a) eqn:E2; [unfold in_range in *; split_bytes; lia|].
  destruct (in_range 225 239 a) eqn:E5; [unfold in_range in *; split_bytes; lia|].
  destruct (byte_val a =? 224)%N eqn:E3; [unfold in_range in *; split_bytes; lia|].
  destruct (byte_val a =? 237)%N eqn:E4; [unfold in_range in *; split_bytes; lia|].
  destruct (byte_val a =? 240)%N eqn:E6; [by rewrite Hb|].
  destruct (byte_val a =? 244)%N eqn:E7; [by rewrite Hb|].
  destruct (in_range 241 243 a) eqn:E8; [by rewrite Hb|unfold in_range in *; split_bytes; lia].
Qed.

(** Bytes that begin a character once more bytes follow have an error without length. *)
Lemma bad_len_extends r t k : utf8_width r = None → utf8_width (r +:+ t) = Some k → bad_len r = None.
Proof.
  destruct r as [|a [|b [|c [|d r]]]]; [done|..]; rewrite ?str_app_cons, ?str_app_nil_l.
  all: unfold utf8_width, bad_len, second_ok, is_ascii_byte, is_cont, in_range; intros Hr Ht;
    repeat case_match; simplify_eq; try done; split_bytes; try lia.
Qed.

(** Bytes with an error without length begin a character once the right bytes follow. *)
Definition fill : ascii := "128"%char.

Definition second_fill (a : ascii) : ascii :=
  if (byte_val a =? 224)%N then "160"%char else if (byte_val a =? 240)%N then "144"%char else fill.

Lemma second_fill_ok a : second_ok a (second_fill a) = true.
Proof. unfold second_ok, second_fill. repeat case_match; try done; split_bytes; congruence. Qed.

Lemma bad_len_completes r :
  r ≠ EmptyString → bad_len r = None → utf8_width r = None → ∃ t, char_ok (r +:+ t) = true.
Proof.
  assert (is_cont fill = true) as Hf by done.
  unfold char_ok. setoid_rewrite bool_decide_eq_true.
  destruct r as [|a [|b [|c [|d r]]]]; [done|..]; intros _; cbn [bad_len].
  - destruct (in_range 194 223 a) eqn:E1; [|destruct (in_range 224 239 a) eqn:E2;
      [|destruct (in_range 240 244 a) eqn:E3; [|done]]]; intros _ _.
    + exists (String fill EmptyString). by apply width_2.
    + exists (String (second_fill a) (String fill EmptyString)).
      apply width_3; auto using second_fill_ok.
    + exists (String (second_fill a) (String fill (String fill EmptyString))).
      apply width_4; auto using second_fill_ok.
  - destruct (in_range 194 223 a); [done|]. destruct (in_range 224 239 a) eqn:E2;
      [|destruct (in_range 240 244 a) eqn:E3; [|done]]; destruct (second_ok a b) eqn:E4; try done; intros _ _.
    + exists (String fill EmptyString). by apply width_3.
    + exists (String fill (String fill EmptyString)). by apply width_4.
  - destruct (in_range 194 223 a); [done|]. destruct (in_range 224 239 a) eqn:E2;
      [|destruct (in_range 240 244 a) eqn:E3; [|done]]; destruct (second_ok a b) eqn:E4; try done.
    destruct (is_cont c) eqn:E5; [|done]; intros _ _.
    exists (String fill EmptyString). by apply width_4.
  - destruct (in_range 194 223 a); [done|]. repeat case_match; done.
Qed.

(** [from_utf8] reports a final error exactly when no continuation is valid. *)
Lemma from_utf8_final s e :
  from_utf8 s = Err e → is_Some (error_len e) ↔ ∀ t, utf8_valid (s +:+ t) = false.
Proof.
  intros He. destruct (from_utf8_cases s) as [[Hok _]|(g & r & -> & Hg & Hr & Hw & Hf)]; [congruence|].
  rewrite Hf in He. injection He as <-. simpl. split.
  - intros [n Hn] t. rewrite <-str_app_assoc, (utf8_valid_app_l _ _ Hg).
    apply utf8_width_invalid; [|by intros [? _]%str_app_eq_nil].
    destruct (utf8_width (r +:+ t)) as [k|] eqn:E; [|done].
    by rewrite (bad_len_extends _ _ _ Hw E) in Hn.
  - intros H. destruct (bad_len r) eqn:E; [eauto|].
    destruct (bad_len_completes r Hr E Hw) as [t Ht]. specialize (H t).
    rewrite <-str_app_assoc, (utf8_valid_app_l _ _ Hg) in H.
    by rewrite (utf8_valid_char _ Ht) in H.
Qed.

Example from_utf8_examples :
  from_utf8 "a行" = Ok "a行" ∧
  from_utf8 (str_take 3 "a行") = Err {| valid_up_to := 1; error_len := None |} ∧
  from_utf8 (String "195" "(") = Err {| valid_up_to := 0; error_len := Some 1 |}.
Proof. repeat split; vm_refl. Qed.

(** ** ASCII lower case

    Lemmas on [to_ascii_lowercase]: it keeps lengths, characters, white space and everything
    that is found by a character that is not a letter. *)

Lemma ascii_lowercase_len s : String.length (ascii_lowercase s) = String.length s.
Proof. unfold ascii_lowercase. by rewrite length_of_bytes, length_fmap, length_as_bytes. Qed.

Lemma ascii_lowercase_cons c s : ascii_lowercase (String c s) = String (lower_byte c) (ascii_lowercase s).
Proof. done. Qed.

Lemma ascii_lowercase_app s t : ascii_lowercase (s +:+ t) = ascii_lowercase s +:+ ascii_lowercase t.
Proof. unfold ascii_lowercase. by rewrite as_bytes_app, fmap_app, of_bytes_app. Qed.

Lemma lower_byte_idem c : lower_byte (lower_byte c) = lower_byte c.
Proof. by destruct c as [[] [] [] [] [] [] [] []]. Qed.

Lemma ascii_lowercase_idem s : ascii_lowercase (ascii_lowercase s) = ascii_lowercase s.
Proof. induction s as [|c s IH]; [done|]. by rewrite !ascii_lowercase_cons, lower_byte_idem, IH. Qed.

Lemma as_bytes_lower s : as_bytes (ascii_lowercase s) = lower_byte <$> as_bytes s.
Proof. unfold ascii_lowercase. apply as_of_bytes. Qed.

(** A byte that lower case does not produce from another one. *)
Definition caseless (c : ascii) : bool := negb (is_ascii_upper c) && negb (is_ascii_lower c).

Lemma byte_eqb_lower a c : caseless c = true → byte_eqb (lower_byte a) c = byte_eqb a c.
Proof.
  intros Hc. apply eq_true_iff_eq. rewrite !byte_eqb_true. split; [|intros ->].
  - intros <-. revert Hc. by destruct a as [[] [] [] [] [] [] [] []].
  - revert Hc. by destruct c as [[] [] [] [] [] [] [] []].
Qed.

Lemma byte_eqb_lower_r a c : caseless c = true → byte_eqb c (lower_byte a) = byte_eqb c a.
Proof.
  intros Hc. assert (∀ x y, byte_eqb x y = byte_eqb y x) as Hsym.
  { intros x y. apply eq_true_iff_eq. rewrite !byte_eqb_true. naive_solver. }
  rewrite !(Hsym c). by apply byte_eqb_lower.
Qed.

(** ** Bytes beyond ASCII are kept *)

Definition byte_class (c : ascii) : N := if (byte_val c <? 128)%N then 0%N else byte_val c.

Lemma byte_class_lower c : byte_class (lower_byte c) = byte_class c.
Proof. by destruct c as [[] [] [] [] [] [] [] []]. Qed.

Lemma in_range_class lo hi c : (128 <= lo)%N → in_range lo hi c = (lo <=? byte_class c)%N && (byte_class c <=? hi)%N.
Proof.
  intros Hlo. unfold in_range, byte_class. destruct (N.ltb_spec (byte_val c) 128) as [H|H]; [|done].
  destruct (N.leb_spec lo (byte_val c)), (N.leb_spec lo 0); try lia; done.
Qed.

Lemma is_cont_class c : is_cont c = (128 <=? byte_class c)%N && (byte_class c <=? 191)%N.
Proof. by apply (in_range_class 128 191). Qed.

Lemma ascii_byte_class c : is_ascii_byte c = (byte_class c =? 0)%N.
Proof.
  unfold is_ascii_byte, byte_class. destruct (N.ltb_spec (byte_val c) 128); [done|].
  destruct (N.eqb_spec (byte_val c) 0); [lia|done].
Qed.

Lemma eqb_class c n : (128 <= n)%N → (byte_val c =? n)%N = (byte_class c =? n)%N.
Proof.
  intros Hn. unfold byte_class. destruct (N.ltb_spec (byte_val c) 128); [|done].
  destruct (N.eqb_spec (byte_val c) n), (N.eqb_spec 0 n); try lia; done.
Qed.

Lemma utf8_width_lower s : utf8_width (ascii_lowercase s) = utf8_width s.
Proof.
  destruct s as [|a [|b [|c [|d s]]]]; rewrite ?ascii_lowercase_cons; try done; cbn [utf8_width];
    rewrite ?ascii_byte_class, ?in_range_class, ?is_cont_class, ?(eqb_class _ 224), ?(eqb_class _ 237), ?(eqb_class _ 240),
      ?(eqb_class _ 244), ?byte_class_lower by lia; try done; repeat case_match; done.
Qed.

Lemma chars_lower s : chars (ascii_lowercase s) = ascii_lowercase <$> chars s.
Proof.
  induction s as [s IH] using str_len_ind. destruct (decide (s = EmptyString)) as [->|Hs]; [done|].
  pose proof (utf8_width_lower s) as Hw.
  destruct s as [|a s1]; [done|]. rewrite ascii_lowercase_cons in *. cbn [chars].
  destruct (utf8_width (String a s1)) as [[|[|[|[|[|n]]]]]|] eqn:Ew; rewrite Hw; try (rewrite IH by (simpl; lia); done).
  all: pose proof (utf8_width_bounds _ _ Ew) as [_ Hl]; simpl in Hl.
  - destruct s1 as [|b s2]; [simpl in *; lia|]. rewrite ascii_lowercase_cons. by rewrite IH by (simpl; lia).
  - destruct s1 as [|b [|c s2]]; [simpl in *; lia..|]. rewrite !ascii_lowercase_cons. by rewrite IH by (simpl; lia).
  - destruct s1 as [|b [|c [|d s2]]]; [simpl in *; lia..|]. rewrite !ascii_lowercase_cons. by rewrite IH by (simpl; lia).
Qed.

Lemma is_whitespace_lower c : is_whitespace (ascii_lowercase c) = is_whitespace c.
Proof.
  unfold is_whitespace, char_bytes. rewrite as_bytes_lower.
  assert (∀ n x, (128 <= n)%N → (byte_val (lower_byte x) =? n)%N = (byte_val x =? n)%N) as He.
  { intros n x Hn. by rewrite !eqb_class, byte_class_lower. }
  assert (∀ x, in_range 128 138 (lower_byte x) = in_range 128 138 x) as Hr.
  { intros x. by rewrite !in_range_class, byte_class_lower. } unfold in_range in Hr.
  assert (∀ x, ((9 <=? byte_val (lower_byte x))%N && (byte_val (lower_byte x) <=? 13)%N || (byte_val (lower_byte x) =? 32)%N) =
    ((9 <=? byte_val x)%N && (byte_val x <=? 13)%N || (byte_val x =? 32)%N)) as H1.
  { intros x. by destruct x as [[] [] [] [] [] [] [] []]. }
  destruct (as_bytes c) as [|a [|b [|d [|e l]]]]; cbn [fmap list_fmap]; try done; rewrite ?H1, ?Hr, ?He by lia; done.
Qed.

(** ** Trimming, searching and splitting *)

Lemma concat_str_lower l : concat_str (ascii_lowercase <$> l) = ascii_lowercase (concat_str l).
Proof. induction l as [|x l IH]; [done|]. cbn [fmap list_fmap concat_str foldr]. rewrite ascii_lowercase_app. by f_equal. Qed.

Lemma drop_while_fmap {A B} (f : A → B) p q l : (∀ x, p (f x) = q x) → drop_while p (f <$> l) = f <$> drop_while q l.
Proof. intros Hpq. induction l as [|x l IH]; [done|]. cbn [fmap list_fmap drop_while]. rewrite Hpq. by destruct (q x). Qed.

Lemma trim_lower s : trim (ascii_lowercase s) = ascii_lowercase (trim s).
Proof.
  unfold trim. rewrite chars_lower, (drop_while_fmap _ _ is_whitespace) by apply is_whitespace_lower.
  rewrite <-fmap_reverse, (drop_while_fmap _ _ is_whitespace) by apply is_whitespace_lower.
  by rewrite <-fmap_reverse, concat_str_lower.
Qed.

Lemma trim_end_char_lower c s : caseless c = true → trim_end_char c (ascii_lowercase s) = ascii_lowercase (trim_end_char c s).
Proof.
  intros Hc. unfold trim_end_char at 1. rewrite as_bytes_lower, <-fmap_reverse.
  rewrite (drop_while_fmap _ _ (byte_eqb c)) by (intros x; by apply byte_eqb_lower_r).
  rewrite <-fmap_reverse. unfold ascii_lowercase, trim_end_char. by rewrite as_of_bytes.
Qed.

Lemma strip_prefix_lower p s : forallb caseless (as_bytes p) = true →
  strip_prefix p (ascii_lowercase s) = ascii_lowercase <$> strip_prefix p s.
Proof.
  revert s. induction p as [|a p IH]; intros s; [done|]. cbn [as_bytes String.list_ascii_of_string forallb].
  intros [Ha Hp]%andb_true_iff. destruct s as [|b s]; [done|]. rewrite ascii_lowercase_cons. cbn [strip_prefix].
  rewrite byte_eqb_lower_r by done. destruct (byte_eqb a b); [by apply IH|done].
Qed.

Lemma starts_with_lower p s : forallb caseless (as_bytes p) = true → starts_with p (ascii_lowercase s) = starts_with p s.
Proof.
  intros Hp. unfold starts_with. rewrite strip_prefix_lower by done. apply bool_decide_ext. by rewrite fmap_is_Some.
Qed.

Lemma find_lower p s : forallb caseless (as_bytes p) = true → find p (ascii_lowercase s) = find p s.
Proof.
  intros Hp. induction s as [|a s IH]; [done|]. rewrite ascii_lowercase_cons. cbn [find].
  rewrite <-ascii_lowercase_cons, starts_with_lower by done. by rewrite IH.
Qed.

Lemma split_char_lower c s : caseless c = true → split_char c (ascii_lowercase s) = ascii_lowercase <$> split_char c s.
Proof.
  intros Hc. induction s as [|a s IH]; [done|]. rewrite ascii_lowercase_cons. cbn [split_char].
  rewrite byte_eqb_lower by done. rewrite IH. destruct (byte_eqb a c); [done|]. by destruct (split_char c s).
Qed.

Lemma str_take_lower n s : str_take n (ascii_lowercase s) = ascii_lowercase (str_take n s).
Proof. revert s. induction n as [|n IH]; intros [|a s]; [done..|]. rewrite ascii_lowercase_cons. cbn [str_take]. by rewrite IH. Qed.

Lemma str_drop_lower n s : str_drop n (ascii_lowercase s) = ascii_lowercase (str_drop n s).
Proof. revert s. induction n as [|n IH]; intros [|a s]; [done..|]. rewrite ascii_lowercase_cons. cbn [str_drop]. by rewrite IH. Qed.

Lemma str_eqb_lower t s : forallb caseless (as_bytes t) = true → str_eqb (ascii_lowercase s) t = str_eqb s t.
Proof.
  intros Ht. apply eq_true_iff_eq. rewrite !str_eqb_true. split.
  - intros Hs. pose proof (strip_prefix_lower t s Ht) as Hp.
    rewrite Hs, (proj2 (strip_prefix_some t t EmptyString) (eq_sym (str_app_nil_r t))) in Hp.
    destruct (strip_prefix t s) as [r|] eqn:E; [|done]. injection Hp as Hr. apply strip_prefix_some in E as ->.
    destruct r; [by rewrite str_app_nil_r|done].
  - intros ->. pose proof (strip_prefix_lower t t Ht) as Hp.
    rewrite (proj2 (strip_prefix_some t t EmptyString) (eq_sym (str_app_nil_r t))) in Hp.
    apply strip_prefix_some in Hp. by rewrite str_app_nil_r in Hp.
Qed.
