(* ===== verification/Json.v ===== *)
(** * JSON values: the part of [serde_json] the sources use

    [serde_json::Value] with its accessors.  Parsing and printing are third-party
    code and stay parameters (class [SerdeJson]).  An object is the association list
    of its entries in insertion order ([serde_json]'s [preserve_order] feature, which
    the workspace turns on); no theorem depends on that order except through [get]. *)

From S2P Require Import Prelude Str.

Inductive Number : Type :=
| NInt (z : Z)            (** an integer literal that fits [i64] or [u64] *)
| NFloat (repr : string). (** any other number, by its text *)

Inductive Value : Type :=
| Null
| VBool (b : bool)
| VNumber (n : Number)
| VString (s : string)
| VArray (l : list Value)
| VObject (o : list (string * Value)).

(** ** Accessors *)

Fixpoint obj_get {A} (k : string) (o : list (string * A)) : option A :=
  match o with
  | [] => None
  | (k', v) :: o' => if str_eqb k k' then Some v else obj_get k o'
  end.

(** [Map::insert]: an existing key keeps its position. *)
Fixpoint obj_insert {A} (k : string) (v : A) (o : list (string * A)) : list (string * A) :=
  match o with
  | [] => [(k, v)]
  | (k', v') :: o' => if str_eqb k k' then (k', v) :: o' else (k', v') :: obj_insert k v o'
  end.

(** [Value::get(key)] *)
Definition get (v : Value) (k : string) : option Value :=
  match v with VObject o => obj_get k o | _ => None end.

Definition as_str (v : Value) : option string :=
  match v with VString s => Some s | _ => None end.

Definition as_array (v : Value) : option (list Value) :=
  match v with VArray l => Some l | _ => None end.

Definition as_i64 (v : Value) : option Z :=
  match v with VNumber (NInt z) => if in_i64 z then Some z else None | _ => None end.

Definition as_u64 (v : Value) : option Z :=
  match v with VNumber (NInt z) => if in_u64 z then Some z else None | _ => None end.

Definition is_null (v : Value) : bool := match v with Null => true | _ => false end.

(** [v.get(k).and_then(Value::as_str)] and friends *)
Definition get_str (v : Value) (k : string) : option string := get v k ≫= as_str.
Definition get_i64 (v : Value) (k : string) : option Z := get v k ≫= as_i64.
Definition get_array (v : Value) (k : string) : option (list Value) := get v k ≫= as_array.

(** [v[k] = x] ([IndexMut]): inserts into an object; [null] becomes an object.  On
    any other value Rust panics; every use in the sources is on an object. *)
Definition index_set (k : string) (x : Value) (v : Value) : Value :=
  match v with
  | VObject o => VObject (obj_insert k x o)
  | Null => VObject [(k, x)]
  | _ => v
  end.

Definition is_object (v : Value) : bool := match v with VObject _ => true | _ => false end.

Lemma obj_insert_eq {A} k (v : A) o : obj_get k (obj_insert k v o) = Some v.
Proof.
  induction o as [|[k' v'] o IH]; simpl; [by rewrite str_eqb_refl|].
  destruct (str_eqb k k') eqn:E; simpl; by rewrite E.
Qed.

Lemma obj_insert_ne {A} k k' (v : A) o : k ≠ k' → obj_get k' (obj_insert k v o) = obj_get k' o.
Proof.
  intros Hne. induction o as [|[k2 v2] o IH]; simpl.
  - by rewrite (proj2 (str_eqb_false k' k)).
  - destruct (str_eqb k k2) eqn:E; simpl.
    + apply str_eqb_true in E as <-. by rewrite (proj2 (str_eqb_false k' k)).
    + by rewrite IH.
Qed.

Lemma get_index_set_eq k x v : is_object v = true → get (index_set k x v) k = Some x.
Proof. destruct v; try done. intros _. apply obj_insert_eq. Qed.

Lemma get_index_set_ne k k' x v :
  is_object v = true → k ≠ k' → get (index_set k x v) k' = get v k'.
Proof. destruct v; try done. intros _ ?. by apply obj_insert_ne. Qed.

Lemma is_object_index_set k x v : is_object v = true → is_object (index_set k x v) = true.
Proof. by destruct v. Qed.

#[export] Hint Resolve is_object_index_set : codez.

(** ** Equality

    [PartialEq for Value] compares objects as maps: the order of entries does not
    matter. *)
Definition number_eqb (n m : Number) : bool :=
  match n, m with
  | NInt a, NInt b => bool_decide (a = b)
  | NFloat a, NFloat b => str_eqb a b
  | _, _ => false
  end.

Fixpoint value_eqb (v w : Value) {struct v} : bool :=
  match v, w with
  | Null, Null => true
  | VBool a, VBool b => Bool.eqb a b
  | VNumber a, VNumber b => number_eqb a b
  | VString a, VString b => str_eqb a b
  | VArray l, VArray k =>
      (fix go (l k : list Value) {struct l} : bool :=
         match l, k with
         | [], [] => true
         | x :: l', y :: k' => value_eqb x y && go l' k'
         | _, _ => false
         end) l k
  | VObject o, VObject p =>
      (length o =? length p) &&
      (fix go (o : list (string * Value)) : bool :=
         match o with
         | [] => true
         | (key, x) :: o' =>
             match obj_get key p with Some y => value_eqb x y | None => false end && go o'
         end) o
  | _, _ => false
  end.

(** ** Parsing and printing: parameters *)

Class SerdeJson := {
  from_str : string → Result Value string;  (** [serde_json::from_str::<Value>]; the error's text *)
  to_string : Value → string;               (** [Display]/[serde_json::to_string] of a value *)
}.

(** A toy parser to run examples with: the empty object and bare words as strings. *)
Definition serde_toy : SerdeJson := {|
  from_str s := if str_eqb s "{}" then Ok (VObject [])
                else if starts_with "{" s then Err "unsupported" else Ok (VString s);
  to_string _ := "<json>"
|}.
