(* ===== verification/BTree.v ===== *)
(** * Ordered maps

    [BTreeMap<i64, V>], a map that iterates in key order: the association list of the
    entries, keys strictly increasing.  Two maps with the same lookups are equal, so a map
    is known once its lookups are.  Then the maps that keep the order of insertion. *)

From S2P Require Import Prelude Str.

Notation BTreeMap V := (list (Z * V)).

Fixpoint bt_get {V} (k : Z) (m : BTreeMap V) : option V :=
  match m with
  | [] => None
  | (k', v) :: m' => if decide (k = k') then Some v else bt_get k m'
  end.

(** [*m.entry(k).or_default()] updated by [f]; [d] is the value type's [Default]. *)
Fixpoint bt_entry {V} (d : V) (k : Z) (f : V → V) (m : BTreeMap V) : BTreeMap V :=
  match m with
  | [] => [(k, f d)]
  | (k', v) :: m' =>
      if decide (k < k')%Z then (k, f d) :: m
      else if decide (k = k') then (k', f v) :: m'
      else (k', v) :: bt_entry d k f m'
  end.

Definition bt_ok {V} (m : BTreeMap V) : Prop := StronglySorted Z.lt m.*1.

Section btree.
Context {V : Type} (d : V).
Implicit Types m : BTreeMap V.

Lemma bt_entry_keys k f m x : x ∈ (bt_entry d k f m).*1 ↔ x = k ∨ x ∈ m.*1.
Proof.
  induction m as [|[k' v] m IH]; simpl; [set_solver|].
  repeat case_decide; simpl; subst; rewrite ?elem_of_cons, ?IH; naive_solver.
Qed.

Lemma bt_entry_ok k f m : bt_ok m → bt_ok (bt_entry d k f m).
Proof.
  unfold bt_ok. induction m as [|[k' v] m IH]; simpl; intros Hm; [repeat constructor|].
  inversion Hm as [|? ? Hs Hall]; subst. repeat case_decide; simpl; subst.
  - constructor; [done|]. constructor; [done|].
    eapply Forall_impl; [done|]. simpl; lia.
  - done.
  - constructor; [by apply IH|]. apply Forall_forall. intros x [->|Hx]%bt_entry_keys; [lia|].
    by rewrite Forall_forall in Hall; apply Hall.
Qed.

Lemma bt_get_below k m : Forall (Z.lt k) m.*1 → bt_get k m = None.
Proof.
  induction m as [|[k' v] m IH]; simpl; [done|]. intros H. inversion H; subst.
  rewrite decide_False by lia. auto.
Qed.

Lemma bt_get_entry_eq k f m :
  bt_ok m → bt_get k (bt_entry d k f m) = Some (f (default d (bt_get k m))).
Proof.
  unfold bt_ok. induction m as [|[k' v] m IH]; simpl; intros Hm; [by rewrite decide_True|].
  inversion Hm as [|? ? Hs Hall]; subst.
  destruct (decide (k < k')%Z); simpl.
  - rewrite decide_True, decide_False by lia. simpl.
    rewrite bt_get_below; [done|]. eapply Forall_impl; [done|]. simpl; lia.
  - destruct (decide (k = k')); simpl; [by rewrite decide_True|].
    rewrite decide_False by done. auto.
Qed.

Lemma bt_get_entry_ne k k' f m : k ≠ k' → bt_get k' (bt_entry d k f m) = bt_get k' m.
Proof.
  intros Hne. induction m as [|[k2 v] m IH]; simpl; [by rewrite decide_False|].
  repeat case_decide; simpl; repeat case_decide; subst; try done; try lia.
Qed.

Lemma bt_get_is_Some k m : is_Some (bt_get k m) ↔ k ∈ m.*1.
Proof.
  induction m as [|[k' v] m IH]; simpl.
  - split; [by intros [? ?]|set_solver].
  - rewrite elem_of_cons. destruct (decide (k = k')); [naive_solver|]. rewrite IH. naive_solver.
Qed.

(** A well-formed map is determined by its lookups. *)
Lemma bt_ext m1 m2 : bt_ok m1 → bt_ok m2 → (∀ k, bt_get k m1 = bt_get k m2) → m1 = m2.
Proof.
  unfold bt_ok. revert m2; induction m1 as [|[k1 v1] m1 IH]; intros [|[k2 v2] m2] H1 H2 Heq; simpl in *.
  - done.
  - specialize (Heq k2). by rewrite decide_True in Heq.
  - specialize (Heq k1). by rewrite decide_True in Heq.
  - inversion H1 as [|? ? Hs1 Ha1]; inversion H2 as [|? ? Hs2 Ha2]; subst.
    assert (k1 = k2) as ->.
    { assert (∀ a b (m : BTreeMap V), Forall (Z.lt b) m.*1 → is_Some (bt_get a m) → (b < a)%Z) as Haux.
      { intros a b m Hf Hi%bt_get_is_Some. rewrite Forall_forall in Hf. auto. }
      pose proof (Heq k1) as E1. pose proof (Heq k2) as E2.
      rewrite (decide_True (P:=k1 = k1)) in E1 by done. rewrite (decide_True (P:=k2 = k2)) in E2 by done.
      destruct (decide (k1 = k2)); [done|]. rewrite decide_False in E2 by done.
      assert (k2 < k1)%Z by (eapply (Haux k1 k2 m2); eauto).
      assert (k1 < k2)%Z by (eapply (Haux k2 k1 m1); eauto). lia. }
    pose proof (Heq k2) as E. rewrite !decide_True in E by done. simplify_eq. f_equal.
    apply IH; [done|done|]. intros k. destruct (decide (k = k2)) as [->|Hk].
    + by rewrite !bt_get_below.
    + specialize (Heq k). by rewrite !decide_False in Heq by done.
Qed.

Lemma bt_get_map (g : Z → V) (ks : list Z) k :
  bt_get k ((λ i, (i, g i)) <$> ks) = if decide (k ∈ ks) then Some (g k) else None.
Proof.
  induction ks as [|x ks IH]; [done|]. rewrite fmap_cons. cbn [bt_get].
  destruct (decide (k = x)) as [->|Hne], (decide (_ ∈ _ :: ks)) as [Hin|Hin].
  - done.
  - set_solver.
  - rewrite IH, decide_True; set_solver.
  - rewrite IH, decide_False; set_solver.
Qed.
End btree.

#[export] Hint Resolve bt_entry_ok : codez.

(** The distinct elements of a list in increasing order: the keys of a map that was
    filled by a sequence of [entry] calls. *)
Definition sorted_keys (l : list Z) : list Z := sort_by Z.leb (remove_dups l).

Lemma elem_of_sorted_keys x l : x ∈ sorted_keys l ↔ x ∈ l.
Proof. unfold sorted_keys. by rewrite sort_by_perm, elem_of_remove_dups. Qed.

Lemma sorted_keys_lt l : StronglySorted Z.lt (sorted_keys l).
Proof.
  assert (StronglySorted (λ a b, Z.leb a b = true) (sorted_keys l)) as Hs.
  { apply sort_by_sorted; intros; lia. }
  assert (NoDup (sorted_keys l)) as Hnd.
  { unfold sorted_keys. rewrite sort_by_perm. apply NoDup_remove_dups. }
  induction Hs as [|x k Hk IH Hx]; [constructor|]. apply NoDup_cons in Hnd as [Hnin Hnd].
  constructor; [auto|]. apply Forall_forall. intros y Hy. rewrite Forall_forall in Hx.
  specialize (Hx y Hy). simpl in Hx. assert (x ≠ y) by congruence. lia.
Qed.

(** ** Maps that keep the order of insertion

    [indexmap::IndexMap] and [toml::map::Map] with the feature [preserve_order], keyed by
    strings: the list of the entries.  A known key keeps its place, a new one goes last,
    removal keeps the order of the others. *)

Section index_map.
Context {A : Type}.
Implicit Types m : list (string * A).

Fixpoint index_insert (k : string) (v : A) (m : list (string * A)) : list (string * A) :=
  match m with
  | [] => [(k, v)]
  | (k', v') :: m => if str_eqb k k' then (k, v) :: m else (k', v') :: index_insert k v m
  end.

Fixpoint index_get (k : string) (m : list (string * A)) : option A :=
  match m with
  | [] => None
  | (k', v) :: m => if str_eqb k k' then Some v else index_get k m
  end.

Fixpoint shift_remove (k : string) (m : list (string * A)) : list (string * A) :=
  match m with
  | [] => []
  | (k', v) :: m => if str_eqb k k' then m else (k', v) :: shift_remove k m
  end.

Lemma index_get_in k v m : index_get k m = Some v → (k, v) ∈ m.
Proof.
  induction m as [|[k' v'] m IH]; simpl; [done|]. destruct (str_eqb k k') eqn:E; intros ?; simplify_eq.
  - apply str_eqb_true in E as ->. by constructor.
  - constructor. by apply IH.
Qed.

Lemma index_get_none k m : index_get k m = None ↔ k ∉ m.*1.
Proof.
  induction m as [|[k' v'] m IH]; simpl; [set_solver|]. destruct (str_eqb k k') eqn:E.
  - apply str_eqb_true in E as ->. set_solver.
  - apply str_eqb_false in E. rewrite IH. set_solver.
Qed.

Lemma index_in_get k v m : NoDup m.*1 → (k, v) ∈ m → index_get k m = Some v.
Proof.
  induction m as [|[k' v'] m IH]; simpl; [by intros _ ?%not_elem_of_nil|]. intros [Hk Hnd]%NoDup_cons.
  intros [[= -> ->]|Hin]%elem_of_cons; [by rewrite str_eqb_refl|]. destruct (str_eqb k k') eqn:E; [|by apply IH].
  apply str_eqb_true in E as ->. destruct Hk. apply list_elem_of_fmap. by exists (k', v).
Qed.

Lemma index_get_insert k k' v m :
  index_get k' (index_insert k v m) = if str_eqb k' k then Some v else index_get k' m.
Proof.
  induction m as [|[k0 v0] m IH]; simpl; [done|]. destruct (str_eqb k k0) eqn:E.
  - apply str_eqb_true in E as ->. simpl. by destruct (str_eqb k' k0).
  - simpl. rewrite IH. destruct (str_eqb k' k0) eqn:E0, (str_eqb k' k) eqn:E1; try done.
    apply str_eqb_true in E0, E1. subst. by rewrite str_eqb_refl in E.
Qed.

Lemma index_get_remove k k' m : NoDup m.*1 →
  index_get k' (shift_remove k m) = if str_eqb k' k then None else index_get k' m.
Proof.
  induction m as [|[k0 v0] m IH]; simpl; [by destruct (str_eqb k' k)|]. intros [Hk0 Hnd]%NoDup_cons.
  destruct (str_eqb k k0) eqn:E.
  - apply str_eqb_true in E as ->. destruct (str_eqb k' k0) eqn:E; [|done]. apply str_eqb_true in E as ->.
    by apply index_get_none.
  - simpl. rewrite IH by done. destruct (str_eqb k' k0) eqn:E0, (str_eqb k' k) eqn:E1; try done.
    apply str_eqb_true in E0, E1. subst. by rewrite str_eqb_refl in E.
Qed.

Lemma index_insert_elem k v m x : x ∈ index_insert k v m → x = (k, v) ∨ x ∈ m.
Proof.
  induction m as [|[k0 v0] m IH]; simpl; [set_solver|]. destruct (str_eqb k k0); set_solver.
Qed.

Lemma index_insert_keys k v m x : x ∈ (index_insert k v m).*1 → x = k ∨ x ∈ m.*1.
Proof.
  intros ([k' v'] & -> & [[= -> ->]|?]%index_insert_elem)%list_elem_of_fmap; [by left|right].
  apply list_elem_of_fmap. by exists (k', v').
Qed.

Lemma index_insert_nodup k v m : NoDup m.*1 → NoDup (index_insert k v m).*1.
Proof.
  induction m as [|[k0 v0] m IH]; simpl; intros Hnd; [apply NoDup_singleton|]. apply NoDup_cons in Hnd as [Hk0 Hnd].
  destruct (str_eqb k k0) eqn:E; simpl.
  - apply str_eqb_true in E as ->. by constructor.
  - apply str_eqb_false in E. constructor; [|by apply IH]. by intros [->|?]%index_insert_keys.
Qed.

Lemma shift_remove_sublist k m : shift_remove k m `sublist_of` m.
Proof. induction m as [|[k0 v0] m IH]; simpl; [done|]. destruct (str_eqb k k0); by constructor. Qed.

Lemma shift_remove_nodup k m : NoDup m.*1 → NoDup (shift_remove k m).*1.
Proof. intros Hnd. eapply sublist_NoDup; [done|]. apply fmap_sublist, shift_remove_sublist. Qed.

Lemma shift_remove_elem k m x : x ∈ shift_remove k m → x ∈ m.
Proof. intros Hx. eapply elem_of_sublist; [done|apply shift_remove_sublist]. Qed.
End index_map.

(** Mapping over the values. *)
Section index_fmap.
Context {A B : Type} (f : string → A → B).

Definition index_map (m : list (string * A)) : list (string * B) := (λ '(k, v), (k, f k v)) <$> m.

Lemma index_map_keys m : (index_map m).*1 = m.*1.
Proof. induction m as [|[k v] m IH]; simpl; [done|]. f_equal. exact IH. Qed.

Lemma index_get_map k m : index_get k (index_map m) = f k <$> index_get k m.
Proof.
  induction m as [|[k' v] m IH]; simpl; [done|].
  destruct (str_eqb k k') eqn:E; [|exact IH]. by apply str_eqb_true in E as ->.
Qed.

End index_fmap.
