(* ===== verification/Protocol.v ===== *)
(** * The codex data the two codez features work on

    [ResponseItem] and its parts (codex-rs/protocol/src/models.rs), the session source
    (codex-rs/protocol/src/protocol.rs), the Responses request, the response events and
    the API errors (codex-rs/codex-api).  Only types: their code is upstream's. *)

From S2P Require Import Prelude Str Json.

(** ** Content *)

Inductive ImageDetail := DetailAuto | DetailLow | DetailHigh | DetailOriginal.

Inductive ContentItem :=
| InputText (text : string)
| InputImage (image_url : string) (detail : option ImageDetail)
| OutputText (text : string).

Inductive AgentMessageInputContent :=
| AgentInputText (text : string)
| AgentEncryptedContent (encrypted_content : string).

Inductive FunctionCallOutputContentItem :=
| OutInputText (text : string)
| OutInputImage (image_url : string) (detail : option ImageDetail)
| OutEncryptedContent (encrypted_content : string).

Inductive FunctionCallOutputBody :=
| BodyText (s : string)
| BodyContentItems (items : list FunctionCallOutputContentItem).

Record FunctionCallOutputPayload := {
  body : FunctionCallOutputBody;
  success : option bool;
}.

Inductive MessagePhase := Commentary | FinalAnswer.

Record InternalChatMessageMetadataPassthrough := { turn_id : option string }.

Inductive ReasoningItemReasoningSummary := SummaryText (text : string).

Inductive ReasoningItemContent :=
| ReasoningText (text : string)
| ReasoningPlainText (text : string).

Inductive LocalShellStatus := ShellCompleted | ShellInProgress | ShellIncomplete.

Record LocalShellExecAction := {
  shell_command : list string;
  timeout_ms : option Z;
  working_directory : option string;
  shell_env : option (gmap string string);
  shell_user : option string;
}.

Inductive LocalShellAction := Exec (a : LocalShellExecAction).

Inductive WebSearchAction :=
| Search (query : option string) (queries : option (list string))
| OpenPage (url : option string)
| FindInPage (url : option string) (pattern : option string)
| SearchOther.

(** ** [ResponseItem] *)

Notation passthrough := (option InternalChatMessageMetadataPassthrough).

Inductive ResponseItem :=
| Message (id : option string) (role : string) (content : list ContentItem)
    (phase : option MessagePhase) (meta : passthrough)
| AgentMessage (id : option string) (author recipient : string)
    (content : list AgentMessageInputContent) (meta : passthrough)
| Reasoning (id : option string) (summary : list ReasoningItemReasoningSummary)
    (content : option (list ReasoningItemContent)) (encrypted_content : option string)
    (meta : passthrough)
| LocalShellCall (id call_id : option string) (status : LocalShellStatus)
    (action : LocalShellAction) (meta : passthrough)
| FunctionCall (id : option string) (name : string) (namespace : option string)
    (arguments call_id : string) (meta : passthrough)
| ToolSearchCall (id call_id status : option string) (execution : string)
    (arguments : Value) (meta : passthrough)
| FunctionCallOutput (id : option string) (call_id : string)
    (output : FunctionCallOutputPayload) (meta : passthrough)
| CustomToolCall (id status : option string) (call_id name input : string) (meta : passthrough)
| CustomToolCallOutput (id : option string) (call_id : string) (name : option string)
    (output : FunctionCallOutputPayload) (meta : passthrough)
| ToolSearchOutput (id call_id : option string) (status execution : string)
    (tools : list Value) (meta : passthrough)
| WebSearchCall (id status : option string) (action : option WebSearchAction)
    (meta : passthrough)
| ImageGenerationCall (id : option string) (status : string) (revised_prompt : option string)
    (result : string) (meta : passthrough)
| Compaction (id : option string) (encrypted_content : string) (meta : passthrough)
| CompactionTrigger (meta : passthrough)
| ContextCompaction (id encrypted_content : option string) (meta : passthrough)
| Other.

(** ** Session source *)

Inductive InternalSessionSource := InternalMemoryConsolidation.

Inductive SubAgentSource :=
| Review
| Compact
| ThreadSpawn (parent_thread_id : string) (depth : Z) (agent_path agent_nickname agent_role : option string)
| MemoryConsolidation
| SubAgentOther (name : string).

Inductive SessionSource :=
| Cli
| VSCode
| SourceExec
| Mcp
| Custom (name : string)
| Internal (s : InternalSessionSource)
| SubAgent (s : SubAgentSource)
| SourceUnknown.

(** ** The Responses request *)

Inductive ReasoningEffort :=
| EffortNone | EffortMinimal | EffortLow | EffortMedium | EffortHigh | EffortXHigh
| EffortCustom (s : string).

Definition effort_as_str (e : ReasoningEffort) : string :=
  match e with
  | EffortNone => "none"
  | EffortMinimal => "minimal"
  | EffortLow => "low"
  | EffortMedium => "medium"
  | EffortHigh => "high"
  | EffortXHigh => "xhigh"
  | EffortCustom s => s
  end.

Inductive ReasoningSummary := SummaryAuto | SummaryConcise | SummaryDetailed | SummaryNone.

Inductive ReasoningContext := ContextAuto | CurrentTurn | AllTurns.

Record ReasoningParam := {
  effort : option ReasoningEffort;
  rsummary : option ReasoningSummary;
  rcontext : option ReasoningContext;
}.

Inductive TextFormatType := JsonSchema.

Record TextFormat := {
  ftype : TextFormatType;
  fstrict : bool;
  fschema : Value;
  fname : string;
}.

Inductive OpenAiVerbosity := VerbosityLow | VerbosityMedium | VerbosityHigh.

Record TextControls := {
  verbosity : option OpenAiVerbosity;
  format : option TextFormat;
}.

(** [#[derive(Serialize)]] of [TextFormat] *)
Definition text_format_to_value (f : TextFormat) : Value :=
  VObject [("type", VString "json_schema"); ("strict", VBool (fstrict f));
           ("schema", fschema f); ("name", VString (fname f))].

Record ResponsesApiRequest := {
  model : string;
  instructions : string;
  input : list ResponseItem;
  tools : list Value;
  tool_choice : string;
  parallel_tool_calls : bool;
  reasoning : option ReasoningParam;
  store : bool;
  stream : bool;
  include : list string;
  service_tier : option string;
  prompt_cache_key : option string;
  text : option TextControls;
  client_metadata : option (gmap string string);
}.

(** [request.input] replaced in place. *)
Definition set_input (i : list ResponseItem) (r : ResponsesApiRequest) : ResponsesApiRequest :=
  {| model := model r; instructions := instructions r; input := i; tools := tools r;
     tool_choice := tool_choice r; parallel_tool_calls := parallel_tool_calls r;
     reasoning := reasoning r; store := store r; stream := stream r; include := include r;
     service_tier := service_tier r; prompt_cache_key := prompt_cache_key r;
     text := text r; client_metadata := client_metadata r |}.

(** ** Response events and errors *)

Record TokenUsage := {
  input_tokens : Z;
  cached_input_tokens : Z;
  output_tokens : Z;
  reasoning_output_tokens : Z;
  total_tokens : Z;
}.

Record SafetyBuffering := { use_cases : list string; reasons : list string }.

Inductive ModelVerification := TrustedAccessForCyber.

(** [RateLimits] carries its snapshot by its serialised value. *)
Inductive ResponseEvent :=
| Created
| SafetyBufferingEvent (b : SafetyBuffering)
| OutputItemDone (item : ResponseItem)
| OutputItemAdded (item : ResponseItem)
| ServerModel (s : string)
| ModelVerifications (l : list ModelVerification)
| TurnModerationMetadata (metadata : Value)
| ServerReasoningIncluded (b : bool)
| Completed (response_id : string) (token_usage : option TokenUsage) (end_turn : option bool)
| OutputTextDelta (s : string)
| ToolCallInputDelta (item_id : string) (call_id : option string) (delta : string)
| ReasoningSummaryDelta (delta : string) (summary_index : Z)
| ReasoningContentDelta (delta : string) (content_index : Z)
| ReasoningSummaryPartAdded (summary_index : Z)
| RateLimits (snapshot : Value)
| ModelsEtag (s : string).

Inductive TransportError :=
| HttpStatus (status : Z) (url : option string) (headers : option (gmap string string)) (body : option string)
| RetryLimit
| TransportTimeout
| Network (s : string)
| BuildError (s : string).

Inductive ApiError :=
| Transport (e : TransportError)
| Api (status : Z) (message : string)
| StreamErr (s : string)
| ContextWindowExceeded
| QuotaExceeded
| UsageNotIncluded
| Retryable (message : string) (delay_ms : option Z)
| RateLimit (s : string)
| InvalidRequest (message : string)
| CyberPolicy (message : string)
| ServerOverloaded.

Definition is_completed (e : ResponseEvent) : bool :=
  match e with Completed _ _ _ => true | _ => false end.

(** The text a stream of events displays. *)
Definition delta_text (evs : list ResponseEvent) : string :=
  concat_str (omap (λ e, match e with OutputTextDelta s => Some s | _ => None end) evs).
