(* ===== verification/SwitchConfig.v ===== *)
(** * llm-switch: configuration, keys, URLs and headers

    zmod/llm-switch/src/config.rs and http.rs.  The TOML parser is a third-party
    parameter that yields the raw table; everything after it is modelled. *)

From S2P Require Import Prelude Str.

Inductive ConfigError :=
| ParseError (msg : string)
| InlineAuthKeyForbidden (id : string)
| UnknownConnector (id other : string)
| UnknownAuth (id other : string).

Inductive Connector := ConnChat | ConnAnthropic.

Inductive AuthKind := Bearer | XApiKey.

Record ProviderCfg := {
  connector : Connector;
  base_url : option string;
  auth : AuthKind;
  key_env : option string;
  auth_key : option string;
  path : option string;
  pmodel : option string;
  anthropic_version : option string;
  default_max_tokens : option Z;
  prompt_cache : bool;
}.

Record Config := {
  enabled : bool;
  providers : gmap string ProviderCfg;
  purpose : gmap string string;
}.

Record RawProvider := {
  raw_connector : string;
  raw_base_url : option string;
  raw_auth : string;
  raw_key_env : option string;
  raw_auth_key : option string;
  raw_path : option string;
  raw_model : option string;
  raw_anthropic_version : option string;
  raw_default_max_tokens : option Z;
  raw_prompt_cache : bool;
}.

Record RawSwitch := {
  raw_enabled : bool;
  raw_providers : gmap string RawProvider;
  raw_purpose : gmap string string;
}.

Record RawRoot := { llm_switch : option RawSwitch }.

(** [toml::from_str::<RawRoot>], with the error's text. *)
Class Toml := { toml_from_str : string → Result RawRoot string }.

Definition config_off : Config := {| enabled := false; providers := ∅; purpose := ∅ |}.

(** [for (k, v) in map]: the entries in an unspecified order. *)
Definition hash_iter `{HashOrder} {A} (m : gmap string A) : list (string * A) :=
  omap (λ k, pair k <$> m !! k) (hash_order (elements (dom m))).

(** ** [load_config_from_str] *)

Definition parse_connector (id s : string) : Result (option Connector) ConfigError :=
  if str_eqb s "chat" then Ok (Some ConnChat)
  else if str_eqb s "anthropic" then Ok (Some ConnAnthropic)
  else if str_eqb s "responses" then Ok None
  else Err (UnknownConnector id s).

Definition parse_auth (id s : string) : Result AuthKind ConfigError :=
  if str_eqb s "bearer" then Ok Bearer
  else if str_eqb s "x-api-key" then Ok XApiKey
  else Err (UnknownAuth id s).

(** The body of the loop over [sw.providers]; [responses] entries [continue]. *)
Definition load_provider (allow_inline_key : bool) (acc : gmap string ProviderCfg)
    (entry : string * RawProvider) : Result (gmap string ProviderCfg) ConfigError :=
  let '(id, raw) := entry in
  if bool_decide (is_Some (raw_auth_key raw)) && negb allow_inline_key then
    Err (InlineAuthKeyForbidden id)
  else
    let? c := parse_connector id (raw_connector raw) in
    match c with
    | None => Ok acc
    | Some connector =>
        let? auth := parse_auth id (raw_auth raw) in
        Ok (<[id := {| connector := connector;
                       base_url := raw_base_url raw;
                       auth := auth;
                       key_env := raw_key_env raw;
                       auth_key := raw_auth_key raw;
                       path := raw_path raw;
                       pmodel := raw_model raw;
                       anthropic_version := raw_anthropic_version raw;
                       default_max_tokens := raw_default_max_tokens raw;
                       prompt_cache := raw_prompt_cache raw |}]> acc)
    end.

Definition load_config_from_str `{Toml, HashOrder} (toml_text : string)
    (allow_inline_key : bool) : Result Config ConfigError :=
  let? root := map_err ParseError (toml_from_str toml_text) in
  match llm_switch root with
  | None => Ok config_off
  | Some sw =>
      let? ps := fold_res (load_provider allow_inline_key) ∅ (hash_iter (raw_providers sw)) in
      Ok {| enabled := raw_enabled sw; providers := ps; purpose := raw_purpose sw |}
  end.

(** [loaded]: what the process caches, from the text of config-zmod.toml if it could
    be read.  A missing or bad file means the feature is off. *)
Definition loaded `{Toml, HashOrder} (file : option string) : Config :=
  match file with
  | Some text =>
      match load_config_from_str text false with
      | Ok c => c
      | Err _ => config_off
      end
  | None => config_off
  end.

(** ** Keys, URLs and headers (http.rs) *)

Inductive HttpError := MissingKey | BadHeader (msg : string).

(** [#[error(..)]] messages *)
Definition http_error_to_string (e : HttpError) : string :=
  match e with
  | MissingKey => "missing API key (set key_env or auth_key)"
  | BadHeader m => "invalid header value: " +:+ m
  end.

Definition default_path (c : Connector) : string :=
  match c with
  | ConnChat => "/chat/completions"
  | ConnAnthropic => "/v1/messages"
  end.

Definition egress_url (base_url : string) (c : Connector) (path_override : option string) : string :=
  trim_end_char "/"%char base_url +:+ default (default_path c) path_override.

(** The environment: [std::env::var]. *)
Class Env := { env_var : string → option string }.

Definition resolve_key `{Env} (cfg : ProviderCfg) : Result (option string) HttpError :=
  match key_env cfg ≫= env_var with
  | Some v =>
      if negb (str_is_empty v) then Ok (Some v)
      else Ok (auth_key cfg)
  | None => Ok (auth_key cfg)
  end.

(** [HeaderValue::from_str] (http crate): the value or the error's text. *)
Class HeaderValues := { header_value : string → Result string string }.

Notation HeaderMap := (gmap string string).

Definition build_headers `{HeaderValues} (a : AuthKind) (key anthropic_version : option string) :
  Result HeaderMap HttpError :=
  let? h :=
    match a with
    | Bearer =>
        let? key := match key with Some k => Ok k | None => Err MissingKey end in
        let? val := map_err BadHeader (header_value ("Bearer " +:+ key)) in
        Ok ({["authorization" := val]} : HeaderMap)
    | XApiKey =>
        let? key := match key with Some k => Ok k | None => Err MissingKey end in
        let? val := map_err BadHeader (header_value key) in
        let? vv := map_err BadHeader (header_value (default "2023-06-01" anthropic_version)) in
        Ok (<["anthropic-version" := vv]> ({["x-api-key" := val]} : HeaderMap))
    end in
  Ok (<["content-type" := "application/json"]> h).

(** ** Properties of the loader *)

Lemma elem_of_hash_iter `{HashOrder} {A} (m : gmap string A) k v :
  (k, v) ∈ hash_iter m ↔ m !! k = Some v.
Proof.
  unfold hash_iter. rewrite list_elem_of_omap. split.
  - intros (k' & _ & Hk). destruct (m !! k') eqn:E; naive_solver.
  - intros Hk. exists k. rewrite Hk. split; [|done].
    rewrite (hash_order_perm _). apply elem_of_elements, elem_of_dom. eauto.
Qed.

Lemma hash_iter_keys `{HashOrder} {A} (m : gmap string A) : NoDup (hash_iter m).*1.
Proof.
  assert (NoDup (hash_order (elements (dom m)))) as Hnd
    by (rewrite (hash_order_perm _); apply NoDup_elements).
  unfold hash_iter. induction Hnd as [|k l Hk Hnd IH]; simpl; [constructor|].
  destruct (m !! k) eqn:E; simpl; [|done]. constructor; [|done].
  intros ((k2 & v2) & -> & Hin)%list_elem_of_fmap_1; simpl in *.
  apply list_elem_of_omap in Hin as (k3 & Hk3 & Heq). destruct (m !! k3); naive_solver.
Qed.

(** What one entry of the raw table means, on its own. *)
Definition entry_cfg (allow : bool) (id : string) (raw : RawProvider) :
  Result (option ProviderCfg) ConfigError :=
  let? ps := load_provider allow ∅ (id, raw) in Ok (ps !! id).

Lemma load_provider_acc allow acc id raw :
  load_provider allow acc (id, raw) =
    let? o := entry_cfg allow id raw in Ok (match o with Some c => <[id := c]> acc | None => acc end).
Proof.
  unfold entry_cfg, load_provider. destruct (_ && _); simpl; [done|].
  destruct (parse_connector id (raw_connector raw)) as [[c|]|e]; simpl; [|by rewrite lookup_empty|done].
  destruct (parse_auth id (raw_auth raw)) as [a|e]; simpl; [|done]. by rewrite lookup_insert_eq.
Qed.

Lemma load_fold_lookup allow acc l r :
  NoDup l.*1 → fold_res (load_provider allow) acc l = Ok r →
  (∀ id raw, (id, raw) ∈ l → ∃ o, entry_cfg allow id raw = Ok o ∧
     r !! id = match o with Some c => Some c | None => acc !! id end) ∧
  (∀ id, id ∉ l.*1 → r !! id = acc !! id).
Proof.
  revert acc; induction l as [|[id raw] l IH]; intros acc Hnd Hrun.
  { simplify_eq/=. split; [|done]. intros ??; by rewrite elem_of_nil. }
  simpl in Hnd. apply NoDup_cons in Hnd as [Hni Hnd].
  cbn [fold_res] in Hrun. rewrite load_provider_acc in Hrun.
  destruct (entry_cfg allow id raw) as [o|e] eqn:Eo; [|done]. cbn [res_bind] in Hrun.
  destruct (IH _ Hnd Hrun) as [IH1 IH2]. split.
  - intros id' raw' [Heq|Hin]%elem_of_cons.
    + simplify_eq. exists o. split; [done|]. rewrite IH2 by done.
      destruct o; [by rewrite lookup_insert_eq|done].
    + destruct (IH1 _ _ Hin) as (o' & Ho' & Hr). exists o'. split; [done|].
      rewrite Hr. destruct o'; [done|].
      assert (id ≠ id'). { intros ->. apply Hni. apply list_elem_of_fmap. by exists (id', raw'). }
      destruct o; [by rewrite lookup_insert_ne|done].
  - intros id' Hid'. simpl in Hid'. apply not_elem_of_cons in Hid' as [Hne Hid'].
    rewrite IH2 by done. destruct o; [by rewrite lookup_insert_ne|done].
Qed.

Lemma load_fold_ok allow acc l :
  (∀ id raw, (id, raw) ∈ l → is_ok (entry_cfg allow id raw) = true) →
  ∃ r, fold_res (load_provider allow) acc l = Ok r.
Proof.
  revert acc; induction l as [|[id raw] l IH]; intros acc Hall; [simpl; eauto|].
  assert (∃ o, entry_cfg allow id raw = Ok o) as [o Ho]
    by (apply is_ok_true, Hall; left).
  cbn [fold_res]. rewrite load_provider_acc, Ho. cbn [res_bind]. apply IH. intros ???; apply Hall; by right.
Qed.

(** The routable table the loader must build: each entry on its own, [responses]
    entries left out. *)
Definition routable (allow : bool) (raws : gmap string RawProvider) : gmap string ProviderCfg :=
  map_imap (λ id raw, match entry_cfg allow id raw with Ok o => o | Err _ => None end) raws.

Lemma load_fold_routable `{HashOrder} allow (raws : gmap string RawProvider) r :
  fold_res (load_provider allow) ∅ (hash_iter raws) = Ok r →
  map_Forall (λ id raw, is_ok (entry_cfg allow id raw) = true) raws ∧ r = routable allow raws.
Proof.
  intros [H1 H2]%load_fold_lookup; [|apply hash_iter_keys]. split.
  - intros id raw Hid. apply elem_of_hash_iter, H1 in Hid as (o & -> & _). done.
  - apply map_eq. intros id. unfold routable. rewrite map_lookup_imap.
    destruct (raws !! id) as [raw|] eqn:E; simpl.
    + apply elem_of_hash_iter, H1 in E as (o & -> & ->). by destruct o.
    + rewrite H2; [done|]. intros ((id' & raw) & -> & Hin)%list_elem_of_fmap_1.
      apply elem_of_hash_iter in Hin. naive_solver.
Qed.

Lemma routable_inline allow (raws : gmap string RawProvider) id c :
  routable allow raws !! id = Some c → allow = true ∨ auth_key c = None.
Proof.
  unfold routable. rewrite map_lookup_imap.
  intros (raw & _ & Hc)%bind_Some. destruct allow; [by left|right].
  unfold entry_cfg, load_provider in Hc.
  destruct (raw_auth_key raw) eqn:Ek; simpl in Hc; [done|].
  destruct (parse_connector id (raw_connector raw)) as [[k|]|e]; simpl in Hc; [|by rewrite lookup_empty in Hc|done].
  destruct (parse_auth id (raw_auth raw)); simpl in Hc; [|done].
  rewrite lookup_insert_eq in Hc. by simplify_eq/=.
Qed.

Lemma config_off_lookup id : providers config_off !! id = None.
Proof. apply lookup_empty. Qed.

Section loader.
Context `{Toml}.

(** The loader does what each entry means on its own, whatever order the
    hash map is iterated in: it succeeds exactly when every entry is valid, and then
    the routable table is the entries' table. *)
Theorem load_config_spec `{HashOrder} text allow sw c :
  toml_from_str text = Ok {| llm_switch := Some sw |} →
  load_config_from_str text allow = Ok c ↔
    map_Forall (λ id raw, is_ok (entry_cfg allow id raw) = true) (raw_providers sw) ∧
    c = {| enabled := raw_enabled sw; providers := routable allow (raw_providers sw);
           purpose := raw_purpose sw |}.
Proof.
  intros Htoml. unfold load_config_from_str. rewrite Htoml. simpl. split.
  - intros (ps & [Hall ->]%load_fold_routable & Hc)%res_bind_ok. by simplify_eq.
  - intros [Hall ->].
    destruct (load_fold_ok allow ∅ (hash_iter (raw_providers sw))) as [r Hr].
    { intros id raw Hin%elem_of_hash_iter. by apply Hall. }
    rewrite Hr. apply load_fold_routable in Hr as [_ ->]. done.
Qed.

(** The runtime never holds an inline key: no provider of the cached
    configuration, whatever the file says, carries an [auth_key]. *)
Theorem loaded_no_inline_key `{HashOrder} file id c :
  providers (loaded file) !! id = Some c → auth_key c = None.
Proof.
  unfold loaded, load_config_from_str. destruct file as [t|]; [|by rewrite config_off_lookup].
  destruct (toml_from_str t) as [[[sw|]]|e]; simpl; try by rewrite config_off_lookup.
  destruct (fold_res (load_provider false) ∅ (hash_iter (raw_providers sw))) as [r|e] eqn:Hr;
    simpl; [|by rewrite config_off_lookup].
  apply load_fold_routable in Hr as [_ ->]. intros [?|?]%routable_inline; done.
Qed.
End loader.

(** A configuration to run the loader on. *)
Definition raw_example (connector : string) : RawProvider :=
  {| raw_connector := connector; raw_base_url := Some "https://api.example.com/v1/";
     raw_auth := "bearer"; raw_key_env := Some "KEY"; raw_auth_key := None; raw_path := None;
     raw_model := None; raw_anthropic_version := None; raw_default_max_tokens := None;
     raw_prompt_cache := false |}.

Definition sw_example : RawSwitch :=
  {| raw_enabled := true;
     raw_providers := {["ds" := raw_example "chat"; "native" := raw_example "responses"]};
     raw_purpose := {["compact" := "ds"; "review" := "missing"]} |}.

Definition toml_example : Toml := {| toml_from_str _ := Ok {| llm_switch := Some sw_example |} |}.

Lemma load_config_spec_witness :
  ∃ c, @load_config_from_str toml_example hash_order_rev "text" false = Ok c ∧
       providers c !! "native" = None ∧ is_Some (providers c !! "ds").
Proof.
  eexists. split.
  - apply (@load_config_spec toml_example hash_order_rev "text" false sw_example); [reflexivity|].
    split; [|reflexivity]. apply (bool_decide_unpack _). vm_compute. exact I.
  - split; [vm_compute; reflexivity|]. apply (bool_decide_unpack _). vm_compute. exact I.
Defined.

Lemma loaded_no_inline_key_witness :
  ∃ c, providers (@loaded toml_example hash_order_id (Some "text")) !! "ds" = Some c ∧
       auth_key c = None.
Proof.
  eexists. split; [vm_compute; reflexivity|].
  apply (@loaded_no_inline_key toml_example hash_order_id (Some "text") "ds").
  vm_compute. reflexivity.
Defined.

Lemma hash_iter_perm `{HashOrder} {A} (m : gmap string A) : hash_iter m ≡ₚ map_to_list m.
Proof.
  apply NoDup_Permutation.
  - eapply NoDup_fmap_1, hash_iter_keys.
  - apply NoDup_map_to_list.
  - intros [k v]. by rewrite elem_of_hash_iter, elem_of_map_to_list.
Qed.
