(* ===== verification/Routing.v ===== *)
(** * llm-switch: purpose routing

    zmod/llm-switch/src/purpose.rs, namespace.rs and the routing half of lib.rs. *)

From S2P Require Import Prelude Str Json Protocol SwitchConfig.

Inductive Purpose := PCompact | PReview | PMemory.

Definition as_key (p : Purpose) : string :=
  match p with
  | PCompact => "compact"
  | PReview => "review"
  | PMemory => "memory"
  end.

Definition purpose_from_source (source : SessionSource) : option Purpose :=
  match source with
  | SubAgent Review => Some PReview
  | SubAgent Compact => Some PCompact
  | SubAgent MemoryConsolidation => Some PMemory
  | Internal InternalMemoryConsolidation => Some PMemory
  | _ => None
  end.

(** ** The pre-check (namespace.rs) *)

Definition is_function_tool (t : Value) : bool :=
  bool_decide (get_str t "type" = Some "function").

Definition is_namespaced_call (item : ResponseItem) : bool :=
  match item with FunctionCall _ _ (Some _) _ _ _ => true | _ => false end.

Definition request_has_namespace_tools (req : ResponsesApiRequest) : bool :=
  if existsb (λ t, negb (is_function_tool t)) (tools req) then true
  else existsb is_namespaced_call (input req).

(** ** Routes (lib.rs) *)

Record Route := { provider_id : string; cfg : ProviderCfg }.

Definition route_in (c : Config) (pid : string) (p : option Purpose) (has_ns_tools : bool) :
  option Route :=
  if negb (enabled c) then None
  else
    let by_id := (λ pc, {| provider_id := pid; cfg := pc |}) <$> providers c !! pid in
    match p with
    | Some p =>
        match purpose c !! as_key p with
        | Some target =>
            match providers c !! target with
            | None => by_id
            | Some pc =>
                if has_ns_tools then by_id
                else Some {| provider_id := target; cfg := pc |}
            end
        | None => by_id
        end
    | None => by_id
    end.

Definition should_bypass_in (c : Config) (_provider_id : string) (p : option Purpose) : bool :=
  if negb (enabled c) then false
  else match p with
       | Some p =>
           match purpose c !! as_key p with
           | Some target => bool_decide (is_Some (providers c !! target))
           | None => false
           end
       | None => false
       end.

Definition route (loaded_cfg : Config) (pid : string) (source : option SessionSource)
    (request : ResponsesApiRequest) : option Route :=
  let p := source ≫= purpose_from_source in
  let has_ns_tools := bool_decide (is_Some p) && request_has_namespace_tools request in
  route_in loaded_cfg pid p has_ns_tools.

Definition should_bypass_websocket (loaded_cfg : Config) (pid : string)
    (source : option SessionSource) : bool :=
  should_bypass_in loaded_cfg pid (source ≫= purpose_from_source).

(** ** Properties *)

(** The specification of the two-level fallback: the ids to try, in order.  The first
    one that names a provider wins; none means the native path. *)
Definition candidates (c : Config) (pid : string) (p : option Purpose) (ns : bool) : list string :=
  (if ns then [] else option_list (p ≫= λ p, purpose c !! as_key p)) ++ [pid].

Definition route_spec (c : Config) (pid : string) (p : option Purpose) (ns : bool) : option Route :=
  if enabled c then
    head (omap (λ id, (λ pc, {| provider_id := id; cfg := pc |}) <$> providers c !! id)
               (candidates c pid p ns))
  else None.

Lemma by_id_head c pid :
  (λ pc, {| provider_id := pid; cfg := pc |}) <$> providers c !! pid =
  head (omap (λ id, (λ pc, {| provider_id := id; cfg := pc |}) <$> providers c !! id) [pid]).
Proof. simpl. by destruct (providers c !! pid). Qed.

(** [route_in] is the two-level fallback of the design: purpose target unless
    the request has inexpressible tools, then the provider id, then native; a purpose
    that maps to an unknown provider falls through rather than failing. *)
Theorem route_in_refines_spec c pid p ns : route_in c pid p ns = route_spec c pid p ns.
Proof.
  unfold route_in, route_spec, candidates. destruct (enabled c); [|done]. cbn [negb].
  rewrite by_id_head. destruct p as [p|]; simpl; [|by destruct ns].
  destruct (purpose c !! as_key p) as [target|]; simpl; [|by destruct ns].
  destruct ns; [by destruct (providers c !! target)|]. simpl.
  by destruct (providers c !! target).
Qed.

Lemma route_in_provider c pid p ns r :
  route_in c pid p ns = Some r →
  enabled c = true ∧ providers c !! provider_id r = Some (cfg r).
Proof.
  unfold route_in. destruct (enabled c); [|done]. simpl. intros H. split; [done|].
  repeat case_match; simplify_eq/=; try done.
  all: destruct (providers c !! pid) eqn:E; by simplify_eq/=.
Qed.

(** The WebSocket bypass and the router agree: the transport is bypassed
    exactly when an expressible request of that source is routed by its purpose, so a
    purpose-routed request never goes out on a WebSocket. *)
Theorem bypass_iff_purpose_routed c pid p :
  should_bypass_in c pid p = true ↔
  ∃ q target pc, p = Some q ∧ purpose c !! as_key q = Some target ∧
    route_in c pid p false = Some {| provider_id := target; cfg := pc |} ∧
    providers c !! target = Some pc.
Proof.
  unfold should_bypass_in, route_in. destruct (enabled c); simpl; [|naive_solver].
  destruct p as [q|]; [|naive_solver].
  destruct (purpose c !! as_key q) as [t|] eqn:Et; [|naive_solver].
  rewrite bool_decide_eq_true. split.
  - intros [pc Hpc]. exists q, t, pc. by rewrite Hpc.
  - intros (q' & t' & pc & ? & Ht' & _ & ?). simplify_eq. eauto.
Qed.

(** A route taken by purpose comes from a request that passed the pre-check. *)
Lemma route_by_purpose_expressible c pid source req r :
  route c pid source req = Some r → provider_id r ≠ pid →
  request_has_namespace_tools req = false.
Proof.
  unfold route, route_in. destruct (enabled c); [|done]. cbn [negb].
  destruct (source ≫= purpose_from_source) as [p|] eqn:Ep; simpl.
  - destruct (request_has_namespace_tools req) eqn:E; [|done].
    destruct (purpose c !! as_key p) as [t|]; [destruct (providers c !! t)|];
      destruct (providers c !! pid); simpl; naive_solver.
  - destruct (providers c !! pid); simpl; naive_solver.
Qed.

Example route_examples :
  let c := @loaded toml_example hash_order_id (Some "text") in
  (provider_id <$> route_in c "ds" (Some PCompact) true) = Some "ds" ∧
  (provider_id <$> route_in c "other" (Some PCompact) false) = Some "ds" ∧
  (provider_id <$> route_in c "other" (Some PReview) false) = None ∧
  should_bypass_in c "other" (Some PReview) = false ∧
  should_bypass_in c "other" (Some PCompact) = true.
Proof. repeat split; vm_compute; reflexivity. Qed.
