(* ===== verification/Connector.v ===== *)
(** * llm-switch: what the connectors share

    zmod/llm-switch/src/connector/mod.rs: errors, the egress context, the headers of
    an outgoing request, the names of the item variants. *)

From S2P Require Import Prelude Str Json Protocol SwitchConfig.

Inductive ConnError :=
| HardFail (msg : string)
| Http (e : ApiError).

(** [From<ConnError> for ApiError] *)
Definition conn_to_api (e : ConnError) : ApiError :=
  match e with
  | Http api => api
  | HardFail msg => InvalidRequest msg
  end.

(** The [http] client handle is not data; the fallback provider is the effect of its
    [add_auth_headers]. *)
Record EgressCtx := {
  ctx_base_url : string;
  ctx_model : string;
  ctx_auth : AuthKind;
  ctx_key : option string;
  ctx_anthropic_version : option string;
  ctx_path_override : option string;
  ctx_default_max_tokens : option Z;
  ctx_prompt_cache : bool;
  ctx_auth_fallback : option (HeaderMap → HeaderMap);
}.

Definition egress_headers `{HeaderValues} (ctx : EgressCtx) (anthropic_version : option string) :
  Result HeaderMap ApiError :=
  match ctx_key ctx with
  | Some key =>
      map_err (λ e, InvalidRequest (http_error_to_string e))
        (build_headers (ctx_auth ctx) (Some key) anthropic_version)
  | None =>
      match ctx_auth ctx, ctx_auth_fallback ctx with
      | Bearer, Some add_auth_headers =>
          Ok (<["content-type" := "application/json"]> (add_auth_headers (∅ : HeaderMap)))
      | _, _ => Err (InvalidRequest "missing API key (set key_env or auth_key)")
      end
  end.

Definition variant_name (item : ResponseItem) : string :=
  match item with
  | Message _ _ _ _ _ => "Message"
  | AgentMessage _ _ _ _ _ => "AgentMessage"
  | Reasoning _ _ _ _ _ => "Reasoning"
  | LocalShellCall _ _ _ _ _ => "LocalShellCall"
  | FunctionCall _ _ _ _ _ _ => "FunctionCall"
  | ToolSearchCall _ _ _ _ _ _ => "ToolSearchCall"
  | FunctionCallOutput _ _ _ _ => "FunctionCallOutput"
  | CustomToolCall _ _ _ _ _ _ => "CustomToolCall"
  | CustomToolCallOutput _ _ _ _ _ => "CustomToolCallOutput"
  | ToolSearchOutput _ _ _ _ _ _ => "ToolSearchOutput"
  | WebSearchCall _ _ _ _ => "WebSearchCall"
  | ImageGenerationCall _ _ _ _ _ => "ImageGenerationCall"
  | Compaction _ _ _ => "Compaction"
  | CompactionTrigger _ => "CompactionTrigger"
  | ContextCompaction _ _ _ => "ContextCompaction"
  | Other => "Other"
  end.

(** [format!("{:?}")] of an [Option<&str>] *)
Definition debug_opt_str `{Unicode} (o : option string) : string :=
  match o with
  | None => "None"
  | Some s => "Some(" +:+ (debug_str s +:+ ")")
  end.

(** ** The translators' interface

    The trait [SseTranslator]: a connector's accumulator over parsed SSE events.  The
    state after an error is never used again. *)
Class SseTranslator (S : Type) := {
  tr_push : S → Value → Result (S * list ResponseEvent) ConnError;
  tr_finish : S → S * list ResponseEvent;
}.

Definition is_text_delta (e : ResponseEvent) : bool :=
  match e with OutputTextDelta _ => true | _ => false end.

Definition is_call_done (e : ResponseEvent) : bool :=
  match e with OutputItemDone (FunctionCall _ _ _ _ _ _) => true | _ => false end.

(** The assistant message that records a turn's text. *)
Definition text_message (t : string) : ResponseEvent :=
  OutputItemDone (Message None "assistant" [OutputText t] None None).

(** What the egress engine relies on: [shown] is the text the events displayed so far;
    a push only displays; finishing emits the calls, the message that records the
    displayed text, and one [Completed]. *)
Class TranslatorLaws (S : Type) `{SseTranslator S} := {
  shown : S → string;
  push_shown : ∀ st v st' evs, tr_push st v = Ok (st', evs) →
    shown st' = shown st +:+ delta_text evs ∧ forallb is_text_delta evs = true;
  finish_shape : ∀ st, ∃ calls rid usage et,
    (tr_finish st).2 = calls ++ (if str_is_empty (shown st) then [] else [text_message (shown st)])
                       ++ [Completed rid usage et] ∧
    forallb is_call_done calls = true;
}.

(** A provider with [x-api-key] auth never borrows codex's own credentials:
    whatever the fallback is, its headers carry the provider's key, and without a key
    the request is refused. *)
Theorem xapikey_never_borrows `{HeaderValues} ctx ver h :
  ctx_auth ctx = XApiKey → egress_headers ctx ver = Ok h →
  ∃ key, ctx_key ctx = Some key ∧ header_value key = Ok (default key (h !! "x-api-key")) ∧
         is_Some (h !! "x-api-key") ∧ h !! "authorization" = None ∧
         is_Some (h !! "anthropic-version").
Proof.
  intros Ha. unfold egress_headers. rewrite Ha. destruct (ctx_key ctx) as [k|]; [|done].
  unfold build_headers. simpl.
  destruct (header_value k) as [v|e] eqn:Ev; simpl; [|done].
  destruct (header_value (default "2023-06-01" ver)) as [vv|e] eqn:Evv; simpl; [|done].
  intros ?; simplify_eq. exists k. rewrite Ev. by simplify_map_eq.
Qed.

(** Header values that are the text itself. *)
Definition header_values_id : HeaderValues := {| header_value s := Ok s |}.

Definition ctx_example : EgressCtx :=
  {| ctx_base_url := "https://api.example.com"; ctx_model := "m"; ctx_auth := XApiKey;
     ctx_key := Some "k"; ctx_anthropic_version := None; ctx_path_override := None;
     ctx_default_max_tokens := Some 1000%Z; ctx_prompt_cache := false;
     ctx_auth_fallback := Some (insert "authorization" "Bearer codex") |}.

Lemma xapikey_never_borrows_witness :
  ∃ key h, @egress_headers header_values_id ctx_example None = Ok h ∧
           ctx_key ctx_example = Some key ∧ h !! "authorization" = None.
Proof.
  destruct (@xapikey_never_borrows header_values_id ctx_example None _ eq_refl eq_refl)
    as (key & Hk & _ & _ & Hn & _).
  eexists key, _. split; [reflexivity|]. by split.
Defined.
