(* ===== verification/ChatReq.v ===== *)
(** * llm-switch: Chat Completions request

    zmod/llm-switch/src/connector/chat_req.rs: a Responses request becomes a Chat
    Completions body; tool results are paired with the calls they answer. *)

From S2P Require Import Prelude Str Json Protocol SwitchConfig Connector.

Notation ChatResult A := (Result A ConnError).

(** ** Items to messages *)

Definition map_message (role : string) (content : list ContentItem) : ChatResult Value :=
  let? text :=
    fold_res (λ text c,
      match c with
      | InputText t | OutputText t => Ok (text +:+ t)
      | InputImage _ _ =>
          Err (HardFail "image input not supported in v1 chat connector (no capability flag)")
      end) EmptyString content in
  Ok (VObject [("role", VString role); ("content", VString text)]).

Definition map_agent_message (content : list AgentMessageInputContent) : ChatResult Value :=
  let? text :=
    fold_res (λ text c,
      match c with
      | AgentInputText t => Ok (text +:+ t)
      | AgentEncryptedContent _ =>
          Err (HardFail "AgentMessage contains encrypted content (EncryptedContent), v1 chat connector cannot read it")
      end) EmptyString content in
  Ok (VObject [("role", VString "assistant"); ("content", VString text)]).

Definition content_items_to_text (items : list FunctionCallOutputContentItem) : ChatResult string :=
  fold_res (λ text i,
    match i with
    | OutInputText t => Ok (text +:+ t)
    | OutInputImage _ _ =>
        Err (HardFail "tool result contains image content (InputImage), v1 chat connector does not support it")
    | OutEncryptedContent _ =>
        Err (HardFail "tool result contains encrypted content (EncryptedContent), v1 chat connector does not support it")
    end) EmptyString items.

Definition map_function_call_output (call_id : string) (output : FunctionCallOutputPayload) :
  ChatResult Value :=
  let? text :=
    match body output with
    | BodyText t => Ok t
    | BodyContentItems items => content_items_to_text items
    end in
  let text := if bool_decide (success output = Some false) then "[tool error] " +:+ text else text in
  Ok (VObject [("role", VString "tool"); ("tool_call_id", VString call_id); ("content", VString text)]).

(** ** Tools *)

Definition map_tool (t : Value) : Value :=
  VObject [("type", VString "function");
           ("function", VObject
             [("name", default Null (get t "name"));
              ("description", default Null (get t "description"));
              ("parameters", default (VObject [("type", VString "object")]) (get t "parameters"))])].

Definition map_tools `{Unicode} (tools : list Value) : ChatResult (option (list Value)) :=
  match tools with
  | [] => Ok None
  | _ =>
      let? out :=
        fold_res (λ out t,
          if bool_decide (get_str t "type" = Some "function") then Ok (out ++ [map_tool t])
          else Err (HardFail ("tool definition type " +:+ (debug_opt_str (get_str t "type") +:+
                 " not supported in v1 chat connector (only standard function supported)"))))
          [] tools in
      Ok (Some out)
  end.

Definition map_tool_choice `{SerdeJson} (tc : string) : ChatResult (option Value) :=
  if str_eqb tc "auto" then Ok (Some (VString "auto"))
  else if str_eqb tc "none" then Ok (Some (VString "none"))
  else if str_eqb tc "required" then Ok (Some (VString "required"))
  else if str_eqb tc EmptyString then Ok None
  else
    let fail := Err (HardFail ("tool_choice '" +:+ (tc +:+
                  "' cannot be expressed in Chat Completions protocol"))) in
    match from_str tc with
    | Ok v =>
        if bool_decide (get_str v "type" = Some "function") then
          match get v "name" with
          | Some name =>
              Ok (Some (VObject [("type", VString "function");
                                 ("function", VObject [("name", name)])]))
          | None => fail
          end
        else fail
    | Err _ => fail
    end.

(** ** Reordering *)

Definition role_is (r : string) (msg : Value) : bool := bool_decide (get_str msg "role" = Some r).

(** First loop: tool messages by id, the rest in order. *)
Definition partition_step (acc : gmap string (list Value) * list Value) (msg : Value) :
  gmap string (list Value) * list Value :=
  let '(tool_by_id, non_tool) := acc in
  if role_is "tool" msg then
    match get_str msg "tool_call_id" with
    | Some id => (<[id := default [] (tool_by_id !! id) ++ [msg]]> tool_by_id, non_tool)
    | None => (tool_by_id, non_tool ++ [msg])
    end
  else (tool_by_id, non_tool ++ [msg]).

Definition take_call (acc : gmap string (list Value) * list Value) (tc : Value) :
  gmap string (list Value) * list Value :=
  let '(tool_by_id, result) := acc in
  match get_str tc "id" with
  | Some id =>
      match tool_by_id !! id with
      | Some msgs => (delete id tool_by_id, result ++ msgs)
      | None => (tool_by_id, result)
      end
  | None => (tool_by_id, result)
  end.

(** Second loop: each assistant message with calls takes its results. *)
Definition place_step (acc : gmap string (list Value) * list Value) (msg : Value) :
  gmap string (list Value) * list Value :=
  let '(tool_by_id, result) := acc in
  let result := result ++ [msg] in
  if role_is "assistant" msg then
    match get_array msg "tool_calls" with
    | Some calls => foldl take_call (tool_by_id, result) calls
    | None => (tool_by_id, result)
    end
  else (tool_by_id, result).

Definition reorder_tool_messages `{HashOrder} (messages : list Value) : list Value :=
  let '(tool_by_id, non_tool) := foldl partition_step (∅, []) messages in
  let '(rest, result) := foldl place_step (tool_by_id, []) non_tool in
  result ++ (hash_iter rest ≫= snd).

(** ** Field downgrade *)

Definition apply_field_downgrade (b : Value) (req : ResponsesApiRequest) : Value :=
  let b :=
    match reasoning req with
    | Some r =>
        match effort r with
        | Some e => index_set "reasoning_effort" (VString (effort_as_str e)) b
        | None => b
        end
    | None => b
    end in
  match text req ≫= format with
  | Some f =>
      let fmt_val := text_format_to_value f in
      if bool_decide (get_str fmt_val "type" = Some "json_schema") then
        let js := [] in
        let js := match get fmt_val "name" with Some n => obj_insert "name" n js | None => js end in
        let js := match get fmt_val "schema" with Some s => obj_insert "schema" s js | None => js end in
        let js := match get fmt_val "strict" with Some s => obj_insert "strict" s js | None => js end in
        index_set "response_format"
          (VObject [("type", VString "json_schema"); ("json_schema", VObject js)]) b
      else b
  | None => b
  end.

(** ** The request *)

Record ChatAcc := {
  messages : list Value;
  seen_calls : gset string;
  calls_needing_result : gset string;
}.

Definition tool_call_message (name arguments call_id : string) : Value :=
  VObject [("role", VString "assistant");
           ("tool_calls", VArray [VObject
             [("id", VString call_id); ("type", VString "function");
              ("function", VObject [("name", VString name); ("arguments", VString arguments)])]])].

Definition unsupported (what : string) : ChatResult ChatAcc :=
  Err (HardFail (what +:+ " not supported in v1 chat connector")).

Definition push_message (acc : ChatAcc) (m : Value) : ChatAcc :=
  {| messages := messages acc ++ [m]; seen_calls := seen_calls acc;
     calls_needing_result := calls_needing_result acc |}.

(** The [match] of the loop over [req.input]. *)
Definition push_item (acc : ChatAcc) (item : ResponseItem) : ChatResult ChatAcc :=
  match item with
  | Message _ role content _ _ =>
      let? m := map_message role content in Ok (push_message acc m)
  | FunctionCall _ name namespace arguments call_id _ =>
      match namespace with
      | Some _ => Err (HardFail ("namespaced function call '" +:+ (name +:+
                         "' not supported in v1 chat connector")))
      | None =>
          Ok {| messages := messages acc ++ [tool_call_message name arguments call_id];
                seen_calls := {[call_id]} ∪ seen_calls acc;
                calls_needing_result := {[call_id]} ∪ calls_needing_result acc |}
      end
  | FunctionCallOutput _ call_id output _ =>
      if negb (bool_decide (call_id ∈ seen_calls acc)) then Ok acc
      else
        let? m := map_function_call_output call_id output in
        Ok {| messages := messages acc ++ [m]; seen_calls := seen_calls acc;
              calls_needing_result := calls_needing_result acc ∖ {[call_id]} |}
  | AgentMessage _ _ _ content _ =>
      let? m := map_agent_message content in Ok (push_message acc m)
  | Reasoning _ _ _ _ _ => Ok acc
  | CompactionTrigger _ => Ok acc
  | LocalShellCall _ _ _ _ _ => unsupported "LocalShellCall"
  | ToolSearchCall _ _ _ _ _ _ => unsupported "ToolSearchCall"
  | ToolSearchOutput _ _ _ _ _ _ => unsupported "ToolSearchOutput"
  | WebSearchCall _ _ _ _ => unsupported "WebSearchCall"
  | ImageGenerationCall _ _ _ _ _ => unsupported "ImageGenerationCall"
  | CustomToolCall _ _ _ _ _ _ => unsupported "CustomToolCall"
  | CustomToolCallOutput _ _ _ _ _ => unsupported "CustomToolCallOutput"
  | Compaction _ _ _ => unsupported "Compaction (encrypted content)"
  | ContextCompaction _ _ _ => unsupported "ContextCompaction (encrypted content)"
  | Other => unsupported "unknown ResponseItem variant (Other)"
  end.

Definition placeholder (call_id : string) : Value :=
  VObject [("role", VString "tool"); ("tool_call_id", VString call_id);
           ("content", VString "[No output available yet]")].

Definition init_acc (instructions : string) : ChatAcc :=
  {| messages := if negb (str_is_empty instructions)
                 then [VObject [("role", VString "system"); ("content", VString instructions)]]
                 else [];
     seen_calls := ∅; calls_needing_result := ∅ |}.

Definition build_chat_request `{Unicode, SerdeJson, order : HashOrder} (req : ResponsesApiRequest)
    (ctx : EgressCtx) : ChatResult Value :=
  let? tls := map_tools (tools req) in
  let? acc := fold_res push_item (init_acc (instructions req)) (input req) in
  let msgs := messages acc ++ (placeholder <$> hash_order (elements (calls_needing_result acc))) in
  let msgs := reorder_tool_messages msgs in
  let b := VObject [("model", VString (ctx_model ctx)); ("messages", VArray msgs);
                    ("stream", VBool true);
                    ("stream_options", VObject [("include_usage", VBool true)]);
                    ("parallel_tool_calls", VBool (parallel_tool_calls req))] in
  let? b :=
    match tls with
    | Some arr =>
        let b := index_set "tools" (VArray arr) b in
        let? tc := map_tool_choice (tool_choice req) in
        Ok (match tc with Some tc => index_set "tool_choice" tc b | None => b end)
    | None => Ok b
    end in
  Ok (apply_field_downgrade b req).
