(* ===== verification/ChatPairing.v ===== *)
(** * llm-switch: tool results are paired with their calls

    Theorems about [reorder_tool_messages] and [build_chat_request] (ChatReq.v). *)

From S2P Require Import Prelude Str Json Protocol SwitchConfig Connector ChatReq.

#[local] Arguments take_call : simpl never.
#[local] Arguments place_step : simpl never.
#[local] Arguments get_str : simpl never.

(** The id a tool message answers; the ids an assistant message calls. *)
Definition tool_id (msg : Value) : option string :=
  if role_is "tool" msg then get_str msg "tool_call_id" else None.

Definition call_ids (msg : Value) : list string :=
  if role_is "assistant" msg then
    match get_array msg "tool_calls" with
    | Some calls => omap (λ tc, get_str tc "id") calls
    | None => []
    end
  else [].

Definition is_plain (msg : Value) : bool := bool_decide (tool_id msg = None).

Definition bucket (ms : list Value) (id : string) : list Value :=
  List.filter (λ m, bool_decide (tool_id m = Some id)) ms.

Definition bucket_opt (ms : list Value) (id : string) : option (list Value) :=
  match bucket ms id with [] => None | l => Some l end.

Lemma default_bucket_opt ms id : default [] (bucket_opt ms id) = bucket ms id.
Proof. unfold bucket_opt. by destruct (bucket ms id). Qed.

Lemma bucket_app ms1 ms2 id : bucket (ms1 ++ ms2) id = bucket ms1 id ++ bucket ms2 id.
Proof. apply List.filter_app. Qed.

Lemma elem_of_bucket ms id m : m ∈ bucket ms id ↔ m ∈ ms ∧ tool_id m = Some id.
Proof.
  unfold bucket. rewrite !list_elem_of_In, List.filter_In, bool_decide_eq_true. done.
Qed.

Lemma is_plain_true m : is_plain m = true ↔ tool_id m = None.
Proof. apply bool_decide_eq_true. Qed.

Lemma is_plain_false m : is_plain m = false ↔ tool_id m ≠ None.
Proof. apply bool_decide_eq_false. Qed.

Lemma bucket_single m id :
  bucket [m] id = if decide (tool_id m = Some id) then [m] else [].
Proof. unfold bucket. cbn [List.filter]. by case_decide; case_bool_decide. Qed.

(** ** The two loops *)

Lemma partition_step_eq m nt msg :
  partition_step (m, nt) msg =
  match tool_id msg with
  | Some id => (<[id := default [] (m !! id) ++ [msg]]> m, nt)
  | None => (m, nt ++ [msg])
  end.
Proof. unfold partition_step, tool_id. by destruct (role_is "tool" msg). Qed.

(** After the first loop the map holds the buckets and the list the other messages. *)
Lemma partition_spec ms :
  ∃ m, foldl partition_step (∅, []) ms = (m, List.filter is_plain ms) ∧
       (∀ id, m !! id = bucket_opt ms id).
Proof.
  induction ms as [|msg ms (m & IH & Hm)] using rev_ind.
  { exists ∅. split; [done|]. intros id. by rewrite lookup_empty. }
  rewrite foldl_snoc, IH, partition_step_eq, List.filter_app. cbn [List.filter].
  unfold bucket_opt. setoid_rewrite bucket_app. setoid_rewrite bucket_single.
  destruct (tool_id msg) as [tid|] eqn:Et.
  - rewrite (proj2 (is_plain_false msg)), app_nil_r by congruence.
    eexists. split; [done|]. intros id.
    rewrite lookup_insert. destruct (decide (tid = id)) as [->|Hne].
    + rewrite decide_True by done. rewrite Hm, default_bucket_opt.
      by destruct (bucket ms id).
    + rewrite decide_False, app_nil_r by congruence. apply Hm.
  - rewrite (proj2 (is_plain_true msg)) by done. exists m. split; [done|]. intros id.
    rewrite decide_False, app_nil_r by done. apply Hm.
Qed.

(** What the second loop must produce: every message that is not a tool result, in
    order, each followed by the results of the calls it makes; a result is used once. *)
Fixpoint blocks (ms : list Value) (used : gset string) (ids : list string) : list Value :=
  match ids with
  | [] => []
  | id :: ids' =>
      (if bool_decide (id ∈ used) then [] else bucket ms id) ++ blocks ms ({[id]} ∪ used) ids'
  end.

Fixpoint reorder_spec (ms : list Value) (used : gset string) (nt : list Value) : list Value :=
  match nt with
  | [] => []
  | msg :: nt' =>
      msg :: blocks ms used (call_ids msg) ++
      reorder_spec ms (list_to_set (call_ids msg) ∪ used) nt'
  end.

Definition avail (ms : list Value) (used : gset string) (m : gmap string (list Value)) : Prop :=
  ∀ id, m !! id = if bool_decide (id ∈ used) then None else bucket_opt ms id.

Lemma avail_ext ms used used' m :
  (∀ k, k ∈ used ↔ k ∈ used') → avail ms used m → avail ms used' m.
Proof.
  intros Hu Hm k. rewrite Hm.
  destruct (decide (k ∈ used)) as [H|H]; pose proof H as H'; rewrite Hu in H'.
  - by rewrite !bool_decide_true.
  - by rewrite !bool_decide_false.
Qed.

Lemma avail_use ms used m id :
  avail ms used m →
  avail ms ({[id]} ∪ used) (delete id m) ∧
  default [] (m !! id) = if bool_decide (id ∈ used) then [] else bucket ms id.
Proof.
  intros Hm. split.
  - intros k. rewrite lookup_delete, Hm. destruct (decide (id = k)) as [->|Hne].
    + by rewrite bool_decide_true by set_solver.
    + destruct (decide (k ∈ used)); [rewrite !bool_decide_true by set_solver|
        rewrite !bool_decide_false by set_solver]; done.
  - rewrite Hm. case_bool_decide; [done|]. apply default_bucket_opt.
Qed.

Lemma take_call_eq m res tc :
  take_call (m, res) tc =
  match get_str tc "id" with
  | Some id => (delete id m, res ++ default [] (m !! id))
  | None => (m, res)
  end.
Proof.
  unfold take_call. destruct (get_str tc "id") as [id|]; [|done].
  destruct (m !! id) eqn:E; simpl; [done|]. rewrite app_nil_r. by rewrite delete_id.
Qed.

Lemma take_calls_spec ms used calls m res :
  avail ms used m →
  ∃ m', foldl take_call (m, res) calls =
          (m', res ++ blocks ms used (omap (λ tc, get_str tc "id") calls)) ∧
        avail ms (list_to_set (omap (λ tc, get_str tc "id") calls) ∪ used) m'.
Proof.
  revert used m res; induction calls as [|tc calls IH]; intros used m res Hm; simpl.
  { exists m. rewrite app_nil_r. split; [done|]. by rewrite (left_id_L ∅ (∪)). }
  rewrite take_call_eq. destruct (get_str tc "id") as [id|]; simpl; [|by apply IH].
  destruct (avail_use ms used m id Hm) as [Hm' Hd]. rewrite Hd.
  destruct (IH ({[id]} ∪ used) (delete id m)
              (res ++ (if bool_decide (id ∈ used) then [] else bucket ms id)) Hm') as (m' & -> & Ha).
  exists m'. rewrite <-(assoc_L (++)). split; [done|].
  eapply avail_ext; [|exact Ha]. intros k. set_solver.
Qed.

Lemma place_step_eq ms used m res msg :
  avail ms used m →
  ∃ m', place_step (m, res) msg = (m', res ++ msg :: blocks ms used (call_ids msg)) ∧
        avail ms (list_to_set (call_ids msg) ∪ used) m'.
Proof.
  intros Hm. unfold place_step, call_ids.
  assert (avail ms (list_to_set [] ∪ used) m) as Hm0.
  { eapply avail_ext; [|exact Hm]. intros k. set_solver. }
  destruct (role_is "assistant" msg); [|by exists m].
  destruct (get_array msg "tool_calls") as [calls|]; [|by exists m].
  destruct (take_calls_spec ms used calls m (res ++ [msg]) Hm) as (m' & -> & Ha).
  exists m'. by rewrite <-(assoc_L (++)).
Qed.

Lemma place_spec ms used m nt res :
  avail ms used m →
  ∃ m' used', foldl place_step (m, res) nt = (m', res ++ reorder_spec ms used nt) ∧
    avail ms used' m' ∧
    (∀ k, k ∈ used' ↔ k ∈ used ∨ ∃ msg, msg ∈ nt ∧ k ∈ call_ids msg).
Proof.
  revert used m res; induction nt as [|msg nt IH]; intros used m res Hm; simpl.
  { exists m, used. rewrite app_nil_r. split_and!; try done. intros k. set_solver. }
  destruct (place_step_eq ms used m res msg Hm) as (m1 & -> & Hm1).
  destruct (IH _ m1 (res ++ msg :: blocks ms used (call_ids msg)) Hm1) as (m' & used' & -> & Ha & Hu).
  exists m', used'. rewrite <-(assoc_L (++)). split_and!; [done|done|].
  intros k. rewrite Hu. set_solver.
Qed.

(** A result nobody called for: left for the end. *)
Definition orphan (ms : list Value) (id : string) : Prop :=
  bucket ms id ≠ [] ∧ ∀ msg, msg ∈ ms → is_plain msg = true → id ∉ call_ids msg.

Lemma elem_of_plain ms msg : msg ∈ List.filter is_plain ms ↔ msg ∈ ms ∧ is_plain msg = true.
Proof. by rewrite !list_elem_of_In, List.filter_In. Qed.

Lemma reorder_eq `{HashOrder} ms :
  ∃ rest : gmap string (list Value),
    reorder_tool_messages ms = reorder_spec ms ∅ (List.filter is_plain ms) ++ (hash_iter rest ≫= snd) ∧
    (∀ id l, rest !! id = Some l → l = bucket ms id ∧ orphan ms id).
Proof.
  unfold reorder_tool_messages.
  destruct (partition_spec ms) as (m & -> & Hm).
  assert (avail ms ∅ m) as Ha by (intros k; rewrite bool_decide_false by set_solver; apply Hm).
  destruct (place_spec ms ∅ m (List.filter is_plain ms) [] Ha) as (m' & used' & -> & Ha' & Hu).
  exists m'. split; [done|]. intros id l Hl. rewrite Ha' in Hl.
  case_bool_decide as Hused; [done|]. unfold bucket_opt in Hl.
  destruct (bucket ms id) as [|b bs] eqn:Eb; simplify_eq. split; [done|].
  split; [congruence|]. intros msg Hin Hp Hid. apply Hused, Hu. right. exists msg.
  by rewrite elem_of_plain.
Qed.

(** Without orphans the order of the hash map is never used. *)
Lemma reorder_no_orphan `{HashOrder} ms :
  (∀ id, ¬ orphan ms id) →
  reorder_tool_messages ms = reorder_spec ms ∅ (List.filter is_plain ms).
Proof.
  intros Hno. destruct (reorder_eq ms) as (rest & -> & Hrest).
  assert (rest = ∅) as ->.
  { apply map_empty. intros id. destruct (rest !! id) as [l|] eqn:E; [|done].
    exfalso. by apply (Hno id), (Hrest id l). }
  unfold hash_iter. rewrite dom_empty_L, elements_empty.
  assert (hash_order [] = []) as -> by (apply Permutation_nil_r, hash_order_perm).
  simpl. by rewrite app_nil_r.
Qed.

(** ** Nothing is lost *)

Definition vals (m : gmap string (list Value)) : list Value := map_to_list m ≫= snd.

Lemma vals_lookup m id : vals m ≡ₚ default [] (m !! id) ++ vals (delete id m).
Proof.
  unfold vals. destruct (m !! id) as [l|] eqn:E; simpl.
  - by rewrite <-(map_to_list_delete m id l E).
  - by rewrite delete_id.
Qed.

Lemma vals_insert m id l : vals (<[id := l]> m) ≡ₚ l ++ vals (delete id m).
Proof. by rewrite (vals_lookup _ id), lookup_insert_eq, delete_insert_eq. Qed.

Lemma partition_perm ms m nt :
  foldl partition_step (∅, []) ms = (m, nt) → nt ++ vals m ≡ₚ ms.
Proof.
  revert m nt; induction ms as [|msg ms IH] using rev_ind; intros m nt.
  { simpl. intros ?; simplify_eq. unfold vals. by rewrite map_to_list_empty. }
  rewrite foldl_snoc. destruct (foldl partition_step (∅, []) ms) as [m0 nt0].
  specialize (IH m0 nt0 eq_refl). rewrite partition_step_eq.
  destruct (tool_id msg) as [id|]; intros ?; simplify_eq.
  - rewrite vals_insert, <-IH, (vals_lookup m0 id). solve_Permutation.
  - rewrite <-IH. solve_Permutation.
Qed.

Lemma take_calls_perm calls m res m' res' :
  foldl take_call (m, res) calls = (m', res') → res' ++ vals m' ≡ₚ res ++ vals m.
Proof.
  revert m res; induction calls as [|tc calls IH]; intros m res; simpl.
  { intros ?; by simplify_eq. }
  rewrite take_call_eq. destruct (get_str tc "id") as [id|]; [|apply IH].
  intros Hf. rewrite (IH _ _ Hf), (vals_lookup m id). by rewrite (assoc (++)).
Qed.

Lemma place_perm nt m res m' res' :
  foldl place_step (m, res) nt = (m', res') → res' ++ vals m' ≡ₚ res ++ nt ++ vals m.
Proof.
  revert m res; induction nt as [|msg nt IH]; intros m res; simpl.
  { intros ?; by simplify_eq. }
  destruct (place_step (m, res) msg) as [m1 res1] eqn:Ep. intros Hf. rewrite (IH _ _ Hf).
  assert (res1 ++ vals m1 ≡ₚ res ++ [msg] ++ vals m) as Hp.
  { unfold place_step in Ep. destruct (role_is "assistant" msg); [|simplify_eq; solve_Permutation].
    destruct (get_array msg "tool_calls"); [|simplify_eq; solve_Permutation].
    apply take_calls_perm in Ep. rewrite Ep. solve_Permutation. }
  rewrite (Permutation_app_comm nt), (assoc (++)), Hp. solve_Permutation.
Qed.

(** Reordering keeps every message exactly once: no tool result is dropped or
    duplicated, in whatever order the hash map of results is iterated. *)
Theorem reorder_permutes `{HashOrder} ms : reorder_tool_messages ms ≡ₚ ms.
Proof.
  unfold reorder_tool_messages.
  destruct (foldl partition_step (∅, []) ms) as [m nt] eqn:Ep.
  destruct (foldl place_step (m, []) nt) as [rest res] eqn:Eq.
  rewrite (hash_iter_perm rest). fold (vals rest).
  rewrite (place_perm _ _ _ _ _ Eq). simpl. by apply partition_perm.
Qed.

(** ** The messages [build_chat_request] hands to the reordering *)

(** The calls the input makes, in order. *)
Definition call_of (item : ResponseItem) : option string :=
  match item with FunctionCall _ _ None _ call_id _ => Some call_id | _ => None end.

Definition input_calls (items : list ResponseItem) : list string := omap call_of items.

Definition plain_msg (m : Value) : Prop := tool_id m = None ∧ call_ids m = [].

Lemma map_message_shape role content m : map_message role content = Ok m → plain_msg m.
Proof.
  unfold map_message. intros (t & _ & ?)%res_bind_ok; simplify_eq.
  unfold plain_msg, tool_id, call_ids, role_is, get_str. simpl.
  split; by case_bool_decide.
Qed.

Lemma map_agent_message_shape content m : map_agent_message content = Ok m → plain_msg m.
Proof. unfold map_agent_message. intros (t & _ & ?)%res_bind_ok; simplify_eq. done. Qed.

Lemma map_function_call_output_shape call_id output m :
  map_function_call_output call_id output = Ok m → tool_id m = Some call_id.
Proof. unfold map_function_call_output. intros (t & _ & ?)%res_bind_ok; simplify_eq. done. Qed.

Lemma tool_call_message_shape n a c :
  tool_id (tool_call_message n a c) = None ∧ call_ids (tool_call_message n a c) = [c].
Proof. done. Qed.

Lemma placeholder_shape c : tool_id (placeholder c) = Some c.
Proof. done. Qed.

(** Loop invariant over [req.input]. *)
Record acc_inv (calls : list string) (acc : ChatAcc) : Prop := {
  ai_calls : List.filter is_plain (messages acc) ≫= call_ids = calls;
  ai_single : ∀ m, m ∈ messages acc → is_plain m = true → length (call_ids m) ≤ 1;
  ai_seen : ∀ id, id ∈ seen_calls acc ↔ id ∈ calls;
  ai_tool : ∀ id, bucket (messages acc) id ≠ [] → id ∈ calls;
  ai_need : calls_needing_result acc ⊆ seen_calls acc;
  ai_answered : ∀ id, id ∈ calls → id ∈ calls_needing_result acc ∨ bucket (messages acc) id ≠ [];
}.

Lemma acc_inv_init i : acc_inv [] (init_acc i).
Proof.
  unfold init_acc. destruct (str_is_empty i); simpl; constructor; simpl; try set_solver.
Qed.

Lemma filter_plain_snoc ms m :
  List.filter is_plain (ms ++ [m]) = List.filter is_plain ms ++ if is_plain m then [m] else [].
Proof. rewrite List.filter_app. done. Qed.

Lemma acc_inv_plain calls acc m :
  acc_inv calls acc → plain_msg m → acc_inv calls (push_message acc m).
Proof.
  intros [H1 H2 H3 H4 H5 H6] [Ht Hc]. constructor; simpl; try done.
  - rewrite filter_plain_snoc, (proj2 (is_plain_true m) Ht), bind_app, H1. simpl.
    by rewrite Hc, !app_nil_r.
  - intros m' [Hm'| ->%list_elem_of_singleton]%elem_of_app Hp; [by apply H2|].
    rewrite Hc. simpl. lia.
  - intros id. rewrite bucket_app, bucket_single, decide_False, app_nil_r by congruence. apply H4.
  - intros id Hid. rewrite bucket_app, bucket_single, decide_False, app_nil_r by congruence. by apply H6.
Qed.

Lemma acc_inv_call calls acc n a c :
  acc_inv calls acc →
  acc_inv (calls ++ [c])
    {| messages := messages acc ++ [tool_call_message n a c];
       seen_calls := {[c]} ∪ seen_calls acc;
       calls_needing_result := {[c]} ∪ calls_needing_result acc |}.
Proof.
  intros [H1 H2 H3 H4 H5 H6]. constructor; simpl.
  - rewrite filter_plain_snoc. rewrite bind_app, H1. done.
  - intros m' [Hm'| ->%list_elem_of_singleton]%elem_of_app Hp; [by apply H2|]. simpl. lia.
  - intros id. set_solver.
  - intros id. rewrite bucket_app, bucket_single, decide_False, app_nil_r by done. set_solver.
  - set_solver.
  - intros id. rewrite bucket_app, bucket_single, decide_False, app_nil_r by done. set_solver.
Qed.

Lemma acc_inv_output calls acc c m :
  acc_inv calls acc → c ∈ seen_calls acc → tool_id m = Some c →
  acc_inv calls
    {| messages := messages acc ++ [m]; seen_calls := seen_calls acc;
       calls_needing_result := calls_needing_result acc ∖ {[c]} |}.
Proof.
  intros [H1 H2 H3 H4 H5 H6] Hc Hm.
  assert (is_plain m = false) as Hp by (apply is_plain_false; congruence).
  constructor; simpl.
  - by rewrite filter_plain_snoc, Hp, app_nil_r.
  - intros m' [Hm'| ->%list_elem_of_singleton]%elem_of_app Hp'; [by apply H2|congruence].
  - done.
  - intros id. rewrite bucket_app, bucket_single. case_decide; [|rewrite app_nil_r; apply H4].
    intros _. apply H3. congruence.
  - clear -H5. set_solver.
  - intros id Hid. rewrite bucket_app, bucket_single. case_decide as Hd.
    + right. by destruct (bucket (messages acc) id).
    + rewrite app_nil_r. destruct (H6 id Hid); [left|by right].
      apply elem_of_difference. split; [done|]. rewrite elem_of_singleton. congruence.
Qed.

Lemma push_item_inv pre acc item acc' :
  acc_inv (input_calls pre) acc → push_item acc item = Ok acc' →
  acc_inv (input_calls (pre ++ [item])) acc'.
Proof.
  intros Hinv Hp. unfold input_calls. rewrite omap_app.
  assert (call_of item = None → acc_inv (input_calls pre ++ []) acc) as Hsame
    by (rewrite app_nil_r; done).
  destruct item; simpl in *; try discriminate; simplify_eq; try by apply Hsame.
  - apply res_bind_ok in Hp as (m & Hm & ?); simplify_eq. rewrite app_nil_r.
    eapply acc_inv_plain; eauto using map_message_shape.
  - apply res_bind_ok in Hp as (m & Hm & ?); simplify_eq. rewrite app_nil_r.
    eapply acc_inv_plain; eauto using map_agent_message_shape.
  - destruct namespace; simplify_eq. by apply acc_inv_call.
  - rewrite app_nil_r. case_bool_decide; simpl in Hp; simplify_eq; [|done].
    apply res_bind_ok in Hp as (m & Hm & ?); simplify_eq.
    apply acc_inv_output; eauto using map_function_call_output_shape.
Qed.

Lemma push_items_inv i items acc :
  fold_res push_item (init_acc i) items = Ok acc → acc_inv (input_calls items) acc.
Proof.
  intros Hf. eapply (fold_res_inv_prefix push_item (λ pre acc, acc_inv (input_calls pre) acc)).
  - intros pre s x s1 Hs Hx. by eapply push_item_inv.
  - apply acc_inv_init.
  - exact Hf.
Qed.

(** ** The messages that go out *)

Lemma bucket_placeholders l id :
  NoDup l → bucket (placeholder <$> l) id = if decide (id ∈ l) then [placeholder id] else [].
Proof.
  induction 1 as [|c l Hc Hnd IH]; [done|].
  rewrite fmap_cons. change (?a :: ?b) with ([a] ++ b). rewrite bucket_app, bucket_single, IH.
  rewrite placeholder_shape. destruct (decide (c = id)) as [->|Hne].
  - rewrite decide_True, decide_False, decide_True by (done || by left). done.
  - rewrite decide_False by congruence. simpl.
    destruct (decide (id ∈ l)); [rewrite decide_True by by right|rewrite decide_False by set_solver]; done.
Qed.

Definition outgoing `{HashOrder} (acc : ChatAcc) : list Value :=
  messages acc ++ (placeholder <$> hash_order (elements (calls_needing_result acc))).

Lemma needing_nodup `{HashOrder} (s : gset string) : NoDup (hash_order (elements s)).
Proof. rewrite (hash_order_perm _). apply NoDup_elements. Qed.

Lemma elem_of_needing `{HashOrder} (s : gset string) id : id ∈ hash_order (elements s) ↔ id ∈ s.
Proof. rewrite (hash_order_perm _). apply elem_of_elements. Qed.

Lemma bucket_outgoing `{HashOrder} acc id :
  bucket (outgoing acc) id =
  bucket (messages acc) id ++ if decide (id ∈ calls_needing_result acc) then [placeholder id] else [].
Proof.
  unfold outgoing. rewrite bucket_app, bucket_placeholders by apply needing_nodup. f_equal.
  destruct (decide (id ∈ calls_needing_result acc)).
  - by rewrite decide_True by by apply elem_of_needing.
  - by rewrite decide_False by by rewrite elem_of_needing.
Qed.

Lemma plain_outgoing `{HashOrder} acc :
  List.filter is_plain (outgoing acc) = List.filter is_plain (messages acc).
Proof.
  unfold outgoing. rewrite List.filter_app.
  assert (∀ l, List.filter is_plain (placeholder <$> l) = []) as ->; [|by rewrite app_nil_r].
  induction l as [|c l IH]; [done|]. rewrite fmap_cons. cbn [List.filter].
  rewrite (proj2 (is_plain_false (placeholder c))); [done|by rewrite placeholder_shape].
Qed.

Lemma outgoing_no_orphan `{HashOrder} calls acc id : acc_inv calls acc → ¬ orphan (outgoing acc) id.
Proof.
  intros Hinv [Hb Hno]. rewrite bucket_outgoing in Hb.
  assert (id ∈ calls) as Hid.
  { destruct (bucket (messages acc) id) eqn:E.
    - case_decide as Hd; [|done]. apply (ai_seen _ _ Hinv), (ai_need _ _ Hinv), Hd.
    - apply (ai_tool _ _ Hinv). congruence. }
  rewrite <-(ai_calls _ _ Hinv) in Hid. apply list_elem_of_bind in Hid as (m & Hm & Hp).
  apply elem_of_plain in Hp as [Hp1 Hp2].
  apply (Hno m); [|done..]. unfold outgoing. apply elem_of_app. by left.
Qed.

Lemma blocks_ext ms1 ms2 used ids :
  (∀ id, bucket ms1 id = bucket ms2 id) → blocks ms1 used ids = blocks ms2 used ids.
Proof. intros Hb. revert used; induction ids as [|i ids IH]; intros used; simpl; [done|]. by rewrite IH, Hb. Qed.

Lemma reorder_spec_ext ms1 ms2 used nt :
  (∀ id, bucket ms1 id = bucket ms2 id) → reorder_spec ms1 used nt = reorder_spec ms2 used nt.
Proof.
  intros Hb. revert used; induction nt as [|m nt IH]; intros used; simpl; [done|].
  by rewrite IH, (blocks_ext ms1 ms2).
Qed.

Lemma reorder_outgoing_det (h1 h2 : HashOrder) calls acc :
  acc_inv calls acc →
  @reorder_tool_messages h1 (@outgoing h1 acc) = @reorder_tool_messages h2 (@outgoing h2 acc).
Proof.
  intros Hinv. rewrite !reorder_no_orphan by (intros id; by eapply outgoing_no_orphan).
  rewrite !plain_outgoing. apply reorder_spec_ext. intros id. by rewrite !bucket_outgoing.
Qed.

(** The request body is a function of the request: although the calls waiting
    for a result and the results themselves live in hash sets and maps with no fixed
    iteration order, every order gives the same body (and the same error). *)
Theorem chat_request_deterministic `{Unicode, SerdeJson} (h1 h2 : HashOrder) req ctx :
  build_chat_request (order := h1) req ctx = build_chat_request (order := h2) req ctx.
Proof.
  unfold build_chat_request. destruct (map_tools (tools req)) as [tls|e]; [|done]. simpl.
  destruct (fold_res push_item (init_acc (instructions req)) (input req)) as [acc|e] eqn:Ef; [|done].
  apply push_items_inv in Ef. simpl.
  pose proof (reorder_outgoing_det h1 h2 _ acc Ef) as Hd. unfold outgoing in Hd. by rewrite Hd.
Qed.

(** The pairing Chat Completions requires: after an assistant message that makes a call
    come, at once, one or more results for that call, and results come nowhere else.
    [pending] is the call the previous messages left open and whether it is answered. *)
Fixpoint paired (pending : option (string * bool)) (ms : list Value) : bool :=
  match ms with
  | [] => match pending with Some (_, false) => false | _ => true end
  | m :: ms' =>
      match tool_id m with
      | Some id =>
          match pending with
          | Some (id', _) => str_eqb id id' && paired (Some (id', true)) ms'
          | None => false
          end
      | None =>
          match pending with Some (_, false) => false | _ => true end &&
          match call_ids m with
          | [] => paired None ms'
          | [id] => paired (Some (id, false)) ms'
          | _ => false
          end
      end
  end.

Lemma paired_block id b blk rest :
  blk ≠ [] → Forall (λ m, tool_id m = Some id) blk →
  paired (Some (id, b)) (blk ++ rest) = paired (Some (id, true)) rest.
Proof.
  intros Hne Hall. revert b Hne; induction Hall as [|m blk Hm Hall IH]; intros b Hne; [done|].
  simpl. rewrite Hm, str_eqb_refl. simpl. destruct blk as [|m' blk]; [done|]. by apply IH.
Qed.

Lemma bucket_forall ms id : Forall (λ m, tool_id m = Some id) (bucket ms id).
Proof. apply Forall_forall. intros m [_ ?]%elem_of_bucket. done. Qed.

Lemma reorder_spec_paired ms used nt pending :
  match pending with Some (_, false) => False | _ => True end →
  Forall (λ m, tool_id m = None ∧ length (call_ids m) ≤ 1) nt →
  NoDup (nt ≫= call_ids) →
  (∀ id, id ∈ nt ≫= call_ids → id ∉ used ∧ bucket ms id ≠ []) →
  paired pending (reorder_spec ms used nt) = true.
Proof.
  intros Hp Hall. revert used pending Hp.
  induction Hall as [|m nt [Hm Hlen] Hall IH]; intros used pending Hp Hnd Hids.
  { simpl. by destruct pending as [[? []]|]. }
  simpl. rewrite Hm. replace (match pending with Some (_, false) => false | _ => true end) with true
    by by destruct pending as [[? []]|].
  simpl in Hnd, Hids. destruct (call_ids m) as [|id [|? ?]] eqn:Ec; simpl in *; [| |lia].
  - apply IH; try done. intros id Hid. rewrite (left_id_L ∅ (∪)). by apply Hids.
  - destruct (Hids id ltac:(by left)) as [Hu Hb]. rewrite bool_decide_false, app_nil_r by done.
    apply NoDup_cons in Hnd as [Hni Hnd].
    rewrite paired_block by (done || apply bucket_forall).
    apply IH; try done. intros id' Hid'. destruct (Hids id' ltac:(by right)) as [Hu' Hb'].
    split; [|done]. assert (id' ≠ id) by (by intros ->). set_solver.
Qed.

(** Claim C6. When the calls of the input have distinct ids, the messages sent pair every
    call with its results: every call is followed at once by at least one result (the
    tool's, or a placeholder when the history has none) and no result stands alone. *)
Theorem chat_calls_paired `{Unicode, SerdeJson, HashOrder} req ctx b :
  NoDup (input_calls (input req)) → build_chat_request req ctx = Ok b →
  ∃ msgs, get_array b "messages" = Some msgs ∧ paired None msgs = true.
Proof.
  intros Hnd Hb. unfold build_chat_request in Hb.
  apply res_bind_ok in Hb as (tls & _ & Hb). apply res_bind_ok in Hb as (acc & Hacc & Hb).
  apply push_items_inv in Hacc. fold (outgoing acc) in Hb.
  exists (reorder_tool_messages (outgoing acc)). split.
  - apply res_bind_ok in Hb as (b1 & Hb1 & Hb). simplify_eq.
    assert (get b1 "messages" = Some (VArray (reorder_tool_messages (outgoing acc))) ∧ is_object b1 = true) as [Hg Ho].
    { destruct tls as [arr|]; [|by simplify_eq]. cbv zeta in Hb1.
      apply res_bind_ok in Hb1 as (tc & _ & ?); simplify_eq. by destruct tc. }
    unfold get_array, apply_field_downgrade.
    repeat first [case_match | case_bool_decide];
      rewrite ?get_index_set_ne by auto with codez; by rewrite Hg.
  - rewrite reorder_no_orphan by (intros id; by eapply outgoing_no_orphan).
    rewrite plain_outgoing. apply reorder_spec_paired; [done| | |].
    + apply Forall_forall. intros m [Hm Hp]%elem_of_plain. split; [by apply is_plain_true|].
      by eapply ai_single.
    + by rewrite (ai_calls _ _ Hacc).
    + intros id. rewrite (ai_calls _ _ Hacc). intros Hid. split; [set_solver|].
      rewrite bucket_outgoing. destruct (ai_answered _ _ Hacc id Hid) as [Hn|Hn].
      * rewrite decide_True by done. by destruct (bucket (messages acc) id).
      * by destruct (bucket (messages acc) id).
Qed.

(** A history with an answered call, a message in between, and a call without a result. *)
Definition req_example : ResponsesApiRequest :=
  {| model := "m"; instructions := "sys";
     input := [Message None "user" [InputText "hi"] None None;
               FunctionCall None "shell" None "{}" "c1" None;
               FunctionCall None "shell" None "{}" "c2" None;
               Message None "user" [InputText "more"] None None;
               FunctionCallOutput None "c1" {| body := BodyText "out"; success := Some false |} None;
               FunctionCallOutput None "zz" {| body := BodyText "orphan"; success := None |} None];
     tools := [VObject [("type", VString "function"); ("name", VString "shell")]];
     tool_choice := "auto"; parallel_tool_calls := true; reasoning := None; store := false;
     stream := true; include := []; service_tier := None; prompt_cache_key := None;
     text := None; client_metadata := None |}.

Lemma chat_calls_paired_witness :
  NoDup (input_calls (input req_example)) ∧
  ∃ b msgs, @build_chat_request ascii_only serde_toy hash_order_rev req_example ctx_example = Ok b ∧
    get_array b "messages" = Some msgs ∧ length msgs = 7 ∧ paired None msgs = true.
Proof.
  assert (NoDup (input_calls (input req_example))) as Hnd
    by (apply (bool_decide_unpack _); vm_compute; exact I).
  split; [exact Hnd|].
  destruct (@chat_calls_paired ascii_only serde_toy hash_order_rev req_example ctx_example _ Hnd eq_refl)
    as (msgs & Hm & Hp).
  eexists _, msgs. split; [reflexivity|]. split; [exact Hm|]. split; [|exact Hp].
  vm_compute in Hm. injection Hm as <-. reflexivity.
Defined.
