(* ===== verification/AnthropicReq.v ===== *)
(** * llm-switch: Anthropic Messages request

    zmod/llm-switch/src/connector/anthropic_req.rs: a Responses request becomes an
    Anthropic Messages body; consecutive content blocks of one role share a message. *)

From S2P Require Import Prelude Str Json Protocol SwitchConfig Connector.

Notation AnthResult A := (Result A ConnError).
Notation Turn := (string * list Value)%type.

Definition DEFAULT_MAX_TOKENS : Z := 4096.

(** ** Blocks *)

(** [push_block]: into the last turn if it has the role, else a new turn. *)
Fixpoint push_block (role : string) (block : Value) (turns : list Turn) : list Turn :=
  match turns with
  | [] => [(role, [block])]
  | [(r, bs)] =>
      if str_eqb r role then [(r, bs ++ [block])] else [(r, bs); (role, [block])]
  | t :: ts => t :: push_block role block ts
  end.

Definition text_block (t : string) : Value := VObject [("type", VString "text"); ("text", VString t)].

Definition content_item_to_block (c : ContentItem) : AnthResult Value :=
  match c with
  | InputText t | OutputText t => Ok (text_block t)
  | InputImage _ _ =>
      Err (HardFail "image input not supported in v1 anthropic connector (no capability flags)")
  end.

Definition tool_result_items_to_text (items : list FunctionCallOutputContentItem) : AnthResult string :=
  fold_res (λ text i,
    match i with
    | OutInputText t => Ok (text +:+ t)
    | OutInputImage _ _ =>
        Err (HardFail "tool result contains image content (InputImage), v1 anthropic connector not supported")
    | OutEncryptedContent _ =>
        Err (HardFail "tool result contains encrypted content (EncryptedContent), v1 anthropic connector not supported")
    end) EmptyString items.

Definition tool_result_block (call_id : string) (output : FunctionCallOutputPayload) :
  AnthResult Value :=
  let? content_text :=
    match body output with
    | BodyText t => Ok t
    | BodyContentItems items => tool_result_items_to_text items
    end in
  let block := VObject [("type", VString "tool_result"); ("tool_use_id", VString call_id);
                        ("content", VString content_text)] in
  Ok (if bool_decide (success output = Some false) then index_set "is_error" (VBool true) block
      else block).

(** ** Tools *)

Definition map_tool (t : Value) : Value :=
  let tool := VObject [("name", default Null (get t "name"));
                       ("input_schema", default (VObject [("type", VString "object")]) (get t "parameters"))] in
  let description := default Null (get t "description") in
  if is_null description then tool else index_set "description" description tool.

Definition map_tools `{Unicode} (tools : list Value) : AnthResult (option (list Value)) :=
  match tools with
  | [] => Ok None
  | _ =>
      let? out :=
        fold_res (λ out t,
          if bool_decide (get_str t "type" = Some "function") then Ok (out ++ [map_tool t])
          else Err (HardFail ("tool definition type " +:+ (debug_opt_str (get_str t "type") +:+
                 " not supported in v1 anthropic connector (only standard function)"))))
          [] tools in
      Ok (Some out)
  end.

Definition map_tool_choice `{SerdeJson} (tc : string) : AnthResult (option Value) :=
  if str_eqb tc "auto" then Ok (Some (VObject [("type", VString "auto")]))
  else if str_eqb tc "none" then Ok (Some (VObject [("type", VString "none")]))
  else if str_eqb tc "required" then Ok (Some (VObject [("type", VString "any")]))
  else if str_eqb tc EmptyString then Ok None
  else
    let fail := Err (HardFail ("tool_choice '" +:+ (tc +:+
                  "' cannot be expressed in Anthropic Messages protocol"))) in
    match from_str tc with
    | Ok v =>
        if bool_decide (get_str v "type" = Some "function") then
          match get v "name" with
          | Some name => Ok (Some (VObject [("type", VString "tool"); ("name", name)]))
          | None => fail
          end
        else fail
    | Err _ => fail
    end.

(** ** Field downgrade *)

(** [(m / 2).max(1024).min(8000)], or 4000 when [max_tokens] is no [u64]. *)
Definition thinking_budget (b : Value) : Z :=
  match get b "max_tokens" ≫= as_u64 with
  | Some m => Z.min (Z.max (m `div` 2) 1024) 8000
  | None => 4000
  end.

Definition format_hint `{SerdeJson} (fmt_val : Value) : string :=
  if bool_decide (get_str fmt_val "type" = Some "json_schema") then
    NL +:+ (NL +:+ ("You must respond with valid JSON matching this schema: " +:+ to_string fmt_val))
  else NL +:+ (NL +:+ "Respond with valid JSON.").

Definition apply_field_downgrade `{SerdeJson} (b : Value) (req : ResponsesApiRequest) : Value :=
  let b :=
    match reasoning req with
    | Some r =>
        match effort r with
        | Some _ =>
            index_set "thinking"
              (VObject [("type", VString "enabled");
                        ("budget_tokens", VNumber (NInt (thinking_budget b)))]) b
        | None => b
        end
    | None => b
    end in
  match text req ≫= format with
  | Some f =>
      let hint := format_hint (text_format_to_value f) in
      let existing_system := default EmptyString (get_str b "system") in
      index_set "system" (VString (existing_system +:+ hint)) b
  | None => b
  end.

(** ** The request *)

Record AnthAcc := {
  turns : list Turn;
  seen_calls : gset string;
  calls_needing_result : list string;
}.

Definition push (role : string) (block : Value) (acc : AnthAcc) : AnthAcc :=
  {| turns := push_block role block (turns acc); seen_calls := seen_calls acc;
     calls_needing_result := calls_needing_result acc |}.

Definition tool_use_block (call_id name : string) (input : Value) : Value :=
  VObject [("type", VString "tool_use"); ("id", VString call_id); ("name", VString name);
           ("input", input)].

Definition push_item `{SerdeJson} (acc : AnthAcc) (item : ResponseItem) : AnthResult AnthAcc :=
  match item with
  | Message _ role content _ _ =>
      let r := if str_eqb role "assistant" then "assistant" else "user" in
      fold_res (λ acc c, let? block := content_item_to_block c in Ok (push r block acc)) acc content
  | AgentMessage _ _ _ content _ =>
      fold_res (λ acc c,
        match c with
        | AgentInputText t => Ok (push "assistant" (text_block t) acc)
        | AgentEncryptedContent _ =>
            Err (HardFail "AgentMessage contains encrypted content (EncryptedContent), v1 anthropic connector cannot read it")
        end) acc content
  | FunctionCall _ name namespace arguments call_id _ =>
      match namespace with
      | Some _ => Err (HardFail ("namespaced function call '" +:+ (name +:+
                         "' not supported in v1 anthropic connector")))
      | None =>
          let? input := map_err (λ e, HardFail ("FunctionCall arguments invalid JSON: " +:+ e))
                          (from_str arguments) in
          Ok (push "assistant" (tool_use_block call_id name input)
                {| turns := turns acc; seen_calls := {[call_id]} ∪ seen_calls acc;
                   calls_needing_result := calls_needing_result acc ++ [call_id] |})
      end
  | FunctionCallOutput _ call_id output _ =>
      if negb (bool_decide (call_id ∈ seen_calls acc)) then Ok acc
      else
        let? block := tool_result_block call_id output in
        Ok (push "user" block
              {| turns := turns acc; seen_calls := seen_calls acc;
                 calls_needing_result := List.filter (λ id, negb (str_eqb id call_id))
                                           (calls_needing_result acc) |})
  | Reasoning _ _ _ _ _ => Ok acc
  | CompactionTrigger _ => Ok acc
  | LocalShellCall _ _ _ _ _ | ToolSearchCall _ _ _ _ _ _ | ToolSearchOutput _ _ _ _ _ _
  | WebSearchCall _ _ _ _ | ImageGenerationCall _ _ _ _ _ | CustomToolCall _ _ _ _ _ _
  | CustomToolCallOutput _ _ _ _ _ | Compaction _ _ _ | ContextCompaction _ _ _ | Other =>
      Err (HardFail (variant_name item +:+ " not supported in v1 anthropic connector"))
  end.

Definition placeholder_result (call_id : string) : Value :=
  VObject [("type", VString "tool_result"); ("tool_use_id", VString call_id);
           ("content", VString "[No output available yet]")].

(** The accumulator after the loop and the orphan-call fix. *)
Definition finish_turns (acc : AnthAcc) : list Turn :=
  foldl (λ ts id, push_block "user" (placeholder_result id) ts) (turns acc)
    (calls_needing_result acc).

Definition turn_message (t : Turn) : Value :=
  VObject [("role", VString t.1); ("content", VArray t.2)].

Definition init_acc : AnthAcc := {| turns := []; seen_calls := ∅; calls_needing_result := [] |}.

Definition build_anthropic_request `{Unicode, SerdeJson} (req : ResponsesApiRequest)
    (ctx : EgressCtx) : AnthResult Value :=
  let? tls := map_tools (tools req) in
  let? acc := fold_res push_item init_acc (input req) in
  let msgs := turn_message <$> finish_turns acc in
  let max_tokens := default DEFAULT_MAX_TOKENS (ctx_default_max_tokens ctx) in
  let b := VObject [("model", VString (ctx_model ctx)); ("messages", VArray msgs);
                    ("max_tokens", VNumber (NInt max_tokens)); ("stream", VBool true)] in
  let b := if negb (str_is_empty (instructions req))
           then index_set "system" (VString (instructions req)) b else b in
  let? b :=
    match tls with
    | Some arr =>
        let b := index_set "tools" (VArray arr) b in
        let? tc := map_tool_choice (tool_choice req) in
        let tc :=
          if negb (parallel_tool_calls req) then
            Some (index_set "disable_parallel_tool_use" (VBool true)
                    (default (VObject [("type", VString "auto")]) tc))
          else tc in
        Ok (match tc with Some tc => index_set "tool_choice" tc b | None => b end)
    | None => Ok b
    end in
  let b := apply_field_downgrade b req in
  Ok (if ctx_prompt_cache ctx
      then index_set "cache_control" (VObject [("type", VString "ephemeral")]) b else b).
