(* ===== verification/AnthropicFacts.v ===== *)
(** * llm-switch: what the Anthropic body guarantees

    Theorems about [build_anthropic_request] (AnthropicReq.v): turns alternate, blocks
    keep their order, calls and results are matched, the thinking budget. *)

From S2P Require Import Prelude Str Json Protocol SwitchConfig Connector ChatPairing AnthropicReq.

#[local] Arguments push_block : simpl never.
#[local] Arguments get_str : simpl never.

Lemma push_block_cons r b t t' ts :
  push_block r b (t :: t' :: ts) = t :: push_block r b (t' :: ts).
Proof. by destruct t. Qed.

Lemma push_block_one r b r' bs :
  push_block r b [(r', bs)] =
  if str_eqb r' r then [(r', bs ++ [b])] else [(r', bs); (r, [b])].
Proof. done. Qed.

(** ** Turns *)

(** The blocks of the turns in order, with their roles. *)
Definition flat (ts : list Turn) : list (string * Value) :=
  ts ≫= λ t, pair t.1 <$> t.2.

Lemma flat_cons t ts : flat (t :: ts) = (pair t.1 <$> t.2) ++ flat ts.
Proof. done. Qed.

Lemma flat_push_block r b ts : flat (push_block r b ts) = flat ts ++ [(r, b)].
Proof.
  induction ts as [|[r' bs] ts IH]; [done|]. destruct ts as [|t ts].
  - rewrite push_block_one. destruct (str_eqb r' r) eqn:E.
    + apply str_eqb_true in E as ->. rewrite !flat_cons. simpl. by rewrite fmap_app, !app_nil_r.
    + by rewrite !flat_cons, <-(assoc_L (++)).
  - rewrite push_block_cons, !flat_cons, <-(assoc_L (++)). by rewrite IH, flat_cons.
Qed.

Definition is_nil {A} (l : list A) : bool := match l with [] => true | _ => false end.

(** Roles alternate and no turn is empty. *)
Fixpoint alternates (ts : list Turn) : bool :=
  match ts with
  | [] => true
  | (r, bs) :: ts' =>
      negb (is_nil bs) &&
      match ts' with [] => true | (r', _) :: _ => negb (str_eqb r r') end && alternates ts'
  end.

Lemma push_block_head r b t ts : ∃ bs ts', push_block r b (t :: ts) = (t.1, bs) :: ts'.
Proof.
  destruct t as [r' bs], ts as [|t' ts].
  - rewrite push_block_one. destruct (str_eqb r' r); eauto.
  - rewrite push_block_cons. eauto.
Qed.

Lemma alternates_push_block r b ts : alternates ts = true → alternates (push_block r b ts) = true.
Proof.
  induction ts as [|[r' bs] ts IH]; [done|]. destruct ts as [|[r2 bs2] ts].
  - intros H. destruct bs as [|b0 bs]; [done|]. rewrite push_block_one.
    destruct (str_eqb r' r) eqn:E; simpl; [done|]. by rewrite E.
  - intros H. rewrite push_block_cons.
    change (negb (is_nil bs) && negb (str_eqb r' r2) && alternates ((r2, bs2) :: ts) = true) in H.
    apply andb_true_iff in H as [[H1 H2]%andb_true_iff H3].
    destruct (push_block_head r b (r2, bs2) ts) as (bs' & ts' & Hh).
    specialize (IH H3). rewrite Hh in *. simpl in *. by rewrite H1, H2.
Qed.

(** Every state change of the loop is pushes of blocks onto the turns. *)
Definition user_or_assistant (r : string) : bool := str_eqb r "user" || str_eqb r "assistant".

(** ** Calls and results in the block sequence *)

Definition use_id (b : Value) : option string :=
  if bool_decide (get_str b "type" = Some "tool_use") then get_str b "id" else None.

Definition result_id (b : Value) : option string :=
  if bool_decide (get_str b "type" = Some "tool_result") then get_str b "tool_use_id" else None.

(** Every call has a later result; every result has an earlier call; calls are the
    assistant's and results the user's. *)
Definition answered (bs : list (string * Value)) : Prop :=
  ∀ pre r b post id, bs = pre ++ (r, b) :: post → use_id b = Some id →
    r = "assistant" ∧ ∃ x, x ∈ post ∧ x.1 = "user" ∧ result_id x.2 = Some id.

Definition grounded (bs : list (string * Value)) : Prop :=
  ∀ pre r b post id, bs = pre ++ (r, b) :: post → result_id b = Some id →
    r = "user" ∧ ∃ x, x ∈ pre ∧ use_id x.2 = Some id.

(** The same while the ids in [open] still wait for their result. *)
Definition answered_but (open : list string) (bs : list (string * Value)) : Prop :=
  ∀ pre r b post id, bs = pre ++ (r, b) :: post → use_id b = Some id →
    r = "assistant" ∧ (id ∈ open ∨ ∃ x, x ∈ post ∧ x.1 = "user" ∧ result_id x.2 = Some id).

Lemma snoc_split {A} (l : list A) (x : A) pre y post :
  l ++ [x] = pre ++ y :: post →
  (post = [] ∧ pre = l ∧ y = x) ∨ ∃ post', post = post' ++ [x] ∧ l = pre ++ y :: post'.
Proof.
  destruct post as [|z post _] using rev_ind.
  - intros [-> ?]%app_inj_tail. left. by simplify_eq.
  - intros H. right. rewrite app_comm_cons, (assoc_L (++)) in H.
    apply app_inj_tail in H as [-> ->]. eauto.
Qed.

Lemma answered_but_plain open bs r b :
  answered_but open bs → use_id b = None → answered_but open (bs ++ [(r, b)]).
Proof.
  intros H Hb pre r' b' post id [(-> & -> & ?)|(post' & -> & ->)]%snoc_split Hid; simplify_eq.
  destruct (H _ _ _ _ _ eq_refl Hid) as [Hr [Ho|(x & Hx & Hx2)]]; split; auto.
  right. exists x. split; [|done]. apply elem_of_app. by left.
Qed.

Lemma answered_but_call open bs b id :
  answered_but open bs → use_id b = Some id →
  answered_but (open ++ [id]) (bs ++ [("assistant", b)]).
Proof.
  intros H Hb pre r' b' post id' [(-> & -> & ?)|(post' & -> & ->)]%snoc_split Hid; simplify_eq.
  - split; [done|]. left. apply elem_of_app. right. by left.
  - destruct (H _ _ _ _ _ eq_refl Hid) as [Hr [Ho|(x & Hx & Hx2)]]; split; auto.
    + left. apply elem_of_app. by left.
    + right. exists x. split; [|done]. apply elem_of_app. by left.
Qed.

Lemma answered_but_result open open' bs b id :
  answered_but open bs → use_id b = None → result_id b = Some id →
  (∀ k, k ∈ open → k ≠ id → k ∈ open') →
  answered_but open' (bs ++ [("user", b)]).
Proof.
  intros H Hu Hb Hop pre r' b' post id' [(-> & -> & ?)|(post' & -> & ->)]%snoc_split Hid; simplify_eq.
  destruct (H _ _ _ _ _ eq_refl Hid) as [Hr [Ho|(x & Hx & Hx2)]]; (split; [done|]).
  - destruct (decide (id' = id)) as [->|Hne]; [|left; by apply Hop].
    right. exists ("user", b). split; [|done]. apply elem_of_app. right. by left.
  - right. exists x. split; [|done]. apply elem_of_app. by left.
Qed.

Lemma grounded_snoc bs r b :
  grounded bs →
  (∀ id, result_id b = Some id → r = "user" ∧ ∃ x, x ∈ bs ∧ use_id x.2 = Some id) →
  grounded (bs ++ [(r, b)]).
Proof.
  intros H Hb pre r' b' post id [(-> & -> & ?)|(post' & -> & ->)]%snoc_split Hid; simplify_eq; auto.
  by apply (H _ _ _ _ _ eq_refl).
Qed.

(** ** The loop invariant *)

Record anth_inv (acc : AnthAcc) : Prop := {
  an_alt : alternates (turns acc) = true;
  an_roles : Forall (λ x, user_or_assistant x.1 = true) (flat (turns acc));
  an_seen : ∀ id, id ∈ seen_calls acc → ∃ x, x ∈ flat (turns acc) ∧ use_id x.2 = Some id;
  an_ans : answered_but (calls_needing_result acc) (flat (turns acc));
  an_ground : grounded (flat (turns acc));
  an_open : ∀ id, id ∈ calls_needing_result acc → id ∈ seen_calls acc;
}.

Lemma anth_inv_init : anth_inv init_acc.
Proof.
  constructor; simpl; try done; try set_solver.
  - intros pre r b post id H. destruct pre; discriminate.
  - intros pre r b post id H. destruct pre; discriminate.
Qed.

Lemma anth_inv_push acc r b (seen : gset string) (open : list string) :
  anth_inv acc → user_or_assistant r = true →
  answered_but open (flat (turns acc) ++ [(r, b)]) →
  grounded (flat (turns acc) ++ [(r, b)]) →
  (∀ id, id ∈ seen → id ∈ seen_calls acc ∨ use_id b = Some id) →
  (∀ id, id ∈ open → id ∈ seen) →
  anth_inv (push r b {| turns := turns acc; seen_calls := seen; calls_needing_result := open |}).
Proof.
  intros [H1 H2 H3 H4 H5 H6] Hr Ha Hg Hs Ho. constructor; simpl; rewrite ?flat_push_block; try done.
  - by apply alternates_push_block.
  - apply Forall_app. split; [done|]. by constructor.
  - intros id Hid. destruct (Hs id Hid) as [Hid'|Hb].
    + destruct (H3 id Hid') as (x & Hx & Hx2). exists x. split; [|done]. apply elem_of_app. by left.
    + exists (r, b). split; [|done]. apply elem_of_app. right. by left.
Qed.

Lemma anth_inv_plain acc r b :
  anth_inv acc → user_or_assistant r = true → use_id b = None → result_id b = None →
  anth_inv (push r b acc).
Proof.
  intros H Hr Hu Hb. destruct acc as [ts sc cn].
  apply (anth_inv_push _ r b sc cn H Hr); simpl; auto.
  - apply answered_but_plain; [apply (an_ans _ H)|done].
  - apply grounded_snoc; [apply (an_ground _ H)|congruence].
  - apply (an_open _ H).
Qed.

Lemma text_block_ids t : use_id (text_block t) = None ∧ result_id (text_block t) = None.
Proof. done. Qed.

Lemma tool_result_block_ids c out b :
  tool_result_block c out = Ok b → use_id b = None ∧ result_id b = Some c.
Proof.
  unfold tool_result_block. intros (t & _ & ?)%res_bind_ok; simplify_eq.
  by case_bool_decide.
Qed.

Lemma push_item_anth_inv `{SerdeJson} acc item acc' :
  anth_inv acc → push_item acc item = Ok acc' → anth_inv acc'.
Proof.
  intros Hinv Hp. destruct item; simpl in Hp; try discriminate; simplify_eq; try done.
  - revert Hp. apply fold_res_inv; [|done]. intros s c s1 _ Hs Hc.
    apply res_bind_ok in Hc as (b & Hb & ?); simplify_eq.
    destruct c; simpl in Hb; simplify_eq; apply anth_inv_plain; auto;
      by destruct (str_eqb role "assistant").
  - revert Hp. apply fold_res_inv; [|done]. intros s c s1 _ Hs Hc.
    destruct c; simplify_eq. by apply anth_inv_plain.
  - destruct namespace; [done|]. apply res_bind_ok in Hp as (i & _ & ?); simplify_eq.
    apply anth_inv_push; auto.
    + apply answered_but_call; [apply (an_ans _ Hinv)|done].
    + apply grounded_snoc; [apply (an_ground _ Hinv)|done].
    + intros k [->%elem_of_singleton|?]%elem_of_union; auto.
    + intros k [Ho| ->%list_elem_of_singleton]%elem_of_app; [|set_solver].
      apply elem_of_union. right. by apply (an_open _ Hinv).
  - case_bool_decide as Hseen; simpl in Hp; simplify_eq; [|done].
    apply res_bind_ok in Hp as (b & Hb & ?); simplify_eq.
    destruct (tool_result_block_ids _ _ _ Hb) as [Hu Hr].
    apply anth_inv_push; auto.
    + eapply answered_but_result; eauto using an_ans. intros k0 Hk Hne.
      apply list_elem_of_In, List.filter_In. split; [by apply list_elem_of_In|].
      by rewrite (proj2 (str_eqb_false k0 call_id)).
    + apply grounded_snoc; [apply (an_ground _ Hinv)|]. intros k Hid. split; [done|].
      rewrite Hr in Hid. simplify_eq. by apply (an_seen _ Hinv).
    + intros k Hid. apply (an_open _ Hinv).
      apply list_elem_of_In, List.filter_In in Hid as [Hid _]. by apply list_elem_of_In.
Qed.

Lemma push_items_anth_inv `{SerdeJson} items acc :
  fold_res push_item init_acc items = Ok acc → anth_inv acc.
Proof.
  intros Hf. eapply (fold_res_inv push_item anth_inv); [|apply anth_inv_init|exact Hf].
  intros s x s1 _. apply push_item_anth_inv.
Qed.

(** The orphan-call fix closes what is still open. *)
Lemma finish_turns_inv acc :
  anth_inv acc →
  anth_inv {| turns := finish_turns acc; seen_calls := seen_calls acc; calls_needing_result := [] |}.
Proof.
  destruct acc as [ts sc open]. unfold finish_turns. simpl.
  revert ts; induction open as [|c open IH]; intros ts Hinv; simpl; [done|].
  apply IH.
  assert (∀ id, id ∈ c :: open → id ∈ sc) as Ho by apply (an_open _ Hinv).
  apply (anth_inv_push _ "user" (placeholder_result c) sc open Hinv); auto; simpl.
  - eapply answered_but_result; [apply (an_ans _ Hinv)|done|done|]. set_solver.
  - apply grounded_snoc; [apply (an_ground _ Hinv)|]. intros id Hid. split; [done|].
    apply (an_seen _ Hinv). simpl. apply Ho. simpl in Hid. injection Hid as <-. by left.
  - intros id Hid. apply Ho. by right.
Qed.

(** ** The body *)

(** Inverting the construction of the body once for all theorems about it. *)
Lemma build_anthropic_inv `{Unicode, SerdeJson} req ctx b :
  build_anthropic_request req ctx = Ok b →
  ∃ acc b0, fold_res push_item init_acc (input req) = Ok acc ∧
    is_object b0 = true ∧
    get b0 "messages" = Some (VArray (turn_message <$> finish_turns acc)) ∧
    get b0 "max_tokens" =
      Some (VNumber (NInt (default DEFAULT_MAX_TOKENS (ctx_default_max_tokens ctx)))) ∧
    b = (if ctx_prompt_cache ctx
         then index_set "cache_control" (VObject [("type", VString "ephemeral")])
                (apply_field_downgrade b0 req)
         else apply_field_downgrade b0 req).
Proof.
  intros Hb. unfold build_anthropic_request in Hb.
  apply res_bind_ok in Hb as (tls & _ & Hb). apply res_bind_ok in Hb as (acc & Hacc & Hb).
  apply res_bind_ok in Hb as (b0 & Hb0 & Hb). exists acc, b0. split; [done|].
  assert (∀ b1 : Value, is_object b1 = true →
    match tls with
    | Some arr =>
        let b := index_set "tools" (VArray arr) b1 in
        let? tc := map_tool_choice (tool_choice req) in
        let tc := if negb (parallel_tool_calls req)
                  then Some (index_set "disable_parallel_tool_use" (VBool true)
                               (default (VObject [("type", VString "auto")]) tc))
                  else tc in
        Ok (match tc with Some tc => index_set "tool_choice" tc b | None => b end)
    | None => Ok b1
    end = Ok b0 →
    is_object b0 = true ∧ get b0 "messages" = get b1 "messages" ∧
    get b0 "max_tokens" = get b1 "max_tokens") as Haux.
  { intros b1 Ho. destruct tls as [arr|]; [|intros; by simplify_eq]. cbv zeta.
    intros (tc & _ & ?)%res_bind_ok; simplify_eq.
    destruct (negb (parallel_tool_calls req)); [|destruct tc];
      rewrite ?get_index_set_ne by auto with codez; auto with codez. }
  apply Haux in Hb0 as (Ho & Hm & Ht); [|by destruct (negb (str_is_empty (instructions req)))].
  rewrite Hm, Ht. split; [done|].
  split; [by destruct (negb (str_is_empty (instructions req)))|].
  split; [by destruct (negb (str_is_empty (instructions req)))|]. by simplify_eq.
Qed.

Lemma get_downgrade `{SerdeJson} b req k :
  is_object b = true → k ≠ "thinking" → k ≠ "system" →
  get (apply_field_downgrade b req) k = get b k ∧
  is_object (apply_field_downgrade b req) = true.
Proof.
  intros Ho H1 H2. unfold apply_field_downgrade.
  repeat case_match; rewrite ?get_index_set_ne by auto with codez; auto with codez.
Qed.

Lemma anthropic_messages `{Unicode, SerdeJson} req ctx b :
  build_anthropic_request req ctx = Ok b →
  ∃ ts sc, get_array b "messages" = Some (turn_message <$> ts) ∧
    anth_inv {| turns := ts; seen_calls := sc; calls_needing_result := [] |}.
Proof.
  intros (acc & b0 & Hacc & Ho & Hm & _ & ->)%build_anthropic_inv.
  apply push_items_anth_inv, finish_turns_inv in Hacc.
  exists (finish_turns acc), (seen_calls acc). split; [|done].
  destruct (get_downgrade b0 req "messages" Ho) as [Hg Ho']; [done..|].
  unfold get_array. destruct (ctx_prompt_cache ctx); rewrite ?get_index_set_ne by auto;
    by rewrite Hg, Hm.
Qed.

(** The Messages body is a conversation the API accepts in shape: every message
    has content, the roles are only user and assistant, and they alternate. *)
Theorem anthropic_turns_alternate `{Unicode, SerdeJson} req ctx b :
  build_anthropic_request req ctx = Ok b →
  ∃ ts, get_array b "messages" = Some (turn_message <$> ts) ∧ alternates ts = true ∧
        Forall (λ t, user_or_assistant t.1 = true) ts.
Proof.
  intros (ts & sc & Hm & Hinv)%anthropic_messages. exists ts. split; [done|].
  pose proof (an_alt _ Hinv) as Ha. split; [done|].
  pose proof (an_roles _ Hinv) as Hr. simpl in *. clear Hm Hinv.
  induction ts as [|[r [|b0 bs]] ts IH]; [constructor|done|].
  apply andb_true_iff in Ha as [_ Ha]. rewrite flat_cons in Hr.
  apply Forall_app in Hr as [Hr1 Hr2]. constructor; [|by apply IH].
  simpl in Hr1. by inversion Hr1.
Qed.

(** Claim C7. In the blocks of the body, every [tool_use] is the assistant's and is
    followed by a user [tool_result] with its id, and every [tool_result] follows a
    [tool_use] with its id: orphan results are dropped and orphan calls get a placeholder. *)
Theorem anthropic_calls_matched `{Unicode, SerdeJson} req ctx b :
  build_anthropic_request req ctx = Ok b →
  ∃ ts, get_array b "messages" = Some (turn_message <$> ts) ∧
        answered (flat ts) ∧ grounded (flat ts).
Proof.
  intros (ts & sc & Hm & Hinv)%anthropic_messages. exists ts. split; [done|].
  split; [|apply (an_ground _ Hinv)].
  intros pre r b' post id Heq Hid.
  destruct (an_ans _ Hinv _ _ _ _ _ Heq Hid) as [Hr [Ho|Hx]]; [by apply elem_of_nil in Ho|done].
Qed.

(** The thinking budget the connector asks for is below [max_tokens] only when
    [max_tokens] exceeds 1024: the floor of 1024 tokens wins over the limit the cap is
    meant to respect. *)
Theorem thinking_budget_below_max `{Unicode, SerdeJson} req ctx b m r e :
  build_anthropic_request req ctx = Ok b →
  default DEFAULT_MAX_TOKENS (ctx_default_max_tokens ctx) = m → (0 ≤ m < 2 ^ 32)%Z →
  reasoning req = Some r → effort r = Some e →
  ∃ budget, (get b "thinking" ≫= λ t, get_i64 t "budget_tokens") = Some budget ∧
            (1024 ≤ budget ≤ 8000)%Z ∧ ((budget < m)%Z ↔ (1024 < m)%Z).
Proof.
  intros (acc & b0 & _ & Ho & _ & Ht & ->)%build_anthropic_inv Hm Hb Hr He.
  rewrite Hm in Ht. exists (thinking_budget b0).
  assert (thinking_budget b0 = Z.min (Z.max (m `div` 2) 1024) 8000) as Hbud.
  { unfold thinking_budget. rewrite Ht. simpl. unfold in_u64, u64_max.
    by rewrite bool_decide_true by lia. }
  assert (get (apply_field_downgrade b0 req) "thinking" =
    Some (VObject [("type", VString "enabled"); ("budget_tokens", VNumber (NInt (thinking_budget b0)))]) ∧
    is_object (apply_field_downgrade b0 req) = true) as [Hg Ho'].
  { unfold apply_field_downgrade. rewrite Hr, He.
    destruct (text req ≫= format); rewrite ?get_index_set_ne by auto with codez;
      rewrite get_index_set_eq by auto with codez; auto with codez. }
  pose proof (Z.div_mod m 2 ltac:(lia)). pose proof (Z.mod_pos_bound m 2 ltac:(lia)).
  split; [|rewrite Hbud; lia].
  assert (in_i64 (thinking_budget b0) = true) as Hi.
  { unfold in_i64, i64_min, i64_max. rewrite Hbud. apply bool_decide_eq_true. lia. }
  destruct (ctx_prompt_cache ctx); rewrite ?get_index_set_ne by auto; rewrite Hg; simpl;
    unfold get_i64; simpl; by rewrite Hi.
Qed.

Lemma anthropic_turns_alternate_witness :
  ∃ b ts, @build_anthropic_request ascii_only serde_toy req_example ctx_example = Ok b ∧
    get_array b "messages" = Some (turn_message <$> ts) ∧ alternates ts = true.
Proof.
  destruct (@anthropic_turns_alternate ascii_only serde_toy req_example ctx_example _ eq_refl)
    as (ts & Hm & Ha & _).
  eexists _, ts. split; [reflexivity|]. by split.
Defined.

Lemma anthropic_calls_matched_witness :
  ∃ b ts, @build_anthropic_request ascii_only serde_toy req_example ctx_example = Ok b ∧
    get_array b "messages" = Some (turn_message <$> ts) ∧ answered (flat ts).
Proof.
  destruct (@anthropic_calls_matched ascii_only serde_toy req_example ctx_example _ eq_refl)
    as (ts & Hm & Ha & _).
  eexists _, ts. split; [reflexivity|]. by split.
Defined.

(** [max_tokens] is 1000 in the example context, so the budget is above it. *)
Definition req_thinking : ResponsesApiRequest :=
  {| model := "m"; instructions := EmptyString; input := []; tools := []; tool_choice := "auto";
     parallel_tool_calls := true;
     reasoning := Some {| effort := Some EffortHigh; rsummary := None; rcontext := None |};
     store := false; stream := true; include := []; service_tier := None;
     prompt_cache_key := None; text := None; client_metadata := None |}.

Lemma thinking_budget_below_max_witness :
  ∃ b budget, @build_anthropic_request ascii_only serde_toy req_thinking ctx_example = Ok b ∧
    (get b "thinking" ≫= λ t, get_i64 t "budget_tokens") = Some budget ∧
    get_i64 b "max_tokens" = Some 1000%Z ∧ ¬ (budget < 1000)%Z.
Proof.
  destruct (@thinking_budget_below_max ascii_only serde_toy req_thinking ctx_example _ 1000 _ _
              eq_refl eq_refl ltac:(lia) eq_refl eq_refl) as (budget & Hg & Hb & Hiff).
  eexists _, budget. split; [reflexivity|]. split; [exact Hg|].
  split; [vm_compute; reflexivity|]. rewrite Hiff. lia.
Defined.
