(* ===== verification/Expressible.v ===== *)
(** * llm-switch: which requests a connector can express

    The two request builders refuse what their protocol cannot say.  Here is exactly
    what they accept, as a decision on the request alone, and what the router's
    pre-check (namespace.rs) buys. *)

From S2P Require Import Prelude Str Json Protocol SwitchConfig Routing Connector.
From S2P Require Import ChatReq AnthropicReq.

Definition text_content (c : ContentItem) : bool :=
  match c with InputImage _ _ => false | _ => true end.

Definition agent_text (c : AgentMessageInputContent) : bool :=
  match c with AgentInputText _ => true | AgentEncryptedContent _ => false end.

Definition output_text_item (i : FunctionCallOutputContentItem) : bool :=
  match i with OutInputText _ => true | _ => false end.

Definition text_output (o : FunctionCallOutputPayload) : bool :=
  match body o with BodyText _ => true | BodyContentItems l => forallb output_text_item l end.

(** Items in order, with the calls seen so far: the output of a call that was never made
    is skipped, whatever it holds. *)
Fixpoint items_ok (args_ok : string → bool) (seen : gset string) (items : list ResponseItem) : bool :=
  match items with
  | [] => true
  | item :: rest =>
      match item with
      | Message _ _ content _ _ => forallb text_content content && items_ok args_ok seen rest
      | AgentMessage _ _ _ content _ => forallb agent_text content && items_ok args_ok seen rest
      | FunctionCall _ _ None args cid _ => args_ok args && items_ok args_ok ({[cid]} ∪ seen) rest
      | FunctionCallOutput _ cid out _ =>
          (negb (bool_decide (cid ∈ seen)) || text_output out) && items_ok args_ok seen rest
      | Reasoning _ _ _ _ _ | CompactionTrigger _ => items_ok args_ok seen rest
      | _ => false
      end
  end.

(** [tool_choice] only matters when there are tools. *)
Definition choice_ok `{SerdeJson} (tc : string) : bool :=
  str_eqb tc "auto" || str_eqb tc "none" || str_eqb tc "required" || str_eqb tc EmptyString ||
  match from_str tc with
  | Ok v => bool_decide (get_str v "type" = Some "function") && bool_decide (is_Some (get v "name"))
  | Err _ => false
  end.

Definition request_ok `{SerdeJson} (args_ok : string → bool) (req : ResponsesApiRequest) : bool :=
  forallb is_function_tool (tools req) && items_ok args_ok ∅ (input req) &&
  (bool_decide (tools req = []) || choice_ok (tool_choice req)).

(** ** Folding *)

Lemma is_ok_bind {A B E} (m : Result A E) (k : A → Result B E) (b : bool) :
  (∀ a, is_ok (k a) = b) → is_ok (res_bind m k) = is_ok m && b.
Proof. intros H. destruct m; simpl; auto. Qed.

Lemma is_ok_fold {S A E} (f : S → A → Result S E) (p : A → bool) s l :
  (∀ s x, is_ok (f s x) = p x) → is_ok (fold_res f s l) = forallb p l.
Proof.
  intros Hf. revert s; induction l as [|x l IH]; intros s; simpl; [done|].
  rewrite <-(Hf s x). destruct (f s x); simpl; auto.
Qed.

(** The loop over the input accepts a list when each step accepts its item and carries
    the set of calls on. *)
Lemma is_ok_items {S E} (f : S → ResponseItem → Result S E) (calls : S → gset string) args_ok s items :
  (∀ s item, is_ok (f s item) = items_ok args_ok (calls s) [item]) →
  (∀ s item s', f s item = Ok s' →
     calls s' = match item with FunctionCall _ _ _ _ cid _ => {[cid]} ∪ calls s | _ => calls s end) →
  is_ok (fold_res f s items) = items_ok args_ok (calls s) items.
Proof.
  intros Hok Hcalls. revert s; induction items as [|item items IH]; intros s; [done|].
  assert (items_ok args_ok (calls s) (item :: items) = is_ok (f s item) &&
    items_ok args_ok (match item with FunctionCall _ _ _ _ cid _ => {[cid]} ∪ calls s
                                 | _ => calls s end) items) as ->.
  { rewrite Hok. destruct item; simpl; rewrite ?andb_true_r; try done. by destruct namespace; rewrite ?andb_true_r. }
  cbn [fold_res]. destruct (f s item) as [s'|e] eqn:Ef; [|done]. cbn [res_bind is_ok andb].
  by rewrite IH, (Hcalls _ _ _ Ef).
Qed.

Lemma is_ok_map_err {A E F} (g : E → F) (m : Result A E) : is_ok (map_err g m) = is_ok m.
Proof. by destruct m. Qed.

(** ** Chat *)

Lemma chat_output_ok cid out : is_ok (map_function_call_output cid out) = text_output out.
Proof.
  unfold map_function_call_output, text_output. destruct (body out) as [t|l]; [done|].
  rewrite (is_ok_bind _ _ true) by done. rewrite andb_true_r.
  apply is_ok_fold. by intros s [].
Qed.

Lemma chat_item_ok acc item :
  is_ok (ChatReq.push_item acc item) = items_ok (λ _, true) (ChatReq.seen_calls acc) [item].
Proof.
  destruct item; simpl; try done.
  - unfold map_message. destruct (fold_res _ _ _) eqn:E; simpl;
      apply (f_equal is_ok) in E; rewrite (is_ok_fold _ text_content) in E by (by intros ? []);
      simpl in E; by rewrite E.
  - unfold map_agent_message. destruct (fold_res _ _ _) eqn:E; simpl;
      apply (f_equal is_ok) in E; rewrite (is_ok_fold _ agent_text) in E by (by intros ? []);
      simpl in E; by rewrite E.
  - by destruct namespace.
  - case_bool_decide; simpl; [|done]. rewrite andb_true_r, <-(chat_output_ok call_id).
    by destruct (map_function_call_output _ _).
Qed.

Lemma chat_item_calls acc item acc' :
  ChatReq.push_item acc item = Ok acc' →
  ChatReq.seen_calls acc' =
    match item with FunctionCall _ _ _ _ cid _ => {[cid]} ∪ ChatReq.seen_calls acc
               | _ => ChatReq.seen_calls acc end.
Proof.
  destruct item; simpl; intros; inv_res; try done.
  - destruct namespace; inv_res; done.
  - destruct (negb _); inv_res; done.
Qed.

Section expressible.
Context `{Unicode, SerdeJson, HashOrder}.

Lemma chat_tools_ok tls :
  is_ok (ChatReq.map_tools tls) = forallb is_function_tool tls ∧
  (∀ o, ChatReq.map_tools tls = Ok o → bool_decide (o = None) = bool_decide (tls = [])).
Proof.
  unfold ChatReq.map_tools. destruct tls as [|t tls]; [naive_solver|]. split.
  - rewrite (is_ok_bind _ _ true) by done. rewrite andb_true_r. apply is_ok_fold.
    intros s x. unfold is_function_tool. by case_bool_decide.
  - intros o Ho. by inv_res.
Qed.

Lemma anthropic_tools_ok tls :
  is_ok (AnthropicReq.map_tools tls) = forallb is_function_tool tls ∧
  (∀ o, AnthropicReq.map_tools tls = Ok o → bool_decide (o = None) = bool_decide (tls = [])).
Proof.
  unfold AnthropicReq.map_tools. destruct tls as [|t tls]; [naive_solver|]. split.
  - rewrite (is_ok_bind _ _ true) by done. rewrite andb_true_r. apply is_ok_fold.
    intros s x. unfold is_function_tool. by case_bool_decide.
  - intros o Ho. by inv_res.
Qed.

Lemma chat_choice_ok tc : is_ok (ChatReq.map_tool_choice tc) = choice_ok tc.
Proof.
  unfold ChatReq.map_tool_choice, choice_ok.
  repeat (destruct (str_eqb tc _); [done|]). simpl.
  destruct (from_str tc) as [v|]; [|done]. destruct (bool_decide (get_str v "type" = _)); [|done].
  by destruct (get v "name").
Qed.

Lemma anthropic_choice_ok tc : is_ok (AnthropicReq.map_tool_choice tc) = choice_ok tc.
Proof.
  unfold AnthropicReq.map_tool_choice, choice_ok.
  repeat (destruct (str_eqb tc _); [done|]). simpl.
  destruct (from_str tc) as [v|]; [|done]. destruct (bool_decide (get_str v "type" = _)); [|done].
  by destruct (get v "name").
Qed.

Lemma chat_accepts req ctx :
  is_ok (build_chat_request req ctx) = request_ok (λ _, true) req.
Proof.
  unfold build_chat_request, request_ok.
  destruct (chat_tools_ok (tools req)) as [Ht1 Ht2].
  destruct (ChatReq.map_tools (tools req)) as [o|e] eqn:Et; simpl in Ht1; rewrite <-Ht1; [|done].
  specialize (Ht2 o eq_refl). simpl.
  pose proof (is_ok_items ChatReq.push_item ChatReq.seen_calls (λ _, true)
    (ChatReq.init_acc (instructions req)) (input req) chat_item_ok chat_item_calls) as Hi.
  change (ChatReq.seen_calls (ChatReq.init_acc (instructions req))) with (∅ : gset string) in Hi.
  rewrite <-Hi. destruct (fold_res _ _ _) as [acc|e]; simpl; [|done].
  rewrite <-Ht2. destruct o as [arr|]; simpl; [|done].
  rewrite <-chat_choice_ok. by destruct (ChatReq.map_tool_choice _).
Qed.
(** The Chat connector accepts exactly the requests whose tools are functions,
    whose items are text messages, un-namespaced calls and textual outputs (of calls it
    has seen), reasoning or compaction triggers, and whose tool choice is known when
    there are tools; every other request is refused as a whole. *)
Theorem chat_accepts_iff req ctx :
  is_ok (build_chat_request req ctx) = request_ok (λ _, true) req.
Proof. apply chat_accepts. Qed.

(** ** Anthropic *)

Lemma anthropic_output_ok cid out : is_ok (tool_result_block cid out) = text_output out.
Proof.
  unfold tool_result_block, text_output. destruct (body out) as [t|l]; [done|].
  rewrite (is_ok_bind _ _ true) by done. rewrite andb_true_r.
  apply is_ok_fold. by intros s [].
Qed.

Definition args_parse (a : string) : bool := is_ok (from_str a).

Lemma anthropic_item_ok acc item :
  is_ok (AnthropicReq.push_item acc item) = items_ok args_parse (AnthropicReq.seen_calls acc) [item].
Proof.
  destruct item; cbn [AnthropicReq.push_item items_ok]; rewrite ?andb_true_r; try done.
  - apply is_ok_fold. by intros ? [].
  - apply is_ok_fold. by intros ? [].
  - destruct namespace; [done|]. unfold args_parse. by destruct (from_str arguments).
  - case_bool_decide; cbn [negb orb]; [|done]. rewrite <-(anthropic_output_ok call_id).
    by destruct (tool_result_block _ _).
Qed.

Lemma fold_seen_inv {A} (f : AnthAcc → A → Result AnthAcc ConnError) acc l acc' :
  (∀ s x s', f s x = Ok s' → AnthropicReq.seen_calls s' = AnthropicReq.seen_calls s) →
  fold_res f acc l = Ok acc' → AnthropicReq.seen_calls acc' = AnthropicReq.seen_calls acc.
Proof.
  intros Hf. apply (fold_res_inv f (λ s, AnthropicReq.seen_calls s = AnthropicReq.seen_calls acc)); [|done].
  intros s x s1 _ Hs Hx. by rewrite (Hf _ _ _ Hx).
Qed.

Lemma anthropic_item_calls acc item acc' :
  AnthropicReq.push_item acc item = Ok acc' →
  AnthropicReq.seen_calls acc' =
    match item with FunctionCall _ _ _ _ cid _ => {[cid]} ∪ AnthropicReq.seen_calls acc
               | _ => AnthropicReq.seen_calls acc end.
Proof.
  destruct item; cbn [AnthropicReq.push_item]; intros Hp; try (by inv_res).
  - eapply fold_seen_inv; [|done]. intros s x s' Hx. simpl in Hx. by inv_res.
  - eapply fold_seen_inv; [|done]. intros s x s' Hx. destruct x; simpl in Hx; by inv_res.
  - destruct namespace; by inv_res.
  - destruct (negb _); by inv_res.
Qed.

(** The Anthropic connector accepts exactly the requests the Chat connector
    accepts whose call arguments are, besides, valid JSON. *)
Theorem anthropic_accepts_iff req ctx :
  is_ok (build_anthropic_request req ctx) = request_ok args_parse req.
Proof.
  unfold build_anthropic_request, request_ok.
  destruct (anthropic_tools_ok (tools req)) as [Ht1 Ht2].
  destruct (AnthropicReq.map_tools (tools req)) as [o|e] eqn:Et; simpl in Ht1; rewrite <-Ht1; [|done].
  specialize (Ht2 o eq_refl). cbn [res_bind andb].
  pose proof (is_ok_items AnthropicReq.push_item AnthropicReq.seen_calls args_parse
    AnthropicReq.init_acc (input req) anthropic_item_ok anthropic_item_calls) as Hi.
  change (AnthropicReq.seen_calls AnthropicReq.init_acc) with (∅ : gset string) in Hi.
  rewrite <-Hi. destruct (fold_res _ _ _) as [acc|e]; cbn [res_bind is_ok andb]; [|done].
  rewrite <-Ht2. destruct o as [arr|]; [|done].
  rewrite <-anthropic_choice_ok, bool_decide_false by done. cbn [orb].
  by destruct (AnthropicReq.map_tool_choice _).
Qed.

(** ** The pre-check *)

(** Items that are plain but for the namespace of a call. *)
Definition plain_item (item : ResponseItem) : bool :=
  match item with
  | Message _ _ content _ _ => forallb text_content content
  | AgentMessage _ _ _ content _ => forallb agent_text content
  | FunctionCall _ _ _ _ _ _ | Reasoning _ _ _ _ _ | CompactionTrigger _ => true
  | FunctionCallOutput _ _ out _ => text_output out
  | _ => false
  end.

Lemma plain_items_ok seen items :
  forallb plain_item items = true → existsb is_namespaced_call items = false →
  items_ok (λ _, true) seen items = true.
Proof.
  revert seen; induction items as [|item items IH]; intros seen; simpl; [done|].
  intros [Hp Hps]%andb_true_iff [Hn Hns]%orb_false_iff.
  destruct item; simpl in *; try done; rewrite ?Hp, ?IH by done; try done.
  - destruct namespace; [done|]. by rewrite ?IH by done.
  - by rewrite orb_true_r.
Qed.

(** A request that is sent elsewhere because of its purpose is never refused
    by the Chat connector for its tools: the router's pre-check already turned away
    tools and calls that cannot be expressed, so only the plainness of its texts and the
    tool choice remain. *)
Theorem purpose_route_translates c pid source req r ctx :
  route c pid source req = Some r → provider_id r ≠ pid →
  forallb plain_item (input req) = true → choice_ok (tool_choice req) = true →
  ∃ b, build_chat_request req ctx = Ok b.
Proof.
  intros Hr Hne Hp Hc. pose proof (route_by_purpose_expressible _ _ _ _ _ Hr Hne) as Hn.
  unfold request_has_namespace_tools in Hn.
  destruct (existsb _ (tools req)) eqn:Et; [done|].
  apply is_ok_true. rewrite chat_accepts. unfold request_ok.
  rewrite plain_items_ok, Hc, orb_true_r, !andb_true_r by done.
  clear -Et. induction (tools req) as [|t ts IH]; simpl in *; [done|].
  apply orb_false_iff in Et as [H1%negb_false_iff H2]. by rewrite H1, IH.
Qed.
End expressible.

(** A compact request of one message, routed away from its own provider. *)
Definition compact_request : ResponsesApiRequest :=
  {| model := "m"; instructions := "summarise";
     input := [Message None "user" [InputText "hi"] None None;
               FunctionCall None "shell" None "{}" "c1" None];
     tools := [VObject [("type", VString "function"); ("name", VString "shell")]];
     tool_choice := "auto"; parallel_tool_calls := true; reasoning := None; store := false;
     stream := true; include := []; service_tier := None; prompt_cache_key := None;
     text := None; client_metadata := None |}.

Lemma purpose_route_translates_witness :
  ∃ r b, route (@loaded toml_example hash_order_id (Some "text")) "other" (Some (SubAgent Compact))
           compact_request = Some r ∧
         @build_chat_request ascii_only serde_toy hash_order_id compact_request ctx_example = Ok b.
Proof.
  destruct (@purpose_route_translates ascii_only serde_toy hash_order_id
    (@loaded toml_example hash_order_id (Some "text")) "other" (Some (SubAgent Compact))
    compact_request _ ctx_example eq_refl) as [b Hb].
  - vm_compute. discriminate.
  - reflexivity.
  - reflexivity.
  - eexists _, b. split; [reflexivity|exact Hb].
Defined.
