(* ===== verification/ChatSse.v ===== *)
(** * llm-switch: Chat Completions stream

    zmod/llm-switch/src/connector/chat_sse.rs: the accumulator that turns the parsed
    chunks of a Chat Completions stream into response events, and its batch
    specification. *)

From S2P Require Import Prelude Str Json Protocol BTree SwitchConfig Connector.

(** ** The accumulator *)

Record ToolAcc := {
  ta_call_id : option string;
  ta_name : option string;
  ta_arguments : string;
}.

Definition ToolAcc_default : ToolAcc :=
  {| ta_call_id := None; ta_name := None; ta_arguments := EmptyString |}.

Record ChatSseState := {
  st_text : string;
  st_response_id : option string;
  st_finish_reason : option string;
  st_usage : option Value;
  st_tool_calls : BTreeMap ToolAcc;
  st_synth_counter : nat;
}.

Definition ChatSseState_default : ChatSseState :=
  {| st_text := EmptyString; st_response_id := None; st_finish_reason := None;
     st_usage := None; st_tool_calls := []; st_synth_counter := 0 |}.

(** The body of the loop over [delta.tool_calls], on the entry of its index. *)
Definition update_acc (tc : Value) (acc : ToolAcc) : ToolAcc :=
  let call_id := opt_or (nonempty (get_str tc "id")) (ta_call_id acc) in
  match get tc "function" with
  | Some func =>
      {| ta_call_id := call_id;
         ta_name := opt_or (nonempty (get_str func "name")) (ta_name acc);
         ta_arguments := match get_str func "arguments" with
                         | Some args => ta_arguments acc +:+ args
                         | None => ta_arguments acc
                         end |}
  | None => {| ta_call_id := call_id; ta_name := ta_name acc; ta_arguments := ta_arguments acc |}
  end.

Definition tc_index (tc : Value) : Z := default 0%Z (get_i64 tc "index").

Definition push_tool_call (m : BTreeMap ToolAcc) (tc : Value) : BTreeMap ToolAcc :=
  bt_entry ToolAcc_default (tc_index tc) (update_acc tc) m.

Definition push_chunk `{SerdeJson} (st : ChatSseState) (chunk : Value) :
  Result (ChatSseState * list ResponseEvent) ConnError :=
  match get chunk "error" with
  | Some err => Err (HardFail ("upstream error in SSE chunk: " +:+ to_string err))
  | None =>
      let response_id := opt_or (st_response_id st) (nonempty (get_str chunk "id")) in
      let usage := match get chunk "usage" with
                   | Some u => if negb (is_null u) then Some u else st_usage st
                   | None => st_usage st
                   end in
      match get_array chunk "choices" ≫= head with
      | None =>
          Ok ({| st_text := st_text st; st_response_id := response_id;
                 st_finish_reason := st_finish_reason st; st_usage := usage;
                 st_tool_calls := st_tool_calls st; st_synth_counter := st_synth_counter st |}, [])
      | Some choice =>
          let finish_reason :=
            opt_or (nonempty (get_str choice "finish_reason")) (st_finish_reason st) in
          let delta := get choice "delta" in
          let '(text, out) :=
            match delta ≫= λ d, get_str d "content" with
            | Some content =>
                if negb (str_is_empty content)
                then (st_text st +:+ content, [OutputTextDelta content])
                else (st_text st, [])
            | None => (st_text st, [])
            end in
          let tool_calls :=
            match delta ≫= λ d, get_array d "tool_calls" with
            | Some tcs => foldl push_tool_call (st_tool_calls st) tcs
            | None => st_tool_calls st
            end in
          Ok ({| st_text := text; st_response_id := response_id;
                 st_finish_reason := finish_reason; st_usage := usage;
                 st_tool_calls := tool_calls; st_synth_counter := st_synth_counter st |}, out)
      end
  end.

(** [synth_id]: the counter after, and the id. *)
Definition synth_id (counter : nat) (kind : string) : nat * string :=
  (S counter, "llmswitch-" +:+ (kind +:+ ("-" +:+ fmt_nat (S counter)))).

Definition map_end_turn (fr : option string) : option bool :=
  match fr with
  | Some r =>
      if str_eqb r "stop" then Some true
      else if str_eqb r "tool_calls" then Some false
      else if str_eqb r "length" then Some false
      else None
  | None => None
  end.

Definition map_usage (u : Value) : TokenUsage :=
  let g k := default 0%Z (get_i64 u k) in
  {| input_tokens := g "prompt_tokens";
     cached_input_tokens :=
       default 0%Z (get u "prompt_tokens_details" ≫= λ d, get_i64 d "cached_tokens");
     output_tokens := g "completion_tokens";
     reasoning_output_tokens := 0%Z;
     total_tokens := g "total_tokens" |}.

(** One [FunctionCall] item of [finish]. *)
Definition finish_call (counter : nat) (acc : ToolAcc) : nat * ResponseEvent :=
  let '(counter, call_id) :=
    match ta_call_id acc with
    | Some id => (counter, id)
    | None => synth_id counter "call"
    end in
  (counter, OutputItemDone (FunctionCall None (default EmptyString (ta_name acc)) None
                              (ta_arguments acc) call_id None)).

Fixpoint finish_calls (counter : nat) (m : BTreeMap ToolAcc) : nat * list ResponseEvent :=
  match m with
  | [] => (counter, [])
  | (_, acc) :: m' =>
      let '(counter, ev) := finish_call counter acc in
      let '(counter, evs) := finish_calls counter m' in
      (counter, ev :: evs)
  end.

Definition finish (st : ChatSseState) : ChatSseState * list ResponseEvent :=
  let '(counter, calls) := finish_calls (st_synth_counter st) (st_tool_calls st) in
  let '(text, msg) :=
    if negb (str_is_empty (st_text st))
    then (EmptyString, [OutputItemDone (Message None "assistant" [OutputText (st_text st)] None None)])
    else (st_text st, []) in
  let '(counter, response_id) :=
    match st_response_id st with
    | Some id => (counter, id)
    | None => synth_id counter "resp"
    end in
  ({| st_text := text; st_response_id := None; st_finish_reason := st_finish_reason st;
      st_usage := st_usage st; st_tool_calls := []; st_synth_counter := counter |},
   calls ++ msg ++ [Completed response_id (map_usage <$> st_usage st)
                      (map_end_turn (st_finish_reason st))]).

Definition push_step `{SerdeJson} (acc : ChatSseState * list ResponseEvent) (c : Value) :
  Result (ChatSseState * list ResponseEvent) ConnError :=
  let? '(st, evs) := push_chunk acc.1 c in Ok (st, acc.2 ++ evs).

Definition translate_chat_sse `{SerdeJson} (chunks : list Value) (done : bool) :
  Result (list ResponseEvent) ConnError :=
  let? '(st, out) := fold_res push_step (ChatSseState_default, []) chunks in
  Ok (if done then out ++ (finish st).2 else out).

#[global] Instance chat_translator `{SerdeJson} : SseTranslator ChatSseState :=
  {| tr_push := push_chunk; tr_finish := finish |}.

(** ** The batch specification

    What a whole stream of chunks means, with no accumulator: the text is the
    concatenation of the content fragments; the call of index [i] has the last id and
    name given for [i] and the concatenation of its argument fragments; calls come in
    increasing index; the response id is the first given, usage and finish reason the
    last. *)

Definition choice_of (c : Value) : option Value := get_array c "choices" ≫= head.
Definition delta_of (c : Value) : option Value := choice_of c ≫= λ ch, get ch "delta".

Definition content_of (c : Value) : option string :=
  nonempty (delta_of c ≫= λ d, get_str d "content").

Definition tool_deltas (c : Value) : list Value :=
  default [] (delta_of c ≫= λ d, get_array d "tool_calls").

Definition usage_of (c : Value) : option Value :=
  match get c "usage" with
  | Some u => if is_null u then None else Some u
  | None => None
  end.

Definition reason_of (c : Value) : option string :=
  choice_of c ≫= λ ch, nonempty (get_str ch "finish_reason").

Definition name_of (d : Value) : option string :=
  get d "function" ≫= λ f, nonempty (get_str f "name").
Definition args_of (d : Value) : option string :=
  get d "function" ≫= λ f, get_str f "arguments".

Definition call_spec (mine : list Value) : ToolAcc :=
  {| ta_call_id := last (omap (λ d, nonempty (get_str d "id")) mine);
     ta_name := last (omap name_of mine);
     ta_arguments := concat_str (omap args_of mine) |}.

Definition deltas_at (i : Z) (ds : list Value) : list Value :=
  List.filter (λ d, bool_decide (tc_index d = i)) ds.

Definition calls_spec (ds : list Value) : BTreeMap ToolAcc :=
  (λ i, (i, call_spec (deltas_at i ds))) <$> sorted_keys (tc_index <$> ds).

Definition state_spec (cs : list Value) : ChatSseState :=
  {| st_text := concat_str (omap content_of cs);
     st_response_id := head (omap (λ c, nonempty (get_str c "id")) cs);
     st_finish_reason := last (omap reason_of cs);
     st_usage := last (omap usage_of cs);
     st_tool_calls := calls_spec (cs ≫= tool_deltas);
     st_synth_counter := 0 |}.

(** ** Helper lemmas *)

Lemma update_acc_spec ds d : update_acc d (call_spec ds) = call_spec (ds ++ [d]).
Proof.
  unfold update_acc, call_spec. simpl. rewrite <-!opt_or_last, concat_str_snoc_opt.
  change (name_of d) with (get d "function" ≫= λ f, nonempty (get_str f "name")).
  change (args_of d) with (get d "function" ≫= λ f, get_str f "arguments").
  destruct (get d "function") as [f|]; simpl.
  - f_equal. destruct (get_str f "arguments"); simpl; by rewrite ?str_app_nil_r.
  - by rewrite str_app_nil_r.
Qed.

Lemma calls_spec_ok ds : bt_ok (calls_spec ds).
Proof.
  unfold bt_ok, calls_spec. rewrite <-list_fmap_compose. simpl.
  rewrite list_fmap_id. apply sorted_keys_lt.
Qed.

Lemma bt_get_calls_spec ds i :
  bt_get i (calls_spec ds) =
  if decide (i ∈ tc_index <$> ds) then Some (call_spec (deltas_at i ds)) else None.
Proof.
  unfold calls_spec. rewrite (bt_get_map (λ i, call_spec (deltas_at i ds))).
  repeat case_decide; rewrite elem_of_sorted_keys in *; done.
Qed.

Lemma deltas_at_none i ds : i ∉ tc_index <$> ds → deltas_at i ds = [].
Proof.
  unfold deltas_at. induction ds as [|d ds IH]; simpl; [done|]. rewrite elem_of_cons.
  intros H. rewrite bool_decide_false by naive_solver. naive_solver.
Qed.

(** One tool-call fragment extends the specification by that fragment. *)
Lemma push_tool_call_spec ds d : push_tool_call (calls_spec ds) d = calls_spec (ds ++ [d]).
Proof.
  apply bt_ext; [apply bt_entry_ok, calls_spec_ok|apply calls_spec_ok|].
  intros i. unfold push_tool_call. rewrite bt_get_calls_spec.
  assert (i ∈ tc_index <$> (ds ++ [d]) ↔ i ∈ tc_index <$> ds ∨ i = tc_index d) as Hiff.
  { rewrite fmap_app, elem_of_app. cbn [fmap list_fmap]. by rewrite list_elem_of_singleton. }
  unfold deltas_at. rewrite List.filter_app. cbn [List.filter].
  destruct (decide (tc_index d = i)) as [Heq|Hne].
  - rewrite Heq, bt_get_entry_eq by apply calls_spec_ok.
    rewrite (decide_True (P:=i ∈ tc_index <$> (ds ++ [d]))) by (apply Hiff; by right).
    rewrite bool_decide_true by done.
    rewrite <-update_acc_spec, bt_get_calls_spec. do 2 f_equal.
    case_decide; [done|]. pose proof (deltas_at_none i ds) as Hd. unfold deltas_at in Hd. by rewrite Hd.
  - rewrite bt_get_entry_ne by done. rewrite bt_get_calls_spec.
    rewrite bool_decide_false, app_nil_r by done. repeat case_decide; try done; exfalso; tauto || (destruct (proj1 Hiff); congruence).
Qed.

Lemma push_tool_calls_spec ds tcs :
  foldl push_tool_call (calls_spec ds) tcs = calls_spec (ds ++ tcs).
Proof.
  revert ds; induction tcs as [|d tcs IH]; intros ds; simpl; [by rewrite app_nil_r|].
  rewrite push_tool_call_spec, IH. by rewrite <-app_assoc.
Qed.

Section chat_sse.
Context `{SerdeJson}.

(** A chunk without an [error] field extends the batch state by that chunk. *)
Lemma push_chunk_spec cs c :
  get c "error" = None →
  push_chunk (state_spec cs) c =
    Ok (state_spec (cs ++ [c]), OutputTextDelta <$> omap content_of [c]).
Proof.
  intros He. unfold push_chunk. rewrite He. unfold state_spec.
  rewrite <-opt_or_head, <-!opt_or_last, concat_str_snoc_opt, bind_app. cbn [mbind list_bind].
  rewrite app_nil_r. unfold content_of, reason_of, tool_deltas, usage_of, delta_of, choice_of. simpl.
  assert (match get c "usage" with Some u => if negb (is_null u) then Some u
            else last (omap usage_of cs) | None => last (omap usage_of cs) end =
          opt_or (usage_of c) (last (omap usage_of cs))) as Hu.
  { unfold usage_of. destruct (get c "usage") as [u|]; [|done]. by destruct (is_null u). }
  unfold usage_of in Hu. rewrite Hu. clear Hu.
  destruct (get_array c "choices" ≫= head) as [ch|]; simpl.
  - destruct (get ch "delta") as [d|]; simpl.
    + destruct (get_array d "tool_calls") as [tcs|]; simpl;
        rewrite ?push_tool_calls_spec, ?app_nil_r;
        (destruct (get_str d "content") as [t|]; simpl; [destruct (str_is_empty t); simpl|];
         by rewrite ?str_app_nil_r).
    + by rewrite str_app_nil_r, app_nil_r.
  - by rewrite str_app_nil_r, app_nil_r.
Qed.

Lemma chat_fold_push_spec cs0 cs out :
  fold_res push_step (state_spec cs0, out) cs =
  match head (omap (λ c, get c "error") cs) with
  | Some err => Err (HardFail ("upstream error in SSE chunk: " +:+ to_string err))
  | None => Ok (state_spec (cs0 ++ cs), out ++ (OutputTextDelta <$> omap content_of cs))
  end.
Proof.
  revert cs0 out; induction cs as [|c cs IH]; intros cs0 out; [simpl; by rewrite !app_nil_r|].
  cbn [fold_res]. unfold push_step at 1.
  destruct (get c "error") as [err|] eqn:He; cbn [fst snd omap list_omap]; rewrite He.
  - unfold push_chunk. by rewrite He.
  - rewrite push_chunk_spec by done. cbn [res_bind]. rewrite IH, <-!app_assoc.
    destruct (head _); [done|]. do 3 f_equal. cbn [omap list_omap]. by destruct (content_of c).
Qed.

(** Claim C4. Streaming refines the batch meaning of the stream: for every list of
    chunks, the events are the non-empty content fragments in order, then what [finish]
    emits for the batch state (calls by increasing index with their argument fragments
    concatenated); and translation fails exactly when a chunk has an [error] field, with
    the first such error. *)
Theorem chat_stream_refines_batch cs :
  translate_chat_sse cs true =
  match head (omap (λ c, get c "error") cs) with
  | Some err => Err (HardFail ("upstream error in SSE chunk: " +:+ to_string err))
  | None => Ok ((OutputTextDelta <$> omap content_of cs) ++ (finish (state_spec cs)).2)
  end.
Proof.
  unfold translate_chat_sse. change ChatSseState_default with (state_spec []).
  rewrite chat_fold_push_spec. by destruct (head _).
Qed.

Lemma finish_calls_all n m : forallb is_call_done (finish_calls n m).2 = true.
Proof.
  revert n; induction m as [|[i acc] m IH]; intros n; simpl; [done|].
  destruct (finish_call n acc) as [n1 ev] eqn:E.
  specialize (IH n1). destruct (finish_calls n1 m) as [n2 evs]. simpl in *.
  unfold finish_call in E. destruct (ta_call_id acc); simplify_eq/=; done.
Qed.

#[global] Program Instance chat_translator_laws : TranslatorLaws ChatSseState :=
  {| shown := st_text |}.
Next Obligation.
  intros st v st' evs. cbn [tr_push chat_translator]. unfold push_chunk.
  destruct (get v "error"); [done|].
  destruct (get_array v "choices" ≫= head) as [ch|]; simpl.
  - destruct (get ch "delta" ≫= _) as [t|].
    + destruct (str_is_empty t); simpl; intros; simplify_eq/=; unfold delta_text; simpl;
        by rewrite ?str_app_nil_r.
    + intros; simplify_eq/=. unfold delta_text; simpl. by rewrite str_app_nil_r.
  - intros; simplify_eq/=. unfold delta_text; simpl. by rewrite str_app_nil_r.
Qed.
Next Obligation.
  intros st. cbn [tr_finish chat_translator]. unfold finish.
  pose proof (finish_calls_all (st_synth_counter st) (st_tool_calls st)) as Hc.
  destruct (finish_calls _ _) as [n calls]. simpl in Hc. exists calls.
  destruct (str_is_empty (st_text st)), (st_response_id st); simpl; eauto 10.
Qed.
End chat_sse.

(** A two-call stream whose fragments arrive interleaved. *)
Example chat_sse_example :
  let frag i id nm args :=
    VObject [("choices", VArray [VObject [("delta", VObject [("tool_calls", VArray [VObject
      [("index", VNumber (NInt i)); ("id", VString id);
       ("function", VObject [("name", VString nm); ("arguments", VString args)])]])])]])] in
  @translate_chat_sse serde_toy
    [frag 1%Z "b" "g" "{"; frag 0%Z EmptyString "f" "{}"; frag 1%Z EmptyString EmptyString "}"] true =
  Ok [OutputItemDone (FunctionCall None "f" None "{}" "llmswitch-call-1" None);
      OutputItemDone (FunctionCall None "g" None "{}" "b" None);
      Completed "llmswitch-resp-2" None None].
Proof. vm_compute. reflexivity. Qed.
