(* ===== verification/AnthropicSse.v ===== *)
(** * llm-switch: Anthropic Messages stream

    zmod/llm-switch/src/connector/anthropic_sse.rs: the accumulator that turns the parsed
    events of an Anthropic Messages stream into response events, and its batch
    specification. *)

From S2P Require Import Prelude Str Json Protocol BTree SwitchConfig Connector.

(** ** The accumulator *)

Record BlockAcc := {
  is_tool_use : bool;
  ba_call_id : option string;
  ba_name : option string;
  partial_json : string;
}.

Definition BlockAcc_default : BlockAcc :=
  {| is_tool_use := false; ba_call_id := None; ba_name := None; partial_json := EmptyString |}.

Record AnthropicSseState := {
  as_text : string;
  as_response_id : option string;
  as_stop_reason : option string;
  as_input_tokens : Z;
  as_cached_input_tokens : Z;
  as_cache_creation_input_tokens : Z;
  as_output_tokens : Z;
  as_blocks : BTreeMap BlockAcc;
  as_synth_counter : nat;
}.

Definition AnthropicSseState_default : AnthropicSseState :=
  {| as_text := EmptyString; as_response_id := None; as_stop_reason := None;
     as_input_tokens := 0%Z; as_cached_input_tokens := 0%Z;
     as_cache_creation_input_tokens := 0%Z; as_output_tokens := 0%Z;
     as_blocks := []; as_synth_counter := 0 |}.

Definition evt_index (evt : Value) : Z := default 0%Z (get_i64 evt "index").

(** [content_block_start], on the entry of its index *)
Definition start_block (cb : option Value) (acc : BlockAcc) : BlockAcc :=
  if bool_decide ((cb ≫= λ c, get_str c "type") = Some "tool_use") then
    {| is_tool_use := true; ba_call_id := cb ≫= λ c, get_str c "id";
       ba_name := cb ≫= λ c, get_str c "name"; partial_json := partial_json acc |}
  else acc.

(** [input_json_delta], on the entry of its index *)
Definition extend_block (p : string) (acc : BlockAcc) : BlockAcc :=
  {| is_tool_use := is_tool_use acc; ba_call_id := ba_call_id acc; ba_name := ba_name acc;
     partial_json := partial_json acc +:+ p |}.

Definition set_blocks (m : BTreeMap BlockAcc) (st : AnthropicSseState) : AnthropicSseState :=
  {| as_text := as_text st; as_response_id := as_response_id st;
     as_stop_reason := as_stop_reason st; as_input_tokens := as_input_tokens st;
     as_cached_input_tokens := as_cached_input_tokens st;
     as_cache_creation_input_tokens := as_cache_creation_input_tokens st;
     as_output_tokens := as_output_tokens st; as_blocks := m;
     as_synth_counter := as_synth_counter st |}.

Definition on_message_start (evt : Value) (st : AnthropicSseState) : AnthropicSseState :=
  match get evt "message" with
  | Some message =>
      let usage := get message "usage" in
      let field k old := default old (usage ≫= λ u, get_i64 u k) in
      {| as_text := as_text st;
         as_response_id := opt_or (as_response_id st) (nonempty (get_str message "id"));
         as_stop_reason := as_stop_reason st;
         as_input_tokens := field "input_tokens" (as_input_tokens st);
         as_cached_input_tokens := field "cache_read_input_tokens" (as_cached_input_tokens st);
         as_cache_creation_input_tokens :=
           field "cache_creation_input_tokens" (as_cache_creation_input_tokens st);
         as_output_tokens := as_output_tokens st; as_blocks := as_blocks st;
         as_synth_counter := as_synth_counter st |}
  | None => st
  end.

Definition push_text (t : string) (st : AnthropicSseState) : AnthropicSseState :=
  {| as_text := as_text st +:+ t; as_response_id := as_response_id st;
     as_stop_reason := as_stop_reason st; as_input_tokens := as_input_tokens st;
     as_cached_input_tokens := as_cached_input_tokens st;
     as_cache_creation_input_tokens := as_cache_creation_input_tokens st;
     as_output_tokens := as_output_tokens st; as_blocks := as_blocks st;
     as_synth_counter := as_synth_counter st |}.

Definition on_message_delta (evt : Value) (st : AnthropicSseState) : AnthropicSseState :=
  {| as_text := as_text st; as_response_id := as_response_id st;
     as_stop_reason := opt_or (get evt "delta" ≫= λ d, get_str d "stop_reason") (as_stop_reason st);
     as_input_tokens := as_input_tokens st;
     as_cached_input_tokens := as_cached_input_tokens st;
     as_cache_creation_input_tokens := as_cache_creation_input_tokens st;
     as_output_tokens :=
       default (as_output_tokens st) (get evt "usage" ≫= λ u, get_i64 u "output_tokens");
     as_blocks := as_blocks st; as_synth_counter := as_synth_counter st |}.

Definition on_block_delta (evt : Value) (st : AnthropicSseState) :
  AnthropicSseState * list ResponseEvent :=
  let delta := get evt "delta" in
  match delta ≫= λ d, get_str d "type" with
  | Some ty =>
      if str_eqb ty "text_delta" then
        match delta ≫= λ d, get_str d "text" with
        | Some t => (push_text t st, [OutputTextDelta t])
        | None => (st, [])
        end
      else if str_eqb ty "input_json_delta" then
        match delta ≫= λ d, get_str d "partial_json" with
        | Some p => (set_blocks (bt_entry BlockAcc_default (evt_index evt) (extend_block p)
                                   (as_blocks st)) st, [])
        | None => (st, [])
        end
      else (st, [])
  | None => (st, [])
  end.

Definition push_event `{SerdeJson} (st : AnthropicSseState) (evt : Value) :
  Result (AnthropicSseState * list ResponseEvent) ConnError :=
  match get_str evt "type" with
  | Some ty =>
      if str_eqb ty "error" then
        Err (HardFail ("anthropic upstream error: " +:+
               default EmptyString (to_string <$> get evt "error")))
      else if str_eqb ty "message_start" then Ok (on_message_start evt st, [])
      else if str_eqb ty "content_block_start" then
        Ok (set_blocks (bt_entry BlockAcc_default (evt_index evt)
                          (start_block (get evt "content_block")) (as_blocks st)) st, [])
      else if str_eqb ty "content_block_delta" then Ok (on_block_delta evt st)
      else if str_eqb ty "message_delta" then Ok (on_message_delta evt st, [])
      else Ok (st, [])
  | None => Ok (st, [])
  end.

Definition synth_id (counter : nat) (kind : string) : nat * string :=
  (S counter, "llmswitch-" +:+ (kind +:+ ("-" +:+ fmt_nat (S counter)))).

Definition map_end_turn (stop_reason : option string) : option bool :=
  match stop_reason with
  | Some r =>
      if str_eqb r "end_turn" then Some true
      else if str_eqb r "tool_use" then Some false
      else None
  | None => None
  end.

(** One iteration of the loop of [finish] over the blocks. *)
Definition finish_block (counter : nat) (acc : BlockAcc) : nat * list ResponseEvent :=
  if is_tool_use acc then
    let args := if str_is_empty (partial_json acc) then "{}" else partial_json acc in
    let '(counter, call_id) :=
      match ba_call_id acc with
      | Some id => (counter, id)
      | None => synth_id counter "call"
      end in
    (counter, [OutputItemDone (FunctionCall None (default EmptyString (ba_name acc)) None
                                 args call_id None)])
  else (counter, []).

Fixpoint finish_blocks (counter : nat) (m : BTreeMap BlockAcc) : nat * list ResponseEvent :=
  match m with
  | [] => (counter, [])
  | (_, acc) :: m' =>
      let '(counter, evs1) := finish_block counter acc in
      let '(counter, evs2) := finish_blocks counter m' in
      (counter, evs1 ++ evs2)
  end.

(** [i64] additions from left to right; a release build wraps. *)
Definition total_tokens_of (st : AnthropicSseState) : Z :=
  wrap_i64 (wrap_i64 (wrap_i64 (as_cached_input_tokens st + as_cache_creation_input_tokens st)
                      + as_input_tokens st) + as_output_tokens st).

Definition finish (st : AnthropicSseState) : AnthropicSseState * list ResponseEvent :=
  let '(counter, calls) := finish_blocks (as_synth_counter st) (as_blocks st) in
  let '(text, msg) :=
    if negb (str_is_empty (as_text st))
    then (EmptyString, [OutputItemDone (Message None "assistant" [OutputText (as_text st)] None None)])
    else (as_text st, []) in
  let '(counter, response_id) :=
    match as_response_id st with
    | Some id => (counter, id)
    | None => synth_id counter "resp"
    end in
  ({| as_text := text; as_response_id := None; as_stop_reason := as_stop_reason st;
      as_input_tokens := as_input_tokens st;
      as_cached_input_tokens := as_cached_input_tokens st;
      as_cache_creation_input_tokens := as_cache_creation_input_tokens st;
      as_output_tokens := as_output_tokens st; as_blocks := []; as_synth_counter := counter |},
   calls ++ msg ++
   [Completed response_id
      (Some {| input_tokens := as_input_tokens st;
               cached_input_tokens := as_cached_input_tokens st;
               output_tokens := as_output_tokens st;
               reasoning_output_tokens := 0%Z;
               total_tokens := total_tokens_of st |})
      (map_end_turn (as_stop_reason st))]).

Definition push_step `{SerdeJson} (acc : AnthropicSseState * list ResponseEvent) (e : Value) :
  Result (AnthropicSseState * list ResponseEvent) ConnError :=
  let? '(st, evs) := push_event acc.1 e in Ok (st, acc.2 ++ evs).

Definition translate_anthropic_sse `{SerdeJson} (events : list Value) (done : bool) :
  Result (list ResponseEvent) ConnError :=
  let? '(st, out) := fold_res push_step (AnthropicSseState_default, []) events in
  Ok (if done then out ++ (finish st).2 else out).

#[global] Instance anthropic_translator `{SerdeJson} : SseTranslator AnthropicSseState :=
  {| tr_push := push_event; tr_finish := finish |}.

(** ** The batch specification *)

Definition is_ty (t : string) (e : Value) : bool := bool_decide (get_str e "type" = Some t).

Definition on_ty {A} (t : string) (f : Value → option A) (e : Value) : option A :=
  if is_ty t e then f e else None.

Definition delta_field (ty k : string) (e : Value) : option string :=
  get e "delta" ≫= λ d, if is_ty ty d then get_str d k else None.

Definition text_of : Value → option string :=
  on_ty "content_block_delta" (delta_field "text_delta" "text").
Definition json_of : Value → option string :=
  on_ty "content_block_delta" (delta_field "input_json_delta" "partial_json").

(** The content block an event opens, when it is a tool call. *)
Definition tool_start : Value → option Value :=
  on_ty "content_block_start"
    (λ e, get e "content_block" ≫= λ cb, if is_ty "tool_use" cb then Some cb else None).

(** The block index an event concerns. *)
Definition touched (e : Value) : option Z :=
  if is_ty "content_block_start" e then Some (evt_index e)
  else match json_of e with Some _ => Some (evt_index e) | None => None end.

Definition touched_at (i : Z) (es : list Value) : list Value :=
  List.filter (λ e, bool_decide (touched e = Some i)) es.

(** A block is a call once a [tool_use] start was seen for it, with the last such
    start's id and name, and the concatenation of its input fragments. *)
Definition block_spec (mine : list Value) : BlockAcc :=
  {| is_tool_use := negb (bool_decide (omap tool_start mine = []));
     ba_call_id := last (omap tool_start mine) ≫= λ cb, get_str cb "id";
     ba_name := last (omap tool_start mine) ≫= λ cb, get_str cb "name";
     partial_json := concat_str (omap json_of mine) |}.

Definition blocks_spec (es : list Value) : BTreeMap BlockAcc :=
  (λ i, (i, block_spec (touched_at i es))) <$> sorted_keys (omap touched es).

Definition start_id : Value → option string :=
  on_ty "message_start" (λ e, get e "message" ≫= λ m, nonempty (get_str m "id")).
Definition start_usage (k : string) : Value → option Z :=
  on_ty "message_start" (λ e, get e "message" ≫= λ m, get m "usage" ≫= λ u, get_i64 u k).
Definition stop_of : Value → option string :=
  on_ty "message_delta" (λ e, get e "delta" ≫= λ d, get_str d "stop_reason").
Definition output_of : Value → option Z :=
  on_ty "message_delta" (λ e, get e "usage" ≫= λ u, get_i64 u "output_tokens").

Definition state_spec (es : list Value) : AnthropicSseState :=
  {| as_text := concat_str (omap text_of es);
     as_response_id := head (omap start_id es);
     as_stop_reason := last (omap stop_of es);
     as_input_tokens := default 0%Z (last (omap (start_usage "input_tokens") es));
     as_cached_input_tokens := default 0%Z (last (omap (start_usage "cache_read_input_tokens") es));
     as_cache_creation_input_tokens :=
       default 0%Z (last (omap (start_usage "cache_creation_input_tokens") es));
     as_output_tokens := default 0%Z (last (omap output_of es));
     as_blocks := blocks_spec es;
     as_synth_counter := 0 |}.

(** ** Helper lemmas *)

(** What an event does to the block it concerns. *)
Definition touch (e : Value) : BlockAcc → BlockAcc :=
  match json_of e with
  | Some p => extend_block p
  | None => start_block (get e "content_block")
  end.

Lemma is_ty_true t e : is_ty t e = true ↔ get_str e "type" = Some t.
Proof. apply bool_decide_eq_true. Qed.

Lemma is_ty_of t e t' : get_str e "type" = Some t → is_ty t' e = str_eqb t t'.
Proof.
  intros H. unfold is_ty. rewrite H. apply bool_decide_ext. naive_solver.
Qed.

Lemma json_not_start e p : json_of e = Some p → tool_start e = None.
Proof.
  unfold json_of, tool_start, on_ty. destruct (is_ty "content_block_delta" e) eqn:E; [|done].
  apply is_ty_true in E. by rewrite (is_ty_of _ _ "content_block_start" E).
Qed.

Lemma touch_spec es e i :
  touched e = Some i → touch e (block_spec es) = block_spec (es ++ [e]).
Proof.
  unfold touched, touch. intros Ht. unfold block_spec.
  rewrite omap_app, concat_str_snoc_opt. cbn [omap list_omap].
  destruct (json_of e) as [p|] eqn:Ej.
  - rewrite (json_not_start _ _ Ej), app_nil_r. done.
  - destruct (is_ty "content_block_start" e) eqn:Es; [|done].
    unfold tool_start, on_ty, start_block. rewrite Es. rewrite str_app_nil_r.
    destruct (get e "content_block") as [cb|]; simpl; [|by rewrite app_nil_r].
    unfold is_ty. case_bool_decide; [|by rewrite app_nil_r].
    rewrite last_snoc. simpl. rewrite bool_decide_false; [done|].
    by intros [_ ?]%app_eq_nil.
Qed.

Lemma blocks_spec_ok es : bt_ok (blocks_spec es).
Proof.
  unfold bt_ok, blocks_spec. rewrite <-list_fmap_compose. simpl.
  rewrite list_fmap_id. apply sorted_keys_lt.
Qed.

Lemma bt_get_blocks_spec es i :
  bt_get i (blocks_spec es) =
  if decide (i ∈ omap touched es) then Some (block_spec (touched_at i es)) else None.
Proof.
  unfold blocks_spec. rewrite (bt_get_map (λ i, block_spec (touched_at i es))).
  repeat case_decide; rewrite elem_of_sorted_keys in *; done.
Qed.

Lemma touched_at_none i es : i ∉ omap touched es → touched_at i es = [].
Proof.
  unfold touched_at. induction es as [|e es IH]; simpl; [done|]. intros H.
  destruct (touched e) as [j|]; simpl in *.
  - rewrite elem_of_cons in H. rewrite bool_decide_false by naive_solver. naive_solver.
  - auto.
Qed.

Lemma touched_at_snoc i es e :
  touched_at i (es ++ [e]) =
  touched_at i es ++ (if bool_decide (touched e = Some i) then [e] else []).
Proof. unfold touched_at. by rewrite List.filter_app. Qed.

(** An event extends the block table at the index it concerns and nowhere else. *)
Lemma blocks_spec_snoc es e :
  blocks_spec (es ++ [e]) =
  match touched e with
  | Some i => bt_entry BlockAcc_default i (touch e) (blocks_spec es)
  | None => blocks_spec es
  end.
Proof.
  destruct (touched e) as [j|] eqn:Ht.
  - apply bt_ext; [apply blocks_spec_ok|apply bt_entry_ok, blocks_spec_ok|]. intros i.
    rewrite bt_get_blocks_spec, touched_at_snoc, Ht, omap_app. cbn [omap list_omap]. rewrite Ht.
    destruct (decide (j = i)) as [->|Hne].
    + rewrite bt_get_entry_eq by apply blocks_spec_ok. rewrite bool_decide_true by done.
      rewrite decide_True by set_solver. rewrite <-(touch_spec _ _ i) by done.
      rewrite bt_get_blocks_spec. do 2 f_equal. case_decide; [done|].
      by rewrite touched_at_none.
    + rewrite bt_get_entry_ne by done. rewrite bool_decide_false by naive_solver.
      rewrite app_nil_r, bt_get_blocks_spec. repeat case_decide; set_solver.
  - unfold blocks_spec. rewrite omap_app. cbn [omap list_omap]. rewrite Ht, app_nil_r.
    apply list_fmap_ext. intros _ i _. rewrite touched_at_snoc, Ht.
    rewrite bool_decide_false by done. by rewrite app_nil_r.
Qed.

Section anthropic_sse.
Context `{SerdeJson}.

(** An event that is not an [error] extends the batch state by that event. *)
Lemma push_event_spec es e :
  is_ty "error" e = false →
  push_event (state_spec es) e =
    Ok (state_spec (es ++ [e]), OutputTextDelta <$> omap text_of [e]).
Proof.
  intros He. unfold push_event, state_spec.
  rewrite concat_str_snoc_opt, <-opt_or_head, <-opt_or_last, !default_last_snoc, blocks_spec_snoc.
  unfold text_of, start_id, stop_of, start_usage, output_of, touched, touch, json_of, on_ty.
  destruct (get_str e "type") as [ty|] eqn:Ety.
  2:{ unfold is_ty. rewrite Ety. simpl. rewrite Ety. simpl.
      rewrite str_app_nil_r. by destruct (head _). }
  cbn [omap list_omap]. rewrite (is_ty_of _ _ _ Ety) in He.
  rewrite !(is_ty_of _ _ _ Ety), He. clear He.
  destruct (str_eqb ty "message_start") eqn:E1.
  { apply str_eqb_true in E1 as ->. simpl. unfold on_message_start. simpl.
    rewrite str_app_nil_r. by destruct (get e "message"), (head _). }
  destruct (str_eqb ty "content_block_start") eqn:E2.
  { apply str_eqb_true in E2 as ->. simpl. rewrite str_app_nil_r. by destruct (head _). }
  destruct (str_eqb ty "content_block_delta") eqn:E3.
  { apply str_eqb_true in E3 as ->. simpl. unfold on_block_delta, delta_field.
    destruct (get e "delta") as [d|]; simpl; [|rewrite str_app_nil_r; by destruct (head _)].
    destruct (get_str d "type") as [dt|] eqn:Edt.
    2:{ unfold is_ty. rewrite Edt. simpl. rewrite str_app_nil_r. by destruct (head _). }
    rewrite !(is_ty_of _ _ _ Edt). destruct (str_eqb dt "text_delta") eqn:E4.
    { apply str_eqb_true in E4 as ->. simpl.
      destruct (get_str d "text"); simpl; rewrite ?str_app_nil_r; by destruct (head _). }
    destruct (str_eqb dt "input_json_delta"); simpl; rewrite str_app_nil_r;
      [destruct (get_str d "partial_json")|]; by destruct (head _). }
  destruct (str_eqb ty "message_delta") eqn:E4;
    simpl; rewrite str_app_nil_r; by destruct (head _).
Qed.

Definition error_message (e : Value) : option string :=
  on_ty "error" (λ e, Some (default EmptyString (to_string <$> get e "error"))) e.

Lemma anthropic_fold_push_spec es0 es out :
  fold_res push_step (state_spec es0, out) es =
  match head (omap error_message es) with
  | Some msg => Err (HardFail ("anthropic upstream error: " +:+ msg))
  | None => Ok (state_spec (es0 ++ es), out ++ (OutputTextDelta <$> omap text_of es))
  end.
Proof.
  revert es0 out; induction es as [|e es IH]; intros es0 out; [simpl; by rewrite !app_nil_r|].
  cbn [fold_res]. unfold push_step at 1. cbn [fst snd omap list_omap].
  unfold error_message at 1, on_ty at 1. destruct (is_ty "error" e) eqn:He.
  - simpl. unfold push_event. apply is_ty_true in He. by rewrite He.
  - rewrite push_event_spec by done. cbn [res_bind]. rewrite IH, <-!app_assoc.
    destruct (head _); [done|]. do 3 f_equal. cbn [omap list_omap]. by destruct (text_of e).
Qed.

(** Claim C5. The Anthropic accumulator refines the batch meaning of the stream: the
    events are the text deltas in order, then what [finish] emits for the batch state;
    translation fails exactly when an event has type [error], with the first such
    error. *)
Theorem anthropic_stream_refines_batch es :
  translate_anthropic_sse es true =
  match head (omap error_message es) with
  | Some msg => Err (HardFail ("anthropic upstream error: " +:+ msg))
  | None => Ok ((OutputTextDelta <$> omap text_of es) ++ (finish (state_spec es)).2)
  end.
Proof.
  unfold translate_anthropic_sse. change AnthropicSseState_default with (state_spec []).
  rewrite anthropic_fold_push_spec. by destruct (head _).
Qed.

Lemma finish_blocks_all n m : forallb is_call_done (finish_blocks n m).2 = true.
Proof.
  revert n; induction m as [|[i acc] m IH]; intros n; simpl; [done|].
  destruct (finish_block n acc) as [n1 ev] eqn:E.
  specialize (IH n1). destruct (finish_blocks n1 m) as [n2 evs]. simpl in *.
  unfold finish_block in E.
  destruct (is_tool_use acc), (ba_call_id acc); simplify_eq/=; done.
Qed.

Lemma as_text_message_start e st : as_text (on_message_start e st) = as_text st.
Proof. unfold on_message_start. by destruct (get e "message"). Qed.

#[global] Program Instance anthropic_translator_laws : TranslatorLaws AnthropicSseState :=
  {| shown := as_text |}.
Next Obligation.
  intros st v st' evs. cbn [tr_push anthropic_translator]. unfold push_event, on_block_delta.
  repeat case_match; intros; simplify_eq/=; rewrite ?as_text_message_start;
    unfold delta_text; simpl; by rewrite ?str_app_nil_r.
Qed.
Next Obligation.
  intros st. cbn [tr_finish anthropic_translator]. unfold finish.
  pose proof (finish_blocks_all (as_synth_counter st) (as_blocks st)) as Hc.
  destruct (finish_blocks _ _) as [n calls]. simpl in Hc. exists calls.
  destruct (str_is_empty (as_text st)), (as_response_id st); simpl; eauto 10.
Qed.
End anthropic_sse.

(** The total reported for an Anthropic turn is the exact sum of its four
    token counts whenever every partial sum fits an [i64], in particular for
    non-negative counts whose sum does. *)
Theorem anthropic_total_exact st :
  (0 ≤ as_cached_input_tokens st)%Z → (0 ≤ as_cache_creation_input_tokens st)%Z →
  (0 ≤ as_input_tokens st)%Z → (0 ≤ as_output_tokens st)%Z →
  in_i64 (as_cached_input_tokens st + as_cache_creation_input_tokens st
          + as_input_tokens st + as_output_tokens st) = true →
  ∃ evs rid u et, (finish st).2 = evs ++ [Completed rid (Some u) et] ∧
    total_tokens u = (as_cached_input_tokens st + as_cache_creation_input_tokens st
                      + as_input_tokens st + as_output_tokens st)%Z.
Proof.
  intros H1 H2 H3 H4 Hs.
  assert (total_tokens_of st = as_cached_input_tokens st + as_cache_creation_input_tokens st
            + as_input_tokens st + as_output_tokens st)%Z as Ht.
  { unfold total_tokens_of. unfold in_i64, i64_min, i64_max in Hs. apply bool_decide_eq_true in Hs.
    assert (∀ z, (0 ≤ z ≤ 2 ^ 63 - 1)%Z → wrap_i64 z = z) as Hw.
    { intros z Hz. apply wrap_i64_id, bool_decide_eq_true. unfold i64_min, i64_max. lia. }
    rewrite (Hw (as_cached_input_tokens st + as_cache_creation_input_tokens st)%Z) by lia.
    rewrite (Hw (_ + as_input_tokens st)%Z) by lia. rewrite Hw; lia. }
  unfold finish. destruct (finish_blocks _ _) as [n calls].
  destruct (if negb _ then _ else _) as [text msg].
  destruct (as_response_id st); cbn [snd fst synth_id];
    rewrite !app_assoc; eexists _, _, _, _; (split; [reflexivity|exact Ht]).
Qed.

Lemma anthropic_total_exact_witness :
  ∃ evs rid u et,
    (finish (state_spec [VObject [("type", VString "message_start"); ("message", VObject
       [("usage", VObject [("input_tokens", VNumber (NInt 7)); ("cache_read_input_tokens", VNumber (NInt 5))])])]])).2
    = evs ++ [Completed rid (Some u) et] ∧ total_tokens u = 12%Z.
Proof.
  refine (anthropic_total_exact (state_spec [VObject [("type", VString "message_start"); ("message", VObject
       [("usage", VObject [("input_tokens", VNumber (NInt 7)); ("cache_read_input_tokens", VNumber (NInt 5))])])]]) _ _ _ _ _);
    vm_compute; congruence.
Defined.

(** A call whose input arrives in two fragments; ["{}"] is filled in for a call without. *)
Example anthropic_sse_example :
  let start i id nm := VObject [("type", VString "content_block_start"); ("index", VNumber (NInt i));
    ("content_block", VObject [("type", VString "tool_use"); ("id", VString id); ("name", VString nm)])] in
  let frag i p := VObject [("type", VString "content_block_delta"); ("index", VNumber (NInt i));
    ("delta", VObject [("type", VString "input_json_delta"); ("partial_json", VString p)])] in
  (λ evs, take 2 evs) <$>
    match @translate_anthropic_sse serde_toy
      [start 1%Z "b" "g"; start 0%Z "a" "f"; frag 1%Z "{1"; frag 1%Z "}"] true with
    | Ok evs => Some evs | Err _ => None end =
  Some [OutputItemDone (FunctionCall None "f" None "{}" "a" None);
        OutputItemDone (FunctionCall None "g" None "{1}" "b" None)].
Proof. vm_compute. reflexivity. Qed.
