(* ===== verification/Sse.v ===== *)
(** * llm-switch: the SSE engine

    zmod/llm-switch/src/sse.rs: the bytes of a streamed response are cut into frames at
    blank lines; the [data:] lines of each frame are parsed and fed to a translator; the
    events are sent to the consumer.  A run is the sequence of values it sends to a
    consumer that keeps listening (a dropped consumer ends the task at its next send). *)

From S2P Require Import Prelude Str Json Protocol SwitchConfig Connector.

(** One value sent through the channel. *)
Notation Sent := (Result ResponseEvent ApiError).

(** How the loops stand: still reading, [\[DONE\]] seen, or returned after an error. *)
Inductive Status (S : Type) :=
| Running (st : S)
| Done (st : S)
| Stopped.
Arguments Running {S} st.
Arguments Done {S} st.
Arguments Stopped {S}.

(** The text of a [Utf8Error]. *)
Class Utf8Errors := { utf8_error : string → string }.

(** The byte sequence that ends a frame. *)
Definition frame_end : string := NL +:+ NL.

Section engine.
Context `{SerdeJson, Utf8Errors} {S : Type} `{SseTranslator S}.

(** The loop over [event_block.lines()]. *)
Fixpoint process_lines (st : S) (ls : list string) : Status S * list Sent :=
  match ls with
  | [] => (Running st, [])
  | line :: ls' =>
      match strip_prefix "data:" (trim_start line) with
      | None => process_lines st ls'
      | Some d =>
          let data := trim d in
          if str_eqb data "[DONE]" then (Done st, [])
          else if str_is_empty data then process_lines st ls'
          else
            match from_str data with
            | Err e => (Stopped, [Err (StreamErr ("bad SSE json: " +:+ e))])
            | Ok json =>
                match tr_push st json with
                | Err ce => (Stopped, [Err (conn_to_api ce)])
                | Ok (st', events) =>
                    let '(r, out) := process_lines st' ls' in (r, (Ok <$> events) ++ out)
                end
            end
      end
  end.

Definition process_frame (st : S) (frame : string) : Status S * list Sent :=
  if utf8_valid frame then process_lines st (lines frame)
  else (Stopped, [Err (StreamErr ("SSE frame UTF-8 error: " +:+ utf8_error frame))]).

(** The loop that takes complete frames off the buffer: what is left of the buffer, the
    status, and what was sent.  Each frame takes two bytes or more, so the buffer's
    length bounds the iterations. *)
Fixpoint drain_loop (fuel : nat) (st : S) (buf : string) : (Status S * string) * list Sent :=
  match fuel with
  | 0 => ((Running st, buf), [])
  | Datatypes.S fuel' =>
      match find frame_end buf with
      | None => ((Running st, buf), [])
      | Some pos =>
          let rest := str_drop (pos + 2) buf in
          match process_frame st (str_take pos buf) with
          | (Running st', out) =>
              let '(r, out') := drain_loop fuel' st' rest in (r, out ++ out')
          | (r, out) => ((r, rest), out)
          end
      end
  end.

Definition drain (st : S) (buf : string) : (Status S * string) * list Sent :=
  drain_loop (String.length buf) st buf.

(** The loop over the byte stream; an item is the bytes of a chunk or the text of a
    transport error. *)
Fixpoint read_stream (st : S) (buf : string) (stream : list (Result string string)) :
  Status S * list Sent :=
  match stream with
  | [] => (Running st, [])
  | Err e :: _ => (Stopped, [Err (StreamErr ("stream error: " +:+ e))])
  | Ok chunk :: stream' =>
      match drain st (buf +:+ chunk) with
      | ((Running st', buf'), out) =>
          let '(r, out') := read_stream st' buf' stream' in (r, out ++ out')
      | ((r, _), out) => (r, out)
      end
  end.

(** The spawned task: read, then [finish] at [\[DONE\]] or at the end of the stream. *)
Definition read_task (st : S) (stream : list (Result string string)) : list Sent :=
  match read_stream st EmptyString stream with
  | (Running st', out) | (Done st', out) => out ++ (Ok <$> (tr_finish st').2)
  | (Stopped, out) => out
  end.

(** ** Framing does not depend on chunk boundaries *)

Lemma str_drop_app_le n (s t : string) :
  n ≤ String.length s → str_drop n (s +:+ t) = str_drop n s +:+ t.
Proof.
  revert s; induction n as [|n IH]; intros [|a s] Hn; simpl in *; try done; try lia.
  apply IH. lia.
Qed.

Lemma frame_cut buf pos t :
  find frame_end buf = Some pos →
  find frame_end (buf +:+ t) = Some pos ∧
  str_take pos (buf +:+ t) = str_take pos buf ∧
  str_drop (pos + 2) (buf +:+ t) = str_drop (pos + 2) buf +:+ t ∧
  String.length (str_drop (pos + 2) buf) + 2 ≤ String.length buf.
Proof.
  intros Hf. pose proof (find_len _ _ _ Hf) as Hl. simpl in Hl.
  split_and!; [by apply find_app|apply str_take_app_le; lia|apply str_drop_app_le; lia|].
  rewrite str_len_drop. lia.
Qed.

Lemma drain_loop_enough n m st buf :
  String.length buf ≤ n → String.length buf ≤ m → drain_loop n st buf = drain_loop m st buf.
Proof.
  assert (∀ k st buf, String.length buf ≤ k →
            drain_loop k st buf = drain_loop (String.length buf) st buf) as Haux.
  { clear. induction k as [k IH] using lt_wf_ind. intros st buf Hk.
    destruct k as [|k].
    { assert (String.length buf = 0) as -> by lia. done. }
    destruct (find frame_end buf) as [pos|] eqn:Hf.
    - destruct (frame_cut buf pos EmptyString Hf) as (_ & _ & _ & Hl).
      destruct (String.length buf) as [|l] eqn:El; [lia|]. simpl. rewrite Hf.
      destruct (process_frame st (str_take pos buf)) as [[st'|st'|] out]; try done.
      rewrite (IH k) by lia. destruct (decide (l = k)) as [->|]; [by rewrite (IH k) by lia|].
      by rewrite (IH l) by lia.
    - simpl. rewrite Hf. destruct (String.length buf); simpl; by rewrite ?Hf. }
  intros. by rewrite (Haux n), (Haux m).
Qed.

Lemma drain_none st buf : find frame_end buf = None → drain st buf = ((Running st, buf), []).
Proof. intros Hf. unfold drain. destruct (String.length buf); simpl; by rewrite ?Hf. Qed.

Lemma drain_some st buf pos :
  find frame_end buf = Some pos →
  drain st buf =
    let rest := str_drop (pos + 2) buf in
    match process_frame st (str_take pos buf) with
    | (Running st', out) => let '(r, out') := drain st' rest in (r, out ++ out')
    | (r, out) => ((r, rest), out)
    end.
Proof.
  intros Hf. destruct (frame_cut buf pos EmptyString Hf) as (_ & _ & _ & Hl).
  unfold drain at 1. destruct (String.length buf) as [|l] eqn:El; [lia|].
  simpl. rewrite Hf. destruct (process_frame _ _) as [[st'|st'|] out]; try done.
  unfold drain. by rewrite (drain_loop_enough l (String.length (str_drop (pos + 2) buf))) by lia.
Qed.

(** Draining a longer buffer: first the frames complete before, then the others. *)
Lemma drain_app st buf t :
  drain st (buf +:+ t) =
  match drain st buf with
  | ((Running st', buf'), out) =>
      let '(r, out') := drain st' (buf' +:+ t) in (r, out ++ out')
  | ((r, buf'), out) => ((r, buf' +:+ t), out)
  end.
Proof.
  revert st; induction buf as [buf IH] using str_len_ind; intros st.
  destruct (find frame_end buf) as [pos|] eqn:Hf.
  - destruct (frame_cut buf pos t Hf) as (Hf' & Htk & Hdr & Hl).
    rewrite (drain_some _ _ _ Hf), (drain_some _ _ _ Hf'), Htk, Hdr. simpl.
    destruct (process_frame _ _) as [[st'|st'|] out]; try done.
    rewrite IH by lia. destruct (drain st' (str_drop (pos + 2) buf)) as [[[st2|st2|] b2] out2]; try done.
    destruct (drain st2 (b2 +:+ t)) as [r out3]. by rewrite app_assoc.
  - rewrite (drain_none _ _ Hf). by destruct (drain st (buf +:+ t)).
Qed.

Lemma drain_running st buf st' buf' out :
  drain st buf = ((Running st', buf'), out) → find frame_end buf' = None.
Proof.
  revert st out; induction buf as [buf IH] using str_len_ind; intros st out.
  destruct (find frame_end buf) as [pos|] eqn:Hf.
  - destruct (frame_cut buf pos EmptyString Hf) as (_ & _ & _ & Hl).
    rewrite (drain_some _ _ _ Hf). simpl.
    destruct (process_frame _ _) as [[st1|st1|] out1]; try done.
    destruct (drain st1 _) as [[r b] out2] eqn:E; intros; simplify_eq. eapply IH; [|done]; lia.
  - rewrite (drain_none _ _ Hf). naive_solver.
Qed.

Lemma read_stream_drain st buf cs :
  find frame_end buf = None →
  read_stream st buf (Ok <$> cs) =
    let '((r, _), out) := drain st (buf +:+ concat_str cs) in (r, out).
Proof.
  revert st buf; induction cs as [|c cs IH]; intros st buf Hf; simpl.
  - rewrite str_app_nil_r. by rewrite (drain_none _ _ Hf).
  - rewrite str_app_assoc, (drain_app st (buf +:+ c)).
    destruct (drain st (buf +:+ c)) as [[[st'|st'|] buf'] out] eqn:E; try done.
    rewrite IH by (by eapply drain_running).
    by destruct (drain st' (buf' +:+ concat_str cs)) as [[r b] out'].
Qed.

(** Claim C3. What a response means does not depend on how the network cuts it: the
    events sent for a stream of chunks are those sent for all its bytes at once (a
    multi-byte character or a frame may be split anywhere). *)
Theorem chunking_irrelevant st cs :
  read_task st (Ok <$> cs) = read_task st [Ok (concat_str cs)].
Proof.
  unfold read_task. change [Ok (concat_str cs)] with (Ok (E:=string) <$> [concat_str cs]).
  rewrite !read_stream_drain by done. simpl. by rewrite str_app_nil_r.
Qed.

(** ** A run ends once

    A run either displays text, then emits calls, the message and one [Completed], or
    displays text and ends with one error. *)

Definition run_shape `{!TranslatorLaws S} (st : S) (run : Status S * list Sent) : Prop :=
  ∃ deltas, forallb is_text_delta deltas = true ∧
    match run.1 with
    | Running st' | Done st' =>
        run.2 = Ok <$> deltas ∧ shown st' = shown st +:+ delta_text deltas
    | Stopped => ∃ e, run.2 = (Ok <$> deltas) ++ [Err e]
    end.

Lemma delta_text_app e1 e2 : delta_text (e1 ++ e2) = delta_text e1 +:+ delta_text e2.
Proof. unfold delta_text. by rewrite omap_app, concat_str_app. Qed.

Section shape.
Context `{!TranslatorLaws S}.

Lemma run_shape_nil st : run_shape st (Running st, []).
Proof. exists []. unfold delta_text. simpl. by rewrite str_app_nil_r. Qed.

Lemma run_shape_err st e : run_shape st (Stopped, [Err e]).
Proof. exists []. simpl. eauto. Qed.

Lemma run_shape_seq st st' evs r out :
  forallb is_text_delta evs = true → shown st' = shown st +:+ delta_text evs →
  run_shape st' (r, out) → run_shape st (r, (Ok <$> evs) ++ out).
Proof.
  intros He Hs (ds & Hds & Hr). exists (evs ++ ds). rewrite forallb_app, He. split; [done|].
  rewrite fmap_app. simpl in *. destruct r as [st2|st2|].
  1,2: destruct Hr as [-> ->]; by rewrite delta_text_app, Hs, str_app_assoc.
  destruct Hr as [e ->]. exists e. by rewrite app_assoc.
Qed.

Lemma process_lines_shape st ls : run_shape st (process_lines st ls).
Proof.
  revert st; induction ls as [|l ls IH]; intros st; cbn [process_lines]; [apply run_shape_nil|].
  destruct (strip_prefix _ _) as [d|]; [|apply IH].
  destruct (str_eqb _ _); [exists []; unfold delta_text; simpl; by rewrite str_app_nil_r|].
  destruct (str_is_empty _); [apply IH|].
  destruct (from_str _) as [v|e]; [|apply run_shape_err].
  destruct (tr_push st v) as [[st' evs]|ce] eqn:Ep; [|apply run_shape_err].
  apply push_shown in Ep as [Hs He]. specialize (IH st'). destruct (process_lines st' ls).
  by eapply run_shape_seq.
Qed.

Lemma process_frame_shape st f : run_shape st (process_frame st f).
Proof.
  unfold process_frame. destruct (utf8_valid f); [apply process_lines_shape|apply run_shape_err].
Qed.

Lemma drain_shape st buf : run_shape st ((drain st buf).1.1, (drain st buf).2).
Proof.
  revert st; induction buf as [buf IH] using str_len_ind; intros st.
  destruct (find frame_end buf) as [pos|] eqn:Hf.
  - destruct (frame_cut buf pos EmptyString Hf) as (_ & _ & _ & Hl).
    rewrite (drain_some _ _ _ Hf). simpl.
    pose proof (process_frame_shape st (str_take pos buf)) as Hp.
    destruct (process_frame _ _) as [[st1|st1|] out1]; try done.
    destruct Hp as (ds & Hds & Hp). simpl in Hp. destruct Hp as [-> Hs].
    specialize (IH (str_drop (pos + 2) buf) ltac:(lia) st1).
    destruct (drain st1 _) as [[r b] out2]. simpl in *. by eapply run_shape_seq.
  - rewrite (drain_none _ _ Hf). apply run_shape_nil.
Qed.

Lemma read_stream_shape st buf stream : run_shape st (read_stream st buf stream).
Proof.
  revert st buf; induction stream as [|[c|e] stream IH]; intros st buf; simpl;
    [apply run_shape_nil| |apply run_shape_err].
  pose proof (drain_shape st (buf +:+ c)) as Hd.
  destruct (drain st (buf +:+ c)) as [[[st1|st1|] b] out1]; try done. simpl in Hd.
  destruct Hd as (ds & Hds & Hd). simpl in Hd. destruct Hd as [-> Hs]. specialize (IH st1 b).
  destruct (read_stream st1 b stream) as [r out2]. by eapply run_shape_seq.
Qed.

(** What a consumer sees of one turn. *)
Definition turn_shape (sent : list Sent) : Prop :=
  ∃ deltas, forallb is_text_delta deltas = true ∧
    ((∃ calls rid usage et, forallb is_call_done calls = true ∧
        sent = Ok <$> (deltas ++ calls ++
          (if str_is_empty (delta_text deltas) then [] else [text_message (delta_text deltas)])
          ++ [Completed rid usage et])) ∨
     (∃ e, sent = (Ok <$> deltas) ++ [Err e])).

Lemma read_task_shape st stream : shown st = EmptyString → turn_shape (read_task st stream).
Proof.
  intros Hst. unfold read_task.
  destruct (read_stream_shape st EmptyString stream) as (ds & Hds & Hr). exists ds. split; [done|].
  destruct (read_stream st EmptyString stream) as [[st1|st1|] out]; simpl in Hr.
  1,2: left; destruct Hr as [-> Hs]; rewrite Hst, str_app_nil_l in Hs;
       destruct (finish_shape st1) as (calls & rid & u & et & -> & Hc);
       exists calls, rid, u, et; rewrite Hs; by rewrite !fmap_app.
  right. destruct Hr as [e ->]. by exists e.
Qed.

Lemma no_completed_in_deltas ds : forallb is_text_delta ds = true → List.filter is_completed ds = [].
Proof.
  induction ds as [|d ds IH]; simpl; [done|]. intros [Hd Hds]%andb_true_iff.
  destruct d; try done. by apply IH.
Qed.

Lemma no_completed_in_calls cs : forallb is_call_done cs = true → List.filter is_completed cs = [].
Proof.
  induction cs as [|c cs IH]; simpl; [done|]. intros [Hd Hds]%andb_true_iff.
  destruct c; try done. by apply IH.
Qed.

(** The [Completed] events and the errors among what was sent. *)
Definition completions (sent : list Sent) : nat :=
  length (List.filter (λ s, match s with Ok e => is_completed e | Err _ => false end) sent).
Definition errors (sent : list Sent) : nat :=
  length (List.filter (λ s, negb (is_ok s)) sent).

Lemma completions_ok evs : completions (Ok <$> evs) = length (List.filter is_completed evs).
Proof.
  unfold completions. induction evs as [|e evs IH]; [done|]. rewrite fmap_cons. cbn [List.filter].
  destruct (is_completed e); cbn [length]; by rewrite IH.
Qed.

Lemma errors_ok evs : errors (Ok <$> evs) = 0.
Proof. unfold errors. by induction evs. Qed.

Lemma turn_shape_ends sent :
  turn_shape sent → completions sent + errors sent = 1 ∧
    (∃ e, last sent = Some e ∧ match e with Ok ev => is_completed ev = true | Err _ => True end).
Proof.
  intros (ds & Hds & [(calls & rid & u & et & Hc & ->)|[e ->]]).
  - split.
    + rewrite completions_ok, errors_ok, !List.filter_app, no_completed_in_deltas,
        no_completed_in_calls by done. by destruct (str_is_empty _).
    + exists (Ok (Completed rid u et)). split; [|done].
      rewrite !app_assoc, fmap_app. apply last_snoc.
  - rewrite last_snoc. split; [|by exists (Err e)].
    unfold completions, errors. rewrite !List.filter_app, !length_app. simpl.
    fold (completions (Ok <$> ds)) (errors (Ok <$> ds)).
    by rewrite completions_ok, errors_ok, no_completed_in_deltas.
Qed.

(** Claim C2. Every streamed turn ends exactly once, whatever the upstream sends.
    Either the consumer gets text deltas, the finished calls, the assistant message that
    records exactly the displayed text (when there is any), and a [Completed]; or text
    deltas and an error.  In both cases there is one completion or error in all, and it
    is the last thing sent. *)
Theorem turn_ends_once st stream :
  shown st = EmptyString →
  turn_shape (read_task st stream) ∧
  completions (read_task st stream) + errors (read_task st stream) = 1 ∧
  (∃ e, last (read_task st stream) = Some e ∧
        match e with Ok ev => is_completed ev = true | Err _ => True end).
Proof.
  intros Hst. pose proof (read_task_shape st stream Hst) as Hs.
  split; [done|]. by apply turn_shape_ends.
Qed.
End shape.

(** ** Decoding a well-formed stream *)

(** A line of an event: not empty, UTF-8, without a line end of its own. *)
Record event_line (l : string) : Prop := {
  line_some : l ≠ EmptyString;
  line_utf8 : utf8_valid l = true;
  line_lf : contains_char newline l = false;
  line_cr : ends_cr l = false;
}.

(** An event on the wire: its lines and an empty line. *)
Definition event_text (ls : list string) : string := join NL ls +:+ frame_end.
Definition wire (events : list (list string)) : string := concat_str (event_text <$> events).

(** The value of a [data] field; lines of other fields and comments have none. *)
Definition data_value (l : string) : option string := trim <$> strip_prefix "data:" (trim_start l).

(** The values that count: those that are not empty, up to the first that is [\[DONE\]], and
    whether there is one. *)
Fixpoint up_to_done (ds : list string) : list string * bool :=
  match ds with
  | [] => ([], false)
  | d :: ds' =>
      if str_eqb d "[DONE]" then ([], true)
      else
        let '(ts, b) := up_to_done ds' in
        (if str_is_empty d then ts else d :: ts, b)
  end.

Definition event_data (events : list (list string)) : list string * bool :=
  up_to_done (omap data_value (concat events)).

Lemma starts_with_cons_ne c p a s :
  byte_eqb c a = false → starts_with (String c p) (String a s) = false.
Proof.
  intros Hc. apply bool_decide_eq_false. cbn [strip_prefix]. rewrite Hc. by intros [? ?].
Qed.

Lemma find_frame_skip l s :
  contains_char newline l = false →
  find frame_end (l +:+ s) = Nat.add (String.length l) <$> find frame_end s.
Proof.
  induction l as [|a l IH]; intros Hl.
  - rewrite str_app_nil_l. by destruct (find frame_end s).
  - rewrite contains_char_cons, orb_false_iff in Hl. destruct Hl as [Ha Hl].
    rewrite str_app_cons. cbn [find String.length]. rewrite IH by done.
    rewrite (starts_with_cons_ne newline NL) by done. by destruct (find frame_end s).
Qed.

Lemma find_frame_newline l s :
  event_line l → find frame_end (NL +:+ (l +:+ s)) = Datatypes.S <$> find frame_end (l +:+ s).
Proof.
  intros [Hs _ Hl _]. destruct l as [|a l]; [done|]. rewrite contains_char_cons, orb_false_iff in Hl.
  destruct Hl as [Ha _]. rewrite !str_app_cons.
  remember (String a (l +:+ s)) as t eqn:Et.
  change (NL +:+ t) with (String newline t). cbn [find].
  assert (starts_with frame_end (String newline t) = false) as ->; [|by destruct (find frame_end t)].
  subst t. apply bool_decide_eq_false. change frame_end with (String newline NL). cbn [strip_prefix]. rewrite byte_eqb_refl.
  change NL with (String newline EmptyString). cbn [strip_prefix]. rewrite Ha. by intros [? ?].
Qed.

(** The first empty line after an event's lines is its own. *)
Lemma find_frame_end ls rest :
  Forall event_line ls → find frame_end (event_text ls +:+ rest) = Some (String.length (join NL ls)).
Proof.
  unfold event_text. rewrite <-str_app_assoc.
  assert (find frame_end (frame_end +:+ rest) = Some 0) as Hz by (by destruct rest).
  induction 1 as [|l ls Hl Hls IH]; [by rewrite str_app_nil_l|].
  destruct Hls as [|l' ls Hl' Hls].
  - rewrite find_frame_skip by apply Hl. rewrite Hz. simpl. f_equal. lia.
  - rewrite join_cons by done. rewrite <-!str_app_assoc, find_frame_skip by apply Hl.
    destruct (decide (ls = [])) as [->|Hne].
    + change (join NL [l']) with l' in *. rewrite find_frame_newline, IH by done. simpl.
      rewrite !str_len_app. simpl. done.
    + rewrite join_cons in * by done. rewrite <-!str_app_assoc in *.
      rewrite find_frame_newline, IH by done. simpl. rewrite !str_len_app. simpl. done.
Qed.

Lemma event_lines ls : Forall event_line ls → lines (join NL ls) = ls.
Proof.
  destruct ls as [|x ls _] using rev_ind; [done|]. intros [Hls [Hx _]%Forall_cons]%Forall_app.
  apply lines_join; [|apply Hx..]. eapply Forall_impl; [done|]. by intros l [_ _ ? ?].
Qed.

Lemma drain_event st ls rest :
  Forall event_line ls →
  drain st (event_text ls +:+ rest) =
    match process_lines st ls with
    | (Running st', out) => let '(r, out') := drain st' rest in (r, out ++ out')
    | (r, out) => ((r, rest), out)
    end.
Proof.
  intros Hls. rewrite (drain_some _ _ _ (find_frame_end _ rest Hls)). cbv zeta.
  unfold event_text. rewrite <-(str_app_assoc (join NL ls)), str_take_app_len.
  replace (str_drop _ _) with rest.
  2:{ rewrite str_app_assoc. replace (_ + 2) with (String.length (join NL ls +:+ frame_end)).
      - by rewrite str_drop_app_len.
      - rewrite !str_len_app. done. }
  unfold process_frame. rewrite join_valid, event_lines; [done|done|].
  eapply Forall_impl; [done|]. by intros l [_ ? _ _].
Qed.

(** Pushing parsed values one after the other. *)
Definition push_all (st : S) (vs : list Value) : Result (S * list ResponseEvent) ConnError :=
  fold_res (λ acc v, let? '(st, evs) := tr_push acc.1 v in Ok (st, acc.2 ++ evs)) (st, []) vs.

Lemma fold_push_out st out vs :
  fold_res (λ acc v, let? '(st, evs) := tr_push acc.1 v in Ok (st, acc.2 ++ evs)) (st, out) vs =
  let? '(st', evs) := push_all st vs in Ok (st', out ++ evs).
Proof.
  unfold push_all. revert st out; induction vs as [|v vs IH]; intros st out; simpl;
    [by rewrite app_nil_r|].
  destruct (tr_push st v) as [[st' evs]|ce]; simpl; [|done].
  rewrite (IH st' (out ++ evs)), (IH st' evs). destruct (fold_res _ _ _) as [[st2 o2]|]; simpl; [|done].
  by rewrite app_assoc.
Qed.

Lemma push_all_cons st v vs :
  push_all st (v :: vs) =
  let? '(st1, evs1) := tr_push st v in let? '(st2, evs2) := push_all st1 vs in Ok (st2, evs1 ++ evs2).
Proof.
  unfold push_all at 1. simpl. destruct (tr_push st v) as [[st' evs]|ce]; simpl; [|done].
  apply fold_push_out.
Qed.

Lemma push_all_app st vs vs' :
  push_all st (vs ++ vs') =
  let? '(st1, evs1) := push_all st vs in let? '(st2, evs2) := push_all st1 vs' in Ok (st2, evs1 ++ evs2).
Proof.
  revert st; induction vs as [|v vs IH]; intros st; [simpl; by destruct (push_all st vs') as [[? ?]|]|].
  rewrite <-app_comm_cons, !push_all_cons. destruct (tr_push st v) as [[st1 evs1]|]; simpl; [|done].
  rewrite IH. destruct (push_all st1 vs) as [[st2 evs2]|]; simpl; [|done].
  destruct (push_all st2 vs') as [[st3 evs3]|]; simpl; [|done]. by rewrite app_assoc.
Qed.

Lemma up_to_done_app ds ds' :
  up_to_done (ds ++ ds') =
  if (up_to_done ds).2 then up_to_done ds
  else ((up_to_done ds).1 ++ (up_to_done ds').1, (up_to_done ds').2).
Proof.
  induction ds as [|d ds IH]; simpl; [by destruct (up_to_done ds')|].
  destruct (str_eqb d _); [done|]. rewrite IH. destruct (up_to_done ds) as [ts b]. simpl.
  by destruct b, (str_is_empty d).
Qed.

(** The values of an event's lines are pushed one after the other. *)
Lemma process_lines_data st ls vs st' evs :
  let '(ts, b) := up_to_done (omap data_value ls) in
  Forall2 (λ t v, from_str t = Ok v) ts vs → push_all st vs = Ok (st', evs) →
  process_lines st ls = (if b then Done st' else Running st', Ok <$> evs).
Proof.
  revert st vs evs; induction ls as [|l ls IH]; intros st vs evs.
  { simpl. intros Hts Hp. inversion Hts; subst. by injection Hp as <- <-. }
  cbn [omap list_omap process_lines]. unfold data_value at 1.
  destruct (strip_prefix _ (trim_start l)) as [d|]; [|apply IH]. simpl.
  destruct (str_eqb (trim d) "[DONE]").
  { intros Hts Hp. inversion Hts; subst. by injection Hp as <- <-. }
  destruct (str_is_empty (trim d)).
  { specialize (IH st vs evs). by destruct (up_to_done _). }
  specialize (λ st, IH st). destruct (up_to_done _) as [ts b]. intros Hts Hp.
  apply Forall2_cons_inv_l in Hts as (v & vs' & Hv & Hts & ->). rewrite Hv.
  rewrite push_all_cons in Hp. destruct (tr_push st v) as [[st1 evs1]|]; [|done]. simpl in Hp.
  destruct (push_all st1 vs') as [[st2 evs2]|] eqn:E; [|done]. simpl in Hp. injection Hp as <- <-.
  rewrite (IH st1 vs' evs2 Hts E). by rewrite fmap_app.
Qed.

Lemma drain_wire st events vs st' evs rest :
  Forall (Forall event_line) events →
  let '(ts, b) := event_data events in
  (b = true ∨ find frame_end rest = None) →
  Forall2 (λ t v, from_str t = Ok v) ts vs → push_all st vs = Ok (st', evs) →
  ∃ buf, drain st (wire events +:+ rest) = ((if b then Done st' else Running st', buf), Ok <$> evs).
Proof.
  intros Hev. revert st vs evs. induction Hev as [|ls events Hls Hev IH]; intros st vs evs.
  { simpl. intros [?|Hr] Hts Hp; [done|]. inversion Hts; subst. injection Hp as <- <-.
    exists rest. change (wire []) with EmptyString. by rewrite str_app_nil_l, drain_none. }
  unfold event_data in *. cbn [concat]. rewrite omap_app, up_to_done_app.
  change (wire (ls :: events)) with (event_text ls +:+ wire events).
  rewrite <-str_app_assoc. rewrite (drain_event st ls _ Hls).
  pose proof (process_lines_data st ls) as Hl.
  destruct (up_to_done (omap data_value ls)) as [ts1 [|]]; simpl.
  { intros Hr Hts Hp. rewrite (Hl _ _ _ Hts Hp). eauto. }
  destruct (up_to_done (omap data_value (concat events))) as [ts2 b]. simpl. intros Hr Hts Hp.
  apply Forall2_app_inv_l in Hts as (vs1 & vs2 & Hts1 & Hts2 & ->). rewrite push_all_app in Hp.
  destruct (push_all st vs1) as [[st1 evs1]|] eqn:E1; [|done]. simpl in Hp.
  destruct (push_all st1 vs2) as [[st2 evs2]|] eqn:E2; [|done]. simpl in Hp. injection Hp as <- <-.
  rewrite (Hl _ _ _ Hts1 E1). destruct (IH st1 vs2 evs2 Hr Hts2 E2) as [buf ->].
  exists buf. by rewrite fmap_app.
Qed.

Lemma wire_decodes st cs events rest vs st' evs :
  Forall (Forall event_line) events →
  (event_data events).2 = true ∨ find frame_end rest = None →
  Forall2 (λ t v, from_str t = Ok v) (event_data events).1 vs →
  push_all st vs = Ok (st', evs) →
  concat_str cs = wire events +:+ rest →
  read_task st (Ok <$> cs) = Ok <$> (evs ++ (tr_finish st').2).
Proof.
  intros Hev Hr Hts Hp Hc. unfold read_task. rewrite read_stream_drain by done.
  rewrite str_app_nil_l, Hc. pose proof (drain_wire st events vs st' evs rest Hev) as Hd.
  destruct (event_data events) as [ts b]. destruct (Hd Hr Hts Hp) as [buf ->].
  rewrite fmap_app. by destruct b.
Qed.

(** Bytes that never form a blank line are never parsed: a stream without the
    byte pair LF LF, such as one whose lines all end in CR LF, or the unterminated last
    event of any stream, yields only the final events. *)
Theorem unframed_bytes_dropped st cs :
  find frame_end (concat_str cs) = None →
  read_task st (Ok <$> cs) = Ok <$> (tr_finish st).2.
Proof.
  intros Hf. unfold read_task. rewrite read_stream_drain by done.
  by rewrite str_app_nil_l, (drain_none _ _ Hf).
Qed.

End engine.
