(* ===== verification/Egress.v ===== *)
(** * llm-switch: connectors and the entry point

    zmod/llm-switch/src/connector/chat.rs and anthropic.rs (the two [Connector]s), the
    request phase of sse.rs, pipeline.rs and transform/mod.rs (the transform plugins) and
    [run] of lib.rs, which puts them together. *)

From S2P Require Import Prelude Str Json Protocol BTree SwitchConfig Routing Connector.
From S2P Require Import ChatReq AnthropicReq ChatSse AnthropicSse Sse.

(** ** Sending a request *)

(** A response of the HTTP client. *)
Record Response := {
  resp_status : Z;
  resp_request_id : option string;              (** [x-request-id], when it is text *)
  resp_text : option string;                    (** the whole body as text, if it could be read *)
  resp_stream : list (Result string string);    (** the body as a byte stream *)
}.

(** [http.post(url).headers(h).json(body).send()], with the error's text. *)
Class HttpClient := { http_post : string → HeaderMap → Value → Result Response string }.

(** [codex_api::ResponseStream]: what the receiver will yield. *)
Record ResponseStream := {
  rx_event : list Sent;
  upstream_request_id : option string;
}.

(** [StatusCode::is_success] *)
Definition is_success (status : Z) : bool := (200 <=? status)%Z && (status <? 300)%Z.

Definition run_egress `{SerdeJson, Utf8Errors, HttpClient} {S} `{SseTranslator S}
    (url : string) (headers : HeaderMap) (b : Value) (translator : S) :
  Result ResponseStream ApiError :=
  let? resp := map_err (λ e, StreamErr ("request failed: " +:+ e)) (http_post url headers b) in
  if negb (is_success (resp_status resp)) then
    Err (Api (resp_status resp) (default EmptyString (resp_text resp)))
  else
    Ok {| rx_event := read_task translator (resp_stream resp);
          upstream_request_id := resp_request_id resp |}.

(** ** Connectors *)

Definition chat_run `{Unicode, SerdeJson, HashOrder, Utf8Errors, HttpClient, HeaderValues}
    (req : ResponsesApiRequest) (ctx : EgressCtx) : Result ResponseStream ApiError :=
  let? b := map_err conn_to_api (build_chat_request req ctx) in
  let url := egress_url (ctx_base_url ctx) ConnChat (ctx_path_override ctx) in
  let? headers := egress_headers ctx None in
  run_egress url headers b ChatSseState_default.

Definition anthropic_run `{Unicode, SerdeJson, Utf8Errors, HttpClient, HeaderValues}
    (req : ResponsesApiRequest) (ctx : EgressCtx) : Result ResponseStream ApiError :=
  let? b := map_err conn_to_api (build_anthropic_request req ctx) in
  let url := egress_url (ctx_base_url ctx) ConnAnthropic (ctx_path_override ctx) in
  let? headers := egress_headers ctx (ctx_anthropic_version ctx) in
  run_egress url headers b AnthropicSseState_default.

(** [make_connector(kind).run(..)] *)
Definition connector_run `{Unicode, SerdeJson, HashOrder, Utf8Errors, HttpClient, HeaderValues}
    (kind : SwitchConfig.Connector) (req : ResponsesApiRequest) (ctx : EgressCtx) :
  Result ResponseStream ApiError :=
  match kind with
  | ConnChat => chat_run req ctx
  | ConnAnthropic => anthropic_run req ctx
  end.

(** ** Transform plugins *)

Definition TransformPlugin : Type := ResponsesApiRequest → Result ResponsesApiRequest ConnError.

Definition run_transforms (plugins : list TransformPlugin) (req : ResponsesApiRequest) :
  Result ResponsesApiRequest ConnError :=
  fold_res (λ req p, p req) req plugins.

Definition plugins : list TransformPlugin := [].

Definition default_plugins : list TransformPlugin := plugins.

(** ** [run] *)

Definition egress_ctx (rt : Route) (req : ResponsesApiRequest) (url : string) (key : option string)
    (api_auth : HeaderMap → HeaderMap) : EgressCtx :=
  {| ctx_base_url := url; ctx_model := default (model req) (pmodel (cfg rt));
     ctx_auth := auth (cfg rt); ctx_key := key;
     ctx_anthropic_version := anthropic_version (cfg rt);
     ctx_path_override := path (cfg rt);
     ctx_default_max_tokens := default_max_tokens (cfg rt);
     ctx_prompt_cache := prompt_cache (cfg rt);
     ctx_auth_fallback := Some api_auth |}.

Definition run `{Unicode, SerdeJson, HashOrder, Utf8Errors, HttpClient, HeaderValues, Env}
    (rt : Route) (request : ResponsesApiRequest) (api_auth : HeaderMap → HeaderMap) :
  Result ResponseStream ApiError :=
  let? request := map_err conn_to_api (run_transforms default_plugins request) in
  let? url := match base_url (cfg rt) with
              | Some u => Ok u
              | None => Err (InvalidRequest ("provider " +:+ (provider_id rt +:+ " missing base_url")))
              end in
  let? key := map_err (λ e, InvalidRequest (http_error_to_string e)) (resolve_key (cfg rt)) in
  connector_run (connector (cfg rt)) request (egress_ctx rt request url key api_auth).

(** ** Properties *)

(** The body a connector builds. *)
Definition connector_body `{Unicode, SerdeJson, HashOrder} (kind : SwitchConfig.Connector)
    (req : ResponsesApiRequest) (ctx : EgressCtx) : Result Value ConnError :=
  match kind with
  | ConnChat => build_chat_request req ctx
  | ConnAnthropic => build_anthropic_request req ctx
  end.

Definition connector_version (kind : SwitchConfig.Connector) (ctx : EgressCtx) : option string :=
  match kind with ConnChat => None | ConnAnthropic => ctx_anthropic_version ctx end.

Section run.
Context `{Unicode, SerdeJson, HashOrder, Utf8Errors, HttpClient, HeaderValues, Env}.

Lemma is_success_range status : is_success status = true ↔ (200 ≤ status < 300)%Z.
Proof. unfold is_success. lia. Qed.

Lemma run_egress_ok {S} `{SseTranslator S} url h b (tr : S) rs :
  run_egress url h b tr = Ok rs →
  ∃ resp, http_post url h b = Ok resp ∧ (200 ≤ resp_status resp < 300)%Z ∧
          rx_event rs = read_task tr (resp_stream resp).
Proof.
  unfold run_egress. destruct (http_post url h b) as [resp|]; simpl; [|done].
  destruct (is_success _) eqn:E; simpl; [|done]. apply is_success_range in E.
  intros; simplify_eq. eauto.
Qed.

Lemma connector_run_ok kind req ctx rs :
  connector_run kind req ctx = Ok rs →
  ∃ h b resp, connector_body kind req ctx = Ok b ∧
    egress_headers ctx (connector_version kind ctx) = Ok h ∧
    http_post (egress_url (ctx_base_url ctx) kind (ctx_path_override ctx)) h b = Ok resp ∧
    (200 ≤ resp_status resp < 300)%Z ∧ turn_shape (rx_event rs).
Proof.
  destruct kind; simpl; unfold chat_run, anthropic_run; intros Hr.
  all: apply res_bind_ok in Hr as (b & Hb%map_err_ok & Hr);
       apply res_bind_ok in Hr as (h & Hh & Hr);
       apply run_egress_ok in Hr as (resp & Hp & Hs & ->);
       exists h, b, resp; split_and!; first [done|lia|by apply read_task_shape].
Qed.

(** A turn that [run] accepts was sent as configured: the provider has a base
    URL, the body is the connector's translation of the request for the configured
    model, the headers are those of the provider's auth, the upstream answered 2xx, and
    the stream handed back ends exactly once. *)
Theorem run_sound rt req api_auth rs :
  run rt req api_auth = Ok rs →
  ∃ url key, base_url (cfg rt) = Some url ∧ resolve_key (cfg rt) = Ok key ∧
    let ctx := egress_ctx rt req url key api_auth in
    ∃ h b resp, connector_body (connector (cfg rt)) req ctx = Ok b ∧
      egress_headers ctx (connector_version (connector (cfg rt)) ctx) = Ok h ∧
      http_post (egress_url url (connector (cfg rt)) (path (cfg rt))) h b = Ok resp ∧
      (200 ≤ resp_status resp < 300)%Z ∧
      completions (rx_event rs) + errors (rx_event rs) = 1.
Proof.
  unfold run. simpl. destruct (base_url (cfg rt)) as [url|]; simpl; [|done]. intros Hr.
  apply res_bind_ok in Hr as (key & Hk%map_err_ok & Hr).
  apply connector_run_ok in Hr as (h & b & resp & Hb & Hh & Hp & Hs & Ht).
  exists url, key. split_and!; [done|done|]. exists h, b, resp.
  split_and!; first [done|lia|by apply turn_shape_ends].
Qed.

(** The engine's pushes are those of the batch translators. *)
Lemma chat_push_all vs evs :
  translate_chat_sse vs true = Ok evs →
  ∃ st out, push_all ChatSseState_default vs = Ok (st, out) ∧ evs = out ++ (tr_finish st).2.
Proof.
  unfold translate_chat_sse. intros Ht. apply res_bind_ok in Ht as ([st out] & Hf & Ho).
  exists st, out. split; [exact Hf|]. by injection Ho.
Qed.

Lemma anthropic_push_all vs evs :
  translate_anthropic_sse vs true = Ok evs →
  ∃ st out, push_all AnthropicSseState_default vs = Ok (st, out) ∧ evs = out ++ (tr_finish st).2.
Proof.
  unfold translate_anthropic_sse. intros Ht. apply res_bind_ok in Ht as ([st out] & Hf & Ho).
  exists st, out. split; [exact Hf|]. by injection Ho.
Qed.

(** What a response's values mean for a connector. *)
Definition translate (kind : SwitchConfig.Connector) (vs : list Value) :
  Result (list ResponseEvent) ConnError :=
  match kind with
  | ConnChat => translate_chat_sse vs true
  | ConnAnthropic => translate_anthropic_sse vs true
  end.

(** Claim C1. End to end: the request can be translated, the key resolved and the headers
    built, and the upstream answers 2xx with bytes cut into chunks anywhere.  The bytes are a
    list of events, each of any lines (a [data:], [event:] or [id:] field, a comment, several
    [data:] lines) closed by an empty line, the lines ending in LF; after the last event may
    come anything if some event said [\[DONE\]], and else a rest without an empty line.  The
    values of the [data:] lines, blanks around them removed and empty ones left out, up to
    the first [\[DONE\]], are the JSON texts of [vs].  Then [run] returns a stream that yields
    exactly the connector's translation of [vs].  So an unterminated last event, and a stream
    whose lines all end in CR LF, which has no empty line in this sense, count for nothing. *)
Theorem run_delivers rt req api_auth url key h b resp cs events rest vs evs :
  let kind := connector (cfg rt) in
  let ctx := egress_ctx rt req url key api_auth in
  base_url (cfg rt) = Some url → resolve_key (cfg rt) = Ok key →
  connector_body kind req ctx = Ok b →
  egress_headers ctx (connector_version kind ctx) = Ok h →
  http_post (egress_url url kind (path (cfg rt))) h b = Ok resp →
  (200 ≤ resp_status resp < 300)%Z →
  resp_stream resp = Ok <$> cs → concat_str cs = wire events +:+ rest →
  Forall (Forall event_line) events →
  (event_data events).2 = true ∨ find frame_end rest = None →
  Forall2 (λ t v, from_str t = Ok v) (event_data events).1 vs → translate kind vs = Ok evs →
  run rt req api_auth =
    Ok {| rx_event := Ok <$> evs; upstream_request_id := resp_request_id resp |}.
Proof.
  intros kind ctx Hu Hk Hb Hh Hp Hs Hst Hc Hev Hr Hts Ht. apply is_success_range in Hs.
  assert (∀ {S} `{SseTranslator S} (tr : S) st out, push_all tr vs = Ok (st, out) →
    run_egress (egress_url url kind (path (cfg rt))) h b tr =
    Ok {| rx_event := Ok <$> (out ++ (tr_finish st).2);
          upstream_request_id := resp_request_id resp |}) as Heg.
  { intros S Htr tr st out Hpa. unfold run_egress. rewrite Hp. cbn [map_err res_bind].
    rewrite Hs. cbn [negb]. do 2 f_equal.
    rewrite Hst. by eapply wire_decodes. }
  unfold run. simpl. rewrite Hu. simpl. rewrite Hk. simpl. fold ctx.
  unfold translate, connector_body, connector_run in *. fold kind. destruct kind eqn:Ek.
  - apply chat_push_all in Ht as (st & out & Hpa & ->).
    unfold chat_run. rewrite Hb. simpl. simpl in Hh. rewrite Hh. simpl. by apply Heg.
  - apply anthropic_push_all in Ht as (st & out & Hpa & ->).
    unfold anthropic_run. rewrite Hb. simpl. simpl in Hh. rewrite Hh. simpl. by apply Heg.
Qed.
End run.

(** ** Concrete runs *)

Definition utf8_toy : Utf8Errors := {| utf8_error _ := "invalid utf-8" |}.

(** An upstream that answers 200 with one empty chunk object, cut inside the payload, in an
    event with a comment and an [event:] field. *)
Definition events_toy : list (list string) :=
  [[": ping"; "event: chunk"; "data: {}"]; ["data: [DONE]"]; ["data: late"]].
Definition response_toy : Response :=
  {| resp_status := 200; resp_request_id := Some "req-1"; resp_text := None;
     resp_stream := Ok <$> [str_take 30 (wire events_toy); str_drop 30 (wire events_toy) +:+ "data"] |}.

Definition http_toy : HttpClient := {| http_post _ _ _ := Ok response_toy |}.

Definition env_toy : Env := {| env_var _ := None |}.

Definition run_route : Route :=
  {| provider_id := "p";
     cfg := {| connector := ConnChat; base_url := Some "https://x/"; auth := Bearer;
               key_env := None; auth_key := Some "k"; path := None; pmodel := None;
               anthropic_version := None; default_max_tokens := None; prompt_cache := false |} |}.

Definition run_request : ResponsesApiRequest :=
  {| model := "m"; instructions := "hi"; input := []; tools := []; tool_choice := "auto";
     parallel_tool_calls := true; reasoning := None; store := false; stream := true;
     include := []; service_tier := None; prompt_cache_key := None; text := None;
     client_metadata := None |}.

Definition run_toy : Result ResponseStream ApiError :=
  @run ascii_only serde_toy hash_order_id utf8_toy http_toy header_values_id env_toy
    run_route run_request (λ h, h).

Lemma turn_ends_once_witness :
  let sent := @read_task serde_toy utf8_toy _ (@chat_translator serde_toy) ChatSseState_default
                [Ok "data: x"; Ok frame_end; Err "reset"] in
  completions sent = 0 ∧ completions sent + errors sent = 1.
Proof.
  split; [reflexivity|].
  apply (@turn_ends_once serde_toy utf8_toy _ (@chat_translator serde_toy)
           (@chat_translator_laws serde_toy) ChatSseState_default
           [Ok "data: x"; Ok frame_end; Err "reset"] eq_refl).
Defined.

Lemma unframed_bytes_dropped_witness :
  @read_task serde_toy utf8_toy _ (@chat_translator serde_toy) ChatSseState_default
    [Ok ("data: {}" +:+ String carriage_return NL); Ok (String carriage_return NL)] =
  [Ok (Completed "llmswitch-resp-1" None None)].
Proof.
  apply (@unframed_bytes_dropped serde_toy utf8_toy _ (@chat_translator serde_toy) ChatSseState_default
           ["data: {}" +:+ String carriage_return NL; String carriage_return NL]).
  reflexivity.
Defined.

Lemma run_sound_witness :
  ∃ rs, run_toy = Ok rs ∧ completions (rx_event rs) + errors (rx_event rs) = 1.
Proof.
  eexists. split; [reflexivity|].
  destruct (@run_sound ascii_only serde_toy hash_order_id utf8_toy http_toy header_values_id env_toy
    run_route run_request (λ h, h) _ eq_refl) as (url & key & _ & _ & h & b & resp & _ & _ & _ & _ & Hc).
  exact Hc.
Defined.

Lemma run_delivers_witness :
  run_toy = Ok {| rx_event := [Ok (Completed "llmswitch-resp-1" None None)];
                  upstream_request_id := Some "req-1" |}.
Proof.
  eapply (@run_delivers ascii_only serde_toy hash_order_id utf8_toy http_toy header_values_id env_toy
    run_route run_request (λ h, h) "https://x/" (Some "k") _ _ response_toy
    [str_take 30 (wire events_toy); str_drop 30 (wire events_toy) +:+ "data"] events_toy "data" [VObject []]
    [Completed "llmswitch-resp-1" None None]); try reflexivity; [simpl; lia| |left; reflexivity|].
  - repeat constructor; discriminate.
  - constructor; [reflexivity|constructor].
Defined.
