(* ===== verification/CompressConfig.v ===== *)
(** * llm-compress: configuration, command hints, scores and the protection gate

    zmod/llm-compress/src/config.rs, command.rs, score.rs and protect.rs. *)

From S2P Require Import Prelude Str Json Protocol.

(** ** Configuration (config.rs) *)

Record TruncateCfg := { head_lines : nat; tail_lines : nat; max_bytes : nat }.
Record JsonCfg := { use_toon : bool }.
Record DiffCfg := { context_lines : nat }.
Record LogCfg := { keep_levels : list string }.
Record PreprocessCfg := {
  cfg_strip_progress : bool;
  cfg_collapse_blank : bool;
  truncate_line_bytes : nat;
  cfg_dedup_consecutive : bool;
  blob_min_bytes : nat;
}.
Record SearchCfg := { max_per_file : nat; max_files : nat }.
Record ProtectCfg := { error_max_bytes : nat }.

(** Limits of megabytes are binary numbers. *)
Record CcrCfg := {
  ccr_enabled : bool;
  max_files_per_thread : nat;
  max_thread_bytes : N;
  max_file_bytes : N;
}.

Record CompressCfg := {
  c_enabled : bool;
  per_item_min_bytes : nat;
  truncate : TruncateCfg;
  json : JsonCfg;
  diff : DiffCfg;
  log : LogCfg;
  preprocess : PreprocessCfg;
  search : SearchCfg;
  protect : ProtectCfg;
  ccr : CcrCfg;
}.

Definition TruncateCfg_default : TruncateCfg :=
  {| head_lines := 50; tail_lines := 50; max_bytes := 16384 |}.
Definition JsonCfg_default : JsonCfg := {| use_toon := true |}.
Definition DiffCfg_default : DiffCfg := {| context_lines := 3 |}.
Definition LogCfg_default : LogCfg := {| keep_levels := ["error"; "warn"] |}.
Definition PreprocessCfg_default : PreprocessCfg :=
  {| cfg_strip_progress := true; cfg_collapse_blank := true; truncate_line_bytes := 2000;
     cfg_dedup_consecutive := true; blob_min_bytes := 256 |}.
Definition SearchCfg_default : SearchCfg := {| max_per_file := 5; max_files := 15 |}.
Definition ProtectCfg_default : ProtectCfg := {| error_max_bytes := 8192 |}.
Definition CcrCfg_default : CcrCfg :=
  {| ccr_enabled := true; max_files_per_thread := 200; max_thread_bytes := 67108864;
     max_file_bytes := 4194304 |}.

Definition CompressCfg_default : CompressCfg :=
  {| c_enabled := false; per_item_min_bytes := 1024; truncate := TruncateCfg_default;
     json := JsonCfg_default; diff := DiffCfg_default; log := LogCfg_default;
     preprocess := PreprocessCfg_default; search := SearchCfg_default;
     protect := ProtectCfg_default; ccr := CcrCfg_default |}.

Definition disabled : CompressCfg := CompressCfg_default.

(** [toml::from_str::<RootFile>]: the [llm_compress] section, if there is one, with the
    fields it leaves out at their defaults; or the error's text. *)
Class CompressToml := { root_file : string → Result (option CompressCfg) string }.

(** [load_from], on what reading the file gave. *)
Definition load_from `{CompressToml} (file : option string) : CompressCfg :=
  match file with
  | None => disabled
  | Some text =>
      match root_file text with
      | Ok section => default disabled section
      | Err _ => disabled
      end
  end.

(** [load]: [home] is the directory of [HOME], [read] reads a file. *)
Definition load `{CompressToml} (home : option string) (read : string → option string) : CompressCfg :=
  match home with
  | Some h => load_from (read (h +:+ "/.codex/config-zmod.toml"))
  | None => disabled
  end.

(** ** Command hints (command.rs) *)

Record CommandHint := { program : string; argv : list string }.

Definition base_name (p : string) : option string := last (split_char "/"%char p).

Definition one_of (names : list string) (o : option string) : bool :=
  match o with Some s => existsb (str_eqb s) names | None => false end.

Definition is_git_diff (c : CommandHint) : bool :=
  ends_with "git" (program c) && one_of ["diff"; "show"] (head (argv c)).

Definition is_grep (c : CommandHint) : bool :=
  one_of ["grep"; "rg"; "ripgrep"] (base_name (program c)).

Definition is_test_runner (c : CommandHint) : bool :=
  one_of ["pytest"; "jest"; "vitest"; "cargo"; "go"; "rspec"] (base_name (program c)).

Definition quote_char (ch : string) : bool :=
  str_eqb ch (String single_quote EmptyString) || str_eqb ch (String double_quote EmptyString).

Fixpoint shell_loop (cs : list string) (out : list string) (cur : string)
    (quote : option string) (has_token : bool) : list string :=
  match cs with
  | [] => if has_token then out ++ [cur] else out
  | ch :: cs' =>
      match quote with
      | Some q =>
          if str_eqb ch q then shell_loop cs' out cur None has_token
          else shell_loop cs' out (cur +:+ ch) quote has_token
      | None =>
          if quote_char ch then shell_loop cs' out cur (Some ch) true
          else if is_whitespace ch then
            if has_token then shell_loop cs' (out ++ [cur]) EmptyString None false
            else shell_loop cs' out cur None false
          else shell_loop cs' out (cur +:+ ch) None true
      end
  end.

Definition shell_split (line : string) : list string :=
  shell_loop (chars line) [] EmptyString None false.

(** The command line under [key] of a shell tool's arguments, tokenised. *)
Definition command_hint `{SerdeJson} (key arguments : string) : option CommandHint :=
  match from_str arguments with
  | Ok v =>
      match get_str v key with
      | Some line =>
          match shell_split line with
          | program :: argv => Some {| program := program; argv := argv |}
          | [] => None
          end
      | None => None
      end
  | Err _ => None
  end.

Definition parse_hint `{SerdeJson} (name arguments : string) : option CommandHint :=
  if str_eqb name "shell_command" then command_hint "command" arguments
  else if str_eqb name "exec_command" then command_hint "cmd" arguments
  else if str_is_empty name then None
  else Some {| program := name; argv := [] |}.

Definition index_step `{SerdeJson} (map : gmap string CommandHint) (item : ResponseItem) :
  gmap string CommandHint :=
  match item with
  | FunctionCall _ name _ arguments call_id _ =>
      match parse_hint name arguments with
      | Some hint => <[call_id := hint]> map
      | None => map
      end
  | _ => map
  end.

Definition index `{SerdeJson} (request : ResponsesApiRequest) : gmap string CommandHint :=
  foldl index_step ∅ (input request).

(** ** Scores (score.rs), in halves: 2 is the [f32] 1.0, 1 is 0.5 *)

Definition ERROR_KEYWORDS : list string :=
  ["error"; "fail"; "panic"; "exception"; "traceback"; "fatal"].
Definition WARN_KEYWORDS : list string := ["warn"; "warning"].

Definition line_score `{Unicode} (line : string) : nat :=
  let trimmed := trim line in
  if str_is_empty trimmed || negb (existsb is_alphanumeric (chars trimmed)) then 0
  else
    let lower := to_lowercase line in
    if existsb (λ k, contains k lower) ERROR_KEYWORDS then 2
    else if existsb (λ k, contains k lower) WARN_KEYWORDS then 1
    else 0.

(** ** Protection (protect.rs) *)

Definition STRONG_ERROR_MARKERS : list string :=
  ["traceback (most recent call last)"; "panic"; "error:"; "exception"; "fatal:";
   "segmentation fault"].

Definition should_protect `{Unicode} (text : string) (cmd : option CommandHint) (cfg : CompressCfg) : bool :=
  let limit := error_max_bytes (protect cfg) in
  if limit =? 0 then false
  else if limit <=? String.length text then false
  else
    let lower := to_lowercase text in
    let has_error := existsb (λ m, contains m lower) STRONG_ERROR_MARKERS in
    let test_failed := match cmd with Some c => is_test_runner c | None => false end
                       && (contains "fail" lower || contains "error" lower) in
    has_error || test_failed.

(** ** Properties *)

(** The hint of a call is that of the last call with its id that has one. *)
Definition hint_of `{SerdeJson} (cid : string) (item : ResponseItem) : option CommandHint :=
  match item with
  | FunctionCall _ name _ arguments call_id _ =>
      if str_eqb call_id cid then parse_hint name arguments else None
  | _ => None
  end.

(** The command index maps a call id to the hint of the last call in the
    request with that id whose command could be read, and nothing else: a call that
    cannot be parsed is left out without disturbing the others. *)
Theorem index_last_hint `{SerdeJson} req cid :
  index req !! cid = last (omap (hint_of cid) (input req)).
Proof.
  unfold index. induction (input req) as [|item items IH] using rev_ind; [done|].
  rewrite foldl_app, <-opt_or_last, <-IH. simpl.
  destruct item; simpl; try done. destruct (parse_hint name arguments) as [h|].
  - destruct (str_eqb call_id cid) eqn:E.
    + apply str_eqb_true in E as ->. by rewrite lookup_insert_eq.
    + apply str_eqb_false in E. by rewrite lookup_insert_ne.
  - by destruct (str_eqb call_id cid).
Qed.

(** Tokens of words joined by single blanks are the words. *)
Definition plain_char (ch : string) : bool := negb (quote_char ch) && negb (is_whitespace ch).

Lemma shell_loop_word w cs out cur has :
  forallb plain_char w = true →
  shell_loop (w ++ cs) out cur None has =
  shell_loop cs out (cur +:+ concat_str w) None (has || negb (bool_decide (w = []))).
Proof.
  revert cur has; induction w as [|ch w IH]; intros cur has; simpl.
  - rewrite str_app_nil_r, orb_false_r. done.
  - intros [Hc Hw]%andb_true_iff. unfold plain_char in Hc. apply andb_true_iff in Hc as [H1 H2].
    apply negb_true_iff in H1, H2. rewrite H1, H2, IH by done.
    by rewrite <-str_app_assoc, orb_true_r.
Qed.

Lemma shell_loop_quoted w q cs out cur has :
  forallb (λ ch, negb (str_eqb ch q)) w = true →
  shell_loop (w ++ q :: cs) out cur (Some q) has = shell_loop cs out (cur +:+ concat_str w) None has.
Proof.
  revert cur; induction w as [|ch w IH]; intros cur; simpl.
  - by rewrite str_eqb_refl, str_app_nil_r.
  - intros [Hc Hw]%andb_true_iff. apply negb_true_iff in Hc. rewrite Hc, IH by done.
    by rewrite <-str_app_assoc.
Qed.

(** A word, bare or between quotes, as the characters of a command line. *)
Inductive Word :=
| Bare (w : list string)
| Quoted (q : string) (w : list string).

Definition word_ok (w : Word) : bool :=
  match w with
  | Bare w => negb (bool_decide (w = [])) && forallb plain_char w
  | Quoted q w => quote_char q && forallb (λ ch, negb (str_eqb ch q)) w
  end.

Definition word_chars (w : Word) : list string :=
  match w with Bare w => w | Quoted q w => q :: w ++ [q] end.

Definition word_text (w : Word) : string :=
  concat_str (match w with Bare w => w | Quoted _ w => w end).

Definition words_line (ws : list Word) : list string := ws ≫= λ w, word_chars w ++ [" "].

Lemma shell_loop_words ws out :
  forallb word_ok ws = true →
  shell_loop (words_line ws) out EmptyString None false = out ++ (word_text <$> ws).
Proof.
  revert out; induction ws as [|w ws IH]; intros out; [by rewrite app_nil_r|].
  cbn [forallb]. intros [Hw Hws]%andb_true_iff. unfold words_line. rewrite bind_cons, <-app_assoc.
  destruct w as [w|q w]; cbn [word_ok word_chars] in *; apply andb_true_iff in Hw as [H1 H2].
  - rewrite shell_loop_word by done. apply negb_true_iff in H1. rewrite H1, str_app_nil_l.
    cbn [app]. change (shell_loop (" " :: words_line ws) out (concat_str w) None true = out ++ (word_text <$> Bare w :: ws)).
    cbn [shell_loop]. change (quote_char " ") with false. change (is_whitespace " ") with true.
    cbv iota. rewrite IH by done. by rewrite <-app_assoc.
  - cbn [app]. rewrite <-app_assoc. cbn [app shell_loop]. rewrite H1.
    rewrite shell_loop_quoted by done. rewrite str_app_nil_l.
    cbn [shell_loop]. change (quote_char " ") with false. change (is_whitespace " ") with true.
    cbv iota. fold (words_line ws). rewrite IH by done. by rewrite <-app_assoc.
Qed.

(** Tokenising undoes quoting: a command line made of words, each bare (no
    blank or quote in it) or between matching quotes (with anything but that quote
    inside), splits into exactly those words. *)
Theorem shell_split_words ws :
  forallb word_ok ws = true → forallb char_ok (words_line ws) = true →
  shell_split (concat_str (words_line ws)) = word_text <$> ws.
Proof.
  intros Hw Hc. unfold shell_split. pose proof (chars_concat _ EmptyString Hc) as Hch.
  rewrite str_app_nil_r in Hch. rewrite Hch, app_nil_r. by apply shell_loop_words.
Qed.

Lemma shell_split_words_witness :
  let ws := [Bare ["r"; "g"]; Quoted (String double_quote EmptyString) ["a"; " "; "行"]; Bare ["x"]] in
  shell_split (concat_str (words_line ws)) = ["rg"; "a 行"; "x"].
Proof.
  apply (shell_split_words
    [Bare ["r"; "g"]; Quoted (String double_quote EmptyString) ["a"; " "; "行"]; Bare ["x"]]);
    vm_compute; reflexivity.
Defined.

Example line_score_examples :
  @line_score ascii_only "  --- " = 0 ∧ @line_score ascii_only "Warning: x" = 1 ∧
  @line_score ascii_only "E: FATAL y" = 2.
Proof. repeat split; vm_compute; reflexivity. Qed.
