(* ===== verification/Router.v ===== *)
(** * llm-compress: the content router

    zmod/llm-compress/src/router.rs.  A compressor may panic ([catch_unwind]), so its
    operations return a [Call].  The router's theorems are proved against the interface
    [CompressorOk], which each compressor discharges. *)

From S2P Require Import Prelude Str Json Protocol CompressConfig.

Inductive ContentKind := KText | KJson | KToon.

#[global] Instance ContentKind_eq_dec : EqDecision ContentKind.
Proof. solve_decision. Defined.

Record Budget := { budget_cfg : CompressCfg; budget_cmd : option CommandHint }.

Inductive CompressOutcome :=
| Compressed (text : string) (saved_bytes : nat) (lossy : bool) (kind : ContentKind)
| Unchanged.

(** A call that returns or unwinds. *)
Inductive Call (A : Type) :=
| Returned (a : A)
| Panicked.
Arguments Returned {A} a.
Arguments Panicked {A}.

Definition call_bind {A B} (m : Call A) (k : A → Call B) : Call B :=
  match m with Returned a => k a | Panicked => Panicked end.

Notation "'let!' x ':=' m 'in' k" := (call_bind m (λ x, k))
  (at level 10, x binder, m at level 100, k at level 200) : codez_scope.

(** [catch_unwind(..).unwrap_or(d)] *)
Definition unwrap_or {A} (d : A) (m : Call A) : A :=
  match m with Returned a => a | Panicked => d end.

(** The trait [Compressor]. *)
Record Compressor := {
  cname : string;
  detect : string → Budget → Call bool;
  compress : string → Budget → Call CompressOutcome;
}.

Definition preferred (budget : Budget) : option string :=
  match budget_cmd budget with
  | Some c => if is_git_diff c then Some "diff" else if is_grep c then Some "search" else None
  | None => None
  end.

(** [position(|c| c.name() == name)] *)
Fixpoint position (name : string) (cs : list Compressor) : option nat :=
  match cs with
  | [] => None
  | c :: cs' => if str_eqb (cname c) name then Some 0 else S <$> position name cs'
  end.

(** The candidate order: the preferred compressor first, the rest in their order. *)
Definition candidate_order (cs : list Compressor) (budget : Budget) : list nat :=
  let order := seq 0 (length cs) in
  match preferred budget with
  | Some name =>
      match position name cs with
      | Some pos =>
          match order !! pos with
          | Some idx => idx :: delete pos order
          | None => order
          end
      | None => order
      end
  | None => order
  end.

Definition detects (cs : list Compressor) (text : string) (budget : Budget) (i : nat) : bool :=
  match cs !! i with
  | Some c => unwrap_or false (detect c text budget)
  | None => false
  end.

Definition compress_text (cs : list Compressor) (text : string) (budget : Budget) :
  option (string * bool * ContentKind) :=
  match head (List.filter (detects cs text budget) (candidate_order cs budget)) ≫= λ i, cs !! i with
  | None => None
  | Some c =>
      match compress c text budget with
      | Returned (Compressed new saved_bytes lossy kind) =>
          if 0 <? saved_bytes then Some (new, lossy, kind) else None
      | Returned Unchanged => None
      | Panicked => None
      end
  end.

(** ** The interface *)

(** What a compressor promises: an outcome is the input made shorter by exactly
    [saved_bytes], at least one byte; a product is either a lossless TOON document or a
    lossy text; nothing is ever emitted as JSON. *)
Class CompressorOk (c : Compressor) : Prop := {
  compress_saves : ∀ text budget new saved lossy kind,
    compress c text budget = Returned (Compressed new saved lossy kind) →
    String.length new + saved = String.length text ∧ 0 < saved;
  compress_kind : ∀ text budget new saved lossy kind,
    compress c text budget = Returned (Compressed new saved lossy kind) →
    (kind = KToon ∧ lossy = false) ∨ (kind = KText ∧ lossy = true);
}.

(** To discharge the interface: a product is shorter and [saved] is the difference. *)
Lemma compressor_ok_intro c :
  (∀ text budget new saved lossy kind,
     compress c text budget = Returned (Compressed new saved lossy kind) →
     String.length new < String.length text ∧ saved = String.length text - String.length new ∧
     ((kind = KToon ∧ lossy = false) ∨ (kind = KText ∧ lossy = true))) →
  CompressorOk c.
Proof.
  intros Hc. split; intros text budget new saved lossy kind (H1 & H2 & H3)%Hc; [lia|done].
Qed.

(** ** Properties *)

Lemma compress_text_some cs text budget r :
  compress_text cs text budget = Some r →
  ∃ c saved, c ∈ cs ∧ detect c text budget = Returned true ∧
    compress c text budget = Returned (Compressed r.1.1 saved r.1.2 r.2) ∧ 0 < saved.
Proof.
  unfold compress_text. destruct (List.filter _ _) as [|i l] eqn:Ef; [done|]. simpl.
  destruct (cs !! i) as [c|] eqn:Ec; [|done]. intros Hr. exists c.
  assert (detects cs text budget i = true) as Hd.
  { assert (In i (List.filter (detects cs text budget) (candidate_order cs budget))) as Hin
      by (rewrite Ef; left; done). by apply filter_In in Hin as [_ ?]. }
  unfold detects in Hd. rewrite Ec in Hd. destruct (detect c text budget) as [[]|]; try done.
  destruct (compress c text budget) as [[new saved lossy kind|]|]; try done.
  destruct (Nat.ltb_spec 0 saved); [|done]. simplify_eq/=.
  exists saved. split_and!; try done. by eapply list_elem_of_lookup_2.
Qed.

Lemma position_some name cs pos :
  position name cs = Some pos → ∃ c, cs !! pos = Some c ∧ cname c = name.
Proof.
  revert pos; induction cs as [|c cs IH]; intros pos; simpl; [done|].
  destruct (str_eqb (cname c) name) eqn:E.
  - apply str_eqb_true in E. intros; simplify_eq. by exists c.
  - destruct (position name cs) as [p|]; [|done]. intros; simplify_eq/=. by apply IH.
Qed.

Lemma candidate_order_perm cs budget : candidate_order cs budget ≡ₚ seq 0 (length cs).
Proof.
  unfold candidate_order. destruct (preferred budget) as [name|]; [|done].
  destruct (position name cs) as [pos|]; [|done].
  destruct (seq 0 (length cs) !! pos) as [idx|] eqn:E; [|done].
  symmetry. by apply delete_Permutation.
Qed.

(** *** Selection by position and by compressor agree *)

Lemma filter_fmap {A B} (f : A → B) (q : B → bool) l :
  List.filter q (f <$> l) = f <$> List.filter (λ x, q (f x)) l.
Proof.
  induction l as [|x l IH]; [done|]. rewrite fmap_cons. cbn [List.filter]. rewrite IH.
  by destruct (q (f x)).
Qed.

Lemma head_filter_seq {A} (p : A → bool) (l : list A) :
  head (List.filter (λ i, match l !! i with Some x => p x | None => false end) (seq 0 (length l)))
    ≫= (λ i, l !! i) = head (List.filter p l).
Proof.
  induction l as [|x l IH]; [done|].
  cbn [length seq]. rewrite <-(fmap_S_seq 0). cbn [List.filter lookup list_lookup].
  destruct (p x) eqn:E; [done|]. rewrite filter_fmap. rewrite <-IH. cbn [lookup list_lookup].
  by destruct (List.filter _ _).
Qed.

Lemma filter_delete_false {A} (q : A → bool) l i x :
  l !! i = Some x → q x = false → List.filter q (delete i l) = List.filter q l.
Proof.
  revert i; induction l as [|y l IH]; intros [|i] Hi Hx; simplify_eq/=.
  - by rewrite Hx.
  - by rewrite IH.
Qed.

Definition hits (cs : list Compressor) (text : string) (budget : Budget) : list Compressor :=
  List.filter (λ c, unwrap_or false (detect c text budget)) cs.

(** The compressor the router means: the preferred one if it claims the text, else the
    first in the fixed priority that does. *)
Definition selected (cs : list Compressor) (text : string) (budget : Budget) : option Compressor :=
  match preferred budget ≫= λ name, List.find (λ c, str_eqb (cname c) name) (hits cs text budget) with
  | Some c => Some c
  | None => head (hits cs text budget)
  end.

Lemma find_name_hits cs text budget c :
  NoDup (cname <$> cs) → c ∈ cs →
  List.find (λ d, str_eqb (cname d) (cname c)) (hits cs text budget) =
  if unwrap_or false (detect c text budget) then Some c else None.
Proof.
  unfold hits. induction cs as [|d cs IH]; [set_solver|]. rewrite fmap_cons.
  intros [Hd Hnd]%NoDup_cons [->|Hc]%elem_of_cons; cbn [List.filter].
  - destruct (unwrap_or false _) eqn:E; cbn [List.find]; [by rewrite str_eqb_refl|].
    destruct (List.find _ _) as [d'|] eqn:Ef; [|done]. apply List.find_some in Ef as [Hin Hn].
    apply filter_In in Hin as [Hin _]. apply str_eqb_true in Hn. destruct Hd.
    rewrite <-Hn. apply list_elem_of_fmap_2. by apply list_elem_of_In.
  - assert (cname d ≠ cname c) as Hne.
    { intros Heq. apply Hd. rewrite Heq. by apply list_elem_of_fmap_2. }
    destruct (unwrap_or false (detect d text budget)); [|by apply IH]. cbn [List.find].
    rewrite (proj2 (str_eqb_false _ _)) by done. by apply IH.
Qed.

Lemma find_name_none cs text budget name :
  position name cs = None →
  List.find (λ d, str_eqb (cname d) name) (hits cs text budget) = None.
Proof.
  unfold hits. induction cs as [|c cs IH]; simpl; [done|].
  destruct (str_eqb (cname c) name) eqn:E; [done|].
  destruct (position name cs); [done|]. intros _.
  destruct (unwrap_or false _); simpl; rewrite ?E; auto.
Qed.

Lemma candidate_selected cs text budget :
  NoDup (cname <$> cs) →
  head (List.filter (detects cs text budget) (candidate_order cs budget)) ≫= (λ i, cs !! i) =
  selected cs text budget.
Proof.
  intros Hnd. unfold candidate_order, selected.
  pose proof (head_filter_seq (λ c, unwrap_or false (detect c text budget)) cs) as Hhead.
  fold (hits cs text budget) in Hhead. fold (detects cs text budget) in Hhead.
  destruct (preferred budget) as [name|]; simpl; [|done].
  destruct (position name cs) as [pos|] eqn:Ep; [|by rewrite find_name_none].
  apply position_some in Ep as (c & Hc & <-).
  rewrite find_name_hits by (done || by eapply list_elem_of_lookup_2).
  assert (seq 0 (length cs) !! pos = Some pos) as Hs.
  { rewrite lookup_seq. split; [done|]. by eapply lookup_lt_Some. }
  rewrite Hs. cbn [List.filter].
  assert (detects cs text budget pos = unwrap_or false (detect c text budget)) as Hd
    by (unfold detects; by rewrite Hc).
  destruct (unwrap_or false _) eqn:E; rewrite Hd; [done|].
  by rewrite (filter_delete_false _ _ _ _ Hs Hd).
Qed.

(** The router's index shuffling means what the design says: the compressor
    the command calls for if it claims the text, otherwise the first of the fixed
    priority that does (a [detect] that panics does not claim); its product is used only
    if it saves bytes, and a panic while compressing leaves the text alone. *)
Theorem router_selects cs text budget :
  NoDup (cname <$> cs) →
  compress_text cs text budget =
  match selected cs text budget with
  | Some c =>
      match compress c text budget with
      | Returned (Compressed new saved lossy kind) => if 0 <? saved then Some (new, lossy, kind) else None
      | _ => None
      end
  | None => None
  end.
Proof.
  intros Hnd. unfold compress_text. rewrite candidate_selected by done.
  destruct (selected _ _ _) as [c|]; [|done].
  by destruct (compress c text budget) as [[]|].
Qed.

(** Every product of a router over well-behaved compressors is strictly smaller than the
    text, and is a lossless TOON document or a lossy text. *)
Lemma compress_text_ok cs text budget new lossy kind :
  Forall CompressorOk cs → compress_text cs text budget = Some (new, lossy, kind) →
  String.length new < String.length text ∧
  ((kind = KToon ∧ lossy = false) ∨ (kind = KText ∧ lossy = true)).
Proof.
  intros Hcs (c & saved & Hin & _ & Hc & Hs)%compress_text_some. simpl in Hc.
  rewrite Forall_forall in Hcs. specialize (Hcs c Hin).
  pose proof (compress_saves _ _ _ _ _ _ Hc) as [? ?].
  split; [lia|]. by eapply compress_kind.
Qed.
