(* ===== verification/Collapse.v ===== *)
(** * llm-compress: folding dropped lines

    The loop that the diff, log and search compressors share: kept lines are copied, each
    maximal run of dropped lines becomes one placeholder that says how many.  Nothing is
    lost but the dropped lines themselves: positions, order and counts can be recovered. *)

From S2P Require Import Prelude Str.

Inductive Tok := Kept (line : string) | Skipped (n : nat).

(** The [while] loop over [lines] with its [keep] flags; [run] counts the dropped lines
    since the last kept one. *)
Fixpoint collapse (run : nat) (l : list (bool * string)) : list Tok :=
  match l with
  | [] => if run =? 0 then [] else [Skipped run]
  | (true, line) :: l' => (if run =? 0 then [] else [Skipped run]) ++ Kept line :: collapse 0 l'
  | (false, _) :: l' => collapse (S run) l'
  end.

Definition render (marker : nat → string) (t : Tok) : string :=
  match t with Kept line => line | Skipped n => marker n end.

(** Every line of the original: the line if it was kept, [None] if it was dropped. *)
Definition expand (ts : list Tok) : list (option string) :=
  ts ≫= λ t, match t with Kept line => [Some line] | Skipped n => replicate n None end.

Definition flagged (p : bool * string) : option string := if p.1 then Some p.2 else None.

(** No placeholder is empty and no two are adjacent. *)
Fixpoint maximal (prev_skipped : bool) (ts : list Tok) : bool :=
  match ts with
  | [] => true
  | Kept _ :: ts' => maximal false ts'
  | Skipped n :: ts' => negb prev_skipped && (0 <? n) && maximal true ts'
  end.

Lemma expand_app ts us : expand (ts ++ us) = expand ts ++ expand us.
Proof. unfold expand. by rewrite bind_app. Qed.

Lemma replicate_snoc_none n : replicate (S n) (None : option string) = replicate n None ++ [None].
Proof. by rewrite <-replicate_S_end. Qed.

Lemma collapse_expand run l : expand (collapse run l) = replicate run None ++ (flagged <$> l).
Proof.
  revert run; induction l as [|[[] line] l IH]; intros run.
  - destruct run; simpl; [done|]. by rewrite app_nil_r.
  - cbn [collapse]. rewrite expand_app.
    change (expand (Kept line :: collapse 0 l)) with (Some line :: expand (collapse 0 l)).
    rewrite IH. destruct run; simpl; [done|]. by rewrite app_nil_r.
  - cbn [collapse]. rewrite IH, replicate_snoc_none, <-app_assoc. done.
Qed.

Lemma collapse_maximal run l b :
  (b = true → run = 0 ∧ ∃ x l', l = (true, x) :: l') → maximal b (collapse run l) = true.
Proof.
  revert run b; induction l as [|[[] line] l IH]; intros run b Hb; cbn [collapse].
  - destruct run; [done|]. destruct b; [|done]. destruct Hb as [? _]; done.
  - destruct run; simpl; [by apply IH|]. destruct b; [by destruct Hb|]. simpl. by apply IH.
  - destruct b; [destruct Hb as (_ & ? & ? & ?); done|]. by apply IH.
Qed.

(** The kept lines, in order, and the number of dropped ones. *)
Definition kept (ts : list Tok) : list string :=
  omap (λ t, match t with Kept line => Some line | Skipped _ => None end) ts.

Definition skipped (ts : list Tok) : nat :=
  sum_list_with (λ t, match t with Kept _ => 0 | Skipped n => n end) ts.

Lemma kept_expand ts : kept ts = omap id (expand ts).
Proof.
  induction ts as [|[line|n] ts IH]; [done| |].
  - simpl. by rewrite IH.
  - unfold expand. rewrite bind_cons, omap_app. fold (expand ts). rewrite <-IH.
    replace (omap id (replicate n None)) with (@nil string); [done|]. by induction n.
Qed.

Lemma collapse_kept l : kept (collapse 0 l) = omap flagged l.
Proof.
  rewrite kept_expand, collapse_expand. cbn [replicate app].
  induction l as [|p l IH]; [done|]. rewrite fmap_cons. cbn [omap list_omap].
  unfold id at 1. destruct (flagged p); by rewrite IH.
Qed.

Lemma length_expand ts : length (expand ts) = length (kept ts) + skipped ts.
Proof.
  induction ts as [|[line|n] ts IH]; [done| |].
  - simpl. by rewrite IH.
  - unfold expand. rewrite bind_cons, length_app, length_replicate. fold (expand ts). rewrite IH.
    unfold skipped. simpl. change (omap _ ts) with (kept ts). lia.
Qed.

Lemma collapse_all_kept l : forallb fst l = true → collapse 0 l = Kept <$> l.*2.
Proof.
  induction l as [|[[] line] l IH]; simpl; try done. intros H. by rewrite IH.
Qed.

(** A placeholder appears exactly when a line was dropped. *)
Definition any_skipped (ts : list Tok) : bool :=
  existsb (λ t, match t with Kept _ => false | Skipped _ => true end) ts.

Lemma any_skipped_collapse run l :
  any_skipped (collapse run l) = (0 <? run) || existsb (λ p, negb p.1) l.
Proof.
  unfold any_skipped. revert run; induction l as [|[[] line] l IH]; intros run; cbn [collapse].
  - by destruct run.
  - rewrite existsb_app. cbn [existsb]. rewrite IH. by destruct run.
  - rewrite IH. by destruct run.
Qed.
