(* ===== verification/Truncate.v ===== *)
(** * llm-compress: the fallback truncator

    zmod/llm-compress/src/compress/truncate.rs. *)

From S2P Require Import Prelude Str Json Protocol CompressConfig Router.

Definition ESC : ascii := "027"%char.

(** The loop of [strip_ansi]; [csi] is set while the bytes of a CSI sequence are skipped. *)
Fixpoint strip_bytes (csi : bool) (bytes : list ascii) : list ascii :=
  match bytes with
  | [] => []
  | b :: r =>
      if csi then
        if in_range 64 126 b then strip_bytes false r else strip_bytes true r
      else if byte_eqb b ESC then
        match r with
        | [] => []
        | b2 :: r2 => if byte_eqb b2 "["%char then strip_bytes true r2 else strip_bytes false r2
        end
      else b :: strip_bytes false r
  end.

Definition strip_ansi (input : string) : string :=
  let out := of_bytes (strip_bytes false (as_bytes input)) in
  if utf8_valid out then out else input.

Definition head_tail_marker (omitted_lines omitted_bytes : nat) : string :=
  "[llm-compress: 略 " +:+ (fmt_nat omitted_lines +:+ (" 行 / " +:+ (fmt_nat omitted_bytes +:+ " 字节]"))).

Definition build_head_tail (lines : list string) (head tail : nat) : string :=
  let n := length lines in
  if n <=? head + tail then join NL lines
  else
    let head_part := take head lines in
    let tail_part := drop (n - tail) lines in
    let omitted := drop head (take (n - tail) lines) in
    let omitted_lines := length omitted in
    let omitted_bytes := sum_len omitted + (if 0 <? omitted_lines then omitted_lines - 1 else 0) in
    join NL (head_part ++ head_tail_marker omitted_lines omitted_bytes :: tail_part).

Definition SUFFIX : string := NL +:+ "[llm-compress: 截断至 max_bytes]".

Definition hard_truncate (text : string) (max_bytes : nat) : string :=
  let budget := max_bytes - String.length SUFFIX in
  cut_at budget text +:+ SUFFIX.

Definition truncate_compress (text : string) (budget : Budget) : CompressOutcome :=
  let cfg := truncate (budget_cfg budget) in
  let cleaned := strip_ansi text in
  let lines := split_char newline cleaned in
  if (length lines <=? head_lines cfg + tail_lines cfg) &&
     (String.length cleaned <=? max_bytes cfg) then Unchanged
  else
    let result := build_head_tail lines (head_lines cfg) (tail_lines cfg) in
    let result := if max_bytes cfg <? String.length result
                  then hard_truncate result (max_bytes cfg) else result in
    if String.length result <? String.length text
    then Compressed result (String.length text - String.length result) true KText
    else Unchanged.

Definition TruncateCompressor : Compressor :=
  {| cname := "truncate"; detect _ _ := Returned true;
     compress text budget := Returned (truncate_compress text budget) |}.

#[global] Instance truncate_ok : CompressorOk TruncateCompressor.
Proof.
  apply compressor_ok_intro. simpl. intros text budget new saved lossy kind Hc. injection Hc.
  unfold truncate_compress. destruct (_ && _); [done|]. cbv zeta.
  match goal with |- context [String.length ?r <? String.length text] =>
    destruct (Nat.ltb_spec (String.length r) (String.length text)) end; [|done].
  intros; simplify_eq. auto.
Qed.

(** ** Escape sequences *)

Lemma strip_bytes_no_esc csi bs : existsb (byte_eqb ESC) (strip_bytes csi bs) = false.
Proof.
  assert (∀ n bs csi, length bs ≤ n → existsb (byte_eqb ESC) (strip_bytes csi bs) = false) as Haux.
  { clear. induction n as [|n IH]; intros [|b r] csi Hn; simpl in *; try done; [lia|].
    destruct csi; [destruct (in_range 64 126 b); apply IH; lia|].
    destruct (byte_eqb b ESC) eqn:E.
    - destruct r as [|b2 r2]; [done|]. simpl in Hn. destruct (byte_eqb b2 _); apply IH; lia.
    - simpl. rewrite IH by lia. apply byte_eqb_false in E.
      rewrite (proj2 (byte_eqb_false ESC b)); [done|congruence]. }
  by apply (Haux (length bs)).
Qed.

Lemma strip_bytes_id bs : existsb (byte_eqb ESC) bs = false → strip_bytes false bs = bs.
Proof.
  induction bs as [|b r IH]; simpl; [done|]. intros [Hb Hr]%orb_false_iff.
  apply byte_eqb_false in Hb. rewrite (proj2 (byte_eqb_false b ESC)) by congruence.
  by rewrite IH.
Qed.

Lemma strip_bytes_length csi bs : length (strip_bytes csi bs) ≤ length bs.
Proof.
  assert (∀ n bs csi, length bs ≤ n → length (strip_bytes csi bs) ≤ length bs) as Haux.
  { clear. induction n as [|n IH]; intros [|b r] csi Hn; simpl in *; try lia.
    destruct csi.
    { destruct (in_range 64 126 b);
        [pose proof (IH r false ltac:(lia))|pose proof (IH r true ltac:(lia))]; lia. }
    destruct (byte_eqb b ESC).
    - destruct r as [|b2 r2]; simpl in *; [lia|].
      destruct (byte_eqb b2 _); [pose proof (IH r2 true ltac:(lia))|pose proof (IH r2 false ltac:(lia))]; lia.
    - simpl. pose proof (IH r false ltac:(lia)). lia. }
  by apply (Haux (length bs)).
Qed.

Lemma strip_ansi_length s : String.length (strip_ansi s) ≤ String.length s.
Proof.
  unfold strip_ansi. destruct (utf8_valid _); [|done].
  rewrite length_of_bytes, <-(length_as_bytes s). apply strip_bytes_length.
Qed.

Lemma strip_ansi_valid s : utf8_valid s = true → utf8_valid (strip_ansi s) = true.
Proof. unfold strip_ansi. by destruct (utf8_valid (of_bytes _)) eqn:E. Qed.

(** Stripping escapes yields either the unchanged input or a text without any
    escape byte; a text that has none is not touched, and stripping twice is stripping
    once. *)
Theorem strip_ansi_spec s :
  (strip_ansi s = s ∨ contains_char ESC (strip_ansi s) = false) ∧
  (contains_char ESC s = false → strip_ansi s = s) ∧
  strip_ansi (strip_ansi s) = strip_ansi s.
Proof.
  assert (∀ t, contains_char ESC t = false → strip_ansi t = t) as Hid.
  { intros t Ht. unfold strip_ansi, contains_char in *. rewrite strip_bytes_id by done.
    rewrite of_as_bytes. by destruct (utf8_valid t). }
  assert (strip_ansi s = s ∨ contains_char ESC (strip_ansi s) = false) as Hor.
  { unfold strip_ansi. destruct (utf8_valid _); [right|by left].
    unfold contains_char. rewrite as_of_bytes. apply strip_bytes_no_esc. }
  split_and!; [done|apply Hid|]. destruct Hor as [Heq|Hno]; [by rewrite !Heq|by apply Hid].
Qed.

(** ** Bounds *)

(** A cut at a newline is a cut between characters. *)
Lemma utf8_valid_cons_nl s : utf8_valid (String newline s) = utf8_valid s.
Proof. done. Qed.

Lemma split_valid s : utf8_valid s = true → Forall (λ x, utf8_valid x = true) (split_char newline s).
Proof.
  unfold utf8_valid at 1. intros Hs. rewrite <-(concat_str_chars s).
  induction (chars s) as [|c cs IH]; [by repeat constructor|]. cbn [forallb] in Hs.
  apply andb_true_iff in Hs as [Hc Hcs]. specialize (IH Hcs). cbn [concat_str foldr].
  fold (concat_str cs). set (t := concat_str cs) in *. clearbody t.
  assert (c = NL ∨ contains_char newline c = false) as Hcase.
  { unfold char_ok in Hc. apply bool_decide_eq_true in Hc.
    destruct c as [|a [|b [|d [|e [|f c]]]]]; try done.
    - destruct (byte_eqb newline a) eqn:E.
      + apply byte_eqb_true in E as <-. by left.
      + right. unfold contains_char. simpl. by rewrite E.
    - right. by apply multibyte_no_newline.
    - right. by apply multibyte_no_newline.
    - right. by apply multibyte_no_newline.
    - apply utf8_width_bounds in Hc. simpl in Hc. lia. }
  destruct Hcase as [->|Hno].
  - constructor; [done|]. exact IH.
  - destruct (split_char newline t) as [|x l] eqn:Ex; [by apply split_char_nonempty in Ex|].
    inversion IH; subst. rewrite (split_char_app_word newline c t x l) by done.
    constructor; [|done]. apply utf8_valid_app; [|done].
    rewrite <-(str_app_nil_r c). apply (utf8_valid_concat [c]). simpl. by rewrite Hc.
Qed.

Lemma fmt_nat_valid n : utf8_valid (fmt_nat n) = true.
Proof.
  assert (∀ s, is_ascii s = true → utf8_valid s = true) as Hascii.
  { induction s as [|a s IH]; [done|]. unfold is_ascii. simpl. intros [Ha Hs]%andb_true_iff.
    change (String a s) with (String a EmptyString +:+ s). apply utf8_valid_app; [|by apply IH].
    unfold utf8_valid. simpl. rewrite Ha. unfold char_ok. simpl. by rewrite Ha. }
  apply Hascii. unfold fmt_nat, is_ascii. unfold pretty, pretty_nat, pretty, pretty_N.
  case_decide; [done|].
  assert (∀ x s, is_ascii s = true → is_ascii (pretty_N_go x s) = true) as Haux.
  { clear. intros x s. revert s. induction (N.lt_wf_0 x) as [x _ IH]; intros s Hs.
    destruct (decide (0 < x)%N).
    - rewrite pretty_N_go_step by done. apply IH; [by apply N.div_lt|].
      unfold is_ascii in *. simpl. rewrite Hs, andb_true_r.
      unfold pretty_N_char. by repeat case_match.
    - assert (x = 0%N) as -> by lia. done. }
  by apply Haux.
Qed.

Lemma head_tail_marker_valid n m : utf8_valid (head_tail_marker n m) = true.
Proof.
  unfold head_tail_marker.
  repeat (apply utf8_valid_app; [first [apply fmt_nat_valid|reflexivity]|]). reflexivity.
Qed.

Lemma build_head_tail_valid ls h t :
  Forall (λ x, utf8_valid x = true) ls → utf8_valid (build_head_tail ls h t) = true.
Proof.
  intros Hl. unfold build_head_tail. destruct (_ <=? _); [by apply join_valid|].
  apply join_valid, Forall_app. split; [by apply Forall_take|].
  constructor; [apply head_tail_marker_valid|by apply Forall_drop].
Qed.

(** A truncated output is within bounds and still text: it is at most
    [max_bytes] long (or just the truncation mark, when even that does not fit), shorter
    than the input, and well-formed UTF-8 if the input was. *)
Theorem truncate_bounds text budget new saved lossy kind :
  truncate_compress text budget = Compressed new saved lossy kind →
  utf8_valid text = true →
  String.length new ≤ max (max_bytes (truncate (budget_cfg budget))) (String.length SUFFIX) ∧
  String.length new + saved = String.length text ∧ 0 < saved ∧ utf8_valid new = true.
Proof.
  unfold truncate_compress. destruct (_ && _); [done|]. cbv zeta.
  set (cfg := truncate (budget_cfg budget)).
  set (r := build_head_tail _ _ _).
  intros Hc Hv.
  assert (utf8_valid r = true) as Hr
    by (apply build_head_tail_valid, split_valid, strip_ansi_valid, Hv).
  assert (utf8_valid (hard_truncate r (max_bytes cfg)) = true) as Hh.
  { unfold hard_truncate. apply utf8_valid_app; [by apply cut_at_valid|reflexivity]. }
  assert (String.length (hard_truncate r (max_bytes cfg)) ≤ max (max_bytes cfg) (String.length SUFFIX)) as Hl.
  { unfold hard_truncate. rewrite str_len_app.
    destruct (cut_at_spec (max_bytes cfg - String.length SUFFIX) r) as (k & _ & Hk & _). lia. }
  destruct (Nat.ltb_spec (max_bytes cfg) (String.length r)).
  - destruct (Nat.ltb_spec (String.length (hard_truncate r (max_bytes cfg))) (String.length text)); [|done].
    simplify_eq. split_and!; [done|lia|lia|done].
  - destruct (Nat.ltb_spec (String.length r) (String.length text)); [|done].
    simplify_eq. split_and!; [lia|lia|lia|done].
Qed.

Definition small_budget : Budget :=
  {| budget_cfg := {| c_enabled := true; per_item_min_bytes := 1;
       truncate := {| head_lines := 1; tail_lines := 1; max_bytes := 60 |};
       json := JsonCfg_default; diff := DiffCfg_default; log := LogCfg_default;
       preprocess := PreprocessCfg_default; search := SearchCfg_default;
       protect := ProtectCfg_default; ccr := CcrCfg_default |};
     budget_cmd := None |}.

Definition long_text : string :=
  join NL ["first"; "a long line in the middle"; "行行行行行行行行行行行行"; "last"].

Lemma truncate_bounds_witness :
  ∃ new saved, truncate_compress long_text small_budget = Compressed new saved true KText ∧
    String.length new ≤ 60 ∧ utf8_valid new = true.
Proof.
  destruct (truncate_compress long_text small_budget) as [new saved lossy kind|] eqn:E.
  - destruct (truncate_bounds long_text small_budget new saved lossy kind E eq_refl)
      as (Hl & _ & _ & Hv).
    exists new, saved. vm_compute in E. injection E as <- <- <- <-. split_and!; [reflexivity|exact Hl|exact Hv].
  - vm_compute in E. discriminate E.
Defined.

(** The head, a mark that counts the omitted lines and bytes, and the tail. *)
Example build_head_tail_example :
  build_head_tail ["a"; "bb"; "ccc"; "d"] 1 1 =
  join NL ["a"; "[llm-compress: 略 2 行 / 6 字节]"; "d"].
Proof. vm_compute. reflexivity. Qed.

(** An escape byte in front of a multi-byte character: one byte of the character goes
    with it, the rest is no UTF-8, and the whole input comes back with its colours. *)
Theorem strip_ansi_falls_back :
  let input := (String ESC "[0mx" +:+ String ESC "行")%string in
  utf8_valid input = true ∧ strip_ansi input = input ∧
  utf8_valid (of_bytes (strip_bytes false (as_bytes input))) = false.
Proof. repeat split; vm_compute; reflexivity. Qed.
