(* ===== verification/Diff.v ===== *)
(** * llm-compress: unified diffs

    zmod/llm-compress/src/compress/diff.rs. *)

From S2P Require Import Prelude Str Json Protocol CompressConfig Router Collapse.

(** The digits at the front of a string, removed. *)
Definition digits_len (s : string) : nat := length (take_while is_ascii_digit (as_bytes s)).

Definition consume_range (s : string) : option string :=
  let first_len := digits_len s in
  if first_len =? 0 then None
  else
    let s := str_drop first_len s in
    match strip_prefix "," s with
    | Some after_comma =>
        let len := digits_len after_comma in
        if len =? 0 then None else Some (str_drop len after_comma)
    | None => Some s
    end.

Definition is_hunk_header (line : string) : bool :=
  match strip_prefix "@@ -" line with
  | None => false
  | Some rest =>
      match consume_range rest with
      | None => false
      | Some rest =>
          match strip_prefix " " rest with
          | None => false
          | Some rest =>
              match strip_prefix "+" rest with
              | None => false
              | Some rest =>
                  match consume_range rest with
                  | None => false
                  | Some rest => starts_with " @@" rest
                  end
              end
          end
      end
  end.

Definition is_change_line (line : string) : bool :=
  if starts_with "+++ " line || starts_with "--- " line then false
  else starts_with "+" line || starts_with "-" line.

Definition is_context_line (line : string) : bool := starts_with " " line.

Fixpoint detect_loop (ls : list string) (minus plus : bool) : bool :=
  match ls with
  | [] => minus && plus
  | line :: ls' =>
      if is_hunk_header line then true
      else if starts_with "diff --git " line then true
      else detect_loop ls' (starts_with "--- " line || minus) (starts_with "+++ " line || plus)
  end.

Definition diff_detect (text : string) : bool := detect_loop (lines text) false false.

(** [(lo..hi).any(|j| flags[j])] *)
Definition any_in (flags : list bool) (lo hi : nat) : bool :=
  existsb id (take (hi - lo) (drop lo flags)).

Definition near_change (is_change : list bool) (ctx i : nat) : bool :=
  any_in is_change (i - ctx) i ||
  any_in is_change (i + 1) (min (i + ctx + 1) (length is_change)).

Definition keep_line (is_change : list bool) (ctx i : nat) (line : string) : bool :=
  if negb (is_context_line line) then true else near_change is_change ctx i.

Definition diff_marker (folded : nat) : string :=
  "[llm-compress: 略 " +:+ (fmt_nat folded +:+ " 行上下文]").

Definition diff_toks (ls : list string) (ctx : nat) : list Tok :=
  let is_change := is_change_line <$> ls in
  collapse 0 (imap (λ i line, (keep_line is_change ctx i line, line)) ls).

Definition diff_compress (text : string) (budget : Budget) : CompressOutcome :=
  let ctx := context_lines (diff (budget_cfg budget)) in
  let toks := diff_toks (lines text) ctx in
  if negb (any_skipped toks) then Unchanged
  else
    let result := join NL (render diff_marker <$> toks) in
    let result := if ends_with NL text then result +:+ NL else result in
    if String.length text <=? String.length result then Unchanged
    else Compressed result (String.length text - String.length result) true KText.

Definition DiffCompressor : Compressor :=
  {| cname := "diff"; detect text _ := Returned (diff_detect text);
     compress text budget := Returned (diff_compress text budget) |}.

#[global] Instance diff_ok : CompressorOk DiffCompressor.
Proof.
  apply compressor_ok_intro. simpl. intros text budget new saved lossy kind Hc. injection Hc.
  unfold diff_compress. destruct (negb _); [done|]. cbv zeta.
  match goal with |- context [String.length text <=? String.length ?r] =>
    destruct (Nat.leb_spec (String.length text) (String.length r)) end; [done|].
  intros; simplify_eq. auto.
Qed.

(** ** Which lines survive *)

Lemma change_not_context line : is_change_line line = true → is_context_line line = false.
Proof.
  unfold is_change_line, is_context_line. destruct (_ || _); [done|].
  destruct line as [|a s]; [done|]. rewrite orb_true_iff, !starts_with_true.
  intros [[r ->]|[r ->]]; reflexivity.
Qed.

Lemma any_in_true flags lo hi :
  any_in flags lo hi = true ↔ ∃ j, lo ≤ j < hi ∧ flags !! j = Some true.
Proof.
  unfold any_in. rewrite existsb_exists. split.
  - intros (b & Hin%list_elem_of_In & Hb). unfold id in Hb. subst b. apply list_elem_of_lookup_1 in Hin as [k Hk].
    apply lookup_take_Some in Hk as [Hk Hlt]. rewrite lookup_drop in Hk.
    exists (lo + k). split; [lia|done].
  - intros (j & Hj & Hf). exists true. split; [|done]. apply list_elem_of_In.
    apply list_elem_of_lookup_2 with (j - lo). apply lookup_take_Some.
    rewrite lookup_drop. replace (lo + (j - lo)) with j by lia. split; [done|lia].
Qed.

Lemma near_change_true flags ctx i :
  near_change flags ctx i = true ↔
  ∃ j, j ≠ i ∧ i - ctx ≤ j ≤ i + ctx ∧ flags !! j = Some true.
Proof.
  unfold near_change. rewrite orb_true_iff, !any_in_true. split.
  - intros [(j & Hj & Hf)|(j & Hj & Hf)]; exists j; split_and!; try done; lia.
  - intros (j & Hne & Hj & Hf). pose proof (lookup_lt_Some _ _ _ Hf).
    destruct (decide (j < i)); [left|right]; exists j; (split; [lia|done]).
Qed.

Lemma diff_toks_expand ls ctx :
  expand (diff_toks ls ctx) =
  imap (λ i line, if keep_line (is_change_line <$> ls) ctx i line then Some line else None) ls.
Proof.
  unfold diff_toks. rewrite collapse_expand. cbn [replicate app].
  rewrite fmap_imap. done.
Qed.

(** A compressed diff says where everything was: expanding its placeholders
    gives one entry per original line, and the entry is the line itself exactly when the
    line is not context (changes, hunk and file headers always survive) or lies within
    [context_lines] of a change. *)
Theorem diff_keeps_changes text budget new saved lossy kind :
  diff_compress text budget = Compressed new saved lossy kind →
  ∃ toks,
    new = join NL (render diff_marker <$> toks) +:+ (if ends_with NL text then NL else EmptyString) ∧
    maximal false toks = true ∧
    length (expand toks) = length (lines text) ∧
    ∀ i line, lines text !! i = Some line →
      (expand toks !! i = Some (Some line) ∨ expand toks !! i = Some None) ∧
      (expand toks !! i = Some (Some line) ↔
         is_context_line line = false ∨
         ∃ j change, lines text !! j = Some change ∧ is_change_line change = true ∧
           i - context_lines (diff (budget_cfg budget)) ≤ j ≤ i + context_lines (diff (budget_cfg budget))).
Proof.
  intros Hc. set (ctx := context_lines _). exists (diff_toks (lines text) ctx).
  split_and!.
  - unfold diff_compress in Hc. fold ctx in Hc. destruct (negb _); [done|].
    repeat case_match; simplify_eq; by rewrite ?str_app_nil_r.
  - by apply collapse_maximal.
  - by rewrite diff_toks_expand, length_imap.
  - intros i line Hi. rewrite diff_toks_expand, list_lookup_imap, Hi. simpl.
    assert (keep_line (is_change_line <$> lines text) ctx i line = true ↔
      is_context_line line = false ∨
         ∃ j change, lines text !! j = Some change ∧ is_change_line change = true ∧
           i - ctx ≤ j ≤ i + ctx) as Hiff.
    { unfold keep_line. destruct (is_context_line line) eqn:E; simpl; [|naive_solver].
      rewrite near_change_true. setoid_rewrite list_lookup_fmap. split.
      - intros (j & _ & Hj & Hf). right. destruct (lines text !! j) as [l|] eqn:El; [|done].
        simplify_eq/=. eauto 10.
      - intros [?|(j & l & Hl & Hch & Hj)]; [done|]. exists j. rewrite Hl. simpl.
        split_and!; [|lia|lia|by rewrite Hch]. intros ->. simplify_eq.
        by rewrite (change_not_context line) in E. }
    destruct (keep_line _ _ _ _); split; [by left| |by right|]; naive_solver.
Qed.

Definition diff_example : string :=
  join NL (["@@ -1,9 +1,9 @@"; "-old"; "+new"] ++ replicate 9 " an unchanged context line").

Definition diff_budget : Budget :=
  {| budget_cfg := CompressCfg_default; budget_cmd := None |}.

Lemma diff_keeps_changes_witness :
  ∃ new saved toks, diff_compress diff_example diff_budget = Compressed new saved true KText ∧
    length (expand toks) = 12 ∧ expand toks !! 1 = Some (Some "-old").
Proof.
  destruct (diff_compress diff_example diff_budget) as [new saved lossy kind|] eqn:E.
  - destruct (diff_keeps_changes diff_example diff_budget new saved lossy kind E)
      as (toks & _ & _ & Hlen & Hl).
    exists new, saved, toks. vm_compute in E. injection E as <- <- <- <-.
    split_and!; [reflexivity|exact Hlen|].
    destruct (Hl 1 "-old" eq_refl) as [_ Hiff]. apply Hiff. left. reflexivity.
  - vm_compute in E. discriminate E.
Defined.

Example hunk_headers :
  is_hunk_header "@@ -1,2 +3 @@ fn" = true ∧ is_hunk_header "@@ -1, +3 @@" = false ∧
  diff_detect ("--- a" +:+ NL +:+ "+++ b") = true.
Proof. repeat split; vm_compute; reflexivity. Qed.
