(* ===== verification/LogC.v ===== *)
(** * llm-compress: logs

    zmod/llm-compress/src/compress/log.rs. *)

From S2P Require Import Prelude Str Json Protocol CompressConfig Router Collapse.

Definition MIN_LINES : nat := 8.

(** ** Detection *)

Definition digit_at (w : list ascii) (i : nat) : bool :=
  match w !! i with Some b => is_ascii_digit b | None => false end.
Definition byte_at (w : list ascii) (i : nat) (c : ascii) : bool :=
  match w !! i with Some b => byte_eqb b c | None => false end.

Definition is_clock (w : list ascii) : bool :=
  (length w =? 8) && digit_at w 0 && digit_at w 1 && byte_at w 2 ":"%char
  && digit_at w 3 && digit_at w 4 && byte_at w 5 ":"%char && digit_at w 6 && digit_at w 7.

(** The windows of [n] bytes, at every position where one fits. *)
Definition byte_windows (n : nat) (bytes : list ascii) : list (list ascii) :=
  if length bytes <? n then []
  else (λ i, take n (drop i bytes)) <$> seq 0 (length bytes - n + 1).

Definition is_full_ts (w : list ascii) : bool :=
  let date_ok :=
    digit_at w 0 && digit_at w 1 && digit_at w 2 && digit_at w 3 && byte_at w 4 "-"%char
    && digit_at w 5 && digit_at w 6 && byte_at w 7 "-"%char && digit_at w 8 && digit_at w 9 in
  let sep_ok := byte_at w 10 "T"%char || byte_at w 10 " "%char in
  let time_ok := is_clock (take 8 (drop 11 w)) in
  date_ok && sep_ok && time_ok.

Definition line_has_full_ts (line : string) : bool :=
  existsb is_full_ts (byte_windows 19 (as_bytes line)).

Definition line_has_clock_ts (line : string) : bool :=
  existsb is_clock (byte_windows 8 (as_bytes line)).

Definition has_timestamp (ls : list string) : bool :=
  existsb (λ l, line_has_full_ts l || line_has_clock_ts l) ls.

Definition colon_then_digit (s : string) : bool :=
  existsb (λ p, byte_eqb p.1 ":"%char && is_ascii_digit p.2) (windows2 (as_bytes s)).

Definition is_stack_frame (line : string) : bool :=
  match find " at " line with
  | Some pos => colon_then_digit (str_drop (pos + 4) line)
  | None => false
  end.

Definition has_stacktrace (ls : list string) : bool := existsb is_stack_frame ls.

Definition has_consecutive_repeat (ls : list string) : bool :=
  existsb (λ w, str_eqb w.1 w.2) (windows2 ls).

Definition log_detect (text : string) : bool :=
  let ls := lines text in
  if length ls <? MIN_LINES then false
  else has_timestamp ls || has_stacktrace ls || has_consecutive_repeat ls.

(** ** Compression *)

Section log.
Context `{Unicode}.

Definition line_has_keep_level (line : string) (levels : list string) : bool :=
  let lower := to_lowercase line in existsb (λ lvl, contains lvl lower) levels.

(** The lines that matter wherever they stand. *)
Definition must_keep (levels : list string) (line : string) : bool :=
  starts_with "[llm-compress: " line || (2 <=? line_score line)
  || line_has_keep_level line levels || is_stack_frame line.

Definition log_marker (n : nat) : string := "[llm-compress: 略 " +:+ (fmt_nat n +:+ " 行]").

(** [keep] after the two [fill]s and the loop. *)
Definition log_keep (n head tail : nat) (levels : list string) (i : nat) (line : string) : bool :=
  (i <? min head n) || (n - tail <=? i) || must_keep levels line.

Definition log_toks (ls : list string) (head tail : nat) (levels : list string) : list Tok :=
  collapse 0 (imap (λ i line, (log_keep (length ls) head tail levels i line, line)) ls).

Definition score_keep (ls : list string) (head tail : nat) (levels : list string) : list string * bool :=
  if length ls <=? head + tail then (ls, false)
  else
    let toks := log_toks ls head tail levels in
    (render log_marker <$> toks, any_skipped toks).

Definition log_compress (text : string) (budget : Budget) : CompressOutcome :=
  let cfg := budget_cfg budget in
  let '(after_score, dropped) :=
    score_keep (lines text) (head_lines (truncate cfg)) (tail_lines (truncate cfg))
      (keep_levels (log cfg)) in
  if negb dropped then Unchanged
  else
    let new_text := join NL after_score in
    let saved := String.length text - String.length new_text in
    if saved =? 0 then Unchanged else Compressed new_text saved true KText.

Definition LogCompressor : Compressor :=
  {| cname := "log"; detect text _ := Returned (log_detect text);
     compress text budget := Returned (log_compress text budget) |}.

#[global] Instance log_ok : CompressorOk LogCompressor.
Proof.
  apply compressor_ok_intro. simpl. intros text budget new saved lossy kind Hc. injection Hc.
  unfold log_compress. destruct (score_keep _ _ _ _) as [ls dropped]. destruct (negb dropped); [done|].
  cbv zeta. destruct (Nat.eqb_spec (String.length text - String.length (join NL ls)) 0); [done|].
  intros; simplify_eq. split_and!; [lia|done|by right].
Qed.

(** A compressed log keeps what matters, in place: expanding its placeholders
    gives one entry per original line, and the entry is the line itself exactly when it
    is among the first or last lines, or is a placeholder, an error line, a line of a
    kept level, or a stack frame. *)
Theorem log_keeps_important text budget new saved lossy kind :
  log_compress text budget = Compressed new saved lossy kind →
  let cfg := budget_cfg budget in
  let n := length (lines text) in
  ∃ toks, new = join NL (render log_marker <$> toks) ∧ maximal false toks = true ∧
    expand toks = imap (λ i line,
      if bool_decide (i < head_lines (truncate cfg) ∨ n - tail_lines (truncate cfg) ≤ i)
         || must_keep (keep_levels (log cfg)) line
      then Some line else None) (lines text).
Proof.
  intros Hc cfg n.
  exists (log_toks (lines text) (head_lines (truncate cfg)) (tail_lines (truncate cfg)) (keep_levels (log cfg))).
  split_and!.
  - unfold log_compress, score_keep in Hc. fold cfg in Hc. destruct (_ <=? _); [done|].
    destruct (negb _); [done|]. cbv zeta in Hc. destruct (_ =? 0); [done|]. by simplify_eq.
  - by apply collapse_maximal.
  - unfold log_toks. rewrite collapse_expand. cbn [replicate app]. rewrite fmap_imap.
    apply imap_ext. intros i line Hi. unfold compose, flagged, log_keep. simpl. fold n.
    apply lookup_lt_Some in Hi. fold n in Hi.
    replace (bool_decide _) with ((i <? min (head_lines (truncate cfg)) n) || (n - tail_lines (truncate cfg) <=? i)); [done|].
    destruct (Nat.ltb_spec i (min (head_lines (truncate cfg)) n)), (Nat.leb_spec (n - tail_lines (truncate cfg)) i);
      simpl; symmetry; [apply bool_decide_eq_true|apply bool_decide_eq_true|
                        apply bool_decide_eq_true|apply bool_decide_eq_false]; lia.
Qed.
End log.

Definition log_budget : Budget :=
  {| budget_cfg := {| c_enabled := true; per_item_min_bytes := 1;
       truncate := {| head_lines := 1; tail_lines := 1; max_bytes := 600 |};
       json := JsonCfg_default; diff := DiffCfg_default; log := LogCfg_default;
       preprocess := PreprocessCfg_default; search := SearchCfg_default;
       protect := ProtectCfg_default; ccr := CcrCfg_default |};
     budget_cmd := None |}.

Definition log_example : string :=
  join NL (["start"] ++ replicate 6 "10:00:00 all is well" ++ ["10:00:01 ERROR boom"] ++
           replicate 6 "10:00:02 all is well again" ++ ["end"]).

Lemma log_keeps_important_witness :
  ∃ new saved toks,
    @log_compress ascii_only log_example log_budget = Compressed new saved true KText ∧
    new = join NL (render log_marker <$> toks) ∧
    expand toks !! 7 = Some (Some "10:00:01 ERROR boom") ∧ expand toks !! 3 = Some None.
Proof.
  destruct (@log_compress ascii_only log_example log_budget) as [new saved lossy kind|] eqn:E.
  - destruct (@log_keeps_important ascii_only log_example log_budget new saved lossy kind E)
      as (toks & Hn & _ & Hx).
    exists new, saved, toks. split_and!; [|exact Hn|rewrite Hx; vm_compute; reflexivity|
                                          rewrite Hx; vm_compute; reflexivity].
    clear -E. vm_compute in E. injection E as <- <- <- <-. reflexivity.
  - vm_compute in E. discriminate E.
Defined.
