(* ===== verification/SearchC.v ===== *)
(** * llm-compress: search results

    zmod/llm-compress/src/compress/search.rs: grep output grouped by file, the best
    matches of the best files kept. *)

From S2P Require Import Prelude Str Json Protocol CompressConfig Router Collapse.

(** The path of a [path:line:content] line. *)
Definition parse_match (line : string) : option string :=
  match find ":" line with
  | None => None
  | Some first =>
      let rest := str_drop (first + 1) line in
      match find ":" rest with
      | None => None
      | Some second_rel =>
          let num := str_take second_rel rest in
          if str_is_empty num || negb (forallb is_ascii_digit (as_bytes num)) then None
          else Some (str_take first line)
      end
  end.

Definition search_detect (text : string) (budget : Budget) : bool :=
  let ls := lines text in
  if match budget_cmd budget with Some c => is_grep c | None => false end
  then 3 <=? length ls
  else if length ls <? 4 then false
  else
    let matched := length (List.filter (λ l, bool_decide (is_Some (parse_match l))) ls) in
    (length ls <=? matched * 2) && (3 <=? matched).

(** The grouping loop: files in order of first appearance, the lines of each, the rest. *)
Record Groups := { order : list string; groups : gmap string (list string); preamble : list string }.

Definition group_line (g : Groups) (line : string) : Groups :=
  match parse_match line with
  | Some key =>
      {| order := if bool_decide (is_Some (groups g !! key)) then order g else order g ++ [key];
         groups := <[key := default [] (groups g !! key) ++ [line]]> (groups g);
         preamble := preamble g |}
  | None => {| order := order g; groups := groups g; preamble := preamble g ++ [line] |}
  end.

Definition group_lines (ls : list string) : Groups :=
  foldl group_line {| order := []; groups := ∅; preamble := [] |} ls.

(** [sort_by(|a, b| b.1.partial_cmp(&a.1)..)]: decreasing score, stable. *)
Definition by_score {A} (a b : A * nat) : bool := b.2 <=? a.2.

Section search.
Context `{Unicode}.

(** The indices [select_in_file] keeps: first, last and the best of the middle. *)
Definition mids (matches : list string) : list (nat * nat) :=
  (λ i, (i, line_score (default EmptyString (matches !! i)))) <$> seq 1 (length matches - 2).

Definition keep_idx (matches : list string) (max_per_file : nat) : gset nat :=
  {[0]} ∪ {[length matches - 1]} ∪
  list_to_set (take (max_per_file - 2) (sort_by by_score (mids matches))).*1.

Definition match_marker (n : nat) : string :=
  "[llm-compress: skipped " +:+ (fmt_nat n +:+ " matches]").

Definition file_toks (matches : list string) (max_per_file : nat) : list Tok :=
  let keep := keep_idx matches max_per_file in
  collapse 0 (imap (λ i line, (bool_decide (i ∈ keep), line)) matches).

Definition select_in_file (matches : list string) (max_per_file : nat) : list string :=
  if length matches <=? max_per_file then matches
  else render match_marker <$> file_toks matches max_per_file.

(** The highest score of a group. *)
Definition best_score (matches : list string) : nat :=
  foldl (λ acc l, max acc (line_score l)) 0 matches.

Definition group_of (g : Groups) (key : string) : list string := default [] (groups g !! key).

Definition kept_files (g : Groups) (max_files : nat) : gset string :=
  let scored := (λ k, (k, best_score (group_of g k))) <$> order g in
  if max_files <? length (order g)
  then list_to_set (take max_files (sort_by by_score scored)).*1
  else list_to_set scored.*1.

Definition files_marker (n : nat) : string :=
  "[llm-compress: skipped " +:+ (fmt_nat n +:+ " files]").

Definition compress_search (text : string) (budget : Budget) : option string :=
  let cfg := search (budget_cfg budget) in
  let per_file := max (max_per_file cfg) 2 in
  let files := max (max_files cfg) 1 in
  let g := group_lines (lines text) in
  if bool_decide (order g = []) then None
  else
    let keep := kept_files g files in
    let shown := List.filter (λ k, bool_decide (k ∈ keep)) (order g) in
    let folded := length (List.filter (λ k, negb (bool_decide (k ∈ keep))) (order g)) in
    let out := preamble g ++ (shown ≫= λ k, select_in_file (group_of g k) per_file) in
    let out := if 0 <? folded then out ++ [files_marker folded] else out in
    Some (join NL out).

Definition search_compress (text : string) (budget : Budget) : CompressOutcome :=
  match compress_search text budget with
  | Some new =>
      let saved := String.length text - String.length new in
      if 0 <? saved then Compressed new saved true KText else Unchanged
  | None => Unchanged
  end.

Definition SearchCompressor : Compressor :=
  {| cname := "search"; detect text budget := Returned (search_detect text budget);
     compress text budget := Returned (search_compress text budget) |}.

#[global] Instance search_ok : CompressorOk SearchCompressor.
Proof.
  apply compressor_ok_intro. simpl. intros text budget new saved lossy kind Hc. injection Hc.
  unfold search_compress. destruct (compress_search text budget) as [t|]; [|done]. cbv zeta.
  destruct (Nat.ltb_spec 0 (String.length text - String.length t)); [|done].
  intros; simplify_eq. split_and!; [lia|done|by right].
Qed.

(** ** Top-K selection *)

Lemma by_score_sorted {A} (l : list (A * nat)) :
  StronglySorted (λ a b, by_score a b = true) (sort_by by_score l).
Proof.
  apply sort_by_sorted; unfold by_score; intros; rewrite ?Nat.leb_le in *; lia.
Qed.

(** What is taken scores at least as much as what is left. *)
Lemma top_k {A} (l : list (A * nat)) k x y :
  x ∈ take k (sort_by by_score l) → y ∈ drop k (sort_by by_score l) → y.2 ≤ x.2.
Proof.
  intros Hx Hy. pose proof (sorted_take_drop _ _ _ _ _ (by_score_sorted l) Hx Hy) as Hs.
  unfold by_score in Hs. by apply Nat.leb_le in Hs.
Qed.

Lemma mids_fst matches : (mids matches).*1 = seq 1 (length matches - 2).
Proof. unfold mids. rewrite <-list_fmap_compose. simpl. by rewrite list_fmap_id. Qed.

Lemma taken_mids matches k :
  NoDup (take k (sort_by by_score (mids matches))).*1 ∧
  ∀ i, i ∈ (take k (sort_by by_score (mids matches))).*1 → 1 ≤ i < 1 + (length matches - 2).
Proof.
  assert ((sort_by by_score (mids matches)).*1 ≡ₚ seq 1 (length matches - 2)) as Hp
    by (rewrite <-mids_fst; by apply fmap_Permutation, sort_by_perm).
  rewrite fmap_take. split.
  - apply (sublist_NoDup _ ((sort_by by_score (mids matches)).*1)); [|apply sublist_take].
    rewrite Hp. apply NoDup_seq.
  - intros i Hi. assert (i ∈ seq 1 (length matches - 2)) as Hs.
    { rewrite <-Hp. rewrite <-(take_drop k (_.*1)). apply elem_of_app. by left. }
    by apply elem_of_seq in Hs.
Qed.

Lemma size_keep_idx matches k :
  2 ≤ k → k < length matches → size (keep_idx matches k) = k.
Proof.
  intros Hk Hn. destruct (taken_mids matches (k - 2)) as [Hnd Hr].
  unfold keep_idx. set (l := (take (k - 2) _).*1) in *.
  assert (length l = k - 2) as Hl.
  { unfold l. rewrite length_fmap, length_take, (Permutation_length (sort_by_perm _ _)).
    unfold mids. rewrite length_fmap, length_seq. lia. }
  rewrite size_union.
  - rewrite size_union by (apply disjoint_singleton_l, not_elem_of_singleton; lia).
    rewrite !size_singleton, size_list_to_set by done. lia.
  - intros i Hi1 Hi2%elem_of_list_to_set%Hr. rewrite elem_of_union, !elem_of_singleton in Hi1. lia.
Qed.

Lemma length_flagged (f : nat → bool) (l : list string) :
  length (omap flagged (imap (λ i x, (f i, x)) l)) = length (List.filter f (seq 0 (length l))).
Proof.
  revert f; induction l as [|x l IH]; intros f; [done|].
  rewrite imap_cons. cbn [length seq omap list_omap List.filter].
  rewrite <-(fmap_S_seq 0), filter_fmap. unfold flagged at 1. cbn [fst snd].
  unfold compose. destruct (f 0); cbn [length]; rewrite length_fmap;
    by rewrite (IH (λ i, f (S i))).
Qed.

Lemma length_filter_seq (X : gset nat) n :
  (∀ i, i ∈ X → i < n) → length (List.filter (λ i, bool_decide (i ∈ X)) (seq 0 n)) = size X.
Proof.
  intros HX. change (size X) with (length (elements X)). apply Permutation_length.
  apply NoDup_Permutation; [apply NoDup_ListNoDup, List.NoDup_filter, NoDup_ListNoDup, NoDup_seq|
                            apply NoDup_elements|].
  intros i. rewrite elem_of_elements, list_elem_of_In, filter_In, <-list_elem_of_In, elem_of_seq.
  rewrite bool_decide_eq_true. naive_solver lia.
Qed.

Lemma file_toks_lookup matches k i :
  expand (file_toks matches k) !! i =
  (λ line, if bool_decide (i ∈ keep_idx matches k) then Some line else None) <$> matches !! i.
Proof.
  unfold file_toks. rewrite collapse_expand. cbn [replicate app].
  rewrite list_lookup_fmap, list_lookup_imap. by destruct (matches !! i).
Qed.

Lemma keep_idx_mid matches k i :
  0 < i → i < length matches - 1 →
  (i ∈ keep_idx matches k ↔
   ∃ s, (i, s) ∈ take (k - 2) (sort_by by_score (mids matches))).
Proof.
  intros Hi Hn. unfold keep_idx. rewrite !elem_of_union, !elem_of_singleton, elem_of_list_to_set.
  rewrite list_elem_of_fmap. split.
  - intros [[?|?]|((j & s) & -> & Hj)]; [lia|lia|]. by exists s.
  - intros [s Hs]. right. by exists (i, s).
Qed.

Lemma mids_elem matches i s :
  (i, s) ∈ sort_by by_score (mids matches) → s = line_score (default EmptyString (matches !! i)).
Proof.
  rewrite (sort_by_perm _ _). unfold mids. rewrite list_elem_of_fmap. naive_solver.
Qed.

(** A middle match that is dropped scores no more than one that is kept. *)
Lemma dropped_score matches k i j x y :
  0 < i < length matches - 1 → matches !! i = Some x → i ∈ keep_idx matches k →
  matches !! j = Some y → j ∉ keep_idx matches k → line_score y ≤ line_score x.
Proof.
  intros Hi Hx Hk Hy Hnk.
  apply keep_idx_mid in Hk as [s Hs]; [|lia|lia].
  assert (0 < j < length matches - 1) as Hj.
  { apply lookup_lt_Some in Hy. unfold keep_idx in Hnk. rewrite !not_elem_of_union in Hnk.
    destruct Hnk as [[H0%not_elem_of_singleton H1%not_elem_of_singleton] _]. lia. }
  set (srt := sort_by by_score (mids matches)) in *.
  assert ((j, line_score y) ∈ srt) as Hjm.
  { unfold srt. rewrite (sort_by_perm _ _). unfold mids. apply list_elem_of_fmap. exists j.
    rewrite Hy, elem_of_seq. split; [done|lia]. }
  assert (s = line_score x) as ->.
  { assert ((i, s) ∈ srt) as Hin by (rewrite <-(take_drop (k - 2) srt); apply elem_of_app; by left).
    apply mids_elem in Hin. by rewrite Hx in Hin. }
  rewrite <-(take_drop (k - 2) srt), elem_of_app in Hjm. destruct Hjm as [Ht|Hd].
  - destruct Hnk. apply keep_idx_mid; [lia|lia|]. by exists (line_score y).
  - exact (top_k _ _ _ _ Hs Hd).
Qed.

(** Within a file, selection is the top-K it means to be: of more than [K]
    matches exactly [K] stay, in place, the first and the last among them, and no dropped
    match scores higher than a kept one of the middle. *)
Theorem select_in_file_top_k matches k :
  2 ≤ k → k < length matches →
  ∃ toks, select_in_file matches k = render match_marker <$> toks ∧
    maximal false toks = true ∧ length (kept toks) = k ∧
    length (expand toks) = length matches ∧
    expand toks !! 0 = Some (matches !! 0) ∧
    expand toks !! (length matches - 1) = Some (matches !! (length matches - 1)) ∧
    (∀ i x, expand toks !! i = Some (Some x) → matches !! i = Some x) ∧
    (∀ i j x y, 0 < i < length matches - 1 → expand toks !! i = Some (Some x) →
       expand toks !! j = Some None → matches !! j = Some y → line_score y ≤ line_score x).
Proof.
  intros Hk Hn. exists (file_toks matches k). unfold select_in_file.
  destruct (Nat.leb_spec (length matches) k); [lia|].
  assert (∀ i, i ∈ keep_idx matches k → i < length matches) as Hb.
  { intros i. unfold keep_idx. rewrite !elem_of_union, !elem_of_singleton.
    intros [[->| ->]|Hi%elem_of_list_to_set%(proj2 (taken_mids matches (k - 2)))]; lia. }
  assert (∀ i, i ∈ keep_idx matches k → expand (file_toks matches k) !! i = Some (matches !! i)) as Hkeep.
  { intros i Hi. rewrite file_toks_lookup. specialize (Hb i Hi).
    destruct (lookup_lt_is_Some_2 matches i Hb) as [x ->]. simpl. by rewrite bool_decide_true. }
  split_and!; [done|by apply collapse_maximal| | | | | |].
  - unfold file_toks. rewrite collapse_kept.
    rewrite (length_flagged (λ i, bool_decide (i ∈ keep_idx matches k))).
    rewrite length_filter_seq by done. by apply size_keep_idx.
  - unfold file_toks. by rewrite collapse_expand, length_app, length_fmap, length_imap.
  - apply Hkeep. unfold keep_idx. set_solver.
  - apply Hkeep. unfold keep_idx. set_solver.
  - intros i x. rewrite file_toks_lookup. destruct (matches !! i); simpl; [|done].
    case_bool_decide; naive_solver.
  - intros i j x y Hi Hx Hj Hy. rewrite file_toks_lookup in Hx, Hj. rewrite Hy in Hj. simpl in Hj.
    destruct (matches !! i) as [x'|] eqn:Ex; [|done]. simpl in Hx.
    repeat case_bool_decide; simplify_eq. by eapply dropped_score.
Qed.

(** ** Grouping *)

(** Distinct elements in order of first appearance. *)
Definition firsts (l : list string) : list string :=
  foldl (λ acc k, if bool_decide (k ∈ acc) then acc else acc ++ [k]) [] l.

Definition matches_of (ls : list string) (key : string) : list string :=
  List.filter (λ l, bool_decide (parse_match l = Some key)) ls.

Definition others (ls : list string) : list string :=
  List.filter (λ l, bool_decide (parse_match l = None)) ls.

Lemma firsts_snoc l k :
  firsts (l ++ [k]) = if bool_decide (k ∈ firsts l) then firsts l else firsts l ++ [k].
Proof. unfold firsts. by rewrite foldl_app. Qed.

Lemma elem_of_firsts k l : k ∈ firsts l ↔ k ∈ l.
Proof.
  induction l as [|x l IH] using rev_ind; [done|]. rewrite firsts_snoc, elem_of_app.
  rewrite list_elem_of_singleton, <-IH. case_bool_decide; [naive_solver|].
  by rewrite elem_of_app, list_elem_of_singleton.
Qed.

Lemma NoDup_firsts l : NoDup (firsts l).
Proof.
  induction l as [|x l IH] using rev_ind; [constructor|]. rewrite firsts_snoc.
  case_bool_decide; [done|]. apply NoDup_app. split_and!; [done|set_solver|].
  apply NoDup_singleton.
Qed.

Lemma matches_of_nil ls key : key ∉ omap parse_match ls → matches_of ls key = [].
Proof.
  unfold matches_of. induction ls as [|l ls IH]; simpl; [done|]. intros Hk.
  destruct (parse_match l) as [k|] eqn:E; simpl in *.
  - rewrite elem_of_cons in Hk. rewrite bool_decide_false by naive_solver. naive_solver.
  - auto.
Qed.

Lemma group_lines_spec ls :
  order (group_lines ls) = firsts (omap parse_match ls) ∧
  preamble (group_lines ls) = others ls ∧
  ∀ key, groups (group_lines ls) !! key =
    if bool_decide (key ∈ omap parse_match ls) then Some (matches_of ls key) else None.
Proof.
  induction ls as [|l ls (IHo & IHp & IHg)] using rev_ind.
  { split_and!; [done|done|]. intros key. simpl. by rewrite lookup_empty. }
  unfold group_lines, others, matches_of in *. rewrite foldl_app, omap_app. setoid_rewrite List.filter_app.
  cbn [foldl omap list_omap List.filter]. set (g := foldl group_line _ ls) in *. unfold group_line.
  destruct (parse_match l) as [k|] eqn:E; cbn [order groups preamble];
    [|rewrite app_nil_r; split_and!; [done|by rewrite IHp|]; intros key; by rewrite app_nil_r].
  rewrite firsts_snoc, <-IHo, app_nil_r. split_and!; [|done|].
  - rewrite IHg, IHo. repeat case_bool_decide; rewrite elem_of_firsts in *; try done.
    destruct H0. by eexists.
  - intros key. destruct (decide (k = key)) as [->|Hne].
    + rewrite lookup_insert_eq, IHg. rewrite !bool_decide_true with (P := Some key = Some key) by done.
      rewrite (bool_decide_true (key ∈ _ ++ [key])) by set_solver. do 2 f_equal.
      case_bool_decide; [done|]. cbn [default]. symmetry. by apply matches_of_nil.
    + rewrite lookup_insert_ne, IHg by done. rewrite (bool_decide_false (Some k = Some key)) by naive_solver.
      rewrite app_nil_r. repeat case_bool_decide; try done; set_solver.
Qed.

Lemma group_of_spec ls key : group_of (group_lines ls) key = matches_of ls key.
Proof.
  unfold group_of. rewrite (proj2 (proj2 (group_lines_spec ls)) key).
  case_bool_decide; [done|]. symmetry. by apply matches_of_nil.
Qed.

(** ** Choosing files *)

Lemma kept_files_spec g n :
  NoDup (order g) →
  let shown := List.filter (λ k, bool_decide (k ∈ kept_files g n)) (order g) in
  length shown = min n (length (order g)) ∧
  ∀ k k', k ∈ shown → k' ∈ order g → k' ∉ shown →
    best_score (group_of g k') ≤ best_score (group_of g k).
Proof.
  intros Hnd shown. unfold shown, kept_files. clear shown.
  set (scored := (λ k, (k, best_score (group_of g k))) <$> order g).
  assert (scored.*1 = order g) as Hfst
    by (unfold scored; rewrite <-list_fmap_compose; simpl; by rewrite list_fmap_id).
  assert (∀ k s, (k, s) ∈ scored → s = best_score (group_of g k)) as Hsc
    by (unfold scored; intros k s; rewrite list_elem_of_fmap; naive_solver).
  destruct (Nat.ltb_spec n (length (order g))) as [Hlt|Hge].
  2:{ rewrite Hfst. replace (List.filter _ (order g)) with (order g).
      - split; [lia|done].
      - symmetry. apply filter_all. intros k Hk. apply bool_decide_eq_true. by apply elem_of_list_to_set. }
  set (srt := sort_by by_score scored).
  assert (srt.*1 ≡ₚ order g) as Hp by (rewrite <-Hfst; by apply fmap_Permutation, sort_by_perm).
  set (top := (take n srt).*1).
  assert (NoDup top) as Htop.
  { unfold top. rewrite fmap_take. apply (sublist_NoDup _ srt.*1); [|apply sublist_take]. by rewrite Hp. }
  assert (∀ k, k ∈ top → k ∈ order g) as Hin.
  { intros k Hk. rewrite <-Hp. rewrite <-(take_drop n srt), fmap_app. apply elem_of_app. by left. }
  assert (List.filter (λ k, bool_decide (k ∈ (list_to_set top : gset string))) (order g) ≡ₚ top) as Hperm.
  { apply NoDup_Permutation; [by apply NoDup_ListNoDup, List.NoDup_filter, NoDup_ListNoDup|done|].
    intros k. rewrite list_elem_of_In, filter_In, <-list_elem_of_In, bool_decide_eq_true, elem_of_list_to_set.
    naive_solver. }
  split.
  - rewrite (Permutation_length Hperm). unfold top. rewrite length_fmap, length_take.
    unfold srt. rewrite (Permutation_length (sort_by_perm _ _)). unfold scored. rewrite length_fmap. lia.
  - intros k k'. rewrite !Hperm. intros Hk Hk' Hn'.
    assert (∃ s, (k, s) ∈ take n srt) as [s Hs].
    { unfold top in Hk. apply list_elem_of_fmap in Hk as ([k2 s] & -> & ?). by exists s. }
    assert (∃ s', (k', s') ∈ drop n srt) as [s' Hs'].
    { rewrite <-Hp in Hk'. rewrite <-(take_drop n srt), fmap_app, elem_of_app in Hk'.
      destruct Hk' as [?|Hd]; [done|]. apply list_elem_of_fmap in Hd as ([k2 s2] & -> & ?). by exists s2. }
    pose proof (top_k scored n _ _ Hs Hs') as Hle. simpl in Hle.
    rewrite <-(Hsc k s), <-(Hsc k' s'); [done| |].
    + rewrite <-(sort_by_perm by_score scored). fold srt. rewrite <-(take_drop n srt). apply elem_of_app. by right.
    + rewrite <-(sort_by_perm by_score scored). fold srt. rewrite <-(take_drop n srt). apply elem_of_app. by left.
Qed.

Lemma filter_negb_length {A} (p : A → bool) l :
  length (List.filter (λ x, negb (p x)) l) = length l - length (List.filter p l).
Proof.
  induction l as [|x l IH]; simpl; [done|].
  pose proof (List.filter_length_le p l). destruct (p x); simpl; lia.
Qed.

(** Search output is compressed as designed: the lines that are no matches
    come first, then, for the best-scoring files up to the limit and in order of first
    appearance, their selected matches, then the number of files left out; no file left
    out scores higher than one shown. *)
Theorem search_structure text budget new :
  compress_search text budget = Some new →
  let ls := lines text in
  let files := firsts (omap parse_match ls) in
  let per_file := max (max_per_file (search (budget_cfg budget))) 2 in
  let limit := max (max_files (search (budget_cfg budget))) 1 in
  ∃ shown, shown `sublist_of` files ∧ length shown = min limit (length files) ∧
    (∀ k k', k ∈ shown → k' ∈ files → k' ∉ shown →
       best_score (matches_of ls k') ≤ best_score (matches_of ls k)) ∧
    new = join NL (others ls ++ (shown ≫= λ k, select_in_file (matches_of ls k) per_file) ++
      (if bool_decide (length shown < length files)
       then [files_marker (length files - length shown)] else [])).
Proof.
  intros Hc ls files per_file limit. unfold compress_search in Hc. fold ls per_file limit in Hc.
  destruct (group_lines_spec ls) as (Ho & Hp & _). set (g := group_lines ls) in *.
  case_bool_decide; [done|].
  assert (NoDup (order g)) as Hnd by (rewrite Ho; apply NoDup_firsts).
  pose proof (kept_files_spec g limit Hnd) as Hk. cbv zeta in Hk. fold files in Ho.
  set (shown := List.filter (λ k, bool_decide (k ∈ kept_files g limit)) (order g)) in *.
  destruct Hk as [Hlen Hbest]. exists shown.
  split_and!.
  - rewrite <-Ho. apply sublist_filter_bool.
  - by rewrite Hlen, Ho.
  - intros k k' Hk Hk' Hn. rewrite <-!group_of_spec. apply Hbest; [done|by rewrite Ho|done].
  - rewrite filter_negb_length in Hc. fold shown in Hc. rewrite Ho, Hp in Hc. cbv zeta in Hc.
    assert ((shown ≫= λ k, select_in_file (group_of g k) per_file) =
            (shown ≫= λ k, select_in_file (matches_of ls k) per_file)) as Hb.
    { apply list_bind_ext; [|done]. intros k. unfold g. by rewrite group_of_spec. }
    rewrite Hb in Hc. destruct (Nat.ltb_spec 0 (length files - length shown)).
    + rewrite bool_decide_true by lia. simplify_eq. by rewrite <-app_assoc.
    + rewrite bool_decide_false by lia. simplify_eq. by rewrite app_nil_r.
Qed.
End search.

Definition search_matches : list string :=
  ["f:1:a"; "f:2:b"; "f:3:an error"; "f:4:c"; "f:5:d"].

Lemma select_in_file_top_k_witness :
  @select_in_file ascii_only search_matches 3 =
    ["f:1:a"; "[llm-compress: skipped 1 matches]"; "f:3:an error";
     "[llm-compress: skipped 1 matches]"; "f:5:d"] ∧
  ∃ toks, @select_in_file ascii_only search_matches 3 = render match_marker <$> toks ∧
          length (kept toks) = 3.
Proof.
  split; [vm_compute; reflexivity|].
  destruct (@select_in_file_top_k ascii_only search_matches 3 ltac:(lia) ltac:(simpl; lia))
    as (toks & Hs & _ & Hk & _).
  exists toks. split; [exact Hs|exact Hk].
Defined.

Definition search_budget : Budget :=
  {| budget_cfg := {| c_enabled := true; per_item_min_bytes := 1; truncate := TruncateCfg_default;
       json := JsonCfg_default; diff := DiffCfg_default; log := LogCfg_default;
       preprocess := PreprocessCfg_default; search := {| max_per_file := 2; max_files := 1 |};
       protect := ProtectCfg_default; ccr := CcrCfg_default |};
     budget_cmd := None |}.

Definition search_text : string :=
  join NL ["a.rs:1:x"; "b.rs:2:an error"; "b.rs:3:y"; "b.rs:4:z"; "Binary file matches"].

Lemma search_structure_witness :
  ∃ new (shown : list string), @compress_search ascii_only search_text search_budget = Some new ∧
    length shown = 1 ∧ new = join NL ["Binary file matches"; "b.rs:2:an error";
      "[llm-compress: skipped 1 matches]"; "b.rs:4:z"; "[llm-compress: skipped 1 files]"].
Proof.
  destruct (@compress_search ascii_only search_text search_budget) as [new|] eqn:E.
  - destruct (@search_structure ascii_only search_text search_budget new E)
      as (shown & _ & Hl & _ & _).
    exists new, shown. split_and!; [reflexivity|exact Hl|].
    vm_compute in E. injection E as <-. reflexivity.
  - vm_compute in E. discriminate E.
Defined.
