(* ===== verification/Tabular.v ===== *)
(** * llm-compress: JSON and tables as TOON

    zmod/llm-compress/src/compress/toon.rs, json.rs and tabular.rs.  The TOON codec is
    third-party and a parameter; the compressors never trust it: a product is used only
    after it was decoded back. *)

From S2P Require Import Prelude Str Json Protocol CompressConfig Router.

(** [toon_format::encode_default] and [decode_default]; they may fail or panic. *)
Class Toon := {
  toon_encode : Value → Call (Result string string);
  toon_decode : string → Call (Result Value string);
}.

Definition encode_checked `{Toon} (value : Value) : Call (option string) :=
  let! encoded := toon_encode value in
  match encoded with
  | Err _ => Returned None
  | Ok toon =>
      let! decoded := toon_decode toon in
      match decoded with
      | Err _ => Returned None
      | Ok back => Returned (if value_eqb back value then Some toon else None)
      end
  end.

(** The size gate of both compressors. *)
Definition toon_gate (text toon : string) (budget : Budget) : option string :=
  if (String.length toon <? String.length text) &&
     (String.length toon <=? max_bytes (truncate (budget_cfg budget)))
  then Some toon else None.

(** [try_toon] of json.rs *)
Definition json_value `{SerdeJson} (text : string) : option Value :=
  match from_str text with
  | Ok (VObject o) => Some (VObject o)
  | Ok (VArray l) => Some (VArray l)
  | _ => None
  end.

Definition json_try_toon `{SerdeJson, Toon} (text : string) (budget : Budget) : Call (option string) :=
  if negb (use_toon (json (budget_cfg budget))) then Returned None
  else
    match json_value text with
    | None => Returned None
    | Some value =>
        let! checked := encode_checked value in
        match checked with
        | None => Returned None
        | Some toon => Returned (toon_gate text toon budget)
        end
    end.

(** [detect] and [compress] are the same in both compressors, over their [try_toon]. *)
Definition toon_detect (try_toon : Call (option string)) : Call bool :=
  let! o := try_toon in Returned (bool_decide (is_Some o)).

Definition toon_compress (text : string) (try_toon : Call (option string)) : Call CompressOutcome :=
  let! o := try_toon in
  match o with
  | Some toon =>
      let saved := String.length text - String.length toon in
      Returned (if saved =? 0 then Unchanged else Compressed toon saved false KToon)
  | None => Returned Unchanged
  end.

Definition JsonCompressor `{SerdeJson, Toon} : Compressor :=
  {| cname := "json"; detect text budget := toon_detect (json_try_toon text budget);
     compress text budget := toon_compress text (json_try_toon text budget) |}.

(** ** Tables *)

Definition split_cells (is_md : bool) (line : string) : list string :=
  if is_md then
    let t := trim_end_char "|"%char (trim_start_char "|"%char (trim line)) in
    trim <$> split_char "|"%char t
  else if contains_char tab line then trim <$> split_char tab line
  else trim <$> split_char ","%char line.

(** A separator row of a Markdown table. *)
Definition is_separator (line : string) : bool :=
  forallb (λ c, byte_eqb c "|"%char || byte_eqb c "-"%char || byte_eqb c ":"%char || byte_eqb c " "%char)
    (as_bytes line).

(** [seen.insert(h)] false for some [h] *)
Fixpoint has_duplicate (seen : gset string) (l : list string) : bool :=
  match l with
  | [] => false
  | h :: l' => if bool_decide (h ∈ seen) then true else has_duplicate ({[h]} ∪ seen) l'
  end.

Definition parse_table (text : string) : option (list (list string)) :=
  let raw_lines := List.filter (λ l, negb (str_is_empty (trim l))) (lines text) in
  match raw_lines with
  | first :: _ :: _ =>
      let is_md := starts_with "|" (trim_start first) in
      if contains_char double_quote text then None
      else
        let rows := split_cells is_md <$> List.filter (λ l, negb (is_md && is_separator l)) raw_lines in
        match rows with
        | header :: _ :: _ =>
            let ncol := length header in
            if ncol =? 0 then None
            else if existsb str_is_empty header then None
            else if has_duplicate ∅ header then None
            else if existsb (λ r, negb (length r =? ncol)) rows then None
            else Some rows
        | _ => None
        end
  | _ => None
  end.

(** One row as an object: [m.insert(key, row[i])] for each column. *)
Definition row_object (header row : list string) : Value :=
  VObject (foldl (λ m kc, obj_insert kc.1 (VString kc.2) m) [] (zip header row)).

Definition table_value (table : list (list string)) : Value :=
  match table with
  | header :: rows => VArray (row_object header <$> rows)
  | [] => VArray []
  end.

Definition tabular_try_toon `{Toon} (text : string) (budget : Budget) : Call (option string) :=
  if negb (use_toon (json (budget_cfg budget))) then Returned None
  else
    match parse_table text with
    | None => Returned None
    | Some table =>
        let! checked := encode_checked (table_value table) in
        match checked with
        | None => Returned None
        | Some toon => Returned (toon_gate text toon budget)
        end
    end.

Definition TabularCompressor `{Toon} : Compressor :=
  {| cname := "tabular"; detect text budget := toon_detect (tabular_try_toon text budget);
     compress text budget := toon_compress text (tabular_try_toon text budget) |}.

(** ** Properties *)

Lemma toon_compress_some text tr new saved lossy kind :
  toon_compress text tr = Returned (Compressed new saved lossy kind) →
  tr = Returned (Some new) ∧ String.length new < String.length text ∧
  saved = String.length text - String.length new ∧ lossy = false ∧ kind = KToon.
Proof.
  unfold toon_compress. destruct tr as [[toon|]|]; simpl; try done.
  destruct (Nat.eqb_spec (String.length text - String.length toon) 0); [done|].
  intros; simplify_eq. split_and!; [done|lia|done|done|done].
Qed.

#[global] Instance json_ok `{SerdeJson, Toon} : CompressorOk JsonCompressor.
Proof.
  apply compressor_ok_intro. simpl.
  intros text budget new saved lossy kind (_ & ? & -> & -> & ->)%toon_compress_some. auto.
Qed.

#[global] Instance tabular_ok `{Toon} : CompressorOk TabularCompressor.
Proof.
  apply compressor_ok_intro. simpl.
  intros text budget new saved lossy kind (_ & ? & -> & -> & ->)%toon_compress_some. auto.
Qed.

Lemma encode_checked_some `{Toon} v toon :
  encode_checked v = Returned (Some toon) →
  ∃ back, toon_decode toon = Returned (Ok back) ∧ value_eqb back v = true.
Proof.
  unfold encode_checked. destruct (toon_encode v) as [[t|]|]; simpl; try done.
  destruct (toon_decode t) as [[back|]|] eqn:E; simpl; try done.
  destruct (value_eqb back v) eqn:Ev; [|done]. intros; simplify_eq. eauto.
Qed.

Lemma toon_gate_some text toon budget t :
  toon_gate text toon budget = Some t →
  t = toon ∧ String.length toon < String.length text ∧
  String.length toon ≤ max_bytes (truncate (budget_cfg budget)).
Proof.
  unfold toon_gate. destruct (_ && _) eqn:E; [|done]. apply andb_true_iff in E as [E1 E2].
  apply Nat.ltb_lt in E1. apply Nat.leb_le in E2. naive_solver.
Qed.

Section toon.
Context `{SerdeJson, Toon}.

(** What the text of a TOON product stands for. *)
Definition meant (c : Compressor) (text : string) : option Value :=
  if str_eqb (cname c) "json" then json_value text else table_value <$> parse_table text.

(** A TOON product loses nothing, whatever the codec does: decoding it gives
    back a value equal to the JSON or the table the text holds; it is shorter than the
    text and within [max_bytes]; and it is marked lossless. *)
Theorem toon_products_decode c text budget new saved lossy kind :
  c = JsonCompressor ∨ c = TabularCompressor →
  compress c text budget = Returned (Compressed new saved lossy kind) →
  lossy = false ∧ kind = KToon ∧ String.length new < String.length text ∧
  String.length new ≤ max_bytes (truncate (budget_cfg budget)) ∧
  ∃ v back, meant c text = Some v ∧ toon_decode new = Returned (Ok back) ∧ value_eqb back v = true.
Proof.
  intros [-> | ->] Hc; simpl in Hc; apply toon_compress_some in Hc as (Ht & Hl & _ & -> & ->).
  - unfold json_try_toon in Ht. destruct (negb _); [done|].
    destruct (json_value text) as [v|] eqn:Ev; [|done].
    destruct (encode_checked v) as [[toon|]|] eqn:Ee; simpl in Ht; try done.
    injection Ht as Ht. apply toon_gate_some in Ht as (-> & ? & ?).
    apply encode_checked_some in Ee as (back & ? & ?). split_and!; try done. by exists v, back.
  - unfold tabular_try_toon in Ht. destruct (negb _); [done|].
    destruct (parse_table text) as [tbl|] eqn:Ev; [|done].
    destruct (encode_checked (table_value tbl)) as [[toon|]|] eqn:Ee; simpl in Ht; try done.
    injection Ht as Ht. apply toon_gate_some in Ht as (-> & ? & ?).
    apply encode_checked_some in Ee as (back & ? & ?). split_and!; try done.
    exists (table_value tbl), back. unfold meant. simpl. by rewrite Ev.
Qed.
End toon.

Lemma has_duplicate_false seen l :
  has_duplicate seen l = false → NoDup l ∧ ∀ h, h ∈ l → h ∉ seen.
Proof.
  revert seen; induction l as [|h l IH]; intros seen; simpl.
  - intros _. split; [constructor|set_solver].
  - case_bool_decide as Hh; [done|]. intros (Hnd & Hl)%IH. split.
    + constructor; [|done]. intros Hin. specialize (Hl h Hin). set_solver.
    + intros x [->|Hx]%elem_of_cons; [done|]. specialize (Hl x Hx). set_solver.
Qed.

Lemma row_object_get m header row i k c :
  NoDup header → header !! i = Some k → row !! i = Some c →
  obj_get k (foldl (λ m kc, obj_insert kc.1 (VString kc.2) m) m (zip header row)) = Some (VString c).
Proof.
  intros Hnd. revert m row i; induction Hnd as [|h header Hh Hnd IH]; intros m row i Hk Hc; [done|].
  destruct row as [|r row]; [done|]. destruct i as [|i]; simplify_eq/=; [|by eapply IH].
  assert (∀ (l : list (string * string)) m, (∀ kc, kc ∈ l → kc.1 ≠ k) →
    obj_get k (foldl (λ m kc, obj_insert kc.1 (VString kc.2) m) m l) = obj_get k m) as Haux.
  { clear. induction l as [|[k' c'] l IHl]; intros m Hl; simpl; [done|].
    rewrite IHl by (intros; apply Hl; by right). rewrite obj_insert_ne; [done|].
    apply (Hl (k', c')). by left. }
  rewrite Haux; [apply obj_insert_eq|].
  intros [k' c'] Hin <-. simpl in *. apply elem_of_zip_l in Hin. done.
Qed.

(** A text is read as a table only when it is one: at least a header and a
    row, every row as wide as the header, column names non-empty and distinct; and each
    cell can be read back from the table's value under its row and column name. *)
Theorem parse_table_sound text table :
  parse_table text = Some table →
  ∃ header rows, table = header :: rows ∧ rows ≠ [] ∧ header ≠ [] ∧ NoDup header ∧
    (∀ h, h ∈ header → h ≠ EmptyString) ∧
    (∀ r, r ∈ rows → length r = length header) ∧
    (∀ i j r k c, rows !! i = Some r → header !! j = Some k → r !! j = Some c →
       ∃ objs o, table_value table = VArray objs ∧ objs !! i = Some o ∧ get_str o k = Some c).
Proof.
  unfold parse_table. intros Ht.
  destruct (List.filter _ (lines text)) as [|l1 [|l2 ls]]; try done.
  destruct (contains_char double_quote text); [done|]. cbv zeta in Ht.
  destruct (split_cells _ <$> _) as [|header [|r1 rows]]; try done.
  destruct (Nat.eqb_spec (length header) 0) as [|Hn]; [done|].
  destruct (existsb str_is_empty header) eqn:He; [done|].
  destruct (has_duplicate ∅ header) eqn:Hd; [done|].
  destruct (existsb _ (header :: _)) eqn:Hw; [done|]. simplify_eq.
  apply has_duplicate_false in Hd as [Hnd _].
  exists header, (r1 :: rows). split_and!; try done.
  - by destruct header.
  - intros h Hh ->. assert (existsb str_is_empty header = true) as Hx; [|congruence].
    apply existsb_exists. exists EmptyString. split; [by apply list_elem_of_In|done].
  - intros r Hr. destruct (decide (length r = length header)) as [|Hne]; [done|].
    assert (existsb (λ r, negb (length r =? length header)) (header :: r1 :: rows) = true) as Hx; [|congruence].
    apply existsb_exists. exists r. split; [apply list_elem_of_In; by right|].
    by apply negb_true_iff, Nat.eqb_neq.
  - intros i j r k c Hr Hk Hc. eexists _, (row_object header r). split; [done|].
    rewrite list_lookup_fmap, Hr. split; [done|].
    unfold get_str, row_object. simpl. by rewrite (row_object_get [] header r j k c).
Qed.

(** A codec that writes every value as the same short text, and reads it back as one
    table: enough to run the compressors. *)
Definition table_example : string := join NL ["name,size"; "alpha,1"; "beta,2"].

Definition table_parsed : list (list string) := [["name"; "size"]; ["alpha"; "1"]; ["beta"; "2"]].

Definition toon_toy : Toon :=
  {| toon_encode _ := Returned (Ok "toon"); toon_decode _ := Returned (Ok (table_value table_parsed)) |}.

Definition toon_budget : Budget := {| budget_cfg := CompressCfg_default; budget_cmd := None |}.

Lemma parse_table_sound_witness :
  ∃ objs o, table_value table_parsed = VArray objs ∧ objs !! 1 = Some o ∧ get_str o "size" = Some "2".
Proof.
  destruct (parse_table_sound table_example table_parsed eq_refl)
    as (header & rows & Heq & _ & _ & _ & _ & _ & Hc).
  injection Heq as <- <-. apply (Hc 1 1 ["beta"; "2"] "size" "2"); reflexivity.
Defined.

Lemma toon_products_decode_witness :
  ∃ back, @toon_decode toon_toy "toon" = Returned (Ok back) ∧
          value_eqb back (table_value table_parsed) = true.
Proof.
  destruct (@toon_products_decode serde_toy toon_toy (@TabularCompressor toon_toy) table_example
    toon_budget "toon" 20 false KToon (or_intror eq_refl) eq_refl)
    as (_ & _ & _ & _ & v & back & Hm & Hd & He).
  exists back. split; [exact Hd|]. vm_compute in Hm. injection Hm as <-. exact He.
Defined.
