(* ===== verification/Preprocess.v ===== *)
(** * llm-compress: preprocessing

    zmod/llm-compress/src/preprocess.rs: five passes over the lines of a text. *)

From S2P Require Import Prelude Str Json Protocol CompressConfig.

Definition MARKER_PREFIX : string := "[llm-compress: ".

(** ** Progress lines *)

(** [str::parse::<f64>().is_ok()]: an optional sign, then [inf], [infinity] or [nan] in
    any case, or digits with an optional point and exponent. *)
Definition strip_sign (bs : list ascii) : list ascii :=
  match bs with
  | b :: r => if byte_eqb b "+"%char || byte_eqb b "-"%char then r else bs
  | [] => bs
  end.

Definition is_exponent (bs : list ascii) : bool :=
  match bs with
  | [] => true
  | b :: r =>
      (byte_eqb b "e"%char || byte_eqb b "E"%char) &&
      let ds := strip_sign r in negb (bool_decide (ds = [])) && forallb is_ascii_digit ds
  end.

Definition is_decimal (bs : list ascii) : bool :=
  let int := take_while is_ascii_digit bs in
  match drop_while is_ascii_digit bs with
  | b :: r =>
      if byte_eqb b "."%char then
        let frac := take_while is_ascii_digit r in
        negb (bool_decide (int = []) && bool_decide (frac = [])) &&
        is_exponent (drop_while is_ascii_digit r)
      else negb (bool_decide (int = [])) && is_exponent (b :: r)
  | [] => negb (bool_decide (int = []))
  end.

Definition parses_f64 (s : string) : bool :=
  let bs := strip_sign (as_bytes s) in
  let lower := of_bytes (lower_byte <$> bs) in
  str_eqb lower "inf" || str_eqb lower "infinity" || str_eqb lower "nan" || is_decimal bs.

Definition is_progress_line (line : string) : bool :=
  let t := trim_start line in
  if starts_with "Downloading" t || starts_with "Downloaded" t || starts_with "Fetching" t then true
  else if contains_char carriage_return line then true
  else
    let has_pct := existsb (λ w, ends_with "%" w && parses_f64 (trim_end_char "%"%char w))
                     (split_whitespace t) in
    has_pct && (contains_char "["%char t || contains_char "#"%char t || contains_char "="%char t).

Definition strip_progress (text : string) : string * bool :=
  let ls := split_char newline text in
  (join NL (List.filter (λ l, negb (is_progress_line l)) ls), existsb is_progress_line ls).

(** ** Blobs *)

(** [c] is one character of a text; only ASCII ones are in the alphabet. *)
Definition is_b64_char (c : string) : bool :=
  match c with
  | String a EmptyString =>
      is_ascii_alnum a || byte_eqb a "+"%char || byte_eqb a "/"%char || byte_eqb a "="%char
      || byte_eqb a "-"%char || byte_eqb a "_"%char
  | _ => false
  end.

Definition is_blobish (s : string) : bool :=
  if starts_with "data:" s then true
  else
    let b := default s (strip_prefix "data:" s) in
    let b64_ratio := length (List.filter is_b64_char (chars b)) in
    negb (str_is_empty b) && (b64_ratio =? String.length b).

Definition is_blob_line (min_bytes : nat) (line : string) : bool :=
  let trimmed := trim line in (min_bytes <=? String.length trimmed) && is_blobish trimmed.

Definition fold_blob (min_bytes : nat) (line : string) : string :=
  if is_blob_line min_bytes line
  then "[llm-compress: base64 " +:+ (fmt_nat (String.length (trim line)) +:+ " bytes]")
  else line.

Definition blob_fold (text : string) (min_bytes : nat) : string * bool :=
  let ls := split_char newline text in
  (join NL (fold_blob min_bytes <$> ls), existsb (is_blob_line min_bytes) ls).

(** ** Blank lines *)

Definition is_blank (line : string) : bool := str_is_empty (trim line).

Fixpoint collapse_blank_loop (prev_blank : bool) (ls : list string) : list string :=
  match ls with
  | [] => []
  | line :: ls' =>
      let blank := is_blank line in
      if blank && prev_blank then collapse_blank_loop prev_blank ls'
      else line :: collapse_blank_loop blank ls'
  end.

Definition collapse_blank (text : string) : string :=
  join NL (collapse_blank_loop false (split_char newline text)).

(** ** Long lines *)

Definition truncate_line (max : nat) (line : string) : string :=
  if max <? String.length line then cut_at max line +:+ "[llm-compress: line truncated]" else line.

Definition truncate_lines (text : string) (max : nat) : string * bool :=
  let ls := split_char newline text in
  (join NL (truncate_line max <$> ls), existsb (λ l, max <? String.length l) ls).

(** ** Repeated lines *)

Inductive DTok := DLine (line : string) | DTimes (count : nat).

Definition emit_run (cur : string) (count : nat) : list DTok :=
  DLine cur :: (if 2 <=? count then [DTimes count] else []).

(** The nested loops: [cur] has been seen [count] times in a row; placeholder lines do
    not fold. *)
Fixpoint dedup_loop (cur : string) (count : nat) (rest : list string) : list DTok :=
  match rest with
  | [] => emit_run cur count
  | l :: rest' =>
      if str_eqb l cur && negb (starts_with MARKER_PREFIX cur)
      then dedup_loop cur (S count) rest'
      else emit_run cur count ++ dedup_loop l 1 rest'
  end.

Definition dedup_toks (ls : list string) : list DTok :=
  match ls with
  | [] => []
  | cur :: rest => dedup_loop cur 1 rest
  end.

Definition dedup_render (t : DTok) : string :=
  match t with
  | DLine line => line
  | DTimes count => "[llm-compress: previous line ×" +:+ (fmt_nat count +:+ "]")
  end.

Definition dedup_consecutive (text : string) : string :=
  join NL (dedup_render <$> dedup_toks (split_char newline text)).

(** ** The pipeline *)

Definition run (text : string) (cfg : PreprocessCfg) : string * bool :=
  let '(s, lossy) := if cfg_strip_progress cfg then strip_progress text else (text, false) in
  let '(s, lossy) :=
    if 0 <? blob_min_bytes cfg
    then let '(ns, changed) := blob_fold s (blob_min_bytes cfg) in (ns, lossy || changed)
    else (s, lossy) in
  let s := if cfg_collapse_blank cfg then collapse_blank s else s in
  let '(s, lossy) :=
    if 0 <? truncate_line_bytes cfg
    then let '(ns, changed) := truncate_lines s (truncate_line_bytes cfg) in (ns, lossy || changed)
    else (s, lossy) in
  let s := if cfg_dedup_consecutive cfg then dedup_consecutive s else s in
  (s, lossy).

(** ** Properties *)

Lemma join_lines_id s : join NL (split_char newline s) = s.
Proof. apply join_split_char. Qed.

Lemma strip_progress_id s : (strip_progress s).2 = false → (strip_progress s).1 = s.
Proof.
  unfold strip_progress. cbn [fst snd]. intros He. rewrite filter_all; [apply join_lines_id|].
  intros l Hl. apply negb_true_iff. destruct (is_progress_line l) eqn:E; [|done].
  rewrite <-He. symmetry. apply existsb_exists. exists l. by rewrite <-list_elem_of_In.
Qed.

Lemma map_lines_id (f : string → string) (p : string → bool) s :
  (∀ l, p l = false → f l = l) → existsb p (split_char newline s) = false →
  join NL (f <$> split_char newline s) = s.
Proof.
  intros Hf He. rewrite <-(join_lines_id s) at 2. f_equal.
  rewrite <-(list_fmap_id (split_char newline s)) at 2. apply list_fmap_ext.
  intros i l Hl. unfold id. apply Hf. destruct (p l) eqn:E; [|done]. rewrite <-He. symmetry.
  apply existsb_exists. exists l. rewrite <-list_elem_of_In. split; [by eapply list_elem_of_lookup_2|done].
Qed.

Lemma blob_fold_id s n : (blob_fold s n).2 = false → (blob_fold s n).1 = s.
Proof.
  apply map_lines_id. intros l Hl. unfold fold_blob. by rewrite Hl.
Qed.

Lemma truncate_lines_id s n : (truncate_lines s n).2 = false → (truncate_lines s n).1 = s.
Proof.
  apply map_lines_id. intros l Hl. unfold truncate_line. by rewrite Hl.
Qed.

(** The [lossy] flag is honest: when preprocessing reports that nothing was
    deleted, the passes that delete changed nothing and the result is the original with
    only blank runs collapsed and repeated lines folded. *)
Theorem preprocess_not_lossy text cfg s :
  run text cfg = (s, false) →
  let t := if cfg_collapse_blank cfg then collapse_blank text else text in
  s = if cfg_dedup_consecutive cfg then dedup_consecutive t else t.
Proof.
  unfold run. intros Hr.
  assert (∀ (b : bool) r0, (if b then strip_progress text else (text, false)) = r0 →
    r0.2 = false → r0.1 = text) as H1.
  { intros [] r0 <-; [apply strip_progress_id|done]. }
  destruct (if cfg_strip_progress cfg then _ else _) as [s1 l1] eqn:E1.
  specialize (H1 _ _ E1). simpl in H1.
  destruct (if 0 <? blob_min_bytes cfg then _ else _) as [s2 l2] eqn:E2.
  assert (l2 = false → l1 = false ∧ s2 = s1) as H2.
  { destruct (0 <? blob_min_bytes cfg); [|naive_solver].
    destruct (blob_fold s1 (blob_min_bytes cfg)) as [ns ch] eqn:Eb. injection E2 as <- <-.
    intros [-> ->]%orb_false_iff. split; [done|].
    pose proof (blob_fold_id s1 (blob_min_bytes cfg)) as Hb. rewrite Eb in Hb. by apply Hb. }
  set (s3 := if cfg_collapse_blank cfg then collapse_blank s2 else s2) in *.
  destruct (if 0 <? truncate_line_bytes cfg then _ else _) as [s4 l4] eqn:E4.
  assert (l4 = false → l2 = false ∧ s4 = s3) as H4.
  { destruct (0 <? truncate_line_bytes cfg); [|naive_solver].
    destruct (truncate_lines s3 (truncate_line_bytes cfg)) as [ns ch] eqn:Et. injection E4 as <- <-.
    intros [-> ->]%orb_false_iff. split; [done|].
    pose proof (truncate_lines_id s3 (truncate_line_bytes cfg)) as Hb. rewrite Et in Hb. by apply Hb. }
  simplify_eq. destruct (H4 eq_refl) as [-> ->]. destruct (H2 eq_refl) as [-> ->].
  unfold s3. by rewrite (H1 eq_refl).
Qed.

Lemma preprocess_not_lossy_witness :
  run (join NL ["a"; EmptyString; EmptyString; "b"; "b"]) PreprocessCfg_default =
    (join NL ["a"; EmptyString; "b"; "[llm-compress: previous line ×2]"], false) ∧
  join NL ["a"; EmptyString; "b"; "[llm-compress: previous line ×2]"] =
    dedup_consecutive (collapse_blank (join NL ["a"; EmptyString; EmptyString; "b"; "b"])).
Proof.
  split; [vm_compute; reflexivity|].
  apply (preprocess_not_lossy (join NL ["a"; EmptyString; EmptyString; "b"; "b"]) PreprocessCfg_default).
  vm_compute. reflexivity.
Defined.

(** *** Folding repeated lines is reversible *)

(** Undo the folding: a repeat mark stands for [count - 1] more copies of its line. *)
Fixpoint undedup (prev : string) (ts : list DTok) : list string :=
  match ts with
  | [] => []
  | DLine line :: ts' => line :: undedup line ts'
  | DTimes count :: ts' => replicate (count - 1) prev ++ undedup prev ts'
  end.

Lemma undedup_emit p cur count ts :
  1 ≤ count →
  undedup p (emit_run cur count ++ ts) = replicate count cur ++ undedup cur ts.
Proof.
  intros Hc. unfold emit_run. destruct (Nat.leb_spec 2 count); cbn [app undedup].
  - by destruct count as [|[|count]]; [lia|lia|].
  - by assert (count = 1) as -> by lia.
Qed.

Lemma undedup_loop p cur count rest :
  1 ≤ count → undedup p (dedup_loop cur count rest) = replicate count cur ++ rest.
Proof.
  revert p cur count; induction rest as [|l rest IH]; intros p cur count Hc; cbn [dedup_loop].
  - rewrite <-(app_nil_r (emit_run cur count)), undedup_emit by done. done.
  - destruct (str_eqb l cur && _) eqn:E.
    + apply andb_true_iff in E as [->%str_eqb_true _]. rewrite IH by lia.
      change (replicate (S count) cur) with (cur :: replicate count cur).
      rewrite replicate_cons_app, <-app_assoc. done.
    + rewrite undedup_emit, IH by lia. done.
Qed.

(** Folding repeated lines deletes nothing: the folded text is lines and
    repeat marks, no line that was already a mark is folded, and replaying the marks gives
    back the original lines, every one. *)
Theorem dedup_reversible text :
  ∃ toks, dedup_consecutive text = join NL (dedup_render <$> toks) ∧
          undedup EmptyString toks = split_char newline text.
Proof.
  exists (dedup_toks (split_char newline text)). split; [done|].
  destruct (split_char newline text) as [|cur rest]; [done|]. simpl. by rewrite undedup_loop by lia.
Qed.

(** *** Blank lines *)

Lemma collapse_blank_sublist b ls : collapse_blank_loop b ls `sublist_of` ls.
Proof.
  revert b; induction ls as [|l ls IH]; intros b; simpl; [constructor|].
  destruct (is_blank l && b); by constructor.
Qed.

Lemma collapse_blank_content b ls :
  List.filter (λ l, negb (is_blank l)) (collapse_blank_loop b ls) =
  List.filter (λ l, negb (is_blank l)) ls.
Proof.
  revert b; induction ls as [|l ls IH]; intros b; simpl; [done|].
  destruct (is_blank l) eqn:E; simpl; [|rewrite E; simpl; by rewrite IH].
  destruct b; simpl; [apply IH|]. rewrite E. simpl. apply IH.
Qed.

Fixpoint no_double_blank (prev_blank : bool) (ls : list string) : bool :=
  match ls with
  | [] => true
  | l :: ls' => negb (is_blank l && prev_blank) && no_double_blank (is_blank l) ls'
  end.

Lemma collapse_blank_single b ls : no_double_blank b (collapse_blank_loop b ls) = true.
Proof.
  revert b; induction ls as [|l ls IH]; intros b; simpl; [done|].
  destruct (is_blank l && b) eqn:E; [apply IH|]. simpl. rewrite E. simpl. apply IH.
Qed.

Lemma collapse_blank_nonempty ls : ls ≠ [] → collapse_blank_loop false ls ≠ [].
Proof. destruct ls as [|l ls]; [done|]. simpl. by rewrite andb_false_r. Qed.

Lemma sublist_Forall {A} (P : A → Prop) l k : l `sublist_of` k → Forall P k → Forall P l.
Proof. induction 1; inversion 1; subst; auto. Qed.

(** Collapsing blank lines only removes blank lines: the lines of the result
    are some of the original's in order, every non-blank line among them, and no two
    blank lines are adjacent. *)
Theorem collapse_blank_spec text :
  let out := split_char newline (collapse_blank text) in
  out `sublist_of` split_char newline text ∧
  List.filter (λ l, negb (is_blank l)) out =
    List.filter (λ l, negb (is_blank l)) (split_char newline text) ∧
  no_double_blank false out = true.
Proof.
  unfold collapse_blank. set (ls := split_char newline text).
  assert (split_char newline (join NL (collapse_blank_loop false ls)) = collapse_blank_loop false ls) as Hs.
  { apply split_char_join; [apply collapse_blank_nonempty, split_char_nonempty|].
    eapply sublist_Forall; [apply collapse_blank_sublist|apply split_char_no_sep]. }
  cbv zeta. rewrite Hs.
  split_and!; [apply collapse_blank_sublist|apply collapse_blank_content|apply collapse_blank_single].
Qed.

(** *** Line length *)

Definition LINE_MARK : string := "[llm-compress: line truncated]".

(** Cutting long lines keeps line structure and bounds every line: the result
    has the same number of lines; a line within the limit is unchanged; a longer one is
    its longest prefix of whole characters within the limit, plus a mark; and well-formed
    text stays well formed. *)
Theorem truncate_lines_spec text m :
  let ls := split_char newline text in
  ∃ out, (truncate_lines text m).1 = join NL out ∧ length out = length ls ∧
    ∀ i l, ls !! i = Some l → ∃ o, out !! i = Some o ∧
      String.length o ≤ m + String.length LINE_MARK ∧
      (utf8_valid l = true → utf8_valid o = true) ∧
      ((String.length l ≤ m ∧ o = l) ∨
       (m < String.length l ∧ ∃ k, o = concat_str (take k (chars l)) +:+ LINE_MARK ∧
          ∀ ch, chars l !! k = Some ch →
            m < String.length (concat_str (take k (chars l))) + String.length ch)).
Proof.
  intros ls. exists (truncate_line m <$> ls). split_and!; [done|by rewrite length_fmap|].
  intros i l Hl. exists (truncate_line m l). rewrite list_lookup_fmap, Hl. split; [done|].
  unfold truncate_line. destruct (Nat.ltb_spec m (String.length l)) as [Hlt|Hge].
  - destruct (cut_at_spec m l) as (k & Hk & Hle & Hmax). rewrite str_len_app.
    change (String.length "[llm-compress: line truncated]") with (String.length LINE_MARK).
    split_and!; [lia|intros Hv; apply utf8_valid_app; [by apply cut_at_valid|reflexivity]|].
    right. split; [done|]. exists k. rewrite Hk in *. split; [done|]. exact Hmax.
  - split_and!; [lia|done|]. by left.
Qed.

(** *** Carriage returns *)

Lemma progress_of_cr l : contains_char carriage_return l = true → is_progress_line l = true.
Proof. intros H. unfold is_progress_line. rewrite H. by destruct (_ || _). Qed.

(** Every line that holds a carriage return counts as a progress line: text
    whose lines end in CR LF loses all of them but the last, unterminated one. *)
Theorem crlf_lines_dropped ls l :
  Forall (λ x, contains_char newline x = false) (l :: ls) →
  strip_progress (concat_str ((λ x, x +:+ String carriage_return NL) <$> ls) +:+ l) =
  (if is_progress_line l then EmptyString else l,
   negb (bool_decide (ls = [])) || is_progress_line l).
Proof.
  intros Hall. inversion Hall as [|? ? Hl Hls]; subst. clear Hall.
  assert (split_char newline (concat_str ((λ x, x +:+ String carriage_return NL) <$> ls) +:+ l) =
          ((λ x, x +:+ String carriage_return EmptyString) <$> ls) ++ [l]) as Hs.
  { induction Hls as [|x ls Hx Hls IH]; simpl; [by apply split_char_single|].
    rewrite <-!str_app_assoc.
    replace (x +:+ (String carriage_return NL +:+ _)) with
      ((x +:+ String carriage_return EmptyString) +:+ String newline
         (concat_str ((λ x, x +:+ String carriage_return NL) <$> ls) +:+ l))
      by (by rewrite <-str_app_assoc).
    rewrite split_char_app_sep by (rewrite contains_char_app, Hx; reflexivity).
    by rewrite IH. }
  unfold strip_progress. rewrite Hs, List.filter_app, existsb_app. clear Hs Hls.
  assert (∀ x, is_progress_line (x +:+ String carriage_return EmptyString) = true) as Hp.
  { intros x. apply progress_of_cr. rewrite contains_char_app. apply orb_true_r. }
  replace (List.filter _ (_ <$> ls)) with (@nil string).
  2:{ clear -Hp. induction ls as [|x ls IH]; [done|]. rewrite fmap_cons. cbn [List.filter].
      rewrite Hp. exact IH. }
  f_equal.
  - simpl. by destruct (is_progress_line l).
  - destruct ls as [|x ls]; cbn [fmap list_fmap existsb]; [by rewrite orb_false_r|].
    rewrite Hp, (bool_decide_false (x :: ls = [])) by done. done.
Qed.

Lemma crlf_lines_dropped_witness :
  strip_progress ("alpha" +:+ String carriage_return NL +:+ ("beta" +:+ String carriage_return NL)) =
  (EmptyString, true).
Proof.
  apply (crlf_lines_dropped ["alpha"; "beta"] EmptyString).
  repeat constructor.
Defined.

Example progress_examples :
  is_progress_line "  [####    ] 80%" = true ∧ is_progress_line "coverage 80%" = false ∧
  parses_f64 "1e5" = true ∧ parses_f64 ".5" = true ∧ parses_f64 "." = false ∧ parses_f64 "-inf" = true.
Proof. repeat split; vm_compute; reflexivity. Qed.
