(* ===== verification/Ccr.v ===== *)
(** * llm-compress: keeping originals on disk

    zmod/llm-compress/src/ccr.rs: the original of a lossily compressed text is written to
    a file of the thread's directory and the text carries its path; old files are deleted
    when the directory exceeds its limits. *)

From S2P Require Import Prelude Str Json Protocol CompressConfig.

(** ** The world

    Files by (directory, name), with their modification time; [clock] is the time of the
    next attempt to store a text.  [written] is the registry of the request. *)
Record File := { content : string; mtime : Z }.

Notation Path := (string * string)%type.

Record World := {
  files : gmap Path File;
  clock : Z;
  written : gmap (string * string) Path;
}.

(** What the code gets from its environment: [HOME], SHA-256, and whether each file
    system call succeeds, which may differ from one attempt to the next: the first argument
    is the time of the attempt, and no attempt makes the same call twice.  A write that fails
    leaves the directory as it was. *)
Class CcrEnv := {
  home : option string;
  sha256 : string → list ascii;
  sha256_length : ∀ s, length (sha256 s) = 32;
  mkdir_ok : Z → string → bool;
  read_dir_ok : Z → string → bool;
  write_ok : Z → Path → bool;
  remove_ok : Z → Path → bool;
}.

(** The context of a request: its query id; the registry is in the [World]. *)
Definition path_display (p : Path) : string := p.1 +:+ ("/" +:+ p.2).

Definition set_files (f : gmap Path File) (w : World) : World :=
  {| files := f; clock := clock w; written := written w |}.

(** Time passes. *)
Definition tick (w : World) : World := {| files := files w; clock := (clock w + 1)%Z; written := written w |}.

Section ccr.
Context `{CcrEnv, HashOrder}.

Definition ccr_root : option string :=
  match home with
  | Some h => Some (h +:+ "/.codex/llm-compress/ccr")
  | None => None
  end.

Definition short_hash (s : string) : string := concat_str (hex_byte <$> take 6 (sha256 s)).

Definition clean_char (c : string) : string :=
  match c with
  | String a EmptyString =>
      if is_ascii_alnum a || byte_eqb a "_"%char || byte_eqb a "-"%char then c else "_"
  | _ => "_"
  end.

Definition sanitize_component (s : string) (max_len : nat) : string :=
  let cleaned := concat_str (clean_char <$> chars s) in
  if (max_len <? String.length cleaned) || str_is_empty cleaned
  then concat_str (hex_byte <$> take 8 (sha256 s))
  else cleaned.

(** ** Limits *)

(** The names in a directory, in the order [read_dir] gives them. *)
Definition dir_names (dir : string) (fs : gmap Path File) : list string :=
  hash_order (elements (set_map snd (filter (λ p : Path, p.1 = dir) (dom fs)) : gset string)).

Definition file_size (f : File) : N := N.of_nat (String.length (content f)).

(** Entries as (name, mtime, size). *)
Definition dir_entries (dir : string) (fs : gmap Path File) : list (string * Z * N) :=
  omap (λ n, (λ f, (n, mtime f, file_size f)) <$> fs !! (dir, n)) (dir_names dir fs).

Definition by_mtime (a b : string * Z * N) : bool := (a.1.2 <=? b.1.2)%Z.

Definition over_limits (cfg : CcrCfg) (count : nat) (total : N) : bool :=
  (max_files_per_thread cfg <? count) || (max_thread_bytes cfg <? total)%N.

(** The deletion loop; [total] is an [u64] with [saturating_sub]. *)
Fixpoint evict (t : Z) (dir : string) (cfg : CcrCfg) (entries : list (string * Z * N)) (count : nat)
    (total : N) (fs : gmap Path File) : gmap Path File :=
  match entries with
  | [] => fs
  | (n, _, sz) :: es =>
      if negb (over_limits cfg count total) then fs
      else if remove_ok t (dir, n)
      then evict t dir cfg es (count - 1) (total - sz)%N (delete (dir, n) fs)
      else evict t dir cfg es count total fs
  end.

Definition total_size (es : list (string * Z * N)) : N := foldr (λ e acc, (e.2 + acc)%N) 0%N es.

Definition enforce_limits (t : Z) (dir : string) (cfg : CcrCfg) (fs : gmap Path File) : gmap Path File :=
  if read_dir_ok t dir then
    let entries := sort_by by_mtime (dir_entries dir fs) in
    evict t dir cfg entries (length entries) (total_size entries) fs
  else fs.

(** ** Persisting *)

Definition file_name (call_id frag_hash : string) : string :=
  sanitize_component call_id 32 +:+ ("-" +:+ (frag_hash +:+ ".txt")).

Definition try_persist (original queryid call_id : string) (cfg : CcrCfg) (w : World) :
  option Path * World :=
  let frag_hash := short_hash original in
  let key := (call_id, frag_hash) in
  match written w !! key with
  | Some p => (Some p, w)
  | None =>
      match ccr_root with
      | None => (None, w)
      | Some root =>
          let thread_dir := root +:+ ("/" +:+ sanitize_component queryid 64) in
          if negb (mkdir_ok (clock w) thread_dir) then (None, tick w)
          else
            let w := set_files (enforce_limits (clock w) thread_dir cfg (files w)) w in
            let path := (thread_dir, file_name call_id frag_hash) in
            if negb (write_ok (clock w) path) then (None, tick w)
            else
              (Some path,
               {| files := <[path := {| content := original; mtime := clock w |}]> (files w);
                  clock := (clock w + 1)%Z;
                  written := <[key := path]> (written w) |})
      end
  end.

Definition pointer (p : Path) : string := " [llm-compress: original " +:+ (path_display p +:+ "]").

Definition attach (compressed original queryid call_id : string) (cfg : CcrCfg) (w : World) :
  string * World :=
  if negb (ccr_enabled cfg) then (compressed, w)
  else if (max_file_bytes cfg <? N.of_nat (String.length original))%N then (original, w)
  else
    match try_persist original queryid call_id cfg w with
    | (Some path, w') =>
        let attached := compressed +:+ pointer path in
        if String.length attached <=? String.length original then (attached, w')
        else (original, w')
    | (None, w') => (original, w')
    end.

(** ** Attaching *)

Lemma try_persist_some original q cid cfg w p w' :
  try_persist original q cid cfg w = (Some p, w') →
  written w' !! (cid, short_hash original) = Some p ∧
  (written w !! (cid, short_hash original) = None → content <$> files w' !! p = Some original).
Proof.
  unfold try_persist. destruct (written w !! _) as [p'|] eqn:E; [naive_solver|].
  destruct ccr_root as [root|]; [|done]. destruct (negb (mkdir_ok _ _)); [done|].
  destruct (negb (write_ok _ _)); [done|]. intros; simplify_eq/=.
  rewrite !lookup_insert_eq. done.
Qed.

Lemma attach_cases compressed original q cid cfg w r w' :
  ccr_enabled cfg = true → attach compressed original q cid cfg w = (r, w') →
  r = original ∨
  ∃ p, r = compressed +:+ pointer p ∧ String.length r ≤ String.length original ∧
    written w' !! (cid, short_hash original) = Some p ∧
    (written w !! (cid, short_hash original) = None → content <$> files w' !! p = Some original).
Proof.
  intros He. unfold attach. rewrite He. cbn [negb].
  destruct (_ <? _)%N; [naive_solver|].
  destruct (try_persist original q cid cfg w) as [[p|] w2] eqn:E; [|naive_solver].
  cbv zeta. destruct (Nat.leb_spec (String.length (compressed +:+ pointer p)) (String.length original));
    intros; simplify_eq; [|by left].
  right. exists p. destruct (try_persist_some _ _ _ _ _ _ _ E) as [? ?]. done.
Qed.

(** With the store enabled, a lossy text is never left without its original:
    the result is the original itself, or the compressed text followed by the path that
    the request registered for this call and text, no longer than the original; and when
    the text was not registered before, that file now holds the original, byte for byte. *)
Theorem attach_retrievable compressed original q cid cfg w r w' :
  ccr_enabled cfg = true → attach compressed original q cid cfg w = (r, w') →
  r = original ∨
  ∃ p, r = compressed +:+ pointer p ∧ String.length r ≤ String.length original ∧
    written w' !! (cid, short_hash original) = Some p ∧
    (written w !! (cid, short_hash original) = None → content <$> files w' !! p = Some original).
Proof. apply attach_cases. Qed.

(** ** Names *)

Definition safe_byte (a : ascii) : bool :=
  is_ascii_alnum a || byte_eqb a "_"%char || byte_eqb a "-"%char.

Lemma forallb_concat (p : ascii → bool) l :
  Forall (λ s, forallb p (as_bytes s) = true) l → forallb p (as_bytes (concat_str l)) = true.
Proof.
  induction 1 as [|s l Hs Hl IH]; [done|]. simpl. by rewrite as_bytes_app, forallb_app, Hs.
Qed.

Lemma clean_char_safe c : forallb safe_byte (as_bytes (clean_char c)) = true ∧ String.length (clean_char c) = 1.
Proof.
  unfold clean_char. destruct c as [|a [|b c]]; [done| |done].
  destruct (is_ascii_alnum a || _ || _) eqn:E; [|done]. simpl. unfold safe_byte. by rewrite E.
Qed.

Lemma hex_digit_safe n : (n < 16)%N → safe_byte (hex_digit n) = true.
Proof.
  intros Hn. assert (n ∈ (N.of_nat <$> seq 0 16)) as Hin.
  { apply list_elem_of_fmap. exists (N.to_nat n). rewrite N2Nat.id, elem_of_seq. split; [done|lia]. }
  assert (forallb (λ n, safe_byte (hex_digit n)) (N.of_nat <$> seq 0 16) = true) as Hall
    by (vm_compute; reflexivity).
  rewrite forallb_forall in Hall. apply Hall. by apply list_elem_of_In.
Qed.

Lemma hex_byte_safe b : forallb safe_byte (as_bytes (hex_byte b)) = true ∧ String.length (hex_byte b) = 2.
Proof.
  split; [|done]. unfold hex_byte. simpl. pose proof (N_ascii_bounded b) as Hb.
  unfold byte_val. rewrite !hex_digit_safe; [done| |].
  - by apply N.mod_lt.
  - apply N.Div0.div_lt_upper_bound. lia.
Qed.

(** Whatever the ids of a thread or a call are, the path components made from
    them are safe: not empty, of letters, digits, [_] and [-] only (so no separator and no
    [..]), and of bounded length. *)
Theorem sanitize_safe s n :
  forallb safe_byte (as_bytes (sanitize_component s n)) = true ∧
  sanitize_component s n ≠ EmptyString ∧ String.length (sanitize_component s n) ≤ max n 16.
Proof.
  unfold sanitize_component. set (cleaned := concat_str _).
  destruct (Nat.ltb_spec n (String.length cleaned)) as [Hlt|Hge];
    [|destruct (str_is_empty cleaned) eqn:He]; cbn [orb].
  1,2: split; [apply forallb_concat, Forall_forall; intros x (b & -> & _)%list_elem_of_fmap; apply hex_byte_safe|];
    (assert (String.length (concat_str (hex_byte <$> take 8 (sha256 s))) = 16) as Hl;
      [rewrite str_len_concat; unfold sum_len;
       pose proof (sha256_length s) as Hs; destruct (sha256 s) as [|? [|? [|? [|? [|? [|? [|? [|? ?]]]]]]]]; done|]);
    (split; [intros H0'; rewrite H0' in Hl; done|lia]).
  split_and!; [|by apply str_is_empty_false|lia].
  apply forallb_concat, Forall_forall. intros x (c & -> & _)%list_elem_of_fmap. apply clean_char_safe.
Qed.

(** ** Eviction *)

(** [es] lists the files of [dir]. *)
Definition lists (dir : string) (es : list (string * Z * N)) (fs : gmap Path File) : Prop :=
  NoDup es.*1.*1 ∧
  ∀ n m z, (n, m, z) ∈ es ↔ ∃ f, fs !! (dir, n) = Some f ∧ m = mtime f ∧ z = file_size f.

Lemma elem_of_dir_names dir fs n : n ∈ dir_names dir fs ↔ is_Some (fs !! (dir, n)).
Proof.
  unfold dir_names. rewrite (hash_order_perm _), elem_of_elements, elem_of_map. split.
  - intros ([d m] & -> & [Hd Hm]%elem_of_filter). simpl in *. subst. by apply elem_of_dom.
  - intros Hs. exists (dir, n). split; [done|]. apply elem_of_filter. split; [done|]. by apply elem_of_dom.
Qed.

Lemma NoDup_dir_names dir fs : NoDup (dir_names dir fs).
Proof. unfold dir_names. rewrite (hash_order_perm _). apply NoDup_elements. Qed.

Lemma dir_entries_fst dir fs : (dir_entries dir fs).*1.*1 = dir_names dir fs.
Proof.
  unfold dir_entries.
  assert (∀ l, (∀ n, n ∈ l → is_Some (fs !! (dir, n))) →
    (omap (λ n, (λ f, (n, mtime f, file_size f)) <$> fs !! (dir, n)) l).*1.*1 = l) as Haux.
  { induction l as [|n l IH]; intros Hl; [done|]. cbn [omap list_omap].
    destruct (Hl n ltac:(left)) as [f Hf]. rewrite Hf. cbn [fmap option_fmap option_map].
    rewrite !fmap_cons. cbn [fst]. f_equal. apply IH. intros m Hm. apply Hl. by right. }
  apply Haux. intros n. apply elem_of_dir_names.
Qed.

Lemma dir_entries_lists dir fs : lists dir (dir_entries dir fs) fs.
Proof.
  split; [rewrite dir_entries_fst; apply NoDup_dir_names|].
  intros n m z. unfold dir_entries. rewrite list_elem_of_omap. split.
  - intros (n' & _ & Hn). destruct (fs !! (dir, n')) eqn:E; simplify_eq/=. eauto.
  - intros (f & Hf & -> & ->). exists n. rewrite Hf. split; [|done]. apply elem_of_dir_names. eauto.
Qed.

Lemma lists_perm dir es es' fs : es ≡ₚ es' → lists dir es fs → lists dir es' fs.
Proof. intros Hp [Hnd Hl]. split; [by rewrite <-Hp|]. intros n m z. by rewrite <-Hp. Qed.

Lemma lists_unique dir es es' fs : lists dir es fs → lists dir es' fs → es ≡ₚ es'.
Proof.
  intros [Hnd Hl] [Hnd' Hl']. apply NoDup_Permutation.
  - by eapply NoDup_fmap_1, NoDup_fmap_1.
  - by eapply NoDup_fmap_1, NoDup_fmap_1.
  - intros [[n m] z]. by rewrite Hl, Hl'.
Qed.

Lemma lists_delete dir n m z es fs :
  lists dir ((n, m, z) :: es) fs → lists dir es (delete (dir, n) fs).
Proof.
  intros [Hnd Hl]. simpl in Hnd. apply NoDup_cons in Hnd as [Hn Hnd]. split; [done|].
  intros n' m' z'. split.
  - intros Hin. assert (n ≠ n') as Hne.
    { intros ->. apply Hn. apply list_elem_of_fmap. exists (n', m'). split; [done|].
      apply list_elem_of_fmap. by exists (n', m', z'). }
    rewrite lookup_delete_ne by congruence. apply Hl. by right.
  - intros (f & Hf & -> & ->). apply lookup_delete_Some in Hf as [Hne Hf].
    assert ((n', mtime f, file_size f) ∈ (n, m, z) :: es) as Hin by (apply Hl; eauto).
    apply elem_of_cons in Hin as [?|?]; [|done]. congruence.
Qed.

(** The loop deletes a prefix of the sorted entries and stops within the limits. *)
Lemma evict_spec t dir cfg es fs :
  (∀ n, remove_ok t (dir, n) = true) → lists dir es fs →
  let fs' := evict t dir cfg es (length es) (total_size es) fs in
  ∃ k, lists dir (drop k es) fs' ∧
    over_limits cfg (length (drop k es)) (total_size (drop k es)) = false ∧
    (∀ j, j < k → over_limits cfg (length (drop j es)) (total_size (drop j es)) = true) ∧
    ∀ p, p.1 ≠ dir → fs' !! p = fs !! p.
Proof.
  intros Hrm. revert fs. induction es as [|[[n m] z] es IH]; intros fs Hl; simpl.
  - exists 0. split_and!; [done| |lia|done]. unfold over_limits. simpl. apply N.ltb_ge. lia.
  - destruct (over_limits cfg (S (length es)) (z + total_size es)) eqn:Eo; cbn [negb].
    + rewrite Hrm. apply lists_delete in Hl. destruct (IH _ Hl) as (k & Hk1 & Hk2 & Hk3 & Hk4).
      exists (S k). rewrite Nat.sub_0_r, N.add_comm, N.add_sub. split_and!; [done|done| |].
      * intros [|j] Hj; [done|]. apply Hk3. lia.
      * intros p Hp. rewrite Hk4 by done. apply lookup_delete_ne. intros <-. done.
    + exists 0. split_and!; [done|done|lia|done].
Qed.

(** Eviction only deletes. *)
Lemma evict_subset t dir cfg es count total fs p f :
  evict t dir cfg es count total fs !! p = Some f → fs !! p = Some f.
Proof.
  revert count total fs; induction es as [|[[n m] z] es IH]; intros count total fs; simpl; [done|].
  destruct (negb _); [done|]. destruct (remove_ok _ _); [|apply IH].
  intros Hp%IH. by apply lookup_delete_Some in Hp as [_ ?].
Qed.

(** The files a directory holds and their bytes. *)
Definition dir_count (dir : string) (fs : gmap Path File) : nat := length (dir_entries dir fs).
Definition dir_bytes (dir : string) (fs : gmap Path File) : N := total_size (dir_entries dir fs).

Lemma total_size_perm es es' : es ≡ₚ es' → total_size es = total_size es'.
Proof. induction 1; simpl; lia. Qed.

Lemma sorted_entries dir fs : lists dir (sort_by by_mtime (dir_entries dir fs)) fs.
Proof. eapply lists_perm; [symmetry; apply sort_by_perm|apply dir_entries_lists]. Qed.

(** Cleaning a thread's directory works: afterwards it holds no more files and
    no more bytes than its limits, other directories are untouched, the files deleted are
    the oldest, and a directory within its limits is left alone. *)
Theorem enforce_limits_spec t dir cfg fs :
  read_dir_ok t dir = true → (∀ n, remove_ok t (dir, n) = true) →
  let fs' := enforce_limits t dir cfg fs in
  dir_count dir fs' ≤ max_files_per_thread cfg ∧
  (dir_bytes dir fs' ≤ max_thread_bytes cfg)%N ∧
  (∀ p, p.1 ≠ dir → fs' !! p = fs !! p) ∧
  (∀ n f, fs' !! (dir, n) = Some f → fs !! (dir, n) = Some f) ∧
  (∀ n f n' f', fs !! (dir, n) = Some f → fs' !! (dir, n) = None →
     fs' !! (dir, n') = Some f' → (mtime f ≤ mtime f')%Z) ∧
  (over_limits cfg (dir_count dir fs) (dir_bytes dir fs) = false → fs' = fs).
Proof.
  intros Hrd Hrm fs'. unfold fs', enforce_limits. rewrite Hrd. cbv zeta.
  set (es := sort_by by_mtime (dir_entries dir fs)).
  destruct (evict_spec t dir cfg es fs Hrm (sorted_entries dir fs)) as (k & Hl & Ho & Hmin & Hf).
  set (g := evict _ _ _ _ _ _ _) in *.
  pose proof (lists_unique _ _ _ _ (dir_entries_lists dir g) Hl) as Hp.
  unfold dir_count, dir_bytes. rewrite (Permutation_length Hp), (total_size_perm _ _ Hp).
  unfold over_limits in Ho. apply orb_false_iff in Ho as [Ho1%Nat.ltb_ge Ho2%N.ltb_ge].
  assert (∀ n f, g !! (dir, n) = Some f → (n, mtime f, file_size f) ∈ drop k es) as Hg
    by (intros n f Hn; apply Hl; eauto).
  split_and!; [done|done|done| | |].
  - intros n f Hn. by apply evict_subset in Hn.
  - intros n f n' f' Hn Hgn Hn'.
    assert ((n, mtime f, file_size f) ∈ es) as Hin by (apply (sorted_entries dir fs); eauto).
    rewrite <-(take_drop k es), elem_of_app in Hin. destruct Hin as [Hin|Hin].
    + assert (StronglySorted (λ a b, by_mtime a b = true) es) as Hs.
      { apply sort_by_sorted; unfold by_mtime; intros; lia. }
      pose proof (sorted_take_drop _ _ _ _ _ Hs Hin (Hg _ _ Hn')) as Hle.
      unfold by_mtime in Hle. simpl in Hle. lia.
    + apply Hl in Hin as (f2 & ? & _). congruence.
  - pose proof (sort_by_perm by_mtime (dir_entries dir fs)) as Hperm. fold es in Hperm.
    rewrite <-(Permutation_length Hperm), <-(total_size_perm _ _ Hperm). intros Hin. unfold g.
    destruct es as [|[[n m] z] es']; [done|]. cbn [evict]. by rewrite Hin.
Qed.

(** ** Pointers *)

(** Every registered path leads to a file whose text has the registered hash. *)
Definition pointers_ok (w : World) : Prop :=
  ∀ cid h p, written w !! (cid, h) = Some p →
    p.2 = file_name cid h ∧ ∃ f, files w !! p = Some f ∧ short_hash (content f) = h.

Lemma enforce_limits_within t dir cfg fs :
  over_limits cfg (dir_count dir fs) (dir_bytes dir fs) = false → enforce_limits t dir cfg fs = fs.
Proof.
  intros Hin. unfold enforce_limits. destruct (read_dir_ok t dir); [|done]. cbv zeta.
  pose proof (sort_by_perm by_mtime (dir_entries dir fs)) as Hperm.
  unfold dir_count, dir_bytes in Hin.
  rewrite <-(Permutation_length Hperm), <-(total_size_perm _ _ Hperm) in Hin.
  destruct (sort_by by_mtime (dir_entries dir fs)) as [|[[n m] z] es']; [done|].
  cbn [evict]. by rewrite Hin.
Qed.

Lemma short_hash_length s : String.length (short_hash s) = 12.
Proof.
  unfold short_hash. pose proof (sha256_length s) as Hs.
  destruct (sha256 s) as [|? [|? [|? [|? [|? [|? ?]]]]]]; done.
Qed.

Lemma str_app_inj_len (a b x y : string) :
  a +:+ x = b +:+ y → String.length x = String.length y → a = b ∧ x = y.
Proof.
  revert b; induction a as [|c a IH]; intros [|d b] Heq Hlen.
  - done.
  - rewrite str_app_nil_l, str_app_cons in Heq. subst x. simpl in Hlen. rewrite str_len_app in Hlen. lia.
  - rewrite str_app_nil_l, str_app_cons in Heq. subst y. simpl in Hlen. rewrite str_len_app in Hlen. lia.
  - rewrite !str_app_cons in Heq. injection Heq as -> Heq. destruct (IH _ Heq Hlen) as [-> ->]. done.
Qed.

Lemma file_name_hash cid h cid' h' :
  String.length h = 12 → String.length h' = 12 → file_name cid h = file_name cid' h' → h = h'.
Proof.
  unfold file_name. intros Hh Hh' Heq.
  apply str_app_inj_len in Heq as [_ Heq]; [|by rewrite !str_len_app, Hh, Hh'].
  apply (inj (String.append "-")) in Heq.
  by apply str_app_inj_len in Heq as [-> _].
Qed.

(** While no directory exceeds its limits, attaching keeps every pointer of
    the request alive: if each registered path leads to a file with the registered text
    hash, that still holds afterwards, also for files written under the same name. *)
Theorem pointers_survive compressed original q cid cfg w r w' :
  pointers_ok w →
  (∀ dir, over_limits cfg (dir_count dir (files w)) (dir_bytes dir (files w)) = false) →
  attach compressed original q cid cfg w = (r, w') → pointers_ok w'.
Proof.
  intros Hok Hlim Ha.
  assert (w' = w ∨ ∃ o, (o, w') = try_persist original q cid cfg w) as [->|[o Ht]]; [|done|].
  { unfold attach in Ha. destruct (negb _); [naive_solver|]. destruct (_ <? _)%N; [naive_solver|].
    destruct (try_persist original q cid cfg w) as [[p|] w2]; [|naive_solver].
    cbv zeta in Ha. destruct (_ <=? _); naive_solver. }
  unfold try_persist in Ht. destruct (written w !! _) as [p'|] eqn:Ew; [by simplify_eq|].
  destruct ccr_root as [root|]; [|by simplify_eq]. destruct (negb (mkdir_ok _ _)); [by simplify_eq|].
  rewrite enforce_limits_within in Ht by done.
  destruct (negb (write_ok _ _)); simplify_eq; [done|].
  intros cid' h' p Hp. simpl in Hp. set (path := (_, file_name cid (short_hash original))) in *.
  apply lookup_insert_Some in Hp as [[Heq <-]|[Hne Hp]].
  - injection Heq as <- <-. split; [done|]. simpl. rewrite lookup_insert_eq. eauto.
  - destruct (Hok _ _ _ Hp) as [Hn (f & Hf & Hh)]. split; [done|]. simpl.
    destruct (decide (p = path)) as [->|Hpp].
    + rewrite lookup_insert_eq. eexists. split; [done|]. simpl. simpl in Hn.
      eapply file_name_hash; [apply short_hash_length| |done]. rewrite <-Hh. apply short_hash_length.
    + rewrite lookup_insert_ne by done. eauto.
Qed.
End ccr.

(** ** Concrete worlds *)

Definition sha_toy (s : string) : list ascii := take 32 (as_bytes s ++ replicate 32 "000"%char).

Program Definition env_toy_ccr : CcrEnv :=
  {| home := Some "/h"; sha256 := sha_toy; mkdir_ok _ _ := true; read_dir_ok _ _ := true;
     write_ok _ _ := true; remove_ok _ _ := true |}.
Next Obligation. intros s. unfold sha_toy. rewrite length_take, length_app, length_replicate. lia. Qed.

Definition empty_world : World := {| files := ∅; clock := 0%Z; written := ∅ |}.

Definition long_a : string := concat_str (replicate 20 "alpha alpha ").
Definition long_b : string := concat_str (replicate 20 "beta beta b ").

Definition attach_toy (cfg : CcrCfg) (original : string) (w : World) : string * World :=
  @attach env_toy_ccr hash_order_id "short" original "q" "call" cfg w.

Definition dir_toy : string := "/h/.codex/llm-compress/ccr/q".

Lemma attach_retrievable_witness :
  ∃ p, (attach_toy CcrCfg_default long_a empty_world).1 = "short" +:+ pointer p ∧
       content <$> files (attach_toy CcrCfg_default long_a empty_world).2 !! p = Some long_a.
Proof.
  destruct (@attach_retrievable env_toy_ccr hash_order_id "short" long_a "q" "call" CcrCfg_default
    empty_world (attach_toy CcrCfg_default long_a empty_world).1
    (attach_toy CcrCfg_default long_a empty_world).2 eq_refl (surjective_pairing _))
    as [Hr|(p & Hr & _ & _ & Hc)].
  - vm_compute in Hr. discriminate Hr.
  - exists p. split; [exact Hr|]. apply Hc. reflexivity.
Defined.

Lemma pointers_survive_witness :
  @pointers_ok env_toy_ccr (attach_toy CcrCfg_default long_a empty_world).2.
Proof.
  apply (@pointers_survive env_toy_ccr hash_order_id "short" long_a "q" "call" CcrCfg_default
    empty_world (attach_toy CcrCfg_default long_a empty_world).1
    (attach_toy CcrCfg_default long_a empty_world).2).
  - intros cid h p Hp. simpl in Hp. rewrite lookup_empty in Hp. discriminate Hp.
  - intros dir. reflexivity.
  - apply surjective_pairing.
Defined.

Definition tight_cfg : CcrCfg :=
  {| ccr_enabled := true; max_files_per_thread := 0; max_thread_bytes := 67108864;
     max_file_bytes := 4194304 |}.

Lemma enforce_limits_spec_witness :
  let fs := files (attach_toy tight_cfg long_a empty_world).2 in
  @dir_count hash_order_id dir_toy fs = 1 ∧
  @dir_count hash_order_id dir_toy (@enforce_limits env_toy_ccr hash_order_id 0 dir_toy tight_cfg fs) ≤ 0.
Proof.
  split; [vm_compute; reflexivity|].
  apply (@enforce_limits_spec env_toy_ccr hash_order_id 0 dir_toy tight_cfg
    (files (attach_toy tight_cfg long_a empty_world).2)); reflexivity.
Defined.

(** Cleaning happens while a request is built and does not spare its own files:
    once the directory is full, attaching a second text deletes the file that the first
    text, already rewritten, points to. *)
Theorem eviction_breaks_pointer :
  let '(r1, w1) := attach_toy tight_cfg long_a empty_world in
  let '(r2, w2) := attach_toy tight_cfg long_b w1 in
  ∃ p, r1 = "short" +:+ pointer p ∧ content <$> files w1 !! p = Some long_a ∧ files w2 !! p = None.
Proof.
  destruct (attach_toy tight_cfg long_a empty_world) as [r1 w1] eqn:E1.
  destruct (attach_toy tight_cfg long_b w1) as [r2 w2] eqn:E2.
  exists (dir_toy, "call-616c70686120.txt"). vm_compute in E1. simplify_eq.
  vm_compute in E2. simplify_eq. split_and!; vm_compute; reflexivity.
Qed.
