(* ===== verification/Transform.v ===== *)
(** * llm-compress: the entry point

    zmod/llm-compress/src/lib.rs (the orchestration) and stats.rs (the log of savings):
    protection gate, preprocessing, routing, store of originals and size gate, over every
    tool output of a request. *)

From S2P Require Import Prelude Str Json Protocol CompressConfig Router Collapse.
From S2P Require Import Truncate Diff LogC SearchC Tabular Preprocess Ccr.

(** ** Statistics (stats.rs) *)

(** The clock as RFC 3339 text, and which log files can be opened and written. *)
Class StatsEnv := { now_rfc3339 : string; log_ok : string → bool }.

Definition default_log_path (home : option string) : option string :=
  match home with
  | Some h => Some (h +:+ "/.codex/log/llm-compress.log")
  | None => None
  end.

Definition log_line (timestamp queryid : string) (before after : nat) : string :=
  timestamp +:+ ("," +:+ (queryid +:+ ("," +:+ (fmt_nat before +:+ ("," +:+ (fmt_nat after +:+ NL)))))).

(** Append one line to the file at [path]; an error leaves the logs as they are. *)
Definition log_compression_to `{StatsEnv} (path timestamp queryid : string) (before after : nat)
    (logs : gmap string string) : Result (gmap string string) string :=
  if log_ok path
  then Ok (<[path := default EmptyString (logs !! path) +:+ log_line timestamp queryid before after]> logs)
  else Err "cannot write".

Definition log_compression `{StatsEnv, CcrEnv} (queryid : string) (before after : nat)
    (logs : gmap string string) : gmap string string :=
  match default_log_path home with
  | None => logs
  | Some path =>
      match log_compression_to path now_rfc3339 queryid before after logs with
      | Ok logs' => logs'
      | Err _ => logs
      end
  end.

(** ** Orchestration (lib.rs) *)

Section transform.
Context `{Unicode, SerdeJson, Toon, CcrEnv, HashOrder, StatsEnv}.

Definition build_router : list Compressor :=
  [JsonCompressor; SearchCompressor; DiffCompressor; TabularCompressor; LogCompressor; TruncateCompressor].

(** The candidate of steps 3 to 5, and whether it claims to be JSON. *)
Definition candidate (q cid : string) (cmd : option CommandHint) (cfg : CompressCfg) (s : string)
    (w : World) : string * bool * World :=
  let '(pre, pre_lossy) := run s (preprocess cfg) in
  let budget := {| budget_cfg := cfg; budget_cmd := cmd |} in
  match compress_text build_router pre budget with
  | Some (new, comp_lossy, kind) =>
      match kind with
      | KJson => (new, true, w)
      | KToon => (new, false, w)
      | KText =>
          if pre_lossy || comp_lossy
          then let '(r, w') := attach new s q cid (ccr cfg) w in (r, false, w')
          else (new, false, w)
      end
  | None =>
      if pre_lossy
      then let '(r, w') := attach pre s q cid (ccr cfg) w in (r, false, w')
      else (pre, false, w)
  end.

Definition compress_in_place (q : string) (cmds : gmap string CommandHint) (cfg : CompressCfg)
    (cid s : string) (w : World) : string * World :=
  if String.length s <? per_item_min_bytes cfg then (s, w)
  else
    let cmd := cmds !! cid in
    if should_protect s cmd cfg then (s, w)
    else
      let '(cand, is_json, w') := candidate q cid cmd cfg s w in
      let json_valid := negb is_json || is_ok (from_str cand) in
      if (String.length cand <=? String.length s) && json_valid then (cand, w') else (s, w').

(** The loop over the content items of an output. *)
Fixpoint compress_content (q : string) (cmds : gmap string CommandHint) (cfg : CompressCfg) (cid : string)
    (items : list FunctionCallOutputContentItem) (w : World) :
  list FunctionCallOutputContentItem * World :=
  match items with
  | [] => ([], w)
  | ci :: items' =>
      let '(ci', w1) :=
        match ci with
        | OutInputText text => let '(t, w1) := compress_in_place q cmds cfg cid text w in (OutInputText t, w1)
        | _ => (ci, w)
        end in
      let '(rest, w2) := compress_content q cmds cfg cid items' w1 in (ci' :: rest, w2)
  end.

Definition compress_body (q : string) (cmds : gmap string CommandHint) (cfg : CompressCfg) (cid : string)
    (b : FunctionCallOutputBody) (w : World) : FunctionCallOutputBody * World :=
  match b with
  | BodyText s => let '(t, w') := compress_in_place q cmds cfg cid s w in (BodyText t, w')
  | BodyContentItems items =>
      let '(items', w') := compress_content q cmds cfg cid items w in (BodyContentItems items', w')
  end.

Definition set_body (b : FunctionCallOutputBody) (o : FunctionCallOutputPayload) : FunctionCallOutputPayload :=
  {| body := b; success := success o |}.

Definition compress_item (q : string) (cmds : gmap string CommandHint) (cfg : CompressCfg)
    (item : ResponseItem) (w : World) : ResponseItem * World :=
  match item with
  | FunctionCallOutput id call_id output meta =>
      let '(b, w') := compress_body q cmds cfg call_id (body output) w in
      (FunctionCallOutput id call_id (set_body b output) meta, w')
  | CustomToolCallOutput id call_id name output meta =>
      let '(b, w') := compress_body q cmds cfg call_id (body output) w in
      (CustomToolCallOutput id call_id name (set_body b output) meta, w')
  | _ => (item, w)
  end.

Fixpoint compress_items (q : string) (cmds : gmap string CommandHint) (cfg : CompressCfg)
    (items : list ResponseItem) (w : World) : list ResponseItem * World :=
  match items with
  | [] => ([], w)
  | item :: items' =>
      let '(item', w1) := compress_item q cmds cfg item w in
      let '(rest, w2) := compress_items q cmds cfg items' w1 in (item' :: rest, w2)
  end.

Definition body_bytes (b : FunctionCallOutputBody) : nat :=
  match b with
  | BodyText s => String.length s
  | BodyContentItems items =>
      sum_list_with (λ ci, match ci with OutInputText t => String.length t | _ => 0 end) items
  end.

Definition item_bytes (item : ResponseItem) : nat :=
  match item with
  | FunctionCallOutput _ _ output _ => body_bytes (body output)
  | CustomToolCallOutput _ _ _ output _ => body_bytes (body output)
  | _ => 0
  end.

Definition total_text_bytes (input : list ResponseItem) : nat := sum_list_with item_bytes input.

(** [transform]: the request, the files and the logs after; [cfg] is what [load] returned. *)
Definition transform (cfg : CompressCfg) (queryid : string) (request : ResponsesApiRequest)
    (w : World) (logs : gmap string string) : ResponsesApiRequest * World * gmap string string :=
  if negb (c_enabled cfg) then (request, w, logs)
  else
    let cmds := index request in
    let w := {| files := files w; clock := clock w; written := ∅ |} in
    let total_before := total_text_bytes (input request) in
    let '(items, w) := compress_items queryid cmds cfg (input request) w in
    let total_after := total_text_bytes items in
    let logs := if total_after <? total_before
                then log_compression queryid total_before total_after logs else logs in
    (set_input items request, w, logs).

(** ** Properties *)

Lemma build_router_ok : Forall CompressorOk build_router.
Proof. unfold build_router. repeat (apply Forall_cons_2; [apply _|]). apply Forall_nil_2. Qed.

Lemma build_router_names : NoDup (cname <$> build_router).
Proof.
  change (NoDup ["json"; "search"; "diff"; "tabular"; "log"; "truncate"]).
  apply (bool_decide_unpack _). vm_compute. exact I.
Qed.

Lemma compress_in_place_le q cmds cfg cid s w :
  String.length (compress_in_place q cmds cfg cid s w).1 ≤ String.length s.
Proof.
  unfold compress_in_place. destruct (_ <? _); [done|]. destruct (should_protect _ _ _); [done|].
  destruct (candidate _ _ _ _ _ _) as [[cand j] w'].
  destruct (Nat.leb_spec (String.length cand) (String.length s)); [|done].
  simpl. by destruct (_ || _).
Qed.

Lemma compress_content_le q cmds cfg cid items w :
  body_bytes (BodyContentItems (compress_content q cmds cfg cid items w).1) ≤
  body_bytes (BodyContentItems items).
Proof.
  revert w; induction items as [|ci items IH]; intros w; [done|]. cbn [compress_content].
  destruct ci as [t|u d|e].
  - pose proof (compress_in_place_le q cmds cfg cid t w) as Ht.
    destruct (compress_in_place _ _ _ _ _ _) as [t' w1].
    specialize (IH w1). destruct (compress_content _ _ _ _ _ _) as [rest w2]. simpl in *. lia.
  - specialize (IH w). destruct (compress_content _ _ _ _ _ _) as [rest w2]. simpl in *. lia.
  - specialize (IH w). destruct (compress_content _ _ _ _ _ _) as [rest w2]. simpl in *. lia.
Qed.

Lemma compress_body_le q cmds cfg cid b w :
  body_bytes (compress_body q cmds cfg cid b w).1 ≤ body_bytes b.
Proof.
  destruct b as [s|items]; simpl.
  - pose proof (compress_in_place_le q cmds cfg cid s w) as Hs.
    by destruct (compress_in_place _ _ _ _ _ _).
  - pose proof (compress_content_le q cmds cfg cid items w) as Hs.
    by destruct (compress_content _ _ _ _ _ _).
Qed.

Lemma compress_item_le q cmds cfg item w :
  item_bytes (compress_item q cmds cfg item w).1 ≤ item_bytes item.
Proof.
  destruct item; simpl; try done.
  all: pose proof (compress_body_le q cmds cfg call_id (body output) w) as Hb;
       by destruct (compress_body _ _ _ _ _ _).
Qed.

Lemma compress_items_le q cmds cfg items w :
  Forall2 (λ i' i, item_bytes i' ≤ item_bytes i) (compress_items q cmds cfg items w).1 items.
Proof.
  revert w; induction items as [|item items IH]; intros w; [constructor|]. cbn [compress_items].
  pose proof (compress_item_le q cmds cfg item w) as Hi.
  destruct (compress_item _ _ _ _ _) as [item' w1]. specialize (IH w1).
  destruct (compress_items _ _ _ _ _) as [rest w2]. by constructor.
Qed.

Lemma total_text_bytes_le l l' :
  Forall2 (λ i' i, item_bytes i' ≤ item_bytes i) l' l → total_text_bytes l' ≤ total_text_bytes l.
Proof. unfold total_text_bytes. induction 1; simpl; lia. Qed.

Lemma transform_input cfg q req w logs :
  ∃ items, (transform cfg q req w logs).1.1 = set_input items req ∧
    (c_enabled cfg = false ∧ items = input req ∨
     items = (compress_items q (index req) cfg (input req)
                {| files := files w; clock := clock w; written := ∅ |}).1).
Proof.
  unfold transform. destruct (c_enabled cfg); simpl.
  - destruct (compress_items _ _ _ _ _) as [items w']. exists items. naive_solver.
  - exists (input req). split; [by destruct req|]. by left.
Qed.

(** Compression never makes a request larger: the text of no tool output grows,
    item by item, and neither does their total. *)
Theorem transform_never_grows cfg q req w logs :
  let req' := (transform cfg q req w logs).1.1 in
  Forall2 (λ i' i, item_bytes i' ≤ item_bytes i) (input req') (input req) ∧
  total_text_bytes (input req') ≤ total_text_bytes (input req).
Proof.
  destruct (transform_input cfg q req w logs) as (items & -> & Hi). simpl.
  assert (Forall2 (λ i' i, item_bytes i' ≤ item_bytes i) items (input req)) as Hf.
  { destruct Hi as [[_ ->]| ->]; [|apply compress_items_le]. by apply Forall_Forall2_diag, Forall_forall. }
  split; [done|]. by apply total_text_bytes_le.
Qed.

(** *** What is not a text of a tool output does not change *)

Definition skeleton_content (ci : FunctionCallOutputContentItem) : FunctionCallOutputContentItem :=
  match ci with OutInputText _ => OutInputText EmptyString | _ => ci end.

Definition skeleton_body (b : FunctionCallOutputBody) : FunctionCallOutputBody :=
  match b with
  | BodyText _ => BodyText EmptyString
  | BodyContentItems items => BodyContentItems (skeleton_content <$> items)
  end.

(** An item with the texts of its output blanked. *)
Definition skeleton (item : ResponseItem) : ResponseItem :=
  match item with
  | FunctionCallOutput id cid o meta =>
      FunctionCallOutput id cid {| body := skeleton_body (body o); success := success o |} meta
  | CustomToolCallOutput id cid name o meta =>
      CustomToolCallOutput id cid name {| body := skeleton_body (body o); success := success o |} meta
  | _ => item
  end.

(** Two requests that agree on everything but their items. *)
Definition same_but_input (r r' : ResponsesApiRequest) : Prop :=
  model r' = model r ∧ instructions r' = instructions r ∧ tools r' = tools r ∧
  tool_choice r' = tool_choice r ∧ parallel_tool_calls r' = parallel_tool_calls r ∧
  reasoning r' = reasoning r ∧ store r' = store r ∧ stream r' = stream r ∧
  include r' = include r ∧ service_tier r' = service_tier r ∧
  prompt_cache_key r' = prompt_cache_key r ∧ text r' = text r ∧
  client_metadata r' = client_metadata r.

Lemma compress_content_skeleton q cmds cfg cid items w :
  skeleton_content <$> (compress_content q cmds cfg cid items w).1 = skeleton_content <$> items.
Proof.
  revert w; induction items as [|ci items IH]; intros w; [done|]. cbn [compress_content].
  destruct ci as [t|u d|e].
  - destruct (compress_in_place _ _ _ _ _ _) as [t' w1]. specialize (IH w1).
    destruct (compress_content _ _ _ _ _ _) as [rest w2]. cbn [fst] in *. by rewrite !fmap_cons, IH.
  - specialize (IH w). destruct (compress_content _ _ _ _ _ _) as [rest w2]. cbn [fst] in *. by rewrite !fmap_cons, IH.
  - specialize (IH w). destruct (compress_content _ _ _ _ _ _) as [rest w2]. cbn [fst] in *. by rewrite !fmap_cons, IH.
Qed.

Lemma compress_body_skeleton q cmds cfg cid b w :
  skeleton_body (compress_body q cmds cfg cid b w).1 = skeleton_body b.
Proof.
  destruct b as [s|items]; simpl; [by destruct (compress_in_place _ _ _ _ _ _)|].
  pose proof (compress_content_skeleton q cmds cfg cid items w) as Hs.
  destruct (compress_content _ _ _ _ _ _). simpl in *. by rewrite Hs.
Qed.

Lemma compress_item_skeleton q cmds cfg item w :
  skeleton (compress_item q cmds cfg item w).1 = skeleton item.
Proof.
  destruct item; simpl; try done.
  all: pose proof (compress_body_skeleton q cmds cfg call_id (body output) w) as Hs;
       destruct (compress_body _ _ _ _ _ _); simpl in *; by rewrite Hs.
Qed.

(** Item [i] of the result is item [i] of the input, compressed in some world. *)
Lemma compress_items_lookup q cmds cfg items w i :
  ∃ wi, (compress_items q cmds cfg items w).1 !! i = (λ item, (compress_item q cmds cfg item wi).1) <$> items !! i.
Proof.
  revert w i; induction items as [|item items IH]; intros w i; [by exists w|]. cbn [compress_items].
  destruct (compress_item q cmds cfg item w) as [item' w1] eqn:E.
  destruct i as [|i].
  - exists w. destruct (compress_items _ _ _ _ _). simpl. by rewrite E.
  - destruct (IH w1 i) as [wi Hi]. exists wi. by destruct (compress_items _ _ _ _ _).
Qed.

(** Compression rewrites nothing but the texts of tool outputs: every other
    field of the request, every other item, the ids, success flags, images and encrypted
    parts of the outputs, and the order of everything are unchanged. *)
Theorem transform_frame cfg q req w logs :
  let req' := (transform cfg q req w logs).1.1 in
  same_but_input req req' ∧ skeleton <$> input req' = skeleton <$> input req.
Proof.
  destruct (transform_input cfg q req w logs) as (items & -> & Hi). simpl.
  split; [repeat split|]. destruct Hi as [[_ ->]| ->]; [done|]. apply list_eq. intros i. rewrite !list_lookup_fmap.
  destruct (compress_items_lookup q (index req) cfg (input req)
    {| files := files w; clock := clock w; written := ∅ |} i) as [wi ->].
  destruct (input req !! i); simpl; [|done]. by rewrite compress_item_skeleton.
Qed.

(** *** Errors are shown as they are *)

Lemma should_protect_marker s cmd cfg m :
  m ∈ STRONG_ERROR_MARKERS → contains m (to_lowercase s) = true →
  String.length s < error_max_bytes (protect cfg) → should_protect s cmd cfg = true.
Proof.
  intros Hm Hc Hl. unfold should_protect.
  destruct (Nat.eqb_spec (error_max_bytes (protect cfg)) 0); [lia|].
  destruct (Nat.leb_spec (error_max_bytes (protect cfg)) (String.length s)); [lia|].
  apply orb_true_iff. left. apply existsb_exists. exists m. by rewrite <-list_elem_of_In.
Qed.

(** An error is never compressed away: an output text below the protection
    limit that shows an error marker, in any case, reaches the model byte for byte. *)
Theorem errors_untouched cfg q req w logs i id cid s ok meta m :
  input req !! i = Some (FunctionCallOutput id cid {| body := BodyText s; success := ok |} meta) →
  m ∈ STRONG_ERROR_MARKERS → contains m (to_lowercase s) = true →
  String.length s < error_max_bytes (protect cfg) →
  input (transform cfg q req w logs).1.1 !! i =
    Some (FunctionCallOutput id cid {| body := BodyText s; success := ok |} meta).
Proof.
  intros Hi Hm Hc Hl. destruct (transform_input cfg q req w logs) as (items & -> & Hit). simpl.
  destruct Hit as [[_ ->]| ->]; [done|].
  destruct (compress_items_lookup q (index req) cfg (input req)
    {| files := files w; clock := clock w; written := ∅ |} i) as [wi ->].
  rewrite Hi. simpl. unfold compress_in_place.
  destruct (_ <? _); [done|]. by rewrite (should_protect_marker s _ cfg m).
Qed.

(** *** Every rewritten text is accounted for *)

(** With the store enabled, what happens to a text is one of: it stays as it
    is; only its layout was normalised, with nothing deleted; it became a TOON document
    of the preprocessed text; or content was dropped and the text carries the path that
    the request registered for the original, without exceeding the original's size. *)
Theorem compress_in_place_accounted q cmds cfg cid s w r w' :
  ccr_enabled (ccr cfg) = true →
  compress_in_place q cmds cfg cid s w = (r, w') →
  let '(pre, pre_lossy) := run s (preprocess cfg) in
  let budget := {| budget_cfg := cfg; budget_cmd := cmds !! cid |} in
  r = s ∨
  (r = pre ∧ pre_lossy = false ∧ w' = w) ∨
  (compress_text build_router pre budget = Some (r, false, KToon) ∧ w' = w) ∨
  (∃ c p, r = c +:+ pointer p ∧ String.length r ≤ String.length s ∧
     written w' !! (cid, short_hash s) = Some p ∧
     (c = pre ∨ compress_text build_router pre budget = Some (c, true, KText))).
Proof.
  intros He Hc. unfold compress_in_place in Hc. destruct (run s (preprocess cfg)) as [pre lossy] eqn:Er.
  destruct (_ <? _); [naive_solver|]. destruct (should_protect _ _ _); [naive_solver|].
  unfold candidate in Hc. rewrite Er in Hc. cbv zeta in *.
  set (budget := {| budget_cfg := cfg; budget_cmd := cmds !! cid |}) in *.
  assert (∀ c r0 w0, attach c s q cid (ccr cfg) w = (r0, w0) →
    r = s ∨ (r = r0 ∧ w' = w0) →
    (c = pre ∨ compress_text build_router pre budget = Some (c, true, KText)) →
    r = s ∨ ∃ c p, r = c +:+ pointer p ∧ String.length r ≤ String.length s ∧
     written w' !! (cid, short_hash s) = Some p ∧
     (c = pre ∨ compress_text build_router pre budget = Some (c, true, KText))) as Hatt.
  { intros c r0 w0 Ha [?|[-> ->]] Hcc; [by left|].
    destruct (attach_cases _ _ _ _ _ _ _ _ He Ha) as [->|(p & -> & ? & ? & _)]; [by left|].
    right. eauto 10. }
  destruct (compress_text build_router pre budget) as [[[new cl] kind]|] eqn:Et.
  - destruct (compress_text_ok _ _ _ _ _ _ build_router_ok Et) as [_ [[-> ->]|[-> ->]]].
    + cbn in Hc. destruct (_ <=? _) in Hc; simplify_eq/=; [|by left]. right; right; left. done.
    + rewrite orb_true_r in Hc. destruct (attach new s q cid (ccr cfg) w) as [r0 w0] eqn:Ea.
      cbn in Hc. destruct (Hatt _ _ _ Ea) as [?|?]; [|by right|by left|by do 3 right].
      destruct (_ <=? _) in Hc; simplify_eq/=; auto.
  - destruct lossy.
    + destruct (attach pre s q cid (ccr cfg) w) as [r0 w0] eqn:Ea. cbn in Hc.
      destruct (Hatt _ _ _ Ea) as [?|?]; [|by left|by left|by do 3 right].
      destruct (_ <=? _) in Hc; simplify_eq/=; auto.
    + cbn in Hc. destruct (_ <=? _) in Hc; simplify_eq/=; [|by left]. right; left. done.
Qed.
(** *** The same output is always compressed to the same bytes *)

(** Where the request's store puts a text, when it can. *)
Definition store_path (q cid h : string) : option Path :=
  match ccr_root with
  | Some root =>
      let dir := root +:+ ("/" +:+ sanitize_component q 64) in
      let path := (dir, file_name cid h) in
      if mkdir_ok 0 dir && write_ok 0 path then Some path else None
  | None => None
  end.

(** Whether a text can be stored does not change from one attempt to the next. *)
Definition steady_store (q : string) : Prop :=
  ∀ root t cid h, ccr_root = Some root →
    let dir := root +:+ ("/" +:+ sanitize_component q 64) in
    mkdir_ok t dir && write_ok t (dir, file_name cid h) = mkdir_ok 0 dir && write_ok 0 (dir, file_name cid h).

(** The registry holds only such places. *)
Definition registry_ok (q : string) (w : World) : Prop :=
  ∀ cid h p, written w !! (cid, h) = Some p → store_path q cid h = Some p.

Lemma try_persist_place s q cid c w :
  steady_store q → registry_ok q w →
  (try_persist s q cid c w).1 = store_path q cid (short_hash s) ∧ registry_ok q (try_persist s q cid c w).2.
Proof.
  intros Hst Hr. unfold try_persist, store_path.
  destruct (written w !! _) as [p|] eqn:E.
  { split; [|done]. simpl. specialize (Hr _ _ _ E). unfold store_path in Hr. by rewrite Hr. }
  destruct ccr_root as [root|] eqn:Eroot; [|done]. cbv zeta.
  rewrite <-(Hst root (clock w) cid (short_hash s) Eroot). cbv zeta.
  destruct (mkdir_ok (clock w) _) eqn:Em; [|done]. cbn [negb andb clock set_files].
  destruct (write_ok (clock w) _) eqn:Ew; [|done]. cbn [negb fst snd]. split; [done|].
  intros cid' h' p Hp. simpl in Hp. apply lookup_insert_Some in Hp as [[Heq <-]|[_ Hp]]; [|by apply Hr].
  injection Heq as <- <-. unfold store_path. rewrite Eroot, <-(Hst root (clock w)) by done. by rewrite Em, Ew.
Qed.

Lemma attach_stable c s q cid cc w w2 :
  steady_store q ∨ ccr_enabled cc = false → registry_ok q w → registry_ok q w2 →
  (attach c s q cid cc w).1 = (attach c s q cid cc w2).1 ∧ registry_ok q (attach c s q cid cc w).2.
Proof.
  intros Hst Hw Hw2. unfold attach. destruct (ccr_enabled cc); [|done]. destruct Hst as [Hst|Hst]; [|done].
  cbn [negb]. destruct (_ <? _)%N; [done|].
  destruct (try_persist_place s q cid cc w Hst Hw) as [Hq1 Hq1a].
  destruct (try_persist_place s q cid cc w2 Hst Hw2) as [Hq2 _].
  destruct (try_persist s q cid cc w) as [o w'], (try_persist s q cid cc w2) as [o2 w2'].
  simpl in *. subst. destruct (store_path _ _ _); [|done]. cbv zeta. by destruct (_ <=? _).
Qed.

Lemma compress_in_place_stable q cmds cmds2 cfg cid s w w2 :
  steady_store q ∨ ccr_enabled (ccr cfg) = false → registry_ok q w → registry_ok q w2 → cmds !! cid = cmds2 !! cid →
  (compress_in_place q cmds cfg cid s w).1 = (compress_in_place q cmds2 cfg cid s w2).1 ∧
  registry_ok q (compress_in_place q cmds cfg cid s w).2.
Proof.
  intros Hst Hw Hw2 Hc. unfold compress_in_place. rewrite Hc.
  destruct (_ <? _); [done|]. destruct (should_protect _ _ _); [done|]. unfold candidate.
  destruct (run s (preprocess cfg)) as [pre pl].
  assert (∀ c, let a := attach c s q cid (ccr cfg) w in let a2 := attach c s q cid (ccr cfg) w2 in
    a.1 = a2.1 ∧ registry_ok q a.2) as Ha by (intros c; by apply attach_stable).
  assert (∀ (r : string) (j : bool) (wa wb : World), registry_ok q wa →
    (if (String.length r <=? String.length s) && (negb j || is_ok (from_str r)) then (r, wa) else (s, wa)).1 =
    (if (String.length r <=? String.length s) && (negb j || is_ok (from_str r)) then (r, wb) else (s, wb)).1 ∧
    registry_ok q (if (String.length r <=? String.length s) && (negb j || is_ok (from_str r)) then (r, wa) else (s, wa)).2) as Hgate.
  { intros r j wa wb Hwa. by destruct (_ && _). }
  destruct (compress_text build_router pre _) as [[[new cl] kind]|].
  - destruct kind; [|by apply Hgate|by apply Hgate].
    destruct (pl || cl); [|by apply Hgate]. specialize (Ha new). cbv zeta in Ha.
    destruct (attach new s q cid (ccr cfg) w), (attach new s q cid (ccr cfg) w2).
    simpl in Ha. destruct Ha as [-> Ha]. by apply Hgate.
  - destruct pl; [|by apply Hgate]. specialize (Ha pre). cbv zeta in Ha.
    destruct (attach pre s q cid (ccr cfg) w), (attach pre s q cid (ccr cfg) w2).
    simpl in Ha. destruct Ha as [-> Ha]. by apply Hgate.
Qed.

Lemma compress_content_stable q cmds cmds2 cfg cid items w w2 :
  steady_store q ∨ ccr_enabled (ccr cfg) = false → registry_ok q w → registry_ok q w2 → cmds !! cid = cmds2 !! cid →
  (compress_content q cmds cfg cid items w).1 = (compress_content q cmds2 cfg cid items w2).1 ∧
  registry_ok q (compress_content q cmds cfg cid items w).2.
Proof.
  intros Hst Hw Hw2 Hc. revert w w2 Hw Hw2; induction items as [|ci items IH]; intros w w2 Hw Hw2; [done|].
  cbn [compress_content]. destruct ci as [t|u d|e].
  - destruct (compress_in_place_stable q cmds cmds2 cfg cid t w w2 Hst Hw Hw2 Hc) as [Hq1a Hq1].
    destruct (compress_in_place_stable q cmds2 cmds cfg cid t w2 w Hst Hw2 Hw (eq_sym Hc)) as [_ Hq2a].
    destruct (compress_in_place q cmds cfg cid t w) as [t1 wa].
    destruct (compress_in_place q cmds2 cfg cid t w2) as [t2 wb]. simpl in *. subst.
    destruct (IH wa wb Hq1 Hq2a) as [Hi Hi'].
    destruct (compress_content q cmds cfg cid items wa), (compress_content q cmds2 cfg cid items wb).
    simpl in *. by subst.
  - destruct (IH w w2 Hw Hw2) as [Hi Hi'].
    destruct (compress_content q cmds cfg cid items w), (compress_content q cmds2 cfg cid items w2).
    simpl in *. by subst.
  - destruct (IH w w2 Hw Hw2) as [Hi Hi'].
    destruct (compress_content q cmds cfg cid items w), (compress_content q cmds2 cfg cid items w2).
    simpl in *. by subst.
Qed.

Lemma compress_body_stable q cmds cmds2 cfg cid b w w2 :
  steady_store q ∨ ccr_enabled (ccr cfg) = false → registry_ok q w → registry_ok q w2 → cmds !! cid = cmds2 !! cid →
  (compress_body q cmds cfg cid b w).1 = (compress_body q cmds2 cfg cid b w2).1 ∧
  registry_ok q (compress_body q cmds cfg cid b w).2.
Proof.
  intros Hst Hw Hw2 Hc. destruct b as [s|items]; cbn [compress_body].
  - destruct (compress_in_place_stable q cmds cmds2 cfg cid s w w2 Hst Hw Hw2 Hc) as [Hq1a Hq1b].
    destruct (compress_in_place q cmds cfg cid s w), (compress_in_place q cmds2 cfg cid s w2).
    simpl in *. by subst.
  - destruct (compress_content_stable q cmds cmds2 cfg cid items w w2 Hst Hw Hw2 Hc) as [Hq1a Hq1b].
    destruct (compress_content q cmds cfg cid items w), (compress_content q cmds2 cfg cid items w2).
    simpl in *. by subst.
Qed.

(** The call an item answers. *)
Definition answers (item : ResponseItem) : option string :=
  match item with
  | FunctionCallOutput _ cid _ _ | CustomToolCallOutput _ cid _ _ _ => Some cid
  | _ => None
  end.

Lemma compress_item_stable q cmds cmds2 cfg item w w2 :
  steady_store q ∨ ccr_enabled (ccr cfg) = false → registry_ok q w → registry_ok q w2 →
  (∀ cid, answers item = Some cid → cmds !! cid = cmds2 !! cid) →
  (compress_item q cmds cfg item w).1 = (compress_item q cmds2 cfg item w2).1 ∧
  registry_ok q (compress_item q cmds cfg item w).2.
Proof.
  intros Hst Hw Hw2 Hc. destruct item; try done; cbn [compress_item].
  all: destruct (compress_body_stable q cmds cmds2 cfg call_id (body output) w w2 Hst Hw Hw2 (Hc _ eq_refl)) as [Hq1a Hq1b];
       destruct (compress_body q cmds cfg call_id (body output) w), (compress_body q cmds2 cfg call_id (body output) w2);
       simpl in *; by subst.
Qed.

Lemma compress_items_prefix q cmds cmds2 cfg items more w w2 :
  steady_store q ∨ ccr_enabled (ccr cfg) = false → registry_ok q w → registry_ok q w2 →
  (∀ cid, cid ∈ omap answers items → cmds !! cid = cmds2 !! cid) →
  (compress_items q cmds cfg items w).1 `prefix_of` (compress_items q cmds2 cfg (items ++ more) w2).1.
Proof.
  intros Hst. revert w w2; induction items as [|item items IH]; intros w w2 Hw Hw2 Hc.
  { apply prefix_nil. }
  cbn [compress_items app].
  assert (∀ cid, answers item = Some cid → cmds !! cid = cmds2 !! cid) as Hi.
  { intros cid Ha. apply Hc. apply list_elem_of_omap. exists item. split; [by left|done]. }
  destruct (compress_item_stable q cmds cmds2 cfg item w w2 Hst Hw Hw2 Hi) as [Heq Hq1a].
  destruct (compress_item_stable q cmds2 cmds cfg item w2 w Hst Hw2 Hw) as [_ Hq2a].
  { intros cid Ha. symmetry. by apply Hi. }
  destruct (compress_item q cmds cfg item w) as [i1 wa], (compress_item q cmds2 cfg item w2) as [i2 wb].
  simpl in *. subst.
  assert (∀ cid, cid ∈ omap answers items → cmds !! cid = cmds2 !! cid) as Hrest.
  { intros cid Hin. apply Hc. destruct (answers item); [by right|done]. }
  specialize (IH wa wb Hq1a Hq2a Hrest).
  destruct (compress_items q cmds cfg items wa), (compress_items q cmds2 cfg (items ++ more) wb).
  simpl in *. by apply prefix_cons.
Qed.

Lemma index_app_fresh items more cid :
  (∀ item, item ∈ more → hint_of cid item = None) →
  foldl index_step ∅ (items ++ more) !! cid = foldl index_step ∅ items !! cid.
Proof.
  induction more as [|item more IH] using rev_ind; intros Hm; [by rewrite app_nil_r|].
  rewrite app_assoc, foldl_app. simpl.
  assert (hint_of cid item = None) as Hh by (apply Hm; apply elem_of_app; right; by left).
  assert (foldl index_step ∅ (items ++ more) !! cid = foldl index_step ∅ items !! cid) as <-
    by (apply IH; intros; apply Hm; apply elem_of_app; by left).
  destruct item; simpl in *; try done. destruct (parse_hint name arguments) as [h|]; [|done].
  destruct (str_eqb call_id cid) eqn:E; [done|]. apply str_eqb_false in E. by rewrite lookup_insert_ne.
Qed.

(** Claim C8. Compression is stable as a conversation grows, as prompt caching needs: when
    items are appended to a request that give no new command to a call already answered,
    the compressed items of the shorter request are, byte for byte, the first items of the
    longer one, whatever files the two runs find, if whether a text can be written to the
    session's directory of the store does not change from one attempt to the next (or the
    store is turned off).  Where it does change the prefix may too, since a lossily compressed
    text that cannot be stored goes out uncompressed. *)
Theorem transform_prefix_stable cfg q req req2 more w w2 logs logs2 :
  steady_store q ∨ ccr_enabled (ccr cfg) = false →
  input req2 = input req ++ more →
  (∀ cid item, cid ∈ omap answers (input req) → item ∈ more → hint_of cid item = None) →
  input (transform cfg q req w logs).1.1 `prefix_of` input (transform cfg q req2 w2 logs2).1.1.
Proof.
  intros Hst Hin Hnew. unfold transform. destruct (c_enabled cfg); cbn [negb].
  2:{ simpl. rewrite Hin. by apply prefix_app_r. }
  assert (∀ f c, registry_ok q {| files := f; clock := c; written := ∅ |}) as Hempty.
  { intros f c cid h p Hp. simpl in Hp. by rewrite lookup_empty in Hp. }
  pose proof (compress_items_prefix q (index req) (index req2) cfg (input req) more
    {| files := files w; clock := clock w; written := ∅ |}
    {| files := files w2; clock := clock w2; written := ∅ |} Hst (Hempty _ _) (Hempty _ _)) as Hp.
  rewrite Hin.
  destruct (compress_items q (index req) cfg (input req) _) as [l1 wa].
  destruct (compress_items q (index req2) cfg (input req ++ more) _) as [l2 wb].
  simpl in *. apply Hp. intros cid Hcid. unfold index. rewrite Hin. symmetry.
  apply index_app_fresh. intros item Hitem. by apply Hnew.
Qed.
End transform.

(** ** Concrete runs *)

Definition stats_toy : StatsEnv := {| now_rfc3339 := "2026-06-20T08:15:30Z"; log_ok _ := true |}.

Definition on_cfg : CompressCfg :=
  {| c_enabled := true; per_item_min_bytes := 10; truncate := TruncateCfg_default;
     json := JsonCfg_default; diff := DiffCfg_default; log := LogCfg_default;
     preprocess := PreprocessCfg_default; search := SearchCfg_default;
     protect := ProtectCfg_default; ccr := CcrCfg_default |}.

Definition transform_toy (cfg : CompressCfg) (req : ResponsesApiRequest) :=
  @transform ascii_only serde_toy toon_toy env_toy_ccr hash_order_id stats_toy cfg "q" req empty_world ∅.

Definition output_item (s : string) : ResponseItem :=
  FunctionCallOutput None "call" {| body := BodyText s; success := None |} None.

Definition outputs_request (outs : list string) : ResponsesApiRequest :=
  {| model := "m"; instructions := "i"; input := output_item <$> outs; tools := [];
     tool_choice := "auto"; parallel_tool_calls := true; reasoning := None; store := false;
     stream := true; include := []; service_tier := None; prompt_cache_key := None;
     text := None; client_metadata := None |}.

(** Ten identical error lines: folding them would save space. *)
Definition error_text : string := join NL (replicate 10 "ERROR: cannot open the file").

Lemma errors_untouched_witness :
  input (transform_toy on_cfg (outputs_request [error_text])).1.1 !! 0 = Some (output_item error_text).
Proof.
  apply (@errors_untouched ascii_only serde_toy toon_toy env_toy_ccr hash_order_id stats_toy on_cfg
           "q" (outputs_request [error_text]) empty_world ∅ 0 None "call" error_text None None "error:").
  - reflexivity.
  - apply (bool_decide_unpack _). vm_compute. exact I.
  - vm_compute. reflexivity.
  - apply Nat.ltb_lt. vm_compute. reflexivity.
Defined.

(** A download line above much text: it is dropped, and the original is stored. *)
Definition progress_text : string :=
  join NL (("Downloading " +:+ concat_str (replicate 40 "crate ")) :: ["done"; "all fine"]).

Definition in_place_toy (s : string) : string * World :=
  @compress_in_place ascii_only serde_toy toon_toy env_toy_ccr hash_order_id "q" ∅ on_cfg "call" s empty_world.

Lemma compress_in_place_accounted_witness :
  ∃ c p, (in_place_toy progress_text).1 = c +:+ pointer p ∧
    written (in_place_toy progress_text).2 !! ("call", @short_hash env_toy_ccr progress_text) = Some p.
Proof.
  pose proof (@compress_in_place_accounted ascii_only serde_toy toon_toy env_toy_ccr hash_order_id
    "q" ∅ on_cfg "call" progress_text empty_world (in_place_toy progress_text).1
    (in_place_toy progress_text).2 eq_refl (surjective_pairing _)) as Hc.
  destruct (run progress_text (preprocess on_cfg)) as [pre lossy] eqn:Er.
  assert (lossy = true) as -> by (apply (f_equal snd) in Er; vm_compute in Er; congruence).
  destruct Hc as [Hc|[(_ & Hc & _)|[(_ & Hc)|(c & p & Hc & _ & Hw & _)]]].
  - apply (f_equal String.length) in Hc. vm_compute in Hc. discriminate Hc.
  - discriminate Hc.
  - apply (f_equal (λ w, size (files w))) in Hc. vm_compute in Hc. discriminate Hc.
  - exists c, p. split; [exact Hc|exact Hw].
Defined.

(** Dropped content is not always stored: when preprocessing deletes lines and
    the rest becomes a TOON document, the text is replaced although it no longer holds
    the deleted lines, carries no path, and nothing is written to disk. *)
Theorem lossy_toon_not_stored :
  let s := join NL ["Downloading crates"; "name,size"; "alpha,1"; "beta,2"] in
  (run s (preprocess on_cfg)).2 = true ∧ ccr_enabled (ccr on_cfg) = true ∧
  in_place_toy s = ("toon", empty_world).
Proof. vm_compute. repeat split. Qed.

(** One request, its log line. *)
Example transform_example :
  (transform_toy on_cfg (outputs_request [progress_text])).2 !! "/h/.codex/log/llm-compress.log" =
  Some ("2026-06-20T08:15:30Z,q,266,89" +:+ NL).
Proof. vm_compute. reflexivity. Qed.

Lemma transform_prefix_stable_witness :
  input (transform_toy on_cfg (outputs_request [progress_text])).1.1 `prefix_of`
  input (transform_toy on_cfg (outputs_request [progress_text; error_text])).1.1.
Proof.
  apply (@transform_prefix_stable ascii_only serde_toy toon_toy env_toy_ccr hash_order_id stats_toy on_cfg
    "q" (outputs_request [progress_text]) (outputs_request [progress_text; error_text])
    [output_item error_text] empty_world empty_world ∅ ∅).
  - left. intros root t cid h _. reflexivity.
  - reflexivity.
  - intros cid item _ Hin. apply list_elem_of_singleton in Hin. rewrite Hin. reflexivity.
Defined.

Lemma router_selects_witness :
  let budget := {| budget_cfg := on_cfg; budget_cmd := Some {| program := "/usr/bin/rg"; argv := [] |} |} in
  let router := @build_router ascii_only serde_toy toon_toy in
  cname <$> selected router search_text budget = Some "search" ∧
  compress_text router search_text budget =
  match selected router search_text budget with
  | Some c =>
      match compress c search_text budget with
      | Returned (Compressed new saved lossy kind) => if 0 <? saved then Some (new, lossy, kind) else None
      | _ => None
      end
  | None => None
  end.
Proof.
  split; [vm_compute; reflexivity|].
  apply (router_selects (@build_router ascii_only serde_toy toon_toy) search_text
    {| budget_cfg := on_cfg; budget_cmd := Some {| program := "/usr/bin/rg"; argv := [] |} |}).
  apply build_router_names.
Defined.
