(* ===== verification/SeekSequence.v ===== *)
(** * Locating the lines of a patch chunk in a file

    The function [seek_sequence] of src/codex-rs/apply-patch/src/seek_sequence.rs: the
    four passes of decreasing strictness over the candidate positions, with the
    normalisation of typographic punctuation, and what it finds. *)

From stdpp Require Import base list strings.
From S2P Require Import Prelude Str.

(** ** Operations *)

(** [c as u32 in lo..=hi] for a character of three bytes with lead bytes [b1 b2]. *)
Definition three_bytes (b1 b2 lo hi : N) (bs : list N) : bool :=
  match bs with
  | [x; y; z] => (x =? b1)%N && (y =? b2)%N && (lo <=? z)%N && (z <=? hi)%N
  | _ => false
  end.

(** U+2010 to U+2015 and U+2212 *)
Definition is_fancy_dash (bs : list N) : bool :=
  three_bytes 226 128 144 149 bs || three_bytes 226 136 146 146 bs.

(** U+2018 to U+201B *)
Definition is_fancy_single (bs : list N) : bool := three_bytes 226 128 152 155 bs.

(** U+201C to U+201F *)
Definition is_fancy_double (bs : list N) : bool := three_bytes 226 128 156 159 bs.

(** U+00A0, U+2002 to U+200A, U+202F, U+205F and U+3000 *)
Definition is_odd_space (bs : list N) : bool :=
  match bs with
  | [x; y] => (x =? 194)%N && (y =? 160)%N
  | _ => three_bytes 226 128 130 138 bs || three_bytes 226 128 175 175 bs
         || three_bytes 226 129 159 159 bs || three_bytes 227 128 128 128 bs
  end.

Definition normalise_char (c : string) : string :=
  let bs := char_bytes c in
  if is_fancy_dash bs then "-"
  else if is_fancy_single bs then String single_quote EmptyString
  else if is_fancy_double bs then String double_quote EmptyString
  else if is_odd_space bs then " "
  else c.

Definition normalise (s : string) : string := concat_str (normalise_char <$> chars (trim s)).

(** The comparison of one position: [lines[i + p_idx]] against every [pat], both seen
    through [f].  A position is tried only when the whole pattern fits there. *)
Fixpoint window_eq (f : string → string) (pattern window : list string) : bool :=
  match pattern, window with
  | [], _ => true
  | p :: ps, l :: ls => if str_eqb (f l) (f p) then window_eq f ps ls else false
  | _ :: _, [] => false
  end.

(** [for i in search_start..=last], the first position that compares equal. *)
Definition seek_pass (f : string → string) (lines pattern : list string) (search_start : nat) :
  option nat :=
  let last := length lines - length pattern in
  head (List.filter (λ i, window_eq f pattern (drop i lines))
          (seq search_start (last + 1 - search_start))).

Definition search_start (lines pattern : list string) (start : nat) (eof : bool) : nat :=
  if eof && (length pattern <=? length lines) then length lines - length pattern else start.

Definition seek_sequence (lines pattern : list string) (start : nat) (eof : bool) : option nat :=
  match pattern with
  | [] => Some start
  | _ =>
      if length lines <? length pattern then None
      else
        let from := search_start lines pattern start eof in
        match seek_pass id lines pattern from with
        | Some i => Some i
        | None =>
            match seek_pass trim_end lines pattern from with
            | Some i => Some i
            | None =>
                match seek_pass trim lines pattern from with
                | Some i => Some i
                | None => seek_pass normalise lines pattern from
                end
            end
        end
  end.

(** ** What the passes compare *)

(** The four views, strictest first. *)
Definition view (level : nat) : string → string :=
  match level with 0 => id | 1 => trim_end | 2 => trim | _ => normalise end.

(** [pattern] is at position [i] of [lines], up to what [level] ignores. *)
Definition matches_at (level : nat) (lines pattern : list string) (i : nat) : Prop :=
  i + length pattern ≤ length lines ∧
  view level <$> take (length pattern) (drop i lines) = view level <$> pattern.

Lemma window_eq_true f pattern window :
  window_eq f pattern window = true ↔
  length pattern ≤ length window ∧ f <$> take (length pattern) window = f <$> pattern.
Proof.
  revert window; induction pattern as [|p ps IH]; intros [|l ls]; cbn [window_eq length take].
  - split; [intros; split; [lia|done]|done].
  - split; [intros; split; [lia|done]|done].
  - split; [done|intros [? _]; lia].
  - destruct (str_eqb (f l) (f p)) eqn:E.
    + apply str_eqb_true in E. rewrite IH, !fmap_cons. split.
      * intros [Hl He]. split; [lia|]. by rewrite E, He.
      * intros [Hl He]. injection He as _ He. split; [lia|done].
    + apply str_eqb_false in E. rewrite !fmap_cons. split; [done|]. intros [_ He]. by injection He.
Qed.

Lemma window_eq_matches level lines pattern i :
  i + length pattern ≤ length lines →
  window_eq (view level) pattern (drop i lines) = true ↔ matches_at level lines pattern i.
Proof.
  intros Hi. rewrite window_eq_true, length_drop. unfold matches_at.
  split; intros [H1 H2]; split; [lia|done|lia|done].
Qed.

Lemma head_filter_seq_some (p : nat → bool) a n i :
  head (List.filter p (seq a n)) = Some i →
  a ≤ i < a + n ∧ p i = true ∧ ∀ j, a ≤ j < i → p j = false.
Proof.
  revert a; induction n as [|n IH]; intros a; simpl; [done|].
  destruct (p a) eqn:E; simpl.
  - intros; simplify_eq. split_and!; [lia|lia|done|]. intros; lia.
  - intros (Hi & Hp & Hj)%IH. split_and!; [lia|lia|done|]. intros j Hj'.
    destruct (decide (j = a)) as [->|]; [done|]. apply Hj; lia.
Qed.

Lemma head_filter_seq_none (p : nat → bool) a n :
  head (List.filter p (seq a n)) = None → ∀ j, a ≤ j < a + n → p j = false.
Proof.
  revert a; induction n as [|n IH]; intros a; simpl; [intros; lia|].
  destruct (p a) eqn:E; simpl; [done|]. intros Hn j Hj.
  destruct (decide (j = a)) as [->|]; [done|]. apply (IH (S a)); [done|lia].
Qed.

Section passes.
Variables (lines pattern : list string) (from : nat).
Hypothesis Hlen : length pattern ≤ length lines.

Lemma seek_pass_some level i :
  seek_pass (view level) lines pattern from = Some i →
  from ≤ i ∧ matches_at level lines pattern i ∧
  ∀ j, from ≤ j → matches_at level lines pattern j → i ≤ j.
Proof.
  intros (Hi & Hp & Hj)%head_filter_seq_some.
  apply window_eq_matches in Hp; [|lia]. split_and!; [lia|done|].
  intros j Hf Hm. destruct (decide (i ≤ j)); [done|]. exfalso.
  pose proof Hm as [Hb _]. apply window_eq_matches in Hm; [|done].
  rewrite Hj in Hm by lia. done.
Qed.

Lemma seek_pass_none level :
  seek_pass (view level) lines pattern from = None →
  ∀ j, from ≤ j → ~ matches_at level lines pattern j.
Proof.
  intros Hn j Hf Hm. pose proof Hm as [Hb _]. apply window_eq_matches in Hm; [|done].
  rewrite (head_filter_seq_none _ _ _ Hn) in Hm by lia. done.
Qed.
End passes.

Lemma lt_4_view level : ∃ k, k < 4 ∧ k ≤ level ∧ view level = view k.
Proof. destruct level as [|[|[|level]]]; [exists 0|exists 1|exists 2|exists 3]; repeat split; lia. Qed.

(** [k] is the first level at which some position from [from] on matches. *)
Lemma first_level lines pattern from k i :
  length pattern ≤ length lines → k < 4 →
  seek_pass (view k) lines pattern from = Some i →
  (∀ l, l < k → seek_pass (view l) lines pattern from = None) →
  ∃ level, from ≤ i ∧ matches_at level lines pattern i ∧
    ∀ level' j, from ≤ j → matches_at level' lines pattern j →
      level < level' ∨ (view level = view level' ∧ i ≤ j).
Proof.
  intros Hlen Hk (Hi & Hm & Hmin)%seek_pass_some Hl; [|done]. exists k. split_and!; [done|done|].
  intros level' j Hj Hm'. destruct (lt_4_view level') as (k' & Hk' & Hle & Hv).
  assert (matches_at k' lines pattern j) as Hm''.
  { destruct Hm' as [Hb He]. split; [done|]. by rewrite <-Hv. }
  destruct (decide (k' < k)) as [Hlt|Hge].
  { by destruct (seek_pass_none _ _ _ Hlen k' (Hl k' Hlt) j Hj). }
  destruct (decide (k = k')) as [<-|Hne]; [right|left; lia]. split; [done|]. by apply Hmin.
Qed.

(** What is found matches, at or after [start] unless the end of the file is asked for. *)
Lemma seek_found lines pattern start eof i :
  pattern ≠ [] → seek_sequence lines pattern start eof = Some i →
  (∃ level, matches_at level lines pattern i) ∧ (eof = false → start ≤ i).
Proof.
  intros Hne. unfold seek_sequence. destruct pattern as [|p ps] eqn:Ep; [done|]. rewrite <-Ep in *.
  clear Ep p ps. destruct (Nat.ltb_spec (length lines) (length pattern)); [done|].
  set (from := search_start lines pattern start eof). assert (eof = false → start ≤ from) as Hf.
  { intros ->. done. }
  assert (∀ level, seek_pass (view level) lines pattern from = Some i →
    (∃ level, matches_at level lines pattern i) ∧ (eof = false → start ≤ i)) as Hp.
  { intros level (Hi & Hm & _)%seek_pass_some; [|done]. split; [eauto|]. intros He. specialize (Hf He). lia. }
  destruct (seek_pass id lines pattern from) eqn:E0; [intros; simplify_eq; by apply (Hp 0)|].
  destruct (seek_pass trim_end lines pattern from) eqn:E1; [intros; simplify_eq; by apply (Hp 1)|].
  destruct (seek_pass trim lines pattern from) eqn:E2; [intros; simplify_eq; by apply (Hp 2)|].
  apply (Hp 3).
Qed.

(** A chunk is located at the best place: of all positions from the search start on
    where the whole pattern fits and matches, [seek_sequence] returns the first one of
    the strictest of the four comparisons that has any (verbatim; without trailing
    blanks; without surrounding blanks; with typographic punctuation read as ASCII), and
    it fails only when no position matches under any of them.  For a chunk marked as the
    end of the file the only position is the last one, whatever [start] is. *)
Theorem seek_sequence_best (lines pattern : list string) (start : nat) (eof : bool) :
  pattern ≠ [] →
  let from := if eof then length lines - length pattern else start in
  match seek_sequence lines pattern start eof with
  | Some i => ∃ level, from ≤ i ∧ matches_at level lines pattern i ∧
      ∀ level' j, from ≤ j → matches_at level' lines pattern j →
        level < level' ∨ (view level = view level' ∧ i ≤ j)
  | None => ∀ level j, from ≤ j → ~ matches_at level lines pattern j
  end.
Proof.
  intros Hne. unfold seek_sequence. destruct pattern as [|p ps] eqn:Ep; [done|]. rewrite <-Ep in *.
  clear Ep p ps. set (from := if eof then length lines - length pattern else start). destruct (length lines <? length pattern) eqn:El.
  { apply Nat.ltb_lt in El. intros level j _ [Hb _]. lia. }
  apply Nat.ltb_ge in El.
  assert (search_start lines pattern start eof = from) as ->.
  { unfold search_start. subst from. destruct eof; [|done]. simpl. by destruct (Nat.leb_spec (length pattern) (length lines)); [|lia]. }
  pose proof (first_level lines pattern from) as Hf.
  destruct (seek_pass id lines pattern from) as [i|] eqn:E0; [by apply (Hf 0); [done|lia|done|lia]|].
  destruct (seek_pass trim_end lines pattern from) as [i|] eqn:E1.
  { apply (Hf 1); [done|lia|done|]. intros l Hl. assert (l = 0) as -> by lia. done. }
  destruct (seek_pass trim lines pattern from) as [i|] eqn:E2.
  { apply (Hf 2); [done|lia|done|]. intros [|[|l]] Hl; done || lia. }
  destruct (seek_pass normalise lines pattern from) as [i|] eqn:E3.
  { apply (Hf 3); [done|lia|done|]. intros [|[|[|l]]] Hl; done || lia. }
  intros level j Hj. destruct (lt_4_view level) as (k & Hk & _ & Hv).
  unfold matches_at. rewrite Hv. intros Hm. revert Hm.
  apply (seek_pass_none _ _ from El k); [|done]. destruct k as [|[|[|[|k]]]]; done || lia.
Qed.

Lemma seek_sequence_best_witness :
  seek_sequence ["a"; "b "; "b"] ["b"] 0 false = Some 2 ∧
  ∃ level, 0 ≤ 2 ∧ matches_at level ["a"; "b "; "b"] ["b"] 2 ∧
    ∀ level' j, 0 ≤ j → matches_at level' ["a"; "b "; "b"] ["b"] j →
      level < level' ∨ (view level = view level' ∧ 2 ≤ j).
Proof.
  split; [vm_compute; reflexivity|].
  pose proof (seek_sequence_best ["a"; "b "; "b"] ["b"] 0 false) as H.
  vm_compute seek_sequence in H. apply H. discriminate.
Defined.

Example normalise_example :
  normalise " a – ‘b’ “c” " = "a - 'b' " +:+ String double_quote ("c" +:+ String double_quote EmptyString) ∧
  seek_sequence ["x"; "b"; "b"] ["b"] 0 true = Some 2 ∧
  seek_sequence ["b"; "x"] ["b"] 0 true = None.
Proof. repeat split; vm_compute; reflexivity. Qed.
