(* ===== verification/PatchParser.v ===== *)
(** * The patch parser of apply_patch

    src/codex-rs/apply-patch/src/streaming_parser.rs (the line-by-line state machine that
    also serves partial patches while a model is still writing them) and parser.rs (the
    whole-text entry point with its boundary checks).  An operation that fails leaves the
    parser's fields as they were when the failing check ran, so [process_line] returns
    the new parser or an error. *)

From stdpp Require Import base list strings.
From S2P Require Import Prelude Str.

(** ** Data *)

Inductive ParseError :=
  | InvalidPatchError (message : string)
  | InvalidHunkError (message : string) (line_number : nat).

Record UpdateFileChunk := {
  change_context : option string;
  old_lines : list string;
  new_lines : list string;
  is_end_of_file : bool;
}.

(** Paths are kept as the text of the patch. *)
Inductive Hunk :=
  | AddFile (path contents : string)
  | DeleteFile (path : string)
  | UpdateFile (path : string) (move_path : option string) (chunks : list UpdateFileChunk).

Record ApplyPatchArgs := {
  patch : string;
  hunks : list Hunk;
  workdir : option string;
  environment_id : option string;
}.

Inductive ParseMode := Strict | Lenient.

Inductive StreamingParserMode :=
  | ModeNotStarted
  | ModeStartedPatch
  | ModeAddFile
  | ModeDeleteFile
  | ModeUpdateFile (hunk_line_number : nat)
  | ModeEndedPatch.

Record StreamingParserState := {
  st_mode : StreamingParserMode;
  st_hunks : list Hunk;
  st_environment_id : option string;
}.

Record StreamingPatchParser := {
  line_buffer : string;
  state : StreamingParserState;
  line_number : nat;
}.

Definition StreamingParserState_default : StreamingParserState :=
  {| st_mode := ModeNotStarted; st_hunks := []; st_environment_id := None |}.

Definition StreamingPatchParser_default : StreamingPatchParser :=
  {| line_buffer := EmptyString; state := StreamingParserState_default; line_number := 0 |}.

Definition BEGIN_PATCH_MARKER : string := "*** Begin Patch".
Definition END_PATCH_MARKER : string := "*** End Patch".
Definition ADD_FILE_MARKER : string := "*** Add File: ".
Definition DELETE_FILE_MARKER : string := "*** Delete File: ".
Definition UPDATE_FILE_MARKER : string := "*** Update File: ".
Definition MOVE_TO_MARKER : string := "*** Move to: ".
Definition EOF_MARKER : string := "*** End of File".
Definition CHANGE_CONTEXT_MARKER : string := "@@ ".
Definition EMPTY_CHANGE_CONTEXT_MARKER : string := "@@".
Definition ENVIRONMENT_ID_MARKER : string := "*** Environment ID:".

(** ** Operations *)

(** [last_mut()], then an update of what it points to. *)
Fixpoint map_last {A} (f : A → A) (l : list A) : list A :=
  match l with
  | [] => []
  | [x] => [f x]
  | x :: l' => x :: map_last f l'
  end.

Definition no_lines (c : UpdateFileChunk) : bool :=
  match old_lines c, new_lines c with [], [] => true | _, _ => false end.

Definition is_empty_list {A} (l : list A) : bool := match l with [] => true | _ => false end.

(** [chunks.last().is_some_and(f)] *)
Definition last_is (f : UpdateFileChunk → bool) (chunks : list UpdateFileChunk) : bool :=
  match last chunks with Some c => f c | None => false end.

Definition unexpected_line (line : string) (n : nat) : ParseError :=
  InvalidHunkError ("Unexpected line found in update hunk: '" +:+ (line +:+
    "'. Every line should start with ' ' (context line), '+' (added line), or '-' (removed line)")) n.

Definition expected_context (line : string) (n : nat) : ParseError :=
  InvalidHunkError ("Expected update hunk to start with a @@ context marker, got: '" +:+ (line +:+ "'")) n.

Definition invalid_header (trimmed : string) (n : nat) : ParseError :=
  InvalidHunkError ("'" +:+ (trimmed +:+
    "' is not a valid hunk header. Valid hunk headers: '*** Add File: {path}', '*** Delete File: {path}', '*** Update File: {path}'")) n.

Definition first_line_error : ParseError :=
  InvalidPatchError "The first line of the patch must be '*** Begin Patch'".

Definition last_line_error : ParseError :=
  InvalidPatchError "The last line of the patch must be '*** End Patch'".

Definition ensure_update_hunk_is_not_empty (n : nat) (st : StreamingParserState) (line : string) :
  Result unit ParseError :=
  match last (st_hunks st) with
  | Some (UpdateFile path _ chunks) =>
      match chunks, st_mode st with
      | [], ModeUpdateFile hunk_line_number =>
          Err (InvalidHunkError ("Update file hunk for path '" +:+ (path +:+ "' is empty")) hunk_line_number)
      | _, _ =>
          if last_is no_lines chunks then
            if str_eqb line END_PATCH_MARKER
            then Err (InvalidHunkError "Update hunk does not contain any lines" n)
            else Err (unexpected_line line n)
          else Ok ()
      end
  | _ => Ok ()
  end.

(** A header starts a hunk once the previous one is complete. *)
Definition start_hunk (n : nat) (st : StreamingParserState) (trimmed : string) (h : Hunk)
    (m : StreamingParserMode) : Result (option StreamingParserState) ParseError :=
  let? _ := ensure_update_hunk_is_not_empty n st trimmed in
  Ok (Some {| st_mode := m; st_hunks := st_hunks st ++ [h];
              st_environment_id := st_environment_id st |}).

(** The end marker and the three headers, in the order they are tried. *)
Definition handle_headers (n : nat) (st : StreamingParserState) (trimmed : string) :
  Result (option StreamingParserState) ParseError :=
  if str_eqb trimmed END_PATCH_MARKER then
    let? _ := ensure_update_hunk_is_not_empty n st trimmed in
    Ok (Some {| st_mode := ModeEndedPatch; st_hunks := st_hunks st;
                st_environment_id := st_environment_id st |})
  else
    match strip_prefix ADD_FILE_MARKER trimmed with
    | Some path => start_hunk n st trimmed (AddFile path EmptyString) ModeAddFile
    | None =>
        match strip_prefix DELETE_FILE_MARKER trimmed with
        | Some path => start_hunk n st trimmed (DeleteFile path) ModeDeleteFile
        | None =>
            match strip_prefix UPDATE_FILE_MARKER trimmed with
            | Some path => start_hunk n st trimmed (UpdateFile path None []) (ModeUpdateFile n)
            | None => Ok None
            end
        end
    end.

(** Whether the line was a header or the end of the patch; the new state if it was. *)
Definition handle_hunk_headers_and_end_patch (n : nat) (st : StreamingParserState) (trimmed : string) :
  Result (option StreamingParserState) ParseError :=
  match st_mode st, strip_prefix ENVIRONMENT_ID_MARKER trimmed with
  | ModeStartedPatch, Some id =>
      match st_environment_id st with
      | Some _ => Err (InvalidPatchError "apply_patch environment_id cannot be specified more than once")
      | None =>
          let id := trim id in
          if str_is_empty id then Err (InvalidPatchError "apply_patch environment_id cannot be empty")
          else Ok (Some {| st_mode := st_mode st; st_hunks := st_hunks st; st_environment_id := Some id |})
      end
  | _, _ => handle_headers n st trimmed
  end.

Definition empty_chunk (ctx : option string) : UpdateFileChunk :=
  {| change_context := ctx; old_lines := []; new_lines := []; is_end_of_file := false |}.

(** A line of a chunk: the chunk is created when the hunk has none yet. *)
Definition add_to_chunk (old new : list string) (chunks : list UpdateFileChunk) : list UpdateFileChunk :=
  map_last (λ c, {| change_context := change_context c; old_lines := old_lines c ++ old;
                    new_lines := new_lines c ++ new; is_end_of_file := is_end_of_file c |})
    (if is_empty_list chunks then [empty_chunk None] else chunks).

Definition is_context_marker (update_line : string) : bool :=
  str_eqb update_line EMPTY_CHANGE_CONTEXT_MARKER || starts_with CHANGE_CONTEXT_MARKER update_line.

Definition mark_eof (c : UpdateFileChunk) : UpdateFileChunk :=
  {| change_context := change_context c; old_lines := old_lines c; new_lines := new_lines c;
     is_end_of_file := true |}.

(** A line inside an update hunk that is no header: the hunk's move path and chunks
    after it. *)
Definition update_line_step (n : nat) (line : string) (move_path : option string)
    (chunks : list UpdateFileChunk) : Result (option string * list UpdateFileChunk) ParseError :=
  let update_line := trim_end line in
  let after_eof := last_is is_end_of_file chunks in
  if after_eof && str_is_empty update_line then Ok (move_path, chunks)
  else if after_eof && negb (is_context_marker update_line) then Err (expected_context line n)
  else
    match (if is_empty_list chunks && negb (bool_decide (is_Some move_path))
           then strip_prefix MOVE_TO_MARKER update_line else None) with
    | Some move_to_path => Ok (Some move_to_path, chunks)
    | None =>
        if is_context_marker update_line && last_is no_lines chunks then Err (unexpected_line line n)
        else if str_eqb update_line EMPTY_CHANGE_CONTEXT_MARKER then
          Ok (move_path, chunks ++ [empty_chunk None])
        else match strip_prefix CHANGE_CONTEXT_MARKER update_line with
        | Some ctx => Ok (move_path, chunks ++ [empty_chunk (Some ctx)])
        | None =>
        if str_eqb update_line EOF_MARKER then
          if last_is no_lines chunks
          then Err (InvalidHunkError "Update hunk does not contain any lines" n)
          else Ok (move_path, map_last mark_eof chunks)
        else if str_is_empty line then
          Ok (move_path, add_to_chunk [EmptyString] [EmptyString] chunks)
        else match strip_prefix " " line with
        | Some l => Ok (move_path, add_to_chunk [l] [l] chunks)
        | None =>
        match strip_prefix "+" line with
        | Some l => Ok (move_path, add_to_chunk [] [l] chunks)
        | None =>
        match strip_prefix "-" line with
        | Some l => Ok (move_path, add_to_chunk [l] [] chunks)
        | None =>
            if last_is (λ c, negb (no_lines c)) chunks then Err (expected_context line n)
            else Err (unexpected_line line n)
        end end end end
    end.

Definition set_hunks (hs : list Hunk) (st : StreamingParserState) : StreamingParserState :=
  {| st_mode := st_mode st; st_hunks := hs; st_environment_id := st_environment_id st |}.

Definition process_state (n : nat) (st : StreamingParserState) (line : string) :
  Result StreamingParserState ParseError :=
  let trimmed := trim line in
  match st_mode st with
  | ModeNotStarted =>
      if str_eqb trimmed BEGIN_PATCH_MARKER
      then Ok {| st_mode := ModeStartedPatch; st_hunks := st_hunks st;
                 st_environment_id := st_environment_id st |}
      else Err first_line_error
  | ModeStartedPatch | ModeDeleteFile =>
      let? r := handle_hunk_headers_and_end_patch n st trimmed in
      match r with
      | Some st' => Ok st'
      | None => Err (invalid_header trimmed n)
      end
  | ModeAddFile =>
      let? r := handle_hunk_headers_and_end_patch n st trimmed in
      match r with
      | Some st' => Ok st'
      | None =>
          match strip_prefix "+" line, last (st_hunks st) with
          | Some line_to_add, Some (AddFile path contents) =>
              Ok (set_hunks (map_last (λ _, AddFile path (contents +:+ (line_to_add +:+ NL)))
                               (st_hunks st)) st)
          | _, _ => Err (invalid_header trimmed n)
          end
      end
  | ModeUpdateFile _ =>
      let? r := handle_hunk_headers_and_end_patch n st (trim_end line) in
      match r with
      | Some st' => Ok st'
      | None =>
          match last (st_hunks st) with
          | Some (UpdateFile path move_path chunks) =>
              let? '(move_path', chunks') := update_line_step n line move_path chunks in
              Ok (set_hunks (map_last (λ _, UpdateFile path move_path' chunks') (st_hunks st)) st)
          | _ => Err (unexpected_line line n)
          end
      end
  | ModeEndedPatch => if str_is_empty trimmed then Ok st else Err last_line_error
  end.

Definition process_line (p : StreamingPatchParser) (line : string) :
  Result StreamingPatchParser ParseError :=
  let? st := process_state (line_number p) (state p) line in
  Ok {| line_buffer := line_buffer p; state := st; line_number := line_number p |}.

(** [mem::take(&mut self.line_buffer)] and [self.line_number += 1] *)
Definition next_line (p : StreamingPatchParser) : StreamingPatchParser :=
  {| line_buffer := EmptyString; state := state p; line_number := S (line_number p) |}.

Definition push_char (p : StreamingPatchParser) (ch : string) : StreamingPatchParser :=
  {| line_buffer := line_buffer p +:+ ch; state := state p; line_number := line_number p |}.

(** One character of a delta. *)
Definition push_step (p : StreamingPatchParser) (ch : string) : Result StreamingPatchParser ParseError :=
  if str_eqb ch NL then process_line (next_line p) (strip_cr (line_buffer p)) else Ok (push_char p ch).

(** The parser after a delta; the hunks handed back are [st_hunks (state p)]. *)
Definition push_delta (p : StreamingPatchParser) (delta : string) : Result StreamingPatchParser ParseError :=
  fold_res push_step p (chars delta).

Definition finish (p : StreamingPatchParser) : Result StreamingPatchParser ParseError :=
  let? p :=
    if str_is_empty (line_buffer p) then Ok p
    else
      let line := line_buffer p in
      let p := next_line p in
      if str_eqb (trim line) END_PATCH_MARKER then
        let? _ := ensure_update_hunk_is_not_empty (line_number p) (state p) (trim line) in
        Ok {| line_buffer := line_buffer p;
              state := {| st_mode := ModeEndedPatch; st_hunks := st_hunks (state p);
                          st_environment_id := st_environment_id (state p) |};
              line_number := line_number p |}
      else process_line p line in
  match st_mode (state p) with
  | ModeEndedPatch => Ok p
  | _ => Err last_line_error
  end.

Definition check_start_and_end_lines_strict (first_line last_line : option string) : Result unit ParseError :=
  match trim <$> first_line, trim <$> last_line with
  | Some first, Some last =>
      if str_eqb first BEGIN_PATCH_MARKER && str_eqb last END_PATCH_MARKER then Ok ()
      else if negb (str_eqb first BEGIN_PATCH_MARKER) then Err first_line_error
      else Err last_line_error
  | Some first, None =>
      if negb (str_eqb first BEGIN_PATCH_MARKER) then Err first_line_error else Err last_line_error
  | None, _ => Err last_line_error
  end.

Definition check_patch_boundaries_strict (ls : list string) : Result (list string) ParseError :=
  let? _ := check_start_and_end_lines_strict (head ls) (last ls) in Ok ls.

(** The three spellings of a heredoc start. *)
Definition is_heredoc_start (first : string) : bool :=
  str_eqb first "<<EOF" || str_eqb first "<<'EOF'"
  || str_eqb first ("<<" +:+ String double_quote ("EOF" +:+ String double_quote EmptyString)).

Definition check_patch_boundaries_lenient (original_lines : list string) : Result (list string) ParseError :=
  match check_patch_boundaries_strict original_lines with
  | Ok ls => Ok ls
  | Err e =>
      match original_lines with
      | first :: (_ :: _) as tail =>
          if is_heredoc_start first && ends_with "EOF" (default EmptyString (last tail))
             && (4 <=? length original_lines)
          then check_patch_boundaries_strict (take (length original_lines - 2) (drop 1 original_lines))
          else Err e
      | _ => Err e
      end
  end.

Definition parse_patch_text (text : string) (m : ParseMode) : Result ApplyPatchArgs ParseError :=
  let ls := lines (trim text) in
  let? patch_lines := match m with
                      | Strict => check_patch_boundaries_strict ls
                      | Lenient => check_patch_boundaries_lenient ls
                      end in
  let patch := join NL patch_lines in
  let? p := push_delta StreamingPatchParser_default patch in
  let? p := finish p in
  Ok {| patch := patch; hunks := st_hunks (state p); workdir := None;
        environment_id := st_environment_id (state p) |}.

Definition PARSE_IN_STRICT_MODE : bool := false.

Definition parse_patch (text : string) : Result ApplyPatchArgs ParseError :=
  parse_patch_text text (if PARSE_IN_STRICT_MODE then Strict else Lenient).

(** [Hunk::path] *)
Definition hunk_path (h : Hunk) : string :=
  match h with
  | AddFile path _ => path
  | DeleteFile path => path
  | UpdateFile _ (Some path) _ => path
  | UpdateFile path None _ => path
  end.
