(* ===== verification/PatchFacts.v ===== *)
(** * What the patch parser guarantees

    The streaming parser is the fold of its state machine over the lines of the text,
    however the text is cut into deltas; what it accepts is well formed; and it reads
    back every well-formed patch that is written out. *)

From stdpp Require Import base list strings.
From S2P Require Import Prelude Str PatchParser.

(** ** Deltas and lines *)

(** The machine over the pieces between newlines: each piece but the last is a line, the
    last one is what stays in the buffer. *)
Fixpoint run_pieces (n : nat) (st : StreamingParserState) (pieces : list string) :
  Result StreamingPatchParser ParseError :=
  match pieces with
  | [] => Ok {| line_buffer := EmptyString; state := st; line_number := n |}
  | [rest] => Ok {| line_buffer := rest; state := st; line_number := n |}
  | piece :: pieces' =>
      let? st' := process_state (S n) st (strip_cr piece) in run_pieces (S n) st' pieces'
  end.

Lemma run_pieces_cons n st x l :
  l ≠ [] →
  run_pieces n st (x :: l) = let? st' := process_state (S n) st (strip_cr x) in run_pieces (S n) st' l.
Proof. by destruct l. Qed.

Lemma push_chars_pieces cs p :
  Forall (λ c, c ≠ NL → contains_char newline c = false) cs →
  contains_char newline (line_buffer p) = false →
  fold_res push_step p cs =
    run_pieces (line_number p) (state p) (split_char newline (line_buffer p +:+ concat_str cs)).
Proof.
  revert p; induction cs as [|c cs IH]; intros [buf st n] Hok Hbuf; cbn [line_buffer state line_number] in *.
  { simpl. rewrite str_app_nil_r, split_char_single by done. done. }
  apply Forall_cons in Hok as [Hc Hok].
  cbn [fold_res]. change (concat_str (c :: cs)) with (c +:+ concat_str cs). unfold push_step.
  destruct (str_eqb c NL) eqn:E.
  - apply str_eqb_true in E as ->. unfold NL.
    change (String newline EmptyString +:+ concat_str cs) with (String newline (concat_str cs)).
    rewrite split_char_app_sep by done. rewrite run_pieces_cons by apply split_char_nonempty.
    unfold process_line, next_line. cbn [line_buffer state line_number].
    destruct (process_state (S n) st (strip_cr buf)) as [st'|e]; simpl; [|done].
    by rewrite IH.
  - apply str_eqb_false in E. simpl. rewrite IH; [|done|].
    + unfold push_char. cbn [line_buffer state line_number]. by rewrite str_app_assoc.
    + unfold push_char. cbn [line_buffer]. by rewrite contains_char_app, Hbuf, Hc.
Qed.

Lemma push_delta_pieces p text :
  contains_char newline (line_buffer p) = false →
  push_delta p text =
    run_pieces (line_number p) (state p) (split_char newline (line_buffer p +:+ text)).
Proof.
  intros Hb. unfold push_delta. rewrite push_chars_pieces; [|apply chars_newline|done].
  by rewrite concat_str_chars.
Qed.

Lemma push_deltas p deltas :
  forallb utf8_valid deltas = true →
  fold_res push_delta p deltas = push_delta p (concat_str deltas).
Proof.
  revert p; induction deltas as [|d ds IH]; intros p Hv; [done|].
  cbn [forallb] in Hv. apply andb_true_iff in Hv as [Hd Hv]. cbn [fold_res].
  change (concat_str (d :: ds)) with (d +:+ concat_str ds).
  change (push_delta p (d +:+ concat_str ds)) with (fold_res push_step p (chars (d +:+ concat_str ds))).
  rewrite chars_app, fold_res_app by done. fold (push_delta p d).
  destruct (push_delta p d) as [p'|e]; simpl; [by apply IH|done].
Qed.

(** The machine over numbered lines. *)
Fixpoint run_lines (n : nat) (st : StreamingParserState) (ls : list string) :
  Result StreamingParserState ParseError :=
  match ls with
  | [] => Ok st
  | l :: ls' => let? st' := process_state (S n) st l in run_lines (S n) st' ls'
  end.

Lemma run_lines_app n st l1 l2 :
  run_lines n st (l1 ++ l2) = let? st' := run_lines n st l1 in run_lines (n + length l1) st' l2.
Proof.
  revert n st; induction l1 as [|l l1 IH]; intros n st; simpl; [by rewrite Nat.add_0_r|].
  destruct (process_state (S n) st l) as [st'|e]; simpl; [|done].
  rewrite IH. by replace (n + S (length l1)) with (S n + length l1) by lia.
Qed.

Lemma run_pieces_lines n st ls rest :
  run_pieces n st (ls ++ [rest]) =
    let? st' := run_lines n st (strip_cr <$> ls) in
    Ok {| line_buffer := rest; state := st'; line_number := n + length ls |}.
Proof.
  revert n st; induction ls as [|l ls IH]; intros n st; [simpl; by rewrite Nat.add_0_r|].
  cbn [app]. rewrite run_pieces_cons by (by destruct ls). rewrite fmap_cons. cbn [run_lines].
  destruct (process_state (S n) st (strip_cr l)) as [st'|e]; simpl; [|done].
  rewrite IH. simpl. by replace (S (n + length ls)) with (n + S (length ls)) by lia.
Qed.

(** The end of the text: a last line without newline counts when it is not empty, and
    closes the patch when it is the end marker. *)
Definition close_lines (n : nat) (st : StreamingParserState) (rest : string) :
  Result (list Hunk * option string) ParseError :=
  let? st :=
    if str_is_empty rest then Ok st
    else if str_eqb (trim rest) END_PATCH_MARKER then
      let? _ := ensure_update_hunk_is_not_empty (S n) st (trim rest) in
      Ok {| st_mode := ModeEndedPatch; st_hunks := st_hunks st; st_environment_id := st_environment_id st |}
    else process_state (S n) st rest in
  match st_mode st with
  | ModeEndedPatch => Ok (st_hunks st, st_environment_id st)
  | _ => Err last_line_error
  end.

(** What a patch text means, line by line. *)
Definition parse_text (text : string) : Result (list Hunk * option string) ParseError :=
  let pieces := split_char newline text in
  let ls := strip_cr <$> removelast pieces in
  let? st := run_lines 0 StreamingParserState_default ls in
  close_lines (length ls) st (List.last pieces EmptyString).

Definition parsed (p : StreamingPatchParser) : list Hunk * option string :=
  (st_hunks (state p), st_environment_id (state p)).

Lemma finish_close buf st n :
  (let? p := finish {| line_buffer := buf; state := st; line_number := n |} in Ok (parsed p)) =
  close_lines n st buf.
Proof.
  unfold finish, close_lines. cbn [line_buffer]. destruct (str_is_empty buf); simpl.
  { by destruct (st_mode st). }
  destruct (str_eqb (trim buf) END_PATCH_MARKER); simpl.
  - by destruct (ensure_update_hunk_is_not_empty _ _ _).
  - unfold process_line. simpl. destruct (process_state (S n) st buf) as [st'|e]; simpl; [|done].
    by destruct (st_mode st').
Qed.

Lemma parse_pieces text :
  (let? p := push_delta StreamingPatchParser_default text in
   let? p := finish p in Ok (parsed p)) = parse_text text.
Proof.
  rewrite push_delta_pieces by done.
  unfold parse_text. cbn [line_buffer StreamingPatchParser_default state line_number].
  rewrite str_app_nil_l. set (pieces := split_char newline _).
  assert (pieces ≠ []) as Hne by apply split_char_nonempty.
  rewrite (app_removelast_last EmptyString Hne) at 1. rewrite run_pieces_lines, length_fmap.
  destruct (run_lines 0 _ _) as [st|e]; simpl; [|done]. by apply finish_close.
Qed.

(** The streaming parser computes what the text means line by line, however the
    model's output is cut into deltas: pushing any deltas and finishing gives exactly the
    state machine's result on the numbered lines of their concatenation (carriage returns
    before newlines removed, a last line without newline included), errors included. *)
Theorem streaming_parse_refines_lines deltas :
  forallb utf8_valid deltas = true →
  (let? p := fold_res push_delta StreamingPatchParser_default deltas in
   let? p := finish p in Ok (parsed p)) = parse_text (concat_str deltas).
Proof.
  intros Hv. rewrite push_deltas by done. apply parse_pieces.
Qed.

(** ** Accepted patches are well formed *)

Definition has_lines (c : UpdateFileChunk) : bool := negb (no_lines c).

(** A new file is empty or ends with a newline; an update has chunks, and each of them
    has a line. *)
Definition hunk_ok (h : Hunk) : bool :=
  match h with
  | AddFile _ contents => str_is_empty contents || ends_with NL contents
  | DeleteFile _ => true
  | UpdateFile _ _ chunks => negb (is_empty_list chunks) && forallb has_lines chunks
  end.

(** All chunks but the last one have a line. *)
Definition partial_ok (chunks : list UpdateFileChunk) : bool := forallb has_lines (removelast chunks).

Definition state_inv (st : StreamingParserState) : Prop :=
  match st_mode st with
  | ModeNotStarted | ModeStartedPatch => st_hunks st = []
  | ModeAddFile => ∃ hs path contents, st_hunks st = hs ++ [AddFile path contents] ∧
      forallb hunk_ok (st_hunks st) = true
  | ModeUpdateFile _ => ∃ hs path mv chunks, st_hunks st = hs ++ [UpdateFile path mv chunks] ∧
      forallb hunk_ok hs = true ∧ partial_ok chunks = true
  | ModeDeleteFile | ModeEndedPatch => forallb hunk_ok (st_hunks st) = true
  end.

Lemma map_last_snoc {A} (f : A → A) l x : map_last f (l ++ [x]) = l ++ [f x].
Proof. induction l as [|y l IH]; [done|]. simpl. rewrite IH. by destruct l. Qed.

Lemma removelast_map_last {A} (f : A → A) l : removelast (map_last f l) = removelast l.
Proof.
  destruct l as [|x l _] using rev_ind; [done|]. by rewrite map_last_snoc, !removelast_last.
Qed.

Lemma forallb_has_lines chunks :
  forallb has_lines chunks = partial_ok chunks && negb (last_is no_lines chunks).
Proof.
  unfold partial_ok, last_is. destruct chunks as [|c chunks _] using rev_ind; [done|].
  rewrite removelast_last, last_snoc, forallb_app. simpl. unfold has_lines. by rewrite andb_true_r.
Qed.

Lemma update_line_step_partial n line mv chunks mv' chunks' :
  update_line_step n line mv chunks = Ok (mv', chunks') →
  partial_ok chunks = true → partial_ok chunks' = true.
Proof.
  assert (partial_ok chunks = true → last_is no_lines chunks = false → ∀ c,
    partial_ok (chunks ++ [c]) = true) as Hnew.
  { intros Hp Hl c. unfold partial_ok. rewrite removelast_last, forallb_has_lines, Hp, Hl. done. }
  assert (∀ o m, partial_ok chunks = true → partial_ok (add_to_chunk o m chunks) = true) as Hadd.
  { intros o m Hp. unfold partial_ok, add_to_chunk. rewrite removelast_map_last. by destruct chunks. }
  unfold update_line_step. intros Hs Hp.
  destruct (_ && str_is_empty _); [by simplify_eq|].
  destruct (_ && negb _); [done|].
  destruct (if _ && negb _ then _ else None); [by simplify_eq|].
  destruct (is_context_marker (trim_end line)) eqn:Em; cbn [andb] in Hs.
  - destruct (last_is no_lines chunks) eqn:El; [done|].
    destruct (str_eqb _ EMPTY_CHANGE_CONTEXT_MARKER) eqn:Ec; [simplify_eq; by apply Hnew|].
    unfold is_context_marker in Em. rewrite Ec in Em. simpl in Em. unfold starts_with in Em.
    apply bool_decide_eq_true in Em as [ctx Hctx]. rewrite Hctx in Hs. simplify_eq. by apply Hnew.
  - unfold is_context_marker in Em. apply orb_false_iff in Em as [E1 Em]. rewrite E1 in Hs. unfold starts_with in Em.
    apply bool_decide_eq_false in Em. apply eq_None_not_Some in Em. rewrite Em in Hs.
    destruct (str_eqb _ EOF_MARKER).
    { destruct (last_is no_lines chunks); [done|]. simplify_eq. unfold partial_ok.
      by rewrite removelast_map_last. }
    destruct (str_is_empty line); [simplify_eq; by apply Hadd|].
    destruct (strip_prefix " " line); [simplify_eq; by apply Hadd|].
    destruct (strip_prefix "+" line); [simplify_eq; by apply Hadd|].
    destruct (strip_prefix "-" line); [simplify_eq; by apply Hadd|].
    repeat case_match; done.
Qed.

Lemma ensure_hunks_ok n st line :
  ensure_update_hunk_is_not_empty n st line = Ok () → state_inv st →
  forallb hunk_ok (st_hunks st) = true.
Proof.
  unfold ensure_update_hunk_is_not_empty, state_inv. intros He Hi.
  destruct (st_mode st) eqn:Em; try (by rewrite Hi).
  - destruct Hi as (hs & path & contents & _ & Hok). done.
  - destruct Hi as (hs & path & mv & chunks & Hh & Hok & Hp). rewrite Hh, last_snoc in He.
    rewrite Hh, forallb_app, Hok. cbn [forallb hunk_ok andb]. rewrite forallb_has_lines, Hp.
    destruct chunks as [|c chunks]; [done|]. destruct (last_is no_lines (c :: chunks)); [|done].
    by destruct (str_eqb _ _).
Qed.

Lemma headers_inv n st trimmed st' :
  handle_headers n st trimmed = Ok (Some st') → state_inv st → state_inv st'.
Proof.
  assert (∀ h m, start_hunk n st trimmed h m = Ok (Some st') → state_inv st →
    st_hunks st' = st_hunks st ++ [h] ∧ st_mode st' = m ∧ forallb hunk_ok (st_hunks st) = true) as Hstart.
  { intros h m ([] & He & Hr)%res_bind_ok Hi. simplify_eq. split_and!; [done|done|].
    exact (ensure_hunks_ok _ _ _ He Hi). }
  unfold handle_headers. intros Hs Hi. destruct (str_eqb _ _).
  { apply res_bind_ok in Hs as ([] & He & Hr). simplify_eq. exact (ensure_hunks_ok _ _ _ He Hi). }
  repeat case_match; [..|done]; apply Hstart in Hs as (Hh & Hm & Hok); try done;
    unfold state_inv; rewrite Hm, Hh.
  - eexists _, _, _. split; [done|]. by rewrite forallb_app, Hok.
  - by rewrite forallb_app, Hok.
  - eexists _, _, _, _. by split_and!.
Qed.

Lemma process_state_inv n st line st' :
  process_state n st line = Ok st' → state_inv st → state_inv st'.
Proof.
  assert (∀ t s, handle_hunk_headers_and_end_patch n st t = Ok (Some s) → state_inv st → state_inv s) as Hh.
  { intros t s. unfold handle_hunk_headers_and_end_patch.
    repeat case_match; try done; try apply headers_inv. intros; simplify_eq.
    unfold state_inv in *. simpl in *. by repeat case_match. }
  unfold process_state. intros Hs Hi. destruct (st_mode st) eqn:Em.
  - destruct (str_eqb _ _); [|done]. simplify_eq. unfold state_inv in Hi. by rewrite Em in Hi.
  - apply res_bind_ok in Hs as ([s|] & Hr & Hs); [|done]. simplify_eq. by eapply Hh.
  - apply res_bind_ok in Hs as ([s|] & Hr & Hs); [simplify_eq; by eapply Hh|].
    destruct (strip_prefix "+" line) as [l|]; [|done].
    unfold state_inv in Hi. rewrite Em in Hi. destruct Hi as (hs & path & contents & Hhs & Hok).
    rewrite Hhs, last_snoc in Hs. cbv beta iota in Hs. rewrite map_last_snoc in Hs. injection Hs as <-. unfold state_inv. simpl. rewrite Em.
    eexists _, _, _. split; [done|]. rewrite Hhs, forallb_app in Hok. apply andb_true_iff in Hok as [Hok _].
    rewrite forallb_app, Hok. cbn [forallb hunk_ok andb]. rewrite andb_true_r. apply orb_true_iff. right.
    apply ends_with_true. eexists. by rewrite str_app_assoc.
  - apply res_bind_ok in Hs as ([s|] & Hr & Hs); [|done]. simplify_eq. by eapply Hh.
  - apply res_bind_ok in Hs as ([s|] & Hr & Hs); [simplify_eq; by eapply Hh|].
    unfold state_inv in Hi. rewrite Em in Hi. destruct Hi as (hs & path & mv & chunks & Hhs & Hok & Hp).
    rewrite Hhs, last_snoc in Hs. apply res_bind_ok in Hs as ([mv' chunks'] & Hu & Hs).
    rewrite map_last_snoc in Hs. injection Hs as <-. unfold state_inv. simpl. rewrite Em.
    eexists _, _, _, _. split_and!; [done|done|]. by eapply update_line_step_partial.
  - destruct (str_is_empty _); by simplify_eq.
Qed.

Lemma run_lines_inv n st ls st' : run_lines n st ls = Ok st' → state_inv st → state_inv st'.
Proof.
  revert n st; induction ls as [|l ls IH]; intros n st; simpl; [by intros; simplify_eq|].
  intros (s & Hs & Hr)%res_bind_ok Hi. eapply IH; [done|]. by eapply process_state_inv.
Qed.

Lemma parse_text_ok text hs id : parse_text text = Ok (hs, id) → forallb hunk_ok hs = true.
Proof.
  unfold parse_text, close_lines. intros (st & Hr & Hc)%res_bind_ok.
  apply run_lines_inv in Hr; [|done]. apply res_bind_ok in Hc as (st2 & Hf & Hc).
  assert (state_inv st2 ∨ forallb hunk_ok (st_hunks st2) = true) as Hi.
  { destruct (str_is_empty _); [simplify_eq; by left|]. destruct (str_eqb _ _).
    - apply res_bind_ok in Hf as ([] & He & Hf). simplify_eq. right. exact (ensure_hunks_ok _ _ _ He Hr).
    - left. by eapply process_state_inv. }
  destruct (st_mode st2) eqn:Em; try done. simplify_eq. destruct Hi as [Hi|Hi]; [|done].
  unfold state_inv in Hi. by rewrite Em in Hi.
Qed.

(** Whatever text the model wrote, a patch that is accepted is well formed: every
    update names at least one chunk and every chunk has a line, every new file is empty
    or ends with a newline, and the recorded patch text (without heredoc wrapper) means,
    line by line, exactly the hunks returned. *)
Theorem parse_patch_well_formed text args :
  parse_patch text = Ok args →
  forallb hunk_ok (hunks args) = true ∧ workdir args = None ∧
  parse_text (patch args) = Ok (hunks args, environment_id args).
Proof.
  unfold parse_patch, parse_patch_text. intros (ls & _ & Hp)%res_bind_ok.
  apply res_bind_ok in Hp as (p & Hpush & Hp). apply res_bind_ok in Hp as (p' & Hfin & Hp).
  assert (parse_text (join NL ls) = Ok (parsed p')) as Ht.
  { rewrite <-parse_pieces, Hpush. cbn [res_bind]. by rewrite Hfin. }
  simplify_eq. split_and!; [by eapply parse_text_ok|done|done].
Qed.

Definition sample_deltas : list string :=
  ["*** Begin Pa"; "tch" +:+ NL +:+ "*** Add File: a" +:+ String carriage_return NL +:+ "+x";
   NL +:+ "*** End Patch"].

Lemma streaming_parse_refines_lines_witness :
  parse_text (concat_str sample_deltas) = Ok ([AddFile "a" ("x" +:+ NL)], None) ∧
  (let? p := fold_res push_delta StreamingPatchParser_default sample_deltas in
   let? p := finish p in Ok (parsed p)) = parse_text (concat_str sample_deltas).
Proof.
  split; [vm_compute; reflexivity|].
  apply (streaming_parse_refines_lines sample_deltas). vm_compute. reflexivity.
Defined.

Lemma parse_patch_well_formed_witness :
  ∃ args, parse_patch (concat_str sample_deltas) = Ok args ∧ forallb hunk_ok (hunks args) = true.
Proof.
  eexists. split; [vm_compute; reflexivity|].
  apply (parse_patch_well_formed (concat_str sample_deltas)). vm_compute. reflexivity.
Defined.
