(* ===== verification/PatchPrint.v ===== *)
(** * Writing a patch and reading it back

    A printer for the patch format, and the proof that [parse_patch] reads back every
    well-formed list of hunks from its printed form. *)

From stdpp Require Import base list strings.
From S2P Require Import Prelude Str PatchParser PatchFacts.

(** ** The printer *)

Definition print_chunk (c : UpdateFileChunk) : list string :=
  match change_context c with
  | Some ctx => CHANGE_CONTEXT_MARKER +:+ ctx
  | None => EMPTY_CHANGE_CONTEXT_MARKER
  end :: (String.app "-" <$> old_lines c) ++ (String.app "+" <$> new_lines c) ++
  (if is_end_of_file c then [EOF_MARKER] else []).

(** The lines of a new file: what is before each newline. *)
Definition content_lines (contents : string) : list string := removelast (split_char newline contents).

Definition print_hunk (h : Hunk) : list string :=
  match h with
  | AddFile path contents => (ADD_FILE_MARKER +:+ path) :: (String.app "+" <$> content_lines contents)
  | DeleteFile path => [DELETE_FILE_MARKER +:+ path]
  | UpdateFile path move_path chunks =>
      (UPDATE_FILE_MARKER +:+ path) ::
      (match move_path with Some dest => [MOVE_TO_MARKER +:+ dest] | None => [] end) ++
      concat (print_chunk <$> chunks)
  end.

Definition print_body (env : option string) (hs : list Hunk) : list string :=
  BEGIN_PATCH_MARKER ::
  (match env with Some id => [ENVIRONMENT_ID_MARKER +:+ (" " +:+ id)] | None => [] end) ++
  concat (print_hunk <$> hs).

Definition print_patch (env : option string) (hs : list Hunk) : string :=
  join NL (print_body env hs ++ [END_PATCH_MARKER]).

(** ** What can be printed *)

(** A line: text without newline and without carriage return at its end. *)
Definition line_ok (l : string) : bool :=
  utf8_valid l && negb (contains_char newline l) && negb (ends_cr l).

(** A path or a context: a line that does not end in white space and is not empty. *)
Definition name_ok (s : string) : bool := line_ok s && ends_clean s.

Definition chunk_ok (c : UpdateFileChunk) : bool :=
  match change_context c with Some ctx => name_ok ctx | None => true end
  && forallb line_ok (old_lines c) && forallb line_ok (new_lines c) && has_lines c.

Definition printable (h : Hunk) : bool :=
  match h with
  | AddFile path contents =>
      name_ok path && forallb line_ok (content_lines contents)
      && str_is_empty (List.last (split_char newline contents) EmptyString)
  | DeleteFile path => name_ok path
  | UpdateFile path move_path chunks =>
      name_ok path && match move_path with Some dest => name_ok dest | None => true end
      && forallb chunk_ok chunks && negb (is_empty_list chunks)
  end.

Definition env_ok (env : option string) : bool :=
  match env with Some id => name_ok id && str_eqb (trim id) id | None => true end.

(** ** Lines of the machine *)

(** The previous hunk is complete, so a header may follow. *)
Definition ready (st : StreamingParserState) : Prop :=
  (match st_mode st with ModeNotStarted | ModeEndedPatch => False | _ => True end) ∧
  ∀ n line, ensure_update_hunk_is_not_empty n st line = Ok ().

Lemma name_line marker s :
  utf8_valid marker = true → name_ok s = true → trim_end (marker +:+ s) = marker +:+ s.
Proof.
  unfold name_ok. intros Hm [_ Hc]%andb_true_iff. by apply trim_end_clean, ends_clean_app.
Qed.

Lemma star_line marker s :
  utf8_valid marker = true → name_ok s = true →
  trim (String "*" marker +:+ s) = String "*" marker +:+ s.
Proof.
  intros Hm Hs. rewrite str_app_cons. rewrite trim_visible by done.
  rewrite <-str_app_cons. by apply name_line.
Qed.

(** The handling of a line that is a header for the modes that accept one. *)
Lemma header_line n st line r :
  ready st → trim line = line → trim_end line = line →
  strip_prefix ENVIRONMENT_ID_MARKER line = None →
  handle_headers n st line = Ok (Some r) → process_state n st line = Ok r.
Proof.
  intros [Hm _] Ht He Henv Hh. unfold process_state, handle_hunk_headers_and_end_patch.
  rewrite Ht, He, Henv, Hh. by destruct (st_mode st).
Qed.

Section headers.
Variables (n : nat) (st : StreamingParserState) (path : string).
Hypothesis Hready : ready st.
Hypothesis Hpath : name_ok path = true.

Lemma add_header :
  process_state n st (ADD_FILE_MARKER +:+ path) =
    Ok {| st_mode := ModeAddFile; st_hunks := st_hunks st ++ [AddFile path EmptyString];
          st_environment_id := st_environment_id st |}.
Proof.
  apply header_line; [done|by apply (star_line "** Add File: ")|by apply name_line|done|].
  unfold handle_headers, start_hunk. rewrite (proj2 Hready). done.
Qed.

Lemma delete_header :
  process_state n st (DELETE_FILE_MARKER +:+ path) =
    Ok {| st_mode := ModeDeleteFile; st_hunks := st_hunks st ++ [DeleteFile path];
          st_environment_id := st_environment_id st |}.
Proof.
  apply header_line; [done|by apply (star_line "** Delete File: ")|by apply name_line|done|].
  unfold handle_headers, start_hunk. rewrite (proj2 Hready). done.
Qed.

Lemma update_header :
  process_state n st (UPDATE_FILE_MARKER +:+ path) =
    Ok {| st_mode := ModeUpdateFile n; st_hunks := st_hunks st ++ [UpdateFile path None []];
          st_environment_id := st_environment_id st |}.
Proof.
  apply header_line; [done|by apply (star_line "** Update File: ")|by apply name_line|done|].
  unfold handle_headers, start_hunk. rewrite (proj2 Hready). done.
Qed.
End headers.

(** *** The body of a new file *)

Definition in_add (hs : list Hunk) (path contents : string) (env : option string) : StreamingParserState :=
  {| st_mode := ModeAddFile; st_hunks := hs ++ [AddFile path contents]; st_environment_id := env |}.

(** A line of a diff never looks like a header. *)
Lemma no_header n st a r :
  a ≠ "*"%char → handle_headers n st (String a r) = Ok None.
Proof.
  intros Ha. unfold handle_headers. rewrite (proj2 (str_eqb_false _ _)) by (intros H; by injection H).
  unfold ADD_FILE_MARKER, DELETE_FILE_MARKER, UPDATE_FILE_MARKER. cbn [strip_prefix].
  by rewrite (proj2 (byte_eqb_false _ _)) by congruence.
Qed.

Lemma add_line n hs path contents env l :
  process_state n (in_add hs path contents env) ("+" +:+ l) =
    Ok (in_add hs path (contents +:+ (l +:+ NL)) env).
Proof.
  unfold process_state, in_add. cbn [st_mode]. change ("+" +:+ l) with (String "+" l).
  rewrite trim_visible by done. destruct (trim_end_visible "+" l eq_refl eq_refl) as [r ->].
  unfold handle_hunk_headers_and_end_patch. cbn [st_mode]. rewrite no_header by done. simpl.
  rewrite last_snoc. unfold set_hunks. simpl. by rewrite map_last_snoc.
Qed.

Definition terminated (ls : list string) : string := concat_str ((λ l, l +:+ NL) <$> ls).

Lemma add_lines n hs path contents env ls :
  run_lines n (in_add hs path contents env) (String.app "+" <$> ls) =
    Ok (in_add hs path (contents +:+ terminated ls) env).
Proof.
  revert n contents; induction ls as [|l ls IH]; intros n contents.
  - unfold terminated. simpl. by rewrite str_app_nil_r.
  - rewrite fmap_cons. cbn [run_lines]. rewrite add_line. cbn [res_bind]. rewrite IH.
    unfold terminated. rewrite fmap_cons.
    change (concat_str ((l +:+ NL) :: ?k)) with ((l +:+ NL) +:+ concat_str k). by rewrite !str_app_assoc.
Qed.

Lemma terminated_content contents :
  List.last (split_char newline contents) EmptyString = EmptyString →
  terminated (content_lines contents) = contents.
Proof.
  intros Hl. unfold content_lines. pose proof (split_char_nonempty newline contents) as Hne.
  rewrite <-(join_split_char newline contents) at 2. revert Hl Hne.
  generalize (split_char newline contents) as ps. induction ps as [|p ps IH]; intros Hl Hne; [done|].
  destruct ps as [|q ps]; [simpl in *; by subst|].
  rewrite join_cons by done. change (removelast (p :: q :: ps)) with (p :: removelast (q :: ps)).
  unfold terminated. rewrite fmap_cons.
  change (concat_str ((p +:+ NL) :: ?k)) with ((p +:+ NL) +:+ concat_str k).
  rewrite <-str_app_assoc. f_equal. fold NL. f_equal. by apply IH.
Qed.

(** *** The body of an update *)

Definition in_update (k : nat) (hs : list Hunk) (path : string) (mv : option string)
    (chunks : list UpdateFileChunk) (env : option string) : StreamingParserState :=
  {| st_mode := ModeUpdateFile k; st_hunks := hs ++ [UpdateFile path mv chunks];
     st_environment_id := env |}.

Section update.
Variables (k : nat) (hs : list Hunk) (path : string) (env : option string).

Lemma update_line_ok n mv chunks line mv' chunks' :
  handle_headers n (in_update k hs path mv chunks env) (trim_end line) = Ok None →
  update_line_step n line mv chunks = Ok (mv', chunks') →
  process_state n (in_update k hs path mv chunks env) line = Ok (in_update k hs path mv' chunks' env).
Proof.
  intros Hh Hu. unfold process_state, handle_hunk_headers_and_end_patch, in_update in *. cbn [st_mode] in *.
  rewrite Hh. cbn [res_bind st_hunks]. rewrite last_snoc, Hu. cbn [res_bind].
  unfold set_hunks. simpl. by rewrite map_last_snoc.
Qed.

Lemma last_is_snoc f cs c : last_is f (cs ++ [c]) = f c.
Proof. unfold last_is. by rewrite last_snoc. Qed.

Lemma is_empty_snoc {A} (l : list A) x : is_empty_list (l ++ [x]) = false.
Proof. by destruct l. Qed.

Lemma add_to_chunk_snoc old new cs c :
  add_to_chunk old new (cs ++ [c]) =
    cs ++ [{| change_context := change_context c; old_lines := old_lines c ++ old;
              new_lines := new_lines c ++ new; is_end_of_file := is_end_of_file c |}].
Proof. unfold add_to_chunk. by rewrite is_empty_snoc, map_last_snoc. Qed.

(** A text that starts with another character is none of the markers of an update. *)
Lemma not_context a r : a ≠ "@"%char → is_context_marker (String a r) = false.
Proof.
  intros Ha. unfold is_context_marker, starts_with, CHANGE_CONTEXT_MARKER.
  rewrite (proj2 (str_eqb_false _ _)) by (intros H; by injection H). cbn [strip_prefix orb].
  by rewrite (proj2 (byte_eqb_false _ _)) by congruence.
Qed.

Lemma removed_line n mv cs c l :
  is_end_of_file c = false →
  process_state n (in_update k hs path mv (cs ++ [c]) env) ("-" +:+ l) =
    Ok (in_update k hs path mv (cs ++ [{| change_context := change_context c;
          old_lines := old_lines c ++ [l]; new_lines := new_lines c; is_end_of_file := false |}]) env).
Proof.
  intros He. change ("-" +:+ l) with (String "-" l).
  destruct (trim_end_visible "-" l eq_refl eq_refl) as [r Hr].
  apply update_line_ok; rewrite ?Hr; [by apply no_header|]. unfold update_line_step. rewrite Hr.
  rewrite !last_is_snoc, He, is_empty_snoc, not_context by done. cbn [andb].
  rewrite (proj2 (str_eqb_false (String "-" r) EMPTY_CHANGE_CONTEXT_MARKER)) by discriminate.
  rewrite (proj2 (str_eqb_false (String "-" r) EOF_MARKER)) by discriminate.
  simpl. by rewrite add_to_chunk_snoc, app_nil_r, He.
Qed.

Lemma added_line n mv cs c l :
  is_end_of_file c = false →
  process_state n (in_update k hs path mv (cs ++ [c]) env) ("+" +:+ l) =
    Ok (in_update k hs path mv (cs ++ [{| change_context := change_context c;
          old_lines := old_lines c; new_lines := new_lines c ++ [l]; is_end_of_file := false |}]) env).
Proof.
  intros He. change ("+" +:+ l) with (String "+" l).
  destruct (trim_end_visible "+" l eq_refl eq_refl) as [r Hr].
  apply update_line_ok; rewrite ?Hr; [by apply no_header|]. unfold update_line_step. rewrite Hr.
  rewrite !last_is_snoc, He, is_empty_snoc, not_context by done. cbn [andb].
  rewrite (proj2 (str_eqb_false (String "+" r) EMPTY_CHANGE_CONTEXT_MARKER)) by discriminate.
  rewrite (proj2 (str_eqb_false (String "+" r) EOF_MARKER)) by discriminate.
  simpl. by rewrite add_to_chunk_snoc, app_nil_r, He.
Qed.

Lemma removed_lines n mv cs c ls :
  is_end_of_file c = false →
  run_lines n (in_update k hs path mv (cs ++ [c]) env) (String.app "-" <$> ls) =
    Ok (in_update k hs path mv (cs ++ [{| change_context := change_context c;
          old_lines := old_lines c ++ ls; new_lines := new_lines c; is_end_of_file := false |}]) env).
Proof.
  revert n c; induction ls as [|l ls IH]; intros n c He.
  - simpl. rewrite app_nil_r, <-He. by destruct c.
  - rewrite fmap_cons. cbn [run_lines]. rewrite removed_line by done. cbn [res_bind].
    rewrite IH by done. simpl. by rewrite <-app_assoc.
Qed.

Lemma added_lines n mv cs c ls :
  is_end_of_file c = false →
  run_lines n (in_update k hs path mv (cs ++ [c]) env) (String.app "+" <$> ls) =
    Ok (in_update k hs path mv (cs ++ [{| change_context := change_context c;
          old_lines := old_lines c; new_lines := new_lines c ++ ls; is_end_of_file := false |}]) env).
Proof.
  revert n c; induction ls as [|l ls IH]; intros n c He.
  - simpl. rewrite app_nil_r, <-He. by destruct c.
  - rewrite fmap_cons. cbn [run_lines]. rewrite added_line by done. cbn [res_bind].
    rewrite IH by done. simpl. by rewrite <-app_assoc.
Qed.

Lemma context_line n mv cs ctx :
  match ctx with Some s => name_ok s | None => true end = true → last_is no_lines cs = false →
  process_state n (in_update k hs path mv cs env)
    match ctx with Some s => CHANGE_CONTEXT_MARKER +:+ s | None => EMPTY_CHANGE_CONTEXT_MARKER end =
  Ok (in_update k hs path mv (cs ++ [empty_chunk ctx]) env).
Proof.
  intros Hc Hl. set (line := match ctx with Some s => _ | None => _ end).
  assert (trim_end line = line) as Ht by (destruct ctx; [by apply name_line|done]).
  assert (is_context_marker line = true) as Hm.
  { destruct ctx; [|done]. unfold is_context_marker, line. by rewrite starts_with_app, orb_true_r. }
  assert (∃ r, line = String "@" r) as [r Hr] by (destruct ctx; eexists; reflexivity).
  apply update_line_ok; rewrite ?Ht; [rewrite Hr; by apply no_header|].
  unfold update_line_step. rewrite Ht, Hm, Hl.
  assert (str_is_empty line = false) as -> by (by rewrite Hr). rewrite !andb_false_r.
  replace (if _ && _ then strip_prefix MOVE_TO_MARKER line else None) with (@None string)
    by (rewrite Hr; by destruct (_ && _)).
  cbn [andb]. unfold line. destruct ctx as [s|]; [|done].
  rewrite (proj2 (str_eqb_false _ _)).
  - by rewrite (proj2 (strip_prefix_some _ _ s)).
  - unfold CHANGE_CONTEXT_MARKER. discriminate.
Qed.

Lemma eof_line n mv cs c :
  is_end_of_file c = false → has_lines c = true →
  process_state n (in_update k hs path mv (cs ++ [c]) env) EOF_MARKER =
    Ok (in_update k hs path mv (cs ++ [mark_eof c]) env).
Proof.
  intros He Hh. apply update_line_ok; [done|].
  unfold update_line_step. change (trim_end EOF_MARKER) with EOF_MARKER.
  rewrite !last_is_snoc, He, is_empty_snoc. cbn [andb]. apply negb_true_iff in Hh.
  change (is_context_marker EOF_MARKER) with false. cbn [andb].
  change (str_eqb EOF_MARKER EMPTY_CHANGE_CONTEXT_MARKER) with false.
  change (strip_prefix CHANGE_CONTEXT_MARKER EOF_MARKER) with (@None string).
  rewrite str_eqb_refl, Hh. by rewrite map_last_snoc.
Qed.

Lemma chunk_lines n mv cs c :
  chunk_ok c = true → last_is no_lines cs = false →
  run_lines n (in_update k hs path mv cs env) (print_chunk c) = Ok (in_update k hs path mv (cs ++ [c]) env).
Proof.
  intros Hc Hl. unfold chunk_ok in Hc. rewrite !andb_true_iff in Hc. destruct Hc as [[[Hctx _] _] Hlines].
  unfold print_chunk. cbn [run_lines]. rewrite context_line by done. cbn [res_bind].
  rewrite run_lines_app, removed_lines by done. cbn [res_bind].
  rewrite run_lines_app, added_lines by done. cbn [res_bind]. simpl.
  destruct c as [ctx old new eof]; simpl in *. destruct eof; [|done].
  cbn [run_lines]. rewrite eof_line by done. done.
Qed.

Lemma chunks_lines n mv cs chunks :
  forallb chunk_ok chunks = true → last_is no_lines cs = false →
  run_lines n (in_update k hs path mv cs env) (concat (print_chunk <$> chunks)) =
    Ok (in_update k hs path mv (cs ++ chunks) env).
Proof.
  revert n cs; induction chunks as [|c chunks IH]; intros n cs Hok Hl; [simpl; by rewrite app_nil_r|].
  cbn [forallb] in Hok. apply andb_true_iff in Hok as [Hc Hok].
  rewrite fmap_cons. cbn [concat]. rewrite run_lines_app, chunk_lines by done. cbn [res_bind].
  rewrite IH; [by rewrite <-app_assoc|done|]. rewrite last_is_snoc.
  unfold chunk_ok in Hc. apply andb_true_iff in Hc as [_ Hc]. by apply negb_true_iff in Hc.
Qed.
End update.

(** *** Hunks and patches *)

(** [st'] is [st] with the hunks [hs] read and ready for more. *)
Definition reads (st : StreamingParserState) (hs : list Hunk) (st' : StreamingParserState) : Prop :=
  ready st' ∧ st_hunks st' = st_hunks st ++ hs ∧ st_environment_id st' = st_environment_id st.

Lemma move_line n k hs path env dest :
  name_ok dest = true →
  process_state n (in_update k hs path None [] env) (MOVE_TO_MARKER +:+ dest) =
    Ok (in_update k hs path (Some dest) [] env).
Proof.
  intros Hd. pose proof (name_line MOVE_TO_MARKER dest eq_refl Hd) as Ht.
  apply update_line_ok; [by rewrite Ht|]. unfold update_line_step. rewrite Ht.
  change (last_is is_end_of_file []) with false. cbn [andb is_empty_list].
  change (bool_decide (is_Some (@None string))) with false. cbn [negb].
  by rewrite (proj2 (strip_prefix_some MOVE_TO_MARKER _ dest)).
Qed.

Lemma ready_update k hs path mv cs c env :
  has_lines c = true → ready (in_update k hs path mv (cs ++ [c]) env).
Proof.
  intros Hc. split; [done|]. intros n line. unfold ensure_update_hunk_is_not_empty, in_update.
  cbn [st_hunks st_mode]. rewrite last_snoc. apply negb_true_iff in Hc.
  destruct (cs ++ [c]) as [|x l] eqn:E; [by destruct cs|]. by rewrite <-E, last_is_snoc, Hc.
Qed.

Lemma hunk_lines n st h :
  ready st → printable h = true →
  ∃ st', run_lines n st (print_hunk h) = Ok st' ∧ reads st [h] st'.
Proof.
  intros Hr Hp. destruct h as [path contents|path|path mv chunks]; cbn [printable] in Hp;
    rewrite ?andb_true_iff in Hp.
  - destruct Hp as [[Hpath Hls] Hlast]. apply str_is_empty_true in Hlast. eexists. split.
    + cbn [print_hunk run_lines]. rewrite add_header by done. cbn [res_bind].
      change ({| st_mode := ModeAddFile; st_hunks := ?h ++ [AddFile ?p ?c]; st_environment_id := ?e |})
        with (in_add h p c e).
      by rewrite add_lines, str_app_nil_l, terminated_content.
    + split_and!; [split; [done|]|done|done]. intros m line.
      unfold ensure_update_hunk_is_not_empty, in_add. cbn [st_hunks]. by rewrite last_snoc.
  - eexists. split; [cbn [print_hunk run_lines]; by rewrite delete_header|].
    split_and!; [split; [done|]|done|done]. intros m line.
    unfold ensure_update_hunk_is_not_empty. cbn [st_hunks]. by rewrite last_snoc.
  - destruct Hp as [[[Hpath Hmv] Hcs] Hne]. exists (in_update (S n) (st_hunks st) path mv chunks (st_environment_id st)).
    split.
    + cbn [print_hunk run_lines]. rewrite update_header by done. cbn [res_bind].
      change ({| st_mode := ModeUpdateFile ?k; st_hunks := ?h ++ [UpdateFile ?p ?m ?c]; st_environment_id := ?e |})
        with (in_update k h p m c e).
      destruct mv as [dest|]; cbn [app run_lines].
      * rewrite move_line by done. cbn [res_bind]. by rewrite chunks_lines.
      * by rewrite chunks_lines.
    + split_and!; [|done|done]. destruct chunks as [|c cs _] using rev_ind; [done|]. apply ready_update.
      rewrite forallb_app in Hcs. apply andb_true_iff in Hcs as [_ Hc]. simpl in Hc.
      rewrite andb_true_r in Hc. unfold chunk_ok in Hc. by apply andb_true_iff in Hc as [_ ?].
Qed.

Lemma hunks_lines n st hs :
  ready st → forallb printable hs = true →
  ∃ st', run_lines n st (concat (print_hunk <$> hs)) = Ok st' ∧ reads st hs st'.
Proof.
  revert n st; induction hs as [|h hs IH]; intros n st Hr Hp.
  - exists st. split; [done|]. split_and!; [done|by rewrite app_nil_r|done].
  - cbn [forallb] in Hp. apply andb_true_iff in Hp as [Hh Hp].
    destruct (hunk_lines n st h Hr Hh) as (st1 & H1 & Hr1 & Hh1 & He1).
    destruct (IH (n + length (print_hunk h)) st1 Hr1 Hp) as (st2 & H2 & Hr2 & Hh2 & He2).
    exists st2. split.
    + rewrite fmap_cons. cbn [concat]. rewrite run_lines_app, H1. exact H2.
    + split_and!; [done|by rewrite Hh2, Hh1, <-app_assoc|congruence].
Qed.

Lemma body_lines env hs :
  env_ok env = true → forallb printable hs = true →
  ∃ st, run_lines 0 StreamingParserState_default (print_body env hs) = Ok st ∧
    ready st ∧ st_hunks st = hs ∧ st_environment_id st = env.
Proof.
  intros He Hp. unfold print_body. cbn [run_lines].
  change (process_state 1 StreamingParserState_default BEGIN_PATCH_MARKER)
    with (@Ok _ ParseError {| st_mode := ModeStartedPatch; st_hunks := []; st_environment_id := None |}).
  cbn [res_bind]. set (started e := {| st_mode := ModeStartedPatch; st_hunks := []; st_environment_id := e |}).
  assert (∀ e, ready (started e)) as Hs by done.
  assert (run_lines 1 (started None)
    match env with Some id => [ENVIRONMENT_ID_MARKER +:+ (" " +:+ id)] | None => [] end = Ok (started env)) as Henv.
  { destruct env as [id|]; [|done]. cbn [run_lines]. unfold env_ok in He.
    apply andb_true_iff in He as [Hid Htr]. apply str_eqb_true in Htr.
    rewrite str_app_assoc. unfold process_state. cbn [st_mode started].
    rewrite (star_line "** Environment ID: ") by done.
    unfold handle_hunk_headers_and_end_patch. cbn [st_mode started].
    change (String "*" "** Environment ID: ") with (ENVIRONMENT_ID_MARKER +:+ " ").
    rewrite <-str_app_assoc, (proj2 (strip_prefix_some ENVIRONMENT_ID_MARKER _ (" " +:+ id))) by done.
    cbn [st_environment_id]. unfold trim. change (" " +:+ id) with (String " " id).
    rewrite chars_ascii by done. simpl drop_while. fold (trim id). rewrite Htr.
    apply andb_true_iff in Hid as [_ Hid]. apply ends_clean_nonempty, str_is_empty_false in Hid. by rewrite Hid. }
  rewrite run_lines_app, Henv. cbn [res_bind].
  destruct (hunks_lines (1 + length (match env with Some id => [ENVIRONMENT_ID_MARKER +:+ (" " +:+ id)] | None => [] end))
    (started env) hs (Hs env) Hp) as (st & H1 & Hr & Hh & Hid).
  exists st. split_and!; [exact H1|done|by rewrite Hh|by rewrite Hid].
Qed.

(** *** The printed text *)

Lemma line_ok_app marker s :
  utf8_valid marker = true → contains_char newline marker = false →
  contains_char carriage_return marker = false → line_ok s = true → line_ok (marker +:+ s) = true.
Proof.
  unfold line_ok. rewrite !andb_true_iff, !negb_true_iff. intros Hv Hn Hc [[H1 H2] H3].
  split_and!; [by apply utf8_valid_app|by rewrite contains_char_app, Hn|by apply ends_cr_app].
Qed.

Lemma name_line_ok s : name_ok s = true → line_ok s = true.
Proof. by intros [? _]%andb_true_iff. Qed.

Lemma forall_line_ok marker ls :
  utf8_valid marker = true → contains_char newline marker = false →
  contains_char carriage_return marker = false → forallb line_ok ls = true →
  Forall (λ l, line_ok l = true) (String.app marker <$> ls).
Proof.
  intros Hv Hn Hc Hls. apply Forall_fmap, Forall_forall. intros l Hl. simpl.
  apply line_ok_app; try done. eapply forallb_forall in Hls; [done|by apply list_elem_of_In].
Qed.

Lemma print_chunk_ok c : chunk_ok c = true → Forall (λ l, line_ok l = true) (print_chunk c).
Proof.
  unfold chunk_ok, print_chunk. rewrite !andb_true_iff. intros [[[Hctx Ho] Hn] _]. constructor.
  - destruct (change_context c); [|done]. by apply line_ok_app, name_line_ok.
  - rewrite !Forall_app. split_and!; [by apply forall_line_ok..|]. destruct (is_end_of_file c); by repeat constructor.
Qed.

Lemma print_hunk_ok h : printable h = true → Forall (λ l, line_ok l = true) (print_hunk h).
Proof.
  destruct h as [path contents|path|path mv chunks]; cbn [printable print_hunk]; rewrite ?andb_true_iff.
  - intros [[Hp Hl] _]. constructor; [by apply line_ok_app, name_line_ok|by apply forall_line_ok].
  - intros Hp. constructor; [by apply line_ok_app, name_line_ok|done].
  - intros [[[Hp Hm] Hc] _]. constructor; [by apply line_ok_app, name_line_ok|]. apply Forall_app. split.
    + destruct mv; [|done]. constructor; [by apply line_ok_app, name_line_ok|done].
    + apply Forall_concat, Forall_fmap, Forall_forall. intros c Hin. apply print_chunk_ok.
      eapply forallb_forall in Hc; [done|by apply list_elem_of_In].
Qed.

Lemma print_body_ok env hs :
  env_ok env = true → forallb printable hs = true → Forall (λ l, line_ok l = true) (print_body env hs).
Proof.
  intros He Hp. unfold print_body. constructor; [done|]. apply Forall_app. split.
  - destruct env as [id|]; [|done]. apply andb_true_iff in He as [He _]. constructor; [|done].
    rewrite str_app_assoc. by apply line_ok_app, name_line_ok.
  - apply Forall_concat, Forall_fmap, Forall_forall. intros h Hin. apply print_hunk_ok.
    eapply forallb_forall in Hp; [done|by apply list_elem_of_In].
Qed.

Lemma trim_print ls :
  Forall (λ l, line_ok l = true) ls →
  trim (join NL ((BEGIN_PATCH_MARKER :: ls) ++ [END_PATCH_MARKER])) =
    join NL ((BEGIN_PATCH_MARKER :: ls) ++ [END_PATCH_MARKER]).
Proof.
  intros Hls. assert (ends_clean (join NL ((BEGIN_PATCH_MARKER :: ls) ++ [END_PATCH_MARKER])) = true) as Hc.
  { rewrite join_snoc, str_app_assoc by done. apply ends_clean_app; [|done]. apply utf8_valid_app; [|done].
    apply join_valid. constructor; [done|]. eapply Forall_impl; [done|].
    intros l. unfold line_ok. rewrite !andb_true_iff. tauto. }
  apply trim_end_clean in Hc. rewrite <-Hc at 2.
  cbn [app]. rewrite join_cons by (by destruct ls). by apply (trim_visible "*").
Qed.

Lemma plain_lines ls :
  Forall (λ l, line_ok l = true) ls → Forall (λ l, contains_char newline l = false ∧ ends_cr l = false) ls.
Proof.
  intros Hok. eapply Forall_impl; [done|]. intros l. unfold line_ok.
  rewrite !andb_true_iff, !negb_true_iff. tauto.
Qed.

Lemma parse_text_print env hs :
  env_ok env = true → forallb printable hs = true → parse_text (print_patch env hs) = Ok (hs, env).
Proof.
  intros He Hp. pose proof (plain_lines _ (print_body_ok env hs He Hp)) as Hls.
  unfold parse_text, print_patch. rewrite split_char_join.
  - rewrite removelast_last, last_last.
    assert (strip_cr <$> print_body env hs = print_body env hs) as ->.
    { rewrite <-(list_fmap_id (print_body env hs)) at 2. apply list_fmap_ext. intros i l Hl.
      eapply Forall_lookup_1 in Hls as [_ Hcr]; [|done]. by apply strip_cr_id. }
    destruct (body_lines env hs He Hp) as (st & -> & [Hm Hr] & Hh & Henv). cbn [res_bind].
    unfold close_lines. change (str_is_empty END_PATCH_MARKER) with false.
    change (trim END_PATCH_MARKER) with END_PATCH_MARKER. rewrite str_eqb_refl, Hr. simpl. by rewrite Hh, Henv.
  - by destruct (print_body env hs).
  - apply Forall_app. split; [|by constructor]. eapply Forall_impl; [done|]. by intros l [? _].
Qed.

(** Claim C12. Round trip: every well-formed list of hunks (with an optional environment id)
    is read back, unchanged, from its printed patch text.  Paths and contexts must be
    non-empty single lines without white space at the end; lines must not contain a
    newline or end in a carriage return; every chunk has a line and every update a
    chunk; a new file's text is made of whole lines. *)
Theorem parse_print_roundtrip env hs :
  env_ok env = true → forallb printable hs = true →
  parse_patch (print_patch env hs) =
    Ok {| patch := print_patch env hs; hunks := hs; workdir := None; environment_id := env |}.
Proof.
  intros He Hp. pose proof (print_body_ok env hs He Hp) as Hok.
  pose proof (parse_text_print env hs He Hp) as Hparse.
  unfold parse_patch, parse_patch_text, PARSE_IN_STRICT_MODE.
  assert (trim (print_patch env hs) = print_patch env hs) as ->
    by (unfold print_patch, print_body; apply trim_print; unfold print_body in Hok; by inversion Hok).
  assert (lines (print_patch env hs) = print_body env hs ++ [END_PATCH_MARKER]) as ->
    by (apply lines_join; [by apply plain_lines|done|done]).
  unfold check_patch_boundaries_lenient, check_patch_boundaries_strict. rewrite last_snoc.
  change (head (print_body env hs ++ [END_PATCH_MARKER])) with (Some BEGIN_PATCH_MARKER).
  assert (check_start_and_end_lines_strict (Some BEGIN_PATCH_MARKER) (Some END_PATCH_MARKER) = Ok ()) as ->
    by (vm_compute; reflexivity). cbn [res_bind].
  fold (print_patch env hs). rewrite <-parse_pieces in Hparse.
  apply res_bind_ok in Hparse as (p & -> & Hparse). cbn [res_bind].
  apply res_bind_ok in Hparse as (p' & -> & Hparse). cbn [res_bind].
  unfold parsed in Hparse. by injection Hparse as -> ->.
Qed.

Lemma parse_print_roundtrip_witness :
  ∃ args, parse_patch (print_patch (Some "env")
      [AddFile "a.txt" ("x" +:+ NL); DeleteFile "b";
       UpdateFile "c" (Some "d") [{| change_context := Some "fn f"; old_lines := ["1"; EmptyString];
                                     new_lines := ["2"]; is_end_of_file := true |}]]) = Ok args ∧
    length (hunks args) = 3.
Proof.
  eexists. split; [apply parse_print_roundtrip; vm_compute; reflexivity|reflexivity].
Defined.
