(* ===== verification/Replace.v ===== *)
(** * From chunks to new file contents

    The functions [compute_replacements], [apply_replacements] and the text part of
    [derive_new_contents_from_chunks] of src/codex-rs/apply-patch/src/lib.rs.
    [Vec::insert] panics beyond the end of the vector: [apply_replacements] returns
    [None] there, and it is proved that it never does. *)

From stdpp Require Import base list strings.
From S2P Require Import Prelude Str SeekSequence PatchParser.

(** ** Operations *)

(** [(start_index, old_len, new_lines)] *)
Definition Replacement : Type := nat * nat * list string.

Definition last_is_empty (ls : list string) : bool :=
  match last ls with Some l => str_is_empty l | None => false end.

(** [&s[..s.len() - 1]] *)
Definition drop_last (ls : list string) : list string := take (length ls - 1) ls.

(** Where the chunk's lines are: the pattern that was found, the lines that replace it
    and the position. *)
Definition locate (lines : list string) (line_index : nat) (c : UpdateFileChunk) :
  option (list string * list string * nat) :=
  match seek_sequence lines (old_lines c) line_index (is_end_of_file c) with
  | Some i => Some (old_lines c, new_lines c, i)
  | None =>
      if last_is_empty (old_lines c) then
        let pattern := drop_last (old_lines c) in
        let new_slice := if last_is_empty (new_lines c) then drop_last (new_lines c) else new_lines c in
        (λ i, (pattern, new_slice, i)) <$> seek_sequence lines pattern line_index (is_end_of_file c)
      else None
  end.

(** [line_index] after the chunk's context line. *)
Definition seek_context (lines : list string) (path : string) (line_index : nat) (c : UpdateFileChunk) :
  Result nat string :=
  match change_context c with
  | Some ctx_line =>
      match seek_sequence lines [ctx_line] line_index false with
      | Some idx => Ok (idx + 1)
      | None => Err ("Failed to find context '" +:+ (ctx_line +:+ ("' in " +:+ path)))
      end
  | None => Ok line_index
  end.

(** One chunk: the replacements so far and [line_index]. *)
Definition chunk_step (lines : list string) (path : string) (acc : list Replacement * nat)
    (c : UpdateFileChunk) : Result (list Replacement * nat) string :=
  let '(reps, line_index) := acc in
  let? line_index := seek_context lines path line_index c in
  match old_lines c with
  | [] =>
      let insertion_idx := if last_is_empty lines then length lines - 1 else length lines in
      Ok (reps ++ [(insertion_idx, 0, new_lines c)], line_index)
  | _ =>
      match locate lines line_index c with
      | Some (pattern, new_slice, start_idx) =>
          Ok (reps ++ [(start_idx, length pattern, new_slice)], start_idx + length pattern)
      | None =>
          Err ("Failed to find expected lines in " +:+ (path +:+ (":" +:+ (NL +:+ join NL (old_lines c)))))
      end
  end.

Definition by_index (a b : Replacement) : bool := a.1.1 <=? b.1.1.

Definition compute_replacements (lines : list string) (path : string) (chunks : list UpdateFileChunk) :
  Result (list Replacement) string :=
  let? '(reps, _) := fold_res (chunk_step lines path) ([], 0) chunks in
  Ok (sort_by by_index reps).

(** [for _ in 0..old_len { if start_idx < lines.len() { lines.remove(start_idx) } }] *)
Fixpoint remove_lines (old_len start_idx : nat) (ls : list string) : list string :=
  match old_len with
  | 0 => ls
  | S k => remove_lines k start_idx (if start_idx <? length ls then delete start_idx ls else ls)
  end.

(** [Vec::insert] *)
Definition vec_insert (i : nat) (x : string) (ls : list string) : option (list string) :=
  if i <=? length ls then Some (take i ls ++ x :: drop i ls) else None.

Fixpoint insert_lines (start_idx : nat) (new : list string) (ls : list string) : option (list string) :=
  match new with
  | [] => Some ls
  | l :: new' => vec_insert start_idx l ls ≫= insert_lines (S start_idx) new'
  end.

Definition apply_one (ls : option (list string)) (r : Replacement) : option (list string) :=
  let '(start_idx, old_len, new_segment) := r in
  ls ≫= λ ls, insert_lines start_idx new_segment (remove_lines old_len start_idx ls).

Definition apply_replacements (ls : list string) (reps : list Replacement) : option (list string) :=
  foldl apply_one (Some ls) (reverse reps).

(** The lines of a file: the empty piece after the final newline is dropped. *)
Definition file_lines (contents : string) : list string :=
  let ls := split_char newline contents in
  if last_is_empty ls then drop_last ls else ls.

(** The text of the new lines: a final newline is added unless the last line is empty. *)
Definition file_text (ls : list string) : string :=
  join NL (if last_is_empty ls then ls else ls ++ [EmptyString]).

(** [derive_new_contents_from_chunks] after the file is read; [None] is a panic. *)
Definition derive_new_contents (path : string) (chunks : list UpdateFileChunk) (original_contents : string) :
  Result (option string) string :=
  let original_lines := file_lines original_contents in
  let? reps := compute_replacements original_lines path chunks in
  Ok (file_text <$> apply_replacements original_lines reps).

(** ** Applying is splicing *)

(** [s <= length ls] keeps every step of a replacement in range. *)
Lemma remove_lines_eq k s ls :
  s ≤ length ls → remove_lines k s ls = take s ls ++ drop (s + k) ls.
Proof.
  revert ls; induction k as [|k IH]; intros ls Hs; simpl; [by rewrite Nat.add_0_r, take_drop|].
  destruct (Nat.ltb_spec s (length ls)) as [Hlt|Hge].
  - rewrite IH by (rewrite length_delete by (by apply lookup_lt_is_Some); lia).
    rewrite delete_take_drop. rewrite take_app_le by (rewrite length_take; lia).
    rewrite take_take, Nat.min_id. f_equal.
    rewrite drop_app_ge by (rewrite length_take; lia). rewrite drop_drop, length_take. f_equal. lia.
  - rewrite IH by done. by rewrite !(drop_ge ls) by lia.
Qed.

Lemma insert_lines_eq s new ls :
  s ≤ length ls → insert_lines s new ls = Some (take s ls ++ new ++ drop s ls).
Proof.
  revert s ls; induction new as [|l new IH]; intros s ls Hs; simpl; [by rewrite take_drop|].
  unfold vec_insert. destruct (Nat.leb_spec s (length ls)); [|lia]. simpl.
  rewrite IH by (rewrite length_app, length_take; simpl; rewrite length_drop; lia).
  f_equal. assert (length (take s ls) = s) as Hl by (rewrite length_take; lia).
  rewrite take_app_ge, drop_app_ge by lia. rewrite Hl. replace (S s - s) with 1 by lia. simpl.
  by rewrite take_0, drop_0, <-app_assoc.
Qed.

Lemma apply_one_eq s o new ls :
  s ≤ length ls → apply_one (Some ls) (s, o, new) = Some (take s ls ++ new ++ drop (s + o) ls).
Proof.
  intros Hs. simpl. rewrite remove_lines_eq by done.
  assert (length (take s ls) = s) as Hl by (rewrite length_take; lia).
  rewrite insert_lines_eq by (rewrite length_app; lia).
  rewrite take_app_le, take_take, Nat.min_id, drop_app_ge by lia. by rewrite Hl, Nat.sub_diag, drop_0.
Qed.

Lemma apply_replacements_cons ls r reps :
  apply_replacements ls (r :: reps) = apply_one (apply_replacements ls reps) r.
Proof. unfold apply_replacements. by rewrite reverse_cons, foldl_app. Qed.


Definition rstart (r : Replacement) : nat := r.1.1.
Definition rend (r : Replacement) : nat := r.1.1 + r.1.2.



(** However the regions lie, nothing is inserted out of range. *)
Lemma apply_in_range ls reps :
  Forall (λ r, rstart r ≤ length ls) reps → StronglySorted (λ a b, rstart a ≤ rstart b) reps →
  ∃ ls', apply_replacements ls reps = Some ls' ∧ ∀ k, (∀ r, head reps = Some r → k ≤ rstart r) →
    k ≤ length ls → k ≤ length ls'.
Proof.
  induction reps as [|[[s o] new] reps IH]; intros Hb Hs; [by exists ls|].
  apply Forall_cons in Hb as [Hb1 Hb]. apply StronglySorted_inv in Hs as [Hs Hr].
  unfold rstart in Hb1. simpl in Hb1. destruct (IH Hb Hs) as (ls1 & H1 & Hlen).
  assert (s ≤ length ls1) as Hs1.
  { apply Hlen; [|done]. intros r Hh. destruct reps; [done|]. simpl in Hh. simplify_eq.
    by apply Forall_cons in Hr as [? _]. }
  rewrite apply_replacements_cons, H1, apply_one_eq by done. eexists. split; [done|].
  intros k Hk _. specialize (Hk _ eq_refl). unfold rstart in Hk. simpl in Hk.
  rewrite length_app, length_take. lia.
Qed.

(** ** What is replaced *)

(** [r] is the replacement for chunk [c]: an addition goes to the end (before a last
    empty line); otherwise the region holds, up to the comparison level that found it,
    the chunk's old lines (or these without a final empty line) and is replaced by its
    new lines (then also without a final empty line). *)
Definition replaces (lines : list string) (c : UpdateFileChunk) (r : Replacement) : Prop :=
  if is_empty_list (old_lines c) then
    r = (if last_is_empty lines then length lines - 1 else length lines, 0, new_lines c)
  else
    ∃ pattern new start, r = (start, length pattern, new) ∧
      ((pattern = old_lines c ∧ new = new_lines c) ∨
       (last_is_empty (old_lines c) = true ∧ pattern = drop_last (old_lines c) ∧
        new = if last_is_empty (new_lines c) then drop_last (new_lines c) else new_lines c)) ∧
      (pattern = [] ∨ ∃ level, matches_at level lines pattern start).

Lemma seek_bounds lines pattern start eof i :
  start ≤ length lines → seek_sequence lines pattern start eof = Some i →
  (pattern = [] ∨ ∃ level, matches_at level lines pattern i) ∧
  i + length pattern ≤ length lines ∧ (eof = false → start ≤ i).
Proof.
  intros Hs Hi. destruct (decide (pattern = [])) as [->|Hne].
  - simpl in Hi. simplify_eq. split_and!; [by left|simpl; lia|done].
  - destruct (seek_found _ _ _ _ _ Hne Hi) as [[level Hm] He]. split_and!; [by eauto| |done].
    by destruct Hm as [? _].
Qed.

Lemma locate_sound lines idx c pattern new i :
  idx ≤ length lines → locate lines idx c = Some (pattern, new, i) → old_lines c ≠ [] →
  replaces lines c (i, length pattern, new) ∧ i + length pattern ≤ length lines ∧
  (is_end_of_file c = false → idx ≤ i).
Proof.
  intros Hidx Hl Hne. unfold locate in Hl. unfold replaces.
  replace (is_empty_list (old_lines c)) with false by (by destruct (old_lines c)).
  destruct (seek_sequence lines (old_lines c) idx _) as [j|] eqn:E1.
  - simplify_eq. apply seek_bounds in E1 as (Hm & Hb & He); [|done]. split_and!; [|done|done].
    eexists _, _, _. split_and!; [done|by left|done].
  - destruct (last_is_empty (old_lines c)) eqn:El; [|done].
    destruct (seek_sequence lines (drop_last (old_lines c)) idx _) as [j|] eqn:E2; simpl in Hl; simplify_eq.
    apply seek_bounds in E2 as (Hm & Hb & He); [|done]. split_and!; [|done|done].
    eexists _, _, _. split_and!; [done|by right|done].
Qed.

Lemma seek_context_bounds lines path idx c idx' :
  idx ≤ length lines → seek_context lines path idx c = Ok idx' → idx ≤ idx' ≤ length lines.
Proof.
  unfold seek_context. intros Hi. destruct (change_context c) as [ctx|]; [|intros; simplify_eq; lia].
  destruct (seek_sequence _ _ _ _) as [j|] eqn:E; [|done]. intros; simplify_eq.
  apply seek_bounds in E as (_ & Hb & He); [|done]. simpl in Hb. specialize (He eq_refl). lia.
Qed.

(** The chunks that keep the regions apart: no end-of-file mark, and additions only to a
    file that does not end in an empty line. *)
Definition plain_chunk (lines : list string) (c : UpdateFileChunk) : bool :=
  if is_empty_list (old_lines c) then negb (last_is_empty lines) else negb (is_end_of_file c).

(** Two replacements in the order of their chunks do not overlap: the second is after
    the first or entirely before it. *)
Definition apart (a b : Replacement) : Prop :=
  rend a ≤ rstart b ∨ (rstart b < rstart a ∧ rend b ≤ rstart a).

Record loop_inv (lines : list string) (chunks : list UpdateFileChunk) (acc : list Replacement * nat) : Prop := {
  li_idx : acc.2 ≤ length lines;
  li_repl : Forall2 (replaces lines) chunks acc.1;
  li_bound : Forall (λ r, rend r ≤ length lines) acc.1;
  li_apart : forallb (plain_chunk lines) chunks = true →
    StronglySorted apart acc.1 ∧ Forall (λ r, rend r ≤ acc.2 ∨ r.1 = (length lines, 0)) acc.1;
}.

Lemma StronglySorted_snoc {A} (R : A → A → Prop) l x :
  StronglySorted R l → Forall (λ y, R y x) l → StronglySorted R (l ++ [x]).
Proof.
  induction 1 as [|y l Hl IH Hy]; intros Hx; [by repeat constructor|].
  apply Forall_cons in Hx as [Hyx Hx]. simpl. constructor; [by apply IH|].
  apply Forall_app. split; [done|by constructor].
Qed.

Lemma chunk_step_inv lines path chunks acc c acc' :
  loop_inv lines chunks acc → chunk_step lines path acc c = Ok acc' → loop_inv lines (chunks ++ [c]) acc'.
Proof.
  intros [Hidx Hrep Hbnd Hap] Hs. destruct acc as [reps idx]. simpl in *.
  apply res_bind_ok in Hs as (idx' & Hctx & Hs). apply seek_context_bounds in Hctx; [|done].
  assert (∃ r, acc' = (reps ++ [r], acc'.2) ∧ replaces lines c r ∧ rend r ≤ length lines ∧
    acc'.2 ≤ length lines ∧ (plain_chunk lines c = true → idx ≤ acc'.2 ∧
      (r.1 = (length lines, 0) ∨ (idx ≤ rstart r ∧ rend r ≤ acc'.2)))) as (r & Hacc & Hr & He & Hi & Hp).
  { destruct (old_lines c) as [|l ls] eqn:Eo.
    - simplify_eq. eexists. split; [done|]. unfold replaces, plain_chunk, rend. rewrite Eo. simpl.
      split_and!; [done|destruct (last_is_empty lines); lia|lia|]. intros Hp. split; [lia|]. left.
      by destruct (last_is_empty lines).
    - destruct (locate lines idx' c) as [[[pattern new] i]|] eqn:El; [|done].
      simplify_eq. apply locate_sound in El as (Hr & Hb & Hi); [|lia|congruence]. eexists. split; [done|].
      unfold plain_chunk. rewrite Eo. unfold rstart, rend. simpl.
      split_and!; [done|done|done|]. intros Hp%negb_true_iff. specialize (Hi Hp). split; [|right]; lia. }
  rewrite Hacc. constructor; simpl;
    [done|apply Forall2_app; [done|by apply Forall2_cons]|apply Forall_app; split; [done|by constructor]|].
  rewrite forallb_app. simpl. rewrite andb_true_r. intros [Hc1 Hc2]%andb_true_iff.
  destruct (Hap Hc1) as [Hsort Hend]. destruct (Hp Hc2) as [Hidx2 Hcase]. split.
  - apply StronglySorted_snoc; [done|]. apply Forall_forall. intros a Ha. unfold apart.
    rewrite Forall_forall in Hend, Hbnd. specialize (Hend a Ha). specialize (Hbnd a Ha).
    unfold rend, rstart in *. destruct a as [[sa oa] na], r as [[sr or] nr]; simpl in *.
    destruct Hcase as [Hc|Hc]; simplify_eq; [lia|]. destruct Hend as [He1|He1]; simplify_eq; lia.
  - apply Forall_app. split.
    + eapply Forall_impl; [done|]. intros a [Ha|Ha]; [left; lia|by right].
    + constructor; [|done]. destruct Hcase as [Hc|Hc]; [by right|left; lia].
Qed.

Lemma loop_ok lines path chunks acc :
  fold_res (chunk_step lines path) ([], 0) chunks = Ok acc → loop_inv lines chunks acc.
Proof.
  apply (fold_res_inv_prefix (chunk_step lines path) (loop_inv lines)).
  - intros pre s c s' Hi Hs. by eapply chunk_step_inv.
  - constructor; simpl; [lia|done|done|]. intros _. split; [constructor|done].
Qed.

Lemma rstart_le_rend r : rstart r ≤ rend r.
Proof. unfold rstart, rend. lia. Qed.



Lemma sort_starts l : StronglySorted (λ a b, rstart a ≤ rstart b) (sort_by by_index l).
Proof.
  assert (StronglySorted (λ a b, by_index a b = true) (sort_by by_index l)) as Hs.
  { apply sort_by_sorted; unfold by_index; intros; rewrite !Nat.leb_le in *; lia. }
  induction Hs as [|x k Hk IH Hx]; constructor; [done|]. eapply Forall_impl; [exact Hx|].
  intros y. unfold by_index. by intros ?%Nat.leb_le.
Qed.

Lemma compute_ok lines path chunks reps :
  compute_replacements lines path chunks = Ok reps →
  ∃ order idx, loop_inv lines chunks (order, idx) ∧ reps = sort_by by_index order.
Proof.
  intros ([order idx] & Hf & Hr)%res_bind_ok. simplify_eq. exists order, idx. split; [|done].
  by eapply loop_ok.
Qed.

(** Computing and applying the replacements never panics: for every file and every
    list of chunks, in whatever order or overlap their matches lie, a computation that
    finds all chunks yields new contents (no line is inserted beyond the end). *)
Theorem derive_never_panics path chunks contents :
  match derive_new_contents path chunks contents with
  | Ok o => is_Some o
  | Err _ => True
  end.
Proof.
  unfold derive_new_contents. set (ls := file_lines contents).
  destruct (compute_replacements ls path chunks) as [reps|e] eqn:E; cbn [res_bind]; [|done].
  destruct (compute_ok _ _ _ _ E) as (order & idx & [_ _ Hb _] & ->).
  destruct (apply_in_range ls (sort_by by_index order)) as (ls' & -> & _); [|apply sort_starts|by eexists].
  rewrite sort_by_perm. eapply Forall_impl; [exact Hb|]. intros r. pose proof (rstart_le_rend r). simpl. lia.
Qed.

Lemma last_is_empty_snoc ls l : last_is_empty (ls ++ [l]) = str_is_empty l.
Proof. unfold last_is_empty. by rewrite last_snoc. Qed.

Lemma drop_last_snoc ls l : drop_last (ls ++ [l]) = ls.
Proof. unfold drop_last. rewrite length_app. simpl. by rewrite take_app_le, Nat.add_sub, take_ge by lia. Qed.



(** ** Final newlines *)

(** Reading a file's lines and writing them back: a missing final newline is added, and
    the newline of an empty last line is lost. *)
Lemma file_text_lines ls l :
  Forall (λ x, contains_char newline x = false) (ls ++ [l]) →
  file_text (file_lines (join NL (ls ++ [l]))) =
    if str_is_empty l then join NL (if last_is_empty ls then ls else ls ++ [EmptyString])
    else join NL (ls ++ [l; EmptyString]).
Proof.
  intros Hn. unfold file_lines. rewrite split_char_join by (try done; by destruct ls).
  rewrite last_is_empty_snoc. destruct (str_is_empty l) eqn:E; unfold file_text.
  - by rewrite drop_last_snoc.
  - rewrite last_is_empty_snoc, E. by rewrite <-app_assoc.
Qed.

Definition chunk_of (old new : list string) : UpdateFileChunk :=
  {| change_context := None; old_lines := old; new_lines := new; is_end_of_file := false |}.

(** Any update of a file whose last line is empty loses that line. *)
Example blank_last_line_lost :
  derive_new_contents "f" [chunk_of ["a"] ["b"]] ("a" +:+ (NL +:+ NL)) = Ok (Some ("b" +:+ NL)).
Proof. vm_compute. reflexivity. Qed.

(** An addition to such a file is lost when another chunk covers the last line: the added
    line is put inside that chunk's region and removed with it. *)
Example addition_lost :
  derive_new_contents "f" [chunk_of [] ["new"]; chunk_of ["a"; EmptyString] ["b"; EmptyString]]
    ("a" +:+ (NL +:+ NL)) = Ok (Some ("b" +:+ (NL +:+ NL))).
Proof. vm_compute. reflexivity. Qed.

Definition eof_chunk (old new : list string) : UpdateFileChunk :=
  {| change_context := None; old_lines := old; new_lines := new; is_end_of_file := true |}.

(** An end-of-file chunk ignores the chunks before it, so its replacement may lie inside
    an earlier region and vanish. *)
Example eof_chunk_overlaps :
  derive_new_contents "f" [chunk_of ["a"; "b"] ["x"; "y"]; eof_chunk ["b"] ["z"]]
    ("a" +:+ (NL +:+ ("b" +:+ NL))) = Ok (Some ("x" +:+ (NL +:+ ("y" +:+ NL)))).
Proof. vm_compute. reflexivity. Qed.

