(* ===== verification/PatchApply.v ===== *)
(** * Applying a patch to a file system

    The rest of src/codex-rs/apply-patch/src/lib.rs: [apply_patch], [apply_hunks],
    [apply_hunks_to_files] with the record of committed changes it keeps, and the
    helpers around them.  The file system ([dyn ExecutorFileSystem]) and the path type
    ([PathUri], a wrapper of a URL) are interfaces of the program and parameters here;
    the sandbox context is handed through unchanged and is part of the file system. *)

From stdpp Require Import base gmap list strings.
From S2P Require Import Prelude Str PatchParser Replace.

(** ** Interfaces *)

(** [io::Error]: whether its kind is [NotFound], and its text. *)
Record IoErr := { not_found : bool; io_text : string }.

Class PathUris := {
  PathUri : Type;
  uri_eq_dec :: EqDecision PathUri;
  uri_countable :: Countable PathUri;
  uri_join : PathUri → string → Result PathUri string;   (** [PathUri::join] *)
  uri_parent : PathUri → option PathUri;                 (** [PathUri::parent] *)
  native_path : PathUri → string;                        (** [inferred_native_path_string] *)
  to_path_buf : PathUri → string;                        (** [PathUri::to_path_buf] *)
}.

Record FileMetadata := { is_directory : bool; is_file : bool; is_symlink : bool }.

(** [trait ExecutorFileSystem], the operations used here, over the world's state. *)
Class ExecutorFileSystem `{PathUris} (W : Type) := {
  read_file_text : PathUri → W → Result string IoErr;
  get_metadata : PathUri → W → Result FileMetadata IoErr;
  write_file : PathUri → string → W → Result unit IoErr * W;
  create_directory : PathUri → W → Result unit IoErr * W;   (** [recursive: true] *)
  remove : PathUri → W → Result unit IoErr * W;             (** neither recursive nor forced *)
}.

(** ** Data *)

Inductive ApplyPatchError :=
  | ErrParse (e : ParseError)
  | ErrIo (context : string) (source : IoErr)
  | ErrComputeReplacements (message : string)
  | ErrPathUri (message : string)
  | ErrImplicitInvocation
  | ErrPanic.   (** a panic, not an error of the program; shown not to occur *)

Inductive AppliedPatchFileChange :=
  | ChAdd (content : string) (overwritten_content : option string)
  | ChDelete (content : string)
  | ChUpdate (move_path : option string) (old_content : string)
      (overwritten_move_content : option string) (new_content : string).

Record AppliedPatchChange := { ch_path : string; change : AppliedPatchFileChange }.

Record AppliedPatchDelta := { changes : list AppliedPatchChange; exact : bool }.

Definition delta_empty : AppliedPatchDelta := {| changes := []; exact := true |}.

(** [AppliedPatchDelta::append] *)
Definition delta_append (d other : AppliedPatchDelta) : AppliedPatchDelta :=
  {| changes := changes d ++ changes other; exact := exact d && exact other |}.

Record AffectedPaths := { added : list string; modified : list string; deleted : list string }.

(** [anyhow::Error]: its text and the [io::Error] it was made from, if any. *)
Record Anyhow := { err_text : string; err_io : option IoErr }.

(** [with_context] on an [io::Result] *)
Definition with_context (context : string) (e : IoErr) : Anyhow :=
  {| err_text := context; err_io := Some e |}.

Definition parse_error_text (e : ParseError) : string :=
  match e with
  | InvalidPatchError m => "invalid patch: " +:+ m
  | InvalidHunkError m n => "invalid hunk at line " +:+ (fmt_nat n +:+ (", " +:+ m))
  end.

(** [Display] of [ApplyPatchError] *)
Definition error_text (e : ApplyPatchError) : string :=
  match e with
  | ErrParse e => parse_error_text e
  | ErrIo context source => context +:+ (": " +:+ io_text source)
  | ErrComputeReplacements m => m
  | ErrPathUri m => m
  | ErrImplicitInvocation =>
      "patch detected without explicit call to apply_patch. Rerun as [" +:+ String double_quote
        ("apply_patch" +:+ String double_quote (", " +:+ String double_quote
          ("<patch>" +:+ String double_quote "]")))
  | ErrPanic => "panic"
  end.

Definition of_error (e : ApplyPatchError) : Anyhow := {| err_text := error_text e; err_io := None |}.

(** ** Operations *)

Section apply.
Context `{PathUris} {W : Type} `{!ExecutorFileSystem W}.

Definition resolve_path (h : Hunk) (cwd : PathUri) : Result PathUri string :=
  uri_join cwd match h with
               | UpdateFile path _ _ => path
               | AddFile _ _ | DeleteFile _ => hunk_path h
               end.

(** An existing target that is no plain file makes the record inexact. *)
Definition note_existing_path_delta_support (path : PathUri) (w : W) (ex : bool) : bool :=
  match get_metadata path w with
  | Ok m => if is_file m && negb (is_symlink m) then ex else false
  | Err e => if not_found e then ex else false
  end.

Definition read_optional_file_text_for_delta (path : PathUri) (w : W) (ex : bool) : option string * bool :=
  let ex := note_existing_path_delta_support path w ex in
  match read_file_text path w with
  | Ok content => (Some content, ex)
  | Err e => if not_found e then (None, ex) else (None, false)
  end.

Definition ensure_not_directory (path : PathUri) (w : W) : Result unit IoErr :=
  let? m := get_metadata path w in
  if is_directory m then Err {| not_found := false; io_text := "path is a directory" |} else Ok ().

Definition remove_failure_was_side_effect_free (path : PathUri) (expected : option string) (w : W) : bool :=
  match expected with
  | Some s => match read_file_text path w with Ok c => str_eqb c s | Err _ => false end
  | None => false
  end.

Definition failed_write (path : PathUri) : string := "Failed to write file " +:+ native_path path.

Definition write_file_with_missing_parent_retry (path : PathUri) (contents : string) (w : W) :
  Result unit Anyhow * W :=
  match write_file path contents w with
  | (Ok _, w) => (Ok (), w)
  | (Err e, w) =>
      if not_found e then
        let '(r, w) :=
          match uri_parent path with
          | Some parent =>
              let '(r, w) := create_directory parent w in
              (map_err (with_context ("Failed to create parent directories for " +:+ native_path path)) r, w)
          | None => (Ok (), w)
          end in
        match r with
        | Err e => (Err e, w)
        | Ok _ =>
            let '(r, w) := write_file path contents w in
            (map_err (with_context (failed_write path)) r, w)
        end
      else (Err (with_context (failed_write path) e), w)
  end.

(** The file's contents before and after. *)
Definition derive_new_contents_from_chunks (path : PathUri) (chunks : list UpdateFileChunk) (w : W) :
  Result (string * string) ApplyPatchError :=
  let? original := map_err (ErrIo ("Failed to read file to update " +:+ native_path path))
                     (read_file_text path w) in
  let? o := map_err ErrComputeReplacements (derive_new_contents (native_path path) chunks original) in
  match o with
  | Some new => Ok (original, new)
  | None => Err ErrPanic
  end.

(** The state of [apply_hunks_to_files]: the world, the record, the paths so far. *)
Record Run := { world : W; delta : AppliedPatchDelta; affected : AffectedPaths }.

Definition set_exact (ex : bool) (d : AppliedPatchDelta) : AppliedPatchDelta :=
  {| changes := changes d; exact := ex |}.

Definition record_change (path : PathUri) (c : AppliedPatchFileChange) (d : AppliedPatchDelta) :
  AppliedPatchDelta :=
  {| changes := changes d ++ [{| ch_path := to_path_buf path; change := c |}]; exact := exact d |}.

Definition set_run (w : W) (d : AppliedPatchDelta) (s : Run) : Run :=
  {| world := w; delta := d; affected := affected s |}.

Definition add_added (p : string) (a : AffectedPaths) : AffectedPaths :=
  {| added := added a ++ [p]; modified := modified a; deleted := deleted a |}.
Definition add_modified (p : string) (a : AffectedPaths) : AffectedPaths :=
  {| added := added a; modified := modified a ++ [p]; deleted := deleted a |}.
Definition add_deleted (p : string) (a : AffectedPaths) : AffectedPaths :=
  {| added := added a; modified := modified a; deleted := deleted a ++ [p] |}.

(** What a hunk leaves behind: the error it stops with, if any, and the state. *)
Definition Step : Type := option Anyhow * Run.

Definition apply_add (path : PathUri) (contents : string) (s : Run) : Step :=
  let '(overwritten, ex) := read_optional_file_text_for_delta path (world s) (exact (delta s)) in
  match write_file_with_missing_parent_retry path contents (world s) with
  | (Err e, w) => (Some e, set_run w (set_exact false (delta s)) s)
  | (Ok _, w) =>
      (None, set_run w (record_change path (ChAdd contents overwritten) (set_exact ex (delta s))) s)
  end.

Definition apply_delete (path : PathUri) (s : Run) : Step :=
  let ex := note_existing_path_delta_support path (world s) (exact (delta s)) in
  let deleted_content := match read_file_text path (world s) with Ok c => Some c | Err _ => None end in
  let ex := if deleted_content then ex else false in
  let d := set_exact ex (delta s) in
  let context := "Failed to delete file " +:+ native_path path in
  match ensure_not_directory path (world s) with
  | Err e => (Some (with_context context e), set_run (world s) d s)
  | Ok _ =>
      match remove path (world s) with
      | (Err e, w) =>
          (Some (with_context context e),
           set_run w (set_exact (ex && remove_failure_was_side_effect_free path deleted_content w) d) s)
      | (Ok _, w) =>
          (None, set_run w match deleted_content with
                           | Some c => record_change path (ChDelete c) d
                           | None => d
                           end s)
      end
  end.

(** The move of an updated file: the destination is written, then the source removed. *)
Definition apply_move (cwd path : PathUri) (dest original new : string) (ex : bool) (s : Run) : Step :=
  match uri_join cwd dest with
  | Err e => (Some {| err_text := e; err_io := None |}, set_run (world s) (set_exact ex (delta s)) s)
  | Ok dest_uri =>
      let '(overwritten, ex) := read_optional_file_text_for_delta dest_uri (world s) ex in
      match write_file_with_missing_parent_retry dest_uri new (world s) with
      | (Err e, w) => (Some e, set_run w (set_exact false (delta s)) s)
      | (Ok _, w) =>
          let written := record_change dest_uri (ChAdd new overwritten) (set_exact ex (delta s)) in
          let context := "Failed to remove original " +:+ native_path path in
          match ensure_not_directory path w with
          | Err e => (Some (with_context context e), set_run w written s)
          | Ok _ =>
              match remove path w with
              | (Err e, w) =>
                  (Some (with_context context e),
                   set_run w (set_exact (ex && remove_failure_was_side_effect_free path (Some original) w)
                                written) s)
              | (Ok _, w) =>
                  (None, set_run w (record_change path
                           (ChUpdate (Some (to_path_buf dest_uri)) original overwritten new)
                           (set_exact ex (delta s))) s)
              end
          end
      end
  end.

Definition apply_update (cwd path : PathUri) (move_path : option string) (chunks : list UpdateFileChunk)
    (s : Run) : Step :=
  let ex := note_existing_path_delta_support path (world s) (exact (delta s)) in
  match derive_new_contents_from_chunks path chunks (world s) with
  | Err e => (Some (of_error e), set_run (world s) (set_exact ex (delta s)) s)
  | Ok (original, new) =>
      match move_path with
      | Some dest => apply_move cwd path dest original new ex s
      | None =>
          match write_file path new (world s) with
          | (Err e, w) =>
              (Some (with_context (failed_write path) e), set_run w (set_exact false (delta s)) s)
          | (Ok _, w) =>
              (None, set_run w (record_change path (ChUpdate None original None new)
                                  (set_exact ex (delta s))) s)
          end
      end
  end.

Definition add_affected (h : Hunk) (s : Run) : Run :=
  {| world := world s; delta := delta s;
     affected := match h with
                 | AddFile _ _ => add_added (hunk_path h)
                 | DeleteFile _ => add_deleted (hunk_path h)
                 | UpdateFile _ _ _ => add_modified (hunk_path h)
                 end (affected s) |}.

Definition apply_hunk (cwd : PathUri) (h : Hunk) (s : Run) : Step :=
  match resolve_path h cwd with
  | Err e => (Some {| err_text := e; err_io := None |}, s)
  | Ok path =>
      let '(r, s') := match h with
                      | AddFile _ contents => apply_add path contents s
                      | DeleteFile _ => apply_delete path s
                      | UpdateFile _ move_path chunks => apply_update cwd path move_path chunks s
                      end in
      match r with
      | Some e => (Some e, s')
      | None => (None, add_affected h s')
      end
  end.

Fixpoint apply_hunk_list (cwd : PathUri) (hs : list Hunk) (s : Run) : Step :=
  match hs with
  | [] => (None, s)
  | h :: hs' =>
      match apply_hunk cwd h s with
      | (Some e, s') => (Some e, s')
      | (None, s') => apply_hunk_list cwd hs' s'
      end
  end.

Definition no_paths : AffectedPaths := {| added := []; modified := []; deleted := [] |}.

Definition apply_hunks_to_files (cwd : PathUri) (hs : list Hunk) (w : W) (d : AppliedPatchDelta) : Step :=
  let s := {| world := w; delta := d; affected := no_paths |} in
  match hs with
  | [] => (Some {| err_text := "No files were modified."; err_io := None |}, s)
  | _ => apply_hunk_list cwd hs s
  end.

(** A writer: whether a line can be written. *)
Definition Writer : Type := string → Result unit IoErr.

Definition print_summary (a : AffectedPaths) (out : Writer) : Result unit IoErr :=
  fold_res (λ _ line, out line) ()
    ("Success. Updated the following files:" ::
     (String.app "A " <$> added a) ++ (String.app "M " <$> modified a) ++ (String.app "D " <$> deleted a)).

(** The failure of [apply_patch]: the error and the changes committed before it. *)
Definition ApplyPatchFailure : Type := ApplyPatchError * AppliedPatchDelta.

Definition from_io (e : IoErr) : ApplyPatchError := ErrIo "I/O error" e.

Definition apply_hunks (cwd : PathUri) (hs : list Hunk) (stdout stderr : Writer) (w : W) :
  Result AppliedPatchDelta ApplyPatchFailure * W :=
  match apply_hunks_to_files cwd hs w delta_empty with
  | (None, s) =>
      (let? _ := map_err (λ e, (from_io e, delta s)) (print_summary (affected s) stdout) in
       Ok (delta s), world s)
  | (Some e, s) =>
      (let? _ := map_err (λ e, (from_io e, delta s)) (stderr (err_text e)) in
       Err (match err_io e with
            | Some io => from_io io
            | None => ErrIo (err_text e) {| not_found := false; io_text := err_text e |}
            end, delta s), world s)
  end.

Definition apply_patch (text : string) (cwd : PathUri) (stdout stderr : Writer) (w : W) :
  Result AppliedPatchDelta ApplyPatchFailure * W :=
  match parse_patch text with
  | Ok args => apply_hunks cwd (hunks args) stdout stderr w
  | Err e =>
      let message := match e with
                     | InvalidPatchError m => "Invalid patch: " +:+ m
                     | InvalidHunkError m n => "Invalid patch hunk on line " +:+ (fmt_nat n +:+ (": " +:+ m))
                     end in
      (let? _ := map_err (λ e, (from_io e, delta_empty)) (stderr message) in
       Err (ErrParse e, delta_empty), w)
  end.
End apply.
