(* ===== verification/PatchDelta.v ===== *)
(** * The record of committed changes is right

    What [apply_hunks_to_files] promises its callers: while the record is exact, the
    files on disk are the old ones with the recorded changes replayed, and undoing them
    gives the old files back, also when the patch failed half way; and a patch that was
    applied with an exact record had, hunk by hunk, the effect its text describes. *)

From stdpp Require Import base gmap list strings.
From S2P Require Import Prelude Str PatchParser Replace PatchApply.

(** ** The file system's contract *)

(** A target whose contents a record can describe: nothing there, or a plain file. *)
Definition plain_target `{ExecutorFileSystem W} (u : PathUri) (w : W) : Prop :=
  match get_metadata u w with
  | Ok m => is_file m = true ∧ is_symlink m = false
  | Err e => not_found e = true
  end.

(** The text files of a world, seen at some paths.  A file may have more than one path: a
    directory or the file itself may be reached through a symbolic link (a plain target may
    be a dangling one), a file may have hard links, a path other spellings.  So the contract
    is about a set of paths ([names]) and the worlds in which no two of them lead to the same
    file ([apart]); [view w] holds the text found at each path of the set.

    A plain target is then written or removed by itself; a write that does not find the
    parent directory and the creation of that directory change no file; a removal, failed
    or not, never puts contents into the file; none of these makes two paths lead to one
    file; a failed write of another kind may do anything. *)
Class FileSystemLaws `{ExecutorFileSystem W} (names : string → Prop) (apart : W → Prop)
    (view : W → gmap string string) := {
  law_read_ok : ∀ u w s, names (to_path_buf u) → read_file_text u w = Ok s →
    view w !! to_path_buf u = Some s;
  law_read_none : ∀ u w e, names (to_path_buf u) → read_file_text u w = Err e → not_found e = true →
    view w !! to_path_buf u = None;
  law_write : ∀ u c w w', names (to_path_buf u) → apart w → plain_target u w →
    write_file u c w = (Ok (), w') →
    apart w' ∧ view w' = <[to_path_buf u := c]> (view w) ∧
    ∀ v, is_Some (view w !! to_path_buf v) → plain_target v w → plain_target v w';
  law_write_missing : ∀ u c w w' e, names (to_path_buf u) → apart w →
    write_file u c w = (Err e, w') → not_found e = true →
    apart w' ∧ view w' = view w ∧ ∀ v, plain_target v w → plain_target v w';
  law_mkdir : ∀ u p w r w', names (to_path_buf u) → apart w →
    uri_parent u = Some p → create_directory p w = (r, w') →
    apart w' ∧ view w' = view w ∧ (plain_target u w → plain_target u w') ∧
    ∀ v, is_Some (view w !! to_path_buf v) → plain_target v w → plain_target v w';
  law_remove : ∀ u w r w', names (to_path_buf u) → apart w → plain_target u w →
    remove u w = (r, w') →
    apart w' ∧
    delete (to_path_buf u) (view w') = delete (to_path_buf u) (view w) ∧
    (r = Ok () → view w' !! to_path_buf u = None) ∧
    (∀ s, view w' !! to_path_buf u = Some s → view w !! to_path_buf u = Some s);
}.

(** The paths of the files a hunk may change. *)
Definition touched `{PathUris} (cwd : PathUri) (h : Hunk) : list string :=
  match resolve_path h cwd with
  | Ok u =>
      to_path_buf u ::
      match h with
      | UpdateFile _ (Some dest) _ => match uri_join cwd dest with Ok d => [to_path_buf d] | Err _ => [] end
      | _ => []
      end
  | Err _ => []
  end.

(** ** Replaying and undoing *)

Definition replay_change (m : gmap string string) (c : AppliedPatchChange) : gmap string string :=
  match change c with
  | ChAdd content _ => <[ch_path c := content]> m
  | ChDelete _ => delete (ch_path c) m
  | ChUpdate None _ _ new => <[ch_path c := new]> m
  | ChUpdate (Some dest) _ _ new => delete (ch_path c) (<[dest := new]> m)
  end.

Definition restore (path : string) (old : option string) (m : gmap string string) : gmap string string :=
  match old with Some s => <[path := s]> m | None => delete path m end.

Definition undo_change (c : AppliedPatchChange) (m : gmap string string) : gmap string string :=
  match change c with
  | ChAdd _ overwritten => restore (ch_path c) overwritten m
  | ChDelete content => <[ch_path c := content]> m
  | ChUpdate None old _ _ => <[ch_path c := old]> m
  | ChUpdate (Some dest) old overwritten _ => <[ch_path c := old]> (restore dest overwritten m)
  end.

(** [cs] leads from [m] to [m'] and back. *)
Definition connects (m : gmap string string) (cs : list AppliedPatchChange) (m' : gmap string string) : Prop :=
  foldl replay_change m cs = m' ∧ foldr undo_change m' cs = m.

Lemma connects_nil m : connects m [] m.
Proof. done. Qed.

Lemma connects_app m1 cs m2 cs' m3 :
  connects m1 cs m2 → connects m2 cs' m3 → connects m1 (cs ++ cs') m3.
Proof. intros [<- Hu1] [Hr2 Hu2]. split; [by rewrite foldl_app|]. by rewrite foldr_app, Hu2. Qed.

Lemma connects_add m p c o : m !! p = o →
  connects m [{| ch_path := p; change := ChAdd c o |}] (<[p := c]> m).
Proof.
  intros Ho. split; [done|]. simpl. unfold undo_change. simpl. destruct o; simpl.
  - rewrite insert_insert_eq. by apply insert_id.
  - rewrite delete_insert_eq. by apply delete_id.
Qed.

Lemma connects_delete m p c : m !! p = Some c →
  connects m [{| ch_path := p; change := ChDelete c |}] (delete p m).
Proof. intros Hc. split; [done|]. simpl. unfold undo_change. simpl. by apply insert_delete_id. Qed.

Lemma connects_update m p old new : m !! p = Some old →
  connects m [{| ch_path := p; change := ChUpdate None old None new |}] (<[p := new]> m).
Proof.
  intros Hc. split; [done|]. simpl. unfold undo_change. simpl. rewrite insert_insert_eq. by apply insert_id.
Qed.

Lemma connects_move m p dest old o new : m !! p = Some old → m !! dest = o →
  connects m [{| ch_path := p; change := ChUpdate (Some dest) old o new |}] (delete p (<[dest := new]> m)).
Proof.
  intros Hp Ho. split; [done|]. simpl. unfold undo_change. simpl. apply map_eq. intros q.
  destruct (decide (q = p)) as [->|Hqp]; [by rewrite lookup_insert_eq|].
  rewrite lookup_insert_ne by done. unfold restore.
  destruct (decide (q = dest)) as [->|Hqd].
  - rewrite Ho. destruct o; [by rewrite lookup_insert_eq|by rewrite lookup_delete_eq].
  - destruct o; rewrite ?lookup_insert_ne, ?lookup_delete_ne, ?lookup_insert_ne by done; done.
Qed.

(** ** One hunk *)

Section laws.
Context `{PathUris} {W : Type} `{!ExecutorFileSystem W} (names : string → Prop) (apart : W → Prop)
  (view : W → gmap string string) `{!FileSystemLaws names apart view}.

Lemma note_exact u w ex :
  note_existing_path_delta_support u w ex = true → ex = true ∧ plain_target u w.
Proof.
  unfold note_existing_path_delta_support, plain_target. destruct (get_metadata u w) as [m|e].
  - destruct (is_file m), (is_symlink m); simpl; by intros.
  - by destruct (not_found e).
Qed.

Lemma read_optional_exact u w ex o :
  names (to_path_buf u) → read_optional_file_text_for_delta u w ex = (o, true) →
  ex = true ∧ plain_target u w ∧ view w !! to_path_buf u = o.
Proof.
  intros Hnm. unfold read_optional_file_text_for_delta.
  destruct (read_file_text u w) as [s|e] eqn:E; intros Hr.
  - injection Hr as <- Hn. apply note_exact in Hn as [-> Hp]. split_and!; [done|done|by apply law_read_ok].
  - destruct (not_found e) eqn:En; [|done]. injection Hr as <- Hn. apply note_exact in Hn as [-> Hp].
    split_and!; [done|done|by eapply law_read_none].
Qed.

Lemma map_err_unit {E F} (f : E → F) (r : Result unit E) : map_err f r = Ok () → r = Ok ().
Proof. destruct r as [[]|]; by intros. Qed.

Lemma write_retry_ok u c w w' :
  names (to_path_buf u) → apart w → plain_target u w →
  write_file_with_missing_parent_retry u c w = (Ok (), w') →
  apart w' ∧ view w' = <[to_path_buf u := c]> (view w) ∧
  ∀ v, is_Some (view w !! to_path_buf v) → plain_target v w → plain_target v w'.
Proof.
  intros Hnm Hap Hp. unfold write_file_with_missing_parent_retry.
  destruct (write_file u c w) as [[[]|e] w1] eqn:E1; [intros; simplify_eq; by eapply law_write|].
  destruct (not_found e) eqn:En; [|done].
  destruct (law_write_missing _ _ _ _ _ Hnm Hap E1 En) as (Hap1 & Hv1 & Hp1).
  assert (∀ w2, apart w2 → view w2 = view w1 → plain_target u w2 →
    (∀ v, is_Some (view w1 !! to_path_buf v) → plain_target v w1 → plain_target v w2) →
    (let '(r, w3) := write_file u c w2 in (map_err (with_context (failed_write u)) r, w3)) = (Ok (), w') →
    apart w' ∧ view w' = <[to_path_buf u := c]> (view w) ∧
    ∀ v, is_Some (view w !! to_path_buf v) → plain_target v w → plain_target v w') as Hsecond.
  { intros w2 Hap2 Hv2 Hu2 Hp2. destruct (write_file u c w2) as [r w3] eqn:E2. intros Hr.
    injection Hr as Hr <-. apply map_err_unit in Hr as ->.
    destruct (law_write _ _ _ _ Hnm Hap2 Hu2 E2) as (? & Hv3 & Hp3). split_and!; [done| |].
    - by rewrite Hv3, Hv2, Hv1.
    - intros v Hv Hpl. apply Hp3; [by rewrite Hv2, Hv1|]. apply Hp2; [by rewrite Hv1|by apply Hp1]. }
  destruct (uri_parent u) as [parent|] eqn:Epar.
  - destruct (create_directory parent w1) as [r w2] eqn:Ed.
    destruct (law_mkdir _ _ _ _ _ Hnm Hap1 Epar Ed) as (Hap2 & Hv2 & Hu2 & Hp2).
    destruct r as [[]|e2]; simpl; [|done]. apply Hsecond; [done|done|by apply Hu2, Hp1|done].
  - apply Hsecond; [done|done|by apply Hp1|done].
Qed.

(** A step keeps the promise: if the record is exact after it, it was before, and from a
    world where the paths lead to different files, they still do and the changes added
    connect the files. *)
Definition keeps (s s' : Run) : Prop :=
  (exact (delta s') = true → exact (delta s) = true) ∧
  (apart (world s) → exact (delta s') = true → apart (world s') ∧
   ∃ cs, changes (delta s') = changes (delta s) ++ cs ∧ connects (view (world s)) cs (view (world s'))).

Lemma keeps_same s s' :
  world s' = world s → changes (delta s') = changes (delta s) →
  (exact (delta s') = true → exact (delta s) = true) → keeps s s'.
Proof.
  intros Hw Hc He. split; [done|]. intros Ha _. rewrite Hw. split; [done|]. exists [].
  rewrite app_nil_r. split; [done|apply connects_nil].
Qed.

Lemma keeps_inexact s s' : exact (delta s') = false → keeps s s'.
Proof. intros He. split; [by rewrite He|]. intros _ Hx. by rewrite He in Hx. Qed.

Lemma keeps_one s s' cs :
  (exact (delta s') = true → exact (delta s) = true) → changes (delta s') = changes (delta s) ++ cs →
  (apart (world s) → exact (delta s') = true →
   apart (world s') ∧ connects (view (world s)) cs (view (world s'))) →
  keeps s s'.
Proof. intros He Hc Hk. split; [done|]. intros Ha Hx. destruct (Hk Ha Hx) as [? ?]. eauto. Qed.

Lemma keeps_trans s1 s2 s3 : keeps s1 s2 → keeps s2 s3 → keeps s1 s3.
Proof.
  intros [He1 H12] [He2 H23]. split; [auto|]. intros Ha He.
  destruct (H12 Ha (He2 He)) as [Ha2 (cs1 & Hc1 & Hk1)].
  destruct (H23 Ha2 He) as [Ha3 (cs2 & Hc2 & Hk2)]. split; [done|]. exists (cs1 ++ cs2).
  split; [by rewrite Hc2, Hc1, app_assoc|by eapply connects_app].
Qed.

(** What a step that succeeds with an exact record has done. *)
Definition did {E} (r : option E) (s s' : Run (W := W)) (P : Prop) : Prop :=
  r = None → apart (world s) → exact (delta s') = true → P.

Lemma apply_add_keeps u c s r s' :
  names (to_path_buf u) → apply_add u c s = (r, s') → keeps s s' ∧
  did r s s' (view (world s') = <[to_path_buf u := c]> (view (world s))).
Proof.
  intros Hnm. unfold apply_add. destruct (read_optional_file_text_for_delta u _ _) as [o ex] eqn:Er.
  destruct (write_file_with_missing_parent_retry u c (world s)) as [[[]|e] w] eqn:Ew.
  - intros; simplify_eq. assert (ex = true → exact (delta s) = true ∧ (apart (world s) → apart w ∧
      view w = <[to_path_buf u := c]> (view (world s))) ∧ view (world s) !! to_path_buf u = o) as Hx.
    { intros ->. apply read_optional_exact in Er as (-> & Hp & Ho); [|done]. split_and!; [done| |done].
      intros Ha. by destruct (write_retry_ok _ _ _ _ Hnm Ha Hp Ew) as (? & ? & _). }
    split; [|intros _ Ha He; by apply Hx]. eapply keeps_one; [by intros He; apply Hx|done|].
    intros Ha He. destruct (Hx He) as (_ & Hv & Ho). destruct (Hv Ha) as [? Hv']. split; [done|].
    cbn [set_run world]. rewrite Hv'. by apply connects_add.
  - intros; simplify_eq. by split; [apply keeps_inexact|].
Qed.

Lemma side_effect_free u o w r w' :
  names (to_path_buf u) → apart w → plain_target u w → remove u w = (r, w') →
  remove_failure_was_side_effect_free u o w' = true → apart w' ∧ view w' = view w.
Proof.
  intros Hnm Ha Hp Hm Hf. destruct o as [s|]; [|done]. simpl in Hf.
  destruct (read_file_text u w') as [c|e] eqn:Er'; [|done].
  destruct (law_remove _ _ _ _ Hnm Ha Hp Hm) as (Ha' & Hd & _ & Hs). split; [done|].
  apply law_read_ok in Er'; [|done].
  pose proof (Hs _ Er') as Hw. rewrite <-(insert_delete_id (view w') (to_path_buf u) c) by done.
  rewrite Hd. by apply insert_delete_id.
Qed.

Lemma remove_ok_view u w w' :
  names (to_path_buf u) → apart w → plain_target u w → remove u w = (Ok (), w') →
  apart w' ∧ view w' = delete (to_path_buf u) (view w).
Proof.
  intros Hnm Ha Hp Hm. destruct (law_remove _ _ _ _ Hnm Ha Hp Hm) as (? & <- & Hn & _).
  by rewrite delete_id by (by apply Hn).
Qed.

Lemma apply_delete_keeps u s r s' :
  names (to_path_buf u) → apply_delete u s = (r, s') → keeps s s' ∧
  did r s s' (is_Some (view (world s) !! to_path_buf u) ∧
     view (world s') = delete (to_path_buf u) (view (world s))).
Proof.
  intros Hnm. unfold apply_delete. set (ex := note_existing_path_delta_support _ _ _).
  assert (ex = true → exact (delta s) = true ∧ plain_target u (world s)) as Hn by apply note_exact.
  clearbody ex. destruct (read_file_text u (world s)) as [c|e0] eqn:Er; cbv zeta.
  - apply law_read_ok in Er; [|done]. destruct (ensure_not_directory u (world s)) as [?|e].
    + destruct (remove u (world s)) as [[[]|e] w] eqn:Em; intros; simplify_eq; simpl.
      * assert (apart (world s) → ex = true → apart w ∧ view w = delete (to_path_buf u) (view (world s))) as Hv.
        { intros Ha He. destruct (Hn He) as [_ Hp]. by apply remove_ok_view. }
        split; [|intros _ Ha He; split; [by eexists|by apply Hv]].
        eapply keeps_one; [by intros He; apply Hn|done|]. intros Ha He. destruct (Hv Ha He) as [? Hv'].
        split; [done|]. simpl. rewrite Hv'. by apply connects_delete.
      * split; [|done]. apply keeps_one with []; cbn [set_run delta set_exact exact changes world].
        -- intros [He _]%andb_true_iff. by apply Hn.
        -- by rewrite app_nil_r.
        -- intros Ha [He Hf]%andb_true_iff. destruct (Hn He) as [_ Hp].
           destruct (side_effect_free u (Some c) (world s) (Err e) w Hnm Ha Hp Em Hf) as [? ->].
           split; [done|apply connects_nil].
    + intros; simplify_eq. split; [|done]. apply keeps_same; [done|done|]. simpl. intros He. by apply Hn.
  - destruct (ensure_not_directory u (world s)) as [?|e].
    + destruct (remove u (world s)) as [[[]|e] w] eqn:Em; intros; simplify_eq; by split; [apply keeps_inexact|].
    + intros; simplify_eq. by split; [apply keeps_inexact|].
Qed.

Lemma derive_read u chunks w old new :
  derive_new_contents_from_chunks u chunks w = Ok (old, new) →
  read_file_text u w = Ok old ∧ derive_new_contents (native_path u) chunks old = Ok (Some new).
Proof.
  intros (o & Ho & Hr)%res_bind_ok. apply res_bind_ok in Hr as (n & Hn & Hr).
  destruct n as [n|]; [|done]. injection Hr as -> ->.
  destruct (read_file_text u w); simpl in Ho; simplify_eq. split; [done|].
  destruct (derive_new_contents _ _ _); simpl in Hn; by simplify_eq.
Qed.

Lemma apply_move_keeps cwd u dest old new ex s r s' :
  names (to_path_buf u) → (∀ du, uri_join cwd dest = Ok du → names (to_path_buf du)) →
  (ex = true → exact (delta s) = true ∧ plain_target u (world s)) →
  read_file_text u (world s) = Ok old →
  apply_move cwd u dest old new ex s = (r, s') → keeps s s' ∧
  did r s s' (∃ du, uri_join cwd dest = Ok du ∧
     view (world s') = delete (to_path_buf u) (<[to_path_buf du := new]> (view (world s)))).
Proof.
  intros Hnm Hnd Hn Hr. unfold apply_move. destruct (uri_join cwd dest) as [du|e].
  2:{ intros; simplify_eq. split; [|done]. apply keeps_same; [done|done|]. simpl. intros He. by apply Hn. }
  specialize (Hnd du eq_refl).
  destruct (read_optional_file_text_for_delta du _ _) as [o ex'] eqn:Eo.
  assert (ex' = true → exact (delta s) = true ∧ plain_target u (world s) ∧ plain_target du (world s) ∧
    view (world s) !! to_path_buf du = o) as Hx.
  { intros ->. apply read_optional_exact in Eo as (Hex & Hp & Ho); [|done]. destruct (Hn Hex) as [? ?]. done. }
  pose proof (law_read_ok _ _ _ Hnm Hr) as Hold.
  destruct (write_file_with_missing_parent_retry du new (world s)) as [[[]|e] w] eqn:Ew.
  2:{ intros; simplify_eq. by split; [apply keeps_inexact|]. }
  assert (apart (world s) → ex' = true →
    apart w ∧ view w = <[to_path_buf du := new]> (view (world s)) ∧ plain_target u w) as Hw.
  { intros Ha He. destruct (Hx He) as (_ & Hpu & Hpd & _).
    destruct (write_retry_ok _ _ _ _ Hnd Ha Hpd Ew) as (? & Hv & Hpl).
    split_and!; [done|done|]. apply Hpl; [by eexists|done]. }
  assert (∀ w' ex2 d, exact d = ex2 → changes d = changes (delta s) ++
      [{| ch_path := to_path_buf du; change := ChAdd new o |}] →
    (ex2 = true → ex' = true) → (apart (world s) → ex2 = true → apart w' ∧ view w' = view w) →
    keeps s (set_run w' d s)) as Hadd.
  { intros w' ex2 d Hd Hc Hx2 Hv2. eapply keeps_one; simpl.
    - rewrite Hd. intros He. by apply Hx, Hx2.
    - exact Hc.
    - rewrite Hd. intros Ha He. destruct (Hv2 Ha He) as [? ->]. split; [done|].
      destruct (Hx (Hx2 He)) as (_ & _ & _ & Ho). destruct (Hw Ha (Hx2 He)) as (_ & -> & _).
      by apply connects_add. }
  destruct (ensure_not_directory u w) as [?|e].
  2:{ intros; simplify_eq. split; [|done]. eapply Hadd; [done|done|done|].
      intros Ha He. by destruct (Hw Ha He). }
  destruct (remove u w) as [[[]|e] w'] eqn:Em; intros; simplify_eq.
  - assert (apart (world s) → ex' = true → apart w' ∧
      view w' = delete (to_path_buf u) (<[to_path_buf du := new]> (view (world s)))) as Hv'.
    { intros Ha He. destruct (Hw Ha He) as (? & <- & Hp). by apply remove_ok_view. }
    split; [|intros _ Ha He; simpl in He; exists du; split; [done|by apply Hv']].
    eapply keeps_one; simpl; [by intros He; apply Hx|done|]. intros Ha He.
    destruct (Hv' Ha He) as [? ->]. split; [done|]. destruct (Hx He) as (_ & _ & _ & Ho).
    by apply connects_move.
  - split; [|done]. eapply Hadd; [done|done|by intros [? _]%andb_true_iff|].
    intros Ha [He Hf]%andb_true_iff. destruct (Hw Ha He) as (Haw & _ & Hp). exact (side_effect_free _ _ _ _ _ Hnm Haw Hp Em Hf).
Qed.

Lemma apply_update_keeps cwd u mv chunks s r s' :
  names (to_path_buf u) → (∀ dest du, mv = Some dest → uri_join cwd dest = Ok du → names (to_path_buf du)) →
  apply_update cwd u mv chunks s = (r, s') → keeps s s' ∧
  did r s s' (∃ old new, view (world s) !! to_path_buf u = Some old ∧
     derive_new_contents (native_path u) chunks old = Ok (Some new) ∧
     match mv with
     | None => view (world s') = <[to_path_buf u := new]> (view (world s))
     | Some dest => ∃ du, uri_join cwd dest = Ok du ∧
         view (world s') = delete (to_path_buf u) (<[to_path_buf du := new]> (view (world s)))
     end).
Proof.
  intros Hnm Hnd. unfold apply_update. set (ex := note_existing_path_delta_support _ _ _).
  assert (ex = true → exact (delta s) = true ∧ plain_target u (world s)) as Hn by apply note_exact.
  clearbody ex. destruct (derive_new_contents_from_chunks u chunks (world s)) as [[old new]|e] eqn:Ed.
  2:{ intros; simplify_eq. split; [|done]. apply keeps_same; [done|done|]. simpl. intros He. by apply Hn. }
  destruct (derive_read _ _ _ _ _ Ed) as [Hr Hder]. pose proof (law_read_ok _ _ _ Hnm Hr) as Hold.
  destruct mv as [dest|].
  - intros Hm. apply apply_move_keeps in Hm as [Hk Hs]; [|done|by eauto|done|done]. split; [done|].
    intros Hnone Ha He. exists old, new. by split_and!; [..|apply Hs].
  - destruct (write_file u new (world s)) as [[[]|e] w] eqn:Ew; intros; simplify_eq.
    + assert (apart (world s) → ex = true → apart w ∧ view w = <[to_path_buf u := new]> (view (world s))) as Hv.
      { intros Ha He. destruct (Hn He) as [_ Hp]. by destruct (law_write _ _ _ _ Hnm Ha Hp Ew) as (? & ? & _). }
      split; [|intros _ Ha He; exists old, new; by split_and!; [..|apply Hv]].
      eapply keeps_one; simpl; [by intros He; apply Hn|done|]. intros Ha He. destruct (Hv Ha He) as [? ->].
      split; [done|]. by apply connects_update.
    + by split; [apply keeps_inexact|].
Qed.

(** The effect of a hunk on the files, from the text of the patch. *)
Definition hunk_effect (cwd : PathUri) (h : Hunk) (m : gmap string string) : option (gmap string string) :=
  match resolve_path h cwd with
  | Err _ => None
  | Ok u =>
      match h with
      | AddFile _ contents => Some (<[to_path_buf u := contents]> m)
      | DeleteFile _ => _ ← m !! to_path_buf u; Some (delete (to_path_buf u) m)
      | UpdateFile _ mv chunks =>
          old ← m !! to_path_buf u;
          match derive_new_contents (native_path u) chunks old with
          | Ok (Some new) =>
              match mv with
              | None => Some (<[to_path_buf u := new]> m)
              | Some dest =>
                  match uri_join cwd dest with
                  | Ok du => Some (delete (to_path_buf u) (<[to_path_buf du := new]> m))
                  | Err _ => None
                  end
              end
          | _ => None
          end
      end
  end.

Lemma apply_hunk_keeps cwd h s r s' :
  Forall names (touched cwd h) → apply_hunk cwd h s = (r, s') → keeps s s' ∧
  did r s s' (hunk_effect cwd h (view (world s)) = Some (view (world s'))).
Proof.
  unfold apply_hunk, hunk_effect, touched. destruct (resolve_path h cwd) as [u|e].
  2:{ intros; simplify_eq. by split; [apply keeps_same|]. }
  intros [Hnm Hnd]%Forall_cons. destruct h as [path contents|path|path mv chunks].
  - destruct (apply_add u contents s) as [r1 s1] eqn:E. destruct (apply_add_keeps _ _ _ _ _ Hnm E) as [Hk Hs].
    destruct r1; intros; simplify_eq; (split; [exact Hk|]); [done|]. intros _ Ha He. simpl in *. by rewrite Hs.
  - destruct (apply_delete u s) as [r1 s1] eqn:E. destruct (apply_delete_keeps _ _ _ _ Hnm E) as [Hk Hs].
    destruct r1; intros; simplify_eq; (split; [exact Hk|]); [done|]. intros _ Ha He. simpl in *.
    destruct (Hs eq_refl Ha He) as [[old Hold] Hv]. by rewrite Hold, Hv.
  - assert (∀ dest du, mv = Some dest → uri_join cwd dest = Ok du → names (to_path_buf du)) as Hd.
    { intros dest du -> Hj. rewrite Hj in Hnd. by apply Forall_cons in Hnd as [? _]. }
    destruct (apply_update cwd u mv chunks s) as [r1 s1] eqn:E.
    destruct (apply_update_keeps _ _ _ _ _ _ _ Hnm Hd E) as [Hk Hs].
    destruct r1; intros; simplify_eq; (split; [exact Hk|]); [done|]. intros _ Ha He. simpl in *.
    destruct (Hs eq_refl Ha He) as (old & new & Hold & Hder & Hm). rewrite Hold. simpl. rewrite Hder.
    destruct mv as [dest|]; [|by rewrite Hm]. destruct Hm as (du & -> & ->). done.
Qed.

Fixpoint hunks_effect (cwd : PathUri) (hs : list Hunk) (m : gmap string string) : option (gmap string string) :=
  match hs with
  | [] => Some m
  | h :: hs' => hunk_effect cwd h m ≫= hunks_effect cwd hs'
  end.

Lemma apply_list_keeps cwd hs s r s' :
  Forall names (concat (touched cwd <$> hs)) → apply_hunk_list cwd hs s = (r, s') → keeps s s' ∧
  did r s s' (hunks_effect cwd hs (view (world s)) = Some (view (world s'))).
Proof.
  revert s; induction hs as [|h hs IH]; intros s; simpl.
  { intros; simplify_eq. by split; [apply keeps_same|]. }
  intros [Hnh Hnhs]%Forall_app.
  destruct (apply_hunk cwd h s) as [r1 s1] eqn:E1. destruct (apply_hunk_keeps _ _ _ _ _ Hnh E1) as [Hk1 Hs1].
  destruct r1 as [e|]; [intros; simplify_eq; by split|]. intros Hl2.
  destruct (IH s1 Hnhs Hl2) as [Hk2 Hs2]. split; [by eapply keeps_trans|]. intros Hn Ha He.
  assert (exact (delta s1) = true) as He1 by (by apply Hk2).
  rewrite Hs1 by done. simpl. apply Hs2; [done| |done]. by destruct Hk1 as [_ Hk1]; destruct (Hk1 Ha He1).
Qed.

Lemma run_keeps cwd hs w d r s' :
  Forall names (concat (touched cwd <$> hs)) → apply_hunks_to_files cwd hs w d = (r, s') →
  keeps {| world := w; delta := d; affected := no_paths |} s' ∧
  (r = None → apart w → exact (delta s') = true → hunks_effect cwd hs (view w) = Some (view (world s'))).
Proof.
  intros Hnm. unfold apply_hunks_to_files. destruct hs as [|h hs].
  - intros; simplify_eq. by split; [apply keeps_same|].
  - intros Hl. by apply apply_list_keeps in Hl.
Qed.

(** The paths the set must hold for a patch: all that its hunks name. *)
Definition names_of_patch (text : string) (cwd : PathUri) : Prop :=
  ∀ args, parse_patch text = Ok args → Forall names (concat (touched cwd <$> hunks args)).

(** The record a call of [apply_patch] returns, with success or failure. *)
Definition result_delta (res : Result AppliedPatchDelta ApplyPatchFailure) : AppliedPatchDelta :=
  match res with Ok d => d | Err (_, d) => d end.

(** Claim C9. The record of committed changes is right, whatever happened, for files seen
    at any set of paths that holds every path the patch names and of which no two lead to
    the same file (through symbolic links, hard links or spelling): after [apply_patch],
    successful or stopped by an error at any hunk, while nothing else writes, if the record
    it returns is exact then replaying it on the files there were gives the files there
    are, and undoing it on the files there are gives back the files there were. *)
Theorem apply_patch_delta_exact text cwd stdout stderr w res w' :
  names_of_patch text cwd → apart w →
  apply_patch text cwd stdout stderr w = (res, w') →
  exact (result_delta res) = true →
  foldl replay_change (view w) (changes (result_delta res)) = view w' ∧
  foldr undo_change (view w') (changes (result_delta res)) = view w.
Proof.
  intros Hnm Ha. unfold apply_patch. destruct (parse_patch text) as [args|e] eqn:Ep; [|].
  - unfold apply_hunks. destruct (apply_hunks_to_files cwd (hunks args) w delta_empty) as [r s'] eqn:E.
    apply run_keeps in E as [[_ Hk] _]; [|by apply Hnm]. intros Hr.
    assert (w' = world s' ∧ result_delta res = delta s') as [-> ->].
    { destruct r as [e|]; simplify_eq; (split; [done|]).
      - by destruct (stderr _).
      - by destruct (print_summary _ _). }
    intros He. destruct (Hk Ha He) as [_ (cs & Hc & Hconn)]. simpl in Hc. by rewrite Hc.
  - intros Hr He. assert (w' = w ∧ result_delta res = delta_empty) as [-> ->]; [|done].
    simplify_eq. split; [done|]. by destruct (stderr _).
Qed.

End laws.

(** ** A file system in memory *)

(** Paths are their own text; a relative one is appended to the directory. *)
#[export] Instance mem_uris : PathUris := {|
  PathUri := string;
  uri_join cwd p := Ok (if starts_with "/" p then p else cwd +:+ ("/" +:+ p));
  uri_parent _ := None;
  native_path u := u;
  to_path_buf u := u;
|}.

Definition no_such_file : IoErr := {| not_found := true; io_text := "not found" |}.

#[export] Instance mem_fs : ExecutorFileSystem (gmap string string) := {|
  read_file_text u w := match w !! (u : string) with Some s => Ok s | None => Err no_such_file end;
  get_metadata u w := match w !! (u : string) with
                      | Some _ => Ok {| is_directory := false; is_file := true; is_symlink := false |}
                      | None => Err no_such_file
                      end;
  write_file u c w := (Ok (), <[(u : string) := c]> w);
  create_directory _ w := (Ok (), w);
  remove u w := match w !! (u : string) with
                | Some _ => (Ok (), delete (u : string) w)
                | None => (Err no_such_file, w)
                end;
|}.

(** Every path leads to a file of its own. *)
#[export] Instance mem_laws : FileSystemLaws (λ _, True) (λ _, True) (λ w : gmap string string, w).
Proof.
  split; simpl.
  - intros u w s _. by destruct (w !! u); intros; simplify_eq.
  - intros u w e _. by destruct (w !! u).
  - intros u c w w' _ _ _ Hw. simplify_eq. split_and!; [done|done|]. intros v _ _. unfold plain_target. simpl.
    by destruct (_ !! v).
  - intros u c w w' e _ _ Hw. done.
  - intros u p w r w' _ _ _ Hw. simplify_eq. by split_and!.
  - intros u w r w' _ _ _. destruct (w !! u) as [s|] eqn:E; intros; simplify_eq.
    + split_and!; [done|by rewrite delete_delete_eq|by rewrite lookup_delete_eq|]. intros s'. by rewrite lookup_delete_eq.
    + split_and!; [done|done|by intros|]. intros s. by rewrite E.
Qed.

Definition mem_cwd : @PathUri mem_uris := "/d".

Definition mem_apply (text : string) (w : gmap string string) :=
  apply_patch text mem_cwd (λ _, Ok ()) (λ _, Ok ()) w.

Definition move_patch (dest : string) : string :=
  join NL ["*** Begin Patch"; "*** Update File: a"; "*** Move to: " +:+ dest; "@@"; "-x"; "+y"; "*** End Patch"].

(** The second hunk fails, the first one is on record. *)
Definition failing_patch : string :=
  join NL ["*** Begin Patch"; "*** Add File: n"; "+new"; "*** Update File: a"; "-z"; "*** End Patch"].

Lemma apply_patch_delta_exact_witness :
  let w : gmap string string := {["/d/a" := "x"]} in
  let '(res, w') := mem_apply failing_patch w in
  is_ok res = false ∧ length (changes (result_delta res)) = 1 ∧
  foldl replay_change w (changes (result_delta res)) = w' ∧
  foldr undo_change w' (changes (result_delta res)) = w.
Proof.
  intros w. destruct (mem_apply failing_patch w) as [res w'] eqn:E.
  pose proof (apply_patch_delta_exact (λ _, True) (λ _, True) (λ w, w) failing_patch mem_cwd
    (λ _, Ok ()) (λ _, Ok ()) w res w' ltac:(intros args _; by apply Forall_true) I E) as Ht.
  vm_compute in E. injection E as <- <-. split; [reflexivity|]. split; [reflexivity|]. apply Ht. reflexivity.
Defined.


(** Moving an updated file to its own path deletes it: the destination is written and
    then removed as the source. *)
Example move_to_itself_deletes :
  (mem_apply (move_patch "a") {["/d/a" := "x"]}).2 = ∅ ∧ (mem_apply (move_patch "b") {["/d/a" := "x"]}).2 ≠ ∅.
Proof. split; vm_compute; [reflexivity|discriminate]. Qed.

(** ** A file system with links

    [canon] gives the file a path leads to.  The contract holds for every set of paths on
    which [canon] is injective. *)
Section linked.
Variable canon : string → string.

Definition linked_fs : @ExecutorFileSystem mem_uris (gmap string string) := {|
  read_file_text u w := @read_file_text mem_uris _ mem_fs (canon u) w;
  get_metadata u w := @get_metadata mem_uris _ mem_fs (canon u) w;
  write_file u c w := @write_file mem_uris _ mem_fs (canon u) c w;
  create_directory _ w := (Ok (), w);
  remove u w := @remove mem_uris _ mem_fs (canon u) w;
|}.

Definition seen (P : gset string) (w : gmap string string) : gmap string string :=
  omap id (set_to_map (λ p, (p, w !! canon p)) P).

Lemma lookup_seen P w p : seen P w !! p = if decide (p ∈ P) then w !! canon p else None.
Proof.
  unfold seen. rewrite lookup_omap.
  destruct (set_to_map (λ p, (p, w !! canon p)) P !! p) as [o|] eqn:E; simpl.
  - apply lookup_set_to_map in E as (q & Hq & Heq); [|naive_solver]. simplify_eq. by rewrite decide_True.
  - destruct (decide (p ∈ P)) as [Hp|]; [|done]. exfalso.
    apply (eq_None_not_Some _) in E. apply E. exists (w !! canon p).
    apply lookup_set_to_map; [naive_solver|]. eauto.
Qed.

Lemma linked_laws P :
  (∀ p q, p ∈ P → q ∈ P → canon p = canon q → p = q) →
  @FileSystemLaws mem_uris _ linked_fs (.∈ P) (λ _, True) (seen P).
Proof.
  intros Hinj. split; cbn [linked_fs mem_uris mem_fs PathUri to_path_buf read_file_text get_metadata write_file remove create_directory].
  - intros u w s Hu Hr. rewrite lookup_seen, decide_True by done. destruct (w !! canon u); by simplify_eq.
  - intros u w e Hu Hr Hn. rewrite lookup_seen, decide_True by done. by destruct (w !! canon u).
  - intros u c w w' Hu _ _ Hw. simplify_eq. split_and!; [done| |].
    + apply map_eq. intros q. rewrite lookup_seen. destruct (decide (q = u)) as [->|Hne].
      { rewrite lookup_insert_eq, decide_True by done. by rewrite lookup_insert_eq. }
      rewrite (lookup_insert_ne _ u q), lookup_seen by done. destruct (decide (q ∈ P)); [|done].
      apply lookup_insert_ne. intros Hc. apply Hne. symmetry. by apply Hinj.
    + intros v _ _. unfold plain_target. simpl. by destruct (_ !! canon v).
  - done.
  - intros u p w r w' _ _ _ Hw. simplify_eq. by split_and!.
  - intros u w r w' Hu _ _ Hr. destruct (w !! canon u) as [s|] eqn:E; simplify_eq.
    + split_and!; [done| | |].
      * apply map_eq. intros q. destruct (decide (q = u)) as [->|Hne]; [by rewrite !lookup_delete_eq|].
        rewrite !lookup_delete_ne, !lookup_seen by done. destruct (decide (q ∈ P)); [|done].
        apply lookup_delete_ne. intros Hc. apply Hne. symmetry. by apply Hinj.
      * intros _. rewrite lookup_seen, decide_True by done. by rewrite lookup_delete_eq.
      * intros s'. rewrite lookup_seen, decide_True by done. by rewrite lookup_delete_eq.
    + split_and!; [done|done|done|]. intros s. rewrite lookup_seen, decide_True by done. by rewrite E.
Qed.
End linked.

(** Two paths of one file: the directory [/d/l] is a link to [/d].  A move through the link
    deletes the file, and the record, though exact, says that it is at the destination. *)
Example move_through_link_deletes :
  let canon p := if starts_with "/d/l/" p then "/d/" +:+ str_drop 5 p else p in
  let w : gmap string string := {["/d/a" := "x"]} in
  let P : gset string := {["/d/a"; "/d/l/a"]} in
  let '(res, w') := @apply_patch mem_uris _ (linked_fs canon) (move_patch "l/a") mem_cwd (λ _, Ok ()) (λ _, Ok ()) w in
  w' = ∅ ∧ exact (result_delta res) = true ∧
  foldl replay_change (seen canon P w) (changes (result_delta res)) ≠ seen canon P w'.
Proof. vm_compute. split_and!; [reflexivity|reflexivity|discriminate]. Qed.
