(* ===== verification/PatchVerify.v ===== *)
(** * Recognising and checking an apply_patch call before it runs

    src/codex-rs/apply-patch/src/invocation.rs: whether a command line is a call of
    apply_patch, and the changes it is going to make, which the user is asked to approve.
    The bash grammar ([extract_apply_patch_from_bash], a tree-sitter query), the diff
    renderer and the path type are parameters. *)

From stdpp Require Import base gmap list strings.
From S2P Require Import Prelude Str PatchParser Replace PatchApply PatchDelta.

(** ** Data *)

Inductive ApplyPatchShell := Unix | PowerShell | Cmd.

Inductive PathConvention := Posix | Windows.

Inductive ExtractHeredocError :=
  | CommandDidNotStartWithApplyPatch
  | FailedToLoadBashGrammar
  | HeredocNotUtf8
  | FailedToParsePatchIntoAst
  | FailedToFindHeredocBody.

Inductive MaybeApplyPatch :=
  | Body (args : ApplyPatchArgs)
  | ShellParseError (e : ExtractHeredocError)
  | PatchParseError (e : ParseError)
  | NotApplyPatch.

Inductive ApplyPatchFileChange {uri : Type} :=
  | FileAdd (content : string)
  | FileDelete (content : string)
  | FileUpdate (unified_diff : string) (move_path : option uri) (new_content : string).
Arguments ApplyPatchFileChange : clear implicits.

(** What the checks use of other code. *)
Class Invocation `{PathUris} := {
  infer_path_convention : PathUri → option PathConvention;
  extract_apply_patch_from_bash : string → Result (string * option string) ExtractHeredocError;
  render_unified_diff : nat → string → string → string;   (** [TextDiff] with its context radius *)
}.

Section invocation.
Context `{PathUris} `{!Invocation} {W : Type} `{!ExecutorFileSystem W}.

Record ApplyPatchAction := {
  act_changes : gmap PathUri (ApplyPatchFileChange PathUri);
  act_patch : string;
  act_cwd : PathUri;
}.

Inductive MaybeApplyPatchVerified :=
  | VerifiedBody (action : ApplyPatchAction)
  | VerifiedShellParseError (e : ExtractHeredocError)
  | VerifiedCorrectnessError (e : ApplyPatchError)
  | VerifiedNotApplyPatch.

(** ** Operations *)

Definition backslash : ascii := "092"%char.

(** The last of [path_segments] *)
Definition last_segment (convention : PathConvention) (path : string) : string :=
  let after c s := List.last (split_char c s) EmptyString in
  match convention with
  | Posix => after "/"%char path
  | Windows => after "/"%char (after backslash path)
  end.

(** [rsplit_once('.')], the part before, when it is not empty *)
Definition file_stem (basename : string) : string :=
  match split_char "."%char basename with
  | [] | [_] => basename
  | pieces => let stem := join "." (removelast pieces) in if str_is_empty stem then basename else stem
  end.

Definition classify_shell_name (shell : string) (convention : PathConvention) : option string :=
  Some (ascii_lowercase (file_stem (last_segment convention shell))).

Definition eq_ignore_case (s t : string) : bool := str_eqb (ascii_lowercase s) (ascii_lowercase t).

Definition classify_shell (shell flag : string) (convention : PathConvention) : option ApplyPatchShell :=
  name ← classify_shell_name shell convention;
  if (str_eqb name "bash" || str_eqb name "zsh" || str_eqb name "sh")
     && (str_eqb flag "-lc" || str_eqb flag "-c") then Some Unix
  else if (str_eqb name "pwsh" || str_eqb name "powershell") && eq_ignore_case flag "-command"
  then Some PowerShell
  else if str_eqb name "cmd" && eq_ignore_case flag "/c" then Some Cmd
  else None.

Definition can_skip_flag (shell flag : string) (convention : PathConvention) : bool :=
  match classify_shell_name shell convention with
  | Some name => (str_eqb name "pwsh" || str_eqb name "powershell") && eq_ignore_case flag "-noprofile"
  | None => false
  end.

Definition parse_shell_script (argv : list string) (cwd : PathUri) : option (ApplyPatchShell * string) :=
  convention ← infer_path_convention cwd;
  match argv with
  | [shell; flag; script] => (λ t, (t, script)) <$> classify_shell shell flag convention
  | [shell; skip_flag; flag; script] =>
      if negb (can_skip_flag shell skip_flag convention) then None
      else (λ t, (t, script)) <$> classify_shell shell flag convention
  | _ => None
  end.

(** Every shell's script is read as bash. *)
Definition extract_apply_patch_from_shell (shell : ApplyPatchShell) (script : string) :
  Result (string * option string) ExtractHeredocError :=
  match shell with Unix | PowerShell | Cmd => extract_apply_patch_from_bash script end.

Definition APPLY_PATCH_COMMANDS : list string := ["apply_patch"; "applypatch"].

Definition set_workdir (d : option string) (a : ApplyPatchArgs) : ApplyPatchArgs :=
  {| patch := patch a; hunks := hunks a; workdir := d; environment_id := environment_id a |}.

Definition parsed_body (text : string) (d : option string) : MaybeApplyPatch :=
  match parse_patch text with
  | Ok source => Body (set_workdir d source)
  | Err e => PatchParseError e
  end.

Definition shell_apply_patch (argv : list string) (cwd : PathUri) : MaybeApplyPatch :=
  match parse_shell_script argv cwd with
  | Some (shell, script) =>
      match extract_apply_patch_from_shell shell script with
      | Ok (body, d) => parsed_body body d
      | Err CommandDidNotStartWithApplyPatch => NotApplyPatch
      | Err e => ShellParseError e
      end
  | None => NotApplyPatch
  end.

Definition maybe_parse_apply_patch (argv : list string) (cwd : PathUri) : MaybeApplyPatch :=
  match argv with
  | [cmd; body] =>
      if existsb (str_eqb cmd) APPLY_PATCH_COMMANDS
      then match parse_patch body with Ok source => Body source | Err e => PatchParseError e end
      else shell_apply_patch argv cwd
  | _ => shell_apply_patch argv cwd
  end.

(** The change of an update: the diff, the new contents. *)
Definition unified_diff_from_chunks (path : PathUri) (chunks : list UpdateFileChunk) (w : W) :
  Result (string * string) ApplyPatchError :=
  let? '(original, new) := derive_new_contents_from_chunks path chunks w in
  Ok (render_unified_diff 1 original new, new).

Definition join_error {A} (r : Result A string) : Result A ApplyPatchError := map_err ErrPathUri r.

(** One hunk of [try_verify_apply_patch_args]. *)
Definition verify_hunk (cwd : PathUri) (w : W) (acc : gmap PathUri (ApplyPatchFileChange PathUri)) (h : Hunk) :
  Result (gmap PathUri (ApplyPatchFileChange PathUri)) ApplyPatchError :=
  let? path := join_error (resolve_path h cwd) in
  match h with
  | AddFile _ contents => Ok (<[path := FileAdd contents]> acc)
  | DeleteFile _ =>
      let? content := map_err (ErrIo ("Failed to read " +:+ native_path path)) (read_file_text path w) in
      Ok (<[path := FileDelete content]> acc)
  | UpdateFile _ move_path chunks =>
      let? '(diff, contents) := unified_diff_from_chunks path chunks w in
      let? dest := match move_path with
                   | Some p => let? d := join_error (uri_join cwd p) in Ok (Some d)
                   | None => Ok None
                   end in
      Ok (<[path := FileUpdate diff dest contents]> acc)
  end.

Definition try_verify_apply_patch_args (args : ApplyPatchArgs) (cwd : PathUri) (w : W) :
  Result ApplyPatchAction ApplyPatchError :=
  let? effective_cwd := match workdir args with
                        | Some dir => join_error (uri_join cwd dir)
                        | None => Ok cwd
                        end in
  let? changes := fold_res (verify_hunk effective_cwd w) ∅ (hunks args) in
  Ok {| act_changes := changes; act_patch := patch args; act_cwd := effective_cwd |}.

Definition verify_apply_patch_args (args : ApplyPatchArgs) (cwd : PathUri) (w : W) : MaybeApplyPatchVerified :=
  match try_verify_apply_patch_args args cwd w with
  | Ok action => VerifiedBody action
  | Err e => VerifiedCorrectnessError e
  end.

Definition maybe_parse_apply_patch_verified (argv : list string) (cwd : PathUri) (w : W) :
  MaybeApplyPatchVerified :=
  let raw := match argv with [body] => is_ok (parse_patch body) | _ => false end in
  let raw_script := match parse_shell_script argv cwd with
                    | Some (_, script) => is_ok (parse_patch script)
                    | None => false
                    end in
  if raw || raw_script then VerifiedCorrectnessError ErrImplicitInvocation
  else
    match maybe_parse_apply_patch argv cwd with
    | Body args => verify_apply_patch_args args cwd w
    | ShellParseError e => VerifiedShellParseError e
    | PatchParseError e => VerifiedCorrectnessError (ErrParse e)
    | NotApplyPatch => VerifiedNotApplyPatch
    end.
End invocation.

(** ** What is approved is what happens *)

Section approved.
Context `{PathUris} `{!Invocation} {W : Type} `{!ExecutorFileSystem W} (names : string → Prop)
  (apart : W → Prop) (view : W → gmap string string) `{!FileSystemLaws names apart view}.

(** The files [m] are as the approved change of [u] says. *)
Definition realised (m : gmap string string) (u : PathUri) (c : ApplyPatchFileChange PathUri) : Prop :=
  match c with
  | FileAdd content => m !! to_path_buf u = Some content
  | FileDelete _ => m !! to_path_buf u = None
  | FileUpdate _ None new => m !! to_path_buf u = Some new
  | FileUpdate _ (Some dest) new => m !! to_path_buf u = None ∧ m !! to_path_buf dest = Some new
  end.

(** A hunk changes only the files it touches. *)
Lemma hunk_effect_frame cwd h m m' p :
  hunk_effect cwd h m = Some m' → p ∉ touched cwd h → m' !! p = m !! p.
Proof.
  unfold hunk_effect, touched. destruct (resolve_path h cwd) as [u|]; [|done].
  destruct h as [path contents|path|path mv chunks]; intros He Hp; rewrite not_elem_of_cons in Hp;
    destruct Hp as [Hp Hp2].
  - simplify_eq. by rewrite lookup_insert_ne by done.
  - destruct (m !! to_path_buf u); simpl in He; simplify_eq. by rewrite lookup_delete_ne by done.
  - destruct (m !! to_path_buf u) as [old|]; simpl in He; [|done].
    destruct (derive_new_contents _ _ _) as [[new|]|]; try done. destruct mv as [dest|].
    + destruct (uri_join cwd dest) as [d|]; [|done]. simplify_eq. apply not_elem_of_cons in Hp2 as [Hp2 _].
      by rewrite lookup_delete_ne, lookup_insert_ne by done.
    + simplify_eq. by rewrite lookup_insert_ne by done.
Qed.

Lemma hunks_effect_frame cwd hs m m' p :
  hunks_effect cwd hs m = Some m' → p ∉ concat (touched cwd <$> hs) → m' !! p = m !! p.
Proof.
  revert m; induction hs as [|h hs IH]; intros m; simpl; [by intros; simplify_eq|].
  intros (m1 & H1 & H2)%bind_Some Hp. apply not_elem_of_app in Hp as [Hp1 Hp2].
  rewrite (IH _ H2 Hp2). by eapply hunk_effect_frame.
Qed.

(** The change approved for a hunk is realised wherever the files the hunk touches are
    as the hunk leaves them. *)
Lemma verify_hunk_effect cwd w acc h acc' m m' :
  verify_hunk cwd w acc h = Ok acc' → NoDup (touched cwd h) → Forall names (touched cwd h) →
  (∀ p, p ∈ touched cwd h → m !! p = view w !! p) → hunk_effect cwd h m = Some m' →
  ∃ u c, acc' = <[u := c]> acc ∧
    ∀ m2, (∀ p, p ∈ touched cwd h → m2 !! p = m' !! p) → realised m2 u c.
Proof.
  unfold verify_hunk, hunk_effect, touched. intros Hv Hnd Hnm Hm He.
  destruct (resolve_path h cwd) as [u|]; [|done]. simpl in Hv. exists u.
  apply Forall_cons in Hnm as [Hnm _].
  specialize (Hm (to_path_buf u) (list_elem_of_here _ _)).
  destruct h as [path contents|path|path mv chunks].
  - simplify_eq. eexists. split; [done|]. intros m2 Hp. simpl.
    rewrite Hp by apply list_elem_of_here. by rewrite lookup_insert_eq.
  - destruct (read_file_text u w); simpl in Hv; simplify_eq. eexists. split; [done|]. intros m2 Hp. simpl.
    rewrite Hp by apply list_elem_of_here. destruct (m !! to_path_buf u); simpl in He; simplify_eq.
    by rewrite lookup_delete_eq.
  - apply res_bind_ok in Hv as ([diff contents] & Hd & Hv). apply res_bind_ok in Hv as (dest & Hdest & Hv).
    simplify_eq. apply res_bind_ok in Hd as ([old new] & Hder & Hd). simplify_eq.
    destruct (derive_read _ _ _ _ _ Hder) as [Hr Hn]. apply law_read_ok in Hr; [|done]. rewrite Hr in Hm.
    rewrite Hm in He. simpl in He. rewrite Hn in He. eexists. split; [done|]. intros m2 Hp.
    destruct mv as [p|]; [|simplify_eq; simpl; rewrite Hp by apply list_elem_of_here; by rewrite lookup_insert_eq].
    destruct (uri_join cwd p) as [d|]; [|done]. simpl in Hdest. simplify_eq. simpl.
    apply NoDup_cons in Hnd as [Hne _]. rewrite list_elem_of_singleton in Hne.
    rewrite (Hp (to_path_buf u)), (Hp (to_path_buf d)) by set_solver.
    rewrite lookup_delete_eq, lookup_delete_ne, lookup_insert_eq by done. done.
Qed.

Lemma verify_all cwd w hs acc acc' m m' :
  fold_res (verify_hunk cwd w) acc hs = Ok acc' → hunks_effect cwd hs m = Some m' →
  NoDup (concat (touched cwd <$> hs)) → Forall names (concat (touched cwd <$> hs)) →
  (∀ p, p ∈ concat (touched cwd <$> hs) → m !! p = view w !! p) →
  ∀ u c, acc' !! u = Some c → acc !! u = Some c ∨ realised m' u c.
Proof.
  revert acc m; induction hs as [|h hs IH]; intros acc m; simpl.
  { intros; simplify_eq. by left. }
  intros (acc1 & Hv & Hf)%res_bind_ok (m1 & He & Hes)%bind_Some Hnd Hnm Hm u c Hc.
  apply Forall_app in Hnm as [Hnm1 Hnm2].
  apply NoDup_app in Hnd as (Hnd1 & Hdis & Hnd2).
  assert (∀ p, p ∈ concat (touched cwd <$> hs) → p ∉ touched cwd h) as Hdis' by (intros p ? ?; by eapply Hdis).
  destruct (verify_hunk_effect _ _ _ _ _ _ _ Hv Hnd1 Hnm1 ltac:(intros; apply Hm; set_solver) He)
    as (u0 & c0 & -> & Hreal).
  destruct (IH _ m1 Hf Hes Hnd2 Hnm2) with u c as [Hin|Hr]; [|done| |by right].
  { intros p Hp. rewrite (hunk_effect_frame _ _ _ _ _ He) by (by apply Hdis'). apply Hm. set_solver. }
  apply lookup_insert_Some in Hin as [[<- <-]|[_ Hin]]; [right|by left].
  apply Hreal. intros p Hp. eapply hunks_effect_frame; [exact Hes|]. by apply Hdis.
Qed.

(** Claim C10. What is approved is what happens: a call was verified, its hunks name
    pairwise different paths, of which no two lead to the same file; when the patch is
    applied in the directory that was verified, the files at these paths are what they were
    then, nothing else writes meanwhile, and it succeeds with an exact record.  Then every
    change that was shown is realised: added and updated files hold exactly the contents
    shown, deleted ones are gone, moved ones are only at their destination; and no other
    path of the set differs from what it was when the patch was applied, for any set of
    paths that holds those named and of which no two lead to the same file. *)
Theorem verified_changes_happen args cwd w0 w action d s' :
  try_verify_apply_patch_args args cwd w0 = Ok action →
  let paths := concat (touched (act_cwd action) <$> hunks args) in
  NoDup paths → Forall names paths → apart w →
  (∀ p, p ∈ paths → view w !! p = view w0 !! p) →
  apply_hunks_to_files (act_cwd action) (hunks args) w d = (None, s') → exact (delta s') = true →
  (∀ u c, act_changes action !! u = Some c → realised (view (world s')) u c) ∧
  (∀ p, p ∉ paths → view (world s') !! p = view w !! p).
Proof.
  intros (ecwd & _ & Hv)%res_bind_ok paths Hnd Hnm Hap Hsame Ha He.
  apply res_bind_ok in Hv as (cs & Hf & Hv). simplify_eq.
  cbn [act_cwd act_changes] in *. apply (run_keeps names apart view) in Ha as [_ Hs]; [|done].
  specialize (Hs eq_refl Hap He). split.
  - intros u c Hc. by destruct (verify_all _ _ _ _ _ _ _ Hf Hs Hnd Hnm Hsame u c Hc).
  - intros p Hp. by eapply hunks_effect_frame.
Qed.
End approved.

(** ** Concrete calls *)

#[export] Instance mem_invocation : @Invocation mem_uris := {|
  infer_path_convention _ := Some Posix;
  extract_apply_patch_from_bash _ := Err CommandDidNotStartWithApplyPatch;
  render_unified_diff _ _ _ := EmptyString;
|}.

Definition call (lines : list string) : list string := ["apply_patch"; join NL lines].

Definition two_hunks : list Hunk :=
  [AddFile "n" ("1" +:+ NL); UpdateFile "a" None [chunk_of ["x"] ["y"]]].

Definition two_args : ApplyPatchArgs :=
  {| patch := EmptyString; hunks := two_hunks; workdir := None; environment_id := None |}.

Definition two_world : gmap string string := {["/d/a" := "x"]}.

Definition two_action : ApplyPatchAction :=
  {| act_changes := {["/d/n" := FileAdd ("1" +:+ NL); "/d/a" := FileUpdate EmptyString None ("y" +:+ NL)]};
     act_patch := EmptyString; act_cwd := mem_cwd |}.

Definition two_run : Run := (apply_hunks_to_files mem_cwd two_hunks two_world delta_empty).2.

Lemma verified_changes_happen_witness :
  try_verify_apply_patch_args two_args mem_cwd two_world = Ok two_action ∧
  (∀ u c, act_changes two_action !! u = Some c → realised (world two_run) u c) ∧
  (∀ p, p ∉ concat (touched mem_cwd <$> two_hunks) → world two_run !! p = two_world !! p).
Proof.
  split; [vm_refl|].
  apply (verified_changes_happen (λ _, True) (λ _, True) (λ w, w) two_args mem_cwd two_world two_world
    two_action delta_empty two_run);
    [vm_refl|apply (bool_decide_unpack _); vm_compute; exact I|by apply Forall_true|exact I|done|vm_refl|vm_refl].
Defined.

Definition twice : list string :=
  ["*** Begin Patch"; "*** Update File: a"; "-x"; "+1"; "*** Update File: a"; "-y"; "+2"; "*** End Patch"].

Definition twice_action : ApplyPatchAction :=
  {| act_changes := {["/d/a" := FileUpdate EmptyString None ("x" +:+ NL +:+ "2" +:+ NL)]};
     act_patch := join NL twice; act_cwd := mem_cwd |}.

(** Two updates of one file: only the second is shown, derived from the contents before
    the patch, while both are applied. *)
Example second_update_hides_first :
  let w : gmap string string := {["/d/a" := "x" +:+ NL +:+ "y" +:+ NL]} in
  maybe_parse_apply_patch_verified (call twice) mem_cwd w = VerifiedBody twice_action ∧
  (mem_apply (join NL twice) w).2 = {["/d/a" := "1" +:+ NL +:+ "2" +:+ NL]}.
Proof. split; vm_refl. Qed.
