(* ===== verification/OutputTrunc.v ===== *)
(** * Middle truncation of tool output

    codex-rs/utils/string/src/truncate.rs (the text routines),
    codex-rs/utils/output-truncation/src/lib.rs (policies applied to texts and to the
    content items of a tool output) and [TruncationPolicy] of
    codex-rs/protocol/src/protocol.rs.

    A [usize] or [u64] is an [N] below [2^64]; the saturating operations of the source are
    written out, and a byte length of a text is its exact length, which is how Rust has it
    for every text that fits in memory ([fits]).  A text is its UTF-8 bytes. *)

From S2P Require Import Prelude Str Json Protocol.

Local Open Scope N_scope.

(** ** Machine integers *)

Definition usize_max : N := 2 ^ 64 - 1.

Definition sat_add (a b : N) : N := N.min usize_max (a + b).
Definition sat_mul (a b : N) : N := N.min usize_max (a * b).

(** [s.len()] *)
Definition len (s : string) : N := N.of_nat (String.length s).

(** A text whose length is at most [isize::MAX], as every text of a Rust program is. *)
Definition isize_max : N := 2 ^ 63 - 1.
Definition fits (s : string) : Prop := len s <= isize_max.

Definition fmt_N (n : N) : string := pretty n.

(** ** codex-rs/utils/string/src/truncate.rs *)

Definition APPROX_BYTES_PER_TOKEN : N := 4.

Definition approx_token_count (text : string) : N :=
  sat_add (len text) (APPROX_BYTES_PER_TOKEN - 1) / APPROX_BYTES_PER_TOKEN.

Definition approx_bytes_for_tokens (tokens : N) : N := sat_mul tokens APPROX_BYTES_PER_TOKEN.

Definition approx_tokens_from_byte_count (bytes : N) : N :=
  sat_add bytes (APPROX_BYTES_PER_TOKEN - 1) / APPROX_BYTES_PER_TOKEN.

(** The four mutable variables of [split_string]'s loop. *)
Record SplitState := {
  prefix_end : N;
  suffix_start : N;
  removed_chars : N;
  suffix_started : bool;
}.

(** One round of the loop, on the character [ch] at byte [idx]. *)
Definition split_step (beginning_bytes tail_start_target idx : N) (ch : string) (st : SplitState) :
    SplitState :=
  let char_end := idx + len ch in
  if char_end <=? beginning_bytes then
    {| prefix_end := char_end; suffix_start := suffix_start st;
       removed_chars := removed_chars st; suffix_started := suffix_started st |}
  else if tail_start_target <=? idx then
    if suffix_started st then st
    else {| prefix_end := prefix_end st; suffix_start := idx;
            removed_chars := removed_chars st; suffix_started := true |}
  else
    {| prefix_end := prefix_end st; suffix_start := suffix_start st;
       removed_chars := sat_add (removed_chars st) 1; suffix_started := suffix_started st |}.

(** [for (idx, ch) in s.char_indices()] *)
Fixpoint split_loop (beginning_bytes tail_start_target idx : N) (cs : list string)
    (st : SplitState) : SplitState :=
  match cs with
  | [] => st
  | ch :: r =>
      split_loop beginning_bytes tail_start_target (idx + len ch) r
        (split_step beginning_bytes tail_start_target idx ch st)
  end.

Definition split_string (s : string) (beginning_bytes end_bytes : N) : N * string * string :=
  if str_is_empty s then (0, EmptyString, EmptyString)
  else
    let tail_start_target := len s - end_bytes in
    let st := split_loop beginning_bytes tail_start_target 0 (chars s)
                {| prefix_end := 0; suffix_start := len s; removed_chars := 0;
                   suffix_started := false |} in
    let suffix_start :=
      if suffix_start st <? prefix_end st then prefix_end st else suffix_start st in
    (removed_chars st, str_take (N.to_nat (prefix_end st)) s,
     str_drop (N.to_nat suffix_start) s).

Definition split_budget (budget : N) : N * N :=
  let left := budget / 2 in (left, budget - left).

Definition format_truncation_marker (use_tokens : bool) (removed_count : N) : string :=
  if use_tokens then "…" +:+ (fmt_N removed_count +:+ " tokens truncated…")
  else "…" +:+ (fmt_N removed_count +:+ " chars truncated…").

Definition removed_units (use_tokens : bool) (removed_bytes removed_chars : N) : N :=
  if use_tokens then approx_tokens_from_byte_count removed_bytes else removed_chars.

Definition assemble_truncated_output (prefix suffix marker : string) : string :=
  prefix +:+ (marker +:+ suffix).

Definition truncate_with_byte_estimate (s : string) (max_bytes : N) (use_tokens : bool) : string :=
  if str_is_empty s then EmptyString
  else
    let total_chars := N.of_nat (length (chars s)) in
    if max_bytes =? 0 then
      format_truncation_marker use_tokens (removed_units use_tokens (len s) total_chars)
    else if len s <=? max_bytes then s
    else
      let total_bytes := len s in
      let '(left_budget, right_budget) := split_budget max_bytes in
      let '(removed_chars, prefix, suffix) := split_string s left_budget right_budget in
      let marker := format_truncation_marker use_tokens
                      (removed_units use_tokens (total_bytes - max_bytes) removed_chars) in
      assemble_truncated_output prefix suffix marker.

Definition truncate_middle_chars (s : string) (max_bytes : N) : string :=
  truncate_with_byte_estimate s max_bytes false.

Definition truncate_middle_with_token_budget (s : string) (max_tokens : N) : string * option N :=
  if str_is_empty s then (EmptyString, None)
  else if (0 <? max_tokens) && (len s <=? approx_bytes_for_tokens max_tokens) then (s, None)
  else
    let truncated := truncate_with_byte_estimate s (approx_bytes_for_tokens max_tokens) true in
    let total_tokens := approx_token_count s in
    if str_eqb truncated s then (truncated, None) else (truncated, Some total_tokens).

(** ** [TruncationPolicy] *)

Inductive TruncationPolicy := Bytes (bytes : N) | Tokens (tokens : N).

Definition token_budget (p : TruncationPolicy) : N :=
  match p with
  | Bytes bytes => approx_tokens_from_byte_count bytes
  | Tokens tokens => tokens
  end.

Definition byte_budget (p : TruncationPolicy) : N :=
  match p with
  | Bytes bytes => bytes
  | Tokens tokens => approx_bytes_for_tokens tokens
  end.

(** ** codex-rs/utils/output-truncation/src/lib.rs *)

Definition truncate_text (content : string) (policy : TruncationPolicy) : string :=
  match policy with
  | Bytes bytes => truncate_middle_chars content bytes
  | Tokens tokens => fst (truncate_middle_with_token_budget content tokens)
  end.

Definition formatted_truncate_text (content : string) (policy : TruncationPolicy) : string :=
  if len content <=? byte_budget policy then content
  else
    let original_token_count := approx_token_count content in
    let total_lines := length (lines content) in
    let result := truncate_text content policy in
    "Warning: truncated output (original token count: " +:+ (fmt_N original_token_count +:+
      (")" +:+ (NL +:+ ("Total output lines: " +:+ (fmt_nat total_lines +:+
        (NL +:+ (NL +:+ result))))))).

Definition item_text (item : FunctionCallOutputContentItem) : option string :=
  match item with
  | OutInputText text => Some text
  | OutInputImage _ _ | OutEncryptedContent _ => None
  end.

Definition is_text_item (item : FunctionCallOutputContentItem) : bool :=
  match item with OutInputText _ => true | _ => false end.

(** The loop that glues the text segments. *)
Definition combine_segments (text_segments : list string) : string :=
  fold_left (λ combined text,
    (if str_is_empty combined then combined else combined +:+ NL) +:+ text)
    text_segments EmptyString.

Definition formatted_truncate_text_content_items_with_policy
    (items : list FunctionCallOutputContentItem) (policy : TruncationPolicy) :
    list FunctionCallOutputContentItem * option N :=
  let text_segments := omap item_text items in
  match text_segments with
  | [] => (items, None)
  | _ :: _ =>
      let combined := combine_segments text_segments in
      if len combined <=? byte_budget policy then (items, None)
      else
        let original_token_count := approx_token_count combined in
        (OutInputText (formatted_truncate_text combined policy)
           :: List.filter (λ item, negb (is_text_item item)) items,
         Some original_token_count)
  end.

(** The three mutable variables of [truncate_function_output_items_with_policy]. *)
Record TruncState := {
  out : list FunctionCallOutputContentItem;
  remaining_budget : N;
  omitted_text_items : N;
}.

Definition text_cost (policy : TruncationPolicy) (text : string) : N :=
  match policy with Bytes _ => len text | Tokens _ => approx_token_count text end.

Definition snippet_policy (policy : TruncationPolicy) (remaining_budget : N) : TruncationPolicy :=
  match policy with Bytes _ => Bytes remaining_budget | Tokens _ => Tokens remaining_budget end.

Definition trunc_step (policy : TruncationPolicy) (st : TruncState)
    (item : FunctionCallOutputContentItem) : TruncState :=
  match item with
  | OutInputText text =>
      if remaining_budget st =? 0 then
        {| out := out st; remaining_budget := remaining_budget st;
           omitted_text_items := omitted_text_items st + 1 |}
      else
        let cost := text_cost policy text in
        if cost <=? remaining_budget st then
          {| out := out st ++ [OutInputText text];
             remaining_budget := remaining_budget st - cost;
             omitted_text_items := omitted_text_items st |}
        else
          let snippet := truncate_text text (snippet_policy policy (remaining_budget st)) in
          if str_is_empty snippet then
            {| out := out st; remaining_budget := 0;
               omitted_text_items := omitted_text_items st + 1 |}
          else
            {| out := out st ++ [OutInputText snippet]; remaining_budget := 0;
               omitted_text_items := omitted_text_items st |}
  | OutInputImage image_url detail =>
      {| out := out st ++ [OutInputImage image_url detail];
         remaining_budget := remaining_budget st;
         omitted_text_items := omitted_text_items st |}
  | OutEncryptedContent encrypted_content =>
      {| out := out st ++ [OutEncryptedContent encrypted_content];
         remaining_budget := remaining_budget st;
         omitted_text_items := omitted_text_items st |}
  end.

Definition item_budget (policy : TruncationPolicy) : N :=
  match policy with Bytes _ => byte_budget policy | Tokens _ => token_budget policy end.

Definition omitted_marker (omitted_text_items : N) : string :=
  "[omitted " +:+ (fmt_N omitted_text_items +:+ " text items ...]").

Definition truncate_function_output_items_with_policy
    (items : list FunctionCallOutputContentItem) (policy : TruncationPolicy) :
    list FunctionCallOutputContentItem :=
  let st := fold_left (trunc_step policy) items
              {| out := []; remaining_budget := item_budget policy; omitted_text_items := 0 |} in
  if 0 <? omitted_text_items st
  then out st ++ [OutInputText (omitted_marker (omitted_text_items st))]
  else out st.

(** [approx_tokens_from_byte_count_i64], on [i64]s. *)
Definition approx_tokens_from_byte_count_i64 (bytes : Z) : Z :=
  if (bytes <=? 0)%Z then 0%Z
  else Z.min i64_max (Z.of_N (approx_tokens_from_byte_count (Z.to_N bytes))).

(** ** Texts and numbers *)

Lemma len_app s t : len (s +:+ t) = len s + len t.
Proof. unfold len. rewrite str_len_app. lia. Qed.

Lemma len_0 s : len s = 0 ↔ s = EmptyString.
Proof. unfold len. rewrite <-str_len_0. lia. Qed.

Lemma fits_usize s : fits s → len s <= usize_max.
Proof. intros H. etrans; [exact H|]. by vm_compute. Qed.

Lemma len_concat_app l k : len (concat_str (l ++ k)) = len (concat_str l) + len (concat_str k).
Proof. by rewrite concat_str_app, len_app. Qed.

Lemma len_concat_cons c l : len (concat_str (c :: l)) = len c + len (concat_str l).
Proof. apply len_app. Qed.

Lemma chars_nonempty s : Forall (λ c, 0 < len c) (chars s).
Proof.
  induction s as [s IH] using str_len_ind.
  destruct (decide (s = EmptyString)) as [->|Hne]; [constructor|].
  destruct (chars_step s Hne) as (c & t & -> & -> & Hc & _).
  constructor; [unfold len; lia|]. apply IH. rewrite str_len_app. lia.
Qed.

Lemma length_chars_le l :
  Forall (λ c, 0 < len c) l → N.of_nat (length l) <= len (concat_str l).
Proof.
  induction 1 as [|c l Hc _ IH]; [unfold len; simpl; lia|].
  rewrite len_concat_cons. cbn [length]. lia.
Qed.

Lemma pretty_go_len k x s :
  x < 10 ^ N.of_nat k → len (pretty_N_go x s) <= N.of_nat k + len s.
Proof.
  revert x s. induction k as [|k IH]; intros x s Hx.
  { replace x with 0 by (simpl in Hx; lia). rewrite pretty_N_go_0. lia. }
  destruct (decide (x = 0)) as [->|Hne]; [rewrite pretty_N_go_0; lia|].
  rewrite pretty_N_go_step by lia. etrans; [apply IH|].
  - apply N.Div0.div_lt_upper_bound. rewrite Nat2N.inj_succ, N.pow_succ_r' in Hx. lia.
  - unfold len. simpl. lia.
Qed.

Lemma fmt_N_len n : n <= usize_max → len (fmt_N n) <= 20.
Proof.
  intros Hn. unfold fmt_N, pretty, pretty_N. case_decide; [unfold len; simpl; lia|].
  etrans; [apply (pretty_go_len 20)|unfold len; simpl; lia].
  eapply N.le_lt_trans; [exact Hn|]. reflexivity.
Qed.

Lemma pretty_N_char_ascii n : is_ascii_byte (pretty_N_char n) = true.
Proof. unfold pretty_N_char. repeat case_match; done. Qed.

Lemma utf8_valid_cons_ascii a s :
  is_ascii_byte a = true → utf8_valid (String a s) = utf8_valid s.
Proof.
  intros Ha. unfold utf8_valid. rewrite chars_ascii by done. simpl.
  replace (char_ok (String a EmptyString)) with true; [done|].
  symmetry. unfold char_ok. apply bool_decide_eq_true. unfold utf8_width, is_ascii_byte in *.
  by rewrite Ha.
Qed.

Lemma pretty_go_valid x s : utf8_valid s = true → utf8_valid (pretty_N_go x s) = true.
Proof.
  revert s. induction x as [x IH] using (well_founded_induction N.lt_wf_0). intros s Hs.
  destruct (decide (x = 0)) as [->|Hne]; [by rewrite pretty_N_go_0|].
  rewrite pretty_N_go_step by lia. apply IH.
  - apply N.div_lt; lia.
  - by rewrite utf8_valid_cons_ascii by apply pretty_N_char_ascii.
Qed.

Lemma fmt_N_valid n : utf8_valid (fmt_N n) = true.
Proof. unfold fmt_N, pretty, pretty_N. case_decide; [done|by apply pretty_go_valid]. Qed.

Lemma marker_valid b n : utf8_valid (format_truncation_marker b n) = true.
Proof.
  unfold format_truncation_marker.
  destruct b; repeat apply utf8_valid_app; first [done | apply fmt_N_valid | by vm_compute].
Qed.

Lemma marker_len b n : n <= usize_max → 1 <= len (format_truncation_marker b n) <= 43.
Proof.
  intros Hn%fmt_N_len. unfold format_truncation_marker.
  destruct b; rewrite !len_app; unfold len in *; simpl; lia.
Qed.

(** ** [split_string] keeps whole characters on both sides *)

Section split.
  Context (b t : N).

Lemma split_loop_suffix idx cs st :
  b < idx → t <= idx → suffix_started st = true → Forall (λ c, 0 < len c) cs →
  split_loop b t idx cs st = st.
Proof.
  intros Hb Ht Hst Hcs. revert idx Hb Ht.
  induction Hcs as [|c cs Hc _ IH]; intros idx Hb Ht; [done|].
  simpl. unfold split_step. rewrite (proj2 (N.leb_gt _ _)), (proj2 (N.leb_le _ _)), Hst by lia.
  apply IH; lia.
Qed.

(** What the loop has seen once the beginning is full: [mid] was dropped and [suf] kept. *)
Definition mid_split (idx : N) (mid suf : list string) : Prop :=
  (suf ≠ [] → t <= idx + len (concat_str mid)) ∧
  (∀ m c, mid = m ++ [c] → idx + len (concat_str m) < t).

Definition split_result (idx : N) (st : SplitState) (mid suf : list string) : SplitState :=
  {| prefix_end := prefix_end st;
     suffix_start := match suf with [] => suffix_start st | _ => idx + len (concat_str mid) end;
     removed_chars := N.min usize_max (removed_chars st + N.of_nat (length mid));
     suffix_started := match suf with [] => false | _ => true end |}.

Lemma mid_split_cons idx c mid suf :
  idx < t → mid_split (idx + len c) mid suf → mid_split idx (c :: mid) suf.
Proof.
  intros Hlt [H1 H2]. split.
  - intros Hs. rewrite len_concat_cons. specialize (H1 Hs). lia.
  - intros [|x m] c' Heq; simplify_eq/=; [unfold len; simpl; lia|].
    specialize (H2 m c' eq_refl). rewrite len_app. lia.
Qed.

Lemma split_loop_mid idx cs st :
  (∀ c r, cs = c :: r → b < idx + len c) → suffix_started st = false →
  removed_chars st <= usize_max → Forall (λ c, 0 < len c) cs →
  ∃ mid suf, cs = mid ++ suf ∧ mid_split idx mid suf ∧
    split_loop b t idx cs st = split_result idx st mid suf.
Proof.
  intros Hb Hst Hr Hcs. revert idx st Hb Hst Hr.
  induction Hcs as [|c cs Hc Hcs IH]; intros idx st Hb Hst Hr.
  { exists [], []. split_and!; [done|split; [done|by intros [|? [|]] ??]|].
    unfold split_result. destruct st; simplify_eq/=. f_equal; lia. }
  specialize (Hb _ _ eq_refl). cbn [split_loop]. unfold split_step at 1.
  rewrite (proj2 (N.leb_gt _ _)) by lia.
  destruct (N.leb_spec t idx) as [Ht|Ht].
  - rewrite Hst, split_loop_suffix by (done || lia).
    exists [], (c :: cs). split_and!; [done|split; [unfold len; simpl; lia|by intros [|? [|]] ??]|].
    unfold split_result. f_equal; [unfold len; simpl; lia|simpl; lia].
  - destruct (IH (idx + len c) {| prefix_end := prefix_end st; suffix_start := suffix_start st;
        removed_chars := sat_add (removed_chars st) 1; suffix_started := suffix_started st |})
      as (mid & suf & -> & Hms & Heq).
    { intros c' r _. lia. } { done. } { simpl. unfold sat_add. lia. }
    exists (c :: mid), suf. split_and!; [done|by apply mid_split_cons|].
    rewrite Heq. unfold split_result, sat_add. cbn [prefix_end suffix_start removed_chars].
    rewrite len_concat_cons. f_equal; [destruct suf; lia|cbn [length]; lia].
Qed.

Lemma split_loop_spec idx cs st :
  prefix_end st = idx → idx <= b → suffix_started st = false → removed_chars st <= usize_max →
  Forall (λ c, 0 < len c) cs →
  ∃ pre mid suf, cs = pre ++ mid ++ suf ∧ idx + len (concat_str pre) <= b ∧
    (∀ c r, mid ++ suf = c :: r → b < idx + len (concat_str pre) + len c) ∧
    mid_split (idx + len (concat_str pre)) mid suf ∧
    split_loop b t idx cs st =
      split_result (idx + len (concat_str pre))
        {| prefix_end := idx + len (concat_str pre); suffix_start := suffix_start st;
           removed_chars := removed_chars st; suffix_started := false |} mid suf.
Proof.
  intros Hp Hi Hst Hr Hcs. revert idx st Hp Hi Hst Hr.
  induction Hcs as [|c cs Hc Hcs IH]; intros idx st Hp Hi Hst Hr.
  { exists [], [], []. split_and!; [done|unfold len; simpl; lia|done|
      split; [done|by intros [|? [|]] ??]|].
    unfold split_result. destruct st; simplify_eq/=. f_equal; unfold len; simpl; lia. }
  destruct (N.leb_spec (idx + len c) b) as [Hle|Hgt].
  - cbn [split_loop]. unfold split_step at 1. rewrite (proj2 (N.leb_le _ _)) by done.
    edestruct (IH (idx + len c)) as (pre & mid & suf & -> & H1 & H2 & H3 & H4);
      [| | | |rewrite H4]; [done|lia|done|done|].
    exists (c :: pre), mid, suf. cbn [suffix_start removed_chars].
    rewrite len_concat_cons, N.add_assoc. done.
  - destruct (split_loop_mid idx (c :: cs) st) as (mid & suf & Heq & Hms & ->); [|done|done|by constructor|].
    { intros ???; simplify_eq. lia. }
    exists [], mid, suf. replace (idx + len (concat_str [])) with idx by (unfold len; simpl; lia).
    split_and!; [done|lia|rewrite <-Heq; intros; simplify_eq; lia|done|].
    unfold split_result. by destruct st; simplify_eq/=.
Qed.
End split.

Lemma split_string_eq s b e :
  fits s →
  ∃ pre mid suf, chars s = pre ++ mid ++ suf ∧
    split_string s b e = (N.of_nat (length mid), concat_str pre, concat_str suf) ∧
    len (concat_str pre) <= b ∧ len (concat_str suf) <= e ∧
    (∀ c r, mid = c :: r → b < len (concat_str pre) + len c) ∧
    (∀ r c, mid = r ++ [c] → e < len c + len (concat_str suf)).
Proof.
  intros Hfit. unfold split_string. destruct (str_is_empty s) eqn:He.
  { apply str_is_empty_true in He as ->. exists [], [], [].
    split_and!; try done; try (unfold len; simpl; lia). by intros [|? [|]]. }
  pose proof (chars_nonempty s) as Hne.
  edestruct (split_loop_spec b (len s - e) 0 (chars s)) as
    (pre & mid & suf & Hcs & H1 & H2 & [H3 H4] & ->); [| | | |exact Hne|]; [done|lia|done|done|].
  rewrite N.add_0_l in *. cbn [split_result prefix_end suffix_start removed_chars] in *.
  assert (len s = len (concat_str pre) + (len (concat_str mid) + len (concat_str suf))) as Hlen.
  { rewrite <-(concat_str_chars s) at 1. by rewrite Hcs, !len_concat_app. }
  assert (N.of_nat (length mid) <= usize_max) as Hmid.
  { pose proof (fits_usize s Hfit). etrans; [apply (length_chars_le mid)|lia].
    rewrite Hcs in Hne. by apply Forall_app in Hne as [_ [? _]%Forall_app]. }
  exists pre, mid, suf. split; [done|]. split; [|split; [done|]].
  - replace (match suf with [] => len s | _ :: _ => _ end)
      with (len (concat_str pre) + len (concat_str mid))
      by (destruct suf; [unfold len in *; simpl in *; lia|done]).
    rewrite (proj2 (N.ltb_ge _ _)) by lia.
    assert (s = concat_str pre +:+ (concat_str mid +:+ concat_str suf)) as Hs.
    { by rewrite <-!concat_str_app, <-Hcs, concat_str_chars. }
    f_equal; [f_equal; [lia|]|].
    + rewrite Hs. unfold len. rewrite Nat2N.id. apply str_take_app_len.
    + rewrite Hs, str_app_assoc, <-len_app. unfold len. rewrite Nat2N.id. apply str_drop_app_len.
  - split_and!.
    + destruct suf as [|x suf]; [unfold len; simpl; lia|]. specialize (H3 ltac:(done)). lia.
    + intros c r ->. by eapply H2.
    + intros r c ->. specialize (H4 _ _ eq_refl). rewrite len_concat_app, len_concat_cons in Hlen.
      unfold len in *; simpl in *; lia.
Qed.

(** ** Texts *)

Definition uses_tokens (p : TruncationPolicy) : bool :=
  match p with Bytes _ => false | Tokens _ => true end.

(** The limit of a policy is a [usize]. *)
Definition policy_ok (p : TruncationPolicy) : Prop :=
  match p with Bytes n | Tokens n => n <= usize_max end.

(** What a truncated text is: [pre] and [suf] whole characters of [s] that fill the two
    halves of the budget as far as they go, [mid] what was dropped and the marker counts. *)
Definition middle_cut (s : string) (max_bytes : N) (use_tokens : bool) (r : string) : Prop :=
  ∃ pre mid suf, chars s = pre ++ mid ++ suf ∧ mid ≠ [] ∧
    r = concat_str pre +:+
        (format_truncation_marker use_tokens
           (if use_tokens then approx_tokens_from_byte_count (len s - max_bytes)
            else N.of_nat (length mid)) +:+ concat_str suf) ∧
    len (concat_str pre) <= max_bytes / 2 ∧
    len (concat_str suf) <= max_bytes - max_bytes / 2 ∧
    (∀ c m, mid = c :: m → max_bytes / 2 < len (concat_str pre) + len c) ∧
    (∀ m c, mid = m ++ [c] → max_bytes - max_bytes / 2 < len c + len (concat_str suf)).

Lemma truncate_estimate_fits s n b : len s <= n → truncate_with_byte_estimate s n b = s.
Proof.
  intros Hn. unfold truncate_with_byte_estimate.
  destruct (str_is_empty s) eqn:He; [by apply str_is_empty_true in He as ->|].
  apply str_is_empty_false in He. rewrite <-len_0 in He.
  rewrite (proj2 (N.eqb_neq _ _)) by lia. by rewrite (proj2 (N.leb_le _ _)).
Qed.

Lemma truncate_estimate_cut s n b :
  fits s → n < len s → middle_cut s n b (truncate_with_byte_estimate s n b).
Proof.
  intros Hfit Hn. unfold truncate_with_byte_estimate.
  rewrite (proj2 (str_is_empty_false s)) by (rewrite <-len_0; lia).
  destruct (N.eqb_spec n 0) as [->|Hne].
  - exists [], (chars s), []. rewrite app_nil_r, N.sub_0_r. simpl.
    change (0 / 2) with 0. split_and!; try done; try (unfold len; simpl; lia).
    + intros He. pose proof (concat_str_chars s) as Hc. rewrite He in Hc. simpl in Hc.
      subst s. unfold len in Hn. simpl in Hn. lia.
    + by rewrite str_app_nil_r; destruct b.
    + intros c m He. pose proof (chars_nonempty s) as Hp. rewrite He in Hp.
      inversion Hp; subst. unfold len in *; simpl; lia.
    + intros m c He. pose proof (chars_nonempty s) as Hp. rewrite He in Hp.
      apply Forall_app in Hp as [_ Hp]. inversion Hp; subst. unfold len in *; simpl; lia.
  - rewrite (proj2 (N.leb_gt _ _)) by lia. unfold split_budget.
    destruct (split_string_eq s (n / 2) (n - n / 2) Hfit)
      as (pre & mid & suf & Hcs & -> & H1 & H2 & H3 & H4).
    exists pre, mid, suf. split_and!; try done.
    intros ->. pose proof (concat_str_chars s) as Hc. rewrite Hcs in Hc. simpl in Hc.
    rewrite <-Hc, len_concat_app in Hn.
    assert (n / 2 <= n) by (apply N.Div0.div_le_upper_bound; lia). lia.
Qed.

Lemma truncate_text_fits s p : len s <= byte_budget p → truncate_text s p = s.
Proof.
  intros Hs. destruct p as [n|n]; simpl in *.
  - by apply truncate_estimate_fits.
  - unfold truncate_middle_with_token_budget.
    destruct (str_is_empty s) eqn:He; [by apply str_is_empty_true in He as ->|].
    destruct (_ && _); [done|]. rewrite truncate_estimate_fits by done. by rewrite str_eqb_refl.
Qed.

Lemma truncate_text_cut s p :
  fits s → byte_budget p < len s →
  middle_cut s (byte_budget p) (uses_tokens p) (truncate_text s p).
Proof.
  intros Hfit Hs. destruct p as [n|n]; simpl in *; [by apply truncate_estimate_cut|].
  unfold truncate_middle_with_token_budget.
  rewrite (proj2 (str_is_empty_false s)) by (rewrite <-len_0; lia).
  rewrite (proj2 (N.leb_gt _ _)), andb_false_r by lia.
  destruct (str_eqb _ s); by apply truncate_estimate_cut.
Qed.

Lemma approx_tokens_max n : approx_tokens_from_byte_count n <= usize_max.
Proof.
  unfold approx_tokens_from_byte_count, sat_add, APPROX_BYTES_PER_TOKEN.
  etrans; [apply N.Div0.div_le_upper_bound|reflexivity]. lia.
Qed.

Lemma middle_cut_bounds s n b r :
  fits s → middle_cut s n b r → 1 <= len r <= n + 43 ∧ (utf8_valid s = true → utf8_valid r = true).
Proof.
  intros Hfit (pre & mid & suf & Hcs & Hmid & -> & H1 & H2 & _).
  assert (N.of_nat (length mid) <= usize_max) as Hm.
  { etrans; [|exact (fits_usize s Hfit)]. rewrite <-(concat_str_chars s), Hcs, !len_concat_app.
    pose proof (length_chars_le mid) as Hle. pose proof (chars_nonempty s) as Hne.
    rewrite Hcs in Hne. apply Forall_app in Hne as [_ [Hne%Hle _]%Forall_app]. lia. }
  assert (n / 2 <= n) by (apply N.Div0.div_le_upper_bound; lia). split.
  - rewrite !len_app. match goal with |- context [len (format_truncation_marker ?a ?k)] =>
      pose proof (marker_len a k) as Hml end.
    destruct Hml as [Hm1 Hm2]; [destruct b; [apply approx_tokens_max|done]|]. lia.
  - unfold utf8_valid at 1. rewrite Hcs, !forallb_app. intros [Hp [_ Hs]%andb_true_iff]%andb_true_iff.
    repeat apply utf8_valid_app; auto using utf8_valid_concat, marker_valid.
Qed.

(** A text within the byte budget of a truncation policy is returned as it is;
    any other text becomes a prefix and a suffix of its characters around one marker: the
    prefix takes as many whole characters as half the budget holds, the suffix as many as
    the other half holds, the marker counts exactly the characters dropped (byte policies)
    or the tokens of the bytes beyond the budget (token policies), the result exceeds the
    budget by at most the 43 bytes of the marker, and it is well-formed UTF-8 again. *)
Theorem truncate_text_spec s p :
  fits s →
  (len s <= byte_budget p → truncate_text s p = s) ∧
  (byte_budget p < len s → middle_cut s (byte_budget p) (uses_tokens p) (truncate_text s p)) ∧
  len (truncate_text s p) <= byte_budget p + 43 ∧
  (utf8_valid s = true → utf8_valid (truncate_text s p) = true).
Proof.
  intros Hfit. split; [apply truncate_text_fits|]. split; [by apply truncate_text_cut|].
  destruct (N.le_gt_cases (len s) (byte_budget p)) as [Hle|Hgt].
  - rewrite truncate_text_fits by done. split; [lia|done].
  - pose proof (truncate_text_cut s p Hfit Hgt) as Hc.
    by destruct (middle_cut_bounds _ _ _ _ Hfit Hc) as [[_ ?] ?].
Qed.

Lemma truncate_text_spec_witness :
  fits "abcdéfghij" ∧
  truncate_text "abcdéfghij" (Bytes 5) = "ab…5 chars truncated…hij" ∧
  len (truncate_text "abcdéfghij" (Bytes 5)) <= byte_budget (Bytes 5) + 43.
Proof.
  assert (fits "abcdéfghij") as Hf by (vm_compute; discriminate).
  split; [done|]. split; [by vm_compute|]. apply (truncate_text_spec _ (Bytes 5) Hf).
Defined.

(** [truncate_middle_with_token_budget] tells truncation by comparing texts: it reports a
    token count exactly when its result differs from the text.  With a budget of zero
    tokens the text ["…6 tokens truncated…"] is its own truncation and is reported whole. *)
Lemma token_budget_reports s n :
  let '(r, o) := truncate_middle_with_token_budget s n in
  r = truncate_text s (Tokens n) ∧ (o = None ↔ r = s) ∧
  (∀ k, o = Some k → k = approx_token_count s).
Proof.
  unfold truncate_text, truncate_middle_with_token_budget.
  destruct (str_is_empty s) eqn:He; [by apply str_is_empty_true in He as ->|].
  destruct (_ && _); [done|]. destruct (str_eqb _ s) eqn:Heq; simpl.
  - apply str_eqb_true in Heq. naive_solver.
  - apply str_eqb_false in Heq. naive_solver.
Qed.

Example token_budget_fixpoint :
  truncate_middle_with_token_budget "…6 tokens truncated…" 0 = ("…6 tokens truncated…", None).
Proof. by vm_compute. Qed.

(** ** The content items of a tool output *)

Definition total_cost (p : TruncationPolicy) (items : list FunctionCallOutputContentItem) : N :=
  foldr (λ item n, match item_text item with Some t => text_cost p t + n | None => n end) 0 items.

Definition non_text (items : list FunctionCallOutputContentItem) :
    list FunctionCallOutputContentItem := List.filter (λ item, negb (is_text_item item)) items.

Definition count_text (items : list FunctionCallOutputContentItem) : N :=
  N.of_nat (length (omap item_text items)).

(** The text bytes of a list of content items. *)
Definition text_bytes (items : list FunctionCallOutputContentItem) : N :=
  foldr (λ item n, match item_text item with Some t => len t + n | None => n end) 0 items.

Definition texts_fit (items : list FunctionCallOutputContentItem) : Prop :=
  Forall (λ item, ∀ t, item = OutInputText t → fits t) items.

Lemma div4_bounds n : 4 * (n / 4) <= n < 4 * (n / 4) + 4.
Proof.
  pose proof (N.div_mod n 4 ltac:(done)) as Hn. pose proof (N.mod_lt n 4 ltac:(done)) as Hm.
  generalize dependent (n / 4). generalize dependent (n mod 4). lia.
Qed.

Lemma tokens_of_len s : fits s → len s <= 4 * approx_token_count s ∧ 4 * approx_token_count s <= len s + 3.
Proof.
  intros Hfit. unfold approx_token_count, sat_add, APPROX_BYTES_PER_TOKEN.
  assert (isize_max + 3 <= usize_max) by (by vm_compute).
  rewrite N.min_r by (unfold fits in Hfit; lia). change (4 - 1) with 3.
  pose proof (div4_bounds (len s + 3)). generalize dependent ((len s + 3) / 4). lia.
Qed.

Lemma snippet_bounds p t r :
  fits t → r < text_cost p t →
  1 <= len (truncate_text t (snippet_policy p r)) <= byte_budget (snippet_policy p r) + 43.
Proof.
  intros Hfit Hr. destruct (N.le_gt_cases (len t) (byte_budget (snippet_policy p r))) as [Hle|Hgt].
  - rewrite truncate_text_fits by done. split; [|lia].
    destruct (decide (t = EmptyString)) as [->|Hne]; [|rewrite <-len_0 in Hne; lia].
    destruct p; vm_compute in Hr; by destruct r.
  - pose proof (truncate_text_cut t _ Hfit Hgt) as Hc.
    by destruct (middle_cut_bounds _ _ _ _ Hfit Hc) as [? _].
Qed.

Lemma count_text_cons t items : count_text (OutInputText t :: items) = 1 + count_text items.
Proof.
  unfold count_text. change (omap _ (_ :: items)) with (t :: omap item_text items).
  cbn [length]. lia.
Qed.

Lemma trunc_fold_exhausted p items st :
  remaining_budget st = 0 →
  fold_left (trunc_step p) items st =
    {| out := out st ++ non_text items; remaining_budget := 0;
       omitted_text_items := omitted_text_items st + count_text items |}.
Proof.
  revert st. induction items as [|item items IH]; intros st Hst.
  { destruct st; simplify_eq/=. by rewrite app_nil_r, N.add_0_r. }
  simpl. rewrite IH.
  - destruct item; simpl; rewrite ?Hst; simpl; rewrite <-?app_assoc; [|done..].
    by rewrite count_text_cons, N.add_assoc.
  - destruct item; simpl; rewrite ?Hst; done.
Qed.

(** What the items become: an untouched beginning within the budget, then, from the first
    text that does not fit, the shortened text if budget is left, the items that are not
    texts, and the number of the texts left out. *)
Definition items_cut (p : TruncationPolicy) (items r : list FunctionCallOutputContentItem) : Prop :=
  ∃ kept rest, items = kept ++ rest ∧ total_cost p kept <= item_budget p ∧
    match rest with
    | [] => r = kept
    | OutInputText t :: tl =>
        let left_over := item_budget p - total_cost p kept in
        if left_over =? 0
        then r = kept ++ non_text tl ++ [OutInputText (omitted_marker (1 + count_text tl))]
        else left_over < text_cost p t ∧
             r = kept ++ OutInputText (truncate_text t (snippet_policy p left_over)) ::
                 non_text tl ++
                 (if count_text tl =? 0 then [] else [OutInputText (omitted_marker (count_text tl))])
    | _ => False
    end.

Definition fold_shape (p : TruncationPolicy) (items : list FunctionCallOutputContentItem)
    (st fin : TruncState) : Prop :=
  ∃ kept rest, items = kept ++ rest ∧ total_cost p kept <= remaining_budget st ∧
    let left_over := remaining_budget st - total_cost p kept in
    match rest with
    | [] => fin =
        {| out := out st ++ kept; remaining_budget := left_over;
           omitted_text_items := omitted_text_items st |}
    | OutInputText t :: tl =>
        if left_over =? 0
        then fin =
          {| out := out st ++ kept ++ non_text tl; remaining_budget := 0;
             omitted_text_items := omitted_text_items st + (1 + count_text tl) |}
        else left_over < text_cost p t ∧
          fin =
          {| out := out st ++ kept ++
                      OutInputText (truncate_text t (snippet_policy p left_over)) :: non_text tl;
             remaining_budget := 0;
             omitted_text_items := omitted_text_items st + count_text tl |}
    | _ => False
    end.

(** An item that is kept extends the untouched beginning. *)
Lemma fold_shape_cons p item items st st' fin :
  out st' = out st ++ [item] → omitted_text_items st' = omitted_text_items st →
  remaining_budget st' + total_cost p [item] = remaining_budget st →
  fold_shape p items st' fin → fold_shape p (item :: items) st fin.
Proof.
  intros Ho Hm Hr (kept & rest & -> & Hc & Hrest). exists (item :: kept), rest.
  assert (total_cost p (item :: kept) = total_cost p [item] + total_cost p kept) as Ht.
  { simpl. destruct (item_text item); lia. }
  split; [done|]. rewrite Ht. split; [lia|]. cbv zeta in *.
  replace (remaining_budget st - (total_cost p [item] + total_cost p kept))
    with (remaining_budget st' - total_cost p kept) by lia.
  rewrite Ho, Hm in Hrest. destruct rest as [|[t|u d|e] tl]; [|destruct (_ =? 0)|done..];
    rewrite <-?app_assoc in Hrest; done.
Qed.

Lemma trunc_fold_spec p items st :
  texts_fit items → fold_shape p items st (fold_left (trunc_step p) items st).
Proof.
  intros Hfit. revert st. induction Hfit as [|item items Hi Hfit IH]; intros st.
  { exists [], []. simpl. rewrite N.sub_0_r. split_and!; [done|lia|].
    destruct st; simpl. by rewrite app_nil_r. }
  cbn [fold_left]. destruct item as [t|u d|e].
  2, 3: by eapply fold_shape_cons, IH; [| |simpl; lia].
  simpl. destruct (N.eqb_spec (remaining_budget st) 0) as [Hz|Hz].
  { exists [], (OutInputText t :: items). simpl. rewrite Hz. split_and!; [done|lia|].
    rewrite trunc_fold_exhausted by done. simpl. by rewrite N.add_assoc. }
  destruct (N.leb_spec (text_cost p t) (remaining_budget st)) as [Hc|Hc].
  { eapply fold_shape_cons, IH; [done|done|simpl; lia]. }
  exists [], (OutInputText t :: items). simpl.
  rewrite N.sub_0_r, (proj2 (N.eqb_neq _ _)) by done. split_and!; [done|lia|done|].
  pose proof (snippet_bounds p t _ (Hi t eq_refl) Hc) as [Hs _].
  rewrite (proj2 (str_is_empty_false _)) by (rewrite <-len_0; lia).
  rewrite trunc_fold_exhausted by done. simpl. by rewrite <-app_assoc.
Qed.

Lemma truncate_items_cut p items :
  texts_fit items → items_cut p items (truncate_function_output_items_with_policy items p).
Proof.
  intros Hfit. unfold truncate_function_output_items_with_policy. cbv zeta.
  destruct (trunc_fold_spec p items
    {| out := []; remaining_budget := item_budget p; omitted_text_items := 0 |} Hfit)
    as (kept & rest & Heq & Hc & Hrest). cbn [remaining_budget] in Hc.
  exists kept, rest. split; [done|]. split; [done|]. cbv zeta in *.
  destruct rest as [|[t|u d|e] tl]; [by rewrite Hrest| |done..].
  cbn [remaining_budget out omitted_text_items] in Hrest. destruct (_ =? 0).
  - rewrite Hrest. cbn [out omitted_text_items]. rewrite (proj2 (N.ltb_lt _ _)) by lia.
    by rewrite N.add_0_l, app_nil_l, <-app_assoc.
  - destruct Hrest as [? ->]. split; [done|]. cbn [out omitted_text_items]. rewrite N.add_0_l, app_nil_l.
    destruct (N.eqb_spec (count_text tl) 0) as [Hz|Hz].
    + rewrite Hz. simpl. by rewrite app_nil_r.
    + rewrite (proj2 (N.ltb_lt _ _)) by lia. by rewrite <-app_assoc.
Qed.

Lemma non_text_app l k : non_text (l ++ k) = non_text l ++ non_text k.
Proof. apply List.filter_app. Qed.

Lemma non_text_idem l : non_text (non_text l) = non_text l.
Proof. apply filter_all. intros x. unfold non_text. rewrite list_elem_of_In, filter_In. tauto. Qed.

Lemma text_bytes_app l k : text_bytes (l ++ k) = text_bytes l + text_bytes k.
Proof.
  induction l as [|item l IH]; simpl; [done|]. rewrite IH. destruct (item_text item); lia.
Qed.

Lemma text_bytes_non_text l : text_bytes (non_text l) = 0.
Proof. induction l as [|[t|u d|e] l IH]; done. Qed.

(** The bytes a policy stands for, without saturation. *)
Definition budget_bytes (p : TruncationPolicy) : N :=
  match p with Bytes n => n | Tokens n => 4 * n end.

Lemma kept_bytes p l : texts_fit l → text_bytes l <= budget_bytes (snippet_policy p (total_cost p l)).
Proof.
  induction 1 as [|item l Hi Hl IH]; [destruct p; simpl; lia|].
  destruct item as [t|u d|e]; [|destruct p; done..].
  specialize (Hi t eq_refl). pose proof (tokens_of_len t Hi). destruct p; simpl in *; lia.
Qed.

Lemma texts_fit_app l k : texts_fit (l ++ k) ↔ texts_fit l ∧ texts_fit k.
Proof. apply Forall_app. Qed.

Lemma items_cut_non_text p items r : items_cut p items r → non_text r = non_text items.
Proof.
  intros (kept & rest & -> & _ & Hr). rewrite non_text_app.
  destruct rest as [|[t|u d|e] tl]; [by rewrite Hr; simpl; rewrite app_nil_r| |done..].
  cbv zeta in Hr. destruct (_ =? 0).
  - by rewrite Hr, !non_text_app, non_text_idem; simpl; rewrite app_nil_r.
  - destruct Hr as [_ ->]. rewrite non_text_app. simpl. rewrite non_text_app, non_text_idem.
    destruct (_ =? 0); simpl; by rewrite app_nil_r.
Qed.

Lemma items_cut_fits p items r :
  total_cost p items < item_budget p → items_cut p items r → r = items.
Proof.
  intros Hlt (kept & rest & -> & Hc & Hr).
  assert (∀ l k, total_cost p (l ++ k) = total_cost p l + total_cost p k) as Happ.
  { intros l k. induction l as [|item l IH]; simpl; [done|]. rewrite IH.
    destruct (item_text item); lia. }
  rewrite Happ in Hlt. destruct rest as [|[t|u d|e] tl]; [by rewrite app_nil_r| |done..].
  simpl in Hlt. cbv zeta in Hr. destruct (N.eqb_spec (item_budget p - total_cost p kept) 0); [lia|].
  destruct Hr as [? _]. lia.
Qed.

Lemma omitted_marker_len n : n <= usize_max → len (omitted_marker n) <= 45.
Proof. intros Hn%fmt_N_len. unfold omitted_marker. rewrite !len_app. unfold len in *; simpl; lia. Qed.

Lemma count_text_le l : count_text l <= N.of_nat (length l).
Proof.
  induction l as [|[t|u d|e] l IH]; [done|rewrite count_text_cons|..]; cbn [length].
  2, 3: change (count_text (_ :: l)) with (count_text l). all: lia.
Qed.

Lemma snippet_budget p n : byte_budget (snippet_policy p n) <= budget_bytes (snippet_policy p n).
Proof. destruct p; simpl; unfold approx_bytes_for_tokens, sat_mul, APPROX_BYTES_PER_TOKEN; lia. Qed.

Lemma budget_bytes_split p a b :
  budget_bytes (snippet_policy p a) + budget_bytes (snippet_policy p b) =
  budget_bytes (snippet_policy p (a + b)).
Proof. destruct p; simpl; lia. Qed.

Lemma item_budget_snippet p : snippet_policy p (item_budget p) = p.
Proof. by destruct p. Qed.

Lemma items_cut_bound p items r :
  texts_fit items → N.of_nat (length items) <= usize_max → items_cut p items r →
  text_bytes r <= budget_bytes p + 88.
Proof.
  intros Hfit Hlen (kept & rest & -> & Hc & Hr). apply texts_fit_app in Hfit as [Hk Hrest].
  pose proof (kept_bytes p kept Hk) as Hkb.
  pose proof (budget_bytes_split p (total_cost p kept) (item_budget p - total_cost p kept)) as Hb.
  replace (total_cost p kept + (item_budget p - total_cost p kept)) with (item_budget p) in Hb by lia.
  rewrite item_budget_snippet in Hb. destruct rest as [|[t|u d|e] tl]; [subst; lia| |done..].
  assert (count_text (OutInputText t :: tl) <= usize_max) as Hct.
  { etrans; [apply count_text_le|]. rewrite length_app in Hlen. lia. }
  rewrite count_text_cons in Hct. cbv zeta in Hr. destruct (_ =? 0).
  - rewrite Hr, !text_bytes_app, text_bytes_non_text. simpl.
    pose proof (omitted_marker_len _ Hct). lia.
  - destruct Hr as [Hlt ->]. inversion Hrest as [|? ? Ht _]; subst.
    destruct (snippet_bounds p t _ (Ht t eq_refl) Hlt) as [_ Hs].
    pose proof (snippet_budget p (item_budget p - total_cost p kept)).
    rewrite text_bytes_app. simpl. rewrite text_bytes_app, text_bytes_non_text.
    destruct (_ =? 0); simpl; [lia|]. pose proof (omitted_marker_len (count_text tl) ltac:(lia)). lia.
Qed.

(** Truncating the content items of a tool output never touches or reorders an
    image or an encrypted item; the items up to the first text beyond the budget come out
    untouched, that text is shortened to what is left of the budget, the later texts are
    replaced by one line with their number ([items_cut]); a list whose texts cost less than
    the budget is returned as it is; and the text of the result is bounded by the budget
    plus 88 bytes of markers. *)
Theorem truncate_items_spec p items :
  texts_fit items → N.of_nat (length items) <= usize_max →
  let r := truncate_function_output_items_with_policy items p in
  non_text r = non_text items ∧ items_cut p items r ∧
  (total_cost p items < item_budget p → r = items) ∧
  text_bytes r <= budget_bytes p + 88.
Proof.
  intros Hfit Hlen r. pose proof (truncate_items_cut p items Hfit) as Hcut.
  split_and!; eauto using items_cut_non_text, items_cut_fits, items_cut_bound.
Qed.

Definition sample_items : list FunctionCallOutputContentItem :=
  [OutInputText "abcdef"; OutInputImage "u" None; OutInputText "ghijkl"; OutInputText "mn"].

Lemma truncate_items_spec_witness :
  truncate_function_output_items_with_policy sample_items (Bytes 8) =
    [OutInputText "abcdef"; OutInputImage "u" None;
     OutInputText "g…4 chars truncated…l"; OutInputText "[omitted 1 text items ...]"] ∧
  text_bytes (truncate_function_output_items_with_policy sample_items (Bytes 8)) <= 8 + 88.
Proof.
  split; [by vm_compute|].
  apply (truncate_items_spec (Bytes 8) sample_items); [|vm_compute; discriminate].
  repeat constructor; intros t Ht; simplify_eq; vm_compute; discriminate.
Defined.

(** The combined form keeps the items that are not texts, too, and reports a token count
    exactly when it replaced the texts. *)
Lemma formatted_items_spec items p :
  let '(r, o) := formatted_truncate_text_content_items_with_policy items p in
  non_text r = non_text items ∧
  (o = None → r = items) ∧
  (is_Some o ↔ byte_budget p < len (combine_segments (omap item_text items))).
Proof.
  unfold formatted_truncate_text_content_items_with_policy.
  destruct (omap item_text items) eqn:E.
  { split_and!; [done..|]. split; [by intros [??]|]. intros H.
    change (len _) with 0 in H. lia. }
  destruct (N.leb_spec (len (combine_segments (s :: l))) (byte_budget p)) as [Hle|Hgt].
  - split_and!; [done..|]. split; [by intros [??]|lia].
  - split_and!; [|done|split; [done|eauto]].
    simpl. fold (non_text items). apply non_text_idem.
Qed.
