(* ===== verification/Fragments.v ===== *)
(** * Contextual fragments

    How core marks the messages it injects itself and recognises them again:
    codex-rs/context-fragments/src/fragment.rs and additional_context.rs, the fragment
    types of codex-rs/core/src/context/ and codex-rs/core-skills/src/skill_instructions.rs,
    the registry in core/src/context/contextual_user_message.rs and the predicates of
    core/src/event_mapping.rs.

    The XML reader that recognises hook prompts is a parameter ([HookXml]).  A fragment
    carries, already rendered, the parts whose text comes from code outside these files:
    the body of an environment context, a duration printed with four decimals and the JSON
    text of a subagent notification. *)

From S2P Require Import Prelude Str Utf8 Json Protocol OutputTrunc.

(** ** [str] operations *)

(** [s.get(..n)] and [s.get(n..)] *)
Definition get_to (n : nat) (s : string) : option string :=
  if is_char_boundary s n then Some (str_take n s) else None.

Definition get_from (n : nat) (s : string) : option string :=
  if is_char_boundary s n then Some (str_drop n s) else None.

(** [str::eq_ignore_ascii_case] *)
Definition eq_ignore_ascii_case (s t : string) : bool :=
  str_eqb (ascii_lowercase s) (ascii_lowercase t).

(** [Option::is_some_and] *)
Definition is_some_and {A} (o : option A) (f : A → bool) : bool :=
  match o with Some a => f a | None => false end.

(** [str::split_once] *)
Definition split_once (sep s : string) : option (string * string) :=
  match find sep s with
  | Some n => Some (str_take n s, str_drop (n + String.length sep) s)
  | None => None
  end.

(** ** fragment.rs *)

Definition matches_marked_text (start_marker end_marker text : string) : bool :=
  if str_is_empty start_marker || str_is_empty end_marker then false
  else
    let trimmed := trim_start text in
    let starts_with_marker :=
      is_some_and (get_to (String.length start_marker) trimmed)
        (λ candidate, eq_ignore_ascii_case candidate start_marker) in
    let trimmed := trim_end trimmed in
    let ends_with_marker :=
      is_some_and (get_from (String.length trimmed - String.length end_marker) trimmed)
        (λ candidate, eq_ignore_ascii_case candidate end_marker) in
    starts_with_marker && ends_with_marker.

(** ** The fragments *)

Inductive Fragment :=
| UserInstructions (directory : option string) (text : string)
| EnvironmentContext (rendered : string)
| AdditionalContextUserFragment (key value : string)
| SkillInstructions (name path contents : string)
| UserShellCommand (command : string) (exit_code : Z) (duration output : string)
| TurnAborted (guidance : string)
| SubagentNotification (json : string)
| InternalModelContextFragment (source fbody : string)
| RecommendedPluginsInstructions (plugins : list (string * string)).

Definition CONTEXT_START_MARKER : string := "<codex_internal_context".
Definition CONTEXT_END_MARKER : string := "</codex_internal_context>".
Definition LEGACY_GOAL_CONTEXT_START_MARKER : string := "<goal_context>".
Definition LEGACY_GOAL_CONTEXT_END_MARKER : string := "</goal_context>".
Definition SOURCE_ATTR_START : string := " source=" +:+ String double_quote EmptyString.
Definition SOURCE_ATTR_END : string := String double_quote ">".
Definition ADDITIONAL_CONTEXT_START_MARKER_PREFIX : string := "<external_".
Definition ADDITIONAL_CONTEXT_END_MARKER_SUFFIX : string := ">".
Definition MAX_ADDITIONAL_CONTEXT_VALUE_TOKENS : N := 1000.

Definition RECOMMENDED_PLUGINS_INTRO : string :=
  "Here is a list of plugins that are available but not installed. If the user's query would benefit from one of these plugins, use the `request_plugin_install` tool to suggest that they install it. Pass the parenthesized ID as `plugin_id`. For example, suggest the Google Drive plugin if the query could possibly be better answered with access to Google Drive.".

(** [type_markers] of the fragments that use the default matcher *)
Definition user_instructions_markers : string * string := ("# AGENTS.md instructions", "</INSTRUCTIONS>").
Definition environment_context_markers : string * string := ("<environment_context>", "</environment_context>").
Definition skill_instructions_markers : string * string := ("<skill>", "</skill>").
Definition user_shell_command_markers : string * string := ("<user_shell_command>", "</user_shell_command>").
Definition turn_aborted_markers : string * string := ("<turn_aborted>", "</turn_aborted>").
Definition subagent_notification_markers : string * string := ("<subagent_notification>", "</subagent_notification>").
Definition recommended_plugins_instructions_markers : string * string := ("<recommended_plugins>", "</recommended_plugins>").

(** [matches_text] with the default implementation *)
Definition matches_markers (m : string * string) (text : string) : bool :=
  matches_marked_text (fst m) (snd m) text.

(** [ContextualUserFragment::markers], by the kind of fragment *)
Definition markers (f : Fragment) : string * string :=
  match f with
  | UserInstructions _ _ => user_instructions_markers
  | EnvironmentContext _ => environment_context_markers
  | AdditionalContextUserFragment _ _ =>
      (ADDITIONAL_CONTEXT_START_MARKER_PREFIX, ADDITIONAL_CONTEXT_END_MARKER_SUFFIX)
  | SkillInstructions _ _ _ => skill_instructions_markers
  | UserShellCommand _ _ _ _ => user_shell_command_markers
  | TurnAborted _ => turn_aborted_markers
  | SubagentNotification _ => subagent_notification_markers
  | InternalModelContextFragment _ _ => (CONTEXT_START_MARKER, CONTEXT_END_MARKER)
  | RecommendedPluginsInstructions _ => recommended_plugins_instructions_markers
  end.

Definition additional_context_body (key value : string) : string :=
  let value := fst (truncate_middle_with_token_budget value MAX_ADDITIONAL_CONTEXT_VALUE_TOKENS) in
  key +:+ (">" +:+ (value +:+ ("</external_" +:+ key))).

Definition user_instructions_body (directory : option string) (text : string) : string :=
  let directory := match directory with Some d => " for " +:+ d | None => EmptyString end in
  directory +:+ (NL +:+ (NL +:+ ("<INSTRUCTIONS>" +:+ (NL +:+ (text +:+ NL))))).

Definition skill_body (name path contents : string) : string :=
  NL +:+ ("<name>" +:+ (name +:+ ("</name>" +:+ (NL +:+ ("<path>" +:+ (path +:+
    ("</path>" +:+ (NL +:+ (contents +:+ NL))))))))).

Definition user_shell_command_body (command : string) (exit_code : Z) (duration output : string) :
    string :=
  NL +:+ ("<command>" +:+ (NL +:+ (command +:+ (NL +:+ ("</command>" +:+ (NL +:+ ("<result>" +:+
    (NL +:+ ("Exit code: " +:+ (pretty exit_code +:+ (NL +:+ ("Duration: " +:+ (duration +:+
      (" seconds" +:+ (NL +:+ ("Output:" +:+ (NL +:+ (output +:+ (NL +:+ ("</result>" +:+
        NL)))))))))))))))))))).

Definition internal_context_body (source fbody : string) : string :=
  SOURCE_ATTR_START +:+ (source +:+ (SOURCE_ATTR_END +:+ (NL +:+ (fbody +:+ NL)))).

Definition recommended_plugins_body (plugins : list (string * string)) : string :=
  let plugins := join NL ((λ '(name, id), "- " +:+ (name +:+ (" (" +:+ (id +:+ ")")))) <$> plugins) in
  NL +:+ (RECOMMENDED_PLUGINS_INTRO +:+ (NL +:+ (NL +:+ (plugins +:+ NL)))).

Definition turn_aborted_body (guidance : string) : string := NL +:+ (guidance +:+ NL).
Definition subagent_notification_body (json : string) : string := NL +:+ (json +:+ NL).

(** [ContextualUserFragment::body], by the kind of fragment *)
Definition fragment_body (f : Fragment) : string :=
  match f with
  | UserInstructions directory text => user_instructions_body directory text
  | EnvironmentContext rendered => rendered
  | AdditionalContextUserFragment key value => additional_context_body key value
  | SkillInstructions name path contents => skill_body name path contents
  | UserShellCommand command exit_code duration output =>
      user_shell_command_body command exit_code duration output
  | TurnAborted guidance => turn_aborted_body guidance
  | SubagentNotification json => subagent_notification_body json
  | InternalModelContextFragment source fbody => internal_context_body source fbody
  | RecommendedPluginsInstructions plugins => recommended_plugins_body plugins
  end.

(** [ContextualUserFragment::render] *)
Definition render (f : Fragment) : string :=
  let '(start_marker, end_marker) := markers f in
  let body := fragment_body f in
  if str_is_empty start_marker && str_is_empty end_marker then body
  else start_marker +:+ (body +:+ end_marker).

(** [ContextualUserFragment::into]; every fragment of the registry has the role user. *)
Definition into_response_item (f : Fragment) : ResponseItem :=
  Message None "user" [InputText (render f)] None None.

(** ** Recognising *)

Definition matches_additional_context (text : string) : bool :=
  match strip_prefix ADDITIONAL_CONTEXT_START_MARKER_PREFIX (trim text) with
  | None => false
  | Some rest =>
      match split_once ADDITIONAL_CONTEXT_END_MARKER_SUFFIX rest with
      | None => false
      | Some (key, value_and_close) => ends_with ("</external_" +:+ (key +:+ ">")) value_and_close
      end
  end.

(** [first.is_ascii_lowercase() && chars.all(..)], on the bytes: every character the test
    accepts is one byte. *)
Definition is_valid_source (source : string) : bool :=
  match as_bytes source with
  | [] => false
  | first :: rest =>
      is_ascii_lower first &&
      forallb (λ ch, is_ascii_lower ch || is_ascii_digit ch || byte_eqb ch "_"%char) rest
  end.

Definition matches_legacy_goal_context (text : string) : bool :=
  starts_with LEGACY_GOAL_CONTEXT_START_MARKER text &&
  ends_with LEGACY_GOAL_CONTEXT_END_MARKER text.

Definition matches_internal_context (text : string) : bool :=
  let trimmed := trim text in
  if matches_legacy_goal_context trimmed then true
  else
    match strip_prefix CONTEXT_START_MARKER trimmed with
    | None => false
    | Some rest =>
        match strip_prefix SOURCE_ATTR_START rest with
        | None => false
        | Some rest =>
            match split_once SOURCE_ATTR_END rest with
            | None => false
            | Some (source, body_and_close) =>
                is_valid_source source && ends_with CONTEXT_END_MARKER body_and_close
            end
        end
    end.

Definition matches_process_limit_warning (text : string) : bool :=
  starts_with "Warning: The maximum number of unified exec processes you can keep open is" (trim text).

Definition matches_apply_patch_warning (text : string) : bool :=
  let trimmed := trim text in
  starts_with "Warning: apply_patch was requested via " trimmed &&
  ends_with "Use the apply_patch tool instead of exec_command." trimmed.

Definition matches_model_mismatch_warning (text : string) : bool :=
  starts_with "Warning: Your account was flagged for potentially high-risk cyber activity" (trim text).

(** [CONTEXTUAL_USER_FRAGMENTS], each entry by its [matches_text] *)
Definition CONTEXTUAL_USER_FRAGMENTS : list (string → bool) :=
  [ matches_markers user_instructions_markers;
    matches_markers environment_context_markers;
    matches_additional_context;
    matches_markers skill_instructions_markers;
    matches_markers user_shell_command_markers;
    matches_markers turn_aborted_markers;
    matches_markers subagent_notification_markers;
    matches_internal_context;
    matches_markers recommended_plugins_instructions_markers;
    matches_process_limit_warning;
    matches_apply_patch_warning;
    matches_model_mismatch_warning ].

Definition is_standard_contextual_user_text (text : string) : bool :=
  existsb (λ matches_text, matches_text text) CONTEXTUAL_USER_FRAGMENTS.

(** [from_xml_str::<HookPromptXml>]: the text and the hook run id it reads. *)
Class HookXml := from_xml_str : string → option (string * string).

Definition parse_hook_prompt_fragment `{HookXml} (text : string) : option (string * string) :=
  match from_xml_str (trim text) with
  | Some (text, hook_run_id) =>
      if str_is_empty (trim hook_run_id) then None else Some (text, hook_run_id)
  | None => None
  end.

Definition is_contextual_user_fragment `{HookXml} (content_item : ContentItem) : bool :=
  match content_item with
  | InputText text =>
      bool_decide (is_Some (parse_hook_prompt_fragment text)) ||
      is_standard_contextual_user_text text
  | _ => false
  end.

(** ** event_mapping.rs *)

Definition CONTEXTUAL_DEVELOPER_PREFIXES : list string :=
  ["<permissions instructions>"; "<model_switch>"; "<collaboration_mode>"; "<multi_agent_mode>";
   "<realtime_conversation>"; "<skills_instructions>"; "<personality_spec>"; "<token_budget>";
   "<rollout_budget>"].

Definition is_contextual_dev_fragment (content_item : ContentItem) : bool :=
  match content_item with
  | InputText text =>
      let trimmed := trim_start text in
      existsb (λ prefix,
        is_some_and (get_to (String.length prefix) trimmed)
          (λ candidate, eq_ignore_ascii_case candidate prefix))
        CONTEXTUAL_DEVELOPER_PREFIXES
  | _ => false
  end.

Definition is_contextual_user_message_content `{HookXml} (message : list ContentItem) : bool :=
  existsb is_contextual_user_fragment message.

Definition is_contextual_dev_message_content (message : list ContentItem) : bool :=
  existsb is_contextual_dev_fragment message.

Definition has_non_contextual_dev_message_content (message : list ContentItem) : bool :=
  existsb (λ content_item, negb (is_contextual_dev_fragment content_item)) message.

(** ** What core renders it recognises *)

Lemma get_to_app s t : utf8_valid t = true → get_to (String.length s) (s +:+ t) = Some s.
Proof. intros Ht. unfold get_to. by rewrite boundary_app, str_take_app_len. Qed.

Lemma get_from_app s t :
  utf8_valid t = true →
  get_from (String.length (s +:+ t) - String.length t) (s +:+ t) = Some t.
Proof.
  intros Ht. replace (_ - _) with (String.length s) by (rewrite str_len_app; lia).
  unfold get_from. by rewrite boundary_app, str_drop_app_len.
Qed.

Lemma eq_ignore_ascii_case_refl s : eq_ignore_ascii_case s s = true.
Proof. apply str_eqb_refl. Qed.

(** A marker pair: a visible ASCII character first, a clean end, well-formed text. *)
Definition marker_pair (s e : string) : bool :=
  match s with
  | String a _ => is_ascii_byte a && negb (is_whitespace (String a EmptyString))
  | EmptyString => false
  end && utf8_valid s && utf8_valid e && ends_clean e.

Section marked.
  Context (s e b : string).
  Hypothesis Hp : marker_pair s e = true.
  Hypothesis Hb : utf8_valid b = true.

Lemma marked_facts :
  utf8_valid s = true ∧ utf8_valid e = true ∧ ends_clean e = true ∧
  ∃ a r, s = String a r ∧ is_ascii_byte a = true ∧ is_whitespace (String a EmptyString) = false.
Proof.
  revert Hp. unfold marker_pair. destruct s as [|a r]; [done|].
  intros [[[[? ?%negb_true_iff]%andb_true_iff ?]%andb_true_iff ?]%andb_true_iff ?]%andb_true_iff.
  eauto 10.
Qed.

Lemma marked_clean : ends_clean (s +:+ (b +:+ e)) = true.
Proof. destruct marked_facts as (? & ? & ? & _). auto using ends_clean_app. Qed.

Lemma trim_start_marked : trim_start (s +:+ (b +:+ e)) = s +:+ (b +:+ e).
Proof.
  destruct marked_facts as (_ & _ & _ & a & r & -> & Ha & Hw). rewrite str_app_cons.
  unfold trim_start. rewrite chars_ascii by done. simpl. rewrite Hw. simpl.
  by rewrite concat_str_chars.
Qed.

Lemma trim_marked : trim (s +:+ (b +:+ e)) = s +:+ (b +:+ e).
Proof.
  pose proof (trim_end_clean _ marked_clean) as Ht.
  destruct marked_facts as (_ & _ & _ & a & r & -> & Ha & Hw). rewrite str_app_cons in *.
  by rewrite trim_visible.
Qed.

Lemma matches_marked : matches_marked_text s e (s +:+ (b +:+ e)) = true.
Proof.
  destruct marked_facts as (Hs & He & Hc & a & r & Heq & _).
  unfold matches_marked_text. apply ends_clean_nonempty in Hc as Hne.
  rewrite (proj2 (str_is_empty_false s)), (proj2 (str_is_empty_false e)) by (subst; done).
  rewrite trim_start_marked. simpl. rewrite (trim_end_clean _ marked_clean).
  rewrite get_to_app by auto using utf8_valid_app. rewrite str_app_assoc, get_from_app by done.
  simpl. by rewrite !eq_ignore_ascii_case_refl.
Qed.
End marked.

Lemma find_fresh a n k r :
  contains_char a k = false → find (String a n) (k +:+ (String a n +:+ r)) = Some (String.length k).
Proof.
  induction k as [|c k IH]; intros Hk.
  - rewrite str_app_nil_l. pose proof (starts_with_app (String a n) r) as H.
    rewrite str_app_cons in *. cbn [find]. by rewrite H.
  - rewrite contains_char_cons, orb_false_iff in Hk. destruct Hk as [Hc Hk].
    rewrite str_app_cons. simpl. rewrite IH by done.
    destruct (starts_with _ _) eqn:E; [|done]. apply starts_with_true in E as [t Ht].
    rewrite str_app_cons in Ht. injection Ht as -> _. by rewrite byte_eqb_refl in Hc.
Qed.

Lemma split_once_fresh a n k r :
  contains_char a k = false → split_once (String a n) (k +:+ (String a n +:+ r)) = Some (k, r).
Proof.
  intros Hk. unfold split_once. rewrite find_fresh by done.
  rewrite str_take_app_len, str_app_assoc, <-str_len_app. by rewrite str_drop_app_len.
Qed.

Lemma strip_prefix_app p r : strip_prefix p (p +:+ r) = Some r.
Proof. by apply strip_prefix_some. Qed.

Lemma ends_with_app r p : ends_with p (r +:+ p) = true.
Proof. apply ends_with_true. eauto. Qed.

Lemma valid_source_no_quote s : is_valid_source s = true → contains_char double_quote s = false.
Proof.
  unfold is_valid_source, contains_char. destruct (as_bytes s) as [|f r]; [done|].
  intros [Hf Hr]%andb_true_iff. simpl. apply orb_false_iff. split.
  - apply not_true_iff_false. by intros <-%byte_eqb_true.
  - induction r as [|c r IH]; [done|]. simpl in *. apply andb_true_iff in Hr as [Hc Hr].
    rewrite IH by done. rewrite orb_false_r. apply not_true_iff_false. by intros <-%byte_eqb_true.
Qed.

Definition valid (s : string) : Prop := utf8_valid s = true.

(** The fields are texts (and fit in memory); the key of an additional context holds no
    closing bracket; the source of an internal context passed [InternalContextSource::new]. *)
Definition well_formed (f : Fragment) : Prop :=
  match f with
  | UserInstructions directory text => valid (default EmptyString directory) ∧ valid text
  | EnvironmentContext rendered => valid rendered
  | AdditionalContextUserFragment key value =>
      contains_char ">"%char key = false ∧ valid key ∧ valid value ∧ fits value
  | SkillInstructions name path contents => valid name ∧ valid path ∧ valid contents
  | UserShellCommand command _ duration output => valid command ∧ valid duration ∧ valid output
  | TurnAborted guidance => valid guidance
  | SubagentNotification json => valid json
  | InternalModelContextFragment source fbody =>
      is_valid_source source = true ∧ valid source ∧ valid fbody
  | RecommendedPluginsInstructions plugins =>
      Forall (λ p, valid (fst p) ∧ valid (snd p)) plugins
  end.

Lemma pretty_Z_valid (z : Z) : utf8_valid (pretty z) = true.
Proof.
  destruct z as [|p|p]; [done|apply (fmt_N_valid (Npos p))|].
  apply (utf8_valid_app "-"); [done|apply (fmt_N_valid (Npos p))].
Qed.

Ltac solve_valid :=
  repeat match goal with
  | |- utf8_valid (_ +:+ _) = true => apply utf8_valid_app
  end; try assumption; try exact eq_refl.

Lemma fragment_body_valid f : well_formed f → utf8_valid (fragment_body f) = true.
Proof.
  destruct f; simpl; intros Hf; repeat match goal with H : _ ∧ _ |- _ => destruct H end.
  - unfold user_instructions_body. destruct directory; solve_valid.
  - done.
  - unfold additional_context_body. solve_valid.
    by apply (truncate_text_spec value (Tokens MAX_ADDITIONAL_CONTEXT_VALUE_TOKENS)).
  - unfold skill_body. solve_valid.
  - unfold user_shell_command_body. solve_valid. apply pretty_Z_valid.
  - unfold turn_aborted_body. solve_valid.
  - unfold subagent_notification_body. solve_valid.
  - unfold internal_context_body. solve_valid.
  - unfold recommended_plugins_body. solve_valid. apply join_valid.
    apply Forall_fmap. eapply Forall_impl; [exact Hf|]. intros [n i] [Hn Hi]. simpl in *. solve_valid.
Qed.

Lemma render_eq f : render f = fst (markers f) +:+ (fragment_body f +:+ snd (markers f)).
Proof. by destruct f. Qed.

Lemma markers_pair f : marker_pair (fst (markers f)) (snd (markers f)) = true.
Proof. destruct f; vm_refl. Qed.

Lemma additional_context_recognised key value :
  well_formed (AdditionalContextUserFragment key value) →
  matches_additional_context (render (AdditionalContextUserFragment key value)) = true.
Proof.
  intros Hf. pose proof (fragment_body_valid _ Hf) as Hb. destruct Hf as (Hk & _).
  unfold matches_additional_context. rewrite render_eq.
  rewrite trim_marked by (done || apply markers_pair). cbn [markers fst snd].
  rewrite strip_prefix_app. cbn [fragment_body]. unfold additional_context_body. cbv zeta.
  rewrite <-!str_app_assoc. unfold ADDITIONAL_CONTEXT_END_MARKER_SUFFIX at 1.
  rewrite split_once_fresh by done. apply ends_with_app.
Qed.

Lemma internal_context_recognised source fbody :
  well_formed (InternalModelContextFragment source fbody) →
  matches_internal_context (render (InternalModelContextFragment source fbody)) = true.
Proof.
  intros Hf. pose proof (fragment_body_valid _ Hf) as Hb. destruct Hf as (Hs & _).
  unfold matches_internal_context. rewrite render_eq.
  rewrite trim_marked by (done || apply markers_pair). cbn [markers fst snd].
  destruct (matches_legacy_goal_context _); [done|].
  rewrite strip_prefix_app. cbn [fragment_body]. unfold internal_context_body.
  rewrite <-!str_app_assoc, strip_prefix_app. unfold SOURCE_ATTR_END at 2.
  unfold SOURCE_ATTR_END. rewrite split_once_fresh by by apply valid_source_no_quote.
  rewrite Hs, !str_app_assoc. apply ends_with_app.
Qed.

Lemma standard_text_intro f text :
  f ∈ CONTEXTUAL_USER_FRAGMENTS → f text = true → is_standard_contextual_user_text text = true.
Proof. intros Hf Ht. apply existsb_exists. exists f. by rewrite <-list_elem_of_In. Qed.

(** Every message core injects itself is recognised again when the history is
    read: for each of the nine kinds of contextual fragment that are still produced, the
    user message its rendering becomes counts as contextual, whatever texts it carries
    (an additional-context key must not hold a closing bracket, and the source of an
    internal context must be one its constructor accepts). *)
Theorem rendered_fragment_recognised `{HookXml} f :
  well_formed f →
  ∃ content, into_response_item f = Message None "user" content None None ∧
    is_contextual_user_message_content content = true.
Proof.
  intros Hf. eexists. split; [reflexivity|]. simpl. rewrite orb_false_r. apply orb_true_iff. right.
  pose proof (fragment_body_valid _ Hf) as Hb. pose proof (markers_pair f) as Hm.
  pose proof (matches_marked _ _ _ Hm Hb) as Hmm. rewrite <-render_eq in Hmm.
  destruct f; try (eapply standard_text_intro; [|exact Hmm];
    apply list_elem_of_In; simpl; tauto).
  - eapply standard_text_intro, additional_context_recognised; [|done].
    apply list_elem_of_In. simpl. tauto.
  - eapply standard_text_intro, internal_context_recognised; [|done].
    apply list_elem_of_In. simpl. tauto.
Qed.

Lemma rendered_fragment_recognised_witness :
  ∃ content, into_response_item (AdditionalContextUserFragment "ide" "café")
    = Message None "user" content None None ∧
  @is_contextual_user_message_content (λ _, None) content = true.
Proof.
  apply (@rendered_fragment_recognised (λ _, None) (AdditionalContextUserFragment "ide" "café")).
  unfold well_formed, valid. split_and!; [vm_refl..|]. vm_compute. discriminate.
Defined.

(** A key with a closing bracket is the case left out: its fragment is not recognised. *)
Example additional_context_bracket_key :
  matches_additional_context (render (AdditionalContextUserFragment "a>b" "v")) = false.
Proof. vm_refl. Qed.

(** ** What is not recognised *)

Lemma trim_prefix s : ∃ r, trim_start s = trim s +:+ r.
Proof.
  unfold trim_start, trim. set (k := drop_while is_whitespace (chars s)).
  exists (concat_str (reverse (take_while is_whitespace (reverse k)))).
  by rewrite <-concat_str_app, <-reverse_app, take_drop_while, reverse_involutive.
Qed.

(** The first byte of a text, white space aside. *)
Definition first_visible (s : string) : option ascii :=
  match trim_start s with String a _ => Some a | EmptyString => None end.

Lemma first_visible_trim s a r :
  starts_with (String a r) (trim s) = true → first_visible s = Some a.
Proof.
  intros [t Ht]%starts_with_true. destruct (trim_prefix s) as [u Hu]. unfold first_visible.
  rewrite Hu, Ht. by rewrite !str_app_cons.
Qed.

Lemma lower_byte_fix a b :
  lower_byte a = lower_byte b → is_ascii_upper b = false → is_ascii_lower b = false → a = b.
Proof.
  unfold lower_byte. intros Heq Hu Hl. rewrite Hu in Heq.
  destruct (is_ascii_upper a) eqn:Ha; [|done]. exfalso. subst b. revert Ha Hl.
  clear. destruct a as [[] [] [] [] [] [] [] []]; vm_compute; intros; discriminate.
Qed.

Lemma marked_first e t a r :
  matches_marked_text (String a r) e t = true → is_ascii_upper a = false →
  is_ascii_lower a = false → first_visible t = Some a.
Proof.
  intros Hm Hu Hl. revert Hm. unfold matches_marked_text. destruct (_ || _); [done|]. cbv zeta.
  intros [Hs _]%andb_true_iff. unfold first_visible, get_to in *.
  destruct (is_char_boundary _ _); [|done]. simpl in Hs.
  destruct (trim_start t) as [|b u]; [done|]. simpl in Hs. unfold eq_ignore_ascii_case in Hs.
  apply str_eqb_true in Hs. unfold ascii_lowercase in Hs. simpl in Hs. injection Hs as Hs _.
  f_equal. by apply lower_byte_fix.
Qed.

Lemma strip_prefix_starts p s r : strip_prefix p s = Some r → starts_with p s = true.
Proof. intros H. apply starts_with_true. exists r. by apply strip_prefix_some. Qed.

(** A user text is never mistaken for injected context unless its first visible
    character is an opening bracket, a hash or the [W] of an old warning, or the XML reader
    takes it for a hook prompt: any other text starts a user turn of its own. *)
Theorem plain_text_not_contextual `{HookXml} text :
  first_visible text ∉ [Some "<"%char; Some "#"%char; Some "W"%char] →
  from_xml_str (trim text) = None →
  is_contextual_user_fragment (InputText text) = false.
Proof.
  intros Hf Hx. apply not_true_iff_false. intros Hc. simpl in Hc.
  unfold parse_hook_prompt_fragment in Hc. rewrite Hx in Hc. simpl in Hc. apply Hf.
  clear Hf Hx. rewrite list_elem_of_In. unfold is_standard_contextual_user_text in Hc.
  apply existsb_exists in Hc as (m & Hm & Ht). simpl in Hm.
  destruct_or!; subst m; try done;
    try (unfold matches_markers in Ht; cbn [fst snd] in Ht; apply marked_first in Ht; [|done..];
      rewrite Ht; simpl; tauto).
  - unfold matches_additional_context in Ht. destruct (strip_prefix _ _) eqn:E; [|done].
    apply strip_prefix_starts in E. rewrite (first_visible_trim _ _ _ E). simpl; tauto.
  - unfold matches_internal_context in Ht. destruct (matches_legacy_goal_context _) eqn:E.
    + apply andb_true_iff in E as [E _].
      rewrite (first_visible_trim _ _ _ E). simpl; tauto.
    + destruct (strip_prefix _ _) eqn:E'; [|done]. apply strip_prefix_starts in E'.
      rewrite (first_visible_trim _ _ _ E'). simpl; tauto.
  - rewrite (first_visible_trim _ _ _ Ht). simpl; tauto.
  - apply andb_true_iff in Ht as [Ht _].
    rewrite (first_visible_trim _ _ _ Ht). simpl; tauto.
  - rewrite (first_visible_trim _ _ _ Ht). simpl; tauto.
Qed.

Lemma plain_text_not_contextual_witness :
  @is_contextual_user_fragment (λ _, None) (InputText "please fix <environment_context> parsing") = false.
Proof.
  apply (@plain_text_not_contextual (λ _, None) "please fix <environment_context> parsing");
    [|done].
  change (first_visible _) with (Some "p"%char). rewrite list_elem_of_In. simpl. intuition congruence.
Defined.
