(* ===== verification/Normalize.v ===== *)
(** * Normalising the history

    codex-rs/core/src/context_manager/normalize.rs.

    [error_or_panic] (core/src/util.rs) panics in a debug build and logs an error in a
    release build.  The operations here are the release ones; each returns, next to the
    items, the messages it hands to [error_or_panic], in order, so that a history for which
    that list is empty is one a debug build accepts, too. *)

From S2P Require Import Prelude Str Json Protocol.

Definition aborted : FunctionCallOutputPayload := {| body := BodyText "aborted"; success := None |}.

(** ** The call ids of a history *)

Definition function_output_id (i : ResponseItem) : option string :=
  match i with FunctionCallOutput _ call_id _ _ => Some call_id | _ => None end.
Definition tool_search_output_id (i : ResponseItem) : option string :=
  match i with ToolSearchOutput _ call_id _ _ _ _ => call_id | _ => None end.
Definition custom_tool_output_id (i : ResponseItem) : option string :=
  match i with CustomToolCallOutput _ call_id _ _ _ => Some call_id | _ => None end.

Definition function_call_id (i : ResponseItem) : option string :=
  match i with FunctionCall _ _ _ _ call_id _ => Some call_id | _ => None end.
Definition tool_search_call_id (i : ResponseItem) : option string :=
  match i with ToolSearchCall _ call_id _ _ _ _ => call_id | _ => None end.
Definition local_shell_call_id (i : ResponseItem) : option string :=
  match i with LocalShellCall _ call_id _ _ _ => call_id | _ => None end.
Definition custom_tool_call_id (i : ResponseItem) : option string :=
  match i with CustomToolCall _ _ call_id _ _ _ => Some call_id | _ => None end.

(** A [HashSet] of the ids [f] finds in the items. *)
Definition id_set (f : ResponseItem → option string) (items : list ResponseItem) : gset string :=
  list_to_set (omap f items).

(** ** [ensure_call_outputs_present] *)

(** The synthetic output of one item and the message for [error_or_panic], if any. *)
Definition missing_output (function_output_ids tool_search_output_ids custom_tool_output_ids : gset string)
    (item : ResponseItem) : option (ResponseItem * list string) :=
  match item with
  | FunctionCall _ _ _ _ call_id _ =>
      if bool_decide (call_id ∈ function_output_ids) then None
      else Some (FunctionCallOutput None call_id aborted None, [])
  | ToolSearchCall _ (Some call_id) _ _ _ _ =>
      if bool_decide (call_id ∈ tool_search_output_ids) then None
      else Some (ToolSearchOutput None (Some call_id) "completed" "client" [] None, [])
  | CustomToolCall _ _ call_id _ _ _ =>
      if bool_decide (call_id ∈ custom_tool_output_ids) then None
      else Some (CustomToolCallOutput None call_id None aborted None,
                 ["Custom tool call output is missing for call id: " +:+ call_id])
  | LocalShellCall _ (Some call_id) _ _ _ =>
      if bool_decide (call_id ∈ function_output_ids) then None
      else Some (FunctionCallOutput None call_id aborted None,
                 ["Local shell call output is missing for call id: " +:+ call_id])
  | _ => None
  end.

(** [for (idx, item) in items.iter().enumerate()]: the insertions to make. *)
Fixpoint missing_outputs_to_insert (missing : ResponseItem → option (ResponseItem * list string))
    (idx : nat) (items : list ResponseItem) : list (nat * ResponseItem) :=
  match items with
  | [] => []
  | item :: r =>
      match missing item with
      | Some (output, _) => (idx, output) :: missing_outputs_to_insert missing (S idx) r
      | None => missing_outputs_to_insert missing (S idx) r
      end
  end.

(** [Vec::insert]; the index is within the vector ([insert_outputs_eq]). *)
Definition vec_insert_at {A} (n : nat) (x : A) (l : list A) : list A := take n l ++ x :: drop n l.

(** The loop over the insertions in reverse order. *)
Definition insert_outputs (missing : list (nat * ResponseItem)) (items : list ResponseItem) :
    list ResponseItem :=
  fold_left (λ items '(idx, output_item), vec_insert_at (idx + 1) output_item items)
    (reverse missing) items.

Definition missing_of (items : list ResponseItem) : ResponseItem → option (ResponseItem * list string) :=
  missing_output (id_set function_output_id items) (id_set tool_search_output_id items)
    (id_set custom_tool_output_id items).

Definition ensure_call_outputs_present (items : list ResponseItem) : list ResponseItem * list string :=
  (insert_outputs (missing_outputs_to_insert (missing_of items) 0 items) items,
   concat (omap (λ item, snd <$> missing_of items item) items)).

(** ** [remove_orphan_outputs] *)

(** The closure given to [retain]: whether the item stays, and the message if it does not. *)
Definition retain_output (function_call_ids tool_search_call_ids local_shell_call_ids
      custom_tool_call_ids : gset string) (item : ResponseItem) : bool * list string :=
  match item with
  | FunctionCallOutput _ call_id _ _ =>
      if bool_decide (call_id ∈ function_call_ids) || bool_decide (call_id ∈ local_shell_call_ids)
      then (true, []) else (false, ["Orphan function call output for call id: " +:+ call_id])
  | CustomToolCallOutput _ call_id _ _ _ =>
      if bool_decide (call_id ∈ custom_tool_call_ids)
      then (true, []) else (false, ["Orphan custom tool call output for call id: " +:+ call_id])
  | ToolSearchOutput _ call_id _ execution _ _ =>
      if str_eqb execution "server" then (true, [])
      else match call_id with
           | Some call_id =>
               if bool_decide (call_id ∈ tool_search_call_ids)
               then (true, []) else (false, ["Orphan tool search output for call id: " +:+ call_id])
           | None => (true, [])
           end
  | _ => (true, [])
  end.

Definition retain_of (items : list ResponseItem) : ResponseItem → bool * list string :=
  retain_output (id_set function_call_id items) (id_set tool_search_call_id items)
    (id_set local_shell_call_id items) (id_set custom_tool_call_id items).

Definition remove_orphan_outputs (items : list ResponseItem) : list ResponseItem * list string :=
  (List.filter (λ item, fst (retain_of items item)) items,
   concat ((λ item, snd (retain_of items item)) <$> items)).

(** ** [remove_corresponding_for] *)

(** [position] and [remove]: the first item the predicate accepts goes. *)
Fixpoint remove_first_matching (predicate : ResponseItem → bool) (items : list ResponseItem) :
    list ResponseItem :=
  match items with
  | [] => []
  | i :: r => if predicate i then r else i :: remove_first_matching predicate r
  end.

Definition has_id (f : ResponseItem → option string) (call_id : string) (i : ResponseItem) : bool :=
  bool_decide (f i = Some call_id).

Definition remove_corresponding_for (items : list ResponseItem) (item : ResponseItem) :
    list ResponseItem :=
  match item with
  | FunctionCall _ _ _ _ call_id _ => remove_first_matching (has_id function_output_id call_id) items
  | FunctionCallOutput _ call_id _ _ =>
      if existsb (has_id function_call_id call_id) items
      then remove_first_matching (has_id function_call_id call_id) items
      else remove_first_matching (has_id local_shell_call_id call_id) items
  | ToolSearchCall _ (Some call_id) _ _ _ _ =>
      remove_first_matching (has_id tool_search_output_id call_id) items
  | ToolSearchOutput _ (Some call_id) _ _ _ _ =>
      remove_first_matching (has_id tool_search_call_id call_id) items
  | CustomToolCall _ _ call_id _ _ _ =>
      remove_first_matching (has_id custom_tool_output_id call_id) items
  | CustomToolCallOutput _ call_id _ _ _ =>
      remove_first_matching (has_id custom_tool_call_id call_id) items
  | LocalShellCall _ (Some call_id) _ _ _ =>
      remove_first_matching (has_id function_output_id call_id) items
  | _ => items
  end.

(** ** [strip_images_when_unsupported] *)

Inductive InputModality := ModalityText | ModalityImage.

#[global] Instance InputModality_eq_dec : EqDecision InputModality.
Proof. solve_decision. Defined.

Definition IMAGE_CONTENT_OMITTED_PLACEHOLDER : string :=
  "image content omitted because you do not support image input".

Definition strip_content (content_item : ContentItem) : ContentItem :=
  match content_item with
  | InputImage _ _ => InputText IMAGE_CONTENT_OMITTED_PLACEHOLDER
  | _ => content_item
  end.

Definition strip_output_content (content_item : FunctionCallOutputContentItem) :
    FunctionCallOutputContentItem :=
  match content_item with
  | OutInputImage _ _ => OutInputText IMAGE_CONTENT_OMITTED_PLACEHOLDER
  | _ => content_item
  end.

Definition strip_payload (output : FunctionCallOutputPayload) : FunctionCallOutputPayload :=
  match body output with
  | BodyText _ => output
  | BodyContentItems items =>
      {| body := BodyContentItems (strip_output_content <$> items); success := success output |}
  end.

Definition strip_item (item : ResponseItem) : ResponseItem :=
  match item with
  | Message id role content phase meta => Message id role (strip_content <$> content) phase meta
  | FunctionCallOutput id call_id output meta =>
      FunctionCallOutput id call_id (strip_payload output) meta
  | CustomToolCallOutput id call_id name output meta =>
      CustomToolCallOutput id call_id name (strip_payload output) meta
  | ImageGenerationCall id status revised_prompt _ meta =>
      ImageGenerationCall id status revised_prompt EmptyString meta
  | _ => item
  end.

Definition strip_images_when_unsupported (input_modalities : list InputModality)
    (items : list ResponseItem) : list ResponseItem :=
  if bool_decide (ModalityImage ∈ input_modalities) then items else strip_item <$> items.

(** [normalize_history] of history.rs, on the items *)
Definition normalize_items (input_modalities : list InputModality) (items : list ResponseItem) :
    list ResponseItem * list string :=
  let '(items, reports1) := ensure_call_outputs_present items in
  let '(items, reports2) := remove_orphan_outputs items in
  (strip_images_when_unsupported input_modalities items, reports1 ++ reports2).

(** ** The reverse insertions are one pass *)

(** The reference definition: each call is followed by its missing output. *)
Definition with_missing (missing : ResponseItem → option (ResponseItem * list string))
    (items : list ResponseItem) : list ResponseItem :=
  items ≫= λ item, item :: match missing item with Some (o, _) => [o] | None => [] end.

Lemma with_missing_cons missing i items :
  with_missing missing (i :: items) =
  (i :: match missing i with Some (o, _) => [o] | None => [] end) ++ with_missing missing items.
Proof. done. Qed.

Lemma missing_outputs_shift missing n items :
  missing_outputs_to_insert missing (S n) items =
  (λ '(i, o), (S i, o)) <$> missing_outputs_to_insert missing n items.
Proof.
  revert n. induction items as [|item items IH]; intros n; [done|]. simpl.
  destruct (missing item) as [[o rep]|]; simpl; by rewrite IH.
Qed.

Lemma insert_outputs_shift missing item items :
  insert_outputs ((λ '(i, o), (S i, o)) <$> missing) (item :: items) =
  item :: insert_outputs missing items.
Proof.
  unfold insert_outputs. rewrite <-fmap_reverse. generalize (reverse missing) as l.
  intros l. revert items. induction l as [|[i o] l IH]; intros items; [done|]. simpl.
  by rewrite <-IH.
Qed.

Lemma insert_outputs_eq missing items :
  insert_outputs (missing_outputs_to_insert missing 0 items) items = with_missing missing items.
Proof.
  induction items as [|item items IH]; [done|]. simpl. rewrite missing_outputs_shift.
  destruct (missing item) as [[o rep]|] eqn:E; simpl.
  - unfold insert_outputs. rewrite reverse_cons, fold_left_app.
    fold (insert_outputs ((λ '(i, o0), (S i, o0)) <$> missing_outputs_to_insert missing 0 items)
            (item :: items)).
    rewrite insert_outputs_shift, IH. done.
  - by rewrite insert_outputs_shift, IH.
Qed.

(** ** Sets of ids *)

Lemma elem_id_set f items c : c ∈ id_set f items ↔ ∃ i, i ∈ items ∧ f i = Some c.
Proof. unfold id_set. rewrite elem_of_list_to_set, list_elem_of_omap. done. Qed.

Lemma id_set_nil f : id_set f [] = ∅.
Proof. done. Qed.

Lemma id_set_cons f i items :
  id_set f (i :: items) = match f i with Some c => {[c]} | None => ∅ end ∪ id_set f items.
Proof. unfold id_set. simpl. destruct (f i); set_solver. Qed.

Lemma id_set_fmap f g items : (∀ i, f (g i) = f i) → id_set f (g <$> items) = id_set f items.
Proof.
  intros Hg. induction items as [|i items IH]; [done|].
  change (g <$> i :: items) with (g i :: (g <$> items)). by rewrite !id_set_cons, Hg, IH.
Qed.

Lemma id_set_filter f p items c :
  c ∈ id_set f (List.filter p items) ↔ ∃ i, i ∈ items ∧ p i = true ∧ f i = Some c.
Proof.
  rewrite elem_id_set. setoid_rewrite list_elem_of_In. setoid_rewrite filter_In. naive_solver.
Qed.

Lemma id_set_missing f m items c :
  c ∈ id_set f (with_missing m items) ↔
  c ∈ id_set f items ∨ ∃ i o rep, i ∈ items ∧ m i = Some (o, rep) ∧ f o = Some c.
Proof.
  rewrite !elem_id_set. unfold with_missing. setoid_rewrite list_elem_of_bind. split.
  - intros (i & (j & Hi & Hj) & Hc). rewrite elem_of_cons in Hi. destruct Hi as [->|Hi]; [eauto|].
    destruct (m j) as [[o rep]|] eqn:E; [|set_solver].
    apply list_elem_of_singleton in Hi as ->. eauto 10.
  - intros [(i & Hi & Hc)|(i & o & rep & Hi & Ho & Hc)].
    + exists i. split; [|done]. exists i. split; [left|done].
    + exists o. split; [|done]. exists i. rewrite Ho. split; [right; left|done].
Qed.

(** ** Paired histories *)

(** A tool search output that came from the server needs no call. *)
Definition client_search_output_id (i : ResponseItem) : option string :=
  match i with
  | ToolSearchOutput _ call_id _ execution _ _ => if str_eqb execution "server" then None else call_id
  | _ => None
  end.

(** Every call has an output of its kind. *)
Definition calls_answered (items : list ResponseItem) : Prop :=
  id_set function_call_id items ∪ id_set local_shell_call_id items ⊆ id_set function_output_id items ∧
  id_set tool_search_call_id items ⊆ id_set tool_search_output_id items ∧
  id_set custom_tool_call_id items ⊆ id_set custom_tool_output_id items.

(** Every output has a call of its kind. *)
Definition outputs_called (items : list ResponseItem) : Prop :=
  id_set function_output_id items ⊆ id_set function_call_id items ∪ id_set local_shell_call_id items ∧
  id_set client_search_output_id items ⊆ id_set tool_search_call_id items ∧
  id_set custom_tool_output_id items ⊆ id_set custom_tool_call_id items.

Definition well_paired (items : list ResponseItem) : Prop :=
  calls_answered items ∧ outputs_called items.

(** What a synthetic output is, by the call it answers. *)
Lemma missing_of_some items i o rep :
  missing_of items i = Some (o, rep) →
  (∃ c, (function_call_id i = Some c ∨ local_shell_call_id i = Some c) ∧
        o = FunctionCallOutput None c aborted None ∧ c ∉ id_set function_output_id items) ∨
  (∃ c, tool_search_call_id i = Some c ∧
        o = ToolSearchOutput None (Some c) "completed" "client" [] None ∧
        c ∉ id_set tool_search_output_id items) ∨
  (∃ c, custom_tool_call_id i = Some c ∧ o = CustomToolCallOutput None c None aborted None ∧
        c ∉ id_set custom_tool_output_id items).
Proof.
  unfold missing_of, missing_output. intros H.
  repeat (case_match; simplify_eq/=; try done);
    repeat match goal with H : bool_decide _ = false |- _ => apply bool_decide_eq_false in H end;
    naive_solver.
Qed.

Lemma missing_of_none items i :
  missing_of items i = None ↔
  (∀ c, function_call_id i = Some c ∨ local_shell_call_id i = Some c →
        c ∈ id_set function_output_id items) ∧
  (∀ c, tool_search_call_id i = Some c → c ∈ id_set tool_search_output_id items) ∧
  (∀ c, custom_tool_call_id i = Some c → c ∈ id_set custom_tool_output_id items).
Proof.
  unfold missing_of, missing_output.
  destruct i; simpl; repeat case_match; simplify_eq/=;
    repeat match goal with
    | H : bool_decide _ = false |- _ => apply bool_decide_eq_false in H
    | H : bool_decide _ = true |- _ => apply bool_decide_eq_true in H
    end; naive_solver.
Qed.

Lemma retain_of_true items i :
  fst (retain_of items i) = true ↔
  (∀ c, function_output_id i = Some c →
        c ∈ id_set function_call_id items ∪ id_set local_shell_call_id items) ∧
  (∀ c, client_search_output_id i = Some c → c ∈ id_set tool_search_call_id items) ∧
  (∀ c, custom_tool_output_id i = Some c → c ∈ id_set custom_tool_call_id items).
Proof.
  unfold retain_of, retain_output. setoid_rewrite elem_of_union.
  destruct i; simpl; repeat case_match; simplify_eq/=;
    repeat match goal with
    | H : (_ || _) = false |- _ => apply orb_false_iff in H as [? ?]
    | H : (_ || _) = true |- _ => apply orb_true_iff in H
    | H : bool_decide _ = false |- _ => apply bool_decide_eq_false in H
    | H : context [bool_decide _ = true] |- _ => rewrite !bool_decide_eq_true in H
    end; naive_solver.
Qed.

(** ** What normalising does *)

(** Inserting the missing outputs adds no call and exactly the missing output ids. *)
Lemma ensure_call_ids items :
  let items' := fst (ensure_call_outputs_present items) in
  id_set function_call_id items' = id_set function_call_id items ∧
  id_set local_shell_call_id items' = id_set local_shell_call_id items ∧
  id_set tool_search_call_id items' = id_set tool_search_call_id items ∧
  id_set custom_tool_call_id items' = id_set custom_tool_call_id items.
Proof.
  cbv zeta. unfold ensure_call_outputs_present. simpl. rewrite insert_outputs_eq.
  split_and!; apply set_eq; intros c; rewrite id_set_missing;
    (split; [|tauto]); intros [?|(i & o & rep & _ & Hm & Ho)]; try done;
    apply missing_of_some in Hm; naive_solver.
Qed.

Lemma ensure_output_ids items :
  let items' := fst (ensure_call_outputs_present items) in
  id_set function_output_id items' = id_set function_output_id items ∪
    (id_set function_call_id items ∪ id_set local_shell_call_id items) ∧
  id_set tool_search_output_id items' =
    id_set tool_search_output_id items ∪ id_set tool_search_call_id items ∧
  id_set custom_tool_output_id items' =
    id_set custom_tool_output_id items ∪ id_set custom_tool_call_id items ∧
  id_set client_search_output_id items' ⊆
    id_set client_search_output_id items ∪ id_set tool_search_call_id items.
Proof.
  cbv zeta. unfold ensure_call_outputs_present. simpl. rewrite insert_outputs_eq.
  assert (∀ f g c, c ∈ id_set f items →
    (∀ i, f i = Some c → missing_of items i = None → c ∈ id_set g items) →
    (∀ i o rep, f i = Some c → missing_of items i = Some (o, rep) → g o = Some c) →
    c ∈ id_set g (with_missing (missing_of items) items)) as Hans.
  { intros f g c Hc Hn Hs. rewrite id_set_missing. apply elem_id_set in Hc as (i & Hi & Hc).
    destruct (missing_of items i) as [[o rep]|] eqn:E; [|left; eauto]. right. eauto 10. }
  split_and!; [apply set_eq; intros c..|intros c Hc].
  1-3: rewrite !elem_of_union; split.
  1, 3, 5: rewrite id_set_missing; intros [?|(i & o & rep & Hi & Hm & Ho)]; [tauto|];
    apply missing_of_some in Hm; rewrite !elem_id_set; naive_solver.
  1-3: intros [Hc|Hc]; [rewrite id_set_missing; tauto|].
  - destruct Hc as [Hc|Hc]; (eapply Hans; [exact Hc|intros i Hi Hm%missing_of_none|
      intros i o rep Hi Hm%missing_of_some; destruct i]); naive_solver.
  - eapply Hans; [exact Hc|intros i Hi Hm%missing_of_none|
      intros i o rep Hi Hm%missing_of_some; destruct i]; naive_solver.
  - eapply Hans; [exact Hc|intros i Hi Hm%missing_of_none|
      intros i o rep Hi Hm%missing_of_some; destruct i]; naive_solver.
  - rewrite id_set_missing in Hc. destruct Hc as [?|(i & o & rep & Hi & Hm & Ho)]; [set_solver|].
    apply elem_of_union. right. apply missing_of_some in Hm. apply elem_id_set.
    destruct Hm as [(d & _ & -> & _)|[(d & Hd & -> & _)|(d & _ & -> & _)]]; try done. naive_solver.
Qed.

(** Whether an output is an orphan depends on the calls only. *)
Lemma retain_of_ensure items : retain_of (fst (ensure_call_outputs_present items)) = retain_of items.
Proof. unfold retain_of. destruct (ensure_call_ids items) as (-> & -> & -> & ->). done. Qed.

Definition is_call (i : ResponseItem) : bool :=
  match i with
  | FunctionCall _ _ _ _ _ _ | ToolSearchCall _ _ _ _ _ _ | CustomToolCall _ _ _ _ _ _
  | LocalShellCall _ _ _ _ _ => true
  | _ => false
  end.

Lemma retain_call items i : is_call i = true → fst (retain_of items i) = true.
Proof. by destruct i. Qed.

Lemma missing_is_call items i o rep : missing_of items i = Some (o, rep) → is_call i = true.
Proof. destruct i; simpl; done. Qed.

Lemma call_id_is_call i c :
  function_call_id i = Some c ∨ local_shell_call_id i = Some c ∨ tool_search_call_id i = Some c ∨
  custom_tool_call_id i = Some c → is_call i = true.
Proof. destruct i; simpl; naive_solver. Qed.

(** A synthetic output is never an orphan. *)
Lemma retain_missing items i o rep :
  i ∈ items → missing_of items i = Some (o, rep) → fst (retain_of items o) = true.
Proof.
  intros Hi Hm%missing_of_some. apply retain_of_true. setoid_rewrite elem_of_union.
  setoid_rewrite elem_id_set.
  destruct Hm as [(c & Hc & -> & _)|[(c & Hc & -> & _)|(c & Hc & -> & _)]]; simpl;
    split_and!; intros d Hd; simplify_eq; naive_solver.
Qed.

Lemma filter_with_missing p m items :
  (∀ i o rep, i ∈ items → m i = Some (o, rep) → p i = true ∧ p o = true) →
  List.filter p (with_missing m items) = with_missing m (List.filter p items).
Proof.
  induction items as [|i items IH]; intros H; [done|]. rewrite with_missing_cons.
  rewrite List.filter_app, IH by (intros; eapply H; [right|]; eauto).
  destruct (m i) as [[o rep]|] eqn:E; cbn [List.filter].
  - destruct (H i o rep) as [-> ->]; [left|done|]. by rewrite (with_missing_cons _ i), E.
  - destruct (p i); [by rewrite (with_missing_cons _ i), E|done].
Qed.

(** The reference definition of [normalize_history]: orphan outputs dropped, unanswered
    calls followed by an aborted output, images stripped. *)
Definition normalize_ref (input_modalities : list InputModality) (items : list ResponseItem) :
    list ResponseItem :=
  strip_images_when_unsupported input_modalities
    (with_missing (missing_of items) (List.filter (λ i, fst (retain_of items i)) items)).

Lemma ensure_then_retain items :
  fst (remove_orphan_outputs (fst (ensure_call_outputs_present items))) =
  with_missing (missing_of items) (List.filter (λ i, fst (retain_of items i)) items).
Proof.
  unfold remove_orphan_outputs. cbn [fst]. rewrite retain_of_ensure.
  unfold ensure_call_outputs_present. cbn [fst]. rewrite insert_outputs_eq.
  apply filter_with_missing. intros i o rep Hi Hm.
  split; [by eapply retain_call, missing_is_call|by eapply retain_missing].
Qed.

Lemma normalize_items_fst ms items :
  fst (normalize_items ms items) =
  strip_images_when_unsupported ms
    (fst (remove_orphan_outputs (fst (ensure_call_outputs_present items)))).
Proof.
  unfold normalize_items. destruct (ensure_call_outputs_present items) as [i1 r1] eqn:E1.
  cbn [fst]. by destruct (remove_orphan_outputs i1).
Qed.

(** The three passes of [normalize_history], with their id sets and their
    insertions by index from the back, compute the one-pass reference: every item keeps its
    place, only outputs without a call are dropped, and an output [aborted] is placed
    directly behind each call that had none. *)
Theorem normalize_is_reference ms items :
  fst (normalize_items ms items) = normalize_ref ms items.
Proof. rewrite normalize_items_fst, ensure_then_retain. done. Qed.

Lemma id_set_calls f items :
  (∀ i c, f i = Some c → is_call i = true) →
  id_set f (fst (remove_orphan_outputs items)) = id_set f items.
Proof.
  intros Hf. apply set_eq. intros c. simpl. rewrite id_set_filter, elem_id_set.
  split; [naive_solver|]. intros (i & Hi & Hc). eauto 6 using retain_call.
Qed.

Lemma remove_orphans_call_ids items :
  let items' := fst (remove_orphan_outputs items) in
  id_set function_call_id items' = id_set function_call_id items ∧
  id_set local_shell_call_id items' = id_set local_shell_call_id items ∧
  id_set tool_search_call_id items' = id_set tool_search_call_id items ∧
  id_set custom_tool_call_id items' = id_set custom_tool_call_id items.
Proof. cbv zeta. split_and!; apply id_set_calls; intros; eapply call_id_is_call; eauto. Qed.

Lemma orphans_removed items : outputs_called (fst (remove_orphan_outputs items)).
Proof.
  unfold outputs_called. destruct (remove_orphans_call_ids items) as (-> & -> & -> & ->). simpl.
  split_and!; intros c; rewrite id_set_filter; intros (i & _ & Hr%retain_of_true & Hc); naive_solver.
Qed.

(** Dropping orphans keeps every output that answers a call. *)
Lemma answers_kept items :
  calls_answered items → calls_answered (fst (remove_orphan_outputs items)).
Proof.
  unfold calls_answered. destruct (remove_orphans_call_ids items) as (-> & -> & -> & ->).
  intros (H1 & H2 & H3). simpl. split_and!; intros c Hc; apply id_set_filter.
  - specialize (H1 c Hc). apply elem_id_set in H1 as (i & Hi & Hid). exists i. split_and!; try done.
    apply retain_of_true. destruct i; simplify_eq/=. naive_solver.
  - specialize (H2 c Hc). apply elem_id_set in H2 as (i & Hi & Hid). exists i. split_and!; try done.
    apply retain_of_true. destruct i; simplify_eq/=. case_match; naive_solver.
  - specialize (H3 c Hc). apply elem_id_set in H3 as (i & Hi & Hid). exists i. split_and!; try done.
    apply retain_of_true. destruct i; simplify_eq/=. naive_solver.
Qed.

Lemma ensure_answers items : calls_answered (fst (ensure_call_outputs_present items)).
Proof.
  unfold calls_answered. destruct (ensure_call_ids items) as (-> & -> & -> & ->).
  destruct (ensure_output_ids items) as (-> & -> & -> & _). set_solver.
Qed.

Lemma strip_item_ids i :
  function_call_id (strip_item i) = function_call_id i ∧
  local_shell_call_id (strip_item i) = local_shell_call_id i ∧
  tool_search_call_id (strip_item i) = tool_search_call_id i ∧
  custom_tool_call_id (strip_item i) = custom_tool_call_id i ∧
  function_output_id (strip_item i) = function_output_id i ∧
  tool_search_output_id (strip_item i) = tool_search_output_id i ∧
  client_search_output_id (strip_item i) = client_search_output_id i ∧
  custom_tool_output_id (strip_item i) = custom_tool_output_id i.
Proof. by destruct i. Qed.

Lemma well_paired_strip ms items :
  well_paired (strip_images_when_unsupported ms items) ↔ well_paired items.
Proof.
  unfold strip_images_when_unsupported. destruct (bool_decide _); [done|].
  unfold well_paired, calls_answered, outputs_called.
  by rewrite !id_set_fmap by (intros i; apply (strip_item_ids i)).
Qed.

Lemma normalize_paired ms items : well_paired (fst (normalize_items ms items)).
Proof.
  rewrite normalize_items_fst. apply well_paired_strip.
  split; [apply answers_kept, ensure_answers|apply orphans_removed].
Qed.

(** ** Normal histories stay as they are *)

Lemma with_missing_none m items : (∀ i, i ∈ items → m i = None) → with_missing m items = items.
Proof.
  induction items as [|i items IH]; intros H; [done|]. rewrite with_missing_cons, H, IH by set_solver.
  done.
Qed.

Lemma answered_no_missing items i : calls_answered items → i ∈ items → missing_of items i = None.
Proof.
  intros (H1 & H2 & H3) Hi. apply missing_of_none.
  split_and!; intros c Hc; [apply H1; apply elem_of_union|apply H2|apply H3];
    rewrite ?elem_id_set; naive_solver.
Qed.

Lemma called_retained items i : outputs_called items → i ∈ items → retain_of items i = (true, []).
Proof.
  intros (H1 & H2 & H3) Hi. assert (fst (retain_of items i) = true) as Hr.
  { apply retain_of_true. split_and!; intros c Hc; [apply H1|apply H2|apply H3];
      rewrite elem_id_set; naive_solver. }
  revert Hr. unfold retain_of, retain_output. repeat case_match; done.
Qed.

Lemma paired_unchanged items :
  well_paired items →
  ensure_call_outputs_present items = (items, []) ∧ remove_orphan_outputs items = (items, []).
Proof.
  intros [Ha Hc]. split.
  - unfold ensure_call_outputs_present. rewrite insert_outputs_eq, with_missing_none
      by eauto using answered_no_missing. f_equal.
    assert (omap (λ item, snd <$> missing_of items item) items = []) as ->; [|done].
    generalize (answered_no_missing items) as H. generalize (missing_of items) as m.
    intros m H. assert (∀ i, i ∈ items → m i = None) as Hm by auto. clear -Hm.
    induction items as [|i l IH]; [done|]. simpl. rewrite Hm by set_solver. apply IH. set_solver.
  - unfold remove_orphan_outputs. f_equal.
    + apply filter_all. intros i Hi. by rewrite (called_retained items).
    + assert (∀ i, i ∈ items → snd (retain_of items i) = []) as H
        by (intros i Hi; by rewrite called_retained).
      revert H. generalize (retain_of items) as r. intros r H. clear -H.
      induction items as [|i l IH]; [done|]. simpl. rewrite H by set_solver. apply IH. set_solver.
Qed.

(** An image that the model would see. *)
Definition shows_image (i : ResponseItem) : bool :=
  match i with
  | Message _ _ content _ _ =>
      existsb (λ c, match c with InputImage _ _ => true | _ => false end) content
  | FunctionCallOutput _ _ output _ | CustomToolCallOutput _ _ _ output _ =>
      match body output with
      | BodyContentItems items =>
          existsb (λ c, match c with OutInputImage _ _ => true | _ => false end) items
      | BodyText _ => false
      end
  | ImageGenerationCall _ _ _ result _ => negb (str_is_empty result)
  | _ => false
  end.

Lemma strip_item_no_image i : shows_image (strip_item i) = false.
Proof.
  assert (∀ c, existsb (λ x, match x with InputImage _ _ => true | _ => false end)
    (strip_content <$> c) = false) as H1 by (induction c as [|[] c IH]; done).
  assert (∀ c, existsb (λ x, match x with OutInputImage _ _ => true | _ => false end)
    (strip_output_content <$> c) = false) as H2 by (induction c as [|[] c IH]; done).
  destruct i; simpl; rewrite ?H1; try done;
    unfold strip_payload; destruct (body output) eqn:E; simpl; rewrite ?E, ?H2; done.
Qed.

Lemma strip_item_idem i : strip_item (strip_item i) = strip_item i.
Proof.
  assert (∀ c, strip_content <$> (strip_content <$> c) = strip_content <$> c) as H1
    by (intros c; rewrite <-list_fmap_compose; apply list_fmap_ext; by intros ? [] ?).
  assert (∀ c, strip_output_content <$> (strip_output_content <$> c) = strip_output_content <$> c) as H2
    by (intros c; rewrite <-list_fmap_compose; apply list_fmap_ext; by intros ? [] ?).
  assert (∀ o, strip_payload (strip_payload o) = strip_payload o) as H3.
  { intros o. unfold strip_payload. destruct (body o) eqn:E; simpl; [by rewrite E|by rewrite H2]. }
  destruct i; simpl; by rewrite ?H1, ?H3.
Qed.

Lemma strip_images_idem ms items :
  strip_images_when_unsupported ms (strip_images_when_unsupported ms items) =
  strip_images_when_unsupported ms items.
Proof.
  unfold strip_images_when_unsupported. destruct (bool_decide _); [done|].
  rewrite <-list_fmap_compose. apply list_fmap_ext. intros ? i ?. apply strip_item_idem.
Qed.

Lemma normalize_of_paired ms items :
  well_paired items →
  normalize_items ms items = (strip_images_when_unsupported ms items, []).
Proof.
  intros Hp. unfold normalize_items. destruct (paired_unchanged items Hp) as [-> ->]. done.
Qed.

(** An output that names a call which is not there. *)
Definition orphan (items : list ResponseItem) (i : ResponseItem) : Prop :=
  (∃ c, function_output_id i = Some c ∧ c ∉ id_set function_call_id items ∪ id_set local_shell_call_id items) ∨
  (∃ c, client_search_output_id i = Some c ∧ c ∉ id_set tool_search_call_id items) ∨
  (∃ c, custom_tool_output_id i = Some c ∧ c ∉ id_set custom_tool_call_id items).

Lemma not_retained_orphan items i : fst (retain_of items i) = false → orphan items i.
Proof.
  unfold retain_of, retain_output, orphan. destruct i; try done; simpl.
  - destruct (bool_decide _) eqn:E1, (bool_decide (call_id ∈ id_set local_shell_call_id items)) eqn:E2; try done.
    apply bool_decide_eq_false in E1, E2. intros _. left. exists call_id. split; [done|]. set_solver.
  - destruct (bool_decide _) eqn:E; [done|]. apply bool_decide_eq_false in E. intros _. right. right. by exists call_id.
  - destruct (str_eqb execution "server"); [done|]. destruct call_id as [c|]; [|done].
    destruct (bool_decide _) eqn:E; [done|]. apply bool_decide_eq_false in E. intros _. right. left. by exists c.
Qed.

Lemma with_missing_sublist m items : items `sublist_of` with_missing m items.
Proof.
  induction items as [|i items IH]; [done|]. rewrite with_missing_cons. simpl. apply sublist_skip.
  by apply sublist_inserts_l.
Qed.

Lemma strip_images_sublist ms items items' :
  items `sublist_of` items' → strip_images_when_unsupported ms items `sublist_of` strip_images_when_unsupported ms items'.
Proof. unfold strip_images_when_unsupported. destruct (bool_decide _); [done|]. intros Hs. by apply fmap_sublist. Qed.

Lemma filter_sublist_list {A} (f : A → bool) (l : list A) : List.filter f l `sublist_of` l.
Proof. induction l as [|x l IH]; simpl; [done|]. destruct (f x); by constructor. Qed.

(** Claim C14. What is sent to the model is always a normal history: every function and custom
    call, and every shell and tool-search call that carries a call id, has an output of its
    kind under its id; every output that names a call (server tool searches aside) has that
    call; and no image is left when the model takes none.  Only outputs that name a call which
    is not there are dropped; everything else stays in order, images aside, so also calls and
    outputs without an id, which are not paired.  A history that already is paired comes out
    unchanged, images aside, with nothing reported, so normalising is idempotent. *)
Theorem normalize_invariant ms items :
  let r := fst (normalize_items ms items) in
  well_paired r ∧
  (ModalityImage ∉ ms → Forall (λ i, shows_image i = false) r) ∧
  (∃ kept, kept `sublist_of` items ∧ (∀ i, i ∈ items → i ∉ kept → orphan items i) ∧
     strip_images_when_unsupported ms kept `sublist_of` r) ∧
  (well_paired items → normalize_items ms items = (strip_images_when_unsupported ms items, [])) ∧
  normalize_items ms r = (r, []).
Proof.
  cbv zeta. split_and!.
  - apply normalize_paired.
  - intros Hm. rewrite normalize_items_fst. unfold strip_images_when_unsupported.
    rewrite bool_decide_false by done. apply Forall_fmap, Forall_true. intros i.
    apply strip_item_no_image.
  - exists (List.filter (λ i, fst (retain_of items i)) items). split_and!; [apply filter_sublist_list| |].
    + intros i Hi Hno. apply not_retained_orphan, not_true_iff_false. intros Hk. apply Hno.
      rewrite list_elem_of_In in *. by apply filter_In.
    + rewrite normalize_items_fst, ensure_then_retain. apply strip_images_sublist, with_missing_sublist.
  - apply normalize_of_paired.
  - rewrite (normalize_of_paired _ _ (normalize_paired ms items)).
    by rewrite normalize_items_fst, strip_images_idem.
Qed.

Lemma normalize_invariant_witness :
  let items := [FunctionCall None "shell" None "{}" "c1" None;
                CustomToolCallOutput None "zz" None aborted None] in
  fst (normalize_items [] items) =
    [FunctionCall None "shell" None "{}" "c1" None; FunctionCallOutput None "c1" aborted None] ∧
  snd (normalize_items [] items) = ["Orphan custom tool call output for call id: zz"] ∧
  Forall (λ i, shows_image i = false) (fst (normalize_items [] items)).
Proof.
  cbv zeta. split; [vm_refl|]. split; [vm_refl|].
  apply (normalize_invariant [] [FunctionCall None "shell" None "{}" "c1" None;
                CustomToolCallOutput None "zz" None aborted None]). set_solver.
Defined.

(** ** Removing an item with its counterpart *)

(** The call id in the space that function and shell calls share. *)
Definition fn_call_id (i : ResponseItem) : option string :=
  match i with
  | FunctionCall _ _ _ _ call_id _ => Some call_id
  | LocalShellCall _ call_id _ _ _ => call_id
  | _ => None
  end.

Definition unique (f : ResponseItem → option string) (items : list ResponseItem) : Prop :=
  NoDup (omap f items).

(** Within each space an id names at most one call and at most one output. *)
Definition unique_ids (items : list ResponseItem) : Prop :=
  unique fn_call_id items ∧ unique function_output_id items ∧
  unique tool_search_call_id items ∧ unique tool_search_output_id items ∧
  unique custom_tool_call_id items ∧ unique custom_tool_output_id items.

Lemma fn_call_set items :
  id_set fn_call_id items = id_set function_call_id items ∪ id_set local_shell_call_id items.
Proof.
  apply set_eq. intros c. rewrite elem_of_union, !elem_id_set. split.
  - intros (i & Hi & Hc). destruct i; simplify_eq/=; [right|left]; eexists; split; eauto.
  - intros [(i & Hi & Hc)|(i & Hi & Hc)]; destruct i; simplify_eq/=; eexists; split; eauto.
Qed.

Lemma remove_first_sublist p items : remove_first_matching p items `sublist_of` items.
Proof.
  induction items as [|i items IH]; simpl; [done|]. destruct (p i).
  - by apply sublist_cons.
  - by apply sublist_skip.
Qed.

Lemma sublist_omap {A B} (f : A → option B) l k : l `sublist_of` k → omap f l `sublist_of` omap f k.
Proof.
  induction 1 as [|x l k _ IH|x l k _ IH]; [done|simpl..]; destruct (f x); simpl; auto.
  - by apply sublist_skip.
  - by apply sublist_cons.
Qed.

Lemma unique_sublist f l k : l `sublist_of` k → unique f k → unique f l.
Proof. unfold unique. intros Hs Hn. eapply sublist_NoDup; [|by apply sublist_omap]. done. Qed.

Lemma remove_first_other g h c items :
  (∀ i, g i = Some c → h i = None) →
  id_set h (remove_first_matching (has_id g c) items) = id_set h items.
Proof.
  intros Hd. induction items as [|i items IH]; [done|]. simpl. unfold has_id at 1.
  destruct (bool_decide_reflect (g i = Some c)) as [Hg|Hg]; rewrite !id_set_cons.
  - rewrite (Hd i Hg). set_solver.
  - by rewrite IH.
Qed.

Lemma unique_cons f i items c :
  f i = Some c → unique f (i :: items) → c ∉ id_set f items ∧ unique f items.
Proof.
  unfold unique, id_set. intros Hf. simpl. rewrite Hf. intros [Hn Hu]%NoDup_cons.
  by rewrite elem_of_list_to_set.
Qed.

Lemma unique_cons_inv f i items : unique f (i :: items) → unique f items.
Proof. apply unique_sublist. by apply sublist_cons. Qed.

Lemma remove_first_same g c items :
  unique g items →
  id_set g (remove_first_matching (has_id g c) items) = id_set g items ∖ {[c]}.
Proof.
  induction items as [|i items IH]; intros Hu; [set_solver|]. simpl. unfold has_id at 1.
  destruct (bool_decide_reflect (g i = Some c)) as [Hg|Hg]; rewrite !id_set_cons.
  - rewrite Hg. destruct (unique_cons _ _ _ _ Hg Hu). set_solver.
  - rewrite IH by by eapply unique_cons_inv. destruct (g i) as [d|]; [|set_solver].
    assert (d ≠ c) by congruence. set_solver.
Qed.

(** Dropping an item with id [c] in the space [f] and its counterpart in the space [g]: the
    id leaves both spaces and the other spaces are as they were. *)
Lemma pair_removed f g i c items :
  unique f (i :: items) → unique g (i :: items) → f i = Some c → g i = None →
  (∀ j, g j = Some c → f j = None) →
  let r := remove_first_matching (has_id g c) items in
  id_set f r = id_set f (i :: items) ∖ {[c]} ∧
  id_set g r = id_set g (i :: items) ∖ {[c]} ∧
  (∀ h, h i = None → (∀ j, g j = Some c → h j = None) → id_set h r = id_set h (i :: items)).
Proof.
  intros Huf Hug Hf Hg Hd. cbv zeta. split_and!.
  - rewrite remove_first_other, id_set_cons, Hf by done.
    destruct (unique_cons _ _ _ _ Hf Huf). set_solver.
  - rewrite remove_first_same by by eapply unique_cons_inv. rewrite id_set_cons, Hg. set_solver.
  - intros h Hh Hdh. rewrite remove_first_other, id_set_cons, Hh by done. set_solver.
Qed.

(** [well_paired], space by space. *)
Lemma well_paired_spaces items :
  well_paired items ↔
  id_set fn_call_id items = id_set function_output_id items ∧
  id_set custom_tool_call_id items = id_set custom_tool_output_id items ∧
  id_set tool_search_call_id items ⊆ id_set tool_search_output_id items ∧
  id_set client_search_output_id items ⊆ id_set tool_search_call_id items.
Proof.
  unfold well_paired, calls_answered, outputs_called. rewrite fn_call_set. split.
  - intros [(? & ? & ?) (? & ? & ?)]. split_and!; [apply set_eq; set_solver..|done|done].
  - intros (-> & -> & ? & ?). set_solver.
Qed.

(** The client outputs after a removal are client outputs whose id is still an output. *)
Lemma client_ids_sublist l k :
  l `sublist_of` k →
  id_set client_search_output_id l ⊆ id_set client_search_output_id k ∩ id_set tool_search_output_id l.
Proof.
  intros Hs c. rewrite elem_of_intersection, !elem_id_set. intros (i & Hi & Hc).
  split; [exists i; split; [by eapply sublist_subseteq|done]|].
  exists i. split; [done|]. destruct i; simplify_eq/=. by case_match.
Qed.

Lemma has_id_true f c i : f i = Some c → has_id f c i = true.
Proof. intros. by apply bool_decide_eq_true. Qed.

Lemma has_id_false f c i : f i ≠ Some c → has_id f c i = false.
Proof. intros. by apply bool_decide_eq_false. Qed.

Lemma remove_function_or_shell c items :
  unique fn_call_id items →
  (if existsb (has_id function_call_id c) items
   then remove_first_matching (has_id function_call_id c) items
   else remove_first_matching (has_id local_shell_call_id c) items) =
  remove_first_matching (has_id fn_call_id c) items.
Proof.
  induction items as [|j items IH]; intros Hu; [done|]. simpl.
  destruct (decide (fn_call_id j = Some c)) as [Hj|Hj].
  - rewrite (has_id_true fn_call_id) by done.
    destruct (unique_cons _ _ _ _ Hj Hu) as [Hn _].
    assert (existsb (has_id function_call_id c) items = false) as He.
    { apply not_true_iff_false. intros (k & Hk & Hc%bool_decide_eq_true)%existsb_exists. apply Hn.
      rewrite fn_call_set, elem_of_union, elem_id_set. left. exists k. by rewrite list_elem_of_In. }
    rewrite He, orb_false_r. destruct j; simplify_eq/=; unfold has_id; simpl;
      by rewrite bool_decide_true.
  - rewrite <-IH by by eapply unique_cons_inv.
    rewrite !has_id_false by (destruct j; done). simpl. by destruct (existsb _ items).
Qed.

Lemma remove_corresponding_sublist i items : remove_corresponding_for items i `sublist_of` items.
Proof.
  unfold remove_corresponding_for. repeat case_match; try done; apply remove_first_sublist.
Qed.

Ltac disjoint_ids := intros []; simpl; by repeat (case_match; simplify_eq/=).

Ltac pair_case Hf Hg :=
  destruct (pair_removed _ _ _ _ _ Hf Hg eq_refl eq_refl) as (E1 & E2 & E3); [disjoint_ids|];
  cbv zeta in *; rewrite E1, E2 in *; rewrite !E3 in * by (reflexivity || disjoint_ids); set_solver.

Lemma remove_corresponding_paired i items :
  unique_ids (i :: items) → well_paired (i :: items) →
  unique_ids (remove_corresponding_for items i) ∧ well_paired (remove_corresponding_for items i).
Proof.
  intros Hu Hp. split.
  { destruct Hu as (? & ? & ? & ? & ? & ?).
    assert (remove_corresponding_for items i `sublist_of` i :: items) as Hs
      by (apply sublist_cons, remove_corresponding_sublist).
    unfold unique_ids. split_and!; by eapply unique_sublist. }
  pose proof (client_ids_sublist _ _ (remove_corresponding_sublist i items)) as Hcl.
  assert (id_set client_search_output_id items ⊆ id_set client_search_output_id (i :: items)) as Hsub
    by (rewrite id_set_cons; set_solver).
  rewrite well_paired_spaces in *. destruct Hp as (H1 & H2 & H3 & H4).
  destruct Hu as (Hu1 & Hu2 & Hu3 & Hu4 & Hu5 & Hu6).
  assert (∀ h, h i = None → id_set h (i :: items) = id_set h items) as Hnone
    by (intros h Hh; rewrite id_set_cons, Hh; set_solver).
  destruct i as [| | |x [c|]| |x [c|]| | | |x [c|]| | | | | |];
    cbn [remove_corresponding_for] in *;
    try (rewrite !Hnone in * by (simpl; by repeat case_match); by split_and!);
    try rewrite remove_function_or_shell in * by by eapply unique_cons_inv.
  - pair_case Hu1 Hu2.
  - pair_case Hu1 Hu2.
  - pair_case Hu3 Hu4.
  - pair_case Hu2 Hu1.
  - pair_case Hu5 Hu6.
  - pair_case Hu6 Hu5.
  - pair_case Hu4 Hu3.
Qed.
