(* ===== verification/History.v ===== *)
(** * The context manager

    codex-rs/core/src/context_manager/history.rs: the transcript of a thread, its token
    accounting and its rewrites (recording, rollback, image replacement), with
    [TokenUsageInfo] of codex-rs/protocol/src/protocol.rs.

    Parameters: the turn-context and environment-context values the manager stores and only
    compares, the recogniser of hook prompts ([HookXml]), whether [serde_json] reads a text
    as an inter-agent communication ([InterAgentJson]), the length of an item's JSON text
    ([ItemJson]) and the size of a decoded image ([ImageDecoder]).  The cache of image
    estimates only remembers the result of a pure function and is left out.  An [i64] is a
    [Z]; the plain additions of [TokenUsage] wrap as a release build's do. *)

From S2P Require Import Prelude Str Json Protocol OutputTrunc Fragments Normalize.

(** ** [policy * 1.2] in [f64] *)

(** An integer rounded to 53 significant bits, ties to even. *)
Definition round53 (m : N) : N :=
  let k := (N.log2 m - 52)%N in
  if (k =? 0)%N then m
  else
    let q := (m / 2 ^ k)%N in
    let r := (m mod 2 ^ k)%N in
    let half := (2 ^ (k - 1))%N in
    let q' := if (r <? half)%N then q
              else if (half <? r)%N then (q + 1)%N
              else if N.even q then q else (q + 1)%N in
    (q' * 2 ^ k)%N.

(** The significand of the [f64] nearest to 1.2, whose exponent is [-52]. *)
Definition f64_1_2 : N := 5404319552844595.

(** [(n as f64 * 1.2).ceil() as usize] *)
Definition scale_1_2 (n : N) : N :=
  let product := round53 (round53 n * f64_1_2)%N in
  N.min usize_max ((product + (2 ^ 52 - 1)) / 2 ^ 52)%N.

Definition policy_mul_1_2 (p : TruncationPolicy) : TruncationPolicy :=
  match p with
  | Bytes bytes => Bytes (scale_1_2 bytes)
  | Tokens tokens => Tokens (scale_1_2 tokens)
  end.

(** ** [i64] arithmetic *)

Definition i64_sat (z : Z) : Z := Z.max i64_min (Z.min i64_max z).
Definition sat_add_i64 (a b : Z) : Z := i64_sat (a + b).
Definition sat_sub_i64 (a b : Z) : Z := i64_sat (a - b).
Definition sat_mul_i64 (a b : Z) : Z := i64_sat (a * b).

(** [i64::try_from(n).unwrap_or(i64::MAX)] for a [usize] *)
Definition i64_of_usize (n : N) : Z := Z.min i64_max (Z.of_N n).

(** ** Token usage (protocol.rs) *)

Definition default_usage : TokenUsage :=
  {| input_tokens := 0; cached_input_tokens := 0; output_tokens := 0;
     reasoning_output_tokens := 0; total_tokens := 0 |}.

Definition total_usage (n : Z) : TokenUsage :=
  {| input_tokens := 0; cached_input_tokens := 0; output_tokens := 0;
     reasoning_output_tokens := 0; total_tokens := n |}.

Definition add_assign (a b : TokenUsage) : TokenUsage :=
  {| input_tokens := wrap_i64 (input_tokens a + input_tokens b);
     cached_input_tokens := wrap_i64 (cached_input_tokens a + cached_input_tokens b);
     output_tokens := wrap_i64 (output_tokens a + output_tokens b);
     reasoning_output_tokens := wrap_i64 (reasoning_output_tokens a + reasoning_output_tokens b);
     total_tokens := wrap_i64 (total_tokens a + total_tokens b) |}.

Record TokenUsageInfo := {
  total_token_usage : TokenUsage;
  last_token_usage : TokenUsage;
  model_context_window : option Z;
}.

Definition append_last_usage (info : TokenUsageInfo) (last : TokenUsage) : TokenUsageInfo :=
  {| total_token_usage := add_assign (total_token_usage info) last;
     last_token_usage := last;
     model_context_window := model_context_window info |}.

Definition new_or_append (info : option TokenUsageInfo) (last : option TokenUsage)
    (window : option Z) : option TokenUsageInfo :=
  match info, last with
  | None, None => None
  | _, _ =>
      let info := match info with
                  | Some info => info
                  | None => {| total_token_usage := default_usage;
                               last_token_usage := default_usage;
                               model_context_window := window |}
                  end in
      let info := match last with Some last => append_last_usage info last | None => info end in
      Some (match window with
            | Some w => {| total_token_usage := total_token_usage info;
                           last_token_usage := last_token_usage info;
                           model_context_window := Some w |}
            | None => info
            end)
  end.

Definition fill_to_context_window (info : TokenUsageInfo) (context_window : Z) : TokenUsageInfo :=
  let previous_total := total_tokens (total_token_usage info) in
  let delta := Z.max (wrap_i64 (context_window - previous_total)) 0 in
  {| total_token_usage := total_usage context_window;
     last_token_usage := total_usage delta;
     model_context_window := Some context_window |}.

Definition full_context_window (context_window : Z) : TokenUsageInfo :=
  fill_to_context_window
    {| total_token_usage := default_usage; last_token_usage := default_usage;
       model_context_window := Some context_window |} context_window.

(** ** Classifying items *)

Class InterAgentJson := inter_agent_from_str : string → bool.

(** [InterAgentCommunication::is_message_content] *)
Definition is_inter_agent_instruction_content `{InterAgentJson} (content : list ContentItem) : bool :=
  match content with
  | [InputText text] | [OutputText text] => inter_agent_from_str text
  | _ => false
  end.

Definition is_user_turn_boundary `{HookXml, InterAgentJson} (item : ResponseItem) : bool :=
  match item with
  | AgentMessage _ _ _ _ _ => true
  | Message _ role content _ _ =>
      (str_eqb role "user" && negb (is_contextual_user_message_content content)) ||
      (str_eqb role "assistant" && is_inter_agent_instruction_content content)
  | _ => false
  end.

Definition is_api_message (message : ResponseItem) : bool :=
  match message with
  | Message _ role _ _ _ => negb (str_eqb role "system")
  | CompactionTrigger _ => false
  | Other => false
  | _ => true
  end.

Definition is_model_generated_item (item : ResponseItem) : bool :=
  match item with
  | Message _ role _ _ _ => str_eqb role "assistant"
  | Reasoning _ _ _ _ _ | FunctionCall _ _ _ _ _ _ | ToolSearchCall _ _ _ _ _ _
  | WebSearchCall _ _ _ _ | ImageGenerationCall _ _ _ _ _ | CustomToolCall _ _ _ _ _ _
  | LocalShellCall _ _ _ _ _ | Compaction _ _ _ | ContextCompaction _ _ _ => true
  | CompactionTrigger _ => false
  | FunctionCallOutput _ _ _ _ | ToolSearchOutput _ _ _ _ _ _ | CustomToolCallOutput _ _ _ _ _
  | AgentMessage _ _ _ _ _ | Other => false
  end.

(** [user_message_positions] *)
Fixpoint positions_from {A} (p : A → bool) (idx : nat) (items : list A) : list nat :=
  match items with
  | [] => []
  | item :: r => (if p item then [idx] else []) ++ positions_from p (S idx) r
  end.

Definition user_message_positions `{HookXml, InterAgentJson} (items : list ResponseItem) : list nat :=
  positions_from is_user_turn_boundary 0 items.

(** [iter().rposition(p)] *)
Definition rposition {A} (p : A → bool) (items : list A) : option nat := last (positions_from p 0 items).

(** ** Recording *)

Definition truncate_function_output_payload (output : FunctionCallOutputPayload)
    (policy : TruncationPolicy) : FunctionCallOutputPayload :=
  {| body := match body output with
             | BodyText content => BodyText (truncate_text content policy)
             | BodyContentItems items =>
                 BodyContentItems (truncate_function_output_items_with_policy items policy)
             end;
     success := success output |}.

Definition process_item (item : ResponseItem) (policy : TruncationPolicy) : ResponseItem :=
  let policy_with_serialization_budget := policy_mul_1_2 policy in
  match item with
  | FunctionCallOutput id call_id output metadata =>
      FunctionCallOutput id call_id
        (truncate_function_output_payload output policy_with_serialization_budget) metadata
  | CustomToolCallOutput id call_id name output metadata =>
      CustomToolCallOutput id call_id name
        (truncate_function_output_payload output policy_with_serialization_budget) metadata
  | _ => item
  end.

(** ** Estimating tokens *)

(** The length of [serde_json::to_string(item)], if it succeeds. *)
Class ItemJson := serialized_len : ResponseItem → option N.

(** Width and height of the image a base64 payload decodes to, if it does. *)
Class ImageDecoder := decode_image : string → option (N * N).

Definition estimate_reasoning_length (encoded_len : N) : N :=
  (sat_mul encoded_len 3 / 4 - 650)%N.

Definition estimate_encrypted_function_output_length (encoded_len : N) : N :=
  ((sat_mul encoded_len 9 + 15) / 16)%N.

Definition RESIZED_IMAGE_BYTES_ESTIMATE : Z := 7373.
Definition ORIGINAL_IMAGE_PATCH_SIZE : Z := 32.
Definition ORIGINAL_IMAGE_MAX_PATCHES : N := 10000.

Definition parse_base64_image_data_url (url : string) : option string :=
  if negb (is_some_and (get_to 5 url) (λ prefix, eq_ignore_ascii_case prefix "data:")) then None
  else
    match find "," url with
    | None => None
    | Some comma_index =>
        let metadata := str_take comma_index url in
        let payload := str_drop (comma_index + 1) url in
        let metadata_without_scheme := str_drop 5 metadata in
        let parts := split_char ";"%char metadata_without_scheme in
        let mime_type := default EmptyString (head parts) in
        let has_base64_marker := existsb (λ part, eq_ignore_ascii_case part "base64") (tail parts) in
        if negb (is_some_and (get_to 6 mime_type) (λ prefix, eq_ignore_ascii_case prefix "image/"))
        then None
        else if negb has_base64_marker then None
        else Some payload
    end.

Definition estimate_original_image_bytes `{ImageDecoder} (image_url : string) : option Z :=
  match parse_base64_image_data_url image_url with
  | None => None
  | Some payload =>
      match decode_image payload with
      | None => None
      | Some (width, height) =>
          let patch_size := ORIGINAL_IMAGE_PATCH_SIZE in
          let patches d := (sat_add_i64 (Z.of_N d) (sat_sub_i64 patch_size 1) / patch_size)%Z in
          let patch_count := sat_mul_i64 (patches width) (patches height) in
          let patch_count := N.min (Z.to_N patch_count) ORIGINAL_IMAGE_MAX_PATCHES in
          Some (i64_of_usize (approx_bytes_for_tokens patch_count))
      end
  end.

(** The closure [accumulate]: payload and replacement bytes summed over the images. *)
Definition accumulate `{ImageDecoder} (acc : Z * Z) (image : string * option ImageDetail) : Z * Z :=
  let '(image_url, detail) := image in
  match parse_base64_image_data_url image_url with
  | Some payload =>
      (sat_add_i64 (fst acc) (i64_of_usize (len payload)),
       sat_add_i64 (snd acc)
         (match detail with
          | Some DetailOriginal =>
              default RESIZED_IMAGE_BYTES_ESTIMATE (estimate_original_image_bytes image_url)
          | _ => RESIZED_IMAGE_BYTES_ESTIMATE
          end))
  | None => acc
  end.

(** The images of an item, in order. *)
Definition item_images (item : ResponseItem) : list (string * option ImageDetail) :=
  match item with
  | Message _ _ content _ _ =>
      omap (λ c, match c with InputImage url detail => Some (url, detail) | _ => None end) content
  | FunctionCallOutput _ _ output _ | CustomToolCallOutput _ _ _ output _ =>
      match body output with
      | BodyContentItems items =>
          omap (λ c, match c with OutInputImage url detail => Some (url, detail) | _ => None end) items
      | BodyText _ => []
      end
  | _ => []
  end.

Definition image_data_url_estimate_adjustment `{ImageDecoder} (item : ResponseItem) : Z * Z :=
  fold_left accumulate (item_images item) (0, 0)%Z.

Definition encrypted_step (acc : Z * Z) (item : FunctionCallOutputContentItem) : Z * Z :=
  match item with
  | OutEncryptedContent encrypted_content =>
      (sat_add_i64 (fst acc) (i64_of_usize (len encrypted_content)),
       sat_add_i64 (snd acc)
         (i64_of_usize (estimate_encrypted_function_output_length (len encrypted_content))))
  | _ => acc
  end.

Definition encrypted_function_output_estimate_adjustment (item : ResponseItem) : Z * Z :=
  match item with
  | FunctionCallOutput _ _ output _ =>
      match body output with
      | BodyContentItems items => fold_left encrypted_step items (0, 0)%Z
      | BodyText _ => (0, 0)%Z
      end
  | _ => (0, 0)%Z
  end.

Definition estimate_response_item_model_visible_bytes `{ItemJson, ImageDecoder} (item : ResponseItem) : Z :=
  match item with
  | Reasoning _ _ _ (Some content) _ | Compaction _ content _ | ContextCompaction _ (Some content) _ =>
      i64_of_usize (estimate_reasoning_length (len content))
  | _ =>
      let raw := match serialized_len item with Some n => i64_of_usize n | None => 0%Z end in
      let '(image_payload_bytes, image_replacement_bytes) := image_data_url_estimate_adjustment item in
      let '(encrypted_payload_bytes, encrypted_replacement_bytes) :=
        encrypted_function_output_estimate_adjustment item in
      let raw := sat_add_i64 (sat_sub_i64 raw image_payload_bytes) image_replacement_bytes in
      sat_add_i64 (sat_sub_i64 raw encrypted_payload_bytes) encrypted_replacement_bytes
  end.

Definition estimate_item_token_count `{ItemJson, ImageDecoder} (item : ResponseItem) : Z :=
  approx_tokens_from_byte_count_i64 (estimate_response_item_model_visible_bytes item).

(** [.map(estimate_item_token_count).fold(0i64, i64::saturating_add)] *)
Definition estimate_items `{ItemJson, ImageDecoder} (items : list ResponseItem) : Z :=
  fold_left sat_add_i64 (estimate_item_token_count <$> items) 0%Z.

(** ** The manager *)

Section manager.
  Context {TurnContextItem TEnvironmentContext : Type} `{EqDecision TEnvironmentContext}.
  Context `{HookXml, InterAgentJson, ItemJson, ImageDecoder}.

Record ContextManager := {
  items : list ResponseItem;
  history_version : N;
  token_info : option TokenUsageInfo;
  reference_context_item : option TurnContextItem;
  environment_context_baseline : option TEnvironmentContext;
}.

Definition new : ContextManager :=
  {| items := []; history_version := 0; token_info := new_or_append None None None;
     reference_context_item := None; environment_context_baseline := None |}.

Definition set_items (l : list ResponseItem) (m : ContextManager) : ContextManager :=
  {| items := l; history_version := history_version m; token_info := token_info m;
     reference_context_item := reference_context_item m;
     environment_context_baseline := environment_context_baseline m |}.

Definition set_token_info (info : option TokenUsageInfo) (m : ContextManager) : ContextManager :=
  {| items := items m; history_version := history_version m; token_info := info;
     reference_context_item := reference_context_item m;
     environment_context_baseline := environment_context_baseline m |}.

Definition set_reference_context_item (item : option TurnContextItem) (m : ContextManager) :
    ContextManager :=
  {| items := items m; history_version := history_version m; token_info := token_info m;
     reference_context_item := item;
     environment_context_baseline := environment_context_baseline m |}.

Definition set_baseline (b : option TEnvironmentContext) (m : ContextManager) : ContextManager :=
  {| items := items m; history_version := history_version m; token_info := token_info m;
     reference_context_item := reference_context_item m;
     environment_context_baseline := b |}.

(** [history_version.saturating_add(1)] *)
Definition bump_version (m : ContextManager) : ContextManager :=
  {| items := items m; history_version := sat_add (history_version m) 1; token_info := token_info m;
     reference_context_item := reference_context_item m;
     environment_context_baseline := environment_context_baseline m |}.

Definition update_environment_context_baseline (context : TEnvironmentContext) (m : ContextManager) :
    ContextManager * bool :=
  if bool_decide (environment_context_baseline m = Some context) then (m, false)
  else (set_baseline (Some context) m, true).

Definition set_token_usage_full (context_window : Z) (m : ContextManager) : ContextManager :=
  set_token_info
    (Some (match token_info m with
           | Some info => fill_to_context_window info context_window
           | None => full_context_window context_window
           end)) m.

Definition update_token_info (usage : TokenUsage) (window : option Z) (m : ContextManager) :
    ContextManager :=
  set_token_info (new_or_append (token_info m) (Some usage) window) m.

Definition record_step (policy : TruncationPolicy) (m : ContextManager) (item : ResponseItem) :
    ContextManager :=
  if negb (is_api_message item) then m
  else set_items (items m ++ [process_item item policy]) m.

Definition record_items (l : list ResponseItem) (policy : TruncationPolicy) (m : ContextManager) :
    ContextManager := fold_left (record_step policy) l m.

(** [for_prompt]; the second component is what [normalize_history] reports. *)
Definition for_prompt (input_modalities : list InputModality) (m : ContextManager) :
    list ResponseItem * list string := normalize_items input_modalities (items m).

Definition remove_first_item (m : ContextManager) : ContextManager :=
  match items m with
  | [] => m
  | removed :: rest =>
      set_baseline None (set_items (remove_corresponding_for rest removed) m)
  end.

Definition replace (l : list ResponseItem) (m : ContextManager) : ContextManager :=
  set_baseline None (bump_version (set_items l m)).

Definition is_image_output (item : FunctionCallOutputContentItem) : bool :=
  match item with OutInputImage _ _ => true | _ => false end.

Definition replace_last_turn_images (placeholder : string) (m : ContextManager) :
    ContextManager * bool :=
  match rposition (λ item,
          match item with FunctionCallOutput _ _ _ _ => true | _ => false end ||
          is_user_turn_boundary item) (items m) with
  | None => (m, false)
  | Some index =>
      match items m !! index with
      | Some (FunctionCallOutput id call_id output meta) =>
          match body output with
          | BodyText _ => (m, false)
          | BodyContentItems content_items =>
              let replaced := existsb is_image_output content_items in
              let content_items :=
                (λ item, if is_image_output item then OutInputText placeholder else item)
                  <$> content_items in
              let output := {| body := BodyContentItems content_items; success := success output |} in
              let m := set_items (<[index := FunctionCallOutput id call_id output meta]> (items m)) m in
              (if replaced then bump_version m else m, replaced)
          end
      | _ => (m, false)
      end
  end.

(** The loop of [trim_pre_turn_context_updates]: one round per index, down to
    [first_instruction_turn_idx]; the second component tells whether the reference context
    item was cleared. *)
Fixpoint trim_loop (snapshot : list ResponseItem) (first_instruction_turn_idx cut_idx : nat)
    (cleared : bool) : nat * bool :=
  match cut_idx with
  | 0 => (0, cleared)
  | S cut_idx' =>
      if cut_idx <=? first_instruction_turn_idx then (cut_idx, cleared)
      else
        match snapshot !! cut_idx' with
        | Some (Message _ role content _ _) =>
            if str_eqb role "developer" && is_contextual_dev_message_content content then
              trim_loop snapshot first_instruction_turn_idx cut_idx'
                (cleared || has_non_contextual_dev_message_content content)
            else if str_eqb role "user" && is_contextual_user_message_content content then
              trim_loop snapshot first_instruction_turn_idx cut_idx' cleared
            else (cut_idx, cleared)
        | _ => (cut_idx, cleared)
        end
  end.

Definition trim_pre_turn_context_updates (snapshot : list ResponseItem)
    (first_instruction_turn_idx cut_idx : nat) (m : ContextManager) : ContextManager * nat :=
  let '(cut_idx, cleared) := trim_loop snapshot first_instruction_turn_idx cut_idx false in
  (if cleared then set_reference_context_item None m else m, cut_idx).

Definition drop_last_n_user_turns (num_turns : nat) (m : ContextManager) : ContextManager :=
  if num_turns =? 0 then m
  else
    let snapshot := items m in
    let user_positions := user_message_positions snapshot in
    match user_positions with
    | [] => replace snapshot m
    | first_instruction_turn_idx :: _ =>
        let n_from_end := num_turns in
        let cut_idx :=
          if length user_positions <=? n_from_end then first_instruction_turn_idx
          else nth (length user_positions - n_from_end) user_positions 0 in
        let '(m, cut_idx) :=
          trim_pre_turn_context_updates snapshot first_instruction_turn_idx cut_idx m in
        replace (take cut_idx snapshot) m
    end.

Definition estimate_token_count_with_base_instructions (base_instructions : string)
    (m : ContextManager) : option Z :=
  let base_tokens := i64_of_usize (approx_token_count base_instructions) in
  let items_tokens := estimate_items (items m) in
  Some (sat_add_i64 base_tokens items_tokens).

Definition is_encrypted_reasoning (item : ResponseItem) : bool :=
  match item with Reasoning _ _ _ (Some _) _ => true | _ => false end.

Definition get_non_last_reasoning_items_tokens (m : ContextManager) : Z :=
  match rposition is_user_turn_boundary (items m) with
  | None => 0
  | Some last_user_index =>
      estimate_items (List.filter is_encrypted_reasoning (take last_user_index (items m)))
  end.

Definition items_after_last_model_generated_item (m : ContextManager) : list ResponseItem :=
  let start := match rposition is_model_generated_item (items m) with
               | Some index => index + 1
               | None => length (items m)
               end in
  drop start (items m).

Definition get_total_token_usage (server_reasoning_included : bool) (m : ContextManager) : Z :=
  let last_tokens :=
    match token_info m with Some info => total_tokens (last_token_usage info) | None => 0%Z end in
  let items_after_last_model_generated_tokens :=
    estimate_items (items_after_last_model_generated_item m) in
  if server_reasoning_included then
    sat_add_i64 last_tokens items_after_last_model_generated_tokens
  else
    sat_add_i64 (sat_add_i64 last_tokens (get_non_last_reasoning_items_tokens m))
      items_after_last_model_generated_tokens.

Definition estimated_tokens_after_last_model_generated_item (m : ContextManager) : Z :=
  estimate_items (items_after_last_model_generated_item m).

End manager.
