(* ===== verification/HistoryFacts.v ===== *)
(** * What the context manager guarantees

    Theorems about History.v: a recorded output within the policy is stored as it is, a
    rollback cuts exactly the turns it is asked for, the oldest item leaves together with
    its counterpart, the version of the history changes with every rewrite, and the token
    estimate is the exact sum, saturated. *)

From S2P Require Import Prelude Str Json Protocol OutputTrunc Fragments Normalize History.

(** ** The serialisation budget is never below the policy *)

Lemma round53_lower m : (m * (2 ^ 52 - 1) <= round53 m * 2 ^ 52)%N.
Proof.
  unfold round53. destruct (N.eqb_spec (N.log2 m - 52) 0) as [Hk|Hk].
  { rewrite N.mul_sub_distr_l. lia. }
  set (k := (N.log2 m - 52)%N) in *.
  assert (m ≠ 0)%N as Hm by (intros ->; by apply Hk).
  assert (2 ^ (k + 52) <= m)%N as Hlow.
  { unfold k in *. rewrite N.sub_add by lia. apply N.log2_spec. lia. }
  rewrite N.pow_add_r in Hlow.
  pose proof (N.div_mod m (2 ^ k)) as Hdm. pose proof (N.mod_lt m (2 ^ k)) as Hlt.
  assert (2 ^ k ≠ 0)%N as H2 by (apply N.pow_nonzero; lia).
  specialize (Hdm H2). specialize (Hlt H2).
  set (q := (m / 2 ^ k)%N) in *. set (r := (m mod 2 ^ k)%N) in *.
  set (q' := if (r <? _)%N then _ else _).
  assert (q <= q')%N as Hq by (unfold q'; repeat case_match; lia).
  clearbody q q' r. nia.
Qed.

Lemma scale_1_2_ge n : (n <= usize_max → n <= scale_1_2 n)%N.
Proof.
  intros Hn. unfold scale_1_2. apply N.min_glb; [done|].
  apply N.div_le_lower_bound; [done|].
  pose proof (round53_lower n) as H1. pose proof (round53_lower (round53 n * f64_1_2)) as H2.
  unfold f64_1_2 in *. set (a := round53 n) in *. set (b := round53 _) in *. clearbody a b.
  change (2 ^ 52)%N with 4503599627370496%N in *. lia.
Qed.

Lemma sat_mul_le a b c : (a <= b → sat_mul a c <= sat_mul b c)%N.
Proof. unfold sat_mul. intros. nia. Qed.

Lemma policy_scale_budget p :
  policy_ok p → (byte_budget p <= byte_budget (policy_mul_1_2 p))%N ∧
                (item_budget p <= item_budget (policy_mul_1_2 p))%N.
Proof.
  destruct p as [n|n]; simpl; intros Hn; apply scale_1_2_ge in Hn; (split; [|lia]); [lia|].
  by apply sat_mul_le.
Qed.

(** The body of an output is within the policy: a text by its bytes, content items by what
    their texts cost. *)
Definition within_policy (p : TruncationPolicy) (o : FunctionCallOutputPayload) : Prop :=
  match body o with
  | BodyText s => (len s <= byte_budget p)%N
  | BodyContentItems l => texts_fit l ∧ (total_cost p l < item_budget p)%N
  end.

Lemma total_cost_scaled p l : total_cost (policy_mul_1_2 p) l = total_cost p l.
Proof. destruct p; done. Qed.

Lemma payload_verbatim p o :
  policy_ok p → within_policy p o → truncate_function_output_payload o (policy_mul_1_2 p) = o.
Proof.
  intros [Hb Hi]%policy_scale_budget. unfold within_policy, truncate_function_output_payload.
  destruct o as [[s|l] ok]; simpl.
  - intros Hs. rewrite truncate_text_fits by lia. done.
  - intros [Hf Hc]. do 2 f_equal.
    apply (items_cut_fits (policy_mul_1_2 p)), truncate_items_cut; [|done].
    rewrite total_cost_scaled. lia.
Qed.

(** The output of an item that carries one. *)
Definition item_output (i : ResponseItem) : option FunctionCallOutputPayload :=
  match i with
  | FunctionCallOutput _ _ o _ | CustomToolCallOutput _ _ _ o _ => Some o
  | _ => None
  end.

Lemma process_item_verbatim p i :
  policy_ok p → (∀ o, item_output i = Some o → within_policy p o) → process_item i p = i.
Proof. intros Hp Ho. destruct i; simpl; try done; by rewrite payload_verbatim by auto. Qed.

Section manager.
  Context {TurnContextItem TEnvironmentContext : Type} `{EqDecision TEnvironmentContext}.
  Context `{HookXml, InterAgentJson, ItemJson, ImageDecoder}.
  Notation manager := (@ContextManager TurnContextItem TEnvironmentContext).

Lemma record_items_eq l p (m : manager) :
  record_items l p m = set_items (items m ++ ((λ i, process_item i p) <$> List.filter is_api_message l)) m.
Proof.
  unfold record_items. revert m. induction l as [|i l IH]; intros m.
  { destruct m; unfold set_items; simpl. by rewrite app_nil_r. }
  simpl. rewrite IH. unfold record_step. destruct (is_api_message i); simpl; [|done].
  unfold set_items; simpl. by rewrite <-app_assoc.
Qed.
End manager.

(** Recording appends the items the API takes, in order, and changes nothing
    else; an item whose tool output is within the truncation policy is stored exactly as it
    came (the budget is scaled by 1.2 in floating point, which never falls below the
    policy), and the call ids of every item survive the truncation. *)
Theorem record_items_spec {T E : Type} l p (m : @ContextManager T E) :
  policy_ok p →
  ∃ recorded,
    record_items l p m = set_items (items m ++ recorded) m ∧
    Forall2 (λ i j,
      (∀ f, f ∈ [function_call_id; local_shell_call_id; tool_search_call_id; custom_tool_call_id;
                 function_output_id; tool_search_output_id; custom_tool_output_id] → f j = f i) ∧
      ((∀ o, item_output i = Some o → within_policy p o) → j = i))
      (List.filter is_api_message l) recorded.
Proof.
  intros Hp. eexists. split; [apply record_items_eq|].
  induction (List.filter is_api_message l) as [|i k IH]; [constructor|].
  constructor; [|exact IH]. split; [|by apply process_item_verbatim].
  intros f Hf. rewrite list_elem_of_In in Hf. simpl in Hf.
  destruct_or!; subst; try done; by destruct i.
Qed.

Lemma record_items_spec_witness :
  ∃ recorded,
    record_items [Other; FunctionCallOutput None "c" aborted None] (Bytes 10)
      (@new unit unit) = set_items ([] ++ recorded) new ∧
    length recorded = 1.
Proof.
  destruct (record_items_spec [Other; FunctionCallOutput None "c" aborted None] (Bytes 10)
    (@new unit unit)) as (r & Hr & Hf); [vm_compute; discriminate|].
  exists r. split; [exact Hr|]. by apply Forall2_length in Hf.
Defined.

(** ** Positions *)

Definition count {A} (p : A → bool) (l : list A) : nat := length (List.filter p l).

Lemma count_app {A} (p : A → bool) l k : count p (l ++ k) = count p l + count p k.
Proof. unfold count. by rewrite List.filter_app, length_app. Qed.

Lemma count_none {A} (p : A → bool) l : Forall (λ x, p x = false) l → count p l = 0.
Proof. unfold count. induction 1 as [|x l Hx _ IH]; simpl; [done|]. by rewrite Hx. Qed.

Lemma positions_length {A} (p : A → bool) o l : length (positions_from p o l) = count p l.
Proof.
  unfold count. revert o. induction l as [|x l IH]; intros o; [done|]. simpl.
  rewrite length_app, IH. by destruct (p x).
Qed.

(** The [k]-th position has [k] hits before it. *)
Lemma positions_nth {A} (p : A → bool) o l k i :
  positions_from p o l !! k = Some i →
  ∃ pre x post, l = pre ++ x :: post ∧ i = o + length pre ∧ p x = true ∧ count p pre = k.
Proof.
  revert o k. induction l as [|x l IH]; intros o k; simpl; [done|].
  destruct (p x) eqn:Hx; simpl.
  - destruct k as [|k]; simpl; intros Hk; simplify_eq.
    + exists [], x, l. split_and!; [done|simpl; lia|done|done].
    + destruct (IH _ _ Hk) as (pre & y & post & -> & -> & Hy & Hc).
      exists (x :: pre), y, post. unfold count in *. simpl. rewrite Hx. simpl.
      split_and!; [done|lia|done|lia].
  - intros Hk. destruct (IH _ _ Hk) as (pre & y & post & -> & -> & Hy & Hc).
    exists (x :: pre), y, post. unfold count in *. simpl. rewrite Hx.
    split_and!; [done|lia|done|lia].
Qed.

(** ** Rolling back *)

Section rollback.
  Context `{HookXml, InterAgentJson}.

(** A context update that a rollback trims above the turn it cuts. *)
Definition context_update (i : ResponseItem) : bool :=
  match i with
  | Message _ role content _ _ =>
      (str_eqb role "developer" && is_contextual_dev_message_content content) ||
      (str_eqb role "user" && is_contextual_user_message_content content)
  | _ => false
  end.

(** A developer message that mixes contextual and persistent parts. *)
Definition mixed_bundle (i : ResponseItem) : bool :=
  match i with
  | Message _ role content _ _ =>
      str_eqb role "developer" && is_contextual_dev_message_content content &&
      has_non_contextual_dev_message_content content
  | _ => false
  end.

Lemma context_update_no_boundary i : context_update i = true → is_user_turn_boundary i = false.
Proof.
  destruct i; simpl; try done. intros [[Hr Hc]%andb_true_iff|[Hr Hc]%andb_true_iff]%orb_true_iff;
    apply str_eqb_true in Hr as ->; simpl; [done|]. by rewrite Hc.
Qed.

(** One round of the trimming loop. *)
Lemma trim_loop_step l f c b :
  f < S c →
  trim_loop l f (S c) b =
  match l !! c with
  | Some i => if context_update i then trim_loop l f c (b || mixed_bundle i) else (S c, b)
  | None => (S c, b)
  end.
Proof.
  intros Hf. cbn [trim_loop]. rewrite (proj2 (Nat.leb_gt _ _)) by lia.
  destruct (l !! c) as [i|]; [|done]. destruct i; simpl; try done.
  destruct (str_eqb role "developer" && is_contextual_dev_message_content content) eqn:E; simpl; [done|].
  destruct (str_eqb role "user" && _) eqn:E2; [|done]. by rewrite orb_false_r.
Qed.

Lemma trim_loop_spec l f c b :
  f ≤ c → c ≤ length l →
  ∃ c' trimmed, trim_loop l f c b = (c', b || existsb mixed_bundle trimmed) ∧
    f ≤ c' ≤ c ∧ take c l = take c' l ++ trimmed ∧
    Forall (λ i, context_update i = true) trimmed ∧
    (c' = f ∨ ∀ k i, take c' l = k ++ [i] → context_update i = false).
Proof.
  revert b. induction c as [|c IH]; intros b Hf Hc.
  { exists 0, []. replace f with 0 by lia. rewrite orb_false_r, app_nil_r. split_and!; auto; lia. }
  destruct (decide (f = S c)) as [->|Hne].
  { exists (S c), []. simpl. rewrite Nat.leb_refl, orb_false_r, app_nil_r. split_and!; auto; lia. }
  rewrite trim_loop_step by lia. destruct (lookup_lt_is_Some_2 l c) as [i Hi]; [lia|]. rewrite Hi.
  destruct (context_update i) eqn:Hu.
  - destruct (IH (b || mixed_bundle i)) as (c' & tr & -> & Hr & Ht & Hall & Hmax); [lia..|].
    exists c', (tr ++ [i]). rewrite existsb_app. simpl. rewrite orb_false_r.
    split_and!; [|lia|lia| |apply Forall_app; by repeat constructor|done].
    + f_equal. by rewrite (orb_comm (existsb _ _)), orb_assoc.
    + by rewrite (take_S_r _ _ i), Ht, <-app_assoc.
  - exists (S c), []. rewrite orb_false_r, app_nil_r. split_and!; [done|lia|lia|done|constructor|].
    right. intros k j. rewrite (take_S_r _ _ i) by done. intros [_ [= <-]]%app_inj_tail. done.
Qed.
End rollback.

Lemma count_zero {A} (p : A → bool) l : count p l = 0 → Forall (λ x, p x = false) l.
Proof.
  unfold count. induction l as [|x l IH]; simpl; [by constructor|].
  destruct (p x) eqn:E; simpl; [done|]. constructor; auto.
Qed.

(** A part without hits ends at or before any hit. *)
Lemma hit_after {A} (p : A → bool) pre0 x0 post0 pre x post :
  pre0 ++ x0 :: post0 = pre ++ x :: post → count p pre0 = 0 → p x = true →
  pre0 `prefix_of` pre.
Proof.
  revert pre. induction pre0 as [|y pre0 IH]; intros pre Heq Hc Hx; [apply prefix_nil|].
  destruct pre as [|z pre]; simplify_eq/=.
  - apply count_zero in Hc. inversion Hc; subst. congruence.
  - apply prefix_cons, IH; [done| |done]. unfold count in *. simpl in Hc.
    by destruct (p z); simplify_eq/=.
Qed.

Section rollback_spec.
  Context {T E : Type} `{HookXml, InterAgentJson}.

(** Where the cut falls before context updates are trimmed. *)
Lemma cut_position n l f ps :
  0 < n → user_message_positions l = f :: ps →
  ∃ pre x post, l = pre ++ x :: post ∧
    (if length (f :: ps) <=? n then f else nth (length (f :: ps) - n) (f :: ps) 0) = length pre ∧
    is_user_turn_boundary x = true ∧
    count is_user_turn_boundary pre = count is_user_turn_boundary l - n ∧
    f ≤ length pre ∧ count is_user_turn_boundary (take f l) = 0 ∧
    ∃ y r, l = take f l ++ y :: r ∧ is_user_turn_boundary y = true.
Proof.
  intros Hn Hps. destruct n as [|n]; [lia|].
  unfold user_message_positions in Hps.
  pose proof (positions_length is_user_turn_boundary 0 l) as Hlen. rewrite Hps in Hlen.
  destruct (positions_nth is_user_turn_boundary 0 l 0 f) as (pre0 & x0 & post0 & Hl0 & Hf & Hx0 & Hc0);
    [by rewrite Hps|].
  set (c := if _ <=? _ then _ else _).
  assert ((f :: ps) !! (count is_user_turn_boundary l - S n) = Some c) as Hc.
  { unfold c. rewrite <-Hlen. destruct (Nat.leb_spec (length (f :: ps)) (S n)).
    - by replace (length (f :: ps) - S n) with 0 by lia.
    - destruct (lookup_lt_is_Some_2 (f :: ps) (length (f :: ps) - S n)) as [y Hy]; [simpl in *; lia|].
      rewrite Hy. f_equal. symmetry. by apply nth_lookup_Some. }
  rewrite <-Hps in Hc. destruct (positions_nth _ _ _ _ _ Hc) as (pre & x & post & Hl & -> & Hx & Hcnt).
  exists pre, x, post. split_and!; [done|done|done|done| | |].
  - rewrite Hl in Hl0. pose proof (hit_after _ _ _ _ _ _ _ (eq_sym Hl0) Hc0 Hx) as Hp.
    apply prefix_length in Hp. simpl in Hf. lia.
  - subst f. rewrite Hl0. simpl. by rewrite take_app_length.
  - exists x0, post0. split; [|done]. subst f. rewrite Hl0. simpl. by rewrite take_app_length.
Qed.

Lemma count_updates tr :
  Forall (λ i, context_update i = true) tr → count is_user_turn_boundary tr = 0.
Proof.
  intros Ht. apply count_none. eapply Forall_impl; [exact Ht|]. apply context_update_no_boundary.
Qed.
End rollback_spec.

(** What a rollback by [n] turns leaves of [m]: the history is a prefix, then the context
    updates that belonged to the first turn dropped, then the turns dropped. *)
Record rolled_back {T E : Type} `{HookXml, InterAgentJson} (n : nat)
    (m m' : @ContextManager T E) (trimmed dropped : list ResponseItem) : Prop := {
  rb_items : items m = items m' ++ trimmed ++ dropped;
  (** exactly the last [n] turns go, or all of them *)
  rb_dropped : count is_user_turn_boundary dropped = min n (count is_user_turn_boundary (items m));
  rb_kept : count is_user_turn_boundary (items m') = count is_user_turn_boundary (items m) - n;
  rb_starts : ∀ x r, dropped = x :: r → is_user_turn_boundary x = true;
  (** all context updates above the cut go with them, unless the session prefix is reached *)
  rb_trimmed : Forall (λ i, context_update i = true) trimmed;
  rb_maximal : ∀ k i, items m' = k ++ [i] → context_update i = true →
    count is_user_turn_boundary (items m') = 0;
  (** what precedes the first turn survives *)
  rb_prefix : ∀ pre x post, items m = pre ++ x :: post → is_user_turn_boundary x = true →
    count is_user_turn_boundary pre = 0 → pre `prefix_of` items m';
  (** the other fields *)
  rb_reference : reference_context_item m' =
    if existsb mixed_bundle trimmed then None else reference_context_item m;
  rb_version : history_version m' = sat_add (history_version m) 1;
  rb_baseline : environment_context_baseline m' = None;
  rb_tokens : token_info m' = token_info m;
}.

Section rollback_theorem.
  Context {T E : Type} `{HookXml, InterAgentJson}.

(** No turn at all: nothing is cut. *)
Lemma rollback_no_turn n (m : @ContextManager T E) :
  0 < n → user_message_positions (items m) = [] →
  rolled_back n m (drop_last_n_user_turns n m) [] [].
Proof.
  intros Hn Hps. unfold drop_last_n_user_turns. rewrite (proj2 (Nat.eqb_neq n 0)), Hps by lia.
  pose proof (positions_length is_user_turn_boundary 0 (items m)) as Hl.
  unfold user_message_positions in Hps. rewrite Hps in Hl. simpl in Hl.
  split; simpl; try done; try (rewrite <-Hl; unfold count; simpl; lia).
  - by rewrite app_nil_r.
  - intros pre x post Heq Hx _. rewrite Heq, count_app in Hl. unfold count in Hl. simpl in Hl.
    rewrite Hx in Hl. simpl in Hl. lia.
Qed.

Lemma rollback_turns n (m : @ContextManager T E) f ps :
  0 < n → user_message_positions (items m) = f :: ps →
  ∃ trimmed dropped, rolled_back n m (drop_last_n_user_turns n m) trimmed dropped.
Proof.
  intros Hn Hps. unfold drop_last_n_user_turns. rewrite (proj2 (Nat.eqb_neq n 0)) by lia.
  destruct (cut_position n (items m) f ps Hn Hps) as (pre & x & post & Hl & Hcut & Hx & Hc & Hf & Hc0 & y & r & Hlf & Hy).
  rewrite Hps. cbv zeta. rewrite Hcut. unfold trim_pre_turn_context_updates.
  destruct (trim_loop_spec (items m) f (length pre) false Hf) as
    (c' & tr & -> & Hr & Ht & Hall & Hmax); [rewrite Hl, length_app; lia|].
  rewrite Hl, take_app_length, <-Hl in Ht.
  assert (items m = take c' (items m) ++ tr ++ x :: post) as Hitems.
  { by rewrite app_assoc, <-Ht. }
  assert (count is_user_turn_boundary (take c' (items m)) = count is_user_turn_boundary pre) as Hcp.
  { rewrite Ht, count_app, (count_updates tr Hall). lia. }
  assert (count is_user_turn_boundary (items m) =
          count is_user_turn_boundary pre + count is_user_turn_boundary (x :: post)) as Hsum.
  { by rewrite Hl, count_app at 1. }
  assert (0 < count is_user_turn_boundary (x :: post)) as Hpos.
  { unfold count. simpl. rewrite Hx. simpl. lia. }
  exists tr, (x :: post). simpl.
  set (m' := if existsb mixed_bundle tr then _ else _).
  assert (token_info m' = token_info m ∧ history_version m' = history_version m ∧
    reference_context_item m' = if existsb mixed_bundle tr then None else reference_context_item m)
    as (Hm1 & Hm2 & Hm3) by (unfold m'; by destruct (existsb mixed_bundle tr)).
  split; simpl; rewrite ?Hm1, ?Hm2, ?Hm3; try done; try lia.
  - by intros; simplify_eq.
  - intros k i Hk Hi. destruct Hmax as [->|Hmax]; [done|]. by rewrite (Hmax k i Hk) in Hi.
  - intros pre0 x0 post0 Heq Hx0 Hc00.
    rewrite Hlf in Heq. pose proof (hit_after _ _ _ _ _ _ _ (eq_sym Heq) Hc00 Hy) as Hp.
    etrans; [exact Hp|]. exists (drop f (take c' (items m))).
    rewrite <-(take_drop f (take c' (items m))) at 1. by rewrite take_take, Nat.min_l by lia.
Qed.
End rollback_theorem.

(** A rollback by [n] turns cuts exactly the last [n] instruction turns (all of
    them when there are fewer) together with the context updates directly above the cut,
    keeps everything before the first turn, and forgets the reference context exactly when
    a trimmed developer message mixed contextual and persistent parts; it always counts as
    a rewrite of the history.  Rolling back zero turns does nothing. *)
Theorem rollback_spec {T E : Type} `{HookXml, InterAgentJson} n (m : @ContextManager T E) :
  (n = 0 → drop_last_n_user_turns n m = m) ∧
  (0 < n → ∃ trimmed dropped, rolled_back n m (drop_last_n_user_turns n m) trimmed dropped).
Proof.
  split; [by intros ->|]. intros Hn.
  destruct (user_message_positions (items m)) as [|f ps] eqn:Hps.
  - exists [], []. by apply rollback_no_turn.
  - by eapply rollback_turns.
Qed.

Definition user_msg (s : string) : ResponseItem := Message None "user" [InputText s] None None.
Definition dev_msg (s : string) : ResponseItem := Message None "developer" [InputText s] None None.

Definition sample_manager : @ContextManager unit unit :=
  {| items := [dev_msg "hello"; user_msg "one"; dev_msg "<model_switch>x"; user_msg "two"];
     history_version := 3; token_info := None; reference_context_item := Some tt;
     environment_context_baseline := Some tt |}.

Lemma rollback_spec_witness :
  let no_xml : HookXml := λ _, None in
  let no_json : InterAgentJson := λ _, false in
  items (drop_last_n_user_turns 1 sample_manager) = [dev_msg "hello"; user_msg "one"] ∧
  reference_context_item (drop_last_n_user_turns 1 sample_manager) = Some tt ∧
  ∃ trimmed dropped,
    rolled_back 1 sample_manager (drop_last_n_user_turns 1 sample_manager) trimmed dropped.
Proof.
  intros no_xml no_json. split; [vm_refl|]. split; [vm_refl|].
  apply (rollback_spec 1 sample_manager). lia.
Defined.

(** ** The oldest item leaves with its counterpart *)

(** Dropping the oldest item of a history in which every id names one call and
    one output keeps the history normal without a normalisation pass: its counterpart goes
    with it, so every remaining call is still answered, every remaining output still has
    its call, and the ids are still unique.  Nothing is reordered. *)
Theorem remove_first_item_paired {T E : Type} (m : @ContextManager T E) :
  unique_ids (items m) → well_paired (items m) →
  unique_ids (items (remove_first_item m)) ∧ well_paired (items (remove_first_item m)) ∧
  items (remove_first_item m) `sublist_of` items m ∧
  (items m ≠ [] → length (items (remove_first_item m)) < length (items m)).
Proof.
  unfold remove_first_item. destruct (items m) as [|i l] eqn:E0.
  { rewrite E0. done. }
  intros Hu Hp. simpl. destruct (remove_corresponding_paired i l Hu Hp) as [? ?].
  pose proof (remove_corresponding_sublist i l) as Hs.
  split_and!; [done|done|by apply sublist_cons|].
  intros _. apply sublist_length in Hs. simpl. lia.
Qed.

Definition paired_manager : @ContextManager unit unit :=
  set_items [FunctionCall None "shell" None "{}" "c1" None; user_msg "hi";
             FunctionCallOutput None "c1" aborted None] new.

Lemma remove_first_item_paired_witness :
  items (remove_first_item paired_manager) = [user_msg "hi"] ∧
  well_paired (items (remove_first_item paired_manager)).
Proof.
  split; [vm_refl|].
  apply (remove_first_item_paired paired_manager).
  - unfold unique_ids, unique. simpl. split_and!; repeat constructor; set_solver.
  - unfold well_paired, calls_answered, outputs_called. simpl. split_and!; apply (bool_decide_unpack _); by vm_compute.
Defined.

(** ** The version of the history *)

Section version.
  Context {T E : Type} `{EqDecision E} `{HookXml, InterAgentJson}.
  Notation manager := (@ContextManager T E).

(** The operations on the session's history.  ([remove_first_item] is not among them: only
    compaction calls it, on a copy of its own.) *)
Inductive step (m : manager) : manager → Prop :=
| step_record l p : step m (record_items l p m)
| step_token_info info : step m (set_token_info info m)
| step_token_usage usage w : step m (update_token_info usage w m)
| step_token_full w : step m (set_token_usage_full w m)
| step_reference r : step m (set_reference_context_item r m)
| step_baseline c : step m (fst (update_environment_context_baseline c m))
| step_replace l : step m (replace l m)
| step_images placeholder : step m (fst (replace_last_turn_images placeholder m))
| step_rollback n : step m (drop_last_n_user_turns n m).

(** Either the history only grew at its end, or the version went up by one. *)
Definition version_rule (m m' : manager) : Prop :=
  (history_version m' = history_version m ∧ items m `prefix_of` items m') ∨
  history_version m' = sat_add (history_version m) 1.

Lemma images_rule placeholder m : version_rule m (fst (replace_last_turn_images placeholder m)).
Proof.
  unfold replace_last_turn_images, version_rule. destruct (rposition _ _) as [n|]; [|by left].
  destruct (items m !! n) as [i|] eqn:E0; [|by left]. destruct i; try by left.
  destruct output as [[s|cs] ok]; simpl; [by left|].
  destruct (existsb is_image_output cs) eqn:Hx; simpl; [by right|]. left. split; [done|].
  replace ((λ item, if is_image_output item then OutInputText placeholder else item) <$> cs) with cs.
  - by rewrite list_insert_id.
  - clear -Hx. induction cs as [|c cs IH]; [done|]. simpl in *. apply orb_false_iff in Hx as [-> Hx].
    f_equal. by apply IH.
Qed.

Lemma step_rule m m' : step m m' → version_rule m m'.
Proof.
  destruct 1; try by left.
  - rewrite record_items_eq. left. split; [done|]. by eexists.
  - left. unfold update_environment_context_baseline. by case_bool_decide.
  - by right.
  - apply images_rule.
  - destruct n as [|n]; [by left|]. right.
    destruct (user_message_positions (items m)) as [|f ps] eqn:Hps.
    + eapply rb_version, rollback_no_turn; [lia|done].
    + destruct (rollback_turns (S n) m f ps) as (tr & d & Hr); [lia|done|]. by eapply rb_version.
Qed.

Lemma rule_monotone m m' :
  (history_version m <= usize_max)%N → version_rule m m' →
  (history_version m <= history_version m' <= usize_max)%N.
Proof. unfold version_rule, sat_add. intros Hm [[-> _]| ->]; lia. Qed.

Lemma steps_monotone m m' :
  (history_version m <= usize_max)%N → rtc step m m' →
  (history_version m <= history_version m' <= usize_max)%N.
Proof.
  intros Hm Hs. induction Hs as [|m1 m2 m3 Hst _ IH]; [lia|].
  apply step_rule, (rule_monotone _ _ Hm) in Hst. specialize (IH ltac:(lia)). lia.
Qed.
End version.

(** Whatever is done to a session's history, an unchanged version means that the
    old transcript is a prefix of the new one, so that a position remembered with the
    version stays good; the version never decreases.  (At [u64::MAX] the version no longer
    moves, and nothing is claimed.) *)
Theorem version_guards_prefix {T E : Type} `{EqDecision E} `{HookXml, InterAgentJson}
    (m m' : @ContextManager T E) :
  (history_version m < usize_max)%N → rtc step m m' →
  (history_version m <= history_version m')%N ∧
  (history_version m' = history_version m → items m `prefix_of` items m').
Proof.
  intros Hlt Hs. split; [by apply (steps_monotone m m' ltac:(lia))|].
  induction Hs as [|m1 m2 m3 Hst Hs IH]; [done|]. intros H3.
  apply step_rule in Hst as Hr. pose proof (rule_monotone m1 m2 ltac:(lia) Hr) as Hm.
  pose proof (steps_monotone m2 m3 ltac:(lia) Hs) as Hm'.
  destruct Hr as [[Hv Hp]|Hr]; [|unfold sat_add in Hr; lia].
  etrans; [exact Hp|]. apply IH; lia.
Qed.

Lemma version_guards_prefix_witness :
  let no_xml : HookXml := λ _, None in
  let no_json : InterAgentJson := λ _, false in
  items sample_manager `prefix_of`
    items (record_items [user_msg "three"] (Bytes 10) sample_manager).
Proof.
  intros no_xml no_json.
  apply (version_guards_prefix sample_manager
    (record_items [user_msg "three"] (Bytes 10) sample_manager)); [done| |done].
  apply rtc_once, step_record.
Defined.

(** ** Token estimates *)

Definition sum_Z (l : list Z) : Z := foldr Z.add 0%Z l.

Section estimates.
  Context `{ItemJson, ImageDecoder}.

Lemma estimate_item_range i : (0 <= estimate_item_token_count i <= i64_max)%Z.
Proof.
  unfold estimate_item_token_count, approx_tokens_from_byte_count_i64.
  destruct (Z.leb_spec (estimate_response_item_model_visible_bytes i) 0); [by vm_compute|].
  split; [|lia]. apply Z.min_glb; [by vm_compute|lia].
Qed.

Lemma sat_fold l a :
  (0 <= a <= i64_max)%Z → Forall (λ z, 0 <= z)%Z l →
  fold_left sat_add_i64 l a = Z.min i64_max (a + sum_Z l).
Proof.
  intros Ha Hl. revert a Ha. assert (i64_min < 0 < i64_max)%Z as Hm by (by vm_compute).
  induction Hl as [|z l Hz Hl IH]; intros a Ha; [unfold sum_Z; simpl; lia|].
  assert (0 <= sum_Z l)%Z by (clear -Hl; induction Hl; unfold sum_Z in *; simpl; lia).
  change (sum_Z (z :: l)) with (z + sum_Z l)%Z. cbn [fold_left].
  rewrite IH; unfold sat_add_i64, i64_sat; lia.
Qed.

(** The sum of the estimates of the items, without overflow. *)
Definition exact_tokens (l : list ResponseItem) : Z := sum_Z (estimate_item_token_count <$> l).

Lemma exact_tokens_nonneg l : (0 <= exact_tokens l)%Z.
Proof.
  induction l as [|i l IH]; [done|].
  change (exact_tokens (i :: l)) with (estimate_item_token_count i + exact_tokens l)%Z.
  pose proof (estimate_item_range i). lia.
Qed.

Lemma estimate_items_exact l : estimate_items l = Z.min i64_max (exact_tokens l).
Proof.
  unfold estimate_items. rewrite sat_fold; [done|by vm_compute|].
  apply Forall_fmap, Forall_true. intros i. apply estimate_item_range.
Qed.

End estimates.

(** The token estimates never overflow or go negative: the estimate of a history
    is the exact sum of the estimates of its items and of the base instructions, cut off at
    [i64::MAX]; the running total adds to the server's last count the reasoning before the
    last turn (unless the server counted it) and what came after the last item the model
    produced, cut off in the same way. *)
Theorem token_estimates_exact {T E : Type} `{HookXml, InterAgentJson, ItemJson, ImageDecoder}
    base (included : bool) (m : @ContextManager T E) :
  (∀ info, token_info m = Some info → 0 <= total_tokens (last_token_usage info) <= i64_max)%Z →
  estimate_token_count_with_base_instructions base m =
    Some (Z.min i64_max (Z.of_N (approx_token_count base) + exact_tokens (items m))) ∧
  get_total_token_usage included m =
    Z.min i64_max
      (from_option (λ info, total_tokens (last_token_usage info)) 0 (token_info m) +
       (if included then 0
        else from_option (λ n, exact_tokens (List.filter is_encrypted_reasoning (take n (items m)))) 0
               (rposition is_user_turn_boundary (items m))) +
       exact_tokens (items_after_last_model_generated_item m))%Z.
Proof.
  intros Hinfo. assert (i64_min < 0 < i64_max)%Z as Hm by (by vm_compute). split.
  - unfold estimate_token_count_with_base_instructions, sat_add_i64, i64_sat, i64_of_usize.
    rewrite estimate_items_exact. pose proof (exact_tokens_nonneg (items m)). f_equal. lia.
  - unfold get_total_token_usage, get_non_last_reasoning_items_tokens.
    rewrite !estimate_items_exact.
    pose proof (exact_tokens_nonneg (items_after_last_model_generated_item m)) as Hn.
    set (last := match token_info m with Some _ => _ | None => _ end).
    assert (0 <= last <= i64_max ∧
      from_option (λ info, total_tokens (last_token_usage info)) 0 (token_info m) = last)%Z as [Hl ->]
      by (unfold last; destruct (token_info m); simpl; [auto|lia]).
    unfold sat_add_i64, i64_sat. destruct included; [lia|].
    destruct (rposition _ _) as [n|]; simpl; [|lia]. rewrite estimate_items_exact.
    pose proof (exact_tokens_nonneg (List.filter is_encrypted_reasoning (take n (items m)))). lia.
Qed.

Lemma token_estimates_exact_witness :
  let no_xml : HookXml := λ _, None in
  let no_json : InterAgentJson := λ _, false in
  let ten : ItemJson := λ _, Some 10%N in
  let no_image : ImageDecoder := λ _, None in
  estimate_token_count_with_base_instructions "abcde" sample_manager = Some 14%Z ∧
  estimate_token_count_with_base_instructions "abcde" sample_manager =
    Some (Z.min i64_max (Z.of_N (approx_token_count "abcde") + exact_tokens (items sample_manager))).
Proof.
  intros no_xml no_json ten no_image. split; [vm_refl|].
  by apply (token_estimates_exact "abcde" true sample_manager).
Defined.

(** The running usage is the sum of the usages reported, as long as the sums fit. *)
Lemma usage_accumulates {T E : Type} us w (m : @ContextManager T E) info :
  token_info m = Some info →
  ∃ info', token_info (fold_left (λ m u, update_token_info u w m) us m) = Some info' ∧
    total_tokens (total_token_usage info') =
      fold_left (λ a u, wrap_i64 (a + total_tokens u)) us (total_tokens (total_token_usage info)) ∧
    last_token_usage info' = default (last_token_usage info) (last us).
Proof.
  revert m info. induction us as [|u us IH]; intros m info Hi; simpl; [eauto|].
  edestruct (IH (update_token_info u w m)) as (info' & Hi' & Ht & Hl).
  { unfold update_token_info. simpl. rewrite Hi. reflexivity. }
  exists info'. split; [done|]. rewrite Ht, Hl. split; [by destruct w|].
  destruct us; simpl; [by destruct w|]. by destruct (last (t :: us)) eqn:?; [|apply last_None in Heqo].
Qed.
