(* ===== verification/AbsPath.v ===== *)
(** * Absolute paths

    codex-rs/utils/absolute-path/src/lib.rs and absolutize.rs, the Unix build
    ([normalize_path_for_platform] is the identity there).  A path is its text, a UTF-8
    string; the home directory and the current directory of the process are the parameter
    [PathEnv]. *)

From S2P Require Import Prelude Str Json.

Definition slash : ascii := "/"%char.

(** [std::path::Component]; there are no prefixes on Unix. *)
Inductive Component := RootDir | CurDir | ParentDir | Normal (name : string).

#[global] Instance Component_eq_dec : EqDecision Component.
Proof. solve_decision. Defined.

Definition is_absolute (path : string) : bool := starts_with "/" path.

Definition name_component (name : string) : option Component :=
  if str_is_empty name || str_eqb name "." then None
  else if str_eqb name ".." then Some ParentDir
  else Some (Normal name).

(** [Path::components]: empty and dot names vanish, a dot that begins a relative path aside. *)
Definition components (path : string) : list Component :=
  let names := split_char slash path in
  if is_absolute path then RootDir :: omap name_component names
  else (match names with
        | "." :: _ => [CurDir]
        | _ => []
        end) ++ omap name_component names.

(** A [PathBuf] as the code builds it: a root or none, and names. *)
Record PathBuf := { rooted : bool; names : list string }.

#[global] Instance PathBuf_eq_dec : EqDecision PathBuf.
Proof. solve_decision. Defined.

(** The text of a path built from names. *)
Definition path_text (p : PathBuf) : string :=
  (if rooted p then "/" else EmptyString) +:+ join "/" (names p).

(** [PathBuf::pop]: a root alone stays. *)
Definition pop (p : PathBuf) : PathBuf := {| rooted := rooted p; names := removelast (names p) |}.

Definition push_component (p : PathBuf) (c : Component) : PathBuf :=
  match c with
  | CurDir => p
  | ParentDir => pop p
  | RootDir => {| rooted := true; names := [] |}
  | Normal name => {| rooted := rooted p; names := names p ++ [name] |}
  end.

Definition normalize_path (path : string) : PathBuf :=
  let normalized := fold_left push_component (components path) {| rooted := false; names := [] |} in
  if negb (rooted normalized) && bool_decide (names normalized = [])
  then {| rooted := false; names := ["."] |}
  else normalized.

(** [Path::join] *)
Definition path_join (base path : string) : string :=
  if is_absolute path then path
  else if str_is_empty base then path
  else if ends_with "/" base then base +:+ path
  else base +:+ ("/" +:+ path).

Definition path_with_base (path base_path : string) : string :=
  if is_absolute path then path else path_join base_path path.

Definition absolutize_from (path base_path : string) : PathBuf :=
  normalize_path (path_with_base path base_path).

(** [dirs::home_dir()] and [std::env::current_dir()] *)
Class PathEnv := {
  home_dir : option string;
  current_dir : option string;
}.

(** An absolute path is returned even when the current directory is gone. *)
Definition absolutize `{PathEnv} (path : string) : option PathBuf :=
  if is_absolute path then Some (normalize_path path)
  else absolutize_from path <$> current_dir.

Definition maybe_expand_home_directory `{PathEnv} (path : string) : string :=
  match home_dir, strip_prefix "~" path with
  | Some home, Some rest =>
      if str_is_empty rest then home
      else match strip_prefix "/" rest with
           | Some rest => path_join home (trim_start_char slash rest)
           | None => path
           end
  | _, _ => path
  end.

Definition resolve_path_against_base `{PathEnv} (path base_path : string) : PathBuf :=
  absolutize_from (maybe_expand_home_directory path) base_path.

(** [AbsolutePathBuf::from_absolute_path], also [try_from(String)] *)
Definition from_absolute_path `{PathEnv} (path : string) : option PathBuf :=
  absolutize (maybe_expand_home_directory path).

Definition from_absolute_path_checked `{PathEnv} (path : string) : option PathBuf :=
  let expanded := maybe_expand_home_directory path in
  if is_absolute expanded then Some (absolutize_from expanded "/") else None.

Definition abs_join `{PathEnv} (p : PathBuf) (path : string) : PathBuf :=
  resolve_path_against_base path (path_text p).

(** [Path::file_name] and [AbsolutePathBuf::parent] of a normalised path *)
Definition file_name (p : PathBuf) : option string := last (names p).

Definition parent (p : PathBuf) : option PathBuf :=
  match names p with [] => None | _ => Some (pop p) end.

(** ** What the type promises *)

(** A name that is a component of its own. *)
Definition plain_name (n : string) : bool :=
  negb (str_is_empty n) && negb (str_eqb n ".") && negb (str_eqb n "..") &&
  negb (contains_char slash n).

(** An absolute, normalised path. *)
Definition abs_ok (p : PathBuf) : Prop :=
  rooted p = true ∧ Forall (λ n, plain_name n = true) (names p).

Lemma name_component_normal n c : name_component n = Some (Normal c) → contains_char slash n = false →
  plain_name c = true.
Proof.
  unfold name_component, plain_name. destruct (str_is_empty n || str_eqb n ".") eqn:E; [done|].
  apply orb_false_iff in E as [E1 E2]. destruct (str_eqb n "..") eqn:E3; [done|].
  intros [= <-] ->. by rewrite E1, E2, E3.
Qed.

Lemma removelast_Forall {A} (P : A → Prop) l : Forall P l → Forall P (removelast l).
Proof.
  induction 1 as [|x l Hx Hl IH]; [constructor|]. destruct l as [|y l]; [constructor|].
  change (Forall P (x :: removelast (y :: l))). by constructor.
Qed.

Lemma push_names_plain cs p :
  Forall (λ c, match c with Normal n => plain_name n = true | RootDir => False | _ => True end) cs →
  abs_ok p → abs_ok (fold_left push_component cs p).
Proof.
  intros Hcs. revert p. induction Hcs as [|c cs Hc Hcs IH]; intros p [Hr Hn]; [done|].
  apply IH. destruct c; simpl; try done.
  - split; [done|]. by apply removelast_Forall.
  - split; [done|]. apply Forall_app. by repeat constructor.
Qed.

Lemma name_components_plain s :
  Forall (λ c, match c with Normal n => plain_name n = true | RootDir => False | _ => True end)
    (omap name_component (split_char slash s)).
Proof.
  pose proof (split_char_no_sep slash s) as Hs.
  induction Hs as [|n l Hn Hl IH]; [constructor|]. simpl.
  destruct (name_component n) as [c|] eqn:E; [|done]. constructor; [|done].
  destruct c; try done; [|by eapply name_component_normal].
  unfold name_component in E. by repeat case_match.
Qed.

Lemma normalize_absolute path :
  is_absolute path = true →
  normalize_path path =
    fold_left push_component (omap name_component (split_char slash path)) {| rooted := true; names := [] |} ∧
  abs_ok (normalize_path path).
Proof.
  intros Ha. unfold normalize_path, components. rewrite Ha. cbn [fold_left push_component].
  set (r := fold_left _ _ _).
  assert (abs_ok r) as Hr.
  { apply push_names_plain; [apply name_components_plain|]. split; [done|constructor]. }
  destruct Hr as [Hr1 Hr2]. rewrite Hr1. simpl. done.
Qed.

(** Re-reading the text of a normalised path gives the path back. *)
Lemma normalize_text p : abs_ok p → normalize_path (path_text p) = p.
Proof.
  intros [Hr Hn]. destruct p as [r ns]. simpl in *. subst r.
  assert (is_absolute (path_text {| rooted := true; names := ns |}) = true) as Ha.
  { unfold is_absolute, path_text. simpl. apply starts_with_app. }
  destruct (normalize_absolute _ Ha) as [-> _]. unfold path_text. cbn [rooted names].
  change (split_char slash ("/" +:+ join "/" ns)) with (EmptyString :: split_char slash (join "/" ns)).
  change (omap name_component (EmptyString :: ?l)) with (omap name_component l).
  assert (∀ q, rooted q = true →
    fold_left push_component (omap name_component ns) q = {| rooted := true; names := names q ++ ns |}) as Hf.
  { clear -Hn. induction Hn as [|n ns Hn Hns IH]; intros [qr qn] Hq; simpl in *; subst.
    - by rewrite app_nil_r.
    - assert (name_component n = Some (Normal n)) as ->.
      { unfold plain_name in Hn. unfold name_component.
        repeat (apply andb_true_iff in Hn as [Hn ?%negb_true_iff]). apply negb_true_iff in Hn.
        by rewrite Hn; simpl; repeat match goal with H : str_eqb _ _ = false |- _ => rewrite H end. }
      simpl. rewrite IH by done. simpl. by rewrite <-app_assoc. }
  destruct ns as [|n ns]; [done|].
  change "/" with (String slash EmptyString). rewrite (split_char_join slash); [by apply Hf|done|].
  eapply Forall_impl; [exact Hn|]. intros x Hx. unfold plain_name in Hx.
  by apply andb_true_iff in Hx as [_ ?%negb_true_iff].
Qed.

Lemma path_join_absolute base path : is_absolute base = true → is_absolute (path_join base path) = true.
Proof.
  intros Hb. unfold path_join. destruct (is_absolute path) eqn:Hp; [done|].
  destruct (str_is_empty base) eqn:He; [apply str_is_empty_true in He as ->; done|].
  destruct (ends_with _ _); by apply starts_with_app_r.
Qed.

Lemma absolutize_from_ok path base : is_absolute base = true → abs_ok (absolutize_from path base).
Proof.
  intros Hb. apply normalize_absolute. unfold path_with_base.
  destruct (is_absolute path) eqn:E; [done|by apply path_join_absolute].
Qed.

Lemma absolute_text p : abs_ok p → is_absolute (path_text p) = true.
Proof. intros [Hr _]. unfold is_absolute, path_text. rewrite Hr. apply starts_with_app. Qed.

Lemma expand_absolute `{PathEnv} path : is_absolute path = true → maybe_expand_home_directory path = path.
Proof.
  unfold is_absolute, maybe_expand_home_directory. intros [r ->]%starts_with_true.
  by destruct home_dir.
Qed.

Lemma is_absolute_app s t : s ≠ EmptyString → is_absolute (s +:+ t) = is_absolute s.
Proof.
  destruct s as [|a s]; [done|]. intros _. unfold is_absolute, starts_with.
  change (String a s +:+ t) with (String a (s +:+ t)). cbn [strip_prefix]. by destruct (byte_eqb "/" a).
Qed.

(** Where the result of resolving against a base is rooted. *)
Lemma with_base_absolute path base :
  is_absolute (path_with_base path base) = is_absolute path || is_absolute base.
Proof.
  unfold path_with_base, path_join. destruct (is_absolute path) eqn:Hp; [done|]. simpl.
  destruct (str_is_empty base) eqn:He; [apply str_is_empty_true in He as ->; by rewrite Hp|].
  assert (base ≠ EmptyString) by (intros ->; done). destruct (ends_with "/" base); by apply is_absolute_app.
Qed.

Lemma normalize_relative path : is_absolute path = false → rooted (normalize_path path) = false.
Proof.
  intros Hp. unfold normalize_path, components. rewrite Hp.
  assert (∀ cs q, Forall (λ c, c ≠ RootDir) cs → rooted q = false → rooted (fold_left push_component cs q) = false) as Hf.
  { intros cs q Hcs. revert q. induction Hcs as [|c cs Hc Hcs IH]; intros q Hq; [done|]. apply IH. by destruct c. }
  set (n := fold_left _ _ _). assert (rooted n = false) as Hn; [|by destruct (negb (rooted n) && _)].
  apply Hf; [|done]. apply Forall_app. split; [by repeat case_match; repeat constructor|].
  eapply Forall_impl; [apply name_components_plain|]. by intros [].
Qed.

(** Claim C40. The constructors of [AbsolutePathBuf] and what the type promises (rooted, no dot,
    dot-dot, empty or slash-carrying names).  With an absolute current directory
    [from_absolute_path] keeps the promise, and reads its own result back unchanged.
    [from_absolute_path_checked] accepts exactly the paths that are absolute after home
    expansion, agrees with [from_absolute_path] on them, and does not depend on the current
    directory.  [join] on such a path and [parent] keep the promise.  [resolve_path_against_base]
    keeps it exactly when the expanded path or the base is absolute; otherwise the value it
    hands out is not rooted. *)
Theorem absolute_path_normal `{PathEnv} path :
  (∀ d, current_dir = Some d → is_absolute d = true) →
  (∀ p, from_absolute_path path = Some p → abs_ok p ∧ from_absolute_path (path_text p) = Some p) ∧
  (is_Some (from_absolute_path_checked path) ↔ is_absolute (maybe_expand_home_directory path) = true) ∧
  (∀ p, from_absolute_path_checked path = Some p →
     abs_ok p ∧ from_absolute_path_checked (path_text p) = Some p ∧ from_absolute_path path = Some p) ∧
  (∀ cwd, @from_absolute_path_checked {| home_dir := home_dir; current_dir := cwd |} path = from_absolute_path_checked path) ∧
  (∀ p, abs_ok p → abs_ok (abs_join p path) ∧ ∀ q, parent p = Some q → abs_ok q) ∧
  (∀ base, if is_absolute (maybe_expand_home_directory path) || is_absolute base
           then abs_ok (resolve_path_against_base path base)
           else rooted (resolve_path_against_base path base) = false).
Proof.
  intros Hcwd.
  assert (∀ p, abs_ok p → from_absolute_path (path_text p) = Some p) as Hback.
  { intros p Hp. unfold from_absolute_path, absolutize.
    by rewrite expand_absolute, absolute_text, normalize_text by auto using absolute_text. }
  assert (∀ p, abs_ok p → from_absolute_path_checked (path_text p) = Some p) as Hchecked.
  { intros p Hp. unfold from_absolute_path_checked. cbv zeta.
    rewrite expand_absolute, absolute_text by auto using absolute_text. unfold absolutize_from, path_with_base.
    by rewrite absolute_text, normalize_text by done. }
  split_and!.
  - intros p. unfold from_absolute_path at 1, absolutize.
    set (e := maybe_expand_home_directory path). destruct (is_absolute e) eqn:E.
    + intros [= <-]. destruct (normalize_absolute e E) as [_ Hok]. auto.
    + destruct current_dir as [d|] eqn:Hd; [|done]. intros [= <-].
      assert (abs_ok (absolutize_from e d)) by (apply absolutize_from_ok; auto). auto.
  - unfold from_absolute_path_checked. cbv zeta. destruct (is_absolute _); split; try done; by intros [? ?].
  - intros p. unfold from_absolute_path_checked at 1. set (e := maybe_expand_home_directory path).
    destruct (is_absolute e) eqn:E; [|done]. intros [= <-].
    assert (abs_ok (absolutize_from e "/")) by by apply absolutize_from_ok.
    split_and!; [done|auto|]. unfold from_absolute_path, absolutize. fold e. rewrite E.
    unfold absolutize_from, path_with_base. by rewrite E.
  - done.
  - intros p Hp. split; [apply absolutize_from_ok; by apply absolute_text|]. intros q. unfold parent.
    destruct Hp as [Hr Hn]. destruct (names p) as [|n ns] eqn:E; [done|]. intros [= <-].
    split; [done|]. simpl. rewrite E. by apply removelast_Forall.
  - intros base. unfold resolve_path_against_base, absolutize_from. rewrite <-with_base_absolute.
    destruct (is_absolute (path_with_base _ base)) eqn:E; [by apply normalize_absolute|by apply normalize_relative].
Qed.

Definition sample_env : PathEnv := {| home_dir := Some "/home/u"; current_dir := Some "/work" |}.

Lemma absolute_path_normal_witness :
  let env := sample_env in
  from_absolute_path "a/./b/../c" = Some {| rooted := true; names := ["work"; "a"; "c"] |} ∧
  abs_ok {| rooted := true; names := ["work"; "a"; "c"] |} ∧
  from_absolute_path_checked "~/x" = Some {| rooted := true; names := ["home"; "u"; "x"] |} ∧
  from_absolute_path_checked "x" = None ∧ rooted (resolve_path_against_base "x" "y") = false.
Proof.
  intros env. assert (∀ d, current_dir = Some d → is_absolute d = true) as Hcwd.
  { intros d Hd. vm_compute in Hd. by injection Hd as <-. }
  destruct (absolute_path_normal "a/./b/../c" Hcwd) as [Hp _].
  destruct (absolute_path_normal "x" Hcwd) as (_ & _ & _ & _ & _ & Hbase).
  split_and!; [vm_refl|by apply Hp|vm_refl|vm_refl|exact (Hbase "y")].
Defined.
