(* ===== verification/ExecPolicy.v ===== *)
(** * The exec policy

    codex-rs/execpolicy: decision.rs, rule.rs, policy.rs, executable_name.rs (the build that
    is not Windows) and the line append of amend.rs.  [PrefixRule] is the one implementation
    of the trait [Rule], so a rule is a [PrefixRule]; a [MultiMap] is a map to the rules of a
    program in insertion order.  The one [expect] of the crate, on an evaluation without
    matches, is a panic, [None] here. *)

From S2P Require Import Prelude Str Json Fragments AbsPath.

(** ** decision.rs *)

Inductive Decision := Allow | Prompt | Forbidden.

#[global] Instance Decision_eq_dec : EqDecision Decision.
Proof. solve_decision. Defined.

(** The derived order. *)
Definition severity (d : Decision) : nat :=
  match d with Allow => 0 | Prompt => 1 | Forbidden => 2 end.

Definition max_decision (a b : Decision) : Decision :=
  if severity a <=? severity b then b else a.

(** ** rule.rs: prefix rules *)

Inductive PatternToken := Single (expected : string) | Alts (alternatives : list string).

#[global] Instance PatternToken_eq_dec : EqDecision PatternToken.
Proof. solve_decision. Defined.

Definition token_matches (p : PatternToken) (token : string) : bool :=
  match p with
  | Single expected => str_eqb expected token
  | Alts alternatives => existsb (λ alt, str_eqb alt token) alternatives
  end.

Definition alternatives_of (p : PatternToken) : list string :=
  match p with Single expected => [expected] | Alts alternatives => alternatives end.

Record PrefixPattern := { first : string; rest : list PatternToken }.

(** The loop over the zipped tokens. *)
Fixpoint tokens_match (ps : list PatternToken) (ts : list string) : bool :=
  match ps, ts with
  | p :: ps, t :: ts => if token_matches p t then tokens_match ps ts else false
  | _, _ => true
  end.

Definition matches_prefix (p : PrefixPattern) (cmd : list string) : option (list string) :=
  let pattern_length := length (rest p) + 1 in
  match cmd with
  | [] => None
  | c0 :: _ =>
      if (length cmd <? pattern_length) || negb (str_eqb c0 (first p)) then None
      else if tokens_match (rest p) (take (length (rest p)) (tail cmd))
           then Some (take pattern_length cmd) else None
  end.

Inductive RuleMatch :=
| PrefixRuleMatch (matched_prefix : list string) (decision : Decision)
    (resolved_program : option PathBuf) (justification : option string)
| HeuristicsRuleMatch (command : list string) (decision : Decision).

Definition match_decision (m : RuleMatch) : Decision :=
  match m with PrefixRuleMatch _ d _ _ => d | HeuristicsRuleMatch _ d => d end.

Definition with_resolved_program (p : PathBuf) (m : RuleMatch) : RuleMatch :=
  match m with
  | PrefixRuleMatch matched_prefix d _ justification => PrefixRuleMatch matched_prefix d (Some p) justification
  | other => other
  end.

Record PrefixRule := {
  pattern : PrefixPattern;
  rule_decision : Decision;
  rule_justification : option string;
}.

Definition program (r : PrefixRule) : string := first (pattern r).

Definition rule_matches (r : PrefixRule) (cmd : list string) : option RuleMatch :=
  (λ matched_prefix, PrefixRuleMatch matched_prefix (rule_decision r) None (rule_justification r))
    <$> matches_prefix (pattern r) cmd.

(** ** error.rs *)

Record TextPosition := { line : N; column : N }.
Record TextRange := { range_start : TextPosition; range_end : TextPosition }.
Record ErrorLocation := { location_path : string; range : TextRange }.

(** The two example errors carry the rules and commands themselves; the source renders them
    for display.  [StarlarkError] is the evaluator's error, with the error of the builtin it
    wraps, if a builtin raised it. *)
Inductive Error :=
| InvalidDecision (s : string)
| InvalidPattern (s : string)
| InvalidExample (s : string)
| InvalidRule (s : string)
| ExampleDidNotMatch (rules : list PrefixRule) (examples : list (list string))
    (location : option ErrorLocation)
| ExampleDidMatch (rule : RuleMatch) (example : list string) (location : option ErrorLocation)
| StarlarkError (cause : option Error).

Definition with_location (e : Error) (location : ErrorLocation) : Error :=
  match e with
  | ExampleDidNotMatch rules examples None => ExampleDidNotMatch rules examples (Some location)
  | ExampleDidMatch rule example None => ExampleDidMatch rule example (Some location)
  | other => other
  end.

Definition parse_decision (raw : string) : Result Decision Error :=
  if str_eqb raw "allow" then Ok Allow
  else if str_eqb raw "prompt" then Ok Prompt
  else if str_eqb raw "forbidden" then Ok Forbidden
  else Err (InvalidDecision raw).

(** ** rule.rs: network rules *)

Inductive NetworkRuleProtocol := Http | Https | Socks5Tcp | Socks5Udp.

Definition parse_protocol (raw : string) : Result NetworkRuleProtocol Error :=
  if str_eqb raw "http" then Ok Http
  else if str_eqb raw "https" || str_eqb raw "https_connect" || str_eqb raw "http-connect" then Ok Https
  else if str_eqb raw "socks5_tcp" then Ok Socks5Tcp
  else if str_eqb raw "socks5_udp" then Ok Socks5Udp
  else Err (InvalidRule ("network_rule protocol must be one of http, https, socks5_tcp, socks5_udp (got "
                         +:+ (raw +:+ ")"))).

Definition as_policy_string (p : NetworkRuleProtocol) : string :=
  match p with
  | Http => "http" | Https => "https" | Socks5Tcp => "socks5_tcp" | Socks5Udp => "socks5_udp"
  end.

Record NetworkRule := {
  host : string;
  protocol : NetworkRuleProtocol;
  net_decision : Decision;
  net_justification : option string;
}.

(** [!port.is_empty() && port.chars().all(|c| c.is_ascii_digit())]; such a text is ASCII. *)
Definition is_port (port : string) : bool :=
  negb (str_is_empty port) && forallb is_ascii_digit (as_bytes port).

Definition count_char (c : ascii) (s : string) : nat :=
  length (List.filter (byte_eqb c) (as_bytes s)).

(** [rsplit_once(':')] on a text with exactly one colon is [split_once(':')]. *)
Definition strip_port (h : string) : string :=
  if count_char ":"%char h =? 1 then
    match split_once ":" h with
    | Some (candidate, port) =>
        if negb (str_is_empty candidate) && is_port port then candidate else h
    | None => h
    end
  else h.

(** The bracketed and the plain form of the host, without port. *)
Definition bare_host (raw h : string) : Result string Error :=
  match strip_prefix "[" h with
  | Some stripped =>
      match split_once "]" stripped with
      | None => Err (InvalidRule "network_rule host has an invalid bracketed IPv6 literal")
      | Some (inside, suffix) =>
          let port_ok := is_some_and (strip_prefix ":" suffix) is_port in
          if negb (str_is_empty suffix) && negb port_ok
          then Err (InvalidRule ("network_rule host contains an unsupported suffix: " +:+ raw))
          else Ok inside
      end
  | None => Ok (strip_port h)
  end.

Definition normalize_network_rule_host (raw : string) : Result string Error :=
  let h := trim raw in
  if str_is_empty h then Err (InvalidRule "network_rule host cannot be empty")
  else if contains "://" h || contains "/" h || contains "?" h || contains "#" h
  then Err (InvalidRule "network_rule host must be a hostname or IP literal (without scheme or path)")
  else
    let? h := bare_host raw h in
    let normalized := ascii_lowercase (trim (trim_end_char "."%char h)) in
    if str_is_empty normalized then Err (InvalidRule "network_rule host cannot be empty")
    else if contains "*" normalized
    then Err (InvalidRule "network_rule host must be a specific host; wildcards are not allowed")
    else if existsb is_whitespace (chars normalized)
    then Err (InvalidRule "network_rule host cannot contain whitespace")
    else Ok normalized.

(** ** executable_name.rs *)

Definition executable_lookup_key (raw : string) : string := raw.

Definition executable_path_lookup_key (p : PathBuf) : option string :=
  executable_lookup_key <$> file_name p.

(** ** policy.rs *)

Record Policy := {
  rules_by_program : gmap string (list PrefixRule);
  network_rules : list NetworkRule;
  host_executables_by_name : gmap string (list PathBuf);
}.

Definition empty_policy : Policy :=
  {| rules_by_program := ∅; network_rules := []; host_executables_by_name := ∅ |}.

(** [MultiMap::insert] *)
Definition multi_insert (k : string) (r : PrefixRule) (m : gmap string (list PrefixRule)) :
    gmap string (list PrefixRule) := <[k := default [] (m !! k) ++ [r]]> m.

Definition set_rules (rules : gmap string (list PrefixRule)) (p : Policy) : Policy :=
  {| rules_by_program := rules; network_rules := network_rules p;
     host_executables_by_name := host_executables_by_name p |}.

Definition add_prefix_rule (prefix : list string) (decision : Decision) (p : Policy) :
    Result Policy Error :=
  match prefix with
  | [] => Err (InvalidPattern "prefix cannot be empty")
  | first_token :: rest =>
      let rule := {| pattern := {| first := first_token; rest := Single <$> rest |};
                     rule_decision := decision; rule_justification := None |} in
      Ok (set_rules (multi_insert first_token rule (rules_by_program p)) p)
  end.

(** An empty justification is refused. *)
Definition blank (o : option string) : bool :=
  match o with Some raw => str_is_empty (trim raw) | None => false end.

Definition add_network_rule (raw_host : string) (protocol : NetworkRuleProtocol) (decision : Decision)
    (justification : option string) (p : Policy) : Result Policy Error :=
  let? host := normalize_network_rule_host raw_host in
  if blank justification then Err (InvalidRule "justification cannot be empty")
  else Ok {| rules_by_program := rules_by_program p;
             network_rules := network_rules p ++
               [{| host := host; protocol := protocol; net_decision := decision;
                   net_justification := justification |}];
             host_executables_by_name := host_executables_by_name p |}.

Definition set_host_executable_paths (name : string) (paths : list PathBuf) (p : Policy) : Policy :=
  {| rules_by_program := rules_by_program p; network_rules := network_rules p;
     host_executables_by_name := <[name := paths]> (host_executables_by_name p) |}.

(** Rules of the overlay go behind the base's, program by program; its network rules go
    behind, its host executables replace. *)
Definition merge_overlay (p overlay : Policy) : Policy :=
  {| rules_by_program :=
       union_with (λ a b, Some (a ++ b)) (rules_by_program p) (rules_by_program overlay);
     network_rules := network_rules p ++ network_rules overlay;
     host_executables_by_name := host_executables_by_name overlay ∪ host_executables_by_name p |}.

Definition upsert_domain (entries : list string) (h : string) : list string :=
  List.filter (λ entry, negb (str_eqb entry h)) entries ++ [h].

Definition domain_step (acc : list string * list string) (rule : NetworkRule) :
    list string * list string :=
  let '(allowed, denied) := acc in
  match net_decision rule with
  | Allow => (upsert_domain allowed (host rule),
              List.filter (λ entry, negb (str_eqb entry (host rule))) denied)
  | Forbidden => (List.filter (λ entry, negb (str_eqb entry (host rule))) allowed,
                  upsert_domain denied (host rule))
  | Prompt => (allowed, denied)
  end.

Definition compiled_network_domains (p : Policy) : list string * list string :=
  fold_left domain_step (network_rules p) ([], []).

Definition render_pattern_token (t : PatternToken) : string :=
  match t with
  | Single value => value
  | Alts alternatives => "[" +:+ (join "|" alternatives +:+ "]")
  end.

(** ** Matching *)

Section matching.
  Context `{PathEnv}.

Definition match_exact_rules (p : Policy) (cmd : list string) : option (list RuleMatch) :=
  match cmd with
  | [] => None
  | first :: _ =>
      Some (omap (λ rule, rule_matches rule cmd) (default [] (rules_by_program p !! first)))
  end.

Definition match_host_executable_rules (p : Policy) (cmd : list string) : list RuleMatch :=
  match cmd with
  | [] => []
  | first :: args =>
      match from_absolute_path first with
      | None => []
      | Some program =>
          match executable_path_lookup_key program with
          | None => []
          | Some basename =>
              match rules_by_program p !! basename with
              | None => []
              | Some rules =>
                  let listed :=
                    match host_executables_by_name p !! basename with
                    | Some paths => existsb (λ path, bool_decide (path = program)) paths
                    | None => true
                    end in
                  if negb listed then []
                  else with_resolved_program program <$>
                         omap (λ rule, rule_matches rule (basename :: args)) rules
              end
          end
      end
  end.

(** [Option::filter(|v| !v.is_empty())] *)
Definition non_empty {A} (o : option (list A)) : option (list A) :=
  match o with Some [] => None | o => o end.

Definition matches_for_command_with_options (p : Policy) (cmd : list string)
    (heuristics_fallback : option (list string → Decision)) (resolve_host_executables : bool) :
    list RuleMatch :=
  let matched_rules :=
    default []
      (opt_or (non_empty (match_exact_rules p cmd))
         (if resolve_host_executables then non_empty (Some (match_host_executable_rules p cmd))
          else None)) in
  match matched_rules, heuristics_fallback with
  | [], Some fallback => [HeuristicsRuleMatch cmd (fallback cmd)]
  | _, _ => matched_rules
  end.

Record Evaluation := { decision : Decision; matched_rules : list RuleMatch }.

(** [from_matches]; no matches is the panic of its [expect]. *)
Definition from_matches (ms : list RuleMatch) : option Evaluation :=
  match ms with
  | [] => None
  | m :: r =>
      Some {| decision := fold_left (λ d m, max_decision d (match_decision m)) r (match_decision m);
              matched_rules := ms |}
  end.

Definition is_match (e : Evaluation) : bool :=
  existsb (λ m, match m with HeuristicsRuleMatch _ _ => false | _ => true end) (matched_rules e).

Definition check_with_options (p : Policy) (cmd : list string) (fallback : list string → Decision)
    (resolve_host_executables : bool) : option Evaluation :=
  from_matches (matches_for_command_with_options p cmd (Some fallback) resolve_host_executables).

Definition check (p : Policy) (cmd : list string) (fallback : list string → Decision) :
    option Evaluation := check_with_options p cmd fallback false.

Definition check_multiple_with_options (p : Policy) (commands : list (list string))
    (fallback : list string → Decision) (resolve_host_executables : bool) : option Evaluation :=
  from_matches (commands ≫= λ command,
    matches_for_command_with_options p command (Some fallback) resolve_host_executables).

Definition validate_match_examples (p : Policy) (rules : list PrefixRule)
    (examples : list (list string)) : Result unit Error :=
  let unmatched_examples := List.filter (λ example,
    match matches_for_command_with_options p example None true with [] => true | _ => false end)
    examples in
  match unmatched_examples with
  | [] => Ok tt
  | _ => Err (ExampleDidNotMatch rules unmatched_examples None)
  end.

Fixpoint validate_not_match_examples (p : Policy) (not_matches : list (list string)) :
    Result unit Error :=
  match not_matches with
  | [] => Ok tt
  | example :: r =>
      match matches_for_command_with_options p example None true with
      | [] => validate_not_match_examples p r
      | rule :: _ => Err (ExampleDidMatch rule example None)
      end
  end.
End matching.

(** ** amend.rs: appending a rule line under the lock *)

(** The contents of the policy file after [append_locked_line]. *)
Definition append_locked_line (contents line : string) : string :=
  if existsb (str_eqb line) (lines contents) then contents
  else contents +:+
       ((if negb (str_is_empty contents) && negb (ends_with NL contents) then NL else EmptyString) +:+
        (line +:+ NL)).
