(* ===== verification/ExecPolicyFacts.v ===== *)
(** * What the exec policy decides

    Theorems about ExecPolicy.v: a command is judged by the strictest rule that covers it,
    overlays never loosen what an exact rule says, the last network rule for a host wins,
    and appending a rule line is idempotent. *)

From S2P Require Import Prelude Str Json Fragments AbsPath ExecPolicy.

(** ** Rules as predicates on commands *)

(** The rule covers the command: the program, then one accepted token per pattern token,
    then anything. *)
Definition covers (r : PrefixRule) (cmd : list string) : Prop :=
  ∃ toks args, cmd = program r :: toks ++ args ∧
    Forall2 (λ p t, t ∈ alternatives_of p) (rest (pattern r)) toks.

Lemma token_matches_iff p t : token_matches p t = true ↔ t ∈ alternatives_of p.
Proof.
  destruct p as [e|l]; simpl.
  - rewrite str_eqb_true, list_elem_of_singleton. naive_solver.
  - rewrite existsb_exists. setoid_rewrite str_eqb_true. rewrite list_elem_of_In. naive_solver.
Qed.

Lemma tokens_match_iff ps ts :
  length ts = length ps → tokens_match ps ts = true ↔ Forall2 (λ p t, t ∈ alternatives_of p) ps ts.
Proof.
  revert ts. induction ps as [|p ps IH]; intros [|t ts] Hl; simplify_eq/=; [done|].
  pose proof (token_matches_iff p t) as Hp. specialize (IH ts Hl).
  destruct (token_matches p t); split; intros Hm.
  - constructor; [by apply Hp|by apply IH].
  - apply IH. by inversion Hm.
  - done.
  - inversion Hm; subst. naive_solver.
Qed.

Lemma rule_matches_covers r cmd m :
  rule_matches r cmd = Some m →
  covers r cmd ∧ match_decision m = rule_decision r ∧
  ∃ prefix, prefix `prefix_of` cmd ∧ m = PrefixRuleMatch prefix (rule_decision r) None (rule_justification r).
Proof.
  unfold rule_matches, matches_prefix. destruct cmd as [|c args]; [done|].
  destruct (_ || _) eqn:E; [done|]. apply orb_false_iff in E as [Hlen Hc].
  apply Nat.ltb_ge in Hlen. apply negb_false_iff, str_eqb_true in Hc as ->. cbn [tail].
  destruct (tokens_match _ _) eqn:Ht; [|done]. intros [= <-].
  simpl in Hlen. apply tokens_match_iff in Ht; [|rewrite length_take; lia].
  split; [|split; [done|]].
  - exists (take (length (rest (pattern r))) args), (drop (length (rest (pattern r))) args).
    by rewrite take_drop.
  - eexists. split; [|done]. eexists. by rewrite take_drop.
Qed.

Lemma covers_matches r cmd : covers r cmd → is_Some (rule_matches r cmd).
Proof.
  intros (toks & args & -> & Hf). unfold rule_matches, matches_prefix, program.
  pose proof (Forall2_length _ _ _ Hf) as Hl. cbn [tail length].
  rewrite str_eqb_refl, length_app, (proj2 (Nat.ltb_ge _ _)) by lia. simpl.
  rewrite Hl, take_app_length. rewrite (proj2 (tokens_match_iff _ _ (eq_sym Hl)) Hf). by eexists.
Qed.

(** ** The strictest match decides *)

Lemma max_decision_severity a b : severity (max_decision a b) = max (severity a) (severity b).
Proof. unfold max_decision. destruct (Nat.leb_spec (severity a) (severity b)); lia. Qed.

Lemma severity_inj a b : severity a = severity b → a = b.
Proof. by destruct a, b. Qed.

Lemma max_fold ms d :
  let r := fold_left (λ d m, max_decision d (match_decision m)) ms d in
  severity d ≤ severity r ∧ Forall (λ m, severity (match_decision m) ≤ severity r) ms ∧
  (r = d ∨ ∃ m, m ∈ ms ∧ match_decision m = r).
Proof.
  revert d. induction ms as [|m ms IH]; intros d; simpl; [split_and!; auto|].
  destruct (IH (max_decision d (match_decision m))) as (H1 & H2 & H3). cbv zeta in *.
  rewrite max_decision_severity in H1. split_and!; [lia|constructor; [lia|done]|].
  destruct H3 as [->|(x & Hx & Hd)]; [|right; exists x; split; [by right|done]].
  unfold max_decision. destruct (_ <=? _); [|by left]. right. exists m. split; [left|done].
Qed.

(** The evaluation of some matches: the strictest of them. *)
Definition strictest (ms : list RuleMatch) (d : Decision) : Prop :=
  Forall (λ m, severity (match_decision m) ≤ severity d) ms ∧ ∃ m, m ∈ ms ∧ match_decision m = d.

Lemma from_matches_spec ms :
  ms ≠ [] → ∃ e, from_matches ms = Some e ∧ matched_rules e = ms ∧ strictest ms (decision e).
Proof.
  destruct ms as [|m ms]; [done|]. intros _. eexists. split; [done|]. simpl. split; [done|].
  destruct (max_fold ms (match_decision m)) as (H1 & H2 & H3). cbv zeta in *.
  split; [by constructor|]. destruct H3 as [->|(x & Hx & ?)]; [exists m|exists x]; set_solver.
Qed.

Lemma strictest_unique ms d d' : strictest ms d → strictest ms d' → d = d'.
Proof.
  intros [Ha (m & Hm & Hd)] [Ha' (m' & Hm' & Hd')]. apply severity_inj.
  rewrite Forall_forall in Ha, Ha'. specialize (Ha m' Hm'). specialize (Ha' m Hm). subst. lia.
Qed.

Section check.
  Context `{PathEnv}.

Definition exact_matches (p : Policy) (cmd : list string) : list RuleMatch :=
  default [] (match_exact_rules p cmd).

Lemma matches_nonempty p cmd fb res :
  matches_for_command_with_options p cmd (Some fb) res ≠ [].
Proof. unfold matches_for_command_with_options. by destruct (default [] _). Qed.

Lemma matches_exact p cmd fb res :
  exact_matches p cmd ≠ [] →
  matches_for_command_with_options p cmd fb res = exact_matches p cmd.
Proof.
  unfold exact_matches, matches_for_command_with_options.
  destruct (match_exact_rules p cmd) as [[|m ms]|]; simpl; try done; by destruct fb.
Qed.

Lemma matches_not_exact p cmd fb res :
  exact_matches p cmd = [] →
  matches_for_command_with_options p cmd (Some fb) res =
  match (if res then match_host_executable_rules p cmd else []) with
  | [] => [HeuristicsRuleMatch cmd (fb cmd)]
  | ms => ms
  end.
Proof.
  unfold exact_matches, matches_for_command_with_options.
  destruct (match_exact_rules p cmd) as [[|m ms]|]; simpl; try done; intros _;
    destruct res; simpl; try done; by destruct (match_host_executable_rules p cmd).
Qed.

Lemma exact_matches_elem p cmd m :
  m ∈ exact_matches p cmd ↔
  ∃ c args r, cmd = c :: args ∧ r ∈ default [] (rules_by_program p !! c) ∧ rule_matches r cmd = Some m.
Proof.
  unfold exact_matches, match_exact_rules. destruct cmd as [|c args]; simpl; [set_solver|].
  rewrite list_elem_of_omap. naive_solver.
Qed.
(** *** Which rules speak about a command *)

(** The rules filed under the first word. *)
Definition exact_rule (p : Policy) (cmd : list string) (r : PrefixRule) : Prop :=
  ∃ c args, cmd = c :: args ∧ r ∈ default [] (rules_by_program p !! c) ∧ covers r cmd.

(** The rules filed under the base name of the program that the first word names, if the
    policy does not restrict the base name to other programs. *)
Definition base_name_rule (p : Policy) (cmd : list string) (r : PrefixRule) : Prop :=
  ∃ c args program base, cmd = c :: args ∧ from_absolute_path c = Some program ∧
    executable_path_lookup_key program = Some base ∧ r ∈ default [] (rules_by_program p !! base) ∧
    (∀ paths, host_executables_by_name p !! base = Some paths → program ∈ paths) ∧ covers r (base :: args).

(** The matches are those of the rules [R]. *)
Definition matches_of (R : PrefixRule → Prop) (ms : list RuleMatch) : Prop :=
  (∀ m, m ∈ ms → ∃ r, R r ∧ match_decision m = rule_decision r) ∧
  (∀ r, R r → ∃ m, m ∈ ms ∧ match_decision m = rule_decision r).

Lemma exact_matches_of p cmd : matches_of (exact_rule p cmd) (exact_matches p cmd).
Proof.
  split.
  - intros m (c & args & r & Hc & Hr & Hm)%exact_matches_elem. apply rule_matches_covers in Hm as (Hcov & Hd & _).
    exists r. split; [by exists c, args|done].
  - intros r (c & args & Hc & Hr & Hcov). destruct (covers_matches _ _ Hcov) as [m Hm]. exists m.
    split; [apply exact_matches_elem; eauto 8|]. by apply rule_matches_covers in Hm as (_ & Hd & _).
Qed.

Lemma with_resolved_decision program m : match_decision (with_resolved_program program m) = match_decision m.
Proof. by destruct m. Qed.

Lemma host_matches_elem p cmd m :
  m ∈ match_host_executable_rules p cmd ↔
  ∃ c args program base r m', cmd = c :: args ∧ from_absolute_path c = Some program ∧
    executable_path_lookup_key program = Some base ∧ r ∈ default [] (rules_by_program p !! base) ∧
    (∀ paths, host_executables_by_name p !! base = Some paths → program ∈ paths) ∧
    rule_matches r (base :: args) = Some m' ∧ m = with_resolved_program program m'.
Proof.
  unfold match_host_executable_rules. destruct cmd as [|c args]; [set_solver|].
  destruct (from_absolute_path c) as [program|] eqn:Hc; [|set_solver by naive_solver].
  destruct (executable_path_lookup_key program) as [base|] eqn:Hb; [|set_solver by naive_solver].
  set (listed := match host_executables_by_name p !! base with Some _ => _ | None => true end).
  assert (listed = true ↔ ∀ paths, host_executables_by_name p !! base = Some paths → program ∈ paths) as Hlisted.
  { subst listed. destruct (host_executables_by_name p !! base) as [paths|]; [|naive_solver].
    rewrite existsb_exists. setoid_rewrite bool_decide_eq_true. setoid_rewrite <-list_elem_of_In. naive_solver. }
  transitivity (listed = true ∧ ∃ r m', r ∈ default [] (rules_by_program p !! base) ∧
    rule_matches r (base :: args) = Some m' ∧ m = with_resolved_program program m').
  - destruct (rules_by_program p !! base) as [rules|]; simpl; [|set_solver].
    destruct listed; simpl; [|set_solver]. rewrite list_elem_of_fmap. setoid_rewrite list_elem_of_omap. naive_solver.
  - rewrite Hlisted. split; [naive_solver|].
    intros (c' & args' & program' & base' & r & m' & [= <- <-] & Hc' & Hb' & Hr & Hl & Hm & ->). simplify_eq. eauto 8.
Qed.

Lemma host_matches_of p cmd : matches_of (base_name_rule p cmd) (match_host_executable_rules p cmd).
Proof.
  split.
  - intros m (c & args & program & base & r & m' & Hc & Hp & Hb & Hr & Hl & Hm & ->)%host_matches_elem.
    apply rule_matches_covers in Hm as (Hcov & Hd & _). exists r. rewrite with_resolved_decision.
    split; [by exists c, args, program, base|done].
  - intros r (c & args & program & base & Hc & Hp & Hb & Hr & Hl & Hcov). destruct (covers_matches _ _ Hcov) as [m Hm].
    exists (with_resolved_program program m). rewrite with_resolved_decision. split.
    + apply host_matches_elem. by exists c, args, program, base, r, m.
    + by apply rule_matches_covers in Hm as (_ & Hd & _).
Qed.

(** The strictest of the rules [R] decides, and nothing else matched. *)
Definition judged_by (R : PrefixRule → Prop) (e : Evaluation) : Prop :=
  (∀ r, R r → severity (rule_decision r) ≤ severity (decision e)) ∧ (∃ r, R r ∧ rule_decision r = decision e) ∧
  (∀ m, m ∈ matched_rules e → ∃ r, R r ∧ match_decision m = rule_decision r).

Lemma judged_matches R e :
  matches_of R (matched_rules e) → strictest (matched_rules e) (decision e) → judged_by R e.
Proof.
  intros [Hsound Hall] [Hmax (m & Hm & Hd)]. rewrite Forall_forall in Hmax. split_and!; [| |done].
  - intros r Hr. destruct (Hall r Hr) as (m' & Hm' & <-). by apply Hmax.
  - destruct (Hsound m Hm) as (r & Hr & Heq). exists r. split; [done|congruence].
Qed.

Lemma matches_of_empty R ms : matches_of R ms → ms = [] ↔ ∀ r, ¬ R r.
Proof.
  intros [Hsound Hall]. split.
  - intros -> r Hr. destruct (Hall r Hr) as (m & Hm%not_elem_of_nil & _). done.
  - intros Hno. apply elem_of_nil_inv. intros m Hm. destruct (Hsound m Hm) as (r & Hr & _). by apply (Hno r).
Qed.
End check.

(** Claim C16. Checking a command never panics, and the verdict is the strictest among the
    rules of the policy that speak about it.  When rules filed under the command's first word
    cover it (their pattern is a prefix of it), exactly they count, and the strictest of them
    decides.  When there is none and base names are asked for, exactly the rules filed under
    the base name of the program count that cover the command with the base name put first,
    if the policy lists the program for that name or lists none; again the strictest decides.
    Only when there are none of these either does the heuristic decide. *)
Theorem check_strictest `{PathEnv} p cmd fb res :
  ∃ e, check_with_options p cmd fb res = Some e ∧
    ((∃ r, exact_rule p cmd r) → judged_by (exact_rule p cmd) e) ∧
    ((∀ r, ¬ exact_rule p cmd r) → res = true → (∃ r, base_name_rule p cmd r) → judged_by (base_name_rule p cmd) e) ∧
    ((∀ r, ¬ exact_rule p cmd r) → (res = false ∨ ∀ r, ¬ base_name_rule p cmd r) →
       e = {| decision := fb cmd; matched_rules := [HeuristicsRuleMatch cmd (fb cmd)] |}).
Proof.
  destruct (from_matches_spec (matches_for_command_with_options p cmd (Some fb) res))
    as (e & He & Hm & Hs); [apply matches_nonempty|].
  pose proof (exact_matches_of p cmd) as Hex. pose proof (host_matches_of p cmd) as Hhost.
  exists e. split; [done|]. split_and!.
  - intros [r Hr]. assert (exact_matches p cmd ≠ []) as Hne by (intros Hn; by eapply (matches_of_empty _ _ Hex)).
    rewrite (matches_exact _ _ _ _ Hne) in Hm, Hs. apply judged_matches; by rewrite Hm.
  - intros Hno -> [r Hr]. apply (matches_of_empty _ _ Hex) in Hno. rewrite matches_not_exact in Hm, Hs by done.
    destruct (match_host_executable_rules p cmd) as [|m ms] eqn:E.
    + exfalso. by eapply (matches_of_empty _ _ Hhost).
    + apply judged_matches; by rewrite Hm.
  - intros Hno Hres. apply (matches_of_empty _ _ Hex) in Hno. unfold check_with_options in He.
    rewrite matches_not_exact in He by done. destruct Hres as [->|Hh%(matches_of_empty _ _ Hhost)];
      [|rewrite Hh in He; destruct res]; simpl in He; by injection He as <-.
Qed.

(** ** Overlays *)

Section overlay.
  Context `{PathEnv}.

Lemma merged_rules p q c :
  default [] (rules_by_program (merge_overlay p q) !! c) =
  default [] (rules_by_program p !! c) ++ default [] (rules_by_program q !! c).
Proof.
  simpl. rewrite lookup_union_with.
  destruct (rules_by_program p !! c), (rules_by_program q !! c); simpl; by rewrite ?app_nil_r.
Qed.

Lemma exact_matches_merge p q cmd :
  exact_matches (merge_overlay p q) cmd = exact_matches p cmd ++ exact_matches q cmd.
Proof.
  destruct cmd as [|c args]; [done|]. unfold exact_matches, match_exact_rules. cbn [from_option default id].
  rewrite merged_rules. apply omap_app.
Qed.

Lemma strictest_app ms ns d d' :
  strictest ms d → strictest (ms ++ ns) d' → severity d ≤ severity d'.
Proof.
  intros [_ (m & Hm & <-)] [Ha _]. rewrite Forall_forall in Ha. apply Ha. set_solver.
Qed.

Lemma strictest_app_r ms ns d d' :
  strictest ns d → strictest (ms ++ ns) d' → severity d ≤ severity d'.
Proof.
  intros [_ (m & Hm & <-)] [Ha _]. rewrite Forall_forall in Ha. apply Ha. set_solver.
Qed.
End overlay.

(** Merging an overlay never loosens what a policy says with its exact rules:
    when one of the two policies has a rule filed under the command's program that covers
    the command, the merged verdict is at least as strict as that policy's own.  So a
    project layer cannot lift a restriction of the layer below. *)
Theorem overlay_never_loosens `{PathEnv} p q cmd fb res e e' :
  check_with_options (merge_overlay p q) cmd fb res = Some e' →
  (exact_matches p cmd ≠ [] ∧ check_with_options p cmd fb res = Some e) ∨
  (exact_matches q cmd ≠ [] ∧ check_with_options q cmd fb res = Some e) →
  severity (decision e) ≤ severity (decision e').
Proof.
  unfold check_with_options. intros Hm Hor.
  assert (exact_matches (merge_overlay p q) cmd ≠ []) as Hne.
  { rewrite exact_matches_merge. destruct Hor as [[Hn _]|[Hn _]]; intros [? ?]%app_eq_nil; done. }
  rewrite (matches_exact _ _ _ _ Hne), exact_matches_merge in Hm.
  destruct (from_matches_spec (exact_matches p cmd ++ exact_matches q cmd)) as (e0 & He0 & _ & Hs').
  { by rewrite <-exact_matches_merge. }
  rewrite Hm in He0. injection He0 as <-.
  destruct Hor as [[Hn He]|[Hn He]]; rewrite (matches_exact _ _ _ _ Hn) in He;
    destruct (from_matches_spec _ Hn) as (e1 & He1 & _ & Hs); rewrite He in He1; injection He1 as <-.
  - by eapply strictest_app.
  - by eapply strictest_app_r.
Qed.

Definition git_rule (d : Decision) (key : string) : PrefixRule :=
  {| pattern := {| first := key; rest := [Single "push"] |}; rule_decision := d; rule_justification := None |}.

Definition git_policy (d : Decision) (key : string) : Policy :=
  set_rules {[key := [git_rule d key]]} empty_policy.

Lemma overlay_never_loosens_witness :
  let env := sample_env in
  severity Forbidden ≤ severity
    (decision {| decision := Forbidden;
                 matched_rules := [PrefixRuleMatch ["git"; "push"] Forbidden None None;
                                   PrefixRuleMatch ["git"; "push"] Allow None None] |}).
Proof.
  intros env.
  apply (overlay_never_loosens (git_policy Forbidden "git") (git_policy Allow "git")
    ["git"; "push"; "-f"] (λ _, Prompt) true
    {| decision := Forbidden; matched_rules := [PrefixRuleMatch ["git"; "push"] Forbidden None None] |});
    [vm_refl|]. left. split; [vm_compute; discriminate|vm_refl].
Defined.

(** The restriction to exact rules matters: a rule for the path overrides the rules of the
    base name, stricter or not. *)
Example exact_path_overrides_basename :
  let env := sample_env in
  let base := git_policy Forbidden "git" in
  let overlay := git_policy Allow "/usr/bin/git" in
  let cmd := ["/usr/bin/git"; "push"] in
  (decision <$> check_with_options base cmd (λ _, Prompt) true) = Some Forbidden ∧
  (decision <$> check_with_options (merge_overlay base overlay) cmd (λ _, Prompt) true) = Some Allow.
Proof. intros env base overlay cmd. split; vm_refl. Qed.

(** A relative program is resolved against the current directory of the process, too. *)
Example relative_program_resolved :
  let env := sample_env in
  match_host_executable_rules (git_policy Allow "git") ["./git"; "push"] =
  [PrefixRuleMatch ["git"; "push"] Allow (Some {| rooted := true; names := ["work"; "git"] |}) None].
Proof. intros env. vm_refl. Qed.

(** ** Network rules: the last verdict wins *)

(** The last rule for the host that allows or forbids. *)
Definition last_verdict (h : string) (rules : list NetworkRule) : option Decision :=
  last (omap (λ r, if str_eqb (host r) h && negb (bool_decide (net_decision r = Prompt))
                   then Some (net_decision r) else None) rules).

Lemma last_verdict_snoc h rules r :
  last_verdict h (rules ++ [r]) =
  if str_eqb (host r) h && negb (bool_decide (net_decision r = Prompt))
  then Some (net_decision r) else last_verdict h rules.
Proof.
  unfold last_verdict. rewrite omap_app. cbn [omap list_omap].
  destruct (_ && _); [by rewrite last_snoc|by rewrite app_nil_r].
Qed.

Lemma elem_of_drop h x l :
  x ∈ List.filter (λ entry, negb (str_eqb entry h)) l ↔ x ∈ l ∧ x ≠ h.
Proof. rewrite !list_elem_of_In, filter_In, negb_true_iff, str_eqb_false. done. Qed.

Lemma nodup_drop h l : NoDup l → NoDup (List.filter (λ entry, negb (str_eqb entry h)) l).
Proof. intros Hl. eapply sublist_NoDup; [done|apply sublist_filter_bool]. Qed.

Lemma nodup_upsert h l : NoDup l → NoDup (upsert_domain l h).
Proof.
  intros Hl. unfold upsert_domain. apply NoDup_app. split_and!.
  - by apply nodup_drop.
  - intros x Hx Hh. apply elem_of_drop in Hx as [_ Hx]. set_solver.
  - apply NoDup_singleton.
Qed.

Lemma elem_of_upsert h x l : x ∈ upsert_domain l h ↔ x = h ∨ x ∈ l.
Proof.
  unfold upsert_domain. rewrite elem_of_app, elem_of_drop, list_elem_of_singleton.
  destruct (decide (x = h)); naive_solver.
Qed.

(** The compiled allow and deny lists hold each host at most once and never on
    both sides, and a host is on the side of the last rule that allows or forbids it;
    prompting rules do not move it. *)
Theorem network_last_wins p h :
  let '(allowed, denied) := compiled_network_domains p in
  NoDup allowed ∧ NoDup denied ∧
  (h ∈ allowed ↔ last_verdict h (network_rules p) = Some Allow) ∧
  (h ∈ denied ↔ last_verdict h (network_rules p) = Some Forbidden).
Proof.
  unfold compiled_network_domains. induction (network_rules p) as [|r rules IH] using rev_ind.
  { simpl. split_and!; [constructor..|set_solver|set_solver]. }
  rewrite fold_left_app. cbn [fold_left]. rewrite last_verdict_snoc.
  destruct (fold_left domain_step rules ([], [])) as [al de]. destruct IH as (Ha & Hd & Hia & Hid).
  unfold domain_step. destruct (str_eqb (host r) h) eqn:Eh.
  - apply str_eqb_true in Eh. subst h.
    destruct (net_decision r); simpl; rewrite ?elem_of_upsert, ?elem_of_drop;
      split_and!; auto using nodup_drop, nodup_upsert; naive_solver.
  - apply str_eqb_false in Eh.
    destruct (net_decision r); simpl; rewrite ?elem_of_upsert, ?elem_of_drop;
      split_and!; auto using nodup_drop, nodup_upsert; naive_solver.
Qed.

(** ** Appending a rule *)

Lemma existsb_line line ls : existsb (str_eqb line) ls = true ↔ line ∈ ls.
Proof.
  rewrite existsb_exists. setoid_rewrite str_eqb_true. setoid_rewrite <-list_elem_of_In. naive_solver.
Qed.

Lemma lines_of_snoc ps x :
  lines_of (ps ++ [x]) = (strip_cr <$> ps) ++ (if str_is_empty x then [] else [x]).
Proof.
  induction ps as [|p ps IH]; [done|]. cbn [app lines_of].
  destruct (ps ++ [x]) as [|q qs] eqn:E; [by destruct ps|]. by rewrite IH.
Qed.

(** The last piece of a text that is not empty and does not end a line. *)
Lemma split_snoc s :
  s ≠ EmptyString → ends_with NL s = false → ends_cr s = false →
  ∃ ps x, split_char newline s = ps ++ [x] ∧ x ≠ EmptyString ∧ strip_cr x = x.
Proof.
  intros Hne Hnl Hcr. destruct (split_char newline s) as [|x ps _] eqn:E using rev_ind;
    [by apply split_char_nonempty in E|].
  exists ps, x. split; [done|].
  assert (∃ y, s = y +:+ x ∧ (x = EmptyString → ends_with NL s = true)) as (y & Hy & Hx).
  { rewrite <-(join_split_char newline s), E. destruct ps as [|q ps].
    - exists EmptyString. split; [done|]. simpl. intros ->. pose proof (join_split_char newline s) as Hj.
      rewrite E in Hj. by simpl in Hj.
    - rewrite join_snoc by done. exists (join NL (q :: ps) +:+ NL). rewrite str_app_assoc.
      split; [done|]. intros ->. rewrite str_app_nil_r. apply ends_with_app. }
  split; [intros Hx0; rewrite (Hx Hx0) in Hnl; done|]. apply strip_cr_id.
  apply not_true_iff_false. intros [r ->]%ends_with_true. rewrite Hy, str_app_assoc in Hcr.
  unfold ends_cr in Hcr. by rewrite ends_with_app in Hcr.
Qed.

(** Appending a rule line to the policy file leaves every line that was there,
    in place, puts the new line behind them unless it is there already, and ends it; doing
    it twice is doing it once.  (The file must not end in a lone carriage return, which the
    newline put behind it would complete to a line end.) *)
Theorem append_line_spec contents line :
  contains_char newline line = false → ends_cr line = false → ends_cr contents = false →
  let contents' := append_locked_line contents line in
  lines contents' = (if bool_decide (line ∈ lines contents) then lines contents
                     else lines contents ++ [line]) ∧
  append_locked_line contents' line = contents'.
Proof.
  intros Hnl Hcr Hcc. cbv zeta.
  assert (lines (append_locked_line contents line) =
    if bool_decide (line ∈ lines contents) then lines contents else lines contents ++ [line]) as Hl.
  { unfold append_locked_line. destruct (existsb (str_eqb line) (lines contents)) eqn:E.
    { rewrite bool_decide_true; [done|]. by apply existsb_line. }
    rewrite bool_decide_false by (intros Hin%existsb_line; congruence). clear E. unfold lines.
    destruct (decide (contents = EmptyString)) as [->|Hne].
    { simpl. rewrite !str_app_nil_l. unfold NL. rewrite split_char_app_sep by done. simpl.
      by rewrite strip_cr_id. }
    rewrite (proj2 (str_is_empty_false contents)) by done. simpl.
    destruct (ends_with NL contents) eqn:En; simpl.
    - rewrite str_app_nil_l. apply ends_with_true in En as [r ->]. rewrite <-str_app_assoc.
      unfold NL. rewrite !str_app_cons, !str_app_nil_l, !split_char_app_mid.
      rewrite (split_char_single _ _ Hnl). change (split_char newline EmptyString) with [EmptyString].
      rewrite app_assoc, !lines_of_snoc, fmap_app. simpl. by rewrite !app_nil_r, strip_cr_id.
    - change (NL +:+ (line +:+ NL)) with (String newline (line +:+ String newline EmptyString)).
      rewrite !split_char_app_mid, (split_char_single _ _ Hnl).
      change (split_char newline EmptyString) with [EmptyString].
      destruct (split_snoc contents Hne En Hcc) as (ps & x & -> & Hx & Hs).
      rewrite app_assoc, !lines_of_snoc, !fmap_app. simpl.
      rewrite (proj2 (str_is_empty_false x)), app_nil_r, Hs, strip_cr_id by done. done. }
  split; [done|]. unfold append_locked_line at 1. rewrite Hl.
  replace (existsb _ _) with true; [done|]. symmetry. apply existsb_line.
  case_bool_decide; [done|]. set_solver.
Qed.

Lemma append_line_spec_witness :
  append_locked_line "a" "b" = "a" +:+ (NL +:+ ("b" +:+ NL)) ∧
  lines (append_locked_line "a" "b") = ["a"; "b"] ∧
  append_locked_line (append_locked_line "a" "b") "b" = append_locked_line "a" "b".
Proof.
  split; [done|]. by apply (append_line_spec "a" "b").
Defined.

(** ** Hosts *)

(** The bytes of [s] are bytes of [t]. *)
Definition bytes_from (s t : string) : Prop :=
  ∀ a, contains_char a s = true → contains_char a t = true.

Lemma bytes_from_infix x s y : bytes_from s (x +:+ (s +:+ y)).
Proof. intros a Ha. rewrite !contains_char_app, Ha. by rewrite orb_true_r. Qed.

Lemma bytes_from_trans s t u : bytes_from s t → bytes_from t u → bytes_from s u.
Proof. unfold bytes_from. auto. Qed.

Lemma bytes_from_trim s : bytes_from (trim s) s.
Proof.
  destruct (trim_prefix s) as [r Hr].
  assert (s = concat_str (take_while is_whitespace (chars s)) +:+ trim_start s) as Hs.
  { unfold trim_start. by rewrite <-concat_str_app, take_drop_while, concat_str_chars. }
  rewrite Hr in Hs. rewrite Hs at 2. apply bytes_from_infix.
Qed.

Lemma bytes_from_trim_end_char c s : bytes_from (trim_end_char c s) s.
Proof.
  assert (s = trim_end_char c s +:+ of_bytes (reverse (take_while (byte_eqb c) (reverse (as_bytes s))))) as Hs.
  { unfold trim_end_char. rewrite <-of_bytes_app, <-reverse_app, take_drop_while, reverse_involutive.
    by rewrite of_as_bytes. }
  rewrite Hs at 2. apply (bytes_from_infix EmptyString).
Qed.

Lemma split_once_infix sep s x y : split_once sep s = Some (x, y) → s = x +:+ (sep +:+ y).
Proof.
  unfold split_once. destruct (find sep s) as [n|] eqn:E; [|done]. intros [= <- <-].
  destruct (find_some _ _ _ E) as [r Hr]. apply find_len in E.
  assert (String.length (str_take n s) = n) as Hn by (rewrite str_len_take; lia).
  rewrite Hr at 1. do 2 f_equal.
  rewrite Hr at 1. rewrite str_app_assoc.
  replace (n + String.length sep) with (String.length (str_take n s +:+ sep)) at 1
    by (rewrite str_len_app; lia).
  by rewrite str_drop_app_len.
Qed.

Lemma bytes_from_bare raw h r : bare_host raw h = Ok r → bytes_from r h.
Proof.
  unfold bare_host. destruct (strip_prefix "[" h) as [s|] eqn:E.
  - apply strip_prefix_some in E as ->. destruct (split_once "]" s) as [[x y]|] eqn:Es; [|done].
    apply split_once_infix in Es as ->. destruct (_ && _); [done|]. intros [= <-].
    apply bytes_from_infix.
  - intros [= <-]. unfold strip_port. destruct (_ =? 1); [|by intros a].
    destruct (split_once ":" h) as [[x y]|] eqn:Es; [|by intros a].
    destruct (_ && _); [|by intros a]. apply split_once_infix in Es as ->.
    apply (bytes_from_infix EmptyString).
Qed.

Lemma contains_single a s : contains (String a EmptyString) s = contains_char a s.
Proof.
  induction s as [|b s IH]; [done|]. rewrite contains_char_cons, <-IH. unfold contains. cbn [find].
  destruct (starts_with (String a EmptyString) (String b s)) eqn:E.
  - rewrite bool_decide_true by by eexists. apply starts_with_true in E as [r Hr].
    rewrite str_app_cons in Hr. injection Hr as -> _. by rewrite byte_eqb_refl.
  - destruct (byte_eqb a b) eqn:Eb.
    + apply byte_eqb_true in Eb as ->. pose proof (starts_with_app (String b EmptyString) s) as H.
      rewrite str_app_cons, str_app_nil_l in H. congruence.
    + simpl. apply bool_decide_ext. rewrite fmap_is_Some. done.
Qed.

Lemma lower_contains a s :
  is_ascii_lower a = false → contains_char a (ascii_lowercase s) = true → contains_char a s = true.
Proof.
  unfold contains_char, ascii_lowercase. rewrite as_of_bytes, !existsb_exists.
  intros Ha (b & Hb & Heq). apply byte_eqb_true in Heq as <-.
  rewrite <-list_elem_of_In in Hb. apply list_elem_of_fmap in Hb as (c & -> & Hc).
  exists (lower_byte c). rewrite byte_eqb_refl. split; [|done].
  unfold lower_byte in *. destruct (is_ascii_upper c) eqn:E; [|by rewrite <-list_elem_of_In].
  exfalso. revert E Ha. clear. destruct c as [[] [] [] [] [] [] [] []]; vm_compute; intros; discriminate.
Qed.

Lemma lower_idem s : ascii_lowercase (ascii_lowercase s) = ascii_lowercase s.
Proof.
  unfold ascii_lowercase. rewrite as_of_bytes, <-list_fmap_compose. f_equal.
  apply list_fmap_ext. intros ? c ?. simpl. clear. unfold lower_byte.
  destruct c as [[] [] [] [] [] [] [] []]; by vm_compute.
Qed.

(** A host that a network rule stores is a bare, lower-case, non-empty name: it
    holds no scheme, path, query or fragment character, no wildcard and no white space,
    whatever text it was written as. *)
Theorem network_host_bare raw h :
  normalize_network_rule_host raw = Ok h →
  h ≠ EmptyString ∧ ascii_lowercase h = h ∧
  Forall (λ a, contains_char a h = false) ["/"; "?"; "#"; "*"]%char ∧
  existsb is_whitespace (chars h) = false.
Proof.
  unfold normalize_network_rule_host. set (t := trim raw). destruct (str_is_empty t); [done|].
  destruct (_ || _) eqn:Eb; [done|].
  repeat (apply orb_false_iff in Eb as [Eb ?]). rewrite !contains_single in *.
  destruct (bare_host raw t) as [b|e] eqn:Ebare; simpl; [|done].
  set (n := ascii_lowercase _). destruct (str_is_empty n) eqn:En; [done|].
  destruct (contains "*" n) eqn:Es; [done|]. destruct (existsb is_whitespace (chars n)) eqn:Ew; [done|].
  intros [= <-]. apply str_is_empty_false in En. rewrite contains_single in Es.
  assert (∀ a, is_ascii_lower a = false → contains_char a t = false → contains_char a n = false) as Hn.
  { intros a Ha Ht. apply not_true_iff_false. intros Hc%lower_contains; [|done].
    apply bytes_from_trim, bytes_from_trim_end_char, (bytes_from_bare raw t) in Hc; [congruence|done]. }
  split_and!; [done|apply lower_idem|repeat constructor; auto|done].
Qed.

Lemma network_host_bare_witness :
  normalize_network_rule_host " Example.COM:443 " = Ok "example.com" ∧ "example.com" ≠ EmptyString.
Proof. split; [vm_refl|]. by apply (network_host_bare " Example.COM:443 "). Defined.

(** A stored host is not always one that normalises to itself: a port hidden behind a final
    dot survives the first pass and is cut by the second, which reads the policy file
    [blocking_append_network_rule] wrote. *)
Example host_normalisation_not_idempotent :
  normalize_network_rule_host "example.com:443." = Ok "example.com:443" ∧
  normalize_network_rule_host "example.com:443" = Ok "example.com".
Proof. split; vm_refl. Qed.
