(* ===== verification/PolicyParser.v ===== *)
(** * Reading exec policies

    codex-rs/execpolicy/src/parser.rs: the builder behind the Starlark builtins
    [prefix_rule], [network_rule] and [host_executable], and the validation of the examples
    a file declares.

    Starlark is a parameter ([Starlark]): for the text of a file, the calls of the builtins
    in the order of evaluation and whether the evaluation itself fails after them.  The
    builtins return nothing, so their results do not change which calls come; the first
    one that fails ends the evaluation.  [shlex::split] is a parameter, too. *)

From S2P Require Import Prelude Str Json AbsPath ExecPolicy ExecPolicyFacts.

(** A Starlark value as the builtins look at it: a string, a list, or something else. *)
Inductive StarValue := SStr (s : string) | SList (l : list StarValue) | SOther (type_name : string).

Definition get_type (v : StarValue) : string :=
  match v with SStr _ => "string" | SList _ => "list" | SOther t => t end.

Inductive BuiltinCall :=
| CallPrefixRule (pattern : list StarValue) (decision : option string)
    (matches not_match : option (list StarValue)) (justification : option string)
    (location : option ErrorLocation)
| CallNetworkRule (host protocol decision : string) (justification : option string)
| CallHostExecutable (name : string) (paths : list StarValue).

Class Starlark := {
  eval_module : string → string → list BuiltinCall * bool;
  shlex_split : string → option (list string);
}.

(** [iter().map(f).collect::<Result<_>>()] *)
Fixpoint collect {A B E} (f : A → Result B E) (l : list A) : Result (list B) E :=
  match l with
  | [] => Ok []
  | a :: r => let? b := f a in let? bs := collect f r in Ok (b :: bs)
  end.

(** ** Values *)

Definition unpack_alternative (v : StarValue) : Result string Error :=
  match v with
  | SStr s => Ok s
  | _ => Err (InvalidPattern ("pattern alternative must be a string (got " +:+ (get_type v +:+ ")")))
  end.

Definition parse_pattern_token (value : StarValue) : Result PatternToken Error :=
  match value with
  | SStr s => Ok (Single s)
  | SList l =>
      let? tokens := collect unpack_alternative l in
      match tokens with
      | [] => Err (InvalidPattern "pattern alternatives cannot be empty")
      | [single] => Ok (Single single)
      | _ => Ok (Alts tokens)
      end
  | SOther _ =>
      Err (InvalidPattern ("pattern element must be a string or list of strings (got "
                           +:+ (get_type value +:+ ")")))
  end.

Definition parse_pattern (pattern : list StarValue) : Result (list PatternToken) Error :=
  let? tokens := collect parse_pattern_token pattern in
  match tokens with
  | [] => Err (InvalidPattern "pattern cannot be empty")
  | _ => Ok tokens
  end.

Definition unpack_example_token (v : StarValue) : Result string Error :=
  match v with
  | SStr s => Ok s
  | _ => Err (InvalidExample ("example tokens must be strings (got " +:+ (get_type v +:+ ")")))
  end.

Section values.
  Context `{Starlark}.

Definition parse_string_example (raw : string) : Result (list string) Error :=
  match shlex_split raw with
  | None => Err (InvalidExample "example string has invalid shell syntax")
  | Some [] => Err (InvalidExample "example cannot be an empty string")
  | Some tokens => Ok tokens
  end.

Definition parse_list_example (l : list StarValue) : Result (list string) Error :=
  let? tokens := collect unpack_example_token l in
  match tokens with
  | [] => Err (InvalidExample "example cannot be an empty list")
  | _ => Ok tokens
  end.

Definition parse_example (value : StarValue) : Result (list string) Error :=
  match value with
  | SStr raw => parse_string_example raw
  | SList l => parse_list_example l
  | SOther _ =>
      Err (InvalidExample ("example must be a string or list of strings (got "
                           +:+ (get_type value +:+ ")")))
  end.

Definition parse_examples (examples : list StarValue) : Result (list (list string)) Error :=
  collect parse_example examples.

(** [examples.map(parse_examples).transpose()?.unwrap_or_default()] *)
Definition parse_opt_examples (examples : option (list StarValue)) :
    Result (list (list string)) Error :=
  match examples with Some l => parse_examples l | None => Ok [] end.
End values.

Definition parse_network_rule_decision (raw : string) : Result Decision Error :=
  if str_eqb raw "deny" then Ok Forbidden else parse_decision raw.

(** [Path::new(name).file_name()] *)
Definition path_file_name (path : string) : option string :=
  match last (components path) with Some (Normal n) => Some n | _ => None end.

Definition validate_host_executable_name (name : string) : Result unit Error :=
  if str_is_empty name then Err (InvalidRule "host_executable name cannot be empty")
  else if negb (length (components name) =? 1) || negb (bool_decide (path_file_name name = Some name))
  then Err (InvalidRule ("host_executable name must be a bare executable name (got "
                         +:+ (name +:+ ")")))
  else Ok tt.

(** The text of the I/O error of [AbsolutePathBuf::try_from] is left out of the message; on
    an absolute path it does not fail. *)
Definition parse_literal_absolute_path `{PathEnv} (raw : string) : Result PathBuf Error :=
  if negb (is_absolute raw)
  then Err (InvalidRule ("host_executable paths must be absolute (got " +:+ (raw +:+ ")")))
  else match from_absolute_path raw with
       | Some p => Ok p
       | None => Err (InvalidRule ("invalid absolute path `" +:+ (raw +:+ "`")))
       end.

(** ** The builder *)

Record PendingExampleValidation := {
  v_rules : list PrefixRule;
  v_matches : list (list string);
  v_not_matches : list (list string);
  v_location : option ErrorLocation;
}.

Record PolicyBuilder := {
  b_policy : Policy;
  pending_example_validations : list PendingExampleValidation;
}.

Definition new_builder : PolicyBuilder :=
  {| b_policy := empty_policy; pending_example_validations := [] |}.

Definition add_rule (b : PolicyBuilder) (rule : PrefixRule) : PolicyBuilder :=
  {| b_policy := set_rules (multi_insert (program rule) rule (rules_by_program (b_policy b))) (b_policy b);
     pending_example_validations := pending_example_validations b |}.

Definition add_pending_example_validation (v : PendingExampleValidation) (b : PolicyBuilder) :
    PolicyBuilder :=
  {| b_policy := b_policy b;
     pending_example_validations := pending_example_validations b ++ [v] |}.

Definition builder_add_network_rule (rule : NetworkRule) (b : PolicyBuilder) : PolicyBuilder :=
  {| b_policy := {| rules_by_program := rules_by_program (b_policy b);
                    network_rules := network_rules (b_policy b) ++ [rule];
                    host_executables_by_name := host_executables_by_name (b_policy b) |};
     pending_example_validations := pending_example_validations b |}.

Definition add_host_executable (name : string) (paths : list PathBuf) (b : PolicyBuilder) :
    PolicyBuilder :=
  {| b_policy := set_host_executable_paths name paths (b_policy b);
     pending_example_validations := pending_example_validations b |}.

Definition build (b : PolicyBuilder) : Policy := b_policy b.

(** ** The builtins *)

Section builtins.
  Context `{Starlark, PathEnv}.

Definition opt_decision (decision : option string) : Result Decision Error :=
  match decision with Some raw => parse_decision raw | None => Ok Allow end.

Definition prefix_rule (pattern : list StarValue) (decision : option string)
    (matches not_match : option (list StarValue)) (justification : option string)
    (location : option ErrorLocation) (b : PolicyBuilder) : Result PolicyBuilder Error :=
  let? decision := opt_decision decision in
  if blank justification then Err (InvalidRule "justification cannot be empty")
  else
    let? pattern_tokens := parse_pattern pattern in
    let? matches := parse_opt_examples matches in
    let? not_matches := parse_opt_examples not_match in
    match pattern_tokens with
    | [] => Err (InvalidPattern "pattern cannot be empty")
    | first_token :: rest =>
        let rules := (λ head, {| pattern := {| first := head; rest := rest |};
                                 rule_decision := decision;
                                 rule_justification := justification |})
                       <$> alternatives_of first_token in
        let b := add_pending_example_validation
                   {| v_rules := rules; v_matches := matches; v_not_matches := not_matches;
                      v_location := location |} b in
        Ok (fold_left add_rule rules b)
    end.

Definition network_rule (raw_host protocol decision : string) (justification : option string)
    (b : PolicyBuilder) : Result PolicyBuilder Error :=
  let? protocol := parse_protocol protocol in
  let? decision := parse_network_rule_decision decision in
  if blank justification then Err (InvalidRule "justification cannot be empty")
  else
    let? host := normalize_network_rule_host raw_host in
    Ok (builder_add_network_rule
          {| host := host; protocol := protocol; net_decision := decision;
             net_justification := justification |} b).

Definition basename_error (raw name : string) : Error :=
  InvalidRule ("host_executable path `" +:+ (raw +:+ ("` must have basename `" +:+ (name +:+ "`")))).

(** One round of the loop over the paths. *)
Definition host_path_step (name : string) (parsed_paths : list PathBuf) (value : StarValue) :
    Result (list PathBuf) Error :=
  match value with
  | SStr raw =>
      let? path := parse_literal_absolute_path raw in
      match executable_path_lookup_key path with
      | None => Err (basename_error raw name)
      | Some path_name =>
          if negb (str_eqb path_name (executable_lookup_key name)) then Err (basename_error raw name)
          else if existsb (λ existing, bool_decide (existing = path)) parsed_paths
               then Ok parsed_paths else Ok (parsed_paths ++ [path])
      end
  | _ => Err (InvalidRule ("host_executable paths must be strings (got " +:+ (get_type value +:+ ")")))
  end.

Definition host_executable (name : string) (paths : list StarValue) (b : PolicyBuilder) :
    Result PolicyBuilder Error :=
  let? _ := validate_host_executable_name name in
  let? parsed_paths := fold_res (host_path_step name) [] paths in
  Ok (add_host_executable (executable_lookup_key name) parsed_paths b).

Definition run_call (b : PolicyBuilder) (c : BuiltinCall) : Result PolicyBuilder Error :=
  match c with
  | CallPrefixRule pattern decision matches not_match justification location =>
      prefix_rule pattern decision matches not_match justification location b
  | CallNetworkRule host protocol decision justification =>
      network_rule host protocol decision justification b
  | CallHostExecutable name paths => host_executable name paths b
  end.

(** The calls up to the first failure; the builder keeps what was added before it. *)
Fixpoint run_calls (b : PolicyBuilder) (calls : list BuiltinCall) : PolicyBuilder * option Error :=
  match calls with
  | [] => (b, None)
  | c :: r =>
      match run_call b c with
      | Ok b' => run_calls b' r
      | Err e => (b, Some e)
      end
  end.

(** ** Validation *)

Definition attach_validation_location (e : Error) (location : option ErrorLocation) : Error :=
  match location with Some location => with_location e location | None => e end.

(** The policy an example is judged by: the rules of its own call, with all the host
    executables of the builder. *)
Definition validation_policy (b : PolicyBuilder) (v : PendingExampleValidation) : Policy :=
  {| rules_by_program :=
       fold_left (λ m rule, multi_insert (program rule) rule m) (v_rules v) ∅;
     network_rules := [];
     host_executables_by_name := host_executables_by_name (b_policy b) |}.

Definition validate_one (b : PolicyBuilder) (v : PendingExampleValidation) : Result unit Error :=
  let policy := validation_policy b v in
  let? _ := map_err (λ e, attach_validation_location e (v_location v))
              (validate_not_match_examples policy (v_not_matches v)) in
  map_err (λ e, attach_validation_location e (v_location v))
    (validate_match_examples policy (v_rules v) (v_matches v)).

Definition validate_pending_examples_from (b : PolicyBuilder) (start : nat) : Result unit Error :=
  fold_res (λ _ v, validate_one b v) tt (drop start (pending_example_validations b)).

(** [PolicyParser::parse]: the builder afterwards, and the result. *)
Definition parse (policy_identifier policy_file_contents : string) (b : PolicyBuilder) :
    PolicyBuilder * Result unit Error :=
  let pending_validation_count := length (pending_example_validations b) in
  let '(calls, fails) := eval_module policy_identifier policy_file_contents in
  match run_calls b calls with
  | (b', Some e) => (b', Err (StarlarkError (Some e)))
  | (b', None) =>
      if fails then (b', Err (StarlarkError None))
      else (b', validate_pending_examples_from b' pending_validation_count)
  end.
End builtins.

(** ** What a policy always is *)

(** A list of alternatives has at least two. *)
Definition token_ok (p : PatternToken) : Prop :=
  match p with Single _ => True | Alts l => 2 ≤ length l end.

Definition rules_ok (m : gmap string (list PrefixRule)) : Prop :=
  ∀ k rs, m !! k = Some rs →
    rs ≠ [] ∧ Forall (λ r, program r = k ∧ Forall token_ok (rest (pattern r))) rs.

Definition hosts_ok (m : gmap string (list PathBuf)) : Prop :=
  ∀ name paths, m !! name = Some paths →
    NoDup paths ∧ Forall (λ p, abs_ok p ∧ file_name p = Some name) paths.

(** Rules are filed under their program, host executables are absolute paths with the
    declared base name, network hosts went through the normalisation, and the rules whose
    examples are pending are in force. *)
Record builder_ok (b : PolicyBuilder) : Prop := {
  bo_rules : rules_ok (rules_by_program (b_policy b));
  bo_hosts : hosts_ok (host_executables_by_name (b_policy b));
  bo_network : Forall (λ n, ∃ raw, normalize_network_rule_host raw = Ok (host n))
                 (network_rules (b_policy b));
  bo_pending : Forall (λ v, ∀ r, r ∈ v_rules v →
                 r ∈ default [] (rules_by_program (b_policy b) !! program r))
                 (pending_example_validations b);
}.

Lemma multi_insert_lookup k r m k' :
  default [] (multi_insert k r m !! k') =
  default [] (m !! k') ++ (if bool_decide (k = k') then [r] else []).
Proof.
  unfold multi_insert. case_bool_decide; subst.
  - by rewrite lookup_insert_eq.
  - by rewrite lookup_insert_ne, app_nil_r.
Qed.

Lemma rules_ok_insert r m :
  rules_ok m → Forall token_ok (rest (pattern r)) → rules_ok (multi_insert (program r) r m).
Proof.
  intros Hm Hr k rs. unfold multi_insert. rewrite lookup_insert_Some.
  intros [[<- <-]|[_ Hk]]; [|by apply Hm]. split; [by destruct (default [] _)|].
  apply Forall_app. split; [|by repeat constructor].
  destruct (m !! program r) as [l|] eqn:E; [|constructor]. by apply Hm in E as [_ ?].
Qed.

Lemma collect_ok {A B E} (f : A → Result B E) l bs :
  collect f l = Ok bs → Forall2 (λ a b, f a = Ok b) l bs.
Proof.
  revert bs. induction l as [|a l IH]; intros bs; simpl; [intros [= <-]; constructor|].
  destruct (f a) as [b|] eqn:Ea; simpl; [|done]. destruct (collect f l) as [r|]; simpl; [|done].
  intros [= <-]. constructor; auto.
Qed.

Lemma parse_pattern_token_ok v t : parse_pattern_token v = Ok t → token_ok t.
Proof.
  destruct v as [s|l|t']; simpl; [by intros [= <-]| |done].
  destruct (collect unpack_alternative l) as [ts|]; simpl; [|done].
  destruct ts as [|x [|y ts]]; try done; intros [= <-]; simpl; [done|lia].
Qed.

Lemma parse_pattern_ok vs ts : parse_pattern vs = Ok ts → ts ≠ [] ∧ Forall token_ok ts.
Proof.
  unfold parse_pattern. destruct (collect parse_pattern_token vs) as [l|] eqn:E; simpl; [|done].
  destruct l as [|t l]; [done|]. intros [= <-]. split; [done|]. apply collect_ok in E.
  clear -E. induction E; constructor; eauto using parse_pattern_token_ok.
Qed.

Lemma fold_add_rule rules b :
  pending_example_validations (fold_left add_rule rules b) = pending_example_validations b ∧
  network_rules (b_policy (fold_left add_rule rules b)) = network_rules (b_policy b) ∧
  host_executables_by_name (b_policy (fold_left add_rule rules b)) =
    host_executables_by_name (b_policy b) ∧
  rules_by_program (b_policy (fold_left add_rule rules b)) =
    fold_left (λ m r, multi_insert (program r) r m) rules (rules_by_program (b_policy b)).
Proof. revert b. induction rules as [|r rules IH]; intros b; [done|]. apply (IH (add_rule b r)). Qed.

Lemma fold_insert_ok rules m :
  rules_ok m → Forall (λ r, Forall token_ok (rest (pattern r))) rules →
  rules_ok (fold_left (λ m r, multi_insert (program r) r m) rules m).
Proof.
  intros Hm Hr. revert m Hm. induction Hr as [|r rules Hr Hrs IH]; intros m Hm; [done|].
  simpl. by apply IH, rules_ok_insert.
Qed.

Lemma fold_insert_elem rules m k x :
  x ∈ default [] (fold_left (λ m r, multi_insert (program r) r m) rules m !! k) ↔
  x ∈ default [] (m !! k) ∨ (x ∈ rules ∧ program x = k).
Proof.
  revert m. induction rules as [|r rules IH]; intros m; simpl; [set_solver|].
  rewrite IH, multi_insert_lookup, elem_of_app. case_bool_decide; set_solver.
Qed.

Section invariant.
  Context `{Starlark, PathEnv}.

Lemma prefix_rule_inv pat d ms nms j loc b b' :
  prefix_rule pat d ms nms j loc b = Ok b' →
  ∃ v, v_location v = loc ∧
    b' = fold_left add_rule (v_rules v) (add_pending_example_validation v b) ∧
    Forall (λ r, Forall token_ok (rest (pattern r))) (v_rules v).
Proof.
  unfold prefix_rule. destruct (opt_decision d) as [dec|]; simpl; [|done].
  destruct (blank j); [done|]. destruct (parse_pattern pat) as [ts|] eqn:Ep; simpl; [|done].
  destruct (parse_opt_examples ms) as [m1|]; simpl; [|done].
  destruct (parse_opt_examples nms) as [m2|]; simpl; [|done].
  apply parse_pattern_ok in Ep as [Hne Hok]. destruct ts as [|t ts]; [done|]. intros [= <-].
  eexists {| v_rules := _; v_matches := m1; v_not_matches := m2; v_location := loc |}.
  split; [done|]. split; [done|]. simpl. apply Forall_fmap, Forall_true. intros h. simpl.
  by inversion Hok.
Qed.

Lemma prefix_rule_ok pat d ms nms j loc b b' :
  prefix_rule pat d ms nms j loc b = Ok b' → builder_ok b → builder_ok b'.
Proof.
  intros (v & _ & -> & Ht)%prefix_rule_inv [H1 H2 H3 H4].
  destruct (fold_add_rule (v_rules v) (add_pending_example_validation v b)) as (E1 & E2 & E3 & E4).
  split; rewrite ?E1, ?E2, ?E3, ?E4; simpl; try done.
  - by apply fold_insert_ok.
  - apply Forall_app. split.
    + eapply Forall_impl; [exact H4|]. intros x Hx r Hr. apply fold_insert_elem. left. auto.
    + repeat constructor. intros r Hr. apply fold_insert_elem. auto.
Qed.

Lemma host_path_ok name vs acc paths :
  fold_res (host_path_step name) acc vs = Ok paths →
  NoDup acc ∧ Forall (λ p, abs_ok p ∧ file_name p = Some name) acc →
  NoDup paths ∧ Forall (λ p, abs_ok p ∧ file_name p = Some name) paths.
Proof.
  intros Hf Hacc.
  refine (fold_res_inv (host_path_step name)
    (λ l, NoDup l ∧ Forall (λ p, abs_ok p ∧ file_name p = Some name) l) vs acc paths _ Hacc Hf).
  clear Hf Hacc. intros a v a' _ [Hn Ha].
  unfold host_path_step. destruct v as [raw| |]; try done. unfold parse_literal_absolute_path.
  destruct (is_absolute raw) eqn:Eabs; [|done]. simpl.
  destruct (from_absolute_path raw) as [p|] eqn:Ep; simpl; [|done].
  destruct (executable_path_lookup_key p) as [n|] eqn:En; [|done].
  destruct (str_eqb n (executable_lookup_key name)) eqn:Eq; [|done]. simpl.
  apply str_eqb_true in Eq as ->. unfold executable_path_lookup_key, executable_lookup_key in En.
  rewrite option_fmap_id in En.
  unfold from_absolute_path, absolutize in Ep. rewrite expand_absolute, Eabs in Ep by done.
  injection Ep as <-. destruct (normalize_absolute raw Eabs) as [_ Hok].
  destruct (existsb _ a) eqn:Ex; intros [= <-]; [done|]. split.
  - apply NoDup_app. split_and!; [done| |apply NoDup_singleton].
    intros x Hx ->%list_elem_of_singleton. apply not_true_iff_false in Ex. apply Ex.
    apply existsb_exists. eexists. rewrite <-list_elem_of_In. split; [exact Hx|].
    by apply bool_decide_eq_true.
  - apply Forall_app. split; [done|]. by apply Forall_singleton.
Qed.

Lemma run_call_ok b c b' : run_call b c = Ok b' → builder_ok b → builder_ok b'.
Proof.
  destruct c as [pat d ms nms j loc|h pr d j|name paths]; simpl.
  - apply prefix_rule_ok.
  - unfold network_rule. destruct (parse_protocol pr) as [pr'|]; simpl; [|done].
    destruct (parse_network_rule_decision d) as [d'|]; simpl; [|done]. destruct (blank j); [done|].
    destruct (normalize_network_rule_host h) as [h'|] eqn:Eh; simpl; [|done].
    intros [= <-] [H1 H2 H3 H4]. split; simpl; try done. apply Forall_app. split; [done|].
    apply Forall_singleton. simpl. eauto.
  - unfold host_executable. destruct (validate_host_executable_name name); simpl; [|done].
    destruct (fold_res (host_path_step name) [] paths) as [ps|] eqn:Ep; simpl; [|done].
    intros [= <-] [H1 H2 H3 H4]. split; simpl; try done.
    intros n l. rewrite lookup_insert_Some. intros [[<- <-]|[_ Hl]]; [|by apply H2].
    eapply host_path_ok; [exact Ep|]. split; constructor.
Qed.

Lemma run_calls_ok calls b b' o : run_calls b calls = (b', o) → builder_ok b → builder_ok b'.
Proof.
  revert b. induction calls as [|c calls IH]; intros b; simpl; [by intros [= <- <-]|].
  destruct (run_call b c) as [b1|e] eqn:E; [|by intros [= <- <-]].
  intros Hr Hb. eapply IH; [done|]. by eapply run_call_ok.
Qed.

Lemma parse_runs ident contents b b' r :
  parse ident contents b = (b', r) →
  ∃ o, run_calls b (fst (eval_module ident contents)) = (b', o) ∧
    (r = Ok tt → o = None ∧
       validate_pending_examples_from b' (length (pending_example_validations b)) = Ok tt).
Proof.
  unfold parse. destruct (eval_module ident contents) as [calls fails]. simpl.
  destruct (run_calls b calls) as [b1 [e|]]; [|destruct fails]; intros Heq; simplify_eq;
    eexists; split; done.
Qed.
End invariant.

(** Whatever policy files are read, in whatever order, and whether or not reading
    one fails half way, the policy is well formed: every rule is filed under the program it
    is for, alternatives are real alternatives, host executables are absolute normalised
    paths with the declared base name, each once, and network hosts are normalised. *)
Theorem parse_keeps_policy_ok `{Starlark, PathEnv} files b b' :
  builder_ok b →
  b' = fold_left (λ b '(ident, contents), fst (parse ident contents b)) files b →
  builder_ok b'.
Proof.
  intros Hb ->. revert b Hb. induction files as [|[i c] files IH]; intros b Hb; [done|].
  simpl. apply IH. destruct (parse i c b) as [b1 r] eqn:E. apply parse_runs in E as (o & Hr & _).
  by eapply run_calls_ok.
Qed.

Lemma new_builder_ok : builder_ok new_builder.
Proof. by split; simpl; [intros k l Hl; rewrite lookup_empty in Hl..|apply Forall_nil|apply Forall_nil]. Qed.

(** One rule file with one rule, an example of it and a host executable. *)
Definition sample_starlark : Starlark :=
  {| eval_module _ _ :=
       ([CallPrefixRule [SStr "git"; SList [SStr "status"; SStr "log"]] None
           (Some [SList [SStr "/usr/bin/git"; SStr "log"]]) (Some [SStr "x"]) None None;
         CallHostExecutable "git" [SStr "/usr/bin/git"]], false);
     shlex_split s := Some [s] |}.

Lemma parse_keeps_policy_ok_witness :
  let star := sample_starlark in
  let env := sample_env in
  snd (parse "f" "text" new_builder) = Ok tt ∧
  builder_ok (fst (parse "f" "text" new_builder)).
Proof.
  intros star env. split; [vm_refl|].
  by apply (parse_keeps_policy_ok [("f", "text")] new_builder); [apply new_builder_ok|].
Defined.

(** ** Examples hold in the policy that is built *)

Section examples.
  Context `{Starlark, PathEnv}.

Lemma match_examples_ok p rules exs :
  validate_match_examples p rules exs = Ok tt →
  ∀ ex, ex ∈ exs → matches_for_command_with_options p ex None true ≠ [].
Proof.
  unfold validate_match_examples. set (f := λ example, _). intros Hv ex Hex Hnil.
  destruct (List.filter f exs) as [|x l] eqn:E; [|done].
  assert (ex ∈ List.filter f exs) as Hin.
  { rewrite list_elem_of_In, filter_In, <-list_elem_of_In. split; [done|]. unfold f. by rewrite Hnil. }
  rewrite E in Hin. by apply not_elem_of_nil in Hin.
Qed.

Lemma not_match_examples_ok p exs :
  validate_not_match_examples p exs = Ok tt →
  ∀ ex, ex ∈ exs → matches_for_command_with_options p ex None true = [].
Proof.
  induction exs as [|e exs IH]; simpl; [set_solver|].
  destruct (matches_for_command_with_options p e None true) eqn:E; [|done].
  intros Hv ex [->|Hex]%elem_of_cons; [done|by apply IH].
Qed.

Lemma validated b start v :
  validate_pending_examples_from b start = Ok tt → v ∈ drop start (pending_example_validations b) →
  (∀ ex, ex ∈ v_matches v → matches_for_command_with_options (validation_policy b v) ex None true ≠ []) ∧
  (∀ ex, ex ∈ v_not_matches v → matches_for_command_with_options (validation_policy b v) ex None true = []).
Proof.
  unfold validate_pending_examples_from. generalize (drop start (pending_example_validations b)) as l.
  induction l as [|w l IH]; simpl; [set_solver|]. intros ([] & Hw & Hl)%res_bind_ok Hin.
  apply elem_of_cons in Hin as [->|Hin]; [|by apply IH].
  unfold validate_one in Hw. apply res_bind_ok in Hw as (u & Hn%map_err_ok & Hm%map_err_ok).
  destruct u. eauto using match_examples_ok, not_match_examples_ok.
Qed.

(** More rules, same host executables: what matched still matches something. *)
Definition rules_included (p q : Policy) : Prop :=
  ∀ k r, r ∈ default [] (rules_by_program p !! k) → r ∈ default [] (rules_by_program q !! k).

Lemma omap_nonempty {A B} (f : A → option B) l k :
  (∀ x, x ∈ l → x ∈ k) → omap f l ≠ [] → omap f k ≠ [].
Proof.
  intros Hsub Hl Hk. destruct (omap f l) as [|y ys] eqn:E; [done|].
  assert (y ∈ omap f l) as Hy by (rewrite E; left).
  apply list_elem_of_omap in Hy as (x & Hx & Hfx).
  assert (y ∈ omap f k) as Hy' by (apply list_elem_of_omap; eauto).
  rewrite Hk in Hy'. by apply not_elem_of_nil in Hy'.
Qed.

Lemma exact_included p q cmd :
  rules_included p q → exact_matches p cmd ≠ [] → exact_matches q cmd ≠ [].
Proof.
  intros Hi. destruct cmd as [|c args]; [done|]. unfold exact_matches. simpl.
  apply omap_nonempty. intros r. apply Hi.
Qed.

Lemma host_included p q cmd :
  rules_included p q → host_executables_by_name p = host_executables_by_name q →
  match_host_executable_rules p cmd ≠ [] → match_host_executable_rules q cmd ≠ [].
Proof.
  intros Hi Hh. destruct cmd as [|c args]; [done|]. simpl.
  destruct (from_absolute_path c) as [path|]; [|done].
  destruct (executable_path_lookup_key path) as [base|]; [|done]. specialize (Hi base). rewrite Hh.
  destruct (rules_by_program p !! base) as [rs|]; [|done]. simpl in Hi.
  destruct (negb _); [done|]. intros Hne.
  assert (omap (λ rule, rule_matches rule (base :: args)) rs ≠ []) as Ho
    by (intros He; by rewrite He in Hne).
  destruct (rules_by_program q !! base) as [qs|]; simpl in Hi.
  - apply (omap_nonempty _ _ qs) in Ho; [|done]. by destruct (omap _ qs).
  - by apply (omap_nonempty _ _ []) in Ho.
Qed.

Lemma matches_none p cmd :
  matches_for_command_with_options p cmd None true = [] ↔
  exact_matches p cmd = [] ∧ match_host_executable_rules p cmd = [].
Proof.
  unfold matches_for_command_with_options, exact_matches.
  destruct (match_exact_rules p cmd) as [[|m ms]|]; simpl; [|naive_solver|];
    destruct (match_host_executable_rules p cmd); simpl; naive_solver.
Qed.

Lemma matches_included p q cmd :
  rules_included p q → host_executables_by_name p = host_executables_by_name q →
  matches_for_command_with_options p cmd None true ≠ [] →
  matches_for_command_with_options q cmd None true ≠ [].
Proof.
  intros Hi Hh Hp Hq. apply Hp. apply matches_none in Hq as [Hq1 Hq2]. apply matches_none.
  split.
  - destruct (exact_matches p cmd) eqn:E; [done|].
    exfalso. apply (exact_included p q cmd Hi); [by rewrite E|done].
  - destruct (match_host_executable_rules p cmd) eqn:E; [done|].
    exfalso. apply (host_included p q cmd Hi Hh); [by rewrite E|done].
Qed.
End examples.

(** When a policy file is accepted, its examples tell the truth about the policy
    that is built: every positive example of every rule of the file matches some rule of
    the built policy, and no rule of the call that declares a negative example matches it,
    host executables declared anywhere in the file included. *)
Theorem accepted_examples_hold `{Starlark, PathEnv} ident contents b b' :
  builder_ok b → parse ident contents b = (b', Ok tt) →
  ∀ v, v ∈ drop (length (pending_example_validations b)) (pending_example_validations b') →
  (∀ ex, ex ∈ v_matches v → matches_for_command_with_options (build b') ex None true ≠ []) ∧
  (∀ ex, ex ∈ v_not_matches v →
     matches_for_command_with_options (validation_policy b' v) ex None true = []).
Proof.
  intros Hb (o & Hr & Ho)%parse_runs v Hv. destruct (Ho eq_refl) as [-> Hval].
  pose proof (run_calls_ok _ _ _ _ Hr Hb) as Hok.
  destruct (validated _ _ _ Hval Hv) as [Hm Hn]. split; [|done].
  intros ex Hex. eapply matches_included; [| |by apply Hm]; [|done].
  intros k r. simpl. rewrite fold_insert_elem, lookup_empty. simpl.
  intros [Hnil|[Hr' <-]]; [by apply not_elem_of_nil in Hnil|].
  pose proof (bo_pending _ Hok) as Hp. rewrite Forall_forall in Hp.
  apply (Hp v); [|done]. eapply sublist_subseteq; [apply sublist_drop|done].
Qed.

Lemma accepted_examples_hold_witness :
  let star := sample_starlark in
  let env := sample_env in
  let b' := fst (parse "f" "text" new_builder) in
  matches_for_command_with_options (build b') ["/usr/bin/git"; "log"] None true ≠ [].
Proof.
  intros star env b'.
  assert (parse "f" "text" new_builder = (b', Ok tt)) as Hp.
  { rewrite (surjective_pairing (parse _ _ _)). unfold b'. f_equal. }
  destruct (accepted_examples_hold "f" "text" new_builder b' new_builder_ok Hp
    {| v_rules := [{| pattern := {| first := "git"; rest := [Alts ["status"; "log"]] |};
                      rule_decision := Allow; rule_justification := None |}];
       v_matches := [["/usr/bin/git"; "log"]]; v_not_matches := [["x"]]; v_location := None |})
    as [Hm _].
  - vm_compute. left.
  - apply Hm. left.
Defined.
