(* ===== verification/StreamText.v ===== *)
(** * Streamed text: the parser interface, and parsing raw bytes

    codex-rs/utils/stream-parser: stream_text.rs and utf8_stream.rs.  The trait
    [StreamTextParser] is a class, and [StreamParserLaws] is what a client may rely on: the
    results of all pushes and of the final flush do not depend on how the text was cut.
    [Utf8StreamParser] is proved against that interface. *)

From S2P Require Import Prelude Str Utf8.

(** ** Chunks *)

Record StreamTextChunk (T : Type) := {
  visible_text : string;
  extracted : list T;
}.
Arguments Build_StreamTextChunk {T}.
Arguments visible_text {T}.
Arguments extracted {T}.

Definition chunk_default {T} : StreamTextChunk T := {| visible_text := EmptyString; extracted := [] |}.

Definition chunk_is_empty {T} (c : StreamTextChunk T) : bool :=
  str_is_empty (visible_text c) && match extracted c with [] => true | _ => false end.

(** [out.visible_text.push_str(&tail.visible_text); out.extracted.append(&mut tail.extracted)] *)
Definition chunk_append {T} (out tail : StreamTextChunk T) : StreamTextChunk T :=
  {| visible_text := visible_text out +:+ visible_text tail;
     extracted := extracted out ++ extracted tail |}.

Lemma chunk_append_nil_l {T} (c : StreamTextChunk T) : chunk_append chunk_default c = c.
Proof. by destruct c. Qed.

Lemma chunk_append_nil_r {T} (c : StreamTextChunk T) : chunk_append c chunk_default = c.
Proof. destruct c. unfold chunk_append; simpl. by rewrite str_app_nil_r, app_nil_r. Qed.

Lemma chunk_append_assoc {T} (a b c : StreamTextChunk T) :
  chunk_append a (chunk_append b c) = chunk_append (chunk_append a b) c.
Proof. unfold chunk_append; simpl. by rewrite str_app_assoc, app_assoc. Qed.

(** ** The trait *)

Class StreamTextParser (P : Type) := {
  Extracted : Type;
  push_str : string → P → StreamTextChunk Extracted * P;
  finish : P → StreamTextChunk Extracted * P;
}.

(** A client's loop: every chunk is pushed, and the results are put together. *)
Fixpoint feed {P} `{StreamTextParser P} (p : P) (chunks : list string) :
  StreamTextChunk Extracted * P :=
  match chunks with
  | [] => (chunk_default, p)
  | c :: cs =>
      let '(out, p1) := push_str c p in
      let '(rest, p2) := feed p1 cs in
      (chunk_append out rest, p2)
  end.

Definition collect {P} `{StreamTextParser P} (p : P) (chunks : list string) : StreamTextChunk Extracted :=
  let '(out, p1) := feed p chunks in
  chunk_append out (fst (finish p1)).

(** What a parser promises: from its initial state, the whole output is, up to an
    equivalence that only merges neighbouring pieces, a function of the whole text. *)
Class StreamParserLaws (P : Type) `{StreamTextParser P} (new : P) := {
  chunk_equiv : relation (StreamTextChunk Extracted);
  chunk_equiv_equivalence :: Equivalence chunk_equiv;
  batch : string → StreamTextChunk Extracted;
  collect_batch chunks :
    Forall (λ c, utf8_valid c = true) chunks →
    chunk_equiv (collect new chunks) (batch (concat_str chunks));
}.

Lemma feed_app {P} `{StreamTextParser P} (p : P) cs ds :
  feed p (cs ++ ds) =
  let '(out, p1) := feed p cs in let '(rest, p2) := feed p1 ds in (chunk_append out rest, p2).
Proof.
  revert p; induction cs as [|c cs IH]; intros p; simpl.
  - destruct (feed p ds). by rewrite chunk_append_nil_l.
  - destruct (push_str c p) as [o1 p1]. rewrite IH. destruct (feed p1 cs) as [o2 p2].
    destruct (feed p2 ds) as [o3 p3]. by rewrite chunk_append_assoc.
Qed.

Lemma feed_one {P} `{StreamTextParser P} (p : P) c : feed p [c] = push_str c p.
Proof. simpl. destruct (push_str c p). by rewrite chunk_append_nil_r. Qed.

(** ** [Utf8StreamParser] *)

Inductive Utf8StreamParserError :=
| InvalidUtf8 (valid_up_to error_len : nat)
| IncompleteUtf8AtEof.

Definition utf8_error_to_string (e : Utf8StreamParserError) : string :=
  match e with
  | InvalidUtf8 v l =>
      "invalid UTF-8 in streamed bytes at offset " +:+ fmt_nat v +:+ " (error length " +:+ fmt_nat l +:+ ")"
  | IncompleteUtf8AtEof => "incomplete UTF-8 code point at end of stream"
  end.

Record Utf8StreamParser (P : Type) := { inner : P; pending_utf8 : string }.
Arguments Build_Utf8StreamParser {P}.
Arguments inner {P}.
Arguments pending_utf8 {P}.

Section utf8_stream.
Context {P : Type} `{StreamTextParser P}.

Definition utf8_new (p : P) : Utf8StreamParser P := {| inner := p; pending_utf8 := EmptyString |}.

Definition push_bytes (chunk : string) (st : Utf8StreamParser P) :
  Result (StreamTextChunk Extracted) Utf8StreamParserError * Utf8StreamParser P :=
  let old_len := String.length (pending_utf8 st) in
  let buf := pending_utf8 st +:+ chunk in
  match from_utf8 buf with
  | Ok text =>
      let '(out, p) := push_str text (inner st) in
      (Ok out, {| inner := p; pending_utf8 := EmptyString |})
  | Err err =>
      match error_len err with
      | Some l =>
          (Err (InvalidUtf8 (valid_up_to err) l),
           {| inner := inner st; pending_utf8 := str_take old_len buf |})
      | None =>
          let v := valid_up_to err in
          if v =? 0 then (Ok chunk_default, {| inner := inner st; pending_utf8 := buf |})
          else
            match from_utf8 (str_take v buf) with
            | Ok text =>
                let '(out, p) := push_str text (inner st) in
                (Ok out, {| inner := p; pending_utf8 := str_drop v buf |})
            | Err prefix_err =>
                (Err (InvalidUtf8 (valid_up_to prefix_err) (default 0 (error_len prefix_err))),
                 {| inner := inner st; pending_utf8 := str_take old_len buf |})
            end
      end
  end.

(** The error that [finish] and [into_inner] report for undecoded bytes. *)
Definition undecoded_error (err : Utf8Error) : Utf8StreamParserError :=
  match error_len err with
  | Some l => InvalidUtf8 (valid_up_to err) l
  | None => IncompleteUtf8AtEof
  end.

Definition utf8_finish (st : Utf8StreamParser P) :
  Result (StreamTextChunk Extracted) Utf8StreamParserError * Utf8StreamParser P :=
  let flush (out : StreamTextChunk Extracted) (p : P) :=
    let '(tail, p') := finish p in
    (Ok (chunk_append out tail), {| inner := p'; pending_utf8 := EmptyString |}) in
  if str_is_empty (pending_utf8 st) then flush chunk_default (inner st)
  else
    match from_utf8 (pending_utf8 st) with
    | Err err => (Err (undecoded_error err), st)
    | Ok text => let '(out, p) := push_str text (inner st) in flush out p
    end.

Definition into_inner (st : Utf8StreamParser P) : Result P Utf8StreamParserError :=
  if str_is_empty (pending_utf8 st) then Ok (inner st)
  else
    match from_utf8 (pending_utf8 st) with
    | Ok _ => Ok (inner st)
    | Err err => Err (undecoded_error err)
    end.

Definition into_inner_lossy (st : Utf8StreamParser P) : P := inner st.

(** A client's loop over byte chunks, which stops at the first error. *)
Fixpoint feed_bytes (st : Utf8StreamParser P) (chunks : list string) :
  Result (StreamTextChunk Extracted) Utf8StreamParserError * Utf8StreamParser P :=
  match chunks with
  | [] => (Ok chunk_default, st)
  | c :: cs =>
      match push_bytes c st with
      | (Err e, st1) => (Err e, st1)
      | (Ok out, st1) =>
          match feed_bytes st1 cs with
          | (Err e, st2) => (Err e, st2)
          | (Ok rest, st2) => (Ok (chunk_append out rest), st2)
          end
      end
  end.

Definition collect_bytes (st : Utf8StreamParser P) (chunks : list string) :
  Result (StreamTextChunk Extracted) Utf8StreamParserError :=
  match feed_bytes st chunks with
  | (Err e, _) => Err e
  | (Ok out, st1) =>
      match utf8_finish st1 with
      | (Err e, _) => Err e
      | (Ok tail, _) => Ok (chunk_append out tail)
      end
  end.

(** ** Buffered bytes *)

(** Between pushes the buffer is empty or holds the beginning of one character. *)
Definition partial_char (s : string) : Prop :=
  s = EmptyString ∨ (s ≠ EmptyString ∧ utf8_width s = None ∧ bad_len s = None).

Lemma push_bytes_cases chunk p pend :
  (∃ out p' pend' ts,
     push_bytes chunk {| inner := p; pending_utf8 := pend |} =
       (Ok out, {| inner := p'; pending_utf8 := pend' |}) ∧
     pend +:+ chunk = concat_str ts +:+ pend' ∧ Forall (λ t, utf8_valid t = true) ts ∧
     partial_char pend' ∧ feed p ts = (out, p')) ∨
  (∃ v l, push_bytes chunk {| inner := p; pending_utf8 := pend |} =
            (Err (InvalidUtf8 v l), {| inner := p; pending_utf8 := pend |}) ∧
          (v ≤ String.length (pend +:+ chunk) ∧ utf8_valid (str_take v (pend +:+ chunk)) = true ∧
           utf8_width (str_drop v (pend +:+ chunk)) = None) ∧
          ∀ t, utf8_valid ((pend +:+ chunk) +:+ t) = false).
Proof.
  unfold push_bytes; simpl. rewrite str_take_app_len.
  destruct (from_utf8_cases (pend +:+ chunk)) as [[Hok Hv]|(g & r & Hs & Hg & Hr & Hw & Hf)].
  - rewrite Hok. left. destruct (push_str (pend +:+ chunk) p) as [out p'] eqn:E.
    exists out, p', EmptyString, [pend +:+ chunk]. rewrite feed_one. simpl.
    rewrite !str_app_nil_r. repeat split; [by apply Forall_singleton|by left|done].
  - rewrite Hf; simpl. destruct (bad_len r) as [l|] eqn:El.
    + right. exists (String.length g), l. split; [done|].
      rewrite Hs at 1 2 3. rewrite str_take_app_len, str_drop_app_len, str_len_app.
      split; [repeat split; auto with lia|].
      apply (proj1 (from_utf8_final _ _ Hf)). by exists l.
    + left. assert (partial_char r) as Hp by (right; auto).
      destruct (String.length g =? 0) eqn:E0.
      * apply Nat.eqb_eq, str_len_0 in E0 as ->. rewrite str_app_nil_l in Hs.
        exists chunk_default, p, r, []. by rewrite Hs.
      * rewrite Hs, str_take_app_len, str_drop_app_len, (from_utf8_ok g Hg).
        destruct (push_str g p) as [out p'] eqn:E. exists out, p', r, [g].
        rewrite feed_one. simpl. rewrite str_app_nil_r. repeat split; [by apply Forall_singleton|done|done].
Qed.

Lemma feed_bytes_spec chunks p pend :
  partial_char pend →
  match feed_bytes {| inner := p; pending_utf8 := pend |} chunks with
  | (Ok out, st) => ∃ ts,
      Forall (λ t, utf8_valid t = true) ts ∧ pend +:+ concat_str chunks = concat_str ts +:+ pending_utf8 st ∧
      partial_char (pending_utf8 st) ∧ feed p ts = (out, inner st)
  | (Err e, _) =>
      e ≠ IncompleteUtf8AtEof ∧ ∀ t, utf8_valid ((pend +:+ concat_str chunks) +:+ t) = false
  end.
Proof.
  revert p pend; induction chunks as [|c cs IH]; intros p pend Hp; cbn [feed_bytes concat_str foldr].
  { exists []. simpl. by rewrite str_app_nil_r. }
  destruct (push_bytes_cases c p pend) as [(out & p' & pend' & ts & -> & Hs & Hts & Hp' & Hfeed)|(v & l & -> & _ & Hbad)].
  - specialize (IH p' pend' Hp'). fold (concat_str cs). rewrite str_app_assoc, Hs.
    destruct (feed_bytes _ cs) as [[out'|e] st].
    + destruct IH as (ts' & Hts' & Heq & Hp2 & Hfeed'). exists (ts ++ ts').
      rewrite feed_app, Hfeed, Hfeed', concat_str_app, <-!str_app_assoc, Heq.
      split; [by apply Forall_app|auto].
    + destruct IH as [He IH]. split; [done|]. intros t.
      rewrite <-!str_app_assoc, (utf8_valid_app_l (concat_str ts)), str_app_assoc; [done|].
      by apply utf8_valid_all.
  - split; [done|]. intros t. fold (concat_str cs).
    rewrite str_app_assoc, <-str_app_assoc. apply Hbad.
Qed.

End utf8_stream.

(** ** Byte chunks against the interface *)

(** For any parser that keeps its promise to be indifferent to how text is cut, the
    byte parser is indifferent to how bytes are cut, code points included: a stream of byte
    chunks that is valid UTF-8 as a whole gives what the inner parser makes of the whole
    text; a stream no continuation of which is valid is refused as invalid; and a stream
    that could still become valid, but ends inside a character, is refused as incomplete. *)
Theorem utf8_stream_spec {P} (new : P) `{StreamParserLaws P new} chunks :
  match collect_bytes (utf8_new new) chunks with
  | Ok out => utf8_valid (concat_str chunks) = true ∧ chunk_equiv out (batch (concat_str chunks))
  | Err (InvalidUtf8 _ _) => ∀ t, utf8_valid (concat_str chunks +:+ t) = false
  | Err IncompleteUtf8AtEof =>
      utf8_valid (concat_str chunks) = false ∧ ∃ t, utf8_valid (concat_str chunks +:+ t) = true
  end.
Proof.
  unfold collect_bytes, utf8_new. pose proof (feed_bytes_spec chunks new EmptyString (or_introl eq_refl)) as Hf.
  destruct (feed_bytes _ chunks) as [[out|e] st]; [|by destruct e; destruct Hf].
  destruct Hf as (ts & Hts & Heq & Hp & Hfeed). rewrite str_app_nil_l in Heq. rewrite Heq.
  assert (utf8_valid (concat_str ts) = true) as Hv by by apply utf8_valid_all.
  rewrite utf8_valid_app_l by done. unfold utf8_finish.
  destruct Hp as [->|(Hne & Hw & Hb)]; simpl.
  - destruct (finish (inner st)) as [tail p'] eqn:Ef. rewrite chunk_append_nil_l, str_app_nil_r.
    split; [done|]. pose proof (collect_batch ts Hts) as Hc. unfold collect in Hc.
    by rewrite Hfeed, Ef in Hc.
  - apply str_is_empty_false in Hne as Hne'. rewrite Hne'.
    destruct (from_utf8_cases (pending_utf8 st)) as [[_ Hv']|(g & r & Hs & Hg & Hr & Hwr & Hfr)].
    { by rewrite (utf8_width_invalid _ Hw Hne) in Hv'. }
    rewrite Hfr. assert (error_len {| valid_up_to := String.length g; error_len := bad_len r |} = None) as Hnone.
    { destruct (error_len _) as [l|] eqn:E; [|done]. destruct (bad_len_completes _ Hne Hb Hw) as [t Ht].
      pose proof (proj1 (from_utf8_final _ _ Hfr) ltac:(eauto) t) as Hbad.
      by rewrite (utf8_valid_char _ Ht) in Hbad. }
    unfold undecoded_error. rewrite Hnone. split; [by apply utf8_width_invalid|].
    destruct (bad_len_completes _ Hne Hb Hw) as [t Ht]. exists t.
    by rewrite <-str_app_assoc, utf8_valid_app_l, (utf8_valid_char _ Ht).
Qed.

(** A push of bytes either is decoded, or is rolled back: on an error the parser is as
    it was before the push, the inner parser has seen nothing of the chunk, the reported
    offset ends a valid prefix of the buffered bytes after which no character begins, and
    no later bytes could have repaired the stream. *)
Theorem push_bytes_rollback {P} `{StreamTextParser P} chunk (st : Utf8StreamParser P) e st' :
  push_bytes chunk st = (Err e, st') →
  st' = st ∧
  ∃ v l, e = InvalidUtf8 v l ∧ v ≤ String.length (pending_utf8 st +:+ chunk) ∧
         utf8_valid (str_take v (pending_utf8 st +:+ chunk)) = true ∧
         utf8_width (str_drop v (pending_utf8 st +:+ chunk)) = None ∧
         ∀ t, utf8_valid ((pending_utf8 st +:+ chunk) +:+ t) = false.
Proof.
  intros Hpush. destruct st as [p pend].
  destruct (push_bytes_cases chunk p pend) as [(? & ? & ? & ? & Hok & _)|(v & l & Herr & (? & ? & ?) & Hbad)];
    [congruence|].
  rewrite Herr in Hpush. simplify_eq. split; [done|]. by exists v, l.
Qed.
