(* ===== verification/InlineTag.v ===== *)
(** * Hidden inline tags in streamed text

    codex-rs/utils/stream-parser: inline_hidden_tag.rs and citation.rs.  The loop of
    [push_str] takes fuel and returns [None] when it runs out; each turn that continues
    drains a delimiter, so the length of the buffer is enough
    ([inline_push_terminates]).

    [scan] is the reference: it reads a whole text byte by byte, enters a tag where an
    opening delimiter begins and leaves it at the first closing one. *)

From S2P Require Import Prelude Str Utf8 StreamText.

Section inline_tags.
Context {T : Type}.

(** ** Data *)

Record ExtractedInlineTag := { e_tag : T; e_content : string }.

Record InlineTagSpec := { tag : T; open : string; close : string }.

Record ActiveTag := { a_tag : T; a_close : string; a_content : string }.

Record InlineHiddenTagParser := {
  specs : list InlineTagSpec;
  pending : string;
  active : option ActiveTag;
}.

(** [InlineHiddenTagParser::new]: [None] is a failed assertion. *)
Definition inline_new (specs : list InlineTagSpec) : option InlineHiddenTagParser :=
  if match specs with [] => true | _ => false end then None
  else if existsb (λ spec, str_is_empty (open spec) || str_is_empty (close spec)) specs then None
  else Some {| specs := specs; pending := EmptyString; active := None |}.

(** ** Operations *)

Definition longest_suffix_prefix_len (s needle : string) : nat :=
  let max := min (String.length s) (String.length needle - 1) in
  default 0 (List.find (λ k, is_char_boundary needle k && ends_with (str_take k needle) s)
                       (reverse (seq 1 max))).

(** The comparison of [find_next_open]: earlier, then longer, then first in the list. *)
Definition open_before (a b : nat * nat * nat) : bool :=
  let '(pos_a, len_a, idx_a) := a in
  let '(pos_b, len_b, idx_b) := b in
  match Nat.compare pos_a pos_b with
  | Lt => true
  | Gt => false
  | Eq => match Nat.compare len_b len_a with
          | Lt => true
          | Gt => false
          | Eq => idx_a <? idx_b
          end
  end.

(** [Iterator::min_by]: the first element that no other is less than *)
Definition min_by {A} (lt : A → A → bool) (l : list A) : option A :=
  match l with
  | [] => None
  | x :: l' => Some (fold_left (λ best y, if lt y best then y else best) l' x)
  end.

Definition open_candidates (specs : list InlineTagSpec) (pending : string) : list (nat * nat * nat) :=
  omap (λ '(idx, spec),
          (λ pos, (pos, String.length (open spec), idx)) <$> find (open spec) pending)
       (zip (seq 0 (length specs)) specs).

Definition find_next_open (p : InlineHiddenTagParser) : option (nat * nat) :=
  (λ '(pos, _, idx), (pos, idx)) <$> min_by open_before (open_candidates (specs p) (pending p)).

Definition max_open_prefix_suffix_len (p : InlineHiddenTagParser) : nat :=
  max_list ((λ spec, longest_suffix_prefix_len (pending p) (open spec)) <$> specs p).

Definition push_visible_prefix (out : StreamTextChunk ExtractedInlineTag) (text : string) :
  StreamTextChunk ExtractedInlineTag :=
  if str_is_empty text then out
  else {| visible_text := visible_text out +:+ text; extracted := extracted out |}.

Definition set_pending (s : string) (p : InlineHiddenTagParser) : InlineHiddenTagParser :=
  {| specs := specs p; pending := s; active := active p |}.

Definition set_active (a : option ActiveTag) (p : InlineHiddenTagParser) : InlineHiddenTagParser :=
  {| specs := specs p; pending := pending p; active := a |}.

Definition drain_visible_to_suffix_match
    (p : InlineHiddenTagParser) (out : StreamTextChunk ExtractedInlineTag) (keep_suffix_len : nat) :
    StreamTextChunk ExtractedInlineTag * InlineHiddenTagParser :=
  let take := String.length (pending p) - keep_suffix_len in
  if take =? 0 then (out, p)
  else (push_visible_prefix out (str_take take (pending p)), set_pending (str_drop take (pending p)) p).

Definition push_extracted (e : ExtractedInlineTag) (out : StreamTextChunk ExtractedInlineTag) :
  StreamTextChunk ExtractedInlineTag :=
  {| visible_text := visible_text out; extracted := extracted out ++ [e] |}.

Definition push_content (s : string) (a : ActiveTag) : ActiveTag :=
  {| a_tag := a_tag a; a_close := a_close a; a_content := a_content a +:+ s |}.

Definition extract_tag (a : ActiveTag) : ExtractedInlineTag :=
  {| e_tag := a_tag a; e_content := a_content a |}.

(** The loop of [push_str]; the index [specs[spec_idx]] is in range
    ([find_next_open_some]), and a missing element would be a panic. *)
Fixpoint push_loop (fuel : nat) (p : InlineHiddenTagParser) (out : StreamTextChunk ExtractedInlineTag) :
  option (StreamTextChunk ExtractedInlineTag * InlineHiddenTagParser) :=
  match fuel with
  | 0 => None
  | S fuel' =>
      match active p with
      | Some a =>
          match find (a_close a) (pending p) with
          | Some close_idx =>
              let a' := push_content (str_take close_idx (pending p)) a in
              push_loop fuel'
                (set_active None (set_pending (str_drop (close_idx + String.length (a_close a)) (pending p)) p))
                (push_extracted (extract_tag a') out)
          | None =>
              let keep := longest_suffix_prefix_len (pending p) (a_close a) in
              let take := String.length (pending p) - keep in
              if 0 <? take then
                Some (out, set_active (Some (push_content (str_take take (pending p)) a))
                             (set_pending (str_drop take (pending p)) p))
              else Some (out, p)
          end
      | None =>
          match find_next_open p with
          | Some (open_idx, spec_idx) =>
              match specs p !! spec_idx with
              | Some spec =>
                  push_loop fuel'
                    (set_active (Some {| a_tag := tag spec; a_close := close spec; a_content := EmptyString |})
                       (set_pending (str_drop (open_idx + String.length (open spec)) (pending p)) p))
                    (push_visible_prefix out (str_take open_idx (pending p)))
              | None => None
              end
          | None => Some (drain_visible_to_suffix_match p out (max_open_prefix_suffix_len p))
          end
      end
  end.

Definition inline_push (chunk : string) (p : InlineHiddenTagParser) :
  option (StreamTextChunk ExtractedInlineTag * InlineHiddenTagParser) :=
  let p1 := set_pending (pending p +:+ chunk) p in
  push_loop (S (String.length (pending p1))) p1 chunk_default.

Definition inline_push_str (chunk : string) (p : InlineHiddenTagParser) :
  StreamTextChunk ExtractedInlineTag * InlineHiddenTagParser :=
  default (chunk_default, p) (inline_push chunk p).

Definition inline_finish (p : InlineHiddenTagParser) :
  StreamTextChunk ExtractedInlineTag * InlineHiddenTagParser :=
  match active p with
  | Some a =>
      let a' := if str_is_empty (pending p) then a else push_content (pending p) a in
      (push_extracted (extract_tag a') chunk_default, set_active None (set_pending EmptyString p))
  | None =>
      if str_is_empty (pending p) then (chunk_default, p)
      else ({| visible_text := pending p; extracted := [] |}, set_pending EmptyString p)
  end.

#[global] Instance inline_parser : StreamTextParser InlineHiddenTagParser := {|
  Extracted := ExtractedInlineTag;
  push_str := inline_push_str;
  finish := inline_finish;
|}.

(** ** The reference *)

(** The specification whose opening delimiter begins here. *)
Definition open_at (specs : list InlineTagSpec) (s : string) : option InlineTagSpec :=
  List.find (λ spec, starts_with (open spec) s) specs.

Definition cons_visible (b : ascii) (out : StreamTextChunk ExtractedInlineTag) :=
  {| visible_text := String b (visible_text out); extracted := extracted out |}.

Definition cons_extracted (e : ExtractedInlineTag) (out : StreamTextChunk ExtractedInlineTag) :=
  {| visible_text := visible_text out; extracted := e :: extracted out |}.

(** [skip] counts the bytes left of the delimiter just entered. *)
Fixpoint scan (specs : list InlineTagSpec) (skip : nat) (act : option ActiveTag) (s : string) :
  StreamTextChunk ExtractedInlineTag :=
  match s with
  | EmptyString =>
      match act with
      | Some a => {| visible_text := EmptyString; extracted := [extract_tag a] |}
      | None => chunk_default
      end
  | String b s' =>
      match skip, act with
      | S k, _ => scan specs k act s'
      | 0, Some a =>
          if starts_with (a_close a) s
          then cons_extracted (extract_tag a) (scan specs (String.length (a_close a) - 1) None s')
          else scan specs 0 (Some (push_content (String b EmptyString) a)) s'
      | 0, None =>
          match open_at specs s with
          | Some spec =>
              scan specs (String.length (open spec) - 1)
                (Some {| a_tag := tag spec; a_close := close spec; a_content := EmptyString |}) s'
          | None => cons_visible b (scan specs 0 None s')
          end
      end
  end.

End inline_tags.

Arguments InlineTagSpec : clear implicits.
Arguments ActiveTag : clear implicits.
Arguments ExtractedInlineTag : clear implicits.
Arguments InlineHiddenTagParser : clear implicits.

(** ** The reference, step by step *)

Section scan_facts.
Context {T : Type}.
Implicit Types (sp : list (InlineTagSpec T)) (a : ActiveTag T).

Lemma scan_skip sp x act rest : scan sp (String.length x) act (x +:+ rest) = scan sp 0 act rest.
Proof. induction x as [|b x IH]; [done|]. rewrite str_app_cons. simpl. by destruct act. Qed.

Lemma scan_open sp spec rest :
  open spec ≠ EmptyString → open_at sp (open spec +:+ rest) = Some spec →
  scan sp 0 None (open spec +:+ rest) =
  scan sp 0 (Some {| a_tag := tag spec; a_close := close spec; a_content := EmptyString |}) rest.
Proof.
  intros Hne Ho. destruct (open spec) as [|b o] eqn:E; [done|]. rewrite str_app_cons in Ho |- *.
  cbn [scan]. rewrite Ho, E. simpl. rewrite Nat.sub_0_r. apply scan_skip.
Qed.

Lemma scan_close sp a rest :
  a_close a ≠ EmptyString →
  scan sp 0 (Some a) (a_close a +:+ rest) = cons_extracted (extract_tag a) (scan sp 0 None rest).
Proof.
  intros Hne. pose proof (starts_with_app (a_close a) rest) as Hs.
  destruct (a_close a) as [|b c] eqn:E; [done|]. rewrite str_app_cons in Hs |- *.
  cbn [scan]. rewrite E, Hs. simpl. by rewrite Nat.sub_0_r, scan_skip.
Qed.

Lemma scan_visible sp n s :
  n ≤ String.length s → (∀ i, i < n → open_at sp (str_drop i s) = None) →
  scan sp 0 None s =
  chunk_append {| visible_text := str_take n s; extracted := [] |} (scan sp 0 None (str_drop n s)).
Proof.
  revert s; induction n as [|n IH]; intros s Hl Hi.
  { simpl. by destruct (scan sp 0 None s). }
  destruct s as [|b s]; [simpl in Hl; lia|]. cbn [scan str_take str_drop].
  rewrite (Hi 0 ltac:(lia) : open_at sp (String b s) = None). rewrite IH.
  - done.
  - simpl in Hl. lia.
  - intros i Hlt. apply (Hi (S i)). lia.
Qed.

Lemma push_content_app s t a : push_content t (push_content s a) = push_content (s +:+ t) a.
Proof. unfold push_content; simpl. by rewrite str_app_assoc. Qed.

Lemma push_content_nil a : push_content EmptyString a = a.
Proof. destruct a. unfold push_content; simpl. by rewrite str_app_nil_r. Qed.

Lemma scan_content sp n s a :
  n ≤ String.length s → (∀ i, i < n → starts_with (a_close a) (str_drop i s) = false) →
  scan sp 0 (Some a) s = scan sp 0 (Some (push_content (str_take n s) a)) (str_drop n s).
Proof.
  revert s a; induction n as [|n IH]; intros s a Hl Hi.
  { simpl. by rewrite push_content_nil. }
  destruct s as [|b s]; [simpl in Hl; lia|]. cbn [scan str_take str_drop].
  rewrite (Hi 0 ltac:(lia) : starts_with (a_close a) (String b s) = false). rewrite IH.
  - by rewrite push_content_app.
  - simpl in Hl. lia.
  - intros i Hlt. apply (Hi (S i)). lia.
Qed.

(** ** The suffix that is kept back *)

Lemma find_reverse_seq (f : nat → bool) m j :
  1 ≤ j ≤ m → f j = true → j ≤ default 0 (List.find f (reverse (seq 1 m))).
Proof.
  intros Hj Hf. induction m as [|m IH]; [lia|].
  rewrite seq_S, reverse_app, reverse_singleton. cbn [app List.find].
  destruct (f (1 + m)) eqn:E; [simpl; lia|]. apply IH.
  destruct (decide (j = S m)) as [->|]; [simpl in E; congruence|lia].
Qed.

Lemma longest_suffix_prefix_cases s needle :
  let k := longest_suffix_prefix_len s needle in
  k = 0 ∨ (1 ≤ k ≤ String.length s ∧ k < String.length needle ∧
           str_drop (String.length s - k) s = str_take k needle).
Proof.
  cbv zeta. unfold longest_suffix_prefix_len.
  destruct (List.find _ _) as [k|] eqn:E; [|by left]. right. simpl.
  apply List.find_some in E as [Hin [_ He]%andb_true_iff].
  apply list_elem_of_In in Hin. rewrite elem_of_reverse, elem_of_seq in Hin.
  apply ends_with_true in He as [r Hr]. repeat split; try lia.
  rewrite Hr at 2. rewrite Hr at 1. rewrite str_len_app, str_len_take.
  replace (_ + _ - _) with (String.length r) by lia. apply str_drop_app_len.
Qed.

(** In a text the delimiter is cut only between characters, so the longest suffix is
    found. *)
Lemma longest_suffix_prefix_max s needle j :
  utf8_valid s = true → utf8_valid needle = true → 1 ≤ j < String.length needle →
  j ≤ String.length s → str_drop (String.length s - j) s = str_take j needle →
  j ≤ longest_suffix_prefix_len s needle.
Proof.
  intros Hs Hn Hj Hjs Hd. unfold longest_suffix_prefix_len. apply find_reverse_seq; [lia|].
  assert (s = str_take (String.length s - j) s +:+ str_take j needle) as Heq
    by (by rewrite <-Hd, str_take_drop).
  apply andb_true_iff. split; [|apply ends_with_true; eauto].
  rewrite Heq in Hs. apply valid_cut in Hs as [_ Hs].
  - rewrite <-(str_take_drop j needle) in Hn. rewrite (utf8_valid_app_l _ _ Hs) in Hn.
    pose proof (boundary_app (str_take j needle) _ Hn) as Hb.
    rewrite str_take_drop, str_len_take in Hb. by replace (min j _) with j in Hb by lia.
  - destruct needle as [|b needle]; [simpl in Hj; lia|]. apply valid_starts_char in Hn.
    by destruct j; [lia|].
Qed.

(** A delimiter that is not in the buffer can begin only in the suffix that is kept. *)
Lemma no_delimiter_before s needle rest i :
  utf8_valid s = true → utf8_valid needle = true → find needle s = None →
  i < String.length s - longest_suffix_prefix_len s needle →
  starts_with needle (str_drop i (s +:+ rest)) = false.
Proof.
  intros Hs Hn Hf Hi. apply not_true_iff_false. intros Hst.
  rewrite str_drop_app in Hst by lia.
  destruct (decide (String.length needle ≤ String.length (str_drop i s))) as [Hl|Hl].
  - apply starts_with_app_inv in Hst; [|done]. by rewrite find_none_at in Hst.
  - apply starts_with_across in Hst; [|lia]. rewrite str_len_drop in Hl, Hst.
    assert (String.length s - i ≤ longest_suffix_prefix_len s needle); [|lia].
    apply longest_suffix_prefix_max; try done; try lia.
    by replace (_ - (_ - i)) with i by lia.
Qed.

(** What is kept begins a character. *)
Lemma kept_valid s needle :
  utf8_valid s = true → utf8_valid needle = true →
  utf8_valid (str_drop (String.length s - longest_suffix_prefix_len s needle) s) = true.
Proof.
  intros Hs Hn. set (k := longest_suffix_prefix_len s needle).
  rewrite <-(str_take_drop (String.length s - k) s) in Hs. apply valid_cut in Hs as [_ Hs]; [done|].
  destruct (longest_suffix_prefix_cases s needle) as [Hk|(Hk & Hkn & Hd)]; fold k in Hk.
  - rewrite Hk, Nat.sub_0_r. pose proof (str_drop_app_len s EmptyString) as H.
    rewrite str_app_nil_r in H. by rewrite H.
  - fold k in Hd. rewrite Hd. destruct needle as [|b needle]; [simpl in Hkn; lia|].
    apply valid_starts_char in Hn. by destruct k; [lia|].
Qed.

End scan_facts.

(** ** The next opening delimiter *)

Lemma min_by_spec {A} (lt : A → A → bool) (l : list A) x :
  (∀ a b c, lt a b = true → lt b c = true → lt a c = true) →
  (∀ a, lt a a = false) →
  min_by lt l = Some x → x ∈ l ∧ ∀ y, y ∈ l → lt y x = false.
Proof.
  intros Htr Hirr. destruct l as [|z l]; [done|]. simpl. intros [= <-].
  assert (∀ (seen l : list A) b, b ∈ seen → (∀ y, y ∈ seen → lt y b = false) →
    let r := fold_left (λ best y, if lt y best then y else best) l b in
    r ∈ seen ++ l ∧ ∀ y, y ∈ seen ++ l → lt y r = false) as Haux.
  { clear z l. intros seen l. revert seen. induction l as [|y l IH]; intros seen b Hb Hmin; simpl.
    { by rewrite app_nil_r. }
    rewrite (cons_middle y seen l), app_assoc. destruct (lt y b) eqn:E; apply IH; set_unfold.
    - by right; left.
    - intros z [Hz|[-> |[]]]; [|done]. apply not_true_iff_false. intros Hzy.
      specialize (Hmin z Hz). rewrite (Htr _ _ _ Hzy E) in Hmin. done.
    - by left.
    - intros z [Hz|[-> |[]]]; auto. }
  apply (Haux [z] l z); set_unfold; naive_solver.
Qed.

Lemma open_before_true p l i p' l' i' :
  open_before (p, l, i) (p', l', i') = true ↔
  p < p' ∨ (p = p' ∧ (l' < l ∨ (l = l' ∧ i < i'))).
Proof.
  unfold open_before. destruct (Nat.compare_spec p p'), (Nat.compare_spec l' l);
    rewrite ?Nat.ltb_lt; intuition (done || lia).
Qed.

Section opens.
Context {T : Type}.
Implicit Types (sp : list (InlineTagSpec T)) (p : InlineHiddenTagParser T).

Lemma elem_of_open_candidates sp s pos len idx :
  (pos, len, idx) ∈ open_candidates sp s ↔
  ∃ spec, sp !! idx = Some spec ∧ find (open spec) s = Some pos ∧ len = String.length (open spec).
Proof.
  unfold open_candidates. rewrite list_elem_of_omap. split.
  - intros ([i spec] & Hin & Hf). apply list_elem_of_lookup in Hin as [j Hj].
    apply lookup_zip_with_Some in Hj as (i' & spec' & [= <- <-] & Hi & Hs).
    apply lookup_seq in Hi as [-> _]. simpl in *.
    destruct (find (open spec) s) as [q|] eqn:E; simplify_eq/=. eauto.
  - intros (spec & Hs & Hf & ->). exists (idx, spec). rewrite Hf. split; [|done].
    apply list_elem_of_lookup. exists idx. apply lookup_zip_with_Some.
    exists idx, spec. repeat split; try done. apply lookup_seq. split; [done|].
    by apply lookup_lt_Some in Hs.
Qed.

Lemma find_next_open_some p pos idx :
  find_next_open p = Some (pos, idx) →
  ∃ spec, specs p !! idx = Some spec ∧ find (open spec) (pending p) = Some pos ∧
    ∀ idx' spec' pos', specs p !! idx' = Some spec' → find (open spec') (pending p) = Some pos' →
      open_before (pos', String.length (open spec'), idx') (pos, String.length (open spec), idx) = false.
Proof.
  unfold find_next_open. destruct (min_by _ _) as [[[q len] i]|] eqn:E; [|done].
  intros [= -> ->]. apply min_by_spec in E as [Hin Hmin].
  - apply elem_of_open_candidates in Hin as (spec & Hs & Hf & ->). exists spec.
    split; [done|]. split; [done|]. intros idx' spec' pos' Hs' Hf'. apply Hmin.
    apply elem_of_open_candidates. eauto.
  - intros [[a1 a2] a3] [[b1 b2] b3] [[c1 c2] c3]. rewrite !open_before_true. lia.
  - intros [[a1 a2] a3]. apply not_true_iff_false. rewrite open_before_true. lia.
Qed.

Lemma find_next_open_none p spec :
  find_next_open p = None → spec ∈ specs p → find (open spec) (pending p) = None.
Proof.
  unfold find_next_open. intros Hn [idx Hidx]%list_elem_of_lookup.
  destruct (find (open spec) (pending p)) as [pos|] eqn:E; [|done].
  assert ((pos, String.length (open spec), idx) ∈ open_candidates (specs p) (pending p)) as Hin
    by (apply elem_of_open_candidates; eauto).
  destruct (open_candidates (specs p) (pending p)); [by apply not_elem_of_nil in Hin|done].
Qed.

(** ** Termination *)

(** A check that all delimiters pass: a tag is entered with one of them. *)
Definition delimiters_all (f : string → bool) p : bool :=
  forallb (λ spec, f (open spec) && f (close spec)) (specs p) &&
  match active p with Some a => f (a_close a) | None => true end.

Section delimiters.
Variable f : string → bool.

Lemma all_open p spec :
  delimiters_all f p = true → spec ∈ specs p → f (open spec) = true ∧ f (close spec) = true.
Proof.
  intros [H _]%andb_true_iff Hin. rewrite forallb_forall in H.
  by apply list_elem_of_In, H, andb_true_iff in Hin.
Qed.

Lemma all_close p a : delimiters_all f p = true → active p = Some a → f (a_close a) = true.
Proof. intros [_ H]%andb_true_iff Ha. by rewrite Ha in H. Qed.

Lemma all_leave p s :
  delimiters_all f p = true → delimiters_all f (set_active None (set_pending s p)) = true.
Proof. intros [H _]%andb_true_iff. by apply andb_true_iff. Qed.

Lemma all_pending p s : delimiters_all f p = true → delimiters_all f (set_pending s p) = true.
Proof. done. Qed.

Lemma all_enter p s spec c :
  delimiters_all f p = true → spec ∈ specs p →
  delimiters_all f (set_active (Some {| a_tag := tag spec; a_close := close spec; a_content := c |})
    (set_pending s p)) = true.
Proof.
  intros H Hin. pose proof (all_open _ _ H Hin) as [_ Hc]. apply andb_true_iff in H as [H _].
  by apply andb_true_iff.
Qed.

Lemma all_content p s t a :
  delimiters_all f p = true → active p = Some a →
  delimiters_all f (set_active (Some (push_content t a)) (set_pending s p)) = true.
Proof. unfold delimiters_all. intros H Ha. by rewrite Ha in H. Qed.

End delimiters.

Definition nonempty_delimiter (d : string) : bool := negb (str_is_empty d).

Lemma nonempty_delimiter_true d : nonempty_delimiter d = true ↔ d ≠ EmptyString.
Proof. unfold nonempty_delimiter. by rewrite negb_true_iff, str_is_empty_false. Qed.

Lemma drained_shorter pos (d s : string) :
  d ≠ EmptyString → find d s = Some pos → String.length (str_drop (pos + String.length d) s) < String.length s.
Proof.
  intros Hd Hf%find_len. rewrite str_len_drop. destruct d; [done|]. simpl in *. lia.
Qed.

Lemma push_loop_returns fuel p out :
  delimiters_all nonempty_delimiter p = true → String.length (pending p) < fuel →
  ∃ out' p', push_loop fuel p out = Some (out', p') ∧ delimiters_all nonempty_delimiter p' = true.
Proof.
  revert p out; induction fuel as [|fuel IH]; intros p out Hok Hf; [lia|]. cbn [push_loop].
  destruct (active p) as [a|] eqn:Ea.
  - destruct (find (a_close a) (pending p)) as [k|] eqn:Ef.
    + apply IH; [by apply all_leave|]. simpl.
      apply (all_close _ _ _ Hok), nonempty_delimiter_true in Ea.
      pose proof (drained_shorter _ _ _ Ea Ef). lia.
    + destruct (0 <? _); eauto using all_content.
  - destruct (find_next_open p) as [[pos idx]|] eqn:En.
    + apply find_next_open_some in En as (spec & Hs & Ef & _). rewrite Hs.
      apply list_elem_of_lookup_2 in Hs. apply IH; [by apply all_enter|]. simpl.
      apply (all_open _ _ _ Hok) in Hs as [Ho%nonempty_delimiter_true _].
      pose proof (drained_shorter _ _ _ Ho Ef). lia.
    + unfold drain_visible_to_suffix_match. destruct (_ =? 0); eauto using all_pending.
Qed.

Lemma inline_new_ok sp p :
  inline_new sp = Some p → delimiters_all nonempty_delimiter p = true.
Proof.
  unfold inline_new. destruct sp as [|s0 sp]; [done|]. destruct (existsb _ _) eqn:E; [done|].
  intros [= <-]. unfold delimiters_all; simpl specs; simpl active. rewrite andb_true_r.
  apply forallb_forall. intros spec Hin. apply not_true_iff_false in E.
  apply andb_true_iff. rewrite !nonempty_delimiter_true. split; intros He; apply E, existsb_exists;
    exists spec; (split; [done|]); rewrite He; simpl; by rewrite ?orb_true_r.
Qed.

Lemma feed_returns chunks p :
  delimiters_all nonempty_delimiter p = true →
  delimiters_all nonempty_delimiter (snd (feed p chunks)) = true.
Proof.
  revert p; induction chunks as [|c cs IH]; intros p Hok; [done|]. simpl.
  unfold inline_push_str, inline_push.
  destruct (push_loop_returns (S (String.length (pending p +:+ c))) (set_pending (pending p +:+ c) p)
    chunk_default (all_pending _ _ _ Hok)) as (out & p1 & Hp & Hok1); [simpl; lia|].
  simpl in Hp |- *. rewrite Hp. simpl. specialize (IH p1 Hok1). by destruct (feed p1 cs).
Qed.

(** Claim C38. The loop of [push_str] ends: whatever chunks a parser made by [new] has seen, the
    next push returns.  ([new] refuses empty delimiters, with which the loop would open and
    close a tag forever without reading anything: [empty_delimiters_loop].) *)
Theorem inline_push_terminates sp p chunks chunk :
  inline_new sp = Some p → is_Some (inline_push chunk (snd (feed p chunks))).
Proof.
  intros Hnew%inline_new_ok. apply (feed_returns chunks) in Hnew. unfold inline_push.
  destruct (push_loop_returns (S (String.length (pending (snd (feed p chunks)) +:+ chunk)))
    (set_pending (pending (snd (feed p chunks)) +:+ chunk) (snd (feed p chunks)))
    chunk_default (all_pending _ _ _ Hnew)) as (out & p1 & Hp & _); [simpl; lia|].
  simpl in Hp |- *. rewrite Hp. eauto.
Qed.

End opens.

(** Without the assertions of [new] no fuel is enough. *)
Lemma empty_delimiters_loop {T} (t : T) fuel s act out :
  push_loop fuel
    {| specs := [{| tag := t; open := EmptyString; close := EmptyString |}];
       pending := s; active := option_map (λ c, {| a_tag := t; a_close := EmptyString; a_content := c |}) act |}
    out = None.
Proof.
  revert act out; induction fuel as [|fuel IH]; intros act out; [done|]. cbn [push_loop].
  assert (find EmptyString s = Some 0) as Hf by (by destruct s).
  destruct act as [c|]; simpl.
  - rewrite Hf. apply (IH None).
  - unfold find_next_open, open_candidates. simpl. rewrite Hf. simpl. apply (IH (Some EmptyString)).
Qed.

(** ** The stream implements the reference *)

(** A delimiter is a text, and not empty. *)
Definition text_delimiter (d : string) : bool := utf8_valid d && nonempty_delimiter d.

Lemma text_delimiter_true d : text_delimiter d = true ↔ utf8_valid d = true ∧ d ≠ EmptyString.
Proof. unfold text_delimiter. by rewrite andb_true_iff, nonempty_delimiter_true. Qed.

(** No opening delimiter occurs inside another one. *)
Definition openers_separate {T} (sp : list (InlineTagSpec T)) : bool :=
  forallb (λ s1, forallb (λ s2, negb (contains (open s1) (open s2)) || str_eqb (open s1) (open s2)) sp) sp.

Lemma openers_separate_eq {T} (sp : list (InlineTagSpec T)) s1 s2 :
  openers_separate sp = true → s1 ∈ sp → s2 ∈ sp → contains (open s1) (open s2) = true → open s1 = open s2.
Proof.
  intros H H1%list_elem_of_In H2%list_elem_of_In Hc. unfold openers_separate in H.
  rewrite forallb_forall in H. specialize (H s1 H1). rewrite forallb_forall in H.
  specialize (H s2 H2). rewrite Hc in H. by apply str_eqb_true.
Qed.

Lemma find_first_match {A} (f : A → bool) l idx x :
  l !! idx = Some x → f x = true → (∀ j y, j < idx → l !! j = Some y → f y = false) →
  List.find f l = Some x.
Proof.
  revert idx; induction l as [|z l IH]; intros idx Hx Hf Hj; [done|]. destruct idx as [|idx]; simpl in *.
  - simplify_eq. by rewrite Hf.
  - rewrite (Hj 0 z); [|lia|done]. apply (IH idx); [done|done|]. intros j y Hlt Hy.
    apply (Hj (S j)); [lia|done].
Qed.

Section stream.
Context {T : Type}.
Implicit Types (p : InlineHiddenTagParser T) (out : StreamTextChunk (ExtractedInlineTag T)).

Lemma scan_close_step (sp : list (InlineTagSpec T)) a s k rest :
  a_close a ≠ EmptyString → find (a_close a) s = Some k →
  scan sp 0 (Some a) (s +:+ rest) =
  cons_extracted (extract_tag (push_content (str_take k s) a))
    (scan sp 0 None (str_drop (k + String.length (a_close a)) s +:+ rest)).
Proof.
  intros Hne Hf. pose proof (find_len _ _ _ Hf) as Hl. rewrite (scan_content sp k).
  - rewrite str_take_app_le, str_drop_app by lia.
    assert (str_drop k s = a_close a +:+ str_drop (k + String.length (a_close a)) s) as ->.
    { apply (str_app_inj_l (str_take k s)). rewrite str_take_drop. by apply find_cut. }
    rewrite <-str_app_assoc. by apply (scan_close sp (push_content (str_take k s) a)).
  - rewrite str_len_app. lia.
  - intros i Hi. by apply (find_first _ _ k), Hi; apply find_app.
Qed.

(** Nothing opens before the delimiter that is found first. *)
Lemma no_open_before p pos idx i rest :
  openers_separate (specs p) = true → find_next_open p = Some (pos, idx) → i < pos →
  open_at (specs p) (str_drop i (pending p +:+ rest)) = None.
Proof.
  intros Hsep Hn Hi. destruct (open_at _ _) as [spec'|] eqn:Eo; [exfalso|done].
  apply List.find_some in Eo as [Hin' Hst]. apply list_elem_of_In in Hin'.
  apply find_next_open_some in Hn as (spec & Hs & Hf & Hmin).
  pose proof (find_len _ _ _ Hf) as Hl. rewrite str_drop_app in Hst by lia.
  destruct (decide (String.length (open spec') ≤ String.length (str_drop i (pending p)))) as [Hfit|Hfit].
  - apply starts_with_app_inv in Hst; [|done].
    destruct (find (open spec') (pending p)) as [q|] eqn:Eq; [|by rewrite find_none_at in Hst].
    apply list_elem_of_lookup in Hin' as [idx' Hidx']. specialize (Hmin _ _ _ Hidx' Eq).
    apply not_true_iff_false in Hmin. apply Hmin, open_before_true. left.
    destruct (decide (q ≤ i)); [lia|]. by rewrite (find_first _ _ q i Eq) in Hst by lia.
  - apply starts_with_across in Hst; [|lia]. rewrite str_len_drop in Hfit, Hst.
    apply list_elem_of_lookup_2 in Hs as Hin.
    assert (open spec = open spec') as He.
    { apply (openers_separate_eq (specs p)); try done. apply (contains_drop _ _ (pos - i)).
      rewrite <-(str_take_drop (String.length (pending p) - i) (open spec')), <-Hst.
      rewrite str_drop_app by (rewrite str_len_drop; lia). rewrite str_drop_drop.
      replace (i + (pos - i)) with pos by lia. by apply starts_with_app_r, find_some_at. }
    rewrite He in Hl. lia.
Qed.

Lemma open_at_found p pos idx spec rest :
  openers_separate (specs p) = true → find_next_open p = Some (pos, idx) → specs p !! idx = Some spec →
  open_at (specs p) (open spec +:+ rest) = Some spec.
Proof.
  intros Hsep Hn Hs. apply find_next_open_some in Hn as (spec0 & Hs0 & Hf & Hmin).
  rewrite Hs in Hs0. injection Hs0 as <-.
  apply (find_first_match _ _ idx); [done|apply starts_with_app|]. intros j spec' Hj Hs'.
  apply not_true_iff_false. intros Hst. apply list_elem_of_lookup_2 in Hs as Hin, Hs' as Hin'.
  assert (open spec' = open spec) as He.
  { destruct (decide (String.length (open spec') ≤ String.length (open spec))).
    - apply starts_with_app_inv in Hst; [|done]. apply (openers_separate_eq (specs p)); try done.
      by apply (contains_drop _ _ 0).
    - apply starts_with_across in Hst; [|lia]. symmetry.
      apply (openers_separate_eq (specs p)); try done. apply (contains_drop _ _ 0). simpl.
      rewrite <-(str_take_drop (String.length (open spec)) (open spec')), <-Hst. apply starts_with_app. }
  rewrite <-He in Hf. specialize (Hmin _ _ _ Hs' Hf). rewrite He in Hmin.
  apply not_true_iff_false in Hmin. apply Hmin, open_before_true. lia.
Qed.

Lemma scan_open_step p pos idx spec rest :
  openers_separate (specs p) = true → find_next_open p = Some (pos, idx) → specs p !! idx = Some spec →
  open spec ≠ EmptyString →
  scan (specs p) 0 None (pending p +:+ rest) =
  chunk_append {| visible_text := str_take pos (pending p); extracted := [] |}
    (scan (specs p) 0 (Some {| a_tag := tag spec; a_close := close spec; a_content := EmptyString |})
       (str_drop (pos + String.length (open spec)) (pending p) +:+ rest)).
Proof.
  intros Hsep Hn Hs Hne. destruct (find_next_open_some _ _ _ Hn) as (spec0 & Hs0 & Hf & _).
  rewrite Hs in Hs0. injection Hs0 as <-.
  pose proof (find_len _ _ _ Hf) as Hl. rewrite (scan_visible _ pos).
  - rewrite str_take_app_le, str_drop_app by lia. f_equal.
    assert (str_drop pos (pending p) = open spec +:+ str_drop (pos + String.length (open spec)) (pending p)) as ->.
    { apply (str_app_inj_l (str_take pos (pending p))). rewrite str_take_drop. by apply find_cut. }
    rewrite <-str_app_assoc. apply scan_open; [done|]. by eapply open_at_found.
  - rewrite str_len_app. lia.
  - intros i Hi. by eapply no_open_before.
Qed.

Lemma max_list_attained ns : max_list ns = 0 ∨ max_list ns ∈ ns.
Proof.
  induction ns as [|n ns IH]; [by left|]. simpl. destruct (Nat.max_spec n (max_list ns)) as [[_ ->]|[_ ->]].
  - destruct IH; [by left|right; by right].
  - right. by left.
Qed.

Lemma str_drop_all n s : String.length s ≤ n → str_drop n s = EmptyString.
Proof. intros H. apply str_len_0. rewrite str_len_drop. lia. Qed.

Lemma scan_keep_step p rest :
  delimiters_all text_delimiter p = true → utf8_valid (pending p) = true → find_next_open p = None →
  let take := String.length (pending p) - max_open_prefix_suffix_len p in
  scan (specs p) 0 None (pending p +:+ rest) =
  chunk_append {| visible_text := str_take take (pending p); extracted := [] |}
    (scan (specs p) 0 None (str_drop take (pending p) +:+ rest)) ∧
  utf8_valid (str_drop take (pending p)) = true.
Proof.
  intros Hd Hv Hn take. split.
  - rewrite (scan_visible _ take).
    + by rewrite str_take_app_le, str_drop_app by (subst take; lia).
    + subst take. rewrite str_len_app. lia.
    + intros i Hi. destruct (open_at _ _) as [spec|] eqn:Eo; [exfalso|done].
      apply List.find_some in Eo as [Hin%list_elem_of_In Hst].
      pose proof (all_open _ _ _ Hd Hin) as [[Ho _]%text_delimiter_true _].
      rewrite no_delimiter_before in Hst; try done; [by apply find_next_open_none|].
      subst take. eapply Nat.lt_le_trans; [exact Hi|].
      apply Nat.sub_le_mono_l, max_list_elem_of_le, list_elem_of_fmap. by exists spec.
  - destruct (max_list_attained ((λ spec, longest_suffix_prefix_len (pending p) (open spec)) <$> specs p))
      as [H|H]; fold (max_open_prefix_suffix_len p) in H.
    + subst take. by rewrite H, str_drop_all by lia.
    + apply list_elem_of_fmap in H as (spec & H & Hin). subst take. rewrite H.
      pose proof (all_open _ _ _ Hd Hin) as [[Ho _]%text_delimiter_true _]. by apply kept_valid.
Qed.

Lemma drained_valid d s k :
  utf8_valid d = true → d ≠ EmptyString → utf8_valid s = true → find d s = Some k →
  utf8_valid (str_drop (k + String.length d) s) = true.
Proof.
  intros Hd Hne Hs Hf. rewrite (find_cut _ _ _ Hf) in Hs. apply valid_cut in Hs as [_ Hs].
  - by rewrite (utf8_valid_app_l _ _ Hd) in Hs.
  - destruct d as [|b d]; [done|]. by apply valid_starts_char in Hd.
Qed.

Lemma cut_valid n s : utf8_valid s = true → starts_char (str_drop n s) = true → utf8_valid (str_take n s) = true.
Proof. intros Hs Hd. rewrite <-(str_take_drop n s) in Hs. by apply valid_cut in Hs as [? _]. Qed.

Lemma before_valid d s k :
  utf8_valid d = true → d ≠ EmptyString → utf8_valid s = true → find d s = Some k →
  utf8_valid (str_take k s) = true.
Proof.
  intros Hd Hne Hs Hf. apply (cut_valid _ _ Hs). apply find_some_at, starts_with_true in Hf as [r ->].
  destruct d as [|b d]; [done|]. by apply valid_starts_char in Hd.
Qed.

Lemma push_visible_prefix_append out text :
  push_visible_prefix out text = chunk_append out {| visible_text := text; extracted := [] |}.
Proof.
  unfold push_visible_prefix, chunk_append; simpl. rewrite app_nil_r.
  destruct text; simpl; [rewrite str_app_nil_r|done]. by destruct out.
Qed.

Lemma push_extracted_append e out :
  push_extracted e out = chunk_append out {| visible_text := EmptyString; extracted := [e] |}.
Proof. unfold push_extracted, chunk_append; simpl. by rewrite str_app_nil_r. Qed.

(** Nothing is left to be found in the buffer. *)
Definition settled p : Prop :=
  match active p with
  | Some a => find (a_close a) (pending p) = None
  | None => ∀ spec, spec ∈ specs p → find (open spec) (pending p) = None
  end.

Lemma finish_scan p : settled p → fst (inline_finish p) = scan (specs p) 0 (active p) (pending p).
Proof.
  unfold settled, inline_finish. intros Hs. destruct (active p) as [a|] eqn:Ea.
  - rewrite (scan_content _ (String.length (pending p))); [|done|intros i _; by apply find_none_at].
    rewrite str_drop_all by done. pose proof (str_take_app_len (pending p) EmptyString) as Ht.
    rewrite str_app_nil_r in Ht. rewrite Ht. simpl.
    destruct (pending p); [by rewrite push_content_nil|done].
  - rewrite (scan_visible _ (String.length (pending p))); [|done|].
    + rewrite str_drop_all by done. pose proof (str_take_app_len (pending p) EmptyString) as Ht.
      rewrite str_app_nil_r in Ht. rewrite Ht. simpl. rewrite chunk_append_nil_r. by destruct (pending p).
    + intros i _. destruct (open_at _ _) as [spec|] eqn:Eo; [exfalso|done].
      apply List.find_some in Eo as [Hin%list_elem_of_In Hst]. by rewrite (find_none_at _ _ i (Hs _ Hin)) in Hst.
Qed.

(** The parser's state is a text cut short: what it still has to say about any
    continuation, after what the loop has put out. *)
Lemma push_loop_scan fuel p out :
  delimiters_all text_delimiter p = true → openers_separate (specs p) = true →
  utf8_valid (pending p) = true → String.length (pending p) < fuel →
  ∃ out' p', push_loop fuel p out = Some (chunk_append out out', p') ∧ specs p' = specs p ∧
    delimiters_all text_delimiter p' = true ∧ utf8_valid (pending p') = true ∧ settled p' ∧
    utf8_valid (visible_text out') = true ∧
    ∀ rest, scan (specs p) 0 (active p) (pending p +:+ rest) =
            chunk_append out' (scan (specs p) 0 (active p') (pending p' +:+ rest)).
Proof.
  revert p out; induction fuel as [|fuel IH]; intros p out Hd Hsep Hv Hfuel; [lia|]. cbn [push_loop].
  destruct (active p) as [a|] eqn:Ea.
  - pose proof (all_close _ _ _ Hd Ea) as [Hcv Hcne]%text_delimiter_true.
    destruct (find (a_close a) (pending p)) as [k|] eqn:Ef.
    + rewrite push_extracted_append.
      edestruct (IH (set_active None (set_pending (str_drop (k + String.length (a_close a)) (pending p)) p)))
        as (out' & p' & -> & Hsp & Hd' & Hv' & Hset & Hvis & Hscan).
      { by apply all_leave. } { done. } { by apply drained_valid. }
      { simpl. pose proof (drained_shorter _ _ _ Hcne Ef). lia. }
      eexists _, p'. rewrite <-chunk_append_assoc. split_and!; try done. intros rest.
      simpl in Hscan. by rewrite (scan_close_step _ _ _ _ _ Hcne Ef), Hscan.
    + set (keep := longest_suffix_prefix_len (pending p) (a_close a)).
      assert (∀ rest, scan (specs p) 0 (Some a) (pending p +:+ rest) =
        scan (specs p) 0 (Some (push_content (str_take (String.length (pending p) - keep) (pending p)) a))
          (str_drop (String.length (pending p) - keep) (pending p) +:+ rest)) as Hs.
      { intros rest. rewrite (scan_content _ (String.length (pending p) - keep)).
        - by rewrite str_take_app_le, str_drop_app by lia.
        - rewrite str_len_app. lia.
        - intros i Hi. by apply no_delimiter_before. }
      exists chunk_default. rewrite chunk_append_nil_r. destruct (0 <? _) eqn:E0.
      * eexists. split_and!; try done; [by apply all_content|by apply kept_valid|by apply find_none_drop|].
        intros rest. rewrite chunk_append_nil_l. apply Hs.
      * exists p. split_and!; try done; [by unfold settled; rewrite Ea|].
        intros rest. by rewrite chunk_append_nil_l, Ea.
  - destruct (find_next_open p) as [[pos idx]|] eqn:En.
    + destruct (find_next_open_some _ _ _ En) as (spec & Hs & Hf & _). rewrite Hs.
      apply list_elem_of_lookup_2 in Hs as Hin.
      pose proof (all_open _ _ _ Hd Hin) as [[Hov Hone]%text_delimiter_true _].
      rewrite push_visible_prefix_append.
      edestruct (IH (set_active (Some {| a_tag := tag spec; a_close := close spec; a_content := EmptyString |})
          (set_pending (str_drop (pos + String.length (open spec)) (pending p)) p)))
        as (out' & p' & -> & Hsp & Hd' & Hv' & Hset & Hvis & Hscan).
      { by apply all_enter. } { done. } { by apply drained_valid. }
      { simpl. pose proof (drained_shorter _ _ _ Hone Hf). lia. }
      eexists _, p'. rewrite <-chunk_append_assoc. split_and!; try done.
      { simpl. apply utf8_valid_app; [|done]. by apply (before_valid (open spec)). }
      intros rest. rewrite (scan_open_step p pos idx spec rest) by done.
      simpl in Hscan. by rewrite Hscan, chunk_append_assoc.
    + destruct (scan_keep_step p EmptyString Hd Hv En) as [_ Hk].
      unfold drain_visible_to_suffix_match. destruct (_ =? 0) eqn:E0.
      * exists chunk_default, p. rewrite chunk_append_nil_r. split_and!; try done.
        { unfold settled. rewrite Ea. intros spec. by apply find_next_open_none. }
        intros rest. by rewrite chunk_append_nil_l, Ea.
      * rewrite push_visible_prefix_append. eexists _, _. split_and!; try done.
        { unfold settled. simpl. rewrite Ea. intros spec Hin. by apply find_none_drop, find_next_open_none. }
        { apply (cut_valid _ _ Hv). by apply valid_starts_char. }
        intros rest. simpl. rewrite Ea. apply (scan_keep_step p rest Hd Hv En).
Qed.

Lemma feed_scan chunks p :
  delimiters_all text_delimiter p = true → openers_separate (specs p) = true →
  utf8_valid (pending p) = true → settled p → Forall (λ c, utf8_valid c = true) chunks →
  let '(out, p') := feed p chunks in
  specs p' = specs p ∧ settled p' ∧
  scan (specs p) 0 (active p) (pending p +:+ concat_str chunks) =
  chunk_append out (scan (specs p) 0 (active p') (pending p')).
Proof.
  intros Hd Hsep Hv Hset Hc. revert p Hd Hsep Hv Hset. induction Hc as [|c cs Hc _ IH]; intros p Hd Hsep Hv Hset.
  { simpl. by rewrite str_app_nil_r, chunk_append_nil_l. }
  cbn [feed concat_str foldr]. simpl push_str. unfold inline_push_str, inline_push.
  destruct (push_loop_scan (S (String.length (pending p +:+ c))) (set_pending (pending p +:+ c) p) chunk_default)
    as (out & p1 & Hp & Hsp1 & Hd1 & Hv1 & Hset1 & _ & Hscan); [done|done|by apply utf8_valid_app|simpl; lia|].
  simpl in Hp, Hsp1. simpl. rewrite Hp. simpl. rewrite chunk_append_nil_l.
  rewrite <-Hsp1 in Hsep. specialize (IH p1 Hd1 Hsep Hv1 Hset1).
  destruct (feed p1 cs) as [out2 p2]. destruct IH as (Hsp2 & Hset2 & IH).
  split_and!; [congruence|done|]. fold (concat_str cs). rewrite str_app_assoc.
  simpl in Hscan. rewrite Hscan, <-Hsp1, IH. by rewrite chunk_append_assoc.
Qed.

Lemma inline_collect_scan sp p chunks :
  inline_new sp = Some p → forallb (λ s, utf8_valid (open s) && utf8_valid (close s)) sp = true →
  openers_separate sp = true → Forall (λ c, utf8_valid c = true) chunks →
  collect p chunks = scan sp 0 None (concat_str chunks).
Proof.
  intros Hnew Hv Hsep Hc. pose proof (inline_new_ok _ _ Hnew) as Hne.
  assert (p = {| specs := sp; pending := EmptyString; active := None |}) as ->.
  { unfold inline_new in Hnew. by repeat case_match; simplify_eq. }
  pose proof (feed_scan chunks {| specs := sp; pending := EmptyString; active := None |}) as H.
  unfold collect. destruct (feed _ chunks) as [out p']. destruct H as (Hsp & Hset & H); try done.
  - unfold delimiters_all in *. simpl in *. rewrite andb_true_r in *. rewrite forallb_forall in *.
    intros spec Hin. specialize (Hne _ Hin). specialize (Hv _ Hin). unfold text_delimiter.
    apply andb_true_iff in Hne as [-> ->], Hv as [-> ->]. done.
  - intros spec Hin. simpl.
    pose proof (all_open _ _ _ Hne Hin) as [Ho%nonempty_delimiter_true _]. simpl in *.
    by destruct (open spec).
  - cbn [specs active pending] in H. rewrite str_app_nil_l in H. rewrite H. simpl.
    rewrite (finish_scan p' Hset). by rewrite Hsp.
Qed.

(** Hidden tags do not depend on how the stream is cut: for a parser made by [new]
    whose opening delimiters do not occur inside one another, the visible text and the tags
    extracted from all chunks and the final flush are those of the reference scan of the
    whole text: nothing of a tag is ever shown, even when a chunk ends inside a
    delimiter, no other byte is hidden, and a tag that is still open at the end is
    extracted. *)
Theorem inline_stream_scan sp (p : InlineHiddenTagParser T) chunks :
  inline_new sp = Some p → forallb (λ s, utf8_valid (open s) && utf8_valid (close s)) sp = true →
  openers_separate sp = true → Forall (λ c, utf8_valid c = true) chunks →
  collect p chunks = scan sp 0 None (concat_str chunks).
Proof. apply inline_collect_scan. Qed.

End stream.

(** ** Citations *)

Inductive CitationTag := Citation.

Definition CITATION_OPEN : string := "<oai-mem-citation>".
Definition CITATION_CLOSE : string := "</oai-mem-citation>".

Record CitationStreamParser := { cit_inner : InlineHiddenTagParser CitationTag }.

Definition citation_specs : list (InlineTagSpec CitationTag) :=
  [{| tag := Citation; open := CITATION_OPEN; close := CITATION_CLOSE |}].

Definition citation_new : option CitationStreamParser :=
  (λ p, {| cit_inner := p |}) <$> inline_new citation_specs.

Definition citation_bodies (out : StreamTextChunk (ExtractedInlineTag CitationTag)) : StreamTextChunk string :=
  {| visible_text := visible_text out; extracted := e_content <$> extracted out |}.

Definition citation_push_str (chunk : string) (p : CitationStreamParser) :
  StreamTextChunk string * CitationStreamParser :=
  let '(out, q) := push_str chunk (cit_inner p) in (citation_bodies out, {| cit_inner := q |}).

Definition citation_finish (p : CitationStreamParser) : StreamTextChunk string * CitationStreamParser :=
  let '(out, q) := finish (cit_inner p) in (citation_bodies out, {| cit_inner := q |}).

#[global] Instance citation_parser : StreamTextParser CitationStreamParser := {|
  Extracted := string;
  push_str := citation_push_str;
  finish := citation_finish;
|}.

(** [strip_citations]; [new] does not panic ([citation_start_ok]). *)
Definition citation_start : CitationStreamParser :=
  {| cit_inner := {| specs := citation_specs; pending := EmptyString; active := None |} |}.

Definition strip_citations (text : string) : string * list string :=
  let '(out, p) := push_str text citation_start in
  let '(tail, _) := finish p in
  (visible_text out +:+ visible_text tail, extracted out ++ extracted tail).

Lemma citation_start_ok : citation_new = Some citation_start.
Proof. vm_refl. Qed.

Definition citation_scan (text : string) : StreamTextChunk string :=
  citation_bodies (scan citation_specs 0 None text).

Lemma citation_bodies_append a b :
  citation_bodies (chunk_append a b) = chunk_append (citation_bodies a) (citation_bodies b).
Proof. unfold citation_bodies, chunk_append; simpl. by rewrite fmap_app. Qed.

Lemma citation_feed chunks p :
  feed p chunks =
  let '(out, q) := feed (cit_inner p) chunks in (citation_bodies out, {| cit_inner := q |}).
Proof.
  revert p; induction chunks as [|c cs IH]; intros p; [by destruct p|]. cbn [feed].
  simpl push_str at 1. unfold citation_push_str. destruct (push_str c (cit_inner p)) as [o q].
  rewrite IH. simpl cit_inner. destruct (feed q cs) as [o' q']. by rewrite citation_bodies_append.
Qed.

Lemma citation_collect chunks :
  Forall (λ c, utf8_valid c = true) chunks →
  collect citation_start chunks = citation_scan (concat_str chunks).
Proof.
  intros Hc. pose proof (inline_collect_scan citation_specs (cit_inner citation_start) chunks
    eq_refl eq_refl eq_refl Hc) as H. unfold citation_scan. rewrite <-H. unfold collect.
  rewrite citation_feed. destruct (feed (cit_inner citation_start) chunks) as [o q].
  rewrite citation_bodies_append. f_equal. simpl. unfold citation_finish. simpl.
  by destruct (inline_finish q).
Qed.

#[global] Instance citation_laws : StreamParserLaws CitationStreamParser citation_start := {|
  chunk_equiv := eq;
  batch := citation_scan;
  collect_batch := citation_collect;
|}.

Lemma strip_citations_scan text :
  utf8_valid text = true →
  strip_citations text = (visible_text (citation_scan text), extracted (citation_scan text)).
Proof.
  intros Hv. pose proof (citation_collect [text]) as H. simpl concat_str in H. rewrite str_app_nil_r in H.
  rewrite <-H by (by apply Forall_singleton). unfold collect. rewrite feed_one.
  unfold strip_citations. destruct (push_str text citation_start) as [o p]. by destruct (finish p).
Qed.

(** ** Printing and stripping *)

(** A document: its visible pieces with the citation between each and the next. *)
Fixpoint with_citations (v : string) (rest : list (string * string)) : string :=
  match rest with
  | [] => v
  | (body, v') :: rest' => v +:+ (CITATION_OPEN +:+ (body +:+ (CITATION_CLOSE +:+ with_citations v' rest')))
  end.

(** A delimiter whose first byte does not occur again cannot overlap itself. *)
Definition no_border (d : string) : bool :=
  match d with EmptyString => false | String a d' => negb (contains_char a d') end.

Lemma no_border_first d s rest i :
  no_border d = true → contains d s = false → i < String.length s →
  starts_with d (str_drop i (s +:+ (d +:+ rest))) = false.
Proof.
  intros Hb Hc Hi. apply not_true_iff_false. intros Hst. rewrite str_drop_app in Hst by lia.
  apply bool_decide_eq_false in Hc. destruct (find d s) as [k|] eqn:Ef; [by destruct Hc; eauto|].
  destruct (decide (String.length d ≤ String.length (str_drop i s))) as [Hl|Hl].
  - apply starts_with_app_inv in Hst; [|done]. by rewrite find_none_at in Hst.
  - pose proof (starts_with_across _ _ _ Hst ltac:(lia)) as Heq. rewrite str_len_drop in Hl, Heq.
    apply starts_with_true in Hst as [r Hr]. assert (∃ j, String.length s - i = S j) as [j Hj] by (exists (String.length s - i - 1); lia).
    rewrite Hj in *. rewrite <-(str_take_drop (S j) d) in Hr at 2. rewrite <-Heq, <-str_app_assoc in Hr.
    apply str_app_inj_l in Hr. destruct d as [|a d]; [done|]. simpl in Hb.
    cbn [str_drop] in Hr.
    destruct (str_drop j d) as [|b e] eqn:Ed.
    { apply (f_equal String.length) in Ed. rewrite str_len_drop in Ed. simpl in Hl, Ed. lia. }
    rewrite !str_app_cons in Hr. injection Hr as -> Hr.
    rewrite <-(str_take_drop j d), Ed, contains_char_app, contains_char_cons, byte_eqb_refl in Hb.
    by rewrite orb_true_r in Hb.
Qed.

Lemma contains_none d s i : contains d s = false → starts_with d (str_drop i s) = false.
Proof.
  intros H. apply not_true_iff_false. intros Hs. by rewrite (contains_drop _ _ _ Hs) in H.
Qed.

Lemma citation_open_at s : open_at citation_specs s = None ↔ starts_with CITATION_OPEN s = false.
Proof. unfold open_at. simpl. by destruct (starts_with CITATION_OPEN s). Qed.

Lemma scan_with_citations v rest :
  contains CITATION_OPEN v = false →
  Forall (λ '(body, v'), contains CITATION_CLOSE body = false ∧ contains CITATION_OPEN v' = false) rest →
  citation_scan (with_citations v rest) =
  {| visible_text := v +:+ concat_str rest.*2; extracted := rest.*1 |}.
Proof.
  intros Hv Hr. unfold citation_scan. revert v Hv. induction Hr as [|[body v'] rest [Hb Hv'] _ IH]; intros v Hv.
  - simpl. rewrite (scan_visible _ (String.length v)); [|done|].
    + rewrite str_drop_all by done. pose proof (str_take_app_len v EmptyString) as Ht.
      rewrite str_app_nil_r in Ht. rewrite Ht. done.
    + intros i _. by apply citation_open_at, contains_none.
  - cbn [with_citations]. rewrite (scan_visible _ (String.length v)).
    + rewrite str_take_app_len, str_drop_app_len.
      rewrite (scan_open citation_specs {| tag := Citation; open := CITATION_OPEN; close := CITATION_CLOSE |});
        [|done|]; cycle 1.
      { unfold open_at. cbn [List.find open citation_specs]. by rewrite starts_with_app. }
      rewrite (scan_content _ (String.length body)).
      * rewrite str_take_app_len, str_drop_app_len.
        rewrite (scan_close citation_specs (push_content body
          {| a_tag := Citation; a_close := CITATION_CLOSE; a_content := EmptyString |})); [|done].
        match goal with |- context [cons_extracted ?e ?x] =>
          change (cons_extracted e x) with (chunk_append {| visible_text := EmptyString; extracted := [e] |} x) end.
        by rewrite !citation_bodies_append, (IH v' Hv').
      * rewrite str_len_app. lia.
      * intros i Hi. by apply no_border_first.
    + rewrite str_len_app. lia.
    + intros i Hi. apply citation_open_at. by apply no_border_first.
Qed.

Lemma with_citations_valid v rest :
  utf8_valid v = true → Forall (λ '(body, v'), utf8_valid body = true ∧ utf8_valid v' = true) rest →
  utf8_valid (with_citations v rest) = true.
Proof.
  intros Hv Hr. revert v Hv. induction Hr as [|[body v'] rest [Hb Hv'] _ IH]; intros v Hv; [done|].
  cbn [with_citations]. repeat (apply utf8_valid_app; [done|]). by apply IH.
Qed.

(** Stripping undoes writing: a text written with citations between its visible pieces,
    none of which spells a delimiter of its own, is taken apart into the visible pieces put
    together and the citation bodies in order. *)
Theorem strip_citations_roundtrip v rest :
  utf8_valid v = true → contains CITATION_OPEN v = false →
  Forall (λ '(body, v'), utf8_valid body = true ∧ utf8_valid v' = true) rest →
  Forall (λ '(body, v'), contains CITATION_CLOSE body = false ∧ contains CITATION_OPEN v' = false) rest →
  strip_citations (with_citations v rest) = (v +:+ concat_str rest.*2, rest.*1).
Proof.
  intros Hv Ho Hrv Hr. rewrite strip_citations_scan by by apply with_citations_valid.
  by rewrite scan_with_citations.
Qed.

(** ** Witnesses and examples *)

Definition example_specs : list (InlineTagSpec bool) :=
  [{| tag := true; open := "<a>"; close := "</a>" |}; {| tag := false; open := "<ab>"; close := "</ab>" |}].

Lemma inline_push_terminates_witness :
  ∃ p, inline_new example_specs = Some p ∧ is_Some (inline_push ">x" (snd (feed p ["<a"; "b"]))).
Proof.
  eexists. split; [reflexivity|]. by apply (inline_push_terminates example_specs).
Defined.

Lemma inline_stream_scan_witness :
  ∃ p, inline_new example_specs = Some p ∧
    collect p ["1<"; "a>x</"; "a>2<ab"; ">y"] =
    {| visible_text := "12"; extracted := [{| e_tag := true; e_content := "x" |}; {| e_tag := false; e_content := "y" |}] |}.
Proof.
  eexists. split; [reflexivity|].
  rewrite (inline_stream_scan example_specs _ _ eq_refl eq_refl eq_refl); [reflexivity|].
  repeat constructor.
Defined.

Lemma strip_citations_roundtrip_witness :
  strip_citations (with_citations "hello " [("doc A", " world"); ("<", "!")]) = ("hello  world!", ["doc A"; "<"]).
Proof. by rewrite strip_citations_roundtrip by (repeat constructor; reflexivity). Defined.

(** With an opening delimiter inside another one, the cut decides which tag is seen. *)
Example overlapping_openers_depend_on_cut :
  let sp := [{| tag := true; open := "<a"; close := ">" |}; {| tag := false; open := "<ab"; close := ">" |}] in
  ∃ p, inline_new sp = Some p ∧
    extracted (collect p ["<abx>"]) = [{| e_tag := false; e_content := "x" |}] ∧
    extracted (collect p ["<a"; "bx>"]) = [{| e_tag := true; e_content := "bx" |}].
Proof. eexists. split; [reflexivity|]. split; vm_refl. Qed.
