(* ===== verification/TaggedLine.v ===== *)
(** * Tag blocks in streamed lines

    codex-rs/utils/stream-parser: tagged_line_parser.rs and proposed_plan.rs.  A tag stands
    alone on its line; the parser holds a line back until it can tell that it is no tag.
    The reference, [tagged_segments], reads the whole text line by line. *)

From S2P Require Import Prelude Str Utf8 StreamText.

Section tagged_lines.
Context {T : Type} `{EqDecision T}.

(** ** Data *)

Record TagSpec := { t_open : string; t_close : string; t_tag : T }.

Inductive TaggedLineSegment :=
| Normal (text : string)
| TagStart (tag : T)
| TagDelta (tag : T) (text : string)
| TagEnd (tag : T).

Record TaggedLineParser := {
  tl_specs : list TagSpec;
  active_tag : option T;
  detect_tag : bool;
  line_buffer : string;
}.

Definition tagged_new (specs : list TagSpec) : TaggedLineParser :=
  {| tl_specs := specs; active_tag := None; detect_tag := true; line_buffer := EmptyString |}.

(** ** Operations *)

Definition push_segment (segments : list TaggedLineSegment) (segment : TaggedLineSegment) :
  list TaggedLineSegment :=
  match segment with
  | Normal delta =>
      if str_is_empty delta then segments
      else match last segments with
           | Some (Normal existing) => removelast segments ++ [Normal (existing +:+ delta)]
           | _ => segments ++ [Normal delta]
           end
  | TagDelta tag delta =>
      if str_is_empty delta then segments
      else match last segments with
           | Some (TagDelta existing_tag existing) =>
               if bool_decide (existing_tag = tag)
               then removelast segments ++ [TagDelta existing_tag (existing +:+ delta)]
               else segments ++ [TagDelta tag delta]
           | _ => segments ++ [TagDelta tag delta]
           end
  | TagStart tag => segments ++ [TagStart tag]
  | TagEnd tag => segments ++ [TagEnd tag]
  end.

Definition push_text (active : option T) (text : string) (segments : list TaggedLineSegment) :
  list TaggedLineSegment :=
  match active with
  | Some tag => push_segment segments (TagDelta tag text)
  | None => push_segment segments (Normal text)
  end.

Definition is_tag_prefix (specs : list TagSpec) (slug : string) : bool :=
  let slug := trim_end slug in
  existsb (λ spec, starts_with slug (t_open spec) || starts_with slug (t_close spec)) specs.

Definition match_open (specs : list TagSpec) (slug : string) : option T :=
  t_tag <$> List.find (λ spec, str_eqb (t_open spec) slug) specs.

Definition match_close (specs : list TagSpec) (slug : string) : option T :=
  t_tag <$> List.find (λ spec, str_eqb (t_close spec) slug) specs.

(** [line.strip_suffix('\n').unwrap_or(&line).trim_start().trim_end()] *)
Definition line_slug (line : string) : string :=
  trim_end (trim_start (default line (strip_suffix NL line))).

Definition finish_line (p : TaggedLineParser) (segments : list TaggedLineSegment) :
  list TaggedLineSegment * TaggedLineParser :=
  let line := line_buffer p in
  let slug := line_slug line in
  let next active :=
    {| tl_specs := tl_specs p; active_tag := active; detect_tag := true; line_buffer := EmptyString |} in
  match match_open (tl_specs p) slug, active_tag p with
  | Some tag, None => (push_segment segments (TagStart tag), next (Some tag))
  | _, _ =>
      match match_close (tl_specs p) slug with
      | Some tag =>
          if bool_decide (active_tag p = Some tag)
          then (push_segment segments (TagEnd tag), next None)
          else (push_text (active_tag p) line segments, next (active_tag p))
      | None => (push_text (active_tag p) line segments, next (active_tag p))
      end
  end.

(** One turn of the loop of [parse]: the parser, the run and the segments. *)
Definition parse_char (st : TaggedLineParser * string * list TaggedLineSegment) (ch : string) :
  TaggedLineParser * string * list TaggedLineSegment :=
  let '(p, run, segments) := st in
  if detect_tag p then
    let segments := if str_is_empty run then segments else push_text (active_tag p) run segments in
    let buffer := line_buffer p +:+ ch in
    let p1 := {| tl_specs := tl_specs p; active_tag := active_tag p; detect_tag := true; line_buffer := buffer |} in
    if str_eqb ch NL then
      let '(segments, p2) := finish_line p1 segments in (p2, EmptyString, segments)
    else
      let slug := trim_start buffer in
      if str_is_empty slug || is_tag_prefix (tl_specs p) slug then (p1, EmptyString, segments)
      else
        ({| tl_specs := tl_specs p; active_tag := active_tag p; detect_tag := false; line_buffer := EmptyString |},
         EmptyString, push_text (active_tag p) buffer segments)
  else
    let run := run +:+ ch in
    if str_eqb ch NL then
      ({| tl_specs := tl_specs p; active_tag := active_tag p; detect_tag := true; line_buffer := line_buffer p |},
       EmptyString, push_text (active_tag p) run segments)
    else (p, run, segments).

Definition tagged_parse (delta : string) (p : TaggedLineParser) : list TaggedLineSegment * TaggedLineParser :=
  let '(p', run, segments) := fold_left parse_char (chars delta) (p, EmptyString, []) in
  (if str_is_empty run then segments else push_text (active_tag p') run segments, p').

Definition tagged_finish (p : TaggedLineParser) : list TaggedLineSegment * TaggedLineParser :=
  let '(segments, active) :=
    if str_is_empty (line_buffer p) then ([], active_tag p)
    else
      let buffered := line_buffer p in
      let slug := line_slug buffered in
      match match_open (tl_specs p) slug, active_tag p with
      | Some tag, None => (push_segment [] (TagStart tag), Some tag)
      | _, _ =>
          match match_close (tl_specs p) slug with
          | Some tag =>
              if bool_decide (active_tag p = Some tag)
              then (push_segment [] (TagEnd tag), None)
              else (push_text (active_tag p) buffered [], active_tag p)
          | None => (push_text (active_tag p) buffered [], active_tag p)
          end
      end in
  (match active with Some tag => push_segment segments (TagEnd tag) | None => segments end,
   {| tl_specs := tl_specs p; active_tag := None; detect_tag := true; line_buffer := EmptyString |}).

(** ** The reference *)

(** [str::split_inclusive('\n')] *)
Fixpoint split_inclusive (s : string) : list string :=
  match s with
  | EmptyString => []
  | String a s' =>
      if byte_eqb a newline then NL :: split_inclusive s'
      else match split_inclusive s' with
           | [] => [String a EmptyString]
           | l :: ls => String a l :: ls
           end
  end.

Definition text_segment (active : option T) (text : string) : TaggedLineSegment :=
  match active with Some tag => TagDelta tag text | None => Normal text end.

(** What a whole line is: an opening tag outside a block, the closing tag of the block, or
    text. *)
Definition line_segment (specs : list TagSpec) (active : option T) (line : string) :
  TaggedLineSegment * option T :=
  match active with
  | None =>
      match match_open specs (line_slug line) with
      | Some tag => (TagStart tag, Some tag)
      | None => (Normal line, None)
      end
  | Some tag =>
      if bool_decide (match_close specs (line_slug line) = Some tag) then (TagEnd tag, None)
      else (TagDelta tag line, Some tag)
  end.

(** A block still open at the end is closed. *)
Fixpoint tagged_segments (specs : list TagSpec) (active : option T) (lines : list string) :
  list TaggedLineSegment :=
  match lines with
  | [] => match active with Some tag => [TagEnd tag] | None => [] end
  | line :: lines' =>
      let '(seg, active') := line_segment specs active line in
      seg :: tagged_segments specs active' lines'
  end.

(** ** Segments up to merging *)

Definition merge_segments (l : list TaggedLineSegment) : list TaggedLineSegment := fold_left push_segment l [].

Definition seg_equiv (l k : list TaggedLineSegment) : Prop :=
  ∀ acc, fold_left push_segment l acc = fold_left push_segment k acc.

#[global] Instance seg_equiv_equivalence : Equivalence seg_equiv.
Proof.
  split.
  - by intros l acc.
  - intros l k H acc. by rewrite H.
  - intros l k m H1 H2 acc. by rewrite H1.
Qed.

#[global] Instance seg_app_proper : Proper (seg_equiv ==> seg_equiv ==> seg_equiv) app.
Proof. intros l1 l2 Hl k1 k2 Hk acc. by rewrite !fold_left_app, Hl, Hk. Qed.

#[global] Instance seg_cons_proper x : Proper (seg_equiv ==> seg_equiv) (cons x).
Proof. intros l k H acc. apply H. Qed.

Lemma seg_equiv_merge l k : seg_equiv l k → merge_segments l = merge_segments k.
Proof. intros H. apply H. Qed.

End tagged_lines.

Arguments TagSpec : clear implicits.
Arguments TaggedLineSegment : clear implicits.
Arguments TaggedLineParser : clear implicits.

Section merging.
Context {T : Type} `{EqDecision T}.
Implicit Types (l segs acc : list (TaggedLineSegment T)) (a : option T) (sp : list (TagSpec T)).

Lemma removelast_snoc l x : removelast (l ++ [x]) = l.
Proof. induction l as [|y l IH]; [done|]. simpl. rewrite IH. by destruct l. Qed.

(** Two texts pushed one after the other are one text. *)
Lemma push_text_app acc a s t : push_text a t (push_text a s acc) = push_text a (s +:+ t) acc.
Proof.
  destruct s as [|b s]; [by destruct a|]. destruct t as [|c t]; [rewrite str_app_nil_r; by destruct a|].
  destruct a as [tag|]; unfold push_text, push_segment; simpl.
  - destruct (last acc) as [[x|x|tg x|x]|] eqn:El; rewrite ?last_snoc, ?bool_decide_eq_true_2 by done;
      rewrite ?removelast_snoc; try done.
    destruct (bool_decide (tg = tag)) eqn:Eb; rewrite ?last_snoc, ?removelast_snoc.
    + rewrite Eb, ?removelast_snoc. by rewrite <-str_app_assoc.
    + by rewrite bool_decide_eq_true_2, ?removelast_snoc by done.
  - destruct (last acc) as [[x|x|tg x|x]|] eqn:El; rewrite ?last_snoc, ?removelast_snoc; try done.
    by rewrite <-str_app_assoc.
Qed.

Lemma push_text_segment a t acc : push_text a t acc = push_segment acc (text_segment a t).
Proof. by destruct a. Qed.

Lemma text_app_equiv a s t : seg_equiv [text_segment a s; text_segment a t] [text_segment a (s +:+ t)].
Proof. intros acc. simpl. rewrite <-!push_text_segment. apply push_text_app. Qed.

Lemma text_nil_equiv a : seg_equiv [text_segment a EmptyString] [].
Proof. intros acc. by destruct a. Qed.

Lemma segment_delta_tag tag x : TagDelta tag x = text_segment (T:=T) (Some tag) x.
Proof. done. Qed.

(** Pushing onto a list merges, and so changes nothing. *)
Lemma push_segment_equiv segs x : seg_equiv (push_segment segs x) (segs ++ [x]).
Proof.
  assert (∀ l y a s t, segs = l ++ [y] → y = text_segment a s → x = text_segment a t →
    seg_equiv (l ++ [text_segment a (s +:+ t)]) (segs ++ [x])) as Hm.
  { intros l y a s t -> -> ->. rewrite <-app_assoc. simpl. by rewrite <-text_app_equiv. }
  assert (∀ a t, x = text_segment a t → t = EmptyString → seg_equiv segs (segs ++ [x])) as He.
  { intros a t -> ->. by rewrite (text_nil_equiv a), app_nil_r. }
  destruct x as [t|tag|tag t|tag]; unfold push_segment; try done.
  - destruct (str_is_empty t) eqn:Et; [apply (He None t); [done|by apply str_is_empty_true]|].
    destruct segs as [|y segs _] using rev_ind; [done|]. rewrite last_snoc, removelast_snoc.
    destruct y; try done. by eapply (Hm segs _ None).
  - destruct (str_is_empty t) eqn:Et; [apply (He (Some tag) t); [done|by apply str_is_empty_true]|].
    destruct segs as [|y segs _] using rev_ind; [done|]. rewrite last_snoc, removelast_snoc.
    destruct y; try done. case_bool_decide as Eb; [subst|done]. by eapply (Hm segs _ (Some tag)).
Qed.

Lemma push_text_equiv segs a t : seg_equiv (push_text a t segs) (segs ++ [text_segment a t]).
Proof. rewrite push_text_segment. apply push_segment_equiv. Qed.

Lemma merge_equiv l : seg_equiv (merge_segments l) l.
Proof.
  unfold merge_segments. induction l as [|x l IH] using rev_ind; [done|].
  by rewrite fold_left_app; simpl; rewrite push_segment_equiv, IH.
Qed.

(** ** Lines *)

Lemma split_inclusive_line (l s : string) :
  contains_char newline l = false → split_inclusive (l +:+ (NL +:+ s)) = (l +:+ NL) :: split_inclusive s.
Proof.
  induction l as [|b l IH]; intros Hl; [done|]. rewrite contains_char_cons in Hl.
  apply orb_false_iff in Hl as [Hb Hl]. rewrite !str_app_cons. cbn [split_inclusive].
  destruct (byte_eqb b newline) eqn:E.
  - apply byte_eqb_true in E as ->. by rewrite byte_eqb_refl in Hb.
  - by rewrite IH.
Qed.

Lemma split_inclusive_last (l : string) :
  contains_char newline l = false → l ≠ EmptyString → split_inclusive l = [l].
Proof.
  induction l as [|b l IH]; intros Hl Hne; [done|]. rewrite contains_char_cons in Hl.
  apply orb_false_iff in Hl as [Hb Hl]. cbn [split_inclusive].
  destruct (byte_eqb b newline) eqn:E.
  - apply byte_eqb_true in E as ->. by rewrite byte_eqb_refl in Hb.
  - destruct l as [|c l]; [done|]. by rewrite IH.
Qed.

(** A text is cut after its first newline, or has none. *)
Lemma cut_line s :
  (∃ (l : string) r, s = l +:+ (NL +:+ r) ∧ contains_char newline l = false) ∨ contains_char newline s = false.
Proof.
  induction s as [|b s IH]; [by right|]. rewrite contains_char_cons.
  destruct (byte_eqb newline b) eqn:E.
  - apply byte_eqb_true in E as <-. left. by exists EmptyString, s.
  - destruct IH as [(l & r & -> & Hl)|Hs]; [left|by right].
    exists (String b l), r. split; [done|]. by rewrite contains_char_cons, E.
Qed.

(** The text of the line from here on, then the lines after it. *)
Fixpoint rest_of_line sp a (s : string) : list (TaggedLineSegment T) :=
  match s with
  | EmptyString => tagged_segments sp a []
  | String b s' =>
      text_segment a (String b EmptyString) ::
      (if byte_eqb b newline then tagged_segments sp a (split_inclusive s') else rest_of_line sp a s')
  end.

Lemma rest_of_line_text sp a (l s : string) :
  contains_char newline l = false →
  seg_equiv (rest_of_line sp a (l +:+ s)) (text_segment a l :: rest_of_line sp a s).
Proof.
  induction l as [|b l IH]; intros Hl.
  - change (text_segment a EmptyString :: ?x) with ([text_segment a EmptyString] ++ x).
    by rewrite text_nil_equiv.
  - rewrite contains_char_cons in Hl. apply orb_false_iff in Hl as [Hb Hl].
    rewrite str_app_cons. cbn [rest_of_line]. destruct (byte_eqb b newline) eqn:E.
    { apply byte_eqb_true in E as ->. by rewrite byte_eqb_refl in Hb. }
    change (?x :: ?y) with ([x] ++ y) at 1. rewrite (IH Hl).
    change (String b l) with (String b EmptyString +:+ l).
    change (text_segment a (?x +:+ l) :: ?y) with ([text_segment a (x +:+ l)] ++ y).
    by rewrite <-text_app_equiv.
Qed.

Lemma rest_of_line_newline sp a s :
  seg_equiv (rest_of_line sp a (NL +:+ s)) (text_segment a NL :: tagged_segments sp a (split_inclusive s)).
Proof. done. Qed.

(** A line that is neither tag is text. *)
Lemma text_line sp a line lines :
  match_open sp (line_slug line) = None → match_close sp (line_slug line) = None →
  tagged_segments sp a (line :: lines) = text_segment a line :: tagged_segments sp a lines.
Proof.
  intros Ho Hc. cbn [tagged_segments]. unfold line_segment. rewrite Ho, Hc. by destruct a.
Qed.

End merging.

(** ** Telling that a line is no tag *)

Lemma drop_while_app_keep {A} (f : A → bool) (l k : list A) :
  drop_while f l ≠ [] → drop_while f (l ++ k) = drop_while f l ++ k.
Proof. induction l as [|x l IH]; [done|]. simpl. destruct (f x); [apply IH|done]. Qed.

Lemma forallb_drop_while {A} (f g : A → bool) (l : list A) :
  forallb g l = true → forallb g (drop_while f l) = true.
Proof. induction l as [|x l IH]; [done|]. simpl. intros [? ?]%andb_true_iff. destruct (f x); simpl; auto. by rewrite H. Qed.

Lemma chars_trim_start s :
  utf8_valid s = true → chars (trim_start s) = drop_while is_whitespace (chars s) ∧ utf8_valid (trim_start s) = true.
Proof.
  intros Hv. unfold trim_start.
  pose proof (forallb_drop_while is_whitespace char_ok _ Hv) as Hok. split; [|by apply utf8_valid_concat].
  pose proof (chars_concat _ EmptyString Hok) as H. rewrite str_app_nil_r in H. rewrite H. by rewrite app_nil_r.
Qed.

Lemma trim_start_app s t :
  utf8_valid s = true → trim_start s ≠ EmptyString → trim_start (s +:+ t) = trim_start s +:+ t.
Proof.
  intros Hv Hne. unfold trim_start in *. rewrite chars_app by done. rewrite drop_while_app_keep.
  - by rewrite concat_str_app, concat_str_chars.
  - intros H. by rewrite H in Hne.
Qed.

Lemma rtrim_app {A} (f : A → bool) (l k : list A) :
  ∃ m, reverse (drop_while f (reverse (l ++ k))) = reverse (drop_while f (reverse l)) ++ m.
Proof.
  rewrite reverse_app. induction (reverse k) as [|x r IH]; simpl; [exists []; by rewrite app_nil_r|].
  destruct (f x); [done|]. pose proof (take_drop_while f (reverse l)) as H.
  exists (reverse (take_while f (reverse l)) ++ reverse (x :: r)).
  change (x :: r ++ reverse l) with ((x :: r) ++ reverse l).
  rewrite app_assoc, <-reverse_app, H. by rewrite reverse_app, !reverse_involutive.
Qed.

Lemma trim_end_app s t : utf8_valid s = true → starts_with (trim_end s) (trim_end (s +:+ t)) = true.
Proof.
  intros Hv. unfold trim_end. rewrite chars_app by done.
  destruct (rtrim_app is_whitespace (chars s) (chars t)) as [m ->].
  rewrite concat_str_app. apply starts_with_app.
Qed.

Section disprove.
Context {T : Type} `{EqDecision T}.
Implicit Types (a : option T) (sp : list (TagSpec T)).

Lemma not_a_tag sp s t :
  utf8_valid s = true → trim_start s ≠ EmptyString → is_tag_prefix sp (trim_start s) = false →
  match_open sp (trim_end (trim_start (s +:+ t))) = None ∧
  match_close sp (trim_end (trim_start (s +:+ t))) = None.
Proof.
  intros Hv Hne Hp. rewrite trim_start_app by done.
  pose proof (chars_trim_start s Hv) as [_ Hv2]. pose proof (trim_end_app _ t Hv2) as Hpre.
  unfold is_tag_prefix in Hp. apply not_true_iff_false in Hp. rewrite existsb_exists in Hp.
  unfold match_open, match_close. split.
  - destruct (List.find _ _) as [spec|] eqn:E; [exfalso|done].
    apply List.find_some in E as [Hin He%str_eqb_true]. apply Hp. exists spec. split; [done|].
    by rewrite He, Hpre.
  - destruct (List.find _ _) as [spec|] eqn:E; [exfalso|done].
    apply List.find_some in E as [Hin He%str_eqb_true]. apply Hp. exists spec. split; [done|].
    by rewrite He, Hpre, orb_true_r.
Qed.

Lemma line_slug_newline l : line_slug (l +:+ NL) = trim_end (trim_start l).
Proof.
  unfold line_slug, strip_suffix.
  replace (ends_with NL (l +:+ NL)) with true by (symmetry; apply ends_with_true; eauto).
  rewrite str_len_app. simpl String.length. replace (_ + 1 - 1) with (String.length l) by lia.
  simpl. by rewrite str_take_app_len.
Qed.

Lemma line_slug_last l : contains_char newline l = false → line_slug l = trim_end (trim_start l).
Proof.
  intros Hl. unfold line_slug, strip_suffix. destruct (ends_with NL l) eqn:E; [|done].
  apply ends_with_true in E as [r ->]. rewrite contains_char_app in Hl.
  apply orb_false_iff in Hl as [_ Hl]. done.
Qed.

(** Once the beginning of a line is no beginning of a tag, the whole line is text. *)
Lemma disproved_line sp a s rest :
  utf8_valid s = true → contains_char newline s = false →
  trim_start s ≠ EmptyString → is_tag_prefix sp (trim_start s) = false →
  seg_equiv (tagged_segments sp a (split_inclusive (s +:+ rest)))
            (text_segment a s :: rest_of_line sp a rest).
Proof.
  intros Hv Hs Hne Hp. assert (s ≠ EmptyString) as Hsne by (by intros ->).
  destruct (cut_line rest) as [(l & r & -> & Hl)|Hl].
  - assert (contains_char newline (s +:+ l) = false) as Hsl by by rewrite contains_char_app, Hs, Hl.
    rewrite (str_app_assoc s l), split_inclusive_line by done.
    rewrite text_line by (rewrite line_slug_newline; by apply not_a_tag).
    change (text_segment a s :: ?x) with ([text_segment a s] ++ x).
    rewrite rest_of_line_text, rest_of_line_newline by done.
    change ([text_segment a s] ++ text_segment a l :: text_segment a NL :: ?x)
      with ([text_segment a s; text_segment a l] ++ [text_segment a NL] ++ x).
    rewrite text_app_equiv. rewrite app_assoc.
    change ([text_segment a (s +:+ l)] ++ [text_segment a NL]) with [text_segment a (s +:+ l); text_segment a NL].
    by rewrite text_app_equiv.
  - assert (contains_char newline (s +:+ rest) = false) as Hsl by by rewrite contains_char_app, Hs, Hl.
    rewrite split_inclusive_last; [|done|by intros [? _]%str_app_eq_nil].
    rewrite text_line by (rewrite line_slug_last by done; by apply not_a_tag).
    rewrite <-(str_app_nil_r rest) at 2. change (text_segment a s :: ?x) with ([text_segment a s] ++ x).
    rewrite rest_of_line_text by done.
    change ([text_segment a s] ++ text_segment a rest :: ?x)
      with ([text_segment a s; text_segment a rest] ++ x).
    by rewrite text_app_equiv.
Qed.

End disprove.

(** ** The parser implements the reference *)

Section parser.
Context {T : Type} `{EqDecision T}.
Implicit Types (p : TaggedLineParser T) (segs : list (TaggedLineSegment T)).

(** The line being held back is text without a newline, and only while a tag is possible. *)
Definition parser_ok p : Prop :=
  utf8_valid (line_buffer p) = true ∧ contains_char newline (line_buffer p) = false ∧
  (detect_tag p = false → line_buffer p = EmptyString).

(** What is still to come, for any continuation. *)
Definition remaining p (rest : string) : list (TaggedLineSegment T) :=
  if detect_tag p then tagged_segments (tl_specs p) (active_tag p) (split_inclusive (line_buffer p +:+ rest))
  else rest_of_line (tl_specs p) (active_tag p) rest.

Lemma finish_line_segment p segs :
  finish_line p segs =
  let '(seg, active) := line_segment (tl_specs p) (active_tag p) (line_buffer p) in
  (push_segment segs seg,
   {| tl_specs := tl_specs p; active_tag := active; detect_tag := true; line_buffer := EmptyString |}).
Proof.
  unfold finish_line, line_segment. destruct (active_tag p) as [t|] eqn:Ea.
  - destruct (match_open _ _) as [o|]; destruct (match_close _ _) as [c|]; try done;
      repeat case_bool_decide; simplify_eq; done.
  - destruct (match_open _ _) as [o|]; [done|]. by destruct (match_close _ _).
Qed.

Lemma seg_text_nil a (l k : list (TaggedLineSegment T)) :
  seg_equiv (l ++ text_segment a EmptyString :: k) (l ++ k).
Proof. rewrite cons_middle. by rewrite text_nil_equiv. Qed.

Lemma seg_text_cons a s t (l : list (TaggedLineSegment T)) :
  seg_equiv (text_segment a s :: text_segment a t :: l) (text_segment a (s +:+ t) :: l).
Proof. apply (seg_app_proper _ _ (text_app_equiv a s t) l l). done. Qed.

Lemma flush_run p run segs k :
  seg_equiv (segs ++ text_segment (active_tag p) run :: k)
    ((if str_is_empty run then segs else push_text (active_tag p) run segs) ++ k).
Proof.
  destruct (str_is_empty run) eqn:Er.
  - apply str_is_empty_true in Er as ->. apply seg_text_nil.
  - by rewrite push_text_equiv, <-app_assoc.
Qed.

(** A character while a tag is possible. *)
Lemma detect_char_step p segs c rest :
  parser_ok p → detect_tag p = true → char_ok c = true → (c = NL ∨ contains_char newline c = false) →
  let '(p', run', segs') := parse_char (p, EmptyString, segs) c in
  parser_ok p' ∧ tl_specs p' = tl_specs p ∧
  seg_equiv (segs ++ remaining p (c +:+ rest))
            (segs' ++ text_segment (active_tag p') run' :: remaining p' rest).
Proof.
  intros (Hv & Hnl & Hlb) Ed Hc Hcn. unfold parse_char. rewrite Ed. cbn [str_is_empty].
  assert (utf8_valid (line_buffer p +:+ c) = true) as Hv'
    by (apply utf8_valid_app; auto using utf8_valid_char).
  destruct (str_eqb c NL) eqn:Ec.
  - apply str_eqb_true in Ec as ->. rewrite finish_line_segment. cbn [tl_specs active_tag line_buffer].
    destruct (line_segment (tl_specs p) (active_tag p) (line_buffer p +:+ NL)) as [seg act] eqn:El.
    split; [done|]. split; [done|]. unfold remaining. cbn [tl_specs active_tag line_buffer detect_tag].
    rewrite Ed, seg_text_nil, push_segment_equiv, split_inclusive_line by done.
    cbn [tagged_segments]. rewrite El. by rewrite <-app_assoc.
  - destruct Hcn as [->|Hcn]; [done|].
    assert (contains_char newline (line_buffer p +:+ c) = false) as Hnl'
      by by rewrite contains_char_app, Hnl, Hcn.
    destruct (str_is_empty (trim_start (line_buffer p +:+ c))) eqn:Es; [|
      destruct (is_tag_prefix (tl_specs p) (trim_start (line_buffer p +:+ c))) eqn:Ep]; cbn [orb].
    1-2: split; [by repeat split|]; split; [done|]; unfold remaining;
      cbn [tl_specs active_tag line_buffer detect_tag]; by rewrite Ed, seg_text_nil, str_app_assoc.
    split; [by repeat split|]. split; [done|]. unfold remaining.
    cbn [tl_specs active_tag line_buffer detect_tag].
    rewrite Ed, seg_text_nil, push_text_equiv, str_app_assoc, disproved_line; try done;
      [by rewrite <-app_assoc|]. by apply str_is_empty_false.
Qed.

Lemma parse_char_step p run segs c rest :
  parser_ok p → char_ok c = true → (c = NL ∨ contains_char newline c = false) →
  let '(p', run', segs') := parse_char (p, run, segs) c in
  parser_ok p' ∧ tl_specs p' = tl_specs p ∧
  seg_equiv (segs ++ text_segment (active_tag p) run :: remaining p (c +:+ rest))
            (segs' ++ text_segment (active_tag p') run' :: remaining p' rest).
Proof.
  intros Hok Hc Hcn. destruct (detect_tag p) eqn:Ed.
  - pose proof (detect_char_step p (if str_is_empty run then segs else push_text (active_tag p) run segs)
      c rest Hok Ed Hc Hcn) as H.
    assert (parse_char (p, run, segs) c = parse_char (p, EmptyString,
      if str_is_empty run then segs else push_text (active_tag p) run segs) c) as ->
      by (unfold parse_char; by rewrite Ed).
    destruct (parse_char _ c) as [[p' run'] segs']. destruct H as (? & ? & H).
    split; [done|]. split; [done|]. by rewrite flush_run.
  - destruct Hok as (Hv & Hnl & Hlb). unfold parse_char, remaining. rewrite Ed.
    destruct (str_eqb c NL) eqn:Ec.
    + apply str_eqb_true in Ec as ->. rewrite Hlb in * by done. split; [done|]. split; [done|].
      cbn [tl_specs active_tag line_buffer detect_tag].
      by rewrite seg_text_nil, push_text_equiv, rest_of_line_newline, seg_text_cons, <-app_assoc.
    + destruct Hcn as [->|Hcn]; [done|]. split; [done|]. split; [done|]. rewrite Ed.
      by rewrite rest_of_line_text, seg_text_cons.
Qed.

Lemma parse_chars cs p run segs rest :
  parser_ok p → forallb char_ok cs = true →
  Forall (λ c, c ≠ NL → contains_char newline c = false) cs →
  let '(p', run', segs') := fold_left parse_char cs (p, run, segs) in
  parser_ok p' ∧ tl_specs p' = tl_specs p ∧
  seg_equiv (segs ++ text_segment (active_tag p) run :: remaining p (concat_str cs +:+ rest))
            (segs' ++ text_segment (active_tag p') run' :: remaining p' rest).
Proof.
  revert p run segs; induction cs as [|c cs IH]; intros p run segs Hp Hok Hnl; [done|].
  simpl in Hok. apply andb_true_iff in Hok as [Hc Hok]. apply Forall_cons_1 in Hnl as [Hcn Hnl].
  pose proof (parse_char_step p run segs c (concat_str cs +:+ rest) Hp Hc) as Hstep.
  cbn [fold_left]. destruct (parse_char (p, run, segs) c) as [[p1 run1] segs1].
  destruct Hstep as (Hp1 & Hsp1 & Hs1); [destruct (decide (c = NL)); auto|].
  specialize (IH p1 run1 segs1 Hp1 Hok Hnl).
  destruct (fold_left parse_char cs (p1, run1, segs1)) as [[p2 run2] segs2].
  destruct IH as (Hp2 & Hsp2 & Hs2). split; [done|]. split; [congruence|].
  simpl concat_str. rewrite <-str_app_assoc. by rewrite Hs1.
Qed.

Lemma tagged_parse_step delta p rest :
  parser_ok p → utf8_valid delta = true →
  let '(segs, p') := tagged_parse delta p in
  parser_ok p' ∧ tl_specs p' = tl_specs p ∧ seg_equiv (remaining p (delta +:+ rest)) (segs ++ remaining p' rest).
Proof.
  intros Hp Hv. pose proof (parse_chars (chars delta) p EmptyString [] rest Hp Hv (chars_newline delta)) as H.
  unfold tagged_parse. destruct (fold_left _ _ _) as [[p' run'] segs']. destruct H as (Hp' & Hsp & H).
  split; [done|]. split; [done|]. rewrite concat_str_chars in H. by rewrite <-flush_run, <-H, seg_text_nil.
Qed.

Lemma tagged_finish_spec p :
  parser_ok p →
  seg_equiv (fst (tagged_finish p)) (remaining p EmptyString) ∧ snd (tagged_finish p) = tagged_new (tl_specs p).
Proof.
  intros (Hv & Hnl & Hlb). unfold remaining, tagged_finish. rewrite str_app_nil_r.
  destruct (str_is_empty (line_buffer p)) eqn:Eb.
  { apply str_is_empty_true in Eb. rewrite Eb. split; [|done]. destruct (detect_tag p); by destruct (active_tag p). }
  destruct (detect_tag p); [|by rewrite Hlb in Eb].
  rewrite split_inclusive_last by (done || by apply str_is_empty_false).
  cbn [tagged_segments]. unfold line_segment.
  destruct (active_tag p) as [t|].
  - destruct (match_open _ _) as [o|]; destruct (match_close _ _) as [c|]; repeat case_bool_decide; simplify_eq;
      (split; [|done]); cbn [fst tagged_segments]; by rewrite ?push_segment_equiv, ?push_text_equiv.
  - destruct (match_open _ _) as [o|]; [|destruct (match_close _ _) as [c|]];
      rewrite ?(bool_decide_eq_false_2 (None = Some _)) by done; (split; [|done]); cbn [fst tagged_segments];
      by rewrite ?push_segment_equiv, ?push_text_equiv.
Qed.

(** The client's loop over a line parser. *)
Fixpoint tagged_feed p (chunks : list string) : list (TaggedLineSegment T) * TaggedLineParser T :=
  match chunks with
  | [] => ([], p)
  | c :: cs =>
      let '(segs, p1) := tagged_parse c p in
      let '(rest, p2) := tagged_feed p1 cs in
      (segs ++ rest, p2)
  end.

Lemma tagged_feed_spec chunks p :
  parser_ok p → Forall (λ c, utf8_valid c = true) chunks →
  let '(segs, p') := tagged_feed p chunks in
  parser_ok p' ∧ tl_specs p' = tl_specs p ∧
  seg_equiv (remaining p (concat_str chunks)) (segs ++ remaining p' EmptyString).
Proof.
  intros Hp Hc. revert p Hp. induction Hc as [|c cs Hc _ IH]; intros p Hp; [done|]. cbn [tagged_feed].
  pose proof (tagged_parse_step c p (concat_str cs) Hp Hc) as H.
  destruct (tagged_parse c p) as [segs p1]. destruct H as (Hp1 & Hsp1 & H). specialize (IH p1 Hp1).
  destruct (tagged_feed p1 cs) as [segs2 p2]. destruct IH as (Hp2 & Hsp2 & IH).
  split; [done|]. split; [congruence|]. simpl concat_str. rewrite H, IH. by rewrite app_assoc.
Qed.

Lemma tagged_collect chunks sp :
  Forall (λ c, utf8_valid c = true) chunks →
  let '(segs, p) := tagged_feed (tagged_new sp) chunks in
  seg_equiv (segs ++ fst (tagged_finish p)) (tagged_segments sp None (split_inclusive (concat_str chunks))) ∧
  snd (tagged_finish p) = tagged_new sp.
Proof.
  intros Hc. pose proof (tagged_feed_spec chunks (tagged_new sp)) as H.
  destruct (tagged_feed _ chunks) as [segs p]. destruct H as (Hp & Hsp & H); [done|done|].
  destruct (tagged_finish_spec p Hp) as [Hf Hn]. rewrite Hsp in Hn. split; [|done].
  rewrite Hf, <-H. done.
Qed.

End parser.

(** ** Proposed plans *)

Definition OPEN_TAG : string := "<proposed_plan>".
Definition CLOSE_TAG : string := "</proposed_plan>".

Inductive PlanTag := ProposedPlan.

#[global] Instance PlanTag_eq_dec : EqDecision PlanTag.
Proof. solve_decision. Defined.

Inductive ProposedPlanSegment :=
| PlanNormal (text : string)
| ProposedPlanStart
| ProposedPlanDelta (text : string)
| ProposedPlanEnd.

#[global] Instance ProposedPlanSegment_eq_dec : EqDecision ProposedPlanSegment.
Proof. solve_decision. Defined.

Record ProposedPlanParser := { parser : TaggedLineParser PlanTag }.

Definition plan_specs : list (TagSpec PlanTag) :=
  [{| t_open := OPEN_TAG; t_close := CLOSE_TAG; t_tag := ProposedPlan |}].

Definition plan_new : ProposedPlanParser := {| parser := tagged_new plan_specs |}.

Definition map_segment (segment : TaggedLineSegment PlanTag) : ProposedPlanSegment :=
  match segment with
  | Normal text => PlanNormal text
  | TagStart ProposedPlan => ProposedPlanStart
  | TagDelta ProposedPlan text => ProposedPlanDelta text
  | TagEnd ProposedPlan => ProposedPlanEnd
  end.

(** The loop of [map_segments]: one more segment. *)
Definition map_one (out : StreamTextChunk ProposedPlanSegment) (segment : TaggedLineSegment PlanTag) :
  StreamTextChunk ProposedPlanSegment :=
  let mapped := map_segment segment in
  {| visible_text := match mapped with
                     | PlanNormal text => visible_text out +:+ text
                     | _ => visible_text out
                     end;
     extracted := extracted out ++ [mapped] |}.

Definition map_segments (segments : list (TaggedLineSegment PlanTag)) : StreamTextChunk ProposedPlanSegment :=
  fold_left map_one segments chunk_default.

Definition plan_push_str (chunk : string) (p : ProposedPlanParser) :
  StreamTextChunk ProposedPlanSegment * ProposedPlanParser :=
  let '(segs, q) := tagged_parse chunk (parser p) in (map_segments segs, {| parser := q |}).

Definition plan_finish (p : ProposedPlanParser) : StreamTextChunk ProposedPlanSegment * ProposedPlanParser :=
  let '(segs, q) := tagged_finish (parser p) in (map_segments segs, {| parser := q |}).

#[global] Instance plan_parser : StreamTextParser ProposedPlanParser := {|
  Extracted := ProposedPlanSegment;
  push_str := plan_push_str;
  finish := plan_finish;
|}.

Definition strip_proposed_plan_blocks (text : string) : string :=
  let '(out, p) := push_str text plan_new in
  visible_text out +:+ visible_text (fst (finish p)).

(** The loop of [extract_proposed_plan_text]. *)
Definition extract_segment (st : string * bool) (segment : ProposedPlanSegment) : string * bool :=
  let '(plan_text, saw_plan_block) := st in
  match segment with
  | ProposedPlanStart => (EmptyString, true)
  | ProposedPlanDelta delta => (plan_text +:+ delta, saw_plan_block)
  | ProposedPlanEnd | PlanNormal _ => (plan_text, saw_plan_block)
  end.

Definition extract_proposed_plan_text (text : string) : option string :=
  let '(out, p) := push_str text plan_new in
  let '(tail, _) := finish p in
  let '(plan_text, saw_plan_block) :=
    fold_left extract_segment (extracted out ++ extracted tail) (EmptyString, false) in
  if saw_plan_block then Some plan_text else None.

(** ** Plans: what does not depend on the cut *)

Implicit Types l k : list (TaggedLineSegment PlanTag).

Definition unmap_segment (segment : ProposedPlanSegment) : TaggedLineSegment PlanTag :=
  match segment with
  | PlanNormal text => Normal text
  | ProposedPlanStart => TagStart ProposedPlan
  | ProposedPlanDelta text => TagDelta ProposedPlan text
  | ProposedPlanEnd => TagEnd ProposedPlan
  end.

(** Plan segments with neighbouring texts of a kind put together. *)
Definition plan_merge (segs : list ProposedPlanSegment) : list ProposedPlanSegment :=
  map_segment <$> merge_segments (unmap_segment <$> segs).

Definition plan_equiv (c d : StreamTextChunk ProposedPlanSegment) : Prop :=
  visible_text c = visible_text d ∧ plan_merge (extracted c) = plan_merge (extracted d).

#[global] Instance plan_equiv_equivalence : Equivalence plan_equiv.
Proof.
  split; unfold plan_equiv.
  - done.
  - by intros c d [-> ->].
  - by intros c d e [-> ->] [-> ->].
Qed.

(** The reference: the lines of the whole text. *)
Definition plan_reference (text : string) : StreamTextChunk ProposedPlanSegment :=
  map_segments (merge_segments (tagged_segments plan_specs None (split_inclusive text))).

Definition normal_text (x : TaggedLineSegment PlanTag) : string :=
  match x with Normal text => text | _ => EmptyString end.

Definition normal_texts l : string := concat_str (normal_text <$> l).

Lemma map_unmap_segment l : unmap_segment <$> (map_segment <$> l) = l.
Proof.
  induction l as [|x l IH]; [done|]. simpl. f_equal; [by destruct x as [?|[]|[] ?|[]]|done].
Qed.

Lemma map_segments_spec l :
  map_segments l = {| visible_text := normal_texts l; extracted := map_segment <$> l |}.
Proof.
  unfold map_segments. induction l as [|x l IH] using rev_ind; [done|].
  rewrite fold_left_app. simpl. rewrite IH. unfold map_one, normal_texts. simpl.
  rewrite !fmap_app, concat_str_app. simpl. by destruct x as [?|[]|[] ?|[]]; rewrite ?str_app_nil_r.
Qed.

Lemma normal_texts_app l k : normal_texts (l ++ k) = normal_texts l +:+ normal_texts k.
Proof. unfold normal_texts. by rewrite fmap_app, concat_str_app. Qed.

Lemma normal_texts_push l x : normal_texts (push_segment l x) = normal_texts l +:+ normal_text x.
Proof.
  assert (∀ k y, normal_texts (k ++ [y]) = normal_texts k +:+ normal_text y) as Hsnoc.
  { intros k y. rewrite normal_texts_app. unfold normal_texts; simpl. by rewrite str_app_nil_r. }
  destruct x as [t|tag|tag t|tag]; unfold push_segment; rewrite ?Hsnoc; try done.
  - destruct t as [|b t]; [simpl; by rewrite str_app_nil_r|]. cbn [str_is_empty].
    destruct l as [|y l _] using rev_ind; [apply (Hsnoc [])|]. rewrite last_snoc, removelast_snoc.
    destruct y; rewrite !Hsnoc; try done. simpl. by rewrite str_app_assoc.
  - destruct t as [|b t]; [simpl; by rewrite str_app_nil_r|]. cbn [str_is_empty].
    destruct l as [|y l _] using rev_ind; [apply (Hsnoc [])|]. rewrite last_snoc, removelast_snoc.
    destruct y; rewrite !Hsnoc; try done. case_bool_decide; rewrite !Hsnoc; simpl; by rewrite !str_app_nil_r.
Qed.

Lemma normal_texts_merge l : normal_texts (merge_segments l) = normal_texts l.
Proof.
  unfold merge_segments. induction l as [|x l IH] using rev_ind; [done|].
  rewrite fold_left_app. simpl. rewrite normal_texts_push, IH, normal_texts_app. f_equal.
  unfold normal_texts. simpl. by rewrite str_app_nil_r.
Qed.

(** The plan text gathered so far, with the flag. *)
Definition plan_text_of l : string * bool := fold_left extract_segment (map_segment <$> l) (EmptyString, false).

Lemma plan_text_snoc l x : plan_text_of (l ++ [x]) = extract_segment (plan_text_of l) (map_segment x).
Proof. unfold plan_text_of. by rewrite fmap_app, fold_left_app. Qed.

Lemma plan_text_push l x : plan_text_of (push_segment l x) = plan_text_of (l ++ [x]).
Proof.
  destruct x as [t|tag|[] t|tag]; unfold push_segment; try done.
  - destruct t as [|b t]; cbn [str_is_empty];
      [rewrite plan_text_snoc; simpl; by destruct (plan_text_of l)|].
    destruct l as [|y l _] using rev_ind; [done|]. rewrite last_snoc, removelast_snoc.
    destruct y; try done. rewrite !plan_text_snoc. simpl. by destruct (plan_text_of l).
  - destruct t as [|b t]; cbn [str_is_empty].
    { rewrite plan_text_snoc. destruct (plan_text_of l) as [s b]. unfold extract_segment; cbn [map_segment].
      by rewrite str_app_nil_r. }
    destruct l as [|y l _] using rev_ind; [done|]. rewrite last_snoc, removelast_snoc.
    destruct y as [?|?|[] ?|?]; try done. rewrite bool_decide_eq_true_2 by done.
    rewrite !plan_text_snoc. destruct (plan_text_of l) as [s c]. unfold extract_segment; cbn [map_segment].
    by rewrite str_app_assoc.
Qed.

Lemma plan_text_merge l : plan_text_of (merge_segments l) = plan_text_of l.
Proof.
  unfold merge_segments. induction l as [|x l IH] using rev_ind; [done|].
  rewrite fold_left_app. simpl. by rewrite plan_text_push, !plan_text_snoc, IH.
Qed.

Lemma plan_feed chunks p :
  feed p chunks =
  let '(segs, q) := tagged_feed (parser p) chunks in (map_segments segs, {| parser := q |}).
Proof.
  revert p; induction chunks as [|c cs IH]; intros p; [by destruct p|]. cbn [feed tagged_feed].
  simpl push_str at 1. unfold plan_push_str. destruct (tagged_parse c (parser p)) as [o q].
  rewrite IH. simpl parser. destruct (tagged_feed q cs) as [o' q'].
  rewrite !map_segments_spec. unfold chunk_append; simpl. by rewrite normal_texts_app, fmap_app.
Qed.

(** All that the plan parser puts out, as segments. *)
Lemma plan_collect_segments chunks :
  Forall (λ c, utf8_valid c = true) chunks →
  ∃ l, collect plan_new chunks = map_segments l ∧
       seg_equiv l (tagged_segments plan_specs None (split_inclusive (concat_str chunks))).
Proof.
  intros Hc. pose proof (tagged_collect chunks plan_specs Hc) as H. unfold collect. rewrite plan_feed.
  simpl parser. destruct (tagged_feed (tagged_new plan_specs) chunks) as [segs q]. destruct H as [H _].
  exists (segs ++ fst (tagged_finish q)). split; [|done]. simpl. unfold plan_finish; simpl.
  destruct (tagged_finish q) as [o q']. rewrite !map_segments_spec. unfold chunk_append; simpl.
  by rewrite normal_texts_app, fmap_app.
Qed.

Lemma plan_collect chunks :
  Forall (λ c, utf8_valid c = true) chunks →
  plan_equiv (collect plan_new chunks) (plan_reference (concat_str chunks)).
Proof.
  intros Hc. destruct (plan_collect_segments chunks Hc) as (l & -> & Hl).
  unfold plan_reference, plan_equiv, plan_merge. rewrite !map_segments_spec. simpl.
  rewrite !map_unmap_segment. split.
  - rewrite <-(normal_texts_merge l). by rewrite (seg_equiv_merge _ _ Hl).
  - f_equal. rewrite (seg_equiv_merge _ _ Hl). symmetry. apply seg_equiv_merge, merge_equiv.
Qed.

#[global] Instance plan_laws : StreamParserLaws ProposedPlanParser plan_new := {|
  chunk_equiv := plan_equiv;
  batch := plan_reference;
  collect_batch := plan_collect;
|}.

(** ** Whole texts *)

Definition whole_segments (text : string) : list (TaggedLineSegment PlanTag) :=
  tagged_segments plan_specs None (split_inclusive text).

Lemma plan_whole text :
  utf8_valid text = true →
  strip_proposed_plan_blocks text = normal_texts (whole_segments text) ∧
  extract_proposed_plan_text text =
    (let '(plan, saw) := plan_text_of (whole_segments text) in if saw : bool then Some plan else None).
Proof.
  intros Hv. destruct (plan_collect_segments [text]) as (l & Hl & Heq); [by apply Forall_singleton|].
  simpl concat_str in Heq. rewrite str_app_nil_r in Heq. fold (whole_segments text) in Heq.
  rewrite map_segments_spec in Hl. unfold collect in Hl. rewrite feed_one in Hl.
  unfold strip_proposed_plan_blocks, extract_proposed_plan_text.
  destruct (push_str text plan_new) as [o p]. destruct (finish p) as [tail q]. simpl in Hl |- *.
  injection Hl as H1 H2. rewrite H1, H2. fold (plan_text_of l).
  rewrite <-(normal_texts_merge l), <-(plan_text_merge l), (seg_equiv_merge _ _ Heq).
  by rewrite normal_texts_merge, plan_text_merge.
Qed.

(** The text is a sequence of complete lines. *)
Definition ends_line (s : string) : bool := str_is_empty s || ends_with NL s.

Lemma split_inclusive_cons a s :
  a ≠ newline → split_inclusive (String a s) =
  match split_inclusive s with [] => [String a EmptyString] | l :: ls => String a l :: ls end.
Proof. intros H. cbn [split_inclusive]. apply byte_eqb_false in H. by rewrite H. Qed.

Lemma ends_line_cons a s : a ≠ newline → ends_line (String a s) = true → s ≠ EmptyString ∧ ends_line s = true.
Proof.
  intros Ha H. unfold ends_line in *. simpl in H. apply ends_with_true in H as [r Hr].
  destruct r as [|b r]; [injection Hr; done|]. rewrite str_app_cons in Hr. injection Hr as <- ->.
  split; [by intros [_ ?]%str_app_eq_nil|]. apply orb_true_iff. right. apply ends_with_true. eauto.
Qed.

Lemma split_inclusive_app s t :
  ends_line s = true → split_inclusive (s +:+ t) = split_inclusive s ++ split_inclusive t.
Proof.
  induction s as [|a s IH]; intros Hs; [done|]. rewrite str_app_cons. destruct (decide (a = newline)) as [->|Ha].
  - cbn [split_inclusive]. rewrite byte_eqb_refl. simpl. f_equal.
    destruct s as [|b s]; [done|]. apply IH. unfold ends_line in *. simpl in Hs |- *.
    apply ends_with_true in Hs as [r Hr]. destruct r as [|c r]; [done|].
    rewrite str_app_cons in Hr. injection Hr as _ Hr. apply ends_with_true. eauto.
  - destruct (ends_line_cons a s Ha Hs) as [Hne Hs']. rewrite !split_inclusive_cons, IH by done.
    destruct (split_inclusive s) eqn:E; [|done]. destruct s as [|b s]; [done|]. cbn [split_inclusive] in E.
    destruct (byte_eqb b newline); [done|]. by destruct (split_inclusive s).
Qed.

Lemma concat_split_inclusive s : concat_str (split_inclusive s) = s.
Proof.
  induction s as [|a s IH]; [done|]. destruct (decide (a = newline)) as [->|Ha].
  - cbn [split_inclusive]. rewrite byte_eqb_refl. simpl. by rewrite IH.
  - rewrite split_inclusive_cons by done. rewrite <-IH at 2. by destruct (split_inclusive s).
Qed.

(** No line of the text is an opening tag; no line is the closing one. *)
Definition no_open_line (s : string) : bool :=
  forallb (λ line, negb (str_eqb OPEN_TAG (line_slug line))) (split_inclusive s).
Definition no_close_line (s : string) : bool :=
  forallb (λ line, negb (str_eqb CLOSE_TAG (line_slug line))) (split_inclusive s).

Lemma normal_lines lines rest :
  forallb (λ line, negb (str_eqb OPEN_TAG (line_slug line))) lines = true →
  tagged_segments plan_specs None (lines ++ rest) = (Normal <$> lines) ++ tagged_segments plan_specs None rest.
Proof.
  induction lines as [|x lines IH]; [done|]. simpl. intros [Hx%negb_true_iff Hl]%andb_true_iff.
  unfold match_open. simpl. rewrite Hx. simpl. by rewrite IH.
Qed.

Lemma delta_lines lines rest :
  forallb (λ line, negb (str_eqb CLOSE_TAG (line_slug line))) lines = true →
  tagged_segments plan_specs (Some ProposedPlan) (lines ++ rest) =
  (TagDelta ProposedPlan <$> lines) ++ tagged_segments plan_specs (Some ProposedPlan) rest.
Proof.
  induction lines as [|x lines IH]; [done|]. simpl. intros [Hx%negb_true_iff Hl]%andb_true_iff.
  unfold match_close. simpl. rewrite Hx. simpl. by rewrite IH.
Qed.

Lemma normal_texts_plain lines : normal_texts (Normal <$> lines) = concat_str lines.
Proof. unfold normal_texts. induction lines as [|x lines IH]; [done|]. simpl. by f_equal. Qed.

Lemma normal_texts_plan lines : normal_texts (TagDelta ProposedPlan <$> lines) = EmptyString.
Proof. unfold normal_texts. by induction lines. Qed.

Lemma extract_plain lines st :
  fold_left extract_segment (map_segment <$> (Normal <$> lines)) st = st.
Proof. by induction lines as [|x lines IH]; [|simpl; destruct st; apply IH]. Qed.

Lemma extract_plan lines s b :
  fold_left extract_segment (map_segment <$> (TagDelta ProposedPlan <$> lines)) (s, b) = (s +:+ concat_str lines, b).
Proof.
  revert s; induction lines as [|x lines IH]; intros s; simpl; [by rewrite str_app_nil_r|].
  by rewrite IH, str_app_assoc.
Qed.

(** A message with one plan block. *)
Definition with_plan (before plan after : string) : string :=
  before +:+ ((OPEN_TAG +:+ NL) +:+ (plan +:+ ((CLOSE_TAG +:+ NL) +:+ after))).

Lemma whole_with_plan before plan after :
  ends_line before = true → ends_line plan = true →
  no_open_line before = true → no_close_line plan = true → no_open_line after = true →
  whole_segments (with_plan before plan after) =
  (Normal <$> split_inclusive before) ++ TagStart ProposedPlan ::
  (TagDelta ProposedPlan <$> split_inclusive plan) ++ TagEnd ProposedPlan ::
  (Normal <$> split_inclusive after).
Proof.
  intros Hb Hp Hob Hcp Hoa. unfold whole_segments, with_plan.
  rewrite (split_inclusive_app before) by done. rewrite normal_lines by done. f_equal.
  rewrite (split_inclusive_app (OPEN_TAG +:+ NL)) by done.
  change (split_inclusive (OPEN_TAG +:+ NL)) with [OPEN_TAG +:+ NL]. cbn [app tagged_segments].
  change (line_segment plan_specs None (OPEN_TAG +:+ NL))
    with (TagStart (T := PlanTag) ProposedPlan, Some ProposedPlan). cbn iota. f_equal.
  rewrite (split_inclusive_app plan) by done. rewrite delta_lines by done. f_equal.
  rewrite (split_inclusive_app (CLOSE_TAG +:+ NL)) by done.
  change (split_inclusive (CLOSE_TAG +:+ NL)) with [CLOSE_TAG +:+ NL]. cbn [app tagged_segments].
  change (line_segment plan_specs (Some ProposedPlan) (CLOSE_TAG +:+ NL))
    with (TagEnd (T := PlanTag) ProposedPlan, None (A := PlanTag)). cbn iota. f_equal.
  pose proof (normal_lines (split_inclusive after) [] Hoa) as H. by rewrite !app_nil_r in H.
Qed.

(** A plan written between its tags is read back: from a message with one plan block,
    whose own lines spell none of the tags that would end or start a block there,
    [extract_proposed_plan_text] returns the plan and [strip_proposed_plan_blocks] the rest,
    both byte for byte. *)
Theorem proposed_plan_roundtrip before plan after :
  utf8_valid before = true → utf8_valid plan = true → utf8_valid after = true →
  ends_line before = true → ends_line plan = true →
  no_open_line before = true → no_close_line plan = true → no_open_line after = true →
  extract_proposed_plan_text (with_plan before plan after) = Some plan ∧
  strip_proposed_plan_blocks (with_plan before plan after) = before +:+ after.
Proof.
  intros Hvb Hvp Hva Hb Hp Hob Hcp Hoa.
  destruct (plan_whole (with_plan before plan after)) as [-> ->].
  { unfold with_plan. repeat (apply utf8_valid_app; [done|]). done. }
  rewrite whole_with_plan by done. split.
  - unfold plan_text_of. rewrite fmap_app, fold_left_app, extract_plain. cbn [fmap list_fmap fold_left].
    rewrite fmap_app, fold_left_app. cbn [extract_segment map_segment]. rewrite extract_plan.
    cbn [fmap list_fmap fold_left extract_segment map_segment]. rewrite extract_plain.
    by rewrite str_app_nil_l, concat_split_inclusive.
  - rewrite normal_texts_app, normal_texts_plain.
    change (normal_texts (TagStart ProposedPlan :: ?x)) with (normal_texts x).
    rewrite normal_texts_app, normal_texts_plan.
    change (normal_texts (TagEnd ProposedPlan :: ?x)) with (normal_texts x).
    by rewrite normal_texts_plain, !concat_split_inclusive.
Qed.

Lemma proposed_plan_roundtrip_witness :
  let before := "Here:" +:+ NL in let plan := "- step 1" +:+ NL +:+ " - <x>" +:+ NL in
  extract_proposed_plan_text (with_plan before plan "Bye") = Some plan ∧
  strip_proposed_plan_blocks (with_plan before plan "Bye") = before +:+ "Bye".
Proof. intros before plan. apply (proposed_plan_roundtrip before plan "Bye"); reflexivity. Defined.
