(* ===== verification/AssistantText.v ===== *)
(** * Streamed assistant text

    codex-rs/utils/stream-parser: assistant_text.rs.  Citations are taken out first; in plan
    mode the visible text goes on to the plan parser.  The theorem composes the promises of
    the two parsers. *)

From S2P Require Import Prelude Str Utf8 StreamText InlineTag TaggedLine.

Record AssistantTextChunk := {
  at_visible_text : string;
  at_citations : list string;
  at_plan_segments : list ProposedPlanSegment;
}.

Definition assistant_chunk_default : AssistantTextChunk :=
  {| at_visible_text := EmptyString; at_citations := []; at_plan_segments := [] |}.

Definition assistant_chunk_is_empty (c : AssistantTextChunk) : bool :=
  str_is_empty (at_visible_text c) &&
  match at_citations c with [] => true | _ => false end &&
  match at_plan_segments c with [] => true | _ => false end.

Record AssistantTextStreamParser := {
  plan_mode : bool;
  citations : CitationStreamParser;
  plan : ProposedPlanParser;
}.

Definition assistant_new (plan_mode : bool) : AssistantTextStreamParser :=
  {| plan_mode := plan_mode; citations := citation_start; plan := plan_new |}.

Definition parse_visible_text (p : AssistantTextStreamParser) (visible : string) :
  AssistantTextChunk * AssistantTextStreamParser :=
  if negb (plan_mode p) then
    ({| at_visible_text := visible; at_citations := []; at_plan_segments := [] |}, p)
  else
    let '(plan_chunk, plan') := push_str visible (plan p) in
    ({| at_visible_text := visible_text plan_chunk; at_citations := []; at_plan_segments := extracted plan_chunk |},
     {| plan_mode := plan_mode p; citations := citations p; plan := plan' |}).

Definition set_citations (cs : list string) (out : AssistantTextChunk) : AssistantTextChunk :=
  {| at_visible_text := at_visible_text out; at_citations := cs; at_plan_segments := at_plan_segments out |}.

Definition assistant_push_str (chunk : string) (p : AssistantTextStreamParser) :
  AssistantTextChunk * AssistantTextStreamParser :=
  let '(citation_chunk, cit) := push_str chunk (citations p) in
  let '(out, p') :=
    parse_visible_text {| plan_mode := plan_mode p; citations := cit; plan := plan p |}
      (visible_text citation_chunk) in
  (set_citations (extracted citation_chunk) out, p').

Definition assistant_finish (p : AssistantTextStreamParser) : AssistantTextChunk * AssistantTextStreamParser :=
  let '(citation_chunk, cit) := finish (citations p) in
  let '(out, p1) :=
    parse_visible_text {| plan_mode := plan_mode p; citations := cit; plan := plan p |}
      (visible_text citation_chunk) in
  let '(out, p2) :=
    if plan_mode p1 then
      let '(tail, plan') := finish (plan p1) in
      ((if chunk_is_empty tail then out
        else {| at_visible_text := at_visible_text out +:+ visible_text tail;
                at_citations := at_citations out;
                at_plan_segments := at_plan_segments out ++ extracted tail |}),
       {| plan_mode := plan_mode p1; citations := citations p1; plan := plan' |})
    else (out, p1) in
  (set_citations (extracted citation_chunk) out, p2).

(** ** The client's loop *)

Definition assistant_append (a b : AssistantTextChunk) : AssistantTextChunk :=
  {| at_visible_text := at_visible_text a +:+ at_visible_text b;
     at_citations := at_citations a ++ at_citations b;
     at_plan_segments := at_plan_segments a ++ at_plan_segments b |}.

Fixpoint assistant_feed (p : AssistantTextStreamParser) (chunks : list string) :
  AssistantTextChunk * AssistantTextStreamParser :=
  match chunks with
  | [] => (assistant_chunk_default, p)
  | c :: cs =>
      let '(out, p1) := assistant_push_str c p in
      let '(rest, p2) := assistant_feed p1 cs in
      (assistant_append out rest, p2)
  end.

Definition assistant_collect (p : AssistantTextStreamParser) (chunks : list string) : AssistantTextChunk :=
  let '(out, p1) := assistant_feed p chunks in
  assistant_append out (fst (assistant_finish p1)).

(** ** The visible pieces between the two parsers *)

(** The visible text of each citation push. *)
Fixpoint visible_pieces (c : CitationStreamParser) (chunks : list string) : list string :=
  match chunks with
  | [] => []
  | s :: ss => let '(out, c') := push_str s c in visible_text out :: visible_pieces c' ss
  end.

Definition all_pieces (c : CitationStreamParser) (chunks : list string) : list string :=
  visible_pieces c chunks ++ [visible_text (fst (finish (snd (feed c chunks))))].

Lemma visible_pieces_concat c chunks :
  concat_str (visible_pieces c chunks) = visible_text (fst (feed c chunks)).
Proof.
  revert c; induction chunks as [|s ss IH]; intros c; [done|]. cbn [visible_pieces feed].
  destruct (push_str s c) as [out c']. simpl. rewrite IH. by destruct (feed c' ss).
Qed.

Lemma all_pieces_concat c chunks : concat_str (all_pieces c chunks) = visible_text (collect c chunks).
Proof.
  unfold all_pieces, collect. rewrite concat_str_app, visible_pieces_concat.
  destruct (feed c chunks) as [out c']. simpl. by rewrite str_app_nil_r.
Qed.

(** Pieces of a text are texts. *)
Definition citation_ok (c : CitationStreamParser) : Prop :=
  delimiters_all text_delimiter (cit_inner c) = true ∧ openers_separate (specs (cit_inner c)) = true ∧
  utf8_valid (pending (cit_inner c)) = true.

Lemma citation_push_ok s c :
  citation_ok c → utf8_valid s = true →
  utf8_valid (visible_text (fst (push_str s c))) = true ∧ citation_ok (snd (push_str s c)).
Proof.
  intros (Hd & Hsep & Hv) Hs. simpl. unfold citation_push_str. simpl. unfold inline_push_str, inline_push.
  destruct (push_loop_scan (S (String.length (pending (cit_inner c) +:+ s)))
    (set_pending (pending (cit_inner c) +:+ s) (cit_inner c)) chunk_default)
    as (out & p' & Hp & Hsp & Hd' & Hv' & _ & Hvis & _); [done|done|by apply utf8_valid_app|simpl; lia|].
  simpl in Hp, Hsp |- *. rewrite Hp. simpl. unfold citation_ok; simpl. by rewrite Hsp.
Qed.

Lemma citation_finish_ok c : citation_ok c → utf8_valid (visible_text (fst (finish c))) = true.
Proof.
  intros (Hd & Hsep & Hv). simpl. unfold citation_finish. simpl. unfold inline_finish.
  destruct (active (cit_inner c)); [done|]. by destruct (str_is_empty (pending (cit_inner c))).
Qed.

Lemma visible_pieces_valid c chunks :
  citation_ok c → Forall (λ s, utf8_valid s = true) chunks →
  Forall (λ s, utf8_valid s = true) (all_pieces c chunks).
Proof.
  intros Hc Hv. revert c Hc. induction Hv as [|s ss Hs _ IH]; intros c Hc; unfold all_pieces.
  - apply Forall_singleton. by apply citation_finish_ok.
  - pose proof (citation_push_ok s c Hc Hs) as [H1 H2]. cbn [visible_pieces feed].
    destruct (push_str s c) as [out c']. simpl in H1, H2. specialize (IH c' H2). unfold all_pieces in IH.
    destruct (feed c' ss) as [o c2]. by constructor.
Qed.

(** ** The composition *)

Lemma assistant_feed_plan chunks c q :
  assistant_feed {| plan_mode := true; citations := c; plan := q |} chunks =
  ({| at_visible_text := visible_text (fst (feed q (visible_pieces c chunks)));
      at_citations := extracted (fst (feed c chunks));
      at_plan_segments := extracted (fst (feed q (visible_pieces c chunks))) |},
   {| plan_mode := true; citations := snd (feed c chunks); plan := snd (feed q (visible_pieces c chunks)) |}).
Proof.
  revert c q; induction chunks as [|s ss IH]; intros c q; [done|].
  cbn [assistant_feed feed visible_pieces]. unfold assistant_push_str; cbn [citations plan_mode plan].
  destruct (push_str s c) as [out c']. unfold parse_visible_text; cbn [citations plan_mode plan negb feed].
  destruct (push_str (visible_text out) q) as [o q']. rewrite IH.
  destruct (feed c' ss) as [o2 c2]. destruct (feed q' (visible_pieces c' ss)) as [o3 q3].
  by destruct out, o, o2, o3.
Qed.

Lemma assistant_feed_plain chunks c q :
  assistant_feed {| plan_mode := false; citations := c; plan := q |} chunks =
  ({| at_visible_text := visible_text (fst (feed c chunks));
      at_citations := extracted (fst (feed c chunks));
      at_plan_segments := [] |},
   {| plan_mode := false; citations := snd (feed c chunks); plan := q |}).
Proof.
  revert c q; induction chunks as [|s ss IH]; intros c q; [done|].
  cbn [assistant_feed feed]. unfold assistant_push_str; cbn [citations plan_mode plan].
  destruct (push_str s c) as [out c']. unfold parse_visible_text; cbn [citations plan_mode plan negb].
  rewrite IH. destruct (feed c' ss) as [o2 c2]. by destruct out, o2.
Qed.

Lemma chunk_is_empty_default {A} (c : StreamTextChunk A) : chunk_is_empty c = true → c = chunk_default.
Proof. destruct c as [[|b v] [|x e]]; try done. Qed.

Lemma assistant_collect_plan chunks :
  assistant_collect (assistant_new true) chunks =
  {| at_visible_text := visible_text (collect plan_new (all_pieces citation_start chunks));
     at_citations := extracted (collect citation_start chunks);
     at_plan_segments := extracted (collect plan_new (all_pieces citation_start chunks)) |}.
Proof.
  unfold assistant_collect, assistant_new. rewrite assistant_feed_plan.
  unfold all_pieces, collect. rewrite feed_app.
  destruct (feed citation_start chunks) as [o c]. destruct (feed plan_new _) as [o' q].
  rewrite feed_one. unfold assistant_finish. cbn [fst snd citations plan_mode plan].
  destruct (finish c) as [oc c']. unfold parse_visible_text. cbn [fst snd citations plan_mode plan negb].
  destruct (push_str (visible_text oc) q) as [o2 q2]. cbn [fst snd citations plan_mode plan negb].
  destruct (finish q2) as [tail q3]. cbn [fst]. destruct (chunk_is_empty tail) eqn:Et.
  - apply chunk_is_empty_default in Et as ->. rewrite chunk_append_nil_r. done.
  - unfold assistant_append, set_citations, chunk_append; simpl. by rewrite <-!str_app_assoc, <-!app_assoc.
Qed.

Lemma citation_start_state : citation_ok citation_start.
Proof. repeat split. Qed.

(** Claim C37. What a turn shows does not depend on how the model's text was streamed: over all
    chunks and the final flush, the citations are those of the reference scan of the whole
    text; outside plan mode the visible text is that scan's; in plan mode the visible text
    and the plan segments, with neighbouring pieces put together, are those of the
    line-by-line reading of what the scan leaves visible. *)
Theorem assistant_stream_spec mode chunks :
  Forall (λ c, utf8_valid c = true) chunks →
  let scanned := citation_scan (concat_str chunks) in
  let out := assistant_collect (assistant_new mode) chunks in
  at_citations out = extracted scanned ∧
  (if mode : bool then
     at_visible_text out = visible_text (plan_reference (visible_text scanned)) ∧
     plan_merge (at_plan_segments out) = plan_merge (extracted (plan_reference (visible_text scanned)))
   else at_visible_text out = visible_text scanned ∧ at_plan_segments out = []).
Proof.
  intros Hc scanned out. subst scanned out. pose proof (citation_collect chunks Hc) as Hcit.
  destruct mode.
  - rewrite assistant_collect_plan, Hcit. split; [done|]. cbn [at_visible_text at_plan_segments].
    rewrite <-Hcit, <-all_pieces_concat.
    apply plan_collect, visible_pieces_valid; [apply citation_start_state|done].
  - unfold assistant_collect, assistant_new. rewrite assistant_feed_plain.
    rewrite <-Hcit. unfold collect. destruct (feed citation_start chunks) as [o c].
    unfold assistant_finish. cbn [fst snd citations plan_mode plan].
    by destruct (finish c) as [oc c'].
Qed.

Lemma assistant_stream_spec_witness :
  let out := assistant_collect (assistant_new true)
    ["Hi<oai-mem"; "-citation>d</oai-mem-citation>" +:+ NL +:+ "<propos"; "ed_plan>" +:+ NL +:+ "- a" +:+ NL] in
  at_citations out = ["d"] ∧ at_visible_text out = "Hi" +:+ NL ∧
  plan_merge (at_plan_segments out) =
    [PlanNormal ("Hi" +:+ NL); ProposedPlanStart; ProposedPlanDelta ("- a" +:+ NL); ProposedPlanEnd].
Proof. intros out. refine (assistant_stream_spec true _ _). repeat constructor. Defined.

(** The byte parser over citations, with bytes cut anywhere. *)
Definition example_bytes : list string :=
  [String "065" (String "195" EmptyString);
   String "169" "<oai-mem-citation>" +:+ String "228" EmptyString;
   String "184" (String "173" "</oai-mem-citation>Z")].

Lemma utf8_stream_spec_witness :
  collect_bytes (utf8_new citation_start) example_bytes = Ok {| visible_text := "AéZ"; extracted := ["中"] |} ∧
  {| visible_text := "AéZ"; extracted := ["中"] |} = citation_scan "Aé<oai-mem-citation>中</oai-mem-citation>Z".
Proof.
  pose proof (utf8_stream_spec citation_start example_bytes) as H.
  split; [reflexivity|]. exact (proj2 H).
Defined.

Lemma push_bytes_rollback_witness :
  let st := {| inner := citation_start; pending_utf8 := String "195" EmptyString |} in
  push_bytes "(" st = (Err (InvalidUtf8 0 1), st) ∧ ∀ t, utf8_valid ((pending_utf8 st +:+ "(") +:+ t) = false.
Proof.
  intros st. assert (push_bytes "(" st = (Err (InvalidUtf8 0 1), st)) as H by reflexivity.
  split; [exact H|]. destruct (push_bytes_rollback "(" st _ _ H) as [_ (v & l & _ & _ & _ & _ & Hbad)]. exact Hbad.
Defined.
