(* ===== verification/ShellCommand.v ===== *)
(** * Shell commands: parsing and safety

    codex-rs/shell-command: [detect_shell_type] of shell_detect.rs, bash.rs, and the
    Linux build of command_safety/is_safe_command.rs and is_dangerous_command.rs.

    tree-sitter and its bash grammar are the parameter [BashGrammar]: for a text, perhaps a
    tree.  A node has a kind, may be named, spans bytes of the text and has children; its
    text is that span.  The walks over the tree use an explicit stack, as the source does,
    with fuel; the number of nodes is enough ([walk_loop_enough]). *)

From S2P Require Import Prelude Str Utf8 AbsPath.

(** ** shell_detect.rs *)

Inductive ShellType := Zsh | Bash | PowerShell | Sh | Cmd.

#[global] Instance ShellType_eq_dec : EqDecision ShellType.
Proof. solve_decision. Defined.

Definition shell_name (t : ShellType) : string :=
  match t with
  | Zsh => "zsh" | Bash => "bash" | PowerShell => "powershell" | Sh => "sh" | Cmd => "cmd"
  end.

(** [Path::file_name] *)
Definition path_name (path : string) : option string :=
  match last (components path) with Some (Normal n) => Some n | _ => None end.

(** Everything before the last dot of a name, if it has one. *)
Fixpoint before_last_dot (s : string) : option string :=
  match s with
  | EmptyString => None
  | String a s' =>
      match before_last_dot s' with
      | Some b => Some (String a b)
      | None => if byte_eqb a "." then Some EmptyString else None
      end
  end.

(** [Path::file_stem]: a name that only begins with a dot has no extension. *)
Definition file_stem (path : string) : option string :=
  (λ name, match before_last_dot name with
           | Some EmptyString | None => name
           | Some stem => stem
           end) <$> path_name path.

(** The names that are a shell as they stand. *)
Definition shell_literal (path : string) : option ShellType :=
  if str_eqb path "zsh" then Some Zsh
  else if str_eqb path "sh" then Some Sh
  else if str_eqb path "cmd" then Some Cmd
  else if str_eqb path "bash" then Some Bash
  else if str_eqb path "pwsh" then Some PowerShell
  else if str_eqb path "powershell" then Some PowerShell
  else None.

(** [detect_shell_type]; paths are compared by their components.  A stem that is another
    path is a shorter text, so the length of the path is fuel enough
    ([detect_loop_enough]). *)
Fixpoint detect_loop (fuel : nat) (shell_path : string) : option ShellType :=
  match fuel with
  | 0 => None
  | S fuel' =>
      match shell_literal shell_path with
      | Some t => Some t
      | None =>
          match file_stem shell_path with
          | Some stem =>
              if negb (bool_decide (components stem = components shell_path))
              then detect_loop fuel' stem else None
          | None => None
          end
      end
  end.

Definition detect_shell_type (shell_path : string) : option ShellType :=
  detect_loop (S (String.length shell_path)) shell_path.

(** ** Syntax trees *)

Inductive Node := mkNode (kind : string) (named : bool) (start_byte end_byte : nat) (children : list Node).

Definition kind (n : Node) : string := let '(mkNode k _ _ _ _) := n in k.
Definition is_named (n : Node) : bool := let '(mkNode _ b _ _ _) := n in b.
Definition start_byte (n : Node) : nat := let '(mkNode _ _ s _ _) := n in s.
Definition end_byte (n : Node) : nat := let '(mkNode _ _ _ e _) := n in e.
Definition children (n : Node) : list Node := let '(mkNode _ _ _ _ cs) := n in cs.
Definition named_children (n : Node) : list Node := List.filter is_named (children n).

Record Tree := { root_node : Node; has_error : bool }.

Class BashGrammar := { try_parse_shell : string → option Tree }.

(** [node.utf8_text(src).ok()] *)
Definition utf8_text (n : Node) (src : string) : option string :=
  let s := str_take (end_byte n - start_byte n) (str_drop (start_byte n) src) in
  if utf8_valid s then Some s else None.

Fixpoint node_count (n : Node) : nat :=
  match n with mkNode _ _ _ _ cs => S (sum_list_with node_count cs) end.

(** ** bash.rs *)

Definition ALLOWED_KINDS : list string :=
  ["program"; "list"; "pipeline"; "command"; "command_name"; "word"; "string"; "string_content";
   "raw_string"; "number"; "concatenation"].

Definition dquote : string := String double_quote EmptyString.
Definition squote : string := String single_quote EmptyString.

Definition ALLOWED_PUNCT_TOKENS : list string := ["&&"; "||"; ";"; "|"; dquote; squote].

Definition list_contains (l : list string) (s : string) : bool := existsb (str_eqb s) l.

(** The check of one node of the walk. *)
Definition node_allowed (n : Node) : bool :=
  if is_named n then list_contains ALLOWED_KINDS (kind n)
  else
    if existsb (λ c, contains c "&;|") (chars (kind n)) && negb (list_contains ALLOWED_PUNCT_TOKENS (kind n))
    then false
    else list_contains ALLOWED_PUNCT_TOKENS (kind n) || str_is_empty (trim (kind n)).

(** The walk: the top of the stack is the head of the list.  The outer [None] is running
    out of fuel, the inner one the early return. *)
Fixpoint walk_loop (fuel : nat) (stack command_nodes : list Node) : option (option (list Node)) :=
  match fuel, stack with
  | _, [] => Some (Some command_nodes)
  | 0, _ :: _ => None
  | S fuel', node :: stack' =>
      if node_allowed node then
        walk_loop fuel' (reverse (children node) ++ stack')
          (if is_named node && str_eqb (kind node) "command" then command_nodes ++ [node] else command_nodes)
      else Some None
  end.

(** [raw.strip_prefix(q).and_then(|t| t.strip_suffix(q))] *)
Definition strip_quotes (q raw : string) : option string := strip_prefix q raw ≫= strip_suffix q.

Definition parse_double_quoted_string (node : Node) (src : string) : option string :=
  if negb (str_eqb (kind node) "string") then None
  else if negb (forallb (λ part, str_eqb (kind part) "string_content") (named_children node)) then None
  else utf8_text node src ≫= strip_quotes dquote.

Definition parse_raw_string (node : Node) (src : string) : option string :=
  if negb (str_eqb (kind node) "raw_string") then None
  else utf8_text node src ≫= strip_quotes squote.

(** One part of a concatenation. *)
Definition parse_part (src : string) (part : Node) : option string :=
  if str_eqb (kind part) "word" || str_eqb (kind part) "number" then utf8_text part src
  else if str_eqb (kind part) "string" then parse_double_quoted_string part src
  else if str_eqb (kind part) "raw_string" then parse_raw_string part src
  else None.

(** One child of a command. *)
Definition parse_word (src : string) (child : Node) : option string :=
  if str_eqb (kind child) "command_name" then
    match head (named_children child) with
    | Some word_node => if str_eqb (kind word_node) "word" then utf8_text word_node src else None
    | None => None
    end
  else if str_eqb (kind child) "word" || str_eqb (kind child) "number" then utf8_text child src
  else if str_eqb (kind child) "string" then parse_double_quoted_string child src
  else if str_eqb (kind child) "raw_string" then parse_raw_string child src
  else if str_eqb (kind child) "concatenation" then
    match mapM (parse_part src) (named_children child) with
    | Some parts => let s := concat_str parts in if str_is_empty s then None else Some s
    | None => None
    end
  else None.

Definition parse_plain_command_from_node (cmd : Node) (src : string) : option (list string) :=
  if negb (str_eqb (kind cmd) "command") then None
  else mapM (parse_word src) (named_children cmd).

Definition try_parse_word_only_commands_sequence (tree : Tree) (src : string) : option (list (list string)) :=
  if has_error tree then None
  else
    match walk_loop (node_count (root_node tree)) [root_node tree] [] with
    | Some (Some command_nodes) =>
        mapM (λ node, parse_plain_command_from_node node src)
             (sort_by (λ a b, start_byte a <=? start_byte b) command_nodes)
    | _ => None
    end.

Section bash.
Context `{BashGrammar}.

Definition parse_shell_script_into_commands (script : string) : option (list (list string)) :=
  match try_parse_shell script with
  | Some tree => try_parse_word_only_commands_sequence tree script
  | None => None
  end.

Definition extract_bash_command (command : list string) : option (string * string) :=
  match command with
  | [shell; flag; script] =>
      if negb (str_eqb flag "-lc" || str_eqb flag "-c")
         || negb (match detect_shell_type shell with
                  | Some Zsh | Some Bash | Some Sh => true
                  | _ => false
                  end)
      then None else Some (shell, script)
  | _ => None
  end.

Definition parse_shell_lc_plain_commands (command : list string) : option (list (list string)) :=
  match extract_bash_command command with
  | Some (_, script) => parse_shell_script_into_commands script
  | None => None
  end.

Definition is_literal_word_or_number (node : Node) : bool :=
  if negb (str_eqb (kind node) "word" || str_eqb (kind node) "number") then false
  else match named_children node with [] => true | _ => false end.

Definition is_allowed_heredoc_attachment_kind (k : string) : bool :=
  list_contains ["heredoc_body"; "simple_heredoc_body"; "heredoc_redirect"; "herestring_redirect";
                 "redirected_statement"] k.

(** One child of the command: the words it adds. *)
Definition parse_heredoc_word (src : string) (child : Node) : option (list string) :=
  if str_eqb (kind child) "command_name" then
    match head (named_children child) with
    | Some word_node =>
        if negb (str_eqb (kind word_node) "word" || str_eqb (kind word_node) "number")
           || negb (is_literal_word_or_number word_node)
        then None else (λ w, [w]) <$> utf8_text word_node src
    | None => None
    end
  else if str_eqb (kind child) "word" || str_eqb (kind child) "number" then
    if negb (is_literal_word_or_number child) then None else (λ w, [w]) <$> utf8_text child src
  else if str_eqb (kind child) "comment" then Some []
  else if is_allowed_heredoc_attachment_kind (kind child) then Some []
  else None.

Definition parse_heredoc_command_words (cmd : Node) (src : string) : option (list string) :=
  if negb (str_eqb (kind cmd) "command") then None
  else
    match mapM (parse_heredoc_word src) (named_children cmd) with
    | Some words => match concat words with [] => None | ws => Some ws end
    | None => None
    end.

(** The two other walks look at named children only; their early returns are a found
    kind, and a second command. *)
Fixpoint kind_loop (fuel : nat) (stack : list Node) (k : string) : option bool :=
  match fuel, stack with
  | _, [] => Some false
  | 0, _ :: _ => None
  | S fuel', current :: stack' =>
      if str_eqb (kind current) k then Some true
      else kind_loop fuel' (reverse (named_children current) ++ stack') k
  end.

Definition has_named_descendant_kind (node : Node) (k : string) : bool :=
  default false (kind_loop (node_count node) [node] k).

Fixpoint single_loop (fuel : nat) (stack : list Node) (single_command : option Node) : option (option Node) :=
  match fuel, stack with
  | _, [] => Some single_command
  | 0, _ :: _ => None
  | S fuel', node :: stack' =>
      if str_eqb (kind node) "command" then
        match single_command with
        | Some _ => Some None
        | None => single_loop fuel' (reverse (named_children node) ++ stack') (Some node)
        end
      else single_loop fuel' (reverse (named_children node) ++ stack') single_command
  end.

Definition find_single_command_node (root : Node) : option Node :=
  default None (single_loop (node_count root) [root] None).

Definition parse_shell_lc_single_command_prefix (command : list string) : option (list string) :=
  match extract_bash_command command with
  | None => None
  | Some (_, script) =>
      match try_parse_shell script with
      | None => None
      | Some tree =>
          let root := root_node tree in
          if has_error tree then None
          else if negb (has_named_descendant_kind root "heredoc_redirect") then None
          else if has_named_descendant_kind root "file_redirect" then None
          else match find_single_command_node root with
               | Some command_node => parse_heredoc_command_words command_node script
               | None => None
               end
      end
  end.

End bash.

(** ** is_dangerous_command.rs *)

(** [executable_name_lookup_key], the build that is not Windows *)
Definition executable_name_lookup_key (raw : string) : option string := path_name raw.

Definition is_git_global_option_with_value (arg : string) : bool :=
  list_contains ["-C"; "-c"; "--config-env"; "--exec-path"; "--git-dir"; "--namespace";
                 "--super-prefix"; "--work-tree"] arg.

Definition is_git_global_option_with_inline_value (arg : string) : bool :=
  (starts_with "--config-env=" arg || starts_with "--exec-path=" arg || starts_with "--git-dir=" arg
   || starts_with "--namespace=" arg || starts_with "--super-prefix=" arg || starts_with "--work-tree=" arg)
  || ((starts_with "-C" arg || starts_with "-c" arg) && (2 <? String.length arg)).

(** The loop of [find_git_subcommand] from an index on. *)
Fixpoint git_scan (idx : nat) (skip_next : bool) (args subcommands : list string) : option (nat * string) :=
  match args with
  | [] => None
  | arg :: args' =>
      if skip_next then git_scan (S idx) false args' subcommands
      else if is_git_global_option_with_inline_value arg then git_scan (S idx) false args' subcommands
      else if is_git_global_option_with_value arg then git_scan (S idx) true args' subcommands
      else if str_eqb arg "--" || starts_with "-" arg then git_scan (S idx) false args' subcommands
      else if list_contains subcommands arg then Some (idx, arg)
      else None
  end.

Definition find_git_subcommand (command subcommands : list string) : option (nat * string) :=
  match command with
  | [] => None
  | cmd0 :: args =>
      if bool_decide (executable_name_lookup_key cmd0 = Some "git") then git_scan 1 false args subcommands
      else None
  end.

Fixpoint is_dangerous_to_call_with_exec (command : list string) : bool :=
  match command with
  | [] => false
  | cmd0 :: args =>
      if str_eqb cmd0 "rm" then
        match args with
        | a :: _ => str_eqb a "-f" || str_eqb a "-rf"
        | [] => false
        end
      else if str_eqb cmd0 "sudo" then is_dangerous_to_call_with_exec args
      else false
  end.

Definition command_might_be_dangerous `{BashGrammar} (command : list string) : bool :=
  is_dangerous_to_call_with_exec command ||
  match parse_shell_lc_plain_commands command with
  | Some all_commands => existsb is_dangerous_to_call_with_exec all_commands
  | None => false
  end.

(** ** is_safe_command.rs *)

Inductive GitOptionPattern :=
| Exact (option : string)
| ShortWithInlineValue (option : string)
| Prefix (prefix : string).

Definition pattern_matches (p : GitOptionPattern) (arg : string) : bool :=
  match p with
  | Exact option => str_eqb arg option
  | ShortWithInlineValue option => starts_with option arg && (String.length option <? String.length arg)
  | Prefix prefix => starts_with prefix arg
  end.

Definition UNSAFE_GIT_GLOBAL_OPTIONS : list GitOptionPattern :=
  [Exact "-C"; ShortWithInlineValue "-C"; Exact "-c"; ShortWithInlineValue "-c"; Exact "-p";
   Exact "--config-env"; Prefix "--config-env="; Exact "--exec-path"; Prefix "--exec-path=";
   Exact "--git-dir"; Prefix "--git-dir="; Exact "--namespace"; Prefix "--namespace=";
   Exact "--paginate"; Exact "--super-prefix"; Prefix "--super-prefix="; Exact "--work-tree";
   Prefix "--work-tree="].

Definition UNSAFE_GIT_SUBCOMMAND_OPTIONS : list GitOptionPattern :=
  [Exact "--output"; Prefix "--output="; Exact "--ext-diff"; Exact "--textconv"; Exact "--exec"; Prefix "--exec="].

Definition git_matches_option_pattern (arg : string) (patterns : list GitOptionPattern) : bool :=
  existsb (λ p, pattern_matches p arg) patterns.

Definition git_has_unsafe_global_option (global_args : list string) : bool :=
  existsb (λ arg, git_matches_option_pattern arg UNSAFE_GIT_GLOBAL_OPTIONS) global_args.

Definition git_subcommand_args_are_read_only (args : list string) : bool :=
  negb (existsb (λ arg, git_matches_option_pattern arg UNSAFE_GIT_SUBCOMMAND_OPTIONS) args).

Definition branch_flag_read_only (arg : string) : bool :=
  list_contains ["--list"; "-l"; "--show-current"; "-a"; "--all"; "-r"; "--remotes"; "-v"; "-vv"; "--verbose"] arg
  || starts_with "--format=" arg.

(** The loop of [git_branch_is_read_only]. *)
Fixpoint branch_loop (saw_read_only_flag : bool) (args : list string) : bool :=
  match args with
  | [] => saw_read_only_flag
  | arg :: args' => if branch_flag_read_only arg then branch_loop true args' else false
  end.

Definition git_branch_is_read_only (branch_args : list string) : bool :=
  match branch_args with [] => true | _ => branch_loop false branch_args end.

Definition safe_git_subcommands : list string := ["status"; "log"; "diff"; "show"; "branch"].

Definition is_safe_git_command (command : list string) : bool :=
  match find_git_subcommand command safe_git_subcommands with
  | None => false
  | Some (subcommand_idx, subcommand) =>
      let global_args := take (subcommand_idx - 1) (drop 1 command) in
      if git_has_unsafe_global_option global_args then false
      else
        let subcommand_args := drop (S subcommand_idx) command in
        if list_contains ["status"; "log"; "diff"; "show"] subcommand
        then git_subcommand_args_are_read_only subcommand_args
        else if str_eqb subcommand "branch"
        then git_subcommand_args_are_read_only subcommand_args && git_branch_is_read_only subcommand_args
        else false
  end.

Definition all_digits (s : string) : bool := forallb is_ascii_digit (as_bytes s).

Definition is_valid_sed_n_arg (arg : option string) : bool :=
  match arg with
  | None => false
  | Some s =>
      match strip_suffix "p" s with
      | None => false
      | Some core =>
          match split_char ","%char core with
          | [num] => negb (str_is_empty num) && all_digits num
          | [a; b] => negb (str_is_empty a) && negb (str_is_empty b) && all_digits a && all_digits b
          | _ => false
          end
      end
  end.

Definition always_safe : list string :=
  ["cat"; "cd"; "cut"; "echo"; "expr"; "false"; "grep"; "head"; "id"; "ls"; "nl"; "paste"; "pwd"; "rev";
   "seq"; "stat"; "tail"; "tr"; "true"; "uname"; "uniq"; "wc"; "which"; "whoami"].

Definition UNSAFE_BASE64_OPTIONS : list string := ["-o"; "--output"].

Definition UNSAFE_FIND_OPTIONS : list string :=
  ["-exec"; "-execdir"; "-ok"; "-okdir"; "-delete"; "-fls"; "-fprint"; "-fprint0"; "-fprintf"].

Definition UNSAFE_RIPGREP_OPTIONS_WITH_ARGS : list string := ["--pre"; "--hostname-bin"].
Definition UNSAFE_RIPGREP_OPTIONS_WITHOUT_ARGS : list string := ["--search-zip"; "-z"].

Definition base64_arg_unsafe (arg : string) : bool :=
  list_contains UNSAFE_BASE64_OPTIONS arg || starts_with "--output=" arg
  || (starts_with "-o" arg && negb (str_eqb arg "-o")).

Definition ripgrep_arg_unsafe (arg : string) : bool :=
  list_contains UNSAFE_RIPGREP_OPTIONS_WITHOUT_ARGS arg
  || existsb (λ opt, str_eqb arg opt || starts_with (opt +:+ "=") arg) UNSAFE_RIPGREP_OPTIONS_WITH_ARGS.

Definition is_safe_to_call_with_exec (command : list string) : bool :=
  match command with
  | [] => false
  | cmd0 :: args =>
      match executable_name_lookup_key cmd0 with
      | None => false
      | Some cmd =>
          if list_contains ["numfmt"; "tac"] cmd then true
          else if list_contains always_safe cmd then true
          else if str_eqb cmd "base64" then negb (existsb base64_arg_unsafe args)
          else if str_eqb cmd "find" then negb (existsb (list_contains UNSAFE_FIND_OPTIONS) command)
          else if str_eqb cmd "rg" then negb (existsb ripgrep_arg_unsafe command)
          else if str_eqb cmd "git" then is_safe_git_command command
          else if str_eqb cmd "sed" then
            (length command <=? 4) && bool_decide (command !! 1 = Some "-n") && is_valid_sed_n_arg (command !! 2)
          else false
      end
  end.

Definition zsh_to_bash (s : string) : string := if str_eqb s "zsh" then "bash" else s.

Definition is_known_safe_command `{BashGrammar} (command : list string) : bool :=
  let command := zsh_to_bash <$> command in
  is_safe_to_call_with_exec command ||
  match parse_shell_lc_plain_commands command with
  | Some all_commands =>
      negb (match all_commands with [] => true | _ => false end) && forallb is_safe_to_call_with_exec all_commands
  | None => false
  end.
