(* ===== verification/ShellSafety.v ===== *)
(** * What the shell-command checks guarantee

    The walks over a syntax tree end and look at every node; the safelist and the danger
    list never disagree; what the git and sed checks accept, exactly. *)

From S2P Require Import Prelude Str Utf8 AbsPath ShellCommand.

(** ** Shell detection *)

Lemma before_last_dot_len s b : before_last_dot s = Some b → String.length b < String.length s.
Proof.
  revert b; induction s as [|a s IH]; intros b; simpl; [done|].
  destruct (before_last_dot s) as [b'|]; [intros [= <-]; simpl; specialize (IH b' eq_refl); lia|].
  destruct (byte_eqb a "."); intros; simplify_eq; simpl; lia.
Qed.

Lemma split_char_len c s p : p ∈ split_char c s → String.length p ≤ String.length s.
Proof.
  revert p; induction s as [|a s IH]; intros p; simpl.
  { intros ->%list_elem_of_singleton. simpl. lia. }
  destruct (byte_eqb a c) eqn:E.
  - intros [->|Hp]%elem_of_cons; [simpl; lia|]. specialize (IH _ Hp). lia.
  - destruct (split_char c s) as [|x l] eqn:El; [by apply split_char_nonempty in El|].
    intros [->|Hp]%elem_of_cons; simpl.
    + specialize (IH x ltac:(left)). lia.
    + specialize (IH p ltac:(by right)). lia.
Qed.

Lemma path_name_elem path n : path_name path = Some n → n ∈ split_char slash path ∧ name_component n = Some (Normal n).
Proof.
  unfold path_name. destruct (last (components path)) as [[| | |m]|] eqn:E; try done. intros [= ->].
  apply last_Some_elem_of in E. unfold components in E.
  assert (∀ l : list string, Normal n ∈ omap name_component l → n ∈ l ∧ name_component n = Some (Normal n)) as Haux.
  { intros l (x & Hx & Hn)%list_elem_of_omap. unfold name_component in *.
    destruct (str_is_empty x || str_eqb x ".") eqn:E1; [done|]. destruct (str_eqb x "..") eqn:E2; [done|].
    injection Hn as ->. by rewrite E1, E2. }
  destruct (is_absolute path).
  - apply elem_of_cons in E as [?|E]; [done|]. by apply Haux.
  - apply elem_of_app in E as [E|E]; [|by apply Haux].
    exfalso. repeat case_match; set_solver.
Qed.

Lemma split_char_single_len c s p :
  p ∈ split_char c s → String.length p = String.length s → p = s.
Proof.
  revert p; induction s as [|a s IH]; intros p; simpl.
  { by intros ->%list_elem_of_singleton. }
  destruct (byte_eqb a c) eqn:E.
  - intros [->|Hp]%elem_of_cons; [done|]. apply split_char_len in Hp. simpl. lia.
  - destruct (split_char c s) as [|x l] eqn:El; [by apply split_char_nonempty in El|].
    intros [->|Hp]%elem_of_cons; simpl; intros Hl.
    + f_equal. apply IH; [left|lia].
    + assert (String.length p ≤ String.length s); [|lia].
      apply (split_char_len c). rewrite El. by right.
Qed.

(** A stem that is not the path itself is shorter. *)
Lemma file_stem_shorter path stem :
  file_stem path = Some stem → components stem ≠ components path → String.length stem < String.length path.
Proof.
  unfold file_stem. destruct (path_name path) as [n|] eqn:En; [|done]. simpl. intros [= <-] Hc.
  apply path_name_elem in En as [Hin _]. pose proof (split_char_len _ _ _ Hin) as Hl.
  destruct (before_last_dot n) as [[|a b]|] eqn:Eb.
  - destruct (decide (String.length n = String.length path)) as [He|]; [|lia].
    by rewrite (split_char_single_len _ _ _ Hin He) in Hc.
  - apply before_last_dot_len in Eb. lia.
  - destruct (decide (String.length n = String.length path)) as [He|]; [|lia].
    by rewrite (split_char_single_len _ _ _ Hin He) in Hc.
Qed.

Lemma detect_loop_enough path f g :
  String.length path < f → String.length path < g → detect_loop f path = detect_loop g path.
Proof.
  revert path g; induction f as [|f IH]; intros path g Hf Hg; [lia|]. destruct g as [|g]; [lia|].
  simpl. destruct (shell_literal path); [done|]. destruct (file_stem path) as [stem|] eqn:Es; [|done].
  case_bool_decide as Hc; [done|]. simpl. pose proof (file_stem_shorter _ _ Es Hc). apply IH; lia.
Qed.

(** The equation of the source. *)
Lemma detect_shell_type_eq path :
  detect_shell_type path =
  match shell_literal path with
  | Some t => Some t
  | None =>
      match file_stem path with
      | Some stem => if negb (bool_decide (components stem = components path)) then detect_shell_type stem else None
      | None => None
      end
  end.
Proof.
  unfold detect_shell_type at 1. cbn [detect_loop]. destruct (shell_literal path); [done|].
  destruct (file_stem path) as [stem|] eqn:Es; [|done]. case_bool_decide as Hc; [done|]. simpl.
  pose proof (file_stem_shorter _ _ Es Hc). apply detect_loop_enough; lia.
Qed.

(** ** Walking a syntax tree *)

(** Induction over a node and its children. *)
Fixpoint node_ind' (P : Node → Prop)
    (step : ∀ k nm s e cs, Forall P cs → P (mkNode k nm s e cs)) (n : Node) : P n :=
  match n with
  | mkNode k nm s e cs =>
      step k nm s e cs
        ((fix go (l : list Node) : Forall P l :=
            match l with [] => Forall_nil_2 P | c :: l' => Forall_cons_2 P c l' (node_ind' P step c) (go l') end) cs)
  end.

(** The nodes of a tree, each before its children; [f] chooses the children to look at. *)
Fixpoint nodes_with (f : Node → bool) (n : Node) : list Node :=
  match n with
  | mkNode _ _ _ _ cs => n :: concat (List.map (λ c, if f c then nodes_with f c else []) cs)
  end.

Definition nodes : Node → list Node := nodes_with (λ _, true).

(** The order in which a stack visits them: the last child first. *)
Fixpoint stack_order (f : Node → bool) (n : Node) : list Node :=
  match n with
  | mkNode _ _ _ _ cs => n :: concat (reverse (List.map (λ c, if f c then stack_order f c else []) cs))
  end.

Lemma concat_reverse_perm {A} (l : list (list A)) : concat (reverse l) ≡ₚ concat l.
Proof.
  induction l as [|x l IH]; [done|]. rewrite reverse_cons, concat_app. simpl. rewrite IH, app_nil_r.
  apply Permutation_app_comm.
Qed.

Lemma stack_order_perm f n : stack_order f n ≡ₚ nodes_with f n.
Proof.
  induction n as [k nm s e cs IH] using node_ind'. cbn [stack_order nodes_with]. constructor.
  rewrite concat_reverse_perm.
  induction IH as [|c cs Hc _ IHl]; [done|]. simpl. rewrite IHl. destruct (f c); [by rewrite Hc|done].
Qed.

Lemma stack_order_children f n :
  stack_order f n = n :: concat (List.map (stack_order f) (reverse (List.filter f (children n)))).
Proof.
  destruct n as [k nm s e cs]. simpl. f_equal. induction cs as [|c cs IH]; [done|]. simpl.
  rewrite reverse_cons, concat_app, IH. destruct (f c); simpl; rewrite ?app_nil_r; [|done].
  by rewrite reverse_cons, map_app, concat_app; simpl; rewrite app_nil_r.
Qed.

Lemma sum_filter_le f (cs : list Node) :
  sum_list_with node_count (reverse (List.filter f cs)) ≤ sum_list_with node_count cs.
Proof.
  rewrite sum_list_with_reverse. induction cs as [|c cs IH]; simpl; [lia|]. destruct (f c); simpl; lia.
Qed.

Lemma node_count_children n : node_count n = S (sum_list_with node_count (children n)).
Proof. by destruct n. Qed.

Definition is_command_node (n : Node) : bool := is_named n && str_eqb (kind n) "command".

(** With fuel for every node the walk returns, has looked at every node, and has kept the
    command nodes. *)
Lemma walk_loop_enough fuel stack acc :
  sum_list_with node_count stack ≤ fuel →
  let seen := concat (List.map (stack_order (λ _, true)) stack) in
  walk_loop fuel stack acc =
  Some (if forallb node_allowed seen then Some (acc ++ List.filter is_command_node seen) else None).
Proof.
  cbv zeta. revert stack acc; induction fuel as [|fuel IH]; intros [|n stack] acc Hf; simpl walk_loop.
  - simpl. by rewrite app_nil_r.
  - simpl in Hf. rewrite node_count_children in Hf. lia.
  - simpl. by rewrite app_nil_r.
  - simpl in Hf. rewrite node_count_children in Hf. cbn [List.map concat].
    rewrite stack_order_children. cbn [app forallb List.filter].
    destruct (node_allowed n) eqn:Ea; [|done]. cbn [andb].
    assert (List.filter (λ _ : Node, true) (children n) = children n) as Hall by by apply filter_all.
    pose proof (sum_filter_le (λ _, true) (children n)) as Hs. rewrite Hall in *.
    rewrite IH by (rewrite sum_list_with_app; lia).
    rewrite map_app, concat_app. fold (is_command_node n). destruct (is_command_node n); [|done].
    destruct (forallb node_allowed _); [|done]. by rewrite <-app_assoc.
Qed.

Lemma kind_loop_enough fuel stack k :
  sum_list_with node_count stack ≤ fuel →
  kind_loop fuel stack k =
  Some (existsb (λ n, str_eqb (kind n) k) (concat (List.map (stack_order is_named) stack))).
Proof.
  revert stack; induction fuel as [|fuel IH]; intros [|n stack] Hf; simpl kind_loop; try done.
  - simpl in Hf. rewrite node_count_children in Hf. lia.
  - simpl in Hf. rewrite node_count_children in Hf. cbn [List.map concat].
    rewrite stack_order_children. cbn [app existsb]. destruct (str_eqb (kind n) k) eqn:Ek; [done|].
    pose proof (sum_filter_le is_named (children n)) as Hs. unfold named_children.
    rewrite IH by (rewrite sum_list_with_app; lia). by rewrite map_app, concat_app.
Qed.

(** [has_named_descendant_kind] is what it says. *)
Lemma has_named_descendant_spec n k :
  has_named_descendant_kind n k = true ↔ ∃ m, m ∈ nodes_with is_named n ∧ kind m = k.
Proof.
  unfold has_named_descendant_kind. rewrite kind_loop_enough by (simpl; lia). simpl.
  rewrite app_nil_r, existsb_exists. setoid_rewrite str_eqb_true. setoid_rewrite <-list_elem_of_In.
  by setoid_rewrite (stack_order_perm is_named n).
Qed.

Lemma strongly_sorted_weaken {A} (R S : A → A → Prop) l :
  (∀ a b, R a b → S a b) → StronglySorted R l → StronglySorted S l.
Proof. intros HRS. induction 1; constructor; [done|]. eapply Forall_impl; naive_solver. Qed.

(** The command nodes of a tree, in the order of the text. *)
Definition command_nodes (root : Node) : list Node :=
  sort_by (λ a b, start_byte a <=? start_byte b)
    (List.filter is_command_node (stack_order (λ _, true) root)).

Lemma command_nodes_perm root : command_nodes root ≡ₚ List.filter is_command_node (nodes root).
Proof. unfold command_nodes. rewrite sort_by_perm. apply Permutation_filter_bool, stack_order_perm. Qed.

Lemma command_nodes_sorted root : StronglySorted (λ a b, start_byte a ≤ start_byte b) (command_nodes root).
Proof.
  eapply strongly_sorted_weaken, sort_by_sorted.
  - intros a b. apply Nat.leb_le.
  - intros a b. rewrite !Nat.leb_le. lia.
  - intros a b c. rewrite !Nat.leb_le. lia.
Qed.

(** The word-only reading of a script is exact.  It accepts a tree if and only if the tree
    has no error, every node of it, at any depth, is one of the allowed kinds or operators,
    and every command node reads as plain words; and then the commands are those of all the
    command nodes, in the order of the text.  In particular no command is left out of the
    safety and policy checks, and the walk always ends. *)
Theorem word_only_commands_exact tree src cmds :
  command_nodes (root_node tree) ≡ₚ List.filter is_command_node (nodes (root_node tree)) ∧
  StronglySorted (λ a b, start_byte a ≤ start_byte b) (command_nodes (root_node tree)) ∧
  (try_parse_word_only_commands_sequence tree src = Some cmds ↔
   has_error tree = false ∧ Forall (λ n, node_allowed n = true) (nodes (root_node tree)) ∧
   Forall2 (λ n words, parse_plain_command_from_node n src = Some words)
     (command_nodes (root_node tree)) cmds).
Proof.
  split; [apply command_nodes_perm|]. split; [apply command_nodes_sorted|].
  unfold try_parse_word_only_commands_sequence. rewrite walk_loop_enough by (simpl; lia).
  cbn [List.map concat app]. rewrite app_nil_r. fold (command_nodes (root_node tree)).
  pose proof (stack_order_perm (λ _, true) (root_node tree)) as Hp. fold nodes in Hp.
  destruct (has_error tree); [naive_solver|]. rewrite <-Hp, Forall_forall.
  destruct (forallb node_allowed _) eqn:Ea.
  - rewrite forallb_forall in Ea. setoid_rewrite <-list_elem_of_In in Ea. rewrite mapM_Some. naive_solver.
  - split; [done|]. intros (_ & Hall & _). exfalso. apply not_true_iff_false in Ea. apply Ea.
    apply forallb_forall. intros n Hn. by apply Hall, list_elem_of_In.
Qed.

(** ** The safelist and the danger list *)

(** Every name that may be safe. *)
Definition safe_names : list string :=
  ["numfmt"; "tac"] ++ always_safe ++ ["base64"; "find"; "rg"; "git"; "sed"].

Lemma list_contains_elem l s : list_contains l s = true ↔ s ∈ l.
Proof.
  unfold list_contains. rewrite existsb_exists. setoid_rewrite str_eqb_true. rewrite list_elem_of_In. naive_solver.
Qed.

Lemma safe_exec_name cmd0 args :
  is_safe_to_call_with_exec (cmd0 :: args) = true → ∃ n, path_name cmd0 = Some n ∧ n ∈ safe_names.
Proof.
  unfold is_safe_to_call_with_exec, executable_name_lookup_key, safe_names.
  destruct (path_name cmd0) as [n|]; [|done]. intros H. exists n. split; [done|].
  rewrite !elem_of_app, <-!list_contains_elem.
  destruct (list_contains ["numfmt"; "tac"] n); [by left|].
  destruct (list_contains always_safe n); [by right; left|]. right; right.
  apply list_contains_elem.
  repeat match type of H with (if str_eqb n ?x then _ else _) = _ =>
    let E := fresh in destruct (str_eqb n x) eqn:E; [apply str_eqb_true in E as ->; set_solver|] end. done.
Qed.

(** Safe names are plain names without an extension, no shells, and neither [rm] nor [sudo]. *)
Definition plain_safe_name (n : string) : bool :=
  bool_decide (path_name n = Some n) && bool_decide (before_last_dot n = None) &&
  bool_decide (shell_literal n = None) && negb (str_eqb n "rm") && negb (str_eqb n "sudo").

Lemma safe_names_plain n : n ∈ safe_names → plain_safe_name n = true.
Proof.
  assert (forallb plain_safe_name safe_names = true) as H by vm_refl.
  rewrite forallb_forall in H. intros Hn. by apply H, list_elem_of_In.
Qed.

(** A program with a safe name is no shell. *)
Lemma safe_name_no_shell cmd0 n :
  path_name cmd0 = Some n → n ∈ safe_names → detect_shell_type cmd0 = None ∧ cmd0 ≠ "rm" ∧ cmd0 ≠ "sudo".
Proof.
  intros Hn Hin%safe_names_plain. unfold plain_safe_name in Hin.
  apply andb_true_iff in Hin as [[[[H1 H2]%andb_true_iff H3]%andb_true_iff H4]%andb_true_iff H5].
  apply bool_decide_eq_true in H1, H2, H3. apply negb_true_iff, str_eqb_false in H4, H5.
  assert (∀ s, path_name s = Some s → n ≠ s → cmd0 ≠ s) as Hne by (intros s Hs Hns ->; congruence).
  assert (file_stem n = Some n) as Hstem by (unfold file_stem; by rewrite H1; simpl; rewrite H2).
  split; [|split; apply Hne; done].
  rewrite detect_shell_type_eq. replace (shell_literal cmd0) with (@None ShellType).
  - unfold file_stem. rewrite Hn. simpl. rewrite H2. case_bool_decide; [done|]. simpl.
    rewrite detect_shell_type_eq, H3, Hstem. by rewrite bool_decide_eq_true_2.
  - symmetry. unfold shell_literal in *.
    repeat match goal with |- context [str_eqb cmd0 ?s] =>
      destruct (str_eqb cmd0 s) eqn:E;
      [exfalso; apply str_eqb_true in E; subst cmd0; vm_compute in Hn; injection Hn as <-; vm_compute in H3; done|clear E]
    end. done.
Qed.

Lemma dangerous_exec_head cmd0 args :
  is_dangerous_to_call_with_exec (cmd0 :: args) = true → cmd0 = "rm" ∨ cmd0 = "sudo".
Proof.
  simpl. destruct (str_eqb cmd0 "rm") eqn:E1; [left; by apply str_eqb_true|].
  destruct (str_eqb cmd0 "sudo") eqn:E2; [right; by apply str_eqb_true|done].
Qed.

Lemma safe_exec_not_dangerous command :
  is_safe_to_call_with_exec command = true → is_dangerous_to_call_with_exec command = false.
Proof.
  destruct command as [|cmd0 args]; [done|]. intros (n & Hn & Hin)%safe_exec_name.
  destruct (safe_name_no_shell _ _ Hn Hin) as (_ & Hrm & Hsudo).
  apply not_true_iff_false. by intros [?|?]%dangerous_exec_head.
Qed.

Section safety.
Context `{BashGrammar}.

(** The words of a parsed command are cut out of the script. *)
Definition made_of (src w : string) : Prop := ∀ a, a ∈ as_bytes w → a ∈ as_bytes src.

Lemma made_of_piece src p w q : src = p +:+ w +:+ q → made_of src w.
Proof. intros -> a Ha. rewrite !as_bytes_app, !elem_of_app. tauto. Qed.

Lemma text_made_of n src w : utf8_text n src = Some w → made_of src w.
Proof.
  unfold utf8_text. destruct (utf8_valid _); [|done]. intros [= <-].
  eapply (made_of_piece src (str_take (start_byte n) src) _ _).
  by rewrite str_take_drop, str_take_drop.
Qed.

Lemma quotes_made_of src q raw w : made_of src raw → strip_quotes q raw = Some w → made_of src w.
Proof.
  unfold strip_quotes. intros Hraw. destruct (strip_prefix q raw) as [t|] eqn:E1; [|done]. simpl.
  unfold strip_suffix. destruct (ends_with q t); [|done]. intros [= <-]. apply strip_prefix_some in E1.
  intros a Ha. apply Hraw. rewrite E1, as_bytes_app, elem_of_app. right.
  rewrite <-(str_take_drop (String.length t - String.length q) t), as_bytes_app, elem_of_app. by left.
Qed.

Lemma string_made_of n src w : parse_double_quoted_string n src = Some w → made_of src w.
Proof.
  unfold parse_double_quoted_string. destruct (negb _); [done|]. destruct (negb _); [done|].
  destruct (utf8_text n src) as [raw|] eqn:E; [|done]. simpl. apply quotes_made_of. by eapply text_made_of.
Qed.

Lemma raw_made_of n src w : parse_raw_string n src = Some w → made_of src w.
Proof.
  unfold parse_raw_string. destruct (negb _); [done|].
  destruct (utf8_text n src) as [raw|] eqn:E; [|done]. simpl. apply quotes_made_of. by eapply text_made_of.
Qed.

Lemma word_made_of src n w : parse_word src n = Some w → made_of src w.
Proof.
  unfold parse_word. destruct (str_eqb (kind n) "command_name").
  { destruct (head _) as [x|]; [|done]. destruct (str_eqb _ _); [apply text_made_of|done]. }
  destruct (_ || _); [apply text_made_of|]. destruct (str_eqb _ _); [apply string_made_of|].
  destruct (str_eqb _ _); [apply raw_made_of|]. destruct (str_eqb _ _); [|done].
  destruct (mapM _ _) as [parts|] eqn:E; [|done]. destruct (str_is_empty _); [done|]. intros [= <-].
  apply mapM_Some_1 in E. induction E as [|x part xs parts Hx E IH]; [by intros a ?%not_elem_of_nil|].
  intros a. change (concat_str (part :: parts)) with (part +:+ concat_str parts). rewrite as_bytes_app, elem_of_app.
  intros [Ha|Ha]; [|by apply IH]. revert a Ha. change (made_of src part). unfold parse_part in Hx.
  destruct (_ || _); [by eapply text_made_of|]. destruct (str_eqb _ _); [by eapply string_made_of|].
  destruct (str_eqb _ _); [by eapply raw_made_of|done].
Qed.

(** A script that lacks a letter of rm and one of sudo has no dangerous command. *)
Lemma script_made_of script cmds cmd0 args :
  parse_shell_script_into_commands script = Some cmds → cmd0 :: args ∈ cmds → made_of script cmd0.
Proof.
  unfold parse_shell_script_into_commands, try_parse_word_only_commands_sequence.
  destruct (try_parse_shell script) as [tree|]; [|done]. destruct (has_error tree); [done|].
  destruct (walk_loop _ _ _) as [[nodes|]|]; [|done..]. intros E%mapM_Some_1 Hc.
  apply list_elem_of_lookup_1 in Hc as [i Hi]. destruct (Forall2_lookup_r _ _ _ _ _ E Hi) as (n & _ & Hn).
  unfold parse_plain_command_from_node in Hn. destruct (negb _); [done|]. apply mapM_Some_1 in Hn.
  apply Forall2_cons_inv_r in Hn as (x & xs & Hx & _ & _). by eapply word_made_of.
Qed.

Lemma zsh_script_harmless cmds :
  parse_shell_script_into_commands "zsh" = Some cmds → existsb is_dangerous_to_call_with_exec cmds = false.
Proof.
  intros Hp. apply not_true_iff_false. intros (c & Hc%list_elem_of_In & Hd)%existsb_exists.
  destruct c as [|cmd0 args]; [done|]. pose proof (script_made_of _ _ _ _ Hp Hc) as Hm.
  apply dangerous_exec_head in Hd as [->| ->].
  - by specialize (Hm "r"%char (list_elem_of_here _ _)); apply list_elem_of_In in Hm; simpl in Hm; decompose [or] Hm.
  - specialize (Hm "u"%char (list_elem_of_further _ _ _ (list_elem_of_here _ _))).
    apply list_elem_of_In in Hm; simpl in Hm; by decompose [or] Hm.
Qed.

(** The commands of the script do not depend on which of zsh and bash runs it. *)
Lemma plain_commands_zsh command :
  command !! 2 ≠ Some "zsh" →
  parse_shell_lc_plain_commands (zsh_to_bash <$> command) = parse_shell_lc_plain_commands command.
Proof.
  intros Hz. unfold parse_shell_lc_plain_commands, extract_bash_command.
  destruct command as [|shell [|flag [|script [|x command]]]]; try done. simpl.
  assert (zsh_to_bash script = script) as ->.
  { unfold zsh_to_bash. destruct (str_eqb script "zsh") eqn:E; [|done].
    apply str_eqb_true in E as ->. done. }
  assert (∀ s, str_eqb s "zsh" = false → str_eqb (zsh_to_bash flag) s = str_eqb flag s ∨ flag = "zsh") as Hf.
  { intros s _. unfold zsh_to_bash. destruct (str_eqb flag "zsh") eqn:E; [right; by apply str_eqb_true|by left]. }
  destruct (decide (flag = "zsh")) as [->|Hflag]; [done|].
  destruct (Hf "-lc" eq_refl) as [->|?]; [|done]. destruct (Hf "-c" eq_refl) as [->|?]; [|done].
  destruct (decide (shell = "zsh")) as [->|Hs].
  - destruct (str_eqb flag "-lc"), (str_eqb flag "-c"); done.
  - replace (zsh_to_bash shell) with shell; [done|]. unfold zsh_to_bash.
    apply str_eqb_false in Hs. by rewrite Hs.
Qed.

(** A direct call of rm or sudo is no safe call and no script. *)
Lemma known_safe_exec command :
  is_known_safe_command command = true → is_dangerous_to_call_with_exec command = false.
Proof.
  intros Hsafe. apply not_true_iff_false. intros Hd. destruct command as [|cmd0 args]; [done|].
  apply dangerous_exec_head in Hd. unfold is_known_safe_command in Hsafe. rewrite fmap_cons in Hsafe.
  assert (zsh_to_bash cmd0 = cmd0) as Hz by (by destruct Hd as [->| ->]). rewrite Hz in Hsafe.
  apply orb_true_iff in Hsafe as [(n & Hn & Hin)%safe_exec_name|Hsafe].
  - destruct (safe_name_no_shell _ _ Hn Hin) as (_ & ? & ?). by destruct Hd.
  - unfold parse_shell_lc_plain_commands, extract_bash_command in Hsafe.
    destruct args as [|flag [|script [|x args]]]; try done. cbn [fmap list_fmap] in Hsafe.
    by destruct Hd as [->| ->]; rewrite orb_true_r in Hsafe.
Qed.

Lemma known_safe_not_dangerous command :
  is_known_safe_command command = true → command_might_be_dangerous command = false.
Proof.
  intros Hsafe. unfold command_might_be_dangerous. apply orb_false_iff. split; [by apply known_safe_exec|].
  destruct (decide (command !! 2 = Some "zsh")) as [Hz|Hz].
  - destruct (parse_shell_lc_plain_commands command) as [cmds|] eqn:Ep; [|done].
    unfold parse_shell_lc_plain_commands, extract_bash_command in Ep.
    destruct command as [|shell [|flag [|script [|x command]]]]; try done. injection Hz as ->.
    destruct (_ || _); [done|]. by apply zsh_script_harmless.
  - unfold is_known_safe_command in Hsafe. rewrite plain_commands_zsh in Hsafe by done.
    apply orb_true_iff in Hsafe as [Hsafe|Hsafe].
    + destruct command as [|cmd0 args]; [done|]. rewrite fmap_cons in Hsafe.
      apply safe_exec_name in Hsafe as (n & Hn & Hin).
      assert (zsh_to_bash cmd0 = cmd0) as Hcmd0.
      { unfold zsh_to_bash in *. destruct (str_eqb cmd0 "zsh"); [|done]. vm_compute in Hn. injection Hn as <-.
        by apply list_contains_elem in Hin. }
      rewrite Hcmd0 in Hn. destruct (safe_name_no_shell _ _ Hn Hin) as (Hd & _).
      unfold parse_shell_lc_plain_commands, extract_bash_command.
      destruct args as [|flag [|script [|x args]]]; try done. by rewrite Hd, orb_true_r.
    + destruct (parse_shell_lc_plain_commands command) as [cmds|]; [|done].
      apply andb_true_iff in Hsafe as [_ Hall].
      apply not_true_iff_false. intros (c & Hc & Hdc)%existsb_exists. rewrite forallb_forall in Hall.
      by rewrite (safe_exec_not_dangerous c (Hall c Hc)) in Hdc.
Qed.

(** Claim C17. No command is both known to be safe and feared to be dangerous: what runs without
    asking because of the safelist is never what the danger list wants to ask about, neither
    as a direct call nor as any command of a [bash -lc] script, whatever the grammar makes of
    the script (although the safelist reads the word zsh as bash and the danger list does
    not). *)
Theorem safe_not_dangerous command :
  is_known_safe_command command = true → command_might_be_dangerous command = false.
Proof. apply known_safe_not_dangerous. Qed.

End safety.

(** ** git *)

(** An option git reads as its own that the check lets pass. *)
Definition harmless_global_option (arg : string) : bool :=
  starts_with "-" arg && negb (git_matches_option_pattern arg UNSAFE_GIT_GLOBAL_OPTIONS).

Lemma existsb_elem {A} (f : A → bool) (l : list A) x : x ∈ l → f x = true → existsb f l = true.
Proof. intros Hin%list_elem_of_In Hf. apply existsb_exists. eauto. Qed.

(** Every option that takes a value of its own is refused. *)
Lemma value_option_unsafe arg :
  is_git_global_option_with_inline_value arg || is_git_global_option_with_value arg = true →
  git_matches_option_pattern arg UNSAFE_GIT_GLOBAL_OPTIONS = true.
Proof.
  unfold git_matches_option_pattern. intros [H|H]%orb_true_iff.
  - unfold is_git_global_option_with_inline_value in H.
    repeat match goal with
    | H : _ || _ = true |- _ => apply orb_true_iff in H as [H|H]
    | H : _ && _ = true |- _ => apply andb_true_iff in H as [H ?]
    | H : starts_with (String "-" (String "-" ?p)) arg = true |- _ =>
        by apply (existsb_elem _ _ (Prefix (String "-" (String "-" p)))); [set_solver|]
    end.
    + apply (existsb_elem _ _ (ShortWithInlineValue "-C")); [set_solver|]. simpl. by rewrite H.
    + apply (existsb_elem _ _ (ShortWithInlineValue "-c")); [set_solver|]. simpl. by rewrite H.
  - unfold is_git_global_option_with_value in H. apply list_contains_elem in H.
    apply (existsb_elem _ _ (Exact arg)); [|simpl; apply str_eqb_refl].
    revert H. unfold UNSAFE_GIT_GLOBAL_OPTIONS. rewrite !elem_of_cons. set_solver.
Qed.

Lemma harmless_not_value arg :
  harmless_global_option arg = true →
  is_git_global_option_with_inline_value arg = false ∧ is_git_global_option_with_value arg = false ∧
  starts_with "-" arg = true.
Proof.
  intros [Hd Hn%negb_true_iff]%andb_true_iff.
  assert (is_git_global_option_with_inline_value arg || is_git_global_option_with_value arg = false)
    as [? ?]%orb_false_iff; [|done].
  apply not_true_iff_false. intros Hv%value_option_unsafe. congruence.
Qed.

(** The scan stops at the first word that is no option. *)
Lemma git_scan_spec idx args subs i sub :
  git_scan idx false args subs = Some (i, sub) → git_has_unsafe_global_option (take (i - idx) args) = false →
  ∃ opts rest, args = opts ++ sub :: rest ∧ i = idx + length opts ∧ sub ∈ subs ∧
    starts_with "-" sub = false ∧ Forall (λ a, harmless_global_option a = true) opts.
Proof.
  revert idx; induction args as [|a args IH]; intros idx; cbn [git_scan]; [done|].
  assert (∀ b, git_scan (S idx) b args subs = Some (i, sub) → S idx ≤ i) as Hge.
  { clear. revert idx; induction args as [|a args IH]; intros idx b; cbn [git_scan]; [done|].
    repeat case_match; intros Hs; simplify_eq; try lia; apply IH in Hs; lia. }
  destruct (is_git_global_option_with_inline_value a) eqn:Ei.
  { intros Hs Hu. specialize (Hge _ Hs). replace (i - idx) with (S (i - S idx)) in Hu by lia.
    unfold git_has_unsafe_global_option in Hu. cbn [take existsb] in Hu.
    by rewrite value_option_unsafe in Hu by by rewrite Ei. }
  destruct (is_git_global_option_with_value a) eqn:Ev.
  { intros Hs Hu. specialize (Hge _ Hs). replace (i - idx) with (S (i - S idx)) in Hu by lia.
    unfold git_has_unsafe_global_option in Hu. cbn [take existsb] in Hu.
    by rewrite value_option_unsafe in Hu by by rewrite Ev, orb_true_r. }
  destruct (str_eqb a "--" || starts_with "-" a) eqn:Ed.
  - intros Hs Hu. specialize (Hge _ Hs). replace (i - idx) with (S (i - S idx)) in Hu by lia.
    unfold git_has_unsafe_global_option in Hu. cbn [take existsb] in Hu. apply orb_false_iff in Hu as [Hua Hu].
    destruct (IH (S idx) Hs Hu) as (opts & rest & -> & -> & Hin & Hsub & Hopts).
    exists (a :: opts), rest. simpl. split_and!; [done|lia|done|done|]. constructor; [|done].
    unfold harmless_global_option. rewrite Hua, andb_true_r.
    apply orb_true_iff in Ed as [->%str_eqb_true|Ed]; done.
  - apply orb_false_iff in Ed as [_ Ed]. destruct (list_contains subs a) eqn:Ec; [|done].
    intros [= <- <-] _. exists [], args. apply list_contains_elem in Ec. simpl. split_and!; auto with lia.
Qed.

Lemma git_scan_complete idx opts sub rest subs :
  Forall (λ a, harmless_global_option a = true) opts → sub ∈ subs → starts_with "-" sub = false →
  git_scan idx false (opts ++ sub :: rest) subs = Some (idx + length opts, sub).
Proof.
  intros Hopts Hin Hsub. revert idx; induction Hopts as [|a opts Ha _ IH]; intros idx; cbn [app git_scan].
  - assert (∀ p, starts_with (String "-" p) sub = false) as Hp.
    { intros p. apply not_true_iff_false. intros [r ->]%starts_with_true.
      apply not_true_iff_false in Hsub. apply Hsub, starts_with_true. by exists (p +:+ r). }
    unfold is_git_global_option_with_inline_value. rewrite !Hp. simpl.
    replace (is_git_global_option_with_value sub) with false.
    + replace (str_eqb sub "--") with false.
      * apply list_contains_elem in Hin. rewrite Hin. simpl. do 2 f_equal. lia.
      * symmetry. apply str_eqb_false. by intros ->.
    + symmetry. apply not_true_iff_false. intros Hv%list_contains_elem. revert Hv.
      rewrite !elem_of_cons, elem_of_nil. intros Hv.
      repeat destruct Hv as [->|Hv]; try done.
  - destruct (harmless_not_value _ Ha) as (Hi & Hv & Hd). rewrite Hi, Hv, Hd, orb_true_r, IH. simpl.
    do 2 f_equal. lia.
Qed.

(** What may follow the subcommand. *)
Definition subcommand_args_ok (sub : string) (args : list string) : Prop :=
  Forall (λ a, git_matches_option_pattern a UNSAFE_GIT_SUBCOMMAND_OPTIONS = false) args ∧
  (sub = "branch" → Forall (λ a, branch_flag_read_only a = true) args).

Lemma branch_loop_spec b args :
  branch_loop b args = true ↔ Forall (λ a, branch_flag_read_only a = true) args ∧ (args = [] → b = true).
Proof.
  revert b; induction args as [|a args IH]; intros b; cbn [branch_loop].
  - split; [intros ->; by split|intros [_ H]; by apply H].
  - rewrite Forall_cons. destruct (branch_flag_read_only a); [rewrite IH; naive_solver|naive_solver].
Qed.

Lemma branch_read_only_spec args :
  git_branch_is_read_only args = true ↔ Forall (λ a, branch_flag_read_only a = true) args.
Proof.
  destruct args as [|a args]; [split; [constructor|done]|]. unfold git_branch_is_read_only.
  rewrite branch_loop_spec. naive_solver.
Qed.

Lemma args_read_only_spec args :
  git_subcommand_args_are_read_only args = true ↔
  Forall (λ a, git_matches_option_pattern a UNSAFE_GIT_SUBCOMMAND_OPTIONS = false) args.
Proof.
  unfold git_subcommand_args_are_read_only. rewrite negb_true_iff, Forall_forall. split.
  - intros H a Ha. apply not_true_iff_false. intros Hm. by rewrite (existsb_elem _ _ a Ha Hm) in H.
  - intros H. apply not_true_iff_false. intros (a & Ha & Hm)%existsb_exists.
    by rewrite H in Hm by by apply list_elem_of_In.
Qed.

Lemma safe_subcommand_check sub args :
  sub ∈ safe_git_subcommands →
  (if list_contains ["status"; "log"; "diff"; "show"] sub then git_subcommand_args_are_read_only args
   else if str_eqb sub "branch" then git_subcommand_args_are_read_only args && git_branch_is_read_only args
   else false) = true ↔ subcommand_args_ok sub args.
Proof.
  unfold safe_git_subcommands, subcommand_args_ok. rewrite !elem_of_cons, elem_of_nil. intros Hs.
  repeat destruct Hs as [->|Hs]; simpl; rewrite ?andb_true_iff, ?args_read_only_spec, ?branch_read_only_spec;
    naive_solver.
Qed.

(** A git call counts as safe exactly when git itself would read it as one of the read-only
    subcommands: the program's name is git; every word before the subcommand is an option,
    none of which sets a directory, a configuration value, a pager or a path, or takes the
    next word as its value; the subcommand is the first word that is no option; and none of
    its arguments writes a file or runs a program, for [git branch] all of them being known
    listing flags. *)
Theorem safe_git_iff command :
  is_safe_git_command command = true ↔
  ∃ cmd0 opts sub args, command = cmd0 :: opts ++ sub :: args ∧ path_name cmd0 = Some "git" ∧
    Forall (λ a, harmless_global_option a = true) opts ∧ sub ∈ safe_git_subcommands ∧
    subcommand_args_ok sub args.
Proof.
  unfold is_safe_git_command, find_git_subcommand, executable_name_lookup_key. split.
  - destruct command as [|cmd0 args]; [done|]. case_bool_decide as Hg; [|done].
    destruct (git_scan 1 false args safe_git_subcommands) as [[i sub]|] eqn:Es; [|done].
    change (drop 1 (cmd0 :: args)) with args. destruct (git_has_unsafe_global_option _) eqn:Eu; [done|].
    destruct (git_scan_spec _ _ _ _ _ Es Eu) as (opts & rest & -> & -> & Hin & Hsub & Hopts).
    rewrite (safe_subcommand_check sub _ Hin). intros Hok.
    exists cmd0, opts, sub, rest. split_and!; try done.
    replace (drop _ _) with rest in Hok; [done|].
    change (S (1 + length opts)) with (S (S (length opts))). cbn [drop].
    change (sub :: rest) with ([sub] ++ rest). rewrite app_assoc, drop_app_length'; [done|].
    rewrite length_app; simpl; lia.
  - intros (cmd0 & opts & sub & args & -> & Hg & Hopts & Hin & Hok).
    rewrite bool_decide_eq_true_2 by done.
    assert (starts_with "-" sub = false) as Hsub.
    { revert Hin. unfold safe_git_subcommands. rewrite !elem_of_cons, elem_of_nil. intros Hs.
      by repeat destruct Hs as [->|Hs]. }
    rewrite git_scan_complete by done.
    change (drop 1 (cmd0 :: opts ++ sub :: args)) with (opts ++ sub :: args).
    replace (1 + length opts - 1) with (length opts) by lia. rewrite take_app_length.
    replace (git_has_unsafe_global_option opts) with false.
    + rewrite (safe_subcommand_check sub _ Hin). change (S (1 + length opts)) with (S (S (length opts))).
      cbn [drop]. change (sub :: args) with ([sub] ++ args). rewrite app_assoc, drop_app_length'; [done|].
      rewrite length_app; simpl; lia.
    + symmetry. apply not_true_iff_false. intros (a & Ha & Hm)%existsb_exists. apply list_elem_of_In in Ha.
      rewrite Forall_forall in Hopts. apply Hopts, andb_true_iff in Ha as [_ Ha].
      by rewrite Hm in Ha.
Qed.

(** ** sed *)

Definition number (s : string) : Prop := s ≠ EmptyString ∧ all_digits s = true.

Lemma number_no_comma s : all_digits s = true → contains_char "," s = false.
Proof.
  induction s as [|a s IH]; [done|]. unfold all_digits. simpl. intros [Ha Hs]%andb_true_iff.
  rewrite contains_char_cons, (IH Hs), orb_false_r. apply byte_eqb_false. by intros <-.
Qed.

(** The sed check accepts exactly the arguments its comment describes: an optional line
    number with a comma, a line number, and the letter p. *)
Theorem sed_arg_iff s :
  is_valid_sed_n_arg (Some s) = true ↔
  ∃ b, number b ∧ (s = b +:+ "p" ∨ ∃ a, number a ∧ s = a +:+ ("," +:+ (b +:+ "p"))).
Proof.
  unfold is_valid_sed_n_arg, strip_suffix, number. split.
  - destruct (ends_with "p" s) eqn:Ee; [|done]. apply ends_with_true in Ee as [core ->].
    rewrite str_len_app. replace (_ + _ - _) with (String.length core) by (simpl; lia). rewrite str_take_app_len.
    pose proof (join_split_char ","%char core) as Hj.
    destruct (split_char ","%char core) as [|x [|y [|z l]]]; try done.
    + simpl in Hj. subst x. intros [H1%negb_true_iff H2]%andb_true_iff. apply str_is_empty_false in H1. eauto.
    + simpl in Hj. intros [[[H1%negb_true_iff H2%negb_true_iff]%andb_true_iff H3]%andb_true_iff H4]%andb_true_iff.
      rewrite str_is_empty_false in H1, H2. exists y. split; [done|]. right. exists x. split; [done|].
      rewrite <-Hj. by rewrite <-!str_app_assoc.
  - intros (b & [Hb1 Hb2] & Hs). apply str_is_empty_false in Hb1 as Hb3.
    assert (∀ core, s = core +:+ "p" → ends_with "p" s = true ∧ str_take (String.length s - 1) s = core) as Hcore.
    { intros core ->. split; [apply ends_with_true; eauto|].
      rewrite str_len_app. replace (_ + _ - _) with (String.length core) by (simpl; lia). apply str_take_app_len. }
    destruct Hs as [Hs|(a & [Ha1 Ha2] & Hs)].
    + destruct (Hcore b Hs) as [He Ht]. rewrite He. simpl String.length. rewrite Ht.
      rewrite split_char_single by by apply number_no_comma. by rewrite Hb3, Hb2.
    + destruct (Hcore (a +:+ ("," +:+ b)) ltac:(by rewrite Hs, <-!str_app_assoc)) as [He Ht].
      rewrite He. simpl String.length. rewrite Ht. apply str_is_empty_false in Ha1 as Ha3.
      pose proof (split_char_join ","%char [a; b] ltac:(done)
        ltac:(by repeat constructor; apply number_no_comma)) as Hsp.
      simpl in Hsp. change ("," +:+ b) with (String ","%char EmptyString +:+ b).
      rewrite Hsp. by rewrite Ha3, Hb3, Ha2, Hb2.
Qed.

(** ** Witnesses and examples *)

(** The tree of a script that is one command of words: for running examples only. *)
Definition word_tree (words : list (nat * nat)) (len : nat) : Tree :=
  let word := λ '(s, e), mkNode "word" true s e [] in
  let args := match words with
              | [] => []
              | w :: ws => mkNode "command_name" true w.1 w.2 [word w] :: (word <$> ws)
              end in
  {| root_node := mkNode "program" true 0 len [mkNode "command" true 0 len args]; has_error := false |}.

Definition sample_grammar : BashGrammar :=
  {| try_parse_shell script :=
       if str_eqb script "ls -l" then Some (word_tree [(0, 2); (3, 5)] 5)
       else if str_eqb script "rm -rf x" then Some (word_tree [(0, 2); (3, 6); (7, 8)] 8)
       else None |}.

Lemma safe_not_dangerous_witness :
  @command_might_be_dangerous sample_grammar ["/bin/zsh"; "-lc"; "ls -l"] = false ∧
  @is_known_safe_command sample_grammar ["/bin/zsh"; "-lc"; "ls -l"] = true.
Proof. split; [apply (@safe_not_dangerous sample_grammar); done|reflexivity]. Defined.

Example danger_in_script :
  @command_might_be_dangerous sample_grammar ["bash"; "-c"; "rm -rf x"] = true ∧
  detect_shell_type "/usr/bin/bash.exe" = Some Bash ∧ detect_shell_type "bash/" = None ∧
  is_safe_git_command ["git"; "--no-pager"; "log"; "-1"] = true ∧
  is_safe_git_command ["git"; "-c"; "core.pager=x"; "log"] = false ∧
  is_safe_to_call_with_exec ["sed"; "-n"; "1,20p"; "f"] = true.
Proof. repeat split; vm_refl. Qed.

(** Short flags written together are not taken apart: [-nz] turns on the decompression tools
    that the check means to keep out with [-z]. *)
Example ripgrep_joined_flags :
  is_safe_to_call_with_exec ["rg"; "-z"; "x"] = false ∧ is_safe_to_call_with_exec ["rg"; "-nz"; "x"] = true.
Proof. split; vm_refl. Qed.
