(* ===== verification/PathFacts.v ===== *)
(** * Paths as paths

    Two texts that are the same path, component by component, resolve to the same absolute
    path, and joining a plain name adds that name: the facts about AbsPath.v that clients
    which compare paths rely on. *)

From S2P Require Import Prelude Str Json AbsPath.

(** What normalisation reads of a text: whether it is rooted, and its names. *)
Definition steps (s : string) : list Component := omap name_component (split_char slash s).

Definition path_sig (s : string) : bool * list Component := (is_absolute s, steps s).

Definition join_sig (base path : bool * list Component) : bool * list Component :=
  if path.1 then path else (base.1, base.2 ++ path.2).

Lemma name_component_not_special n c : name_component n = Some c → c ≠ RootDir ∧ c ≠ CurDir.
Proof. unfold name_component. intros E. by repeat case_match; simplify_eq/=. Qed.

Lemma steps_not_special s : Forall (λ c, c ≠ RootDir ∧ c ≠ CurDir) (steps s).
Proof.
  apply Forall_forall. intros c (n & _ & Hc)%list_elem_of_omap. by eapply name_component_not_special.
Qed.

(** The component before the names: a root, the dot of a relative path, or none. *)
Definition lead (s : string) : option Component :=
  if is_absolute s then Some RootDir
  else match head (split_char slash s) with
       | Some n => if str_eqb n "." then Some CurDir else None
       | None => None
       end.

Lemma components_lead s : components s = option_list (lead s) ++ steps s.
Proof.
  unfold components, lead, steps. destruct (is_absolute s); [done|].
  destruct (split_char slash s) as [|n l]; [done|]. cbn [head].
  destruct (str_eqb n ".") eqn:E; [by apply str_eqb_true in E as ->|]. f_equal.
  apply str_eqb_false in E. by repeat case_match.
Qed.

Lemma lead_special s c : lead s = Some c → c = RootDir ∨ c = CurDir.
Proof. unfold lead. crush_match; naive_solver. Qed.

(** The components determine the lead and the names. *)
Lemma components_inj s s' : components s = components s' → lead s = lead s' ∧ steps s = steps s'.
Proof.
  rewrite !components_lead. intros Hc.
  pose proof (steps_not_special s) as Hs. pose proof (steps_not_special s') as Hs'.
  destruct (lead s) as [c|] eqn:E, (lead s') as [c'|] eqn:E'; simpl in Hc.
  - by simplify_eq.
  - rewrite <-Hc in Hs'. inversion Hs' as [|?? [??] _]; subst. by destruct (lead_special _ _ E).
  - rewrite Hc in Hs. inversion Hs as [|?? [??] _]; subst. by destruct (lead_special _ _ E').
  - done.
Qed.

Lemma lead_sig s s' : lead s = lead s' → is_absolute s = is_absolute s'.
Proof. unfold lead. intros E. destruct (is_absolute s), (is_absolute s'); by repeat case_match; simplify_eq/=. Qed.

Lemma normalize_sig s s' : path_sig s = path_sig s' → normalize_path s = normalize_path s'.
Proof.
  intros [= Ha Hst]. unfold normalize_path. rewrite !components_lead, <-Hst. unfold lead. rewrite <-Ha.
  destruct (is_absolute s); [done|].
  assert (∀ n l, fold_left push_component
      (option_list (match n with Some n => if str_eqb n "." then Some CurDir else None | None => None end) ++ l)
      {| rooted := false; names := [] |} =
    fold_left push_component l {| rooted := false; names := [] |}) as Hf.
  { intros [n|] l; [|done]. by destruct (str_eqb n "."). }
  by rewrite !Hf.
Qed.

(** ** Joining *)

Lemma steps_app s t : steps (s +:+ ("/" +:+ t)) = steps s ++ steps t.
Proof.
  unfold steps. change ("/" +:+ t) with (String slash t). by rewrite split_char_app_mid, omap_app.
Qed.

Lemma absolute_app s t : s ≠ EmptyString → is_absolute (s +:+ t) = is_absolute s.
Proof.
  intros Hs. unfold is_absolute. destruct s as [|a s]; [done|].
  destruct (starts_with "/" (String a s)) eqn:E; [by apply starts_with_app_r|].
  apply not_true_iff_false. intros Ht. apply starts_with_app_inv in Ht; [congruence|simpl; lia].
Qed.

Lemma path_join_sig base path : path_sig (path_join base path) = join_sig (path_sig base) (path_sig path).
Proof.
  unfold path_join, path_sig, join_sig. simpl. destruct (is_absolute path) eqn:Ha; [by rewrite Ha|].
  destruct (str_is_empty base) eqn:He; [apply str_is_empty_true in He as ->; by rewrite Ha|].
  assert (base ≠ EmptyString) as Hb by (by intros ->).
  destruct (ends_with "/" base) eqn:E.
  - apply ends_with_true in E as [b ->]. rewrite absolute_app by done. f_equal.
    rewrite <-str_app_assoc. rewrite steps_app.
    change (b +:+ "/") with (b +:+ ("/" +:+ EmptyString)). rewrite steps_app.
    by rewrite app_nil_r.
  - by rewrite absolute_app, steps_app.
Qed.

Lemma absolutize_sig p q base :
  path_sig p = path_sig q → absolutize_from p base = absolutize_from q base.
Proof.
  intros Hs. apply normalize_sig. unfold path_with_base. pose proof Hs as [= Ha _]. rewrite <-Ha.
  destruct (is_absolute p); [done|]. by rewrite !path_join_sig, Hs.
Qed.

(** ** Home expansion *)

(** The names of a text that begins with a tilde and a slash, or is a tilde. *)
Lemma tilde_split p :
  head (split_char slash p) = Some "~" ↔ p = "~" ∨ ∃ r, p = "~" +:+ ("/" +:+ r).
Proof.
  split.
  - destruct (split_char slash p) as [|n l] eqn:E; [done|]. intros [= ->].
    rewrite <-(join_split_char slash p), E. destruct l as [|m l]; [by left|right].
    exists (join (String slash EmptyString) (m :: l)). by rewrite join_cons.
  - by intros [->|[r ->]].
Qed.

Lemma trim_slash_cons r : trim_start_char slash (String slash r) = trim_start_char slash r.
Proof. done. Qed.

Lemma trim_slash_other a r : a ≠ slash → trim_start_char slash (String a r) = String a r.
Proof.
  intros Ha. unfold trim_start_char. cbn [as_bytes String.list_ascii_of_string drop_while].
  rewrite (proj2 (byte_eqb_false slash a)) by done.
  apply (String.string_of_list_ascii_of_string (String a r)).
Qed.

Lemma steps_trim r : steps (trim_start_char slash r) = steps r ∧ is_absolute (trim_start_char slash r) = false.
Proof.
  induction r as [|a r [IH1 IH2]]; [done|]. destruct (decide (a = slash)) as [->|Ha].
  - rewrite trim_slash_cons. split; [|done]. rewrite IH1.
    change (String slash r) with (EmptyString +:+ ("/" +:+ r)). by rewrite steps_app.
  - rewrite trim_slash_other by done. split; [done|]. unfold is_absolute. apply not_true_iff_false.
    intros [t Ht]%starts_with_true. by injection Ht as -> _.
Qed.

Lemma tilde_iff p :
  head (split_char slash p) = Some "~" ↔ lead p = None ∧ head (steps p) = Some (Normal "~").
Proof.
  split.
  - intros Hh. pose proof Hh as [->|[r ->]]%tilde_split; [done|]. split; [by unfold lead; rewrite Hh|].
    by rewrite steps_app.
  - unfold lead, steps. intros [Hl Hs]. destruct (is_absolute p) eqn:Ha; [done|].
    destruct (split_char slash p) as [|n l] eqn:E; [done|]. cbn [head] in *.
    destruct (str_eqb n ".") eqn:Hd; [done|]. cbn [omap list_omap] in Hs. unfold name_component at 1 in Hs.
    destruct (str_is_empty n) eqn:He.
    + apply str_is_empty_true in He as ->. exfalso.
      pose proof (join_split_char slash p) as Hj. rewrite E in Hj. destruct l as [|m l]; [by simplify_eq/=|].
      rewrite join_cons in Hj by done. subst p. by vm_compute in Ha.
    + rewrite Hd in Hs. simpl in Hs. destruct (str_eqb n ".."); by simplify_eq/=.
Qed.

Section expansion.
Context `{PathEnv}.

Lemma expand_other p :
  head (split_char slash p) ≠ Some "~" → maybe_expand_home_directory p = p.
Proof.
  rewrite tilde_split. intros Hn. unfold maybe_expand_home_directory.
  destruct home_dir as [home|]; [|done]. destruct (strip_prefix "~" p) as [r|] eqn:E; [|done].
  apply strip_prefix_some in E as ->. destruct (str_is_empty r) eqn:He.
  - apply str_is_empty_true in He as ->. destruct Hn. by left.
  - destruct (strip_prefix "/" r) as [r'|] eqn:E'; [|done]. apply strip_prefix_some in E' as ->.
    destruct Hn. right. by exists r'.
Qed.

Lemma expand_tilde p home :
  home_dir = Some home → head (split_char slash p) = Some "~" →
  path_sig (maybe_expand_home_directory p) = join_sig (path_sig home) (false, tail (steps p)).
Proof.
  intros Hh. unfold maybe_expand_home_directory. rewrite Hh. intros [->|[r ->]]%tilde_split.
  - simpl. unfold join_sig. simpl. by rewrite app_nil_r.
  - rewrite steps_app.
    change (path_sig (path_join home (trim_start_char slash r)) = join_sig (path_sig home) (false, steps r)).
    rewrite path_join_sig.
    unfold path_sig at 2. destruct (steps_trim r) as [-> ->]. done.
Qed.

Lemma expand_sig p q :
  components p = components q →
  path_sig (maybe_expand_home_directory p) = path_sig (maybe_expand_home_directory q).
Proof.
  intros [Hl Hs]%components_inj.
  destruct (decide (head (split_char slash p) = Some "~")) as [Hp|Hp].
  - assert (head (split_char slash q) = Some "~") as Hq
      by (apply tilde_iff; rewrite <-Hl, <-Hs; by apply tilde_iff).
    destruct home_dir as [home|] eqn:Hh.
    + by rewrite !(expand_tilde _ home), Hs.
    + unfold maybe_expand_home_directory. rewrite Hh. unfold path_sig. by rewrite Hs, (lead_sig _ _ Hl).
  - assert (head (split_char slash q) ≠ Some "~") as Hq.
    { intros Hq. apply Hp, tilde_iff. rewrite Hl, Hs. by apply tilde_iff. }
    rewrite !expand_other by done. unfold path_sig. by rewrite Hs, (lead_sig _ _ Hl).
Qed.

(** Texts that are the same path resolve to the same path. *)
Lemma resolve_same_path p q base :
  components p = components q → resolve_path_against_base p base = resolve_path_against_base q base.
Proof. intros Hc. by apply absolutize_sig, expand_sig. Qed.

(** ** Plain names *)

Lemma plain_steps n : plain_name n = true → steps n = [Normal n] ∧ is_absolute n = false.
Proof.
  unfold plain_name, steps. intros Hn.
  repeat (apply andb_true_iff in Hn as [Hn ?%negb_true_iff]). apply negb_true_iff in Hn.
  rewrite split_char_single by done. unfold name_component. cbn [omap list_omap].
  rewrite Hn. repeat match goal with H : str_eqb _ _ = false |- _ => rewrite H; clear H end.
  split; [done|]. unfold is_absolute. apply not_true_iff_false. intros [r ->]%starts_with_true.
  by vm_compute in H0.
Qed.

Lemma plain_component n : plain_name n = true → name_component n = Some (Normal n).
Proof.
  intros Hn. destruct (plain_steps n Hn) as [Hst _]. revert Hst. unfold steps.
  unfold plain_name in Hn. apply andb_true_iff in Hn as [_ Hn%negb_true_iff].
  rewrite split_char_single by done. cbn [omap list_omap]. by destruct (name_component n); intros; simplify_eq.
Qed.

Lemma text_sig p : abs_ok p → path_sig (path_text p) = (true, Normal <$> names p).
Proof.
  intros Hp. pose proof (absolute_text p Hp) as Ha. destruct Hp as [Hr Hp]. unfold path_sig. rewrite Ha. f_equal.
  destruct p as [r ns]. simpl in *. subst r. unfold path_text. cbn [rooted names].
  rewrite <-(str_app_nil_l ("/" +:+ _)), steps_app. change (steps EmptyString) with (@nil Component).
  cbn [app]. clear Ha. destruct ns as [|n ns]; [done|].
  unfold steps. change "/" with (String slash EmptyString). rewrite (split_char_join slash); [|done|].
  - induction Hp as [|m ms Hm Hms IH]; [done|]. cbn [omap list_omap fmap list_fmap].
    rewrite (plain_component m) by done. f_equal. apply IH.
  - eapply Forall_impl; [exact Hp|]. intros m Hm. unfold plain_name in Hm.
    by apply andb_true_iff in Hm as [_ ?%negb_true_iff].
Qed.

(** A plain name that is no tilde becomes the last name. *)
Lemma abs_join_plain p n :
  abs_ok p → plain_name n = true → n ≠ "~" →
  abs_join p n = {| rooted := true; names := names p ++ [n] |} ∧
  abs_ok {| rooted := true; names := names p ++ [n] |}.
Proof.
  intros Hp Hn Ht. unfold abs_join, resolve_path_against_base.
  destruct (plain_steps n Hn) as [Hst Ha].
  rewrite expand_other.
  2:{ intros [_ Hh]%tilde_iff. rewrite Hst in Hh. by simplify_eq/=. }
  unfold absolutize_from, path_with_base. rewrite Ha.
  assert (abs_ok {| rooted := true; names := names p ++ [n] |}) as Hok.
  { destruct Hp as [_ Hp]. split; [done|]. apply Forall_app. by split; [|constructor]. }
  split; [|done]. rewrite <-(normalize_text _ Hok). apply normalize_sig.
  rewrite path_join_sig, !text_sig by done. unfold path_sig, join_sig. rewrite Ha, Hst. simpl.
  by rewrite fmap_app.
Qed.

(** Reading a path from the text of an absolute path gives it back. *)
Lemma from_absolute_text p : abs_ok p → from_absolute_path (path_text p) = Some p.
Proof.
  intros Hp. unfold from_absolute_path, absolutize.
  by rewrite expand_absolute, absolute_text, normalize_text by auto using absolute_text.
Qed.

Lemma from_absolute_ok path : is_absolute path = true →
  from_absolute_path path = Some (normalize_path path) ∧ abs_ok (normalize_path path).
Proof.
  intros Ha. unfold from_absolute_path, absolutize. rewrite expand_absolute, Ha by done.
  split; [done|]. by apply normalize_absolute.
Qed.

Lemma abs_join_ok p path : abs_ok p → abs_ok (abs_join p path).
Proof. intros Hp. apply absolutize_from_ok. by apply absolute_text. Qed.

Lemma from_absolute_abs_ok path q :
  (∀ d, current_dir = Some d → is_absolute d = true) → from_absolute_path path = Some q → abs_ok q.
Proof.
  intros Hd. unfold from_absolute_path, absolutize. set (e := maybe_expand_home_directory path).
  destruct (is_absolute e) eqn:E; [intros [= <-]; by apply normalize_absolute|].
  destruct current_dir as [d|] eqn:Hc; [|done]. intros [= <-]. apply absolutize_from_ok. by apply Hd.
Qed.

(** The last name of a plain name made absolute is the name. *)
Lemma from_absolute_last n q :
  plain_name n = true → n ≠ "~" → from_absolute_path n = Some q → file_name q = Some n.
Proof.
  intros Hn Ht. destruct (plain_steps n Hn) as [Hst Ha]. unfold from_absolute_path, absolutize.
  rewrite expand_other; [|intros [_ Hh]%tilde_iff; rewrite Hst in Hh; by simplify_eq/=]. rewrite Ha.
  destruct current_dir as [d|]; [|done]. intros [= <-].
  unfold absolutize_from, path_with_base. rewrite Ha.
  pose proof (path_join_sig d n) as Hs. unfold path_sig, join_sig in Hs. simpl in Hs. rewrite Ha in Hs.
  injection Hs as _ Hs. unfold normalize_path. rewrite components_lead, Hs, Hst, app_assoc, fold_left_app.
  cbn [fold_left push_component]. set (r := fold_left _ _ _). cbn [rooted names].
  rewrite (bool_decide_false (names r ++ [n] = [])) by (by destruct (names r)).
  rewrite andb_false_r. unfold file_name. simpl. apply last_snoc.
Qed.
End expansion.
