(* ===== verification/Permissions.v ===== *)
(** * Permission policies of the file system

    codex-rs/protocol/src/permissions.rs (all of it but the conversions to path URIs and the
    serialisation), [SandboxPolicy] and [WritableRoot] of protocol.rs, [PermissionProfile] of
    models.rs, and the canonicalisation helpers of utils/absolute-path, in the Unix build.

    An [AbsolutePathBuf] is a [PathBuf] that satisfies [abs_ok]; any other path is its text.
    What the functions ask of the machine is the parameter [FileProbe]: whether a path is a
    file or a directory, what a file holds, where symbolic links lead, and the variable
    TMPDIR.  The glob compiler is the parameter [GlobSet].  Messages written to the log are
    left out. *)

From S2P Require Import Prelude Str Json Fragments AbsPath.

Notation AbsolutePathBuf := PathBuf.

(** ** The machine *)

Class FileProbe := {
  is_dir : PathBuf → bool;
  is_file : PathBuf → bool;
  path_exists : PathBuf → bool;
  read_to_string : PathBuf → option string;
  symlink_metadata : PathBuf → option bool;   (** [Some true]: a symbolic link *)
  canonicalize : string → option PathBuf;
  tmpdir_var : option string;
}.

Class GlobSet := {
  GlobMatcher : Type;
  build_glob_matcher : string → Result GlobMatcher string;
  is_glob_match : GlobMatcher → string → bool;
}.

(** ** Paths *)

(** [Path::starts_with] and [Path::strip_prefix] between paths built from names. *)
Definition path_starts_with (p base : PathBuf) : bool :=
  bool_decide (rooted p = rooted base) && bool_decide (names base `prefix_of` names p).

Definition strip_path (p base : PathBuf) : option (list string) :=
  if path_starts_with p base then Some (drop (length (names base)) (names p)) else None.

(** The same comparisons on the texts of paths. *)
Definition text_path_eqb (p q : string) : bool := bool_decide (components p = components q).
Definition text_starts_with (p base : string) : bool :=
  bool_decide (components base `prefix_of` components p).

Definition opt_path_eqb (p q : option string) : bool :=
  match p, q with
  | Some p, Some q => text_path_eqb p q
  | None, None => true
  | _, _ => false
  end.

(** [Path::ancestors] of an absolute path, the path itself first. *)
Definition ancestors (p : PathBuf) : list PathBuf :=
  (λ k, {| rooted := rooted p; names := take k (names p) |}) <$> reverse (seq 0 (S (length (names p)))).

(** [path.components().count()] *)
Definition component_count (p : PathBuf) : nat := (if rooted p then 1 else 0) + length (names p).

(** [Path::cmp]: component by component. *)
Fixpoint names_leb (p q : list string) : bool :=
  match p, q with
  | [], _ => true
  | _ :: _, [] => false
  | a :: p', b :: q' => if str_eqb a b then names_leb p' q' else String.leb a b
  end.

Definition path_leb (p q : PathBuf) : bool := names_leb (names p) (names q).

(** ** The data of permissions.rs *)

Definition PROTECTED_METADATA_GIT_PATH_NAME : string := ".git".
Definition PROTECTED_METADATA_AGENTS_PATH_NAME : string := ".agents".
Definition PROTECTED_METADATA_CODEX_PATH_NAME : string := ".codex".

Definition PROTECTED_METADATA_PATH_NAMES : list string :=
  [PROTECTED_METADATA_GIT_PATH_NAME; PROTECTED_METADATA_AGENTS_PATH_NAME; PROTECTED_METADATA_CODEX_PATH_NAME].

Definition is_protected_metadata_name (name : string) : bool :=
  existsb (str_eqb name) PROTECTED_METADATA_PATH_NAMES.

Definition is_protected_metadata_directory_name (name : string) : bool :=
  str_eqb name PROTECTED_METADATA_AGENTS_PATH_NAME || str_eqb name PROTECTED_METADATA_CODEX_PATH_NAME.

Definition metadata_path_name (name : string) : option string :=
  List.find (str_eqb name) PROTECTED_METADATA_PATH_NAMES.

Inductive NetworkSandboxPolicy := NetRestricted | NetEnabled.
Definition net_is_enabled (n : NetworkSandboxPolicy) : bool :=
  match n with NetEnabled => true | NetRestricted => false end.

Inductive NetworkAccess := AccessRestricted | AccessEnabled.
Definition access_is_enabled (n : NetworkAccess) : bool :=
  match n with AccessEnabled => true | AccessRestricted => false end.

Inductive FileSystemAccessMode := Read | Write | Deny.

#[global] Instance FileSystemAccessMode_eq_dec : EqDecision FileSystemAccessMode.
Proof. solve_decision. Defined.

(** The derived order. *)
Definition access_rank (a : FileSystemAccessMode) : nat :=
  match a with Read => 0 | Write => 1 | Deny => 2 end.

Definition can_read (a : FileSystemAccessMode) : bool := match a with Deny => false | _ => true end.
Definition can_write (a : FileSystemAccessMode) : bool := match a with Write => true | _ => false end.
Definition is_deny (a : FileSystemAccessMode) : bool := match a with Deny => true | _ => false end.

Inductive FileSystemSpecialPath :=
| SpecialRoot
| SpecialMinimal
| SpecialProjectRoots (subpath : option string)
| SpecialTmpdir
| SpecialSlashTmp
| SpecialUnknown (path : string) (subpath : option string).

Inductive FileSystemPath :=
| FsPath (path : AbsolutePathBuf)
| GlobPattern (pattern : string)
| Special (value : FileSystemSpecialPath).

Record FileSystemSandboxEntry := { entry_path : FileSystemPath; access : FileSystemAccessMode }.

Inductive FileSystemSandboxKind := KindRestricted | KindUnrestricted | KindExternalSandbox.

#[global] Instance FileSystemSandboxKind_eq_dec : EqDecision FileSystemSandboxKind.
Proof. solve_decision. Defined.

Record FileSystemSandboxPolicy := {
  kind : FileSystemSandboxKind;
  glob_scan_max_depth : option nat;
  entries : list FileSystemSandboxEntry;
}.

Record ResolvedFileSystemEntry := { resolved_path : AbsolutePathBuf; resolved_access : FileSystemAccessMode }.

Record WritableRoot := {
  root : AbsolutePathBuf;
  read_only_subpaths : list AbsolutePathBuf;
  protected_metadata_names : list string;
}.

#[global] Instance WritableRoot_eq_dec : EqDecision WritableRoot.
Proof. solve_decision. Defined.

Record FileSystemSemanticSignature := {
  sig_full_disk_read : bool;
  sig_full_disk_write : bool;
  sig_platform_defaults : bool;
  sig_readable_roots : list AbsolutePathBuf;
  sig_writable_roots : list WritableRoot;
  sig_unreadable_roots : list AbsolutePathBuf;
  sig_unreadable_globs : list string;
}.

#[global] Instance FileSystemSemanticSignature_eq_dec : EqDecision FileSystemSemanticSignature.
Proof. solve_decision. Defined.

(** [SandboxPolicy] of protocol.rs *)
Inductive SandboxPolicy :=
| DangerFullAccess
| ReadOnly (network_access : bool)
| ExternalSandbox (network_access : NetworkAccess)
| WorkspaceWrite (writable_roots : list AbsolutePathBuf) (network_access exclude_tmpdir_env_var exclude_slash_tmp : bool).

Definition entry (path : FileSystemPath) (a : FileSystemAccessMode) : FileSystemSandboxEntry :=
  {| entry_path := path; access := a |}.

(** The derived equality of entries; sub-paths are compared as paths. *)
Definition special_eqb (v w : FileSystemSpecialPath) : bool :=
  match v, w with
  | SpecialRoot, SpecialRoot | SpecialMinimal, SpecialMinimal
  | SpecialTmpdir, SpecialTmpdir | SpecialSlashTmp, SpecialSlashTmp => true
  | SpecialProjectRoots p, SpecialProjectRoots q => opt_path_eqb p q
  | SpecialUnknown a p, SpecialUnknown b q => str_eqb a b && opt_path_eqb p q
  | _, _ => false
  end.

Definition fs_path_eqb (p q : FileSystemPath) : bool :=
  match p, q with
  | FsPath a, FsPath b => bool_decide (a = b)
  | GlobPattern a, GlobPattern b => str_eqb a b
  | Special a, Special b => special_eqb a b
  | _, _ => false
  end.

Definition entry_eqb (a b : FileSystemSandboxEntry) : bool :=
  fs_path_eqb (entry_path a) (entry_path b) && bool_decide (access a = access b).

(** [if !entries.contains(e) { entries.push(e) }] *)
Definition push_entry (entries : list FileSystemSandboxEntry) (e : FileSystemSandboxEntry) :
    list FileSystemSandboxEntry :=
  if existsb (λ x, entry_eqb x e) entries then entries else entries ++ [e].

Definition with_entries (p : FileSystemSandboxPolicy) (es : list FileSystemSandboxEntry) : FileSystemSandboxPolicy :=
  {| kind := kind p; glob_scan_max_depth := glob_scan_max_depth p; entries := es |}.

Definition is_restricted (p : FileSystemSandboxPolicy) : bool := bool_decide (kind p = KindRestricted).

(** ** Constructors *)

Definition restricted (es : list FileSystemSandboxEntry) : FileSystemSandboxPolicy :=
  {| kind := KindRestricted; glob_scan_max_depth := None; entries := es |}.

Definition unrestricted : FileSystemSandboxPolicy :=
  {| kind := KindUnrestricted; glob_scan_max_depth := None; entries := [] |}.

Definition external_sandbox : FileSystemSandboxPolicy :=
  {| kind := KindExternalSandbox; glob_scan_max_depth := None; entries := [] |}.

Definition read_only_file_system_entries : list FileSystemSandboxEntry := [entry (Special SpecialRoot) Read].

Definition read_only : FileSystemSandboxPolicy := restricted read_only_file_system_entries.

(** ** Which entries name the same target *)

Definition special_paths_share_target (l r : FileSystemSpecialPath) : bool :=
  match l, r with
  | SpecialRoot, SpecialRoot | SpecialMinimal, SpecialMinimal
  | SpecialTmpdir, SpecialTmpdir | SpecialSlashTmp, SpecialSlashTmp => true
  | SpecialProjectRoots l, SpecialProjectRoots r => opt_path_eqb l r
  | SpecialUnknown l left_subpath, SpecialUnknown r right_subpath =>
      str_eqb l r && opt_path_eqb left_subpath right_subpath
  | _, _ => false
  end.

Definition special_path_matches_absolute_path (value : FileSystemSpecialPath) (path : AbsolutePathBuf) : bool :=
  match value with
  | SpecialRoot => match parent path with None => true | Some _ => false end
  | SpecialSlashTmp => bool_decide (path = {| rooted := true; names := ["tmp"] |})
  | _ => false
  end.

Definition file_system_paths_share_target (l r : FileSystemPath) : bool :=
  match l, r with
  | FsPath l, FsPath r => bool_decide (l = r)
  | Special l, Special r => special_paths_share_target l r
  | FsPath path, Special value | Special value, FsPath path => special_path_matches_absolute_path value path
  | GlobPattern l, GlobPattern r => str_eqb l r
  | GlobPattern _, _ | _, GlobPattern _ => false
  end.

Definition append_default_read_only_entry_if_no_explicit_rule (es : list FileSystemSandboxEntry)
    (path : FileSystemPath) : list FileSystemSandboxEntry :=
  if existsb (λ e, file_system_paths_share_target (entry_path e) path) es then es
  else es ++ [entry path Read].

Definition append_default_read_only_path_if_no_explicit_rule (es : list FileSystemSandboxEntry)
    (path : AbsolutePathBuf) : list FileSystemSandboxEntry :=
  append_default_read_only_entry_if_no_explicit_rule es (FsPath path).

Definition append_default_read_only_project_root_subpath_if_no_explicit_rule
    (es : list FileSystemSandboxEntry) (subpath : string) : list FileSystemSandboxEntry :=
  append_default_read_only_entry_if_no_explicit_rule es (Special (SpecialProjectRoots (Some subpath))).

(** ** Coarse questions that need no path *)

Definition has_root_access (p : FileSystemSandboxPolicy) (predicate : FileSystemAccessMode → bool) : bool :=
  is_restricted p &&
  existsb (λ e, match entry_path e with Special SpecialRoot => predicate (access e) | _ => false end) (entries p).

Definition has_denied_read_restrictions (p : FileSystemSandboxPolicy) : bool :=
  is_restricted p && existsb (λ e, is_deny (access e)) (entries p).

Definition has_same_target_write_override (p : FileSystemSandboxPolicy) (e : FileSystemSandboxEntry) : bool :=
  existsb (λ candidate,
    can_write (access candidate) && (access_rank (access e) <? access_rank (access candidate))
    && file_system_paths_share_target (entry_path candidate) (entry_path e)) (entries p).

(** The test of one entry. *)
Definition entry_narrows_write (p : FileSystemSandboxPolicy) (e : FileSystemSandboxEntry) : bool :=
  if can_write (access e) then false
  else match entry_path e with
       | FsPath _ => negb (has_same_target_write_override p e)
       | GlobPattern _ => true
       | Special SpecialRoot => is_deny (access e)
       | Special SpecialMinimal | Special (SpecialUnknown _ _) => false
       | Special _ => negb (has_same_target_write_override p e)
       end.

Definition has_write_narrowing_entries (p : FileSystemSandboxPolicy) : bool :=
  is_restricted p && existsb (entry_narrows_write p) (entries p).

Definition has_full_disk_read_access (p : FileSystemSandboxPolicy) : bool :=
  match kind p with
  | KindUnrestricted | KindExternalSandbox => true
  | KindRestricted => has_root_access p can_read && negb (has_denied_read_restrictions p)
  end.

Definition has_full_disk_write_access (p : FileSystemSandboxPolicy) : bool :=
  match kind p with
  | KindUnrestricted | KindExternalSandbox => true
  | KindRestricted => has_root_access p can_write && negb (has_write_narrowing_entries p)
  end.

Definition include_platform_defaults (p : FileSystemSandboxPolicy) : bool :=
  negb (has_full_disk_read_access p) && is_restricted p &&
  existsb (λ e, match entry_path e with Special SpecialMinimal => can_read (access e) | _ => false end) (entries p).

(** ** Replacing the allow side of a policy *)

Definition deny_entries (p : FileSystemSandboxPolicy) : list FileSystemSandboxEntry :=
  List.filter (λ e, is_deny (access e)) (entries p).

Definition preserve_deny_read_restrictions_from (p existing : FileSystemSandboxPolicy) : FileSystemSandboxPolicy :=
  let p :=
    if bool_decide (kind p = KindUnrestricted) && existsb (λ e, is_deny (access e)) (entries existing)
    then restricted [entry (Special SpecialRoot) Write] else p in
  if negb (is_restricted p) then p
  else {| kind := kind p;
          glob_scan_max_depth := opt_or (glob_scan_max_depth p) (glob_scan_max_depth existing);
          entries := fold_left push_entry (deny_entries existing) (entries p) |}.

(** ** Resolution of entries *)

Section resolution.
Context `{PathEnv, FileProbe}.

(** The root of the file system that holds [cwd]; [None] is a panic, which an absolute [cwd]
    does not reach ([root_path_total]). *)
Definition absolute_root_path_for_cwd (cwd : AbsolutePathBuf) : option AbsolutePathBuf :=
  last (ancestors cwd) ≫= λ r, from_absolute_path (path_text r).

Definition slash_tmp : AbsolutePathBuf := {| rooted := true; names := ["tmp"] |}.

Definition resolve_file_system_special_path (value : FileSystemSpecialPath) (cwd : option AbsolutePathBuf) :
    option AbsolutePathBuf :=
  match value with
  | SpecialRoot | SpecialMinimal | SpecialUnknown _ _ => None
  | SpecialProjectRoots subpath =>
      match cwd with
      | None => None
      | Some cwd =>
          match subpath with
          | Some subpath => Some (resolve_path_against_base subpath (path_text cwd))
          | None => Some cwd
          end
      end
  | SpecialTmpdir =>
      match tmpdir_var with
      | None => None
      | Some tmpdir => if str_is_empty tmpdir then None else from_absolute_path tmpdir
      end
  | SpecialSlashTmp => if is_dir slash_tmp then Some slash_tmp else None
  end.

Definition resolve_file_system_path (path : FileSystemPath) (cwd : option AbsolutePathBuf) :
    option AbsolutePathBuf :=
  match path with
  | FsPath path => Some path
  | GlobPattern _ => None
  | Special value => resolve_file_system_special_path value cwd
  end.

Definition resolve_entry_path (path : FileSystemPath) (cwd : option AbsolutePathBuf) : option AbsolutePathBuf :=
  match path with
  | Special SpecialRoot => cwd ≫= absolute_root_path_for_cwd
  | _ => resolve_file_system_path path cwd
  end.

Definition resolve_candidate_path (path cwd : string) : option AbsolutePathBuf :=
  if is_absolute path then from_absolute_path path
  else (λ cwd, abs_join cwd path) <$> from_absolute_path cwd.

Definition resolve_entry (cwd_absolute : option AbsolutePathBuf) (e : FileSystemSandboxEntry) :
    option ResolvedFileSystemEntry :=
  (λ path, {| resolved_path := path; resolved_access := access e |})
    <$> resolve_entry_path (entry_path e) cwd_absolute.

Definition resolved_entries_with_cwd (p : FileSystemSandboxPolicy) (cwd : string) : list ResolvedFileSystemEntry :=
  omap (resolve_entry (from_absolute_path cwd)) (entries p).

(** [resolved_entry_precedence], as the order of its keys. *)
Definition resolved_entry_precedence (e : ResolvedFileSystemEntry) : nat * nat :=
  (component_count (resolved_path e), access_rank (resolved_access e)).

Definition precedence_leb (a b : ResolvedFileSystemEntry) : bool :=
  let '(sa, ra) := resolved_entry_precedence a in
  let '(sb, rb) := resolved_entry_precedence b in
  (sa <? sb) || ((sa =? sb) && (ra <=? rb)).

Definition resolve_access_with_cwd (p : FileSystemSandboxPolicy) (path cwd : string) : FileSystemAccessMode :=
  match kind p with
  | KindUnrestricted | KindExternalSandbox => Write
  | KindRestricted =>
      match resolve_candidate_path path cwd with
      | None => Deny
      | Some path =>
          default Deny (resolved_access <$>
            max_by precedence_leb
              (List.filter (λ e, path_starts_with path (resolved_path e)) (resolved_entries_with_cwd p cwd)))
      end
  end.

Definition can_read_path_with_cwd (p : FileSystemSandboxPolicy) (path cwd : string) : bool :=
  can_read (resolve_access_with_cwd p path cwd).

(** ** Protected metadata *)

(** The step of the search for a writable entry of which the target is a metadata child. *)
Definition metadata_child_of (target : AbsolutePathBuf) (e : ResolvedFileSystemEntry) :
    option (AbsolutePathBuf * string) :=
  if can_write (resolved_access e) then
    match strip_path target (resolved_path e) with
    | Some (first_component :: _) =>
        (λ metadata_name, (abs_join (resolved_path e) metadata_name, metadata_name))
          <$> metadata_path_name first_component
    | _ => None
    end
  else None.

Definition metadata_child_of_writable_root (p : FileSystemSandboxPolicy) (target : AbsolutePathBuf) (cwd : string) :
    option (AbsolutePathBuf * string) :=
  head (omap (metadata_child_of target) (resolved_entries_with_cwd p cwd)).

Definition has_explicit_write_entry_for_metadata_path (p : FileSystemSandboxPolicy)
    (protected_metadata_path target : AbsolutePathBuf) (cwd : string) : bool :=
  existsb (λ e, can_write (resolved_access e) && path_starts_with target (resolved_path e)
                && path_starts_with (resolved_path e) protected_metadata_path)
    (resolved_entries_with_cwd p cwd).

Definition is_metadata_write_denied (p : FileSystemSandboxPolicy) (path cwd : string) : bool :=
  if negb (is_restricted p) then false
  else match resolve_candidate_path path cwd with
       | None => true
       | Some target =>
           match metadata_child_of_writable_root p target cwd with
           | None => false
           | Some (protected_metadata_path, _) =>
               negb (has_explicit_write_entry_for_metadata_path p protected_metadata_path target cwd)
           end
       end.

Definition can_write_path_with_cwd (p : FileSystemSandboxPolicy) (path cwd : string) : bool :=
  if negb (can_write (resolve_access_with_cwd p path cwd)) then false
  else if has_full_disk_write_access p then true
  else negb (is_metadata_write_denied p path cwd).

Definition forbidden_agent_metadata_write (path cwd : string) (p : FileSystemSandboxPolicy) : option string :=
  if negb (is_restricted p) then None
  else match resolve_candidate_path path cwd with
       | None => None
       | Some target =>
           match metadata_child_of_writable_root p target cwd with
           | None => None
           | Some (protected_metadata_path, metadata_name) =>
               if has_explicit_write_entry_for_metadata_path p protected_metadata_path target cwd then None
               else if negb (can_write_path_with_cwd p (path_text target) cwd) then Some metadata_name
               else None
           end
       end.

(** ** Workspace roots *)

Definition PROJECT_ROOTS_GLOB_PATTERN_PREFIX : string := "codex-project-roots://".

Definition project_roots_glob_pattern (subpath : string) : string := PROJECT_ROOTS_GLOB_PATTERN_PREFIX +:+ subpath.

Definition parse_project_roots_glob_pattern (pattern : string) : option string :=
  strip_prefix PROJECT_ROOTS_GLOB_PATTERN_PREFIX pattern.

Definition resolve_project_roots_glob_pattern (subpath : string) (root : AbsolutePathBuf) : string :=
  path_text (resolve_path_against_base subpath (path_text root)).

Definition materialize_entry_with_cwd (cwd : option AbsolutePathBuf) (e : FileSystemSandboxEntry) :
    FileSystemSandboxEntry :=
  match entry_path e with
  | Special (SpecialProjectRoots _) =>
      match resolve_file_system_path (entry_path e) cwd with
      | Some path => entry (FsPath path) (access e)
      | None => e
      end
  | GlobPattern pattern =>
      match cwd, parse_project_roots_glob_pattern pattern with
      | Some cwd, Some subpath => entry (GlobPattern (resolve_project_roots_glob_pattern subpath cwd)) (access e)
      | _, _ => e
      end
  | _ => e
  end.

Definition materialize_project_roots_with_cwd (p : FileSystemSandboxPolicy) (cwd : string) : FileSystemSandboxPolicy :=
  with_entries p (materialize_entry_with_cwd (from_absolute_path cwd) <$> entries p).

(** The entries one entry becomes. *)
Definition materialize_entry (workspace_roots : list AbsolutePathBuf) (e : FileSystemSandboxEntry) :
    list FileSystemSandboxEntry :=
  match entry_path e with
  | Special (SpecialProjectRoots subpath) =>
      (λ r, entry (FsPath (match subpath with
                           | Some subpath => resolve_path_against_base subpath (path_text r)
                           | None => r
                           end)) (access e)) <$> workspace_roots
  | GlobPattern pattern =>
      match parse_project_roots_glob_pattern pattern with
      | Some subpath =>
          (λ r, entry (GlobPattern (resolve_project_roots_glob_pattern subpath r)) (access e)) <$> workspace_roots
      | None => [entry (GlobPattern pattern) (access e)]
      end
  | FsPath path => [entry (FsPath path) (access e)]
  | Special value => [entry (Special value) (access e)]
  end.

Definition materialize_project_roots_with_workspace_roots (p : FileSystemSandboxPolicy)
    (workspace_roots : list AbsolutePathBuf) : FileSystemSandboxPolicy :=
  with_entries p (entries p ≫= materialize_entry workspace_roots).

Definition with_materialized_project_roots_for_workspace_roots (p : FileSystemSandboxPolicy)
    (workspace_roots : list AbsolutePathBuf) : FileSystemSandboxPolicy :=
  with_entries p (fold_left push_entry
    (entries (materialize_project_roots_with_workspace_roots p workspace_roots)) (entries p)).

(** ** Additional roots *)

Definition add_readable_root (cwd : string) (p : FileSystemSandboxPolicy) (path : AbsolutePathBuf) :
    FileSystemSandboxPolicy :=
  if can_read_path_with_cwd p (path_text path) cwd then p
  else with_entries p (entries p ++ [entry (FsPath path) Read]).

Definition with_additional_readable_roots (p : FileSystemSandboxPolicy) (cwd : string)
    (additional_readable_roots : list AbsolutePathBuf) : FileSystemSandboxPolicy :=
  if has_full_disk_read_access p then p
  else fold_left (add_readable_root cwd) additional_readable_roots p.

Definition add_writable_root (cwd : string) (p : FileSystemSandboxPolicy) (path : AbsolutePathBuf) :
    FileSystemSandboxPolicy :=
  if can_write_path_with_cwd p (path_text path) cwd then p
  else with_entries p (entries p ++ [entry (FsPath path) Write]).

Definition with_additional_writable_roots (p : FileSystemSandboxPolicy) (cwd : string)
    (additional_writable_roots : list AbsolutePathBuf) : FileSystemSandboxPolicy :=
  fold_left (add_writable_root cwd) additional_writable_roots p.

(** ** Paths on the machine *)

(** utils/absolute-path: [should_preserve_logical_path] and [canonicalize_preserving_symlinks] *)
Definition should_preserve_logical_path (logical : AbsolutePathBuf) : bool :=
  existsb (λ ancestor,
    match symlink_metadata ancestor with
    | None => false
    | Some is_symlink => is_symlink && bool_decide (is_Some (parent ancestor ≫= parent))
    end) (ancestors logical).

Definition canonicalize_preserving_symlinks (path : string) : option PathBuf :=
  match from_absolute_path path with
  | None => None
  | Some logical =>
      let preserve_logical_path := should_preserve_logical_path logical in
      match canonicalize path with
      | Some canonical =>
          if preserve_logical_path && negb (bool_decide (canonical = logical)) then Some logical
          else Some canonical
      | None => Some logical
      end
  end.

Definition canonicalize_existing_preserving_symlinks (path : string) : option PathBuf :=
  match from_absolute_path path with
  | None => None
  | Some logical =>
      match canonicalize path with
      | None => None
      | Some canonical =>
          if should_preserve_logical_path logical && negb (bool_decide (canonical = logical))
          then Some logical else Some canonical
      end
  end.

(** The attempt with one ancestor. *)
Definition normalize_from_ancestor (raw_path ancestor : PathBuf) : option AbsolutePathBuf :=
  match symlink_metadata ancestor with
  | None => None
  | Some _ =>
      match canonicalize_preserving_symlinks (path_text ancestor), strip_path raw_path ancestor with
      | Some normalized_ancestor, Some suffix =>
          from_absolute_path (path_join (path_text normalized_ancestor) (join "/" suffix))
      | _, _ => None
      end
  end.

Definition normalize_effective_absolute_path (path : AbsolutePathBuf) : AbsolutePathBuf :=
  default path (head (omap (normalize_from_ancestor path) (ancestors path))).

(** The loop of [dedup_absolute_paths]: [seen] are the paths pushed so far. *)
Fixpoint dedup_loop (normalize_effective_paths : bool) (seen : list PathBuf) (paths : list AbsolutePathBuf) :
    list AbsolutePathBuf :=
  match paths with
  | [] => []
  | path :: paths' =>
      let dedup_path := if normalize_effective_paths then normalize_effective_absolute_path path else path in
      if bool_decide (dedup_path ∈ seen) then dedup_loop normalize_effective_paths seen paths'
      else dedup_path :: dedup_loop normalize_effective_paths (dedup_path :: seen) paths'
  end.

Definition dedup_absolute_paths (paths : list AbsolutePathBuf) (normalize_effective_paths : bool) :
    list AbsolutePathBuf := dedup_loop normalize_effective_paths [] paths.

Definition sorted_absolute_paths (paths : list AbsolutePathBuf) : list AbsolutePathBuf := sort_by path_leb paths.

(** [Vec::dedup]: runs of equal elements become one. *)
Fixpoint dedup_runs (l : list string) : list string :=
  match l with
  | a :: (b :: _) as l' => if str_eqb a b then dedup_runs l' else a :: dedup_runs l'
  | l => l
  end.

Definition sort_root_contents (r : WritableRoot) : WritableRoot :=
  {| root := root r; read_only_subpaths := sorted_absolute_paths (read_only_subpaths r);
     protected_metadata_names := dedup_runs (sort_by String.leb (protected_metadata_names r)) |}.

Definition sorted_writable_roots (roots : list WritableRoot) : list WritableRoot :=
  sort_by (λ l r, path_leb (root l) (root r)) (sort_root_contents <$> roots).

(** ** Git pointer files and the default read-only paths *)

Definition is_git_pointer_file (path : AbsolutePathBuf) : bool :=
  is_file path && bool_decide (file_name path = Some PROTECTED_METADATA_GIT_PATH_NAME).

Definition resolve_gitdir_from_file (dot_git : AbsolutePathBuf) : option AbsolutePathBuf :=
  match read_to_string dot_git with
  | None => None
  | Some contents =>
      match split_once ":" (trim contents) with
      | None => None
      | Some (prefix, gitdir_raw) =>
          if negb (str_eqb (trim prefix) "gitdir") then None
          else
            let gitdir_raw := trim gitdir_raw in
            if str_is_empty gitdir_raw then None
            else match parent dot_git with
                 | None => None
                 | Some base =>
                     let gitdir_path := resolve_path_against_base gitdir_raw (path_text base) in
                     if negb (path_exists gitdir_path) then None else Some gitdir_path
                 end
      end
  end.

Definition default_read_only_subpaths_for_writable_root (writable_root : AbsolutePathBuf)
    (protect_missing_dot_codex : bool) : list AbsolutePathBuf :=
  let top_level_git := abs_join writable_root PROTECTED_METADATA_GIT_PATH_NAME in
  let top_level_git_is_file := is_file top_level_git in
  let top_level_git_is_dir := is_dir top_level_git in
  let git_subpaths :=
    if top_level_git_is_dir || top_level_git_is_file then
      (if top_level_git_is_file && is_git_pointer_file top_level_git
       then match resolve_gitdir_from_file top_level_git with Some gitdir => [gitdir] | None => [] end
       else []) ++ [top_level_git]
    else [] in
  let top_level_agents := abs_join writable_root PROTECTED_METADATA_AGENTS_PATH_NAME in
  let top_level_codex := abs_join writable_root PROTECTED_METADATA_CODEX_PATH_NAME in
  dedup_absolute_paths
    (git_subpaths ++ (if is_dir top_level_agents then [top_level_agents] else [])
     ++ (if protect_missing_dot_codex || is_dir top_level_codex then [top_level_codex] else []))
    false.

(** The protected paths of one writable root, added one by one. *)
Definition append_protected_paths (protect_missing_dot_codex : bool) (es : list FileSystemSandboxEntry)
    (writable_root : AbsolutePathBuf) : list FileSystemSandboxEntry :=
  fold_left append_default_read_only_path_if_no_explicit_rule
    (default_read_only_subpaths_for_writable_root writable_root protect_missing_dot_codex) es.

Definition add_legacy_workspace_root (es : list FileSystemSandboxEntry) (path : AbsolutePathBuf) :
    list FileSystemSandboxEntry :=
  let es :=
    if existsb (λ e, can_write (access e) &&
                     match entry_path e with FsPath existing => bool_decide (existing = path) | _ => false end) es
    then es else es ++ [entry (FsPath path) Write] in
  append_protected_paths false es path.

Definition with_additional_legacy_workspace_writable_roots (p : FileSystemSandboxPolicy)
    (additional_writable_roots : list AbsolutePathBuf) : FileSystemSandboxPolicy :=
  if negb (is_restricted p) then p
  else with_entries p (fold_left add_legacy_workspace_root additional_writable_roots (entries p)).

(** ** Workspace-write policies and the legacy policy *)

Definition workspace_entries (writable_roots : list AbsolutePathBuf) (exclude_tmpdir_env_var exclude_slash_tmp : bool) :
    list FileSystemSandboxEntry :=
  [entry (Special SpecialRoot) Read; entry (Special (SpecialProjectRoots None)) Write]
  ++ (if exclude_slash_tmp then [] else [entry (Special SpecialSlashTmp) Write])
  ++ (if exclude_tmpdir_env_var then [] else [entry (Special SpecialTmpdir) Write])
  ++ ((λ path, entry (FsPath path) Write) <$> writable_roots).

Definition workspace_write (writable_roots : list AbsolutePathBuf)
    (exclude_tmpdir_env_var exclude_slash_tmp : bool) : FileSystemSandboxPolicy :=
  let es := workspace_entries writable_roots exclude_tmpdir_env_var exclude_slash_tmp in
  let es := append_default_read_only_project_root_subpath_if_no_explicit_rule es ".git" in
  let es := append_default_read_only_project_root_subpath_if_no_explicit_rule es ".agents" in
  let es := append_default_read_only_project_root_subpath_if_no_explicit_rule es ".codex" in
  restricted (fold_left (append_protected_paths false) writable_roots es).

(** [impl From<&SandboxPolicy> for FileSystemSandboxPolicy] and [for NetworkSandboxPolicy] *)
Definition from_sandbox_policy (value : SandboxPolicy) : FileSystemSandboxPolicy :=
  match value with
  | DangerFullAccess => unrestricted
  | ExternalSandbox _ => external_sandbox
  | ReadOnly _ => restricted [entry (Special SpecialRoot) Read]
  | WorkspaceWrite writable_roots _ exclude_tmpdir_env_var exclude_slash_tmp =>
      workspace_write writable_roots exclude_tmpdir_env_var exclude_slash_tmp
  end.

Definition has_full_network_access (s : SandboxPolicy) : bool :=
  match s with
  | DangerFullAccess => true
  | ExternalSandbox network_access => access_is_enabled network_access
  | ReadOnly network_access | WorkspaceWrite _ network_access _ _ => network_access
  end.

Definition network_from_sandbox_policy (value : SandboxPolicy) : NetworkSandboxPolicy :=
  if has_full_network_access value then NetEnabled else NetRestricted.

Definition legacy_has_full_disk_write_access (s : SandboxPolicy) : bool :=
  match s with
  | DangerFullAccess | ExternalSandbox _ => true
  | ReadOnly _ | WorkspaceWrite _ _ _ _ => false
  end.

(** The protected paths of the cwd, if it is a path, then of every writable root. *)
Definition append_legacy_protected (cwd : string) (writable_roots : list AbsolutePathBuf)
    (es : list FileSystemSandboxEntry) : list FileSystemSandboxEntry :=
  let es := match from_absolute_path cwd with
            | Some cwd_root => append_protected_paths true es cwd_root
            | None => es
            end in
  fold_left (append_protected_paths false) writable_roots es.

Definition from_legacy_sandbox_policy_for_cwd (s : SandboxPolicy) (cwd : string) : FileSystemSandboxPolicy :=
  let file_system_policy := from_sandbox_policy s in
  match s with
  | WorkspaceWrite writable_roots _ _ _ =>
      with_entries file_system_policy (append_legacy_protected cwd writable_roots (entries file_system_policy))
  | _ => file_system_policy
  end.

Definition from_legacy_sandbox_policy_preserving_deny_entries (s : SandboxPolicy) (cwd : string)
    (existing : FileSystemSandboxPolicy) : FileSystemSandboxPolicy :=
  let rebuilt := from_legacy_sandbox_policy_for_cwd s cwd in
  if negb (is_restricted rebuilt) then rebuilt
  else {| kind := kind rebuilt; glob_scan_max_depth := glob_scan_max_depth existing;
          entries := fold_left push_entry (deny_entries existing) (entries rebuilt) |}.

Definition legacy_runtime_file_system_policy_for_cwd (s : SandboxPolicy) (cwd : string) : FileSystemSandboxPolicy :=
  match s with
  | WorkspaceWrite writable_roots _ exclude_tmpdir_env_var exclude_slash_tmp =>
      restricted (append_legacy_protected cwd writable_roots
        (workspace_entries writable_roots exclude_tmpdir_env_var exclude_slash_tmp))
  | _ => from_sandbox_policy s
  end.

(** What the loop over the entries collects. *)
Record LegacyScan := {
  workspace_root_writable : bool;
  scan_writable_roots : list AbsolutePathBuf;
  tmpdir_writable : bool;
  slash_tmp_writable : bool;
  unbridgeable_root_write : bool;
}.

Definition scan_start : LegacyScan :=
  {| workspace_root_writable := false; scan_writable_roots := []; tmpdir_writable := false;
     slash_tmp_writable := false; unbridgeable_root_write := false |}.

Definition mark_workspace (s : LegacyScan) : LegacyScan :=
  {| workspace_root_writable := true; scan_writable_roots := scan_writable_roots s;
     tmpdir_writable := tmpdir_writable s; slash_tmp_writable := slash_tmp_writable s;
     unbridgeable_root_write := unbridgeable_root_write s |}.

Definition scan_root (path : AbsolutePathBuf) (s : LegacyScan) : LegacyScan :=
  {| workspace_root_writable := workspace_root_writable s; scan_writable_roots := scan_writable_roots s ++ [path];
     tmpdir_writable := tmpdir_writable s; slash_tmp_writable := slash_tmp_writable s;
     unbridgeable_root_write := unbridgeable_root_write s |}.

Definition legacy_step (cwd_absolute : option AbsolutePathBuf) (s : LegacyScan) (e : FileSystemSandboxEntry) :
    LegacyScan :=
  if negb (can_write (access e)) then s
  else match entry_path e with
  | GlobPattern _ => s
  | FsPath path => if bool_decide (cwd_absolute = Some path) then mark_workspace s else scan_root path s
  | Special SpecialRoot =>
      {| workspace_root_writable := workspace_root_writable s; scan_writable_roots := scan_writable_roots s;
         tmpdir_writable := tmpdir_writable s; slash_tmp_writable := slash_tmp_writable s;
         unbridgeable_root_write := true |}
  | Special SpecialMinimal => s
  | Special (SpecialProjectRoots subpath as value) =>
      match subpath with
      | None => mark_workspace s
      | Some _ =>
          match resolve_file_system_special_path value cwd_absolute with
          | Some path => scan_root path s
          | None => s
          end
      end
  | Special SpecialTmpdir =>
      {| workspace_root_writable := workspace_root_writable s; scan_writable_roots := scan_writable_roots s;
         tmpdir_writable := true; slash_tmp_writable := slash_tmp_writable s;
         unbridgeable_root_write := unbridgeable_root_write s |}
  | Special SpecialSlashTmp =>
      {| workspace_root_writable := workspace_root_writable s; scan_writable_roots := scan_writable_roots s;
         tmpdir_writable := tmpdir_writable s; slash_tmp_writable := true;
         unbridgeable_root_write := unbridgeable_root_write s |}
  | Special (SpecialUnknown _ _) => s
  end.

Definition UNBRIDGEABLE : string :=
  "permissions profile requests filesystem writes outside the workspace root, which is not supported until the runtime enforces FileSystemSandboxPolicy directly".

Definition full_access_policy (network_policy : NetworkSandboxPolicy) : SandboxPolicy :=
  if net_is_enabled network_policy then DangerFullAccess else ExternalSandbox AccessRestricted.

Definition external_policy (network_policy : NetworkSandboxPolicy) : SandboxPolicy :=
  ExternalSandbox (if net_is_enabled network_policy then AccessEnabled else AccessRestricted).

Definition to_legacy_sandbox_policy (p : FileSystemSandboxPolicy) (network_policy : NetworkSandboxPolicy)
    (cwd : string) : Result SandboxPolicy string :=
  match kind p with
  | KindExternalSandbox => Ok (external_policy network_policy)
  | KindUnrestricted => Ok (full_access_policy network_policy)
  | KindRestricted =>
      let s := fold_left (legacy_step (from_absolute_path cwd)) (entries p) scan_start in
      if has_full_disk_write_access p then Ok (full_access_policy network_policy)
      else if workspace_root_writable s then
        Ok (WorkspaceWrite (dedup_absolute_paths (scan_writable_roots s) false) (net_is_enabled network_policy)
              (negb (tmpdir_writable s)) (negb (slash_tmp_writable s)))
      else if unbridgeable_root_write s || negb (bool_decide (scan_writable_roots s = []))
              || tmpdir_writable s || slash_tmp_writable s
      then Err UNBRIDGEABLE
      else Ok (ReadOnly (net_is_enabled network_policy))
  end.

(** ** Roots for the sandboxes *)

Definition get_readable_roots_with_cwd (p : FileSystemSandboxPolicy) (cwd : string) : list AbsolutePathBuf :=
  if has_full_disk_read_access p then []
  else dedup_absolute_paths
    (resolved_path <$>
      List.filter (λ e, can_read (resolved_access e) && can_read_path_with_cwd p (path_text (resolved_path e)) cwd)
        (resolved_entries_with_cwd p cwd)) true.

Definition get_unreadable_roots_with_cwd (p : FileSystemSandboxPolicy) (cwd : string) : list AbsolutePathBuf :=
  if negb (is_restricted p) then []
  else
    let r := from_absolute_path cwd ≫= absolute_root_path_for_cwd in
    dedup_absolute_paths
      (resolved_path <$>
        List.filter (λ e, is_deny (resolved_access e)
                          && negb (can_read_path_with_cwd p (path_text (resolved_path e)) cwd)
                          && negb (bool_decide (r = Some (resolved_path e))))
          (resolved_entries_with_cwd p cwd)) true.

Definition get_unreadable_globs_with_cwd (p : FileSystemSandboxPolicy) (cwd : string) : list string :=
  if negb (is_restricted p) then []
  else dedup_runs (sort_by String.leb (omap (λ e,
    if is_deny (access e)
    then match entry_path e with
         | GlobPattern pattern => Some (path_text (resolve_path_against_base pattern cwd))
         | _ => None
         end
    else None) (entries p))).

Definition has_explicit_resolved_path_entry (es : list ResolvedFileSystemEntry) (path : AbsolutePathBuf) : bool :=
  existsb (λ e, bool_decide (resolved_path e = path)) es.

Definition protected_metadata_names_for_writable_root (p : FileSystemSandboxPolicy) (r : AbsolutePathBuf)
    (raw_writable_roots : list AbsolutePathBuf) (cwd : string) : list string :=
  List.filter (λ metadata_name,
    forallb (λ metadata_path, negb (can_write_path_with_cwd p (path_text metadata_path) cwd))
      ((λ r, abs_join r metadata_name) <$> r :: raw_writable_roots)) PROTECTED_METADATA_PATH_NAMES.

(** The carveout under the root [r] that an unwritable entry makes, if any. *)
Definition carveout (r : AbsolutePathBuf) (raw_writable_roots : list AbsolutePathBuf) (path : AbsolutePathBuf) :
    option AbsolutePathBuf :=
  let raw_carveout_path :=
    match parent r with
    | None => None
    | Some _ =>
        if bool_decide (path = r) then None
        else if path_starts_with path r then Some path
        else head (omap (λ raw_root,
               match strip_path path raw_root with
               | None | Some [] => None
               | Some suffix => Some (abs_join r (join "/" suffix))
               end) raw_writable_roots)
    end in
  match raw_carveout_path with
  | Some raw_carveout_path => Some raw_carveout_path
  | None =>
      let effective_path := normalize_effective_absolute_path path in
      if bool_decide (effective_path = r) || negb (path_starts_with effective_path r) then None
      else Some effective_path
  end.

Definition writable_entries (p : FileSystemSandboxPolicy) (cwd : string) : list AbsolutePathBuf :=
  resolved_path <$>
    List.filter (λ e, can_write (resolved_access e) && can_write_path_with_cwd p (path_text (resolved_path e)) cwd)
      (resolved_entries_with_cwd p cwd).

Definition writable_root_for (p : FileSystemSandboxPolicy) (cwd : string) (r : AbsolutePathBuf) : WritableRoot :=
  let resolved_entries := resolved_entries_with_cwd p cwd in
  let raw_writable_roots :=
    List.filter (λ path, bool_decide (normalize_effective_absolute_path path = r)) (writable_entries p cwd) in
  let protect_missing_dot_codex :=
    match from_absolute_path cwd with
    | Some cwd => bool_decide (normalize_effective_absolute_path cwd = r)
    | None => false
    end in
  {| root := r;
     read_only_subpaths := dedup_absolute_paths
       (List.filter (λ path, negb (has_explicit_resolved_path_entry resolved_entries path))
          (default_read_only_subpaths_for_writable_root r protect_missing_dot_codex)
        ++ omap (λ e,
             if negb (can_write (resolved_access e))
                && negb (can_write_path_with_cwd p (path_text (resolved_path e)) cwd)
             then carveout r raw_writable_roots (resolved_path e) else None) resolved_entries) false;
     protected_metadata_names := protected_metadata_names_for_writable_root p r raw_writable_roots cwd |}.

Definition get_writable_roots_with_cwd (p : FileSystemSandboxPolicy) (cwd : string) : list WritableRoot :=
  if has_full_disk_write_access p then []
  else writable_root_for p cwd <$> dedup_absolute_paths (writable_entries p cwd) true.

(** ** Comparing policies *)

Definition semantic_signature (p : FileSystemSandboxPolicy) (cwd : string) : FileSystemSemanticSignature :=
  {| sig_full_disk_read := has_full_disk_read_access p;
     sig_full_disk_write := has_full_disk_write_access p;
     sig_platform_defaults := include_platform_defaults p;
     sig_readable_roots := sorted_absolute_paths (get_readable_roots_with_cwd p cwd);
     sig_writable_roots := sorted_writable_roots (get_writable_roots_with_cwd p cwd);
     sig_unreadable_roots := sorted_absolute_paths (get_unreadable_roots_with_cwd p cwd);
     sig_unreadable_globs := get_unreadable_globs_with_cwd p cwd |}.

Definition is_semantically_equivalent_to (p other : FileSystemSandboxPolicy) (cwd : string) : bool :=
  bool_decide (semantic_signature p cwd = semantic_signature other cwd).

(** [SandboxPolicy::get_writable_roots_with_cwd] *)
Definition legacy_roots (writable_roots : list AbsolutePathBuf) (exclude_tmpdir_env_var exclude_slash_tmp : bool)
    (cwd : string) : list AbsolutePathBuf :=
  writable_roots
  ++ option_list (from_absolute_path cwd)
  ++ (if negb exclude_slash_tmp && is_dir slash_tmp then [slash_tmp] else [])
  ++ (if exclude_tmpdir_env_var then []
      else match tmpdir_var with
           | Some tmpdir => if str_is_empty tmpdir then [] else option_list (from_absolute_path tmpdir)
           | None => []
           end).

Definition legacy_get_writable_roots_with_cwd (s : SandboxPolicy) (cwd : string) : list WritableRoot :=
  match s with
  | DangerFullAccess | ExternalSandbox _ | ReadOnly _ => []
  | WorkspaceWrite writable_roots _ exclude_tmpdir_env_var exclude_slash_tmp =>
      (λ writable_root,
         {| root := writable_root;
            read_only_subpaths := default_read_only_subpaths_for_writable_root writable_root
              (bool_decide (from_absolute_path cwd = Some writable_root));
            protected_metadata_names := [] |})
        <$> legacy_roots writable_roots exclude_tmpdir_env_var exclude_slash_tmp cwd
  end.

Definition protected_metadata_names_need_direct_runtime_enforcement (p : FileSystemSandboxPolicy)
    (legacy_policy : SandboxPolicy) (cwd : string) : bool :=
  let legacy_roots := legacy_get_writable_roots_with_cwd legacy_policy cwd in
  existsb (λ writable_root,
    match List.find (λ candidate, bool_decide (root candidate = root writable_root)) legacy_roots with
    | None => negb (bool_decide (protected_metadata_names writable_root = []))
    | Some legacy_root =>
        existsb (λ metadata_name,
          let metadata_path := abs_join (root writable_root) metadata_name in
          negb (existsb (λ subpath, bool_decide (subpath = metadata_path)) (read_only_subpaths legacy_root)))
          (protected_metadata_names writable_root)
    end) (get_writable_roots_with_cwd p cwd).

Definition needs_direct_runtime_enforcement (p : FileSystemSandboxPolicy) (network_policy : NetworkSandboxPolicy)
    (cwd : string) : bool :=
  if negb (is_restricted p) then false
  else match to_legacy_sandbox_policy p network_policy cwd with
       | Err _ => true
       | Ok legacy_policy =>
           if protected_metadata_names_need_direct_runtime_enforcement p legacy_policy cwd then true
           else negb (bool_decide (semantic_signature p cwd =
                  semantic_signature (legacy_runtime_file_system_policy_for_cwd legacy_policy cwd) cwd))
       end.

(** ** [WritableRoot] *)

Definition path_contains_protected_metadata_name (r : WritableRoot) (path : PathBuf) : bool :=
  match strip_path path (root r) with
  | Some (first_component :: _) => existsb (str_eqb first_component) (protected_metadata_names r)
  | _ => false
  end.

Definition is_path_writable (r : WritableRoot) (path : PathBuf) : bool :=
  path_starts_with path (root r)
  && negb (existsb (path_starts_with path) (read_only_subpaths r))
  && negb (path_contains_protected_metadata_name r path).

(** ** Read-deny matching *)

Section matcher.
Context `{GlobSet}.

Record ReadDenyMatcher := {
  denied_candidates : list (list string);
  deny_read_matchers : list GlobMatcher;
  invalid_pattern : bool;
}.

Definition push_unique (candidates : list string) (candidate : string) : list string :=
  if existsb (λ existing, text_path_eqb existing candidate) candidates then candidates
  else candidates ++ [candidate].

Definition normalized_and_canonical_candidates (path : string) : list string :=
  let candidates :=
    push_unique [] (match from_absolute_path path with Some normalized => path_text normalized | None => path end) in
  match canonicalize path with
  | Some canonical =>
      match from_absolute_path (path_text canonical) with
      | Some canonical_absolute => push_unique candidates (path_text canonical_absolute)
      | None => candidates
      end
  | None => candidates
  end.

Inductive InvalidDenyReadGlobBehavior := FailClosed | ReturnError.

(** The loop over the patterns: the compiled ones and whether one was invalid. *)
Fixpoint compile_patterns (behavior : InvalidDenyReadGlobBehavior) (patterns : list string) :
    Result (list GlobMatcher * bool) string :=
  match patterns with
  | [] => Ok ([], false)
  | pattern :: patterns' =>
      match build_glob_matcher pattern, behavior with
      | Ok matcher, _ =>
          let? '(ms, invalid) := compile_patterns behavior patterns' in Ok (matcher :: ms, invalid)
      | Err _, FailClosed =>
          let? '(ms, _) := compile_patterns behavior patterns' in Ok (ms, true)
      | Err err, ReturnError =>
          Err ("invalid deny-read glob pattern `" +:+ (pattern +:+ ("`: " +:+ err)))
      end
  end.

Definition build_matcher (p : FileSystemSandboxPolicy) (cwd : string) (behavior : InvalidDenyReadGlobBehavior) :
    Result (option ReadDenyMatcher) string :=
  if negb (has_denied_read_restrictions p) then Ok None
  else
    let? '(ms, invalid) := compile_patterns behavior (get_unreadable_globs_with_cwd p cwd) in
    Ok (Some {| denied_candidates :=
                  (λ path, normalized_and_canonical_candidates (path_text path)) <$> get_unreadable_roots_with_cwd p cwd;
                deny_read_matchers := ms; invalid_pattern := invalid |}).

(** [ReadDenyMatcher::new]; the error is unreachable ([matcher_new_total]). *)
Definition matcher_new (p : FileSystemSandboxPolicy) (cwd : string) : option (option ReadDenyMatcher) :=
  match build_matcher p cwd FailClosed with Ok matcher => Some matcher | Err _ => None end.

Definition matcher_try_new (p : FileSystemSandboxPolicy) (cwd : string) : Result (option ReadDenyMatcher) string :=
  build_matcher p cwd ReturnError.

Definition is_read_denied (m : ReadDenyMatcher) (path : string) : bool :=
  if invalid_pattern m then true
  else
    let path_candidates := normalized_and_canonical_candidates path in
    if existsb (λ denied, existsb (λ candidate, existsb (λ denied_candidate,
         text_path_eqb candidate denied_candidate || text_starts_with candidate denied_candidate) denied)
         path_candidates) (denied_candidates m)
    then true
    else existsb (λ matcher, existsb (is_glob_match matcher) path_candidates) (deny_read_matchers m).
End matcher.

End resolution.

(** ** models.rs: permission profiles *)

Inductive ManagedFileSystemPermissions :=
| ManagedRestricted (managed_entries : list FileSystemSandboxEntry) (managed_depth : option positive)
| ManagedUnrestricted.

Inductive PermissionProfile :=
| Managed (file_system : ManagedFileSystemPermissions) (network : NetworkSandboxPolicy)
| Disabled
| External (network : NetworkSandboxPolicy).

Inductive SandboxEnforcement := EnforceManaged | EnforceDisabled | EnforceExternal.

#[global] Instance SandboxEnforcement_eq_dec : EqDecision SandboxEnforcement.
Proof. solve_decision. Defined.

Definition enforcement_from_legacy (s : SandboxPolicy) : SandboxEnforcement :=
  match s with
  | DangerFullAccess => EnforceDisabled
  | ExternalSandbox _ => EnforceExternal
  | ReadOnly _ | WorkspaceWrite _ _ _ _ => EnforceManaged
  end.

(** [NonZeroUsize::new] *)
Definition nonzero (n : nat) : option positive := match n with 0 => None | S _ => Some (Pos.of_nat n) end.

(** [from_sandbox_policy]; an external policy is the [unreachable!]. *)
Definition managed_from_sandbox_policy (p : FileSystemSandboxPolicy) : option ManagedFileSystemPermissions :=
  match kind p with
  | KindRestricted => Some (ManagedRestricted (entries p) (glob_scan_max_depth p ≫= nonzero))
  | KindUnrestricted => Some ManagedUnrestricted
  | KindExternalSandbox => None
  end.

Definition to_sandbox_policy (m : ManagedFileSystemPermissions) : FileSystemSandboxPolicy :=
  match m with
  | ManagedRestricted es depth =>
      {| kind := KindRestricted; glob_scan_max_depth := Pos.to_nat <$> depth; entries := es |}
  | ManagedUnrestricted => unrestricted
  end.

Definition file_system_sandbox_policy (p : PermissionProfile) : FileSystemSandboxPolicy :=
  match p with
  | Managed file_system _ => to_sandbox_policy file_system
  | Disabled => unrestricted
  | External _ => external_sandbox
  end.

Definition network_sandbox_policy (p : PermissionProfile) : NetworkSandboxPolicy :=
  match p with
  | Managed _ network | External network => network
  | Disabled => NetEnabled
  end.

Definition enforcement (p : PermissionProfile) : SandboxEnforcement :=
  match p with
  | Managed _ _ => EnforceManaged
  | Disabled => EnforceDisabled
  | External _ => EnforceExternal
  end.

(** [None] is the [unreachable!], which no caller reaches ([runtime_permissions_total]). *)
Definition from_runtime_permissions_with_enforcement (e : SandboxEnforcement) (p : FileSystemSandboxPolicy)
    (network : NetworkSandboxPolicy) : option PermissionProfile :=
  match kind p with
  | KindExternalSandbox => Some (External network)
  | KindUnrestricted =>
      if bool_decide (e = EnforceDisabled) then Some Disabled
      else (λ m, Managed m network) <$> managed_from_sandbox_policy p
  | KindRestricted => (λ m, Managed m network) <$> managed_from_sandbox_policy p
  end.

Definition from_runtime_permissions (p : FileSystemSandboxPolicy) (network : NetworkSandboxPolicy) :
    option PermissionProfile :=
  from_runtime_permissions_with_enforcement
    (match kind p with
     | KindRestricted | KindUnrestricted => EnforceManaged
     | KindExternalSandbox => EnforceExternal
     end) p network.

Definition to_runtime_permissions (p : PermissionProfile) : FileSystemSandboxPolicy * NetworkSandboxPolicy :=
  (file_system_sandbox_policy p, network_sandbox_policy p).

Section profiles.
Context `{PathEnv, FileProbe}.

Definition profile_from_legacy_sandbox_policy (s : SandboxPolicy) : option PermissionProfile :=
  from_runtime_permissions_with_enforcement (enforcement_from_legacy s) (from_sandbox_policy s)
    (network_from_sandbox_policy s).

Definition profile_from_legacy_sandbox_policy_for_cwd (s : SandboxPolicy) (cwd : string) : option PermissionProfile :=
  from_runtime_permissions_with_enforcement (enforcement_from_legacy s) (from_legacy_sandbox_policy_for_cwd s cwd)
    (network_from_sandbox_policy s).

Definition profile_to_legacy_sandbox_policy (p : PermissionProfile) (cwd : string) : Result SandboxPolicy string :=
  match p with
  | Managed file_system network => to_legacy_sandbox_policy (to_sandbox_policy file_system) network cwd
  | Disabled => Ok DangerFullAccess
  | External network => Ok (external_policy network)
  end.

Definition profile_workspace_write_with (writable_roots : list AbsolutePathBuf) (network : NetworkSandboxPolicy)
    (exclude_tmpdir_env_var exclude_slash_tmp : bool) : option PermissionProfile :=
  (λ m, Managed m network)
    <$> managed_from_sandbox_policy (workspace_write writable_roots exclude_tmpdir_env_var exclude_slash_tmp).

Definition profile_workspace_write : option PermissionProfile :=
  profile_workspace_write_with [] NetRestricted false false.

Definition profile_materialize (p : PermissionProfile) (workspace_roots : list AbsolutePathBuf) :
    option PermissionProfile :=
  match p with
  | Managed file_system network =>
      (λ m, Managed m network)
        <$> managed_from_sandbox_policy
              (materialize_project_roots_with_workspace_roots (to_sandbox_policy file_system) workspace_roots)
  | Disabled => Some Disabled
  | External network => Some (External network)
  end.
End profiles.

Definition profile_read_only : option PermissionProfile :=
  (λ m, Managed m NetRestricted) <$> managed_from_sandbox_policy read_only.
