(* ===== verification/PermissionFacts.v ===== *)
(** * What the permission policies promise

    Access resolution, full-disk access, kept denials, protected metadata, additional roots
    and the legacy round trip, for the definitions of Permissions.v. *)

From S2P Require Import Prelude Str Json Fragments AbsPath PathFacts Permissions.

(** ** Paths *)

Lemma starts_with_iff p q :
  path_starts_with p q = true ↔ rooted p = rooted q ∧ names q `prefix_of` names p.
Proof. unfold path_starts_with. by rewrite andb_true_iff, !bool_decide_eq_true. Qed.

Lemma starts_with_refl p : path_starts_with p p = true.
Proof. by apply starts_with_iff. Qed.

Lemma starts_with_trans p q r :
  path_starts_with p q = true → path_starts_with q r = true → path_starts_with p r = true.
Proof. rewrite !starts_with_iff. intros [-> H1] [-> H2]. split; [done|]. by etrans. Qed.

(** Two ancestors of one path are comparable. *)
Lemma starts_with_total t p q :
  path_starts_with t p = true → path_starts_with t q = true → length (names q) ≤ length (names p) →
  path_starts_with p q = true.
Proof.
  rewrite !starts_with_iff. intros [Hp Hp'] [Hq Hq'] Hle. split; [congruence|].
  destruct (prefix_weak_total _ _ _ Hp' Hq') as [H|]; [|done]. by rewrite (prefix_length_eq _ _ H Hle).
Qed.

Lemma path_eq p q : rooted p = rooted q → names p = names q → p = q.
Proof. destruct p, q; simpl; by intros -> ->. Qed.

Lemma starts_with_antisym p q :
  path_starts_with p q = true → length (names p) ≤ length (names q) → p = q.
Proof.
  rewrite starts_with_iff. intros [Hr Hp] Hle. apply path_eq; [done|]. symmetry. by apply prefix_length_eq.
Qed.

Lemma starts_with_length p q : path_starts_with p q = true → length (names q) ≤ length (names p).
Proof. rewrite starts_with_iff. intros [_ Hp]. by apply prefix_length. Qed.

#[local] Hint Resolve starts_with_refl : core.

(** ** Which entry decides *)

Definition covers (t : AbsolutePathBuf) (e : ResolvedFileSystemEntry) : Prop :=
  path_starts_with t (resolved_path e) = true.

(** The entry that decides about a path: it covers it, no covering entry is longer, and one
    at the same path does not rank higher. *)
Definition deciding (es : list ResolvedFileSystemEntry) (t : AbsolutePathBuf) (e : ResolvedFileSystemEntry) : Prop :=
  e ∈ es ∧ covers t e ∧ ∀ e', e' ∈ es → covers t e' →
    path_starts_with (resolved_path e) (resolved_path e') = true ∧
    (resolved_path e' = resolved_path e → access_rank (resolved_access e') ≤ access_rank (resolved_access e)).

Definition decides (es : list ResolvedFileSystemEntry) (t : AbsolutePathBuf) (a : FileSystemAccessMode) : Prop :=
  (∃ e, deciding es t e ∧ resolved_access e = a) ∨ ((∀ e, e ∈ es → ¬ covers t e) ∧ a = Deny).

Lemma access_rank_inj a b : access_rank a = access_rank b → a = b.
Proof. by destruct a, b. Qed.

Lemma precedence_iff a b :
  precedence_leb a b = true ↔
  component_count (resolved_path a) < component_count (resolved_path b) ∨
  (component_count (resolved_path a) = component_count (resolved_path b) ∧
   access_rank (resolved_access a) ≤ access_rank (resolved_access b)).
Proof.
  unfold precedence_leb. simpl.
  by rewrite orb_true_iff, andb_true_iff, Nat.ltb_lt, Nat.eqb_eq, Nat.leb_le.
Qed.

Lemma deciding_unique es t e e' : deciding es t e → deciding es t e' → resolved_access e = resolved_access e'.
Proof.
  intros (He & Hc & Hm) (He' & Hc' & Hm').
  destruct (Hm e' He' Hc') as [H1 H2], (Hm' e He Hc) as [H3 H4].
  assert (resolved_path e = resolved_path e') as Heq
    by (apply starts_with_antisym; [done|by apply starts_with_length]).
  apply access_rank_inj. specialize (H2 (eq_sym Heq)). specialize (H4 Heq). lia.
Qed.

Lemma decides_unique es t a b : decides es t a → decides es t b → a = b.
Proof.
  intros [(e & He & <-)|[Hn ->]] [(e' & He' & <-)|[Hn' ->]]; [by eapply deciding_unique| | |done].
  - destruct He as (? & ? & _). by destruct (Hn' e).
  - destruct He' as (? & ? & _). by destruct (Hn e').
Qed.

Lemma decides_perm es es' t a : es ≡ₚ es' → decides es t a → decides es' t a.
Proof.
  intros Hp [(e & (He & Hc & Hm) & <-)|[Hn ->]].
  - left. exists e. split; [|done]. split_and!; [by rewrite <-Hp|done|].
    intros e' He'. apply Hm. by rewrite Hp.
  - right. split; [|done]. intros e. rewrite <-Hp. auto.
Qed.

Lemma max_decides es t :
  decides es t (default Deny (resolved_access <$>
    max_by precedence_leb (List.filter (λ e, path_starts_with t (resolved_path e)) es))).
Proof.
  pose proof (max_by_spec precedence_leb) as Hmax.
  specialize (Hmax ltac:(intros x y; rewrite !precedence_iff; lia)).
  specialize (Hmax ltac:(intros x y z; rewrite !precedence_iff; lia)).
  specialize (Hmax (List.filter (λ e, path_starts_with t (resolved_path e)) es)).
  assert (∀ e, e ∈ List.filter (λ e, path_starts_with t (resolved_path e)) es ↔ e ∈ es ∧ covers t e) as Hel.
  { intros e. rewrite !list_elem_of_In. apply filter_In. }
  destruct (max_by _ _) as [e|]; simpl.
  - destruct Hmax as [[He Hc]%Hel Hm]. left. exists e. split; [|done]. split_and!; [done|done|].
    intros e' He' Hc'. specialize (Hm e' (proj2 (Hel e') (conj He' Hc'))). apply precedence_iff in Hm.
    pose proof Hc as [Hr _]%starts_with_iff. pose proof Hc' as [Hr' _]%starts_with_iff.
    unfold component_count in Hm. rewrite <-Hr, <-Hr' in Hm. split.
    + eapply starts_with_total; [exact Hc|exact Hc'|]. lia.
    + intros Heq. rewrite Heq in Hm. lia.
  - right. split; [|done]. intros e He Hc. specialize (Hel e). rewrite Hmax in Hel.
    by apply (not_elem_of_nil e), Hel.
Qed.

(** ** Resolution of entries *)

(** The invariant of the type: an explicit path is absolute and normalised. *)
Definition entry_ok (e : FileSystemSandboxEntry) : Prop :=
  match entry_path e with FsPath q => abs_ok q | _ => True end.

Definition policy_ok (p : FileSystemSandboxPolicy) : Prop := Forall entry_ok (entries p).

Definition root_path : AbsolutePathBuf := {| rooted := true; names := [] |}.

Lemma root_covers t : abs_ok t → path_starts_with t root_path = true.
Proof. intros [Hr _]. apply starts_with_iff. split; [done|]. apply prefix_nil. Qed.

Section facts.
Context `{PathEnv, FileProbe}.

Lemma root_path_total c : abs_ok c → absolute_root_path_for_cwd c = Some root_path.
Proof.
  intros [Hr _]. unfold absolute_root_path_for_cwd, ancestors.
  rewrite fmap_reverse, last_reverse. simpl. rewrite Hr, take_0.
  apply from_absolute_text. split; [done|constructor].
Qed.

Lemma elem_of_resolved p cwd r :
  r ∈ resolved_entries_with_cwd p cwd ↔
  ∃ e, e ∈ entries p ∧ resolve_entry_path (entry_path e) (from_absolute_path cwd) = Some (resolved_path r) ∧
       resolved_access r = access e.
Proof.
  unfold resolved_entries_with_cwd. rewrite list_elem_of_omap. unfold resolve_entry. split.
  - intros (e & He & (q & Hq & ->)%fmap_Some). by exists e.
  - intros (e & He & Hq & Ha). exists e. split; [done|]. rewrite Hq. simpl. destruct r; simpl in *. by subst.
Qed.

Lemma candidate_ok path cwd t :
  is_absolute cwd = true → resolve_candidate_path path cwd = Some t → abs_ok t.
Proof.
  unfold resolve_candidate_path. intros Hc. destruct (is_absolute path) eqn:Ha.
  - destruct (from_absolute_ok path Ha) as [-> ?]. by intros [= <-].
  - destruct (from_absolute_ok cwd Hc) as [-> ?]. intros [= <-]. by apply abs_join_ok.
Qed.

Lemma candidate_text t cwd : abs_ok t → resolve_candidate_path (path_text t) cwd = Some t.
Proof.
  intros Ht. unfold resolve_candidate_path. by rewrite absolute_text, from_absolute_text.
Qed.

Lemma opt_path_eqb_resolve l r c :
  opt_path_eqb l r = true →
  resolve_file_system_special_path (SpecialProjectRoots l) (Some c) =
  resolve_file_system_special_path (SpecialProjectRoots r) (Some c).
Proof.
  destruct l as [l|], r as [r|]; simpl; try done. unfold text_path_eqb. rewrite bool_decide_eq_true.
  intros Hc. f_equal. by apply resolve_same_path.
Qed.

(** Entries that share a target resolve to one path. *)
Lemma share_target_resolves y x c q :
  abs_ok c → is_dir slash_tmp = true → entry_ok y → entry_ok x →
  file_system_paths_share_target (entry_path y) (entry_path x) = true →
  resolve_entry_path (entry_path x) (Some c) = Some q →
  resolve_entry_path (entry_path y) (Some c) = Some q.
Proof.
  intros Hc Htmp. unfold entry_ok.
  destruct (entry_path y) as [a|g|v], (entry_path x) as [b|h|w]; try done; simpl; intros Hy Hx Hs.
  - by apply bool_decide_eq_true in Hs as ->.
  - destruct w; try done; simpl in Hs.
    + rewrite root_path_total by done. intros [= <-]. destruct Hy as [Hr _]. unfold parent in Hs.
      destruct a as [r ns]. simpl in *. subst r. by destruct ns.
    + apply bool_decide_eq_true in Hs as ->. simpl. by rewrite Htmp.
  - destruct v; try done; simpl in Hs.
    + rewrite root_path_total by done. intros [= <-]. destruct Hx as [Hr _]. unfold parent in Hs.
      destruct b as [r ns]. simpl in *. subst r. by destruct ns.
    + apply bool_decide_eq_true in Hs as ->. simpl. by rewrite Htmp.
  - destruct v, w; try done. simpl in *. intros <-. by apply opt_path_eqb_resolve.
Qed.
(** [resolve_access_with_cwd] as the deciding entry. *)
Lemma resolve_access_decides p path cwd t :
  kind p = KindRestricted → resolve_candidate_path path cwd = Some t →
  decides (resolved_entries_with_cwd p cwd) t (resolve_access_with_cwd p path cwd).
Proof. intros Hk Ht. unfold resolve_access_with_cwd. rewrite Hk, Ht. apply max_decides. Qed.

Lemma resolve_access_unrestricted p path cwd :
  kind p ≠ KindRestricted → resolve_access_with_cwd p path cwd = Write.
Proof. unfold resolve_access_with_cwd. by destruct (kind p). Qed.

(** Entry order does not matter for access. *)
Lemma access_order_irrelevant p q path cwd :
  kind p = kind q → entries p ≡ₚ entries q →
  resolve_access_with_cwd p path cwd = resolve_access_with_cwd q path cwd.
Proof.
  intros Hk Hp. destruct (decide (kind p = KindRestricted)) as [Hr|Hr].
  2:{ rewrite !resolve_access_unrestricted by congruence. done. }
  destruct (resolve_candidate_path path cwd) as [t|] eqn:Ht.
  - eapply decides_unique; [|apply resolve_access_decides; [congruence|done]].
    eapply decides_perm; [|by apply resolve_access_decides]. unfold resolved_entries_with_cwd. by rewrite Hp.
  - unfold resolve_access_with_cwd. by rewrite <-Hk, Hr, Ht.
Qed.

Lemma root_entry_resolves p c cwd e :
  abs_ok c → from_absolute_path cwd = Some c → e ∈ entries p → entry_path e = Special SpecialRoot →
  {| resolved_path := root_path; resolved_access := access e |} ∈ resolved_entries_with_cwd p cwd.
Proof.
  intros Hc Hcwd He Hp. apply elem_of_resolved. exists e. split_and!; [done| |done].
  rewrite Hp, Hcwd. simpl. by apply root_path_total.
Qed.

(** With full-disk write access the deciding entry grants writes. *)
Lemma full_write_deciding p c cwd t e :
  abs_ok c → from_absolute_path cwd = Some c → is_dir slash_tmp = true → policy_ok p →
  kind p = KindRestricted → has_full_disk_write_access p = true →
  deciding (resolved_entries_with_cwd p cwd) t e → resolved_access e = Write.
Proof.
  intros Hc Hcwd Htmp Hok Hk Hfull (He & Hcov & Hmax).
  unfold has_full_disk_write_access, has_root_access, has_write_narrowing_entries, is_restricted in Hfull.
  rewrite Hk, bool_decide_true in Hfull by done. cbn [andb] in Hfull.
  apply andb_true_iff in Hfull as [Hroot Hnar%negb_true_iff].
  apply elem_of_resolved in He as (x & Hx & Hres & Hacc).
  assert (entry_narrows_write p x = false) as Hn.
  { apply not_true_iff_false. intros Hn. apply not_true_iff_false in Hnar. apply Hnar, existsb_exists.
    exists x. by rewrite <-list_elem_of_In. }
  unfold policy_ok in Hok. rewrite Forall_forall in Hok.
  assert (∀ y, y ∈ entries p → can_write (access y) = true → access_rank (access x) < access_rank (access y) →
    resolve_entry_path (entry_path y) (Some c) = Some (resolved_path e) → False) as Hno.
  { intros y Hy Hw Hlt Hr. set (r := {| resolved_path := resolved_path e; resolved_access := access y |}).
    destruct (Hmax r) as [_ Hrank].
    - apply elem_of_resolved. exists y. by rewrite Hcwd.
    - done.
    - specialize (Hrank eq_refl). simpl in Hrank. rewrite Hacc in Hrank. lia. }
  assert (has_same_target_write_override p x = true → False) as Hov.
  { intros (y & Hy%list_elem_of_In & Hw)%existsb_exists.
    apply andb_true_iff in Hw as [[Hw Hlt%Nat.ltb_lt]%andb_true_iff Hs].
    eapply Hno; [exact Hy|done|done|]. rewrite Hcwd in Hres.
    apply (share_target_resolves y x); auto. }
  rewrite Hacc. unfold entry_narrows_write in Hn. destruct (access x) eqn:Ea; [|done|]; simpl in Hn.
  all: destruct (entry_path x) as [q|g|[]] eqn:Ep; try done;
    try (apply negb_false_iff in Hn; by destruct (Hov Hn)).
  exfalso. apply existsb_exists in Hroot as (y & Hy%list_elem_of_In & Hw).
  destruct (entry_path y) as [|?|[]] eqn:Ey; try done.
  eapply (Hno y Hy Hw); [by destruct (access y); simpl; try lia|].
  rewrite Ey. simpl. rewrite root_path_total by done. rewrite Hcwd in Hres. simpl in Hres.
  by rewrite root_path_total in Hres.
Qed.

Lemma covered_decides es t r a : r ∈ es → covers t r → decides es t a →
  ∃ e, deciding es t e ∧ resolved_access e = a.
Proof. intros Hr Hc [He|[Hn _]]; [done|]. by destruct (Hn r). Qed.
End facts.

(** Claim C25. The access of a path is decided by one entry: it covers the path, every other
    covering entry lies at or above it, and of the entries at its own path it ranks highest,
    a denial above a write above a read.  A path that no entry covers, or that does not
    resolve, is denied; an unrestricted or external policy grants writes.  So neither the
    order of the entries nor entries above the deciding one matter. *)
Theorem access_most_specific `{PathEnv, FileProbe} p path cwd a :
  resolve_access_with_cwd p path cwd = a ↔
  match kind p with
  | KindRestricted =>
      match resolve_candidate_path path cwd with
      | Some t => decides (resolved_entries_with_cwd p cwd) t a
      | None => a = Deny
      end
  | KindUnrestricted | KindExternalSandbox => a = Write
  end.
Proof.
  destruct (kind p) eqn:Hk.
  2,3: rewrite resolve_access_unrestricted by (by rewrite Hk); naive_solver.
  destruct (resolve_candidate_path path cwd) as [t|] eqn:Ht.
  - split; [intros <-; by apply resolve_access_decides|].
    intros Hd. eapply decides_unique; [by apply resolve_access_decides|done].
  - unfold resolve_access_with_cwd. rewrite Hk, Ht. naive_solver.
Qed.

Section full_disk.
Context `{PathEnv, FileProbe}.

(** A root entry that passes a test covers every path. *)
Lemma root_access_decides p cwd path t f :
  is_absolute cwd = true → kind p = KindRestricted → resolve_candidate_path path cwd = Some t →
  has_root_access p f = true →
  ∃ e, deciding (resolved_entries_with_cwd p cwd) t e ∧ resolved_access e = resolve_access_with_cwd p path cwd.
Proof.
  intros Hcwd Hk Ht. destruct (from_absolute_ok cwd Hcwd) as [Hc Hcok].
  pose proof (candidate_ok _ _ _ Hcwd Ht) as Htok.
  unfold has_root_access. intros [_ (x & Hx%list_elem_of_In & Hf)%existsb_exists]%andb_true_iff.
  destruct (entry_path x) as [|?|[]] eqn:Ex; try done.
  eapply covered_decides; [exact (root_entry_resolves p _ cwd x Hcok Hc Hx Ex)|by apply root_covers|].
  by apply resolve_access_decides.
Qed.

Lemma full_write_everywhere p cwd path t :
  is_absolute cwd = true → is_dir slash_tmp = true → policy_ok p → resolve_candidate_path path cwd = Some t →
  has_full_disk_write_access p = true → resolve_access_with_cwd p path cwd = Write.
Proof.
  intros Hcwd Htmp Hok Ht Hfull. destruct (from_absolute_ok cwd Hcwd) as [Hc Hcok].
  destruct (decide (kind p = KindRestricted)) as [Hk|Hk]; [|by apply resolve_access_unrestricted].
  pose proof Hfull as Hf. unfold has_full_disk_write_access in Hf. rewrite Hk in Hf.
  apply andb_true_iff in Hf as [Hroot _].
  destruct (root_access_decides p cwd path t _ Hcwd Hk Ht Hroot) as (e & He & <-).
  by apply (full_write_deciding p _ cwd t e Hcok Hc).
Qed.
End full_disk.

(** The two coarse questions are sound: when a policy reports full-disk write
    access, every path may be written, and when it reports full-disk read access, every path
    may be read.  The policy's explicit paths are absolute, as their type says, and /tmp is a
    directory. *)
Theorem full_disk_access_sound `{PathEnv, FileProbe} p cwd path t :
  is_absolute cwd = true → is_dir slash_tmp = true → policy_ok p →
  resolve_candidate_path path cwd = Some t →
  (has_full_disk_write_access p = true → can_write_path_with_cwd p path cwd = true) ∧
  (has_full_disk_read_access p = true → can_read_path_with_cwd p path cwd = true).
Proof.
  intros Hcwd Htmp Hok Ht. split; intros Hfull.
  - unfold can_write_path_with_cwd. by rewrite (full_write_everywhere p cwd path t), Hfull.
  - unfold can_read_path_with_cwd. destruct (decide (kind p = KindRestricted)) as [Hk|Hk];
      [|by rewrite resolve_access_unrestricted].
    unfold has_full_disk_read_access in Hfull. rewrite Hk in Hfull.
    apply andb_true_iff in Hfull as [Hroot Hden%negb_true_iff].
    destruct (root_access_decides p cwd path t _ Hcwd Hk Ht Hroot) as (e & (He & _ & _) & <-).
    apply elem_of_resolved in He as (x & Hx & _ & ->).
    unfold has_denied_read_restrictions, is_restricted in Hden. rewrite Hk, bool_decide_true in Hden by done.
    destruct (access x) eqn:Ea; try done. exfalso. apply not_true_iff_false in Hden. apply Hden.
    apply existsb_exists. exists x. by rewrite <-list_elem_of_In, Ea.
Qed.

(** A machine on which paths are what they say: /tmp and the given directories exist. *)
Definition plain_probe (dirs : list PathBuf) (tmpdir : option string) : FileProbe :=
  {| is_dir := λ p, bool_decide (p ∈ dirs);
     is_file := λ _, false;
     path_exists := λ p, bool_decide (p ∈ dirs);
     read_to_string := λ _, None;
     symlink_metadata := λ p, if bool_decide (p ∈ dirs) then Some false else None;
     canonicalize := λ s, let p := normalize_path s in if bool_decide (p ∈ dirs) then Some p else None;
     tmpdir_var := tmpdir |}.

Definition abs (ns : list string) : AbsolutePathBuf := {| rooted := true; names := ns |}.

Definition sample_probe : FileProbe := plain_probe [slash_tmp; abs ["work"]] (Some "/scratch").

Lemma full_disk_access_sound_witness :
  let env := sample_env in let probe := sample_probe in
  let p := restricted [entry (Special SpecialRoot) Write; entry (FsPath (abs ["a"])) Read; entry (FsPath (abs ["a"])) Write] in
  can_write_path_with_cwd p "/a/b" "/work" = true.
Proof.
  intros env probe p. apply (full_disk_access_sound p "/work" "/a/b" (abs ["a"; "b"])); try vm_refl.
  repeat constructor.
Defined.

(** ** Keeping denials *)

Section denials.
Context `{PathEnv, FileProbe}.

Lemma entry_eqb_resolves a b cwd :
  entry_eqb a b = true →
  resolve_entry_path (entry_path a) cwd = resolve_entry_path (entry_path b) cwd ∧ access a = access b.
Proof.
  unfold entry_eqb. rewrite andb_true_iff, bool_decide_eq_true. intros [Hp Ha]. split; [|done].
  destruct (entry_path a) as [q|g|v], (entry_path b) as [q'|g'|v']; try done; simpl in Hp.
  - by apply bool_decide_eq_true in Hp as ->.
  - destruct v, v'; try done. simpl in *. destruct cwd as [c|]; [|done]. by apply opt_path_eqb_resolve.
Qed.

Lemma push_entries_spec ds es :
  let es' := fold_left push_entry ds es in
  (∀ e, e ∈ es → e ∈ es') ∧ (∀ e, e ∈ es' → e ∈ es ∨ e ∈ ds) ∧
  (∀ d, d ∈ ds → ∃ e, e ∈ es' ∧ entry_eqb e d = true).
Proof.
  assert (∀ d, entry_eqb d d = true) as Hrefl.
  { intros [q a]. unfold entry_eqb. simpl. rewrite bool_decide_true, andb_true_r by done.
    assert (∀ o, opt_path_eqb o o = true) by (intros [o|]; simpl; unfold text_path_eqb; by rewrite ?bool_decide_true).
    destruct q as [q|g|v]; simpl; [by rewrite bool_decide_true|apply str_eqb_refl|].
    destruct v; simpl; rewrite ?str_eqb_refl; simpl; auto. }
  revert es. induction ds as [|d ds IH]; intros es; simpl; [set_solver|].
  destruct (IH (push_entry es d)) as (H1 & H2 & H3). cbv zeta in *.
  assert (∀ e, e ∈ es → e ∈ push_entry es d) as Hsub by (unfold push_entry; case_match; set_solver).
  assert (∀ e, e ∈ push_entry es d → e ∈ es ∨ e = d) as Hsup by (unfold push_entry; case_match; set_solver).
  split_and!.
  - auto.
  - intros e [[?| ->]%Hsup|?]%H2; set_solver.
  - intros x [->|Hx]%elem_of_cons; [|auto]. unfold push_entry in *. destruct (existsb _ es) eqn:E.
    + apply existsb_exists in E as (e & He%list_elem_of_In & Heq). eauto.
    + exists d. split; [|done]. apply H1. set_solver.
Qed.

(** A policy whose entries grow by denials only loses access, and only where they cover. *)
Lemma add_denials p p' path cwd t :
  kind p = KindRestricted → kind p' = KindRestricted → resolve_candidate_path path cwd = Some t →
  (∀ r, r ∈ resolved_entries_with_cwd p cwd → r ∈ resolved_entries_with_cwd p' cwd) →
  (∀ r, r ∈ resolved_entries_with_cwd p' cwd → r ∈ resolved_entries_with_cwd p cwd ∨ resolved_access r = Deny) →
  can_read_path_with_cwd p' path cwd = true →
  resolve_access_with_cwd p path cwd = resolve_access_with_cwd p' path cwd.
Proof.
  intros Hk Hk' Ht Hsub Hsup Hr. unfold can_read_path_with_cwd in Hr.
  pose proof (resolve_access_decides p' path cwd t Hk' Ht) as Hd.
  pose proof (resolve_access_decides p path cwd t Hk Ht) as Hd0.
  destruct Hd as [(e & (He & Hc & Hm) & Ha)|[_ Hd]]; [|by rewrite Hd in Hr].
  destruct (Hsup e He) as [Hin|Hden]; [|by rewrite <-Ha, Hden in Hr].
  rewrite <-Ha. eapply decides_unique; [done|]. left. exists e. split; [|done]. split_and!; auto.
Qed.
Lemma deny_resolved existing cwd d :
  d ∈ resolved_entries_with_cwd existing cwd → resolved_access d = Deny →
  ∃ x, x ∈ deny_entries existing ∧ resolve_entry_path (entry_path x) (from_absolute_path cwd) = Some (resolved_path d).
Proof.
  intros (x & Hx & Hp & Ha)%elem_of_resolved Hd. exists x. split; [|done].
  unfold deny_entries. rewrite list_elem_of_In, filter_In, <-list_elem_of_In. by rewrite <-Ha, Hd.
Qed.

Lemma pushed_denials p p' existing cwd :
  entries p' = fold_left push_entry (deny_entries existing) (entries p) →
  (∀ r, r ∈ resolved_entries_with_cwd p cwd → r ∈ resolved_entries_with_cwd p' cwd) ∧
  (∀ r, r ∈ resolved_entries_with_cwd p' cwd → r ∈ resolved_entries_with_cwd p cwd ∨
     (resolved_access r = Deny ∧ r ∈ resolved_entries_with_cwd existing cwd)) ∧
  (∀ d, d ∈ resolved_entries_with_cwd existing cwd → resolved_access d = Deny →
     d ∈ resolved_entries_with_cwd p' cwd).
Proof.
  intros He. destruct (push_entries_spec (deny_entries existing) (entries p)) as (H1 & H2 & H3).
  cbv zeta in *. rewrite <-He in *. split_and!.
  - intros r (x & Hx & Hp)%elem_of_resolved. apply elem_of_resolved. eauto.
  - intros r (x & [Hx|Hx]%H2 & Hp & Ha)%elem_of_resolved; [left; apply elem_of_resolved; eauto|right].
    unfold deny_entries in Hx. rewrite list_elem_of_In, filter_In, <-list_elem_of_In in Hx.
    destruct Hx as [Hx Hd]. rewrite Ha. split; [by destruct (access x)|]. apply elem_of_resolved. eauto.
  - intros d Hd Ha. destruct (deny_resolved existing cwd d Hd Ha) as (x & Hx & Hp).
    destruct (H3 x Hx) as (e & Hin & Heq). apply elem_of_resolved. exists e. split; [done|].
    destruct (entry_eqb_resolves _ _ (from_absolute_path cwd) Heq) as [-> ->]. split; [done|].
    unfold deny_entries in Hx. rewrite list_elem_of_In, filter_In in Hx. rewrite Ha.
    by destruct Hx as [_ Hx], (access x).
Qed.

Lemma denials_restricted p p' existing cwd path t :
  kind p = KindRestricted → kind p' = KindRestricted → resolve_candidate_path path cwd = Some t →
  entries p' = fold_left push_entry (deny_entries existing) (entries p) →
  (can_read_path_with_cwd p' path cwd = true →
     resolve_access_with_cwd p' path cwd = resolve_access_with_cwd p path cwd) ∧
  (∀ d, d ∈ resolved_entries_with_cwd existing cwd → resolved_access d = Deny → covers t d →
     (∀ e, e ∈ resolved_entries_with_cwd p cwd → covers t e →
        path_starts_with (resolved_path d) (resolved_path e) = true) →
     can_read_path_with_cwd p' path cwd = false) ∧
  ((∀ d, d ∈ resolved_entries_with_cwd existing cwd → resolved_access d = Deny → ¬ covers t d) →
     resolve_access_with_cwd p' path cwd = resolve_access_with_cwd p path cwd).
Proof.
  intros Hk Hk' Ht He. destruct (pushed_denials p p' existing cwd He) as (Hsub & Hsup & Hden).
  pose proof (resolve_access_decides p' path cwd t Hk' Ht) as Hd'.
  pose proof (resolve_access_decides p path cwd t Hk Ht) as Hd. split_and!.
  - intros Hr. symmetry. eapply add_denials; eauto. intros r [?|[? _]]%Hsup; auto.
  - intros d Hd1 Hd2 Hcov Hup. unfold can_read_path_with_cwd.
    destruct (covered_decides _ _ d _ (Hden d Hd1 Hd2) Hcov Hd') as (e & (He1 & Hc & Hm) & <-).
    destruct (Hsup e He1) as [Hin|[-> _]]; [|done].
    destruct (Hm d (Hden d Hd1 Hd2) Hcov) as [Hab Hrank].
    assert (resolved_path d = resolved_path e) as Heq
      by (apply starts_with_antisym; [by apply Hup|by apply starts_with_length]).
    specialize (Hrank Heq). rewrite Hd2 in Hrank. destruct (resolved_access e); simpl in Hrank; [lia|lia|done].
  - intros Hno. eapply decides_unique; [exact Hd'|]. destruct Hd as [(e & (He1 & Hc & Hm) & Ha)|[Hn Ha]].
    + left. exists e. split; [|done]. split_and!; auto.
      intros r [Hr|[Hr1 Hr2]]%Hsup Hcr; [auto|]. by destruct (Hno r Hr2 Hr1).
    + right. split; [|done]. intros r [Hr|[Hr1 Hr2]]%Hsup; [auto|]. by apply Hno.
Qed.
End denials.

(** Replacing the allow side of a policy keeps the denials of the old one.  After
    [preserve_deny_read_restrictions_from] nothing is readable that the new policy did not
    allow to read, with the access it had there; a path that a denial of the old policy
    covers is unreadable unless an entry of the new policy below that denial covers it; and
    paths that no denial covers keep their access, also when the new policy was unrestricted. *)
Theorem denials_preserved `{PathEnv, FileProbe} p existing cwd path t :
  kind p ≠ KindExternalSandbox → is_absolute cwd = true → resolve_candidate_path path cwd = Some t →
  let p' := preserve_deny_read_restrictions_from p existing in
  (can_read_path_with_cwd p' path cwd = true →
     resolve_access_with_cwd p' path cwd = resolve_access_with_cwd p path cwd) ∧
  (∀ d, d ∈ resolved_entries_with_cwd existing cwd → resolved_access d = Deny → covers t d →
     (kind p = KindRestricted → ∀ e, e ∈ resolved_entries_with_cwd p cwd → covers t e →
        path_starts_with (resolved_path d) (resolved_path e) = true) →
     can_read_path_with_cwd p' path cwd = false) ∧
  ((∀ d, d ∈ resolved_entries_with_cwd existing cwd → resolved_access d = Deny → ¬ covers t d) →
     resolve_access_with_cwd p' path cwd = resolve_access_with_cwd p path cwd).
Proof.
  intros Hk Hcwd Ht. destruct (decide (kind p = KindRestricted)) as [Hr|Hr].
  - unfold preserve_deny_read_restrictions_from. rewrite Hr, bool_decide_false by done. cbn [andb].
    unfold is_restricted. rewrite bool_decide_true by done. cbv zeta. cbn [negb].
    destruct (denials_restricted p {| kind := kind p;
      glob_scan_max_depth := opt_or (glob_scan_max_depth p) (glob_scan_max_depth existing);
      entries := fold_left push_entry (deny_entries existing) (entries p) |} existing cwd path t) as (H1 & H2 & H3);
      [done|done|done|done|]. rewrite Hr in *. split_and!; [done| |done].
    intros d Hd Ha Hcov Hup. by apply (H2 d); [..|apply Hup].
  - assert (kind p = KindUnrestricted) as Hu by (by destruct (kind p)).
    rewrite !(resolve_access_unrestricted p) by done.
    unfold preserve_deny_read_restrictions_from. rewrite Hu, bool_decide_true by done. cbn [andb].
    destruct (existsb _ (entries existing)) eqn:Ex; cbv zeta.
    2:{ unfold is_restricted. rewrite Hu, bool_decide_false by done. cbn [negb].
        rewrite resolve_access_unrestricted by done. split_and!; [done| |done].
        intros d (x & Hx & _ & Ha)%elem_of_resolved Hd. exfalso. apply not_true_iff_false in Ex.
        apply Ex, existsb_exists. exists x. rewrite <-list_elem_of_In. by rewrite <-Ha, Hd. }
    destruct (from_absolute_ok cwd Hcwd) as [Hc Hcok]. pose proof (candidate_ok _ _ _ Hcwd Ht) as Htok.
    set (p0 := restricted [entry (Special SpecialRoot) Write]).
    change (is_restricted p0) with true. cbn [negb].
    assert (resolved_entries_with_cwd p0 cwd = [{| resolved_path := root_path; resolved_access := Write |}]) as Hes.
    { unfold resolved_entries_with_cwd, p0. simpl. unfold resolve_entry. rewrite Hc. simpl.
      by rewrite root_path_total. }
    assert (resolve_access_with_cwd p0 path cwd = Write) as Ha0.
    { eapply decides_unique; [by apply resolve_access_decides|]. rewrite Hes. left.
      exists {| resolved_path := root_path; resolved_access := Write |}. split; [|done].
      split_and!; [apply list_elem_of_here|by apply root_covers|]. intros e'. rewrite list_elem_of_singleton.
      intros -> _. by split. }
    destruct (denials_restricted p0 {| kind := kind p0;
      glob_scan_max_depth := opt_or (glob_scan_max_depth p0) (glob_scan_max_depth existing);
      entries := fold_left push_entry (deny_entries existing) (entries p0) |} existing cwd path t) as (H1 & H2 & H3);
      [done|done|done|done|]. rewrite Ha0 in *. split_and!; [done| |done].
    intros d Hd Hd' Hcov _. apply (H2 d Hd Hd' Hcov). intros e. rewrite Hes, list_elem_of_singleton.
    intros -> _. simpl. apply starts_with_iff in Hcov as [Hrd _]. apply starts_with_iff.
    split; [|apply prefix_nil]. rewrite <-Hrd. by apply Htok.
Qed.

Lemma denials_preserved_witness :
  let env := sample_env in let probe := sample_probe in
  can_read_path_with_cwd (preserve_deny_read_restrictions_from unrestricted
    (restricted [entry (FsPath (abs ["secret"])) Deny])) "/secret/key" "/work" = false.
Proof.
  intros env probe.
  destruct (denials_preserved unrestricted (restricted [entry (FsPath (abs ["secret"])) Deny])
    "/work" "/secret/key" (abs ["secret"; "key"])) as (_ & Hd & _); [done|vm_refl|vm_refl|].
  by apply (Hd {| resolved_path := abs ["secret"]; resolved_access := Deny |});
    [apply list_elem_of_here|..].
Defined.

(** ** Additional writable roots *)

Section additional.
Context `{PathEnv, FileProbe}.

Lemma metadata_child_some t e m n :
  metadata_child_of t e = Some (m, n) →
  can_write (resolved_access e) = true ∧ covers t e ∧ is_protected_metadata_name n = true ∧
  m = abs_join (resolved_path e) n ∧ names (resolved_path e) ++ [n] `prefix_of` names t.
Proof.
  unfold metadata_child_of. destruct (can_write _); [|done]. unfold strip_path.
  destruct (path_starts_with t (resolved_path e)) eqn:Hc; [|done].
  pose proof Hc as [_ [k Hk]]%starts_with_iff. rewrite Hk, drop_app_length.
  destruct k as [|c k]; [done|]. unfold metadata_path_name.
  destruct (List.find _ _) as [n'|] eqn:Hf; [|done]. intros [= <- <-].
  apply List.find_some in Hf as [Hin Heq]. apply str_eqb_true in Heq as ->. split_and!; try done.
  - apply existsb_exists. exists n'. split; [done|apply str_eqb_refl].
  - exists k. by rewrite <-app_assoc.
Qed.

Lemma covers_ok t e : abs_ok t → covers t e → abs_ok (resolved_path e).
Proof.
  intros [Hr Ht] [Hr' [k Hk]]%starts_with_iff. split; [congruence|]. rewrite Hk in Ht.
  by apply Forall_app in Ht as [? _].
Qed.

(** A metadata child of an ancestor is one of every path below. *)
Lemma metadata_child_below t q e r :
  path_starts_with t q = true → metadata_child_of q e = Some r → metadata_child_of t e = Some r.
Proof.
  intros Ht. unfold metadata_child_of. destruct (can_write _); [|done]. unfold strip_path.
  destruct (path_starts_with q (resolved_path e)) eqn:Hq; [|done].
  rewrite (starts_with_trans _ _ _ Ht Hq).
  apply starts_with_iff in Ht as [_ [k ->]]. apply starts_with_iff in Hq as [_ [k' ->]].
  rewrite <-app_assoc, !drop_app_length. by destruct k'.
Qed.

Lemma metadata_none_above es t q :
  path_starts_with t q = true → omap (metadata_child_of t) es = [] → omap (metadata_child_of q) es = [].
Proof.
  intros Ht Hn. destruct (omap (metadata_child_of q) es) as [|r l] eqn:Eq; [done|]. exfalso.
  assert (r ∈ omap (metadata_child_of q) es) as Hr by (rewrite Eq; set_solver).
  apply list_elem_of_omap in Hr as (x & Hx & Hr). eapply metadata_child_below in Hr; [|exact Ht].
  apply (not_elem_of_nil r). rewrite <-Hn. apply list_elem_of_omap. eauto.
Qed.

Lemma metadata_names_plain n : is_protected_metadata_name n = true → plain_name n = true ∧ n ≠ "~".
Proof.
  unfold is_protected_metadata_name. intros (m & Hm%list_elem_of_In & ->%str_eqb_true)%existsb_exists.
  repeat (apply elem_of_cons in Hm as [->|Hm]; [done|]). by apply not_elem_of_nil in Hm.
Qed.

Lemma can_write_iff p path cwd t :
  kind p = KindRestricted → resolve_candidate_path path cwd = Some t →
  can_write_path_with_cwd p path cwd = true ↔
  resolve_access_with_cwd p path cwd = Write ∧
  (has_full_disk_write_access p = true ∨
   ∀ m n, metadata_child_of_writable_root p t cwd = Some (m, n) →
     has_explicit_write_entry_for_metadata_path p m t cwd = true).
Proof.
  intros Hk Ht. unfold can_write_path_with_cwd, is_metadata_write_denied, is_restricted.
  rewrite Hk, Ht, bool_decide_true by done. cbn [negb].
  destruct (resolve_access_with_cwd p path cwd); simpl; [naive_solver| |naive_solver].
  destruct (has_full_disk_write_access p); simpl; [naive_solver|].
  destruct (metadata_child_of_writable_root p t cwd) as [[m n]|]; [|naive_solver].
  rewrite negb_involutive. naive_solver.
Qed.

Lemma explicit_iff p m t cwd :
  has_explicit_write_entry_for_metadata_path p m t cwd = true ↔
  ∃ e, e ∈ resolved_entries_with_cwd p cwd ∧ resolved_access e = Write ∧ covers t e ∧
       path_starts_with (resolved_path e) m = true.
Proof.
  unfold has_explicit_write_entry_for_metadata_path. rewrite existsb_exists.
  split; intros (e & He); exists e; rewrite <-list_elem_of_In in *.
  - destruct He as [He [[Hw Hc]%andb_true_iff Hs]%andb_true_iff]. split_and!; try done.
    by destruct (resolved_access e).
  - destruct He as (He & -> & Hc & Hs). unfold covers in Hc. by rewrite Hc, Hs.
Qed.

(** A write entry only adds write access. *)
Lemma add_write_access p p' path cwd q :
  kind p = KindRestricted → kind p' = KindRestricted →
  resolved_entries_with_cwd p' cwd = resolved_entries_with_cwd p cwd ++
    [{| resolved_path := q; resolved_access := Write |}] →
  resolve_access_with_cwd p path cwd = Write → resolve_access_with_cwd p' path cwd = Write.
Proof.
  intros Hk Hk' Hes Ha. destruct (resolve_candidate_path path cwd) as [t|] eqn:Ht.
  2:{ unfold resolve_access_with_cwd in *. by rewrite Hk, Ht in Ha. }
  pose proof (resolve_access_decides p path cwd t Hk Ht) as [(e & (He & Hc & Hm) & Hw)|[_ Hw]];
    [|by rewrite Ha in Hw].
  rewrite Ha in Hw. eapply decides_unique; [by apply resolve_access_decides|]. rewrite Hes. left.
  set (w := {| resolved_path := q; resolved_access := Write |}).
  destruct (path_starts_with t q) eqn:Hq.
  - destruct (decide (length (names q) ≤ length (names (resolved_path e)))) as [Hle|Hgt].
    + exists e. split; [|done]. split_and!; [set_solver|done|].
      intros e' [He'|Hw']%elem_of_app Hc'; [auto|]. apply list_elem_of_singleton in Hw' as ->. split.
      * by eapply starts_with_total.
      * intros _. by rewrite Hw.
    + exists w. split; [|done]. split_and!; [set_solver|done|].
      intros e' [He'|Hw']%elem_of_app Hc'; [|apply list_elem_of_singleton in Hw' as ->; by split].
      assert (path_starts_with q (resolved_path e) = true) as Hqe by (eapply (starts_with_total t); [done..|lia]).
      split; [by eapply starts_with_trans, Hm|]. intros Heq. exfalso.
      destruct (Hm e' He' Hc') as [Hlen%starts_with_length _]. rewrite Heq in Hlen. simpl in *. lia.
  - exists e. split; [|done]. split_and!; [set_solver|done|].
    intros e' [He'|Hw']%elem_of_app Hc'; [auto|]. apply list_elem_of_singleton in Hw' as ->.
    unfold covers in Hc'. simpl in Hc'. congruence.
Qed.
Definition push_write (p : FileSystemSandboxPolicy) (q : AbsolutePathBuf) : FileSystemSandboxPolicy :=
  with_entries p (entries p ++ [entry (FsPath q) Write]).

Lemma push_write_resolved p q cwd :
  resolved_entries_with_cwd (push_write p q) cwd =
  resolved_entries_with_cwd p cwd ++ [{| resolved_path := q; resolved_access := Write |}].
Proof. unfold resolved_entries_with_cwd, push_write. simpl. by rewrite omap_app. Qed.

Lemma push_write_full p q :
  has_full_disk_write_access p = true → has_full_disk_write_access (push_write p q) = true.
Proof.
  unfold has_full_disk_write_access. cbn [push_write with_entries kind]. destruct (kind p) eqn:Hk; try done.
  unfold has_root_access, has_write_narrowing_entries, is_restricted. cbn [push_write with_entries kind entries].
  rewrite Hk, bool_decide_true by done. cbn [andb]. rewrite !andb_true_iff, !negb_true_iff, !existsb_app.
  intros [-> Hn]. split; [done|]. rewrite orb_false_iff. split; [|done].
  rewrite <-not_true_iff_false in *. contradict Hn. apply existsb_exists in Hn as (e & He & Hn).
  apply existsb_exists. exists e. split; [done|]. unfold entry_narrows_write in *.
  assert (negb (has_same_target_write_override (push_write p q) e) = true →
          negb (has_same_target_write_override p e) = true) as Ho.
  { rewrite !negb_true_iff. unfold has_same_target_write_override. cbn [push_write with_entries entries].
    rewrite existsb_app. by intros [? _]%orb_false_iff. }
  destruct (can_write (access e)); [done|]. destruct (entry_path e) as [|?|[]]; auto.
Qed.

(** A root that was not writable is added: what was writable stays writable. *)
Lemma push_write_monotone p q path cwd :
  abs_ok q → kind p = KindRestricted → can_write_path_with_cwd p (path_text q) cwd = false →
  can_write_path_with_cwd p path cwd = true → can_write_path_with_cwd (push_write p q) path cwd = true.
Proof.
  intros Hq Hk Hno Hw. destruct (resolve_candidate_path path cwd) as [t|] eqn:Ht.
  2:{ unfold can_write_path_with_cwd, resolve_access_with_cwd in Hw. by rewrite Hk, Ht in Hw. }
  destruct (proj1 (can_write_iff p path cwd t Hk Ht) Hw) as [Ha Hmeta]. clear Hw.
  apply (can_write_iff (push_write p q) path cwd t Hk Ht). split.
  { eapply (add_write_access p); [done|done|apply push_write_resolved|done]. }
  destruct Hmeta as [Hfull|Hexp]; [left; by apply push_write_full|right].
  intros m n. unfold metadata_child_of_writable_root in *. rewrite push_write_resolved, omap_app.
  destruct (omap (metadata_child_of t) (resolved_entries_with_cwd p cwd)) as [|[m' n'] l] eqn:Eo.
  2:{ intros [= <- <-]. specialize (Hexp m' n' eq_refl). rewrite explicit_iff in *.
      destruct Hexp as (e & He & Hr). exists e. rewrite push_write_resolved. set_solver. }
  simpl. set (w := {| resolved_path := q; resolved_access := Write |}).
  destruct (metadata_child_of t w) as [[m' n']|] eqn:Ew; [|done]. intros [= -> ->].
  pose proof Ew as (_ & Hcw & Hn & -> & Hpre)%metadata_child_some. simpl in Hpre, Hcw |- *.
  destruct (metadata_names_plain n Hn) as [Hplain Htilde].
  destruct (abs_join_plain q n Hq Hplain Htilde) as [-> _].
  pose proof (resolve_access_decides p path cwd t Hk Ht) as Hd. rewrite Ha in Hd.
  destruct Hd as [(e & (He & Hc & Hm) & Hw)|[_ ?]]; [|done].
  destruct (decide (length (names (resolved_path e)) ≤ length (names q))) as [Hle|Hgt].
  - exfalso. assert (path_starts_with q (resolved_path e) = true) as Hqe by by eapply (starts_with_total t).
    assert (resolve_access_with_cwd p (path_text q) cwd = Write) as Hqa.
    { eapply decides_unique; [by apply resolve_access_decides, candidate_text|]. left. exists e.
      split; [|done]. split_and!; [done|done|]. intros e' He' Hc'. apply Hm; [done|].
      exact (starts_with_trans _ _ _ Hcw Hc'). }
    apply not_true_iff_false in Hno. apply Hno. apply (can_write_iff p _ cwd q Hk (candidate_text q cwd Hq)).
    split; [done|]. right. intros m' n'. unfold metadata_child_of_writable_root.
    by rewrite (metadata_none_above _ t q Hcw Eo).
  - apply explicit_iff. exists e. rewrite push_write_resolved. split_and!; [set_solver|done|done|].
    eapply (starts_with_total t); [done| |].
    + apply starts_with_iff. split; [|done]. apply starts_with_iff in Hcw as [-> _]. apply Hq.
    + simpl. rewrite length_app. simpl. lia.
Qed.

Lemma push_write_grants p q cwd :
  abs_ok q → kind p = KindRestricted →
  (∀ e, e ∈ resolved_entries_with_cwd p cwd → resolved_access e = Deny → resolved_path e ≠ q) →
  can_write_path_with_cwd (push_write p q) (path_text q) cwd = true.
Proof.
  intros Hq Hk Hden. set (w := {| resolved_path := q; resolved_access := Write |}).
  assert (w ∈ resolved_entries_with_cwd (push_write p q) cwd) as Hw by (rewrite push_write_resolved; set_solver).
  apply (can_write_iff (push_write p q) _ cwd q Hk (candidate_text q cwd Hq)). split.
  - pose proof (resolve_access_decides (push_write p q) (path_text q) cwd q Hk (candidate_text q cwd Hq)) as Hd.
    destruct (covered_decides _ _ w _ Hw (starts_with_refl q) Hd) as (e & (He & Hc & Hm) & <-).
    destruct (Hm w Hw (starts_with_refl q)) as [Hs Hrank]. simpl in Hs, Hrank.
    assert (resolved_path e = q) as Heq.
    { symmetry. apply starts_with_antisym; [done|]. by apply starts_with_length. }
    specialize (Hrank (eq_sym Heq)). rewrite push_write_resolved in He.
    apply elem_of_app in He as [He|He]; [|apply list_elem_of_singleton in He as ->; done].
    destruct (resolved_access e) eqn:Ea; simpl in Hrank; [lia|done|]. by destruct (Hden e He Ea).
  - right. intros m n Hmc. apply explicit_iff. exists w. split_and!; [done|done|apply starts_with_refl|].
    unfold metadata_child_of_writable_root in Hmc.
    destruct (omap (metadata_child_of q) _) as [|r l] eqn:Eq; [done|]. simpl in Hmc. injection Hmc as ->.
    assert ((m, n) ∈ omap (metadata_child_of q) (resolved_entries_with_cwd (push_write p q) cwd)) as Hr
      by (rewrite Eq; set_solver).
    apply list_elem_of_omap in Hr as (x & Hx & (_ & Hcx & Hn & -> & Hpre)%metadata_child_some).
    destruct (metadata_names_plain n Hn) as [Hplain Htilde].
    destruct (abs_join_plain (resolved_path x) n (covers_ok q x Hq Hcx) Hplain Htilde) as [-> _].
    apply starts_with_iff. split; [apply Hq|done].
Qed.
(** One root of [with_additional_writable_roots]. *)
Lemma add_root_grows p q cwd path :
  abs_ok q → can_write_path_with_cwd p path cwd = true →
  can_write_path_with_cwd (add_writable_root cwd p q) path cwd = true.
Proof.
  intros Hq Hw. unfold add_writable_root. destruct (can_write_path_with_cwd p (path_text q) cwd) eqn:E; [done|].
  destruct (decide (kind p = KindRestricted)) as [Hk|Hk]; [by apply push_write_monotone|].
  exfalso. unfold can_write_path_with_cwd in E. rewrite resolve_access_unrestricted in E by done.
  unfold has_full_disk_write_access in E. by destruct (kind p).
Qed.

Lemma add_roots_grow qs p cwd path :
  Forall abs_ok qs → can_write_path_with_cwd p path cwd = true →
  can_write_path_with_cwd (fold_left (add_writable_root cwd) qs p) path cwd = true.
Proof.
  intros Hqs. revert p. induction Hqs as [|q qs Hq Hqs IH]; intros p Hw; [done|].
  by apply IH, add_root_grows.
Qed.

Lemma add_root_denials p q cwd d :
  d ∈ resolved_entries_with_cwd (add_writable_root cwd p q) cwd → resolved_access d = Deny →
  d ∈ resolved_entries_with_cwd p cwd.
Proof.
  unfold add_writable_root. destruct (can_write_path_with_cwd _ _ _); [done|].
  change (with_entries p _) with (push_write p q). rewrite push_write_resolved.
  by intros [?|[= ->]%list_elem_of_singleton]%elem_of_app.
Qed.

Lemma add_root_grants p q cwd :
  abs_ok q →
  (∀ d, d ∈ resolved_entries_with_cwd p cwd → resolved_access d = Deny → resolved_path d ≠ q) →
  can_write_path_with_cwd (add_writable_root cwd p q) (path_text q) cwd = true.
Proof.
  intros Hq Hd. unfold add_writable_root. destruct (can_write_path_with_cwd p (path_text q) cwd) eqn:E; [done|].
  destruct (decide (kind p = KindRestricted)) as [Hk|Hk]; [by apply push_write_grants|].
  exfalso. unfold can_write_path_with_cwd in E. rewrite resolve_access_unrestricted in E by done.
  unfold has_full_disk_write_access in E. by destruct (kind p).
Qed.
End additional.

(** Additional writable roots only add: every path that was writable stays
    writable, although each new root brings protected metadata names of its own; and every
    root asked for is writable afterwards, metadata directories included, unless the policy
    denies exactly that path. *)
Theorem additional_roots_monotone `{PathEnv, FileProbe} p cwd roots :
  Forall abs_ok roots →
  let p' := with_additional_writable_roots p cwd roots in
  (∀ path, can_write_path_with_cwd p path cwd = true → can_write_path_with_cwd p' path cwd = true) ∧
  (∀ q, q ∈ roots →
     (∀ d, d ∈ resolved_entries_with_cwd p cwd → resolved_access d = Deny → resolved_path d ≠ q) →
     can_write_path_with_cwd p' (path_text q) cwd = true).
Proof.
  intros Hroots p'. split; [intros path; by apply add_roots_grow|].
  subst p'. unfold with_additional_writable_roots. revert p.
  induction Hroots as [|r rs Hr Hrs IH]; intros p q Hq Hd; [by apply not_elem_of_nil in Hq|].
  simpl. apply elem_of_cons in Hq as [->|Hq]; [by apply add_roots_grow, add_root_grants|].
  apply IH; [done|]. intros d Hin Hden. apply Hd; [|done]. by eapply add_root_denials.
Qed.

Lemma additional_roots_monotone_witness :
  let env := sample_env in let probe := sample_probe in
  let p := restricted [entry (Special SpecialRoot) Read; entry (Special (SpecialProjectRoots None)) Write] in
  can_write_path_with_cwd p "/work/.git" "/work" = false ∧
  can_write_path_with_cwd (with_additional_writable_roots p "/work" [abs ["work"; ".git"]]) "/work/.git" "/work" = true.
Proof.
  intros env probe p. split; [vm_refl|].
  destruct (additional_roots_monotone p "/work" [abs ["work"; ".git"]]) as [_ Hg]; [repeat constructor|].
  apply (Hg (abs ["work"; ".git"])); [apply list_elem_of_here|].
  intros d Hd. change (resolved_entries_with_cwd p "/work") with
    [{| resolved_path := root_path; resolved_access := Read |};
     {| resolved_path := abs ["work"]; resolved_access := Write |}] in Hd.
  by apply elem_of_cons in Hd as [->|[->|[]%not_elem_of_nil]%elem_of_cons].
Defined.

(** Unlike access, the write check depends on the order of the entries: only the first
    writable entry with a metadata child is looked at. *)
Example write_order_matters :
  let env := sample_env in let probe := sample_probe in
  let repo := entry (FsPath (abs ["repo"])) Write in
  let git := entry (FsPath (abs ["repo"; ".git"])) Write in
  can_write_path_with_cwd (restricted [repo; git]) "/repo/.git/.codex/x" "/work" = true ∧
  can_write_path_with_cwd (restricted [git; repo]) "/repo/.git/.codex/x" "/work" = false.
Proof. intros env probe repo git. split; vm_refl. Qed.

(** ** Workspace-write policies *)

(** What the appended defaults do to a list of entries: they only add reads. *)
Definition adds_reads (es es' : list FileSystemSandboxEntry) : Prop :=
  (∀ e, e ∈ es → e ∈ es') ∧ (∀ e, e ∈ es' → e ∈ es ∨ access e = Read).

#[global] Instance adds_reads_preorder : PreOrder adds_reads.
Proof.
  split.
  - intros es. split; auto.
  - intros es1 es2 es3 [H1 H2] [H3 H4]. split; [auto|]. intros e [?|?]%H4; [|by right]. auto.
Qed.

Lemma append_read_only_adds es path :
  adds_reads es (append_default_read_only_entry_if_no_explicit_rule es path).
Proof.
  unfold append_default_read_only_entry_if_no_explicit_rule. case_match; [reflexivity|].
  split; [set_solver|]. intros e [?| ->%list_elem_of_singleton]%elem_of_app; auto.
Qed.

Lemma fold_adds_reads {A} (f : list FileSystemSandboxEntry → A → list FileSystemSandboxEntry) l es :
  (∀ es x, adds_reads es (f es x)) → adds_reads es (fold_left f l es).
Proof.
  intros Hf. revert es. induction l as [|x l IH]; intros es; [reflexivity|]. simpl.
  transitivity (f es x); auto.
Qed.

Section workspace.
Context `{PathEnv, FileProbe}.

Lemma append_protected_adds b es r : adds_reads es (append_protected_paths b es r).
Proof. apply fold_adds_reads. intros. apply append_read_only_adds. Qed.

Definition project_subpath (name : string) : FileSystemSandboxEntry :=
  entry (Special (SpecialProjectRoots (Some name))) Read.

Lemma workspace_entries_share name roots xt xs :
  existsb (λ e, file_system_paths_share_target (entry_path e) (Special (SpecialProjectRoots (Some name))))
    (workspace_entries roots xt xs) = false.
Proof.
  unfold workspace_entries. rewrite !existsb_app. simpl.
  assert (existsb (λ e, file_system_paths_share_target (entry_path e) (Special (SpecialProjectRoots (Some name))))
    ((λ path, entry (FsPath path) Write) <$> roots) = false) as ->.
  { induction roots as [|r roots IH]; [done|]. exact IH. }
  by destruct xt, xs.
Qed.

(** The entries of a workspace-write policy. *)
Lemma workspace_write_entries roots xt xs :
  ∃ es', entries (workspace_write roots xt xs) = es' ∧
  adds_reads (workspace_entries roots xt xs ++ [project_subpath ".git"; project_subpath ".agents"; project_subpath ".codex"])
    es'.
Proof.
  eexists. split; [done|]. unfold workspace_write. cbn [entries restricted].
  unfold append_default_read_only_project_root_subpath_if_no_explicit_rule.
  set (es := workspace_entries roots xt xs).
  assert (append_default_read_only_entry_if_no_explicit_rule
    (append_default_read_only_entry_if_no_explicit_rule
      (append_default_read_only_entry_if_no_explicit_rule es (Special (SpecialProjectRoots (Some ".git"))))
      (Special (SpecialProjectRoots (Some ".agents")))) (Special (SpecialProjectRoots (Some ".codex"))) =
    es ++ [project_subpath ".git"; project_subpath ".agents"; project_subpath ".codex"]) as ->.
  { unfold append_default_read_only_entry_if_no_explicit_rule at 3. unfold es. rewrite workspace_entries_share.
    unfold append_default_read_only_entry_if_no_explicit_rule at 2.
    rewrite existsb_app, workspace_entries_share. cbn [orb].
    change (existsb _ [entry (Special (SpecialProjectRoots (Some ".git"))) Read]) with false. cbn match.
    unfold append_default_read_only_entry_if_no_explicit_rule.
    rewrite !existsb_app, workspace_entries_share. cbn [orb].
    change (existsb _ [entry (Special (SpecialProjectRoots (Some ".git"))) Read]) with false.
    change (existsb _ [entry (Special (SpecialProjectRoots (Some ".agents"))) Read]) with false. cbn [orb].
    by rewrite <-!app_assoc. }
  apply fold_adds_reads. intros. apply append_protected_adds.
Qed.

Lemma elem_of_workspace roots xt xs e :
  e ∈ workspace_entries roots xt xs ↔
  e = entry (Special SpecialRoot) Read ∨ e = entry (Special (SpecialProjectRoots None)) Write ∨
  (xs = false ∧ e = entry (Special SpecialSlashTmp) Write) ∨
  (xt = false ∧ e = entry (Special SpecialTmpdir) Write) ∨
  ∃ r, r ∈ roots ∧ e = entry (FsPath r) Write.
Proof.
  unfold workspace_entries. rewrite !elem_of_app, elem_of_cons, list_elem_of_singleton, list_elem_of_fmap.
  assert (∀ (b : bool) (x : FileSystemSandboxEntry), e ∈ (if b then [] else [x]) ↔ b = false ∧ e = x) as Hb.
  { intros [] x; [split; [by intros ?%not_elem_of_nil|naive_solver]|].
    rewrite list_elem_of_singleton. naive_solver. }
  rewrite !Hb. naive_solver.
Qed.

Lemma workspace_base roots xt xs e :
  e ∈ workspace_entries roots xt xs ∨ (∃ n, is_protected_metadata_name n = true ∧ e = project_subpath n) →
  e ∈ entries (workspace_write roots xt xs).
Proof.
  destruct (workspace_write_entries roots xt xs) as (es' & -> & Hsub & _).
  intros [He|(n & Hn & ->)]; apply Hsub, elem_of_app; [by left|right].
  unfold is_protected_metadata_name in Hn. apply existsb_exists in Hn as (m & Hm%list_elem_of_In & ->%str_eqb_true).
  repeat (apply elem_of_cons in Hm as [->|Hm]; [set_solver|]). by apply not_elem_of_nil in Hm.
Qed.

Lemma workspace_cases roots xt xs e :
  e ∈ entries (workspace_write roots xt xs) → e ∈ workspace_entries roots xt xs ∨ access e = Read.
Proof.
  destruct (workspace_write_entries roots xt xs) as (es' & -> & _ & Hsup).
  intros [He|?]%Hsup; [|by right]. apply elem_of_app in He as [?|He]; [by left|right].
  repeat (apply elem_of_cons in He as [->|He]; [done|]). by apply not_elem_of_nil in He.
Qed.

Lemma workspace_no_deny roots xt xs e : e ∈ entries (workspace_write roots xt xs) → can_read (access e) = true.
Proof.
  intros [He| ->]%workspace_cases; [|done].
  apply elem_of_workspace in He as [->|[->|[[_ ->]|[[_ ->]|(r & _ & ->)]]]]; done.
Qed.

(** The temporary directories that a workspace-write policy opens. *)
Definition temp_root (xt xs : bool) (w : AbsolutePathBuf) : Prop :=
  (xs = false ∧ w = slash_tmp ∧ is_dir slash_tmp = true) ∨
  (xt = false ∧ ∃ s, tmpdir_var = Some s ∧ from_absolute_path s = Some w).

Lemma workspace_write_root roots xt xs cwd c r :
  from_absolute_path cwd = Some c →
  r ∈ resolved_entries_with_cwd (workspace_write roots xt xs) cwd → resolved_access r = Write →
  resolved_path r = c ∨ resolved_path r ∈ roots ∨ temp_root xt xs (resolved_path r).
Proof.
  intros Hc (x & Hx & Hres & Hacc)%elem_of_resolved Hw. rewrite Hw in Hacc. rewrite Hc in Hres.
  apply workspace_cases in Hx as [Hx|Hx]; [|congruence].
  apply elem_of_workspace in Hx as [->|[->|[[Hf ->]|[[Hf ->]|(q & Hq & ->)]]]]; simpl in Hres.
  - done.
  - left. by simplify_eq.
  - right. right. left. destruct (is_dir slash_tmp); by simplify_eq.
  - right. right. right. split; [done|]. destruct tmpdir_var as [s|]; [|done].
    destruct (str_is_empty s); [done|]. eauto.
  - right. left. by simplify_eq.
Qed.
End workspace.

(** Claim C26. Under a workspace-write policy, git, agent and codex metadata of the workspace
    is protected: a path at or below one of these directories of the working directory is
    writable only if some configured writable root or temporary directory lies between the
    metadata directory and the path.  Everything stays readable. *)
Theorem workspace_metadata_protected `{PathEnv, FileProbe} roots xt xs cwd name path t :
  is_absolute cwd = true → is_protected_metadata_name name = true →
  resolve_candidate_path path cwd = Some t →
  let p := workspace_write roots xt xs in
  let metadata := abs_join (normalize_path cwd) name in
  can_read_path_with_cwd p path cwd = true ∧
  (path_starts_with t metadata = true → can_write_path_with_cwd p path cwd = true →
   ∃ w, (w ∈ roots ∨ temp_root xt xs w) ∧
     path_starts_with w metadata = true ∧ path_starts_with t w = true).
Proof.
  intros Hcwd Hname Ht p metadata. destruct (from_absolute_ok cwd Hcwd) as [Hc Hcok].
  pose proof (candidate_ok _ _ _ Hcwd Ht) as Htok. assert (kind p = KindRestricted) as Hk by done.
  pose proof (resolve_access_decides p path cwd t Hk Ht) as Hd. split.
  - unfold can_read_path_with_cwd.
    assert ({| resolved_path := root_path; resolved_access := Read |} ∈ resolved_entries_with_cwd p cwd) as Hr.
    { apply (root_entry_resolves p _ cwd (entry (Special SpecialRoot) Read) Hcok Hc); [|done].
      apply workspace_base. left. apply elem_of_workspace. by left. }
    destruct (covered_decides _ t _ _ Hr (root_covers t Htok) Hd) as (e & (He & _) & <-).
    apply elem_of_resolved in He as (x & Hx & _ & ->). by eapply workspace_no_deny.
  - intros Hbelow Hw. destruct (proj1 (can_write_iff p path cwd t Hk Ht) Hw) as [Hwr _]. rewrite Hwr in Hd.
    assert ({| resolved_path := metadata; resolved_access := Read |} ∈ resolved_entries_with_cwd p cwd) as Hm.
    { apply elem_of_resolved. exists (project_subpath name). rewrite Hc. split_and!; [|done|done].
      apply workspace_base. right. eauto. }
    destruct (covered_decides _ t _ _ Hm Hbelow Hd) as (e & (He & Hcov & Hmax) & Ha).
    destruct (Hmax _ Hm Hbelow) as [Hs _]. simpl in Hs. exists (resolved_path e).
    split; [|done]. destruct (workspace_write_root _ _ _ _ _ e Hc He Ha) as [Heq|?]; [|done].
    exfalso. rewrite Heq in Hs. destruct (metadata_names_plain name Hname) as [Hp Htl].
    unfold metadata in Hs. destruct (abs_join_plain _ _ Hcok Hp Htl) as [Hj _]. rewrite Hj in Hs.
    apply starts_with_length in Hs. simpl in Hs. rewrite length_app in Hs. simpl in Hs. lia.
Qed.

Lemma workspace_metadata_protected_witness :
  let env := sample_env in let probe := sample_probe in
  can_write_path_with_cwd (workspace_write [] false false) "/work/.git/config" "/work" = false ∧
  ∃ w, (w ∈ [abs ["work"; ".git"; "hooks"]] ∨ temp_root false false w) ∧
    path_starts_with w (abs_join (normalize_path "/work") ".git") = true ∧
    path_starts_with (abs ["work"; ".git"; "hooks"; "x"]) w = true.
Proof.
  intros env probe. split; [vm_refl|].
  destruct (workspace_metadata_protected [abs ["work"; ".git"; "hooks"]] false false "/work" ".git"
    "/work/.git/hooks/x" (abs ["work"; ".git"; "hooks"; "x"])) as [_ Hw]; [vm_refl..|].
  apply Hw; vm_refl.
Defined.

(** ** The legacy policy *)

Section legacy.
Context `{PathEnv, FileProbe}.

Lemma dedup_loop_nodup seen paths :
  NoDup paths → (∀ q, q ∈ paths → q ∉ seen) → dedup_loop false seen paths = paths.
Proof.
  intros Hn. revert seen. induction Hn as [|q qs Hq Hqs IH]; intros seen Hs; [done|].
  cbn [dedup_loop]. rewrite bool_decide_false by (apply Hs; set_solver). f_equal. apply IH. set_solver.
Qed.

Lemma scan_app c l l' s : fold_left (legacy_step c) (l ++ l') s = fold_left (legacy_step c) l' (fold_left (legacy_step c) l s).
Proof. apply fold_left_app. Qed.

(** Entries that grant no writes do not count. *)
Lemma scan_reads c l s : Forall (λ e, access e = Read) l → fold_left (legacy_step c) l s = s.
Proof.
  intros Hl. revert s. induction Hl as [|e l He Hl IH]; intros s; [done|]. cbn [fold_left].
  unfold legacy_step at 2. by rewrite He.
Qed.

Lemma scan_roots c roots s :
  (∀ r, r ∈ roots → c ≠ Some r) →
  fold_left (legacy_step c) ((λ path, entry (FsPath path) Write) <$> roots) s =
  {| workspace_root_writable := workspace_root_writable s; scan_writable_roots := scan_writable_roots s ++ roots;
     tmpdir_writable := tmpdir_writable s; slash_tmp_writable := slash_tmp_writable s;
     unbridgeable_root_write := unbridgeable_root_write s |}.
Proof.
  revert s. induction roots as [|r roots IH]; intros s Hr; cbn [fmap list_fmap fold_left].
  - rewrite app_nil_r. by destruct s.
  - unfold legacy_step at 2. cbn [access entry can_write negb entry_path].
    rewrite bool_decide_false by (apply Hr; set_solver). rewrite IH by set_solver. simpl.
    by rewrite <-app_assoc.
Qed.

(** The appended defaults, as a suffix of reads. *)
Lemma append_suffix {A} (f : list FileSystemSandboxEntry → A → list FileSystemSandboxEntry) l es :
  (∀ es x, ∃ rs, f es x = es ++ rs ∧ Forall (λ e, access e = Read) rs) →
  ∃ rs, fold_left f l es = es ++ rs ∧ Forall (λ e, access e = Read) rs.
Proof.
  intros Hf. revert es. induction l as [|x l IH]; intros es; simpl.
  - exists []. by rewrite app_nil_r.
  - destruct (Hf es x) as (rs & -> & Hrs). destruct (IH (es ++ rs)) as (rs' & -> & Hrs').
    exists (rs ++ rs'). rewrite <-app_assoc. split; [done|]. by apply Forall_app.
Qed.

Lemma append_entry_suffix es path :
  ∃ rs, append_default_read_only_entry_if_no_explicit_rule es path = es ++ rs ∧ Forall (λ e, access e = Read) rs.
Proof.
  unfold append_default_read_only_entry_if_no_explicit_rule. case_match.
  - exists []. by rewrite app_nil_r.
  - eexists. split; [done|]. by repeat constructor.
Qed.

Lemma workspace_suffix roots xt xs :
  ∃ rs, entries (workspace_write roots xt xs) = workspace_entries roots xt xs ++ rs ∧
        Forall (λ e, access e = Read) rs.
Proof.
  unfold workspace_write. cbn [entries restricted].
  unfold append_default_read_only_project_root_subpath_if_no_explicit_rule.
  destruct (append_entry_suffix (workspace_entries roots xt xs) (Special (SpecialProjectRoots (Some ".git"))))
    as (r1 & -> & H1).
  destruct (append_entry_suffix (workspace_entries roots xt xs ++ r1) (Special (SpecialProjectRoots (Some ".agents"))))
    as (r2 & -> & H2).
  destruct (append_entry_suffix ((workspace_entries roots xt xs ++ r1) ++ r2)
    (Special (SpecialProjectRoots (Some ".codex")))) as (r3 & -> & H3).
  destruct (append_suffix (append_protected_paths false) roots (((workspace_entries roots xt xs ++ r1) ++ r2) ++ r3))
    as (r4 & -> & H4).
  { intros es x. apply append_suffix. intros. apply append_entry_suffix. }
  exists (r1 ++ r2 ++ r3 ++ r4). split; [by rewrite !app_assoc|]. by repeat (apply Forall_app; split).
Qed.

Lemma workspace_not_full roots xt xs : has_full_disk_write_access (workspace_write roots xt xs) = false.
Proof.
  unfold has_full_disk_write_access. cbn [workspace_write restricted kind]. apply andb_false_iff. left.
  unfold has_root_access. apply andb_false_iff. right. apply not_true_iff_false.
  intros (e & He%list_elem_of_In & Hr)%existsb_exists. apply workspace_cases in He as [He|Ha].
  - apply elem_of_workspace in He as [->|[->|[[_ ->]|[[_ ->]|(r & _ & ->)]]]]; done.
  - destruct (entry_path e) as [|?|[]]; try done. by rewrite Ha in Hr.
Qed.

Lemma workspace_to_legacy roots xt xs net cwd :
  NoDup roots → (∀ r, r ∈ roots → from_absolute_path cwd ≠ Some r) →
  to_legacy_sandbox_policy (workspace_write roots xt xs) net cwd =
  Ok (WorkspaceWrite roots (net_is_enabled net) xt xs).
Proof.
  intros Hn Hr. unfold to_legacy_sandbox_policy. change (kind (workspace_write roots xt xs)) with KindRestricted.
  cbn match. rewrite workspace_not_full. destruct (workspace_suffix roots xt xs) as (rs & -> & Hrs).
  rewrite scan_app, (scan_reads _ rs) by done. unfold workspace_entries. rewrite !scan_app, scan_roots by done.
  assert (dedup_absolute_paths roots false = roots) as Hd
    by (apply dedup_loop_nodup; [done|]; intros q _; apply not_elem_of_nil).
  destruct xt, xs; simpl; by rewrite Hd.
Qed.
End legacy.

(** A legacy sandbox policy survives the trip through permission profiles: its
    profile exists, keeps the file-system and network policy the legacy one stands for, and
    projects back to the same legacy policy.  Writable roots must be distinct and different
    from the working directory, which the legacy policy adds by itself. *)
Theorem legacy_policy_roundtrip `{PathEnv, FileProbe} s cwd :
  match s with
  | WorkspaceWrite roots _ _ _ => NoDup roots ∧ ∀ r, r ∈ roots → from_absolute_path cwd ≠ Some r
  | _ => True
  end →
  ∃ prof, profile_from_legacy_sandbox_policy s = Some prof ∧
    to_runtime_permissions prof = (from_sandbox_policy s, network_from_sandbox_policy s) ∧
    profile_to_legacy_sandbox_policy prof cwd = Ok s.
Proof.
  destruct s as [|net|[]|roots net xt xs]; intros Hs; try (eexists; split_and!; [done|done|done]).
  - eexists. split_and!; [done|done|]. by destruct net.
  - destruct Hs as [Hn Hr]. eexists. split_and!; [done|done|].
    change (to_legacy_sandbox_policy (workspace_write roots xt xs)
      (network_from_sandbox_policy (WorkspaceWrite roots net xt xs)) cwd = Ok (WorkspaceWrite roots net xt xs)).
    rewrite workspace_to_legacy by done. by destruct net.
Qed.

Lemma legacy_policy_roundtrip_witness :
  let env := sample_env in let probe := sample_probe in
  ∃ prof, profile_from_legacy_sandbox_policy (WorkspaceWrite [abs ["data"]] true false true) = Some prof ∧
    profile_to_legacy_sandbox_policy prof "/work" = Ok (WorkspaceWrite [abs ["data"]] true false true).
Proof.
  intros env probe. destruct (legacy_policy_roundtrip (WorkspaceWrite [abs ["data"]] true false true) "/work")
    as (prof & ? & _ & ?); [|eauto].
  split; [by apply NoDup_singleton|]. by intros r ->%list_elem_of_singleton.
Defined.

(** ** Read-deny matching *)

Lemma runtime_permissions_total e p net : is_Some (from_runtime_permissions_with_enforcement e p net).
Proof.
  unfold from_runtime_permissions_with_enforcement, managed_from_sandbox_policy.
  destruct (kind p); [by eexists|case_match; by eexists|by eexists].
Qed.

Section matcher.
Context `{PathEnv, FileProbe, GlobSet}.

Definition compiles (pattern : string) : bool := is_ok (build_glob_matcher pattern).

Lemma compile_closed patterns :
  ∃ ms, compile_patterns FailClosed patterns = Ok (ms, negb (forallb compiles patterns)).
Proof.
  induction patterns as [|g gs (ms & IH)]; [by exists []|]. cbn [compile_patterns forallb]. unfold compiles at 1.
  destruct (build_glob_matcher g); rewrite IH; simpl; eauto.
Qed.

(** The unreachable error is unreachable. *)
Lemma matcher_new_total p cwd : is_Some (matcher_new p cwd).
Proof.
  unfold matcher_new, build_matcher. destruct (negb _); [by eexists|].
  destruct (compile_closed (get_unreadable_globs_with_cwd p cwd)) as (ms & ->). by eexists.
Qed.

Lemma abs_components p : abs_ok p → components (path_text p) = RootDir :: (Normal <$> names p).
Proof.
  intros Hp. rewrite components_lead. pose proof (text_sig p Hp) as [= Ha ->].
  unfold lead. by rewrite Ha.
Qed.

Lemma text_starts_with_abs p q :
  abs_ok p → abs_ok q → path_starts_with p q = true → text_starts_with (path_text p) (path_text q) = true.
Proof.
  intros Hp Hq [_ [k Hk]]%starts_with_iff. unfold text_starts_with. apply bool_decide_true.
  rewrite !abs_components by done. exists (Normal <$> k). simpl. by rewrite Hk, fmap_app.
Qed.

Lemma own_candidate p : abs_ok p → path_text p ∈ normalized_and_canonical_candidates (path_text p).
Proof.
  intros Hp. unfold normalized_and_canonical_candidates. rewrite from_absolute_text by done.
  change (push_unique [] (path_text p)) with [path_text p].
  assert (∀ c, path_text p ∈ push_unique [path_text p] c) as Hc by (intros c; unfold push_unique; case_match; set_solver).
  repeat case_match; auto; apply list_elem_of_here.
Qed.

Lemma compile_all patterns :
  forallb compiles patterns = true →
  ∃ ms, compile_patterns FailClosed patterns = Ok (ms, false) ∧
    ∀ g, g ∈ ms ↔ ∃ pattern, pattern ∈ patterns ∧ build_glob_matcher pattern = Ok g.
Proof.
  induction patterns as [|g gs IH]; simpl.
  { intros _. exists []. split; [done|]. intros g. rewrite elem_of_nil. split; [done|]. by intros (? & ?%not_elem_of_nil & _). }
  intros [Hg Hgs]%andb_true_iff. destruct (IH Hgs) as (ms & -> & Hms). unfold compiles in Hg.
  destruct (build_glob_matcher g) as [m|] eqn:E; [|done]. exists (m :: ms). split; [done|]. intros x.
  rewrite elem_of_cons, Hms. split.
  - intros [->|(pattern & Hp & Hb)]; [exists g; split; [apply list_elem_of_here|done]|].
    exists pattern. split; [by apply list_elem_of_further|done].
  - intros (pattern & [->|Hp]%elem_of_cons & Hb); [left; congruence|right; eauto].
Qed.

Lemma elem_of_dedup_runs x l : x ∈ dedup_runs l ↔ x ∈ l.
Proof.
  induction l as [|a l IH]; [done|]. destruct l as [|b l]; [done|]. cbn [dedup_runs].
  destruct (str_eqb a b) eqn:E.
  - apply str_eqb_true in E as <-. rewrite IH, !elem_of_cons. tauto.
  - rewrite elem_of_cons, IH, (elem_of_cons (b :: l)). done.
Qed.

(** The patterns of the policy, each resolved against the directory. *)
Definition deny_glob (p : FileSystemSandboxPolicy) (cwd glob : string) : Prop :=
  ∃ e pattern, e ∈ entries p ∧ access e = Deny ∧ entry_path e = GlobPattern pattern ∧
    glob = path_text (resolve_path_against_base pattern cwd).

Lemma unreadable_globs_spec p cwd glob :
  is_restricted p = true → glob ∈ get_unreadable_globs_with_cwd p cwd ↔ deny_glob p cwd glob.
Proof.
  intros Hp. unfold get_unreadable_globs_with_cwd. rewrite Hp. simpl. rewrite elem_of_dedup_runs, sort_by_perm.
  rewrite list_elem_of_omap. unfold deny_glob. split.
  - intros (e & He & Hx). exists e. destruct (access e) eqn:Ea; try done. destruct (entry_path e) as [|pattern|]; try done.
    injection Hx as <-. by exists pattern.
  - intros (e & pattern & He & Ha & Hpath & ->). exists e. split; [done|]. by rewrite Ha, Hpath.
Qed.

(** Why a path is denied: a pattern that does not compile, one that matches, or a root at or
    above it, in any of the spellings that are tried. *)
Definition read_denied (p : FileSystemSandboxPolicy) (cwd path : string) : Prop :=
  (∃ glob, deny_glob p cwd glob ∧ is_ok (build_glob_matcher glob) = false) ∨
  (∃ glob g c, deny_glob p cwd glob ∧ build_glob_matcher glob = Ok g ∧
     c ∈ normalized_and_canonical_candidates path ∧ is_glob_match g c = true) ∨
  (∃ r c d, r ∈ get_unreadable_roots_with_cwd p cwd ∧ c ∈ normalized_and_canonical_candidates path ∧
     d ∈ normalized_and_canonical_candidates (path_text r) ∧ text_path_eqb c d || text_starts_with c d = true).

Lemma existsb_iff_elem {A} (f : A → bool) l : existsb f l = true ↔ ∃ x, x ∈ l ∧ f x = true.
Proof. rewrite existsb_exists. by setoid_rewrite list_elem_of_In. Qed.

Lemma matcher_exact p cwd :
  has_denied_read_restrictions p = true →
  ∃ m, matcher_new p cwd = Some (Some m) ∧ ∀ path, is_read_denied m path = true ↔ read_denied p cwd path.
Proof.
  intros Hp. assert (is_restricted p = true) as Hr by (by apply andb_true_iff in Hp as [? _]).
  unfold matcher_new, build_matcher. rewrite Hp. simpl. set (globs := get_unreadable_globs_with_cwd p cwd).
  assert (∀ g, g ∈ globs ↔ deny_glob p cwd g) as Hglobs by (intros g; by apply unreadable_globs_spec).
  destruct (forallb compiles globs) eqn:E.
  - destruct (compile_all globs E) as (ms & -> & Hms). simpl. eexists. split; [done|]. intros path.
    unfold is_read_denied, read_denied. simpl. set (cs := normalized_and_canonical_candidates path).
    destruct (existsb _ (_ <$> _)) eqn:Hroots.
    + apply existsb_iff_elem in Hroots as (ds & Hds & (c & Hc & (d & Hd & Hcd)%existsb_iff_elem)%existsb_iff_elem).
      apply list_elem_of_fmap in Hds as (r & -> & Hrr). split; [intros _|done]. right. right. by exists r, c, d.
    + rewrite existsb_iff_elem. split.
      * intros (g & (glob & Hglob & Hg)%Hms & (c & Hc & Hm)%existsb_iff_elem). right. left. exists glob, g, c. by rewrite <-Hglobs.
      * intros [(glob & Hd%Hglobs & Hbad)|[(glob & g & c & Hd%Hglobs & Hg & Hc & Hm)|(r & c & d & Hrr & Hc & Hd & Hcd)]].
        -- rewrite forallb_forall in E. rewrite list_elem_of_In in Hd. specialize (E glob Hd). unfold compiles in E. congruence.
        -- exists g. split; [apply Hms; eauto|]. apply existsb_iff_elem. eauto.
        -- exfalso. rewrite <-not_true_iff_false in Hroots. apply Hroots, existsb_iff_elem.
           eexists. split; [apply list_elem_of_fmap; eauto|]. apply existsb_iff_elem. exists c. split; [done|]. apply existsb_iff_elem. eauto.
  - destruct (compile_closed globs) as (ms & ->). rewrite E. simpl. eexists. split; [done|]. intros path. split; [|done].
    intros _. left. apply not_true_iff_false in E. rewrite forallb_forall in E.
    destruct (decide (Exists (λ g, is_ok (build_glob_matcher g) = false) globs)) as [(g & Hg & Hbad)%Exists_exists|Hno].
    + exists g. by rewrite <-Hglobs.
    + exfalso. apply E. intros g Hg. unfold compiles. apply not_false_is_true. intros Hbad. apply Hno, Exists_exists.
      exists g. by rewrite list_elem_of_In.
Qed.
End matcher.

(** Claim C27. The read-deny matcher fails closed.  There is none exactly when the policy is not
    restricted or has no deny entry.  As soon as there is a deny entry there is a matcher, and
    it denies a path exactly when a deny pattern of the policy does not compile (then every
    path), a deny pattern matches one of the spellings of the path, or a spelling of the path
    lies at or below a spelling of one of the policy's unreadable roots; in particular a path
    at or below an unreadable root is denied, whatever the machine says of links. *)
Theorem read_deny_fails_closed `{PathEnv, FileProbe, GlobSet} p cwd :
  (matcher_new p cwd = Some None ↔ is_restricted p = false ∨ ∀ e, e ∈ entries p → access e ≠ Deny) ∧
  (∀ e, is_restricted p = true → e ∈ entries p → access e = Deny →
     ∃ m, matcher_new p cwd = Some (Some m) ∧
       (∀ path, is_read_denied m path = true ↔ read_denied p cwd path) ∧
       (∀ r t, r ∈ get_unreadable_roots_with_cwd p cwd → abs_ok r → abs_ok t → path_starts_with t r = true →
          is_read_denied m (path_text t) = true)).
Proof.
  assert (has_denied_read_restrictions p = true ↔ is_restricted p = true ∧ ∃ e, e ∈ entries p ∧ access e = Deny) as Hhas.
  { unfold has_denied_read_restrictions. rewrite andb_true_iff, existsb_iff_elem.
    assert (∀ a, is_deny a = true ↔ a = Deny) as Ha by (by intros []). by setoid_rewrite Ha. }
  split.
  - destruct (has_denied_read_restrictions p) eqn:E.
    + destruct (matcher_exact p cwd E) as (m & -> & _). split; [done|]. intros Hno. exfalso.
      destruct (proj1 Hhas eq_refl) as (Hr & e & He & Ha). destruct Hno as [?|Hno]; [congruence|by apply (Hno e)].
    + unfold matcher_new, build_matcher. rewrite E. simpl. split; [intros _|done].
      destruct (is_restricted p); [right|by left]. intros e He Ha. assert (false = true) as Hf; [|done]. apply Hhas. eauto.
  - intros e Hr He Ha. destruct (matcher_exact p cwd) as (m & Hm & Hspec); [apply Hhas; eauto|]. exists m. split_and!; [done..|].
    intros r t Hrr Hrok Htok Hs. apply Hspec. right. right. exists r, (path_text t), (path_text r).
    split_and!; [done|by apply own_candidate..|]. rewrite (text_starts_with_abs t r) by done. apply orb_true_r.
Qed.

Definition no_globs : GlobSet :=
  {| GlobMatcher := Empty_set; build_glob_matcher := λ _, Err "unsupported"; is_glob_match := λ m _, match m with end |}.

Lemma read_deny_fails_closed_witness :
  let env := sample_env in let probe := sample_probe in let globs := no_globs in
  let secret := entry (FsPath (abs ["secret"])) Deny in
  let p := restricted [entry (Special SpecialRoot) Read; secret] in
  secret ∈ entries p ∧ ∃ m, matcher_new p "/work" = Some (Some m) ∧ is_read_denied m "/secret/key" = true.
Proof.
  intros env probe globs secret p. assert (secret ∈ entries p) as He by (apply list_elem_of_further, list_elem_of_here).
  split; [done|]. destruct (read_deny_fails_closed p "/work") as [_ Hden].
  destruct (Hden secret eq_refl He eq_refl) as (m & Hm & _ & Hroot). exists m. split; [done|].
  by apply (Hroot (abs ["secret"]) (abs ["secret"; "key"])); [apply list_elem_of_here|repeat constructor..|].
Defined.
