(* ===== verification/ApprovalPolicy.v ===== *)
(** * Approval of commands

    codex-rs/core/src/exec_policy.rs, the build that is not Windows (so the command origin is
    always generic and the Windows sandbox level is not looked at), the rule-file writer of
    execpolicy/src/amend.rs, and the approval types and defaults of
    core/src/tools/sandboxing.rs.

    [shlex::try_join] is the parameter [Shlex].  What the operating system answers while a
    rule is appended is the parameter [AmendIo], and while rules are loaded [RuleFiles].  The
    semaphore of the manager makes updates one after the other, so an update is one step
    from a policy and a rule file to the next; a task that the runtime cancels is left out,
    as are log messages.  The one [expect] of the policy check is the outer [None], which a
    list of commands does not reach ([requirement_total]). *)

From S2P Require Import Prelude Str Utf8 Json Fragments AbsPath ShellCommand ExecPolicy PolicyParser Permissions.

(** ** Data *)

Record GranularApprovalConfig := {
  sandbox_approval : bool;
  rules : bool;
  skill_approval : bool;
  request_permissions : bool;
  mcp_elicitations : bool;
}.

Inductive AskForApproval :=
| UnlessTrusted
| OnFailure
| OnRequest
| Granular (granular_config : GranularApprovalConfig)
| Never.

Definition allows_sandbox_approval (g : GranularApprovalConfig) : bool := sandbox_approval g.
Definition allows_rules_approval (g : GranularApprovalConfig) : bool := rules g.

Inductive SandboxPermissions := UseDefault | RequireEscalated | WithAdditionalPermissions.

Definition requires_escalated_permissions (s : SandboxPermissions) : bool :=
  match s with RequireEscalated => true | _ => false end.
Definition requests_sandbox_override (s : SandboxPermissions) : bool :=
  match s with UseDefault => false | _ => true end.
Definition uses_additional_permissions (s : SandboxPermissions) : bool :=
  match s with WithAdditionalPermissions => true | _ => false end.

Record ExecPolicyAmendment := { amendment_command : list string }.

Inductive ExecApprovalRequirement :=
| Skip (bypass_sandbox : bool) (proposed_execpolicy_amendment : option ExecPolicyAmendment)
| NeedsApproval (reason : option string) (proposed_execpolicy_amendment : option ExecPolicyAmendment)
| RequirementForbidden (reason : string).

Definition proposed_execpolicy_amendment (r : ExecApprovalRequirement) : option ExecPolicyAmendment :=
  match r with
  | NeedsApproval _ (Some prefix) => Some prefix
  | Skip _ (Some prefix) => Some prefix
  | _ => None
  end.

Record UnmatchedCommandContext := {
  approval_policy : AskForApproval;
  permission_profile : PermissionProfile;
  sandbox_permissions : SandboxPermissions;
  used_complex_parsing : bool;
}.

Record ExecPolicyCommands := { commands : list (list string); commands_complex : bool }.

Record ExecApprovalRequest := {
  req_command : list string;
  req_approval_policy : AskForApproval;
  req_permission_profile : PermissionProfile;
  req_sandbox_permissions : SandboxPermissions;
  req_prefix_rule : option (list string);
}.

Class Shlex := { shlex_try_join : list string → option string }.

(** ** Constants *)

Definition PROMPT_CONFLICT_REASON : string := "approval required by policy, but AskForApproval is set to Never".
Definition REJECT_SANDBOX_APPROVAL_REASON : string :=
  "approval required by policy, but AskForApproval::Granular.sandbox_approval is false".
Definition REJECT_RULES_APPROVAL_REASON : string :=
  "approval required by policy rule, but AskForApproval::Granular.rules is false".
Definition RULES_DIR_NAME : string := "rules".
Definition RULE_EXTENSION : string := "rules".
Definition DEFAULT_POLICY_FILE : string := "default.rules".

Definition BANNED_PREFIX_SUGGESTIONS : list (list string) :=
  [["python3"]; ["python3"; "-"]; ["python3"; "-c"]; ["python"]; ["python"; "-"]; ["python"; "-c"]; ["py"];
   ["py"; "-3"]; ["pythonw"]; ["pyw"]; ["pypy"]; ["pypy3"]; ["git"]; ["bash"]; ["bash"; "-lc"]; ["sh"];
   ["sh"; "-c"]; ["sh"; "-lc"]; ["zsh"]; ["zsh"; "-lc"]; ["/bin/zsh"]; ["/bin/zsh"; "-lc"]; ["/bin/bash"];
   ["/bin/bash"; "-lc"]; ["pwsh"]; ["pwsh"; "-Command"]; ["pwsh"; "-c"]; ["powershell"];
   ["powershell"; "-Command"]; ["powershell"; "-c"]; ["powershell.exe"]; ["powershell.exe"; "-Command"];
   ["powershell.exe"; "-c"]; ["env"]; ["sudo"]; ["node"]; ["node"; "-e"]; ["perl"]; ["perl"; "-e"]; ["ruby"];
   ["ruby"; "-e"]; ["php"]; ["php"; "-r"]; ["lua"]; ["lua"; "-e"]; ["osascript"]].

(** ** Decisions *)

Definition is_policy_match (m : RuleMatch) : bool :=
  match m with PrefixRuleMatch _ _ _ _ => true | HeuristicsRuleMatch _ _ => false end.

Definition is_policy_match_with (d : Decision) (m : RuleMatch) : bool :=
  is_policy_match m && bool_decide (match_decision m = d).

Definition prompt_is_rejected_by_policy (policy : AskForApproval) (prompt_is_rule : bool) : option string :=
  match policy with
  | Never => Some PROMPT_CONFLICT_REASON
  | OnFailure | OnRequest | UnlessTrusted => None
  | Granular granular_config =>
      if prompt_is_rule then
        if negb (allows_rules_approval granular_config) then Some REJECT_RULES_APPROVAL_REASON else None
      else if negb (allows_sandbox_approval granular_config) then Some REJECT_SANDBOX_APPROVAL_REASON else None
  end.

Section decisions.
Context `{BashGrammar}.

(** The decision under [OnRequest] and [Granular] for a command that is not dangerous. *)
Definition sandbox_kind_decision (profile : PermissionProfile) (s : SandboxPermissions) : Decision :=
  match Permissions.kind (file_system_sandbox_policy profile) with
  | KindUnrestricted | KindExternalSandbox => Allow
  | KindRestricted => if requests_sandbox_override s then Prompt else Allow
  end.

Definition render_decision_for_unmatched_command (command : list string) (context : UnmatchedCommandContext) :
    Decision :=
  let is_known_safe := is_known_safe_command command in
  if is_known_safe && negb (used_complex_parsing context)
     && match approval_policy context with UnlessTrusted => true | _ => false end
  then Allow
  else if command_might_be_dangerous command then
    match approval_policy context with
    | Never =>
        match permission_profile context with
        | Disabled | External _ => Allow
        | Managed _ _ => Forbidden
        end
    | OnFailure | OnRequest | UnlessTrusted | Granular _ => Prompt
    end
  else
    match approval_policy context with
    | Never | OnFailure => Allow
    | UnlessTrusted => Prompt
    | OnRequest | Granular _ => sandbox_kind_decision (permission_profile context) (sandbox_permissions context)
    end.

Definition commands_for_exec_policy (command : list string) : ExecPolicyCommands :=
  match parse_shell_lc_plain_commands command with
  | Some (c :: cs) => {| commands := c :: cs; commands_complex := false |}
  | _ =>
      match parse_shell_lc_single_command_prefix command with
      | Some single_command => {| commands := [single_command]; commands_complex := true |}
      | None => {| commands := [command]; commands_complex := false |}
      end
  end.

(** ** Amendments *)

Definition try_derive_execpolicy_amendment_for_prompt_rules (ms : list RuleMatch) : option ExecPolicyAmendment :=
  if existsb (is_policy_match_with Prompt) ms then None
  else head (omap (λ m, match m with
                        | HeuristicsRuleMatch command Prompt => Some {| amendment_command := command |}
                        | _ => None
                        end) ms).

Definition try_derive_execpolicy_amendment_for_allow_rules (ms : list RuleMatch) : option ExecPolicyAmendment :=
  if existsb is_policy_match ms then None
  else head (omap (λ m, match m with
                        | HeuristicsRuleMatch command Allow => Some {| amendment_command := command |}
                        | _ => None
                        end) ms).

Section policies.
Context `{PathEnv, Shlex}.

Definition prefix_rule_would_approve_all_commands (exec_policy : Policy) (prefix_rule : list string)
    (cmds : list (list string)) (fallback : list string → Decision) : bool :=
  match add_prefix_rule prefix_rule Allow exec_policy with
  | Err _ => false
  | Ok policy_with_prefix_rule =>
      forallb (λ command,
        match check_with_options policy_with_prefix_rule command fallback true with
        | Some e => bool_decide (decision e = Allow)
        | None => false
        end) cmds
  end.

Definition derive_requested_execpolicy_amendment_from_prefix_rule (prefix_rule : option (list string))
    (ms : list RuleMatch) (exec_policy : Policy) (cmds : list (list string))
    (fallback : list string → Decision) : option ExecPolicyAmendment :=
  match prefix_rule with
  | None | Some [] => None
  | Some prefix_rule =>
      if existsb (λ banned, bool_decide (prefix_rule = banned)) BANNED_PREFIX_SUGGESTIONS then None
      else if existsb is_policy_match ms then None
      else if prefix_rule_would_approve_all_commands exec_policy prefix_rule cmds fallback
      then Some {| amendment_command := prefix_rule |} else None
  end.

(** ** Reasons *)

Definition render_shlex_command (args : list string) : string := default (join " " args) (shlex_try_join args).

(** The longest matched prefix among the rule matches of a decision, with its justification. *)
Definition most_specific (d : Decision) (ms : list RuleMatch) : option (list string * option string) :=
  max_by (λ a b, length a.1 <=? length b.1)
    (omap (λ m, match m with
                | PrefixRuleMatch matched_prefix d' _ justification =>
                    if bool_decide (d' = d) then Some (matched_prefix, justification) else None
                | _ => None
                end) ms).

Definition derive_prompt_reason (command_args : list string) (evaluation : Evaluation) : option string :=
  let command := render_shlex_command command_args in
  match most_specific Prompt (matched_rules evaluation) with
  | Some (_, Some justification) => Some ("`" +:+ (command +:+ ("` requires approval: " +:+ justification)))
  | Some (_, None) => Some ("`" +:+ (command +:+ "` requires approval by policy"))
  | None => None
  end.

Definition derive_forbidden_reason (command_args : list string) (evaluation : Evaluation) : string :=
  let command := render_shlex_command command_args in
  match most_specific Forbidden (matched_rules evaluation) with
  | Some (_, Some justification) => "`" +:+ (command +:+ ("` rejected: " +:+ justification))
  | Some (matched_prefix, None) =>
      let prefix := render_shlex_command matched_prefix in
      "`" +:+ (command +:+ ("` rejected: policy forbids commands starting with `" +:+ (prefix +:+ "`")))
  | None => "`" +:+ (command +:+ "` rejected: blocked by policy")
  end.

(** ** The requirement for a command *)

Definition request_fallback (req : ExecApprovalRequest) (cmds : ExecPolicyCommands) (cmd : list string) : Decision :=
  render_decision_for_unmatched_command cmd
    {| approval_policy := req_approval_policy req; permission_profile := req_permission_profile req;
       sandbox_permissions := req_sandbox_permissions req; used_complex_parsing := commands_complex cmds |}.

(** The command is explicitly allowed by a rule. *)
Definition explicitly_allowed (exec_policy : Policy) (command : list string) : bool :=
  existsb (is_policy_match_with Allow) (matches_for_command_with_options exec_policy command None true).

Definition create_exec_approval_requirement_for_command (exec_policy : Policy) (req : ExecApprovalRequest) :
    option ExecApprovalRequirement :=
  let cmds := commands_for_exec_policy (req_command req) in
  let auto_amendment_allowed := negb (commands_complex cmds) in
  let fallback := request_fallback req cmds in
  match check_multiple_with_options exec_policy (commands cmds) fallback true with
  | None => None
  | Some evaluation =>
      let requested_amendment :=
        if auto_amendment_allowed then
          derive_requested_execpolicy_amendment_from_prefix_rule (req_prefix_rule req) (matched_rules evaluation)
            exec_policy (commands cmds) fallback
        else None in
      Some match decision evaluation with
      | Forbidden => RequirementForbidden (derive_forbidden_reason (req_command req) evaluation)
      | Prompt =>
          let prompt_is_rule := existsb (is_policy_match_with Prompt) (matched_rules evaluation) in
          match prompt_is_rejected_by_policy (req_approval_policy req) prompt_is_rule with
          | Some reason => RequirementForbidden reason
          | None =>
              NeedsApproval (derive_prompt_reason (req_command req) evaluation)
                (opt_or requested_amendment
                   (if auto_amendment_allowed
                    then try_derive_execpolicy_amendment_for_prompt_rules (matched_rules evaluation)
                    else None))
          end
      | Allow =>
          Skip (forallb (explicitly_allowed exec_policy) (commands cmds))
            (if auto_amendment_allowed
             then try_derive_execpolicy_amendment_for_allow_rules (matched_rules evaluation) else None)
      end
  end.
End policies.
End decisions.

(** ** tools/sandboxing.rs *)

Definition default_exec_approval_requirement (policy : AskForApproval) (fs : FileSystemSandboxPolicy) :
    ExecApprovalRequirement :=
  let needs_approval :=
    match policy with
    | Never | OnFailure => false
    | OnRequest | Granular _ => is_restricted fs
    | UnlessTrusted => true
    end in
  if needs_approval && match policy with Granular g => negb (allows_sandbox_approval g) | _ => false end
  then RequirementForbidden "approval policy disallowed sandbox approval prompt"
  else if needs_approval then NeedsApproval None None
  else Skip false None.

Inductive SandboxOverride := NoOverride | BypassSandboxFirstAttempt.

Definition unsandboxed_execution_allowed (fs : FileSystemSandboxPolicy) : bool :=
  negb (has_denied_read_restrictions fs).

Definition sandbox_override_for_first_attempt (s : SandboxPermissions) (r : ExecApprovalRequirement)
    (fs : FileSystemSandboxPolicy) : SandboxOverride :=
  if negb (unsandboxed_execution_allowed fs) then NoOverride
  else match r with
       | Skip true _ => BypassSandboxFirstAttempt
       | _ => if requires_escalated_permissions s then BypassSandboxFirstAttempt else NoOverride
       end.

Definition sandbox_permissions_preserving_denied_reads (s : SandboxPermissions) (fs : FileSystemSandboxPolicy) :
    SandboxPermissions :=
  if requires_escalated_permissions s && negb (unsandboxed_execution_allowed fs) then UseDefault else s.

Definition should_bypass_approval (policy : AskForApproval) (already_approved : bool) : bool :=
  if already_approved then true else match policy with Never => true | _ => false end.

Definition wants_no_sandbox_approval (policy : AskForApproval) : bool :=
  match policy with
  | OnFailure | UnlessTrusted => true
  | Never | OnRequest => false
  | Granular g => sandbox_approval g
  end.

(** ** amend.rs: the rule file *)

(** [Path::join] with a plain name *)
Definition push_name (p : PathBuf) (name : string) : PathBuf :=
  {| rooted := rooted p; names := names p ++ [name] |}.

(** The invalid network rule carries the error; the source keeps its text. *)
Inductive AmendError :=
| EmptyPrefix
| InvalidNetworkRule (e : Error)
| MissingParent (path : PathBuf)
| CreatePolicyDir (dir : PathBuf) (source : string)
| OpenPolicyFile (path : PathBuf) (source : string)
| WritePolicyFile (path : PathBuf) (source : string)
| LockPolicyFile (path : PathBuf) (source : string)
| SeekPolicyFile (path : PathBuf) (source : string)
| ReadPolicyFile (path : PathBuf) (source : string).

(** What the operating system answers during one append: an error of each call, if any.  A
    failed write has written a part of the text.  [create_dir] reports an existing directory
    with an error of its own kind. *)
Record AmendIo := {
  create_dir_error : option (bool * string);   (** [true]: [AlreadyExists] *)
  open_error : option string;
  lock_error : option string;
  seek_error : option string;
  read_error : option string;
  newline_error : option (nat * string);
  line_error : option (nat * string);
}.

Definition no_errors : AmendIo :=
  {| create_dir_error := None; open_error := None; lock_error := None; seek_error := None; read_error := None;
     newline_error := None; line_error := None |}.

(** [file.write_all(text)] at the end of the file. *)
Definition append_text (err : option (nat * string)) (text contents : string) : Result unit string * string :=
  match err with
  | None => (Ok tt, contents +:+ text)
  | Some (n, e) => (Err e, contents +:+ str_take n text)
  end.

Definition locked_append (io : AmendIo) (policy_path : PathBuf) (line : string) (file : option string) :
    Result unit AmendError * option string :=
  match open_error io with
  | Some e => (Err (OpenPolicyFile policy_path e), file)
  | None =>
      let contents := default EmptyString file in
      match lock_error io, seek_error io, read_error io with
      | Some e, _, _ => (Err (LockPolicyFile policy_path e), Some contents)
      | None, Some e, _ => (Err (SeekPolicyFile policy_path e), Some contents)
      | None, None, Some e => (Err (ReadPolicyFile policy_path e), Some contents)
      | None, None, None =>
          if existsb (str_eqb line) (lines contents) then (Ok tt, Some contents)
          else
            let '(r, contents) :=
              if negb (str_is_empty contents) && negb (ends_with NL contents)
              then append_text (newline_error io) NL contents else (Ok tt, contents) in
            match r with
            | Err e => (Err (WritePolicyFile policy_path e), Some contents)
            | Ok _ =>
                let '(r, contents) := append_text (line_error io) (line +:+ NL) contents in
                (map_err (WritePolicyFile policy_path) r, Some contents)
            end
      end
  end.

Definition append_rule_line (io : AmendIo) (policy_path : PathBuf) (rule : string) (file : option string) :
    Result unit AmendError * option string :=
  match parent policy_path with
  | None => (Err (MissingParent policy_path), file)
  | Some dir =>
      match create_dir_error io with
      | Some (false, e) => (Err (CreatePolicyDir dir e), file)
      | _ => locked_append io policy_path rule file
      end
  end.

Section amend.
Context `{SerdeJson}.

(** [serde_json::to_string] of a string, which does not fail. *)
Definition json_string (s : string) : string := to_string (VString s).

Definition prefix_rule_line (prefix : list string) : string :=
  "prefix_rule(pattern=[" +:+ (join ", " (json_string <$> prefix) +:+ ("], decision=" +:+ (dquote +:+ ("allow" +:+ (dquote +:+ ")"))))).

Definition blocking_append_allow_prefix_rule (io : AmendIo) (policy_path : PathBuf) (prefix : list string)
    (file : option string) : Result unit AmendError * option string :=
  match prefix with
  | [] => (Err EmptyPrefix, file)
  | _ => append_rule_line io policy_path (prefix_rule_line prefix) file
  end.

Definition network_decision_name (d : Decision) : string :=
  match d with Allow => "allow" | Prompt => "prompt" | Forbidden => "deny" end.

Definition network_rule_line (host : string) (protocol : NetworkRuleProtocol) (d : Decision)
    (justification : option string) : string :=
  "network_rule(" +:+ (join ", "
    (["host=" +:+ json_string host; "protocol=" +:+ json_string (as_policy_string protocol);
      "decision=" +:+ json_string (network_decision_name d)]
     ++ match justification with Some j => ["justification=" +:+ json_string j] | None => [] end) +:+ ")").

Definition blocking_append_network_rule (io : AmendIo) (policy_path : PathBuf) (host : string)
    (protocol : NetworkRuleProtocol) (d : Decision) (justification : option string) (file : option string) :
    Result unit AmendError * option string :=
  match normalize_network_rule_host host with
  | Err e => (Err (InvalidNetworkRule e), file)
  | Ok host =>
      if blank justification
      then (Err (InvalidNetworkRule (InvalidRule "justification cannot be empty")), file)
      else append_rule_line io policy_path (network_rule_line host protocol d justification) file
  end.

(** ** Updates of the manager *)

Inductive ExecPolicyUpdateError :=
| AppendRule (path : PathBuf) (source : AmendError)
| AddRule (source : Error).

(** The policy in memory and the default rule file. *)
Record Manager := { policy : Policy; rule_file : option string }.

Context `{PathEnv}.

Definition default_policy_path (codex_home : PathBuf) : PathBuf :=
  push_name (push_name codex_home RULES_DIR_NAME) DEFAULT_POLICY_FILE.

Definition already_allowed (current_policy : Policy) (command : list string) : bool :=
  match check_multiple_with_options current_policy [command] (λ _, Forbidden) true with
  | Some existing_evaluation =>
      bool_decide (decision existing_evaluation = Allow)
      && existsb (is_policy_match_with Allow) (matched_rules existing_evaluation)
  | None => false
  end.

Definition append_amendment_and_update (io : AmendIo) (codex_home : PathBuf) (amendment : ExecPolicyAmendment)
    (m : Manager) : Result unit ExecPolicyUpdateError * Manager :=
  let policy_path := default_policy_path codex_home in
  let command := amendment_command amendment in
  let '(r, file) := blocking_append_allow_prefix_rule io policy_path command (rule_file m) in
  let m := {| policy := policy m; rule_file := file |} in
  match r with
  | Err source => (Err (AppendRule policy_path source), m)
  | Ok _ =>
      if already_allowed (policy m) command then (Ok tt, m)
      else match add_prefix_rule command Allow (policy m) with
           | Err source => (Err (AddRule source), m)
           | Ok updated_policy => (Ok tt, {| policy := updated_policy; rule_file := file |})
           end
  end.

Definition append_network_rule_and_update (io : AmendIo) (codex_home : PathBuf) (host : string)
    (protocol : NetworkRuleProtocol) (d : Decision) (justification : option string) (m : Manager) :
    Result unit ExecPolicyUpdateError * Manager :=
  let policy_path := default_policy_path codex_home in
  let '(r, file) := blocking_append_network_rule io policy_path host protocol d justification (rule_file m) in
  let m := {| policy := policy m; rule_file := file |} in
  match r with
  | Err source => (Err (AppendRule policy_path source), m)
  | Ok _ =>
      match add_network_rule host protocol d justification (policy m) with
      | Err source => (Err (AddRule source), m)
      | Ok updated_policy => (Ok tt, {| policy := updated_policy; rule_file := file |})
      end
  end.
End amend.

(** ** Loading *)

(** [ConfigLayerSource] of app-server-protocol *)
Inductive ConfigLayerSource :=
| Mdm (domain key : string)
| System (file : AbsolutePathBuf)
| EnterpriseManaged (id name : string)
| User (file : AbsolutePathBuf) (profile : option string)
| Project (dot_codex_folder : AbsolutePathBuf)
| SessionFlags
| LegacyManagedConfigTomlFromFile (file : AbsolutePathBuf)
| LegacyManagedConfigTomlFromMdm.

Record ConfigLayerEntry := { layer_name : ConfigLayerSource; is_disabled : bool }.

Definition config_folder (layer : ConfigLayerEntry) : option AbsolutePathBuf :=
  match layer_name layer with
  | System file | User file _ => parent file
  | Project dot_codex_folder => Some dot_codex_folder
  | _ => None
  end.

(** The parts of [ConfigLayerStack] that are read: the layers, lowest precedence first. *)
Record ConfigLayerStack := {
  layers : list ConfigLayerEntry;
  ignore_user_and_project_exec_policy_rules : bool;
  requirements_exec_policy : option Policy;
}.

(** [get_layers(LowestPrecedenceFirst, include_disabled: false)] *)
Definition get_layers (s : ConfigLayerStack) : list ConfigLayerEntry :=
  List.filter (λ layer, negb (is_disabled layer)) (layers s).

Inductive ExecPolicyError :=
| ReadDir (dir : PathBuf) (source : string)
| ReadFile (path : PathBuf) (source : string)
| ParsePolicy (path : string) (source : Error).

(** What the operating system answers: a directory that is missing, cannot be read, or
    yields entries, each an error or a path with the outcome of asking for its type; and the
    contents of files. *)
Inductive DirListing :=
| DirMissing
| DirFailed (source : string)
| DirEntries (l : list (Result (PathBuf * Result bool string) string)).

Class RuleFiles := {
  read_dir : PathBuf → DirListing;
  read_rule_file : PathBuf → Result string string;
}.

(** [Path::extension] of a name *)
Definition extension (name : string) : option string :=
  match before_last_dot name with
  | None | Some EmptyString => None
  | Some stem => Some (str_drop (S (String.length stem)) name)
  end.

Definition has_rule_extension (path : PathBuf) : bool :=
  bool_decide (file_name path ≫= extension = Some RULE_EXTENSION).

(** One entry of the directory. *)
Definition collect_entry (dir : PathBuf) (paths : list PathBuf) (e : Result (PathBuf * Result bool string) string) :
    Result (list PathBuf) ExecPolicyError :=
  match e with
  | Err source => Err (ReadDir dir source)
  | Ok (path, Err source) => Err (ReadDir dir source)
  | Ok (path, Ok is_file) => Ok (if has_rule_extension path && is_file then paths ++ [path] else paths)
  end.

Section loading.
Context `{RuleFiles, Starlark, PathEnv}.

Definition collect_policy_files (dir : PathBuf) : Result (list PathBuf) ExecPolicyError :=
  match read_dir dir with
  | DirMissing => Ok []
  | DirFailed source => Err (ReadDir dir source)
  | DirEntries l => let? paths := fold_res (collect_entry dir) [] l in Ok (sort_by path_leb paths)
  end.

Definition user_or_project (layer : ConfigLayerEntry) : bool :=
  match layer_name layer with User _ _ | Project _ => true | _ => false end.

Definition collect_layer (s : ConfigLayerStack) (paths : list PathBuf) (layer : ConfigLayerEntry) :
    Result (list PathBuf) ExecPolicyError :=
  if ignore_user_and_project_exec_policy_rules s && user_or_project layer then Ok paths
  else match config_folder layer with
       | None => Ok paths
       | Some folder =>
           let? layer_paths := collect_policy_files (abs_join folder RULES_DIR_NAME) in
           Ok (paths ++ layer_paths)
       end.

Definition parse_file (b : PolicyBuilder) (policy_path : PathBuf) : Result PolicyBuilder ExecPolicyError :=
  match read_rule_file policy_path with
  | Err source => Err (ReadFile policy_path source)
  | Ok contents =>
      let identifier := path_text policy_path in
      match parse identifier contents b with
      | (b', Ok _) => Ok b'
      | (_, Err source) => Err (ParsePolicy identifier source)
      end
  end.

Definition load_exec_policy (s : ConfigLayerStack) : Result Policy ExecPolicyError :=
  let? policy_paths := fold_res (collect_layer s) [] (get_layers s) in
  let? parser := fold_res parse_file new_builder policy_paths in
  Ok match requirements_exec_policy s with
     | None => build parser
     | Some requirements_policy => merge_overlay (build parser) requirements_policy
     end.

Definition load_exec_policy_with_warning (s : ConfigLayerStack) :
    Result (Policy * option ExecPolicyError) ExecPolicyError :=
  match load_exec_policy s with
  | Ok policy => Ok (policy, None)
  | Err (ParsePolicy _ _ as err) => Ok (empty_policy, Some err)
  | Err err => Err err
  end.

(** [ExecPolicyManager::load]: the policy it starts with. *)
Definition load (s : ConfigLayerStack) : Result Policy ExecPolicyError :=
  let? '(policy, _) := load_exec_policy_with_warning s in Ok policy.

Definition check_execpolicy_for_warnings (s : ConfigLayerStack) : Result (option ExecPolicyError) ExecPolicyError :=
  let? '(_, warning) := load_exec_policy_with_warning s in Ok warning.
End loading.
