(* ===== verification/ApprovalFacts.v ===== *)
(** * What the approval decision promises

    Theorems about ApprovalPolicy.v: when a command runs without asking, when outside the
    sandbox, what an accepted rule changes, and that the requirements of an administrator are
    part of the policy that is loaded. *)

From S2P Require Import Prelude Str Utf8 Json Fragments AbsPath PathFacts ShellCommand ShellSafety ExecPolicy.
From S2P Require Import ExecPolicyFacts PolicyParser Permissions ApprovalPolicy.

(** ** Evaluations *)

Lemma severity_allow d : severity d ≤ severity Allow → d = Allow.
Proof. destruct d; simpl; [done|lia|lia]. Qed.

Lemma severity_forbidden d : severity Forbidden ≤ severity d → d = Forbidden.
Proof. destruct d; simpl; [lia|lia|done]. Qed.

Lemma policy_match_with_iff d ms :
  existsb (is_policy_match_with d) ms = true ↔ ∃ m, m ∈ ms ∧ is_policy_match m = true ∧ match_decision m = d.
Proof.
  rewrite existsb_exists. unfold is_policy_match_with. setoid_rewrite andb_true_iff.
  setoid_rewrite bool_decide_eq_true. setoid_rewrite <-list_elem_of_In. done.
Qed.

Section evaluation.
Context `{PathEnv}.

(** All matches of all commands. *)
Definition all_matches (p : Policy) (cmds : list (list string)) (fb : list string → Decision) : list RuleMatch :=
  cmds ≫= λ command, matches_for_command_with_options p command (Some fb) true.

Lemma check_multiple_spec p cmds fb :
  cmds ≠ [] →
  ∃ e, check_multiple_with_options p cmds fb true = Some e ∧ matched_rules e = all_matches p cmds fb ∧
       strictest (all_matches p cmds fb) (decision e).
Proof.
  intros Hne. apply from_matches_spec. destruct cmds as [|c cs]; [done|]. simpl.
  intros [Hn _]%app_eq_nil. by eapply matches_nonempty.
Qed.

Lemma elem_of_all_matches p cmds fb m :
  m ∈ all_matches p cmds fb ↔
  ∃ c, c ∈ cmds ∧ m ∈ matches_for_command_with_options p c (Some fb) true.
Proof. unfold all_matches. rewrite list_elem_of_bind. naive_solver. Qed.

(** Without matching rules the heuristic is the only match. *)
Lemma matches_cases p cmd fb :
  let ms := matches_for_command_with_options p cmd None true in
  (ms ≠ [] ∧ matches_for_command_with_options p cmd (Some fb) true = ms ∧ forallb is_policy_match ms = true) ∨
  (ms = [] ∧ matches_for_command_with_options p cmd (Some fb) true = [HeuristicsRuleMatch cmd (fb cmd)]).
Proof.
  unfold matches_for_command_with_options. set (ms := default [] _).
  assert (forallb is_policy_match ms = true) as Hp; [|destruct ms as [|m l]; [by right|left; by split_and!]].
  apply forallb_forall. intros m Hm%list_elem_of_In. unfold ms in Hm.
  assert (∀ (rs : list PrefixRule) c, m ∈ omap (λ rule, rule_matches rule c) rs → is_policy_match m = true) as Hr.
  { intros rs c (r & _ & (_ & _ & pre & _ & ->)%rule_matches_covers)%list_elem_of_omap. done. }
  destruct (match_exact_rules p cmd) as [[|m0 l]|] eqn:E; simpl in Hm.
  2:{ unfold match_exact_rules in E. destruct cmd; [done|]. injection E as E. rewrite <-E in Hm. eauto. }
  all: assert (m ∈ match_host_executable_rules p cmd) as Hh by (by destruct (match_host_executable_rules p cmd)).
  all: unfold match_host_executable_rules in Hh; repeat case_match;
    try (by apply not_elem_of_nil in Hh);
    apply list_elem_of_fmap in Hh as (m' & -> & (rule & _ & Hrm)%list_elem_of_omap);
    by apply rule_matches_covers in Hrm as (_ & _ & pre & _ & ->).
Qed.
End evaluation.

(** ** The requirement *)

Section requirement.
Context `{BashGrammar, PathEnv, Shlex}.

Lemma commands_nonempty command : commands (commands_for_exec_policy command) ≠ [].
Proof. unfold commands_for_exec_policy. by repeat case_match. Qed.

(** The requirement as a function of the evaluation. *)
Lemma requirement_eval p req :
  let cmds := commands_for_exec_policy (req_command req) in
  let ms := all_matches p (commands cmds) (request_fallback req cmds) in
  ∃ e r, create_exec_approval_requirement_for_command p req = Some r ∧
    check_multiple_with_options p (commands cmds) (request_fallback req cmds) true = Some e ∧
    matched_rules e = ms ∧ strictest ms (decision e) ∧
    match decision e with
    | Forbidden => ∃ reason, r = RequirementForbidden reason
    | Prompt =>
        match prompt_is_rejected_by_policy (req_approval_policy req) (existsb (is_policy_match_with Prompt) ms) with
        | Some reason => r = RequirementForbidden reason
        | None => ∃ reason a, r = NeedsApproval reason a
        end
    | Allow => ∃ a, r = Skip (forallb (explicitly_allowed p) (commands cmds)) a
    end.
Proof.
  intros cmds ms.
  destruct (check_multiple_spec p (commands cmds) (request_fallback req cmds)) as (e & He & Hm & Hs);
    [apply commands_nonempty|].
  exists e. unfold create_exec_approval_requirement_for_command. fold cmds. rewrite He.
  eexists. split; [done|]. split_and!; [done|done|done|]. rewrite Hm.
  destruct (decision e); [eauto| |eauto]. fold ms. destruct (prompt_is_rejected_by_policy _ _); eauto.
Qed.

(** No request makes the check panic. *)
Lemma requirement_total p req : is_Some (create_exec_approval_requirement_for_command p req).
Proof. destruct (requirement_eval p req) as (e & r & -> & _). by eexists. Qed.

Lemma rule_match_counts p cmds fb c m :
  c ∈ cmds → m ∈ matches_for_command_with_options p c None true → m ∈ all_matches p cmds fb.
Proof.
  intros Hc Hm. apply elem_of_all_matches. exists c. split; [done|].
  destruct (matches_cases p c fb) as [(_ & -> & _)|[Hn _]]; [done|].
  rewrite Hn in Hm. by apply not_elem_of_nil in Hm.
Qed.

Lemma heuristic_counts p cmds fb c :
  c ∈ cmds → matches_for_command_with_options p c None true = [] →
  HeuristicsRuleMatch c (fb c) ∈ all_matches p cmds fb.
Proof.
  intros Hc Hn. apply elem_of_all_matches. exists c. split; [done|].
  destruct (matches_cases p c fb) as [(? & _)|[_ ->]]; [done|]. by apply list_elem_of_singleton.
Qed.

(** When a request is skipped, nothing asked for more. *)
Lemma skip_all_allow p req bypass a :
  create_exec_approval_requirement_for_command p req = Some (Skip bypass a) →
  let cmds := commands_for_exec_policy (req_command req) in
  bypass = forallb (explicitly_allowed p) (commands cmds) ∧
  ∀ m, m ∈ all_matches p (commands cmds) (request_fallback req cmds) → match_decision m = Allow.
Proof.
  intros Hr cmds. destruct (requirement_eval p req) as (e & r & Hr' & _ & _ & [Hall _] & Hd).
  rewrite Hr in Hr'. injection Hr' as <-. fold cmds in Hall, Hd.
  destruct (decision e); [|by repeat case_match; destruct_and?; naive_solver|naive_solver].
  destruct Hd as (a' & [= -> _]). split; [done|]. intros m Hm. rewrite Forall_forall in Hall.
  by apply severity_allow, Hall.
Qed.

Lemma explicitly_allowed_rule p c :
  explicitly_allowed p c = true → matches_for_command_with_options p c None true ≠ [].
Proof. unfold explicitly_allowed. by destruct (matches_for_command_with_options p c None true). Qed.
End requirement.

(** Claim C18. The requirement for a command always exists and is never looser than the
    policy and the settings.  One forbidding rule for one command of a script forbids it;
    the approval is skipped only if every matching rule of every command allows it and the
    heuristics allow every command without a rule; the sandbox is bypassed only if moreover
    every command has a rule of its own; and the user is asked only if the approval policy
    lets this kind of question through. *)
Theorem requirement_sound `{BashGrammar, PathEnv, Shlex} p req :
  let cmds := commands_for_exec_policy (req_command req) in
  let fallback := request_fallback req cmds in
  let rules_for c := matches_for_command_with_options p c None true in
  ∃ r, create_exec_approval_requirement_for_command p req = Some r ∧
    (∀ c m, c ∈ commands cmds → m ∈ rules_for c → match_decision m = Forbidden →
       ∃ reason, r = RequirementForbidden reason) ∧
    (∀ bypass a, r = Skip bypass a → ∀ c, c ∈ commands cmds →
       (∀ m, m ∈ rules_for c → match_decision m = Allow) ∧
       (rules_for c = [] → fallback c = Allow) ∧
       (bypass = true → rules_for c ≠ [])) ∧
    (∀ reason a, r = NeedsApproval reason a →
       req_approval_policy req ≠ Never ∧
       ∀ g, req_approval_policy req = Granular g →
         if existsb (is_policy_match_with Prompt) (all_matches p (commands cmds) fallback)
         then rules g = true else sandbox_approval g = true).
Proof.
  intros cmds fallback rules_for.
  destruct (requirement_eval p req) as (e & r & Hr & _ & _ & [Hall _] & Hd).
  fold cmds in Hall, Hd. fold fallback in Hall, Hd. rewrite Forall_forall in Hall.
  exists r. split; [done|]. split_and!.
  - intros c m Hc Hm Hf. specialize (Hall m (rule_match_counts p _ fallback c m Hc Hm)). rewrite Hf in Hall.
    apply severity_forbidden in Hall. by rewrite Hall in Hd.
  - intros bypass a -> c Hc. destruct (skip_all_allow p req bypass a Hr) as [-> Ha].
    fold cmds in Ha. fold fallback in Ha. split_and!.
    + intros m Hm. by apply Ha, (rule_match_counts p _ fallback c).
    + intros Hn. exact (Ha _ (heuristic_counts p _ fallback c Hc Hn)).
    + intros Hb. rewrite forallb_forall in Hb. apply explicitly_allowed_rule, Hb. by apply list_elem_of_In.
  - intros reason a ->. destruct (decision e); [naive_solver| |naive_solver].
    destruct (prompt_is_rejected_by_policy _ _) eqn:Ep; [done|]. clear Hd.
    unfold prompt_is_rejected_by_policy, allows_rules_approval, allows_sandbox_approval in Ep.
    destruct (req_approval_policy req); try done. split; [done|]. intros g [= ->].
    destruct (existsb _ _); [destruct (rules g)|destruct (sandbox_approval g)]; done.
Qed.

(** Claim C19. A command that looks dangerous and that no rule speaks about runs without
    asking only if the user turned both the questions and the sandbox off; the safelist
    cannot let it through. *)
Theorem dangerous_needs_consent `{BashGrammar, PathEnv, Shlex} p req c bypass a :
  c ∈ commands (commands_for_exec_policy (req_command req)) →
  command_might_be_dangerous c = true →
  matches_for_command_with_options p c None true = [] →
  create_exec_approval_requirement_for_command p req = Some (Skip bypass a) →
  req_approval_policy req = Never ∧ bypass = false ∧
  match req_permission_profile req with Managed _ _ => False | Disabled | External _ => True end.
Proof.
  intros Hc Hd Hn Hr. destruct (skip_all_allow p req bypass a Hr) as [-> Ha].
  set (cmds := commands_for_exec_policy (req_command req)) in *.
  pose proof (Ha _ (heuristic_counts p _ (request_fallback req cmds) c Hc Hn)) as Hf. simpl in Hf.
  unfold request_fallback, render_decision_for_unmatched_command in Hf. cbn in Hf. rewrite Hd in Hf.
  assert (is_known_safe_command c = false) as Hsafe.
  { apply not_true_iff_false. intros Hs. by rewrite (known_safe_not_dangerous c Hs) in Hd. }
  rewrite Hsafe in Hf. cbn [andb] in Hf. destruct (req_approval_policy req); try done.
  split; [done|]. split.
  - apply not_true_iff_false. intros Hb. rewrite forallb_forall in Hb.
    by apply (explicitly_allowed_rule p c (Hb c (proj1 (list_elem_of_In _ _) Hc))).
  - by destruct (req_permission_profile req).
Qed.

(** ** Rules that were added *)

(** A rule that covers a command covers every longer one. *)
Lemma rule_matches_longer r cmd more :
  is_Some (rule_matches r cmd) → is_Some (rule_matches r (cmd ++ more)).
Proof.
  intros [m Hm]. apply rule_matches_covers in Hm as ((toks & args & -> & Hf) & _).
  apply covers_matches. exists toks, (args ++ more). split; [|done]. simpl. by rewrite <-app_assoc.
Qed.

Definition allow_rule (prefix : string * list string) : PrefixRule :=
  {| pattern := {| first := prefix.1; rest := Single <$> prefix.2 |}; rule_decision := Allow; rule_justification := None |}.

Lemma allow_rule_matches f rest cmd :
  is_Some (rule_matches (allow_rule (f, rest)) cmd) → ∃ more, cmd = (f :: rest) ++ more.
Proof.
  intros [m Hm]. apply rule_matches_covers in Hm as ((toks & args & -> & Hf) & _). simpl in *.
  exists args. do 2 f_equal.
  assert (toks = rest) as ->; [|done]. revert toks Hf. induction rest as [|x l IH]; intros toks Hf; simpl in Hf.
  - by apply Forall2_nil_inv_l in Hf.
  - apply Forall2_cons_inv_l in Hf as (t & ts & Ht & Hts & ->).
    apply list_elem_of_singleton in Ht as ->. by rewrite (IH ts Hts).
Qed.

Lemma allow_rule_self f rest : is_Some (rule_matches (allow_rule (f, rest)) (f :: rest)).
Proof.
  apply covers_matches. exists rest, []. simpl. rewrite app_nil_r. split; [done|].
  induction rest; constructor; [by apply list_elem_of_singleton|done].
Qed.

Lemma added_rules f rest p p1 k :
  add_prefix_rule (f :: rest) Allow p = Ok p1 →
  host_executables_by_name p1 = host_executables_by_name p ∧
  rules_by_program p1 !! k =
    if decide (k = f) then Some (default [] (rules_by_program p !! k) ++ [allow_rule (f, rest)])
    else rules_by_program p !! k.
Proof.
  intros [= <-]. simpl. split; [done|]. unfold multi_insert. case_decide as Hk; subst.
  - by rewrite lookup_insert_eq.
  - by rewrite lookup_insert_ne.
Qed.

Section added.
Context `{PathEnv}.

Lemma no_rules_iff p c :
  matches_for_command_with_options p c None true = [] ↔
  exact_matches p c = [] ∧ match_host_executable_rules p c = [].
Proof.
  unfold matches_for_command_with_options, exact_matches.
  destruct (match_exact_rules p c) as [[|m l]|]; simpl; [|naive_solver|];
    destruct (match_host_executable_rules p c); naive_solver.
Qed.

(** What makes the rules of a base name apply. *)
Definition host_key (p : Policy) (c : list string) : option (string * list string) :=
  match c with
  | [] => None
  | f :: args =>
      match from_absolute_path f ≫= λ program, (program,.) <$> executable_path_lookup_key program with
      | Some (program, basename) =>
          match host_executables_by_name p !! basename with
          | Some paths => if existsb (λ path, bool_decide (path = program)) paths then Some (basename, args) else None
          | None => Some (basename, args)
          end
      | None => None
      end
  end.

Lemma host_key_some p g cargs b args :
  host_key p (g :: cargs) = Some (b, args) →
  ∃ q, from_absolute_path g = Some q ∧ file_name q = Some b ∧ args = cargs.
Proof.
  unfold host_key, executable_path_lookup_key, executable_lookup_key.
  destruct (from_absolute_path g) as [q|]; [|done]. cbn [mbind option_bind].
  destruct (file_name q) as [n|] eqn:E; [|done]. simpl. intros Hk. exists q.
  by repeat case_match; simplify_eq.
Qed.

Lemma host_rules_iff p c :
  match_host_executable_rules p c ≠ [] ↔
  ∃ b args r, host_key p c = Some (b, args) ∧ r ∈ default [] (rules_by_program p !! b) ∧
    is_Some (rule_matches r (b :: args)).
Proof.
  unfold match_host_executable_rules, host_key. destruct c as [|f args]; [naive_solver|].
  destruct (from_absolute_path f) as [q|]; [|naive_solver]. cbn [mbind option_bind].
  destruct (executable_path_lookup_key q) as [b|]; [|naive_solver]. cbn [fmap option_fmap option_map].
  set (listed := match host_executables_by_name p !! b with
                 | Some paths => existsb (λ path, bool_decide (path = q)) paths | None => true end).
  assert (match host_executables_by_name p !! b with
          | Some paths => if existsb (λ path, bool_decide (path = q)) paths then Some (b, args) else None
          | None => Some (b, args) end = if listed then Some (b, args) else None) as ->.
  { unfold listed. by destruct (host_executables_by_name p !! b). }
  destruct listed; cbn [negb].
  2:{ destruct (rules_by_program p !! b); naive_solver. }
  destruct (rules_by_program p !! b) as [rs|] eqn:Er; cbn [default from_option].
  2:{ split; [done|]. intros (? & ? & ? & [= <- <-] & Hr & _). rewrite Er in Hr. by apply not_elem_of_nil in Hr. }
  split.
  - intros Hne. destruct (omap (λ rule, rule_matches rule (b :: args)) rs) as [|m l] eqn:E; [done|].
    assert (m ∈ omap (λ rule, rule_matches rule (b :: args)) rs) as Hm by (rewrite E; set_solver).
    apply list_elem_of_omap in Hm as (r & Hr & Hm). exists b, args, r. rewrite Er. eauto.
  - intros (? & ? & r & [= <- <-] & Hr & [m Hm]) Hn%fmap_nil_inv. rewrite Er in Hr.
    apply (not_elem_of_nil m). rewrite <-Hn. apply list_elem_of_omap. eauto.
Qed.

Lemma exact_rules_iff p c :
  exact_matches p c ≠ [] ↔
  ∃ f args r, c = f :: args ∧ r ∈ default [] (rules_by_program p !! f) ∧ is_Some (rule_matches r c).
Proof.
  split.
  - intros Hne. destruct (exact_matches p c) as [|m l] eqn:E; [done|].
    assert (m ∈ exact_matches p c) as Hm by (rewrite E; set_solver).
    apply exact_matches_elem in Hm as (f & args & r & -> & Hr & Hm). eauto 8.
  - intros (f & args & r & -> & Hr & [m Hm]) Hn.
    apply (not_elem_of_nil m). rewrite <-Hn. apply exact_matches_elem. eauto 8.
Qed.

Lemma host_key_added p p1 f rest c :
  add_prefix_rule (f :: rest) Allow p = Ok p1 → host_key p1 c = host_key p c.
Proof. intros Hadd. unfold host_key. by rewrite (proj1 (added_rules f rest p p1 f Hadd)). Qed.

(** A rule of the new policy is an old one or the new one. *)
Lemma added_rule_cases p p1 f rest k r :
  add_prefix_rule (f :: rest) Allow p = Ok p1 → r ∈ default [] (rules_by_program p1 !! k) →
  r ∈ default [] (rules_by_program p !! k) ∨ (k = f ∧ r = allow_rule (f, rest)).
Proof.
  intros Hadd. rewrite (proj2 (added_rules f rest p p1 k Hadd)). case_decide as Hk; [|by left].
  simpl. intros [?|?%list_elem_of_singleton]%elem_of_app; auto.
Qed.

Lemma rules_iff p c :
  matches_for_command_with_options p c None true ≠ [] ↔
  (exact_matches p c ≠ [] ∨ match_host_executable_rules p c ≠ []).
Proof.
  rewrite no_rules_iff. destruct (exact_matches p c), (match_host_executable_rules p c); naive_solver.
Qed.

(** A new rule whose prefix the policy already speaks about matches nothing new. *)
Lemma covered_rule_adds_nothing p f rest p1 c :
  (∀ d, current_dir = Some d → is_absolute d = true) → f ≠ "~" →
  add_prefix_rule (f :: rest) Allow p = Ok p1 →
  matches_for_command_with_options p (f :: rest) None true ≠ [] →
  matches_for_command_with_options p1 c None true ≠ [] →
  matches_for_command_with_options p c None true ≠ [].
Proof.
  intros Hdir Htilde Hadd. rewrite !rules_iff, !exact_rules_iff, !host_rules_iff.
  rewrite (host_key_added p p1 f rest c Hadd). intros Hpre Hc.
  destruct Hc as [(g & args & r & -> & Hr & Hm)|(b & args & r & Hk & Hr & Hm)];
    destruct (added_rule_cases _ _ _ _ _ _ Hadd Hr) as [Hold|[-> ->]]; [left; by eauto 8| |right; by eauto 8|].
  - apply allow_rule_matches in Hm as [more [= ->]].
    destruct Hpre as [(g & args & r & [= <- <-] & Hr' & Hm)|(b & args & r & Hk & Hr' & Hm)].
    + left. exists f, (rest ++ more), r. split_and!; [done|done|]. by apply (rule_matches_longer r (f :: rest)).
    + right. exists b, (rest ++ more), r.
      assert (args = rest ∧ host_key p (f :: rest ++ more) = Some (b, rest ++ more)) as [-> Hk'].
      { pose proof Hk as (q & _ & _ & ->)%host_key_some. split; [done|]. revert Hk. unfold host_key.
        by repeat case_match; intros; simplify_eq. }
      split_and!; [done|done|]. by apply (rule_matches_longer r (b :: rest)).
  - apply allow_rule_matches in Hm as [more [= ->]].
    assert (∃ r, r ∈ default [] (rules_by_program p !! f) ∧ is_Some (rule_matches r (f :: rest))) as (r & Hr' & Hm).
    { destruct Hpre as [(g & args & r & [= <- <-] & Hr' & Hm)|(b & args & r & Hk' & Hr' & Hm)]; [by eauto|].
      assert (b = f ∧ args = rest) as [-> ->]; [|by eauto].
      destruct c as [|g cargs]; [done|]. apply host_key_some in Hk as (q & Eg & Eb & _).
      apply host_key_some in Hk' as (q' & Ef & Eb' & ->).
      pose proof (from_absolute_abs_ok g q Hdir Eg) as [_ Hplain].
      assert (plain_name f = true) as Hf.
      { rewrite Forall_forall in Hplain. apply Hplain. unfold file_name in Eb.
        apply last_Some in Eb as [l' ->]. set_solver. }
      rewrite (from_absolute_last f q' Hf Htilde Ef) in Eb'. by simplify_eq. }
    right. exists f, (rest ++ more), r. split_and!; [done|done|]. by apply (rule_matches_longer r (f :: rest)).
Qed.
End added.

(** ** Accepted amendments *)

Lemma append_rule_line_ok io path line file file' :
  append_rule_line io path line file = (Ok tt, file') →
  file' = Some (append_locked_line (default EmptyString file) line).
Proof.
  unfold append_rule_line, locked_append, append_locked_line, append_text, map_err.
  destruct (parent path); [|done]. destruct (create_dir_error io) as [[[] ?]|]; [|done|].
  all: destruct (open_error io); [done|]; destruct (lock_error io); [done|]; destruct (seek_error io); [done|];
    destruct (read_error io); [done|]; set (contents := default EmptyString file).
  all: destruct (existsb _ _); [by intros [= <-]|].
  all: destruct (negb (str_is_empty contents) && negb (ends_with NL contents));
    [destruct (newline_error io) as [[? ?]|]; [done|]|]; destruct (line_error io) as [[? ?]|]; try done;
    intros [= <-]; by rewrite <-?str_app_assoc, ?str_app_nil_l.
Qed.

Section amendments.
Context `{BashGrammar, PathEnv, Shlex, SerdeJson}.

(** A proposal is only made when no rule prompts; then some command without rules does. *)
Lemma proposal_heuristic p req reason a :
  create_exec_approval_requirement_for_command p req = Some (NeedsApproval reason (Some a)) →
  let cmds := commands_for_exec_policy (req_command req) in
  ∃ c, c ∈ commands cmds ∧ matches_for_command_with_options p c None true = [] ∧
       request_fallback req cmds c = Prompt.
Proof.
  intros Hr cmds. destruct (check_multiple_spec p (commands cmds) (request_fallback req cmds)) as (e & He & Hm & Hs);
    [apply commands_nonempty|].
  unfold create_exec_approval_requirement_for_command in Hr. fold cmds in Hr. rewrite He, Hm in Hr. cbv zeta in Hr.
  destruct (decision e) eqn:Ed; try done. destruct (prompt_is_rejected_by_policy _ _); [done|].
  injection Hr as _ Hp. set (ms := all_matches _ _ _) in *.
  assert (existsb (is_policy_match_with Prompt) ms = false) as Hno.
  { apply not_true_iff_false. intros Hyes. pose proof Hyes as (m & Hin & Hpm & _)%policy_match_with_iff.
    assert (existsb is_policy_match ms = true) as Hany by (apply existsb_exists; rewrite list_elem_of_In in Hin; eauto).
    unfold try_derive_execpolicy_amendment_for_prompt_rules in Hp. rewrite Hyes in Hp.
    unfold derive_requested_execpolicy_amendment_from_prefix_rule in Hp. rewrite Hany in Hp.
    by repeat case_match; simplify_eq/=. }
  destruct Hs as [_ (m & Hin & Hd)]. pose proof Hin as (c & Hc & Hmc)%elem_of_all_matches. exists c.
  destruct (matches_cases p c (request_fallback req cmds)) as [(_ & Heq & Hpol)|[Hn Heq]]; rewrite Heq in Hmc.
  - exfalso. apply not_true_iff_false in Hno. apply Hno, policy_match_with_iff. exists m. split_and!; [done| |congruence].
    rewrite forallb_forall in Hpol. apply Hpol. by apply list_elem_of_In.
  - apply list_elem_of_singleton in Hmc as ->. simpl in Hd. by split_and!; [| |congruence].
Qed.

Lemma would_approve_skips p req pre p1 :
  let cmds := commands_for_exec_policy (req_command req) in
  add_prefix_rule pre Allow p = Ok p1 →
  prefix_rule_would_approve_all_commands p pre (commands cmds) (request_fallback req cmds) = true →
  (∃ b a, create_exec_approval_requirement_for_command p1 req = Some (Skip b a)) ∧
  ∀ c, c ∈ commands cmds → request_fallback req cmds c ≠ Allow → matches_for_command_with_options p1 c None true ≠ [].
Proof.
  intros cmds Hadd Hall. unfold prefix_rule_would_approve_all_commands in Hall. rewrite Hadd, forallb_forall in Hall.
  assert (∀ m, m ∈ all_matches p1 (commands cmds) (request_fallback req cmds) → match_decision m = Allow) as Hallow.
  { intros m (c & Hc & Hm)%elem_of_all_matches. rewrite list_elem_of_In in Hc. specialize (Hall c Hc).
    unfold check_with_options in Hall.
    destruct (from_matches_spec (matches_for_command_with_options p1 c (Some (request_fallback req cmds)) true))
      as (e & He & _ & Hs & _); [apply matches_nonempty|]. rewrite He, bool_decide_eq_true in Hall.
    rewrite Hall, Forall_forall in Hs. by apply severity_allow, Hs. }
  split.
  - destruct (requirement_eval p1 req) as (e & r & -> & _ & _ & [_ (m & Hm & Hd)] & Hreq).
    fold cmds in Hm, Hreq. rewrite (Hallow m Hm) in Hd. rewrite <-Hd in Hreq. destruct Hreq as [a ->]. eauto.
  - intros c Hc Hf Hn. apply Hf. exact (Hallow _ (heuristic_counts p1 _ (request_fallback req cmds) c Hc Hn)).
Qed.

(** The rule for a command without rules approves that command. *)
Lemma own_rule_approves p f rest p1 fb :
  add_prefix_rule (f :: rest) Allow p = Ok p1 →
  matches_for_command_with_options p (f :: rest) None true = [] →
  prefix_rule_would_approve_all_commands p (f :: rest) [f :: rest] fb = true.
Proof.
  intros Hadd [Hex _]%no_rules_iff. unfold prefix_rule_would_approve_all_commands. rewrite Hadd. simpl.
  destruct (allow_rule_self f rest) as [m Hm].
  assert (exact_matches p1 (f :: rest) = [m]) as Hex1.
  { revert Hex. unfold exact_matches, match_exact_rules. cbn [default from_option].
    rewrite (proj2 (added_rules f rest p p1 f Hadd)), decide_True by done. cbn [default from_option id].
    rewrite omap_app. intros ->. cbn [omap list_omap app]. by rewrite Hm. }
  unfold check_with_options. rewrite matches_exact by (by rewrite Hex1). rewrite Hex1. simpl.
  apply rule_matches_covers in Hm as (_ & -> & _). done.
Qed.

Lemma already_allowed_rule p cmd : already_allowed p cmd = true → matches_for_command_with_options p cmd None true ≠ [].
Proof.
  unfold already_allowed. intros Ha Hn.
  destruct (check_multiple_spec p [cmd] (λ _, Forbidden)) as (e & He & Hm & Hs); [done|].
  rewrite He, andb_true_iff, bool_decide_eq_true in Ha. destruct Ha as [Ha _]. rewrite Ha in Hs.
  destruct Hs as [Hs _]. rewrite Forall_forall in Hs.
  specialize (Hs _ (heuristic_counts p [cmd] (λ _, Forbidden) cmd (list_elem_of_here _ _) Hn)). simpl in Hs. lia.
Qed.
End amendments.

(** Accepting the proposed rule settles the question.  When a request needed
    approval and came with a proposed rule that the check found to approve all its commands,
    or that is its only command, and storing the rule succeeds, then the same request
    afterwards needs no approval, also when the manager finds the prefix already allowed and
    leaves its policy alone; and the rule file is the old one with the rule's line appended,
    or unchanged if it holds that line. *)
Theorem accepted_amendment_skips `{BashGrammar, PathEnv, Shlex, SerdeJson} p req reason a io home file m' :
  let cmds := commands_for_exec_policy (req_command req) in
  (∀ d, current_dir = Some d → is_absolute d = true) → head (amendment_command a) ≠ Some "~" →
  create_exec_approval_requirement_for_command p req = Some (NeedsApproval reason (Some a)) →
  prefix_rule_would_approve_all_commands p (amendment_command a) (commands cmds) (request_fallback req cmds) = true ∨
  commands cmds = [amendment_command a] →
  append_amendment_and_update io home a {| policy := p; rule_file := file |} = (Ok tt, m') →
  (∃ b a', create_exec_approval_requirement_for_command (policy m') req = Some (Skip b a')) ∧
  rule_file m' = Some (append_locked_line (default EmptyString file) (prefix_rule_line (amendment_command a))).
Proof.
  intros cmds Hdir Htilde Hr Happ Hup. destruct a as [pre]. cbn [amendment_command] in *.
  destruct (proposal_heuristic p req reason _ Hr) as (c & Hc & Hn & Hf). fold cmds in Hc, Hf.
  unfold append_amendment_and_update in Hup. cbn [amendment_command policy rule_file] in Hup.
  destruct (blocking_append_allow_prefix_rule _ _ _ _) as [[[]|?] file'] eqn:Ea; [|done].
  destruct pre as [|f rest]; [done|]. apply append_rule_line_ok in Ea.
  destruct (add_prefix_rule (f :: rest) Allow p) as [p1|] eqn:Hadd; [|done].
  assert (prefix_rule_would_approve_all_commands p (f :: rest) (commands cmds) (request_fallback req cmds) = true) as Hall.
  { destruct Happ as [?|Hone]; [done|]. rewrite Hone. eapply own_rule_approves; [done|].
    rewrite Hone in Hc. by apply list_elem_of_singleton in Hc as <-. }
  destruct (would_approve_skips p req _ p1 Hadd Hall) as [Hskip Hnew].
  destruct (already_allowed p (f :: rest)) eqn:Eal; [|by injection Hup as <-].
  exfalso. apply already_allowed_rule in Eal. simpl in Htilde.
  apply (covered_rule_adds_nothing p f rest p1 c Hdir); [congruence|done|done| |done].
  apply Hnew; [done|]. fold cmds. by rewrite Hf.
Qed.

(** ** Outside the sandbox *)

(** The first attempt leaves the sandbox only on request, or when every command has rules
    and they all allow it; and never while the policy denies reads. *)
Lemma unsandboxed_first_attempt `{BashGrammar, PathEnv, Shlex} p req r s fs :
  create_exec_approval_requirement_for_command p req = Some r →
  sandbox_override_for_first_attempt s r fs = BypassSandboxFirstAttempt →
  has_denied_read_restrictions fs = false ∧
  (s = RequireEscalated ∨ ∀ c, c ∈ commands (commands_for_exec_policy (req_command req)) →
     matches_for_command_with_options p c None true ≠ [] ∧
     ∀ m, m ∈ matches_for_command_with_options p c None true → match_decision m = Allow).
Proof.
  intros Hr. unfold sandbox_override_for_first_attempt, unsandboxed_execution_allowed.
  destruct (has_denied_read_restrictions fs); [done|]. cbn [negb]. intros Ho. split; [done|].
  destruct r as [[] a| |]; try (left; by destruct s). right.
  destruct (skip_all_allow p req _ _ Hr) as [Hb Ha]. intros c Hc. split.
  - symmetry in Hb. rewrite forallb_forall in Hb. apply explicitly_allowed_rule, Hb. by apply list_elem_of_In.
  - intros m Hm. by apply Ha, (rule_match_counts p _ _ c).
Qed.

(** ** The requirements of an administrator *)

Section loaded.
Context `{RuleFiles, Starlark, PathEnv}.

Lemma load_merges s p q :
  load_exec_policy s = Ok p → requirements_exec_policy s = Some q → ∃ base, p = merge_overlay base q.
Proof.
  unfold load_exec_policy. intros (paths & _ & (b & _ & Hp)%res_bind_ok)%res_bind_ok Hq. rewrite Hq in Hp.
  injection Hp as <-. eauto.
Qed.

(** A rule of the overlay that covers a command is among the rules for it. *)
Lemma overlay_rule_matches base q f args r :
  r ∈ default [] (rules_by_program q !! f) → covers r (f :: args) →
  ∃ m, m ∈ matches_for_command_with_options (merge_overlay base q) (f :: args) None true ∧
       match_decision m = rule_decision r.
Proof.
  intros Hr Hcov. destruct (covers_matches r _ Hcov) as [m Hm].
  assert (m ∈ exact_matches (merge_overlay base q) (f :: args)) as Hin.
  { rewrite exact_matches_merge. apply elem_of_app. right. apply exact_matches_elem. eauto 8. }
  exists m. split; [|by apply rule_matches_covers in Hm as (_ & ? & _)].
  rewrite matches_exact; [done|]. intros Hn. rewrite Hn in Hin. by apply not_elem_of_nil in Hin.
Qed.
End loaded.

(** What an administrator requires holds whatever the rule files of the layers
    say: in a policy that was loaded, a command of a request that a forbidding rule of the
    requirements covers makes the request forbidden, and one that a prompting rule covers
    keeps it from being skipped. *)
Theorem requirements_enforced `{BashGrammar, PathEnv, Shlex, RuleFiles, Starlark} s p q req f args r :
  load_exec_policy s = Ok p → requirements_exec_policy s = Some q →
  (f :: args) ∈ commands (commands_for_exec_policy (req_command req)) →
  r ∈ default [] (rules_by_program q !! f) → covers r (f :: args) →
  (rule_decision r = Forbidden →
     ∃ reason, create_exec_approval_requirement_for_command p req = Some (RequirementForbidden reason)) ∧
  (rule_decision r = Prompt →
     ∀ b a, create_exec_approval_requirement_for_command p req ≠ Some (Skip b a)).
Proof.
  intros Hl Hq Hc Hr Hcov. destruct (load_merges s p q Hl Hq) as [base ->].
  destruct (overlay_rule_matches base q f args r Hr Hcov) as (m & Hm & Hd).
  set (cmds := commands_for_exec_policy (req_command req)) in *.
  pose proof (rule_match_counts _ _ (request_fallback req cmds) _ m Hc Hm) as Hin. split; intros Hrd; rewrite Hrd in Hd.
  - destruct (requirement_eval (merge_overlay base q) req) as (e & r' & -> & _ & _ & [Hall _] & Hreq).
    rewrite Forall_forall in Hall. specialize (Hall m Hin). rewrite Hd in Hall.
    apply severity_forbidden in Hall. rewrite Hall in Hreq. destruct Hreq as [reason ->]. eauto.
  - intros b a Hs. destruct (skip_all_allow _ _ _ _ Hs) as [_ Ha]. specialize (Ha m Hin). congruence.
Qed.

(** ** Concrete requests *)

Definition root_dir : PathBuf := {| rooted := true; names := [] |}.

Definition plain_shlex : Shlex := {| shlex_try_join args := Some (join " " args) |}.

Definition request (command : list string) (policy : AskForApproval) (profile : PermissionProfile) : ExecApprovalRequest :=
  {| req_command := command; req_approval_policy := policy; req_permission_profile := profile;
     req_sandbox_permissions := UseDefault; req_prefix_rule := None |}.

Lemma dangerous_needs_consent_witness :
  let grammar := sample_grammar in let env := sample_env in let shlex := plain_shlex in
  create_exec_approval_requirement_for_command empty_policy (request ["rm"; "-rf"; "x"] Never Disabled) =
    Some (Skip false (Some {| amendment_command := ["rm"; "-rf"; "x"] |})) ∧
  req_approval_policy (request ["rm"; "-rf"; "x"] Never Disabled) = Never.
Proof.
  intros grammar env shlex. split; [vm_refl|].
  apply (dangerous_needs_consent empty_policy (request ["rm"; "-rf"; "x"] Never Disabled) ["rm"; "-rf"; "x"]
    false (Some {| amendment_command := ["rm"; "-rf"; "x"] |})); [apply list_elem_of_here|vm_refl|vm_refl|vm_refl].
Defined.

Definition npm_test : ExecApprovalRequest := request ["npm"; "test"] UnlessTrusted Disabled.

Definition quoted : SerdeJson :=
  {| from_str _ := Err "unsupported"; to_string v := match v with VString s => dquote +:+ (s +:+ dquote) | _ => EmptyString end |}.

Lemma accepted_amendment_skips_witness :
  let grammar := sample_grammar in let env := sample_env in let shlex := plain_shlex in let json := quoted in
  let m' := (append_amendment_and_update no_errors root_dir {| amendment_command := ["npm"; "test"] |}
               {| policy := empty_policy; rule_file := None |}).2 in
  (∃ b a', create_exec_approval_requirement_for_command (policy m') npm_test = Some (Skip b a')) ∧
  rule_file m' = Some (append_locked_line EmptyString (prefix_rule_line ["npm"; "test"])).
Proof.
  intros grammar env shlex json m'.
  apply (accepted_amendment_skips empty_policy npm_test None {| amendment_command := ["npm"; "test"] |}
    no_errors root_dir None m').
  - intros d Hd. vm_compute in Hd. by injection Hd as <-.
  - done.
  - vm_refl.
  - by right.
  - vm_refl.
Defined.

(** A layer whose folder has no rules, and requirements that forbid git push. *)
Definition no_files : RuleFiles := {| read_dir _ := DirMissing; read_rule_file _ := Err "missing" |}.

Definition no_push : PrefixRule :=
  {| pattern := {| first := "git"; rest := [Single "push"] |}; rule_decision := Forbidden; rule_justification := None |}.

Definition managed_stack : ConfigLayerStack :=
  {| layers := [{| layer_name := User {| rooted := true; names := ["home"; ".codex"; "config.toml"] |} None; is_disabled := false |}];
     ignore_user_and_project_exec_policy_rules := false;
     requirements_exec_policy := Some (set_rules {["git" := [no_push]]} empty_policy) |}.

Definition git_push : ExecApprovalRequest := request ["git"; "push"; "-f"] Never Disabled.

Lemma requirements_enforced_witness :
  let grammar := sample_grammar in let env := sample_env in let shlex := plain_shlex in
  let files := no_files in let star := sample_starlark in
  let p := merge_overlay empty_policy (set_rules {["git" := [no_push]]} empty_policy) in
  load_exec_policy managed_stack = Ok p ∧
  ∃ reason, create_exec_approval_requirement_for_command p git_push = Some (RequirementForbidden reason).
Proof.
  intros grammar env shlex files star p. assert (load_exec_policy managed_stack = Ok p) as Hl by vm_refl.
  split; [done|].
  destruct (requirements_enforced managed_stack p (set_rules {["git" := [no_push]]} empty_policy) git_push
    "git" ["push"; "-f"] no_push) as [Hf _]; [done|done|apply list_elem_of_here| | |by apply Hf].
  - apply list_elem_of_here.
  - exists ["push"], ["-f"]. split; [done|]. repeat constructor.
Defined.

(** A rule file that does not parse takes the requirements with it: the manager starts with
    the empty policy, and what the administrator forbids is no longer forbidden. *)
Definition broken_files : RuleFiles :=
  {| read_dir _ := DirEntries [Ok ({| rooted := true; names := ["home"; ".codex"; "rules"; "a.rules"] |}, Ok true)];
     read_rule_file _ := Ok "bad" |}.

Definition broken_starlark : Starlark := {| eval_module _ _ := ([], true); shlex_split _ := None |}.

Example parse_error_drops_requirements :
  let grammar := sample_grammar in let env := sample_env in let shlex := plain_shlex in
  let files := broken_files in let star := broken_starlark in
  load managed_stack = Ok empty_policy ∧
  create_exec_approval_requirement_for_command empty_policy git_push =
    Some (Skip false (Some {| amendment_command := ["git"; "push"; "-f"] |})).
Proof. intros grammar env shlex files star. split; vm_refl. Qed.
