(* ===== verification/PatchSafety.v ===== *)
(** * Which patches are applied without asking

    codex-rs/core/src/safety.rs and [apply_patch] of core/src/apply_patch.rs, the Linux build,
    on top of the verified calls of
    PatchVerify.v and the file-system policies of Permissions.v.  [PathUri::to_abs_path] is
    the parameter [AbsUris]: the absolute, normalised path of a URI, if it has one. *)

From stdpp Require Import base gmap list strings.
From S2P Require Import Prelude Str Json Fragments AbsPath PathFacts PatchParser Replace PatchApply.
From S2P Require Import PatchDelta PatchVerify Permissions ApprovalPolicy.

Class AbsUris `{PathUris} := {
  to_abs_path : PathUri → option AbsolutePathBuf;
  to_abs_path_ok : ∀ u q, to_abs_path u = Some q → abs_ok q;
}.

Inductive SandboxType := SandboxNone | MacosSeatbelt | LinuxSeccomp | WindowsRestrictedToken.

Inductive SafetyCheck :=
| AutoApprove (sandbox_type : SandboxType) (user_explicitly_approved : bool)
| AskUser
| Reject (reason : string).

Definition PATCH_REJECTED_OUTSIDE_PROJECT_REASON : string :=
  "writing outside of the project; rejected by user approval settings".
Definition PATCH_REJECTED_READ_ONLY_REASON : string :=
  "writing is blocked by read-only sandbox; rejected by user approval settings".

(** [get_platform_sandbox] of the Linux build *)
Definition get_platform_sandbox (windows_sandbox_enabled : bool) : option SandboxType := Some LinuxSeccomp.

(** The local [normalize]: dots and dot-dots resolved in the text. *)
Definition normalize (path : string) : PathBuf :=
  fold_left push_component (components path) {| rooted := false; names := [] |}.

Section safety.
Context `{PathUris} `{!AbsUris} `{PathEnv, FileProbe}.

Definition patch_path_writable (fs : FileSystemSandboxPolicy) (native_cwd : AbsolutePathBuf) (path : PathUri) : bool :=
  match to_abs_path path with
  | None => false
  | Some abs => can_write_path_with_cwd fs (path_text (normalize (path_text abs))) (path_text native_cwd)
  end.

Definition change_constrained (fs : FileSystemSandboxPolicy) (native_cwd : AbsolutePathBuf)
    (path : PathUri) (change : ApplyPatchFileChange PathUri) : bool :=
  patch_path_writable fs native_cwd path &&
  match change with
  | FileUpdate _ (Some dest) _ => patch_path_writable fs native_cwd dest
  | _ => true
  end.

Definition is_write_patch_constrained_to_writable_paths (action : ApplyPatchAction) (fs : FileSystemSandboxPolicy)
    (cwd : PathUri) : bool :=
  if has_full_disk_write_access fs then true
  else match to_abs_path cwd with
       | None => false
       | Some native_cwd =>
           forallb (λ '(path, change), change_constrained fs native_cwd path change) (map_to_list (act_changes action))
       end.

Definition patch_rejection_reason (profile : PermissionProfile) (fs : FileSystemSandboxPolicy) (cwd : PathUri) : string :=
  let has_no_writable_roots :=
    match to_abs_path cwd with
    | Some cwd => bool_decide (get_writable_roots_with_cwd fs (path_text cwd) = [])
    | None => false
    end in
  match profile with
  | Managed _ _ =>
      if negb (has_full_disk_write_access fs) && has_no_writable_roots
      then PATCH_REJECTED_READ_ONLY_REASON else PATCH_REJECTED_OUTSIDE_PROJECT_REASON
  | Disabled | External _ => PATCH_REJECTED_OUTSIDE_PROJECT_REASON
  end.

(** The sandbox type of an approval is not used: [invoke_apply_patch] drops it, and how the
    patch runs is chosen with the sandbox of the attempt (SandboxManager.v). *)
Definition assess_patch_safety (action : ApplyPatchAction) (policy : AskForApproval) (profile : PermissionProfile)
    (fs : FileSystemSandboxPolicy) (cwd : PathUri) : SafetyCheck :=
  if bool_decide (act_changes action = ∅) then Reject "empty patch"
  else match policy with
  | UnlessTrusted => AskUser
  | _ =>
      let rejects_sandbox_approval :=
        match policy with Never => true | Granular g => negb (sandbox_approval g) | _ => false end in
      if is_write_patch_constrained_to_writable_paths action fs cwd
         || match policy with OnFailure => true | _ => false end
      then match profile with
           | Disabled | External _ => AutoApprove SandboxNone false
           | Managed _ _ =>
               match get_platform_sandbox false with
               | Some sandbox_type => AutoApprove sandbox_type false
               | None => if rejects_sandbox_approval then Reject (patch_rejection_reason profile fs cwd) else AskUser
               end
           end
      else if rejects_sandbox_approval then Reject (patch_rejection_reason profile fs cwd)
      else AskUser
  end.

(** [InternalApplyPatchInvocation]; an [Output] is here always an error for the model. *)
Inductive InternalApplyPatchInvocation :=
| Output (respond_to_model : string)
| DelegateToRuntime (action : ApplyPatchAction) (auto_approved : bool) (requirement : ExecApprovalRequirement).

(** [apply_patch] of core/src/apply_patch.rs *)
Definition invoke_apply_patch (policy : AskForApproval) (profile : PermissionProfile) (fs : FileSystemSandboxPolicy)
    (action : ApplyPatchAction) : InternalApplyPatchInvocation :=
  match assess_patch_safety action policy profile fs (act_cwd action) with
  | AutoApprove _ user_explicitly_approved =>
      DelegateToRuntime action (negb user_explicitly_approved) (Skip false None)
  | AskUser => DelegateToRuntime action false (NeedsApproval None None)
  | Reject reason => Output ("patch rejected: " +:+ reason)
  end.
End safety.

(** ** Auto-approved patches stay inside *)

Lemma normalize_id p : abs_ok p → normalize (path_text p) = p.
Proof.
  intros Hp. pose proof (normalize_text p Hp) as Hn. unfold normalize_path in Hn. unfold normalize.
  set (r := fold_left _ _ _) in *. destruct (negb (rooted r) && _) eqn:E; [|done].
  destruct Hp as [Hr _]. rewrite <-Hn in Hr. done.
Qed.

Section confined.
Context `{PathUris} `{!Invocation} {W : Type} `{!ExecutorFileSystem W}.

(** The URIs a hunk writes or removes. *)
Definition touched_uris (cwd : PathUri) (h : Hunk) : list PathUri :=
  match resolve_path h cwd with
  | Ok u =>
      u :: match h with
           | UpdateFile _ (Some dest) _ => match uri_join cwd dest with Ok d => [d] | Err _ => [] end
           | _ => []
           end
  | Err _ => []
  end.

Definition hunk_uri (cwd : PathUri) (h : Hunk) : list PathUri :=
  match resolve_path h cwd with Ok u => [u] | Err _ => [] end.

(** The change shown for a hunk names every URI the hunk touches. *)
Definition change_uris (u : PathUri) (c : ApplyPatchFileChange PathUri) : list PathUri :=
  u :: match c with FileUpdate _ (Some dest) _ => [dest] | _ => [] end.

Lemma verify_hunk_change cwd w acc h acc' :
  verify_hunk cwd w acc h = Ok acc' →
  ∃ u c, hunk_uri cwd h = [u] ∧ acc' = <[u := c]> acc ∧ touched_uris cwd h = change_uris u c.
Proof.
  unfold verify_hunk, hunk_uri, touched_uris. destruct (resolve_path h cwd) as [u|]; [|done]. simpl. intros Hv.
  exists u. destruct h as [path contents|path|path mv chunks].
  - simplify_eq. by eexists.
  - apply res_bind_ok in Hv as (content & _ & Hv). simplify_eq. by eexists.
  - apply res_bind_ok in Hv as ([diff contents] & _ & Hv). apply res_bind_ok in Hv as (dest & Hdest & Hv).
    simplify_eq. destruct mv as [p|]; [|simplify_eq; by eexists].
    destruct (uri_join cwd p) as [d|]; simpl in Hdest; [|done]. simplify_eq. by eexists.
Qed.

(** Hunks of different files all appear among the changes. *)
Lemma verify_all_changes cwd w hs acc acc' h :
  fold_res (verify_hunk cwd w) acc hs = Ok acc' → NoDup (hs ≫= hunk_uri cwd) → h ∈ hs →
  ∃ u c, acc' !! u = Some c ∧ touched_uris cwd h = change_uris u c.
Proof.
  revert acc. induction hs as [|h' hs IH]; intros acc Hf Hnd Hh; [by apply not_elem_of_nil in Hh|].
  apply res_bind_ok in Hf as (acc1 & Hv & Hf). cbn [mbind list_bind] in Hnd.
  apply NoDup_app in Hnd as (_ & Hdis & Hnd).
  apply elem_of_cons in Hh as [->|Hh]; [|by eapply IH].
  destruct (verify_hunk_change _ _ _ _ _ Hv) as (u & c & Hu & -> & Ht). exists u, c. split; [|done].
  assert (u ∉ hs ≫= hunk_uri cwd) as Hnot by (apply Hdis; rewrite Hu; apply list_elem_of_here).
  clear -Hf Hnot. revert acc Hf. induction hs as [|h hs IH]; intros acc Hf; simpl in Hf.
  { simplify_eq. by rewrite lookup_insert_eq. }
  apply res_bind_ok in Hf as (acc1 & Hv & Hf).
  destruct (verify_hunk_change _ _ _ _ _ Hv) as (u' & c' & Hu' & -> & _).
  cbn [mbind list_bind] in Hnot. rewrite Hu' in Hnot. apply not_elem_of_app in Hnot as [Hne Hnot].
  apply not_elem_of_cons in Hne as [Hne _].
  rewrite insert_insert_ne in Hf by done. by eapply IH.
Qed.
End confined.

(** Claim C36. A patch that is applied without asking stays where the policy lets the agent
    write.  When a verified call goes to the runtime without asking for approval, the approval
    policy is not the one that leaves everything to the sandbox ([OnFailure]), the file-system
    policy does not allow writing to the whole disk and the hunks name different files, then
    every file that any of the hunks writes, removes or moves to is a writable path of the
    policy, and the call does not ask for the sandbox to be bypassed. *)
Theorem auto_approved_patch_confined
    `{PathUris} `{!Invocation} {W : Type} `{!ExecutorFileSystem W} `{!AbsUris} `{PathEnv, FileProbe}
    args cwd w action policy profile fs action' auto bypass amendment :
  try_verify_apply_patch_args args cwd w = Ok action →
  NoDup (hunks args ≫= hunk_uri (act_cwd action)) →
  invoke_apply_patch policy profile fs action = DelegateToRuntime action' auto (Skip bypass amendment) →
  policy ≠ OnFailure → has_full_disk_write_access fs = false →
  action' = action ∧ bypass = false ∧
  ∃ native_cwd, to_abs_path (act_cwd action) = Some native_cwd ∧
    ∀ h u, h ∈ hunks args → u ∈ touched_uris (act_cwd action) h →
      ∃ q, to_abs_path u = Some q ∧ can_write_path_with_cwd fs (path_text q) (path_text native_cwd) = true.
Proof.
  intros (ecwd & _ & Hv)%res_bind_ok Hnd Ha Hpol Hfull. apply res_bind_ok in Hv as (cs & Hf & Hv).
  simplify_eq. cbn [act_cwd] in *. unfold invoke_apply_patch in Ha. cbn [act_cwd] in Ha.
  destruct (assess_patch_safety _ _ _ _ _) as [sandbox b| |] eqn:Es; [|done..]. injection Ha as <- <- <- <-.
  split; [done|]. split; [done|]. unfold assess_patch_safety in Es. case_bool_decide; [done|].
  assert (is_write_patch_constrained_to_writable_paths
    {| act_changes := cs; act_patch := patch args; act_cwd := ecwd |} fs ecwd = true) as Hc.
  { destruct (is_write_patch_constrained_to_writable_paths _ _ _); [done|].
    exfalso. destruct policy as [| | |g|]; simpl in Es; try done. by destruct (sandbox_approval g). }
  unfold is_write_patch_constrained_to_writable_paths in Hc. rewrite Hfull in Hc.
  destruct (to_abs_path ecwd) as [native|]; [|done]. exists native. split; [done|].
  rewrite forallb_forall in Hc. cbn [act_changes] in Hc. intros h u Hh Hu.
  destruct (verify_all_changes _ _ _ _ _ h Hf Hnd Hh) as (u0 & c0 & Hl & Ht). rewrite Ht in Hu.
  specialize (Hc (u0, c0)). rewrite <-list_elem_of_In, elem_of_map_to_list in Hc. specialize (Hc Hl).
  assert (patch_path_writable fs native u = true) as Hw.
  { unfold change_constrained in Hc. apply andb_true_iff in Hc as [Hc1 Hc2]. unfold change_uris in Hu.
    apply elem_of_cons in Hu as [->|Hu]; [done|].
    destruct c0 as [| |d [dest|] n]; try (by apply not_elem_of_nil in Hu).
    by apply list_elem_of_singleton in Hu as ->. }
  unfold patch_path_writable in Hw. destruct (to_abs_path u) as [q|] eqn:Eq; [|done]. exists q. split; [done|].
  by rewrite normalize_id in Hw by by eapply to_abs_path_ok.
Qed.

(** ** Concrete patches *)

(** In memory a URI is the text of a path. *)
#[export] Program Instance mem_abs : AbsUris := {|
  to_abs_path (u : string) := if is_absolute u then Some (normalize_path u) else None;
|}.
Next Obligation.
  simpl. intros u q. destruct (is_absolute u) eqn:E; [|done]. intros [= <-]. by apply normalize_absolute.
Qed.

(** Nothing exists on this machine. *)
Definition bare_probe : FileProbe :=
  {| is_dir _ := false; Permissions.is_file _ := false; path_exists _ := false; read_to_string _ := None;
     symlink_metadata _ := None; canonicalize _ := None; tmpdir_var := None |}.

Definition confined_policy : FileSystemSandboxPolicy :=
  restricted [entry (Special SpecialRoot) Read; entry (Special (SpecialProjectRoots None)) Write].

Definition workspace_profile : PermissionProfile :=
  Managed (ManagedRestricted (entries confined_policy) None) NetRestricted.

Lemma auto_approved_patch_confined_witness :
  let env := sample_env in let probe := bare_probe in
  invoke_apply_patch OnRequest workspace_profile confined_policy two_action = DelegateToRuntime two_action true (Skip false None) ∧
  ∃ q, to_abs_path ("/d/n" : @PathUri mem_uris) = Some q ∧ can_write_path_with_cwd confined_policy (path_text q) "/d" = true.
Proof.
  intros env probe.
  assert (invoke_apply_patch OnRequest workspace_profile confined_policy two_action = DelegateToRuntime two_action true (Skip false None))
    as Ha by vm_refl.
  split; [done|].
  destruct (auto_approved_patch_confined two_args mem_cwd two_world two_action OnRequest workspace_profile
    confined_policy two_action true false None) as (_ & _ & n & Hn & Hw); [vm_refl| |done|done|vm_refl|].
  - apply (bool_decide_unpack _). vm_compute. exact I.
  - vm_compute in Hn. injection Hn as <-.
    apply (Hw (AddFile "n" ("1" +:+ NL)) "/d/n"); [apply list_elem_of_here|].
    change (touched_uris (act_cwd two_action) (AddFile "n" ("1" +:+ NL))) with ["/d/n"]. apply list_elem_of_here.
Defined.

(** When a later hunk names the same file, the change that is checked is the later one: the
    destination of a move before it is never looked at, and the patch is approved although
    it writes outside the workspace. *)
Definition hidden_move : ApplyPatchArgs :=
  {| patch := EmptyString;
     hunks := [UpdateFile "a" (Some "/etc/x") [chunk_of ["x"] ["y"]]; AddFile "a" ("x" +:+ NL)];
     workdir := None; environment_id := None |}.

Example hidden_move_destination :
  let env := sample_env in let probe := bare_probe in
  let w : gmap string string := {["/d/a" := "x" +:+ NL]} in
  ∃ action, try_verify_apply_patch_args hidden_move mem_cwd w = Ok action ∧
    assess_patch_safety action OnRequest workspace_profile confined_policy mem_cwd = AutoApprove LinuxSeccomp false ∧
    can_write_path_with_cwd confined_policy "/etc/x" "/d" = false ∧
    world (apply_hunks_to_files mem_cwd (hunks hidden_move) w delta_empty).2 !! "/etc/x" = Some ("y" +:+ NL).
Proof.
  intros env probe w.
  exists {| act_changes := {["/d/a" := FileAdd ("x" +:+ NL)]}; act_patch := EmptyString; act_cwd := mem_cwd |}.
  split_and!; vm_refl.
Qed.
