(* ===== verification/PolicyTransforms.v ===== *)
(** * Additional permissions

    codex-rs/sandboxing/src/policy_transforms.rs, the additional-permission types of
    protocol/src/models.rs, and the code of core that validates and pre-approves the
    additional permissions of a command (core/src/tools/handlers/mod.rs).  The grants recorded
    for a session and for a turn are explicit arguments; PermissionGrants.v keeps them. *)

From stdpp Require Import base gmap list strings.
From S2P Require Import Prelude Str Json Fragments AbsPath PatchApply.
From S2P Require Import Permissions ApprovalPolicy PatchSafety.

(** ** models.rs *)

Record FileSystemPermissions := {
  fs_entries : list FileSystemSandboxEntry;
  fs_glob_scan_max_depth : option positive;
}.

Record NetworkPermissions := { enabled : option bool }.

Record AdditionalPermissionProfile := {
  network : option NetworkPermissions;
  file_system : option FileSystemPermissions;
}.

Definition no_file_system : FileSystemPermissions := {| fs_entries := []; fs_glob_scan_max_depth := None |}.
Definition no_permissions : AdditionalPermissionProfile := {| network := None; file_system := None |}.

Definition fs_is_empty (fs : FileSystemPermissions) : bool :=
  match fs_entries fs with [] => true | _ => false end.

Definition network_is_empty (n : NetworkPermissions) : bool :=
  match enabled n with None => true | Some _ => false end.

Definition profile_is_empty (p : AdditionalPermissionProfile) : bool :=
  match network p, file_system p with None, None => true | _, _ => false end.

Definition from_read_write_roots (read write : option (list AbsolutePathBuf)) : FileSystemPermissions :=
  {| fs_entries := ((λ path, entry (FsPath path) Read) <$> default [] read) ++
                   ((λ path, entry (FsPath path) Write) <$> default [] write);
     fs_glob_scan_max_depth := None |}.

Definition explicit_path_entries (fs : FileSystemPermissions) : list (AbsolutePathBuf * FileSystemAccessMode) :=
  omap (λ e, match entry_path e with FsPath path => Some (path, access e) | _ => None end) (fs_entries fs).

(** One round of the loop of [as_legacy_permissions]; [None] is its early return. *)
Definition legacy_roots_step (acc : option (list AbsolutePathBuf * list AbsolutePathBuf))
    (e : FileSystemSandboxEntry) : option (list AbsolutePathBuf * list AbsolutePathBuf) :=
  match acc, entry_path e, access e with
  | Some (read, write), FsPath path, Read => Some (read ++ [path], write)
  | Some (read, write), FsPath path, Write => Some (read, write ++ [path])
  | _, _, _ => None
  end.

(** [(!paths.is_empty()).then_some(paths)] *)
Definition some_unless_empty {A} (l : list A) : option (list A) :=
  match l with [] => None | _ => Some l end.

Definition legacy_read_write_roots (fs : FileSystemPermissions) :
    option (option (list AbsolutePathBuf) * option (list AbsolutePathBuf)) :=
  match fs_glob_scan_max_depth fs with
  | Some _ => None
  | None =>
      (λ '(read, write), (some_unless_empty read, some_unless_empty write))
        <$> fold_left legacy_roots_step (fs_entries fs) (Some ([], []))
  end.

(** The derived equality. *)
Fixpoint entries_eqb (l l' : list FileSystemSandboxEntry) : bool :=
  match l, l' with
  | [], [] => true
  | e :: l, e' :: l' => entry_eqb e e' && entries_eqb l l'
  | _, _ => false
  end.

Definition opt_eqb {A} (eqb : A → A → bool) (x y : option A) : bool :=
  match x, y with
  | Some x, Some y => eqb x y
  | None, None => true
  | _, _ => false
  end.

Definition fs_permissions_eqb (a b : FileSystemPermissions) : bool :=
  entries_eqb (fs_entries a) (fs_entries b) &&
  bool_decide (fs_glob_scan_max_depth a = fs_glob_scan_max_depth b).

Definition network_permissions_eqb (a b : NetworkPermissions) : bool := bool_decide (enabled a = enabled b).

Definition additional_eqb (a b : AdditionalPermissionProfile) : bool :=
  opt_eqb network_permissions_eqb (network a) (network b) &&
  opt_eqb fs_permissions_eqb (file_system a) (file_system b).

(** [Option::filter] *)
Definition opt_filter {A} (f : A → bool) (x : option A) : option A :=
  match x with Some a => if f a then Some a else None | None => None end.

(** ** policy_transforms.rs: merging *)

Inductive GlobScanDepth := Bounded (depth : nat) | Unbounded.

Definition is_deny_glob (e : FileSystemSandboxEntry) : bool :=
  is_deny (access e) && match entry_path e with GlobPattern _ => true | _ => false end.

Definition effective_glob_scan_depth (es : list FileSystemSandboxEntry) (depth : option nat) : option GlobScanDepth :=
  if existsb is_deny_glob es
  then Some match depth with Some depth => Bounded depth | None => Unbounded end
  else None.

Definition merge_glob_scan_max_depth (left_entries : list FileSystemSandboxEntry) (left_depth : option nat)
    (right_entries : list FileSystemSandboxEntry) (right_depth : option nat) : option nat :=
  match effective_glob_scan_depth left_entries left_depth, effective_glob_scan_depth right_entries right_depth with
  | Some Unbounded, _ | _, Some Unbounded => None
  | Some (Bounded l), Some (Bounded r) => Some (Nat.max l r)
  | Some (Bounded depth), None | None, Some (Bounded depth) => Some depth
  | None, None => None
  end.

Definition merge_permission_entries (base permissions : list FileSystemSandboxEntry) : list FileSystemSandboxEntry :=
  fold_left push_entry (base ++ permissions) [].

Definition network_enabled (n : option NetworkPermissions) : bool :=
  match n with Some {| enabled := Some true |} => true | _ => false end.

Definition merge_permission_profiles (base permissions : option AdditionalPermissionProfile) :
    option AdditionalPermissionProfile :=
  match permissions with
  | None => base
  | Some permissions =>
      match base with
      | None => opt_filter (λ p, negb (profile_is_empty p)) (Some permissions)
      | Some base =>
          let network :=
            if network_enabled (network base) || network_enabled (network permissions)
            then Some {| enabled := Some true |} else None in
          let file_system :=
            match file_system base, file_system permissions with
            | Some base, Some permissions =>
                opt_filter (λ fs, negb (fs_is_empty fs))
                  (Some {| fs_entries := merge_permission_entries (fs_entries base) (fs_entries permissions);
                           fs_glob_scan_max_depth :=
                             merge_glob_scan_max_depth
                               (fs_entries base) (Pos.to_nat <$> fs_glob_scan_max_depth base)
                               (fs_entries permissions) (Pos.to_nat <$> fs_glob_scan_max_depth permissions)
                               ≫= nonzero |})
            | Some base, None => Some base
            | None, Some permissions => Some permissions
            | None, None => None
            end in
          opt_filter (λ p, negb (profile_is_empty p)) (Some {| network := network; file_system := file_system |})
      end
  end.

Definition merge_file_system_policy_with_additional_permissions (p : FileSystemSandboxPolicy)
    (additional : FileSystemPermissions) : FileSystemSandboxPolicy :=
  match kind p with
  | KindRestricted =>
      {| kind := kind p;
         glob_scan_max_depth :=
           merge_glob_scan_max_depth (entries p) (glob_scan_max_depth p)
             (fs_entries additional) (Pos.to_nat <$> fs_glob_scan_max_depth additional);
         entries := fold_left push_entry (fs_entries additional) (entries p) |}
  | KindUnrestricted | KindExternalSandbox => p
  end.

Definition effective_file_system_sandbox_policy (p : FileSystemSandboxPolicy)
    (additional : option AdditionalPermissionProfile) : FileSystemSandboxPolicy :=
  match additional ≫= file_system with
  | None => p
  | Some fs => if fs_is_empty fs then p else merge_file_system_policy_with_additional_permissions p fs
  end.

Definition merge_network_access (base_network_access : bool) (additional : AdditionalPermissionProfile) : bool :=
  base_network_access || default false (network additional ≫= enabled).

Definition effective_network_sandbox_policy (n : NetworkSandboxPolicy)
    (additional : option AdditionalPermissionProfile) : NetworkSandboxPolicy :=
  match additional with
  | Some permissions => if merge_network_access (net_is_enabled n) permissions then NetEnabled else NetRestricted
  | None => n
  end.

(** [None] is the [unreachable!] of the profile constructor ([effective_profile_total]). *)
Definition effective_permission_profile (profile : PermissionProfile)
    (additional : option AdditionalPermissionProfile) : option PermissionProfile :=
  let '(file_system_policy, network_policy) := to_runtime_permissions profile in
  from_runtime_permissions_with_enforcement (enforcement profile)
    (effective_file_system_sandbox_policy file_system_policy additional)
    (effective_network_sandbox_policy network_policy additional).

Definition should_require_platform_sandbox (p : FileSystemSandboxPolicy) (n : NetworkSandboxPolicy)
    (has_managed_network_requirements : bool) : bool :=
  if has_managed_network_requirements then true
  else if negb (net_is_enabled n) then negb (bool_decide (kind p = KindExternalSandbox))
  else match kind p with
       | KindRestricted => negb (has_full_disk_write_access p)
       | KindUnrestricted | KindExternalSandbox => false
       end.

(** ** policy_transforms.rs: normalising and intersecting *)

Section transforms.
Context `{PathEnv, FileProbe, GlobSet}.

Definition GLOB_ERROR : string := "glob file system permissions only support deny-read entries".

Definition normalize_entry (e : FileSystemSandboxEntry) : FileSystemSandboxEntry :=
  {| entry_path :=
       match entry_path e with
       | FsPath path =>
           FsPath (default path
             (canonicalize_preserving_symlinks (path_text path) ≫= λ c, from_absolute_path (path_text c)))
       | GlobPattern pattern => GlobPattern pattern
       | Special value => Special value
       end;
     access := access e |}.

(** The loop body over the requested entries. *)
Definition normalize_step (es : list FileSystemSandboxEntry) (e : FileSystemSandboxEntry) :
    Result (list FileSystemSandboxEntry) string :=
  if match entry_path e with GlobPattern _ => negb (is_deny (access e)) | _ => false end
  then Err GLOB_ERROR
  else Ok (push_entry es (normalize_entry e)).

Definition normalize_additional_permissions (p : AdditionalPermissionProfile) :
    Result AdditionalPermissionProfile string :=
  let network := opt_filter (λ n, negb (network_is_empty n)) (network p) in
  match file_system p with
  | None => Ok {| network := network; file_system := None |}
  | Some fs =>
      let? es := fold_res normalize_step [] (fs_entries fs) in
      let fs := {| fs_entries := es; fs_glob_scan_max_depth := fs_glob_scan_max_depth fs |} in
      Ok {| network := network; file_system := if fs_is_empty fs then None else Some fs |}
  end.

Definition resolve_permission_path (path : FileSystemPath) (cwd : string) : option AbsolutePathBuf :=
  match path with
  | FsPath path => Some path
  | GlobPattern _ => None
  | Special value =>
      match value with
      | SpecialRoot =>
          (* the last ancestor of an absolute path is the root, of a relative one the empty path *)
          from_absolute_path (if is_absolute cwd then "/" else EmptyString)
      | SpecialProjectRoots subpath =>
          (λ cwd, match subpath with
                  | Some subpath => resolve_path_against_base subpath (path_text cwd)
                  | None => cwd
                  end) <$> from_absolute_path cwd
      | SpecialTmpdir =>
          tmpdir_var ≫= λ tmpdir, if str_is_empty tmpdir then None else from_absolute_path tmpdir
      | SpecialSlashTmp => opt_filter is_dir (from_absolute_path "/tmp")
      | SpecialMinimal | SpecialUnknown _ _ => None
      end
  end.

Definition materialize_cwd_dependent_entry (e : FileSystemSandboxEntry) (cwd : string) : FileSystemSandboxEntry :=
  match entry_path e with
  | Special (SpecialProjectRoots _) =>
      match resolve_permission_path (entry_path e) cwd with
      | Some path => entry (FsPath path) (access e)
      | None => e
      end
  | GlobPattern pattern => entry (GlobPattern (path_text (resolve_path_against_base pattern cwd))) (access e)
  | FsPath _ | Special _ => e
  end.

Definition access_covers (requested granted : FileSystemAccessMode) : bool :=
  match granted with
  | Read => can_read requested
  | Write => can_write requested
  | Deny => false
  end.

Definition paths_overlap (l r : AbsolutePathBuf) : bool := path_starts_with l r || path_starts_with r l.

Definition is_glob_char (c : ascii) : bool :=
  byte_eqb c "*" || byte_eqb c "?" || byte_eqb c "[" || byte_eqb c "]".

(** [text.find(['*', '?', '[', ']'])] as the text before the first such character. *)
Fixpoint before_glob_char (s : string) : option string :=
  match s with
  | EmptyString => None
  | String c s' => if is_glob_char c then Some EmptyString else String c <$> before_glob_char s'
  end.

(** [Path::parent] of a text: all components but the last. *)
Definition text_parent (s : string) : option string :=
  match last (components s) with
  | None | Some RootDir => None
  | Some _ =>
      Some ((if is_absolute s then "/" else EmptyString) +:+
            join "/" (omap (λ c, match c with
                                 | RootDir => None
                                 | CurDir => Some "."
                                 | ParentDir => Some ".."
                                 | Normal n => Some n
                                 end) (removelast (components s))))
  end.

Definition glob_static_prefix_path (pattern cwd : string) : option AbsolutePathBuf :=
  let resolved_pattern := path_text (resolve_path_against_base pattern cwd) in
  match before_glob_char resolved_pattern with
  | Some EmptyString => None
  | Some prefix =>
      (if ends_with "/" prefix || ends_with "\" prefix then Some prefix else text_parent prefix)
        ≫= from_absolute_path
  | None => from_absolute_path resolved_pattern
  end.

Definition deny_entry_constrains_accepted_grant (deny_entry : FileSystemSandboxEntry)
    (accepted_entries : list FileSystemSandboxEntry) (cwd : string) : bool :=
  existsb (λ e,
    can_read (access e) &&
    match resolve_permission_path (entry_path e) cwd with
    | None => false
    | Some grant_path =>
        match match entry_path deny_entry with
              | GlobPattern pattern => glob_static_prefix_path pattern cwd
              | FsPath _ | Special _ => resolve_permission_path (entry_path deny_entry) cwd
              end with
        | Some deny_path => paths_overlap deny_path grant_path
        | None => false
        end
    end) accepted_entries.

Definition retained_deny_entries (source_entries accepted_entries : list FileSystemSandboxEntry) (cwd : string) :
    list FileSystemSandboxEntry :=
  (λ e, materialize_cwd_dependent_entry e cwd) <$>
    List.filter (λ e, is_deny (access e) && deny_entry_constrains_accepted_grant e accepted_entries cwd)
      source_entries.

(** The output entries and the retained ones. *)
Definition retain_constraining_deny_entries (source_entries accepted_entries output_entries : list FileSystemSandboxEntry)
    (cwd : string) : list FileSystemSandboxEntry * list FileSystemSandboxEntry :=
  let retained := retained_deny_entries source_entries accepted_entries cwd in
  (fold_left push_entry retained output_entries, retained).

Definition granted_file_system_entry_within_request (requested : FileSystemPermissions)
    (requested_policy : FileSystemSandboxPolicy) (matcher : option ReadDenyMatcher)
    (granted_entry : FileSystemSandboxEntry) (cwd : string) : bool :=
  if negb (can_read (access granted_entry)) then false
  else match resolve_permission_path (entry_path granted_entry) cwd with
       | Some path =>
           if match matcher with Some m => is_read_denied m (path_text path) | None => false end then false
           else access_covers (resolve_access_with_cwd requested_policy (path_text path) cwd) (access granted_entry)
       | None =>
           existsb (λ requested_entry,
             access_covers (access requested_entry) (access granted_entry) &&
             fs_path_eqb (entry_path requested_entry) (entry_path granted_entry)) (fs_entries requested)
       end.

(** [ReadDenyMatcher::new], whose [unreachable!] is not reached ([matcher_new_total]). *)
Definition read_deny_matcher (p : FileSystemSandboxPolicy) (cwd : string) : option ReadDenyMatcher :=
  default None (matcher_new p cwd).

Definition accepted_grants (requested granted : FileSystemPermissions) (cwd : string) : list FileSystemSandboxEntry :=
  let requested_policy := restricted (fs_entries requested) in
  let matcher := read_deny_matcher requested_policy cwd in
  fold_left push_entry
    ((λ e, materialize_cwd_dependent_entry e cwd) <$>
      List.filter (λ e, granted_file_system_entry_within_request requested requested_policy matcher e cwd)
        (fs_entries granted)) [].

Definition intersect_file_system (requested granted : FileSystemPermissions) (cwd : string) : FileSystemPermissions :=
  let accepted := accepted_grants requested granted cwd in
  let '(out, requested_retained) :=
    retain_constraining_deny_entries (fs_entries requested) accepted accepted cwd in
  let '(out, granted_retained) :=
    retain_constraining_deny_entries (fs_entries granted) accepted out cwd in
  {| fs_entries := out;
     fs_glob_scan_max_depth :=
       merge_glob_scan_max_depth
         requested_retained (Pos.to_nat <$> fs_glob_scan_max_depth requested)
         granted_retained (Pos.to_nat <$> fs_glob_scan_max_depth granted) ≫= nonzero |}.

Definition intersect_permission_profiles (requested granted : AdditionalPermissionProfile) (cwd : string) :
    AdditionalPermissionProfile :=
  {| network :=
       if network_enabled (network requested) && network_enabled (network granted)
       then Some {| enabled := Some true |} else None;
     file_system :=
       opt_filter (λ fs, negb (fs_is_empty fs))
         ((λ requested_fs, intersect_file_system requested_fs (default no_file_system (file_system granted)) cwd)
            <$> file_system requested) |}.

(** ** core: validation, grants and pre-approval *)

Definition ADDITIONAL_DISABLED : string :=
  "additional permissions are disabled; enable `features.exec_permission_approvals` before using `with_additional_permissions`".
Definition ADDITIONAL_MISSING : string :=
  "missing `additional_permissions`; provide at least one of `network` or `file_system` when using `with_additional_permissions`".
Definition ADDITIONAL_EMPTY : string :=
  "`additional_permissions` must include at least one requested permission in `network` or `file_system`".
Definition ADDITIONAL_UNUSED : string :=
  "`additional_permissions` requires `sandbox_permissions` set to `with_additional_permissions`".

(** [policy_debug] is the [Debug] text of the approval policy. *)
Definition not_on_request (policy_debug : string) : string :=
  "approval policy is " +:+ (policy_debug +:+
  "; reject command — you cannot request additional permissions unless the approval policy is OnRequest").

Definition normalize_and_validate_additional_permissions (policy_debug : AskForApproval → string)
    (additional_permissions_allowed : bool) (approval_policy : AskForApproval)
    (sandbox_permissions : SandboxPermissions) (additional : option AdditionalPermissionProfile)
    (permissions_preapproved : bool) : Result (option AdditionalPermissionProfile) string :=
  let uses := uses_additional_permissions sandbox_permissions in
  if negb permissions_preapproved && negb additional_permissions_allowed
     && (uses || bool_decide (is_Some additional))
  then Err ADDITIONAL_DISABLED
  else if uses then
    if negb permissions_preapproved && negb match approval_policy with OnRequest => true | _ => false end
    then Err (not_on_request (policy_debug approval_policy))
    else match additional with
         | None => Err ADDITIONAL_MISSING
         | Some additional =>
             let? normalized := normalize_additional_permissions additional in
             if profile_is_empty normalized then Err ADDITIONAL_EMPTY else Ok (Some normalized)
         end
  else match additional with
       | Some _ => Err ADDITIONAL_UNUSED
       | None => Ok None
       end.

Record EffectiveAdditionalPermissions := {
  eff_sandbox_permissions : SandboxPermissions;
  eff_additional_permissions : option AdditionalPermissionProfile;
  permissions_preapproved : bool;
}.

Definition implicit_granted_permissions (sandbox_permissions : SandboxPermissions)
    (additional : option AdditionalPermissionProfile) (effective : EffectiveAdditionalPermissions) :
    option AdditionalPermissionProfile :=
  if negb (uses_additional_permissions sandbox_permissions)
     && negb (requires_escalated_permissions sandbox_permissions)
     && negb (bool_decide (is_Some additional))
  then eff_additional_permissions effective else None.

Definition permissions_are_preapproved (effective granted : AdditionalPermissionProfile) (cwd : string) : bool :=
  additional_eqb (intersect_permission_profiles effective granted cwd)
    (intersect_permission_profiles effective effective cwd).

(** The grants of the session and of the turn are read from its state. *)
Definition apply_granted_turn_permissions (granted_session granted_turn : option AdditionalPermissionProfile)
    (cwd : string) (sandbox_permissions : SandboxPermissions) (additional : option AdditionalPermissionProfile) :
    EffectiveAdditionalPermissions :=
  if requires_escalated_permissions sandbox_permissions then
    {| eff_sandbox_permissions := sandbox_permissions; eff_additional_permissions := additional;
       permissions_preapproved := false |}
  else
    let granted := merge_permission_profiles granted_session granted_turn in
    let effective := merge_permission_profiles additional granted in
    {| eff_sandbox_permissions :=
         if bool_decide (is_Some effective) && negb (uses_additional_permissions sandbox_permissions)
         then WithAdditionalPermissions else sandbox_permissions;
       eff_additional_permissions := effective;
       permissions_preapproved :=
         match effective, granted with
         | Some effective, Some granted => permissions_are_preapproved effective granted cwd
         | _, _ => false
         end |}.
End transforms.
