(* ===== verification/PolicyTransformFacts.v ===== *)
(** * What additional permissions can and cannot do

    The intersection of a request with an answer, the merge of grants, and pre-approval, for
    the definitions of PolicyTransforms.v. *)

From stdpp Require Import base gmap list strings.
From S2P Require Import Prelude Str Json Fragments AbsPath PathFacts PatchApply.
From S2P Require Import Permissions PermissionFacts ApprovalPolicy PatchSafety PolicyTransforms.

(** ** Lists of resolved entries *)

Section lists.
Implicit Types (t : AbsolutePathBuf) (e d : ResolvedFileSystemEntry) (R G I : list ResolvedFileSystemEntry).

Lemma covers_below t e e' : covers t e → path_starts_with (resolved_path e) (resolved_path e') = true → covers t e'.
Proof. unfold covers. apply starts_with_trans. Qed.

(** A denial in the list lies strictly above a deciding entry that grants. *)
Lemma denial_above es t e d :
  deciding es t e → can_read (resolved_access e) = true → d ∈ es → covers t d → resolved_access d = Deny →
  path_starts_with (resolved_path e) (resolved_path d) = true ∧ resolved_path d ≠ resolved_path e.
Proof.
  intros (_ & _ & Hm) Hr Hd Hc Ha. destruct (Hm d Hd Hc) as [Hp Hrank]. split; [done|].
  intros Heq. specialize (Hrank Heq). rewrite Ha in Hrank. destruct (resolved_access e); simpl in *; [lia|lia|done].
Qed.

(** The deciding entry of a longer path, when it covers the shorter one, is at or above the
    one that decides there. *)
Lemma deciding_same_path es t e u d :
  deciding es t e → deciding es u d → path_starts_with t u = true → covers u e →
  resolved_path e = resolved_path d.
Proof.
  intros (He & _ & Hm) (Hd & Hdu & Hm') Htu Hue.
  destruct (Hm d Hd) as [H1 _]; [by eapply starts_with_trans|]. destruct (Hm' e He Hue) as [H2 _].
  apply starts_with_antisym; [done|by apply starts_with_length].
Qed.

(** What an intersection has to satisfy about one path. *)
Record Intersection R G I t : Prop := {
  grant_source e : e ∈ I → covers t e → can_read (resolved_access e) = true →
    e ∈ G ∧ ∃ a, decides R (resolved_path e) a ∧ access_covers a (resolved_access e) = true;
  denials_kept e d : e ∈ I → covers t e → can_read (resolved_access e) = true →
    d ∈ R ∨ d ∈ G → resolved_access d = Deny → covers t d → d ∈ I;
}.

Lemma covers_read a b : access_covers a b = true → can_read a = true.
Proof. by destruct a, b. Qed.

Lemma granting_entry es t a : decides es t a → can_read a = true → ∃ e, deciding es t e ∧ resolved_access e = a.
Proof. intros [He|[_ ->]]; done. Qed.

(** A denial of the request that covers a grant's path would have kept the grant out. *)
Lemma request_denial_absent R G I t e f :
  Intersection R G I t → deciding I t e → can_read (resolved_access e) = true →
  ∀ u, deciding R u f → path_starts_with t u = true → path_starts_with u (resolved_path e) = true →
  resolved_access f = Deny → False.
Proof.
  intros HI He Hr u Hf Htu Hue Ha. pose proof He as (HeI & Hct & _).
  destruct (grant_source _ _ _ _ HI e HeI Hct Hr) as (_ & a & Hd & Hcov).
  destruct (granting_entry _ _ _ Hd (covers_read _ _ Hcov)) as (x & Hx & <-).
  assert (covers t f) as Hft by (destruct Hf as (_ & Hfu & _); exact (starts_with_trans _ _ _ Htu Hfu)).
  assert (f ∈ R) as HfR by apply Hf.
  destruct (denial_above I t e f He Hr) as [Hab _];
    [by eapply denials_kept; eauto|done|done|].
  assert (resolved_path f = resolved_path x) as Heq
    by (eapply (deciding_same_path R u f (resolved_path e) x); eauto).
  destruct (denial_above R (resolved_path e) x f) as [_ Hne];
    [done|by eapply covers_read|done|done|done|]. by apply Hne.
Qed.

Lemma intersection_read R G I t a b :
  Intersection R G I t → decides I t a → can_read a = true → decides R t b → can_read b = true.
Proof.
  intros HI Ha Hr Hb. destruct (granting_entry _ _ _ Ha Hr) as (e & He & <-).
  destruct Hb as [(f & Hf & <-)|[Hn ->]].
  - destruct (can_read (resolved_access f)) eqn:Ef; [done|]. exfalso.
    eapply (request_denial_absent R G I t e f HI He Hr t Hf); [apply starts_with_refl|apply He|].
    by destruct (resolved_access f).
  - exfalso. pose proof He as (HeI & Hct & _).
    destruct (grant_source _ _ _ _ HI e HeI Hct Hr) as (_ & a & Hd & Hcov).
    destruct (granting_entry _ _ _ Hd (covers_read _ _ Hcov)) as (x & (Hx & Hxe & _) & _).
    apply (Hn x Hx). by eapply covers_below.
Qed.

(** The answer bounds the intersection: the entry that decides in the answer lies at or below
    the one that decides in the intersection, and does not deny. *)
Lemma intersection_answer R G I t e b :
  Intersection R G I t → deciding I t e → can_read (resolved_access e) = true → decides G t b →
  ∃ g, deciding G t g ∧ resolved_access g = b ∧ can_read b = true ∧
       path_starts_with (resolved_path g) (resolved_path e) = true ∧
       (resolved_path e = resolved_path g → access_rank (resolved_access e) ≤ access_rank b).
Proof.
  intros HI He Hr Hb. pose proof He as (HeI & Hct & _).
  destruct (grant_source _ _ _ _ HI e HeI Hct Hr) as (HeG & _).
  destruct (covered_decides _ _ e _ HeG Hct Hb) as (g & Hg & <-). pose proof Hg as (HgG & Hgt & HgM).
  destruct (HgM e HeG Hct) as [Hge Hrank]. exists g. split_and!; [done|done| |done|done].
  destruct (resolved_access g) eqn:Ha; try done. exfalso.
  destruct (denial_above I t e g He Hr) as [Hab Hne]; [by eapply denials_kept; eauto|done|done|].
  apply Hne. apply starts_with_antisym; [done|by apply starts_with_length].
Qed.

Lemma intersection_write R G I t b :
  Intersection R G I t →
  (∀ g, g ∈ G → covers t g → resolved_access g = Read → g ∈ I ∨ decides R (resolved_path g) Deny) →
  decides I t Write → decides G t b → b = Write.
Proof.
  intros HI Hread Hda Hb. destruct (granting_entry _ _ _ Hda eq_refl) as (e & He & Hw). pose proof He as (HeI & Hct & HeM).
  assert (can_read (resolved_access e) = true) as Hr by (by rewrite Hw).
  destruct (intersection_answer _ _ _ _ _ _ HI He Hr Hb) as (g & Hg & Ha & Hrb & Hge & Hrank).
  destruct b; try done. exfalso. pose proof Hg as (HgG & Hgt & _).
  destruct (Hread g HgG Hgt Ha) as [HgI|[(f & Hf & Hfd)|[Hn _]]].
  - destruct (HeM g HgI Hgt) as [Heg _].
    assert (resolved_path e = resolved_path g) as Heq by (apply starts_with_antisym; [done|by apply starts_with_length]).
    specialize (Hrank Heq). rewrite Hw in Hrank. simpl in Hrank. lia.
  - by eapply (request_denial_absent R G I t e f HI He Hr (resolved_path g)).
  - destruct (grant_source _ _ _ _ HI e HeI Hct Hr) as (_ & x & Hd & Hcov).
    destruct (granting_entry _ _ _ Hd (covers_read _ _ Hcov)) as (y & (Hy & Hye & _) & _).
    destruct (Hn y Hy). by eapply starts_with_trans.
Qed.

(** The access in a merged list is the access in one of the two. *)
Lemma merged_access es es' es'' t a :
  (∀ r, r ∈ es'' ↔ r ∈ es ∨ r ∈ es') → decides es'' t a → can_read a = true →
  decides es t a ∨ decides es' t a.
Proof.
  intros Hm Ha Hr. destruct (granting_entry _ _ _ Ha Hr) as (e & (He & Hc & Hmax) & <-).
  apply Hm in He as [He|He]; [left|right]; left; exists e; (split; [|done]); split_and!; auto;
    intros r Hr' Hcr; apply Hmax; auto; apply Hm; auto.
Qed.
End lists.

(** ** Entries and their resolution *)

Section resolution.
Context `{PathEnv, FileProbe}.

Definition resolved (es : list FileSystemSandboxEntry) (cwd : string) : list ResolvedFileSystemEntry :=
  resolved_entries_with_cwd (restricted es) cwd.

Lemma elem_of_resolved_list es cwd r :
  r ∈ resolved es cwd ↔
  ∃ e, e ∈ es ∧ resolve_entry_path (entry_path e) (from_absolute_path cwd) = Some (resolved_path r) ∧
       resolved_access r = access e.
Proof. apply elem_of_resolved. Qed.

Lemma resolved_app es es' cwd r : r ∈ resolved (es ++ es') cwd ↔ r ∈ resolved es cwd ∨ r ∈ resolved es' cwd.
Proof. rewrite !elem_of_resolved_list. set_solver. Qed.

Lemma resolved_push ds es cwd r :
  r ∈ resolved (fold_left push_entry ds es) cwd ↔ r ∈ resolved es cwd ∨ r ∈ resolved ds cwd.
Proof.
  destruct (push_entries_spec ds es) as (H1 & H2 & H3). cbv zeta in *. rewrite !elem_of_resolved_list. split.
  - intros (e & [He|He]%H2 & Hp); eauto.
  - intros [(e & He & Hp)|(e & (x & Hx & Heq)%H3 & Hp & Ha)]; [eauto|]. exists x. split; [done|].
    destruct (entry_eqb_resolves x e (from_absolute_path cwd) Heq) as [-> ->]. done.
Qed.

Lemma resolve_permission_agrees path cwd :
  is_absolute cwd = true → resolve_permission_path path cwd = resolve_entry_path path (from_absolute_path cwd).
Proof.
  intros Hc. destruct (from_absolute_ok cwd Hc) as [Hf Hok].
  destruct path as [q|g|v]; [done|done|]. destruct v as [| |sub| | |]; simpl; rewrite ?Hc, ?Hf; try done.
  - simpl. rewrite root_path_total by done. by apply (from_absolute_text root_path).
  - by destruct sub.
  - change "/tmp" with (path_text slash_tmp). rewrite from_absolute_text; [done|]. by repeat constructor.
Qed.

Lemma materialize_resolves e cwd :
  is_absolute cwd = true →
  resolve_entry_path (entry_path (materialize_cwd_dependent_entry e cwd)) (from_absolute_path cwd) =
    resolve_entry_path (entry_path e) (from_absolute_path cwd) ∧
  access (materialize_cwd_dependent_entry e cwd) = access e.
Proof.
  intros Hc. unfold materialize_cwd_dependent_entry. destruct (entry_path e) as [q|g|v] eqn:Ep; rewrite ?Ep; [done|done|].
  destruct v; rewrite ?Ep; try done. rewrite resolve_permission_agrees by done.
  destruct (resolve_entry_path (Special (SpecialProjectRoots subpath)) (from_absolute_path cwd)) eqn:Er; [done|].
  by rewrite Ep, Er.
Qed.

Lemma resolved_materialize es cwd r :
  is_absolute cwd = true →
  r ∈ resolved ((λ e, materialize_cwd_dependent_entry e cwd) <$> es) cwd ↔ r ∈ resolved es cwd.
Proof.
  intros Hc. rewrite !elem_of_resolved_list. split.
  - intros (x & (e & -> & He)%list_elem_of_fmap & Hp & Ha). exists e.
    destruct (materialize_resolves e cwd Hc) as [Hr Hacc]. by rewrite <-Hr, <-Hacc.
  - intros (e & He & Hp & Ha). exists (materialize_cwd_dependent_entry e cwd).
    destruct (materialize_resolves e cwd Hc) as [-> ->]. split; [|done]. apply list_elem_of_fmap. eauto.
Qed.

Lemma resolved_filter f es cwd r :
  r ∈ resolved (List.filter f es) cwd ↔
  ∃ e, e ∈ es ∧ f e = true ∧ resolve_entry_path (entry_path e) (from_absolute_path cwd) = Some (resolved_path r) ∧
       resolved_access r = access e.
Proof.
  rewrite elem_of_resolved_list. setoid_rewrite list_elem_of_In. setoid_rewrite filter_In. naive_solver.
Qed.

Lemma access_decides es path cwd t :
  resolve_candidate_path path cwd = Some t →
  decides (resolved es cwd) t (resolve_access_with_cwd (restricted es) path cwd).
Proof. by apply resolve_access_decides. Qed.

(** Lists that resolve alike give the same access. *)
Lemma entries_eqb_resolved es es' cwd r :
  entries_eqb es es' = true → r ∈ resolved es cwd ↔ r ∈ resolved es' cwd.
Proof.
  revert es'. induction es as [|e es IH]; intros [|e' es']; simpl; try done.
  intros [He Hes]%andb_true_iff. change (e :: es) with ([e] ++ es). change (e' :: es') with ([e'] ++ es').
  rewrite !resolved_app, (IH es' Hes), !elem_of_resolved_list.
  destruct (entry_eqb_resolves e e' (from_absolute_path cwd) He) as [Hp Ha].
  setoid_rewrite list_elem_of_singleton. split; (intros [(x & -> & Hx)|?]; [left|auto]);
    eexists; (split; [reflexivity|]); by rewrite ?Hp, ?Ha in *; rewrite <-?Hp, <-?Ha in *.
Qed.

Lemma decides_ext es es' t a : (∀ r, r ∈ es ↔ r ∈ es') → decides es t a → decides es' t a.
Proof.
  intros Hext [(e & (He & Hc & Hm) & <-)|[Hn ->]].
  - left. exists e. split; [|done]. split_and!; [by apply Hext|done|]. intros e' He'. by apply Hm, Hext.
  - right. split; [|done]. intros e He. by apply Hn, Hext.
Qed.

Lemma access_ext es es' path cwd :
  (∀ r, r ∈ resolved es cwd ↔ r ∈ resolved es' cwd) →
  resolve_access_with_cwd (restricted es) path cwd = resolve_access_with_cwd (restricted es') path cwd.
Proof.
  intros Hext. destruct (resolve_candidate_path path cwd) as [t|] eqn:Ht.
  - eapply decides_unique; [|by apply access_decides]. eapply decides_ext; [exact Hext|by apply access_decides].
  - unfold resolve_access_with_cwd. simpl. by rewrite Ht.
Qed.
End resolution.

(** ** The intersection of a request and an answer *)

(** The entries of a profile, and the policy they make. *)
Definition profile_entries (p : AdditionalPermissionProfile) : list FileSystemSandboxEntry :=
  match file_system p with Some fs => fs_entries fs | None => [] end.

Definition profile_policy (p : AdditionalPermissionProfile) : FileSystemSandboxPolicy := restricted (profile_entries p).

Section intersection.
Context `{PathEnv, FileProbe, GlobSet}.

(** The denials of the request [requested] hide a path. *)
Definition hidden (requested : list FileSystemSandboxEntry) (cwd : string) (q : AbsolutePathBuf) : bool :=
  match read_deny_matcher (restricted requested) cwd with
  | Some m => is_read_denied m (path_text q)
  | None => false
  end.

(** No path that an answer grants is hidden by the request. *)
Definition unhidden (requested granted : list FileSystemSandboxEntry) (cwd : string) : Prop :=
  ∀ e q, e ∈ granted → can_read (access e) = true → resolve_permission_path (entry_path e) cwd = Some q →
    hidden requested cwd q = false.

Lemma unhidden_no_denials requested granted cwd :
  existsb (λ e, is_deny (access e)) requested = false → unhidden requested granted cwd.
Proof.
  intros Hd e q _ _ _. unfold hidden, read_deny_matcher, matcher_new, build_matcher, has_denied_read_restrictions.
  simpl. by rewrite Hd.
Qed.

Lemma within_request_access requested e cwd q :
  granted_file_system_entry_within_request requested (restricted (fs_entries requested))
    (read_deny_matcher (restricted (fs_entries requested)) cwd) e cwd = true →
  resolve_permission_path (entry_path e) cwd = Some q →
  can_read (access e) = true ∧
  access_covers (resolve_access_with_cwd (restricted (fs_entries requested)) (path_text q) cwd) (access e) = true.
Proof.
  unfold granted_file_system_entry_within_request. intros Hw Hq. destruct (can_read (access e)); [|done].
  cbn [negb] in Hw. rewrite Hq in Hw. split; [done|]. by case_match; case_match.
Qed.

Lemma intersect_resolved requested granted cwd r :
  is_absolute cwd = true →
  r ∈ resolved (fs_entries (intersect_file_system requested granted cwd)) cwd ↔
  r ∈ resolved (accepted_grants requested granted cwd) cwd ∨
  r ∈ resolved (retained_deny_entries (fs_entries requested) (accepted_grants requested granted cwd) cwd) cwd ∨
  r ∈ resolved (retained_deny_entries (fs_entries granted) (accepted_grants requested granted cwd) cwd) cwd.
Proof.
  intros Hc. unfold intersect_file_system. cbn [retain_constraining_deny_entries fs_entries].
  rewrite !resolved_push. tauto.
Qed.

Lemma accepted_resolved requested granted cwd r :
  is_absolute cwd = true →
  r ∈ resolved (accepted_grants requested granted cwd) cwd ↔
  ∃ e, e ∈ fs_entries granted ∧
    granted_file_system_entry_within_request requested (restricted (fs_entries requested))
      (read_deny_matcher (restricted (fs_entries requested)) cwd) e cwd = true ∧
    resolve_entry_path (entry_path e) (from_absolute_path cwd) = Some (resolved_path r) ∧ resolved_access r = access e.
Proof.
  intros Hc. unfold accepted_grants. rewrite resolved_push, resolved_materialize, resolved_filter by done.
  rewrite (elem_of_resolved_list []). set_solver.
Qed.

Lemma retained_resolved source accepted cwd r :
  is_absolute cwd = true →
  r ∈ resolved (retained_deny_entries source accepted cwd) cwd ↔
  ∃ e, e ∈ source ∧ access e = Deny ∧ deny_entry_constrains_accepted_grant e accepted cwd = true ∧
    resolve_entry_path (entry_path e) (from_absolute_path cwd) = Some (resolved_path r) ∧ resolved_access r = Deny.
Proof.
  intros Hc. unfold retained_deny_entries. rewrite resolved_materialize, resolved_filter by done.
  setoid_rewrite andb_true_iff. split.
  - intros (e & He & [Hd Hk] & Hp & Ha). exists e. destruct (access e); naive_solver.
  - intros (e & He & Hd & Hk & Hp & Ha). exists e. rewrite Hd. naive_solver.
Qed.

Lemma paths_overlap_common t p q :
  path_starts_with t p = true → path_starts_with t q = true → paths_overlap p q = true.
Proof.
  intros Hp Hq. unfold paths_overlap. apply orb_true_iff.
  destruct (decide (length (names q) ≤ length (names p))).
  - left. by eapply starts_with_total.
  - right. eapply starts_with_total; [exact Hq|exact Hp|lia].
Qed.

Lemma denial_retained source accepted cwd t e d :
  is_absolute cwd = true → e ∈ resolved accepted cwd → can_read (resolved_access e) = true → covers t e →
  d ∈ resolved source cwd → resolved_access d = Deny → covers t d →
  d ∈ resolved (retained_deny_entries source accepted cwd) cwd.
Proof.
  intros Hc (y & Hy & Hyp & Hya)%elem_of_resolved_list Hr Hte (x & Hx & Hxp & Hxa)%elem_of_resolved_list Hd Htd.
  apply retained_resolved; [done|]. exists x. split_and!; [done|congruence| |done|done].
  unfold deny_entry_constrains_accepted_grant. apply existsb_exists. exists y. rewrite <-list_elem_of_In.
  split; [done|]. rewrite <-Hya, Hr. cbn [andb]. rewrite resolve_permission_agrees, Hyp by done.
  rewrite (resolve_permission_agrees (entry_path x)) by done.
  destruct (entry_path x) as [q|g|v] eqn:Ep; [..|]; try done; rewrite Hxp; by eapply paths_overlap_common.
Qed.

Lemma intersection_ok requested granted cwd t :
  is_absolute cwd = true → abs_ok t →
  Intersection (resolved (fs_entries requested) cwd) (resolved (fs_entries granted) cwd)
    (resolved (fs_entries (intersect_file_system requested granted cwd)) cwd) t.
Proof.
  intros Hc Ht. assert (∀ e, e ∈ resolved (fs_entries (intersect_file_system requested granted cwd)) cwd →
    can_read (resolved_access e) = true → e ∈ resolved (accepted_grants requested granted cwd) cwd) as Hacc.
  { intros e [?|[Hd|Hd]]%intersect_resolved Hr; [done|..|done];
      (apply retained_resolved in Hd as (x & _ & _ & _ & _ & Hd); [by rewrite Hd in Hr|done]). }
  split.
  - intros e He Hte Hr. apply Hacc, accepted_resolved in He as (x & Hx & Hw & Hp & Ha); [|done..].
    split; [apply elem_of_resolved_list; eauto|].
    rewrite <-resolve_permission_agrees in Hp by done.
    destruct (within_request_access requested x cwd _ Hw Hp) as [_ Hcov]. rewrite Ha.
    eexists; split; [|exact Hcov]. apply access_decides, candidate_text. by eapply covers_ok.
  - intros e d He Hte Hr Hd Hden Htd. apply Hacc in He; [|done]. apply intersect_resolved; [done|]. right.
    destruct Hd; [left|right]; by eapply denial_retained.
Qed.

(** The read entries of the answer that are left out are denied by the request's entries. *)
Lemma left_out_denied requested granted cwd t g :
  is_absolute cwd = true → abs_ok t → unhidden (fs_entries requested) (fs_entries granted) cwd →
  g ∈ resolved (fs_entries granted) cwd → covers t g → resolved_access g = Read →
  g ∈ resolved (fs_entries (intersect_file_system requested granted cwd)) cwd ∨
  decides (resolved (fs_entries requested) cwd) (resolved_path g) Deny.
Proof.
  intros Hc Ht Hun (x & Hx & Hp & Ha)%elem_of_resolved_list Hcov Hread.
  assert (resolve_permission_path (entry_path x) cwd = Some (resolved_path g)) as Hp'
    by (by rewrite resolve_permission_agrees).
  pose proof (access_decides (fs_entries requested) (path_text (resolved_path g)) cwd (resolved_path g)
    ltac:(apply candidate_text; by eapply covers_ok)) as Hd.
  destruct (resolve_access_with_cwd (restricted (fs_entries requested)) (path_text (resolved_path g)) cwd) eqn:Er;
    [left|left|by right].
  all: apply intersect_resolved; [done|]; left; apply accepted_resolved; [done|]; exists x;
    split_and!; [done| |done|done]; unfold granted_file_system_entry_within_request; rewrite <-Ha, Hread;
    cbn [can_read negb]; rewrite Hp', Er;
    specialize (Hun x (resolved_path g) Hx ltac:(by rewrite <-Ha, Hread) Hp'); unfold hidden in Hun; by rewrite Hun.
Qed.

Lemma deciding_own_path es t e : deciding es t e → deciding es (resolved_path e) e.
Proof.
  intros (He & Hc & Hm). split_and!; [done|apply starts_with_refl|]. intros e' He' Hc'.
  apply Hm; [done|]. by eapply covers_below.
Qed.

(** Intersecting a profile with itself loses no access where the profile hides nothing. *)
Lemma self_intersection fs cwd t a :
  is_absolute cwd = true → abs_ok t → unhidden (fs_entries fs) (fs_entries fs) cwd →
  decides (resolved (fs_entries fs) cwd) t a → can_read a = true →
  decides (resolved (fs_entries (intersect_file_system fs fs cwd)) cwd) t a.
Proof.
  intros Hc Ht Hun Ha Hr. destruct (granting_entry _ _ _ Ha Hr) as (e & He & <-).
  pose proof He as (HeR & Hct & HeM). left. exists e. split; [|done]. split_and!; [|done|].
  - apply intersect_resolved; [done|]. left. apply accepted_resolved; [done|].
    pose proof HeR as (x & Hx & Hp & Hax)%elem_of_resolved_list. exists x. split_and!; [done| |done|done].
    assert (resolve_permission_path (entry_path x) cwd = Some (resolved_path e)) as Hp'
      by (by rewrite resolve_permission_agrees).
    assert (resolve_access_with_cwd (restricted (fs_entries fs)) (path_text (resolved_path e)) cwd = resolved_access e) as Hacc.
    { eapply decides_unique; [apply access_decides, candidate_text; by eapply covers_ok|].
      left. exists e. split; [|done]. by eapply deciding_own_path. }
    unfold granted_file_system_entry_within_request. rewrite <-Hax, Hr. cbn [negb]. rewrite Hp', Hacc.
    specialize (Hun x (resolved_path e) Hx ltac:(by rewrite <-Hax) Hp'). unfold hidden in Hun. rewrite Hun.
    by destruct (resolved_access e).
  - intros r Hr' Hcr. apply HeM; [|done]. apply intersect_resolved in Hr' as [Hr'|Hr']; [| |done].
    + apply accepted_resolved in Hr' as (x & Hx & _ & Hp); [|done]. apply elem_of_resolved_list. eauto.
    + destruct Hr' as [Hr'|Hr']; apply retained_resolved in Hr' as (x & Hx & Hd & _ & Hp & Hrd); try done;
        apply elem_of_resolved_list; exists x; by rewrite Hd.
Qed.

Lemma intersect_entries requested granted cwd r :
  r ∈ resolved (profile_entries (intersect_permission_profiles requested granted cwd)) cwd ↔
  match file_system requested with
  | Some fs => r ∈ resolved (fs_entries (intersect_file_system fs (default no_file_system (file_system granted)) cwd)) cwd
  | None => False
  end.
Proof.
  unfold profile_entries, intersect_permission_profiles. cbn [file_system].
  destruct (file_system requested) as [fs|]; [|rewrite elem_of_resolved_list; set_solver].
  cbn [fmap option_fmap option_map opt_filter]. unfold fs_is_empty. destruct (fs_entries _) as [|x l] eqn:E; cbn [negb].
  - done.
  - by rewrite E.
Qed.

(** Every entry of an intersection is a materialised one. *)
Lemma intersect_materialized requested granted cwd e :
  e ∈ profile_entries (intersect_permission_profiles requested granted cwd) →
  ∃ x, e = materialize_cwd_dependent_entry x cwd.
Proof.
  unfold profile_entries, intersect_permission_profiles. cbn [file_system].
  destruct (file_system requested) as [fs|]; [|set_solver]. cbn [fmap option_fmap option_map opt_filter].
  destruct (fs_is_empty _); cbn [negb]; [set_solver|].
  unfold intersect_file_system. cbn [retain_constraining_deny_entries fs_entries].
  intros [[Hx|Hx]%push_entries_spec|Hx]%push_entries_spec;
    [unfold accepted_grants in Hx; apply push_entries_spec in Hx as [Hx|Hx]; [set_solver|]|..];
    apply list_elem_of_fmap in Hx as (x & -> & _); eauto.
Qed.

Lemma materialize_not_project_roots x cwd sub :
  is_absolute cwd = true → entry_path (materialize_cwd_dependent_entry x cwd) ≠ Special (SpecialProjectRoots sub).
Proof.
  intros Hc. unfold materialize_cwd_dependent_entry. destruct (entry_path x) as [q|g|v] eqn:Ep; rewrite ?Ep; [done|done|].
  destruct v as [| |sub'| | |]; rewrite ?Ep; try done. simpl. by destruct (from_absolute_ok cwd Hc) as [-> _].
Qed.

Lemma default_entries p : fs_entries (default no_file_system (file_system p)) = profile_entries p.
Proof. unfold profile_entries. by destruct (file_system p). Qed.
(** Accesses exist. *)
Lemma decides_total es t : ∃ a, decides es t a.
Proof. eexists. apply max_decides. Qed.

Lemma intersect_bounds requested granted cwd t a :
  is_absolute cwd = true → abs_ok t →
  decides (resolved (profile_entries (intersect_permission_profiles requested granted cwd)) cwd) t a →
  can_read a = true →
  ∃ b c, decides (resolved (profile_entries requested) cwd) t b ∧ can_read b = true ∧
         decides (resolved (profile_entries granted) cwd) t c ∧ can_read c = true ∧
         (unhidden (profile_entries requested) (profile_entries granted) cwd → a = Write → c = Write).
Proof.
  intros Hc Ht Hi Hra. pose proof (intersect_entries requested granted cwd) as Hent.
  destruct (file_system requested) as [fs|] eqn:Ef.
  2:{ destruct Hi as [(e & (He & _) & _)|[_ ->]]; [by apply Hent in He|done]. }
  apply (decides_ext _ _ _ _ Hent) in Hi.
  rewrite <-(default_entries granted). set (g := default no_file_system (file_system granted)) in *.
  assert (profile_entries requested = fs_entries fs) as -> by (unfold profile_entries; by rewrite Ef).
  pose proof (intersection_ok fs g cwd t Hc Ht) as HI.
  destruct (decides_total (resolved (fs_entries fs) cwd) t) as [b Hb], (decides_total (resolved (fs_entries g) cwd) t) as [c Hg].
  exists b, c. split_and!; [done|by eapply intersection_read|done|..].
  - destruct (granting_entry _ _ _ Hi Hra) as (e & He & <-).
    by destruct (intersection_answer _ _ _ _ _ _ HI He Hra Hg) as (? & _ & _ & ? & _).
  - intros Hun ->. eapply (intersection_write _ _ _ _ _ HI); [|done|done].
    intros x Hx Hcx Hread. by apply (left_out_denied fs g cwd t).
Qed.

(** A write comes from a granted root that the request lets the command write. *)
Lemma intersect_write_root requested granted cwd t :
  is_absolute cwd = true → abs_ok t →
  decides (resolved (profile_entries (intersect_permission_profiles requested granted cwd)) cwd) t Write →
  ∃ r, path_starts_with t r = true ∧ abs_ok r ∧ decides (resolved (profile_entries requested) cwd) r Write.
Proof.
  intros Hc Ht Hi. pose proof (intersect_entries requested granted cwd) as Hent.
  destruct (granting_entry _ _ _ Hi eq_refl) as (e & (He & Hte & _) & Hw). apply Hent in He.
  destruct (file_system requested) as [fs|] eqn:Ef; [|done].
  assert (profile_entries requested = fs_entries fs) as -> by (unfold profile_entries; by rewrite Ef).
  destruct (grant_source _ _ _ _ (intersection_ok fs _ cwd t Hc Ht) e He Hte) as (_ & a & Hd & Hcov); [by rewrite Hw|].
  exists (resolved_path e). rewrite Hw in Hcov. split_and!; [done|by eapply covers_ok|by destruct a].
Qed.

Lemma glob_entry_eqb y pattern a : entry_eqb y (entry (GlobPattern pattern) a) = true → y = entry (GlobPattern pattern) a.
Proof.
  unfold entry_eqb. intros [Hp Ha%bool_decide_eq_true]%andb_true_iff. destruct y as [p a'].
  cbn [entry entry_path access] in *. destruct p; [done| |done]. apply str_eqb_true in Hp. by subst.
Qed.

(** A pattern that is denied below a directory above the path is kept where the path is
    granted. *)
Lemma intersect_glob_kept requested granted cwd t a e pattern prefix :
  is_absolute cwd = true → abs_ok t →
  decides (resolved (profile_entries (intersect_permission_profiles requested granted cwd)) cwd) t a →
  can_read a = true →
  e ∈ profile_entries requested ∨ e ∈ profile_entries granted →
  access e = Deny → entry_path e = GlobPattern pattern →
  glob_static_prefix_path pattern cwd = Some prefix → path_starts_with t prefix = true →
  entry (GlobPattern (path_text (resolve_path_against_base pattern cwd))) Deny
    ∈ profile_entries (intersect_permission_profiles requested granted cwd).
Proof.
  intros Hc Ht Hi Hr He Ha Hp Hpre Htp. pose proof (intersect_entries requested granted cwd) as Hent.
  destruct (granting_entry _ _ _ Hi Hr) as (x & (Hx & Htx & _) & Hxa). apply Hent in Hx.
  destruct (file_system requested) as [fs|] eqn:Ef; [|done].
  set (g := default no_file_system (file_system granted)) in *.
  assert (x ∈ resolved (accepted_grants fs g cwd) cwd) as Hacc.
  { apply intersect_resolved in Hx as [?|[Hd|Hd]]; [done|..|done];
      (apply retained_resolved in Hd as (y & _ & _ & _ & _ & Hd); [by rewrite Hxa in Hd; rewrite Hd in Hr|done]). }
  assert (deny_entry_constrains_accepted_grant e (accepted_grants fs g cwd) cwd = true) as Hcon.
  { apply elem_of_resolved_list in Hacc as (y & Hy & Hyp & Hya).
    unfold deny_entry_constrains_accepted_grant. apply existsb_exists. exists y. rewrite <-list_elem_of_In.
    split; [done|]. rewrite <-Hya, Hxa, Hr. cbn [andb]. rewrite resolve_permission_agrees, Hyp, Hp, Hpre by done.
    by eapply paths_overlap_common. }
  assert (materialize_cwd_dependent_entry e cwd =
    entry (GlobPattern (path_text (resolve_path_against_base pattern cwd))) Deny) as Hm.
  { unfold materialize_cwd_dependent_entry. by rewrite Hp, Ha. }
  rewrite <-Hm.
  assert (∀ source, e ∈ source →
    materialize_cwd_dependent_entry e cwd ∈ retained_deny_entries source (accepted_grants fs g cwd) cwd) as Hret.
  { intros source Hs. unfold retained_deny_entries. apply list_elem_of_fmap. exists e. split; [done|].
    apply list_elem_of_In, filter_In. rewrite <-list_elem_of_In, Ha, Hcon. done. }
  assert (materialize_cwd_dependent_entry e cwd ∈ fs_entries (intersect_file_system fs g cwd)) as Hin.
  { unfold intersect_file_system. cbn [retain_constraining_deny_entries fs_entries].
    assert (∀ ds es, materialize_cwd_dependent_entry e cwd ∈ ds →
      materialize_cwd_dependent_entry e cwd ∈ fold_left push_entry ds es) as Hpush.
    { intros ds es Hds. destruct (push_entries_spec ds es) as (_ & _ & Hall).
      destruct (Hall _ Hds) as (y & Hy & Heq). rewrite Hm in Heq |- *. by rewrite <-(glob_entry_eqb _ _ _ Heq). }
    unfold profile_entries in He. rewrite Ef in He. simpl in He.
    destruct He as [He|He]; [apply push_entries_spec; by apply Hpush, Hret|apply Hpush, Hret].
    subst g. by destruct (file_system granted). }
  unfold profile_entries, intersect_permission_profiles. rewrite Ef. cbn [file_system fmap option_fmap option_map opt_filter].
  fold g. unfold fs_is_empty. destruct (fs_entries (intersect_file_system fs g cwd)) eqn:El; [by apply not_elem_of_nil in Hin|].
  cbn [negb]. by rewrite El.
Qed.
End intersection.

(** Claim C30. What an answer to a request for permissions grants is bounded by both.  A path
    that the intersection lets a command read, the request and the answer both let it read;
    one that it lets a command write lies under a directory that the request lets it write
    (a directory below which the request asks to read only may become writable), and the
    answer lets it write the path itself, if the request's own denials hide no path the
    answer grants.  These accesses come from the entries for paths; the patterns that the
    request or the answer denies are kept, resolved against the working directory, where the
    directory a pattern is about lies above a path that the intersection lets a command
    read.  The network is open if and only if both ask for it. *)
Theorem grants_within_request `{PathEnv, FileProbe, GlobSet} requested granted cwd path t :
  is_absolute cwd = true → resolve_candidate_path path cwd = Some t →
  let i := intersect_permission_profiles requested granted cwd in
  (can_read_path_with_cwd (profile_policy i) path cwd = true →
     can_read_path_with_cwd (profile_policy requested) path cwd = true ∧
     can_read_path_with_cwd (profile_policy granted) path cwd = true) ∧
  (can_write (resolve_access_with_cwd (profile_policy i) path cwd) = true →
     ∃ root, path_starts_with t root = true ∧
       resolve_access_with_cwd (profile_policy requested) (path_text root) cwd = Write) ∧
  (unhidden (profile_entries requested) (profile_entries granted) cwd →
     can_write (resolve_access_with_cwd (profile_policy i) path cwd) = true →
     can_write (resolve_access_with_cwd (profile_policy granted) path cwd) = true) ∧
  (∀ e pattern prefix, can_read_path_with_cwd (profile_policy i) path cwd = true →
     e ∈ profile_entries requested ∨ e ∈ profile_entries granted →
     access e = Deny → entry_path e = GlobPattern pattern →
     glob_static_prefix_path pattern cwd = Some prefix → path_starts_with t prefix = true →
     entry (GlobPattern (path_text (resolve_path_against_base pattern cwd))) Deny ∈ profile_entries i) ∧
  (network_enabled (network i) = true ↔
     network_enabled (network requested) = true ∧ network_enabled (network granted) = true).
Proof.
  intros Hc Ht i. pose proof (candidate_ok _ _ _ Hc Ht) as Htok. unfold can_read_path_with_cwd.
  assert (∀ p, decides (resolved (profile_entries p) cwd) t (resolve_access_with_cwd (profile_policy p) path cwd)) as Hd
    by (intros p; by apply access_decides).
  assert (can_read (resolve_access_with_cwd (profile_policy i) path cwd) = true →
    can_read (resolve_access_with_cwd (profile_policy requested) path cwd) = true ∧
    can_read (resolve_access_with_cwd (profile_policy granted) path cwd) = true ∧
    (unhidden (profile_entries requested) (profile_entries granted) cwd →
     resolve_access_with_cwd (profile_policy i) path cwd = Write →
     resolve_access_with_cwd (profile_policy granted) path cwd = Write)) as Hall.
  { intros Hr. destruct (intersect_bounds requested granted cwd t _ Hc Htok (Hd i) Hr) as (b & c & Hb & Hrb & Hg & Hrc & Hw).
    by rewrite (decides_unique _ _ _ _ (Hd requested) Hb), (decides_unique _ _ _ _ (Hd granted) Hg). }
  split_and!.
  - intros Hr. by destruct (Hall Hr) as (? & ? & _).
  - intros Hw. destruct (intersect_write_root requested granted cwd t Hc Htok) as (r & Hr & Hok & Hd').
    { specialize (Hd i). by destruct (resolve_access_with_cwd (profile_policy i) path cwd). }
    exists r. split; [done|]. eapply decides_unique; [|exact Hd']. by apply access_decides, candidate_text.
  - intros Hun Hw. destruct (resolve_access_with_cwd (profile_policy i) path cwd) eqn:Ew; try done.
    destruct Hall as (_ & _ & Hall); [done|]. by rewrite Hall.
  - intros e pattern prefix Hr. by apply (intersect_glob_kept requested granted cwd t _ e pattern prefix Hc Htok (Hd i)).
  - subst i. unfold intersect_permission_profiles. cbn [network].
    destruct (network_enabled (network requested)), (network_enabled (network granted)); naive_solver.
Qed.

Lemma grants_within_request_witness :
  let env := sample_env in let probe := sample_probe in let globs := no_globs in
  let requested := {| network := Some {| enabled := Some true |};
                      file_system := Some {| fs_entries := [entry (FsPath (abs ["work"])) Write;
                                                            entry (FsPath (abs ["work"; "keys"])) Deny];
                                             fs_glob_scan_max_depth := None |} |} in
  let granted := {| network := None;
                    file_system := Some {| fs_entries := [entry (Special (SpecialProjectRoots None)) Write;
                                                          entry (FsPath (abs ["etc"])) Write];
                                           fs_glob_scan_max_depth := None |} |} in
  let i := intersect_permission_profiles requested granted "/work" in
  resolve_access_with_cwd (profile_policy i) "/work/a" "/work" = Write ∧
  can_read_path_with_cwd (profile_policy requested) "/work/a" "/work" = true ∧
  can_write (resolve_access_with_cwd (profile_policy granted) "/work/a" "/work") = true ∧
  can_read_path_with_cwd (profile_policy i) "/etc/hosts" "/work" = false.
Proof.
  intros env probe globs requested granted i.
  destruct (grants_within_request requested granted "/work" "/work/a" (abs ["work"; "a"])) as (Hr & _ & Hw & _);
    [vm_refl|vm_refl|].
  assert (resolve_access_with_cwd (profile_policy i) "/work/a" "/work" = Write) as Hi by vm_refl.
  split_and!; [done| | |vm_refl].
  - apply Hr. unfold can_read_path_with_cwd. fold i. by rewrite Hi.
  - apply Hw; [|fold i; by rewrite Hi]. intros e q He _ Hq.
    change (e ∈ [entry (Special (SpecialProjectRoots None)) Write; entry (FsPath (abs ["etc"])) Write]) in He.
    apply elem_of_cons in He as [->|He]; [|apply list_elem_of_singleton in He as ->];
      vm_compute in Hq; injection Hq as <-; vm_refl.
Defined.

(** The request's own read-only exceptions are not kept: an answer for the whole directory
    makes them writable, although the request asked to read them only. *)
Example read_exception_lost :
  let env := sample_env in let probe := sample_probe in let globs := no_globs in
  let fs es := {| network := None; file_system := Some {| fs_entries := es; fs_glob_scan_max_depth := None |} |} in
  let requested := fs [entry (FsPath (abs ["work"])) Write; entry (FsPath (abs ["work"; "ro"])) Read] in
  let granted := fs [entry (FsPath (abs ["work"])) Write] in
  resolve_access_with_cwd (profile_policy requested) "/work/ro/x" "/work" = Read ∧
  resolve_access_with_cwd (profile_policy (intersect_permission_profiles requested granted "/work")) "/work/ro/x" "/work"
    = Write.
Proof. split; vm_refl. Qed.
