(* ===== verification/PermissionGrants.v ===== *)
(** * Asking for permissions, and what the answers allow later

    The permission requests of a session: [request_permissions_for_environment],
    [notify_request_permissions_response] and the grants they record
    (codex-rs/core/src/session/mod.rs, core/src/state/turn.rs, core/src/state/session.rs), as
    a step relation on the part of the session's state they touch.  A request either is
    answered at once (by the approval policy, by an unusable directory or by the guardian,
    whose decision is an argument) or waits under its call id; the oneshot channel is the
    entry itself, removed by the first answer.  A turn begins with an empty state and its
    grants end with it.

    What is removed and recorded under two successive locks in the code is one step here: the
    answer is recorded in the state of the turn it was taken from, which nothing reads any
    more when that turn has ended in between. *)

From stdpp Require Import base gmap list strings.
From S2P Require Import Prelude Str Json Fragments AbsPath PathFacts PatchApply PatchDelta.
From S2P Require Import Permissions PermissionFacts ApprovalPolicy PatchSafety PolicyTransforms PolicyTransformFacts.

(** ** Data *)

Inductive PermissionGrantScope := ScopeTurn | ScopeSession.

Record RequestPermissionsResponse := {
  resp_permissions : AdditionalPermissionProfile;
  scope : PermissionGrantScope;
  strict_auto_review : bool;
}.

Inductive NetworkPolicyRuleAction := RuleAllow | RuleDeny.

(** [NetworkPolicyAmendment] *)
Record PolicyAmendment := { amended_host : string; amended_action : NetworkPolicyRuleAction }.

Inductive ReviewDecision :=
| Approved
| ApprovedExecpolicyAmendment (amendment : ExecPolicyAmendment)
| ApprovedForSession
| NetworkPolicyAmendment (amendment : PolicyAmendment)
| Denied
| TimedOut
| Abort'.

Notation Grants := (gmap string AdditionalPermissionProfile).

Section grants.
Context `{PathUris} `{!AbsUris} `{PathEnv, FileProbe, GlobSet}.

Record TurnEnvironmentSelection := { environment_id : string; environment_cwd : PathUri }.

Record PendingRequestPermissions := {
  requested_permissions : AdditionalPermissionProfile;
  environment : TurnEnvironmentSelection;
}.

Record TurnState := {
  pending_request_permissions : gmap string PendingRequestPermissions;
  turn_granted : Grants;
  strict_auto_review_enabled : bool;
}.

Definition new_turn : TurnState :=
  {| pending_request_permissions := ∅; turn_granted := ∅; strict_auto_review_enabled := false |}.

Record SessionState := { session_granted : Grants; active_turn : option TurnState }.

Definition new_session : SessionState := {| session_granted := ∅; active_turn := None |}.

(** ** Recording *)

Definition record_granted_permissions (granted : Grants) (environment_id : string)
    (permissions : AdditionalPermissionProfile) : Grants :=
  match merge_permission_profiles (granted !! environment_id) (Some permissions) with
  | Some granted_permissions => <[environment_id := granted_permissions]> granted
  | None => granted
  end.

Definition nothing_granted : RequestPermissionsResponse :=
  {| resp_permissions := no_permissions; scope := ScopeTurn; strict_auto_review := false |}.

Definition normalize_request_permissions_response (requested : AdditionalPermissionProfile)
    (response : RequestPermissionsResponse) (cwd : string) : RequestPermissionsResponse :=
  if strict_auto_review response && match scope response with ScopeSession => true | ScopeTurn => false end
  then nothing_granted
  else if profile_is_empty (resp_permissions response) then response
  else {| resp_permissions := intersect_permission_profiles requested (resp_permissions response) cwd;
          scope := scope response; strict_auto_review := strict_auto_review response |}.

Definition record_granted_request_permissions_for_turn (s : SessionState) (response : RequestPermissionsResponse)
    (environment_id : string) : SessionState :=
  if profile_is_empty (resp_permissions response) then s
  else match scope response with
       | ScopeTurn =>
           match active_turn s with
           | Some ts =>
               {| session_granted := session_granted s;
                  active_turn := Some
                    {| pending_request_permissions := pending_request_permissions ts;
                       turn_granted :=
                         record_granted_permissions (turn_granted ts) environment_id (resp_permissions response);
                       strict_auto_review_enabled :=
                         strict_auto_review_enabled ts || strict_auto_review response |} |}
           | None => s
           end
       | ScopeSession =>
           {| session_granted := record_granted_permissions (session_granted s) environment_id (resp_permissions response);
              active_turn := active_turn s |}
       end.

(** ** Requests and answers *)

Definition set_pending (s : SessionState)
    (f : gmap string PendingRequestPermissions → gmap string PendingRequestPermissions) : SessionState :=
  match active_turn s with
  | Some ts =>
      {| session_granted := session_granted s;
         active_turn := Some {| pending_request_permissions := f (pending_request_permissions ts);
                                turn_granted := turn_granted ts;
                                strict_auto_review_enabled := strict_auto_review_enabled ts |} |}
  | None => s
  end.

Definition guardian_response (requested : AdditionalPermissionProfile) (decision : ReviewDecision) :
    RequestPermissionsResponse :=
  match decision with
  | Approved | ApprovedExecpolicyAmendment _ | NetworkPolicyAmendment {| amended_action := RuleAllow |} =>
      {| resp_permissions := requested; scope := ScopeTurn; strict_auto_review := false |}
  | ApprovedForSession => {| resp_permissions := requested; scope := ScopeSession; strict_auto_review := false |}
  | NetworkPolicyAmendment {| amended_action := RuleDeny |} | Abort' | Denied | TimedOut => nothing_granted
  end.

(** [guardian] is the decision of the reviewer, when requests are routed to one.  The result
    is the response, or [None] while the request waits for an answer. *)
Definition request_permissions_for_environment (s : SessionState) (approval_policy : AskForApproval)
    (call_id : string) (requested : AdditionalPermissionProfile) (env : TurnEnvironmentSelection)
    (guardian : option ReviewDecision) : SessionState * option RequestPermissionsResponse :=
  if match approval_policy with
     | Never => true
     | Granular g => negb (request_permissions g)
     | OnFailure | OnRequest | UnlessTrusted => false
     end
  then (s, Some nothing_granted)
  else match to_abs_path (environment_cwd env) with
       | None => (s, Some nothing_granted)
       | Some native_cwd =>
           match guardian with
           | Some decision =>
               let response :=
                 normalize_request_permissions_response requested (guardian_response requested decision)
                   (path_text native_cwd) in
               (record_granted_request_permissions_for_turn s response (environment_id env), Some response)
           | None =>
               (set_pending s (<[call_id := {| requested_permissions := requested; environment := env |}]>), None)
           end
       end.

(** The answer sent to the waiting request, if there is one. *)
Definition notify_request_permissions_response (s : SessionState) (call_id : string)
    (response : RequestPermissionsResponse) : SessionState * option RequestPermissionsResponse :=
  match active_turn s ≫= λ ts, pending_request_permissions ts !! call_id with
  | None => (s, None)
  | Some p =>
      let s := set_pending s (delete call_id) in
      let response :=
        match to_abs_path (environment_cwd (environment p)) with
        | Some native_cwd =>
            normalize_request_permissions_response (requested_permissions p) response (path_text native_cwd)
        | None => nothing_granted
        end in
      (record_granted_request_permissions_for_turn s response (environment_id (environment p)), Some response)
  end.

Definition granted_session_permissions (s : SessionState) (environment_id : string) :
    option AdditionalPermissionProfile := session_granted s !! environment_id.

Definition granted_turn_permissions (s : SessionState) (environment_id : string) :
    option AdditionalPermissionProfile :=
  active_turn s ≫= λ ts, turn_granted ts !! environment_id.

(** ** The session as a step relation *)

(** What a step decided: which answer was given to which request. *)
Record Decided := {
  decided_environment : string;
  decided_cwd : AbsolutePathBuf;
  decided_request : AdditionalPermissionProfile;
  decided_answer : AdditionalPermissionProfile;
}.

Inductive step : SessionState → option Decided → SessionState → Prop :=
| step_turn_start s : active_turn s = None →
    step s None {| session_granted := session_granted s; active_turn := Some new_turn |}
| step_turn_end s :
    step s None {| session_granted := session_granted s; active_turn := None |}
| step_cancel s call_id :
    step s None (set_pending s (delete call_id))
| step_request s policy call_id requested env :
    step s None (request_permissions_for_environment s policy call_id requested env None).1
| step_guardian s policy call_id requested env decision native_cwd :
    to_abs_path (environment_cwd env) = Some native_cwd →
    step s (Some {| decided_environment := environment_id env; decided_cwd := native_cwd;
                    decided_request := requested;
                    decided_answer := resp_permissions (guardian_response requested decision) |})
      (request_permissions_for_environment s policy call_id requested env (Some decision)).1
| step_answer s call_id response ts p native_cwd :
    active_turn s = Some ts → pending_request_permissions ts !! call_id = Some p →
    to_abs_path (environment_cwd (environment p)) = Some native_cwd →
    step s (Some {| decided_environment := environment_id (environment p); decided_cwd := native_cwd;
                    decided_request := requested_permissions p; decided_answer := resp_permissions response |})
      (notify_request_permissions_response s call_id response).1
| step_stale_answer s call_id response :
    match active_turn s ≫= λ ts, pending_request_permissions ts !! call_id with
    | Some p => to_abs_path (environment_cwd (environment p)) = None
    | None => True
    end →
    step s None (notify_request_permissions_response s call_id response).1.

(** The states a session can reach, with the decisions taken on the way. *)
Inductive reached : list Decided → SessionState → Prop :=
| reached_new : reached [] new_session
| reached_step ds s d s' : reached ds s → step s d s' → reached (ds ++ option_list d) s'.

(** ** Every grant goes back to an answer *)

Implicit Types (d : Decided) (t : AbsolutePathBuf).

(** The decision [d] lets a command access [t] with [a]: request and answer both let it be
    read, and the answer lets it be written if [a] does. *)
Definition decision_allows d t (a : FileSystemAccessMode) : Prop :=
  let access_in p := resolve_access_with_cwd (profile_policy p) (path_text t) (path_text (decided_cwd d)) in
  can_read (access_in (decided_request d)) = true ∧ can_read (access_in (decided_answer d)) = true ∧
  (a = Write → access_in (decided_answer d) = Write).

Definition decision_unhidden d : Prop :=
  unhidden (profile_entries (decided_request d)) (profile_entries (decided_answer d)) (path_text (decided_cwd d)).

(** What a recorded profile allows, some decision of its environment allows. *)
Record Justified (ds : list Decided) (env : string) (p : AdditionalPermissionProfile) : Prop := {
  justified_access cwd t a : is_absolute cwd = true → abs_ok t →
    decides (resolved (profile_entries p) cwd) t a → can_read a = true →
    ∃ d, d ∈ ds ∧ decided_environment d = env ∧ decision_allows d t a;
  justified_network : network_enabled (network p) = true →
    ∃ d, d ∈ ds ∧ decided_environment d = env ∧ network_enabled (network (decided_request d)) = true ∧
         network_enabled (network (decided_answer d)) = true;
}.

Lemma justified_more ds ds' env p : Justified ds env p → Justified (ds ++ ds') env p.
Proof.
  intros [Ha Hn]. split.
  - intros cwd t a Hc Ht Hd Hr. destruct (Ha cwd t a Hc Ht Hd Hr) as (d & ? & ?). exists d. set_solver.
  - intros Hp. destruct (Hn Hp) as (d & ? & ?). exists d. set_solver.
Qed.

(** The grants of an intersection do not depend on the directory they are read in. *)
Lemma intersect_fixed requested granted cwd c c' r :
  is_absolute cwd = true → is_absolute c = true → is_absolute c' = true →
  r ∈ resolved (profile_entries (intersect_permission_profiles requested granted cwd)) c →
  r ∈ resolved (profile_entries (intersect_permission_profiles requested granted cwd)) c'.
Proof.
  intros Hcwd Hc Hc'. rewrite !elem_of_resolved_list. intros (e & He & Hp & Ha). exists e. split_and!; [done| |done].
  rewrite <-Hp. destruct (from_absolute_ok c Hc) as [-> Hok], (from_absolute_ok c' Hc') as [-> Hok'].
  destruct (entry_path e) as [q|g|v] eqn:Ep; [done|done|]. destruct v; try done; simpl.
  - by rewrite !root_path_total.
  - destruct (intersect_materialized _ _ _ _ He) as (x & ->).
    by destruct (materialize_not_project_roots x cwd subpath Hcwd).
Qed.

Lemma intersect_decides_fixed requested granted cwd c t a :
  is_absolute cwd = true → is_absolute c = true →
  decides (resolved (profile_entries (intersect_permission_profiles requested granted cwd)) c) t a →
  decides (resolved (profile_entries (intersect_permission_profiles requested granted cwd)) cwd) t a.
Proof. intros Hcwd Hc. apply decides_ext. intros r. split; by apply intersect_fixed. Qed.

Lemma intersect_justified ds d :
  d ∈ ds → abs_ok (decided_cwd d) → decision_unhidden d →
  Justified ds (decided_environment d)
    (intersect_permission_profiles (decided_request d) (decided_answer d) (path_text (decided_cwd d))).
Proof.
  intros Hd Hok Hun. assert (is_absolute (path_text (decided_cwd d)) = true) as Habs by (by apply absolute_text).
  split.
  - intros cwd t a Hc Ht Ha Hr. exists d. split_and!; [done|done|].
    apply intersect_decides_fixed in Ha; [|done|done].
    destruct (intersect_bounds _ _ _ t a Habs Ht Ha Hr) as (b & c & Hb & Hrb & Hg & Hrc & Hw).
    unfold decision_allows, profile_policy. cbv zeta.
    rewrite (decides_unique _ _ _ _ (access_decides _ _ _ t (candidate_text t _ Ht)) Hb).
    rewrite (decides_unique _ _ _ _ (access_decides _ _ _ t (candidate_text t _ Ht)) Hg). auto.
  - intros Hn. exists d. unfold intersect_permission_profiles in Hn. cbn [network] in Hn.
    destruct (network_enabled (network (decided_request d))), (network_enabled (network (decided_answer d))); auto.
Qed.

(** ** Merging *)

Definition opt_entries (o : option AdditionalPermissionProfile) : list FileSystemSandboxEntry :=
  match o with Some p => profile_entries p | None => [] end.

Definition opt_network (o : option AdditionalPermissionProfile) : bool :=
  match o with Some p => network_enabled (network p) | None => false end.

Lemma resolved_nil cwd r : r ∈ resolved [] cwd ↔ False.
Proof. rewrite elem_of_resolved_list. set_solver. Qed.

Lemma filter_nonempty_entries p :
  opt_entries (opt_filter (λ p, negb (profile_is_empty p)) (Some p)) = profile_entries p ∧
  opt_network (opt_filter (λ p, negb (profile_is_empty p)) (Some p)) = network_enabled (network p).
Proof. destruct p as [[n|] [fs|]]; done. Qed.

Lemma filter_nonempty_fs fs :
  match opt_filter (λ fs, negb (fs_is_empty fs)) (Some fs) with Some fs => fs_entries fs | None => [] end = fs_entries fs.
Proof. by destruct fs as [[|] ?]. Qed.

Lemma merge_resolved base permissions cwd r :
  r ∈ resolved (opt_entries (merge_permission_profiles base permissions)) cwd ↔
  r ∈ resolved (opt_entries base) cwd ∨ r ∈ resolved (opt_entries permissions) cwd.
Proof.
  destruct permissions as [p|]; [|simpl; rewrite resolved_nil; tauto].
  unfold merge_permission_profiles. destruct base as [b|]; cbv zeta;
    (destruct (filter_nonempty_entries p) as [Hp _]; rewrite ?(proj1 (filter_nonempty_entries _)));
    [|cbn [opt_entries]; rewrite ?Hp, ?resolved_nil; tauto].
  cbn [opt_entries]. unfold profile_entries. cbn [file_system].
  destruct (file_system b) as [fb|], (file_system p) as [fp|]; rewrite ?resolved_nil; try tauto.
  rewrite filter_nonempty_fs. cbn [fs_entries]. unfold merge_permission_entries.
  by rewrite resolved_push, resolved_nil, resolved_app, (left_id False or).
Qed.

Lemma merge_network base permissions :
  opt_network (merge_permission_profiles base permissions) = true ↔
  opt_network base = true ∨ opt_network permissions = true.
Proof.
  destruct permissions as [p|]; [|simpl; naive_solver].
  unfold merge_permission_profiles. destruct base as [b|]; cbv zeta;
    rewrite ?(proj2 (filter_nonempty_entries _)); cbn [opt_network network]; [|naive_solver].
  destruct (network_enabled (network b)), (network_enabled (network p)); simpl; naive_solver.
Qed.

Lemma merge_justified ds env a b p :
  (∀ q, a = Some q → Justified ds env q) → (∀ q, b = Some q → Justified ds env q) →
  merge_permission_profiles a b = Some p → Justified ds env p.
Proof.
  intros Ha Hb Hp. pose proof (merge_resolved a b) as Hm. pose proof (merge_network a b) as Hn.
  rewrite Hp in Hm, Hn. split.
  - intros cwd t x Hc Ht Hd Hr. destruct (merged_access _ _ _ t x (Hm cwd) Hd Hr) as [Hx|Hx].
    + destruct a as [q|]; [by eapply (justified_access _ _ _ (Ha q eq_refl))|].
      apply granting_entry in Hx as (e & (He & _) & _); [|done]. by apply resolved_nil in He.
    + destruct b as [q|]; [by eapply (justified_access _ _ _ (Hb q eq_refl))|].
      apply granting_entry in Hx as (e & (He & _) & _); [|done]. by apply resolved_nil in He.
  - intros [Hx|Hx]%Hn.
    + destruct a as [q|]; [|done]. by apply (justified_network _ _ _ (Ha q eq_refl)).
    + destruct b as [q|]; [|done]. by apply (justified_network _ _ _ (Hb q eq_refl)).
Qed.

Definition grants_justified (ds : list Decided) (g : Grants) : Prop :=
  ∀ env p, g !! env = Some p → Justified ds env p.

Definition turn_grants (s : SessionState) : Grants :=
  match active_turn s with Some ts => turn_granted ts | None => ∅ end.

(** The invariant of the session. *)
Definition state_justified (ds : list Decided) (s : SessionState) : Prop :=
  grants_justified ds (session_granted s) ∧ grants_justified ds (turn_grants s).

Lemma no_grants ds : grants_justified ds ∅.
Proof. intros env p. by rewrite lookup_empty. Qed.

Lemma record_justified ds g env p :
  grants_justified ds g → Justified ds env p → grants_justified ds (record_granted_permissions g env p).
Proof.
  intros Hg Hp. unfold record_granted_permissions. destruct (merge_permission_profiles _ _) as [q|] eqn:E; [|done].
  intros env' p'. destruct (decide (env = env')) as [<-|Hne].
  - rewrite lookup_insert_eq. intros [= <-]. eapply merge_justified; [|..|exact E]; [apply Hg|by intros ? [= <-]].
  - rewrite lookup_insert_ne by done. apply Hg.
Qed.

Lemma record_response_justified ds s d response :
  state_justified ds s → d ∈ ds → abs_ok (decided_cwd d) → decision_unhidden d →
  decided_answer d = resp_permissions response →
  state_justified ds (record_granted_request_permissions_for_turn s
    (normalize_request_permissions_response (decided_request d) response (path_text (decided_cwd d)))
    (decided_environment d)).
Proof.
  intros [Hs Ht] Hd Hok Hun Hans. unfold normalize_request_permissions_response, record_granted_request_permissions_for_turn.
  destruct (strict_auto_review response && _); [done|].
  destruct (profile_is_empty (resp_permissions response)) eqn:Ee; [by rewrite Ee|]. cbn [resp_permissions scope].
  destruct (profile_is_empty (intersect_permission_profiles _ _ _)); [done|]. pose proof (intersect_justified ds d Hd Hok Hun) as HJ. rewrite Hans in HJ.
  unfold state_justified, turn_grants in *.
  destruct (scope response); [destruct (active_turn s) as [ts|] eqn:Ea|]; simpl; rewrite ?Ea.
  - split; [done|]. by apply record_justified.
  - done.
  - split; [|done]. by apply record_justified.
Qed.

Lemma set_pending_justified ds s f : state_justified ds s → state_justified ds (set_pending s f).
Proof. unfold state_justified, turn_grants, set_pending. destruct (active_turn s) eqn:E; [done|]. by rewrite E. Qed.

Lemma state_justified_more ds ds' s : state_justified ds s → state_justified (ds ++ ds') s.
Proof. intros [H1' H2']. split; intros env p Hp; apply justified_more; auto. Qed.

Lemma step_justified ds s od s' :
  step s od s' → state_justified ds s → (∀ x, od = Some x → x ∈ ds ∧ decision_unhidden x) → state_justified ds s'.
Proof.
  intros Hstep Hs Hd. destruct Hstep as
    [s Hn|s|s call_id|s policy call_id requested env|s policy call_id requested env decision cwd Hcwd
    |s call_id response ts p cwd Hts Hp Hcwd|s call_id response Hstale].
  - destruct Hs. split; [done|apply no_grants].
  - destruct Hs. split; [done|apply no_grants].
  - by apply set_pending_justified.
  - unfold request_permissions_for_environment.
    match goal with |- context [if ?b then _ else _] => destruct b end; [done|].
    destruct (to_abs_path _); [|done]. by apply set_pending_justified.
  - unfold request_permissions_for_environment.
    match goal with |- context [if ?b then _ else _] => destruct b end; [done|]. rewrite Hcwd.
    destruct (Hd _ eq_refl) as [Hin Hun]. cbn [fst].
    apply (record_response_justified ds s _ (guardian_response requested decision) Hs Hin); [|done|done].
    by eapply to_abs_path_ok.
  - unfold notify_request_permissions_response. rewrite Hts. cbn [mbind option_bind]. rewrite Hp, Hcwd.
    destruct (Hd _ eq_refl) as [Hin Hun]. cbn [fst].
    apply (record_response_justified ds _ _ response (set_pending_justified ds s _ Hs) Hin); [|done|done].
    by eapply to_abs_path_ok.
  - unfold notify_request_permissions_response. destruct (active_turn s ≫= _) as [p|]; [|done].
    rewrite Hstale. cbn [fst]. by apply set_pending_justified.
Qed.

Lemma reached_justified ds s : reached ds s → Forall decision_unhidden ds → state_justified ds s.
Proof.
  induction 1 as [|ds s od s' Hr IH Hstep]; [split; apply no_grants|].
  intros [Hds Hd]%Forall_app. eapply step_justified; [done|by apply state_justified_more, IH|].
  intros x ->. simpl in *. rewrite Forall_singleton in Hd. set_solver.
Qed.

(** ** Pre-approval *)

Lemma unhidden_sub requested es es' cwd :
  is_absolute cwd = true → (∀ r, r ∈ resolved es' cwd → r ∈ resolved es cwd) →
  unhidden requested es cwd → unhidden requested es' cwd.
Proof.
  intros Hc Hsub Hun e q He Hr Hq. rewrite resolve_permission_agrees in Hq by done.
  assert ({| resolved_path := q; resolved_access := access e |} ∈ resolved es cwd) as (x & Hx & Hp & Ha)%elem_of_resolved_list
    by (apply Hsub, elem_of_resolved_list; by exists e).
  apply (Hun x q Hx); [simpl in Ha; congruence|]. by rewrite resolve_permission_agrees.
Qed.

Lemma additional_eqb_entries a b cwd r :
  additional_eqb a b = true → r ∈ resolved (profile_entries a) cwd ↔ r ∈ resolved (profile_entries b) cwd.
Proof.
  unfold additional_eqb, profile_entries. intros [_ He]%andb_true_iff.
  destruct (file_system a), (file_system b); try done. apply andb_true_iff in He as [He _].
  by apply entries_eqb_resolved.
Qed.

Lemma additional_eqb_network a b :
  additional_eqb a b = true → network_enabled (network a) = network_enabled (network b).
Proof.
  unfold additional_eqb. intros [Hn _]%andb_true_iff.
  destruct (network a) as [[x]|], (network b) as [[y]|]; try done. simpl in Hn.
  unfold network_permissions_eqb in Hn. by apply bool_decide_eq_true in Hn as [= ->].
Qed.

Lemma preapproved_bounds p g cwd t a :
  is_absolute cwd = true → abs_ok t → permissions_are_preapproved p g cwd = true →
  (∀ r, r ∈ resolved (profile_entries g) cwd → r ∈ resolved (profile_entries p) cwd) →
  unhidden (profile_entries p) (profile_entries p) cwd →
  decides (resolved (profile_entries p) cwd) t a → can_read a = true →
  ∃ c, decides (resolved (profile_entries g) cwd) t c ∧ can_read c = true ∧ (a = Write → c = Write).
Proof.
  intros Hc Ht Hpre Hsub Hun Hd Hr.
  assert (decides (resolved (profile_entries (intersect_permission_profiles p p cwd)) cwd) t a) as Hself.
  { pose proof (intersect_entries p p cwd) as Hent. unfold profile_entries in Hd, Hun.
    destruct (file_system p) as [fs|] eqn:Ef.
    - eapply decides_ext; [intros r; symmetry; apply Hent|]. by apply self_intersection.
    - apply granting_entry in Hd as (e & (He & _) & _); [|done]. by apply resolved_nil in He. }
  eapply decides_ext in Hself; [|intros r; symmetry; by apply additional_eqb_entries].
  destruct (intersect_bounds p g cwd t a Hc Ht Hself Hr) as (b & c & _ & _ & Hg & Hrc & Hw).
  exists c. split_and!; [done|done|]. apply Hw. by eapply unhidden_sub.
Qed.

(** Merging keeps the patterns of both sides. *)
Lemma merge_keeps_glob a b p q pattern acc :
  merge_permission_profiles a b = Some p → a = Some q ∨ b = Some q →
  entry (GlobPattern pattern) acc ∈ profile_entries q → entry (GlobPattern pattern) acc ∈ profile_entries p.
Proof.
  unfold merge_permission_profiles. destruct b as [b|]; [|intros ->; naive_solver]. destruct a as [a|].
  2:{ unfold opt_filter. case_match; [|done]. naive_solver. }
  cbn [opt_filter]. match goal with |- context [negb (profile_is_empty ?x)] => set (r := x) end.
  destruct (profile_is_empty r); [done|]. cbn [negb]. intros [= <-]. subst r. intros Hq He.
  assert (∀ es es', entry (GlobPattern pattern) acc ∈ es ++ es' →
    entry (GlobPattern pattern) acc ∈ merge_permission_entries es es') as Hm.
  { intros es es' Hin. unfold merge_permission_entries.
    destruct (push_entries_spec (es ++ es') []) as (_ & _ & Hall). destruct (Hall _ Hin) as (y & Hy & Heq).
    by rewrite <-(glob_entry_eqb _ _ _ Heq). }
  unfold profile_entries in *. cbn [file_system].
  destruct (file_system a) as [fa|] eqn:Ea, (file_system b) as [fb|] eqn:Eb; cbn [opt_filter fs_entries].
  - assert (entry (GlobPattern pattern) acc ∈ merge_permission_entries (fs_entries fa) (fs_entries fb)) as Hin.
    { apply Hm, elem_of_app. destruct Hq as [[= ->]|[= ->]]; [left; by rewrite Ea in He|right; by rewrite Eb in He]. }
    unfold fs_is_empty. cbn [fs_entries]. destruct (merge_permission_entries _ _) eqn:El; [by apply not_elem_of_nil in Hin|].
    cbn [negb fs_entries]. exact Hin.
  - destruct Hq as [[= ->]|[= ->]]; [by rewrite Ea in He|rewrite Eb in He; by apply not_elem_of_nil in He].
  - destruct Hq as [[= ->]|[= ->]]; [rewrite Ea in He; by apply not_elem_of_nil in He|by rewrite Eb in He].
  - destruct Hq as [[= ->]|[= ->]]; [by rewrite Ea in He|by rewrite Eb in He].
Qed.
End grants.

(** Claim C31. A command whose additional permissions count as pre-approved gets no more than
    was answered, by the user or by the guardian that reviews in the user's place.  Suppose
    that no request's own denials hid a path its answer granted.  In every state a session
    can reach by such answers, if pre-approval succeeds for an environment, then each path
    whose entries in the resulting permissions let the command read or write it was readable
    in a request and its answer for that environment, and writable in the answer where it is
    writable now, if the permissions' own denials hide none of the paths they grant; the
    deny patterns of the grants of the session and of the turn, which these accesses do not
    show, are among the permissions; and the network is open only if a request and its
    answer opened it. *)
Theorem preapproved_as_answered `{PathUris} `{!AbsUris} `{PathEnv, FileProbe, GlobSet} ds s env cwd sp additional :
  reached ds s → Forall decision_unhidden ds → is_absolute cwd = true →
  let eff := apply_granted_turn_permissions (granted_session_permissions s env) (granted_turn_permissions s env)
               cwd sp additional in
  permissions_preapproved eff = true →
  ∃ p, eff_additional_permissions eff = Some p ∧
    (unhidden (profile_entries p) (profile_entries p) cwd → ∀ t, abs_ok t →
       let a := resolve_access_with_cwd (profile_policy p) (path_text t) cwd in
       can_read a = true → ∃ d, d ∈ ds ∧ decided_environment d = env ∧ decision_allows d t a) ∧
    (∀ q pattern, granted_session_permissions s env = Some q ∨ granted_turn_permissions s env = Some q →
       entry (GlobPattern pattern) Deny ∈ profile_entries q → entry (GlobPattern pattern) Deny ∈ profile_entries p) ∧
    (network_enabled (network p) = true →
       ∃ d, d ∈ ds ∧ decided_environment d = env ∧ network_enabled (network (decided_request d)) = true ∧
            network_enabled (network (decided_answer d)) = true).
Proof.
  intros Hreach Hun Hc eff Hpre. destruct (reached_justified ds s Hreach Hun) as [Hs Ht].
  subst eff. unfold apply_granted_turn_permissions in *. destruct (requires_escalated_permissions sp); [done|].
  cbn [permissions_preapproved eff_additional_permissions] in *.
  destruct (merge_permission_profiles additional _) as [p|] eqn:Ep; [|done].
  destruct (merge_permission_profiles (granted_session_permissions s env) _) as [g|] eqn:Eg; [|done].
  assert (Justified ds env g) as HJ.
  { eapply merge_justified; [| |exact Eg]; [intros q; apply Hs|].
    unfold granted_turn_permissions, turn_grants in *. destruct (active_turn s); [intros q; apply Ht|done]. }
  exists p. split; [done|]. split_and!.
  - intros Hup t Htok. set (a := resolve_access_with_cwd _ _ _). intros Hr.
    destruct (preapproved_bounds p g cwd t a Hc Htok Hpre) as (c & Hg & Hrc & Hw); [|done| |done|].
    + intros r Hrg. pose proof (merge_resolved additional (Some g) cwd r) as Hm. rewrite Ep in Hm. apply Hm. by right.
    + by apply access_decides, candidate_text.
    + destruct (justified_access _ _ _ HJ cwd t c Hc Htok Hg Hrc) as (d & Hd & He & H1' & H2' & H3').
      exists d. split; [done|]. split; [done|]. split; [done|]. split; [done|]. auto.
  - intros q pattern Hq He. eapply merge_keeps_glob; [exact Ep|by right|]. by eapply merge_keeps_glob.
  - intros Hn. apply (justified_network _ _ _ HJ).
    apply additional_eqb_network in Hpre. unfold intersect_permission_profiles in Hpre. cbn [network] in Hpre.
    rewrite Hn in Hpre. by destruct (network_enabled (network g)).
Qed.

(** A user answers one request for the turn; a later command may use what was answered. *)
Definition sample_request : AdditionalPermissionProfile :=
  {| network := None;
     file_system := Some {| fs_entries := [entry (FsPath (abs ["data"])) Write]; fs_glob_scan_max_depth := None |} |}.

Definition sample_decided : Decided :=
  {| decided_environment := "local"; decided_cwd := abs ["d"]; decided_request := sample_request;
     decided_answer := sample_request |}.

Definition sample_selection : TurnEnvironmentSelection :=
  {| environment_id := "local"; environment_cwd := "/d" : @PathUri mem_uris |}.

Definition answered_session : SessionState :=
  {| session_granted := ∅;
     active_turn := Some {| pending_request_permissions := ∅; turn_granted := {["local" := sample_request]};
                            strict_auto_review_enabled := false |} |}.

Lemma sample_reached :
  let env := sample_env in let probe := bare_probe in let globs := no_globs in
  reached [sample_decided] answered_session.
Proof.
  intros env probe globs.
  set (s1 := {| session_granted := ∅; active_turn := Some new_turn |}).
  set (s2 := (request_permissions_for_environment s1 OnRequest "call" sample_request sample_selection None).1).
  assert (reached [] s2) as H2.
  { apply (reached_step [] s1 None); [|constructor].
    apply (reached_step [] new_session None); [constructor|]. by constructor. }
  set (p := {| requested_permissions := sample_request; environment := sample_selection |}).
  set (answer := {| resp_permissions := sample_request; scope := ScopeTurn; strict_auto_review := false |}).
  assert ((notify_request_permissions_response s2 "call" answer).1 = answered_session) as <- by vm_refl.
  apply (reached_step [] s2 (Some sample_decided) _ H2).
  by apply (step_answer s2 "call" answer {| pending_request_permissions := {["call" := p]}; turn_granted := ∅;
    strict_auto_review_enabled := false |} p (abs ["d"])).
Qed.

Lemma preapproved_as_answered_witness :
  let env := sample_env in let probe := bare_probe in let globs := no_globs in
  let eff := apply_granted_turn_permissions (granted_session_permissions answered_session "local")
               (granted_turn_permissions answered_session "local") "/d" UseDefault (Some sample_request) in
  permissions_preapproved eff = true ∧ decision_allows sample_decided (abs ["data"; "x"]) Write.
Proof.
  intros env probe globs eff. assert (permissions_preapproved eff = true) as Hpre by vm_refl. split; [done|].
  destruct (preapproved_as_answered [sample_decided] answered_session "local" "/d" UseDefault (Some sample_request))
    as (p & Hp & Ha & _); [exact sample_reached| |vm_refl|exact Hpre|].
  - constructor; [|constructor]. by apply unhidden_no_denials.
  - vm_compute in Hp. injection Hp as <-.
    destruct (Ha ltac:(by apply unhidden_no_denials) (abs ["data"; "x"]) ltac:(by repeat constructor) ltac:(vm_refl))
      as (d & ->%list_elem_of_singleton & _ & Hd). exact Hd.
Defined.

(** The condition on denials is needed.  When a grant carries a deny pattern, a requested
    write that the pattern hides is left out of both intersections that are compared, so it
    counts as pre-approved although nobody granted it. *)
Definition env_globs : GlobSet :=
  {| GlobMatcher := string; build_glob_matcher := Ok; is_glob_match := λ _ path, ends_with ".env" path |}.

Example hidden_write_preapproved :
  let env := sample_env in let probe := bare_probe in let globs := env_globs in
  let granted := {| network := None;
                    file_system := Some {| fs_entries := [entry (FsPath (abs ["data"])) Read;
                                                          entry (GlobPattern "/data/*.env") Deny];
                                           fs_glob_scan_max_depth := None |} |} in
  let additional := {| network := None;
                       file_system := Some {| fs_entries := [entry (FsPath (abs ["data"; "x.env"])) Write];
                                              fs_glob_scan_max_depth := None |} |} in
  let eff := apply_granted_turn_permissions None (Some granted) "/d" WithAdditionalPermissions (Some additional) in
  permissions_preapproved eff = true ∧
  resolve_access_with_cwd (profile_policy granted) "/data/x.env" "/d" = Read ∧
  resolve_access_with_cwd (profile_policy (default no_permissions (eff_additional_permissions eff))) "/data/x.env" "/d"
    = Write.
Proof. split_and!; vm_refl. Qed.
