(* ===== verification/SandboxManager.v ===== *)
(** * Choosing and building the sandbox of a command

    codex-rs/sandboxing/src/manager.rs (the Linux build), landlock.rs and denial.rs.  The
    network proxy, the JSON text of a profile and whether the machine is WSL 1 are the
    parameter [SandboxHost]; arguments and paths are text. *)

From stdpp Require Import base gmap list strings.
From S2P Require Import Prelude Str Json Fragments AbsPath PathFacts PatchApply PatchDelta.
From S2P Require Import Permissions PermissionFacts ApprovalPolicy PatchSafety PolicyTransforms.

(** ** Data *)

Inductive SandboxablePreference := PreferAuto | PreferRequire | PreferForbid.

Inductive WindowsSandboxLevel := LevelDisabled | LevelRestrictedToken | LevelElevated.

Class SandboxHost := {
  NetworkProxy : Type;
  managed_mitm_ca_trust_bundle_path : NetworkProxy → option AbsolutePathBuf;
  profile_json : PermissionProfile → string;
  is_wsl1 : bool;
}.

Section manager.
Context `{PathUris} `{!AbsUris} `{PathEnv, FileProbe} `{SandboxHost}.

Record SandboxCommand := {
  program : string;
  args : list string;
  command_cwd : PathUri;
  env : gmap string string;
  additional_permissions : option AdditionalPermissionProfile;
}.

Record SandboxTransformRequest := {
  command : SandboxCommand;
  permissions : PermissionProfile;
  request_sandbox : SandboxType;
  enforce_managed_network : bool;
  request_environment_id : option string;
  request_network : option NetworkProxy;
  request_sandbox_policy_cwd : PathUri;
  codex_linux_sandbox_exe : option string;
  use_legacy_landlock : bool;
  request_windows_level : WindowsSandboxLevel;
  request_windows_private_desktop : bool;
}.

Record SandboxExecRequest := {
  exec_command : list string;
  exec_cwd : PathUri;
  exec_sandbox_policy_cwd : PathUri;
  exec_env : gmap string string;
  exec_network : option NetworkProxy;
  exec_network_environment_id : option string;
  exec_sandbox : SandboxType;
  exec_windows_level : WindowsSandboxLevel;
  exec_windows_private_desktop : bool;
  exec_permission_profile : PermissionProfile;
  exec_file_system_policy : FileSystemSandboxPolicy;
  exec_network_policy : NetworkSandboxPolicy;
  exec_arg0 : option string;
}.

Inductive SandboxTransformError :=
| InvalidCommandCwd (cwd : PathUri)
| InvalidSandboxPolicyCwd (cwd : PathUri)
| MissingLinuxSandboxExecutable
| Wsl1UnsupportedForBubblewrap
| SeatbeltUnavailable.

(** ** landlock.rs *)

Definition CODEX_LINUX_SANDBOX_ARG0 : string := "codex-linux-sandbox".

Definition allow_network_for_proxy (enforce_managed_network : bool) : bool := enforce_managed_network.

Definition create_linux_sandbox_command_args_for_permission_profile (command : list string)
    (command_cwd : string) (permission_profile : PermissionProfile) (sandbox_policy_cwd : string)
    (use_legacy_landlock allow_network_for_proxy : bool) : list string :=
  ["--sandbox-policy-cwd"; sandbox_policy_cwd; "--command-cwd"; command_cwd;
   "--permission-profile"; profile_json permission_profile]
  ++ (if use_legacy_landlock && negb allow_network_for_proxy then ["--use-legacy-landlock"] else [])
  ++ (if allow_network_for_proxy then ["--allow-network-for-proxy"] else [])
  ++ ["--"] ++ command.

(** ** Selection *)

Definition should_sandbox (p : FileSystemSandboxPolicy) (n : NetworkSandboxPolicy) (pref : SandboxablePreference)
    (has_managed_network_requirements : bool) : bool :=
  match pref with
  | PreferForbid => false
  | PreferRequire => true
  | PreferAuto => should_require_platform_sandbox p n has_managed_network_requirements
  end.

Definition level_enabled (l : WindowsSandboxLevel) : bool :=
  match l with LevelDisabled => false | _ => true end.

Definition select_initial (p : FileSystemSandboxPolicy) (n : NetworkSandboxPolicy) (pref : SandboxablePreference)
    (windows_sandbox_level : WindowsSandboxLevel) (has_managed_network_requirements : bool) : SandboxType :=
  if should_sandbox p n pref has_managed_network_requirements
  then default SandboxNone (get_platform_sandbox (level_enabled windows_sandbox_level))
  else SandboxNone.

(** ** Transformation *)

(** [None] is the [unreachable!] of the profile constructor. *)
Definition with_managed_mitm_ca_readable_root (profile : PermissionProfile) (ca : option AbsolutePathBuf)
    (sandbox_policy_cwd : string) : option PermissionProfile :=
  match ca with
  | None => Some profile
  | Some path =>
      let '(file_system_policy, network_policy) := to_runtime_permissions profile in
      from_runtime_permissions_with_enforcement (enforcement profile)
        (with_additional_readable_roots file_system_policy sandbox_policy_cwd [path]) network_policy
  end.

Record PendingSandboxedExecRequest := {
  native_command_cwd : AbsolutePathBuf;
  native_sandbox_policy_cwd : AbsolutePathBuf;
  effective_profile : PermissionProfile;
}.

Definition pending_new (command_cwd sandbox_policy_cwd : PathUri) (profile : PermissionProfile)
    (ca : option AbsolutePathBuf) : option (Result PendingSandboxedExecRequest SandboxTransformError) :=
  match to_abs_path command_cwd, to_abs_path sandbox_policy_cwd with
  | None, _ => Some (Err (InvalidCommandCwd command_cwd))
  | Some _, None => Some (Err (InvalidSandboxPolicyCwd sandbox_policy_cwd))
  | Some command_cwd, Some policy_cwd =>
      (λ profile, Ok {| native_command_cwd := command_cwd; native_sandbox_policy_cwd := policy_cwd;
                        effective_profile := profile |})
        <$> with_managed_mitm_ca_readable_root profile ca (path_text policy_cwd)
  end.

Definition ensure_linux_bubblewrap_is_supported (p : FileSystemSandboxPolicy)
    (use_legacy_landlock allow_network_for_proxy is_wsl1 : bool) : Result () SandboxTransformError :=
  let requires_bubblewrap :=
    allow_network_for_proxy || (negb use_legacy_landlock && negb (has_full_disk_write_access p)) in
  if is_wsl1 && requires_bubblewrap then Err Wsl1UnsupportedForBubblewrap else Ok ().

(** [Path::file_name] of a text: its last component, when that is a name. *)
Definition text_file_name (path : string) : option string :=
  match last (components path) with Some (Normal n) => Some n | _ => None end.

Definition linux_sandbox_arg0_override (exe : string) : string :=
  if bool_decide (text_file_name exe = Some CODEX_LINUX_SANDBOX_ARG0) then exe else CODEX_LINUX_SANDBOX_ARG0.

(** The match on the sandbox: the command line, its name, and the prepared request. *)
Definition wrap_command (request : SandboxTransformRequest) (argv : list string)
    (pending : Result PendingSandboxedExecRequest SandboxTransformError) :
    Result (list string * option string * option PendingSandboxedExecRequest) SandboxTransformError :=
  match request_sandbox request with
  | SandboxNone => Ok (argv, None, None)
  | MacosSeatbelt => Err SeatbeltUnavailable
  | LinuxSeccomp =>
      let? pending := pending in
      match codex_linux_sandbox_exe request with
      | None => Err MissingLinuxSandboxExecutable
      | Some exe =>
          let allow_proxy_network := allow_network_for_proxy (enforce_managed_network request) in
          let? _ := ensure_linux_bubblewrap_is_supported (file_system_sandbox_policy (effective_profile pending))
                      (use_legacy_landlock request) allow_proxy_network is_wsl1 in
          let args :=
            create_linux_sandbox_command_args_for_permission_profile argv
              (path_text (native_command_cwd pending)) (effective_profile pending)
              (path_text (native_sandbox_policy_cwd pending)) (use_legacy_landlock request) allow_proxy_network in
          Ok (exe :: args, Some (linux_sandbox_arg0_override exe), Some pending)
      end
  | WindowsRestrictedToken => let? pending := pending in Ok (argv, None, Some pending)
  end.

(** [None] is the [unreachable!] of the profile constructors ([transform_total]). *)
Definition transform (request : SandboxTransformRequest) : option (Result SandboxExecRequest SandboxTransformError) :=
  let c := command request in
  let ca := request_network request ≫= managed_mitm_ca_trust_bundle_path in
  match effective_permission_profile (permissions request) (additional_permissions c) with
  | None => None
  | Some base_profile =>
      match pending_new (command_cwd c) (request_sandbox_policy_cwd request) base_profile ca with
      | None => None
      | Some pending =>
          Some (let? '(argv, arg0_override, pending) := wrap_command request (program c :: args c) pending in
                let profile := match pending with Some p => effective_profile p | None => base_profile end in
                Ok {| exec_command := argv; exec_cwd := command_cwd c;
                      exec_sandbox_policy_cwd := request_sandbox_policy_cwd request; exec_env := env c;
                      exec_network := request_network request;
                      exec_network_environment_id := request_environment_id request;
                      exec_sandbox := request_sandbox request;
                      exec_windows_level := request_windows_level request;
                      exec_windows_private_desktop := request_windows_private_desktop request;
                      exec_permission_profile := profile;
                      exec_file_system_policy := file_system_sandbox_policy profile;
                      exec_network_policy := network_sandbox_policy profile;
                      exec_arg0 := arg0_override |})
      end
  end.

Definition compatibility_workspace_write_policy (p : FileSystemSandboxPolicy) (n : NetworkSandboxPolicy)
    (cwd : string) : SandboxPolicy :=
  let cwd_abs := from_absolute_path cwd in
  let writable_roots :=
    List.filter (λ root, negb (bool_decide (cwd_abs = Some root)))
      (root <$> get_writable_roots_with_cwd p cwd) in
  let tmpdir_writable :=
    match tmpdir_var ≫= λ tmpdir, if str_is_empty tmpdir then None else from_absolute_path tmpdir with
    | Some tmpdir => can_write_path_with_cwd p (path_text tmpdir) cwd
    | None => false
    end in
  let slash_tmp_writable := is_dir slash_tmp && can_write_path_with_cwd p (path_text slash_tmp) cwd in
  WorkspaceWrite writable_roots (net_is_enabled n) (negb tmpdir_writable) (negb slash_tmp_writable).

Definition compatibility_sandbox_policy_for_permission_profile (permissions : PermissionProfile) (cwd : string) :
    SandboxPolicy :=
  match profile_to_legacy_sandbox_policy permissions cwd with
  | Ok policy => policy
  | Err _ =>
      let '(file_system_policy, network_policy) := to_runtime_permissions permissions in
      compatibility_workspace_write_policy file_system_policy network_policy cwd
  end.
End manager.

(** ** denial.rs *)

Record ExecToolCallOutput := { exit_code : Z; out_stdout : string; out_stderr : string; aggregated_output : string }.

Definition SANDBOX_DENIED_KEYWORDS : list string :=
  ["operation not permitted"; "permission denied"; "read-only file system"; "seccomp"; "sandbox"; "landlock";
   "failed to write file"].

Definition QUICK_REJECT_EXIT_CODES : list Z := [2; 126; 127]%Z.

(** [EXIT_CODE_SIGNAL_BASE + libc::SIGSYS] *)
Definition SIGSYS_EXIT_CODE : Z := (128 + 31)%Z.

Definition is_likely_sandbox_denied `{Unicode} (sandbox_type : SandboxType) (out : ExecToolCallOutput) : bool :=
  if match sandbox_type with SandboxNone => true | _ => false end || Z.eqb (exit_code out) 0 then false
  else if existsb (λ section, existsb (λ needle, contains needle (to_lowercase section)) SANDBOX_DENIED_KEYWORDS)
            [out_stderr out; out_stdout out; aggregated_output out]
  then true
  else if existsb (Z.eqb (exit_code out)) QUICK_REJECT_EXIT_CODES then false
  else match sandbox_type with LinuxSeccomp => Z.eqb (exit_code out) SIGSYS_EXIT_CODE | _ => false end.

(** ** No sandbox, nothing to enforce *)

Lemma not_required_open p n managed :
  should_require_platform_sandbox p n managed = false →
  managed = false ∧ (kind p = KindExternalSandbox ∨ (net_is_enabled n = true ∧ has_full_disk_write_access p = true)).
Proof.
  unfold should_require_platform_sandbox. destruct managed; [done|]. intros Hf. split; [done|].
  destruct (net_is_enabled n); cbn [negb] in Hf.
  - destruct (kind p) eqn:Ek; [right|right|by left]; split; try done.
    + by apply negb_false_iff in Hf.
    + unfold has_full_disk_write_access. by rewrite Ek.
  - left. apply negb_false_iff in Hf. by apply bool_decide_eq_true in Hf.
Qed.

(** The manager leaves a command without a sandbox, when the tool leaves the choice
    to it, only if there is nothing to enforce: no managed network is required, and either
    somebody else enforces the policy, or the network is open and every path may be written
    and read. *)
Theorem no_sandbox_nothing_to_enforce `{PathEnv, FileProbe} p n level managed cwd path t :
  select_initial p n PreferAuto level managed = SandboxNone →
  is_absolute cwd = true → is_dir slash_tmp = true → policy_ok p → resolve_candidate_path path cwd = Some t →
  managed = false ∧
  (kind p = KindExternalSandbox ∨
   (net_is_enabled n = true ∧ can_write_path_with_cwd p path cwd = true ∧ can_read_path_with_cwd p path cwd = true)).
Proof.
  unfold select_initial, should_sandbox. intros Hs Hc Htmp Hok Ht.
  destruct (should_require_platform_sandbox p n managed) eqn:Er; [done|].
  destruct (not_required_open p n managed Er) as [-> [Hk|[Hn Hw]]]; (split; [done|]); [by left|right].
  pose proof (full_write_everywhere p cwd path t Hc Htmp Hok Ht Hw) as Ha. split_and!; [done|..].
  - unfold can_write_path_with_cwd. by rewrite Ha, Hw.
  - unfold can_read_path_with_cwd. by rewrite Ha.
Qed.

Lemma no_sandbox_nothing_to_enforce_witness :
  let env := sample_env in let probe := sample_probe in
  let p := restricted [entry (Special SpecialRoot) Write] in
  select_initial p NetEnabled PreferAuto LevelDisabled false = SandboxNone ∧
  can_write_path_with_cwd p "/etc/hosts" "/work" = true.
Proof.
  intros env probe p. assert (select_initial p NetEnabled PreferAuto LevelDisabled false = SandboxNone) as Hs by vm_refl.
  split; [done|].
  destruct (no_sandbox_nothing_to_enforce p NetEnabled LevelDisabled false "/work" "/etc/hosts" (abs ["etc"; "hosts"]))
    as [_ [Hk|(_ & Hw & _)]]; [done|vm_refl|vm_refl| |vm_refl|done|done].
  by repeat constructor.
Defined.

(** ** The command line of the sandbox *)

Section lines.
Context `{PathUris} `{!AbsUris} `{PathEnv, FileProbe} `{SandboxHost}.

Lemma effective_profile_total profile additional : is_Some (effective_permission_profile profile additional).
Proof. apply runtime_permissions_total. Qed.

Lemma transform_total request : is_Some (transform request).
Proof.
  unfold transform. destruct (effective_profile_total (permissions request) (additional_permissions (command request)))
    as [base ->]. unfold pending_new.
  destruct (to_abs_path (command_cwd _)); [|by eexists]. destruct (to_abs_path _) as [c|]; [|by eexists].
  unfold with_managed_mitm_ca_readable_root. destruct (request_network request ≫= _) as [ca|]; [|by eexists].
  cbn [to_runtime_permissions].
  destruct (runtime_permissions_total (enforcement base)
    (with_additional_readable_roots (file_system_sandbox_policy base) (path_text c) [ca]) (network_sandbox_policy base))
    as [x ->]. by eexists.
Qed.

(** A command wrapped for Linux starts the helper with the effective profile before the
    separator, and the command itself, unchanged, after it; no argument of the command can be
    read as an option of the helper. *)
Lemma wrapped_command request x :
  request_sandbox request = LinuxSeccomp → transform request = Some (Ok x) →
  ∃ exe cwd policy_cwd flags,
    codex_linux_sandbox_exe request = Some exe ∧ to_abs_path (command_cwd (command request)) = Some cwd ∧
    to_abs_path (request_sandbox_policy_cwd request) = Some policy_cwd ∧
    exec_command x =
      exe :: ["--sandbox-policy-cwd"; path_text policy_cwd; "--command-cwd"; path_text cwd;
              "--permission-profile"; profile_json (exec_permission_profile x)] ++ flags ++
      "--" :: program (command request) :: args (command request) ∧
    (∀ f, f ∈ flags → f = "--use-legacy-landlock" ∨ f = "--allow-network-for-proxy") ∧
    ("--use-legacy-landlock" ∈ flags → "--allow-network-for-proxy" ∉ flags) ∧ exec_sandbox x = LinuxSeccomp.
Proof.
  intros Hs. unfold transform, wrap_command. rewrite Hs.
  destruct (effective_permission_profile _ _) as [base|]; [|done]. unfold pending_new.
  destruct (to_abs_path (command_cwd _)) as [cwd|] eqn:Ec; [|done].
  destruct (to_abs_path (request_sandbox_policy_cwd _)) as [pcwd|] eqn:Ep; [|done].
  destruct (with_managed_mitm_ca_readable_root _ _ _) as [profile|]; [|done]. cbn [fmap option_fmap option_map res_bind].
  destruct (codex_linux_sandbox_exe request) as [exe|]; [|done].
  destruct (ensure_linux_bubblewrap_is_supported _ _ _ _); [|done]. cbn [res_bind]. intros [= <-].
  exists exe, cwd, pcwd,
    ((if use_legacy_landlock request && negb (enforce_managed_network request) then ["--use-legacy-landlock"] else []) ++
     (if enforce_managed_network request then ["--allow-network-for-proxy"] else [])).
  split_and!; [done..|by rewrite <-app_assoc| | |done].
  - intros f. destruct (use_legacy_landlock request), (enforce_managed_network request); simpl; set_solver.
  - destruct (use_legacy_landlock request), (enforce_managed_network request); simpl; set_solver.
Qed.
End lines.
