(* ===== verification/Orchestrator.v ===== *)
(** * Running a tool: approval, sandbox, attempt, retry

    codex-rs/core/src/tools/orchestrator.rs, the approval cache of core/src/tools/sandboxing.rs
    and network_approval_context_from_payload of core/src/network_policy_decision.rs.

    The tool, the people and programs that answer (hooks, the guardian, the user) and the
    network-approval service are the interface [ToolRuntime]: effects on a state [World] of
    their own.  The orchestrator is written in a monad over that state that also records what
    happened: the answers given and the attempts made, in order.  Telemetry is left out. *)

From stdpp Require Import base gmap list strings.
From S2P Require Import Prelude Str Json Fragments AbsPath PatchApply ShellCommand.
From S2P Require Import Permissions PermissionFacts ApprovalPolicy PatchSafety PolicyTransforms PermissionGrants SandboxManager.

(** ** Data *)

Inductive NetworkApprovalProtocol := NetHttp | NetHttps | NetSocks5Tcp | NetSocks5Udp.

Inductive NetworkPolicyDecision := NetDeny | NetAsk.

Inductive NetworkDecisionSource := SourceBaselinePolicy | SourceModeGuard | SourceProxyState | SourceDecider.

Record NetworkPolicyDecisionPayload := {
  payload_decision : NetworkPolicyDecision;
  payload_source : NetworkDecisionSource;
  payload_protocol : option NetworkApprovalProtocol;
  payload_host : option string;
}.

Record NetworkApprovalContext := { context_host : string; context_protocol : NetworkApprovalProtocol }.

Inductive ToolError :=
| ToolRejected (reason : string)
| SandboxDenied (output : ExecToolCallOutput) (decision : option NetworkPolicyDecisionPayload)
| SandboxTimeout (output : ExecToolCallOutput)
| SandboxSignal (signal : Z)
| CodexError (message : string).

Inductive PermissionRequestDecision := HookAllow | HookDeny (message : string).

Inductive NetworkApprovalMode := ApprovalImmediate | ApprovalDeferred.

Record ApprovalCtx := {
  guardian_review : bool;
  retry_reason : option string;
  approval_network_context : option NetworkApprovalContext;
}.

(** The fields of an attempt that depend on the orchestrator's decisions. *)
Record SandboxAttempt := {
  attempt_sandbox : SandboxType;
  attempt_sandbox_requested : bool;
  attempt_permissions : PermissionProfile;
  attempt_managed_network : bool;
  attempt_linux_exe : option string;
}.

Record TurnContext := {
  turn_profile : PermissionProfile;
  turn_network_proxy : bool;                 (** [turn_ctx.network.is_some()] *)
  turn_windows_level : WindowsSandboxLevel;
  turn_linux_exe : option string;
  turn_routes_to_guardian : bool;
  turn_strict_auto_review : bool;
}.

Section payload.
Context `{Unicode}.

Definition is_ask_from_decider (p : NetworkPolicyDecisionPayload) : bool :=
  match payload_decision p, payload_source p with NetAsk, SourceDecider => true | _, _ => false end.

Definition network_approval_context_from_payload (p : NetworkPolicyDecisionPayload) :
    option NetworkApprovalContext :=
  if negb (is_ask_from_decider p) then None
  else match payload_protocol p, payload_host p with
       | Some protocol, Some host =>
           let host := trim host in
           if str_is_empty host then None else Some {| context_host := host; context_protocol := protocol |}
       | _, _ => None
       end.
End payload.

(** ** The interface of a tool *)

(** One request of one tool; the methods of [Approvable], [Sandboxable] and [ToolRuntime], and
    the services the orchestrator calls. *)
Class ToolRuntime := {
  World : Type;
  Out : Type;
  exec_approval_requirement : option ExecApprovalRequirement;
  tool_sandbox_permissions : SandboxPermissions;
  sandbox_preference : SandboxablePreference;
  escalate_on_failure : bool;
  tool_wants_no_sandbox_approval : AskForApproval → bool;
  permission_request_payload : bool;           (** whether the request has a payload for hooks *)
  run_permission_request_hooks : World → bool → World * option PermissionRequestDecision;
  start_approval : World → ApprovalCtx → World * ReviewDecision;
  guardian_rejection_message : World → World * string;
  guardian_timeout_message : string;
  begin_network_approval : World → bool → World * option NetworkApprovalMode;
  finish_network_approval : World → World * Result () ToolError;
  tool_run : World → SandboxAttempt → World * Result Out ToolError;
}.

Section orchestrator.
Context `{Unicode} `{ToolRuntime}.

(** ** What happened *)

Inductive Event :=
| Hooked (retry : bool) (decision : PermissionRequestDecision)
| Reviewed (ctx : ApprovalCtx) (decision : ReviewDecision)
| Attempted (a : SandboxAttempt) (failed : option ToolError).

(** A computation on the world that may fail and leaves a record. *)
Definition M (A : Type) : Type := World → Result A ToolError * World * list Event.

Definition ret {A} (a : A) : M A := λ w, (Ok a, w, []).
Definition fail {A} (e : ToolError) : M A := λ w, (Err e, w, []).
Definition effect {A} (f : World → World * A) : M A := λ w, let '(w, a) := f w in (Ok a, w, []).
Definition record (e : Event) : M () := λ w, (Ok (), w, [e]).
Definition lift {A} (r : Result A ToolError) : M A := λ w, (r, w, []).

Definition bind {A B} (m : M A) (k : A → M B) : M B := λ w,
  match m w with
  | (Ok a, w, t) => let '(r, w, t') := k a w in (r, w, t ++ t')
  | (Err e, w, t) => (Err e, w, t)
  end.

Notation "'do' x '<-' m ';' k" := (bind m (λ x, k)) (at level 200, x binder, m at level 100, k at level 200).

(** ** Approvals *)

Definition request_approval (retry : bool) (ctx : ApprovalCtx) (evaluate_permission_request_hooks : bool) :
    M ReviewDecision :=
  do hooked <-
    (if evaluate_permission_request_hooks && permission_request_payload
     then effect (λ w, run_permission_request_hooks w retry) else ret None);
  match hooked with
  | Some HookAllow => do _ <- record (Hooked retry HookAllow); ret Approved
  | Some (HookDeny message) => do _ <- record (Hooked retry (HookDeny message)); fail (ToolRejected message)
  | None =>
      do decision <- effect (λ w, start_approval w ctx);
      do _ <- record (Reviewed ctx decision);
      ret decision
  end.

Definition reject_if_not_approved (guardian : bool) (decision : ReviewDecision) : M () :=
  match decision with
  | Denied | Abort' =>
      do reason <- (if guardian then effect guardian_rejection_message else ret "rejected by user");
      fail (ToolRejected reason)
  | TimedOut => fail (ToolRejected guardian_timeout_message)
  | Approved | ApprovedExecpolicyAmendment _ | ApprovedForSession => ret ()
  | NetworkPolicyAmendment {| amended_action := RuleAllow |} => ret ()
  | NetworkPolicyAmendment {| amended_action := RuleDeny |} => fail (ToolRejected "rejected by user")
  end.

(** The approval before the first attempt; the result is [already_approved]. *)
Definition approve_first (turn : TurnContext) (requirement : ExecApprovalRequirement) : M bool :=
  let strict := turn_strict_auto_review turn in
  let use_guardian := turn_routes_to_guardian turn || strict in
  match requirement with
  | Skip _ _ =>
      if strict then
        do decision <- request_approval false
          {| guardian_review := true; retry_reason := None; approval_network_context := None |} false;
        do _ <- reject_if_not_approved true decision;
        ret true
      else ret false
  | RequirementForbidden reason => fail (ToolRejected reason)
  | NeedsApproval reason _ =>
      do decision <- request_approval false
        {| guardian_review := use_guardian; retry_reason := reason; approval_network_context := None |} (negb strict);
      do _ <- reject_if_not_approved use_guardian decision;
      ret true
  end.

(** ** Attempts *)

(** The tool's result and whether a deferred network approval stays open. *)
Definition run_attempt (a : SandboxAttempt) : M (Result Out ToolError * bool) :=
  do network_approval <- effect (λ w, begin_network_approval w (attempt_managed_network a));
  do r <- effect (λ w, tool_run w a);
  do _ <- record (Attempted a match r with Ok _ => None | Err e => Some e end);
  match network_approval with
  | None => ret (r, false)
  | Some ApprovalImmediate =>
      do finalize <- effect finish_network_approval;
      match finalize with Err err => ret (Err err, false) | Ok _ => ret (r, false) end
  | Some ApprovalDeferred =>
      match r with
      | Err _ =>
          do finalize <- effect finish_network_approval;
          match finalize with Err err => ret (Err err, false) | Ok _ => ret (r, false) end
      | Ok _ => ret (r, true)
      end
  end.

Definition turn_file_system (turn : TurnContext) : FileSystemSandboxPolicy := file_system_sandbox_policy (turn_profile turn).
Definition turn_network (turn : TurnContext) : NetworkSandboxPolicy := network_sandbox_policy (turn_profile turn).

Definition turn_should_sandbox (turn : TurnContext) : bool :=
  should_sandbox (turn_file_system turn) (turn_network turn) sandbox_preference (turn_network_proxy turn).

(** The attempt with or without the sandbox the policy selects. *)
Definition make_attempt (turn : TurnContext) (sandbox_requested : bool) (exe : option string) : SandboxAttempt :=
  {| attempt_sandbox :=
       if sandbox_requested
       then select_initial (turn_file_system turn) (turn_network turn) sandbox_preference (turn_windows_level turn)
              (turn_network_proxy turn)
       else SandboxNone;
     attempt_sandbox_requested := sandbox_requested;
     attempt_permissions := turn_profile turn;
     attempt_managed_network := turn_network_proxy turn;
     attempt_linux_exe := exe |}.

Definition initial_attempt (turn : TurnContext) (requirement : ExecApprovalRequirement) : SandboxAttempt :=
  make_attempt turn
    match sandbox_override_for_first_attempt tool_sandbox_permissions requirement (turn_file_system turn) with
    | BypassSandboxFirstAttempt => false
    | NoOverride => turn_should_sandbox turn
    end (turn_linux_exe turn).

Definition retry_attempt (turn : TurnContext) : SandboxAttempt :=
  let unsandboxed_allowed := unsandboxed_execution_allowed (turn_file_system turn) in
  make_attempt turn (negb unsandboxed_allowed && turn_should_sandbox turn)
    (if unsandboxed_allowed then None else turn_linux_exe turn).

Definition build_denial_reason_from_output (output : ExecToolCallOutput) : string :=
  "command failed; retry without sandbox?".

(** The context for approving a blocked connection, when a managed network is active. *)
Definition denial_network_context (turn : TurnContext) (decision : option NetworkPolicyDecisionPayload) :
    option NetworkApprovalContext :=
  if turn_network_proxy turn then decision ≫= network_approval_context_from_payload else None.

(** Whether the denial may lead to a second attempt at all. *)
Definition may_retry (turn : TurnContext) (approval_policy : AskForApproval)
    (decision : option NetworkPolicyDecisionPayload) : bool :=
  let context := denial_network_context turn decision in
  let has_context := bool_decide (is_Some context) in
  let fs := turn_file_system turn in
  negb (bool_decide (is_Some decision) && negb has_context)
  && escalate_on_failure
  && (tool_wants_no_sandbox_approval approval_policy
      || (match approval_policy with OnRequest => true | _ => false end && has_context
          && match default_exec_approval_requirement approval_policy fs with NeedsApproval _ _ => true | _ => false end))
  && (unsandboxed_execution_allowed fs || has_context).

(** After a denial by the sandbox: ask again unless that can be skipped, then retry. *)
Definition retry_after_denial (turn : TurnContext) (approval_policy : AskForApproval) (already_approved : bool)
    (output : ExecToolCallOutput) (decision : option NetworkPolicyDecisionPayload) : M (Out * bool) :=
  if negb (may_retry turn approval_policy decision) then fail (SandboxDenied output decision)
  else
    let context := denial_network_context turn decision in
    let strict := turn_strict_auto_review turn in
    let use_guardian := turn_routes_to_guardian turn || strict in
    let reason :=
      match context with
      | Some c => "Network access to " +:+ (dquote +:+ (context_host c +:+ (dquote +:+ " is blocked by policy.")))
      | None => build_denial_reason_from_output output
      end in
    let bypass_retry_approval :=
      negb strict && should_bypass_approval approval_policy already_approved && negb (bool_decide (is_Some context)) in
    do _ <-
      (if bypass_retry_approval then ret ()
       else
         do decision <- request_approval true
           {| guardian_review := use_guardian; retry_reason := Some reason; approval_network_context := context |}
           (negb strict);
         reject_if_not_approved use_guardian decision);
    do '(r, deferred) <- run_attempt (retry_attempt turn);
    do out <- lift r;
    ret (out, deferred).

Definition effective_requirement (turn : TurnContext) (approval_policy : AskForApproval) : ExecApprovalRequirement :=
  default (default_exec_approval_requirement approval_policy (turn_file_system turn)) exec_approval_requirement.

Definition run (turn : TurnContext) (approval_policy : AskForApproval) : M (Out * bool) :=
  let requirement := effective_requirement turn approval_policy in
  do already_approved <- approve_first turn requirement;
  do '(first, deferred) <- run_attempt (initial_attempt turn requirement);
  match first with
  | Ok out => ret (out, deferred)
  | Err (SandboxDenied output decision) =>
      retry_after_denial turn approval_policy already_approved output decision
  | Err err => fail err
  end.

(** ** Reasoning about the record *)

Definition spec {A} (m : M A) (P : Result A ToolError → list Event → Prop) : Prop :=
  ∀ w, let '(r, _, t) := m w in P r t.

Lemma spec_bind {A B} (m : M A) (k : A → M B) P (Q : Result B ToolError → list Event → Prop) :
  spec m P → (∀ a t, P (Ok a) t → spec (k a) (λ r t', Q r (t ++ t'))) → (∀ e t, P (Err e) t → Q (Err e) t) →
  spec (bind m k) Q.
Proof.
  intros Hm Hk He w. unfold bind. specialize (Hm w). destruct (m w) as [[[a|e] w'] t]; [|by apply He].
  specialize (Hk a t Hm w'). by destruct (k a w') as [[r w''] t'].
Qed.

Lemma spec_weaken {A} (m : M A) P Q : spec m P → (∀ r t, P r t → Q r t) → spec m Q.
Proof. intros Hm HPQ w. specialize (Hm w). destruct (m w) as [[r w'] t]. auto. Qed.

Lemma spec_ret {A} (a : A) (P : Result A ToolError → list Event → Prop) : P (Ok a) [] → spec (ret a) P.
Proof. by intros HP w. Qed.

Lemma spec_fail {A} e (P : Result A ToolError → list Event → Prop) : P (Err e) [] → spec (fail e) P.
Proof. by intros HP w. Qed.

Lemma spec_lift {A} (r : Result A ToolError) P : P r [] → spec (lift r) P.
Proof. by intros HP w. Qed.

Lemma spec_effect {A} (f : World → World * A) (P : Result A ToolError → list Event → Prop) :
  (∀ a, P (Ok a) []) → spec (effect f) P.
Proof. intros HP w. unfold effect. destruct (f w). apply HP. Qed.

Lemma spec_record e (P : Result () ToolError → list Event → Prop) : P (Ok ()) [e] → spec (record e) P.
Proof. by intros HP w. Qed.

(** An effect without a record, and a recorded event, in front of a computation. *)
Lemma spec_do_effect {A B} (f : World → World * A) (k : A → M B) Q :
  (∀ a, spec (k a) Q) → spec (do a <- effect f; k a) Q.
Proof.
  intros Hk. eapply spec_bind; [apply (spec_effect f (λ r t, t = [] ∧ ∃ a, r = Ok a)); eauto| |].
  - intros a t [-> _]. by apply Hk.
  - by intros e t [_ [? ?]].
Qed.

Lemma spec_do_record {B} e (k : M B) Q : spec k (λ r t, Q r (e :: t)) → spec (do _ <- record e; k) Q.
Proof.
  intros Hk. eapply spec_bind; [by apply (spec_record e (λ r t, t = [e] ∧ r = Ok ()))| |].
  - by intros [] t [-> _].
  - by intros x t [_ ?].
Qed.

Definition is_attempt (e : Event) : bool := match e with Attempted _ _ => true | _ => false end.

Definition is_approval (d : ReviewDecision) : bool :=
  match d with
  | Approved | ApprovedExecpolicyAmendment _ | ApprovedForSession | NetworkPolicyAmendment {| amended_action := RuleAllow |} => true
  | NetworkPolicyAmendment {| amended_action := RuleDeny |} | Denied | TimedOut | Abort' => false
  end.

(** The reviewer or the user approved. *)
Definition reviewed_ok (e : Event) : bool := match e with Reviewed _ d => is_approval d | _ => false end.

(** Somebody or some hook approved. *)
Definition approving (e : Event) : bool := match e with Hooked _ HookAllow => true | _ => reviewed_ok e end.

(** The one event of a request for approval that went through. *)
Definition approved_by (hooks : bool) (t : list Event) : Prop :=
  ∃ e, t = [e] ∧ is_attempt e = false ∧ approving e = true ∧ (hooks = false → reviewed_ok e = true).

Lemma ask_spec retry ctx hooks guardian :
  spec (do d <- request_approval retry ctx hooks; reject_if_not_approved guardian d)
    (λ r t, Forall (λ e, is_attempt e = false) t ∧ (r = Ok () → approved_by hooks t)).
Proof.
  eapply (spec_bind _ _ (λ r t, ∃ e, t = [e] ∧ is_attempt e = false ∧
    ∀ d, r = Ok d → is_approval d = true → approving e = true ∧ (hooks = false → reviewed_ok e = true))).
  - unfold request_approval. eapply (spec_bind _ _ (λ r t, t = [] ∧ ∃ o, r = Ok o ∧ (hooks = false → o = None))).
    + destruct hooks; simpl; [|apply spec_ret; naive_solver].
      destruct permission_request_payload; [apply spec_effect; naive_solver|apply spec_ret; naive_solver].
    + intros o t (-> & o' & [= <-] & Ho). cbn [app]. destruct o as [[|message]|].
      * apply spec_do_record, spec_ret. eexists. split_and!; [done|done|]. intros d _ _. split; [done|].
        intros Hh. by specialize (Ho Hh).
      * apply spec_do_record, spec_fail. eexists. by split_and!.
      * apply spec_do_effect. intros d. apply spec_do_record, spec_ret. eexists. split_and!; [done|done|].
        intros d' [= <-] Hd. done.
    + by intros e t (_ & o & ? & _).
  - intros d t (e & -> & He & Hd). specialize (Hd d eq_refl).
    assert (∀ r : Result () ToolError, (r = Ok () → is_approval d = true) →
      Forall (λ e, is_attempt e = false) [e] ∧ (r = Ok () → approved_by hooks [e])) as Hfin.
    { intros r Hr. split; [by constructor|]. intros Hok. exists e. specialize (Hd (Hr Hok)). naive_solver. }
    destruct d as [| | |[? []]| | |]; simpl.
    1,2,3,4: by apply spec_ret, Hfin.
    1,3: by apply spec_fail, Hfin.
    all: destruct guardian; [apply spec_do_effect; intros reason|
      eapply (spec_bind _ _ (λ r t, t = [])); [by apply spec_ret|intros reason t ->|by intros ? ? ->; apply Hfin]];
      by apply spec_fail, Hfin.
  - intros e t (x & -> & Hx & _). split; [by constructor|done].
Qed.

Lemma spec_assoc {A B C} (m : M A) (k : A → M B) (h : B → M C) Q :
  spec (bind (bind m k) h) Q → spec (bind m (λ a, bind (k a) h)) Q.
Proof.
  intros Hs w. specialize (Hs w). unfold bind in *. destruct (m w) as [[[a|e] w1] t1]; [|done].
  destruct (k a w1) as [[[b|e] w2] t2]; [|done]. destruct (h b w2) as [[r w3] t3]. by rewrite app_assoc.
Qed.

Definition quiet (t : list Event) : Prop := Forall (λ e, is_attempt e = false) t.

(** What the approval phase leaves behind when it lets the tool run. *)
Definition first_approved (turn : TurnContext) (requirement : ExecApprovalRequirement) (t : list Event)
    (already_approved : bool) : Prop :=
  match requirement with
  | RequirementForbidden _ => False
  | Skip _ _ =>
      if turn_strict_auto_review turn then already_approved = true ∧ approved_by false t
      else already_approved = false ∧ t = []
  | NeedsApproval _ _ => already_approved = true ∧ approved_by (negb (turn_strict_auto_review turn)) t
  end.

Lemma approve_first_spec turn requirement :
  spec (approve_first turn requirement)
    (λ r t, quiet t ∧ ∀ b, r = Ok b → first_approved turn requirement t b).
Proof.
  unfold approve_first, first_approved.
  assert (∀ ctx hooks g, spec (do d <- request_approval false ctx hooks; do _ <- reject_if_not_approved g d; ret true)
    (λ r t, quiet t ∧ ∀ b, r = Ok b → b = true ∧ approved_by hooks t)) as Hask.
  { intros ctx hooks g. apply spec_assoc. eapply spec_bind; [apply ask_spec| |].
    - intros [] t [Hq Ha]. apply spec_ret. rewrite app_nil_r. split; [done|]. intros b [= <-]. auto.
    - by intros e t [Hq _]. }
  destruct requirement as [bypass a|reason a|reason]; [| |by apply spec_fail; repeat constructor].
  - destruct (turn_strict_auto_review turn); [apply Hask|]. apply spec_ret. split; [constructor|]. by intros b [= <-].
  - apply Hask.
Qed.

Lemma run_attempt_spec a :
  spec (run_attempt a) (λ r t, (∃ f, t = [Attempted a f]) ∧ ∃ x, r = Ok x).
Proof.
  unfold run_attempt. apply spec_do_effect. intros mode. apply spec_do_effect. intros r. apply spec_do_record.
  destruct mode as [[]|]; [| |apply spec_ret; eauto].
  - apply spec_do_effect. intros []; apply spec_ret; eauto.
  - destruct r; [apply spec_ret; eauto|]. apply spec_do_effect. intros []; apply spec_ret; eauto.
Qed.

(** What lets the second attempt happen. *)
Definition retry_approved (turn : TurnContext) (approval_policy : AskForApproval) (already_approved : bool)
    (t : list Event) : Prop :=
  (∃ decision, may_retry turn approval_policy decision = true) ∧
  ((turn_strict_auto_review turn = false ∧ should_bypass_approval approval_policy already_approved = true ∧ t = []) ∨
   approved_by (negb (turn_strict_auto_review turn)) t).

Lemma retry_spec turn approval_policy already_approved output decision :
  spec (retry_after_denial turn approval_policy already_approved output decision)
    (λ r t, quiet t ∨ ∃ t' f, t = t' ++ [Attempted (retry_attempt turn) f] ∧
       quiet t' ∧ retry_approved turn approval_policy already_approved t').
Proof.
  unfold retry_after_denial. destruct (may_retry turn approval_policy decision) eqn:Hmay; cbn [negb].
  2:{ apply spec_fail. left. constructor. }
  eapply (spec_bind _ _ (λ r t, quiet t ∧ (r = Ok () → retry_approved turn approval_policy already_approved t))).
  - unfold retry_approved. destruct (negb _ && _ && _) eqn:Hby.
    + apply spec_ret. split; [constructor|]. intros _. split; [eauto|left].
      apply andb_true_iff in Hby as [[Hs%negb_true_iff Hb]%andb_true_iff _]. done.
    + eapply spec_weaken; [apply ask_spec|]. intros r t [Hq Ha]. split; [done|]. intros Hr. split; [eauto|]. auto.
  - intros [] t [Hq Ha]. eapply spec_bind; [apply run_attempt_spec| |by intros e t' [_ [? ?]]].
    intros [r deferred] t' [[f ->] _].
    eapply (spec_bind _ _ (λ _ t', t' = [])); [by apply spec_lift| |].
    + intros out t' ->. apply spec_ret. rewrite !app_nil_r. right. exists t, f. auto.
    + intros e t' ->. rewrite app_nil_r. right. exists t, f. auto.
  - intros e t [Hq _]. by left.
Qed.

(** The shape of every record: no attempt, one, or two. *)
Definition retry_shape (turn : TurnContext) (approval_policy : AskForApproval) (b : bool) (t : list Event) : Prop :=
  quiet t ∨ ∃ t' f, t = t' ++ [Attempted (retry_attempt turn) f] ∧ quiet t' ∧ retry_approved turn approval_policy b t'.

Definition run_shape (turn : TurnContext) (approval_policy : AskForApproval) (t : list Event) : Prop :=
  let requirement := effective_requirement turn approval_policy in
  quiet t ∨
  ∃ t1 b f t2, t = t1 ++ Attempted (initial_attempt turn requirement) f :: t2 ∧ quiet t1 ∧
    first_approved turn requirement t1 b ∧ retry_shape turn approval_policy b t2.

Lemma run_spec turn approval_policy : spec (run turn approval_policy) (λ _ t, run_shape turn approval_policy t).
Proof.
  unfold run. set (requirement := effective_requirement turn approval_policy).
  eapply spec_bind; [apply approve_first_spec| |intros e t [Hq _]; by left].
  intros b t1 [Hq Ha]. specialize (Ha b eq_refl). eapply spec_bind; [apply run_attempt_spec| |by intros e t [_ [? ?]]].
  intros [r deferred] t [[f ->] _].
  assert (∀ t2, retry_shape turn approval_policy b t2 →
    run_shape turn approval_policy (t1 ++ [Attempted (initial_attempt turn requirement) f] ++ t2)) as Hfin.
  { intros t2 Ht2. right. by exists t1, b, f, t2. }
  assert (retry_shape turn approval_policy b []) as Hnil by (left; constructor).
  destruct r as [out|[reason|output decision|output|signal|message]];
    [by apply spec_ret, Hfin| |eapply spec_weaken; [apply retry_spec|intros r t2; by apply Hfin]|..];
    by apply spec_fail, Hfin.
Qed.

(** Two ways to cut a record at an attempt. *)
Lemma cut_at_attempt t x rest pre y post :
  quiet t → is_attempt y = true → t ++ x :: rest = pre ++ y :: post →
  (pre = t ∧ x = y ∧ rest = post) ∨ ∃ k, pre = t ++ x :: k ∧ rest = k ++ y :: post.
Proof.
  intros Hq Hy. revert pre. induction t as [|e t IH]; intros [|z pre]; simpl; intros [= ? ?]; subst.
  - by left.
  - right. eauto.
  - apply Forall_cons in Hq as [Hz _]. congruence.
  - apply Forall_cons in Hq as [_ Hq]. destruct (IH Hq pre) as [(-> & -> & ->)|(k & -> & ->)]; eauto.
Qed.

Lemma quiet_no_attempt t pre y post : quiet t → is_attempt y = true → t ≠ pre ++ y :: post.
Proof. intros Hq Hy ->. apply Forall_app in Hq as [_ [? _]%Forall_cons]. congruence. Qed.

(** Where an attempt of a run stands. *)
Lemma attempt_position turn approval_policy t pre a f post :
  run_shape turn approval_policy t → t = pre ++ Attempted a f :: post →
  let requirement := effective_requirement turn approval_policy in
  (a = initial_attempt turn requirement ∧ quiet pre ∧ ∃ b, first_approved turn requirement pre b) ∨
  (a = retry_attempt turn ∧ ∃ t1 b f1 t3, pre = t1 ++ Attempted (initial_attempt turn requirement) f1 :: t3 ∧
     quiet t1 ∧ quiet t3 ∧ first_approved turn requirement t1 b ∧ retry_approved turn approval_policy b t3).
Proof.
  intros [Hq|(t1 & b & f1 & t2 & -> & Hq1 & Hfirst & Ht2)] Heq requirement; [by destruct (quiet_no_attempt _ _ (Attempted a f) _ Hq eq_refl Heq)|].
  destruct (cut_at_attempt _ _ _ _ (Attempted a f) _ Hq1 eq_refl Heq) as [(-> & [= <- <-] & _)|(k & -> & ->)]; [left; eauto|right].
  destruct Ht2 as [Hq|(t3 & f2 & Heq3 & Hq3 & Hretry)]; [by destruct (quiet_no_attempt _ k (Attempted a f) post Hq)|].
  symmetry in Heq3. destruct (cut_at_attempt _ _ _ _ (Attempted a f) _ Hq3 eq_refl Heq3) as [(-> & [= <- <-] & _)|(k' & _ & Hnil)].
  - split; [done|]. by exists t1, b, f1, t3.
  - by destruct k'.
Qed.

Definition count (f : Event → bool) (t : list Event) : nat := length (List.filter f t).

Lemma count_events_app f t t' : count f (t ++ t') = count f t + count f t'.
Proof. unfold count. by rewrite List.filter_app, length_app. Qed.

Lemma count_cons f e t : count f (e :: t) = (if f e then 1 else 0) + count f t.
Proof. unfold count. simpl. by destruct (f e). Qed.

Lemma count_quiet t : quiet t → count is_attempt t = 0.
Proof. unfold count. induction 1 as [|e t He _ IH]; simpl; [done|]. by rewrite He. Qed.

Lemma approved_by_events hooks t :
  approved_by hooks t → existsb approving t = true ∧ (hooks = false → count reviewed_ok t = 1).
Proof.
  intros (e & -> & _ & Ha & Hr). unfold count. simpl. rewrite Ha. split; [done|]. intros Hh. by rewrite Hr.
Qed.

Lemma first_approved_events turn requirement t b :
  first_approved turn requirement t b →
  (match requirement with
   | RequirementForbidden _ => False
   | NeedsApproval _ _ => existsb approving t = true
   | Skip _ _ => True
   end) ∧
  (b = true → existsb approving t = true) ∧
  (turn_strict_auto_review turn = true → count reviewed_ok t = 1).
Proof.
  pose proof (λ hooks, approved_by_events hooks t) as Hap. unfold first_approved. destruct requirement, (turn_strict_auto_review turn); try done;
    intros [-> Ht]; split_and!; try done; naive_solver.
Qed.
End orchestrator.

(** Claim C28. Every attempt to run a tool is authorised by what happened before it.  A
    forbidden request is never attempted and one that needs approval only after an approval;
    under strict review every attempt has a reviewer's approval of its own, never a hook's;
    there are at most two attempts.  An attempt without the sandbox happens only if the
    policy needs none, or if the policy denies no reads and the first attempt was allowed to
    bypass it (by rule or by an escalated request), or the sandboxed attempt was made before
    and somebody approved or the approval policy is to never ask. *)
Theorem attempts_authorised `{Unicode} `{ToolRuntime} turn approval_policy w pre a f post :
  (run turn approval_policy w).2 = pre ++ Attempted a f :: post →
  let requirement := effective_requirement turn approval_policy in
  match requirement with
  | RequirementForbidden _ => False
  | NeedsApproval _ _ => existsb approving pre = true
  | Skip _ _ => True
  end ∧
  (turn_strict_auto_review turn = true → count is_attempt pre < count reviewed_ok pre) ∧
  count is_attempt pre ≤ 1 ∧
  (attempt_sandbox_requested a = false →
     turn_should_sandbox turn = false ∨
     (has_denied_read_restrictions (turn_file_system turn) = false ∧
      (count is_attempt pre = 0 ∧
         (match requirement with Skip bypass _ => bypass = true | _ => False end ∨
          requires_escalated_permissions tool_sandbox_permissions = true) ∨
       count is_attempt pre = 1 ∧ (existsb approving pre = true ∨ approval_policy = Never)))).
Proof.
  intros Ht requirement. pose proof (run_spec turn approval_policy w) as Hshape.
  destruct (run turn approval_policy w) as [[r w'] t]. simpl in Ht.
  destruct (attempt_position turn approval_policy t pre a f post Hshape Ht)
    as [(-> & Hq & b & Hfirst)|(-> & t1 & b & f1 & t3 & -> & Hq1 & Hq3 & Hfirst & Hretry)]; fold requirement in Hfirst.
  - destruct (first_approved_events _ _ _ _ Hfirst) as (Hreq & _ & Hstrict).
    rewrite (count_quiet pre Hq). split_and!; [done| |lia|].
    { intros Hs. rewrite (Hstrict Hs). lia. }
    unfold initial_attempt, sandbox_override_for_first_attempt, unsandboxed_execution_allowed. fold requirement.
    destruct (has_denied_read_restrictions (turn_file_system turn)); cbn [negb make_attempt attempt_sandbox_requested];
      [by left|].
    destruct requirement as [[] ?|?|?]; try done; [by right; split; [done|]; left; split; [done|]; left|..];
      destruct (requires_escalated_permissions tool_sandbox_permissions) eqn:Ee; intros Hns; try (by left);
      right; (split; [done|]); left; (split; [done|]); by right.
  - destruct (first_approved_events _ _ _ _ Hfirst) as (Hreq & Happ & Hstrict).
    destruct Hretry as [_ Hretry].
    rewrite !count_events_app, !existsb_app, !count_cons, (count_quiet t1 Hq1), (count_quiet t3 Hq3). simpl.
    split_and!; [by destruct requirement; [..|rewrite Hreq|]| |lia|].
    + intros Hs. rewrite (Hstrict Hs). destruct Hretry as [[? _]|Hby]; [congruence|].
      destruct (approved_by_events _ _ Hby) as [_ Hc]. rewrite Hc by (by rewrite Hs). lia.
    + unfold retry_attempt. cbn [make_attempt attempt_sandbox_requested]. unfold unsandboxed_execution_allowed.
      destruct (has_denied_read_restrictions _); cbn [negb andb]; [by left|]. intros _. right. split; [done|]. right.
      split; [done|]. destruct Hretry as [(_ & Hb & _)|Hby].
      * unfold should_bypass_approval in Hb. destruct b; [left; by rewrite Happ|]. right. by destruct approval_policy.
      * left. destruct (approved_by_events _ _ Hby) as [-> _]. apply orb_true_r.
Qed.

(** A denial that the sandbox has to enforce: one of a path, a pattern or a directory that has
    a place on disk. *)
Definition enforceable_denial (p : FileSystemSandboxPolicy) : bool :=
  is_restricted p &&
  existsb (λ e, is_deny (access e) &&
    match entry_path e with Special (SpecialMinimal | SpecialUnknown _ _) => false | _ => true end) (entries p).

Lemma enforceable_denied_reads p : enforceable_denial p = true → has_denied_read_restrictions p = true.
Proof.
  unfold enforceable_denial, has_denied_read_restrictions. intros [-> (e & He & [Hd _]%andb_true_iff)%existsb_exists]%andb_true_iff.
  apply existsb_exists. eauto.
Qed.

Lemma denial_needs_sandbox p n managed :
  enforceable_denial p = true → should_require_platform_sandbox p n managed = true.
Proof.
  unfold enforceable_denial. intros [Hk (e & He & [Hd Hp]%andb_true_iff)%existsb_exists]%andb_true_iff.
  pose proof Hk as Hk'. unfold is_restricted in Hk'. apply bool_decide_eq_true in Hk'.
  unfold should_require_platform_sandbox. destruct managed; [done|]. rewrite Hk'.
  destruct (net_is_enabled n); [|done]. cbn [negb]. apply negb_true_iff, not_true_iff_false.
  unfold has_full_disk_write_access. rewrite Hk'. intros [_ Hn%negb_true_iff]%andb_true_iff.
  apply not_true_iff_false in Hn. apply Hn. unfold has_write_narrowing_entries. rewrite Hk. cbn [andb].
  apply existsb_exists. exists e. split; [done|]. unfold entry_narrows_write.
  destruct (access e) eqn:Ea; try done. cbn [can_write].
  assert (has_same_target_write_override p e = false) as Hov.
  { apply not_true_iff_false. intros (x & _ & [[_ Hlt%Nat.ltb_lt]%andb_true_iff _]%andb_true_iff)%existsb_exists.
    rewrite Ea in Hlt. destruct (access x); simpl in Hlt; lia. }
  rewrite Hov. destruct (entry_path e) as [q|g|[]]; done.
Qed.

(** Claim C29. Denied reads survive every attempt.  When the turn's policy denies reads of
    something that has a place on disk, every attempt at every tool that does not forbid
    sandboxes, the retry after approval included, runs under the platform sandbox with the
    turn's permissions and its helper program, whatever the tool asks for, the rules allow or
    the user approves. *)
Theorem denied_reads_kept `{Unicode} `{ToolRuntime} turn approval_policy w a f :
  enforceable_denial (turn_file_system turn) = true → sandbox_preference ≠ PreferForbid →
  Attempted a f ∈ (run turn approval_policy w).2 →
  attempt_sandbox a = LinuxSeccomp ∧ attempt_sandbox_requested a = true ∧
  attempt_permissions a = turn_profile turn ∧ attempt_linux_exe a = turn_linux_exe turn.
Proof.
  intros Hden Hpref (pre & post & Ht)%list_elem_of_split.
  pose proof (run_spec turn approval_policy w) as Hshape.
  destruct (run turn approval_policy w) as [[r w'] t]. simpl in Ht.
  assert (turn_should_sandbox turn = true) as Hs.
  { unfold turn_should_sandbox, should_sandbox. destruct sandbox_preference; [|done..]. by apply denial_needs_sandbox. }
  assert (∀ exe, exe = turn_linux_exe turn → ∀ b, b = true →
    let a := make_attempt turn b exe in
    attempt_sandbox a = LinuxSeccomp ∧ attempt_sandbox_requested a = true ∧
    attempt_permissions a = turn_profile turn ∧ attempt_linux_exe a = turn_linux_exe turn) as Hmake.
  { intros exe -> b ->. simpl. unfold select_initial. unfold turn_should_sandbox in Hs. by rewrite Hs. }
  pose proof (enforceable_denied_reads _ Hden) as Hdr.
  destruct (attempt_position turn approval_policy t pre a f post Hshape Ht) as [(-> & _)|(-> & _)].
  - apply Hmake; [done|]. unfold sandbox_override_for_first_attempt, unsandboxed_execution_allowed. by rewrite Hdr.
  - unfold retry_attempt, unsandboxed_execution_allowed. rewrite Hdr. by apply Hmake.
Qed.

(** ** A shell tool whose command the sandbox denies *)

Definition ascii_unicode : Unicode := ascii_only.

Definition denied_output : ExecToolCallOutput :=
  {| exit_code := 1; out_stdout := EmptyString; out_stderr := "permission denied"; aggregated_output := EmptyString |}.

Definition shell_tool (answer : ReviewDecision) : ToolRuntime :=
  {| World := unit; Out := string;
     exec_approval_requirement := None; tool_sandbox_permissions := UseDefault; sandbox_preference := PreferAuto;
     escalate_on_failure := true; tool_wants_no_sandbox_approval := wants_no_sandbox_approval;
     permission_request_payload := false;
     run_permission_request_hooks := λ w _, (w, None);
     start_approval := λ w _, (w, answer);
     guardian_rejection_message := λ w, (w, "rejected");
     guardian_timeout_message := "timed out";
     begin_network_approval := λ w _, (w, None);
     finish_network_approval := λ w, (w, Ok ());
     tool_run := λ w a, (w, match attempt_sandbox a with
                            | SandboxNone => Ok "done"
                            | _ => Err (SandboxDenied denied_output None)
                            end) |}.

Definition workspace_turn (strict : bool) (denied : list FileSystemSandboxEntry) : TurnContext :=
  {| turn_profile := Managed (ManagedRestricted (entries confined_policy ++ denied) None) NetRestricted;
     turn_network_proxy := false; turn_windows_level := LevelDisabled; turn_linux_exe := Some "/bin/codex";
     turn_routes_to_guardian := false; turn_strict_auto_review := strict |}.

Lemma attempts_authorised_witness :
  let u := ascii_unicode in let tool := shell_tool Approved in let turn := workspace_turn false [] in
  ∃ pre, (run turn OnFailure tt).2 = pre ++ [Attempted (retry_attempt turn) None] ∧
    attempt_sandbox (retry_attempt turn) = SandboxNone ∧ existsb approving pre = true.
Proof.
  intros u tool turn.
  set (pre := [Attempted (initial_attempt turn (Skip false None)) (Some (SandboxDenied denied_output None));
               Reviewed {| guardian_review := false; retry_reason := Some "command failed; retry without sandbox?";
                           approval_network_context := None |} Approved]).
  exists pre. assert ((run turn OnFailure tt).2 = pre ++ Attempted (retry_attempt turn) None :: []) as Ht by vm_refl.
  split_and!; [done|vm_refl|].
  destruct (attempts_authorised turn OnFailure (tt : @World tool) pre (retry_attempt turn) None [] Ht) as (_ & _ & _ & Hns).
  destruct Hns as [Hs|[_ [[Hz _]|[_ [Ha|Hnever]]]]];
    [vm_refl|by vm_compute in Hs|by vm_compute in Hz|exact Ha|discriminate].
Defined.

Lemma denied_reads_kept_witness :
  let u := ascii_unicode in let tool := shell_tool Approved in
  let turn := workspace_turn false [entry (FsPath {| rooted := true; names := ["secret"] |}) Deny] in
  ∃ a f, Attempted a f ∈ (run turn OnFailure tt).2 ∧ attempt_sandbox a = LinuxSeccomp.
Proof.
  intros u tool turn. exists (initial_attempt turn (Skip false None)), (Some (SandboxDenied denied_output None)).
  assert (Attempted (initial_attempt turn (Skip false None)) (Some (SandboxDenied denied_output None))
    ∈ (run turn OnFailure tt).2) as Hin by (apply list_elem_of_here).
  split; [done|].
  by destruct (denied_reads_kept turn OnFailure (tt : @World tool) _ _ ltac:(vm_refl) ltac:(done) Hin) as (? & _).
Defined.

(** ** The approval cache *)

Section cache.
Context {K Env : Type} (key_json : K → option string) (fetch : Env → Env * ReviewDecision).

Notation ApprovalStore := (gmap string ReviewDecision).

Definition store_get (store : ApprovalStore) (key : K) : option ReviewDecision :=
  key_json key ≫= λ s, store !! s.

Definition store_put (store : ApprovalStore) (key : K) (value : ReviewDecision) : ApprovalStore :=
  match key_json key with Some s => <[s := value]> store | None => store end.

Definition approved_for_session (store : ApprovalStore) (key : K) : bool :=
  match store_get store key with Some ApprovedForSession => true | _ => false end.

Definition with_cached_approval (store : ApprovalStore) (keys : list K) (w : Env) : ApprovalStore * Env * ReviewDecision :=
  match keys with
  | [] => let '(w, d) := fetch w in (store, w, d)
  | _ =>
      if forallb (approved_for_session store) keys then (store, w, ApprovedForSession)
      else
        let '(w, d) := fetch w in
        match d with
        | ApprovedForSession => (fold_left (λ s k, store_put s k ApprovedForSession) keys store, w, d)
        | _ => (store, w, d)
        end
  end.

Lemma puts_approved keys store s :
  (fold_left (λ s k, store_put s k ApprovedForSession) keys store) !! s =
  (if bool_decide (Some s ∈ (key_json <$> keys)) then Some ApprovedForSession else store !! s).
Proof.
  revert store. induction keys as [|k keys IH]; intros store; simpl; [done|].
  rewrite IH. unfold store_put.
  destruct (bool_decide (Some s ∈ key_json <$> keys)) eqn:E.
  - apply bool_decide_eq_true in E. rewrite bool_decide_true; [done|]. set_solver.
  - apply bool_decide_eq_false in E. destruct (key_json k) as [s'|] eqn:Ek.
    + destruct (decide (s' = s)) as [->|Hne].
      * rewrite lookup_insert_eq, bool_decide_true; [done|]. set_solver.
      * rewrite lookup_insert_ne by done. rewrite bool_decide_false; [done|]. set_solver.
    + rewrite bool_decide_false; [done|]. set_solver.
Qed.

(** Once a request is approved for the session, a later one for some of its keys is approved
    without asking, whatever was answered in between about other keys. *)
Lemma cached_approval_reused store keys w store' w' keys' w2 :
  with_cached_approval store keys w = (store', w', ApprovedForSession) → keys ≠ [] → keys' ≠ [] →
  Forall (λ k, is_Some (key_json k)) keys' → (∀ k, k ∈ keys' → k ∈ keys) →
  with_cached_approval store' keys' w2 = (store', w2, ApprovedForSession).
Proof.
  intros Hfirst Hne Hne' Hser Hsub.
  assert (forallb (approved_for_session store') keys' = true) as Hall.
  { apply forallb_forall. intros k Hk%list_elem_of_In. unfold with_cached_approval in Hfirst.
    destruct keys as [|k0 keys]; [done|]. rewrite Forall_forall in Hser. destruct (Hser k Hk) as [s Hs].
    unfold approved_for_session, store_get. rewrite Hs. cbn [mbind option_bind].
    destruct (forallb _ (k0 :: keys)) eqn:Ef.
    - injection Hfirst as <- _. rewrite forallb_forall in Ef.
      specialize (Ef k ltac:(apply list_elem_of_In; auto)). unfold approved_for_session, store_get in Ef.
      by rewrite Hs in Ef.
    - destruct (fetch w) as [w1 d]. destruct d; simplify_eq. rewrite puts_approved, bool_decide_true; [done|].
      rewrite <-Hs. apply list_elem_of_fmap. eauto. }
  unfold with_cached_approval. destruct keys'; [done|]. by rewrite Hall.
Qed.
End cache.
