(* ===== verification/HeadTail.v ===== *)
(** * The capped output buffer of running commands

    codex-rs/core/src/unified_exec/head_tail_buffer.rs.  Bytes are characters, a chunk is a
    list of them, the two deques are lists of chunks; counters are [usize] values with the
    saturating operations of the source. *)

From stdpp Require Import base list.
From S2P Require Import Prelude Str OutputTrunc.
From Stdlib Require Import Lia ZifyN.

Open Scope N_scope.

Definition UNIFIED_EXEC_OUTPUT_MAX_BYTES : N := 1024 * 1024.

Notation chunk := (list ascii).

Definition size (c : chunk) : N := N.of_nat (length c).

Record HeadTailBuffer := {
  max_bytes : N;
  head_budget : N;
  tail_budget : N;
  head : list chunk;
  tail : list chunk;
  head_bytes : N;
  tail_bytes : N;
  omitted_bytes : N;
}.

Definition buffer_new (max_bytes : N) : HeadTailBuffer :=
  let head_budget := max_bytes / 2 in
  {| max_bytes := max_bytes; head_budget := head_budget; tail_budget := max_bytes - head_budget;
     head := []; tail := []; head_bytes := 0; tail_bytes := 0; omitted_bytes := 0 |}.

Definition buffer_default : HeadTailBuffer := buffer_new UNIFIED_EXEC_OUTPUT_MAX_BYTES.

Definition retained_bytes (b : HeadTailBuffer) : N := sat_add (head_bytes b) (tail_bytes b).

Definition set_tail (b : HeadTailBuffer) (tail : list chunk) (tail_bytes omitted_bytes : N) : HeadTailBuffer :=
  {| max_bytes := max_bytes b; head_budget := head_budget b; tail_budget := tail_budget b; head := head b;
     tail := tail; head_bytes := head_bytes b; tail_bytes := tail_bytes; omitted_bytes := omitted_bytes |}.

Definition add_omitted (b : HeadTailBuffer) (n : N) : HeadTailBuffer :=
  set_tail b (tail b) (tail_bytes b) (sat_add (omitted_bytes b) n).

(** The loop of [trim_tail_to_budget]: the tail, its size and the omitted bytes. *)
Fixpoint trim_loop (excess : N) (tail : list chunk) (tail_bytes omitted : N) : list chunk * N * N :=
  match tail with
  | [] => ([], tail_bytes, omitted)
  | front :: rest =>
      if excess =? 0 then (tail, tail_bytes, omitted)
      else if size front <=? excess then
        trim_loop (excess - size front) rest (tail_bytes - size front) (sat_add omitted (size front))
      else (drop (N.to_nat excess) front :: rest, tail_bytes - excess, sat_add omitted excess)
  end.

Definition trim_tail_to_budget (b : HeadTailBuffer) : HeadTailBuffer :=
  let '(tail, tail_bytes, omitted) :=
    trim_loop (tail_bytes b - tail_budget b) (tail b) (tail_bytes b) (omitted_bytes b) in
  set_tail b tail tail_bytes omitted.

Definition push_to_tail (b : HeadTailBuffer) (c : chunk) : HeadTailBuffer :=
  if tail_budget b =? 0 then add_omitted b (size c)
  else if tail_budget b <=? size c then
    let kept := drop (N.to_nat (size c - tail_budget b)) c in
    let dropped := size c - size kept in
    set_tail b [kept] (size kept) (sat_add (sat_add (omitted_bytes b) (tail_bytes b)) dropped)
  else
    trim_tail_to_budget (set_tail b (tail b ++ [c]) (sat_add (tail_bytes b) (size c)) (omitted_bytes b)).

Definition push_head (b : HeadTailBuffer) (c : chunk) : HeadTailBuffer :=
  {| max_bytes := max_bytes b; head_budget := head_budget b; tail_budget := tail_budget b; head := head b ++ [c];
     tail := tail b; head_bytes := sat_add (head_bytes b) (size c); tail_bytes := tail_bytes b;
     omitted_bytes := omitted_bytes b |}.

Definition push_chunk (b : HeadTailBuffer) (c : chunk) : HeadTailBuffer :=
  if max_bytes b =? 0 then add_omitted b (size c)
  else if head_bytes b <? head_budget b then
    let remaining_head := head_budget b - head_bytes b in
    if size c <=? remaining_head then push_head b c
    else
      let head_part := take (N.to_nat remaining_head) c in
      let tail_part := drop (N.to_nat remaining_head) c in
      let b := match head_part with [] => b | _ => push_head b head_part end in
      push_to_tail b tail_part
  else push_to_tail b c.

Definition snapshot_chunks (b : HeadTailBuffer) : list chunk := head b ++ tail b.

Definition to_bytes (b : HeadTailBuffer) : chunk := concat (head b) ++ concat (tail b).

Definition drain_chunks (b : HeadTailBuffer) : list chunk * HeadTailBuffer :=
  (head b ++ tail b,
   {| max_bytes := max_bytes b; head_budget := head_budget b; tail_budget := tail_budget b; head := []; tail := [];
      head_bytes := 0; tail_bytes := 0; omitted_bytes := 0 |}).

(** ** What the buffer holds *)

(** The last [n] bytes. *)
Definition last_bytes (n : N) (s : chunk) : chunk := drop (length s - N.to_nat n) s.

(** The buffer as a function of all bytes received since it was last empty. *)
Record Holds (b : HeadTailBuffer) (all : chunk) : Prop := {
  budgets : head_budget b = max_bytes b / 2 ∧ tail_budget b = max_bytes b - head_budget b;
  small : max_bytes b < 2 ^ 63;
  holds_head : concat (head b) = take (N.to_nat (head_budget b)) all;
  holds_tail : concat (tail b) = last_bytes (tail_budget b) (drop (N.to_nat (head_budget b)) all);
  counts_head : head_bytes b = size (concat (head b));
  counts_tail : tail_bytes b = size (concat (tail b));
  counts_omitted : omitted_bytes b = N.min usize_max (size all - size (to_bytes b));
}.

Lemma size_app c c' : size (c ++ c') = size c + size c'.
Proof. unfold size. rewrite length_app. lia. Qed.

Lemma last_bytes_size n s : size (last_bytes n s) = N.min n (size s).
Proof. unfold last_bytes, size. rewrite length_drop. lia. Qed.

(** The last bytes of a longer text come from the last bytes and the addition. *)
Lemma last_bytes_app n s c : last_bytes n (last_bytes n s ++ c) = last_bytes n (s ++ c).
Proof.
  unfold last_bytes. rewrite !length_app, length_drop.
  set (k := (length s - N.to_nat n)%nat).
  replace (drop k s ++ c) with (drop k (s ++ c)) by (rewrite drop_app_le; [done|lia]).
  rewrite drop_drop. f_equal. lia.
Qed.

Lemma last_bytes_all n s : size s <= n → last_bytes n s = s.
Proof. unfold last_bytes, size. intros Hn. replace (length s - N.to_nat n)%nat with 0%nat by lia. done. Qed.

Lemma tail_trim_spec excess tail tb om :
  tb = size (concat tail) → excess <= tb → om <= usize_max →
  ∃ tail', trim_loop excess tail tb om = (tail', tb - excess, N.min usize_max (om + excess)) ∧
    concat tail' = drop (N.to_nat excess) (concat tail).
Proof.
  revert excess tb om. induction tail as [|c tail IH]; intros excess tb om Htb Hex Hom; simpl.
  - unfold size in Htb. simpl in Htb. assert (excess = 0) as -> by lia. exists [].
    rewrite N.sub_0_r, N.add_0_r, N.min_r by lia. done.
  - simpl in Htb. rewrite size_app in Htb. destruct (N.eqb_spec excess 0) as [->|Hne].
    + exists (c :: tail). rewrite N.sub_0_r, N.add_0_r, N.min_r by lia. done.
    + destruct (N.leb_spec (size c) excess) as [Hle|Hgt].
      * destruct (IH (excess - size c) (tb - size c) (sat_add om (size c))) as (tail' & -> & Hc);
          [lia|lia|unfold sat_add; lia|].
        exists tail'. split; [f_equal; [f_equal; lia|unfold sat_add; lia]|]. rewrite Hc.
        rewrite drop_app_ge by (unfold size in *; lia). f_equal. unfold size. lia.
      * eexists. split; [reflexivity|]. simpl. rewrite drop_app_le; [done|unfold size in *; lia].
Qed.

Lemma holds_sizes b all :
  Holds b all →
  head_bytes b = N.min (head_budget b) (size all) ∧
  tail_bytes b = N.min (tail_budget b) (size all - head_budget b) ∧
  size (to_bytes b) = head_bytes b + tail_bytes b.
Proof.
  intros Hb. unfold to_bytes. rewrite size_app, <-(counts_head _ _ Hb), <-(counts_tail _ _ Hb).
  split_and!; [| |done].
  - rewrite (counts_head _ _ Hb), (holds_head _ _ Hb). unfold size. rewrite length_take. lia.
  - rewrite (counts_tail _ _ Hb), (holds_tail _ _ Hb), last_bytes_size. unfold size. rewrite length_drop. lia.
Qed.

(** Bytes beyond the head budget go to the tail. *)
Lemma push_to_tail_holds b all c :
  Holds b all → head_budget b <= size all → Holds (push_to_tail b c) (all ++ c).
Proof.
  intros Hb Hfull. pose proof (budgets _ _ Hb) as [Hh Ht]. pose proof (small _ _ Hb) as Hsm.
  destruct (holds_sizes _ _ Hb) as (Hhb & Htb & Hsz). pose proof (counts_omitted _ _ Hb) as Hom. rewrite Hsz in Hom.
  assert (concat (head b) = take (N.to_nat (head_budget b)) (all ++ c)) as Hhead
    by (rewrite (holds_head _ _ Hb), take_app_le; [done|unfold size in *; lia]).
  assert (drop (N.to_nat (head_budget b)) (all ++ c) = drop (N.to_nat (head_budget b)) all ++ c) as Hdrop
    by (rewrite drop_app_le; [done|unfold size in *; lia]).
  assert (last_bytes (tail_budget b) (drop (N.to_nat (head_budget b)) (all ++ c)) =
          last_bytes (tail_budget b) (concat (tail b) ++ c)) as Htail
    by (by rewrite Hdrop, (holds_tail _ _ Hb), last_bytes_app).
  unfold push_to_tail. destruct (N.eqb_spec (tail_budget b) 0) as [Hz|Hnz]; [|destruct (N.leb_spec (tail_budget b) (size c)) as [Hle|Hlt]].
  - assert (concat (tail b) = []) as Hnil.
    { apply length_zero_iff_nil. pose proof (counts_tail _ _ Hb). unfold size in *. lia. }
    split; simpl; try done; try apply Hb.
    + rewrite Htail, Hnil, Hz. unfold last_bytes. simpl. by rewrite Nat.sub_0_r, drop_all.
    + unfold to_bytes in *. simpl. rewrite Hsz, size_app. unfold sat_add. lia.
  - set (kept := drop (N.to_nat (size c - tail_budget b)) c).
    assert (size kept = tail_budget b) as Hk by (unfold kept, size in *; rewrite length_drop; lia).
    split; simpl; rewrite ?app_nil_r; try done; try apply Hb.
    + rewrite Htail. unfold last_bytes, kept. rewrite length_app, drop_app_ge by (unfold size in *; lia).
      f_equal. unfold size in *. lia.
    + unfold to_bytes. simpl. rewrite app_nil_r, !size_app, Hk, <-(counts_head _ _ Hb). unfold sat_add. lia.
  - unfold trim_tail_to_budget. cbn [set_tail tail tail_bytes tail_budget omitted_bytes].
    assert (sat_add (tail_bytes b) (size c) = size (concat (tail b ++ [c]))) as Hsum.
    { rewrite concat_app. simpl. rewrite app_nil_r, size_app, <-(counts_tail _ _ Hb). unfold sat_add, usize_max. lia. }
    destruct (tail_trim_spec (sat_add (tail_bytes b) (size c) - tail_budget b) (tail b ++ [c])
      (sat_add (tail_bytes b) (size c)) (omitted_bytes b)) as (tail' & -> & Hc); [done|lia|lia|].
    rewrite concat_app in Hc, Hsum. simpl in Hc, Hsum. rewrite app_nil_r in Hc, Hsum. rewrite size_app in Hsum.
    assert (concat tail' = last_bytes (tail_budget b) (concat (tail b) ++ c)) as Hc'.
    { rewrite Hc. unfold last_bytes. f_equal. rewrite length_app. rewrite Hsum. unfold size. lia. }
    assert (size (concat tail') = N.min (tail_budget b) (size (concat (tail b)) + size c)) as Hst
      by (rewrite Hc', last_bytes_size, size_app; lia).
    split; simpl; try done; try apply Hb; [by rewrite Hc', Htail|rewrite Hst, Hsum; lia|].
    unfold to_bytes. simpl. rewrite !size_app, Hst, <-(counts_head _ _ Hb), <-(counts_tail _ _ Hb).
    rewrite <-(counts_tail _ _ Hb) in Hsum. lia.
Qed.

Lemma push_head_holds b all c :
  Holds b all → size all + size c <= head_budget b → Holds (push_head b c) (all ++ c).
Proof.
  intros Hb Hfit. pose proof (budgets _ _ Hb) as [Hh Ht]. pose proof (small _ _ Hb) as Hsm.
  destruct (holds_sizes _ _ Hb) as (Hhb & Htb & Hsz). pose proof (counts_omitted _ _ Hb) as Hom. rewrite Hsz in Hom.
  assert (head_budget b <= max_bytes b) as Hhm by (rewrite Hh; apply N.Div0.div_le_upper_bound; lia).
  assert (∀ n s, size s <= n → drop (N.to_nat n) s = @nil ascii) as Hd
    by (intros n s ?; apply drop_ge; unfold size in *; lia).
  assert (∀ n s, size s <= n → take (N.to_nat n) s = (s : chunk)) as Htk
    by (intros n s ?; apply take_ge; unfold size in *; lia).
  split; simpl; try apply Hb.
  - rewrite concat_app, (holds_head _ _ Hb). simpl. rewrite app_nil_r, !Htk by (rewrite ?size_app; lia). done.
  - rewrite (holds_tail _ _ Hb), !Hd by (rewrite ?size_app; lia). done.
  - rewrite concat_app. simpl. rewrite app_nil_r, size_app, <-(counts_head _ _ Hb). unfold sat_add, usize_max. lia.
  - unfold to_bytes. simpl. rewrite concat_app. simpl. rewrite app_nil_r, !size_app.
    rewrite <-(counts_head _ _ Hb), <-(counts_tail _ _ Hb). lia.
Qed.

Lemma push_chunk_holds b all c : Holds b all → Holds (push_chunk b c) (all ++ c).
Proof.
  intros Hb. pose proof (budgets _ _ Hb) as [Hh Ht]. destruct (holds_sizes _ _ Hb) as (Hhb & Htb & Hsz).
  unfold push_chunk. destruct (N.eqb_spec (max_bytes b) 0) as [Hz|Hnz].
  - assert (head_budget b = 0) as Hh0 by (by rewrite Hh, Hz).
    assert (add_omitted b (size c) = push_to_tail b c) as ->.
    { unfold push_to_tail. by rewrite Ht, Hh0, Hz. }
    apply push_to_tail_holds; [done|lia].
  - destruct (N.ltb_spec (head_bytes b) (head_budget b)) as [Hlt|Hge]; [|by apply push_to_tail_holds; [|lia]].
    destruct (N.leb_spec (size c) (head_budget b - head_bytes b)) as [Hle|Hgt]; [by apply push_head_holds; [|lia]|].
    set (n := N.to_nat (head_budget b - head_bytes b)). rewrite <-(take_drop n c) at 3. rewrite app_assoc.
    assert (size (take n c) = head_budget b - size all) as Hn by (unfold n, size in *; rewrite length_take; lia).
    assert (take n c ≠ []) as Hne by (intros Hnil; rewrite Hnil in Hn; unfold size in *; simpl in *; lia).
    destruct (take n c) as [|x l] eqn:E; [done|]. rewrite <-E in *.
    apply push_to_tail_holds; [apply push_head_holds; [done|lia]|]. simpl. rewrite size_app. lia.
Qed.

Lemma buffer_new_holds n : n < 2 ^ 63 → Holds (buffer_new n) [].
Proof. intros Hn. split; simpl; try done. by rewrite take_nil. by rewrite drop_nil. Qed.

(** Claim C39. However a command's output is cut into chunks, the buffer keeps its first half
    and its last half of the budget: the retained bytes are the beginning of the output, up
    to half the limit, followed by its end, the two never overlap, together they stay within
    the limit, nothing is dropped while the output fits, and the omitted bytes are counted
    exactly (up to the largest [usize]), for limits below 2^63.  Draining returns these bytes
    and starts afresh. *)
Theorem head_tail_spec limit chunks :
  limit < 2 ^ 63 →
  let b := fold_left push_chunk chunks (buffer_new limit) in
  let output := concat chunks in
  let h := limit / 2 in
  to_bytes b = take (N.to_nat h) output ++ last_bytes (limit - h) (drop (N.to_nat h) output) ∧
  concat (snapshot_chunks b) = to_bytes b ∧
  retained_bytes b = N.min limit (size output) ∧
  omitted_bytes b = N.min usize_max (size output - limit) ∧
  (size output <= limit → to_bytes b = output) ∧
  concat (drain_chunks b).1 = to_bytes b ∧ (drain_chunks b).2 = buffer_new limit.
Proof.
  intros Hl b output h.
  assert (∀ cs b0 all, Holds b0 all → Holds (fold_left push_chunk cs b0) (all ++ concat cs) ∧
    max_bytes (fold_left push_chunk cs b0) = max_bytes b0) as Hall.
  { induction cs as [|c cs IH]; intros b0 all Hb0; simpl; [by rewrite app_nil_r|].
    destruct (IH (push_chunk b0 c) (all ++ c) (push_chunk_holds _ _ _ Hb0)) as [HH Hm]. rewrite <-app_assoc in HH.
    split; [done|]. rewrite Hm. unfold push_chunk, push_to_tail, trim_tail_to_budget. repeat case_match; done. }
  destruct (Hall chunks (buffer_new limit) [] (buffer_new_holds _ Hl)) as [Hb Hm].
  fold b in Hb, Hm. fold output in Hb. simpl in Hb, Hm. pose proof (budgets _ _ Hb) as [Hh Ht]. rewrite Hm in Hh, Ht.
  fold h in Hh. rewrite Hh in Ht. destruct (holds_sizes _ _ Hb) as (Hhb & Htb & Hsz). rewrite ?Hh, ?Ht in Hhb, Htb.
  assert (to_bytes b = take (N.to_nat h) output ++ last_bytes (limit - h) (drop (N.to_nat h) output)) as Hbytes
    by (unfold to_bytes; by rewrite (holds_head _ _ Hb), (holds_tail _ _ Hb), Hh, Ht).
  assert (h <= limit) as Hle by (apply N.Div0.div_le_upper_bound; lia).
  split_and!; [done|by unfold snapshot_chunks, to_bytes; rewrite concat_app| | | | |].
  - unfold retained_bytes, sat_add, usize_max. lia.
  - rewrite (counts_omitted _ _ Hb), Hsz. f_equal. lia.
  - intros Hfit. rewrite Hbytes, last_bytes_all; [apply take_drop|]. unfold size in *. rewrite length_drop. lia.
  - unfold drain_chunks, to_bytes. simpl. by rewrite concat_app.
  - unfold drain_chunks, buffer_new. simpl. by rewrite Hm, Hh, Ht.
Qed.

Lemma head_tail_spec_witness :
  let b := fold_left push_chunk [as_bytes "0123456789"; as_bytes "ab"] (buffer_new 10) in
  to_bytes b = as_bytes "01234789ab" ∧ omitted_bytes b = 2.
Proof.
  destruct (head_tail_spec 10 [as_bytes "0123456789"; as_bytes "ab"]) as (Hb & _ & _ & Ho & _); [lia|].
  split; [rewrite Hb|rewrite Ho]; vm_refl.
Defined.
