(* ===== verification/IpAddr.v ===== *)
(** * IP addresses

    The textual parser of Rust's [std::net] ([str::parse::<IpAddr>]) and the address classes
    it offers, as codex-rs/network-proxy uses them, and the test of
    network-proxy/src/policy.rs for addresses that are not public.

    An IPv4 address is its four octets, an IPv6 address its eight segments.  A reading
    function takes the unread text and returns what it read with the rest; [None] leaves the
    text where it was. *)

From stdpp Require Import base list strings.
From S2P Require Import Prelude Str.
From Stdlib Require Import Lia NArith.

Local Open Scope N_scope.

Record Ipv4Addr := { oct1 : N; oct2 : N; oct3 : N; oct4 : N }.

Inductive IpAddr :=
| V4 (ip : Ipv4Addr)
| V6 (segments : list N).

#[export] Instance Ipv4Addr_eq_dec : EqDecision Ipv4Addr.
Proof. solve_decision. Defined.
#[export] Instance IpAddr_eq_dec : EqDecision IpAddr.
Proof. solve_decision. Defined.

Definition v4 (a b c d : N) : Ipv4Addr := {| oct1 := a; oct2 := b; oct3 := c; oct4 := d |}.

(** ** Reading addresses *)

(** [char::to_digit] for a radix up to sixteen. *)
Definition to_digit (radix : N) (c : ascii) : option N :=
  let v := byte_val c in
  let d := if is_ascii_digit c then Some (v - 48)
           else if is_ascii_lower c then Some (v - 87)
           else if is_ascii_upper c then Some (v - 55)
           else None in
  d ≫= λ d, if d <? radix then Some d else None.

(** The loop of [read_number]: the value, the number of digits and the rest; more than
    [max_digits] digits fail. *)
Fixpoint number_loop (radix : N) (max_digits count : nat) (result : N) (s : string) : option (N * nat * string) :=
  match s with
  | EmptyString => Some (result, count, EmptyString)
  | String c rest =>
      match to_digit radix c with
      | None => Some (result, count, s)
      | Some d =>
          if decide (max_digits < S count)%nat then None
          else number_loop radix max_digits (S count) (result * radix + d) rest
      end
  end.

Definition peek_zero (s : string) : bool :=
  match s with String c _ => byte_eqb c "0" | EmptyString => false end.

Definition read_number (radix : N) (max_digits : nat) (allow_zero_prefix : bool) (limit : N) (s : string) :
    option (N * string) :=
  match number_loop radix max_digits 0 0 s with
  | None => None
  | Some (result, count, rest) =>
      if decide (count = 0)%nat then None
      else if negb allow_zero_prefix && peek_zero s && bool_decide (1 < count)%nat then None
      else if result <=? limit then Some (result, rest) else None
  end.

Definition read_given_char (c : ascii) (s : string) : option string :=
  match s with
  | String a rest => if byte_eqb a c then Some rest else None
  | EmptyString => None
  end.

(** [read_separator]: the separator comes before every part but the first. *)
Definition read_separator {A} (sep : ascii) (index : nat) (inner : string → option (A * string)) (s : string) :
    option (A * string) :=
  match index with
  | O => inner s
  | S _ => read_given_char sep s ≫= inner
  end.

Definition read_octet (index : nat) (s : string) : option (N * string) :=
  read_separator "." index (read_number 10 3 false 255) s.

Definition read_ipv4_addr (s : string) : option (Ipv4Addr * string) :=
  '(a, s) ← read_octet 0 s;
  '(b, s) ← read_octet 1 s;
  '(c, s) ← read_octet 2 s;
  '(d, s) ← read_octet 3 s;
  Some (v4 a b c d, s).

(** [read_groups] for the groups [i], [i + 1], ... of [limit]: the groups read, whether they
    end with an embedded IPv4 address, and the rest. *)
Fixpoint read_groups (left i : nat) (s : string) : list N * bool * string :=
  match left with
  | O => ([], false, s)
  | S left' =>
      match (match left' with O => None | S _ => read_separator ":" i read_ipv4_addr s end) with
      | Some (ip, rest) => ([oct1 ip * 256 + oct2 ip; oct3 ip * 256 + oct4 ip], true, rest)
      | None =>
          match read_separator ":" i (read_number 16 4 true 65535) s with
          | None => ([], false, s)
          | Some (g, rest) =>
              let '(gs, ipv4, rest) := read_groups left' (S i) rest in (g :: gs, ipv4, rest)
          end
      end
  end.

Definition read_ipv6_addr (s : string) : option (list N * string) :=
  let '(head, head_ipv4, s) := read_groups 8 0 s in
  if decide (length head = 8)%nat then Some (head, s)
  else if head_ipv4 then None
  else
    s ← read_given_char ":" s;
    s ← read_given_char ":" s;
    let '(tail, _, s) := read_groups (8 - (length head + 1)) 0 s in
    Some (head ++ replicate (8 - length head - length tail) 0 ++ tail, s).

Definition read_ip_addr (s : string) : option (IpAddr * string) :=
  match read_ipv4_addr s with
  | Some (ip, rest) => Some (V4 ip, rest)
  | None => '(segments, rest) ← read_ipv6_addr s; Some (V6 segments, rest)
  end.

(** [str::parse::<IpAddr>]: nothing may be left. *)
Definition parse_ip (s : string) : option IpAddr :=
  match read_ip_addr s with
  | Some (ip, EmptyString) => Some ip
  | _ => None
  end.

(** ** Address classes of the standard library *)

Definition ipv4_is_loopback (ip : Ipv4Addr) : bool := oct1 ip =? 127.
Definition ipv4_is_private (ip : Ipv4Addr) : bool :=
  (oct1 ip =? 10) || ((oct1 ip =? 172) && (16 <=? oct2 ip) && (oct2 ip <=? 31)) ||
  ((oct1 ip =? 192) && (oct2 ip =? 168)).
Definition ipv4_is_link_local (ip : Ipv4Addr) : bool := (oct1 ip =? 169) && (oct2 ip =? 254).
Definition ipv4_is_unspecified (ip : Ipv4Addr) : bool := bool_decide (ip = v4 0 0 0 0).
Definition ipv4_is_multicast (ip : Ipv4Addr) : bool := (224 <=? oct1 ip) && (oct1 ip <=? 239).
Definition ipv4_is_broadcast (ip : Ipv4Addr) : bool := bool_decide (ip = v4 255 255 255 255).

Definition ipv6_is_loopback (segments : list N) : bool := bool_decide (segments = [0; 0; 0; 0; 0; 0; 0; 1]).
Definition ipv6_is_unspecified (segments : list N) : bool := bool_decide (segments = replicate 8 0).
Definition first_segment (segments : list N) : N := default 0 (head segments).
Definition ipv6_is_multicast (segments : list N) : bool := N.land (first_segment segments) 0xff00 =? 0xff00.
Definition ipv6_is_unique_local (segments : list N) : bool := N.land (first_segment segments) 0xfe00 =? 0xfc00.
Definition ipv6_is_unicast_link_local (segments : list N) : bool := N.land (first_segment segments) 0xffc0 =? 0xfe80.

(** [Ipv6Addr::to_ipv4]: the compatible and the mapped addresses. *)
Definition to_ipv4 (segments : list N) : option Ipv4Addr :=
  match segments with
  | [0; 0; 0; 0; 0; f; g; h] =>
      if (f =? 0) || (f =? 0xffff)
      then Some (v4 (N.shiftr g 8) (N.land g 255) (N.shiftr h 8) (N.land h 255))
      else None
  | _ => None
  end.

Definition ip_is_loopback (ip : IpAddr) : bool :=
  match ip with V4 ip => ipv4_is_loopback ip | V6 segments => ipv6_is_loopback segments end.

(** ** policy.rs *)

(** [u32::from] *)
Definition u32_of (ip : Ipv4Addr) : N :=
  N.shiftl (oct1 ip) 24 + N.shiftl (oct2 ip) 16 + N.shiftl (oct3 ip) 8 + oct4 ip.

Definition u32_max : N := 2 ^ 32 - 1.

(** [u32::MAX << k] drops what leaves the 32 bits. *)
Definition ipv4_in_cidr (ip base : Ipv4Addr) (prefix : N) : bool :=
  let mask := if prefix =? 0 then 0 else N.land (N.shiftl u32_max (32 - prefix)) u32_max in
  N.land (u32_of ip) mask =? N.land (u32_of base) mask.

Definition is_non_public_ipv4 (ip : Ipv4Addr) : bool :=
  ipv4_is_loopback ip || ipv4_is_private ip || ipv4_is_link_local ip || ipv4_is_unspecified ip ||
  ipv4_is_multicast ip || ipv4_is_broadcast ip ||
  ipv4_in_cidr ip (v4 0 0 0 0) 8 || ipv4_in_cidr ip (v4 100 64 0 0) 10 || ipv4_in_cidr ip (v4 192 0 0 0) 24 ||
  ipv4_in_cidr ip (v4 192 0 2 0) 24 || ipv4_in_cidr ip (v4 198 18 0 0) 15 || ipv4_in_cidr ip (v4 198 51 100 0) 24 ||
  ipv4_in_cidr ip (v4 203 0 113 0) 24 || ipv4_in_cidr ip (v4 240 0 0 0) 4.

Definition is_non_public_ipv6 (segments : list N) : bool :=
  match to_ipv4 segments with
  | Some ip => is_non_public_ipv4 ip || ipv6_is_loopback segments
  | None =>
      ipv6_is_loopback segments || ipv6_is_unspecified segments || ipv6_is_multicast segments ||
      ipv6_is_unique_local segments || ipv6_is_unicast_link_local segments
  end.

Definition is_non_public_ip (ip : IpAddr) : bool :=
  match ip with V4 ip => is_non_public_ipv4 ip | V6 segments => is_non_public_ipv6 segments end.

Example parse_ip_examples :
  parse_ip "127.0.0.1" = Some (V4 (v4 127 0 0 1)) ∧ parse_ip "127.0.0.01" = None ∧ parse_ip "1.2.3" = None ∧
  parse_ip "::1" = Some (V6 [0; 0; 0; 0; 0; 0; 0; 1]) ∧
  parse_ip "2001:db8::7" = Some (V6 [0x2001; 0xdb8; 0; 0; 0; 0; 0; 7]) ∧
  parse_ip "::ffff:10.0.0.1" = Some (V6 [0; 0; 0; 0; 0; 0xffff; 0xa00; 1]) ∧
  parse_ip "1:2:3:4:5:6:7::" = Some (V6 [1; 2; 3; 4; 5; 6; 7; 0]) ∧ parse_ip "1::2::3" = None ∧ parse_ip "fe80::1%eth0" = None.
Proof. split_and!; reflexivity. Qed.

(** ** Well-formed addresses *)

Definition ipv4_ok (ip : Ipv4Addr) : Prop := oct1 ip < 256 ∧ oct2 ip < 256 ∧ oct3 ip < 256 ∧ oct4 ip < 256.

Definition ip_ok (ip : IpAddr) : Prop :=
  match ip with
  | V4 ip => ipv4_ok ip
  | V6 segments => length segments = 8%nat ∧ Forall (λ g, g < 65536) segments
  end.

Lemma read_number_limit radix k zero limit s n rest :
  read_number radix k zero limit s = Some (n, rest) → n <= limit.
Proof.
  unfold read_number. destruct (number_loop _ _ _ _ _) as [[[r c] t]|]; [|done].
  destruct (decide _); [done|]. destruct (_ && _ && _); [done|].
  destruct (N.leb_spec r limit); [|done]. by intros [= <- _].
Qed.

Lemma read_separator_inv {A} sep i (inner : string → option (A * string)) s x :
  read_separator sep i inner s = Some x → ∃ t, inner t = Some x.
Proof. destruct i; simpl; [eauto|]. intros (t & _ & ?)%bind_Some. eauto. Qed.

Lemma read_ipv4_ok s ip rest : read_ipv4_addr s = Some (ip, rest) → ipv4_ok ip.
Proof.
  assert (∀ i t n t', read_octet i t = Some (n, t') → n < 256) as Ho.
  { intros i t n t' [u Hu%read_number_limit]%read_separator_inv. lia. }
  unfold read_ipv4_addr. intros ([a s1] & Ha & ([b s2] & Hb & ([c s3] & Hc & ([d s4] & Hd & [= <- _])%bind_Some)%bind_Some)%bind_Some)%bind_Some.
  unfold ipv4_ok. simpl. split_and!; by eapply Ho.
Qed.

Lemma read_groups_ok left : ∀ i s gs b rest,
  read_groups left i s = (gs, b, rest) → (length gs ≤ left)%nat ∧ Forall (λ g, g < 65536) gs.
Proof.
  induction left as [|left IH]; intros i s gs b rest; cbn [read_groups].
  { intros [= <- _ _]. split; [simpl; lia|constructor]. }
  destruct (match left with O => None | _ => _ end) as [[ip t]|] eqn:E4.
  - intros [= <- _ _]. destruct left; [done|]. apply read_separator_inv in E4 as [u Hip%read_ipv4_ok]. destruct Hip as (?&?&?&?).
    split; [simpl; lia|]. repeat constructor; lia.
  - destruct (read_separator ":" i (read_number 16 4 true 65535) s) as [[g t]|] eqn:Eg.
    2:{ intros [= <- _ _]. split; [simpl; lia|constructor]. }
    destruct (read_groups left (S i) t) as [[gs' b'] r'] eqn:Er. intros [= <- _ _].
    apply read_separator_inv in Eg as [u Hg%read_number_limit]. destruct (IH _ _ _ _ _ Er).
    split; [simpl; lia|]. constructor; [lia|done].
Qed.

Lemma read_ipv6_ok s gs rest : read_ipv6_addr s = Some (gs, rest) → length gs = 8%nat ∧ Forall (λ g, g < 65536) gs.
Proof.
  unfold read_ipv6_addr. destruct (read_groups 8 0 s) as [[h b] t] eqn:Eh.
  apply read_groups_ok in Eh as [Hl Hh]. destruct (decide _) as [H8|H8]; [by intros [= <- _]|].
  destruct b; [done|]. intros (s1 & _ & (s2 & _ & Hr)%bind_Some)%bind_Some.
  destruct (read_groups (8 - (length h + 1)) 0 s2) as [[tl ?] r] eqn:Et.
  apply read_groups_ok in Et as [Hl' Ht]. injection Hr as <- _. split.
  - rewrite !length_app, length_replicate. lia.
  - rewrite !Forall_app. split_and!; [done| |done]. apply Forall_replicate. lia.
Qed.

Lemma parse_ip_ok s ip : parse_ip s = Some ip → ip_ok ip.
Proof.
  unfold parse_ip, read_ip_addr. destruct (read_ipv4_addr s) as [[i [|]]|] eqn:E; try done.
  - intros [= <-]. by apply read_ipv4_ok in E.
  - destruct (read_ipv6_addr s) as [[gs [|]]|] eqn:E6; simpl; try done. intros [= <-]. by apply read_ipv6_ok in E6.
Qed.

(** ** The ranges that are not public *)

(** The IPv4 ranges, as first and last addresses, in order. *)
Definition non_public_ranges : list (Ipv4Addr * Ipv4Addr) :=
  [ (v4 0 0 0 0, v4 0 255 255 255);         (* this network *)
    (v4 10 0 0 0, v4 10 255 255 255);       (* private *)
    (v4 100 64 0 0, v4 100 127 255 255);    (* carrier-grade NAT *)
    (v4 127 0 0 0, v4 127 255 255 255);     (* loopback *)
    (v4 169 254 0 0, v4 169 254 255 255);   (* link local *)
    (v4 172 16 0 0, v4 172 31 255 255);     (* private *)
    (v4 192 0 0 0, v4 192 0 0 255);         (* protocol assignments *)
    (v4 192 0 2 0, v4 192 0 2 255);         (* documentation 1 *)
    (v4 192 168 0 0, v4 192 168 255 255);   (* private *)
    (v4 198 18 0 0, v4 198 19 255 255);     (* benchmarking *)
    (v4 198 51 100 0, v4 198 51 100 255);   (* documentation 2 *)
    (v4 203 0 113 0, v4 203 0 113 255);     (* documentation 3 *)
    (v4 224 0 0 0, v4 255 255 255 255) ].   (* multicast, reserved, broadcast *)

Definition in_ranges (ip : Ipv4Addr) : bool :=
  existsb (λ '(lo, hi), (u32_of lo <=? u32_of ip) && (u32_of ip <=? u32_of hi)) non_public_ranges.

Lemma u32_of_lt ip : ipv4_ok ip → u32_of ip < 2 ^ 32.
Proof. intros (?&?&?&?). unfold u32_of. rewrite !N.shiftl_mul_pow2. lia. Qed.

(** A mask that keeps the bits from [k] on rounds down to a multiple of [2 ^ k]. *)
Lemma land_round x w k m :
  x < 2 ^ w → (∀ i, i < w → N.testbit m i = (k <=? i)) → N.land x m = x / 2 ^ k * 2 ^ k.
Proof.
  intros Hx Hm. apply N.bits_inj. intros i. rewrite N.land_spec, <-N.shiftl_mul_pow2, <-N.shiftr_div_pow2.
  assert (w <= i → N.testbit x i = false) as Hhigh.
  { intros Hi. destruct (N.eq_dec x 0) as [->|]; [apply N.bits_0|]. apply N.bits_above_log2.
    assert (N.log2 x < w) by (apply N.log2_lt_pow2; lia). lia. }
  destruct (N.lt_ge_cases i k) as [Hi|Hi].
  - rewrite N.shiftl_spec_low by done. destruct (N.lt_ge_cases i w) as [Hw|Hw].
    + rewrite Hm by done. destruct (N.leb_spec k i); [lia|]. apply andb_false_r.
    + by rewrite Hhigh.
  - rewrite N.shiftl_spec_high', N.shiftr_spec' by done. replace (i - k + k) with i by lia.
    destruct (N.lt_ge_cases i w) as [Hw|Hw]; [|by rewrite Hhigh].
    rewrite Hm by done. destruct (N.leb_spec k i); [|lia]. apply andb_true_r.
Qed.

Lemma land_mask x k : x < 2 ^ 32 →
  N.land x (N.land (N.shiftl u32_max k) u32_max) = x / 2 ^ k * 2 ^ k.
Proof.
  intros Hx. apply (land_round _ 32); [done|]. intros i Hi. change u32_max with (N.ones 32).
  rewrite N.land_spec, (N.ones_spec_low 32 i), andb_true_r by done. destruct (N.leb_spec k i).
  - rewrite N.shiftl_spec_high' by done. apply N.ones_spec_low. lia.
  - by rewrite N.shiftl_spec_low.
Qed.

Lemma cidr_spec ip base p : ipv4_ok ip → ipv4_ok base → 0 < p <= 32 →
  ipv4_in_cidr ip base p = (u32_of ip / 2 ^ (32 - p) =? u32_of base / 2 ^ (32 - p)).
Proof.
  intros Hi Hb Hp. unfold ipv4_in_cidr. destruct (N.eqb_spec p 0) as [->|_]; [lia|].
  rewrite !land_mask by (by apply u32_of_lt). apply eq_true_iff_eq. rewrite !N.eqb_eq. split.
  - intros H. eapply N.mul_cancel_r; [|exact H]. apply N.pow_nonzero. lia.
  - congruence.
Qed.

(** A number lies in the block of a prefix iff it lies between the block's ends. *)
Lemma cidr_range ip base p : ipv4_ok ip → ipv4_ok base → 0 < p <= 32 → u32_of base mod 2 ^ (32 - p) = 0 →
  ipv4_in_cidr ip base p = true ↔ u32_of base <= u32_of ip < u32_of base + 2 ^ (32 - p).
Proof.
  intros Hi Hb Hp Hm. rewrite cidr_spec, N.eqb_eq by done.
  assert (2 ^ (32 - p) ≠ 0) as Hn by (apply N.pow_nonzero; lia).
  set (d := 2 ^ (32 - p)) in *. set (x := u32_of ip). set (y := u32_of base) in *.
  pose proof (N.div_mod x d Hn) as Hx. pose proof (N.div_mod y d Hn) as Hy. pose proof (N.mod_lt x d Hn). split; intros Heq.
  - rewrite Heq in Hx. clearbody x y d. rewrite Hm in Hy. clear -Hx Hy H.
    generalize dependent (x mod d). generalize dependent (d * (y / d)). lia.
  - symmetry. clearbody x y d. rewrite Hm in Hy. apply (N.div_unique x d (y / d) (x - y)); [lia|].
    revert Hy. clear -Heq. generalize (d * (y / d)). lia.
Qed.

Lemma u32_of_digits ip : ipv4_ok ip →
  u32_of ip = oct1 ip * 16777216 + oct2 ip * 65536 + oct3 ip * 256 + oct4 ip.
Proof. intros _. unfold u32_of. rewrite !N.shiftl_mul_pow2. change (2 ^ 24) with 16777216. change (2 ^ 16) with 65536. by change (2 ^ 8) with 256. Qed.

(** The test for IPv4 addresses that are not public is membership in the thirteen ranges. *)
Lemma non_public_ipv4_ranges ip : ipv4_ok ip → is_non_public_ipv4 ip = in_ranges ip.
Proof.
  intros Hok. apply eq_true_iff_eq. unfold in_ranges, non_public_ranges. cbn [existsb].
  unfold is_non_public_ipv4, ipv4_is_loopback, ipv4_is_private, ipv4_is_link_local, ipv4_is_unspecified,
    ipv4_is_multicast, ipv4_is_broadcast.
  rewrite !orb_true_iff, !andb_true_iff, !N.eqb_eq, !N.leb_le, !bool_decide_eq_true.
  rewrite !cidr_range by (done || (unfold ipv4_ok; simpl; lia) || reflexivity || lia).
  assert (ip = v4 0 0 0 0 → u32_of ip = 0) as H0 by (by intros ->).
  assert (ip = v4 255 255 255 255 → u32_of ip = 4294967295) as H1 by (by intros ->).
  pose proof (u32_of_digits ip Hok) as Hu. destruct Hok as (?&?&?&?).
  rewrite !(u32_of_digits (v4 _ _ _ _)) by (unfold ipv4_ok; simpl; lia). cbn [oct1 oct2 oct3 oct4 v4].
  repeat match goal with |- context [2 ^ ?k] => let v := eval vm_compute in (2 ^ k) in change (2 ^ k) with v end.
  split; intros Hin.
  - repeat destruct Hin as [Hin|Hin]; try apply H0 in Hin; try apply H1 in Hin; lia.
  - clear H0 H1. lia.
Qed.

(** An IPv6 address that embeds an IPv4 address is as public as that address. *)
Lemma mapped_non_public a b c d :
  ipv4_ok (v4 a b c d) →
  is_non_public_ip (V6 [0; 0; 0; 0; 0; 0xffff; a * 256 + b; c * 256 + d]) = is_non_public_ip (V4 (v4 a b c d)).
Proof.
  intros (?&?&?&?). simpl in *. assert (∀ x y, y < 256 → N.shiftr (x * 256 + y) 8 = x ∧ N.land (x * 256 + y) 255 = y) as Hb.
  { intros x y Hy. change 255 with (N.ones 8). rewrite N.land_ones, N.shiftr_div_pow2.
    change (2 ^ 8) with 256. split; [symmetry; apply (N.div_unique _ _ _ y); lia|symmetry; apply (N.mod_unique _ _ x); lia]. }
  destruct (Hb a b) as [Ha Hb'], (Hb c d) as [Hc Hd]; [done..|].
  assert (to_ipv4 [0; 0; 0; 0; 0; 0xffff; a * 256 + b; c * 256 + d] = Some (v4 a b c d)) as He.
  { unfold to_ipv4. change ((0xffff =? 0) || (0xffff =? 0xffff)) with true. cbn iota. by rewrite Ha, Hb', Hc, Hd. }
  unfold is_non_public_ipv6. rewrite He. unfold ipv6_is_loopback. rewrite bool_decide_eq_false_2 by done.
  by rewrite orb_false_r.
Qed.

(** ** What is not public *)

(** The IPv6 ranges, by the first segment: unique local, link local and multicast. *)
Definition in_ipv6_ranges (segments : list N) : bool :=
  let g := first_segment segments in
  ((0xfc00 <=? g) && (g <=? 0xfdff)) || ((0xfe80 <=? g) && (g <=? 0xfebf)) || (0xff00 <=? g).

Definition not_public (ip : IpAddr) : bool :=
  match ip with
  | V4 ip => in_ranges ip
  | V6 segments => match to_ipv4 segments with Some ip => in_ranges ip | None => in_ipv6_ranges segments end
  end.

Lemma segment_mask g k m lo :
  g < 65536 → (∀ i, i < 16 → N.testbit m i = (k <=? i)) → lo mod 2 ^ k = 0 → k <= 16 →
  (N.land g m =? lo) = (lo <=? g) && (g <=? lo + (2 ^ k - 1)).
Proof.
  intros Hg Hm Hlo Hk. rewrite (land_round g 16 k m) by done.
  assert (2 ^ k ≠ 0) as Hn by (apply N.pow_nonzero; lia). set (d := 2 ^ k) in *.
  pose proof (N.div_mod g d Hn) as Hdg. pose proof (N.mod_lt g d Hn) as Hlt. pose proof (N.div_mod lo d Hn) as Hdl.
  rewrite Hlo in Hdl. apply eq_true_iff_eq. rewrite andb_true_iff, N.eqb_eq, !N.leb_le. split.
  - intros <-. clearbody d. rewrite (N.mul_comm (g / d)). clear -Hdg Hlt. generalize dependent (d * (g / d)).
    generalize dependent (g mod d). lia.
  - intros Hr. assert (lo / d = g / d) as Hq.
    { apply (N.div_unique g d _ (g - lo)); [lia|]. clearbody d. clear -Hdl Hr. generalize dependent (d * (lo / d)). lia. }
    rewrite <-Hq, N.mul_comm. clear -Hdl. lia.
Qed.

Lemma low_bits_mask m k : forallb (λ i, Bool.eqb (N.testbit m i) (k <=? i)) [0;1;2;3;4;5;6;7;8;9;10;11;12;13;14;15] = true →
  ∀ i, i < 16 → N.testbit m i = (k <=? i).
Proof.
  intros H i Hi. rewrite forallb_forall in H. apply eqb_prop, H. apply list_elem_of_In.
  assert (i = 0 ∨ i = 1 ∨ i = 2 ∨ i = 3 ∨ i = 4 ∨ i = 5 ∨ i = 6 ∨ i = 7 ∨ i = 8 ∨ i = 9 ∨ i = 10 ∨ i = 11 ∨ i = 12 ∨ i = 13 ∨ i = 14 ∨ i = 15) by lia.
  set_solver.
Qed.

(** The test for addresses that are not public, on every text that is an address, is
    membership in the listed ranges: the thirteen of IPv4, also for an IPv6 address that
    embeds an IPv4 one, and unique-local, link-local and multicast addresses. *)
Theorem non_public_exact s ip : parse_ip s = Some ip → is_non_public_ip ip = not_public ip.
Proof.
  intros Hok%parse_ip_ok. destruct ip as [ip|gs]; simpl in *; [by apply non_public_ipv4_ranges|].
  destruct Hok as [Hlen Hgs]. unfold is_non_public_ipv6.
  assert (to_ipv4 gs = None → ipv6_is_loopback gs = false ∧ ipv6_is_unspecified gs = false) as Hnone.
  { intros Hn. unfold ipv6_is_loopback, ipv6_is_unspecified. split; apply bool_decide_eq_false; intros ->; done. }
  destruct (to_ipv4 gs) as [ip|] eqn:E4.
  - assert (ipv4_ok ip) as Hip.
    { unfold to_ipv4 in E4. repeat case_match; try discriminate. injection E4 as <-. rewrite !Forall_cons in Hgs.
      destruct Hgs as (_&_&_&_&_&_&Hg&Hh&_). change 255 with (N.ones 8). unfold ipv4_ok; cbn [oct1 oct2 oct3 oct4 v4].
      rewrite !N.land_ones, !N.shiftr_div_pow2. change (2 ^ 8) with 256.
      split_and!; try (apply N.mod_lt; lia); apply N.Div0.div_lt_upper_bound; lia. }
    rewrite non_public_ipv4_ranges by done. destruct (ipv6_is_loopback gs) eqn:El; [|apply orb_false_r].
    unfold ipv6_is_loopback in El. apply bool_decide_eq_true in El as ->. injection E4 as <-. reflexivity.
  - destruct Hnone as [-> ->]; [done|]. unfold in_ipv6_ranges, ipv6_is_multicast, ipv6_is_unique_local, ipv6_is_unicast_link_local.
    assert (first_segment gs < 65536) as Hg.
    { destruct gs; [done|]. apply Forall_cons in Hgs as [? _]. done. }
    rewrite (segment_mask _ 8 0xff00), (segment_mask _ 9 0xfe00 0xfc00), (segment_mask _ 6 0xffc0 0xfe80)
      by (done || lia || (apply low_bits_mask; reflexivity)).
    apply eq_true_iff_eq. cbn [orb]. rewrite !orb_true_iff, !andb_true_iff, !N.leb_le. lia.
Qed.

Lemma non_public_exact_witness :
  is_non_public_ip (V6 [0; 0; 0; 0; 0; 0xffff; 0xc0a8; 1]) = true ∧
  not_public (V6 [0; 0; 0; 0; 0; 0xffff; 0xc0a8; 1]) = true ∧ not_public (V4 (v4 172 32 0 1)) = false.
Proof.
  split_and!; [reflexivity|rewrite <-(non_public_exact "::ffff:192.168.0.1") by reflexivity; reflexivity|].
  rewrite <-(non_public_exact "172.32.0.1") by reflexivity. reflexivity.
Defined.
