(* ===== verification/HostPolicy.v ===== *)
(** * Hosts and domain patterns

    codex-rs/network-proxy/src/policy.rs: normalised hosts, domain patterns and their globs,
    and the comparison of patterns that managed configuration uses.

    The glob library and the host parser of the url library are parameters.  [GlobLaws]
    states the documented meaning of the three forms of pattern the proxy compiles, on text
    without glob metacharacters. *)

From stdpp Require Import base list strings.
From S2P Require Import Prelude Str Utf8 Fragments IpAddr.

(** [GlobBuilder::new(_).case_insensitive(true).build()], and [GlobSetBuilder]. *)
Class Globs := {
  Glob : Type;
  GlobSet : Type;
  build_glob : string → option Glob;
  build_set : list Glob → Result GlobSet string;
  glob_matches : Glob → string → bool;
  is_match : GlobSet → string → bool;
}.

(** [url::Host::parse], printed again. *)
Class UrlHosts := { url_host_parse : string → option string }.

(** ** Hosts *)

Definition count_char (c : ascii) (s : string) : nat := length (List.filter (byte_eqb c) (as_bytes s)).

Definition normalize_ip_literal (host : string) : option string :=
  if bool_decide (is_Some (parse_ip host)) then Some host
  else
    let scoped (delimiter : string) : option string :=
      '(ip, scope) ← split_once delimiter host;
      if bool_decide (is_Some (parse_ip ip)) then Some (ip +:+ "%" +:+ scope) else None in
    match scoped "%25" with Some r => Some r | None => scoped "%" end.

Definition normalize_dns_host_or_ip_literal (host : string) : string :=
  let host := trim_end_char "." (ascii_lowercase host) in
  default host (normalize_ip_literal host).

Definition normalize_host (host : string) : string :=
  let host := trim host in
  match (if starts_with "[" host then find "]" host else None) with
  | Some stop => normalize_dns_host_or_ip_literal (str_drop 1 (str_take stop host))
  | None =>
      if decide (count_char ":" host = 1)
      then normalize_dns_host_or_ip_literal (default EmptyString (head (split_char ":" host)))
      else normalize_dns_host_or_ip_literal host
  end.

(** [Host::parse]; a host is its normalised text. *)
Definition host_parse (input : string) : Result string string :=
  let normalized := normalize_host input in
  if str_is_empty normalized then Err "host is empty" else Ok normalized.

Definition unscoped_ip_literal (host : string) : option string :=
  '(ip, _) ← split_once "%" host;
  if bool_decide (is_Some (parse_ip ip)) then Some ip else None.

Definition is_loopback_host (host : string) : bool :=
  let host := default host (unscoped_ip_literal host) in
  if str_eqb host "localhost" then true
  else match parse_ip host with Some ip => ip_is_loopback ip | None => false end.

(** ** Patterns *)

Inductive DomainPattern :=
| ApexAndSubdomains (domain : string)
| SubdomainsOnly (domain : string)
| Exact (domain : string).

Definition normalize_pattern (pattern : string) : string :=
  let pattern := trim pattern in
  if str_eqb pattern "*" then "*"
  else match strip_prefix "**." pattern with
       | Some domain => "**." +:+ normalize_host domain
       | None =>
           match strip_prefix "*." pattern with
           | Some domain => "*." +:+ normalize_host domain
           | None => normalize_host pattern
           end
       end.

Definition parse_domain (domain : string) (build : string → DomainPattern) : DomainPattern :=
  let domain := trim domain in
  if str_is_empty domain then Exact EmptyString else build domain.

Definition pattern_parse (input : string) : DomainPattern :=
  let input := trim input in
  if str_is_empty input then Exact EmptyString
  else match strip_prefix "**." input with
       | Some domain => parse_domain domain ApexAndSubdomains
       | None =>
           match strip_prefix "*." input with
           | Some domain => parse_domain domain SubdomainsOnly
           | None => Exact input
           end
       end.

Definition expand_domain_pattern (pattern : string) : list string :=
  match pattern_parse pattern with
  | Exact domain => [domain]
  | SubdomainsOnly domain => ["?*." +:+ domain]
  | ApexAndSubdomains domain => [domain; "?*." +:+ domain]
  end.

Definition is_global_wildcard_domain_pattern (pattern : string) : bool :=
  existsb (str_eqb "*") (expand_domain_pattern (normalize_pattern pattern)).

Inductive GlobalWildcard := WildcardAllow | WildcardReject.

Definition GLOBAL_WILDCARD_ERROR : string :=
  "unsupported global wildcard domain pattern " +:+ (String double_quote "*" +:+
  String double_quote "; use exact hosts or scoped wildcards like *.example.com or **.example.com").

(** One candidate: one that was seen is skipped. *)
Definition add_candidate `{Globs} (acc : list Glob * list string) (candidate : string) :
    Result (list Glob * list string) string :=
  let '(globs, seen) := acc in
  if bool_decide (candidate ∈ seen) then Ok acc
  else match build_glob candidate with
       | None => Err ("invalid glob pattern: " +:+ candidate)
       | Some g => Ok (globs ++ [g], candidate :: seen)
       end.

Definition add_pattern `{Globs} (global_wildcard : GlobalWildcard) (acc : list Glob * list string) (pattern : string) :
    Result (list Glob * list string) string :=
  if match global_wildcard with WildcardReject => is_global_wildcard_domain_pattern pattern | WildcardAllow => false end
  then Err GLOBAL_WILDCARD_ERROR
  else fold_res add_candidate acc (expand_domain_pattern (normalize_pattern pattern)).

Definition compile_globset_with_policy `{Globs} (patterns : list string) (global_wildcard : GlobalWildcard) :
    Result GlobSet string :=
  let? '(globs, _) := fold_res (add_pattern global_wildcard) ([], []) patterns in
  build_set globs.

Definition compile_allowlist_globset `{Globs} (patterns : list string) : Result GlobSet string :=
  compile_globset_with_policy patterns WildcardAllow.

Definition compile_denylist_globset `{Globs} (patterns : list string) : Result GlobSet string :=
  compile_globset_with_policy patterns WildcardReject.

(** ** Comparing patterns *)

Definition parse_domain_for_constraints `{UrlHosts} (domain : string) : string :=
  let domain := trim_end_char "." (trim domain) in
  if str_is_empty domain then EmptyString
  else
    let host := if starts_with "[" domain && ends_with "]" domain
                then str_drop 1 (str_take (String.length domain - 1) domain) else domain in
    if contains_char "*" host || contains_char "?" host || contains_char "%" host then domain
    else default EmptyString (url_host_parse host).

Definition parse_for_constraints `{UrlHosts} (input : string) : DomainPattern :=
  let input := trim input in
  if str_is_empty input then Exact EmptyString
  else match strip_prefix "**." input with
       | Some domain => ApexAndSubdomains (parse_domain_for_constraints domain)
       | None =>
           match strip_prefix "*." input with
           | Some domain => SubdomainsOnly (parse_domain_for_constraints domain)
           | None => Exact (parse_domain_for_constraints input)
           end
       end.

Definition normalize_domain (domain : string) : string := ascii_lowercase (trim_end_char "." domain).

Definition domain_eq (left right : string) : bool := str_eqb (normalize_domain left) (normalize_domain right).

Definition is_subdomain_or_equal (child parent : string) : bool :=
  let child := normalize_domain child in
  let parent := normalize_domain parent in
  str_eqb child parent || ends_with ("." +:+ parent) child.

Definition is_strict_subdomain (child parent : string) : bool :=
  let child := normalize_domain child in
  let parent := normalize_domain parent in
  negb (str_eqb child parent) && ends_with ("." +:+ parent) child.

Definition allows (self candidate : DomainPattern) : bool :=
  match self, candidate with
  | Exact domain, Exact candidate => domain_eq candidate domain
  | Exact _, _ => false
  | SubdomainsOnly domain, Exact candidate => is_strict_subdomain candidate domain
  | SubdomainsOnly domain, SubdomainsOnly candidate => is_subdomain_or_equal candidate domain
  | SubdomainsOnly domain, ApexAndSubdomains candidate => is_strict_subdomain candidate domain
  | ApexAndSubdomains domain, Exact candidate
  | ApexAndSubdomains domain, SubdomainsOnly candidate
  | ApexAndSubdomains domain, ApexAndSubdomains candidate => is_subdomain_or_equal candidate domain
  end.

Example normalize_host_examples :
  normalize_host " Example.COM.:443 " = "example.com" ∧ normalize_host "[FE80::1%25eth0]" = "fe80::1%eth0" ∧
  normalize_host "2001:db8::1" = "2001:db8::1" ∧ normalize_pattern " *.Example.com. " = "*.example.com" ∧
  expand_domain_pattern "**.example.com" = ["example.com"; "?*.example.com"] ∧
  is_global_wildcard_domain_pattern "[*]" = true.
Proof. split_and!; vm_compute; reflexivity. Qed.

(** ** What the globs mean *)

Definition is_meta (c : ascii) : bool := bool_decide (c ∈ ["*"; "?"; "["; "]"; "{"; "}"; "\"]%char).

(** Text without glob metacharacters. *)
Definition plain (s : string) : bool := forallb (λ c, negb (is_meta c)) (as_bytes s).

(** [h] lies below the domain [d]. *)
Definition below (d h : string) : bool :=
  ends_with ("." +:+ ascii_lowercase d) (ascii_lowercase h) && (String.length d + 1 <? String.length h).

(** The documented meaning of the patterns the proxy compiles: plain text matches itself in
    any case, [?*.] and plain text what lies below it, and a star everything. *)
Class GlobLaws `{Globs} : Prop := {
  literal_glob d : plain d = true → ∃ g, build_glob d = Some g ∧
    ∀ h, glob_matches g h = eq_ignore_ascii_case h d;
  below_glob d : plain d = true → ∃ g, build_glob ("?*." +:+ d) = Some g ∧ ∀ h, glob_matches g h = below d h;
  star_glob : ∃ g, build_glob "*" = Some g ∧ ∀ h, glob_matches g h = true;
  set_matches gs set : build_set gs = Ok set → ∀ h, is_match set h = existsb (λ g, glob_matches g h) gs;
}.

(** A glob library that supports these forms only. *)
Definition simple_globs : Globs := {|
  Glob := DomainPattern;
  GlobSet := list DomainPattern;
  build_glob s :=
    if str_eqb s "*" then Some (Exact "*")
    else match strip_prefix "?*." s with
         | Some d => if plain d then Some (SubdomainsOnly d) else None
         | None => if plain s then Some (Exact s) else None
         end;
  build_set gs := Ok gs;
  glob_matches g h :=
    match g with
    | Exact d => str_eqb d "*" || eq_ignore_ascii_case h d
    | SubdomainsOnly d => below d h
    | ApexAndSubdomains _ => false
    end;
  is_match gs h :=
    existsb (λ g, match g with
                  | Exact d => str_eqb d "*" || eq_ignore_ascii_case h d
                  | SubdomainsOnly d => below d h
                  | ApexAndSubdomains _ => false
                  end) gs;
|}.

Lemma plain_not d c : plain d = true → is_meta c = true → contains_char c d = false.
Proof.
  intros Hp Hc. unfold plain, contains_char in *. apply not_true_iff_false. rewrite existsb_exists.
  intros (x & Hx & Hxc). rewrite forallb_forall in Hp. specialize (Hp x Hx). unfold byte_eqb in Hxc.
  apply bool_decide_eq_true in Hxc as ->. by rewrite Hc in Hp.
Qed.

#[export] Instance simple_globs_laws : @GlobLaws simple_globs.
Proof.
  split; cbn [build_glob build_set glob_matches is_match simple_globs].
  - intros d Hp. destruct (str_eqb d "*") eqn:E; [by apply str_eqb_true in E as ->|].
    destruct (strip_prefix "?*." d) as [r|] eqn:Es; [by apply strip_prefix_some in Es as ->|]. rewrite Hp.
    eexists; split; [done|]. intros h. cbn. by rewrite E.
  - intros d Hp. exists (SubdomainsOnly d). split; [|done]. rewrite (proj2 (str_eqb_false _ _)) by done.
    by rewrite (proj2 (strip_prefix_some "?*." _ d) eq_refl), Hp.
  - by eexists.
  - by intros gs set [= ->].
Qed.

(** ** Compiled sets *)

(** The hosts a pattern stands for. *)
Definition denotes (p : DomainPattern) (h : string) : bool :=
  match p with
  | Exact d => str_eqb d "*" || eq_ignore_ascii_case h d
  | SubdomainsOnly d => below d h
  | ApexAndSubdomains d => eq_ignore_ascii_case h d || below d h
  end.

Definition pattern_domain (p : DomainPattern) : string :=
  match p with Exact d | SubdomainsOnly d | ApexAndSubdomains d => d end.

(** The pattern that is compiled for an entry of the configuration. *)
Definition compiled_pattern (entry : string) : DomainPattern := pattern_parse (normalize_pattern entry).

Definition plain_pattern (p : DomainPattern) : bool :=
  match p with
  | Exact d => str_eqb d "*" || plain d
  | SubdomainsOnly d | ApexAndSubdomains d => plain d
  end.

(** The hosts some entry of a list stands for. *)
Definition listed (entries : list string) (h : string) : bool :=
  existsb (λ entry, denotes (compiled_pattern entry) h) entries.

Section compiled.
Context `{GlobLaws}.

(** What a candidate matches, if it can be built. *)
Definition candidate_matches (candidate h : string) : bool :=
  match build_glob candidate with Some g => glob_matches g h | None => false end.

Definition acc_matches (acc : list Glob * list string) (h : string) : Prop :=
  existsb (λ g, glob_matches g h) acc.1 = existsb (λ c, candidate_matches c h) acc.2.

Lemma add_candidate_spec acc c acc' h :
  add_candidate acc c = Ok acc' → acc_matches acc h →
  acc_matches acc' h ∧ existsb (λ g, glob_matches g h) acc'.1 = existsb (λ g, glob_matches g h) acc.1 || candidate_matches c h.
Proof.
  destruct acc as [gs seen]. unfold add_candidate, acc_matches. cbn [fst snd].
  destruct (bool_decide_reflect (c ∈ seen)) as [Hin|_].
  - intros [= <-] Ha. cbn [fst snd]. split; [done|]. rewrite Ha.
    destruct (candidate_matches c h) eqn:Ec; [|by rewrite orb_false_r]. rewrite orb_true_r. apply existsb_exists.
    exists c. by rewrite <-list_elem_of_In.
  - destruct (build_glob c) as [g|] eqn:Eg; [|done]. intros [= <-] Ha. cbn [fst snd].
    assert (candidate_matches c h = glob_matches g h) as -> by (unfold candidate_matches; by rewrite Eg).
    rewrite existsb_app. cbn [existsb]. rewrite orb_false_r. split; [|done]. unfold candidate_matches at 1. rewrite Eg, Ha. apply orb_comm.
Qed.

Lemma add_candidates_spec cs : ∀ acc acc' h,
  fold_res add_candidate acc cs = Ok acc' → acc_matches acc h →
  acc_matches acc' h ∧ existsb (λ g, glob_matches g h) acc'.1 =
    existsb (λ g, glob_matches g h) acc.1 || existsb (λ c, candidate_matches c h) cs.
Proof.
  induction cs as [|c cs IH]; intros acc acc' h; cbn [fold_res existsb].
  - intros [= <-] Ha. by rewrite orb_false_r.
  - destruct (add_candidate acc c) as [acc1|] eqn:E1; [|done]. intros Hf Ha.
    destruct (add_candidate_spec _ _ _ _ E1 Ha) as [Ha1 He]. destruct (IH _ _ _ Hf Ha1) as [Ha2 ->].
    split; [done|]. by rewrite He, orb_assoc.
Qed.

(** The globs of one pattern match what it stands for. *)
Lemma expand_matches p h :
  plain_pattern p = true →
  existsb (λ c, candidate_matches c h)
    (match p with Exact d => [d] | SubdomainsOnly d => ["?*." +:+ d] | ApexAndSubdomains d => [d; "?*." +:+ d] end) =
  denotes p h.
Proof.
  assert (∀ d, plain d = true → candidate_matches d h = eq_ignore_ascii_case h d) as Hl.
  { intros d Hd. unfold candidate_matches. by destruct (literal_glob d Hd) as (g & -> & ->). }
  assert (∀ d, plain d = true → candidate_matches ("?*." +:+ d) h = below d h) as Hb.
  { intros d Hd. unfold candidate_matches. by destruct (below_glob d Hd) as (g & -> & ->). }
  destruct p as [d|d|d]; cbn [plain_pattern denotes existsb]; intros Hp; rewrite ?orb_false_r.
  - by rewrite Hl, Hb.
  - by rewrite Hb.
  - destruct (str_eqb d "*") eqn:E; cbn [orb] in *; [|by rewrite Hl]. apply str_eqb_true in E as ->.
    unfold candidate_matches. by destruct star_glob as (g & -> & ->).
Qed.

Lemma compile_candidates w entries set h :
  compile_globset_with_policy entries w = Ok set →
  is_match set h =
    existsb (λ e, existsb (λ c, candidate_matches c h) (expand_domain_pattern (normalize_pattern e))) entries.
Proof.
  unfold compile_globset_with_policy. intros Hc.
  destruct (fold_res _ _ _) as [[gs seen]|] eqn:Ef; [|done]. cbn [res_bind] in Hc.
  rewrite (set_matches _ _ Hc). clear Hc.
  enough (∀ acc, acc_matches acc h → fold_res (add_pattern w) acc entries = Ok (gs, seen) →
    existsb (λ g, glob_matches g h) gs = existsb (λ g, glob_matches g h) acc.1 ||
      existsb (λ e, existsb (λ c, candidate_matches c h) (expand_domain_pattern (normalize_pattern e))) entries) as He
    by (by apply (He ([], []))).
  clear Ef. induction entries as [|e entries IH]; intros acc Ha; cbn [fold_res existsb].
  { intros [= ->]. by rewrite orb_false_r. }
  destruct (add_pattern w acc e) as [acc1|] eqn:E1; [|done]. intros Hf.
  unfold add_pattern in E1. destruct (match w with WildcardAllow => _ | _ => _ end); [done|].
  destruct (add_candidates_spec _ _ _ _ E1 Ha) as [Ha1 Hm]. rewrite (IH _ Ha1 Hf), Hm. symmetry. apply orb_assoc.
Qed.

Lemma entry_matches e h : plain_pattern (compiled_pattern e) = true →
  existsb (λ c, candidate_matches c h) (expand_domain_pattern (normalize_pattern e)) = denotes (compiled_pattern e) h.
Proof. intros He. unfold expand_domain_pattern. fold (compiled_pattern e). by rewrite expand_matches. Qed.

(** A compiled set matches what its entries stand for. *)
Lemma compile_matches w entries set h :
  compile_globset_with_policy entries w = Ok set →
  Forall (λ e, plain_pattern (compiled_pattern e) = true) entries →
  is_match set h = listed entries h.
Proof.
  intros Hc Hp. rewrite (compile_candidates _ _ _ _ Hc). clear Hc. unfold listed.
  induction Hp as [|e entries He Hp IH]; [done|]. cbn [existsb]. by rewrite entry_matches, IH.
Qed.

(** A plain entry works whatever the other entries are. *)
Lemma compile_covers w entries set e h :
  compile_globset_with_policy entries w = Ok set → e ∈ entries →
  plain_pattern (compiled_pattern e) = true → denotes (compiled_pattern e) h = true → is_match set h = true.
Proof.
  intros Hc He Hp Hd. rewrite (compile_candidates _ _ _ _ Hc). apply existsb_exists. exists e.
  by rewrite entry_matches, <-list_elem_of_In.
Qed.
End compiled.

(** ** Comparing patterns is sound *)

(** A domain as the normalisation leaves it, without a leading dot or metacharacters. *)
Definition settled (d : string) : bool :=
  str_eqb (normalize_domain d) d && negb (starts_with "." d) && plain d.

(** An entry that the comparison and the globs read alike. *)
Definition ordinary `{UrlHosts} (entry : string) : Prop :=
  parse_for_constraints entry = compiled_pattern entry ∧ settled (pattern_domain (compiled_pattern entry)) = true.

Lemma settled_lower d : settled d = true → ascii_lowercase d = d.
Proof.
  unfold settled. rewrite !andb_true_iff, str_eqb_true. intros [[Hn _] _]. rewrite <-Hn at 1. unfold normalize_domain at 1.
  by rewrite ascii_lowercase_idem.
Qed.

Lemma below_true d h : ascii_lowercase d = d →
  below d h = true ↔ ∃ x, x ≠ EmptyString ∧ ascii_lowercase h = x +:+ "." +:+ d.
Proof.
  intros Hd. unfold below. rewrite andb_true_iff, ends_with_true, Nat.ltb_lt, Hd. split.
  - intros [[x Hx] Hl]. exists x. split; [|done]. intros ->.
    apply (f_equal String.length) in Hx. rewrite ascii_lowercase_len, !str_len_app in Hx. simpl in Hx. lia.
  - intros (x & Hx & Heq). split; [by exists x|]. apply (f_equal String.length) in Heq.
    rewrite ascii_lowercase_len, !str_len_app in Heq. rewrite <-str_len_0 in Hx. simpl in Heq. lia.
Qed.

Lemma eq_lower_true h d : ascii_lowercase d = d → eq_ignore_ascii_case h d = true ↔ ascii_lowercase h = d.
Proof. intros Hd. unfold eq_ignore_ascii_case. by rewrite str_eqb_true, Hd. Qed.

Lemma subdomain_cases c m : settled c = true → settled m = true →
  is_subdomain_or_equal c m = true → c = m ∨ ∃ r, r ≠ EmptyString ∧ c = r +:+ "." +:+ m.
Proof.
  unfold settled, is_subdomain_or_equal. rewrite !andb_true_iff, !str_eqb_true, negb_true_iff, orb_true_iff.
  intros [[-> Hdot] _] [[-> _] _] [?%str_eqb_true|[r Hr]%ends_with_true]; [by left|right].
  exists r. split; [|done]. intros ->. subst c. by rewrite str_app_nil_l, starts_with_app in Hdot.
Qed.

Lemma strict_subdomain_cases c m : settled c = true → settled m = true →
  is_strict_subdomain c m = true → ∃ r, r ≠ EmptyString ∧ c = r +:+ "." +:+ m.
Proof.
  intros Hc Hm Hs. destruct (subdomain_cases c m Hc Hm) as [->|?]; [| |done].
  - unfold is_strict_subdomain in Hs. unfold is_subdomain_or_equal. apply andb_true_iff in Hs as [_ ->]. apply orb_true_r.
  - unfold is_strict_subdomain in Hs. by rewrite str_eqb_refl in Hs.
Qed.

(** A host below a domain that is below another one is below the latter. *)
Lemma below_extend r m h : ascii_lowercase (r +:+ "." +:+ m) = r +:+ "." +:+ m → ascii_lowercase m = m →
  below (r +:+ "." +:+ m) h = true → below m h = true.
Proof.
  intros Hr Hm. rewrite !below_true by done. intros (x & Hx & Heq). exists (x +:+ "." +:+ r). split.
  - intros Hn. by apply str_app_eq_nil in Hn as [? _].
  - rewrite Heq. by rewrite !str_app_assoc.
Qed.

Lemma allows_sound m c h :
  settled (pattern_domain m) = true → settled (pattern_domain c) = true →
  allows m c = true → denotes c h = true → denotes m h = true.
Proof.
  intros Hm Hc. pose proof (settled_lower _ Hm) as Lm. pose proof (settled_lower _ Hc) as Lc.
  assert (pattern_domain c ≠ "*") as Hstar by (intros E; by rewrite E in Hc).
  assert (∀ d, denotes (ApexAndSubdomains d) h = eq_ignore_ascii_case h d || below d h) as Hapex by done.
  assert (∀ d, settled d = true → is_subdomain_or_equal (pattern_domain c) d = true →
    denotes (ApexAndSubdomains (pattern_domain c)) h = true → denotes (ApexAndSubdomains d) h = true) as Happ.
  { intros d Hd Hs. pose proof (settled_lower _ Hd) as Ld. rewrite !Hapex, !orb_true_iff, !eq_lower_true by done.
    destruct (subdomain_cases _ _ Hc Hd Hs) as [<-|(r & Hr & Heq)]; [done|]. rewrite Heq in *. intros [He|Hb]; right.
    - apply below_true; [done|]. eauto.
    - by eapply below_extend. }
  assert (∀ d, settled d = true → is_strict_subdomain (pattern_domain c) d = true →
    denotes (ApexAndSubdomains (pattern_domain c)) h = true → below d h = true) as Hstrict.
  { intros d Hd Hs. pose proof (settled_lower _ Hd) as Ld. rewrite Hapex, orb_true_iff, eq_lower_true by done.
    destruct (strict_subdomain_cases _ _ Hc Hd Hs) as (r & Hr & Heq). rewrite Heq in *. intros [He|Hb].
    - apply below_true; [done|]. eauto.
    - by eapply below_extend. }
  destruct m as [m|m|m], c as [c|c|c]; cbn [allows pattern_domain] in *; try done.
  - by apply Happ.
  - intros Hs Hd. apply (Happ m Hm Hs). rewrite Hapex. simpl in Hd. by rewrite Hd, orb_true_r.
  - intros Hs Hd. apply (Happ m Hm Hs). rewrite Hapex. simpl in Hd. rewrite (proj2 (str_eqb_false _ _) Hstar) in Hd.
    cbn [orb] in Hd. by rewrite Hd.
  - intros Hs Hd. by apply (Hstrict m Hm Hs).
  - intros Hs Hd. simpl in *. destruct (subdomain_cases _ _ Hc Hm Hs) as [<-|(r & Hr & ->)]; [done|]. by eapply below_extend.
  - intros Hs Hd. apply (Hstrict m Hm Hs). rewrite Hapex. simpl in Hd. rewrite (proj2 (str_eqb_false _ _) Hstar) in Hd.
    cbn [orb] in Hd. by rewrite Hd.
  - intros He Hd. simpl in Hd. rewrite (proj2 (str_eqb_false _ _) Hstar) in Hd. simpl. cbn [orb] in *.
    unfold domain_eq in He. apply str_eqb_true in He. unfold settled in Hc, Hm.
    rewrite !andb_true_iff, !str_eqb_true in Hc, Hm. destruct Hc as [[Hc _] _], Hm as [[Hm _] _].
    rewrite Hc, Hm in He. subst. by rewrite Hd, orb_true_r.
Qed.

(** The global wildcard is below no ordinary pattern. *)
Lemma star_not_allowed m : settled (pattern_domain m) = true → allows m (Exact "*") = false.
Proof.
  intros Hm. apply not_true_iff_false. assert (pattern_domain m ≠ "*") as Hn by (intros E; by rewrite E in Hm).
  assert (∀ d, ends_with ("." +:+ normalize_domain d) "*" = true → False) as He.
  { intros d [r Hr]%ends_with_true. destruct r as [|a r]; [done|]. injection Hr as _ Hr.
    symmetry in Hr. by apply str_app_eq_nil in Hr as [_ ?]. }
  assert (normalize_domain (pattern_domain m) = pattern_domain m) as Hd.
  { unfold settled in Hm. rewrite !andb_true_iff, str_eqb_true in Hm. by destruct Hm as [[? _] _]. }
  destruct m as [d|d|d]; cbn [allows pattern_domain] in *;
    unfold is_subdomain_or_equal, is_strict_subdomain, domain_eq; change (normalize_domain "*") with "*".
  - intros [E|E]%orb_true_iff; [|by eapply He]. apply str_eqb_true in E. congruence.
  - intros [_ E]%andb_true_iff. by eapply He.
  - intros E%str_eqb_true. congruence.
Qed.

(** ** Ordinary domain names *)

Definition name_char (c : ascii) : bool :=
  is_ascii_lower c || is_ascii_digit c || byte_eqb c "-" || byte_eqb c ".".

(** A name in lower case without a dot at either end. *)
Definition domain_name (d : string) : bool :=
  negb (str_is_empty d) && forallb name_char (as_bytes d) && negb (starts_with "." d) && negb (ends_with "." d).

Definition visible (c : ascii) : bool := is_ascii_byte c && negb (is_whitespace (String c EmptyString)).

Lemma chars_visible s : forallb visible (as_bytes s) = true →
  chars s = (λ c, String c EmptyString) <$> as_bytes s.
Proof.
  induction s as [|c s IH]; [done|]. change (as_bytes (String c s)) with (c :: as_bytes s). cbn [forallb].
  intros [[Hc _]%andb_true_iff Hs]%andb_true_iff. rewrite chars_ascii by done. by rewrite IH.
Qed.

Lemma drop_while_none {A} (p : A → bool) l : forallb (λ x, negb (p x)) l = true → drop_while p l = l.
Proof. destruct l as [|x l]; [done|]. simpl. intros [Hx%negb_true_iff _]%andb_true_iff. by rewrite Hx. Qed.

Lemma forallb_reverse {A} (p : A → bool) l : forallb p (reverse l) = forallb p l.
Proof. apply eq_true_iff_eq. rewrite !forallb_forall. setoid_rewrite <-list_elem_of_In. by setoid_rewrite elem_of_reverse. Qed.

Lemma trim_visible_id s : forallb visible (as_bytes s) = true → trim s = s.
Proof.
  intros Hs. unfold trim. rewrite (chars_visible s Hs).
  assert (forallb (λ x, negb (is_whitespace x)) ((λ c, String c EmptyString) <$> as_bytes s) = true) as Hw.
  { rewrite forallb_forall in Hs |- *. intros x (c & -> & Hc)%list_elem_of_In%list_elem_of_fmap.
    apply list_elem_of_In, Hs in Hc. by apply andb_true_iff in Hc as [_ ?]. }
  rewrite (drop_while_none _ _ Hw). rewrite drop_while_none by (by rewrite forallb_reverse).
  rewrite reverse_involutive, <-(chars_visible s Hs). apply concat_str_chars.
Qed.

Lemma name_char_facts c : name_char c = true →
  visible c = true ∧ is_meta c = false ∧ lower_byte c = c ∧ c ∉ [":"; "%"; "["]%char.
Proof. destruct c as [[] [] [] [] [] [] [] []]; vm_compute; intros H; try discriminate H; split_and!; try done; set_solver. Qed.

Section names.
Context (d : string) (Hd : domain_name d = true).

Lemma domain_name_chars : forallb name_char (as_bytes d) = true.
Proof using Hd. unfold domain_name in Hd. by rewrite !andb_true_iff in Hd; destruct Hd as [[[_ ?] _] _]. Qed.

Lemma domain_name_all (p : ascii → bool) : (∀ c, name_char c = true → p c = true) → forallb p (as_bytes d) = true.
Proof using Hd.
  intros Hp. pose proof domain_name_chars as Hc. rewrite forallb_forall in Hc |- *. eauto.
Qed.

Lemma domain_name_free c : c ∈ [":"; "%"; "["; "*"; "?"]%char → contains_char c d = false.
Proof using Hd.
  intros Hin. unfold contains_char. apply not_true_iff_false. rewrite existsb_exists. intros (x & Hx & He).
  unfold byte_eqb in He. apply bool_decide_eq_true in He as ->.
  pose proof domain_name_chars as Hc. rewrite forallb_forall in Hc. specialize (Hc x Hx).
  revert Hc. rewrite !elem_of_cons in Hin. destruct_or! Hin; subst; try done. by apply not_elem_of_nil in Hin.
Qed.

Lemma find_needle_free needle c : contains_char c d = false → contains_char c needle = true → find needle d = None.
Proof using.
  intros Hf Hn. destruct (find needle d) as [n|] eqn:E; [|done]. apply find_some_at in E.
  apply starts_with_true in E as [r Hr]. rewrite <-(str_take_drop n d), Hr in Hf.
  rewrite !contains_char_app, Hn in Hf. by rewrite orb_true_r in Hf.
Qed.

Lemma domain_name_lower : ascii_lowercase d = d.
Proof using Hd.
  unfold ascii_lowercase. rewrite <-(of_as_bytes d) at 2. f_equal. pose proof domain_name_chars as Hc.
  revert Hc. generalize (as_bytes d). induction l as [|c l IH]; [done|]. cbn [forallb]. intros [Hc Hl]%andb_true_iff.
  rewrite fmap_cons, IH by done. by destruct (name_char_facts c Hc) as (_ & _ & -> & _).
Qed.

Lemma domain_name_end : trim_end_char "." d = d.
Proof using Hd.
  unfold trim_end_char. destruct (reverse (as_bytes d)) as [|c l] eqn:E.
  - apply (f_equal reverse) in E. rewrite reverse_involutive in E. apply (f_equal of_bytes) in E.
    rewrite of_as_bytes in E. by rewrite E.
  - cbn [drop_while]. destruct (byte_eqb "." c) eqn:Ec; [|by rewrite <-E, reverse_involutive, of_as_bytes].
    apply byte_eqb_true in Ec as <-. exfalso. unfold domain_name in Hd. rewrite !andb_true_iff in Hd.
    destruct Hd as [_ He%negb_true_iff]. apply not_true_iff_false in He. apply He, ends_with_true.
    exists (of_bytes (reverse l)). apply (f_equal reverse) in E. rewrite reverse_involutive, reverse_cons in E.
    apply (f_equal of_bytes) in E. by rewrite of_as_bytes, of_bytes_app in E.
Qed.

Lemma domain_name_trim : trim d = d.
Proof using Hd. apply trim_visible_id, domain_name_all. intros c Hc. by destruct (name_char_facts c Hc). Qed.

Lemma domain_name_host : normalize_host d = d.
Proof using Hd.
  unfold normalize_host. rewrite domain_name_trim.
  assert (starts_with "[" d = false) as ->.
  { apply not_true_iff_false. pose proof (domain_name_free "[" ltac:(set_solver)) as Hf.
    intros [r E]%starts_with_true. by rewrite E in Hf. }
  assert (count_char ":" d = 0) as ->.
  { unfold count_char. rewrite length_zero_iff_nil. pose proof (domain_name_free ":" ltac:(set_solver)) as Hf.
    unfold contains_char in Hf. induction (as_bytes d) as [|c l IH]; [done|]. simpl in *.
    apply orb_false_iff in Hf as [Hc Hl]. rewrite IH by done. unfold byte_eqb in *. by rewrite Hc. }
  rewrite decide_False by done. unfold normalize_dns_host_or_ip_literal. rewrite domain_name_lower, domain_name_end.
  unfold normalize_ip_literal, split_once. destruct (bool_decide _); [done|].
  pose proof (domain_name_free "%" ltac:(set_solver)) as Hf.
  by rewrite (find_needle_free "%25" "%" Hf eq_refl), (find_needle_free "%" "%" Hf eq_refl).
Qed.

Lemma domain_name_plain : plain d = true.
Proof using Hd. apply domain_name_all. intros c Hc. by destruct (name_char_facts c Hc) as (_ & -> & _). Qed.

Lemma domain_name_settled : settled d = true.
Proof using Hd.
  unfold settled, normalize_domain. rewrite domain_name_end, domain_name_lower, str_eqb_refl, domain_name_plain.
  unfold domain_name in Hd. rewrite !andb_true_iff in Hd. by destruct Hd as [[_ ->] _].
Qed.

Lemma domain_name_nonempty : d ≠ EmptyString.
Proof using Hd. intros E. by rewrite E in Hd. Qed.

Lemma prefixed_trim p : forallb visible (as_bytes p) = true → trim (p +:+ d) = p +:+ d.
Proof using Hd.
  intros Hp. apply trim_visible_id. rewrite as_bytes_app, forallb_app, Hp. apply domain_name_all.
  intros c Hc. by destruct (name_char_facts c Hc).
Qed.

Lemma domain_name_no_star p : contains_char "*" p = true → strip_prefix p d = None.
Proof using Hd.
  intros Hp. destruct (strip_prefix p d) as [r|] eqn:E; [|done]. apply strip_prefix_some in E.
  pose proof (domain_name_free "*" ltac:(set_solver)) as Hf. by rewrite E, contains_char_app, Hp in Hf.
Qed.

Lemma domain_name_compiled :
  compiled_pattern d = Exact d ∧ compiled_pattern ("*." +:+ d) = SubdomainsOnly d ∧
  compiled_pattern ("**." +:+ d) = ApexAndSubdomains d.
Proof using Hd.
  pose proof domain_name_nonempty as Hn. pose proof (proj2 (str_is_empty_false _) Hn) as He.
  unfold compiled_pattern, normalize_pattern, pattern_parse, parse_domain.
  rewrite !prefixed_trim by reflexivity. rewrite domain_name_trim.
  assert (str_eqb d "*" = false) as ->.
  { apply str_eqb_false. intros E. pose proof (domain_name_free "*" ltac:(set_solver)) as Hf. by rewrite E in Hf. }
  rewrite !domain_name_no_star by reflexivity.
  assert (∀ p, contains_char "." p = true → str_eqb (p +:+ d) "*" = false) as Hne.
  { intros p Hp. apply str_eqb_false. intros E. apply (f_equal (contains_char ".")) in E.
    rewrite contains_char_app, Hp in E. done. }
  rewrite !Hne by reflexivity.
  assert (strip_prefix "**." ("*." +:+ d) = None) as -> by done.
  assert (∀ p, strip_prefix p (p +:+ d) = Some d) as Hs by (intros p; by apply strip_prefix_some).
  rewrite !Hs, domain_name_host, domain_name_trim, !prefixed_trim, He, !domain_name_no_star, !Hs by reflexivity.
  assert (strip_prefix "**." ("*." +:+ d) = None) as -> by done.
  assert (∀ p, str_is_empty p = false → str_is_empty (p +:+ d) = false) as Hpe.
  { intros p Hp. apply str_is_empty_false. apply str_is_empty_false in Hp. intros [? _]%str_app_eq_nil. done. }
  by rewrite !Hpe, domain_name_trim, He by reflexivity.
Qed.

Lemma domain_name_ordinary `{UrlHosts} :
  url_host_parse d = Some d → ordinary d ∧ ordinary ("*." +:+ d) ∧ ordinary ("**." +:+ d).
Proof using Hd.
  intros Hu. unfold ordinary. destruct domain_name_compiled as (-> & -> & ->). cbn [pattern_domain].
  rewrite domain_name_settled. unfold parse_for_constraints. rewrite !prefixed_trim by reflexivity. rewrite domain_name_trim.
  pose proof (proj2 (str_is_empty_false _) domain_name_nonempty) as He.
  assert (parse_domain_for_constraints d = d) as Hp.
  { unfold parse_domain_for_constraints. rewrite domain_name_trim, domain_name_end, He.
    assert (starts_with "[" d = false) as ->.
    { apply not_true_iff_false. pose proof (domain_name_free "[" ltac:(set_solver)) as Hf.
      intros [r E]%starts_with_true. by rewrite E in Hf. }
    cbn [andb]. rewrite !domain_name_free by set_solver. cbn [orb]. by rewrite Hu. }
  rewrite !domain_name_no_star, Hp, He by reflexivity.
  assert (∀ p, strip_prefix p (p +:+ d) = Some d) as Hs by (intros p; by apply strip_prefix_some). rewrite !Hs, Hp.
  assert (strip_prefix "**." ("*." +:+ d) = None) as -> by done.
  done.
Qed.
End names.

(** ** Letter case of entries does not matter *)

Lemma normalize_dns_lower s :
  normalize_dns_host_or_ip_literal (ascii_lowercase s) = normalize_dns_host_or_ip_literal s.
Proof. unfold normalize_dns_host_or_ip_literal. by rewrite ascii_lowercase_idem. Qed.

Lemma count_char_lower c s : caseless c = true → count_char c (ascii_lowercase s) = count_char c s.
Proof.
  intros Hc. unfold count_char. rewrite as_bytes_lower. induction (as_bytes s) as [|a l IH]; [done|].
  cbn [fmap list_fmap List.filter]. rewrite byte_eqb_lower_r by done. destruct (byte_eqb c a); cbn [length]; by rewrite IH.
Qed.

Lemma normalize_host_lower s : normalize_host (ascii_lowercase s) = normalize_host s.
Proof.
  unfold normalize_host. rewrite trim_lower, starts_with_lower, find_lower, count_char_lower, split_char_lower by done.
  destruct (if starts_with "[" (trim s) then _ else _) as [stop|].
  - by rewrite str_take_lower, str_drop_lower, normalize_dns_lower.
  - destruct (decide _); [|apply normalize_dns_lower]. destruct (split_char ":" (trim s)) as [|x l]; [done|].
    apply normalize_dns_lower.
Qed.

Lemma normalize_pattern_lower s : normalize_pattern (ascii_lowercase s) = normalize_pattern s.
Proof.
  unfold normalize_pattern. rewrite trim_lower, str_eqb_lower, !strip_prefix_lower by done.
  destruct (str_eqb (trim s) "*"); [done|]. destruct (strip_prefix "**." (trim s)) as [d|]; cbn [fmap option_fmap option_map].
  { by rewrite normalize_host_lower. }
  destruct (strip_prefix "*." (trim s)) as [d|]; cbn [fmap option_fmap option_map]; by rewrite normalize_host_lower.
Qed.

Lemma compiled_pattern_case e e' : ascii_lowercase e' = ascii_lowercase e → compiled_pattern e' = compiled_pattern e.
Proof. intros He. unfold compiled_pattern. by rewrite <-(normalize_pattern_lower e'), He, normalize_pattern_lower. Qed.
