(* ===== verification/NetConfig.v ===== *)
(** * Configuration of the network proxy

    codex-rs/network-proxy/src/config.rs, with the configuration types of mitm_hook.rs.

    [BTreeMap]s that are iterated are association lists sorted by key; the map of
    [effective_entries] is a [gmap] beside the list that keeps its order.  The JSON of a
    hook's body, which no configuration may use yet, is a parameter with its equality; so is
    the URL parser.  Of an error only the outermost message is kept. *)

From stdpp Require Import base gmap list strings.
From S2P Require Import Prelude Str Fragments AbsPath IpAddr.
From Stdlib Require Import Lia.

Class HookBody := { Body : Type; #[global] Body_eq_dec :: EqDecision Body }.

(** [Url::parse], then [host_str] and [port]. *)
Class Urls := { url_parse : string → option (option string * option N) }.

(** ** mitm_hook.rs: configuration types *)

Section config_types.
Context `{HookBody}.

Record MitmHookMatchConfig := {
  methods : list string;
  path_prefixes : list string;
  query : list (string * list string);
  headers : list (string * list string);
  body : option Body;
}.

Record InjectedHeaderConfig := {
  inject_name : string;
  secret_env_var : option string;
  secret_file : option string;
  inject_prefix : option string;
}.

Record MitmHookActionsConfig := {
  strip_request_headers : list string;
  inject_request_headers : list InjectedHeaderConfig;
}.

Record MitmHookConfig := {
  hook_host : string;
  matcher : MitmHookMatchConfig;
  actions : MitmHookActionsConfig;
}.

(** ** Permissions *)

Inductive NetworkDomainPermission := PermNone | PermAllow | PermDeny.

Record NetworkDomainPermissionEntry := { pattern : string; permission : NetworkDomainPermission }.

Inductive NetworkUnixSocketPermission := SocketAllow | SocketDeny.

Inductive NetworkMode := Limited | Full.

Record NetworkProxySettings := {
  enabled : bool;
  proxy_url : string;
  enable_socks5 : bool;
  socks_url : string;
  enable_socks5_udp : bool;
  allow_upstream_proxy : bool;
  dangerously_allow_non_loopback_proxy : bool;
  dangerously_allow_all_unix_sockets : bool;
  mode : NetworkMode;
  domains : option (list NetworkDomainPermissionEntry);
  unix_sockets : option (list (string * NetworkUnixSocketPermission));
  allow_local_binding : bool;
  mitm : bool;
  mitm_hooks : list MitmHookConfig;
}.

#[export] Instance NetworkDomainPermission_eq_dec : EqDecision NetworkDomainPermission.
Proof. solve_decision. Defined.
#[export] Instance NetworkUnixSocketPermission_eq_dec : EqDecision NetworkUnixSocketPermission.
Proof. solve_decision. Defined.
#[export] Instance NetworkMode_eq_dec : EqDecision NetworkMode.
Proof. solve_decision. Defined.
#[export] Instance NetworkDomainPermissionEntry_eq_dec : EqDecision NetworkDomainPermissionEntry.
Proof. solve_decision. Defined.
#[export] Instance InjectedHeaderConfig_eq_dec : EqDecision InjectedHeaderConfig.
Proof. solve_decision. Defined.
#[export] Instance MitmHookActionsConfig_eq_dec : EqDecision MitmHookActionsConfig.
Proof. solve_decision. Defined.
#[export] Instance MitmHookMatchConfig_eq_dec : EqDecision MitmHookMatchConfig.
Proof. solve_decision. Defined.
#[export] Instance MitmHookConfig_eq_dec : EqDecision MitmHookConfig.
Proof. solve_decision. Defined.
#[export] Instance NetworkProxySettings_eq_dec : EqDecision NetworkProxySettings.
Proof. solve_decision. Defined.

Definition default_proxy_url : string := "http://127.0.0.1:3128".
Definition default_socks_url : string := "http://127.0.0.1:8081".

Definition settings_default : NetworkProxySettings := {|
  enabled := false; proxy_url := default_proxy_url; enable_socks5 := true; socks_url := default_socks_url;
  enable_socks5_udp := true; allow_upstream_proxy := true; dangerously_allow_non_loopback_proxy := false;
  dangerously_allow_all_unix_sockets := false; mode := Full; domains := None; unix_sockets := None;
  allow_local_binding := false; mitm := false; mitm_hooks := [];
|}.

Definition set_domains (s : NetworkProxySettings) (d : option (list NetworkDomainPermissionEntry)) :
    NetworkProxySettings := {|
  enabled := enabled s; proxy_url := proxy_url s; enable_socks5 := enable_socks5 s; socks_url := socks_url s;
  enable_socks5_udp := enable_socks5_udp s; allow_upstream_proxy := allow_upstream_proxy s;
  dangerously_allow_non_loopback_proxy := dangerously_allow_non_loopback_proxy s;
  dangerously_allow_all_unix_sockets := dangerously_allow_all_unix_sockets s; mode := mode s; domains := d;
  unix_sockets := unix_sockets s; allow_local_binding := allow_local_binding s; mitm := mitm s;
  mitm_hooks := mitm_hooks s;
|}.

Definition set_unix_sockets (s : NetworkProxySettings) (u : option (list (string * NetworkUnixSocketPermission))) :
    NetworkProxySettings := {|
  enabled := enabled s; proxy_url := proxy_url s; enable_socks5 := enable_socks5 s; socks_url := socks_url s;
  enable_socks5_udp := enable_socks5_udp s; allow_upstream_proxy := allow_upstream_proxy s;
  dangerously_allow_non_loopback_proxy := dangerously_allow_non_loopback_proxy s;
  dangerously_allow_all_unix_sockets := dangerously_allow_all_unix_sockets s; mode := mode s; domains := domains s;
  unix_sockets := u; allow_local_binding := allow_local_binding s; mitm := mitm s; mitm_hooks := mitm_hooks s;
|}.

Definition set_mode (s : NetworkProxySettings) (m : NetworkMode) : NetworkProxySettings := {|
  enabled := enabled s; proxy_url := proxy_url s; enable_socks5 := enable_socks5 s; socks_url := socks_url s;
  enable_socks5_udp := enable_socks5_udp s; allow_upstream_proxy := allow_upstream_proxy s;
  dangerously_allow_non_loopback_proxy := dangerously_allow_non_loopback_proxy s;
  dangerously_allow_all_unix_sockets := dangerously_allow_all_unix_sockets s; mode := m; domains := domains s;
  unix_sockets := unix_sockets s; allow_local_binding := allow_local_binding s; mitm := mitm s;
  mitm_hooks := mitm_hooks s;
|}.

(** The derived order [None < Allow < Deny]. *)
Definition permission_rank (p : NetworkDomainPermission) : nat :=
  match p with PermNone => 0 | PermAllow => 1 | PermDeny => 2 end.

Definition effective_step (acc : list string * gmap string NetworkDomainPermission) (e : NetworkDomainPermissionEntry) :
    list string * gmap string NetworkDomainPermission :=
  let '(order, m) := acc in
  match m !! pattern e with
  | None => (order ++ [pattern e], <[pattern e := permission e]> m)
  | Some p => (order, if permission_rank p <? permission_rank (permission e) then <[pattern e := permission e]> m else m)
  end.

(** The entries in order, each taken out of the map. *)
Fixpoint take_entries (order : list string) (m : gmap string NetworkDomainPermission) : list NetworkDomainPermissionEntry :=
  match order with
  | [] => []
  | p :: order' =>
      match m !! p with
      | Some perm => {| pattern := p; permission := perm |} :: take_entries order' (delete p m)
      | None => take_entries order' m
      end
  end.

Definition effective_entries (entries : list NetworkDomainPermissionEntry) : list NetworkDomainPermissionEntry :=
  let '(order, m) := fold_left effective_step entries ([], ∅) in take_entries order m.

Definition domain_entries (s : NetworkProxySettings) (perm : NetworkDomainPermission) : option (list string) :=
  match domains s with
  | None => None
  | Some entries =>
      match pattern <$> List.filter (λ e, bool_decide (permission e = perm)) (effective_entries entries) with
      | [] => None
      | l => Some l
      end
  end.

Definition allowed_domains (s : NetworkProxySettings) : option (list string) := domain_entries s PermAllow.
Definition denied_domains (s : NetworkProxySettings) : option (list string) := domain_entries s PermDeny.

Definition allow_unix_sockets (s : NetworkProxySettings) : list string :=
  fst <$> List.filter (λ '(_, p), bool_decide (p = SocketAllow)) (default [] (unix_sockets s)).

Definition some_entries {A} (l : list A) : option (list A) := match l with [] => None | _ => Some l end.

Definition set_domain_entries (s : NetworkProxySettings) (entries : list string) (perm : NetworkDomainPermission) :
    NetworkProxySettings :=
  let kept := List.filter (λ e, negb (bool_decide (permission e = perm))) (default [] (domains s)) in
  let add (acc : list NetworkDomainPermissionEntry) (entry : string) :=
    if existsb (λ e, str_eqb (pattern e) entry && bool_decide (permission e = perm)) acc then acc
    else acc ++ [{| pattern := entry; permission := perm |}] in
  set_domains s (some_entries (fold_left add entries kept)).

Definition set_allowed_domains (s : NetworkProxySettings) (l : list string) : NetworkProxySettings :=
  set_domain_entries s l PermAllow.
Definition set_denied_domains (s : NetworkProxySettings) (l : list string) : NetworkProxySettings :=
  set_domain_entries s l PermDeny.

Definition upsert_domain_permission (normalize : string → string) (s : NetworkProxySettings) (host : string)
    (perm : NetworkDomainPermission) : NetworkProxySettings :=
  let normalized_host := normalize host in
  let kept := List.filter (λ e, negb (str_eqb (normalize (pattern e)) normalized_host)) (default [] (domains s)) in
  set_domains s (some_entries (kept ++ [{| pattern := host; permission := perm |}])).

(** [BTreeMap::insert] *)
Fixpoint socket_insert (k : string) (v : NetworkUnixSocketPermission) (l : list (string * NetworkUnixSocketPermission)) :
    list (string * NetworkUnixSocketPermission) :=
  match l with
  | [] => [(k, v)]
  | (k', v') :: rest =>
      match String.compare k k' with
      | Lt => (k, v) :: l
      | Eq => (k, v) :: rest
      | Gt => (k', v') :: socket_insert k v rest
      end
  end.

Definition set_unix_socket_entries (s : NetworkProxySettings) (entries : list string) (perm : NetworkUnixSocketPermission) :
    NetworkProxySettings :=
  let kept := List.filter (λ '(_, p), negb (bool_decide (p = perm))) (default [] (unix_sockets s)) in
  set_unix_sockets s (some_entries (fold_left (λ acc entry, socket_insert entry perm acc) entries kept)).

Definition set_allow_unix_sockets (s : NetworkProxySettings) (l : list string) : NetworkProxySettings :=
  set_unix_socket_entries s l SocketAllow.

Definition allows_method (m : NetworkMode) (method : string) : bool :=
  match m with
  | Full => true
  | Limited => str_eqb method "GET" || str_eqb method "HEAD" || str_eqb method "OPTIONS"
  end.

(** ** Listening addresses *)

Definition SocketAddr : Type := IpAddr * N.

Definition loopback_addr (port : N) : SocketAddr := (V4 (v4 127 0 0 1), port).

Definition clamp_non_loopback (addr : SocketAddr) (allow_non_loopback : bool) : SocketAddr :=
  if ip_is_loopback addr.1 then addr
  else if allow_non_loopback then addr
  else loopback_addr addr.2.

Definition clamp_bind_addrs (http_addr socks_addr : SocketAddr) (cfg : NetworkProxySettings) : SocketAddr * SocketAddr :=
  let http_addr := clamp_non_loopback http_addr (dangerously_allow_non_loopback_proxy cfg) in
  let socks_addr := clamp_non_loopback socks_addr (dangerously_allow_non_loopback_proxy cfg) in
  if match allow_unix_sockets cfg with [] => negb (dangerously_allow_all_unix_sockets cfg) | _ => false end
  then (http_addr, socks_addr)
  else (loopback_addr http_addr.2, loopback_addr socks_addr.2).

Inductive ValidatedUnixSocketPath :=
| Native (path : PathBuf)
| UnixStyleAbsolute (path : string).

(** Unix build: [Path::is_absolute] is a leading slash, so the second form is not reached. *)
Definition socket_path_parse `{PathEnv} (socket_path : string) : Result ValidatedUnixSocketPath string :=
  if is_absolute socket_path then
    match from_absolute_path socket_path with
    | Some path => Ok (Native path)
    | None => Err "failed to normalize unix socket path"
    end
  else if starts_with "/" socket_path then Ok (UnixStyleAbsolute socket_path)
  else Err "expected an absolute path".

Definition validate_unix_socket_allowlist_paths `{PathEnv} (cfg : NetworkProxySettings) : Result unit string :=
  fold_res (λ _ '(index, socket_path),
      let? _ := map_err (λ _, "invalid network.allow_unix_sockets[" +:+ fmt_nat index +:+ "]")
                  (socket_path_parse socket_path) in Ok ())
    () (imap pair (allow_unix_sockets cfg)).
End config_types.

(** ** Host and port *)

Record SocketAddressParts := { parts_host : string; parts_port : N }.

(** [str::parse::<u16>]: an optional plus sign and digits. *)
Fixpoint u16_digits (acc : N) (s : string) : option N :=
  match s with
  | EmptyString => Some acc
  | String c rest =>
      if is_ascii_digit c then
        let acc := (acc * 10 + (byte_val c - 48))%N in
        if (acc <? 65536)%N then u16_digits acc rest else None
      else None
  end.

Definition parse_u16 (s : string) : option N :=
  let digits := default s (strip_prefix "+" s) in
  if str_is_empty digits then None else u16_digits 0 digits.

(** [str::rsplit_once] for a character. *)
Definition rsplit_once_char (c : ascii) (s : string) : option (string * string) :=
  match reverse (split_char c s) with
  | last :: (_ :: _) as before => Some (join (String c EmptyString) (reverse before), last)
  | _ => None
  end.

(** [trim_matches(|c| c == '[' || c == ']')] *)
Definition trim_brackets (s : string) : string :=
  let bracket (c : ascii) : bool := byte_eqb c "[" || byte_eqb c "]" in
  of_bytes (reverse (drop_while bracket (reverse (drop_while bracket (as_bytes s))))).

Definition missing_host (input : string) : string := "missing host in network proxy address: " +:+ input.

Definition parse_host_port_fallback (input : string) (default_port : N) : Result SocketAddressParts string :=
  let without_scheme := default input (snd <$> split_once "://" input) in
  let host_port := default without_scheme (head (split_char "/" without_scheme)) in
  let host_port := default host_port (snd <$> rsplit_once_char "@" host_port) in
  match (if starts_with "[" host_port then find "]" host_port else None) with
  | Some stop =>
      let host := str_drop 1 (str_take stop host_port) in
      let port := default default_port (strip_prefix ":" (str_drop (stop + 1) host_port) ≫= parse_u16) in
      if str_is_empty host then Err (missing_host input) else Ok {| parts_host := host; parts_port := port |}
  | None =>
      match (if decide (length (List.filter (byte_eqb ":") (as_bytes host_port)) = 1)
             then rsplit_once_char ":" host_port else None) with
      | Some (host, port) =>
          if str_is_empty host then Err (missing_host input)
          else Ok {| parts_host := host; parts_port := default default_port (parse_u16 port) |}
      | None =>
          if str_is_empty host_port then Err (missing_host input)
          else Ok {| parts_host := host_port; parts_port := default_port |}
      end
  end.

Definition parse_host_port `{Urls} (url : string) (default_port : N) : Result SocketAddressParts string :=
  let trimmed := trim url in
  if str_is_empty trimmed then Err (missing_host url)
  else if match parse_ip trimmed with Some (V6 _) => negb (starts_with "[" trimmed) | _ => false end
  then Ok {| parts_host := trimmed; parts_port := default_port |}
  else
    let candidate := if contains "://" trimmed then trimmed else "http://" +:+ trimmed in
    match url_parse candidate with
    | Some (Some host, port) =>
        let host := trim_brackets host in
        if str_is_empty host then Err (missing_host url)
        else Ok {| parts_host := host; parts_port := default default_port port |}
    | _ => parse_host_port_fallback trimmed default_port
    end.

Definition resolve_addr `{Urls} (url : string) (default_port : N) : Result SocketAddr string :=
  let? addr_parts := parse_host_port url default_port in
  let host := if eq_ignore_ascii_case (parts_host addr_parts) "localhost" then "127.0.0.1" else parts_host addr_parts in
  match parse_ip host with
  | Some ip => Ok (ip, parts_port addr_parts)
  | None => Ok (loopback_addr (parts_port addr_parts))
  end.

Record RuntimeConfig := { http_addr : SocketAddr; socks_addr : SocketAddr }.

Definition resolve_runtime `{HookBody, PathEnv, Urls} (cfg : NetworkProxySettings) : Result RuntimeConfig string :=
  let? _ := validate_unix_socket_allowlist_paths cfg in
  let? http := map_err (λ _, "invalid network.proxy_url: " +:+ proxy_url cfg) (resolve_addr (proxy_url cfg) 3128) in
  let? socks := map_err (λ _, "invalid network.socks_url: " +:+ socks_url cfg) (resolve_addr (socks_url cfg) 8081) in
  let '(http, socks) := clamp_bind_addrs http socks cfg in
  Ok {| http_addr := http; socks_addr := socks |}.

Definition format_host_and_port (host : string) (port : N) : string :=
  if contains_char ":" host then "[" +:+ host +:+ "]:" +:+ pretty port else host +:+ ":" +:+ pretty port.

Definition host_and_port_from_network_addr `{Urls} (value : string) (default_port : N) : string :=
  let trimmed := trim value in
  if str_is_empty trimmed then "<missing>"
  else match parse_host_port trimmed default_port with
       | Ok parts => format_host_and_port (parts_host parts) (parts_port parts)
       | Err _ => format_host_and_port trimmed default_port
       end.

Example host_port_examples :
  rsplit_once_char "@" "a@b@c" = Some ("a@b", "c") ∧ parse_u16 "+080" = Some 80%N ∧ parse_u16 "65536" = None ∧
  parse_host_port_fallback "http://u:p@[::1]:99/x" 8081 = Ok {| parts_host := "::1"; parts_port := 99 |} ∧
  parse_host_port_fallback "localhost:bad" 8081 = Ok {| parts_host := "localhost"; parts_port := 8081 |}.
Proof. split_and!; vm_compute; reflexivity. Qed.

(** ** Effective permissions *)

Section effective.
Context `{HookBody}.

(** The strongest permission the entries give a pattern. *)
Definition strongest (entries : list NetworkDomainPermissionEntry) (p : string) (perm : NetworkDomainPermission) : Prop :=
  (∃ e, e ∈ entries ∧ pattern e = p ∧ permission e = perm) ∧
  ∀ e, e ∈ entries → pattern e = p → permission_rank (permission e) ≤ permission_rank perm.

Lemma rank_inj p q : permission_rank p = permission_rank q → p = q.
Proof. by destruct p, q. Qed.

Lemma strongest_unique es p a b : strongest es p a → strongest es p b → a = b.
Proof.
  intros [(e & He & Hp & <-) Ha] [(e' & He' & Hp' & <-) Hb]. apply rank_inj.
  pose proof (Ha _ He' Hp'). pose proof (Hb _ He Hp). lia.
Qed.

(** The same, computed. *)
Definition stronger (acc : option NetworkDomainPermission) (perm : NetworkDomainPermission) : NetworkDomainPermission :=
  match acc with
  | Some q => if permission_rank q <? permission_rank perm then perm else q
  | None => perm
  end.

Definition best (entries : list NetworkDomainPermissionEntry) (p : string) : option NetworkDomainPermission :=
  fold_left (λ acc e, if str_eqb (pattern e) p then Some (stronger acc (permission e)) else acc) entries None.

Lemma best_snoc es e p :
  best (es ++ [e]) p = if str_eqb (pattern e) p then Some (stronger (best es p) (permission e)) else best es p.
Proof. unfold best. by rewrite fold_left_app. Qed.

Lemma best_strongest es p :
  match best es p with
  | Some perm => strongest es p perm
  | None => ∀ e, e ∈ es → pattern e ≠ p
  end.
Proof.
  induction es as [|e es IH] using rev_ind; [intros e; set_solver|]. rewrite best_snoc.
  assert (∀ x, x ∈ es ++ [e] ↔ x ∈ es ∨ x = e) as Hin by (intros x; by rewrite elem_of_app, list_elem_of_singleton).
  destruct (str_eqb (pattern e) p) eqn:E; [apply str_eqb_true in E|apply str_eqb_false in E].
  - unfold strongest in *. setoid_rewrite Hin. destruct (best es p) as [q|]; cbn [stronger]; [|naive_solver].
    destruct IH as [(x & Hx & Hp & <-) Hall].
    destruct (Nat.ltb_spec (permission_rank (permission x)) (permission_rank (permission e))).
    + split; [by exists e; auto|]. intros y [Hy| ->] Hpy; [|done]. specialize (Hall y Hy Hpy). lia.
    + split; [exists x; auto|]. intros y [Hy| ->] Hpy; [by apply Hall|done].
  - unfold strongest in *. destruct (best es p); setoid_rewrite Hin; naive_solver.
Qed.

Lemma best_some es p perm : best es p = Some perm ↔ strongest es p perm.
Proof.
  pose proof (best_strongest es p) as Hb. split; [by intros E; rewrite E in Hb|]. intros Hs.
  destruct (best es p) as [q|].
  - by rewrite (strongest_unique _ _ _ _ Hb Hs).
  - destruct Hs as [(e & He & Hp & _) _]. by destruct (Hb e He).
Qed.

Lemma effective_fold es order m :
  fold_left effective_step es ([], ∅) = (order, m) → NoDup order ∧ (∀ p, p ∈ order ↔ is_Some (m !! p)) ∧ ∀ p, m !! p = best es p.
Proof.
  revert order m. induction es as [|e es IH] using rev_ind; intros order m; cbn [fold_left].
  { intros [= <- <-]. split_and!; [constructor| |done]. intros p. rewrite lookup_empty. split; [set_solver|by intros []]. }
  rewrite fold_left_app. cbn [fold_left]. destruct (fold_left _ es _) as [order' m'] eqn:Ef.
  destruct (IH _ _ eq_refl) as (Hnd & Hdom & Hm). unfold effective_step. rewrite Hm.
  intros Hstep. setoid_rewrite best_snoc. setoid_rewrite <-Hm.
  assert (∀ p, str_eqb (pattern e) p = bool_decide (pattern e = p)) as Hdec by done. setoid_rewrite Hdec.
  destruct (best es (pattern e)) as [q|] eqn:Eq; simplify_eq.
  - split_and!; [done|..]; intros p; destruct (decide (pattern e = p)) as [<-|Hne];
      rewrite ?bool_decide_eq_true_2, ?bool_decide_eq_false_2 by done; rewrite ?Hdom, ?Hm, ?Eq; cbn [stronger];
      destruct (_ <? _); rewrite ?lookup_insert_eq, ?lookup_insert_ne, ?Hm, ?Eq by done; naive_solver.
  - split_and!.
    + apply NoDup_app. split_and!; [done| |apply NoDup_singleton]. intros p Hp%Hdom ->%list_elem_of_singleton.
      rewrite Hm, Eq in Hp. by destruct Hp.
    + intros p. rewrite elem_of_app, list_elem_of_singleton, Hdom. destruct (decide (pattern e = p)) as [<-|Hne];
        rewrite ?lookup_insert_eq, ?lookup_insert_ne by done; naive_solver.
    + intros p. destruct (decide (pattern e = p)) as [<-|Hne];
        rewrite ?bool_decide_eq_true_2, ?bool_decide_eq_false_2, ?lookup_insert_eq, ?lookup_insert_ne, ?Hm, ?Eq by done; done.
Qed.

Lemma take_entries_spec order : ∀ m e, NoDup order →
  e ∈ take_entries order m ↔ pattern e ∈ order ∧ m !! pattern e = Some (permission e).
Proof.
  induction order as [|p order IH]; intros m e Hnd; cbn [take_entries]; [set_solver|].
  apply NoDup_cons in Hnd as [Hp Hnd]. destruct (m !! p) as [perm|] eqn:Em.
  - rewrite !elem_of_cons, IH by done. split.
    + intros [->|[Hin Hl]]; [by split; [left|]|]. rewrite lookup_delete_ne in Hl by (intros ->; done). auto.
    + intros [[Heq|Hin] Hl].
      * left. destruct e as [ep eperm]; simpl in *. congruence.
      * right. split; [done|]. rewrite lookup_delete_ne; [done|]. intros ->; done.
  - rewrite elem_of_cons, IH by done. naive_solver.
Qed.

(** The effective entries are the patterns with their strongest permission. *)
Lemma effective_entries_spec es e : e ∈ effective_entries es ↔ strongest es (pattern e) (permission e).
Proof.
  unfold effective_entries. destruct (fold_left _ es _) as [order m] eqn:Ef.
  destruct (effective_fold _ _ _ Ef) as (Hnd & Hdom & Hm). rewrite take_entries_spec, Hdom, Hm, best_some by done.
  rewrite <-best_some. split; [by intros [_ ?]|]. intros Hb. split; [by rewrite Hb|done].
Qed.

Lemma domain_entries_spec s perm p :
  p ∈ default [] (domain_entries s perm) ↔ strongest (default [] (domains s)) p perm.
Proof.
  unfold domain_entries. destruct (domains s) as [es|]; cbn [default].
  2:{ split; [set_solver|]. intros [(e & He & _) _]. set_solver. }
  assert (p ∈ pattern <$> List.filter (λ e, bool_decide (permission e = perm)) (effective_entries es) ↔
          strongest es p perm) as Hin.
  { rewrite list_elem_of_fmap. setoid_rewrite list_elem_of_In. setoid_rewrite filter_In. setoid_rewrite <-list_elem_of_In.
    setoid_rewrite bool_decide_eq_true. setoid_rewrite effective_entries_spec. split.
    - by intros (e & -> & Hs & <-).
    - intros Hs. by exists {| pattern := p; permission := perm |}. }
  rewrite <-Hin. by destruct (pattern <$> _).
Qed.

(** Deny wins: a pattern that any entry denies is denied, and no pattern is both. *)
Lemma deny_wins s e es :
  domains s = Some es → e ∈ es → permission e = PermDeny →
  pattern e ∈ default [] (denied_domains s) ∧ pattern e ∉ default [] (allowed_domains s).
Proof.
  intros Hs He Hp. unfold denied_domains, allowed_domains. rewrite !domain_entries_spec, Hs. cbn [default].
  assert (strongest es (pattern e) PermDeny) as Hd.
  { split; [eauto|]. intros e' _ _. destruct (permission e'); simpl; lia. }
  split; [done|]. intros Ha. by pose proof (strongest_unique _ _ _ _ Hd Ha).
Qed.

(** Setting a permission for a host takes effect for the host's own pattern. *)
Lemma upsert_effective normalize s host perm :
  host ∈ default [] (domain_entries (upsert_domain_permission normalize s host perm) perm).
Proof.
  apply domain_entries_spec. unfold upsert_domain_permission. cbn [domains set_domains].
  set (kept := List.filter _ _). assert (default [] (some_entries (kept ++ [{| pattern := host; permission := perm |}])) =
    kept ++ [{| pattern := host; permission := perm |}]) as -> by (by destruct kept).
  split; [exists {| pattern := host; permission := perm |}; set_solver|].
  intros e [He| ->%list_elem_of_singleton]%elem_of_app Hp; [|done].
  exfalso. subst kept. apply list_elem_of_In, filter_In in He as [_ He]. by rewrite Hp, str_eqb_refl in He.
Qed.

(** ** The proxy listens on loopback *)

(** Unless the configuration asks for other addresses, and always when unix sockets can be
    reached through the proxy, both addresses are loopback ones; the ports are kept. *)
Lemma clamp_loopback cfg h k :
  dangerously_allow_non_loopback_proxy cfg = false ∨ allow_unix_sockets cfg ≠ [] ∨
  dangerously_allow_all_unix_sockets cfg = true →
  let '(h', k') := clamp_bind_addrs h k cfg in
  ip_is_loopback h'.1 = true ∧ ip_is_loopback k'.1 = true ∧ h'.2 = h.2 ∧ k'.2 = k.2.
Proof.
  assert (∀ a b, (clamp_non_loopback a b).2 = a.2) as Hport.
  { intros a b. unfold clamp_non_loopback. by repeat case_match. }
  intros Hc. unfold clamp_bind_addrs. destruct (match allow_unix_sockets cfg with [] => _ | _ => _ end) eqn:E.
  - destruct Hc as [->|[Hc|Hc]].
    + assert (∀ a, ip_is_loopback (clamp_non_loopback a false).1 = true) as Hl.
      { intros a. unfold clamp_non_loopback. by destruct (ip_is_loopback a.1) eqn:Ea. }
      split_and!; auto.
    + by destruct (allow_unix_sockets cfg).
    + destruct (allow_unix_sockets cfg); [|done]. by rewrite Hc in E.
  - split_and!; simpl; auto.
Qed.
End effective.
