(* ===== verification/MitmHook.v ===== *)
(** * Hooks on intercepted requests

    codex-rs/network-proxy/src/mitm_hook.rs: validation and compilation of the hooks of a
    configuration, and their evaluation on a request.

    The glob library, the parsers of header names, header values and query strings, the
    environment and the files with secrets are parameters.  An error is its outermost
    message, as a value with the data it prints. *)

From stdpp Require Import base gmap list strings.
From S2P Require Import Prelude Str AbsPath IpAddr HostPolicy NetConfig.

Class HookHost := {
  HookGlob : Type;
  (** [GlobBuilder::new(_).backslash_escape(true).literal_separator(_)] *)
  hook_glob : bool → string → option HookGlob;
  hook_glob_match : HookGlob → string → bool;
  (** [HeaderName::from_bytes], [HeaderValue::from_str] *)
  header_name : string → option string;
  header_value : string → option string;
  (** [env::var(_).ok()], [fs::read_to_string(_).ok()] *)
  secret_env : string → option string;
  secret_content : PathBuf → option string;
  (** [form_urlencoded::parse] *)
  query_pairs : string → list (string * string);
}.

Inductive HookError :=
| RequiresMitm
| InvalidField (hook_index : nat) (field : string)
| MethodsMissing (hook_index : nat)
| PathsMissing (hook_index : nat)
| BodyUnsupported (hook_index : nat)
| HookHostEmpty (hook_index : nat)
| HostEmpty
| HostWildcard
| MethodEmpty
| PathEmpty
| GlobEmpty
| GlobInvalid (pattern : string)
| QueryKeyEmpty
| QueryValueMissing (name : string)
| QueryMatcherInvalid (name : string)
| HeaderMatcherInvalid (name : string)
| HeaderNameInvalid (name : string)
| SecretEnvEmpty
| SecretSourceCount
| SecretFileEmpty
| SecretFileRelative (path : string)
| SecretEnvMissing (name : string)
| SecretUnreadable (path : PathBuf)
| InjectedValueInvalid (name : string)
| InjectedHeaderFailed (name : string).

Inductive SecretSource := EnvVar (name : string) | SecretFile (path : PathBuf).

Section hooks.
Context `{HookBody, HookHost, PathEnv}.

Inductive PathMatcher := PathPrefix (prefix : string) | PathGlob (glob : HookGlob).
Inductive ValueMatcher := ValueExact (value : string) | ValueGlob (glob : HookGlob).
Inductive MatcherPattern := PatternLiteral (s : string) | PatternGlob (s : string).

Record QueryConstraint := { query_name : string; query_values : list ValueMatcher }.
Record HeaderConstraint := { constraint_header : string; header_values : list ValueMatcher }.

Record MitmHookMatcher := {
  hook_methods : list string;
  hook_paths : list PathMatcher;
  hook_query : list QueryConstraint;
  hook_headers : list HeaderConstraint;
}.

Record ResolvedInjectedHeader := { injected_name : string; injected_value : string; injected_source : SecretSource }.

Record MitmHookActions := { strip_headers : list string; inject_headers : list ResolvedInjectedHeader }.

Record MitmHook := { host : string; hook_matcher : MitmHookMatcher; hook_actions : MitmHookActions }.

Inductive HookEvaluation :=
| NoHooksForHost
| Matched (actions : MitmHookActions)
| HookedHostNoMatch.

(** [iter().map(f).collect::<Result<Vec<_>>>()] *)
Fixpoint collect {A B E} (f : A → Result B E) (l : list A) : Result (list B) E :=
  match l with
  | [] => Ok []
  | x :: l' => let? y := f x in let? ys := collect f l' in Ok (y :: ys)
  end.

Definition for_each {A E} (f : A → Result unit E) (l : list A) : Result unit E := fold_res (λ _ x, f x) () l.

(** ** Reading the configuration *)

Definition parse_matcher_pattern (pat : string) : Result MatcherPattern HookError :=
  match strip_prefix "literal:" pat with
  | Some literal => Ok (PatternLiteral literal)
  | None =>
      match strip_prefix "pattern:" pat with
      | None => Ok (PatternLiteral pat)
      | Some glob_pattern => if str_is_empty glob_pattern then Err GlobEmpty else Ok (PatternGlob glob_pattern)
      end
  end.

Definition compile_glob_matcher (pat : string) (literal_separator : bool) : Result HookGlob HookError :=
  match hook_glob literal_separator pat with Some g => Ok g | None => Err (GlobInvalid pat) end.

Definition compile_path_matcher (prefix : string) : Result PathMatcher HookError :=
  let? p := parse_matcher_pattern prefix in
  match p with
  | PatternLiteral prefix => if str_is_empty prefix then Err PathEmpty else Ok (PathPrefix prefix)
  | PatternGlob g => let? g := compile_glob_matcher g true in Ok (PathGlob g)
  end.

Definition compile_path_matchers (prefixes : list string) : Result (list PathMatcher) HookError :=
  collect compile_path_matcher prefixes.

Definition compile_value_matcher (value : string) : Result ValueMatcher HookError :=
  let? p := parse_matcher_pattern value in
  match p with
  | PatternLiteral value => Ok (ValueExact value)
  | PatternGlob g => let? g := compile_glob_matcher g false in Ok (ValueGlob g)
  end.

Definition compile_value_matchers (values : list string) : Result (list ValueMatcher) HookError :=
  collect compile_value_matcher values.

Definition normalize_hook_host (h : string) : Result string HookError :=
  let normalized := normalize_host h in
  if str_is_empty normalized then Err HostEmpty
  else if contains_char "*" normalized then Err HostWildcard
  else Ok normalized.

Definition ascii_uppercase (s : string) : string :=
  of_bytes ((λ c, if is_ascii_lower c then ascii_of_N (byte_val c - 32) else c) <$> as_bytes s).

Definition normalize_method (method : string) : Result string HookError :=
  let normalized := ascii_uppercase (trim method) in
  if str_is_empty normalized then Err MethodEmpty else Ok normalized.

Definition normalize_methods (ms : list string) : Result (list string) HookError := collect normalize_method ms.

Definition normalize_query_name (name : string) : Result string HookError :=
  if str_is_empty name then Err QueryKeyEmpty else Ok name.

Definition parse_header_name (name : string) : Result string HookError :=
  match header_name name with Some n => Ok n | None => Err (HeaderNameInvalid name) end.

Definition parse_secret_file (path : string) : Result PathBuf HookError :=
  if str_is_empty (trim path) then Err SecretFileEmpty
  else if negb (is_absolute path) then Err (SecretFileRelative path)
  else match from_absolute_path path with Some p => Ok p | None => Err (SecretFileRelative path) end.

(** ** Validation *)

Definition validate_query_constraint (q : string * list string) : Result unit HookError :=
  let '(name, values) := q in
  let? normalized := normalize_query_name name in
  if str_is_empty normalized then Err QueryKeyEmpty
  else match values with
       | [] => Err (QueryValueMissing name)
       | _ => let? _ := map_err (λ _, QueryMatcherInvalid name) (compile_value_matchers values) in Ok ()
       end.

Definition validate_query_constraints (q : list (string * list string)) : Result unit HookError :=
  for_each validate_query_constraint q.

Definition validate_header_constraint (h : string * list string) : Result unit HookError :=
  let '(name, values) := h in
  let? _ := parse_header_name name in
  let? _ := map_err (λ _, HeaderMatcherInvalid name) (compile_value_matchers values) in
  Ok ().

Definition validate_header_constraints (hs : list (string * list string)) : Result unit HookError :=
  for_each validate_header_constraint hs.

Definition validate_strip_request_headers (names : list string) : Result unit HookError :=
  for_each (λ name, let? _ := parse_header_name name in Ok ()) names.

Definition validate_injected_header (header : InjectedHeaderConfig) : Result unit HookError :=
  let? _ := parse_header_name (inject_name header) in
  match secret_env_var header, secret_file header with
  | Some var, None => if str_is_empty (trim var) then Err SecretEnvEmpty else Ok ()
  | None, Some file => let? _ := parse_secret_file file in Ok ()
  | _, _ => Err SecretSourceCount
  end.

Definition validate_injected_headers (hs : list InjectedHeaderConfig) : Result unit HookError :=
  for_each validate_injected_header hs.

Definition validate_hook (hook_index : nat) (hook : MitmHookConfig) : Result unit HookError :=
  let invalid {A} (field : string) : Result A HookError → Result A HookError :=
    map_err (λ _, InvalidField hook_index field) in
  let? h := invalid "host" (normalize_hook_host (hook_host hook)) in
  let? ms := invalid "match.methods" (normalize_methods (methods (matcher hook))) in
  let? _ := match ms with [] => Err (MethodsMissing hook_index) | _ => Ok () end in
  let? ps := invalid "match.path_prefixes" (compile_path_matchers (path_prefixes (matcher hook))) in
  let? _ := match ps with [] => Err (PathsMissing hook_index) | _ => Ok () end in
  let? _ := match body (matcher hook) with Some _ => Err (BodyUnsupported hook_index) | None => Ok () end in
  let? _ := invalid "match.query" (validate_query_constraints (query (matcher hook))) in
  let? _ := invalid "match.headers" (validate_header_constraints (headers (matcher hook))) in
  let? _ := invalid "actions.strip_request_headers"
              (validate_strip_request_headers (strip_request_headers (actions hook))) in
  let? _ := invalid "actions.inject_request_headers"
              (validate_injected_headers (inject_request_headers (actions hook))) in
  if str_is_empty h then Err (HookHostEmpty hook_index) else Ok ().

Definition validate_mitm_hook_config (config : NetworkProxySettings) : Result unit HookError :=
  match mitm_hooks config with
  | [] => Ok ()
  | hooks =>
      if negb (mitm config) then Err RequiresMitm
      else for_each (λ '(i, hook), validate_hook i hook) (imap pair hooks)
  end.

(** ** Compilation *)

Definition compile_injected_header (header : InjectedHeaderConfig) : Result ResolvedInjectedHeader HookError :=
  let? name := parse_header_name (inject_name header) in
  let? '(secret, source) :=
    match secret_env_var header, secret_file header with
    | Some var, None =>
        match secret_env var with
        | Some value => Ok (value, EnvVar var)
        | None => Err (SecretEnvMissing var)
        end
    | None, Some file =>
        let? path := parse_secret_file file in
        match secret_content path with
        | Some value => Ok (trim value, SecretFile path)
        | None => Err (SecretUnreadable path)
        end
    | _, _ => Err SecretSourceCount
    end in
  match header_value (default EmptyString (inject_prefix header) +:+ secret) with
  | Some value => Ok {| injected_name := name; injected_value := value; injected_source := source |}
  | None => Err (InjectedValueInvalid (inject_name header))
  end.

Definition compile_hook (hook : MitmHookConfig) : Result MitmHook HookError :=
  let? h := normalize_hook_host (hook_host hook) in
  let? ms := normalize_methods (methods (matcher hook)) in
  let? ps := compile_path_matchers (path_prefixes (matcher hook)) in
  let? qs := collect (λ '(name, values),
               let? n := normalize_query_name name in
               let? vs := compile_value_matchers values in
               Ok {| query_name := n; query_values := vs |}) (query (matcher hook)) in
  let? hs := collect (λ '(name, values),
               let? n := parse_header_name name in
               let? vs := compile_value_matchers values in
               Ok {| constraint_header := n; header_values := vs |}) (headers (matcher hook)) in
  let? strip := collect parse_header_name (strip_request_headers (actions hook)) in
  let? inject := collect (λ header, map_err (λ _, InjectedHeaderFailed (inject_name header))
                                      (compile_injected_header header)) (inject_request_headers (actions hook)) in
  Ok {| host := h;
        hook_matcher := {| hook_methods := ms; hook_paths := ps; hook_query := qs; hook_headers := hs |};
        hook_actions := {| strip_headers := strip; inject_headers := inject |} |}.

(** [entry(host).or_default().push(hook)] *)
Definition push_hook (m : gmap string (list MitmHook)) (hook : MitmHook) : gmap string (list MitmHook) :=
  <[host hook := default [] (m !! host hook) ++ [hook]]> m.

Definition compile_mitm_hooks (config : NetworkProxySettings) : Result (gmap string (list MitmHook)) HookError :=
  let? _ := validate_mitm_hook_config config in
  fold_res (λ m hook, let? hook := compile_hook hook in Ok (push_hook m hook)) ∅ (mitm_hooks config).

(** ** Evaluation *)

(** A request: the value of a header is [None] when it is not text. *)
Record HookRequest := {
  req_method : string;
  req_path : string;
  req_query : option string;
  req_headers : list (string * option string);
}.

Definition path_matcher_matches (m : PathMatcher) (candidate : string) : bool :=
  match m with
  | PathPrefix prefix => starts_with prefix candidate
  | PathGlob g => hook_glob_match g candidate
  end.

Definition value_matches (m : ValueMatcher) (candidate : string) : bool :=
  match m with
  | ValueExact value => str_eqb value candidate
  | ValueGlob g => hook_glob_match g candidate
  end.

Definition path_matches (ms : list PathMatcher) (path : string) : bool := existsb (λ m, path_matcher_matches m path) ms.

(** The map from names to the values in order. *)
Definition actual_values (q : string) : gmap string (list string) :=
  fold_left (λ m '(name, value), <[name := default [] (m !! name) ++ [value]]> m) (query_pairs q) ∅.

Definition query_matches (constraints : list QueryConstraint) (req : HookRequest) : bool :=
  match constraints with
  | [] => true
  | _ =>
      let values := actual_values (default EmptyString (req_query req)) in
      forallb (λ c,
        match values !! query_name c with
        | Some actual => existsb (λ candidate, existsb (λ allowed, value_matches allowed candidate) (query_values c)) actual
        | None => false
        end) constraints
  end.

Definition header_get_all (req : HookRequest) (name : string) : list (option string) :=
  snd <$> List.filter (λ '(n, _), str_eqb n name) (req_headers req).

Definition headers_match (constraints : list HeaderConstraint) (req : HookRequest) : bool :=
  forallb (λ c,
    match header_get_all req (constraint_header c) with
    | [] => false
    | actual =>
        match header_values c with
        | [] => true
        | values =>
            existsb (λ v, match v with
                          | Some candidate => existsb (λ allowed, value_matches allowed candidate) values
                          | None => false
                          end) actual
        end
    end) constraints.

Definition hook_matches (hook : MitmHook) (req : HookRequest) : bool :=
  let method := ascii_uppercase (req_method req) in
  if negb (existsb (str_eqb method) (hook_methods (hook_matcher hook))) then false
  else if negb (path_matches (hook_paths (hook_matcher hook)) (req_path req)) then false
  else if negb (query_matches (hook_query (hook_matcher hook)) req) then false
  else headers_match (hook_headers (hook_matcher hook)) req.

Definition evaluate_mitm_hooks (hooks_by_host : gmap string (list MitmHook)) (h : string) (req : HookRequest) : HookEvaluation :=
  match hooks_by_host !! normalize_host h with
  | None => NoHooksForHost
  | Some hooks =>
      match List.find (λ hook, hook_matches hook req) hooks with
      | Some hook => Matched (hook_actions hook)
      | None => HookedHostNoMatch
      end
  end.
End hooks.

Section hook_facts.
Context `{HookBody, HookHost, PathEnv}.

Lemma collect_forall2 {A B E} (f : A → Result B E) l ys : collect f l = Ok ys ↔ Forall2 (λ x y, f x = Ok y) l ys.
Proof.
  revert ys. induction l as [|x l IH]; intros ys; cbn [collect].
  - split; [by intros [= <-]|]. by intros ->%Forall2_nil_inv_l.
  - destruct (f x) as [y|e] eqn:Ex; cbn [res_bind].
    2:{ split; [done|]. intros (y & l' & Hy & _)%Forall2_cons_inv_l. congruence. }
    destruct (collect f l) as [ys'|e]; cbn [res_bind].
    + split; [intros [= <-]; constructor; [done|by apply IH]|].
      intros (y' & l' & Hy & Hl%IH & ->)%Forall2_cons_inv_l. congruence.
    + split; [done|]. intros (y' & l' & _ & Hl%IH & _)%Forall2_cons_inv_l. done.
Qed.

Lemma collect_all_ok {A B E} (f : A → Result B E) l : (∀ x, x ∈ l → is_ok (f x) = true) → ∃ ys, collect f l = Ok ys.
Proof.
  induction l as [|x l IH]; intros Hl; cbn [collect]; [eauto|].
  destruct (f x) as [y|] eqn:Ex; [|specialize (Hl x ltac:(left)); by rewrite Ex in Hl].
  destruct IH as [ys ->]; [intros z Hz; apply Hl; by right|]. by eexists.
Qed.

Lemma for_each_ok {A E} (f : A → Result unit E) l : for_each f l = Ok () ↔ ∀ x, x ∈ l → f x = Ok ().
Proof.
  unfold for_each. induction l as [|x l IH]; cbn [fold_res]; [set_solver|].
  destruct (f x) as [[]|e] eqn:Ex.
  - rewrite IH. split; intros Hl y; [intros [->|Hy]%elem_of_cons; auto|intros Hy; apply Hl; by right].
  - split; [done|]. intros Hl. specialize (Hl x ltac:(left)). congruence.
Qed.

(** The hooks of a host, in the order of the configuration. *)
Definition hooks_for (hooks : list MitmHook) (h : string) : list MitmHook :=
  List.filter (λ hook, str_eqb (host hook) h) hooks.

Lemma push_hooks_lookup hooks : ∀ m h,
  fold_left push_hook hooks m !! h =
  match default [] (m !! h) ++ hooks_for hooks h with
  | [] => m !! h
  | l => Some l
  end.
Proof.
  unfold hooks_for. induction hooks as [|hook hooks IH]; intros m h; cbn [fold_left List.filter].
  - rewrite app_nil_r. destruct (m !! h) as [[|]|]; done.
  - rewrite IH. destruct (str_eqb (host hook) h) eqn:E.
    + apply str_eqb_true in E as <-.
      assert (push_hook m hook !! host hook = Some (default [] (m !! host hook) ++ [hook])) as -> by apply lookup_insert_eq.
      cbn [from_option id]. rewrite <-app_assoc. cbn [app]. by destruct (default [] (m !! host hook)).
    + apply str_eqb_false in E.
      assert (push_hook m hook !! h = m !! h) as -> by (by apply lookup_insert_ne). done.
Qed.

Lemma compile_fold l : ∀ m0 m, fold_res (λ m hook, let? hook := compile_hook hook in Ok (push_hook m hook)) m0 l = Ok m →
  ∃ hooks, Forall2 (λ c hook, compile_hook c = Ok hook) l hooks ∧ m = fold_left push_hook hooks m0.
Proof.
  induction l as [|c l IH]; intros m0 m; cbn [fold_res].
  - intros [= <-]. by exists [].
  - destruct (compile_hook c) as [hook|] eqn:Ec; cbn [res_bind]; [|done].
    intros (hooks & Hf & ->)%IH. exists (hook :: hooks). by split; [constructor|].
Qed.

(** Evaluating compiled hooks picks, among the hooks configured for the host, the first one
    that matches, in the order of the configuration; a host is hooked iff some hook names it. *)
Lemma evaluate_first_match config m :
  compile_mitm_hooks config = Ok m →
  ∃ hooks, Forall2 (λ c hook, compile_hook c = Ok hook) (mitm_hooks config) hooks ∧
    ∀ h req, evaluate_mitm_hooks m h req =
      match hooks_for hooks (normalize_host h) with
      | [] => NoHooksForHost
      | hs => match List.find (λ hook, hook_matches hook req) hs with
              | Some hook => Matched (hook_actions hook)
              | None => HookedHostNoMatch
              end
      end.
Proof.
  unfold compile_mitm_hooks. destruct (validate_mitm_hook_config config); cbn [res_bind]; [|done].
  intros (hooks & Hf & ->)%compile_fold. exists hooks. split; [done|]. intros h req.
  unfold evaluate_mitm_hooks. rewrite push_hooks_lookup, lookup_empty. cbn [from_option id app].
  by destruct (hooks_for hooks (normalize_host h)).
Qed.

(** Whether the secrets of a hook can be read and put into headers. *)
Definition secrets_ready (hook : MitmHookConfig) : Prop :=
  ∀ header, header ∈ inject_request_headers (actions hook) → is_ok (compile_injected_header header) = true.

Lemma map_err_same_ok {A E F} (f : E → F) (r : Result A E) : is_ok (map_err f r) = is_ok r.
Proof. by destruct r. Qed.

Lemma validated_hook_compiles i hook : validate_hook i hook = Ok () → secrets_ready hook → ∃ h, compile_hook hook = Ok h.
Proof.
  unfold validate_hook, compile_hook. intros Hv Hs.
  repeat (let Hx := fresh "Hx" in apply res_bind_ok in Hv as (? & Hx & Hv); try apply map_err_ok in Hx).
  repeat match goal with u : unit |- _ => destruct u end.
  pose proof (proj1 (for_each_ok _ _) Hx5) as Hqs. pose proof (proj1 (for_each_ok _ _) Hx6) as Hhs.
  pose proof (proj1 (for_each_ok _ _) Hx7) as Hns.
  rewrite Hx. cbn [res_bind]. rewrite Hx0. cbn [res_bind]. rewrite Hx2. cbn [res_bind].
  match goal with |- context [collect ?f (query (matcher hook))] => destruct (collect_all_ok f (query (matcher hook))) as [qs ->] end.
  { intros [name values] Hq. specialize (Hqs _ Hq). simpl in Hqs. destruct (normalize_query_name name) as [n|]; [|done]. cbn [res_bind] in *.
    destruct (str_is_empty n); [done|]. destruct values as [|v vs]; [done|].
    destruct (compile_value_matchers (v :: vs)) as [r|]; [by destruct r|done]. }
  cbn [res_bind].
  match goal with |- context [collect ?f (headers (matcher hook))] => destruct (collect_all_ok f (headers (matcher hook))) as [hs ->] end.
  { intros [name values] Hq. specialize (Hhs _ Hq). simpl in Hhs. destruct (parse_header_name name) as [n|]; [|done]. cbn [res_bind] in *.
    by destruct (compile_value_matchers values). }
  cbn [res_bind]. destruct (collect_all_ok parse_header_name (strip_request_headers (actions hook))) as [st ->].
  { intros name Hq. specialize (Hns _ Hq). simpl in Hns. by destruct (parse_header_name name). }
  cbn [res_bind].
  match goal with |- context [collect ?f (inject_request_headers _)] =>
    destruct (collect_all_ok f (inject_request_headers (actions hook))) as [inj ->] end.
  { intros header Hh. rewrite map_err_same_ok. by apply Hs. }
  by eexists.
Qed.

(** A validated configuration compiles as soon as its secrets are there: no other error is
    left for later. *)
Lemma validated_hooks_compile config :
  validate_mitm_hook_config config = Ok () → (∀ hook, hook ∈ mitm_hooks config → secrets_ready hook) →
  ∃ m, compile_mitm_hooks config = Ok m.
Proof.
  intros Hv Hs. unfold compile_mitm_hooks. rewrite Hv. cbn [res_bind].
  assert (∀ hook, hook ∈ mitm_hooks config → ∃ h, compile_hook hook = Ok h) as Hc.
  { intros hook Hin. unfold validate_mitm_hook_config in Hv. destruct (mitm_hooks config) as [|x l] eqn:El; [set_solver|].
    destruct (negb (mitm config)); [done|]. rewrite for_each_ok in Hv.
    apply list_elem_of_lookup in Hin as [i Hi].
    eapply (validated_hook_compiles i); [|apply Hs; by eapply list_elem_of_lookup_2].
    apply (Hv (i, hook)). apply list_elem_of_lookup. exists i. by rewrite list_lookup_imap, Hi. }
  clear Hv Hs. generalize (∅ : gmap string (list MitmHook)). induction (mitm_hooks config) as [|x l IH]; intros m0; cbn [fold_res]; [eauto|].
  destruct (Hc x ltac:(left)) as [h ->]. cbn [res_bind]. apply IH. intros y Hy. apply Hc. by right.
Qed.
End hook_facts.
