(* ===== verification/NetState.v ===== *)
(** * Managed constraints on the network proxy

    codex-rs/network-proxy/src/state.rs: the state that is built from a configuration, and
    the validation of a configuration against the constraints an administrator manages.

    The state of interception (certificates) is a parameter.  Texts that print a list, a set
    or an error are kept as the value printed. *)

From stdpp Require Import base gmap list strings.
From S2P Require Import Prelude Str Fragments AbsPath IpAddr HostPolicy NetConfig MitmHook.

(** [MitmState::new], from [allow_upstream_proxy] and [allow_local_binding]. *)
Class Interception := { MitmState : Type; mitm_new : bool → bool → Result MitmState string }.

Record NetworkProxyConstraints := {
  c_enabled : option bool;
  c_mode : option NetworkMode;
  c_allow_upstream_proxy : option bool;
  c_dangerously_allow_non_loopback_proxy : option bool;
  c_dangerously_allow_all_unix_sockets : option bool;
  c_allowed_domains : option (list string);
  c_allowlist_expansion_enabled : option bool;
  c_denied_domains : option (list string);
  c_denylist_expansion_enabled : option bool;
  c_allow_unix_sockets : option (list string);
  c_allow_local_binding : option bool;
}.

#[export] Instance NetworkProxyConstraints_eq_dec : EqDecision NetworkProxyConstraints.
Proof. solve_decision. Defined.

Definition no_constraints : NetworkProxyConstraints :=
  {| c_enabled := None; c_mode := None; c_allow_upstream_proxy := None; c_dangerously_allow_non_loopback_proxy := None;
     c_dangerously_allow_all_unix_sockets := None; c_allowed_domains := None; c_allowlist_expansion_enabled := None;
     c_denied_domains := None; c_denylist_expansion_enabled := None; c_allow_unix_sockets := None;
     c_allow_local_binding := None |}.

(** Text in an error message. *)
Inductive ErrText :=
| Text (s : string)
| DebugList (l : list string)
| DebugSet (s : gset string)
| DebugMode (m : NetworkMode)
| ModeOrMoreRestrictive (m : NetworkMode)
| HookText (e : HookError).

(** [NetworkProxyConstraintError::InvalidValue] *)
Record NetworkProxyConstraintError := { field_name : string; candidate : ErrText; allowed : ErrText }.

Inductive BuildError :=
| SocketPathError (text : string)
| ConstraintError (e : NetworkProxyConstraintError)
| GlobError (text : string)
| HookFailure (e : HookError)
| MitmError (text : string).

Definition invalid_value {A} (field : string) (candidate allowed : ErrText) : Result A NetworkProxyConstraintError :=
  Err {| field_name := field; candidate := candidate; allowed := allowed |}.

Definition DISABLED_BY_MANAGED : ErrText := Text "false (disabled by managed config)".

Definition network_mode_rank (m : NetworkMode) : nat := match m with Limited => 0 | Full => 1 end.

Definition validate_non_global_wildcard_domain_patterns (field : string) (patterns : list string) :
    Result unit NetworkProxyConstraintError :=
  match List.find is_global_wildcard_domain_pattern patterns with
  | Some pattern =>
      invalid_value field (Text (trim pattern)) (Text "exact hosts or scoped wildcards like *.example.com or **.example.com")
  | None => Ok ()
  end.

(** A flag that the constraint can only forbid. *)
Definition validate_flag (field : string) (flag max : bool) : Result unit NetworkProxyConstraintError :=
  if flag && negb max then invalid_value field (Text "true") DISABLED_BY_MANAGED else Ok ().

(** [iter().map(to_ascii_lowercase).collect::<HashSet<_>>()] *)
Definition lowercase_set (l : list string) : gset string := list_to_set (ascii_lowercase <$> l).

Section state.
Context `{HookBody, HookHost, PathEnv, Globs, UrlHosts, Interception}.

(** A refused or blocked request. *)
Record BlockedRequest := {
  blocked_host : string;
  blocked_reason : string;
  blocked_client : option string;
  blocked_method : option string;
  blocked_mode : option NetworkMode;
  blocked_protocol : string;
  blocked_decision : option string;
  blocked_source : option string;
  blocked_port : option N;
  blocked_timestamp : Z;
}.

Record ConfigState := {
  config : NetworkProxySettings;
  allow_set : GlobSet;
  deny_set : GlobSet;
  state_mitm : option MitmState;
  state_hooks : gmap string (list MitmHook);
  constraints : NetworkProxyConstraints;
  blocked : list BlockedRequest;
  blocked_total : N;
}.

Definition build_config_state (cfg : NetworkProxySettings) (cons : NetworkProxyConstraints) :
    Result ConfigState BuildError :=
  let? _ := map_err SocketPathError (validate_unix_socket_allowlist_paths cfg) in
  let allowed := default [] (allowed_domains cfg) in
  let denied := default [] (denied_domains cfg) in
  let? _ := map_err ConstraintError (validate_non_global_wildcard_domain_patterns "network.denied_domains" denied) in
  let? deny_set := map_err GlobError (compile_denylist_globset denied) in
  let? allow_set := map_err GlobError (compile_allowlist_globset allowed) in
  let? hooks := map_err HookFailure (compile_mitm_hooks cfg) in
  let? state := (if mitm cfg
                 then let? m := map_err MitmError (mitm_new (allow_upstream_proxy cfg) (allow_local_binding cfg)) in Ok (Some m)
                 else Ok None) in
  Ok {| config := cfg; allow_set := allow_set; deny_set := deny_set; state_mitm := state; state_hooks := hooks;
        constraints := cons; blocked := []; blocked_total := 0 |}.

(** ** Validation against the constraints *)

Definition validate_allowed_domains (cons : NetworkProxyConstraints) (candidate denied_overrides : list string) :
    Result unit NetworkProxyConstraintError :=
  match c_allowed_domains cons with
  | None => Ok ()
  | Some allowed =>
      let? _ := validate_non_global_wildcard_domain_patterns "network.allowed_domains" allowed in
      let required := lowercase_set allowed in
      let overrides := lowercase_set denied_overrides in
      match c_allowlist_expansion_enabled cons with
      | Some true =>
          let missing := required ∖ lowercase_set candidate ∖ overrides in
          if decide (missing = ∅) then Ok ()
          else invalid_value "network.allowed_domains" (Text "missing managed allowed_domains entries") (DebugSet missing)
      | Some false =>
          if decide (lowercase_set candidate = required ∖ overrides) then Ok ()
          else invalid_value "network.allowed_domains" (DebugList candidate) (Text "must match managed allowed_domains")
      | None =>
          let managed := parse_for_constraints <$> allowed in
          let invalid := List.filter (λ entry,
            negb (existsb (λ m, allows m (parse_for_constraints entry)) managed)) candidate in
          match invalid with
          | [] => Ok ()
          | _ => invalid_value "network.allowed_domains" (DebugList invalid) (Text "subset of managed allowed_domains")
          end
      end
  end.

Definition validate_denied_domains (cons : NetworkProxyConstraints) (candidate : list string) :
    Result unit NetworkProxyConstraintError :=
  match c_denied_domains cons with
  | None => Ok ()
  | Some denied =>
      let? _ := validate_non_global_wildcard_domain_patterns "network.denied_domains" denied in
      let required := lowercase_set denied in
      match c_denylist_expansion_enabled cons with
      | Some false =>
          if decide (lowercase_set candidate = required) then Ok ()
          else invalid_value "network.denied_domains" (DebugList candidate) (Text "must match managed denied_domains")
      | _ =>
          let missing := required ∖ lowercase_set candidate in
          if decide (missing = ∅) then Ok ()
          else invalid_value "network.denied_domains" (Text "missing managed denied_domains entries") (DebugSet missing)
      end
  end.

Definition validate_allow_unix_sockets (cons : NetworkProxyConstraints) (candidate : list string) :
    Result unit NetworkProxyConstraintError :=
  match c_allow_unix_sockets cons with
  | None => Ok ()
  | Some allowed =>
      let invalid := List.filter (λ entry, negb (bool_decide (ascii_lowercase entry ∈ lowercase_set allowed))) candidate in
      match invalid with
      | [] => Ok ()
      | _ => invalid_value "network.allow_unix_sockets" (DebugList invalid) (Text "subset of managed allow_unix_sockets")
      end
  end.

Definition validate_mode (cons : NetworkProxyConstraints) (m : NetworkMode) : Result unit NetworkProxyConstraintError :=
  match c_mode cons with
  | Some max_mode =>
      if network_mode_rank max_mode <? network_mode_rank m
      then invalid_value "network.mode" (DebugMode m) (ModeOrMoreRestrictive max_mode) else Ok ()
  | None => Ok ()
  end.

Definition validate_policy_against_constraints (cfg : NetworkProxySettings) (cons : NetworkProxyConstraints) :
    Result unit NetworkProxyConstraintError :=
  let allowed := default [] (allowed_domains cfg) in
  let denied := default [] (denied_domains cfg) in
  let? _ := map_err (λ e, {| field_name := "network.mitm_hooks"; candidate := HookText e;
                             allowed := Text "valid MITM hook configuration" |}) (validate_mitm_hook_config cfg) in
  let? _ := validate_non_global_wildcard_domain_patterns "network.denied_domains" denied in
  let? _ := match c_enabled cons with Some max => validate_flag "network.enabled" (enabled cfg) max | None => Ok () end in
  let? _ := validate_mode cons (mode cfg) in
  let? _ := validate_flag "network.allow_upstream_proxy" (allow_upstream_proxy cfg)
              (default true (c_allow_upstream_proxy cons)) in
  let? _ := validate_flag "network.dangerously_allow_non_loopback_proxy" (dangerously_allow_non_loopback_proxy cfg)
              (default true (c_dangerously_allow_non_loopback_proxy cons)) in
  let? _ := validate_flag "network.dangerously_allow_all_unix_sockets" (dangerously_allow_all_unix_sockets cfg)
              (default (bool_decide (c_allow_unix_sockets cons = None)) (c_dangerously_allow_all_unix_sockets cons)) in
  let? _ := match c_allow_local_binding cons with
            | Some max => validate_flag "network.allow_local_binding" (allow_local_binding cfg) max
            | None => Ok ()
            end in
  let? _ := validate_allowed_domains cons allowed denied in
  let? _ := validate_denied_domains cons denied in
  validate_allow_unix_sockets cons (allow_unix_sockets cfg).

Lemma bind_unit_ok {E} (m : Result unit E) (k : Result unit E) : (let? _ := m in k) = Ok () ↔ m = Ok () ∧ k = Ok ().
Proof. rewrite res_bind_ok. split; [intros ([] & ? & ?)|intros [? ?]; exists ()]; done. Qed.

Lemma map_err_ok_unit {E F} (f : E → F) (m : Result unit E) : map_err f m = Ok () ↔ m = Ok ().
Proof. destruct m as [[]|]; simpl; naive_solver. Qed.

Lemma validate_flag_ok field flag max : validate_flag field flag max = Ok () ↔ (flag = true → max = true).
Proof. unfold validate_flag. destruct flag, max; simpl; naive_solver. Qed.

(** A valid configuration stays below every limit: the checks are independent of each other. *)
Lemma validate_iff cfg cons :
  validate_policy_against_constraints cfg cons = Ok () ↔
  validate_mitm_hook_config cfg = Ok () ∧
  validate_non_global_wildcard_domain_patterns "network.denied_domains" (default [] (denied_domains cfg)) = Ok () ∧
  (c_enabled cons = Some false → enabled cfg = false) ∧
  validate_mode cons (mode cfg) = Ok () ∧
  (c_allow_upstream_proxy cons = Some false → allow_upstream_proxy cfg = false) ∧
  (c_dangerously_allow_non_loopback_proxy cons = Some false → dangerously_allow_non_loopback_proxy cfg = false) ∧
  (dangerously_allow_all_unix_sockets cfg = true →
     default (bool_decide (c_allow_unix_sockets cons = None)) (c_dangerously_allow_all_unix_sockets cons) = true) ∧
  (c_allow_local_binding cons = Some false → allow_local_binding cfg = false) ∧
  validate_allowed_domains cons (default [] (allowed_domains cfg)) (default [] (denied_domains cfg)) = Ok () ∧
  validate_denied_domains cons (default [] (denied_domains cfg)) = Ok () ∧
  validate_allow_unix_sockets cons (allow_unix_sockets cfg) = Ok ().
Proof.
  unfold validate_policy_against_constraints. rewrite !bind_unit_ok, map_err_ok_unit, !validate_flag_ok.
  assert (∀ (o : option bool) field flag,
    match o with Some max => validate_flag field flag max | None => Ok () end = Ok () ↔ (o = Some false → flag = false)) as Hopt.
  { intros [[]|] field []; rewrite ?validate_flag_ok; naive_solver. }
  assert (∀ (o : option bool) flag, (flag = true → default true o = true) ↔ (o = Some false → flag = false)) as Hdef.
  { intros [[]|] []; simpl; naive_solver. }
  rewrite !Hopt, !Hdef. done.
Qed.

(** ** What validation guarantees about hosts *)

(** An entry whose comparison is settled, or the global wildcard. *)
Definition comparable (entry : string) : Prop := ordinary entry ∨ trim entry = "*".

Lemma star_patterns entry : trim entry = "*" → compiled_pattern entry = Exact "*" ∧ parse_for_constraints entry = Exact "*".
Proof.
  intros Ht. unfold compiled_pattern, normalize_pattern, parse_for_constraints. rewrite Ht. split; reflexivity.
Qed.

Lemma comparable_plain entry : comparable entry → plain_pattern (compiled_pattern entry) = true.
Proof.
  intros [[_ Hs]|[-> _]%star_patterns]; [|done]. unfold settled in Hs. apply andb_true_iff in Hs as [_ Hp].
  destruct (compiled_pattern entry); cbn [pattern_domain plain_pattern] in *; rewrite Hp; auto using orb_true_r.
Qed.

Lemma listed_true entries h : listed entries h = true ↔ ∃ e, e ∈ entries ∧ denotes (compiled_pattern e) h = true.
Proof. unfold listed. rewrite existsb_exists. by setoid_rewrite list_elem_of_In. Qed.

Lemma elem_of_lowercase_set s l : s ∈ lowercase_set l ↔ ∃ e, e ∈ l ∧ ascii_lowercase e = s.
Proof. unfold lowercase_set. rewrite elem_of_list_to_set, list_elem_of_fmap. naive_solver. Qed.

(** Under a managed allowlist that may not be widened, what the configuration's entries
    stand for the managed ones stand for too. *)
Lemma subset_confined cons managed candidate overrides h :
  c_allowed_domains cons = Some managed → c_allowlist_expansion_enabled cons = None →
  validate_allowed_domains cons candidate overrides = Ok () →
  Forall ordinary managed → Forall comparable candidate →
  listed candidate h = true → listed managed h = true.
Proof.
  unfold validate_allowed_domains. intros -> -> Hv Hm Hc Hl.
  destruct (validate_non_global_wildcard_domain_patterns _ managed) as [[]|]; cbn [res_bind] in Hv; [|done].
  apply listed_true in Hl as (e & He & Hd).
  assert (existsb (λ m, allows m (parse_for_constraints e)) (parse_for_constraints <$> managed) = true) as Ha.
  { apply not_false_iff_true. intros Hf. destruct (List.filter _ candidate) as [|x l] eqn:Ef; [|done].
    assert (e ∈ List.filter (λ entry, negb (existsb (λ m, allows m (parse_for_constraints entry))
      (parse_for_constraints <$> managed))) candidate) as Hin by (apply list_elem_of_In, filter_In; rewrite list_elem_of_In in He; by rewrite Hf).
    rewrite Ef in Hin. by apply not_elem_of_nil in Hin. }
  apply existsb_exists in Ha as (m & Hin & Ha). apply list_elem_of_In, list_elem_of_fmap in Hin as (me & -> & Hme).
  rewrite Forall_forall in Hm, Hc. destruct (Hm me Hme) as [Hpm Hsm]. rewrite Hpm in Ha.
  apply listed_true. exists me. split; [done|]. destruct (Hc e He) as [[Hpe Hse]|[_ Hpe]%star_patterns].
  - rewrite Hpe in Ha. by eapply allows_sound.
  - rewrite Hpe, star_not_allowed in Ha by done. done.
Qed.

Lemma exact_confined cons managed candidate overrides h :
  c_allowed_domains cons = Some managed → c_allowlist_expansion_enabled cons = Some false →
  validate_allowed_domains cons candidate overrides = Ok () →
  listed candidate h = true → listed managed h = true.
Proof.
  unfold validate_allowed_domains. intros -> -> Hv (e & He & Hd)%listed_true.
  destruct (validate_non_global_wildcard_domain_patterns _ managed) as [[]|]; cbn [res_bind] in Hv; [|done].
  destruct (decide _) as [Heq|]; [|done].
  assert (ascii_lowercase e ∈ lowercase_set candidate) as Hin by (apply elem_of_lowercase_set; eauto).
  rewrite Heq in Hin. apply elem_of_difference in Hin as [(me & Hme & Hl)%elem_of_lowercase_set _].
  apply listed_true. exists me. split; [done|]. by rewrite (compiled_pattern_case e me Hl).
Qed.

(** Every managed denial is one of the configuration's, up to letter case. *)
Lemma denials_present cons managed candidate e :
  c_denied_domains cons = Some managed → validate_denied_domains cons candidate = Ok () → e ∈ managed →
  ∃ e', e' ∈ candidate ∧ ascii_lowercase e' = ascii_lowercase e.
Proof.
  unfold validate_denied_domains. intros -> Hv He.
  destruct (validate_non_global_wildcard_domain_patterns _ managed) as [[]|]; cbn [res_bind] in Hv; [|done].
  apply elem_of_lowercase_set. assert (ascii_lowercase e ∈ lowercase_set managed) as Hin by (apply elem_of_lowercase_set; eauto).
  destruct (c_denylist_expansion_enabled cons) as [[]|]; destruct (decide _) as [Hd|]; try done;
    [..|by rewrite Hd in *|]; destruct (decide (ascii_lowercase e ∈ lowercase_set candidate)) as [|Hn]; try done;
    exfalso; apply (not_elem_of_empty (C := gset string) (ascii_lowercase e)); rewrite <-Hd; by apply elem_of_difference.
Qed.
End state.
