(* ===== verification/NetProxy.v ===== *)
(** * The network proxy's policy at run time

    codex-rs/network-proxy/src/runtime.rs (the shared state and its operations),
    network_policy.rs (the decision on a request) and connect_policy.rs (the check of the
    address that is connected to).

    Tasks share one [ConfigState] behind a lock and give the lock up between reading and
    writing it.  An operation that does so is split into the part before, which takes a
    snapshot, and the part that commits; [step] interleaves these parts of any number of
    tasks.  An operation that loops when its snapshot is stale begins again.

    Parameters are what the previous files take, name resolution, and the source of reloaded
    configurations.  Logging, audit events and the observer of blocked requests are left out. *)

From stdpp Require Import base gmap list strings.
From S2P Require Import Prelude Str Utf8 Fragments AbsPath IpAddr HostPolicy NetConfig MitmHook NetState.
From Stdlib Require Import Lia.

(** [lookup_host] under its timeout ([None] is an error or the timeout), whether the platform
    supports unix sockets, and [fs::canonicalize]. *)
Class NetHost := {
  lookup_host : string → N → option (list IpAddr);
  unix_socket_permissions_supported : bool;
  canonical_socket : PathBuf → option string;
}.

Inductive HostBlockReason := ReasonDenied | ReasonNotAllowed | ReasonNotAllowedLocal.
Inductive HostBlockDecision := HostAllowed | HostBlocked (reason : HostBlockReason).

Definition reason_as_str (r : HostBlockReason) : string :=
  match r with
  | ReasonDenied => "denied"
  | ReasonNotAllowed => "not_allowed"
  | ReasonNotAllowedLocal => "not_allowed_local"
  end.

Definition MAX_BLOCKED_EVENTS : nat := 200.
Definition u64_limit : N := 2 ^ 64 - 1.

Section proxy.
Context `{HookBody, HookHost, PathEnv, Globs, UrlHosts, Interception, NetHost}.

(** ** Hosts *)

Definition host_resolves_to_non_public_ip (h : string) (port : N) : bool :=
  match parse_ip h with
  | Some ip => is_non_public_ip ip
  | None =>
      match lookup_host h port with
      | None => true
      | Some addrs => existsb is_non_public_ip addrs
      end
  end.

Definition globset_matches_host_or_unscoped (set : GlobSet) (h : string) : bool :=
  is_match set h || is_some_and (unscoped_ip_literal h) (is_match set).

Definition is_explicit_local_allowlisted (allowed : list string) (h : string) : bool :=
  let unscoped_host := unscoped_ip_literal h in
  existsb (λ pattern,
    let pattern := trim pattern in
    if str_eqb pattern "*" || starts_with "*." pattern || starts_with "**." pattern then false
    else if contains_char "*" pattern || contains_char "?" pattern then false
    else
      let normalized_pattern := normalize_host pattern in
      str_eqb normalized_pattern h || is_some_and unscoped_host (str_eqb normalized_pattern)) allowed.

Definition local_literal (h : string) : bool :=
  let host_no_scope := default h (unscoped_ip_literal h) in
  if is_loopback_host h then true
  else match parse_ip host_no_scope with Some ip => is_non_public_ip ip | None => false end.

(** [host_blocked], after the reload. *)
Definition host_blocked (st : ConfigState) (text : string) (port : N) : HostBlockDecision :=
  match host_parse text with
  | Err _ => HostBlocked ReasonNotAllowed
  | Ok h =>
      let allowed := allowed_domains (config st) in
      if globset_matches_host_or_unscoped (deny_set st) h then HostBlocked ReasonDenied
      else
        let is_allowlisted := globset_matches_host_or_unscoped (allow_set st) h in
        if negb (allow_local_binding (config st)) &&
           (if local_literal h then negb (is_explicit_local_allowlisted (default [] allowed) h)
            else host_resolves_to_non_public_ip h port)
        then HostBlocked ReasonNotAllowedLocal
        else if bool_decide (allowed = None) || negb is_allowlisted then HostBlocked ReasonNotAllowed
        else HostAllowed
  end.

Definition method_allowed (st : ConfigState) (method : string) : bool := allows_method (mode (config st)) method.

Definition is_unix_socket_allowed (st : ConfigState) (path : string) : bool :=
  if negb unix_socket_permissions_supported then false
  else if negb (is_absolute path) then false
  else if dangerously_allow_all_unix_sockets (config st) then true
  else match from_absolute_path path with
       | None => false
       | Some requested_abs =>
           existsb (λ entry,
             match socket_path_parse entry with
             | Ok (Native allowed_path) =>
                 if decide (path_text allowed_path = path_text requested_abs) then true
                 else match canonical_socket requested_abs, canonical_socket allowed_path with
                      | Some requested_canonical, Some allowed_canonical => str_eqb allowed_canonical requested_canonical
                      | _, _ => false
                      end
             | _ => false
             end) (allow_unix_sockets (config st))
       end.

Definition host_has_mitm_hooks (st : ConfigState) (h : string) : bool :=
  bool_decide (is_Some (state_hooks st !! normalize_host h)).

(** ** Decisions on requests *)

Inductive NetworkDecisionSource := BaselinePolicy | ModeGuard | ProxyState | Decider.
Inductive NetworkPolicyDecision := DecisionDeny | DecisionAsk.

Inductive NetworkDecision :=
| NetAllow
| NetDeny (reason : string) (source : NetworkDecisionSource) (decision : NetworkPolicyDecision).

Definition REASON_POLICY_DENIED : string := "policy_denied".

Definition reason_or_policy_denied (reason : string) : string :=
  if str_is_empty reason then REASON_POLICY_DENIED else reason.

Definition deny_with_source (reason : string) (source : NetworkDecisionSource) : NetworkDecision :=
  NetDeny (reason_or_policy_denied reason) source DecisionDeny.

Definition ask_with_source (reason : string) (source : NetworkDecisionSource) : NetworkDecision :=
  NetDeny (reason_or_policy_denied reason) source DecisionAsk.

Inductive NetworkProtocol := Http | HttpsConnect | Socks5Tcp | Socks5Udp.

Record NetworkPolicyRequest := {
  request_protocol : NetworkProtocol;
  request_host : string;
  request_port : N;
  request_environment : option string;
  request_client : option string;
  request_method : option string;
  request_command : option string;
  request_hint : option string;
}.

Definition map_decider_decision (d : NetworkDecision) : NetworkDecision :=
  match d with
  | NetAllow => NetAllow
  | NetDeny reason _ decision => NetDeny reason Decider decision
  end.

Definition evaluate_host_policy (st : ConfigState) (decider : option (NetworkPolicyRequest → NetworkDecision))
    (request : NetworkPolicyRequest) : NetworkDecision :=
  match host_blocked st (request_host request) (request_port request) with
  | HostAllowed => NetAllow
  | HostBlocked ReasonNotAllowed =>
      match decider with
      | Some decide => map_decider_decision (decide request)
      | None => deny_with_source (reason_as_str ReasonNotAllowed) BaselinePolicy
      end
  | HostBlocked reason => deny_with_source (reason_as_str reason) BaselinePolicy
  end.

(** connect_policy.rs: a direct connection to [ip]; through an upstream proxy there is no check. *)
Definition target_rejected (st : ConfigState) (via_upstream_proxy : bool) (ip : IpAddr) : bool :=
  negb via_upstream_proxy && negb (allow_local_binding (config st)) && is_non_public_ip ip.

(** ** Updates *)

Definition with_blocked (st : ConfigState) (b : list BlockedRequest) (total : N) : ConfigState :=
  {| config := config st; allow_set := allow_set st; deny_set := deny_set st; state_mitm := state_mitm st;
     state_hooks := state_hooks st; constraints := constraints st; blocked := b; blocked_total := total |}.

Definition with_mode (st : ConfigState) (m : NetworkMode) : ConfigState :=
  {| config := set_mode (config st) m; allow_set := allow_set st; deny_set := deny_set st; state_mitm := state_mitm st;
     state_hooks := state_hooks st; constraints := constraints st; blocked := blocked st; blocked_total := blocked_total st |}.

(** [push_back], count, and drop the oldest beyond the limit. *)
Definition record_blocked (st : ConfigState) (entry : BlockedRequest) : ConfigState :=
  let b := blocked st ++ [entry] in
  with_blocked st (drop (length b - MAX_BLOCKED_EVENTS) b) (N.min (blocked_total st + 1) u64_limit).

Definition drain_blocked (st : ConfigState) : list BlockedRequest * ConfigState :=
  (blocked st, with_blocked st [] (blocked_total st)).

(** [force_reload], when the new state was loaded: the events are kept. *)
Definition force_reload (st new_state : ConfigState) : ConfigState :=
  with_blocked new_state (blocked st) (blocked_total new_state).

Definition replace_config_state (st new_state : ConfigState) : ConfigState :=
  with_blocked new_state (blocked st) (blocked_total st).

(** [reload_if_needed]: the loaded state with the events of the snapshot. *)
Definition reload_begin (st new_state : ConfigState) : ConfigState :=
  with_blocked new_state (blocked st) (blocked_total st).

Inductive DomainListKind := ListAllow | ListDeny.

Definition list_permission (k : DomainListKind) : NetworkDomainPermission :=
  match k with ListAllow => PermAllow | ListDeny => PermDeny end.

Definition list_entries (k : DomainListKind) (s : NetworkProxySettings) : list string :=
  match k with ListAllow => default [] (allowed_domains s) | ListDeny => default [] (denied_domains s) end.

Definition opposite_entries (k : DomainListKind) (s : NetworkProxySettings) : list string :=
  match k with ListAllow => default [] (denied_domains s) | ListDeny => default [] (allowed_domains s) end.

Inductive UpdateError :=
| InvalidHost
| ConstrainedByManaged (e : NetworkProxyConstraintError)
| CompileFailed (e : BuildError).

(** What an update of a domain list knows when it goes to commit. *)
Record DomainUpdate := {
  previous_cfg : NetworkProxySettings;
  update_constraints : NetworkProxyConstraints;
  updated_state : ConfigState;
}.

(** One round of [update_domain_list] up to the commit; [None] when there is nothing to do. *)
Definition update_domain_begin (st : ConfigState) (text : string) (k : DomainListKind) :
    Result (option DomainUpdate) UpdateError :=
  match host_parse text with
  | Err _ => Err InvalidHost
  | Ok normalized_host =>
      let contains_host (l : list string) : bool := existsb (λ e, str_eqb (normalize_host e) normalized_host) l in
      if contains_host (list_entries k (config st)) && negb (contains_host (opposite_entries k (config st))) then Ok None
      else
        let cand := upsert_domain_permission normalize_host (config st) normalized_host (list_permission k) in
        let? _ := map_err ConstrainedByManaged (validate_policy_against_constraints cand (constraints st)) in
        let? new_state := map_err CompileFailed (build_config_state cand (constraints st)) in
        Ok (Some {| previous_cfg := config st; update_constraints := constraints st;
                    updated_state := with_blocked new_state (blocked st) (blocked_total st) |})
  end.

(** The commit; [None] when the state has changed and the update starts again. *)
Definition update_domain_commit (st : ConfigState) (u : DomainUpdate) : option ConfigState :=
  if decide (constraints st = update_constraints u ∧ config st = previous_cfg u) then Some (updated_state u) else None.

Definition set_mode_begin (st : ConfigState) (m : NetworkMode) : Result NetworkProxyConstraints NetworkProxyConstraintError :=
  let? _ := validate_policy_against_constraints (set_mode (config st) m) (constraints st) in
  Ok (constraints st).

Definition set_mode_commit (st : ConfigState) (m : NetworkMode) (snapshot : NetworkProxyConstraints) : option ConfigState :=
  if decide (constraints st = snapshot) then Some (with_mode st m) else None.

(** ** Interleaving *)

(** What a task holds between its snapshot and its commit. *)
Inductive Task :=
| Reloading (new_state : ConfigState)
| Updating (u : DomainUpdate)
| SettingMode (m : NetworkMode) (snapshot : NetworkProxyConstraints).

Record Proxy := { shared : ConfigState; tasks : list Task }.

(** [supplied] are the states that reloads and replacements come with. *)
Inductive step (supplied : ConfigState → Prop) : Proxy → Proxy → Prop :=
| StepReload p new_state : supplied new_state →
    step supplied p {| shared := shared p; tasks := Reloading (reload_begin (shared p) new_state) :: tasks p |}
| StepReloadCommit p ts ts' new_state : tasks p = ts ++ Reloading new_state :: ts' →
    step supplied p {| shared := new_state; tasks := ts ++ ts' |}
| StepForceReload p new_state : supplied new_state →
    step supplied p {| shared := force_reload (shared p) new_state; tasks := tasks p |}
| StepReplace p new_state : supplied new_state →
    step supplied p {| shared := replace_config_state (shared p) new_state; tasks := tasks p |}
| StepUpdate p text k u : update_domain_begin (shared p) text k = Ok (Some u) →
    step supplied p {| shared := shared p; tasks := Updating u :: tasks p |}
| StepUpdateCommit p ts ts' u : tasks p = ts ++ Updating u :: ts' →
    step supplied p {| shared := default (shared p) (update_domain_commit (shared p) u); tasks := ts ++ ts' |}
| StepMode p m snapshot : set_mode_begin (shared p) m = Ok snapshot →
    step supplied p {| shared := shared p; tasks := SettingMode m snapshot :: tasks p |}
| StepModeCommit p ts ts' m snapshot : tasks p = ts ++ SettingMode m snapshot :: ts' →
    step supplied p {| shared := default (shared p) (set_mode_commit (shared p) m snapshot); tasks := ts ++ ts' |}
| StepRecord p entry :
    step supplied p {| shared := record_blocked (shared p) entry; tasks := tasks p |}
| StepDrain p :
    step supplied p {| shared := (drain_blocked (shared p)).2; tasks := tasks p |}.

Definition reachable (supplied : ConfigState → Prop) (p : Proxy) : Prop :=
  ∃ st, supplied st ∧ rtc (step supplied) {| shared := st; tasks := [] |} p.

(** ** The invariant of the shared state *)

(** The configuration meets the constraints and the sets and hooks are compiled from it. *)
Record state_ok (st : ConfigState) : Prop := {
  ok_valid : validate_policy_against_constraints (config st) (constraints st) = Ok ();
  ok_deny : compile_denylist_globset (default [] (denied_domains (config st))) = Ok (deny_set st);
  ok_allow : compile_allowlist_globset (default [] (allowed_domains (config st))) = Ok (allow_set st);
  ok_hooks : compile_mitm_hooks (config st) = Ok (state_hooks st);
}.

(** A state that was validated and built. *)
Definition built (st : ConfigState) : Prop :=
  validate_policy_against_constraints (config st) (constraints st) = Ok () ∧
  build_config_state (config st) (constraints st) = Ok st.
End proxy.

Section proxy_facts.
Context `{HookBody, HookHost, PathEnv, Globs, UrlHosts, Interception, NetHost}.

Lemma build_ok cfg cons st : build_config_state cfg cons = Ok st →
  config st = cfg ∧ constraints st = cons ∧
  compile_denylist_globset (default [] (denied_domains cfg)) = Ok (deny_set st) ∧
  compile_allowlist_globset (default [] (allowed_domains cfg)) = Ok (allow_set st) ∧
  compile_mitm_hooks cfg = Ok (state_hooks st).
Proof.
  unfold build_config_state. intros (_ & _ & (_ & _ & (ds & Hd%map_err_ok & (als & Ha%map_err_ok &
    (hs & Hh%map_err_ok & (ms & _ & [= <-])%res_bind_ok)%res_bind_ok)%res_bind_ok)%res_bind_ok)%res_bind_ok)%res_bind_ok.
  by rewrite Hd, Ha, Hh.
Qed.

Lemma built_ok st : built st → state_ok st.
Proof. intros [Hv Hb]. by destruct (build_ok _ _ _ Hb) as (_ & _ & ? & ? & ?). Qed.

Lemma with_blocked_ok st b n : state_ok st → state_ok (with_blocked st b n).
Proof. by intros []. Qed.

(** Validation looks at the mode on its own. *)
Lemma validate_set_mode cfg cons m :
  validate_policy_against_constraints cfg cons = Ok () → validate_mode cons m = Ok () →
  validate_policy_against_constraints (set_mode cfg m) cons = Ok ().
Proof. rewrite !validate_iff. intros (? & ? & ? & _ & ? & ? & ? & ? & ? & ? & ?) Hm. split_and!; assumption. Qed.

Lemma validated_mode cfg cons m :
  validate_policy_against_constraints (set_mode cfg m) cons = Ok () → validate_mode cons m = Ok ().
Proof. rewrite validate_iff. by intros (_ & _ & _ & ? & _). Qed.

Lemma with_mode_ok st m : state_ok st → validate_mode (constraints st) m = Ok () → state_ok (with_mode st m).
Proof. intros [Hv Hd Ha Hh] Hm. constructor; simpl; [by apply validate_set_mode|done..]. Qed.

Definition task_ok (t : Task) : Prop :=
  match t with
  | Reloading new_state => state_ok new_state
  | Updating u => state_ok (updated_state u)
  | SettingMode m snapshot => validate_mode snapshot m = Ok ()
  end.

Record proxy_ok (p : Proxy) : Prop := { shared_ok : state_ok (shared p); tasks_ok : Forall task_ok (tasks p) }.

Lemma update_begin_ok st text k u : update_domain_begin st text k = Ok (Some u) → state_ok (updated_state u).
Proof.
  unfold update_domain_begin. destruct (host_parse text) as [h|]; [|done]. destruct (_ && _); [done|].
  intros ([] & Hv%map_err_ok & (new_state & Hb%map_err_ok & [= <-])%res_bind_ok)%res_bind_ok. simpl.
  apply with_blocked_ok, built_ok. unfold built. by destruct (build_ok _ _ _ Hb) as (-> & -> & _).
Qed.

Lemma commit_some st u st' : update_domain_commit st u = Some st' → st' = updated_state u.
Proof. unfold update_domain_commit. destruct (decide _); [by intros [= <-]|done]. Qed.

(** Whatever the tasks do, and in whatever order, the shared configuration meets the
    constraints it came with and its compiled sets and hooks are those of the configuration. *)
Lemma step_ok p p' : step built p p' → proxy_ok p → proxy_ok p'.
Proof.
  assert (∀ ts t ts', Forall task_ok (ts ++ t :: ts') → task_ok t ∧ Forall task_ok (ts ++ ts')) as Htake.
  { intros ts t ts'. rewrite !Forall_app, Forall_cons. naive_solver. }
  intros Hstep [Hs Ht]. destruct Hstep as [p ns Hn|p ts ts' ns E|p ns Hn|p ns Hn|p text k u Hu|p ts ts' u E|p m sn Hm|p ts ts' m sn E|p e|p];
    try (rewrite E in Ht; apply Htake in Ht as [Htask Ht]); constructor; simpl; try done;
    try (by apply with_blocked_ok, built_ok).
  - constructor; [|done]. by apply with_blocked_ok, built_ok.
  - constructor; [|done]. by eapply update_begin_ok.
  - unfold update_domain_commit. by destruct (decide _).
  - constructor; [|done]. simpl. unfold set_mode_begin in Hm. apply res_bind_ok in Hm as ([] & Hm & [= <-]). by eapply validated_mode.
  - unfold set_mode_commit. destruct (decide _) as [<-|]; [|done]. by apply with_mode_ok.
  - by apply with_blocked_ok.
  - by apply with_blocked_ok.
Qed.

Lemma reachable_ok p : reachable built p → proxy_ok p.
Proof.
  intros (st & Hst & Hr). remember {| shared := st; tasks := [] |} as p0 eqn:E.
  assert (proxy_ok p0) as Hok by (subst; constructor; [by apply built_ok|constructor]).
  clear E Hst. induction Hr as [|p0 p1 p2 Hstep _ IH]; [done|]. by apply IH, (step_ok p0).
Qed.

(** ** Decisions *)

(** What an allowed host has passed. *)
Lemma not_blocked_spec st text port h :
  host_parse text = Ok h → host_blocked st text port = HostAllowed ∨ host_blocked st text port = HostBlocked ReasonNotAllowed →
  globset_matches_host_or_unscoped (deny_set st) h = false ∧
  (allow_local_binding (config st) = false →
     if local_literal h then is_explicit_local_allowlisted (default [] (allowed_domains (config st))) h = true
     else host_resolves_to_non_public_ip h port = false) ∧
  (host_blocked st text port = HostAllowed → globset_matches_host_or_unscoped (allow_set st) h = true).
Proof.
  intros Hp. unfold host_blocked. rewrite Hp.
  destruct (globset_matches_host_or_unscoped (deny_set st) h); [intros [?|?]; done|].
  destruct (allow_local_binding (config st)), (local_literal h), (is_explicit_local_allowlisted (default [] (allowed_domains (config st))) h),
    (host_resolves_to_non_public_ip h port), (bool_decide (allowed_domains (config st) = None)), (globset_matches_host_or_unscoped (allow_set st) h);
    cbn [negb andb orb]; naive_solver.
Qed.

Lemma decision_allow st decider request :
  evaluate_host_policy st decider request = NetAllow →
  host_blocked st (request_host request) (request_port request) = HostAllowed ∨
  host_blocked st (request_host request) (request_port request) = HostBlocked ReasonNotAllowed ∧
    ∃ d, decider = Some d ∧ d request = NetAllow.
Proof.
  unfold evaluate_host_policy. destruct (host_blocked _ _ _) as [|[]]; [by left|done| |done].
  destruct decider as [d|]; [|done]. intros Hd. right. split; [done|]. exists d. split; [done|].
  by destruct (d request).
Qed.

(** All addresses of a host are public. *)
Definition resolves_publicly (h : string) (port : N) : Prop :=
  match parse_ip h with
  | Some ip => is_non_public_ip ip = false
  | None => ∃ addrs, lookup_host h port = Some addrs ∧ Forall (λ ip, is_non_public_ip ip = false) addrs
  end.

Lemma resolves_publicly_ok h port : host_resolves_to_non_public_ip h port = false → resolves_publicly h port.
Proof.
  unfold host_resolves_to_non_public_ip, resolves_publicly. destruct (parse_ip h) as [ip|]; [done|].
  destruct (lookup_host h port) as [addrs|]; [|done]. intros Hn. exists addrs. split; [done|].
  apply Forall_forall. intros ip Hin. apply not_true_iff_false. intros Hip. apply not_true_iff_false in Hn.
  apply Hn, existsb_exists. exists ip. by rewrite <-list_elem_of_In.
Qed.

(** A host, or the address it names without its scope, is on a list. *)
Definition listed_unscoped (entries : list string) (h : string) : bool :=
  listed entries h || is_some_and (unscoped_ip_literal h) (listed entries).

Lemma allow_set_confined `{!GlobLaws} st managed h :
  state_ok st → c_allowed_domains (constraints st) = Some managed →
  c_allowlist_expansion_enabled (constraints st) ≠ Some true →
  Forall ordinary managed → Forall comparable (default [] (allowed_domains (config st))) →
  is_match (allow_set st) h = true → listed managed h = true.
Proof.
  intros [Hv _ Ha _] Hm He Hord Hcmp Hmatch. apply validate_iff in Hv as (_ & _ & _ & _ & _ & _ & _ & _ & Hv & _).
  rewrite (compile_matches _ _ _ _ Ha) in Hmatch.
  2:{ eapply Forall_impl; [exact Hcmp|]. apply comparable_plain. }
  destruct (c_allowlist_expansion_enabled (constraints st)) as [[]|] eqn:Ee; [done|..].
  - by eapply exact_confined.
  - by eapply subset_confined.
Qed.

Lemma denials_enforced `{!GlobLaws} st managed e h :
  state_ok st → c_denied_domains (constraints st) = Some managed → e ∈ managed →
  plain_pattern (compiled_pattern e) = true → denotes (compiled_pattern e) h = true → is_match (deny_set st) h = true.
Proof.
  intros [Hv Hd _ _] Hm He Hp Hden. apply validate_iff in Hv as (_ & _ & _ & _ & _ & _ & _ & _ & _ & Hv & _).
  destruct (denials_present _ _ _ e Hm Hv He) as (e' & Hin & Hl). apply compiled_pattern_case in Hl.
  eapply (compile_covers _ _ _ e'); [exact Hd|done|by rewrite Hl..].
Qed.
End proxy_facts.

(** Claim C32. Managed network policy holds at all times, within what its comparisons of
    texts can see.  However updates of the domain lists, changes of mode, and reloads and
    replacements with validated configurations interleave, a request whose host parses to the
    text [h] is allowed only under the following conditions.  No managed denial whose domain
    is free of glob metacharacters stands for the text [h]; an address in another spelling is
    another text.  Either the configured decider allowed the request; or, where the managed
    allowlist may not be widened, [h], or the address that [h] names without its scope, is on
    it, if each managed entry is ordinary (the url library and the globs read it as the same
    normalised domain without metacharacters) and each allowed entry of the configuration is
    ordinary or [*]; with a managed entry that the url library does not parse, one with a
    port say, this may fail.  And, unless local addresses are enabled, which they are not
    where the managed policy forbids it, [h] is a local literal that the configuration allows
    by name, or it resolves and all its addresses are public. *)
Theorem managed_policy_enforced `{HookBody, HookHost, PathEnv, Globs, UrlHosts, Interception, NetHost} `{!GlobLaws}
    p decider request h :
  reachable built p → host_parse (request_host request) = Ok h →
  evaluate_host_policy (shared p) decider request = NetAllow →
  let cfg := config (shared p) in
  let cons := constraints (shared p) in
  (∀ managed e, c_denied_domains cons = Some managed → e ∈ managed → plain_pattern (compiled_pattern e) = true →
     denotes (compiled_pattern e) h = false) ∧
  ((∃ d, decider = Some d ∧ d request = NetAllow) ∨
   ∀ managed, c_allowed_domains cons = Some managed → c_allowlist_expansion_enabled cons ≠ Some true →
     Forall ordinary managed → Forall comparable (default [] (allowed_domains cfg)) → listed_unscoped managed h = true) ∧
  (c_allow_local_binding cons = Some false → allow_local_binding cfg = false) ∧
  (allow_local_binding cfg = false →
     if local_literal h then is_explicit_local_allowlisted (default [] (allowed_domains cfg)) h = true
     else resolves_publicly h (request_port request)).
Proof.
  intros [Hok _]%reachable_ok Hp Hallow cfg cons. apply decision_allow in Hallow.
  destruct (not_blocked_spec (shared p) _ (request_port request) h Hp) as (Hdeny & Hlocal & Hset); [tauto|].
  apply orb_false_iff in Hdeny as [Hdeny _]. split_and!.
  - intros managed e Hm He Hpl. apply not_true_iff_false. intros Hden.
    by rewrite (denials_enforced _ _ _ _ Hok Hm He Hpl Hden) in Hdeny.
  - destruct Hallow as [Hallow|[_ ?]]; [right|by left]. intros managed Hm Hexp Hord Hcmp. specialize (Hset Hallow).
    unfold listed_unscoped. apply orb_true_iff in Hset as [Hset|Hset]; apply orb_true_iff; [left|right].
    + by eapply allow_set_confined.
    + destruct (unscoped_ip_literal h) as [ip|]; [|done]. by eapply allow_set_confined.
  - by destruct Hok as [(_ & _ & _ & _ & _ & _ & _ & ? & _)%validate_iff _ _ _].
  - intros Hl. specialize (Hlocal Hl). destruct (local_literal h); [done|]. by apply resolves_publicly_ok.
Qed.

(** ** Updates take effect *)

Lemma commit_state `{HookBody, HookHost, PathEnv, Globs, UrlHosts, Interception} st text k u st' h :
  host_parse text = Ok h → update_domain_begin st text k = Ok (Some u) → update_domain_commit st u = Some st' →
  state_ok st' ∧ h ∈ list_entries k (config st') ∧ blocked st' = blocked st.
Proof.
  intros Hp Hu Hc. pose proof (update_begin_ok _ _ _ _ Hu) as Hok. unfold update_domain_commit in Hc.
  destruct (decide _); [|done]. injection Hc as <-. split; [done|].
  unfold update_domain_begin in Hu. rewrite Hp in Hu. destruct (_ && _); [done|].
  apply res_bind_ok in Hu as ([] & _ & (ns & Hb%map_err_ok & [= <-])%res_bind_ok). simpl.
  destruct (build_ok _ _ _ Hb) as (-> & _). split; [|done].
  destruct k; simpl; apply upsert_effective.
Qed.

(** An update of a domain list takes effect at once.  When adding a host to the
    denied domains commits, requests to the host are denied, whatever else is configured; when
    adding it to the allowed domains commits, only an explicit denial or the protection of
    local addresses still blocks it. *)
Theorem update_takes_effect `{HookBody, HookHost, PathEnv, Globs, UrlHosts, Interception, NetHost} `{!GlobLaws}
    st text k u st' h port :
  host_parse text = Ok h → domain_name h = true →
  update_domain_begin st text k = Ok (Some u) → update_domain_commit st u = Some st' →
  match k with
  | ListDeny => host_blocked st' text port = HostBlocked ReasonDenied
  | ListAllow => host_blocked st' text port ≠ HostBlocked ReasonNotAllowed
  end.
Proof.
  intros Hp Hn Hu Hc. destruct (commit_state _ _ _ _ _ _ Hp Hu Hc) as ([_ Hd Ha _] & Hin & _).
  destruct (domain_name_compiled h Hn) as [Hcp _].
  assert (plain_pattern (compiled_pattern h) = true) as Hpl.
  { rewrite Hcp. cbn [plain_pattern]. rewrite domain_name_plain by done. apply orb_true_r. }
  assert (denotes (compiled_pattern h) h = true) as Hden.
  { rewrite Hcp. cbn [denotes]. unfold eq_ignore_ascii_case. rewrite str_eqb_refl. apply orb_true_r. }
  unfold host_blocked. rewrite Hp. destruct k; cbn [list_entries] in Hin.
  - destruct (globset_matches_host_or_unscoped (deny_set st') h); [done|].
    unfold globset_matches_host_or_unscoped at 1. rewrite (compile_covers _ _ _ _ _ Ha Hin Hpl Hden). cbn [orb].
    destruct (_ && _); [done|]. destruct (allowed_domains (config st')); [|by apply not_elem_of_nil in Hin].
    by rewrite bool_decide_eq_false_2.
  - unfold globset_matches_host_or_unscoped. by rewrite (compile_covers _ _ _ _ _ Hd Hin Hpl Hden).
Qed.

(** ** A concrete proxy *)

Module Sample.
#[export] Instance hook_bodies : HookBody := {| Body := unit |}.
#[export] Instance hook_host_env : HookHost :=
  {| HookGlob := string; hook_glob _ p := Some p; hook_glob_match g s := str_eqb g s; header_name n := Some n;
     header_value v := Some v; secret_env _ := None; secret_content _ := None; query_pairs _ := [] |}.
#[export] Instance path_env : PathEnv := {| home_dir := None; current_dir := Some "/" |}.
#[export] Instance domain_globs : Globs := simple_globs.
(** Domain names are put in lower case; anything else does not parse. *)
#[export] Instance url_hosts : UrlHosts :=
  {| url_host_parse d := let d := ascii_lowercase d in if domain_name d then Some d else None |}.
#[export] Instance interception : Interception := {| MitmState := unit; mitm_new _ _ := Ok () |}.
(** Every name has one public address. *)
#[export] Instance net_host : NetHost :=
  {| lookup_host _ _ := Some [V4 (v4 93 184 216 34)]; unix_socket_permissions_supported := false; canonical_socket _ := None |}.

Definition domain (p : string) (perm : NetworkDomainPermission) : NetworkDomainPermissionEntry :=
  {| pattern := p; permission := perm |}.

Definition settings (entries : list NetworkDomainPermissionEntry) : NetworkProxySettings :=
  set_domains settings_default (Some entries).

Definition managed (allowed denied : list string) : NetworkProxyConstraints :=
  {| c_enabled := None; c_mode := Some Limited; c_allow_upstream_proxy := None; c_dangerously_allow_non_loopback_proxy := None;
     c_dangerously_allow_all_unix_sockets := None; c_allowed_domains := Some allowed; c_allowlist_expansion_enabled := None;
     c_denied_domains := Some denied; c_denylist_expansion_enabled := None; c_allow_unix_sockets := None;
     c_allow_local_binding := Some false |}.

(** A state built from a configuration, with no events. *)
Definition state_of (cfg : NetworkProxySettings) (cons : NetworkProxyConstraints) : ConfigState :=
  match build_config_state cfg cons with
  | Ok st => st
  | Err _ => {| config := cfg; allow_set := []; deny_set := []; state_mitm := None; state_hooks := ∅; constraints := cons;
                blocked := []; blocked_total := 0 |}
  end.

Definition event (h : string) : BlockedRequest :=
  {| blocked_host := h; blocked_reason := "denied"; blocked_client := None; blocked_method := None; blocked_mode := None;
     blocked_protocol := "http"; blocked_decision := None; blocked_source := None; blocked_port := None; blocked_timestamp := 0 |}.

Definition request (h : string) : NetworkPolicyRequest :=
  {| request_protocol := Http; request_host := h; request_port := 80; request_environment := None; request_client := None;
     request_method := None; request_command := None; request_hint := None |}.

Definition cfg : NetworkProxySettings :=
  set_mode (settings [domain "*.Example.com" PermAllow; domain "EVIL.example.com" PermDeny]) Limited.
Definition cons : NetworkProxyConstraints := managed ["**.example.com"] ["evil.example.com"].
Definition start : ConfigState := state_of cfg cons.
End Sample.

Import Sample.

Lemma managed_policy_enforced_witness :
  evaluate_host_policy start None (request "API.example.com:443") = NetAllow ∧
  evaluate_host_policy start None (request "evil.example.com") = NetDeny "denied" BaselinePolicy DecisionDeny ∧
  denotes (compiled_pattern "evil.example.com") "api.example.com" = false ∧
  listed_unscoped ["**.example.com"] "api.example.com" = true ∧
  resolves_publicly "api.example.com" 80.
Proof.
  assert (built start) as Hb by (split; vm_refl).
  assert (reachable built {| shared := start; tasks := [] |}) as Hr by (by exists start).
  assert (evaluate_host_policy start None (request "API.example.com:443") = NetAllow) as He by vm_refl.
  destruct (managed_policy_enforced {| shared := start; tasks := [] |} None (request "API.example.com:443") "api.example.com")
    as (Hd & Ha & _ & Hl); [done|vm_refl|done|].
  split_and!; [done|vm_refl|..].
  - apply (Hd ["evil.example.com"]); [vm_refl|by left|vm_refl].
  - destruct Ha as [(d & ? & _)|Ha]; [done|]. apply Ha; [vm_refl|vm_compute; discriminate|..].
    + constructor; [|constructor]. apply (domain_name_ordinary "example.com"); vm_refl.
    + assert (default [] (allowed_domains (config start)) = ["*.Example.com"]) as Hal by vm_refl.
      cbn [shared]. rewrite Hal. constructor; [|constructor]. left. split; vm_refl.
  - by apply Hl.
Defined.

(** The state after an update of a domain list that nothing interferes with. *)
Definition updated (st : ConfigState) (text : string) (k : DomainListKind) : ConfigState :=
  match update_domain_begin st text k with
  | Ok (Some u) => default st (update_domain_commit st u)
  | _ => st
  end.

Lemma update_takes_effect_witness :
  host_blocked start "www.example.com" 80 = HostAllowed ∧
  host_blocked (updated start "WWW.example.com" ListDeny) "WWW.example.com" 80 = HostBlocked ReasonDenied.
Proof.
  split; [vm_refl|].
  assert (match update_domain_begin start "WWW.example.com" ListDeny with
          | Ok (Some u) => bool_decide (is_Some (update_domain_commit start u)) | _ => false end = true) as Hc by vm_refl.
  unfold updated. destruct (update_domain_begin start "WWW.example.com" ListDeny) as [[u|]|] eqn:Hu; [|done..].
  apply bool_decide_eq_true in Hc as [st' Hc]. rewrite Hc.
  apply (update_takes_effect start "WWW.example.com" ListDeny u st' "www.example.com"); [vm_refl|vm_refl|done|done].
Defined.

(** ** Behaviour worth knowing *)

(** A denied address is reached under another spelling: the lists compare text. *)
Example denied_address_respelled :
  let st := state_of (settings [domain "*" PermAllow; domain "93.184.216.34" PermDeny]) no_constraints in
  host_blocked st "93.184.216.34" 80 = HostBlocked ReasonDenied ∧
  host_blocked st "[::ffff:93.184.216.34]" 80 = HostAllowed.
Proof. split; vm_refl. Qed.

(** A managed entry that the url library does not parse, here for its port, admits every
    entry that it does not parse either; the globs drop the port and allow the host. *)
Example unparsed_managed_entry_admits_all :
  let cons := managed ["example.com:443"] [] in
  let cfg := set_mode (settings [domain "evil.org:443" PermAllow]) Limited in
  validate_policy_against_constraints cfg cons = Ok () ∧
  host_blocked (state_of cfg cons) "evil.org" 443 = HostAllowed.
Proof. split; vm_refl. Qed.

(** An event that is recorded while an update is under way is lost when the update commits. *)
Example event_lost_by_update : ∃ p, reachable built p ∧
  (∃ p1 p2, reachable built p1 ∧ step built p1 p2 ∧ shared p2 = record_blocked (shared p1) (event "x.org") ∧ step built p2 p) ∧
  blocked (shared p) = [] ∧ blocked_total (shared p) = 0%N.
Proof.
  assert (built start) as Hb by (split; vm_refl).
  assert (match update_domain_begin start "www.example.com" ListDeny with
          | Ok (Some u) => bool_decide (is_Some (update_domain_commit (record_blocked start (event "x.org")) u)) &&
                           (length (blocked (updated_state u)) =? 0) && (blocked_total (updated_state u) =? 0)%N
          | _ => false end = true) as Hc by vm_refl.
  destruct (update_domain_begin start "www.example.com" ListDeny) as [[u|]|] eqn:Hu; [|done..].
  rewrite !andb_true_iff, bool_decide_eq_true, Nat.eqb_eq, N.eqb_eq in Hc. destruct Hc as [[[st' Hc] Hbl%length_zero_iff_nil] Ht].
  pose proof (commit_some _ _ _ Hc) as ->.
  set (p0 := {| shared := start; tasks := [] |}). set (p1 := {| shared := start; tasks := [Updating u] |}).
  set (p2 := {| shared := record_blocked start (event "x.org"); tasks := [Updating u] |}).
  assert (step built p0 p1) as H1 by (by apply (StepUpdate built p0 "www.example.com" ListDeny u)).
  assert (step built p1 p2) as H2 by apply (StepRecord built p1).
  assert (step built p2 {| shared := updated_state u; tasks := [] |}) as H3.
  { pose proof (StepUpdateCommit built p2 [] [] u eq_refl) as H3.
    assert (update_domain_commit (shared p2) u = Some (updated_state u)) as Hc2 by exact Hc. by rewrite Hc2 in H3. }
  assert (reachable built p1) as Hr1 by (exists start; split; [done|by apply rtc_once]).
  exists {| shared := updated_state u; tasks := [] |}. split_and!; [|exists p1, p2; by split_and!|done..].
  exists start. split; [done|]. by apply (rtc_l _ _ p1), (rtc_l _ _ p2), rtc_once.
Qed.

(** A forced reload keeps the events and forgets their count. *)
Example force_reload_forgets_total :
  let st := record_blocked start (event "x.org") in
  blocked_total st = 1%N ∧ length (blocked (force_reload st start)) = 1 ∧ blocked_total (force_reload st start) = 0%N ∧
  blocked_total (replace_config_state st start) = 1%N.
Proof. split_and!; vm_refl. Qed.

(** A local address that the configuration allows by name passes the policy, and the
    connection to it is refused all the same. *)
Example allowed_local_unreachable :
  let st := state_of (settings [domain "127.0.0.1" PermAllow]) no_constraints in
  evaluate_host_policy st None (request "127.0.0.1") = NetAllow ∧ target_rejected st false (V4 (v4 127 0 0 1)) = true.
Proof. split; vm_refl. Qed.
