(* ===== verification/NetApproval.v ===== *)
(** * Approving network access while a command runs

    codex-rs/core/src/tools/network_approval.rs and the message of a blocked request
    (core/src/network_policy_decision.rs).

    The proxy asks the service about a host that is not on its list; any number of requests
    do so at the same time.  A request is a [Task] whose [Phase]s are the stretches of
    [handle_inline_policy_request] between two locks, so [advance] is one atomic stretch and
    [step] interleaves those of all tasks with commands that begin and finish.  The request
    that creates a pending approval owns it and asks; the others hold a reference to the same
    approval and wait.  What the owner does after the answer is a list of [Effect]s, one per
    lock.  A [Notify] is the number of times its waiters were woken: [notified()] remembers
    the number and completes once it has grown, the documented behaviour of tokio.  A request
    may be dropped between two stretches, when its client goes away: it stays as [Dropped] and
    does nothing any more.

    What hooks, the reviewer, the guardian and the turn answer are the [Input] of a step.
    Telemetry, the working directory of a prompt and the description of the command in the
    guardian's prompt (its trigger) are left out. *)

From stdpp Require Import base gmap list strings.
From S2P Require Import Prelude Str BTree Json Utf8 Fragments AbsPath ExecPolicy ShellCommand Permissions ApprovalPolicy.
From S2P Require Import PolicyTransforms PermissionGrants Orchestrator IpAddr HostPolicy NetConfig MitmHook NetState NetProxy.
From Stdlib Require Import Lia.

(** ** Data *)

Record HostApprovalKey := {
  key_environment : string;
  key_host : string;
  key_protocol : string;
  key_port : N;
}.

#[export] Instance key_eq_dec : EqDecision HostApprovalKey.
Proof. solve_decision. Defined.

#[export] Instance key_countable : Countable HostApprovalKey.
Proof.
  refine (inj_countable' (λ k, (key_environment k, key_host k, key_protocol k, key_port k))
    (λ '(e, h, p, n), {| key_environment := e; key_host := h; key_protocol := p; key_port := n |}) _).
  by intros [].
Defined.

Definition protocol_key_label (protocol : NetworkApprovalProtocol) : string :=
  match protocol with
  | NetHttp => "http"
  | NetHttps => "https"
  | NetSocks5Tcp => "socks5-tcp"
  | NetSocks5Udp => "socks5-udp"
  end.

Definition approval_protocol (p : NetworkProtocol) : NetworkApprovalProtocol :=
  match p with
  | NetProxy.Http => NetHttp
  | NetProxy.HttpsConnect => NetHttps
  | NetProxy.Socks5Tcp => NetSocks5Tcp
  | NetProxy.Socks5Udp => NetSocks5Udp
  end.

Definition key_from_request (request : NetworkPolicyRequest) (protocol : NetworkApprovalProtocol)
    (environment_id : string) : HostApprovalKey :=
  {| key_environment := environment_id; key_host := ascii_lowercase (request_host request);
     key_protocol := protocol_key_label protocol; key_port := request_port request |}.

Inductive PendingApprovalDecision := AllowOnce | AllowForSession | DenyPending.

Inductive NetworkApprovalOutcome := DeniedByUser | DeniedByPolicy (message : string).

#[export] Instance outcome_eq_dec : EqDecision NetworkApprovalOutcome.
Proof. solve_decision. Defined.

Definition network_approval_outcome_to_result (outcome : option NetworkApprovalOutcome) : Result () ToolError :=
  match outcome with
  | Some DeniedByUser => Err (ToolRejected "rejected by user")
  | Some (DeniedByPolicy message) => Err (ToolRejected message)
  | None => Ok ()
  end.

(** [NetworkDecision::deny("not_allowed")] *)
Definition deny_not_allowed : NetworkDecision := deny_with_source "not_allowed" Decider.

Definition to_network_decision (d : PendingApprovalDecision) : NetworkDecision :=
  match d with AllowOnce | AllowForSession => NetAllow | DenyPending => deny_not_allowed end.

(** [PendingHostApproval]: the decision, and how often [notify_waiters] ran. *)
Record PendingHostApproval := { pending_decision : option PendingApprovalDecision; wakeups : nat }.

Definition new_pending : PendingHostApproval := {| pending_decision := None; wakeups := 0 |}.

(** The token is a name for the flag that [cancel] sets. *)
Record ActiveNetworkApprovalCall := {
  call_id : string;
  call_turn : string;
  call_command : string;
  call_environment : string;
  call_token : nat;
}.

Inductive ActiveNetworkApprovalAttribution :=
| AttributedNone
| AttributedSingle (call : ActiveNetworkApprovalCall)
| Ambiguous.

Record NetworkApprovalService := {
  active_calls : list (string * ActiveNetworkApprovalCall);
  call_outcomes : gmap string NetworkApprovalOutcome;
  cancelled : gset nat;
  pending_host_approvals : gmap HostApprovalKey nat;
  approvals : gmap nat PendingHostApproval;
  session_approved_hosts : gset HostApprovalKey;
  session_denied_hosts : gset HostApprovalKey;
}.

Definition default_service : NetworkApprovalService :=
  {| active_calls := []; call_outcomes := ∅; cancelled := ∅; pending_host_approvals := ∅;
     approvals := ∅; session_approved_hosts := ∅; session_denied_hosts := ∅ |}.

(** ** The service's operations, one lock each *)

(** Field updates. *)
Definition with_calls (s : NetworkApprovalService) (calls : list (string * ActiveNetworkApprovalCall))
    (outcomes : gmap string NetworkApprovalOutcome) : NetworkApprovalService :=
  {| active_calls := calls; call_outcomes := outcomes; cancelled := cancelled s;
     pending_host_approvals := pending_host_approvals s; approvals := approvals s;
     session_approved_hosts := session_approved_hosts s; session_denied_hosts := session_denied_hosts s |}.

Definition with_cancelled (s : NetworkApprovalService) (tokens : gset nat) : NetworkApprovalService :=
  {| active_calls := active_calls s; call_outcomes := call_outcomes s; cancelled := tokens;
     pending_host_approvals := pending_host_approvals s; approvals := approvals s;
     session_approved_hosts := session_approved_hosts s; session_denied_hosts := session_denied_hosts s |}.

Definition with_pending (s : NetworkApprovalService) (pending : gmap HostApprovalKey nat)
    (store : gmap nat PendingHostApproval) : NetworkApprovalService :=
  {| active_calls := active_calls s; call_outcomes := call_outcomes s; cancelled := cancelled s;
     pending_host_approvals := pending; approvals := store;
     session_approved_hosts := session_approved_hosts s; session_denied_hosts := session_denied_hosts s |}.

Definition with_hosts (s : NetworkApprovalService) (approved denied : gset HostApprovalKey) : NetworkApprovalService :=
  {| active_calls := active_calls s; call_outcomes := call_outcomes s; cancelled := cancelled s;
     pending_host_approvals := pending_host_approvals s; approvals := approvals s;
     session_approved_hosts := approved; session_denied_hosts := denied |}.

(** [self.sync_session_approved_hosts_to(other)], as the new [other]. *)
Definition sync_session_approved_hosts_to (self other : NetworkApprovalService) : NetworkApprovalService :=
  with_hosts other (session_approved_hosts self) (session_denied_hosts other).

Definition register_call (s : NetworkApprovalService) (call : ActiveNetworkApprovalCall) : NetworkApprovalService :=
  with_calls s (index_insert (call_id call) call (active_calls s)) (call_outcomes s).

Definition remove_call (s : NetworkApprovalService) (registration_id : string) :
    option NetworkApprovalOutcome * NetworkApprovalService :=
  (call_outcomes s !! registration_id,
   with_calls s (shift_remove registration_id (active_calls s)) (delete registration_id (call_outcomes s))).

Definition finish_call (s : NetworkApprovalService) (registration_id : string) :
    Result () ToolError * NetworkApprovalService :=
  let '(outcome, s) := remove_call s registration_id in
  (network_approval_outcome_to_result outcome, s).

Definition resolve_single_active_call (s : NetworkApprovalService) : option ActiveNetworkApprovalCall :=
  match active_calls s with [(_, call)] => Some call | _ => None end.

Definition resolve_active_call_attribution (s : NetworkApprovalService) : ActiveNetworkApprovalAttribution :=
  match active_calls s with
  | [] => AttributedNone
  | [(_, call)] => AttributedSingle call
  | _ => Ambiguous
  end.

(** A new approval is a reference that no other task holds. *)
Definition get_or_create_pending_approval (s : NetworkApprovalService) (key : HostApprovalKey) :
    nat * bool * NetworkApprovalService :=
  match pending_host_approvals s !! key with
  | Some existing => (existing, false, s)
  | None =>
      let created := fresh (dom (approvals s)) in
      (created, true, with_pending s (<[key := created]> (pending_host_approvals s))
                                     (<[created := new_pending]> (approvals s)))
  end.

(** The locked part of [record_call_outcome] and the call whose token it then cancels. *)
Definition record_call_outcome (s : NetworkApprovalService) (registration_id : string)
    (outcome : NetworkApprovalOutcome) : NetworkApprovalService * option ActiveNetworkApprovalCall :=
  match index_get registration_id (active_calls s) with
  | None => (s, None)
  | Some call =>
      match call_outcomes s !! registration_id with
      | Some DeniedByUser => (s, None)
      | _ => (with_calls s (active_calls s) (<[registration_id := outcome]> (call_outcomes s)), Some call)
      end
  end.

(** ** Calls that begin and finish *)

Record ActiveNetworkApproval := {
  active_registration : option string;
  active_mode : NetworkApprovalMode;
  active_token : nat;
}.

(** [finish_outcome] is the [OnceCell]. *)
Record DeferredNetworkApproval := {
  deferred_registration : string;
  deferred_token : nat;
  finish_outcome : option (option NetworkApprovalOutcome);
}.

Definition into_deferred (a : ActiveNetworkApproval) : option DeferredNetworkApproval :=
  match active_mode a, active_registration a with
  | ApprovalDeferred, Some registration_id =>
      Some {| deferred_registration := registration_id; deferred_token := active_token a; finish_outcome := None |}
  | _, _ => None
  end.

Definition deferred_finish (s : NetworkApprovalService) (d : DeferredNetworkApproval) :
    Result () ToolError * DeferredNetworkApproval * NetworkApprovalService :=
  match finish_outcome d with
  | Some outcome => (network_approval_outcome_to_result outcome, d, s)
  | None =>
      let '(outcome, s) := remove_call s (deferred_registration d) in
      (network_approval_outcome_to_result outcome,
       {| deferred_registration := deferred_registration d; deferred_token := deferred_token d;
          finish_outcome := Some outcome |}, s)
  end.

Definition finish_immediate_network_approval (s : NetworkApprovalService) (active : ActiveNetworkApproval) :
    Result () ToolError * NetworkApprovalService :=
  match active_registration active with
  | None => (Ok (), s)
  | Some registration_id => finish_call s registration_id
  end.

Definition finish_deferred_network_approval (s : NetworkApprovalService) (deferred : option DeferredNetworkApproval) :
    Result () ToolError * option DeferredNetworkApproval * NetworkApprovalService :=
  match deferred with
  | None => (Ok (), None, s)
  | Some d => let '(r, d, s) := deferred_finish s d in (r, Some d, s)
  end.

(** [spec_network] is [network.is_some()]. *)
Record NetworkApprovalSpec := {
  spec_network : bool;
  spec_mode : NetworkApprovalMode;
  spec_command : string;
  spec_environment : string;
}.

(** The new registration id and the new token are the two last arguments. *)
Definition begin_network_approval (s : NetworkApprovalService) (turn_id : string) (managed_network_active : bool)
    (spec : option NetworkApprovalSpec) (uuid : string) (token : nat) :
    option ActiveNetworkApproval * NetworkApprovalService :=
  match spec with
  | None => (None, s)
  | Some spec =>
      if negb managed_network_active || negb (spec_network spec) then (None, s)
      else (Some {| active_registration := Some uuid; active_mode := spec_mode spec; active_token := token |},
            register_call s {| call_id := uuid; call_turn := turn_id; call_command := spec_command spec;
                               call_environment := spec_environment spec; call_token := token |})
  end.

(** ** What is asked *)

(** What a request reads of the active turn. *)
Record ApprovalTurn := {
  turn_sub_id : string;
  turn_permissions : PermissionProfile;
  turn_approval_policy : AskForApproval;
  turn_primary_environment : option string;
  turn_guardian : bool;
}.

Definition allows_network_approval_flow (policy : AskForApproval) : bool :=
  match policy with Never => false | _ => true end.

Definition permission_profile_allows_network_approval_flow (profile : PermissionProfile) : bool :=
  match profile with Managed _ _ => true | _ => false end.

Definition format_network_target (protocol host : string) (port : N) : string :=
  protocol +:+ ("://" +:+ (host +:+ (":" +:+ pretty port))).

Definition approval_id_for_key (key : HostApprovalKey) : string :=
  "network#" +:+ (key_environment key +:+ ("#" +:+ (key_protocol key +:+ ("#" +:+ (key_host key +:+ ("#" +:+ pretty (key_port key))))))).

(** What [handle_inline_policy_request] knows once it has its key. *)
Record Claim := {
  claim_owner : option ActiveNetworkApprovalCall;
  claim_turn : option ApprovalTurn;
  claim_key : HostApprovalKey;
}.

Definition request_target (request : NetworkPolicyRequest) (key : HostApprovalKey) : string :=
  format_network_target (key_protocol key) (request_host request) (key_port key).

Definition network_approval_context (request : NetworkPolicyRequest) : NetworkApprovalContext :=
  {| context_host := request_host request; context_protocol := approval_protocol (request_protocol request) |}.

Definition prompt_command (request : NetworkPolicyRequest) (key : HostApprovalKey) : list string :=
  ["network-access"; request_target request key].

(** What the hooks are given: a command and a description. *)
Record HookPrompt := { hook_command : string; hook_description : string }.

Definition hook_prompt (request : NetworkPolicyRequest) (c : Claim) : HookPrompt :=
  {| hook_command := match claim_owner c with
                     | Some call => call_command call
                     | None => join " " (prompt_command request (claim_key c))
                     end;
     hook_description := "network-access " +:+ request_target request (claim_key c) |}.

(** The action the guardian reviews; the id of the approval and of the turn are not part of it. *)
Record GuardianPrompt := {
  guardian_target : string;
  guardian_host : string;
  guardian_protocol : NetworkApprovalProtocol;
  guardian_port : N;
}.

Definition guardian_prompt (request : NetworkPolicyRequest) (c : Claim) : GuardianPrompt :=
  {| guardian_target := request_target request (claim_key c); guardian_host := request_host request;
     guardian_protocol := approval_protocol (request_protocol request); guardian_port := key_port (claim_key c) |}.

(** What the user is asked with [request_command_approval]. *)
Record UserPrompt := {
  user_call_id : string;
  user_environment : string;
  user_command : list string;
  user_reason : string;
  user_context : NetworkApprovalContext;
}.

Definition user_prompt (request : NetworkPolicyRequest) (c : Claim) : UserPrompt :=
  {| user_call_id := approval_id_for_key (claim_key c); user_environment := key_environment (claim_key c);
     user_command := prompt_command request (claim_key c);
     user_reason := request_host request +:+ " is not in the allowed_domains";
     user_context := network_approval_context request |}.

Inductive Prompt :=
| PromptHooks (p : HookPrompt)
| PromptGuardian (p : GuardianPrompt)
| PromptUser (p : UserPrompt).

Definition policy_denial_message (request : NetworkPolicyRequest) (key : HostApprovalKey) : string :=
  "Network access to " +:+ (dquote +:+ (request_target request key +:+ (dquote +:+ " was blocked by policy."))).

(** ** What the owner does with the answer *)

(** [ActPersist] amends the policy and says so in the conversation, or warns. *)
Inductive Effect :=
| RecordOutcome (registration_id : string) (outcome : NetworkApprovalOutcome)
| CancelToken (token : nat)
| ActPersist (turn_id : string) (amendment : PolicyAmendment) (context : NetworkApprovalContext)
| ForgetDenied (key : HostApprovalKey)
| InsertApproved (key : HostApprovalKey)
| ForgetApproved (key : HostApprovalKey)
| InsertDenied (key : HostApprovalKey)
| WriteDecision (approval : nat) (d : PendingApprovalDecision)
| NotifyWaiters (approval : nat)
| RemovePending (key : HostApprovalKey).

(** [pending.set_decision(d)] *)
Definition set_decision (r : nat) (d : PendingApprovalDecision) : list Effect := [WriteDecision r d; NotifyWaiters r].

Definition blame (owner : option ActiveNetworkApprovalCall) (outcome : NetworkApprovalOutcome) : list Effect :=
  match owner with Some call => [RecordOutcome (call_id call) outcome] | None => [] end.

(** What a step of a task is told: the active turn, the answers, the guardian's and the
    timeout's messages. *)
Record Input := {
  in_turn : option ApprovalTurn;
  in_hooks : option PermissionRequestDecision;
  in_review : ReviewDecision;
  in_rejection : string;
  in_timeout : string;
}.

(** The three early refusals. *)
Definition refuse_unasked (request : NetworkPolicyRequest) (c : Claim) (r : nat) : list Effect :=
  set_decision r DenyPending ++ [RemovePending (claim_key c)]
  ++ blame (claim_owner c) (DeniedByPolicy (policy_denial_message request (claim_key c))).

(** The match on the reviewer's decision: the effects, the decision and [cache_session_deny]. *)
Definition resolve_review (request : NetworkPolicyRequest) (c : Claim) (turn : ApprovalTurn) (i : Input) :
    list Effect * PendingApprovalDecision * bool :=
  let context := network_approval_context request in
  match in_review i with
  | Approved | ApprovedExecpolicyAmendment _ => ([], AllowOnce, false)
  | ApprovedForSession => ([], AllowForSession, false)
  | NetworkPolicyAmendment amendment =>
      let persist := ActPersist (turn_sub_id turn) amendment context in
      match amended_action amendment with
      | RuleAllow => ([persist], AllowForSession, false)
      | RuleDeny => (persist :: blame (claim_owner c) DeniedByUser, DenyPending, true)
      end
  | Denied | Abort' =>
      (blame (claim_owner c) (if turn_guardian turn then DeniedByPolicy (in_rejection i) else DeniedByUser), DenyPending, false)
  | TimedOut => (blame (claim_owner c) (DeniedByPolicy (in_timeout i)), DenyPending, false)
  end.

(** Everything after the answer, and what the request itself is told. *)
Definition resolve_owned (request : NetworkPolicyRequest) (c : Claim) (r : nat) (i : Input) :
    list Effect * NetworkDecision :=
  let key := claim_key c in
  match claim_turn c with
  | None => (refuse_unasked request c r, deny_not_allowed)
  | Some turn =>
      if negb (permission_profile_allows_network_approval_flow (turn_permissions turn))
      then (refuse_unasked request c r, deny_not_allowed)
      else if negb (allows_network_approval_flow (turn_approval_policy turn))
      then (refuse_unasked request c r, deny_not_allowed)
      else
        match in_hooks i with
        | Some HookAllow => (set_decision r AllowOnce ++ [RemovePending key], NetAllow)
        | Some (HookDeny message) =>
            (blame (claim_owner c) (DeniedByPolicy message) ++ set_decision r DenyPending ++ [RemovePending key],
             deny_not_allowed)
        | None =>
            let '(effects, resolved, cache_session_deny) := resolve_review request c turn i in
            (effects
             ++ match resolved with AllowForSession => [ForgetDenied key; InsertApproved key] | _ => [] end
             ++ (if cache_session_deny then [ForgetApproved key; InsertDenied key] else [])
             ++ set_decision r resolved ++ [RemovePending key],
             to_network_decision resolved)
        end
  end.

(** ** Tasks *)

Inductive Phase :=
| Attributing
| ReadingTurn (owner : option ActiveNetworkApprovalCall) (active_environment_id : option string)
| CheckingDenied (c : Claim)
| CheckingApproved (c : Claim)
| Claiming (c : Claim)
| Owning (c : Claim) (approval : nat)
| Arming (c : Claim) (approval : nat)
| Checking (c : Claim) (approval : nat) (seen : nat)
| Awaiting (c : Claim) (approval : nat) (seen : nat)
| Acting (effects : list Effect) (answer : NetworkDecision).

(** A request of the proxy, or the report of a blocked one: [record_blocked_request] with its
    message, and then the outcome it records; or one whose future was dropped before its end. *)
Inductive Task :=
| Deciding (request : NetworkPolicyRequest) (p : Phase)
| Reporting (message : string)
| Reported (effects : list Effect)
| Dropped (t : Task).

(** [handle_inline_policy_request] up to its first other lock *)
Definition attribute (s : NetworkApprovalService) (request : NetworkPolicyRequest) : Phase :=
  match request_environment request, resolve_active_call_attribution s with
  | Some environment_id, AttributedSingle call =>
      ReadingTurn (if str_eqb (call_environment call) environment_id then Some call else None) (Some environment_id)
  | Some environment_id, _ => ReadingTurn None (Some environment_id)
  | None, AttributedNone => ReadingTurn None None
  | None, AttributedSingle call => ReadingTurn (Some call) (Some (call_environment call))
  | None, Ambiguous => Acting [] deny_not_allowed
  end.

Definition read_turn (request : NetworkPolicyRequest) (owner : option ActiveNetworkApprovalCall)
    (active_environment_id : option string) (turn : option ApprovalTurn) : Phase :=
  let environment_id :=
    match active_environment_id with Some e => Some e | None => turn ≫= turn_primary_environment end in
  match environment_id with
  | None => Acting [] deny_not_allowed
  | Some environment_id =>
      CheckingDenied {| claim_owner := owner; claim_turn := turn;
        claim_key := key_from_request request (approval_protocol (request_protocol request)) environment_id |}
  end.

(** One effect, and those it leads to. *)
Definition run_effect (s : NetworkApprovalService) (e : Effect) : NetworkApprovalService * list Effect :=
  match e with
  | RecordOutcome registration_id outcome =>
      let '(s, call) := record_call_outcome s registration_id outcome in
      (s, match call with Some call => [CancelToken (call_token call)] | None => [] end)
  | CancelToken token => (with_cancelled s ({[token]} ∪ cancelled s), [])
  | ActPersist _ _ _ => (s, [])
  | ForgetDenied key => (with_hosts s (session_approved_hosts s) (session_denied_hosts s ∖ {[key]}), [])
  | InsertApproved key => (with_hosts s ({[key]} ∪ session_approved_hosts s) (session_denied_hosts s), [])
  | ForgetApproved key => (with_hosts s (session_approved_hosts s ∖ {[key]}) (session_denied_hosts s), [])
  | InsertDenied key => (with_hosts s (session_approved_hosts s) ({[key]} ∪ session_denied_hosts s), [])
  | WriteDecision r d =>
      (with_pending s (pending_host_approvals s)
         (alter (λ p, {| pending_decision := Some d; wakeups := wakeups p |}) r (approvals s)), [])
  | NotifyWaiters r =>
      (with_pending s (pending_host_approvals s)
         (alter (λ p, {| pending_decision := pending_decision p; wakeups := S (wakeups p) |}) r (approvals s)), [])
  | RemovePending key => (with_pending s (delete key (pending_host_approvals s)) (approvals s), [])
  end.

(** The next stretch of a request; [None] when it waits to be woken or has ended. *)
Definition advance (s : NetworkApprovalService) (request : NetworkPolicyRequest) (p : Phase) (i : Input) :
    option (NetworkApprovalService * Phase) :=
  match p with
  | Attributing => Some (s, attribute s request)
  | ReadingTurn owner env => Some (s, read_turn request owner env (in_turn i))
  | CheckingDenied c =>
      Some (s, if decide (claim_key c ∈ session_denied_hosts s) then Acting [] deny_not_allowed else CheckingApproved c)
  | CheckingApproved c =>
      Some (s, if decide (claim_key c ∈ session_approved_hosts s) then Acting [] NetAllow else Claiming c)
  | Claiming c =>
      let '(r, is_owner, s) := get_or_create_pending_approval s (claim_key c) in
      Some (s, if (is_owner : bool) then Owning c r else Arming c r)
  | Owning c r => let '(effects, answer) := resolve_owned request c r i in Some (s, Acting effects answer)
  | Arming c r => p ← approvals s !! r; Some (s, Checking c r (wakeups p))
  | Checking c r seen =>
      p ← approvals s !! r;
      Some (s, match pending_decision p with
               | Some d => Acting [] (to_network_decision d)
               | None => Awaiting c r seen
               end)
  | Awaiting c r seen =>
      p ← approvals s !! r; if decide (seen < wakeups p) then Some (s, Arming c r) else None
  | Acting [] _ => None
  | Acting (e :: effects) answer =>
      let '(s, more) := run_effect s e in Some (s, Acting (more ++ effects) answer)
  end.

Definition advance_task (s : NetworkApprovalService) (t : Task) (i : Input) : option (NetworkApprovalService * Task) :=
  match t with
  | Deciding request p => '(s, p) ← advance s request p i; Some (s, Deciding request p)
  | Reporting message =>
      Some (s, Reported (blame (resolve_single_active_call s) (DeniedByPolicy message)))
  | Reported [] => None
  | Reported (e :: effects) => let '(s, more) := run_effect s e in Some (s, Reported (more ++ effects))
  | Dropped _ => None
  end.

(** ** The system *)

Inductive Answer :=
| FromHooks (d : PermissionRequestDecision)
| FromReviewer (guardian : bool) (d : ReviewDecision).

(** A question that was answered, as the one who answered it was shown it. *)
Record Asked := {
  asked_key : HostApprovalKey;
  asked_owner : option string;
  asked_turn : ApprovalTurn;
  asked_prompt : Prompt;
  asked_answer : Answer;
}.

(** The question that resolving an owned approval puts, with its answer. *)
Definition asks (request : NetworkPolicyRequest) (c : Claim) (i : Input) : list Asked :=
  match claim_turn c with
  | Some turn =>
      if permission_profile_allows_network_approval_flow (turn_permissions turn)
         && allows_network_approval_flow (turn_approval_policy turn)
      then [{| asked_key := claim_key c; asked_owner := call_id <$> claim_owner c; asked_turn := turn;
               asked_prompt := match in_hooks i with
                               | Some _ => PromptHooks (hook_prompt request c)
                               | None => if turn_guardian turn then PromptGuardian (guardian_prompt request c)
                                         else PromptUser (user_prompt request c)
                               end;
               asked_answer := match in_hooks i with
                               | Some d => FromHooks d
                               | None => FromReviewer (turn_guardian turn) (in_review i)
                               end |}]
      else []
  | None => []
  end.

Definition asked_by (t : Task) (i : Input) : list Asked :=
  match t with Deciding request (Owning c _) => asks request c i | _ => [] end.

(** [history] are the answers so far, the latest first, [inherited] the hosts another
    session's service handed over, and [registered] the ids that calls were given. *)
Record System := {
  service : NetworkApprovalService;
  tasks : list Task;
  history : list Asked;
  inherited : gset HostApprovalKey;
  registered : gset string;
}.

Definition initial : System :=
  {| service := default_service; tasks := []; history := []; inherited := ∅; registered := ∅ |}.

(** The proxy asks, or reports a blocked request. *)
Definition arrival (t : Task) : Prop :=
  (∃ request, t = Deciding request Attributing) ∨ (∃ message, t = Reporting message).

Inductive Label :=
| Arrive
| Advance
| Drop
| Begin
| Finish (registration_id : string)
| Sync.

(** A registration id is a new UUID: no call was given it before. *)
Inductive step : Label → System → System → Prop :=
| StepArrive p t : arrival t →
    step Arrive p {| service := service p; tasks := tasks p ++ [t]; history := history p; inherited := inherited p;
                     registered := registered p |}
| StepTask p n t i s' t' : tasks p !! n = Some t → advance_task (service p) t i = Some (s', t') →
    step Advance p {| service := s'; tasks := <[n := t']> (tasks p); history := asked_by t i ++ history p;
                      inherited := inherited p; registered := registered p |}
| StepDrop p n t : tasks p !! n = Some t →
    step Drop p {| service := service p; tasks := <[n := Dropped t]> (tasks p); history := history p;
                   inherited := inherited p; registered := registered p |}
| StepBegin p turn_id managed spec uuid token : uuid ∉ registered p →
    step Begin p {| service := (begin_network_approval (service p) turn_id managed spec uuid token).2; tasks := tasks p;
                    history := history p; inherited := inherited p; registered := {[uuid]} ∪ registered p |}
| StepFinish p registration_id :
    step (Finish registration_id) p
      {| service := (finish_call (service p) registration_id).2; tasks := tasks p; history := history p;
         inherited := inherited p; registered := registered p |}
| StepSync p source :
    step Sync p {| service := sync_session_approved_hosts_to source (service p); tasks := tasks p;
                   history := history p; inherited := session_approved_hosts source ∪ inherited p;
                   registered := registered p |}.

Inductive run : list Label → System → System → Prop :=
| RunNil p : run [] p p
| RunCons l ls p q r : step l p q → run ls q r → run (l :: ls) p r.

Definition reachable (p : System) : Prop := ∃ ls, run ls initial p.

(** ** Blocked requests *)

Definition parse_network_policy_decision (value : string) : option NetProxy.NetworkPolicyDecision :=
  if str_eqb value "deny" then Some DecisionDeny
  else if str_eqb value "ask" then Some DecisionAsk
  else None.

Definition denied_network_policy_message (blocked : BlockedRequest) : option string :=
  match blocked_decision blocked ≫= parse_network_policy_decision with
  | Some DecisionDeny =>
      let host := trim (blocked_host blocked) in
      if str_is_empty host then Some "Network access was blocked by policy."
      else
        let reason := blocked_reason blocked in
        let detail :=
          if str_eqb reason "denied" then "domain is explicitly denied by policy and cannot be approved from this prompt"
          else if str_eqb reason "not_allowed" then "domain is not on the allowlist for the current sandbox mode"
          else if str_eqb reason "not_allowed_local" then "local/private network addresses are blocked by the sandbox policy"
          else if str_eqb reason "method_not_allowed" then "request method is blocked by the current network mode"
          else if str_eqb reason "proxy_disabled" then "network proxy is disabled"
          else "request is blocked by network policy" in
        Some ("Network access to " +:+ (dquote +:+ (host +:+ (dquote +:+ (" was blocked: " +:+ (detail +:+ "."))))))
  | _ => None
  end.

(** The task a blocked request starts. *)
Definition record_blocked_request (blocked : BlockedRequest) : option Task :=
  Reporting <$> denied_network_policy_message blocked.
