(* ===== verification/NetApprovalFacts.v ===== *)
(** * Facts about network approvals

    Of every interleaving of requests, reports and calls in the system of [NetApproval]:
    a request is let through only on an answer to the question about its own host, protocol,
    port and environment; each of these is asked about by one request at a time; and a request
    waits for ever only if the one it waits for was dropped. *)

From stdpp Require Import base gmap list strings.
From S2P Require Import Prelude Str BTree Json Utf8 Fragments AbsPath ExecPolicy ShellCommand Permissions ApprovalPolicy.
From S2P Require Import PolicyTransforms PermissionGrants Orchestrator IpAddr HostPolicy NetConfig MitmHook NetState NetProxy NetApproval.
From Stdlib Require Import Lia.

(** ** Runs *)

Lemma run_invariant (I : System → Prop) : (∀ l p q, step l p q → I p → I q) →
  ∀ ls p q, run ls p q → I p → I q.
Proof. intros HI ls p q Hrun. induction Hrun; eauto. Qed.

Lemma reachable_invariant (I : System → Prop) : I initial → (∀ l p q, step l p q → I p → I q) →
  ∀ p, NetApproval.reachable p → I p.
Proof. intros H0 HI p [ls Hrun]. by eapply run_invariant. Qed.

Lemma run_app ls ls' p q r : run ls p q → run ls' q r → run (ls ++ ls') p r.
Proof. induction 1; [done|]. intros ?. econstructor; eauto. Qed.

(** What all tasks together contribute, and how one task's step changes it. *)
Lemma mjoin_insert {A B} (f : A → list B) (l : list A) n t t' : l !! n = Some t →
  ∃ before after, mjoin (f <$> l) = before ++ f t ++ after ∧ mjoin (f <$> <[n := t']> l) = before ++ f t' ++ after.
Proof.
  intros Hn. exists (mjoin (f <$> take n l)), (mjoin (f <$> drop (S n) l)).
  rewrite insert_take_drop by (by eapply lookup_lt_Some).
  rewrite <-(take_drop_middle l n t Hn) at 1. by rewrite !fmap_app, !join_app.
Qed.

Lemma Forall_insert_task {A} (P Q : A → Prop) l n t' :
  Forall P l → (∀ t, P t → Q t) → Q t' → Forall Q (<[n := t']> l).
Proof. intros Hl HPQ Ht. apply Forall_insert; [|done]. eapply Forall_impl; eauto. Qed.

(** ** Requests that are let through *)

(** The key of a request, in the environment it names if it names one. *)
Definition key_for (request : NetworkPolicyRequest) (k : HostApprovalKey) : Prop :=
  key_host k = ascii_lowercase (request_host request) ∧
  key_protocol k = protocol_key_label (approval_protocol (request_protocol request)) ∧
  key_port k = request_port request ∧
  ∀ e, request_environment request = Some e → key_environment k = e.

Definition permits (a : Answer) : bool :=
  match a with FromHooks HookAllow => true | FromHooks (HookDeny _) => false | FromReviewer _ d => is_approval d end.

(** What the one who answers is shown of a key: the hooks a text with its protocol, host and
    port, the guardian these three, the user also the environment.  The host is shown as the
    request spells it. *)
Definition shows (p : Prompt) (a : Answer) (k : HostApprovalKey) : Prop :=
  ∃ host, ascii_lowercase host = key_host k ∧
    let target := format_network_target (key_protocol k) host (key_port k) in
    match p, a with
    | PromptHooks h, FromHooks _ => hook_description h = "network-access " +:+ target
    | PromptGuardian g, FromReviewer true _ =>
        guardian_target g = target ∧ guardian_host g = host ∧
        protocol_key_label (guardian_protocol g) = key_protocol k ∧ guardian_port g = key_port k
    | PromptUser u, FromReviewer false _ =>
        user_command u = ["network-access"; target] ∧ context_host (user_context u) = host ∧
        protocol_key_label (context_protocol (user_context u)) = key_protocol k ∧
        user_environment u = key_environment k
    | _, _ => False
    end.

(** A question is put only in a turn that lets it, and shows what its key is about. *)
Record asked_ok (a : Asked) : Prop := {
  asked_managed : permission_profile_allows_network_approval_flow (turn_permissions (asked_turn a)) = true;
  asked_policy : turn_approval_policy (asked_turn a) ≠ Never;
  asked_shows : shows (asked_prompt a) (asked_answer a) (asked_key a);
}.

Definition granted_by (h : list Asked) (inh : gset HostApprovalKey) (k : HostApprovalKey) : Prop :=
  k ∈ inh ∨ ∃ a, a ∈ h ∧ asked_key a = k ∧ permits (asked_answer a) = true.

(** [κ] is the key each approval was created for and [g] the keys that were granted. *)
Section safe.
Context (κ : gmap nat HostApprovalKey) (g : HostApprovalKey → Prop).

Definition effect_safe (e : Effect) : Prop :=
  match e with
  | InsertApproved k => g k
  | WriteDecision r d => d = DenyPending ∨ ∃ k, κ !! r = Some k ∧ g k
  | _ => True
  end.

Definition phase_safe (request : NetworkPolicyRequest) (p : Phase) : Prop :=
  match p with
  | Attributing => True
  | ReadingTurn _ env => ∀ e, request_environment request = Some e → env = Some e
  | CheckingDenied c | CheckingApproved c | Claiming c => key_for request (claim_key c)
  | Owning c r | Arming c r | Checking c r _ | Awaiting c r _ => key_for request (claim_key c) ∧ κ !! r = Some (claim_key c)
  | Acting effects answer => Forall effect_safe effects ∧ (answer = NetAllow → ∃ k, key_for request k ∧ g k)
  end.

Fixpoint task_safe (t : Task) : Prop :=
  match t with
  | Deciding request p => phase_safe request p
  | Reporting _ => True
  | Reported effects => Forall effect_safe effects
  | Dropped t => task_safe t
  end.

Record service_safe (s : NetworkApprovalService) : Prop := {
  keys_dom : dom κ = dom (approvals s);
  pending_keys k r : pending_host_approvals s !! k = Some r → κ !! r = Some k;
  approved_granted k : k ∈ session_approved_hosts s → g k;
  decided_granted r a d : approvals s !! r = Some a → pending_decision a = Some d →
    d = DenyPending ∨ ∃ k, κ !! r = Some k ∧ g k;
}.
End safe.

Record safe (p : System) : Prop := {
  safe_history : Forall asked_ok (history p);
  safe_parts : ∃ κ, service_safe κ (granted_by (history p) (inherited p)) (service p) ∧
    Forall (task_safe κ (granted_by (history p) (inherited p))) (tasks p);
}.

Lemma effect_safe_mono κ κ' g g' e : κ ⊆ κ' → (∀ k, g k → g' k) → effect_safe κ g e → effect_safe κ' g' e.
Proof.
  intros Hκ Hg. destruct e; simpl; try done; [by auto|]. intros [?|(k & ? & ?)]; [by left|right].
  exists k. split; [by eapply lookup_weaken|auto].
Qed.

Lemma task_safe_mono κ κ' g g' t : κ ⊆ κ' → (∀ k, g k → g' k) → task_safe κ g t → task_safe κ' g' t.
Proof.
  intros Hκ Hg. pose proof (λ e, effect_safe_mono κ κ' g g' e Hκ Hg) as He.
  assert (∀ l, Forall (effect_safe κ g) l → Forall (effect_safe κ' g') l) by (intros l Hl; by eapply Forall_impl).
  induction t as [request []|message|effects|t IH]; simpl; try done; try naive_solver eauto using lookup_weaken.
Qed.

Lemma granted_by_mono h h' inh inh' k : inh ⊆ inh' → granted_by h inh k → granted_by (h' ++ h) inh' k.
Proof. intros Hi [?|(a & ? & ?)]; [left; set_solver|right; exists a; set_solver]. Qed.

Lemma service_safe_mono κ g g' s : (∀ k, g k → g' k) → service_safe κ g s → service_safe κ g' s.
Proof. intros Hg [Hd Hp Ha Hdec]. split; [done..| |]; [by auto|]. intros r a d ? ?. destruct (Hdec r a d); naive_solver. Qed.

Lemma asks_ok request c i : key_for request (claim_key c) → Forall asked_ok (asks request c i).
Proof.
  intros (Hh & Hp & Hport & _). unfold asks. destruct (claim_turn c) as [turn|]; [|done].
  destruct (permission_profile_allows_network_approval_flow _) eqn:Hprofile; [|done].
  destruct (allows_network_approval_flow _) eqn:Hpolicy; [|done]. cbn [andb]. constructor; [|done].
  split; cbn [asked_turn asked_key asked_prompt asked_answer].
  - done.
  - by destruct (turn_approval_policy turn).
  - exists (request_host request). split; [done|].
    destruct (in_hooks i); [done|]. by destruct (turn_guardian turn).
Qed.

Lemma asked_by_ok κ g t i : task_safe κ g t → Forall asked_ok (asked_by t i).
Proof. destruct t as [request []| | |]; simpl; try done. intros [? _]. by apply asks_ok. Qed.

Lemma blame_safe κ g owner outcome : Forall (effect_safe κ g) (blame owner outcome).
Proof. destruct owner; simpl; by repeat constructor. Qed.

Lemma set_decision_safe κ g r d rest : (d = DenyPending ∨ ∃ k, κ !! r = Some k ∧ g k) →
  Forall (effect_safe κ g) rest → Forall (effect_safe κ g) (set_decision r d ++ rest).
Proof. intros ? ?. by constructor; [|constructor]. Qed.

#[local] Hint Resolve blame_safe set_decision_safe : core.
#[local] Hint Extern 3 (Forall _ (_ ++ _)) => apply Forall_app_2 : core.
#[local] Hint Extern 3 (Forall _ (_ :: _)) => constructor : core.
#[local] Hint Extern 1 (effect_safe _ _ _) => progress simpl : core.

(** The owner's effects grant nothing that the answer did not. *)
Lemma resolve_owned_safe κ (g : HostApprovalKey → Prop) request c r i :
  key_for request (claim_key c) → κ !! r = Some (claim_key c) →
  (∀ a, a ∈ asks request c i → permits (asked_answer a) = true → g (claim_key c)) →
  task_safe κ g (Deciding request (Acting (resolve_owned request c r i).1 (resolve_owned request c r i).2)).
Proof.
  intros Hkey Hr. unfold resolve_owned, asks, refuse_unasked.
  assert (∀ e : NetworkDecision, e = deny_not_allowed → e = NetAllow → ∃ k, key_for request k ∧ g k) as Hdeny by (by intros ? ->).
  destruct (claim_turn c) as [turn|]; [|intros _; simpl; split; [auto 8|by apply Hdeny]].
  destruct (permission_profile_allows_network_approval_flow _); [|intros _; simpl; split; [auto 8|by apply Hdeny]].
  destruct (allows_network_approval_flow _); [|intros _; simpl; split; [auto 8|by apply Hdeny]].
  cbn [negb andb]. intros Hg. specialize (Hg _ (list_elem_of_here _ _)). cbn [asked_answer asked_key] in Hg.
  destruct (in_hooks i) as [[|message]|].
  - assert (g (claim_key c)) by (by apply Hg). simpl. split; [repeat (constructor; simpl; eauto 8)|eauto].
  - simpl. split; [auto 8|by apply Hdeny].
  - unfold resolve_review. destruct (in_review i) as [| | |[host []]| | |]; simpl in Hg |- *;
      first [ assert (g (claim_key c)) by (by apply Hg); split; [repeat (constructor; simpl; eauto 8)|by eauto]
            | split; [auto 12|by apply Hdeny] ].
Qed.

Lemma store_safe κ g s pend f r : service_safe κ g s →
  (∀ k r, pend !! k = Some r → pending_host_approvals s !! k = Some r) →
  (∀ a d, pending_decision (f a) = Some d → pending_decision a = Some d ∨ d = DenyPending ∨ ∃ k, κ !! r = Some k ∧ g k) →
  service_safe κ g (with_pending s pend (alter f r (approvals s))).
Proof.
  intros [Hd Hp Ha Hdec] Hsub Hf. split; simpl; [by rewrite dom_alter_L|auto..|].
  intros r' a d Hr' Hd'. destruct (decide (r = r')) as [<-|].
  - rewrite lookup_alter_eq in Hr'. destruct (approvals s !! r) as [a'|] eqn:E; simplify_eq/=.
    destruct (Hf _ _ Hd'); [by eapply Hdec|done].
  - rewrite lookup_alter_ne in Hr' by done. by eapply Hdec.
Qed.

Lemma run_effect_safe κ g s e s' more : service_safe κ g s → effect_safe κ g e → run_effect s e = (s', more) →
  service_safe κ g s' ∧ Forall (effect_safe κ g) more.
Proof.
  intros Hs He. pose proof Hs as [Hd Hp Ha Hdec]. destruct e; simpl in He |- *.
  1: { unfold record_call_outcome. destruct (index_get _ _); [destruct (_ !! _) as [[]|]|];
       intros [= <- <-]; split; eauto; by split. }
  all: intros [= <- <-]; split; [|done]; try (by split; set_solver).
  - apply store_safe; [done..|]. simpl. naive_solver.
  - apply store_safe; [done..|]. naive_solver.
  - split; simpl; [done| |done..]. intros k r [_ ?]%lookup_delete_Some. by auto.
Qed.

Lemma attribute_safe κ g s request : phase_safe κ g request (attribute s request).
Proof.
  unfold attribute, resolve_active_call_attribution.
  destruct (request_environment request) eqn:E, (active_calls s) as [|[? ?] [|]]; simpl; naive_solver.
Qed.

Lemma read_turn_safe κ g request owner env turn :
  (∀ e, request_environment request = Some e → env = Some e) → phase_safe κ g request (read_turn request owner env turn).
Proof.
  intros He. unfold read_turn. destruct env as [e|].
  - unfold phase_safe, key_for; simpl. split_and!; [done..|]. intros e' He'. specialize (He _ He'). congruence.
  - destruct (turn ≫= _); [|by split]. unfold phase_safe, key_for; simpl. split_and!; [done..|].
    intros e' He'. by specialize (He _ He').
Qed.

Lemma claim_safe κ g s request c r is_owner s' : service_safe κ g s → key_for request (claim_key c) →
  get_or_create_pending_approval s (claim_key c) = (r, is_owner, s') →
  ∃ κ', κ ⊆ κ' ∧ service_safe κ' g s' ∧ κ' !! r = Some (claim_key c).
Proof.
  intros Hs Hc. pose proof Hs as [Hd Hp Ha Hdec]. unfold get_or_create_pending_approval.
  destruct (_ !! _) as [r'|] eqn:E; intros [= <- <- <-]; [by exists κ; eauto|].
  assert (κ !! fresh (dom (approvals s)) = None) as Hfresh.
  { apply not_elem_of_dom. rewrite Hd. apply is_fresh. }
  exists (<[fresh (dom (approvals s)) := claim_key c]> κ).
  split_and!; [by apply insert_subseteq| |by rewrite lookup_insert_eq]. split; simpl.
  - by rewrite !dom_insert_L, Hd.
  - intros k r. rewrite lookup_insert_Some. intros [[<- <-]|[_ Hk]]; [by rewrite lookup_insert_eq|].
    rewrite lookup_insert_ne; [by apply Hp|]. intros <-. apply Hp in Hk. congruence.
  - done.
  - intros r a d. rewrite lookup_insert_Some. intros [[<- <-]|[Hne Hr]]; [done|].
    rewrite lookup_insert_ne by done. by apply Hdec.
Qed.

Lemma owning_safe κ g request c r i effects answer :
  (∀ a, a ∈ asks request c i → permits (asked_answer a) = true → g (asked_key a)) →
  key_for request (claim_key c) → κ !! r = Some (claim_key c) →
  resolve_owned request c r i = (effects, answer) → phase_safe κ g request (Acting effects answer).
Proof.
  intros Hasked Hk Hr E. pose proof (resolve_owned_safe κ g request c r i Hk Hr) as Hres. rewrite E in Hres.
  apply Hres. intros a Hin Hperm. specialize (Hasked a Hin Hperm). unfold asks in Hin.
  destruct (claim_turn c); [|by apply not_elem_of_nil in Hin].
  destruct (_ && _); [|by apply not_elem_of_nil in Hin]. by apply list_elem_of_singleton in Hin as ->.
Qed.

Lemma effects_safe κ g s e effects s' more : service_safe κ g s → Forall (effect_safe κ g) (e :: effects) →
  run_effect s e = (s', more) → service_safe κ g s' ∧ Forall (effect_safe κ g) (more ++ effects).
Proof.
  intros Hs [He Hes]%Forall_cons E. destruct (run_effect_safe _ _ _ _ _ _ Hs He E). split; [done|]. by apply Forall_app_2.
Qed.

Lemma advance_phase_safe κ g s request p i s' p' : service_safe κ g s → phase_safe κ g request p →
  (∀ a, a ∈ asked_by (Deciding request p) i → permits (asked_answer a) = true → g (asked_key a)) →
  advance s request p i = Some (s', p') → ∃ κ', κ ⊆ κ' ∧ service_safe κ' g s' ∧ phase_safe κ' g request p'.
Proof.
  intros Hs Hp Hasked. pose proof Hs as [_ _ Ha Hdec].
  destruct p as [| |c|c|c|c r|c r|c r n|c r n|[|e effects] answer]; simpl in Hp, Hasked |- *.
  5: { destruct (get_or_create_pending_approval s (claim_key c)) as [[r is_owner] s1] eqn:E. intros [= <- <-].
       destruct (claim_safe _ _ _ _ _ _ _ _ Hs Hp E) as (κ' & ? & ? & ?). exists κ'. by destruct is_owner. }
  9: done.
  all: try (intros [= <- <-]; exists κ; split_and!; [done..|]).
  - apply attribute_safe.
  - by apply read_turn_safe.
  - by case_decide.
  - case_decide; [|done]. simpl. split; [done|eauto].
  - destruct (resolve_owned request c r i) as [effects answer] eqn:E. intros [= <- <-].
    exists κ. split_and!; [done..|]. destruct Hp. by eapply owning_safe.
  - destruct (approvals s !! r); simpl; [intros [= <- <-]|done]. by exists κ.
  - destruct (approvals s !! r) as [a|] eqn:E; simpl; [intros [= <- <-]|done]. exists κ. split_and!; [done..|].
    destruct (pending_decision a) as [d|] eqn:Edec; simpl; [|done]. split; [done|]. intros Hallow.
    destruct (Hdec _ _ _ E Edec) as [->|(k & Hk & ?)]; [done|]. exists k. split; [|done].
    destruct Hp as [? Hp]. congruence.
  - destruct (approvals s !! r) as [a|] eqn:E; simpl; [|done]. case_decide; [intros [= <- <-]|done]. by exists κ.
  - destruct (run_effect s e) as [s1 more] eqn:E. intros [= <- <-]. destruct Hp as [Hes Hans].
    destruct (effects_safe _ _ _ _ _ _ _ Hs Hes E). by exists κ.
Qed.

Lemma advance_safe κ g g' s t i s' t' : (∀ k, g k → g' k) →
  (∀ a, a ∈ asked_by t i → permits (asked_answer a) = true → g' (asked_key a)) →
  service_safe κ g s → task_safe κ g t → advance_task s t i = Some (s', t') →
  ∃ κ', κ ⊆ κ' ∧ service_safe κ' g' s' ∧ task_safe κ' g' t'.
Proof.
  intros Hg Hasked Hs%(service_safe_mono _ _ _ _ Hg) Ht%(task_safe_mono κ κ _ _ _ (reflexivity _) Hg).
  destruct t as [request p|message|[|e effects]|t]; simpl in Ht |- *; [|intros [= <- <-]|done| |done].
  - destruct (advance s request p i) as [[s1 p1]|] eqn:E; [intros [= <- <-]|done].
    by eapply advance_phase_safe.
  - exists κ. split_and!; [done..|]. apply blame_safe.
  - destruct (run_effect s e) as [s1 more] eqn:E. intros [= <- <-].
    destruct (effects_safe _ _ _ _ _ _ _ Hs Ht E). by exists κ.
Qed.

Lemma service_safe_calls κ g s calls outcomes : service_safe κ g s → service_safe κ g (with_calls s calls outcomes).
Proof. by intros []. Qed.

Lemma step_safe l p q : step l p q → safe p → safe q.
Proof.
  intros Hstep [Hh (κ & Hs & Hts)]. destruct Hstep as [p t Hnew|p n t i s' t' Hn Hadv|p n t Hn|p turn_id managed spec uuid token _|p id|p source].
  - split; simpl; [done|]. exists κ. split; [done|]. apply Forall_app_2; [done|]. constructor; [|done].
    by destruct Hnew as [[? ->]|[? ->]].
  - assert (task_safe κ (granted_by (history p) (inherited p)) t) as Ht by (by eapply Forall_lookup_1).
    split; simpl; [apply Forall_app_2; [by eapply asked_by_ok|done]|].
    assert (∀ k, granted_by (history p) (inherited p) k → granted_by (asked_by t i ++ history p) (inherited p) k) as Hg.
    { intros k. by apply granted_by_mono. }
    assert (∀ a, a ∈ asked_by t i → permits (asked_answer a) = true →
      granted_by (asked_by t i ++ history p) (inherited p) (asked_key a)) as Hasked.
    { intros a Ha Hperm. right. exists a. set_solver. }
    destruct (advance_safe _ _ _ _ _ _ _ _ Hg Hasked Hs Ht Hadv) as (κ' & ? & ? & ?).
    exists κ'. split; [done|]. eapply Forall_insert_task; [done| |done]. intros t0. by apply task_safe_mono.
  - split; simpl; [done|]. exists κ. split; [done|]. apply Forall_insert; [done|]. exact (Forall_lookup_1 _ _ _ _ Hts Hn).
  - split; simpl; [done|]. exists κ. split; [|done]. unfold begin_network_approval.
    destruct spec; [|done]. destruct (_ || _); [done|]. by apply service_safe_calls.
  - split; simpl; [done|]. exists κ. split; [|done]. by apply service_safe_calls.
  - split; simpl; [done|]. exists κ.
    assert (∀ k, granted_by (history p) (inherited p) k → granted_by (history p) (session_approved_hosts source ∪ inherited p) k) as Hg.
    { intros k. apply (granted_by_mono _ []). set_solver. }
    split; [|eapply Forall_impl; [done|]; intros t; by apply task_safe_mono].
    apply (service_safe_mono _ _ _ _ Hg) in Hs as [Hd Hp Ha Hdec]. split; simpl; [done..| |done]. intros k ?. left. set_solver.
Qed.

Lemma safe_initial : safe initial.
Proof. split; simpl; [done|]. exists ∅. split; [|done]. by split. Qed.

Lemma reachable_safe p : NetApproval.reachable p → safe p.
Proof. apply reachable_invariant; [apply safe_initial|apply step_safe]. Qed.

(** Claim C33. However requests interleave, and whichever are dropped on their way, one that is
    answered "allow" has an approval for its own host (in lower case), protocol and port, in
    the environment it names: either another session handed it over, or it was given in a
    turn whose profile is managed and whose policy is not "never", by the hooks, whose prompt
    names this protocol, host and port; by the guardian, who is shown these three; or by the
    user, who is also shown the environment. *)
Theorem let_through_justified p n request effects :
  NetApproval.reachable p → tasks p !! n = Some (Deciding request (Acting effects NetAllow)) →
  ∃ k, key_for request k ∧
    (k ∈ inherited p ∨ ∃ a, a ∈ history p ∧ asked_key a = k ∧ permits (asked_answer a) = true ∧ asked_ok a).
Proof.
  intros [Hh (κ & _ & Hts)]%reachable_safe Hn. pose proof (Forall_lookup_1 _ _ _ _ Hts Hn) as [_ Hk].
  destruct (Hk eq_refl) as (k & Hfor & [?|(a & Ha & ? & ?)]); exists k; split; [done|by left|done|right].
  exists a. split_and!; [done..|]. by eapply Forall_forall in Hh.
Qed.

(** ** One question per key, and no request left waiting *)

Definition removals (effects : list Effect) : list HostApprovalKey :=
  omap (λ e, match e with RemovePending k => Some k | _ => None end) effects.

Definition notified (effects : list Effect) : list nat :=
  omap (λ e, match e with NotifyWaiters r => Some r | _ => None end) effects.

(** The keys a task will release, and the approvals whose waiters it will wake; or would, had
    it not been dropped. *)
Fixpoint owned (t : Task) : list HostApprovalKey :=
  match t with
  | Deciding _ (Owning c _) => [claim_key c]
  | Deciding _ (Acting effects _) | Reported effects => removals effects
  | Dropped t => owned t
  | _ => []
  end.

Fixpoint notifying (t : Task) : list nat :=
  match t with
  | Deciding _ (Owning _ r) => [r]
  | Deciding _ (Acting effects _) | Reported effects => notified effects
  | Dropped t => notifying t
  | _ => []
  end.

Definition decided (s : NetworkApprovalService) (r : nat) : Prop :=
  ∃ a d, approvals s !! r = Some a ∧ pending_decision a = Some d.

(** Waiters are woken only after the decision was written. *)
Fixpoint written_first (known : nat → Prop) (effects : list Effect) : Prop :=
  match effects with
  | [] => True
  | WriteDecision r _ :: effects => written_first (λ r', r' = r ∨ known r') effects
  | NotifyWaiters r :: effects => known r ∧ written_first known effects
  | _ :: effects => written_first known effects
  end.

Fixpoint task_live (s : NetworkApprovalService) (t : Task) : Prop :=
  match t with
  | Dropped t => task_live s t
  | Deciding _ (Owning _ r) | Deciding _ (Arming _ r) => is_Some (approvals s !! r)
  | Deciding _ (Checking _ r n) => ∃ a, approvals s !! r = Some a ∧ n ≤ wakeups a
  | Deciding _ (Awaiting _ r n) => is_Some (approvals s !! r) ∧ n = 0
  | Deciding _ (Acting effects _) | Reported effects =>
      written_first (decided s) effects ∧ Forall (λ e, match e with WriteDecision r _ => is_Some (approvals s !! r) | _ => True end) effects
  | _ => True
  end.

Record live (p : System) : Prop := {
  owned_pending : mjoin (owned <$> tasks p) ≡ₚ (map_to_list (pending_host_approvals (service p))).*1;
  pending_stored k r : pending_host_approvals (service p) !! k = Some r → is_Some (approvals (service p) !! r);
  unwoken_notified r a : approvals (service p) !! r = Some a → wakeups a = 0 → r ∈ mjoin (notifying <$> tasks p);
  woken_decided r a : approvals (service p) !! r = Some a → wakeups a ≠ 0 → is_Some (pending_decision a);
  live_tasks : Forall (task_live (service p)) (tasks p);
}.

(** Approvals are never dropped, taken back or put to sleep. *)
Definition grows (s s' : NetworkApprovalService) : Prop :=
  ∀ r a, approvals s !! r = Some a → ∃ a', approvals s' !! r = Some a' ∧ wakeups a ≤ wakeups a' ∧
    (is_Some (pending_decision a) → is_Some (pending_decision a')).

Lemma grows_same s s' : approvals s' = approvals s → grows s s'.
Proof. intros Ha r a ?. exists a. rewrite Ha. by split_and!. Qed.

Lemma grows_stored s s' r : grows s s' → is_Some (approvals s !! r) → is_Some (approvals s' !! r).
Proof. intros Hg [a (a' & ? & _)%Hg]. by exists a'. Qed.

Lemma grows_decided s s' r : grows s s' → decided s r → decided s' r.
Proof.
  intros Hg (a & d & (a' & ? & _ & Hd)%Hg & Ed). destruct Hd as [d' ?]; [by rewrite Ed|]. by exists a', d'.
Qed.

Lemma written_first_mono (P Q : nat → Prop) effects : (∀ r, P r → Q r) → written_first P effects → written_first Q effects.
Proof.
  revert P Q. induction effects as [|e effects IH]; intros P Q HPQ; [done|].
  destruct e; simpl; try (by apply IH); [apply IH; naive_solver|]. intros [? ?]. split; [by auto|by eapply IH].
Qed.

Lemma task_live_mono s s' t : grows s s' → task_live s t → task_live s' t.
Proof.
  intros Hg. pose proof (λ r, grows_stored s s' r Hg) as Hst. pose proof (λ r, grows_decided s s' r Hg) as Hd.
  assert (∀ l, Forall (λ e, match e with WriteDecision r _ => is_Some (approvals s !! r) | _ => True end) l →
    Forall (λ e, match e with WriteDecision r _ => is_Some (approvals s' !! r) | _ => True end) l).
  { intros l Hl. eapply Forall_impl; [done|]. intros []; auto. }
  induction t as [request []|message|effects|t IH]; simpl; try done; try naive_solver eauto using written_first_mono.
  intros (a & (a' & ? & ? & _)%Hg & ?). exists a'. split; [done|lia].
Qed.

(** How a step of a task changes what is pending. *)
Inductive shift (s s' : NetworkApprovalService) (t t' : Task) : Prop :=
| ShiftNone : owned t' = owned t → pending_host_approvals s' = pending_host_approvals s → shift s s' t t'
| ShiftCreate k r : owned t = [] → owned t' = [k] → pending_host_approvals s !! k = None → is_Some (approvals s' !! r) →
    pending_host_approvals s' = <[k := r]> (pending_host_approvals s) → shift s s' t t'
| ShiftRemove k : owned t = k :: owned t' → pending_host_approvals s' = delete k (pending_host_approvals s) → shift s s' t t'.

Record live_step (s s' : NetworkApprovalService) (t t' : Task) : Prop := {
  step_grows : grows s s';
  step_shift : shift s s' t t';
  step_task : task_live s' t';
  step_unwoken r a : approvals s' !! r = Some a → wakeups a = 0 →
    r ∈ notifying t' ∨ (r ∉ notifying t ∧ ∃ a, approvals s !! r = Some a ∧ wakeups a = 0);
  step_woken : (∀ r a, approvals s !! r = Some a → wakeups a ≠ 0 → is_Some (pending_decision a)) →
    ∀ r a, approvals s' !! r = Some a → wakeups a ≠ 0 → is_Some (pending_decision a);
}.

(** Steps that leave the approvals alone. *)
Lemma live_step_same s s' t t' : approvals s' = approvals s → pending_host_approvals s' = pending_host_approvals s →
  owned t' = owned t → notifying t' = notifying t → task_live s t' → live_step s s' t t'.
Proof.
  intros Ha Hp Ho Hn Ht. pose proof (grows_same _ _ Ha) as Hg.
  split; [done|by apply ShiftNone|by eapply task_live_mono| |by rewrite Ha].
  intros r a. rewrite Ha, Hn. intros Hr H0. destruct (decide (r ∈ notifying t)); [by left|right]. by eauto.
Qed.

Lemma owned_resolved request c r i : removals (resolve_owned request c r i).1 = [claim_key c].
Proof.
  unfold resolve_owned, refuse_unasked, resolve_review. destruct (claim_owner c) as [call|];
    (destruct (claim_turn c) as [turn|]; [|done]); repeat (case_match; simplify_eq/=; try done).
Qed.

Lemma notified_resolved request c r i : notified (resolve_owned request c r i).1 = [r].
Proof.
  unfold resolve_owned, refuse_unasked, resolve_review. destruct (claim_owner c) as [call|];
    (destruct (claim_turn c) as [turn|]; [|done]); repeat (case_match; simplify_eq/=; try done).
Qed.

Lemma written_resolved s request c r i : is_Some (approvals s !! r) →
  task_live s (Deciding request (Acting (resolve_owned request c r i).1 (resolve_owned request c r i).2)).
Proof.
  intros Hr. unfold resolve_owned, refuse_unasked, resolve_review. destruct (claim_owner c) as [call|];
    (destruct (claim_turn c) as [turn|]; [|simpl; by repeat constructor]);
    repeat (case_match; simplify_eq/=); (split; [tauto|by repeat constructor]).
Qed.

Definition effects_live (s : NetworkApprovalService) (effects : list Effect) : Prop :=
  task_live s (Reported effects).

(** A task [mk] of effects, whatever else it holds. *)
Section effects.
Context (mk : list Effect → Task).
Context (mk_owned : ∀ es, owned (mk es) = removals es) (mk_notifying : ∀ es, notifying (mk es) = notified es).
Context (mk_live : ∀ s es, task_live s (mk es) = effects_live s es).

Lemma run_write_live s r d effects : effects_live s (WriteDecision r d :: effects) →
  live_step s (run_effect s (WriteDecision r d)).1 (mk (WriteDecision r d :: effects)) (mk effects).
Proof.
  intros [Hw [Hr Hf]%Forall_cons]. set (s' := (run_effect s (WriteDecision r d)).1).
  assert (∀ r' a', approvals s' !! r' = Some a' → ∃ a, approvals s !! r' = Some a ∧ wakeups a' = wakeups a ∧
    (is_Some (pending_decision a) → is_Some (pending_decision a')) ∧ (r' = r → pending_decision a' = Some d)) as Hback.
  { intros r' a'. unfold s'. simpl. rewrite lookup_alter. case_decide; [subst r'|by naive_solver].
    destruct (approvals s !! r) as [a|]; [|done]. intros [= <-]. eexists. split_and!; eauto. }
  assert (grows s s') as Hg.
  { intros r' a Ha. unfold s'. simpl. rewrite lookup_alter. case_decide; [subst r'|by eauto].
    rewrite Ha. eexists. split_and!; [done..|]. by eexists. }
  assert (decided s' r) as Hdec.
  { destruct (grows_stored _ _ _ Hg Hr) as [a' Ha']. destruct (Hback _ _ Ha') as (a & _ & _ & _ & ?). by exists a', d; auto. }
  split; [done|by apply ShiftNone; rewrite ?mk_owned| | |].
  - rewrite mk_live. split.
    + eapply written_first_mono; [|done]. intros r' [->|?]; [done|by eapply grows_decided].
    + eapply Forall_impl; [done|]. intros []; eauto using grows_stored.
  - intros r' a' Ha' H0. rewrite !mk_notifying. destruct (Hback _ _ Ha') as (a & ? & ? & _).
    destruct (decide (r' ∈ notified effects)); [by left|right]. split; [done|]. exists a. split; [done|lia].
  - intros Hwoken r' a' Ha' Hne. destruct (Hback _ _ Ha') as (a & ? & Heq & Hkeep & _). apply Hkeep.
    eapply Hwoken; [done|]. by rewrite <-Heq.
Qed.

Lemma run_notify_live s r effects : effects_live s (NotifyWaiters r :: effects) →
  live_step s (run_effect s (NotifyWaiters r)).1 (mk (NotifyWaiters r :: effects)) (mk effects).
Proof.
  intros [[Hr Hw] [_ Hf]%Forall_cons]. set (s' := (run_effect s (NotifyWaiters r)).1).
  assert (∀ r' a', approvals s' !! r' = Some a' → ∃ a, approvals s !! r' = Some a ∧
    pending_decision a' = pending_decision a ∧ wakeups a' = (if decide (r' = r) then S (wakeups a) else wakeups a)) as Hback.
  { intros r' a'. unfold s'. simpl. rewrite lookup_alter. case_decide; [subst r'|].
    - destruct (approvals s !! r) as [a|]; [|done]. intros [= <-]. exists a. split_and!; [done..|]. by rewrite decide_True.
    - intros ?. exists a'. split_and!; [done..|]. by rewrite decide_False by congruence. }
  assert (grows s s') as Hg.
  { intros r' a Ha. unfold s'. simpl. rewrite lookup_alter. case_decide; [subst r'|by eauto].
    rewrite Ha. eexists. split_and!; [done| |done]. simpl. lia. }
  split; [done|by apply ShiftNone; rewrite ?mk_owned| | |].
  - rewrite mk_live. apply (task_live_mono s s' (Reported effects) Hg). by split.
  - intros r' a' Ha' H0. rewrite !mk_notifying. destruct (Hback _ _ Ha') as (a & ? & _ & Hwk). case_decide; [lia|].
    destruct (decide (r' ∈ notified effects)); [by left|right]. split; [|exists a; split; [done|lia]].
    by intros [|]%elem_of_cons.
  - intros Hwoken r' a' Ha' Hne. destruct (Hback _ _ Ha') as (a & Ha & -> & Hwk). case_decide; [subst r'|].
    + destruct Hr as (a0 & d & ? & ?). simplify_eq. by exists d.
    + eapply Hwoken; [done|]. lia.
Qed.

Lemma run_effect_live s e effects s' more : effects_live s (e :: effects) → run_effect s e = (s', more) →
  live_step s s' (mk (e :: effects)) (mk (more ++ effects)).
Proof.
  intros Hl E. assert (s' = (run_effect s e).1) as Hs' by (by rewrite E). assert (more = (run_effect s e).2) as Hm by (by rewrite E).
  destruct e as [id outcome|token| | | | | |r d|r|key]; simpl in Hm.
  8: { subst. by apply run_write_live. }
  8: { subst. by apply run_notify_live. }
  8: { subst. assert (grows s (run_effect s (RemovePending key)).1) by (by apply grows_same).
       assert (effects_live s effects) as Hl' by (destruct Hl as [? [_ ?]%Forall_cons]; by split).
       split; [done| |rewrite mk_live; by apply (task_live_mono s _ (Reported _))| |done].
       - apply ShiftRemove with key; [by rewrite !mk_owned|done].
       - intros r a ? ?. rewrite !mk_notifying. destruct (decide (r ∈ notified effects)); [by left|right]. by eauto. }
  1: { simpl in Hs'. unfold record_call_outcome in *.
       destruct Hl as [? [_ ?]%Forall_cons].
       destruct (index_get _ _); [destruct (_ !! _) as [[]|]|]; subst; simpl;
         apply live_step_same; rewrite ?mk_owned, ?mk_notifying, ?mk_live; by try constructor; auto. }
  all: destruct Hl as [? [_ ?]%Forall_cons]; subst;
    apply live_step_same; rewrite ?mk_owned, ?mk_notifying, ?mk_live; by try split.
Qed.
End effects.

Lemma claim_live s request c r is_owner s' :
  (∀ k r, pending_host_approvals s !! k = Some r → is_Some (approvals s !! r)) →
  get_or_create_pending_approval s (claim_key c) = (r, is_owner, s') →
  live_step s s' (Deciding request (Claiming c)) (Deciding request (if is_owner : bool then Owning c r else Arming c r)).
Proof.
  intros Hstored. unfold get_or_create_pending_approval. destruct (_ !! _) as [r'|] eqn:E; intros [= <- <- <-].
  { apply live_step_same; [done..|]. by eapply Hstored. }
  set (r := fresh (dom (approvals s))).
  assert (approvals s !! r = None) as Hr by apply not_elem_of_dom, is_fresh.
  split; simpl.
  - intros r' a Ha. exists a. simpl. rewrite lookup_insert_ne by congruence. by split_and!.
  - apply ShiftCreate with (claim_key c) r; simpl; [done..|by rewrite lookup_insert_eq|done].
  - by rewrite lookup_insert_eq.
  - intros r' a. rewrite lookup_insert_Some. intros [[<- <-]|[_ ?]]; [by left; constructor|]. intros ?. right.
    split; [apply not_elem_of_nil|by eauto].
  - intros Hwoken r' a. rewrite lookup_insert_Some. intros [[<- <-]|[_ ?]]; [done|]. by eapply Hwoken.
Qed.

Lemma advance_live s t i s' t' :
  (∀ k r, pending_host_approvals s !! k = Some r → is_Some (approvals s !! r)) →
  (∀ r a, approvals s !! r = Some a → wakeups a ≠ 0 → is_Some (pending_decision a)) →
  task_live s t → advance_task s t i = Some (s', t') → live_step s s' t t'.
Proof.
  intros Hstored Hwoken Ht. destruct t as [request p|message|[|e effects]|t]; cbn [advance_task].
  5: done.
  2: { intros [= <- <-]. destruct (resolve_single_active_call s); by apply live_step_same; try repeat constructor. }
  2: done.
  2: { destruct (run_effect s e) as [s1 more] eqn:E. intros [= <- <-]. by eapply (run_effect_live Reported). }
  destruct (advance s request p i) as [[s1 p']|] eqn:E; [intros [= <- <-]|done]. revert E.
  destruct p as [| |c|c|c|c r|c r|c r n|c r n|[|e effects] answer]; cbn [advance].
  - intros [= <- <-]. unfold attribute, resolve_active_call_attribution.
    destruct (request_environment request), (active_calls s) as [|[? ?] [|]]; by apply live_step_same; try repeat constructor.
  - intros [= <- <-]. unfold read_turn. case_match; by apply live_step_same; try repeat constructor.
  - intros [= <- <-]. case_decide; by apply live_step_same; try repeat constructor.
  - intros [= <- <-]. case_decide; by apply live_step_same; try repeat constructor.
  - destruct (get_or_create_pending_approval s (claim_key c)) as [[r is_owner] s2] eqn:E. intros [= <- <-]. by apply claim_live.
  - pose proof (owned_resolved request c r i) as Ho. pose proof (notified_resolved request c r i) as Hn.
    pose proof (written_resolved s request c r i Ht) as Hw.
    destruct (resolve_owned request c r i) as [effects answer]. intros [= <- <-]. by apply live_step_same.
  - destruct Ht as [a Ha]. rewrite Ha. simpl. intros [= <- <-]. apply live_step_same; [done..|]. by exists a.
  - destruct Ht as (a & Ha & Hn). rewrite Ha. simpl. intros [= <- <-].
    destruct (pending_decision a) eqn:Hd; [by apply live_step_same; try repeat constructor|].
    apply live_step_same; [done..|]. split; [done|].
    destruct (decide (wakeups a = 0)); [lia|]. destruct (Hwoken _ _ Ha) as [? ?]; [done|]. congruence.
  - destruct Ht as [[a Ha] ->]. rewrite Ha. simpl. case_decide; [|done]. intros [= <- <-]. apply live_step_same; [done..|]. by exists a.
  - done.
  - destruct (run_effect s e) as [s2 more] eqn:E. intros [= <- <-].
    by eapply (run_effect_live (λ es, Deciding request (Acting es answer))).
Qed.

(** A step of one task, seen by all. *)
Lemma owned_step (ts : list Task) n t t' s s' : ts !! n = Some t →
  mjoin (owned <$> ts) ≡ₚ (map_to_list (pending_host_approvals s)).*1 → shift s s' t t' →
  mjoin (owned <$> <[n := t']> ts) ≡ₚ (map_to_list (pending_host_approvals s')).*1.
Proof.
  intros Hn Hp Hshift. destruct (mjoin_insert owned ts n t t' Hn) as (xs & ys & E & ->). rewrite E in Hp.
  destruct Hshift as [-> ->|k r Ho -> Hk _ ->|k Ho ->]; [done| |].
  - rewrite map_to_list_insert by done. rewrite Ho in Hp. simpl in *. rewrite <-Hp. apply Permutation_sym, Permutation_middle.
  - rewrite Ho in Hp. assert (k ∈ (map_to_list (pending_host_approvals s)).*1) as Hin by (rewrite <-Hp; set_solver).
    apply list_elem_of_fmap in Hin as ([k' r] & -> & Hin%elem_of_map_to_list). simpl in *.
    rewrite <-(map_to_list_delete _ _ _ Hin) in Hp. simpl in Hp. apply (Permutation_cons_inv (a := k')).
    rewrite <-Hp. apply Permutation_middle.
Qed.

Lemma step_live l p q : step l p q → live p → live q.
Proof.
  intros Hstep [Hown Hst Hun Hwk Hts].
  destruct Hstep as [p t Hnew|p n t i s' t' Hn Hadv|p n t Hn|p turn_id managed spec uuid token _|p id|p source].
  - assert (owned t = [] ∧ notifying t = [] ∧ task_live (service p) t) as (Ho & Hn & Ht) by (by destruct Hnew as [[? ->]|[? ->]]).
    split; simpl; rewrite ?fmap_app, ?join_app; simpl; rewrite ?Ho, ?Hn, ?app_nil_r; try done.
    by apply Forall_app_2; [|constructor].
  - pose proof (Forall_lookup_1 _ _ _ _ Hts Hn) as Ht.
    destruct (advance_live _ _ _ _ _ Hst Hwk Ht Hadv) as [Hg Hshift Ht' Hunw Hwk'].
    split; simpl; [by eapply owned_step| | |by apply Hwk'|].
    + intros k r. destruct Hshift as [_ ->|k' r' _ _ _ ? ->|k' _ ->].
      * intros ?%Hst. by eapply grows_stored.
      * rewrite lookup_insert_Some. intros [[_ <-]|[_ ?%Hst]]; [done|by eapply grows_stored].
      * intros [_ ?%Hst]%lookup_delete_Some. by eapply grows_stored.
    + intros r a Ha H0. destruct (mjoin_insert notifying _ n t t' Hn) as (xs & ys & E & ->).
      destruct (Hunw _ _ Ha H0) as [?|(Hnot & a0 & Ha0 & H0')]; [set_solver|].
      specialize (Hun _ _ Ha0 H0'). rewrite E in Hun. set_solver.
    + eapply Forall_insert_task; [done| |done]. intros t0. by apply task_live_mono.
  - destruct (mjoin_insert owned _ n t (Dropped t) Hn) as (xs & ys & E & E').
    destruct (mjoin_insert notifying _ n t (Dropped t) Hn) as (xs' & ys' & F & F').
    split; simpl; rewrite ?E', ?F'; simpl; rewrite <-?E, <-?F; try done.
    apply Forall_insert; [done|]. exact (Forall_lookup_1 _ _ _ _ Hts Hn).
  - destruct (begin_network_approval (service p) turn_id managed spec uuid token) as [r s'] eqn:E.
    assert (pending_host_approvals s' = pending_host_approvals (service p) ∧ approvals s' = approvals (service p)) as [Hp Ha].
    { unfold begin_network_approval in E. destruct spec; [destruct (_ || _)|]; by simplify_eq/=. }
    split; simpl; rewrite ?Hp, ?Ha; try done. eapply Forall_impl; [done|]. intros t. by apply task_live_mono, grows_same.
  - split; simpl; try done. eapply Forall_impl; [done|]. intros t. by apply task_live_mono, grows_same.
  - split; simpl; try done. eapply Forall_impl; [done|]. intros t. by apply task_live_mono, grows_same.
Qed.

Lemma reachable_live p : NetApproval.reachable p → live p.
Proof. apply reachable_invariant; [|apply step_live]. by split; simpl; try set_solver. Qed.

Lemma mjoin_unique {A B} (f : A → list B) (l : list A) m n t u x : NoDup (mjoin (f <$> l)) →
  l !! m = Some t → l !! n = Some u → x ∈ f t → x ∈ f u → m = n.
Proof.
  revert m n. induction l as [|v l IH]; intros m n Hnd Hm Hn Hx Hy; [done|]. simpl in Hnd.
  apply NoDup_app in Hnd as (_ & Hdis & Hnd).
  assert (∀ i w, l !! i = Some w → x ∈ f w → x ∈ mjoin (f <$> l)) as Hin.
  { intros i w Hi Hw. apply list_elem_of_join. exists (f w). split; [done|].
    apply list_elem_of_fmap. exists w. split; [done|]. by eapply list_elem_of_lookup_2. }
  destruct m as [|m], n as [|n]; simplify_eq/=; [done|exfalso; eapply Hdis; by eauto..|]. f_equal. by eapply IH.
Qed.

(** At any moment at most one request asks about a host, protocol and port in an
    environment: two requests that own an approval for the same key are the same request, and
    every pending approval has such a request, or one that has its answer and is about to
    release it, or one that was dropped as it did either. *)
Theorem one_question_per_key p : NetApproval.reachable p →
  (∀ m n request request' c c' r r',
     tasks p !! m = Some (Deciding request (Owning c r)) → tasks p !! n = Some (Deciding request' (Owning c' r')) →
     claim_key c = claim_key c' → m = n) ∧
  (∀ k, is_Some (pending_host_approvals (service p) !! k) ↔ ∃ n t, tasks p !! n = Some t ∧ k ∈ owned t).
Proof.
  intros [Hown _ _ _ _]%reachable_live.
  assert (NoDup (mjoin (owned <$> tasks p))) as Hnd by (rewrite Hown; apply NoDup_fst_map_to_list).
  split.
  - intros m n request request' c c' r r' Hm Hn Hk. eapply (mjoin_unique owned _ m n _ _ (claim_key c)); [done..| |].
    + apply list_elem_of_singleton; done.
    + by apply list_elem_of_singleton.
  - intros k. transitivity (k ∈ mjoin (owned <$> tasks p)).
    + rewrite Hown, list_elem_of_fmap. split.
      * intros [r Hr]. exists (k, r). split; [done|]. by apply elem_of_map_to_list.
      * intros ([k' r] & -> & Hr%elem_of_map_to_list). by exists r.
    + rewrite list_elem_of_join. split.
      * intros (ks & Hk & (t & -> & [n Ht]%list_elem_of_lookup)%list_elem_of_fmap). by exists n, t.
      * intros (n & t & Ht & Hk). exists (owned t). split; [done|]. apply list_elem_of_fmap. exists t.
        split; [done|]. by eapply list_elem_of_lookup_2.
Qed.

(** ** Every request is answered *)

Definition effect_work (e : Effect) : nat := match e with RecordOutcome _ _ => 2 | _ => 1 end.

Definition decidedb (s : NetworkApprovalService) (r : nat) : bool :=
  match approvals s !! r with Some {| pending_decision := Some _ |} => true | _ => false end.

(** A bound on the steps a task still takes.  A waiter may be woken once before it sees the decision. *)
Definition task_work (s : NetworkApprovalService) (t : Task) : nat :=
  match t with
  | Dropped _ => 0
  | Deciding _ Attributing => 14
  | Deciding _ (ReadingTurn _ _) => 13
  | Deciding _ (CheckingDenied _) => 12
  | Deciding _ (CheckingApproved _) => 11
  | Deciding _ (Claiming _) => 10
  | Deciding _ (Owning _ _) => 9
  | Deciding _ (Arming _ r) => if decidedb s r then 3 else 6
  | Deciding _ (Checking _ r _) => if decidedb s r then 2 else 5
  | Deciding _ (Awaiting _ _ _) => 4
  | Reporting _ => 3
  | Deciding _ (Acting effects _) | Reported effects => sum_list_with effect_work effects
  end.

Definition work (p : System) : nat := sum_list_with (task_work (service p)) (tasks p).

Fixpoint ended (t : Task) : bool :=
  match t with Deciding _ (Acting [] _) | Reported [] => true | Dropped t => ended t | _ => false end.

Definition dropped (t : Task) : bool := match t with Dropped _ => true | _ => false end.

Lemma sum_le {A} (f g : A → nat) (l : list A) : (∀ x, f x ≤ g x) → sum_list_with f l ≤ sum_list_with g l.
Proof. intros Hfg. induction l as [|u l IH]; simpl; [lia|]. specialize (Hfg u). lia. Qed.

Lemma sum_insert_lt {A} (f g : A → nat) (l : list A) n t t' : l !! n = Some t → (∀ x, f x ≤ g x) → f t' < g t →
  sum_list_with f (<[n := t']> l) < sum_list_with g l.
Proof.
  revert n. induction l as [|u l IH]; intros [|n] Hn Hfg Hlt; simplify_eq/=.
  - pose proof (sum_le f g l Hfg). lia.
  - specialize (IH n Hn Hfg Hlt). specialize (Hfg u). lia.
Qed.

Lemma sum_insert_le {A} (f : A → nat) (l : list A) n t t' : l !! n = Some t → f t' ≤ f t →
  sum_list_with f (<[n := t']> l) ≤ sum_list_with f l.
Proof.
  revert n. induction l as [|u l IH]; intros [|n] Hn Hle; simplify_eq/=; [lia|]. specialize (IH n Hn Hle). lia.
Qed.

Lemma decidedb_grows s s' r : grows s s' → decidedb s r = true → decidedb s' r = true.
Proof.
  unfold decidedb. intros Hg. destruct (approvals s !! r) as [[[d|] w]|] eqn:E; try done. intros _.
  destruct (Hg _ _ E) as ([d' w'] & -> & _ & Hd). destruct Hd as [? Hd]; [by eexists|]. simpl in Hd. by subst.
Qed.

Lemma task_work_mono s s' t : grows s s' → task_work s' t ≤ task_work s t.
Proof.
  intros Hg. destruct t as [request [| |c|c|c|c r|c r|c r n|c r n|effects answer]| | |]; simpl; try lia;
    pose proof (decidedb_grows s s' r Hg); destruct (decidedb s r), (decidedb s' r); naive_solver lia.
Qed.

Lemma resolved_work request c r i : sum_list_with effect_work (resolve_owned request c r i).1 < 9.
Proof.
  unfold resolve_owned, refuse_unasked, resolve_review. destruct (claim_owner c) as [call|];
    (destruct (claim_turn c) as [turn|]; [|simpl; lia]); repeat (case_match; simplify_eq/=; try lia).
Qed.

Lemma run_effect_work s e effects s' more : run_effect s e = (s', more) →
  sum_list_with effect_work (more ++ effects) < sum_list_with effect_work (e :: effects).
Proof.
  destruct e; simpl; [|intros [= <- <-]; simpl; lia..].
  unfold record_call_outcome.
  destruct (index_get _ _); [destruct (_ !! _) as [[]|]|]; intros [= <- <-]; simpl; lia.
Qed.

Lemma advance_work s t i s' t' :
  (∀ r a, approvals s !! r = Some a → wakeups a ≠ 0 → is_Some (pending_decision a)) →
  task_live s t → advance_task s t i = Some (s', t') → task_work s' t' < task_work s t.
Proof.
  intros Hwoken Ht. destruct t as [request p|message|[|e effects]|t]; cbn [advance_task].
  5: done.
  2: { intros [= <- <-]. simpl. destruct (resolve_single_active_call s); simpl; lia. }
  2: done.
  2: { destruct (run_effect s e) as [s1 more] eqn:E. intros [= <- <-]. by eapply run_effect_work. }
  destruct (advance s request p i) as [[s1 p']|] eqn:E; [intros [= <- <-]|done]. revert E.
  destruct p as [| |c|c|c|c r|c r|c r n|c r n|[|e effects] answer]; cbn [advance].
  - intros [= <- <-]. unfold attribute. repeat case_match; simpl; lia.
  - intros [= <- <-]. unfold read_turn. repeat case_match; simpl; lia.
  - intros [= <- <-]. case_decide; simpl; lia.
  - intros [= <- <-]. case_decide; simpl; lia.
  - destruct (get_or_create_pending_approval s (claim_key c)) as [[r is_owner] s2]. intros [= <- <-].
    destruct is_owner; simpl; [|destruct (decidedb _ _)]; lia.
  - pose proof (resolved_work request c r i) as Hw. destruct (resolve_owned request c r i). by intros [= <- <-].
  - destruct (approvals s !! r); simpl; [intros [= <- <-]|done]. simpl. destruct (decidedb s r); lia.
  - destruct (approvals s !! r) as [[d w]|] eqn:Ha; simpl; [intros [= <- <-]|done].
    destruct d as [d|]; simpl; [destruct (decidedb s r); lia|]. unfold decidedb. rewrite Ha. lia.
  - destruct (approvals s !! r) as [a|] eqn:Ha; simpl; [|done]. case_decide; [intros [= <- <-]|done]. simpl.
    destruct (Hwoken _ _ Ha) as [d Hd]; [lia|]. unfold decidedb. rewrite Ha. destruct a; simpl in Hd; subst. lia.
  - done.
  - destruct (run_effect s e) as [s2 more] eqn:E. intros [= <- <-]. by eapply run_effect_work.
Qed.

(** The steps of tasks in a run. *)
Definition advances : list Label → nat := sum_list_with (λ l, match l with Advance => 1 | _ => 0 end).

Lemma step_work l p q : step l p q → l ≠ Arrive → live p → work q + advances [l] ≤ work p.
Proof.
  intros Hstep Hl Hlive. destruct Hstep as [p t Hnew|p n t i s' t' Hn Hadv|p n t Hn|p turn_id managed spec uuid token _|p id|p source];
    [done| | |unfold work; simpl..].
  - pose proof (Forall_lookup_1 _ _ _ _ (live_tasks _ Hlive) Hn) as Ht.
    pose proof (advance_work _ _ _ _ _ (woken_decided _ Hlive) Ht Hadv) as Hlt.
    destruct (advance_live _ _ _ _ _ (pending_stored _ Hlive) (woken_decided _ Hlive) Ht Hadv) as [Hg _ _ _ _].
    pose proof (sum_insert_lt _ _ _ _ _ _ Hn (λ t, task_work_mono _ _ t Hg) Hlt). unfold work. simpl. lia.
  - unfold work. simpl. pose proof (sum_insert_le (task_work (service p)) _ _ _ (Dropped t) Hn ltac:(simpl; lia)). lia.
  - assert (approvals (begin_network_approval (service p) turn_id managed spec uuid token).2 = approvals (service p)) as Ha.
    { unfold begin_network_approval. destruct spec; [destruct (_ || _)|]; done. }
    rewrite Nat.add_0_r. apply sum_le. intros t. by apply task_work_mono, grows_same.
  - rewrite Nat.add_0_r. apply sum_le. intros t. by apply task_work_mono, grows_same.
  - rewrite Nat.add_0_r. apply sum_le. intros t. by apply task_work_mono, grows_same.
Qed.

Lemma run_work ls p q : run ls p q → Arrive ∉ ls → live p → work q + advances ls ≤ work p.
Proof.
  induction 1 as [p|l ls p q r Hstep Hrun IH]; intros Hls Hlive; [simpl; lia|]. apply not_elem_of_cons in Hls as [? ?].
  specialize (IH ltac:(done) (step_live _ _ _ Hstep Hlive)).
  pose proof (step_work _ _ _ Hstep ltac:(done) Hlive). unfold advances in *. simpl in *. lia.
Qed.

(** A task that was neither dropped nor has ended can go on unless it waits for an approval
    nobody was woken for. *)
Lemma advance_enabled s t i : task_live s t → ended t = false → dropped t = false →
  is_Some (advance_task s t i) ∨ ∃ request c r a, t = Deciding request (Awaiting c r 0) ∧ approvals s !! r = Some a ∧ wakeups a = 0.
Proof.
  intros Ht He Hd. destruct t as [request p|message|[|e effects]|t]; [|by left; eexists|done| |done].
  - destruct p as [| |c|c|c|c r|c r|c r n|c r n|[|e effects] answer]; simpl in *; try done; try (by left; eexists).
    + left. destruct (get_or_create_pending_approval _ _) as [[]]. by eexists.
    + left. destruct (resolve_owned _ _ _ _). by eexists.
    + left. destruct Ht as [a ->]. by eexists.
    + left. destruct Ht as (a & -> & _). by eexists.
    + destruct Ht as [[a Ha] ->]. rewrite Ha. simpl. case_decide; [left; by eexists|right].
      exists request, c, r, a. split_and!; [done..|lia].
    + left. destruct (run_effect _ _). by eexists.
  - left. simpl. destruct (run_effect _ _). by eexists.
Qed.

Lemma notifying_not_ended t r : r ∈ notifying t → ended t = false ∧ ∀ request c, t ≠ Deciding request (Awaiting c r 0).
Proof.
  induction t as [request [| |c|c|c|c r'|c r'|c r' n|c r' n|[|e effects] answer]|message|[|e effects]|t IH]; simpl;
    (try by intros ?%not_elem_of_nil); try (by intros _). intros [? _]%IH. by split.
Qed.

Definition no_input : Input :=
  {| in_turn := None; in_hooks := None; in_review := Denied; in_rejection := EmptyString; in_timeout := EmptyString |}.

(** A request that waits for an approval whose owner was dropped before it woke the waiters. *)
Definition stranded (p : System) (t : Task) : Prop :=
  ∃ request c r u, t = Deciding request (Awaiting c r 0) ∧ Dropped u ∈ tasks p ∧ r ∈ notifying u.

Lemma progress p t : live p → t ∈ tasks p → ended t = false → dropped t = false →
  (∃ q, step Advance p q) ∨ stranded p t.
Proof.
  intros Hlive [n Hn]%list_elem_of_lookup He Hd.
  assert (∀ n t, tasks p !! n = Some t → is_Some (advance_task (service p) t no_input) → ∃ q, step Advance p q) as Hgo.
  { intros m u Hm [[s' u'] Hadv]. eexists. by eapply StepTask. }
  pose proof (Forall_lookup_1 _ _ _ _ (live_tasks _ Hlive) Hn) as Ht.
  destruct (advance_enabled _ _ no_input Ht He Hd) as [?|(request & c & r & a & -> & Ha & H0)]; [left; by eauto|].
  pose proof (unwoken_notified _ Hlive _ _ Ha H0) as (ks & Hr & (u & -> & [m Hm]%list_elem_of_lookup)%list_elem_of_fmap)%list_elem_of_join.
  destruct (dropped u) eqn:Hud.
  { right. destruct u as [| | |u]; try done. exists request, c, r, u. split_and!; [done| |done].
    by eapply list_elem_of_lookup_2. }
  left. pose proof (Forall_lookup_1 _ _ _ _ (live_tasks _ Hlive) Hm) as Hu.
  destruct (notifying_not_ended _ _ Hr) as [Hue Hne].
  destruct (advance_enabled _ _ no_input Hu Hue Hud) as [?|(request' & c' & r' & a' & -> & _)]; [by eauto|].
  by apply not_elem_of_nil in Hr.
Qed.

(** Claim C34. A request waits for ever only if the one it waits for was dropped.  Whatever hooks
    and reviewers answer, whatever calls begin and finish and whatever requests are dropped
    meanwhile, without new requests at most [work p] more steps of requests are possible.
    When none is possible any more, a request that was not dropped has its answer, and a
    report is done, unless it waits for the approval that another request owned and was
    dropped before waking its waiters; so if no request was dropped, all have their answers.
    In particular no wake-up of a waiting request is lost. *)
Theorem requests_settle p : NetApproval.reachable p →
  (∀ ls q, run ls p q → Arrive ∉ ls → advances ls ≤ work p) ∧
  ((∀ q, ¬ step Advance p q) →
     (∀ t, t ∈ tasks p → dropped t = false → ended t = true ∨ stranded p t) ∧
     ((∀ t, t ∈ tasks p → dropped t = false) → ∀ t, t ∈ tasks p → ended t = true)).
Proof.
  intros Hlive%reachable_live. split.
  - intros ls q Hrun Hls. pose proof (run_work _ _ _ Hrun Hls Hlive). lia.
  - intros Hstuck. assert (∀ t, t ∈ tasks p → dropped t = false → ended t = true ∨ stranded p t) as Hall.
    { intros t Ht Hd. destruct (ended t) eqn:He; [by left|right].
      destruct (progress _ _ Hlive Ht He Hd) as [[q Hq]|?]; [|done]. by destruct (Hstuck q). }
    split; [done|]. intros Hno t Ht. destruct (Hall t Ht (Hno t Ht)) as [?|(request & c & r & u & _ & Hu & _)]; [done|].
    by apply Hno in Hu.
Qed.

(** ** Concrete runs *)

Inductive Move :=
| MoveRequest (request : NetworkPolicyRequest)
| MoveReport (message : string)
| MoveTask (n : nat) (i : Input)
| MoveDrop (n : nat)
| MoveBegin (turn_id : string) (spec : NetworkApprovalSpec) (uuid : string) (token : nat)
| MoveFinish (id : string).

Definition move (m : Move) (p : System) : option (Label * System) :=
  let with_service s ts h ids :=
    {| service := s; tasks := ts; history := h; inherited := inherited p; registered := ids |} in
  match m with
  | MoveRequest request => Some (Arrive, with_service (service p) (tasks p ++ [Deciding request Attributing]) (history p) (registered p))
  | MoveReport message => Some (Arrive, with_service (service p) (tasks p ++ [Reporting message]) (history p) (registered p))
  | MoveTask n i =>
      t ← tasks p !! n;
      '(s', t') ← advance_task (service p) t i;
      Some (Advance, with_service s' (<[n := t']> (tasks p)) (asked_by t i ++ history p) (registered p))
  | MoveDrop n =>
      t ← tasks p !! n; Some (Drop, with_service (service p) (<[n := Dropped t]> (tasks p)) (history p) (registered p))
  | MoveBegin turn_id spec uuid token =>
      if decide (uuid ∈ registered p) then None
      else Some (Begin, with_service (begin_network_approval (service p) turn_id true (Some spec) uuid token).2 (tasks p)
                          (history p) ({[uuid]} ∪ registered p))
  | MoveFinish id => Some (Finish id, with_service (finish_call (service p) id).2 (tasks p) (history p) (registered p))
  end.

Fixpoint moves (ms : list Move) (p : System) : option System :=
  match ms with [] => Some p | m :: ms => '(_, q) ← move m p; moves ms q end.

Lemma move_step m p l q : move m p = Some (l, q) → step l p q.
Proof.
  destruct m; simpl.
  - intros [= <- <-]. apply StepArrive. left. by eexists.
  - intros [= <- <-]. apply StepArrive. right. by eexists.
  - destruct (tasks p !! n) as [t|] eqn:Hn; simpl; [|done].
    destruct (advance_task _ t i) as [[s' t']|] eqn:E; simpl; [|done]. intros [= <- <-]. by eapply StepTask.
  - destruct (tasks p !! n) as [t|] eqn:Hn; simpl; [|done]. intros [= <- <-]. by apply StepDrop.
  - case_decide; [done|]. intros [= <- <-]. by apply (StepBegin p turn_id true (Some spec) uuid token).
  - intros [= <- <-]. apply StepFinish.
Qed.

Lemma moves_reachable ms p : moves ms initial = Some p → NetApproval.reachable p.
Proof.
  assert (∀ ms p q, moves ms p = Some q → ∃ ls, run ls p q) as Hrun; [|by apply Hrun].
  clear. induction ms as [|m ms IH]; simpl; intros p q; [intros [= ->]; by exists []; constructor|].
  destruct (move m p) as [[l p']|] eqn:E; simpl; [|done]. intros [ls Hls]%IH. exists (l :: ls).
  by econstructor; [apply move_step in E|].
Qed.

(** Two spellings of a host, asked for by one command: the first asks, the second waits. *)
Module Scenario.
Definition request (h : string) : NetworkPolicyRequest :=
  {| request_protocol := NetProxy.HttpsConnect; request_host := h; request_port := 443; request_environment := None;
     request_client := None; request_method := None; request_command := None; request_hint := None |}.

Definition turn : ApprovalTurn :=
  {| turn_sub_id := "turn"; turn_permissions := Managed ManagedUnrestricted NetRestricted; turn_approval_policy := OnRequest;
     turn_primary_environment := Some "local"; turn_guardian := false |}.

Definition answer (d : ReviewDecision) : Input :=
  {| in_turn := Some turn; in_hooks := None; in_review := d; in_rejection := EmptyString; in_timeout := EmptyString |}.

Definition spec : NetworkApprovalSpec :=
  {| spec_network := true; spec_mode := ApprovalImmediate; spec_command := "curl"; spec_environment := "local" |}.

Definition steps_of (n count : nat) (i : Input) : list Move := replicate count (MoveTask n i).

(** Both requests have looked for an approval; the second is at rest. *)
Definition waiting : list Move :=
  [MoveBegin "turn" spec "call" 7; MoveRequest (request "Example.com"); MoveRequest (request "EXAMPLE.com")]
  ++ steps_of 0 5 (answer Denied) ++ steps_of 1 7 (answer Denied).

(** The first is answered and acts, then the second wakes. *)
Definition settled (d : ReviewDecision) (effects : nat) : list Move :=
  waiting ++ steps_of 0 (S effects) (answer d) ++ steps_of 1 3 (answer d).

Definition state_after (ms : list Move) : System := default initial (moves ms initial).
End Scenario.

Lemma state_after_reachable ms : bool_decide (is_Some (moves ms initial)) = true → NetApproval.reachable (Scenario.state_after ms).
Proof.
  intros [p Hp]%bool_decide_eq_true. unfold Scenario.state_after. rewrite Hp. by apply moves_reachable in Hp.
Qed.

(** The second spelling is let through by the answer to the first. *)
Lemma let_through_justified_witness :
  tasks (Scenario.state_after (Scenario.settled Approved 3)) !! 1 =
    Some (Deciding (Scenario.request "EXAMPLE.com") (Acting [] NetAllow)) ∧
  ∃ k, key_for (Scenario.request "EXAMPLE.com") k ∧
    (k ∈ inherited (Scenario.state_after (Scenario.settled Approved 3)) ∨
     ∃ a, a ∈ history (Scenario.state_after (Scenario.settled Approved 3)) ∧ asked_key a = k ∧
       permits (asked_answer a) = true ∧ asked_ok a).
Proof.
  split; [vm_refl|]. apply (let_through_justified _ 1 _ []); [apply state_after_reachable; vm_refl|vm_refl].
Defined.

(** While both are on their way one of them owns the question. *)
Lemma one_question_per_key_witness :
  (∃ n t, tasks (Scenario.state_after Scenario.waiting) !! n = Some t ∧
     {| key_environment := "local"; key_host := "example.com"; key_protocol := "https"; key_port := 443 |} ∈ owned t).
Proof.
  apply (one_question_per_key (Scenario.state_after Scenario.waiting)); [apply state_after_reachable; vm_refl|].
  exists 0. vm_refl.
Defined.

Lemma requests_settle_witness :
  work (Scenario.state_after Scenario.waiting) = 13 ∧
  (∀ ls q, run ls (Scenario.state_after Scenario.waiting) q → Arrive ∉ ls → advances ls ≤ 13).
Proof.
  assert (work (Scenario.state_after Scenario.waiting) = 13) as Hw by vm_refl. split; [done|].
  intros ls q Hrun Hls. rewrite <-Hw.
  destruct (requests_settle (Scenario.state_after Scenario.waiting)) as [Hbound _]; [apply state_after_reachable; vm_refl|].
  by apply (Hbound ls q).
Defined.

(** Nothing takes a pending approval back when the request that owns it is dropped while it
    asks: a request that waits for the same key is never woken, and a new one joins it instead
    of asking. *)
Example dropped_owner_strands :
  let p := Scenario.state_after (Scenario.waiting ++ [MoveDrop 0; MoveRequest (Scenario.request "example.com")]
             ++ Scenario.steps_of 2 7 (Scenario.answer Approved)) in
  length (tasks p) = 3 ∧
  forallb (λ t, dropped t || match t with Deciding _ (Awaiting _ _ _) => true | _ => false end) (tasks p) = true ∧
  forallb (λ t, match advance_task (service p) t (Scenario.answer Approved) with None => true | Some _ => false end) (tasks p) = true.
Proof. split_and!; by vm_compute. Qed.
