(* ===== verification/NetApprovalCalls.v ===== *)
(** * What a call learns of its refused requests

    A call whose network access was refused is cancelled and told why when it finishes.  Of
    every interleaving in the system of [NetApproval]: "rejected by user" is told to exactly the
    calls whose question the user refused, nothing overwrites it, and a call with a refusal is
    cancelled.  With it, the amendment of the network policy a reviewer may answer with
    (core/src/session/mod.rs). *)

From stdpp Require Import base gmap list strings.
From S2P Require Import Prelude Str BTree Json Utf8 Fragments AbsPath ExecPolicy ShellCommand Permissions ApprovalPolicy.
From S2P Require Import PolicyTransforms PermissionGrants Orchestrator IpAddr HostPolicy NetConfig MitmHook NetState NetProxy NetApproval NetApprovalFacts.
From Stdlib Require Import Lia.

(** ** What holds of calls, outcomes and answers *)

(** The user, and not a guardian acting for them, refused; an amendment that denies is the user's. *)
Definition refused_by_user (a : Answer) : bool :=
  match a with
  | FromReviewer _ (NetworkPolicyAmendment {| amended_action := RuleDeny |}) => true
  | FromReviewer guardian (Denied | Abort') => negb guardian
  | _ => false
  end.

Definition user_refused (h : list Asked) (id : string) : Prop :=
  ∃ a, a ∈ h ∧ asked_owner a = Some id ∧ refused_by_user (asked_answer a) = true.

Fixpoint effects_of (t : Task) : list Effect :=
  match t with Deciding _ (Acting effects _) | Reported effects => effects | Dropped t => effects_of t | _ => [] end.

Fixpoint owner_of (t : Task) : option ActiveNetworkApprovalCall :=
  match t with
  | Dropped t => owner_of t
  | Deciding _ (ReadingTurn owner _) => owner
  | Deciding _ (CheckingDenied c | CheckingApproved c | Claiming c | Owning c _) => claim_owner c
  | _ => None
  end.

Definition all_effects (p : System) : list Effect := mjoin (effects_of <$> tasks p).

Record told (p : System) : Prop := {
  calls_unique : NoDup (active_calls (service p)).*1;
  calls_named k c : (k, c) ∈ active_calls (service p) → call_id c = k ∧ k ∈ registered p;
  owners_registered t c : t ∈ tasks p → owner_of t = Some c → call_id c ∈ registered p;
  blamed_refused id : RecordOutcome id DeniedByUser ∈ all_effects p → user_refused (history p) id;
  outcome_refused id : call_outcomes (service p) !! id = Some DeniedByUser → user_refused (history p) id;
  outcome_cancelled id o : call_outcomes (service p) !! id = Some o →
    ∃ c, index_get id (active_calls (service p)) = Some c ∧
      (call_token c ∈ cancelled (service p) ∨ CancelToken (call_token c) ∈ all_effects p);
  refused_told id : user_refused (history p) id → id ∈ registered p ∧
    (index_get id (active_calls (service p)) = None ∨ call_outcomes (service p) !! id = Some DeniedByUser ∨
     RecordOutcome id DeniedByUser ∈ all_effects p);
}.

(** ** One step of a task *)

Lemma run_effect_calls s e : active_calls (run_effect s e).1 = active_calls s.
Proof. destruct e; simpl; try done. unfold record_call_outcome. by repeat case_match; simplify_eq/=. Qed.

Lemma advance_calls s t i s' t' : advance_task s t i = Some (s', t') → active_calls s' = active_calls s.
Proof.
  destruct t as [request p|message|[|e effects]|t]; cbn [advance_task]; [| |done| |done].
  - destruct (advance s request p i) as [[s1 p']|] eqn:E; [intros [= <- <-]|done]. revert E.
    destruct p as [| |c|c|c|c r|c r|c r n|c r n|[|e effects] answer]; cbn [advance]; try (by intros [= <- <-]); try done.
    + unfold get_or_create_pending_approval. destruct (pending_host_approvals s !! claim_key c); by intros [= <- <-].
    + destruct (resolve_owned _ _ _ _). by intros [= <- <-].
    + destruct (approvals s !! r); [by intros [= <- <-]|done].
    + destruct (approvals s !! r); [by intros [= <- <-]|done].
    + destruct (approvals s !! r); simpl; [|done]. case_decide; [by intros [= <- <-]|done].
    + pose proof (run_effect_calls s e). destruct (run_effect s e). by intros [= <- <-].
  - by intros [= <- <-].
  - pose proof (run_effect_calls s e). destruct (run_effect s e). by intros [= <- <-].
Qed.

(** What a step of a task does to calls and effects. *)
Record fx (s s' : NetworkApprovalService) (t t' : Task) (asked : list Asked) : Prop := {
  fx_cancelled : cancelled s ⊆ cancelled s';
  fx_owner c : owner_of t' = Some c → owner_of t = Some c ∨ ∃ k, (k, c) ∈ active_calls s;
  fx_new e : e ∈ effects_of t' → e ∈ effects_of t ∨
    match e with RecordOutcome id DeniedByUser => user_refused asked id | _ => True end;
  fx_asked id : user_refused asked id →
    RecordOutcome id DeniedByUser ∈ effects_of t' ∧ ∃ c, owner_of t = Some c ∧ call_id c = id;
  fx_outcomes id : call_outcomes s' !! id = call_outcomes s !! id ∨
    ∃ o c, RecordOutcome id o ∈ effects_of t ∧ call_outcomes s !! id ≠ Some DeniedByUser ∧ call_outcomes s' !! id = Some o ∧
      index_get id (active_calls s) = Some c ∧ CancelToken (call_token c) ∈ effects_of t';
  fx_done e : e ∈ effects_of t → e ∈ effects_of t' ∨
    match e with
    | CancelToken token => token ∈ cancelled s'
    | RecordOutcome id o => index_get id (active_calls s) = None ∨ call_outcomes s' !! id = Some o ∨ call_outcomes s' !! id = Some DeniedByUser
    | _ => True
    end;
}.

Lemma no_refusal id : ¬ user_refused [] id.
Proof. by intros (a & ?%not_elem_of_nil & _). Qed.

(** Steps that touch neither calls nor effects. *)
Lemma fx_quiet s s' t t' : cancelled s' = cancelled s → call_outcomes s' = call_outcomes s →
  effects_of t = [] → effects_of t' = [] →
  (∀ c, owner_of t' = Some c → owner_of t = Some c ∨ ∃ k, (k, c) ∈ active_calls s) → fx s s' t t' [].
Proof.
  intros Hc Ho He He' Hown. split; rewrite ?He, ?He', ?Hc, ?Ho; try done; try (by intros ? ?%not_elem_of_nil).
  - by intros id ?%no_refusal.
  - by left.
Qed.

(** The effects of a resolution blame the user exactly where the user refused. *)
Lemma resolved_blames request c r i id : RecordOutcome id DeniedByUser ∈ (resolve_owned request c r i).1 ↔
  user_refused (asks request c i) id.
Proof.
  unfold user_refused. split.
  - unfold resolve_owned, asks, refuse_unasked, resolve_review.
    destruct (claim_owner c) as [call|], (claim_turn c) as [turn|]; simpl; try set_solver;
      (destruct (permission_profile_allows_network_approval_flow _); simpl; [|set_solver]);
      (destruct (allows_network_approval_flow _); simpl; [|set_solver]);
      (destruct (in_hooks i) as [[|message]|]; simpl; [set_solver..|]);
      destruct (in_review i) as [| | |[host []]| | |]; simpl; try set_solver;
      try (destruct (turn_guardian turn); simpl; try set_solver);
      intros Hin; eexists; (split; [by apply list_elem_of_singleton|]); simpl; split; try done; set_solver.
  - intros (a & Ha & Hown & Href). revert Ha Hown Href. unfold asks, resolve_owned, resolve_review.
    destruct (claim_turn c) as [turn|]; [|by intros ?%not_elem_of_nil].
    destruct (permission_profile_allows_network_approval_flow _); simpl; [|by intros ?%not_elem_of_nil].
    destruct (allows_network_approval_flow _); simpl; [|by intros ?%not_elem_of_nil].
    intros ->%list_elem_of_singleton. simpl. destruct (claim_owner c) as [call|]; simpl; [intros [= <-]|done].
    destruct (in_hooks i) as [[|message]|]; simpl; [done..|].
    destruct (in_review i) as [| | |[host []]| | |]; simpl; try done; try (destruct (turn_guardian turn); simpl; try done); set_solver.
Qed.

Lemma asks_owner request c i id : user_refused (asks request c i) id → ∃ call, claim_owner c = Some call ∧ call_id call = id.
Proof.
  intros (a & Ha & Hown & _). revert Ha Hown. unfold asks. destruct (claim_turn c); [|by intros ?%not_elem_of_nil].
  destruct (_ && _); [|by intros ?%not_elem_of_nil]. intros ->%list_elem_of_singleton. simpl.
  destruct (claim_owner c) as [call|]; simpl; [|done]. intros [= <-]. by exists call.
Qed.

Section run.
Context (mk : list Effect → Task) (mk_effects : ∀ es, effects_of (mk es) = es) (mk_owner : ∀ es, owner_of (mk es) = None).

(** Effects other than an outcome. *)
Lemma fx_effect s s' e effects : cancelled s ⊆ cancelled s' → call_outcomes s' = call_outcomes s →
  match e with CancelToken token => token ∈ cancelled s' | RecordOutcome _ _ => False | _ => True end →
  fx s s' (mk (e :: effects)) (mk effects) [].
Proof.
  intros Hc Ho He. split; rewrite ?mk_effects, ?mk_owner; try done.
  - intros e'. set_solver.
  - by intros id ?%no_refusal.
  - intros id. left. by rewrite Ho.
  - intros e' [->|?]%elem_of_cons; [|by left]. right. by destruct e.
Qed.

Lemma run_effect_fx s e effects s' more : run_effect s e = (s', more) →
  fx s s' (mk (e :: effects)) (mk (more ++ effects)) [].
Proof.
  destruct e as [id outcome|token| | | | | |r d|r|key]; simpl; [|intros [= <- <-]; by apply fx_effect; simpl; try set_solver..].
  destruct (record_call_outcome s id outcome) as [s1 call] eqn:E. intros [= <- <-].
  unfold record_call_outcome in E. destruct (index_get id (active_calls s)) as [c|] eqn:G.
  - destruct (decide (call_outcomes s !! id = Some DeniedByUser)) as [Hu|Hu].
    + rewrite Hu in E. injection E as <- <-. split; rewrite ?mk_effects, ?mk_owner; try done; simpl.
      * intros e. set_solver.
      * by intros id' ?%no_refusal.
      * by left.
      * intros e [->|?]%elem_of_cons; [|by left]. right. by right; right.
    + assert (s1 = with_calls s (active_calls s) (<[id := outcome]> (call_outcomes s)) ∧ call = Some c) as [-> ->].
      { destruct (call_outcomes s !! id) as [[]|]; [done|by injection E as <- <-..]. }
      split; rewrite ?mk_effects, ?mk_owner; try done; simpl.
      * intros e [->|?]%elem_of_cons; [by right|left; by constructor].
      * by intros id' ?%no_refusal.
      * intros id'. destruct (decide (id = id')) as [<-|]; [right|left; by rewrite lookup_insert_ne].
        exists outcome, c. rewrite lookup_insert_eq. split_and!; [by constructor|done..|by constructor].
      * intros e [->|?]%elem_of_cons; [right|left; by constructor]. right; left. by rewrite lookup_insert_eq.
  - injection E as <- <-. split; rewrite ?mk_effects, ?mk_owner; try done; simpl.
    + intros e. set_solver.
    + by intros id' ?%no_refusal.
    + by left.
    + intros e [->|?]%elem_of_cons; [|by left]. right. by left.
Qed.
End run.

Lemma active_single s c : resolve_single_active_call s = Some c → ∃ k, (k, c) ∈ active_calls s.
Proof.
  unfold resolve_single_active_call. destruct (active_calls s) as [|[k c'] [|]]; try done. intros [= ->]. exists k. by constructor.
Qed.

Lemma attributed_active s c : resolve_active_call_attribution s = AttributedSingle c → ∃ k, (k, c) ∈ active_calls s.
Proof.
  unfold resolve_active_call_attribution. destruct (active_calls s) as [|[k c'] [|]]; try done. intros [= ->]. exists k. by constructor.
Qed.

Lemma attribute_owner s request c : owner_of (Deciding request (attribute s request)) = Some c → ∃ k, (k, c) ∈ active_calls s.
Proof.
  unfold attribute. destruct (request_environment request), (resolve_active_call_attribution s) eqn:E; simpl; try done.
  - destruct (str_eqb _ _); [|done]. intros [= <-]. by apply attributed_active.
  - intros [= <-]. by apply attributed_active.
Qed.

Lemma advance_fx s t i s' t' : advance_task s t i = Some (s', t') → fx s s' t t' (asked_by t i).
Proof.
  destruct t as [request p|message|[|e effects]|t]; cbn [advance_task]; [| |done| |done].
  2: { intros [= <- <-]. simpl. split; simpl; try done; [|by intros id ?%no_refusal|by left|by intros ? ?%not_elem_of_nil].
       destruct (resolve_single_active_call s); simpl; [|by intros ? ?%not_elem_of_nil].
       intros e ->%list_elem_of_singleton. by right. }
  2: { destruct (run_effect s e) as [s1 more] eqn:E. intros [= <- <-]. by apply (run_effect_fx Reported). }
  destruct (advance s request p i) as [[s1 p']|] eqn:E; [intros [= <- <-]|done]. revert E.
  destruct p as [| |c|c|c|c r|c r|c r n|c r n|[|e effects] answer]; cbn [advance asked_by].
  - intros [= <- <-]. apply fx_quiet; [done..| |].
    + unfold attribute. by repeat case_match.
    + intros c Hc. right. by eapply attribute_owner.
  - intros [= <- <-]. unfold read_turn. case_match; apply fx_quiet; try done; by left.
  - intros [= <- <-]. case_decide; apply fx_quiet; try done; by left.
  - intros [= <- <-]. case_decide; apply fx_quiet; try done; by left.
  - unfold get_or_create_pending_approval. destruct (pending_host_approvals s !! claim_key c); intros [= <- <-];
      apply fx_quiet; try done; by left.
  - pose proof (resolved_blames request c r i) as Hb. pose proof (asks_owner request c i) as Hown.
    destruct (resolve_owned request c r i) as [effects answer]. intros [= <- <-]. simpl in *.
    split; simpl; [done..| | |by left|by intros ? ?%not_elem_of_nil].
    + intros e Hin. right. destruct e as [id [|]| | | | | | | | |]; try done. by apply Hb.
    + intros id Hid. split; [by apply Hb|by apply Hown].
  - destruct (approvals s !! r); [intros [= <- <-]|done]. by apply fx_quiet.
  - destruct (approvals s !! r) as [a|]; simpl; [intros [= <- <-]|done]. destruct (pending_decision a); by apply fx_quiet.
  - destruct (approvals s !! r); simpl; [|done]. case_decide; [intros [= <- <-]|done]. by apply fx_quiet.
  - done.
  - destruct (run_effect s e) as [s2 more] eqn:E. intros [= <- <-].
    by apply (run_effect_fx (λ es, Deciding request (Acting es answer))).
Qed.

Lemma user_refused_app h h' id : user_refused (h' ++ h) id ↔ user_refused h' id ∨ user_refused h id.
Proof. unfold user_refused. set_solver. Qed.

(** ** All steps *)

Lemma told_advance p n t i s' t' : told p → tasks p !! n = Some t → advance_task (service p) t i = Some (s', t') →
  told {| service := s'; tasks := <[n := t']> (tasks p); history := asked_by t i ++ history p;
          inherited := inherited p; registered := registered p |}.
Proof.
  intros [Hnd Hnamed Hown Hblame Hout Hcan Href] Hn Hadv. pose proof (advance_calls _ _ _ _ _ Hadv) as Hcalls.
  destruct (advance_fx _ _ _ _ _ Hadv) as [Fcan Fown Fnew Fask Fout Fdone].
  destruct (mjoin_insert effects_of _ n t t' Hn) as (xs & ys & E & E').
  assert (∀ e, e ∈ effects_of t → e ∈ all_effects p) as Hall by (intros e ?; unfold all_effects; rewrite E; set_solver).
  change (mjoin (effects_of <$> tasks p)) with (all_effects p) in E. set (q := {| service := s' |}).
  assert (all_effects q = xs ++ effects_of t' ++ ys) as Hq by apply E'.
  split; cbn [service tasks history registered q]; rewrite ?Hcalls, ?Hq, ?E in *; try done.
  - intros u c Hu Hc. apply list_elem_of_lookup in Hu as [m Hm]. apply list_lookup_insert_Some in Hm as [(-> & <- & _)|[_ Hm]].
    + destruct (Fown _ Hc) as [?|[k Hk]]; [eapply Hown; [by eapply list_elem_of_lookup_2|done]|].
      by destruct (Hnamed _ _ Hk) as [-> ?].
    + eapply Hown; [by eapply list_elem_of_lookup_2|done].
  - intros id Hin. apply user_refused_app. rewrite !elem_of_app in Hin. destruct Hin as [?|[Hin|?]].
    1,3: right; apply Hblame; set_solver.
    destruct (Fnew _ Hin) as [?|?]; [right; apply Hblame; set_solver|by left].
  - intros id Hid. apply user_refused_app. right. destruct (Fout id) as [Heq|(o & c & ? & _ & Ho & _)].
    + apply Hout. by rewrite <-Heq.
    + apply Hblame, Hall. congruence.
  - intros id o Hid. destruct (Fout id) as [Heq|(o' & c & _ & _ & _ & Hc & Htok)].
    + rewrite Heq in Hid. destruct (Hcan _ _ Hid) as (c & Hc & [?|Htok]); exists c; (split; [done|]); [left; set_solver|].
      rewrite !elem_of_app in Htok. destruct Htok as [?|[Htok|?]]; [right; set_solver| |right; set_solver].
      destruct (Fdone _ Htok); [right; set_solver|by left].
    + exists c. split; [done|right; set_solver].
  - intros id [Hid|Hid]%user_refused_app.
    + destruct (Fask _ Hid) as [Hrec (c & Hc & <-)]. split; [|right; right; set_solver].
      eapply Hown; [by eapply list_elem_of_lookup_2|done].
    + destruct (Href _ Hid) as [? [?|[Hu|Hrec]]]; (split; [done|]); [by left|right; left|].
      * destruct (Fout id) as [->|(o & c & _ & Hne & _)]; done.
      * rewrite !elem_of_app in Hrec. destruct Hrec as [?|[Hrec|?]]; [right; right; set_solver| |right; right; set_solver].
        destruct (Fdone _ Hrec) as [?|[?|[?|?]]]; [right; right; set_solver|by left|by right; left..].
Qed.

Lemma told_begin p call : told p → call_id call ∉ registered p →
  told {| service := register_call (service p) call; tasks := tasks p; history := history p; inherited := inherited p;
          registered := {[call_id call]} ∪ registered p |}.
Proof.
  intros [Hnd Hnamed Hown Hblame Hout Hcan Href] Hfresh. split; simpl; try done.
  - by apply index_insert_nodup.
  - intros k c [[= -> ->]|Hin]%index_insert_elem; [set_solver|]. apply Hnamed in Hin as []. set_solver.
  - intros t c ? ?. apply elem_of_union_r. by eapply Hown.
  - intros id o Hid. destruct (Hcan _ _ Hid) as (c & Hc & ?). exists c. split; [|done]. rewrite index_get_insert.
    destruct (str_eqb id (call_id call)) eqn:E; [|done]. apply str_eqb_true in E as ->.
    apply index_get_in, Hnamed in Hc as [_ ?]. done.
  - intros id Hid. destruct (Href _ Hid) as [? Hcases]. split; [set_solver|]. rewrite index_get_insert.
    destruct (str_eqb id (call_id call)) eqn:E; [|done]. by apply str_eqb_true in E as ->.
Qed.

Lemma told_finish p id : told p →
  told {| service := (finish_call (service p) id).2; tasks := tasks p; history := history p; inherited := inherited p;
          registered := registered p |}.
Proof.
  intros [Hnd Hnamed Hown Hblame Hout Hcan Href]. 
  split; simpl; try done.
  - by apply shift_remove_nodup.
  - intros k c Hin. apply Hnamed. by eapply shift_remove_elem.
  - intros id' Hid'. apply Hout. by apply lookup_delete_Some in Hid' as [_ ?].
  - intros id' o [Hne Hid']%lookup_delete_Some. destruct (Hcan _ _ Hid') as (c & Hc & ?). exists c. split; [|done].
    rewrite index_get_remove by done. destruct (str_eqb id' id) eqn:E; [|done]. by apply str_eqb_true in E.
  - intros id' Hid'. destruct (Href _ Hid') as [? Hcases]. split; [done|]. rewrite index_get_remove by done.
    destruct (str_eqb id' id) eqn:E; [by left|]. apply str_eqb_false in E. by rewrite lookup_delete_ne.
Qed.

Lemma step_told l p q : step l p q → told p → told q.
Proof.
  intros Hstep Ht. destruct Hstep as [p t Hnew|p n t i s' t' Hn Hadv|p n t Hn|p turn_id managed spec uuid token Hfresh|p id|p source].
  - assert (effects_of t = [] ∧ owner_of t = None) as [He Ho] by (by destruct Hnew as [[? ->]|[? ->]]).
    destruct Ht as [Hnd Hnamed Hown Hblame Hout Hcan Href].
    split; simpl; unfold all_effects in *; simpl; rewrite ?fmap_app, ?join_app; simpl; rewrite ?He, ?app_nil_r; try done.
    intros u c [?| ->%list_elem_of_singleton]%elem_of_app; [by apply Hown|congruence].
  - by apply told_advance.
  - destruct Ht as [Hnd Hnamed Hown Hblame Hout Hcan Href].
    destruct (mjoin_insert effects_of _ n t (Dropped t) Hn) as (xs & ys & E & E').
    split; simpl; unfold all_effects in *; simpl; rewrite ?E'; simpl; rewrite <-?E; try done.
    intros u c Hu Hc. apply list_elem_of_lookup in Hu as [m Hm].
    apply list_lookup_insert_Some in Hm as [(-> & <- & _)|[_ Hm]]; eapply Hown; eauto using list_elem_of_lookup_2.
  - unfold begin_network_approval. destruct spec as [spec|]; [destruct (_ || _)|]; simpl; [|by apply told_begin|].
    all: destruct Ht as [Hnd Hnamed Hown Hblame Hout Hcan Href]; split; simpl; try done.
    all: try (intros k c Hin; destruct (Hnamed _ _ Hin); set_solver).
    all: try (intros t c ? ?; apply elem_of_union_r; by eapply Hown).
    all: intros id' Hid'; destruct (Href _ Hid'); set_solver.
  - by apply told_finish.
  - by destruct Ht.
Qed.

Lemma reachable_told p : NetApproval.reachable p → told p.
Proof.
  apply reachable_invariant; [|apply step_told].
  split; simpl; try (by intros id ?%no_refusal); try set_solver. constructor.
Qed.

Lemma step_keeps_refusal l p q id : step l p q → l ≠ Finish id →
  call_outcomes (service p) !! id = Some DeniedByUser → call_outcomes (service q) !! id = Some DeniedByUser.
Proof.
  intros Hstep Hl Hid. destruct Hstep as [p t Hnew|p n t i s' t' Hn Hadv|p n t Hn|p turn_id managed spec uuid token Hfresh|p id'|p source]; simpl; try done.
  - destruct (fx_outcomes _ _ _ _ _ (advance_fx _ _ _ _ _ Hadv) id) as [->|(o & c & _ & Hne & _)]; done.
  - unfold begin_network_approval. destruct spec; [destruct (_ || _)|]; done.
  - rewrite lookup_delete_ne; [done|]. congruence.
Qed.

Lemma ended_effects p : (∀ t, t ∈ tasks p → ended t = true) → all_effects p = [].
Proof.
  unfold all_effects. induction (tasks p) as [|t ts IH]; intros Hall; [done|].
  change (effects_of t ++ mjoin (effects_of <$> ts) = []). rewrite IH by set_solver.
  assert (ended t = true) as He by set_solver. clear -He.
  by induction t as [? []| | |]; simpl in *; repeat case_match; auto.
Qed.

(** Claim C35. A command is told "rejected by user" for the right reason, and is told so.  The
    service holds that outcome for a call only if a question about one of its own requests was
    put and the user (not a guardian) refused it; then whatever happens before the call
    finishes, finishing it fails with "rejected by user".  Conversely, once every request has
    come to its end, a call that still runs and had a question refused by the user does finish with
    that failure, and every call with an outcome has been cancelled. *)
Theorem refusals_reported p id : NetApproval.reachable p →
  (call_outcomes (service p) !! id = Some DeniedByUser → user_refused (history p) id ∧
     ∀ ls q, run ls p q → Finish id ∉ ls → (finish_call (service q) id).1 = Err (ToolRejected "rejected by user")) ∧
  ((∀ t, t ∈ tasks p → ended t = true) →
     (user_refused (history p) id → is_Some (index_get id (active_calls (service p))) →
        (finish_call (service p) id).1 = Err (ToolRejected "rejected by user")) ∧
     (∀ o, call_outcomes (service p) !! id = Some o →
        ∃ c, index_get id (active_calls (service p)) = Some c ∧ call_token c ∈ cancelled (service p))).
Proof.
  intros [_ _ _ _ Hout Hcan Href]%reachable_told. split.
  - intros Hid. split; [by apply Hout|]. intros ls q Hrun Hls.
    assert (call_outcomes (service q) !! id = Some DeniedByUser) as Hq; [|simpl; by rewrite Hq].
    clear Hout Hcan Href. induction Hrun as [p|l ls p p' q Hstep Hrun IH]; [done|]. apply not_elem_of_cons in Hls as [? ?].
    apply IH; [|done]. by eapply step_keeps_refusal.
  - intros Hend%ended_effects. rewrite Hend in *. split.
    + intros Hr [c Hc]. destruct (Href _ Hr) as [_ [?|[Hid|?%not_elem_of_nil]]]; [congruence| |done]. simpl. by rewrite Hid.
    + intros o Ho. destruct (Hcan _ _ Ho) as (c & ? & [?|?%not_elem_of_nil]); [by exists c|done].
Qed.

(** Finishing a deferred approval again gives the first result and touches nothing. *)
Lemma deferred_finish_again s d r d' s' s2 : deferred_finish s d = (r, d', s') → deferred_finish s2 d' = (r, d', s2).
Proof. unfold deferred_finish. destruct (finish_outcome d) eqn:E; intros [= <- <- <-]; [by rewrite E|done]. Qed.

(** ** Amending the network policy *)

Record ExecPolicyNetworkRuleAmendment := {
  rule_protocol : NetworkRuleProtocol;
  rule_decision : Decision;
  rule_justification : string;
}.

Definition execpolicy_network_rule_amendment (amendment : PolicyAmendment) (context : NetworkApprovalContext)
    (host : string) : ExecPolicyNetworkRuleAmendment :=
  let protocol :=
    match context_protocol context with
    | NetHttp => ExecPolicy.Http | NetHttps => ExecPolicy.Https
    | NetSocks5Tcp => ExecPolicy.Socks5Tcp | NetSocks5Udp => ExecPolicy.Socks5Udp
    end in
  let '(decision, action_verb) :=
    match amended_action amendment with RuleAllow => (Allow, "Allow") | RuleDeny => (Forbidden, "Deny") end in
  let protocol_label :=
    match context_protocol context with
    | NetHttp => "http" | NetHttps => "https_connect" | NetSocks5Tcp => "socks5_tcp" | NetSocks5Udp => "socks5_udp"
    end in
  {| rule_protocol := protocol; rule_decision := decision;
     rule_justification := action_verb +:+ (" " +:+ (protocol_label +:+ (" access to " +:+ host))) |}.

Inductive PersistError :=
| HostMismatch (amendment_host approved_host : string)
| RuntimeListFailed (e : UpdateError)
| ExecPolicyFailed (e : ExecPolicyUpdateError).

Definition validated_network_policy_amendment_host (amendment : PolicyAmendment) (context : NetworkApprovalContext) :
    Result string PersistError :=
  let approved_host := normalize_host (context_host context) in
  let amendment_host := normalize_host (amended_host amendment) in
  if str_eqb amendment_host approved_host then Ok approved_host
  else Err (HostMismatch (amended_host amendment) (context_host context)).

Definition amended_list (action : NetworkPolicyRuleAction) : DomainListKind :=
  match action with RuleAllow => ListAllow | RuleDeny => ListDeny end.

Section persist.
Context `{HookBody, HookHost, PathEnv, Globs, UrlHosts, Interception} `{SerdeJson}.

(** [update_domain_list] when nothing comes between its snapshot and its commit *)
Definition update_domain_list (st : ConfigState) (host : string) (k : DomainListKind) : Result ConfigState UpdateError :=
  let? update := update_domain_begin st host k in
  Ok match update with None => st | Some u => default st (update_domain_commit st u) end.

(** The proxy that runs, if one does, and the exec policy. *)
Definition persist_network_policy_amendment (io : AmendIo) (codex_home : PathBuf) (amendment : PolicyAmendment)
    (context : NetworkApprovalContext) (proxy : option ConfigState) (m : Manager) :
    Result () PersistError * option ConfigState * Manager :=
  match validated_network_policy_amendment_host amendment context with
  | Err e => (Err e, proxy, m)
  | Ok host =>
      let rule := execpolicy_network_rule_amendment amendment context host in
      let updated :=
        match proxy with
        | None => Ok None
        | Some st => map_err RuntimeListFailed (let? st := update_domain_list st host (amended_list (amended_action amendment)) in Ok (Some st))
        end in
      match updated with
      | Err e => (Err e, proxy, m)
      | Ok proxy =>
          let '(r, m) := append_network_rule_and_update io codex_home host (rule_protocol rule) (rule_decision rule)
                           (Some (rule_justification rule)) m in
          (map_err ExecPolicyFailed r, proxy, m)
      end
  end.
End persist.

Lemma update_domain_list_spec `{HookBody, HookHost, PathEnv, Globs, UrlHosts, Interception} st host k st' :
  update_domain_list st host k = Ok st' →
  ∃ h e, host_parse host = Ok h ∧ e ∈ list_entries k (config st') ∧ (e = h ∨ normalize_host e = h).
Proof.
  unfold update_domain_list. intros (u & Hu & [= <-])%res_bind_ok. pose proof Hu as Hb. unfold update_domain_begin in Hb.
  destruct (host_parse host) as [h|] eqn:Hp; [|done]. destruct u as [u|].
  - assert (update_domain_commit st u = Some (updated_state u)) as Hc.
    { destruct (_ && _); [done|]. apply res_bind_ok in Hb as (_ & _ & (ns & _ & [= <-])%res_bind_ok).
      unfold update_domain_commit. by rewrite decide_True. }
    rewrite Hc. destruct (commit_state _ _ _ _ _ _ Hp Hu Hc) as (_ & Hin & _). exists h, h. eauto.
  - simpl. destruct (existsb _ (list_entries k (config st))) eqn:E.
    + apply existsb_exists in E as (e & He%list_elem_of_In & Heq%str_eqb_true). exists h, e. eauto.
    + simpl in Hb. by apply res_bind_ok in Hb as (_ & _ & (ns & _ & [=])%res_bind_ok).
Qed.

Lemma append_network_rule_ok `{SerdeJson, PathEnv} io home host protocol d j m m' :
  append_network_rule_and_update io home host protocol d j m = (Ok (), m') →
  ∃ h, normalize_network_rule_host host = Ok h ∧
    last (network_rules (policy m')) = Some {| ExecPolicy.host := h; ExecPolicy.protocol := protocol; net_decision := d; net_justification := j |}.
Proof.
  unfold append_network_rule_and_update. destruct (blocking_append_network_rule _ _ _ _ _ _ _) as [[|] file]; [|done].
  destruct (add_network_rule _ _ _ _ _) as [pol|] eqn:E; [|done]. intros [= <-]. unfold add_network_rule in E.
  apply res_bind_ok in E as (h & Hh & E). destruct (blank j); [done|]. injection E as <-. exists h. split; [done|].
  simpl. by rewrite last_snoc.
Qed.

(** A reviewer can amend the policy only for the host the question was about.  If the
    amendment names another host (after normalising both), nothing changes, neither the proxy
    nor the exec policy; and if amending succeeds, the host is on the list of the running proxy
    that the action asks for, and the exec policy ends with a rule for it with that action and
    the protocol of the question. *)
Theorem amendment_confined `{HookBody, HookHost, PathEnv, Globs, UrlHosts, Interception} `{SerdeJson}
    io home amendment context proxy m r proxy' m' :
  persist_network_policy_amendment io home amendment context proxy m = (r, proxy', m') →
  (normalize_host (amended_host amendment) ≠ normalize_host (context_host context) →
     r = Err (HostMismatch (amended_host amendment) (context_host context)) ∧ proxy' = proxy ∧ m' = m) ∧
  (r = Ok () →
     let approved := normalize_host (context_host context) in
     let rule := execpolicy_network_rule_amendment amendment context approved in
     normalize_host (amended_host amendment) = approved ∧
     (∀ st, proxy = Some st → ∃ st' h e, proxy' = Some st' ∧ host_parse approved = Ok h ∧
        e ∈ list_entries (amended_list (amended_action amendment)) (config st') ∧ (e = h ∨ normalize_host e = h)) ∧
     ∃ h, normalize_network_rule_host approved = Ok h ∧
       last (network_rules (policy m')) =
         Some {| ExecPolicy.host := h; ExecPolicy.protocol := rule_protocol rule; net_decision := rule_decision rule;
                 net_justification := Some (rule_justification rule) |}).
Proof.
  unfold persist_network_policy_amendment, validated_network_policy_amendment_host.
  destruct (str_eqb _ _) eqn:Hh; [apply str_eqb_true in Hh|apply str_eqb_false in Hh; intros [= <- <- <-]; by split].
  intros Hrun. split; [done|]. intros ->. split; [done|]. revert Hrun.
  destruct proxy as [st|]; simpl.
  - destruct (update_domain_list st _ _) as [st'|e] eqn:Hu; simpl; [|done].
    destruct (append_network_rule_and_update _ _ _ _ _ _ _) as [[[]|e] m1] eqn:Ha; [intros [= <- <-]|done].
    split; [|by eapply append_network_rule_ok]. intros st0 [= <-].
    destruct (update_domain_list_spec _ _ _ _ Hu) as (h & e & ? & ? & ?). by exists st', h, e.
  - destruct (append_network_rule_and_update _ _ _ _ _ _ _) as [[[]|e] m1] eqn:Ha; [intros [= <- <-]|done].
    split; [done|by eapply append_network_rule_ok].
Qed.

(** The command of [Scenario] whose question the user refuses. *)
Lemma refusals_reported_witness :
  user_refused (history (Scenario.state_after (Scenario.settled Denied 5))) "call" ∧
  (finish_call (service (Scenario.state_after (Scenario.settled Denied 5))) "call").1 = Err (ToolRejected "rejected by user").
Proof.
  destruct (refusals_reported (Scenario.state_after (Scenario.settled Denied 5)) "call") as [Hrefused _].
  - apply state_after_reachable. vm_refl.
  - destruct Hrefused as [? Hfinish]; [vm_refl|]. split; [done|]. apply (Hfinish []); [constructor|apply not_elem_of_nil].
Defined.

(** ** An amendment of the sample proxy *)

Module Amended.
Import NetProxy.Sample.
#[local] Instance json : SerdeJson := serde_toy.

Definition amendment : PolicyAmendment := {| amended_host := "WWW.example.com"; amended_action := RuleDeny |}.
Definition context : NetworkApprovalContext := {| context_host := "www.example.com"; context_protocol := NetHttps |}.
Definition persisted : Result () PersistError * option ConfigState * Manager :=
  persist_network_policy_amendment no_errors {| rooted := true; names := [] |} amendment context (Some start) {| policy := empty_policy; rule_file := None |}.

Lemma amendment_confined_witness :
  ∃ h, normalize_network_rule_host "www.example.com" = Ok h ∧
    last (network_rules (policy persisted.2)) =
      Some {| ExecPolicy.host := h; ExecPolicy.protocol := ExecPolicy.Https; net_decision := Forbidden;
              net_justification := Some "Deny https_connect access to www.example.com" |}.
Proof.
  assert (match persisted.1.1 with Ok _ => true | Err _ => false end = true) as Hok by vm_refl.
  destruct persisted as [[r proxy'] m'] eqn:E. simpl in Hok. destruct r as [[]|]; [|done].
  destruct (amendment_confined _ _ _ _ _ _ _ _ _ E) as [_ Hres].
  destruct (Hres eq_refl) as (_ & _ & h & Hh & Hlast). exists h. split; [exact Hh|exact Hlast].
Defined.
End Amended.
