(* ===== verification/ConfigLayers.v ===== *)
(** * Configuration layers

    codex-rs/config: merge.rs, key_aliases.rs, overrides.rs, [record_origins] of
    fingerprint.rs and the layer stack of state.rs, with [ConfigLayerSource::precedence] of
    app-server-protocol.

    A configuration is a TOML value.  Tables keep the order of insertion (the crate enables
    [preserve_order]); an array, a text, a number and so on is a leaf that a higher layer
    replaces as a whole.  The fingerprint of a layer (SHA-256 of its JSON) is the parameter
    [version_for_toml].  Requirements and startup warnings are kept by a stack and not read
    by it; they are left out. *)

From stdpp Require Import base gmap list strings.
From S2P Require Import Prelude Str BTree AbsPath Permissions ApprovalPolicy HostPolicy.

Inductive TomlValue :=
| TString (s : string)
| TInteger (z : Z)
| TFloat (text : string)
| TBoolean (b : bool)
| TDatetime (text : string)
| TArray (items : list TomlValue)
| TTable (entries : list (string * TomlValue)).

Notation TomlMap A := (list (string * A)).

(** ** Key aliases (key_aliases.rs) *)

Record ConfigKeyAlias := { table_path : list string; legacy_key : string; canonical_key : string }.

Definition CONFIG_KEY_ALIASES : list ConfigKeyAlias :=
  [{| table_path := ["memories"]; legacy_key := "no_memories_if_mcp_or_web_search";
      canonical_key := "disable_on_external_context" |}].

(** The values are not looked at. *)
Definition normalize_key_aliases {A} (path : list string) (table : TomlMap A) : TomlMap A :=
  fold_left (λ table alias,
    if bool_decide (path = table_path alias) then
      match index_get (legacy_key alias) table with
      | None => table
      | Some value =>
          let table := shift_remove (legacy_key alias) table in
          match index_get (canonical_key alias) table with
          | Some _ => table
          | None => index_insert (canonical_key alias) value table
          end
      end
    else table) CONFIG_KEY_ALIASES table.

(** The keys of a table differ, so inserting its entries one by one is mapping them. *)
Fixpoint normalized_with_key_aliases (value : TomlValue) (path : list string) {struct value} : TomlValue :=
  match value with
  | TTable table =>
      TTable (normalize_key_aliases path
        (List.map (λ '(key, child), (key, normalized_with_key_aliases child (path ++ [key]))) table))
  | TArray items => TArray (List.map (λ item, normalized_with_key_aliases item path) items)
  | _ => value
  end.

(** ** Merging (merge.rs) *)

Definition is_permission_network_domains_path (path : list string) : bool :=
  match path with
  | [permissions; _; network; domains] =>
      str_eqb permissions "permissions" && str_eqb network "network" && str_eqb domains "domains"
  | _ => false
  end.

Definition normalize_network_domain_keys {A} (table : TomlMap A) : TomlMap A :=
  fold_left (λ table '(pattern, value), index_insert (normalize_host pattern) value table) table [].

(** Each entry of the overlay is carried with the merge of its value into another one. *)
Fixpoint merge_toml_values_at_path (overlay base : TomlValue) (path : list string) {struct overlay} : TomlValue :=
  match overlay, base with
  | TTable overlay_table, TTable base_table =>
      let base_table := normalize_key_aliases path base_table in
      let overlay_table := normalize_key_aliases path
        (List.map (λ '(key, value), (key, (value, merge_toml_values_at_path value))) overlay_table) in
      let domains := is_permission_network_domains_path path in
      let base_table := if domains then normalize_network_domain_keys base_table else base_table in
      let overlay_table := if domains then normalize_network_domain_keys overlay_table else overlay_table in
      TTable (fold_left (λ table '(key, (value, merge_value)),
        match index_get key table with
        | Some existing => index_insert key (merge_value existing (path ++ [key])) table
        | None => index_insert key (normalized_with_key_aliases value (path ++ [key])) table
        end) overlay_table base_table)
  | _, _ => normalized_with_key_aliases overlay path
  end.

Definition merge_toml_values (base overlay : TomlValue) : TomlValue := merge_toml_values_at_path overlay base [].

(** ** Overrides of the command line (overrides.rs) *)

Definition default_empty_table : TomlValue := TTable [].

Definition as_table (v : TomlValue) : TomlMap TomlValue := match v with TTable t => t | _ => [] end.

(** What is not a table is replaced by one on the way. *)
Fixpoint apply_toml_override (current : TomlValue) (segments : list string) (value : TomlValue) : TomlValue :=
  match segments with
  | [] => current
  | [segment] => TTable (index_insert segment value (as_table current))
  | segment :: segments =>
      let table := as_table current in
      let child := default (TTable []) (index_get segment table) in
      TTable (index_insert segment (apply_toml_override child segments value) table)
  end.

Definition build_cli_overrides_layer (cli_overrides : list (string * TomlValue)) : TomlValue :=
  fold_left (λ root '(path, value), apply_toml_override root (split_char "." path) value) cli_overrides default_empty_table.

(** ** Layers (state.rs) *)

Definition precedence (s : ConfigLayerSource) : Z :=
  match s with
  | Mdm _ _ => 0
  | System _ => 10
  | EnterpriseManaged _ _ => 15
  | User _ profile => if profile then 21 else 20
  | Project _ => 25
  | SessionFlags => 30
  | LegacyManagedConfigTomlFromFile _ => 40
  | LegacyManagedConfigTomlFromMdm => 50
  end.

Class Fingerprint := version_for_toml : TomlValue → string.

Record ConfigLayerMetadata := { metadata_name : ConfigLayerSource; metadata_version : string }.

Record ConfigLayerEntry := {
  name : ConfigLayerSource;
  config : TomlValue;
  version : string;
  disabled_reason : option string;
  raw_toml : option (string * AbsolutePathBuf);
  hooks_config_folder_override : option AbsolutePathBuf;
}.

Definition is_disabled (l : ConfigLayerEntry) : bool := if disabled_reason l then true else false.

Definition metadata (l : ConfigLayerEntry) : ConfigLayerMetadata :=
  {| metadata_name := name l; metadata_version := version l |}.

Definition config_folder (l : ConfigLayerEntry) : option AbsolutePathBuf :=
  match name l with
  | System file | User file _ => parent file
  | Project dot_codex_folder => Some dot_codex_folder
  | _ => None
  end.

Definition hooks_config_folder (l : ConfigLayerEntry) : option AbsolutePathBuf :=
  match hooks_config_folder_override l with Some f => Some f | None => config_folder l end.

Inductive ConfigLayerStackOrdering := LowestPrecedenceFirst | HighestPrecedenceFirst.

Record ConfigLayerStack := { layers : list ConfigLayerEntry; user_layer_index : option nat }.

Definition is_user (s : ConfigLayerSource) : bool := match s with User _ _ => true | _ => false end.

Inductive LayerError := NotInPrecedenceOrder | ProjectWithoutParent | NotFromRootToCwd.

(** [iter().is_sorted()] by precedence *)
Fixpoint is_sorted (l : list ConfigLayerSource) : bool :=
  match l with
  | a :: (b :: _) as rest => (precedence a <=? precedence b)%Z && is_sorted rest
  | _ => true
  end.

(** The loop over the layers from index [index] on. *)
Fixpoint verify_layers (index : nat) (user_layer_index : option nat) (previous : option AbsolutePathBuf)
    (ls : list ConfigLayerEntry) : Result (option nat) LayerError :=
  match ls with
  | [] => Ok user_layer_index
  | layer :: ls =>
      let user_layer_index := if is_user (name layer) then Some index else user_layer_index in
      match name layer with
      | Project current =>
          match previous with
          | None => verify_layers (S index) user_layer_index (Some current) ls
          | Some previous =>
              match parent previous with
              | None => Err ProjectWithoutParent
              | Some parent =>
                  if bool_decide (previous = current) || negb (existsb (λ a, bool_decide (a = parent)) (ancestors current))
                  then Err NotFromRootToCwd
                  else verify_layers (S index) user_layer_index (Some current) ls
              end
          end
      | _ => verify_layers (S index) user_layer_index previous ls
      end
  end.

Definition verify_layer_ordering (ls : list ConfigLayerEntry) : Result (option nat) LayerError :=
  if negb (is_sorted (name <$> ls)) then Err NotInPrecedenceOrder else verify_layers 0 None None ls.

Definition new (ls : list ConfigLayerEntry) : Result ConfigLayerStack LayerError :=
  let? user_layer_index := verify_layer_ordering ls in
  Ok {| layers := ls; user_layer_index := user_layer_index |}.

Definition get_active_user_layer (st : ConfigLayerStack) : option ConfigLayerEntry :=
  user_layer_index st ≫= λ index, layers st !! index.

Definition get_user_config_file (st : ConfigLayerStack) : option AbsolutePathBuf :=
  layer ← get_active_user_layer st;
  match name layer with User file _ => Some file | _ => None end.

Definition get_layers (st : ConfigLayerStack) (ordering : ConfigLayerStackOrdering) (include_disabled : bool) :
    list ConfigLayerEntry :=
  let ls := List.filter (λ l, include_disabled || negb (is_disabled l)) (layers st) in
  match ordering with HighestPrecedenceFirst => reverse ls | LowestPrecedenceFirst => ls end.

Definition layers_high_to_low (st : ConfigLayerStack) : list ConfigLayerEntry := get_layers st HighestPrecedenceFirst false.

Definition get_user_layers (st : ConfigLayerStack) (ordering : ConfigLayerStackOrdering) (include_disabled : bool) :
    list ConfigLayerEntry :=
  List.filter (λ l, is_user (name l)) (get_layers st ordering include_disabled).

Definition merge_layers (ls : list ConfigLayerEntry) : TomlValue :=
  fold_left (λ merged l, merge_toml_values merged (config l)) ls (TTable []).

Definition effective_user_config (st : ConfigLayerStack) : option TomlValue :=
  match get_user_layers st LowestPrecedenceFirst false with
  | [] => None
  | user_layers => Some (merge_layers user_layers)
  end.

Definition effective_config (st : ConfigLayerStack) : TomlValue := merge_layers (get_layers st LowestPrecedenceFirst false).

(** ** Where a value comes from (fingerprint.rs) *)

(** [path.join(".")] keys the map; the indices of an array are printed. *)
Fixpoint record_origins (value : TomlValue) (meta : ConfigLayerMetadata) (path : list string)
    (origins : gmap string ConfigLayerMetadata) {struct value} : gmap string ConfigLayerMetadata :=
  match value with
  | TTable table =>
      fold_left (λ origins '(key, val), record_origins val meta (path ++ [key]) origins) table origins
  | TArray items =>
      snd (fold_left (λ '(idx, origins) item, (S idx, record_origins item meta (path ++ [fmt_nat idx]) origins)) items (0, origins))
  | _ => match path with [] => origins | _ => <[join "." path := meta]> origins end
  end.

Definition origins (st : ConfigLayerStack) : gmap string ConfigLayerMetadata :=
  fold_left (λ origins l, record_origins (normalized_with_key_aliases (config l) []) (metadata l) [] origins)
    (get_layers st LowestPrecedenceFirst false) ∅.

(** ** Replacing user layers *)

Definition position {A} (f : A → bool) (l : list A) : option nat := fst <$> list_find f l.

(** [layers.insert] before the first layer of higher precedence, or [layers.push] *)
Definition insert_layer (layer : ConfigLayerEntry) (ls : list ConfigLayerEntry) : list ConfigLayerEntry :=
  match position (λ l, bool_decide (precedence (name layer) < precedence (name l))%Z) ls with
  | Some index => take index ls ++ layer :: drop index ls
  | None => ls ++ [layer]
  end.

Definition last_user_index (ls : list ConfigLayerEntry) : option nat :=
  snd <$> last (List.filter (λ '(l, _), is_user (name l)) (zip ls (seq 0 (length ls)))).

(** [ProfileV2Name::from_str] *)
Definition profile_name (value : string) : option string :=
  if str_is_empty value || negb (forallb (λ b, is_ascii_alnum b || byte_eqb b "_" || byte_eqb b "-") (as_bytes value))
  then None else Some value.

Section user.
Context `{Fingerprint}.

Definition new_entry (n : ConfigLayerSource) (c : TomlValue) : ConfigLayerEntry :=
  {| name := n; config := c; version := version_for_toml c; disabled_reason := None; raw_toml := None;
     hooks_config_folder_override := None |}.

Definition is_user_file (config_toml : AbsolutePathBuf) (l : ConfigLayerEntry) : bool :=
  match name l with User file _ => bool_decide (file = config_toml) | _ => false end.

Definition remove_first (f : ConfigLayerEntry → bool) (ls : list ConfigLayerEntry) : list ConfigLayerEntry :=
  match position f ls with Some index => delete index ls | None => ls end.

Definition with_user_config_profile (st : ConfigLayerStack) (config_toml : AbsolutePathBuf) (profile : option string)
    (user_config : TomlValue) : ConfigLayerStack :=
  let user_layer := new_entry (User config_toml profile) user_config in
  let ls := insert_layer user_layer (remove_first (is_user_file config_toml) (layers st)) in
  {| layers := ls; user_layer_index := last_user_index ls |}.

Definition with_user_config (st : ConfigLayerStack) (config_toml : AbsolutePathBuf) (user_config : TomlValue) :
    ConfigLayerStack :=
  let profile := head (omap (λ l,
    match name l with
    | User file profile => if bool_decide (file = config_toml) then profile ≫= profile_name else None
    | _ => None
    end) (layers st)) in
  with_user_config_profile st config_toml profile user_config.

Definition with_user_layer_from (st other : ConfigLayerStack) : ConfigLayerStack :=
  let user_layers := List.filter (λ l, is_user (name l)) (layers other) in
  let ls := List.filter (λ l, negb (is_user (name l))) (layers st) in
  let ls := fold_left (λ ls l, insert_layer l ls) user_layers ls in
  {| layers := ls; user_layer_index := last_user_index ls |}.
End user.
