(* ===== verification/ConfigLayerFacts.v ===== *)
(** * What configuration layers mean

    Theorems about ConfigLayers.v: the effective configuration takes each value from the
    highest layer that speaks about its place, the recorded origin of a value is that layer,
    and replacing the user's layers gives a stack that is again in order. *)

From stdpp Require Import base gmap list strings.
From S2P Require Import Prelude Str BTree AbsPath Permissions ApprovalPolicy HostPolicy ConfigLayers.
From Stdlib Require Import Lia.

(** ** Values *)

Section toml_ind.
Context (P : TomlValue → Prop).
Context (HString : ∀ s, P (TString s)) (HInteger : ∀ z, P (TInteger z)) (HFloat : ∀ s, P (TFloat s)).
Context (HBoolean : ∀ b, P (TBoolean b)) (HDatetime : ∀ s, P (TDatetime s)).
Context (HArray : ∀ items, Forall P items → P (TArray items)).
Context (HTable : ∀ entries, Forall (λ e, P e.2) entries → P (TTable entries)).

Fixpoint toml_ind (v : TomlValue) : P v :=
  match v with
  | TString s => HString s
  | TInteger z => HInteger z
  | TFloat s => HFloat s
  | TBoolean b => HBoolean b
  | TDatetime s => HDatetime s
  | TArray items =>
      HArray items ((fix go l : Forall P l := match l with [] => Forall_nil_2 P | v :: l => Forall_cons_2 P v l (toml_ind v) (go l) end) items)
  | TTable entries =>
      HTable entries ((fix go l : Forall (λ e, P e.2) l :=
        match l with [] => Forall_nil_2 _ | e :: l => Forall_cons_2 (λ e, P e.2) e l (toml_ind e.2) (go l) end) entries)
  end.
End toml_ind.

(** The keys of a table differ. *)
Inductive wf : TomlValue → Prop :=
| WfTable entries : NoDup entries.*1 → (∀ k v, (k, v) ∈ entries → wf v) → wf (TTable entries)
| WfArray items : (∀ v, v ∈ items → wf v) → wf (TArray items)
| WfLeaf v : (∀ entries, v ≠ TTable entries) → (∀ items, v ≠ TArray items) → wf v.

Lemma wf_table entries : wf (TTable entries) → NoDup entries.*1 ∧ ∀ k v, (k, v) ∈ entries → wf v.
Proof. inversion 1; subst; [done|congruence]. Qed.

Lemma wf_array items : wf (TArray items) → ∀ v, v ∈ items → wf v.
Proof. inversion 1; subst; [done|congruence]. Qed.

Definition is_table (v : TomlValue) : bool := match v with TTable _ => true | _ => false end.

(** What a configuration says about a place: nothing, that no leaf is there, or a leaf. *)
Fixpoint look (v : TomlValue) (path : list string) : option (option TomlValue) :=
  match path with
  | [] => Some (if is_table v then None else Some v)
  | k :: path =>
      match v with
      | TTable entries => match index_get k entries with Some child => look child path | None => None end
      | _ => Some None
      end
  end.

Definition leaf (v : TomlValue) (path : list string) : option TomlValue := default None (look v path).

(** ** Aliases *)

Definition at_alias (path : list string) : bool := bool_decide (path = ["memories"]).
Definition legacy : string := "no_memories_if_mcp_or_web_search".
Definition canonical : string := "disable_on_external_context".

Definition move_alias {A} (table : TomlMap A) : TomlMap A :=
  match index_get legacy table with
  | None => table
  | Some value =>
      match index_get canonical (shift_remove legacy table) with
      | Some _ => shift_remove legacy table
      | None => index_insert canonical value (shift_remove legacy table)
      end
  end.

Lemma aliases_eq {A} path (table : TomlMap A) :
  normalize_key_aliases path table = if at_alias path then move_alias table else table.
Proof. unfold normalize_key_aliases, at_alias, move_alias. simpl. by destruct (bool_decide _). Qed.

Lemma normalized_table entries path : normalized_with_key_aliases (TTable entries) path =
  TTable (normalize_key_aliases path (index_map (λ k c, normalized_with_key_aliases c (path ++ [k])) entries)).
Proof. reflexivity. Qed.

Lemma normalized_is_table v path : is_table (normalized_with_key_aliases v path) = is_table v.
Proof. by destruct v. Qed.

Lemma move_alias_nodup {A} (t : TomlMap A) : NoDup t.*1 → NoDup (move_alias t).*1.
Proof.
  intros Hnd. unfold move_alias. destruct (index_get legacy t); [|done].
  destruct (index_get canonical _); [by apply shift_remove_nodup|]. by apply index_insert_nodup, shift_remove_nodup.
Qed.

Lemma move_alias_elem {A} (t : TomlMap A) k v : (k, v) ∈ move_alias t → ∃ k', (k', v) ∈ t.
Proof.
  unfold move_alias. destruct (index_get legacy t) eqn:E; [|by eauto].
  destruct (index_get canonical _); [intros ?%shift_remove_elem; by eauto|].
  intros [[= -> ->]|?%shift_remove_elem]%index_insert_elem; [apply index_get_in in E|]; eauto.
Qed.

Lemma move_alias_legacy {A} (t : TomlMap A) : NoDup t.*1 → index_get legacy (move_alias t) = None.
Proof.
  intros Hnd. unfold move_alias. destruct (index_get legacy t) eqn:E; [|done].
  destruct (index_get canonical _); [|rewrite index_get_insert]; by rewrite index_get_remove.
Qed.

Lemma normalize_nodup {A} path (t : TomlMap A) : NoDup t.*1 → NoDup (normalize_key_aliases path t).*1.
Proof. rewrite aliases_eq. destruct (at_alias path); [apply move_alias_nodup|done]. Qed.

Lemma normalize_elem {A} path (t : TomlMap A) k v : (k, v) ∈ normalize_key_aliases path t → ∃ k', (k', v) ∈ t.
Proof. rewrite aliases_eq. destruct (at_alias path); [apply move_alias_elem|by eauto]. Qed.

(** Below the tables with aliases nothing is renamed. *)
Lemma index_map_id {A} (f : string → A → A) t : (∀ k v, (k, v) ∈ t → f k v = v) → index_map f t = t.
Proof.
  unfold index_map. induction t as [|[k v] t IH]; intros Hf; simpl; [done|].
  rewrite Hf by constructor. f_equal. apply IH. intros. apply Hf. by constructor.
Qed.

Lemma normalized_deep v path : 2 ≤ length path → normalized_with_key_aliases v path = v.
Proof.
  revert path. induction v as [| | | | |items IH|entries IH] using toml_ind; intros path Hlen; try done.
  - simpl. f_equal. induction IH as [|v items Hv _ IHitems]; simpl; [done|]. by rewrite Hv, IHitems.
  - rewrite normalized_table, aliases_eq. unfold at_alias. rewrite bool_decide_eq_false_2 by (by intros ->; simpl in Hlen; lia).
    f_equal. apply index_map_id. intros k v Hin. eapply Forall_forall in IH; [|done]. apply IH. rewrite length_app. simpl. lia.
Qed.

(** The entries of a normalised table. *)
Lemma normalized_get entries path k : index_get k
    (normalize_key_aliases path (index_map (λ k c, normalized_with_key_aliases c (path ++ [k])) entries)) =
  (λ v, normalized_with_key_aliases v (path ++ [k])) <$> index_get k (normalize_key_aliases path entries).
Proof.
  rewrite !aliases_eq. destruct (at_alias path) eqn:Hp; [|apply (index_get_map (λ k c, normalized_with_key_aliases c (path ++ [k])))].
  unfold at_alias in Hp. apply bool_decide_eq_true in Hp as ->.
  assert (∀ k v, normalized_with_key_aliases v (["memories"] ++ [k]) = v) as Hid by (intros; by apply normalized_deep).
  rewrite index_map_id by (intros; apply Hid). destruct (index_get k _) as [v|]; [|done]. simpl. f_equal. symmetry. apply (Hid k v).
Qed.

Lemma normalized_wf v path : wf v → wf (normalized_with_key_aliases v path).
Proof.
  revert path. induction v as [| | | | |items IH|entries IH] using toml_ind; intros path Hwf; try done.
  - simpl. constructor. intros v (w & -> & Hin)%list_elem_of_fmap. eapply Forall_forall in IH; [|done]. apply IH.
    by eapply wf_array.
  - apply wf_table in Hwf as [Hnd Hwf]. rewrite normalized_table. constructor.
    + apply normalize_nodup. by rewrite index_map_keys.
    + intros k v [k' Hin]%normalize_elem. apply list_elem_of_fmap in Hin as ([k0 w] & [= -> ->] & Hin).
      pose proof (proj1 (Forall_forall _ _) IH _ Hin) as Hw. apply Hw. by eapply Hwf.
Qed.

(** ** Merging *)

(** Renaming keys commutes with mapping values. *)
Section rename_map.
Context {A B : Type} (f : A → B).
Notation mapped := (index_map (λ _, f)).

Lemma map_insert k v m : index_insert k (f v) (mapped m) = mapped (index_insert k v m).
Proof. unfold index_map. induction m as [|[k' v'] m IH]; simpl; [done|]. destruct (str_eqb k k'); simpl; [done|by f_equal]. Qed.

Lemma map_remove k m : shift_remove k (mapped m) = mapped (shift_remove k m).
Proof. unfold index_map. induction m as [|[k' v'] m IH]; simpl; [done|]. destruct (str_eqb k k'); simpl; [done|by f_equal]. Qed.

Lemma map_normalize path m : normalize_key_aliases path (mapped m) = mapped (normalize_key_aliases path m).
Proof.
  rewrite !aliases_eq. destruct (at_alias path); [|done]. unfold move_alias. rewrite index_get_map.
  destruct (index_get legacy m); simpl; [|done]. rewrite map_remove, index_get_map.
  destruct (index_get canonical _); simpl; [done|]. by rewrite map_insert.
Qed.

Lemma map_domains m : normalize_network_domain_keys (mapped m) = mapped (normalize_network_domain_keys m).
Proof.
  unfold normalize_network_domain_keys. change [] with (mapped []) at 1. generalize (@nil (string * A)).
  induction m as [|[k v] m IH]; intros acc; simpl; [done|]. rewrite map_insert. apply IH.
Qed.
End rename_map.

Definition prepared {A} (path : list string) (t : TomlMap A) : TomlMap A :=
  if is_permission_network_domains_path path then normalize_network_domain_keys (normalize_key_aliases path t)
  else normalize_key_aliases path t.

Definition merge_entry (path : list string) (table : TomlMap TomlValue) (e : string * TomlValue) : TomlMap TomlValue :=
  index_insert e.1
    match index_get e.1 table with
    | Some existing => merge_toml_values_at_path e.2 existing (path ++ [e.1])
    | None => normalized_with_key_aliases e.2 (path ++ [e.1])
    end table.

(** The merge of two tables, as the loop over the entries of the second. *)
Lemma merge_tables overlay base path : merge_toml_values_at_path (TTable overlay) (TTable base) path =
  TTable (fold_left (merge_entry path) (prepared path overlay) (prepared path base)).
Proof.
  cbn [merge_toml_values_at_path]. f_equal.
  change (List.map _ overlay) with (index_map (λ _ v, (v, merge_toml_values_at_path v)) overlay).
  rewrite (map_normalize (λ v, (v, merge_toml_values_at_path v))). unfold prepared.
  set (b := if is_permission_network_domains_path path then _ else normalize_key_aliases path base).
  set (o := if is_permission_network_domains_path path then _ else normalize_key_aliases path overlay).
  assert ((if is_permission_network_domains_path path
           then normalize_network_domain_keys (index_map (λ _ v, (v, merge_toml_values_at_path v)) (normalize_key_aliases path overlay))
           else index_map (λ _ v, (v, merge_toml_values_at_path v)) (normalize_key_aliases path overlay)) =
          index_map (λ _ v, (v, merge_toml_values_at_path v)) o) as ->.
  { unfold o. destruct (is_permission_network_domains_path path); [|done].
    by rewrite (map_domains (λ v, (v, merge_toml_values_at_path v))). }
  generalize b. clear b. induction o as [|[k v] o IH]; intros b; simpl; [done|].
  unfold index_map in IH. rewrite IH. f_equal. unfold merge_entry. simpl. by destruct (index_get k b).
Qed.

Lemma domains_nodup {A} (t : TomlMap A) : NoDup (normalize_network_domain_keys t).*1.
Proof.
  unfold normalize_network_domain_keys. assert (NoDup (@nil (string * A)).*1) as Hnil by constructor.
  revert Hnil. generalize (@nil (string * A)). induction t as [|[k v] t IH]; intros acc Hacc; simpl; [done|].
  apply IH. by apply index_insert_nodup.
Qed.

Lemma domains_elem {A} (t : TomlMap A) k v : (k, v) ∈ normalize_network_domain_keys t → ∃ k', (k', v) ∈ t.
Proof.
  unfold normalize_network_domain_keys.
  assert (∀ acc, (k, v) ∈ fold_left (λ table '(pattern, value), index_insert (normalize_host pattern) value table) t acc →
    (k, v) ∈ acc ∨ ∃ k', (k', v) ∈ t) as Hgen.
  { induction t as [|[k0 v0] t IH]; intros acc; simpl; [by left|].
    intros [[[= -> ->]|?]%index_insert_elem|[k' ?]]%IH; [right; eexists; by constructor|by left|right].
    exists k'. by constructor. }
  intros [?%not_elem_of_nil|?]%Hgen; done.
Qed.

Lemma prepared_nodup {A} path (t : TomlMap A) : NoDup t.*1 → NoDup (prepared path t).*1.
Proof. intros Hnd. unfold prepared. destruct (is_permission_network_domains_path path); [apply domains_nodup|by apply normalize_nodup]. Qed.

Lemma prepared_elem {A} path (t : TomlMap A) k v : (k, v) ∈ prepared path t → ∃ k', (k', v) ∈ t.
Proof.
  unfold prepared. destruct (is_permission_network_domains_path path); [intros [k' ?]%domains_elem|]; by eapply normalize_elem.
Qed.

Lemma merge_entries_get path k o : NoDup o.*1 → ∀ b, index_get k (fold_left (merge_entry path) o b) =
  match index_get k o with
  | None => index_get k b
  | Some v => Some match index_get k b with
                   | Some e => merge_toml_values_at_path v e (path ++ [k])
                   | None => normalized_with_key_aliases v (path ++ [k])
                   end
  end.
Proof.
  induction o as [|[k0 v0] o IH]; intros Hnd b; simpl; [done|]. apply NoDup_cons in Hnd as [Hk0 Hnd]. rewrite IH by done.
  unfold merge_entry. simpl. rewrite index_get_insert. destruct (str_eqb k k0) eqn:E; [|done].
  apply str_eqb_true in E as ->. by rewrite (proj2 (index_get_none k0 o) Hk0).
Qed.

Lemma merge_entries_nodup path o b : NoDup b.*1 → NoDup (fold_left (merge_entry path) o b).*1.
Proof. revert b. induction o as [|e o IH]; intros b Hnd; simpl; [done|]. apply IH. by apply index_insert_nodup. Qed.

(** No legacy key is left at its place. *)
Definition clean (path : list string) (v : TomlValue) : Prop :=
  match path with
  | [] => ∀ es ms, v = TTable es → index_get "memories" es = Some (TTable ms) → index_get legacy ms = None
  | [m] => m = "memories" → ∀ ms, v = TTable ms → index_get legacy ms = None
  | _ => True
  end.

Lemma clean_child path es k c : clean path (TTable es) → index_get k es = Some c → clean (path ++ [k]) c.
Proof.
  destruct path as [|m [|]]; simpl; [|done|done]. intros Hc Hk -> ms ->. by eapply Hc.
Qed.

Lemma clean_normal path es : clean path (TTable es) → normalize_key_aliases path es = es.
Proof.
  rewrite aliases_eq. unfold at_alias. case_bool_decide as Hp; [|done]. subst path. simpl. intros Hc.
  unfold move_alias. by rewrite (Hc eq_refl es eq_refl).
Qed.

(** Being clean only looks at the table and, from the root, at its table of memories. *)
Lemma clean_intro path es : (path = ["memories"] → index_get legacy es = None) →
  (∀ k c, index_get k es = Some c → clean (path ++ [k]) c) → clean path (TTable es).
Proof.
  intros Hhere Hchild. destruct path as [|m [|]]; simpl; [| |done].
  - intros es' ms [= <-] Hms. by apply (Hchild _ _ Hms eq_refl).
  - intros -> ms [= <-]. by apply Hhere.
Qed.

Lemma clean_leaf path v : is_table v = false → clean path v.
Proof. destruct path as [|m [|]]; simpl; [| |done]; intros Hv; [intros es ms ->|intros _ ms ->]; done. Qed.

Lemma normalized_clean v path : wf v → clean path (normalized_with_key_aliases v path).
Proof.
  revert path. induction v as [| | | | |items IH|es IH] using toml_ind; intros path Hwf; try (by apply clean_leaf).
  apply wf_table in Hwf as [Hnd Hwf]. rewrite normalized_table. apply clean_intro.
  - intros ->. rewrite aliases_eq. apply move_alias_legacy. by rewrite index_map_keys.
  - intros k c. rewrite normalized_get. intros (v & Hv & ->)%fmap_Some.
    apply index_get_in, normalize_elem in Hv as [k' Hin]. pose proof (proj1 (Forall_forall _ _) IH _ Hin) as Hv. apply Hv.
    by eapply Hwf.
Qed.

Lemma prepared_get {A} path (t : TomlMap A) k : is_permission_network_domains_path path = false →
  index_get k (prepared path t) = index_get k (normalize_key_aliases path t).
Proof. intros Hp. unfold prepared. by rewrite Hp. Qed.

Lemma domains_not_memories path : is_permission_network_domains_path path = true → path ≠ ["memories"].
Proof. by intros ? ->. Qed.

Lemma merge_wf_clean o : ∀ b path, wf o → wf b → clean path b →
  wf (merge_toml_values_at_path o b path) ∧ clean path (merge_toml_values_at_path o b path).
Proof.
  induction o as [s|z|s|x|s|items _|es IH] using toml_ind; intros base path Ho Hb Hc;
    try (split; [by apply (normalized_wf _ path)|by apply (normalized_clean _ path)]).
  destruct base as [| | | | | |bs]; try (split; [by apply (normalized_wf (TTable es) path)|by apply (normalized_clean (TTable es) path)]).
  rewrite merge_tables. apply wf_table in Ho as [Hond Ho], Hb as [Hbnd Hb].
  assert (∀ k v, index_get k (fold_left (merge_entry path) (prepared path es) (prepared path bs)) = Some v →
    wf v ∧ (is_permission_network_domains_path path = false → clean (path ++ [k]) v)) as Hget.
  { intros k v. rewrite merge_entries_get by (by apply prepared_nodup).
    assert (∀ e, index_get k (prepared path bs) = Some e →
      wf e ∧ (is_permission_network_domains_path path = false → clean (path ++ [k]) e)) as Hbase.
    { intros e He. split; [apply index_get_in, prepared_elem in He as [k' ?]; by eapply Hb|]. intros Hp.
      rewrite prepared_get, clean_normal in He by done. by eapply clean_child. }
    destruct (index_get k (prepared path es)) as [w|] eqn:Hw; [|by apply Hbase].
    apply index_get_in, prepared_elem in Hw as [k' Hin]. pose proof (proj1 (Forall_forall _ _) IH _ Hin) as IHw. simpl in IHw.
    pose proof (Ho _ _ Hin) as Hwfw. destruct (index_get k (prepared path bs)) as [e|] eqn:He; intros [= <-].
    - destruct (Hbase _ eq_refl) as [? Hce]. destruct (decide (is_permission_network_domains_path path = false)) as [Hp|Hp].
      + destruct (IHw e (path ++ [k])) as [? ?]; auto.
      + split; [|done]. apply IHw; [done..|]. apply not_false_is_true in Hp.
        destruct path as [|? [|? [|? [|? [|]]]]]; done.
    - split; [by apply normalized_wf|]. intros _. by apply normalized_clean. }
  split.
  - constructor; [by apply merge_entries_nodup, prepared_nodup|]. intros k v Hin. eapply Hget.
    apply index_in_get; [|done]. by apply merge_entries_nodup, prepared_nodup.
  - destruct (is_permission_network_domains_path path) eqn:Hp.
    { by destruct path as [|? [|? [|? [|? [|]]]]]. }
    apply clean_intro; [|intros k c Hk; by apply Hget].
    intros ->. rewrite merge_entries_get by (by apply prepared_nodup). rewrite !prepared_get by done.
    rewrite (clean_normal _ _ Hc), aliases_eq. change (at_alias ["memories"]) with true. cbn [at_alias].
    rewrite move_alias_legacy by done. by apply Hc.
Qed.

(** A place that is not a domain of a permission profile: the keys there are rewritten. *)
Definition plain (path : list string) : bool := negb (is_permission_network_domains_path (take 4 path) && (4 <? length path)).

Lemma plain_at path k rest : plain (path ++ k :: rest) = true → is_permission_network_domains_path path = false.
Proof.
  destruct (is_permission_network_domains_path path) eqn:Hp; [|done].
  destruct path as [|a [|b [|c [|d [|]]]]]; try done. unfold plain. cbn [app take length]. rewrite Hp. done.
Qed.

Lemma leaf_table_nil es : leaf (TTable es) [] = None.
Proof. done. Qed.

Lemma leaf_table es k p : leaf (TTable es) (k :: p) = match index_get k es with Some c => leaf c p | None => None end.
Proof. unfold leaf. simpl. by destruct (index_get k es). Qed.

Lemma look_normalized es path k p : look (normalized_with_key_aliases (TTable es) path) (k :: p) =
  match index_get k (normalize_key_aliases path es) with
  | Some v => look (normalized_with_key_aliases v (path ++ [k])) p
  | None => None
  end.
Proof. rewrite normalized_table. cbn [look]. rewrite normalized_get. by destruct (index_get k _). Qed.

(** What is not a table says something about every place. *)
Lemma look_leaf v p : is_table v = false → ∃ x, look v p = Some x ∧ (p ≠ [] → x = None).
Proof. destruct v, p; try done; intros _; eexists; split; done. Qed.

(** The overlay decides wherever it speaks, the base elsewhere. *)
Lemma merge_look o : ∀ b path p, wf o → wf b → clean path b → plain (path ++ p) = true →
  leaf (merge_toml_values_at_path o b path) p =
    match look (normalized_with_key_aliases o path) p with Some x => x | None => leaf b p end.
Proof.
  induction o as [s|z|s|x|s|items _|es IH] using toml_ind; intros base path p Ho Hb Hc Hplain;
    try (destruct (look_leaf (normalized_with_key_aliases (TArray []) []) p) as (? & ? & ?); [done|];
         unfold leaf; cbn [merge_toml_values_at_path]; by destruct p).
  destruct (is_table base) eqn:Ht.
  - destruct base as [| | | | | |bs]; try done. rewrite merge_tables. destruct p as [|k p]; [done|].
    rewrite leaf_table, look_normalized, merge_entries_get by (apply prepared_nodup; by apply wf_table in Ho as [? _]).
    pose proof (plain_at _ _ _ Hplain) as Hp. rewrite !prepared_get, (clean_normal _ _ Hc), leaf_table by done.
    destruct (index_get k (normalize_key_aliases path es)) as [v|] eqn:Hv; [|done].
    apply index_get_in, normalize_elem in Hv as [k' Hin]. pose proof (proj1 (Forall_forall _ _) IH _ Hin) as IHv. simpl in IHv.
    apply wf_table in Ho as [_ Ho], Hb as [_ Hb]. destruct (index_get k bs) as [e|] eqn:He; [|by unfold leaf; destruct (look _ p)].
    apply IHv; [by eapply Ho|eapply Hb; by apply index_get_in|by eapply clean_child|]. by rewrite <-(assoc_L app).
  - assert (merge_toml_values_at_path (TTable es) base path = normalized_with_key_aliases (TTable es) path) as -> by (by destruct base).
    unfold leaf at 1. destruct (look (normalized_with_key_aliases (TTable es) path) p) as [x|] eqn:E; [done|].
    destruct p as [|k p]; [done|]. destruct (look_leaf base (k :: p) Ht) as (x & Hx & Hnone). unfold leaf. rewrite Hx. by rewrite Hnone.
Qed.

(** ** The effective configuration *)

(** The first layer, from the highest down, that says something about a place. *)
Fixpoint deciding (high_to_low : list ConfigLayerEntry) (p : list string) : option (ConfigLayerEntry * option TomlValue) :=
  match high_to_low with
  | [] => None
  | l :: ls =>
      match look (normalized_with_key_aliases (config l) []) p with
      | Some x => Some (l, x)
      | None => deciding ls p
      end
  end.


Lemma merge_layers_snoc ls l : merge_layers (ls ++ [l]) = merge_toml_values (merge_layers ls) (config l).
Proof. unfold merge_layers. by rewrite fold_left_app. Qed.

Lemma merge_layers_ok ls : Forall (λ l, wf (config l)) ls → wf (merge_layers ls) ∧ clean [] (merge_layers ls).
Proof.
  induction ls as [|l ls IH] using rev_ind.
  - intros _. split; [apply WfTable; [constructor|by intros ? ? ?%not_elem_of_nil]|]. by intros es ms [= <-].
  - intros [Hls Hl]%Forall_app. apply Forall_cons_1 in Hl as [Hl _]. destruct (IH Hls). rewrite merge_layers_snoc.
    apply (merge_wf_clean (config l) (merge_layers ls) []); done.
Qed.

Lemma merge_layers_look ls p : Forall (λ l, wf (config l)) ls → plain p = true →
  leaf (merge_layers ls) p = match deciding (reverse ls) p with Some (_, x) => x | None => None end.
Proof.
  intros Hls Hp. induction ls as [|l ls IH] using rev_ind; [by destruct p|].
  apply Forall_app in Hls as [Hls Hl]. apply Forall_cons_1 in Hl as [Hl _]. destruct (merge_layers_ok _ Hls).
  rewrite merge_layers_snoc, reverse_snoc. cbn [deciding]. unfold merge_toml_values. rewrite merge_look by done.
  destruct (look _ p); [done|]. by apply IH.
Qed.

(** Claim C23. The effective configuration takes every setting from the layer with the highest
    precedence that says something about it.  For each place (other than the domains of a
    permission profile, whose keys are rewritten), reading the merged configuration gives what
    the first enabled layer from the top has there, after old key names were replaced: its
    value, or nothing if that layer has a table there or a value on the way; layers below
    count only when all layers above are silent. *)
Theorem effective_by_precedence st p :
  Forall (λ l, wf (config l)) (layers st) → plain p = true →
  leaf (effective_config st) p = match deciding (layers_high_to_low st) p with Some (_, x) => x | None => None end.
Proof.
  intros Hwf Hp. apply merge_layers_look; [|done]. apply Forall_forall. intros l Hl.
  apply list_elem_of_In, filter_In in Hl as [Hl%list_elem_of_In _]. by eapply Forall_forall in Hwf.
Qed.

(** ** Origins *)


















(** ** Stacks in order *)

Definition projects (ls : list ConfigLayerEntry) : list AbsolutePathBuf :=
  omap (λ l, match name l with Project f => Some f | _ => None end) ls.

Fixpoint projects_ok (previous : option AbsolutePathBuf) (fs : list AbsolutePathBuf) : Result () LayerError :=
  match fs with
  | [] => Ok ()
  | current :: fs =>
      match previous with
      | None => projects_ok (Some current) fs
      | Some previous =>
          match parent previous with
          | None => Err ProjectWithoutParent
          | Some parent =>
              if bool_decide (previous = current) || negb (existsb (λ a, bool_decide (a = parent)) (ancestors current))
              then Err NotFromRootToCwd
              else projects_ok (Some current) fs
          end
      end
  end.

Fixpoint last_user (index : nat) (found : option nat) (ls : list ConfigLayerEntry) : option nat :=
  match ls with
  | [] => found
  | l :: ls => last_user (S index) (if is_user (name l) then Some index else found) ls
  end.

(** The check of the order of projects does not depend on the other layers. *)
Lemma verify_layers_eq ls : ∀ index found previous,
  verify_layers index found previous ls =
    match projects_ok previous (projects ls) with Ok _ => Ok (last_user index found ls) | Err e => Err e end.
Proof.
  induction ls as [|l ls IH]; intros index found previous; [done|]. cbn [verify_layers projects omap list_omap last_user].
  destruct (name l) as [| | | |f| | |] eqn:E; cbn [is_user]; try apply IH. cbn [projects_ok].
  destruct previous as [previous|]; [|apply IH]. destruct (parent previous); [|done]. destruct (_ || _); [done|apply IH].
Qed.

Lemma last_user_index_eq ls : last_user_index ls = last_user 0 None ls.
Proof.
  unfold last_user_index.
  assert (∀ index found, last_user index found ls =
    match snd <$> last (List.filter (λ '(l, _), is_user (name l)) (zip ls (seq index (length ls)))) with
    | Some n => Some n | None => found end) as ->; [|by destruct (snd <$> _)].
  induction ls as [|l ls IH]; intros index found; [done|]. cbn [last_user zip zip_with length seq List.filter].
  rewrite IH. destruct (is_user (name l)); [|done].
  destruct (List.filter _ _) as [|x xs]; [done|]. simpl. by destruct (last (x :: xs)) eqn:El; [|apply last_None in El].
Qed.

Lemma new_iff ls st : new ls = Ok st ↔
  is_sorted (name <$> ls) = true ∧ projects_ok None (projects ls) = Ok () ∧
  st = {| layers := ls; user_layer_index := last_user_index ls |}.
Proof.
  unfold new, verify_layer_ordering. rewrite verify_layers_eq, last_user_index_eq.
  destruct (is_sorted _); simpl; [|naive_solver]. destruct (projects_ok _ _) as [[]|]; simpl; naive_solver.
Qed.


Notation below := (λ a b, precedence (name a) ≤ precedence (name b))%Z.

Lemma ordered_iff ls : is_sorted (name <$> ls) = true ↔ StronglySorted below ls.
Proof.
  induction ls as [|a [|b ls] IH]; [by split; [constructor|]|by split; [repeat constructor|]|].
  rewrite StronglySorted_cons, <-IH. change (is_sorted (name <$> a :: b :: ls)) with
    ((precedence (name a) <=? precedence (name b))%Z && is_sorted (name <$> b :: ls)).
  rewrite andb_true_iff, Z.leb_le. split; [|intros [Hall ?]; split; [by inversion Hall|done]].
  intros [Hab Hs]. split; [|done]. apply IH, StronglySorted_cons in Hs as [Hb _]. constructor; [done|].
  eapply Forall_impl; [exact Hb|]. intros c. simpl. lia.
Qed.

(** Inserting and removing, entry by entry. *)
Lemma insert_layer_cons l x ls : insert_layer l (x :: ls) =
  if bool_decide (precedence (name l) < precedence (name x))%Z then l :: x :: ls else x :: insert_layer l ls.
Proof.
  unfold insert_layer, position. cbn [list_find]. destruct (decide (precedence (name l) < precedence (name x))%Z) as [Hlt|Hlt].
  - rewrite !(bool_decide_eq_true_2 _ Hlt). by case_decide.
  - rewrite !(bool_decide_eq_false_2 _ Hlt). case_decide; [done|]. by destruct (list_find _ ls) as [[n y]|].
Qed.

Lemma remove_first_cons f x ls : remove_first f (x :: ls) = if f x then ls else x :: remove_first f ls.
Proof.
  unfold remove_first, position. cbn [list_find]. destruct (f x) eqn:E; case_decide as Hd; try done.
  by destruct (list_find _ ls) as [[n y]|].
Qed.

Lemma insert_layer_elem l ls x : x ∈ insert_layer l ls → x = l ∨ x ∈ ls.
Proof.
  induction ls as [|y ls IH]; [by intros ->%list_elem_of_singleton; left|]. rewrite insert_layer_cons. case_bool_decide; set_solver.
Qed.

Lemma insert_layer_sorted l ls : StronglySorted below ls → StronglySorted below (insert_layer l ls).
Proof.
  induction ls as [|x ls IH]; [by repeat constructor|]. rewrite insert_layer_cons. intros [Hx Hs]%StronglySorted_cons.
  case_bool_decide as Hlt; rewrite !StronglySorted_cons.
  - split_and!; [|done..]. constructor; [simpl; lia|]. eapply Forall_impl; [exact Hx|]. simpl. lia.
  - split; [|by apply IH]. apply Forall_forall. intros y [->|Hy]%insert_layer_elem; [lia|]. by eapply Forall_forall in Hx.
Qed.

Lemma remove_first_elem f ls x : x ∈ remove_first f ls → x ∈ ls.
Proof. induction ls as [|y ls IH]; [done|]. rewrite remove_first_cons. destruct (f y); set_solver. Qed.

Lemma remove_first_sorted f ls : StronglySorted below ls → StronglySorted below (remove_first f ls).
Proof.
  induction ls as [|x ls IH]; [done|]. rewrite remove_first_cons. intros [Hx Hs]%StronglySorted_cons. destruct (f x); [done|].
  rewrite StronglySorted_cons. split; [|by apply IH]. apply Forall_forall. intros y Hy%remove_first_elem. by eapply Forall_forall in Hx.
Qed.

(** A filter that drops the layer does not see it come or go. *)
Lemma insert_layer_filter (f : ConfigLayerEntry → bool) l ls : f l = false → List.filter f (insert_layer l ls) = List.filter f ls.
Proof.
  intros Hl. induction ls as [|x ls IH]; [simpl; by rewrite Hl|]. rewrite insert_layer_cons.
  case_bool_decide; simpl; rewrite ?Hl; [done|]. destruct (f x); by rewrite IH.
Qed.

Lemma remove_first_filter (f g : ConfigLayerEntry → bool) ls : (∀ l, g l = true → f l = false) →
  List.filter f (remove_first g ls) = List.filter f ls.
Proof.
  intros Hg. induction ls as [|x ls IH]; [done|]. rewrite remove_first_cons. simpl.
  destruct (g x) eqn:E; [by rewrite (Hg _ E)|]. simpl. destruct (f x); by rewrite IH.
Qed.

Lemma projects_cons x ls : projects (x :: ls) = match name x with Project f => f :: projects ls | _ => projects ls end.
Proof. unfold projects. simpl. by destruct (name x). Qed.

Lemma projects_insert l ls : is_user (name l) = true → projects (insert_layer l ls) = projects ls.
Proof.
  intros Hl. assert (∀ ls, projects (l :: ls) = projects ls) as Hskip by (intros; rewrite projects_cons; by destruct (name l)).
  induction ls as [|x ls IH]; [apply Hskip|]. rewrite insert_layer_cons. case_bool_decide; [apply Hskip|].
  by rewrite !projects_cons, IH.
Qed.

Lemma projects_remove f ls : (∀ l, f l = true → is_user (name l) = true) → projects (remove_first f ls) = projects ls.
Proof.
  intros Hf. induction ls as [|x ls IH]; [done|]. rewrite remove_first_cons.
  destruct (f x) eqn:E; rewrite !projects_cons; [specialize (Hf _ E); by destruct (name x)|]. by rewrite IH.
Qed.

Lemma is_user_file_user file l : is_user_file file l = true → is_user (name l) = true.
Proof. unfold is_user_file. by destruct (name l). Qed.

Lemma filter_remove_first f ls : List.filter f (remove_first f ls) = tail (List.filter f ls).
Proof.
  induction ls as [|x ls IH]; [done|]. rewrite remove_first_cons. simpl. destruct (f x) eqn:E; [done|]. simpl. by rewrite E.
Qed.

Lemma filter_insert_alone (f : ConfigLayerEntry → bool) l ls : f l = true → List.filter f ls = [] → List.filter f (insert_layer l ls) = [l].
Proof.
  intros Hl. induction ls as [|x ls IH]; [simpl; by rewrite Hl|]. rewrite insert_layer_cons. simpl.
  destruct (f x) eqn:E; [done|]. intros Hf. case_bool_decide; simpl; rewrite ?Hl, E; [by rewrite Hf|by apply IH].
Qed.

Lemma other_stack_valid ls ls' st : new ls = Ok st → StronglySorted below ls' → projects ls' = projects ls →
  new ls' = Ok {| layers := ls'; user_layer_index := last_user_index ls' |}.
Proof. intros (_ & Hp & _)%new_iff Hs Hprojects. apply new_iff. split_and!; [by apply ordered_iff|by rewrite Hprojects|done]. Qed.

(** Saving the user's configuration replaces the user's layer and nothing else.  From a
    stack whose layers are in order, [with_user_config] gives a stack that passes the same
    check, with the index of its highest user layer; all other layers are as they were, in
    their order; and if the stack had at most one layer for the file it has exactly one
    afterwards, enabled and with the new configuration, and of the same profile. *)
Theorem user_config_replaced `{Fingerprint} ls st file cfg : new ls = Ok st →
  let st' := with_user_config st file cfg in
  new (layers st') = Ok st' ∧
  List.filter (λ l, negb (is_user_file file l)) (layers st') = List.filter (λ l, negb (is_user_file file l)) (layers st) ∧
  match List.filter (is_user_file file) (layers st) with
  | [] => List.filter (is_user_file file) (layers st') = [new_entry (User file None) cfg]
  | [old] => ∀ profile, name old = User file profile → profile ≫= profile_name = profile →
      List.filter (is_user_file file) (layers st') = [new_entry (User file profile) cfg]
  | _ => True
  end.
Proof.
  intros Hnew. pose proof Hnew as (Hs%ordered_iff & Hp & ->)%new_iff. unfold with_user_config. cbn [layers].
  set (saved := head _). set (entry := new_entry (User file saved) cfg).
  assert (is_user_file file entry = true) as Hentry by (by apply bool_decide_eq_true).
  split_and!; cbn [layers with_user_config_profile].
  - eapply other_stack_valid; [done|by apply insert_layer_sorted, remove_first_sorted|].
    rewrite projects_insert by done. apply projects_remove, is_user_file_user.
  - rewrite insert_layer_filter by (by fold entry; rewrite Hentry). apply remove_first_filter. by intros l ->.
  - assert (saved = head (omap (λ l, match name l with User _ profile => profile ≫= profile_name | _ => None end)
      (List.filter (is_user_file file) ls))) as Hsaved.
    { unfold saved. f_equal. clear. induction ls as [|l ls IH]; [done|]. simpl. unfold is_user_file at 1.
      destruct (name l) eqn:E; simpl; try done. case_bool_decide; simpl; rewrite ?E; [by destruct (_ ≫= _); [f_equal|]|done]. }
    pose proof (filter_remove_first (is_user_file file) ls) as Hrest.
    destruct (List.filter (is_user_file file) ls) as [|old [|]]; simpl in Hsaved; [| |done].
    + rewrite Hsaved in *. by apply filter_insert_alone.
    + intros profile Hold Hprofile. rewrite Hold, Hprofile in Hsaved.
      assert (saved = profile) as -> by (by destruct profile). by apply filter_insert_alone.
Qed.

(** ** A concrete stack *)

Fixpoint wfb (v : TomlValue) : bool :=
  match v with
  | TTable entries => bool_decide (NoDup entries.*1) && List.forallb (λ '(_, c), wfb c) entries
  | TArray items => List.forallb wfb items
  | _ => true
  end.

Lemma wfb_wf v : wfb v = true → wf v.
Proof.
  induction v as [| | | | |items IH|entries IH] using toml_ind; simpl; try (intros _; by apply WfLeaf).
  - intros Hall. constructor. intros v Hv. eapply Forall_forall in IH; [|done]. apply IH.
    eapply forallb_forall in Hall; [done|]. by apply list_elem_of_In.
  - intros [Hnd%bool_decide_eq_true Hall]%andb_true_iff. constructor; [done|]. intros k v Hv.
    pose proof (proj1 (Forall_forall _ _) IH _ Hv) as Hw. apply Hw.
    eapply forallb_forall in Hall; [|by apply list_elem_of_In in Hv]. done.
Qed.



Module Layered.
#[export] Instance constant : Fingerprint := λ _, "sha256:0".

Definition path_of (ns : list string) : AbsolutePathBuf := {| rooted := true; names := ns |}.
Definition user_file : AbsolutePathBuf := path_of ["home"; "config.toml"].

Definition system_layer : ConfigLayerEntry :=
  new_entry (System (path_of ["etc"; "config.toml"]))
    (TTable [("model", TString "base"); ("memories", TTable [("disable_on_external_context", TBoolean false)])]).
Definition user_layer : ConfigLayerEntry :=
  new_entry (User user_file None)
    (TTable [("memories", TTable [("no_memories_if_mcp_or_web_search", TBoolean true)])]).
Definition flags_layer : ConfigLayerEntry :=
  new_entry SessionFlags (build_cli_overrides_layer [("model", TString "flag"); ("tools.web", TBoolean true)]).

Definition layers : list ConfigLayerEntry := [system_layer; user_layer; flags_layer].
Definition stack : ConfigLayerStack := {| ConfigLayers.layers := layers; user_layer_index := Some 1 |}.

(** The old name of a key in a higher layer wins over the new one in a lower layer. *)
Definition memory_key : list string := ["memories"; "disable_on_external_context"].

Lemma effective_by_precedence_witness :
  leaf (effective_config stack) memory_key = Some (TBoolean true) ∧
  leaf (effective_config stack) memory_key =
    match deciding (layers_high_to_low stack) memory_key with Some (_, x) => x | None => None end.
Proof.
  split; [vm_refl|]. apply effective_by_precedence; [|vm_refl].
  repeat (constructor; [apply wfb_wf; vm_refl|]). constructor.
Defined.


Lemma user_config_replaced_witness :
  List.filter (is_user_file user_file) (ConfigLayers.layers (with_user_config stack user_file (TTable []))) =
    [new_entry (User user_file None) (TTable [])].
Proof.
  assert (new layers = Ok stack) as Hnew by vm_refl.
  destruct (user_config_replaced layers stack user_file (TTable []) Hnew) as (_ & _ & Hone). by apply (Hone None).
Defined.

(** ** Behaviour worth knowing *)

Definition domain_layer (source : ConfigLayerSource) (host : string) (access : string) : ConfigLayerEntry :=
  new_entry source
    (TTable [("permissions", TTable [("dev", TTable [("network", TTable [("domains", TTable [(host, TString access)])])])])]).

Definition domain_path (host : string) : list string := ["permissions"; "dev"; "network"; "domains"; host].

(** Domains of two layers meet under the normalised host, but the origins keep the spelling
    of the layers: the value that holds has no origin, and one that does not hold has one. *)
Example domain_origin_lost :
  let st := {| ConfigLayers.layers := [domain_layer (System (path_of [])) "Example.com" "allow";
                                       domain_layer SessionFlags "EXAMPLE.com" "deny"]; user_layer_index := None |} in
  leaf (effective_config st) (domain_path "example.com") = Some (TString "deny") ∧
  origins st !! join "." (domain_path "example.com") = None ∧
  leaf (effective_config st) (domain_path "Example.com") = None ∧
  (metadata_name <$> origins st !! join "." (domain_path "Example.com")) = Some (System (path_of [])).
Proof. split_and!; vm_refl. Qed.

(** A value that a higher layer replaces by a table keeps its entry among the origins. *)
Example stale_origin :
  let st := {| ConfigLayers.layers := [new_entry (System (path_of [])) (TTable [("tools", TBoolean true)]);
                                       new_entry SessionFlags (TTable [("tools", TTable [("web", TBoolean true)])])];
               user_layer_index := None |} in
  leaf (effective_config st) ["tools"] = None ∧ (metadata_name <$> origins st !! "tools") = Some (System (path_of [])).
Proof. split; vm_refl. Qed.
End Layered.
