(* ===== verification/Requirements.v ===== *)
(** * Managed requirements

    codex-rs/config: constraint.rs, config_requirements.rs (what it composes and enforces),
    requirements_exec_policy.rs, the files of requirements_layers/ and the hook types of
    hook_config.rs that these merge.

    An administrator delivers layers of requirements; they are composed into one set, which
    becomes validators on the settings of a session.  Parsing TOML text and serde's derived
    deserialisers are the parameter [RequirementsSerde]; the matcher of host names (wildmatch)
    is the parameter [wild_match].  Errors do not carry the debug texts of values. *)

From stdpp Require Import base gmap list strings.
From S2P Require Import Prelude Str BTree AbsPath ExecPolicy Permissions ApprovalPolicy HostPolicy ConfigLayers.

(** ** Where a requirement comes from *)

Inductive RequirementSource :=
| UnknownSource
| MdmManagedPreferences (domain key : string)
| Composite (sources : list RequirementSource)
| EnterpriseSource (id name : string)
| SystemRequirementsToml (file : AbsolutePathBuf)
| LegacyManagedFile (file : AbsolutePathBuf)
| LegacyManagedMdm.

Fixpoint source_eqb (a b : RequirementSource) {struct a} : bool :=
  match a, b with
  | UnknownSource, UnknownSource | LegacyManagedMdm, LegacyManagedMdm => true
  | MdmManagedPreferences d k, MdmManagedPreferences d' k' => str_eqb d d' && str_eqb k k'
  | Composite ss, Composite ss' =>
      (fix go (l l' : list RequirementSource) : bool :=
         match l, l' with
         | [], [] => true
         | x :: l, y :: l' => source_eqb x y && go l l'
         | _, _ => false
         end) ss ss'
  | EnterpriseSource i n, EnterpriseSource i' n' => str_eqb i i' && str_eqb n n'
  | SystemRequirementsToml f, SystemRequirementsToml f' | LegacyManagedFile f, LegacyManagedFile f' => bool_decide (f = f')
  | _, _ => false
  end.

Fixpoint append_to_composite (source : RequirementSource) (flattened : list RequirementSource) {struct source} :
    list RequirementSource :=
  match source with
  | Composite sources => fold_left (λ flattened s, append_to_composite s flattened) sources flattened
  | _ => if existsb (source_eqb source) flattened then flattened else flattened ++ [source]
  end.

Definition composite (sources : list RequirementSource) : RequirementSource :=
  match fold_left (λ flattened s, append_to_composite s flattened) sources [] with
  | [] => UnknownSource
  | [source] => source
  | flattened => Composite flattened
  end.

Definition merge_output_source (existing incoming : RequirementSource) : RequirementSource :=
  if source_eqb existing incoming then existing else composite [existing; incoming].

Record Sourced (A : Type) := { sourced_value : A; source : RequirementSource }.
Arguments sourced_value {A}.
Arguments source {A}.

Definition with_source {A} (value : A) (s : RequirementSource) : Sourced A := {| sourced_value := value; source := s |}.

(** ** Constrained values (constraint.rs) *)

Inductive ConstraintError :=
| InvalidValue (field_name : string) (requirement_source : RequirementSource)
| EmptyField (field_name : string)
| ExecPolicyParse (requirement_source : RequirementSource).

Section constrained.
Context {T : Type}.

Record Constrained := {
  value : T;
  validator : T → Result () ConstraintError;
  normalizer : option (T → T);
}.

Definition constrained_new (initial_value : T) (validator : T → Result () ConstraintError) :
    Result Constrained ConstraintError :=
  let? _ := validator initial_value in
  Ok {| value := initial_value; validator := validator; normalizer := None |}.

Definition normalized (initial_value : T) (normalizer : T → T) : Result Constrained ConstraintError :=
  let validator := λ _ : T, Ok () in
  let normalized := normalizer initial_value in
  let? _ := validator normalized in
  Ok {| value := normalized; validator := validator; normalizer := Some normalizer |}.

Definition allow_any (initial_value : T) : Constrained :=
  {| value := initial_value; validator := λ _, Ok (); normalizer := None |}.

Definition allow_only `{EqDecision T} (only_value : T) : Constrained :=
  {| value := only_value;
     validator := λ candidate, if decide (candidate = only_value) then Ok () else Err (InvalidValue "<unknown>" UnknownSource);
     normalizer := None |}.

Definition can_set (c : Constrained) (candidate : T) : Result () ConstraintError := validator c candidate.

Definition add_validator (c : Constrained) (additional : T → Result () ConstraintError) : Result Constrained ConstraintError :=
  let combined_validator := λ candidate, let? _ := validator c candidate in additional candidate in
  let? _ := combined_validator (value c) in
  Ok {| value := value c; validator := combined_validator; normalizer := normalizer c |}.

Definition set (c : Constrained) (v : T) : Result Constrained ConstraintError :=
  let v := match normalizer c with Some normalizer => normalizer v | None => v end in
  let? _ := validator c v in
  Ok {| value := v; validator := validator c; normalizer := normalizer c |}.
End constrained.
Arguments Constrained : clear implicits.

Record ConstrainedWithSource (T : Type) := { constrained : Constrained T; constraint_source : option RequirementSource }.
Arguments constrained {T}.
Arguments constraint_source {T}.

(** ** Command rules (requirements_exec_policy.rs) *)

Record RequirementsExecPolicyPatternTokenToml := { token : option string; any_of : option (list string) }.

Inductive RequirementsExecPolicyDecisionToml := TomlAllow | TomlPrompt | TomlForbidden.

Definition as_decision (d : RequirementsExecPolicyDecisionToml) : Decision :=
  match d with TomlAllow => Allow | TomlPrompt => Prompt | TomlForbidden => Forbidden end.

Record RequirementsExecPolicyPrefixRuleToml := {
  toml_pattern : list RequirementsExecPolicyPatternTokenToml;
  toml_decision : option RequirementsExecPolicyDecisionToml;
  toml_justification : option string;
}.

Record RequirementsExecPolicyToml := { prefix_rules : list RequirementsExecPolicyPrefixRuleToml }.

Inductive RequirementsExecPolicyParseError :=
| EmptyPrefixRules
| EmptyPattern (rule_index : nat)
| InvalidPatternToken (rule_index token_index : nat) (reason : string)
| EmptyJustification (rule_index : nat)
| MissingDecision (rule_index : nat)
| AllowDecisionNotAllowed (rule_index : nat).

Definition parse_pattern_token (t : RequirementsExecPolicyPatternTokenToml) (rule_index token_index : nat) :
    Result PatternToken RequirementsExecPolicyParseError :=
  let invalid reason := Err (InvalidPatternToken rule_index token_index reason) in
  match token t, any_of t with
  | Some single, None =>
      if str_is_empty (trim single) then invalid "token cannot be empty" else Ok (Single single)
  | None, Some alternatives =>
      match alternatives with
      | [] => invalid "any_of cannot be empty"
      | _ => if existsb (λ alt, str_is_empty (trim alt)) alternatives
             then invalid "any_of cannot include empty tokens" else Ok (Alts alternatives)
      end
  | Some _, Some _ => invalid "set either token or any_of, not both"
  | None, None => invalid "set either token or any_of"
  end.

(** The tokens from index [token_index] on. *)
Fixpoint parse_pattern_tokens (rule_index token_index : nat) (ts : list RequirementsExecPolicyPatternTokenToml) :
    Result (list PatternToken) RequirementsExecPolicyParseError :=
  match ts with
  | [] => Ok []
  | t :: ts =>
      let? p := parse_pattern_token t rule_index token_index in
      let? ps := parse_pattern_tokens rule_index (S token_index) ts in
      Ok (p :: ps)
  end.

(** One rule: its tokens, its decision. *)
Definition parse_prefix_rule (rule_index : nat) (rule : RequirementsExecPolicyPrefixRuleToml) :
    Result (PatternToken * list PatternToken * Decision) RequirementsExecPolicyParseError :=
  if blank (toml_justification rule) then Err (EmptyJustification rule_index)
  else if bool_decide (toml_pattern rule = []) then Err (EmptyPattern rule_index)
  else
    let? pattern_tokens := parse_pattern_tokens rule_index 0 (toml_pattern rule) in
    let? d := match toml_decision rule with
              | Some TomlAllow => Err (AllowDecisionNotAllowed rule_index)
              | Some d => Ok (as_decision d)
              | None => Err (MissingDecision rule_index)
              end in
    match pattern_tokens with
    | [] => Err (EmptyPattern rule_index)
    | first_token :: remaining_tokens => Ok (first_token, remaining_tokens, d)
    end.

(** The rule for one alternative of the first token. *)
Definition head_rule (remaining_tokens : list PatternToken) (d : Decision) (justification : option string) (head : string) : PrefixRule :=
  {| pattern := {| first := head; rest := remaining_tokens |}; rule_decision := d; rule_justification := justification |}.

Fixpoint insert_prefix_rules (rule_index : nat) (rs : list RequirementsExecPolicyPrefixRuleToml)
    (rules_by_program : gmap string (list PrefixRule)) :
    Result (gmap string (list PrefixRule)) RequirementsExecPolicyParseError :=
  match rs with
  | [] => Ok rules_by_program
  | rule :: rs =>
      let? '(first_token, remaining_tokens, d) := parse_prefix_rule rule_index rule in
      insert_prefix_rules (S rule_index) rs
        (fold_left (λ m head, multi_insert head (head_rule remaining_tokens d (toml_justification rule) head) m)
           (alternatives_of first_token) rules_by_program)
  end.

Definition to_policy (toml : RequirementsExecPolicyToml) : Result Policy RequirementsExecPolicyParseError :=
  match prefix_rules toml with
  | [] => Err EmptyPrefixRules
  | rs => let? rules_by_program := insert_prefix_rules 0 rs ∅ in Ok (set_rules rules_by_program empty_policy)
  end.

(** ** Hooks (hook_config.rs) *)

Inductive HookHandlerConfig :=
| HookCommand (command : string) (command_windows : option string) (timeout_sec : option N) (async : bool)
    (status_message : option string)
| HookPrompt
| HookAgent.

Record MatcherGroup := { matcher : option string; group_hooks : list HookHandlerConfig }.

(** The ten lists of [HookEventsToml], by event. *)
Inductive HookEventName :=
| PreToolUse | PermissionRequest | PostToolUse | PreCompact | PostCompact
| SessionStart | UserPromptSubmit | SubagentStart | SubagentStop | Stop.

Definition hook_event_names : list HookEventName :=
  [PreToolUse; PermissionRequest; PostToolUse; PreCompact; PostCompact;
   SessionStart; UserPromptSubmit; SubagentStart; SubagentStop; Stop].

Definition HookEventsToml : Type := HookEventName → list MatcherGroup.

Definition events_is_empty (h : HookEventsToml) : bool :=
  forallb (λ n, match h n with [] => true | _ => false end) hook_event_names.

Definition handler_count (h : HookEventsToml) : nat :=
  sum_list_with (λ n, sum_list_with (λ g, length (group_hooks g)) (h n)) hook_event_names.

Record ManagedHooksRequirementsToml := {
  managed_dir : option string;
  windows_managed_dir : option string;
  hook_events : HookEventsToml;
}.

Definition hooks_is_empty (h : ManagedHooksRequirementsToml) : bool :=
  negb (bool_decide (is_Some (managed_dir h))) && negb (bool_decide (is_Some (windows_managed_dir h)))
  && events_is_empty (hook_events h).

(** ** Apps *)

Inductive AppToolApproval := AppAuto | AppPrompt | AppApprove.
Record AppToolRequirementToml := { approval_mode : option AppToolApproval }.
Record AppRequirementToml := { enabled : option bool; tools : option (gmap string AppToolRequirementToml) }.
Notation AppsRequirementsToml := (gmap string AppRequirementToml).

Definition app_tool_is_empty (t : AppToolRequirementToml) : bool := if approval_mode t then false else true.
Definition app_tools_is_empty (ts : gmap string AppToolRequirementToml) : bool :=
  forallb (λ '(_, t), app_tool_is_empty t) (map_to_list ts).
Definition app_is_empty (a : AppRequirementToml) : bool :=
  match enabled a with Some _ => false | None => match tools a with Some ts => app_tools_is_empty ts | None => true end end.
Definition apps_is_empty (apps : AppsRequirementsToml) : bool := forallb (λ '(_, a), app_is_empty a) (map_to_list apps).

(** The entries of the incoming map are taken one by one; each touches its own key. *)
Definition merge_app_tools (base incoming : gmap string AppToolRequirementToml) : gmap string AppToolRequirementToml :=
  union_with (λ b i, Some {| approval_mode := match approval_mode b with Some m => Some m | None => approval_mode i end |})
    base incoming.

Definition merge_app (base incoming : AppRequirementToml) : AppRequirementToml :=
  {| enabled :=
       match enabled base, enabled incoming with
       | Some false, _ | _, Some false => Some false
       | Some b, _ => Some b
       | None, lower => lower
       end;
     tools :=
       match tools incoming with
       | None => tools base
       | Some incoming_tools => Some (merge_app_tools (default ∅ (tools base)) incoming_tools)
       end |}.

Definition merge_app_requirements_descending (base incoming : AppsRequirementsToml) : AppsRequirementsToml :=
  union_with (λ b i, Some (merge_app b i)) base ((λ i, merge_app {| enabled := None; tools := None |} i) <$> incoming).

(** ** Network and file system *)

Inductive NetworkDomainPermissionToml := DomainAllow | DomainDeny.
Inductive NetworkUnixSocketPermissionToml := SocketAllow | SocketDeny.
Notation NetworkDomainPermissionsToml := (gmap string NetworkDomainPermissionToml).
Notation NetworkUnixSocketPermissionsToml := (gmap string NetworkUnixSocketPermissionToml).

Record NetworkRequirementsToml := {
  net_enabled : option bool;
  http_port : option N;
  socks_port : option N;
  allow_upstream_proxy : option bool;
  dangerously_allow_non_loopback_proxy : option bool;
  dangerously_allow_all_unix_sockets : option bool;
  domains : option NetworkDomainPermissionsToml;
  managed_allowed_domains_only : option bool;
  unix_sockets : option NetworkUnixSocketPermissionsToml;
  allow_local_binding : option bool;
}.

(** [NetworkConstraints::from] copies every field. *)
Notation NetworkConstraints := NetworkRequirementsToml.

Definition legacy_domain_permissions_from_lists (allowed_domains denied_domains : option (list string)) :
    option NetworkDomainPermissionsToml :=
  let entries := fold_left (λ m p, <[p := DomainAllow]> m) (default [] allowed_domains) ∅ in
  let entries := fold_left (λ m p, <[p := DomainDeny]> m) (default [] denied_domains) entries in
  if decide (entries = ∅) then None else Some entries.

Definition legacy_unix_socket_permissions_from_list (allow_unix_sockets : option (list string)) :
    option NetworkUnixSocketPermissionsToml :=
  let entries := list_to_map ((λ path, (path, SocketAllow)) <$> default [] allow_unix_sockets) : NetworkUnixSocketPermissionsToml in
  if decide (map_to_list entries = []) then None else Some entries.

(** A pattern is its normalised text. *)
Record FilesystemRequirementsToml := { deny_read : option (list string) }.

(** Profiles keep their TOML. *)
Record PermissionsRequirementsToml := {
  filesystem : option FilesystemRequirementsToml;
  profiles : gmap string TomlValue;
}.

Definition filesystem_constraints (p : PermissionsRequirementsToml) : list string :=
  default [] (filesystem p ≫= deny_read).

(** ** How a raw table becomes requirements *)

(** [RawNetworkRequirementsToml]: the lists of older files beside the fields. *)
Record RawNetworkRequirementsToml := {
  raw_network : NetworkRequirementsToml;
  raw_allowed_domains : option (list string);
  raw_denied_domains : option (list string);
  raw_allow_unix_sockets : option (list string);
}.

Definition network_of_raw (raw : RawNetworkRequirementsToml) : Result NetworkRequirementsToml string :=
  let n := raw_network raw in
  match domains n, raw_allowed_domains raw, raw_denied_domains raw with
  | Some _, Some _, _ | Some _, _, Some _ =>
      Err "`experimental_network.domains` cannot be combined with legacy `allowed_domains` or `denied_domains`"
  | _, _, _ =>
      match unix_sockets n, raw_allow_unix_sockets raw with
      | Some _, Some _ => Err "`experimental_network.unix_sockets` cannot be combined with legacy `allow_unix_sockets`"
      | _, _ =>
          Ok {| net_enabled := net_enabled n; http_port := http_port n; socks_port := socks_port n;
                allow_upstream_proxy := allow_upstream_proxy n;
                dangerously_allow_non_loopback_proxy := dangerously_allow_non_loopback_proxy n;
                dangerously_allow_all_unix_sockets := dangerously_allow_all_unix_sockets n;
                domains := match domains n with
                           | Some d => Some d
                           | None => legacy_domain_permissions_from_lists (raw_allowed_domains raw) (raw_denied_domains raw)
                           end;
                managed_allowed_domains_only := managed_allowed_domains_only n;
                unix_sockets := match unix_sockets n with
                                | Some u => Some u
                                | None => legacy_unix_socket_permissions_from_list (raw_allow_unix_sockets raw)
                                end;
                allow_local_binding := allow_local_binding n |}
      end
  end.

Definition is_glob_metacharacter (c : ascii) : bool :=
  Ascii.eqb c "*" || Ascii.eqb c "?" || Ascii.eqb c "[".

Definition contains_glob (pattern : string) : bool := existsb is_glob_metacharacter (as_bytes pattern).

(** The last position before [n] of a path separator. *)
Fixpoint last_separator (n : nat) (bytes : list ascii) : option nat :=
  match n with
  | 0 => None
  | S n => if bool_decide (bytes !! n = Some slash) then Some n else last_separator n bytes
  end.

Definition split_glob_pattern (input : string) : string * string :=
  let bytes := as_bytes input in
  match list_find (λ c, is_glob_metacharacter c = true) bytes with
  | None => (EmptyString, input)
  | Some (first_glob, _) =>
      match last_separator first_glob bytes with
      | Some 0 => ("/", of_bytes (drop 1 bytes))
      | Some index => (of_bytes (take index bytes), of_bytes (drop (index + 1) bytes))
      | None => (EmptyString, input)
      end
  end.

(** [AbsolutePathBuf::deserialize]; [base] is the directory of the layer, if one is set. *)
Definition deserialize_absolute_path `{PathEnv} (base : option AbsolutePathBuf) (input : string) : option AbsolutePathBuf :=
  match base with
  | Some base => Some (resolve_path_against_base input (path_text base))
  | None => if is_absolute input then from_absolute_path input else None
  end.

(** [FilesystemDenyReadPattern::from_input]; the message of the error is left out. *)
Definition from_input `{PathEnv} (base : option AbsolutePathBuf) (input : string) : option string :=
  if contains_glob input then
    let '(directory_prefix, suffix) := split_glob_pattern input in
    normalized_prefix ← deserialize_absolute_path base (if str_is_empty directory_prefix then "." else directory_prefix);
    let normalized_prefix := path_text normalized_prefix in
    Some (if str_is_empty suffix then normalized_prefix
          else if str_eqb normalized_prefix "/" then "/" +:+ suffix
          else normalized_prefix +:+ "/" +:+ suffix)
  else path_text <$> deserialize_absolute_path base input.

(** [RawFilesystemRequirementsToml]: whether the keys of a profile are there. *)
Record RawFilesystemRequirementsToml := {
  raw_deny_read : option (list string);
  raw_description : bool;
  raw_extends : bool;
  raw_workspace_roots : bool;
  raw_filesystem : bool;
  raw_network_key : bool;
}.

Definition filesystem_of_raw (raw : RawFilesystemRequirementsToml) : Result FilesystemRequirementsToml string :=
  if raw_description raw || raw_extends raw || raw_workspace_roots raw || raw_filesystem raw || raw_network_key raw then
    Err "`permissions.filesystem` is reserved for requirements-level filesystem constraints and cannot define a profile"
  else Ok {| deny_read := raw_deny_read raw |}.

(** ** The requirements *)

Inductive ApprovalsReviewer := ReviewUser | AutoReview.
Inductive SandboxModeRequirement := ModeReadOnly | ModeWorkspaceWrite | ModeDangerFullAccess | ModeExternalSandbox.
Inductive WebSearchMode := SearchDisabled | SearchCached | SearchIndexed | SearchLive.
Inductive WindowsSandboxModeToml := Elevated | Unelevated.
Inductive ResidencyRequirement := Us.

#[export] Instance granular_eq_dec : EqDecision GranularApprovalConfig.
Proof. solve_decision. Defined.
#[export] Instance ask_eq_dec : EqDecision AskForApproval.
Proof. solve_decision. Defined.
#[export] Instance reviewer_eq_dec : EqDecision ApprovalsReviewer.
Proof. solve_decision. Defined.
#[export] Instance mode_eq_dec : EqDecision SandboxModeRequirement.
Proof. solve_decision. Defined.
#[export] Instance search_eq_dec : EqDecision WebSearchMode.
Proof. solve_decision. Defined.
#[export] Instance windows_mode_eq_dec : EqDecision WindowsSandboxModeToml.
Proof. solve_decision. Defined.
#[export] Instance residency_eq_dec : EqDecision ResidencyRequirement.
Proof. solve_decision. Defined.

Inductive McpServerIdentity := McpCommand (command : string) | McpUrl (url : string).
Record PluginRequirementsToml := { plugin_mcp_servers : option (gmap string McpServerIdentity) }.
Definition plugin_is_empty (p : PluginRequirementsToml) : bool :=
  match plugin_mcp_servers p with Some m => match map_to_list m with [] => true | _ => false end | None => true end.

Record RemoteSandboxConfigToml := { hostname_patterns : list string; remote_sandbox_modes : list SandboxModeRequirement }.

(** The fields of [ConfigRequirementsToml] ([F] is [option]) and of
    [ConfigRequirementsWithSources] ([F] is an option of a sourced value). *)
Record RequirementFields (F : Type → Type) := {
  allowed_approval_policies : F (list AskForApproval);
  allowed_approvals_reviewers : F (list ApprovalsReviewer);
  allowed_sandbox_modes : F (list SandboxModeRequirement);
  allowed_permission_profiles : F (gmap string bool);
  default_permissions : F string;
  allowed_web_search_modes : F (list WebSearchMode);
  allow_managed_hooks_only : F bool;
  allow_appshots : F bool;
  allow_remote_control : F bool;
  computer_use : F (option bool);
  windows : F (option (list WindowsSandboxModeToml));
  feature_requirements : F (gmap string bool);
  hooks : F ManagedHooksRequirementsToml;
  mcp_servers : F (gmap string McpServerIdentity);
  plugins : F (gmap string PluginRequirementsToml);
  apps : F AppsRequirementsToml;
  rules : F RequirementsExecPolicyToml;
  enforce_residency : F ResidencyRequirement;
  network : F NetworkRequirementsToml;
  permissions : F PermissionsRequirementsToml;
  guardian_policy_config : F string;
}.
Arguments allowed_approval_policies {F}.
Arguments allowed_approvals_reviewers {F}.
Arguments allowed_sandbox_modes {F}.
Arguments allowed_permission_profiles {F}.
Arguments default_permissions {F}.
Arguments allowed_web_search_modes {F}.
Arguments allow_managed_hooks_only {F}.
Arguments allow_appshots {F}.
Arguments allow_remote_control {F}.
Arguments computer_use {F}.
Arguments windows {F}.
Arguments feature_requirements {F}.
Arguments hooks {F}.
Arguments mcp_servers {F}.
Arguments plugins {F}.
Arguments apps {F}.
Arguments rules {F}.
Arguments enforce_residency {F}.
Arguments network {F}.
Arguments permissions {F}.
Arguments guardian_policy_config {F}.

Record ConfigRequirementsToml := {
  fields : RequirementFields option;
  remote_sandbox_config : option (list RemoteSandboxConfigToml);
}.

Notation SourcedField := (λ A, option (Sourced A)).
Notation ConfigRequirementsWithSources := (RequirementFields SourcedField).

Definition no_requirements : ConfigRequirementsWithSources :=
  {| allowed_approval_policies := None; allowed_approvals_reviewers := None; allowed_sandbox_modes := None;
     allowed_permission_profiles := None; default_permissions := None; allowed_web_search_modes := None;
     allow_managed_hooks_only := None; allow_appshots := None; allow_remote_control := None; computer_use := None;
     windows := None; feature_requirements := None; hooks := None; mcp_servers := None; plugins := None; apps := None;
     rules := None; enforce_residency := None; network := None; permissions := None; guardian_policy_config := None |}.

Definition into_toml (r : ConfigRequirementsWithSources) : ConfigRequirementsToml :=
  {| fields :=
       {| allowed_approval_policies := sourced_value <$> allowed_approval_policies r;
          allowed_approvals_reviewers := sourced_value <$> allowed_approvals_reviewers r;
          allowed_sandbox_modes := sourced_value <$> allowed_sandbox_modes r;
          allowed_permission_profiles := sourced_value <$> allowed_permission_profiles r;
          default_permissions := sourced_value <$> default_permissions r;
          allowed_web_search_modes := sourced_value <$> allowed_web_search_modes r;
          allow_managed_hooks_only := sourced_value <$> allow_managed_hooks_only r;
          allow_appshots := sourced_value <$> allow_appshots r;
          allow_remote_control := sourced_value <$> allow_remote_control r;
          computer_use := sourced_value <$> computer_use r;
          windows := sourced_value <$> windows r;
          feature_requirements := sourced_value <$> feature_requirements r;
          hooks := sourced_value <$> hooks r;
          mcp_servers := sourced_value <$> mcp_servers r;
          plugins := sourced_value <$> plugins r;
          apps := sourced_value <$> apps r;
          rules := sourced_value <$> rules r;
          enforce_residency := sourced_value <$> enforce_residency r;
          network := sourced_value <$> network r;
          permissions := sourced_value <$> permissions r;
          guardian_policy_config := sourced_value <$> guardian_policy_config r |};
     remote_sandbox_config := None |}.

Definition is_none {A} (o : option A) : bool := match o with None => true | Some _ => false end.
Definition is_none_or {A} (o : option A) (f : A → bool) : bool := match o with None => true | Some a => f a end.

Definition requirements_is_empty (t : ConfigRequirementsToml) : bool :=
  let r := fields t in
  is_none (allowed_approval_policies r) && is_none (allowed_approvals_reviewers r) && is_none (allowed_sandbox_modes r)
  && is_none (allowed_permission_profiles r) && is_none (default_permissions r) && is_none (remote_sandbox_config t)
  && is_none (allowed_web_search_modes r) && is_none (allow_managed_hooks_only r) && is_none (allow_appshots r)
  && is_none (allow_remote_control r) && is_none_or (computer_use r) is_none && is_none_or (windows r) is_none
  && is_none_or (feature_requirements r) (λ m, match map_to_list m with [] => true | _ => false end)
  && is_none_or (hooks r) hooks_is_empty && is_none (mcp_servers r)
  && is_none_or (plugins r) (λ m, forallb (λ '(_, p), plugin_is_empty p) (map_to_list m))
  && is_none_or (apps r) apps_is_empty && is_none (rules r) && is_none (enforce_residency r) && is_none (network r)
  && is_none (permissions r) && is_none_or (guardian_policy_config r) (λ v, str_is_empty (trim v)).

(** [fill_missing_take!] *)
Definition fill {A} (s : RequirementSource) (base : option (Sourced A)) (other : option A) : option (Sourced A) :=
  match base with Some _ => base | None => (λ v, with_source v s) <$> other end.

Definition merge_unset_fields (self : ConfigRequirementsWithSources) (s : RequirementSource) (other : ConfigRequirementsToml) :
    ConfigRequirementsWithSources :=
  let o := fields other in
  {| allowed_approval_policies := fill s (allowed_approval_policies self) (allowed_approval_policies o);
     allowed_approvals_reviewers := fill s (allowed_approvals_reviewers self) (allowed_approvals_reviewers o);
     allowed_sandbox_modes := fill s (allowed_sandbox_modes self) (allowed_sandbox_modes o);
     allowed_permission_profiles := fill s (allowed_permission_profiles self) (allowed_permission_profiles o);
     default_permissions := fill s (default_permissions self) (default_permissions o);
     allowed_web_search_modes := fill s (allowed_web_search_modes self) (allowed_web_search_modes o);
     allow_managed_hooks_only := fill s (allow_managed_hooks_only self) (allow_managed_hooks_only o);
     allow_appshots := fill s (allow_appshots self) (allow_appshots o);
     allow_remote_control := fill s (allow_remote_control self) (allow_remote_control o);
     computer_use := fill s (computer_use self) (computer_use o);
     windows := fill s (windows self) (windows o);
     feature_requirements := fill s (feature_requirements self) (feature_requirements o);
     hooks := fill s (hooks self) (hooks o);
     mcp_servers := fill s (mcp_servers self) (mcp_servers o);
     plugins := fill s (plugins self) (plugins o);
     apps := match apps o, apps self with
             | None, existing => existing
             | Some incoming_apps, Some existing_apps =>
                 Some {| sourced_value := merge_app_requirements_descending (sourced_value existing_apps) incoming_apps;
                         source := source existing_apps |}
             | Some incoming_apps, None => Some (with_source incoming_apps s)
             end;
     rules := fill s (rules self) (rules o);
     enforce_residency := fill s (enforce_residency self) (enforce_residency o);
     network := fill s (network self) (network o);
     permissions := fill s (permissions self) (permissions o);
     guardian_policy_config := fill s (guardian_policy_config self)
       (match guardian_policy_config o with Some v => if str_is_empty (trim v) then None else Some v | None => None end) |}.

(** ** Hosts with a sandbox of their own *)

Class WildMatch := wild_match : string → string → bool.

Definition normalize_hostname (hostname : string) : option string :=
  let hostname := trim_end_char "." (trim hostname) in
  if str_is_empty hostname then None else Some (ascii_lowercase hostname).

Definition hostname_matches_any_pattern `{WildMatch} (hostname : string) (patterns : list string) : bool :=
  existsb (λ p, match normalize_hostname p with Some p => wild_match p hostname | None => false end) patterns.

(** With [allowed_sandbox_modes] replaced. *)
Definition set_sandbox_modes (r : RequirementFields option) (modes : list SandboxModeRequirement) : RequirementFields option :=
  {| allowed_approval_policies := allowed_approval_policies r; allowed_approvals_reviewers := allowed_approvals_reviewers r;
     allowed_sandbox_modes := Some modes; allowed_permission_profiles := allowed_permission_profiles r;
     default_permissions := default_permissions r; allowed_web_search_modes := allowed_web_search_modes r;
     allow_managed_hooks_only := allow_managed_hooks_only r; allow_appshots := allow_appshots r;
     allow_remote_control := allow_remote_control r; computer_use := computer_use r; windows := windows r;
     feature_requirements := feature_requirements r; hooks := hooks r; mcp_servers := mcp_servers r; plugins := plugins r;
     apps := apps r; rules := rules r; enforce_residency := enforce_residency r; network := network r;
     permissions := permissions r; guardian_policy_config := guardian_policy_config r |}.

Definition apply_remote_sandbox_config `{WildMatch} (t : ConfigRequirementsToml) (hostname : option string) : ConfigRequirementsToml :=
  match remote_sandbox_config t with
  | None => t
  | Some remote =>
      match hostname ≫= normalize_hostname with
      | None => t
      | Some hostname =>
          match List.find (λ c, hostname_matches_any_pattern hostname (hostname_patterns c)) remote with
          | None => t
          | Some matched => {| fields := set_sandbox_modes (fields t) (remote_sandbox_modes matched);
                               remote_sandbox_config := remote_sandbox_config t |}
          end
      end
  end.

(** ** Layers (requirements_layers/layer.rs) *)

Inductive RequirementsLayerToml := LayerText (contents : string) | LayerValue (v : TomlValue).

Record RequirementsLayerEntry := {
  layer_source : RequirementSource;
  layer_toml : RequirementsLayerToml;
  layer_base_dir : option AbsolutePathBuf;
}.

(** [toml::from_str] and serde's deserialisers; paths are resolved against the directory. *)
Class RequirementsSerde := {
  toml_of_text : string → Result TomlValue string;
  requirements_of_text : option AbsolutePathBuf → string → Result ConfigRequirementsToml string;
  requirements_of_value : option AbsolutePathBuf → TomlValue → Result ConfigRequirementsToml string;
}.

Inductive RequirementsCompositionError :=
| LayerParse (s : RequirementSource) (message : string)
| ComposedParse (message : string)
| Conflict (field : string) (existing_source incoming_source : RequirementSource).

Record ComposableRequirementsLayer := {
  composable_source : RequirementSource;
  regular_toml : TomlValue;
  domain_rules : option RequirementsExecPolicyToml;
  domain_hooks : option ManagedHooksRequirementsToml;
  domain_permissions : option PermissionsRequirementsToml;
}.

Definition remove_top_level_field (v : TomlValue) (key : string) : TomlValue :=
  match v with TTable t => TTable (shift_remove key t) | _ => v end.

Definition is_empty_table (v : TomlValue) : bool := match v with TTable [] => true | _ => false end.

Fixpoint remove_nested_field_and_prune_empty (v : TomlValue) (path : list string) {struct path} : TomlValue :=
  match path, v with
  | [], _ => v
  | key :: remaining, TTable table =>
      match remaining with
      | [] => TTable (shift_remove key table)
      | _ =>
          match index_get key table with
          | None => v
          | Some child =>
              let child := remove_nested_field_and_prune_empty child remaining in
              if is_empty_table child then TTable (shift_remove key table) else TTable (index_insert key child table)
          end
      end
  | _, _ => v
  end.

Definition strip_special_fields (v : TomlValue) : TomlValue :=
  remove_nested_field_and_prune_empty (remove_top_level_field (remove_top_level_field v "rules") "hooks")
    ["permissions"; "filesystem"; "deny_read"].

(** How serde writes a mode. *)
Definition mode_name (m : SandboxModeRequirement) : string :=
  match m with
  | ModeReadOnly => "read-only"
  | ModeWorkspaceWrite => "workspace-write"
  | ModeDangerFullAccess => "danger-full-access"
  | ModeExternalSandbox => "external-sandbox"
  end.

Definition materialize_remote_sandbox_config (v : TomlValue) (t : ConfigRequirementsToml) : TomlValue :=
  let v := remove_top_level_field v "remote_sandbox_config" in
  match allowed_sandbox_modes (fields t), v with
  | Some modes, TTable table =>
      TTable (index_insert "allowed_sandbox_modes" (TArray ((λ m, TString (mode_name m)) <$> modes)) table)
  | _, _ => v
  end.

Section compose.
Context `{RequirementsSerde, WildMatch}.

Definition parse_layer_toml (l : RequirementsLayerEntry) : Result TomlValue RequirementsCompositionError :=
  match layer_toml l with
  | LayerText contents => map_err (LayerParse (layer_source l)) (toml_of_text contents)
  | LayerValue v => Ok v
  end.

Definition parse_layer_requirements (l : RequirementsLayerEntry) : Result ConfigRequirementsToml RequirementsCompositionError :=
  map_err (LayerParse (layer_source l))
    match layer_toml l with
    | LayerText contents => requirements_of_text (layer_base_dir l) contents
    | LayerValue v => requirements_of_value (layer_base_dir l) v
    end.

(** [from_entry]; [hostname] is what the resolver gives, looked up once for all layers. *)
Definition from_entry (hostname : option string) (l : RequirementsLayerEntry) :
    Result ComposableRequirementsLayer RequirementsCompositionError :=
  let? regular := parse_layer_toml l in
  let? requirements := parse_layer_requirements l in
  let hostname := match remote_sandbox_config requirements with Some _ => hostname | None => None end in
  let requirements := apply_remote_sandbox_config requirements hostname in
  Ok {| composable_source := layer_source l;
        regular_toml := strip_special_fields (materialize_remote_sandbox_config regular requirements);
        domain_rules := rules (fields requirements);
        domain_hooks := hooks (fields requirements);
        domain_permissions := permissions (fields requirements) |}.

(** ** Merging the fields that add up *)

(** rules.rs *)
Definition merge_rules (target : option (Sourced RequirementsExecPolicyToml)) (incoming : option RequirementsExecPolicyToml)
    (s : RequirementSource) : option (Sourced RequirementsExecPolicyToml) :=
  match incoming with
  | None => target
  | Some incoming =>
      match target with
      | None => Some (with_source incoming s)
      | Some existing =>
          Some {| sourced_value := {| prefix_rules := prefix_rules (sourced_value existing) ++ prefix_rules incoming |};
                  source := merge_output_source (source existing) s |}
      end
  end.

(** permissions.rs *)
Record DenyReadMergeState := { merged_deny_read : list string; deny_read_source : option RequirementSource }.

Definition merge_deny_pattern (s : RequirementSource) (st : DenyReadMergeState) (p : string) : DenyReadMergeState :=
  if bool_decide (p ∈ merged_deny_read st) then st
  else {| merged_deny_read := merged_deny_read st ++ [p];
          deny_read_source := Some match deny_read_source st with Some existing => merge_output_source existing s | None => s end |}.

Definition merge_deny_read (st : DenyReadMergeState) (incoming : option PermissionsRequirementsToml) (s : RequirementSource) :
    DenyReadMergeState :=
  fold_left (merge_deny_pattern s) (default [] (incoming ≫= λ p, filesystem p ≫= deny_read)) st.

Definition push_unique (l : list string) (p : string) : list string := if bool_decide (p ∈ l) then l else l ++ [p].

Definition apply_deny_read (st : DenyReadMergeState) (target : option (Sourced PermissionsRequirementsToml)) :
    option (Sourced PermissionsRequirementsToml) :=
  match merged_deny_read st with
  | [] => target
  | patterns =>
      let s := default UnknownSource (deny_read_source st) in
      match target with
      | None => Some (with_source {| filesystem := Some {| deny_read := Some patterns |}; profiles := ∅ |} s)
      | Some existing =>
          let current := default [] (filesystem (sourced_value existing) ≫= deny_read) in
          Some {| sourced_value := {| filesystem := Some {| deny_read := Some (fold_left push_unique patterns current) |};
                                      profiles := profiles (sourced_value existing) |};
                  source := if source_eqb (source existing) s then source existing else composite [source existing; s] |}
      end
  end.

(** hooks.rs, for the directory field of this platform ([managed_dir]) *)
Record HookMergeState := { dir_source : option RequirementSource; windows_dir_source : option RequirementSource }.

Definition or_source (existing : option RequirementSource) (s : RequirementSource) : option RequirementSource :=
  match existing with Some _ => existing | None => Some s end.

Definition append_hook_events (existing incoming : HookEventsToml) : HookEventsToml := λ n, existing n ++ incoming n.

Definition merge_hooks (st : HookMergeState) (target : option (Sourced ManagedHooksRequirementsToml))
    (incoming : option ManagedHooksRequirementsToml) (s : RequirementSource) :
    Result (HookMergeState * option (Sourced ManagedHooksRequirementsToml)) RequirementsCompositionError :=
  match incoming with
  | None => Ok (st, target)
  | Some incoming =>
      if hooks_is_empty incoming then Ok (st, target)
      else
        match target with
        | None =>
            Ok ({| dir_source := if managed_dir incoming then or_source (dir_source st) s else dir_source st;
                   windows_dir_source := if windows_managed_dir incoming then or_source (windows_dir_source st) s
                                         else windows_dir_source st |},
                Some (with_source incoming s))
        | Some existing =>
            let old := sourced_value existing in
            let? '(active, active_changed) :=
              match managed_dir incoming, managed_dir old with
              | None, current => Ok (current, false)
              | Some dir, Some current =>
                  if text_path_eqb current dir then Ok (Some current, false)
                  else Err (Conflict "hooks.managed_dir" (default s (dir_source st)) s)
              | Some dir, None => Ok (Some dir, true)
              end in
            let inactive_changed := is_none (windows_managed_dir old) && negb (is_none (windows_managed_dir incoming)) in
            let inactive := match windows_managed_dir old with Some d => Some d | None => windows_managed_dir incoming end in
            let events_changed := negb (events_is_empty (hook_events incoming)) in
            Ok ({| dir_source := if (active_changed : bool) then or_source (dir_source st) s else dir_source st;
                   windows_dir_source := if inactive_changed then or_source (windows_dir_source st) s else windows_dir_source st |},
                Some {| sourced_value := {| managed_dir := active; windows_managed_dir := inactive;
                                            hook_events := append_hook_events (hook_events old) (hook_events incoming) |};
                        source := if active_changed || inactive_changed || events_changed
                                  then merge_output_source (source existing) s else source existing |})
        end
  end.

(** ** The stack (requirements_layers/stack.rs); layers from low to high precedence *)

Definition top_level_value_for_keys (v : TomlValue) (keys : list string) : option TomlValue :=
  match v with TTable table => head (omap (λ key, index_get key table) keys) | _ => None end.

Definition is_table (v : TomlValue) : bool := match v with TTable _ => true | _ => false end.

Definition source_for_top_level_keys (layers : list ComposableRequirementsLayer) (keys : list string) : RequirementSource :=
  let matching_layers :=
    omap (λ l, (λ v, (composable_source l, v)) <$> top_level_value_for_keys (regular_toml l) keys) layers in
  match last matching_layers with
  | None => UnknownSource
  | Some (winning_source, winning_value) =>
      if is_table winning_value then
        let table_sources := omap (λ '(s, v), if is_table v then Some s else None) (reverse matching_layers) in
        if 1 <? length table_sources then composite table_sources else winning_source
      else winning_source
  end.

Definition populate_merged_regular_fields_with_sources (requirements : ConfigRequirementsToml)
    (layers : list ComposableRequirementsLayer) : ConfigRequirementsWithSources :=
  let r := fields requirements in
  let sourced {A} (v : option A) (keys : list string) : option (Sourced A) :=
    (λ v, with_source v (source_for_top_level_keys layers keys)) <$> v in
  {| allowed_approval_policies := sourced (allowed_approval_policies r) ["allowed_approval_policies"];
     allowed_approvals_reviewers := sourced (allowed_approvals_reviewers r) ["allowed_approvals_reviewers"];
     allowed_sandbox_modes := sourced (allowed_sandbox_modes r) ["allowed_sandbox_modes"];
     allowed_permission_profiles := sourced (allowed_permission_profiles r) ["allowed_permission_profiles"];
     default_permissions := sourced (default_permissions r) ["default_permissions"];
     allowed_web_search_modes := sourced (allowed_web_search_modes r) ["allowed_web_search_modes"];
     allow_managed_hooks_only := sourced (allow_managed_hooks_only r) ["allow_managed_hooks_only"];
     allow_appshots := sourced (allow_appshots r) ["allow_appshots"];
     allow_remote_control := sourced (allow_remote_control r) ["allow_remote_control"];
     computer_use := sourced (computer_use r) ["computer_use"];
     windows := sourced (windows r) ["windows"];
     feature_requirements := sourced (feature_requirements r) ["features"; "feature_requirements"];
     hooks := None;
     mcp_servers := sourced (mcp_servers r) ["mcp_servers"];
     plugins := sourced (plugins r) ["plugins"];
     apps := sourced (apps r) ["apps"];
     rules := None;
     enforce_residency := sourced (enforce_residency r) ["enforce_residency"];
     network := sourced (network r) ["experimental_network"];
     permissions := sourced (permissions r) ["permissions"];
     guardian_policy_config :=
       sourced (match guardian_policy_config r with Some v => if str_is_empty (trim v) then None else Some v | None => None end)
         ["guardian_policy_config"] |}.

(** What the loop over the layers carries. *)
Record DomainMerge := {
  rules_output : option (Sourced RequirementsExecPolicyToml);
  hooks_state : HookMergeState;
  hooks_output : option (Sourced ManagedHooksRequirementsToml);
  deny_read_state : DenyReadMergeState;
}.

Definition domain_merge_start : DomainMerge :=
  {| rules_output := None; hooks_state := {| dir_source := None; windows_dir_source := None |}; hooks_output := None;
     deny_read_state := {| merged_deny_read := []; deny_read_source := None |} |}.

Definition merge_domain_fields (acc : DomainMerge) (l : ComposableRequirementsLayer) :
    Result DomainMerge RequirementsCompositionError :=
  let? '(hs, ho) := merge_hooks (hooks_state acc) (hooks_output acc) (domain_hooks l) (composable_source l) in
  Ok {| rules_output := merge_rules (rules_output acc) (domain_rules l) (composable_source l);
        hooks_state := hs; hooks_output := ho;
        deny_read_state := merge_deny_read (deny_read_state acc) (domain_permissions l) (composable_source l) |}.

Fixpoint merge_domains (acc : DomainMerge) (high_to_low : list ComposableRequirementsLayer) :
    Result DomainMerge RequirementsCompositionError :=
  match high_to_low with
  | [] => Ok acc
  | l :: ls => let? acc := merge_domain_fields acc l in merge_domains acc ls
  end.

(** With the fields that add up. *)
Definition set_domain_fields (r : ConfigRequirementsWithSources) (d : DomainMerge) : ConfigRequirementsWithSources :=
  {| allowed_approval_policies := allowed_approval_policies r; allowed_approvals_reviewers := allowed_approvals_reviewers r;
     allowed_sandbox_modes := allowed_sandbox_modes r; allowed_permission_profiles := allowed_permission_profiles r;
     default_permissions := default_permissions r; allowed_web_search_modes := allowed_web_search_modes r;
     allow_managed_hooks_only := allow_managed_hooks_only r; allow_appshots := allow_appshots r;
     allow_remote_control := allow_remote_control r; computer_use := computer_use r; windows := windows r;
     feature_requirements := feature_requirements r; hooks := hooks_output d; mcp_servers := mcp_servers r;
     plugins := plugins r; apps := apps r; rules := rules_output d; enforce_residency := enforce_residency r;
     network := network r; permissions := apply_deny_read (deny_read_state d) (permissions r);
     guardian_policy_config := guardian_policy_config r |}.

Definition merged_regular_toml (layers : list ComposableRequirementsLayer) : TomlValue :=
  fold_left (λ merged l, merge_toml_values merged (regular_toml l)) layers (TTable []).

Definition compose (layers : list ComposableRequirementsLayer) :
    Result (option ConfigRequirementsWithSources) RequirementsCompositionError :=
  let? requirements := map_err ComposedParse (requirements_of_value None (merged_regular_toml layers)) in
  let? d := merge_domains domain_merge_start (reverse layers) in
  let output := set_domain_fields (populate_merged_regular_fields_with_sources requirements layers) d in
  Ok (if requirements_is_empty (into_toml output) then None else Some output).

Fixpoint add_layers (hostname : option string) (layers : list RequirementsLayerEntry) :
    Result (list ComposableRequirementsLayer) RequirementsCompositionError :=
  match layers with
  | [] => Ok []
  | l :: ls =>
      let? c := from_entry hostname l in
      let? cs := add_layers hostname ls in
      Ok (c :: cs)
  end.

(** [host_name] is what the resolver of the machine's name returns. *)
Definition compose_requirements (host_name : option string) (layers : list RequirementsLayerEntry) :
    Result (option ConfigRequirementsWithSources) RequirementsCompositionError :=
  let? stack := add_layers host_name layers in compose stack.
End compose.

(** ** What a session must respect *)

#[export] Instance handler_eq_dec : EqDecision HookHandlerConfig.
Proof. solve_decision. Defined.
#[export] Instance matcher_group_eq_dec : EqDecision MatcherGroup.
Proof. solve_decision. Defined.

Definition managed_hooks_eqb (a b : ManagedHooksRequirementsToml) : bool :=
  opt_path_eqb (managed_dir a) (managed_dir b) && opt_path_eqb (windows_managed_dir a) (windows_managed_dir b)
  && forallb (λ n, bool_decide (hook_events a n = hook_events b n)) hook_event_names.

Record ConfigRequirements := {
  cr_approval_policy : ConstrainedWithSource AskForApproval;
  cr_approvals_reviewer : ConstrainedWithSource ApprovalsReviewer;
  cr_permission_profile : ConstrainedWithSource PermissionProfile;
  cr_windows_sandbox_mode : ConstrainedWithSource (option WindowsSandboxModeToml);
  cr_web_search_mode : ConstrainedWithSource WebSearchMode;
  cr_allow_managed_hooks_only : option (Sourced bool);
  cr_allow_appshots : option (Sourced bool);
  cr_allow_remote_control : option (Sourced bool);
  cr_computer_use : option (Sourced (option bool));
  cr_feature_requirements : option (Sourced (gmap string bool));
  cr_managed_hooks : option (ConstrainedWithSource ManagedHooksRequirementsToml);
  cr_mcp_servers : option (Sourced (gmap string McpServerIdentity));
  cr_plugins : option (Sourced (gmap string PluginRequirementsToml));
  cr_exec_policy : option (Sourced Policy);
  cr_enforce_residency : ConstrainedWithSource (option ResidencyRequirement);
  cr_network : option (Sourced NetworkConstraints);
  cr_filesystem : option (Sourced (list string));
  cr_guardian_policy_config_source : option RequirementSource;
}.

Definition sandbox_mode_requirement_for_permission_profile (p : PermissionProfile) : SandboxModeRequirement :=
  match p with
  | Disabled => ModeDangerFullAccess
  | External _ => ModeExternalSandbox
  | Managed _ _ =>
      let file_system_policy := file_system_sandbox_policy p in
      if has_full_disk_write_access file_system_policy then ModeDangerFullAccess
      else if existsb (λ e, can_write (access e)) (entries file_system_policy) then ModeWorkspaceWrite
      else ModeReadOnly
  end.

Definition unconstrained {T} (v : T) : ConstrainedWithSource T :=
  {| constrained := allow_any v; constraint_source := None |}.

(** The validators of [try_from]: the candidates that satisfy [ok]. *)
Definition only {T} (field : string) (s : RequirementSource) (ok : T → bool) (candidate : T) : Result () ConstraintError :=
  if ok candidate then Ok () else Err (InvalidValue field s).

Definition constrain {T} (field : string) (s : RequirementSource) (initial : T) (ok : T → bool) :
    Result (ConstrainedWithSource T) ConstraintError :=
  let? c := constrained_new initial (only field s ok) in
  Ok {| constrained := c; constraint_source := Some s |}.

(** The first value is the initial one. *)
Definition constrain_to_list {T} `{EqDecision T} (list_field field : string) (default_value : T)
    (allowed : option (Sourced (list T))) : Result (ConstrainedWithSource T) ConstraintError :=
  match allowed with
  | None => Ok (unconstrained default_value)
  | Some {| sourced_value := []; source := _ |} => Err (EmptyField list_field)
  | Some {| sourced_value := (initial_value :: _) as values; source := s |} =>
      constrain field s initial_value (λ c, bool_decide (c ∈ values))
  end.

(** [PermissionProfile::read_only()], which does not reach its [unreachable!]. *)
Definition default_permission_profile : PermissionProfile :=
  Managed (ManagedRestricted read_only_file_system_entries None) NetRestricted.

Lemma default_permission_profile_read_only : profile_read_only = Some default_permission_profile.
Proof. reflexivity. Qed.

Definition constrain_profile (allowed : option (Sourced (list SandboxModeRequirement))) :
    Result (ConstrainedWithSource PermissionProfile) ConstraintError :=
  match allowed with
  | None => Ok (unconstrained default_permission_profile)
  | Some {| sourced_value := modes; source := s |} =>
      if bool_decide (ModeReadOnly ∈ modes) then
        constrain "sandbox_mode" s default_permission_profile
          (λ c, bool_decide (sandbox_mode_requirement_for_permission_profile c ∈ modes))
      else Err (InvalidValue "allowed_sandbox_modes" s)
  end.

Definition constrain_windows (required : option (Sourced (option (list WindowsSandboxModeToml)))) :
    Result (ConstrainedWithSource (option WindowsSandboxModeToml)) ConstraintError :=
  match required with
  | Some {| sourced_value := Some implementations; source := s |} =>
      match implementations with
      | [] => Err (EmptyField "windows.allowed_sandbox_implementations")
      | _ =>
          constrain "windows.sandbox" s (Some (if bool_decide (Elevated ∈ implementations) then Elevated else Unelevated))
            (λ c, match c with Some c => bool_decide (c ∈ implementations) | None => false end)
      end
  | _ => Ok (unconstrained None)
  end.

Definition constrain_web_search (allowed : option (Sourced (list WebSearchMode))) :
    Result (ConstrainedWithSource WebSearchMode) ConstraintError :=
  match allowed with
  | None => Ok (unconstrained SearchCached)
  | Some {| sourced_value := modes; source := s |} =>
      let accepted := SearchDisabled :: modes in
      let initial_value :=
        if bool_decide (SearchCached ∈ accepted) then SearchCached
        else if bool_decide (SearchIndexed ∈ accepted) then SearchIndexed
        else if bool_decide (SearchLive ∈ accepted) then SearchLive
        else SearchDisabled in
      constrain "web_search_mode" s initial_value (λ c, bool_decide (c ∈ accepted))
  end.

Definition constrain_hooks (hooks : option (Sourced ManagedHooksRequirementsToml)) :
    Result (option (ConstrainedWithSource ManagedHooksRequirementsToml)) ConstraintError :=
  match hooks with
  | Some {| sourced_value := allowed; source := s |} =>
      if 0 <? handler_count (hook_events allowed) then
        let? c := constrain "hooks" s allowed (λ c, managed_hooks_eqb c allowed) in Ok (Some c)
      else Ok None
  | None => Ok None
  end.

Definition constrain_residency (required : option (Sourced ResidencyRequirement)) :
    Result (ConstrainedWithSource (option ResidencyRequirement)) ConstraintError :=
  match required with
  | Some {| sourced_value := residency; source := s |} =>
      constrain "enforce_residency" s (Some residency) (λ c, bool_decide (c = Some residency))
  | None => Ok (unconstrained None)
  end.

Definition exec_policy_of_rules (rules : option (Sourced RequirementsExecPolicyToml)) :
    Result (option (Sourced Policy)) ConstraintError :=
  match rules with
  | Some {| sourced_value := toml; source := s |} =>
      let? policy := map_err (λ _, ExecPolicyParse s) (to_policy toml) in Ok (Some (with_source policy s))
  | None => Ok None
  end.

Definition map_sourced {A B} (f : A → B) (s : Sourced A) : Sourced B := with_source (f (sourced_value s)) (source s).

Definition try_from (toml : ConfigRequirementsWithSources) : Result ConfigRequirements ConstraintError :=
  let? approval_policy :=
    constrain_to_list "allowed_approval_policies" "approval_policy" OnRequest (allowed_approval_policies toml) in
  let? approvals_reviewer :=
    constrain_to_list "allowed_approvals_reviewers" "approvals_reviewer" ReviewUser (allowed_approvals_reviewers toml) in
  let? permission_profile := constrain_profile (allowed_sandbox_modes toml) in
  let? windows_sandbox_mode := constrain_windows (windows toml) in
  let? exec_policy := exec_policy_of_rules (rules toml) in
  let? web_search_mode := constrain_web_search (allowed_web_search_modes toml) in
  let features :=
    match feature_requirements toml with
    | Some f => if bool_decide (sourced_value f = ∅) then None else Some f
    | None => None
    end in
  let? managed_hooks := constrain_hooks (hooks toml) in
  let? enforce_residency := constrain_residency (enforce_residency toml) in
  Ok {| cr_approval_policy := approval_policy;
        cr_approvals_reviewer := approvals_reviewer;
        cr_permission_profile := permission_profile;
        cr_windows_sandbox_mode := windows_sandbox_mode;
        cr_web_search_mode := web_search_mode;
        cr_allow_managed_hooks_only := allow_managed_hooks_only toml;
        cr_allow_appshots := allow_appshots toml;
        cr_allow_remote_control := allow_remote_control toml;
        cr_computer_use := computer_use toml;
        cr_feature_requirements := features;
        cr_managed_hooks := managed_hooks;
        cr_mcp_servers := mcp_servers toml;
        cr_plugins := plugins toml;
        cr_exec_policy := exec_policy;
        cr_enforce_residency := enforce_residency;
        cr_network := network toml;
        cr_filesystem := map_sourced filesystem_constraints <$> permissions toml;
        cr_guardian_policy_config_source := source <$> guardian_policy_config toml |}.
