(* ===== verification/RequirementsFacts.v ===== *)
(** * Facts about managed requirements

    What the composition of layers keeps of each layer; that the constrained values made of
    it stay within what was composed, whatever is set on them; and that the command rules of every layer bind the policy the
    agent works with. *)

From stdpp Require Import base gmap list strings.
From S2P Require Import Prelude Str BTree AbsPath ExecPolicy ExecPolicyFacts PolicyParser ShellCommand ShellSafety Permissions PermissionFacts ApprovalPolicy ApprovalFacts HostPolicy ConfigLayers Requirements.

(** ** Constrained values *)

(** What a holder of a constrained value can make of it. *)
Inductive reaches {T} (c : Constrained T) : Constrained T → Prop :=
| reaches_refl : reaches c c
| reaches_set c' v c'' : reaches c c' → set c' v = Ok c'' → reaches c c''
| reaches_add c' f c'' : reaches c c' → add_validator c' f = Ok c'' → reaches c c''.

Definition accepted {T} (c : Constrained T) (v : T) : Prop := can_set c v = Ok ().

Lemma ok_unit {E} (m : Result () E) u : m = Ok u → m = Ok ().
Proof. by destruct u. Qed.

(** Validators only get stricter, and the value satisfies them. *)
Lemma reaches_accepted {T} (c c' : Constrained T) :
  reaches c c' → accepted c (value c) → accepted c' (value c') ∧ ∀ v, accepted c' v → accepted c v.
Proof.
  intros Hr Hc. induction Hr as [|c' v c'' _ IH Hs|c' f c'' _ IH Hs]; [done| |].
  - unfold set in Hs. apply res_bind_ok in Hs as (u & Hu%ok_unit & [= <-]). destruct IH as [_ IH].
    split; [done|]. intros w Hw. by apply IH.
  - unfold add_validator in Hs. apply res_bind_ok in Hs as (u & Hu%ok_unit & [= <-]). destruct IH as [_ IH].
    split; [done|]. intros w Hw. unfold accepted, can_set in Hw. simpl in Hw.
    apply res_bind_ok in Hw as (w' & Hw%ok_unit & _). by apply IH.
Qed.

Lemma constrain_spec {T} field s (i : T) ok cw :
  constrain field s i ok = Ok cw →
  (∀ v, accepted (constrained cw) v ↔ ok v = true) ∧
  (∀ c, reaches (constrained cw) c → ok (value c) = true) ∧ constraint_source cw = Some s.
Proof.
  unfold constrain, constrained_new. intros (c & (u & Hu%ok_unit & [= <-])%res_bind_ok & [= <-])%res_bind_ok.
  assert (∀ v, only field s ok v = Ok () ↔ ok v = true) as Ho by (intros v; unfold only; destruct (ok v); naive_solver).
  split; [done|]. split; [|done]. intros c Hc. destruct (reaches_accepted _ _ Hc Hu) as [Hv Hw]. by apply Ho, Hw.
Qed.

(** [can_set] says what [set] does unless values are normalised first. *)
Lemma can_set_agrees {T} (c : Constrained T) v :
  normalizer c = None → accepted c v ↔ ∃ c', set c v = Ok c' ∧ value c' = v.
Proof.
  intros Hn. unfold accepted, can_set, set. rewrite Hn. destruct (validator c v) as [[]|e]; simpl.
  - split; [eauto|done].
  - split; [done|by intros (c' & ? & _)].
Qed.

Example can_set_ignores_normalizer :
  let c := {| value := 1; validator := λ n, if n <? 5 then Ok () else Err (EmptyField "n");
              normalizer := Some (λ n, n - 5) |} in
  can_set c 7 = Err (EmptyField "n") ∧ match set c 7 with Ok c' => value c' = 2 | Err _ => False end.
Proof. by split. Qed.

(** ** Modes of a profile *)

Section modes.
Context `{PathEnv, FileProbe}.

(** A profile that counts as read-only writes nowhere. *)
Lemma read_only_mode_writes_nothing p path cwd :
  sandbox_mode_requirement_for_permission_profile p = ModeReadOnly →
  can_write_path_with_cwd (file_system_sandbox_policy p) path cwd = false.
Proof.
  destruct p as [fs net| |net]; simpl; try done.
  set (q := to_sandbox_policy fs). destruct (has_full_disk_write_access q) eqn:Hf; [done|].
  destruct (existsb _ _) eqn:He; [done|]. intros _.
  assert (can_write (resolve_access_with_cwd q path cwd) = false) as Hw; [|unfold can_write_path_with_cwd; by rewrite Hw].
  destruct (kind q) eqn:Hk; try by (unfold has_full_disk_write_access in Hf; rewrite Hk in Hf).
  destruct (resolve_candidate_path path cwd) as [t|] eqn:Ht; [|unfold resolve_access_with_cwd; by rewrite Hk, Ht].
  destruct (resolve_access_decides q path cwd t Hk Ht) as [(e & (Hin & _) & <-)|[_ ->]]; [|done].
  apply elem_of_resolved in Hin as (x & Hx & _ & ->). apply not_true_iff_false in He.
  apply not_true_iff_false. intros Hc. apply He, existsb_exists. exists x. by rewrite <-list_elem_of_In.
Qed.
End modes.

(** ** A session within its requirements *)

(** A constrained setting accepts exactly what [ok] says, and holds nothing else. *)
Definition confined_to {T} (cw : ConstrainedWithSource T) (s : RequirementSource) (ok : T → Prop) : Prop :=
  (∀ v, accepted (constrained cw) v ↔ ok v) ∧
  (∀ c, reaches (constrained cw) c → ok (value c)) ∧ constraint_source cw = Some s.

Lemma constrain_confined {T} field s (i : T) ok (P : T → Prop) cw :
  constrain field s i ok = Ok cw → (∀ v, ok v = true ↔ P v) → confined_to cw s P.
Proof.
  intros (H1 & H2 & H3)%constrain_spec HP. split_and!; [|intros c Hc; by apply HP, H2|done].
  intros v. by rewrite H1, HP.
Qed.

Lemma constrain_to_list_confined {T} `{EqDecision T} lf f (d : T) values s cw :
  constrain_to_list lf f d (Some {| sourced_value := values; source := s |}) = Ok cw →
  confined_to cw s (λ v, v ∈ values).
Proof.
  destruct values as [|v0 values]; [done|]. intros Hc. eapply constrain_confined; [exact Hc|].
  intros v. by rewrite bool_decide_eq_true.
Qed.

Lemma constrain_profile_confined modes s cw :
  constrain_profile (Some {| sourced_value := modes; source := s |}) = Ok cw →
  ModeReadOnly ∈ modes ∧ confined_to cw s (λ p, sandbox_mode_requirement_for_permission_profile p ∈ modes).
Proof.
  simpl. case_bool_decide; [|done]. intros Hc. split; [done|]. eapply constrain_confined; [exact Hc|].
  intros v. by rewrite bool_decide_eq_true.
Qed.

Lemma constrain_windows_confined implementations s cw :
  constrain_windows (Some {| sourced_value := Some implementations; source := s |}) = Ok cw →
  confined_to cw s (λ c, ∃ i, c = Some i ∧ i ∈ implementations).
Proof.
  destruct implementations as [|i0 rest]; [done|]. intros Hc. eapply constrain_confined; [exact Hc|].
  intros [i|]; [rewrite bool_decide_eq_true|]; naive_solver.
Qed.

Lemma constrain_web_search_confined modes s cw :
  constrain_web_search (Some {| sourced_value := modes; source := s |}) = Ok cw →
  confined_to cw s (λ m, m = SearchDisabled ∨ m ∈ modes).
Proof.
  intros Hc. eapply constrain_confined; [exact Hc|]. intros v. by rewrite bool_decide_eq_true, elem_of_cons.
Qed.

Lemma constrain_residency_confined residency s cw :
  constrain_residency (Some {| sourced_value := residency; source := s |}) = Ok cw →
  confined_to cw s (λ c, c = Some residency).
Proof. intros Hc. eapply constrain_confined; [exact Hc|]. intros v. by rewrite bool_decide_eq_true. Qed.

(** What a conversion that succeeds computed. *)
Lemma try_from_inv toml r :
  try_from toml = Ok r →
  constrain_to_list "allowed_approval_policies" "approval_policy" OnRequest (allowed_approval_policies toml) = Ok (cr_approval_policy r) ∧
  constrain_to_list "allowed_approvals_reviewers" "approvals_reviewer" ReviewUser (allowed_approvals_reviewers toml) = Ok (cr_approvals_reviewer r) ∧
  constrain_profile (allowed_sandbox_modes toml) = Ok (cr_permission_profile r) ∧
  constrain_windows (windows toml) = Ok (cr_windows_sandbox_mode r) ∧
  exec_policy_of_rules (Requirements.rules toml) = Ok (cr_exec_policy r) ∧
  constrain_web_search (allowed_web_search_modes toml) = Ok (cr_web_search_mode r) ∧
  constrain_residency (enforce_residency toml) = Ok (cr_enforce_residency r) ∧
  cr_filesystem r = map_sourced filesystem_constraints <$> Requirements.permissions toml.
Proof.
  unfold try_from.
  intros (x1 & ? & (x2 & ? & (x3 & ? & (x4 & ? & (x5 & ? & (x6 & ? & (x7 & ? & (x8 & ? & [= <-])%res_bind_ok)%res_bind_ok)
    %res_bind_ok)%res_bind_ok)%res_bind_ok)%res_bind_ok)%res_bind_ok)%res_bind_ok.
  simpl. naive_solver.
Qed.

(** The approval policy of the sub-sessions for reviews, guardian reviews and memories: the
    code puts it in place of the one it copies, without asking that one's validator. *)
Definition sub_session_approval_policy : Constrained AskForApproval := allow_only Never.

Lemma allow_only_never (c : Constrained AskForApproval) : reaches sub_session_approval_policy c → value c = Never.
Proof.
  intros Hc. destruct (reaches_accepted _ _ Hc eq_refl) as [Hv Hw]. apply Hw in Hv.
  unfold accepted, can_set, sub_session_approval_policy, allow_only in Hv. simpl in Hv. by case_decide.
Qed.

(** Claim C21. The constrained values made of the requirements stay within them: whatever is
    set on one and whatever validators are added to it, the approval policy, the reviewer,
    the mode of the permission profile, the Windows sandbox, the web search mode and the
    residency it holds are among those the requirements allow (web search may always be
    disabled), and everything allowed is accepted.  When read-only is the only mode allowed,
    no profile such a value can hold lets a command write to any path.  A value can only be
    escaped by putting another in its place, which the code does for the approval policy of
    its sub-sessions for reviews, guardian reviews and memories: these never ask for an
    approval, whatever the requirements allow. *)
Theorem requirements_confine_values `{PathEnv, FileProbe} toml r :
  try_from toml = Ok r →
  (∀ values s, allowed_approval_policies toml = Some {| sourced_value := values; source := s |} →
     confined_to (cr_approval_policy r) s (λ v, v ∈ values)) ∧
  (∀ values s, allowed_approvals_reviewers toml = Some {| sourced_value := values; source := s |} →
     confined_to (cr_approvals_reviewer r) s (λ v, v ∈ values)) ∧
  (∀ modes s, allowed_sandbox_modes toml = Some {| sourced_value := modes; source := s |} →
     confined_to (cr_permission_profile r) s (λ p, sandbox_mode_requirement_for_permission_profile p ∈ modes) ∧
     ((∀ m, m ∈ modes → m = ModeReadOnly) → ∀ c path cwd, reaches (constrained (cr_permission_profile r)) c →
        can_write_path_with_cwd (file_system_sandbox_policy (value c)) path cwd = false)) ∧
  (∀ implementations s, windows toml = Some {| sourced_value := Some implementations; source := s |} →
     confined_to (cr_windows_sandbox_mode r) s (λ c, ∃ i, c = Some i ∧ i ∈ implementations)) ∧
  (∀ modes s, allowed_web_search_modes toml = Some {| sourced_value := modes; source := s |} →
     confined_to (cr_web_search_mode r) s (λ m, m = SearchDisabled ∨ m ∈ modes)) ∧
  (∀ residency s, enforce_residency toml = Some {| sourced_value := residency; source := s |} →
     confined_to (cr_enforce_residency r) s (λ c, c = Some residency)) ∧
  (∀ c, reaches sub_session_approval_policy c → value c = Never).
Proof.
  intros (Hp & Hr & Hm & Hw & _ & Hs & He & _)%try_from_inv.
  split_and!; [intros values s Heq..|apply allow_only_never].
  - rewrite Heq in Hp. by eapply constrain_to_list_confined.
  - rewrite Heq in Hr. by eapply constrain_to_list_confined.
  - rewrite Heq in Hm. apply constrain_profile_confined in Hm as [_ Hm]. split; [done|].
    intros Hro c path cwd Hc. by apply read_only_mode_writes_nothing, Hro, Hm.
  - rewrite Heq in Hw. by apply constrain_windows_confined.
  - rewrite Heq in Hs. by apply constrain_web_search_confined.
  - rewrite Heq in He. by apply constrain_residency_confined.
Qed.

(** ** Patterns of files that may not be read *)

Lemma last_separator_spec n bytes i :
  last_separator n bytes = Some i → i < n ∧ bytes !! i = Some slash.
Proof.
  induction n as [|n IH]; simpl; [done|]. case_bool_decide; [|intros H'; apply IH in H' as [? ?]; split; [lia|done]].
  intros [= <-]. split; [lia|done].
Qed.

(** A pattern is cut at a separator before its first wildcard, so only a plain directory is
    resolved and the wildcards stay as written. *)
Lemma split_glob_pattern_spec input d s :
  split_glob_pattern input = (d, s) →
  contains_glob d = false ∧ (input = d +:+ s ∨ input = d +:+ "/" +:+ s).
Proof.
  unfold split_glob_pattern. destruct (list_find _ _) as [[g c]|] eqn:Hg; [|intros [= <- <-]; by split; [|left]].
  apply list_find_Some in Hg as (_ & _ & Hfirst).
  destruct (last_separator g (as_bytes input)) as [i|] eqn:Hi; [|intros [= <- <-]; by split; [|left]].
  apply last_separator_spec in Hi as [Hlt Hslash].
  assert (input = of_bytes (take i (as_bytes input)) +:+ "/" +:+ of_bytes (drop (S i) (as_bytes input))) as Hin.
  { rewrite <-(of_as_bytes input) at 1. rewrite <-(take_drop_middle _ _ _ Hslash) at 1.
    rewrite of_bytes_app. done. }
  assert (contains_glob (of_bytes (take i (as_bytes input))) = false) as Hplain.
  { unfold contains_glob. rewrite as_of_bytes. apply not_true_iff_false.
    intros (x & Hx%list_elem_of_In & Hglob)%existsb_exists. apply list_elem_of_lookup in Hx as [j Hj].
    apply lookup_take_Some in Hj as [Hj Hji]. by apply (Hfirst j x Hj); [lia|]. }
  destruct i as [|i]; intros [= <- <-]; [split; [done|by left]|]. rewrite Nat.add_1_r. by split; [|right].
Qed.

(** ** Fields that add up over the layers *)

Definition layer_rules (c : ComposableRequirementsLayer) : list RequirementsExecPolicyPrefixRuleToml :=
  from_option prefix_rules [] (domain_rules c).
Definition layer_events (n : HookEventName) (c : ComposableRequirementsLayer) : list MatcherGroup :=
  from_option (λ h, hook_events h n) [] (domain_hooks c).
Definition layer_dir (c : ComposableRequirementsLayer) : option string := domain_hooks c ≫= managed_dir.
Definition layer_denies (c : ComposableRequirementsLayer) : list string :=
  default [] (domain_permissions c ≫= λ p, filesystem p ≫= deny_read).

Definition output_rules (o : option (Sourced RequirementsExecPolicyToml)) : list RequirementsExecPolicyPrefixRuleToml :=
  from_option (λ s, prefix_rules (sourced_value s)) [] o.
Definition output_events (n : HookEventName) (o : option (Sourced ManagedHooksRequirementsToml)) : list MatcherGroup :=
  from_option (λ s, hook_events (sourced_value s) n) [] o.
Definition output_dir (o : option (Sourced ManagedHooksRequirementsToml)) : option string :=
  o ≫= λ s, managed_dir (sourced_value s).
Definition output_denies (o : option (Sourced PermissionsRequirementsToml)) : list string :=
  from_option (λ s, filesystem_constraints (sourced_value s)) [] o.

(** The directory, up to the spelling of the path. *)
Definition same_dir (o : option string) (d : string) : Prop := ∃ d', o = Some d' ∧ components d' = components d.

Lemma no_events h n : events_is_empty h = true → h n = [].
Proof.
  unfold events_is_empty. rewrite forallb_forall. intros Hf. specialize (Hf n).
  destruct (h n); [done|]. exfalso. enough (false = true) by done. apply Hf. destruct n; simpl; tauto.
Qed.

Lemma no_hooks h : hooks_is_empty h = true → managed_dir h = None ∧ ∀ n, hook_events h n = [].
Proof.
  unfold hooks_is_empty. intros [[Hd _]%andb_true_iff He]%andb_true_iff. split; [|intros n; by apply no_events].
  apply negb_true_iff, bool_decide_eq_false in Hd. by destruct (managed_dir h); [destruct Hd|].
Qed.

Lemma merge_hooks_step st t i s st' t' :
  merge_hooks st t i s = Ok (st', t') →
  (∀ n, output_events n t' = output_events n t ++ from_option (λ h, hook_events h n) [] i) ∧
  (∀ d, same_dir (output_dir t) d ∨ i ≫= managed_dir = Some d → same_dir (output_dir t') d).
Proof.
  unfold merge_hooks. destruct i as [i|].
  2:{ intros [= <- <-]. split; [intros n; by rewrite app_nil_r|naive_solver]. }
  destruct (hooks_is_empty i) eqn:Hi.
  { intros [= <- <-]. apply no_hooks in Hi as [Hd He]. split; [intros n; simpl; by rewrite He, app_nil_r|].
    simpl. rewrite Hd. naive_solver. }
  destruct t as [t|]; [|intros [= <- <-]; split; [done|intros d [(d' & ? & _)|Hd]; [done|by exists d]]].
  intros ([active changed] & Ha & [= <- <-])%res_bind_ok. split; [done|]. simpl. unfold output_dir. simpl.
  unfold same_dir. destruct (managed_dir i) as [di|], (managed_dir (sourced_value t)) as [dt|] eqn:Ht; simplify_eq/=;
    try naive_solver.
  unfold text_path_eqb in Ha. case_bool_decide; [|done]. injection Ha as <- <-. naive_solver.
Qed.

Lemma merge_rules_step t i s : output_rules (merge_rules t i s) = output_rules t ++ from_option prefix_rules [] i.
Proof. destruct i as [i|], t as [t|]; simpl; by rewrite ?app_nil_r. Qed.

Lemma fold_deny s ps st p :
  p ∈ merged_deny_read (fold_left (merge_deny_pattern s) ps st) ↔ p ∈ merged_deny_read st ∨ p ∈ ps.
Proof.
  revert st. induction ps as [|q ps IH]; intros st; simpl; [set_solver|]. rewrite IH. unfold merge_deny_pattern.
  case_bool_decide; simpl; set_solver.
Qed.

Lemma fold_push_unique ps l p : p ∈ fold_left push_unique ps l ↔ p ∈ l ∨ p ∈ ps.
Proof.
  revert l. induction ps as [|q ps IH]; intros l; simpl; [set_solver|]. rewrite IH. unfold push_unique.
  case_bool_decide; set_solver.
Qed.

Lemma apply_deny_read_keeps st t p : p ∈ merged_deny_read st → p ∈ output_denies (apply_deny_read st t).
Proof.
  unfold apply_deny_read. destruct (merged_deny_read st) as [|q qs] eqn:Hm; [set_solver|]. intros Hp.
  destruct t as [t|]; [|done].
  change (p ∈ fold_left push_unique (q :: qs) (default [] (filesystem (sourced_value t) ≫= deny_read))).
  apply fold_push_unique. by right.
Qed.

Lemma merge_domains_adds cs acc d :
  merge_domains acc cs = Ok d →
  output_rules (rules_output d) = output_rules (rules_output acc) ++ mjoin (layer_rules <$> cs) ∧
  (∀ n, output_events n (hooks_output d) = output_events n (hooks_output acc) ++ mjoin (layer_events n <$> cs)) ∧
  (∀ dir, same_dir (output_dir (hooks_output acc)) dir ∨ (∃ c, c ∈ cs ∧ layer_dir c = Some dir) →
     same_dir (output_dir (hooks_output d)) dir) ∧
  (∀ p, p ∈ merged_deny_read (deny_read_state acc) ∨ (∃ c, c ∈ cs ∧ p ∈ layer_denies c) →
     p ∈ merged_deny_read (deny_read_state d)).
Proof.
  revert acc. induction cs as [|c cs IH]; intros acc; simpl.
  { intros [= ->]. split_and!; [by rewrite app_nil_r|intros n; by rewrite app_nil_r|set_solver|set_solver]. }
  intros (acc1 & H1 & H2)%res_bind_ok. unfold merge_domain_fields in H1.
  apply res_bind_ok in H1 as ([hs ho] & Hh & [= <-]). apply merge_hooks_step in Hh as [Hev Hdir].
  destruct (IH _ H2) as (Hr & He & Hd & Hp). clear IH H2. simpl in *. split_and!.
  - by rewrite Hr, merge_rules_step, <-app_assoc.
  - intros n. by rewrite He, Hev, <-app_assoc.
  - intros dir Hin. apply Hd. destruct Hin as [Hin|(c' & [->|Hc]%elem_of_cons & Hl)]; eauto.
  - intros p Hin. apply Hp. unfold merge_deny_read. rewrite fold_deny.
    destruct Hin as [Hin|(c' & [->|Hc]%elem_of_cons & Hl)]; eauto.
Qed.

Lemma add_layers_all `{RequirementsSerde, WildMatch} host ls cs :
  add_layers host ls = Ok cs → Forall2 (λ l c, from_entry host l = Ok c) ls cs.
Proof.
  revert cs. induction ls as [|l ls IH]; intros cs; simpl; [by intros [= <-]|].
  intros (c & Hc & (cs' & Hcs & [= <-])%res_bind_ok)%res_bind_ok. constructor; auto.
Qed.

(** Requirements that count as empty have nothing of these fields. *)
Lemma empty_adds_nothing out :
  requirements_is_empty (into_toml out) = true →
  Requirements.rules out = None ∧ Requirements.permissions out = None ∧ output_dir (hooks out) = None ∧
  ∀ n, output_events n (hooks out) = [].
Proof.
  unfold requirements_is_empty, into_toml. cbn -[is_none is_none_or]. rewrite !andb_true_iff.
  destruct (Requirements.rules out) eqn:?, (Requirements.permissions out) eqn:?;
    try (intros; exfalso; naive_solver).
  intros Hall. split_and!; [done|done| |]; destruct (hooks out) as [h|]; try done; simpl in *;
    destruct (no_hooks (sourced_value h)) as [Hd He]; naive_solver.
Qed.

(** The composed output, or none when it is empty. *)
Lemma compose_adds `{RequirementsSerde, WildMatch} cs o :
  compose cs = Ok o →
  let out := default no_requirements o in
  output_rules (Requirements.rules out) = mjoin (layer_rules <$> reverse cs) ∧
  (∀ n, output_events n (hooks out) = mjoin (layer_events n <$> reverse cs)) ∧
  (∀ c dir, c ∈ cs → layer_dir c = Some dir → same_dir (output_dir (hooks out)) dir) ∧
  (∀ c p, c ∈ cs → p ∈ layer_denies c → p ∈ output_denies (Requirements.permissions out)).
Proof.
  unfold compose. intros (req & _ & (d & Hd & Ho)%res_bind_ok)%res_bind_ok.
  set (full := set_domain_fields _ d) in Ho. cbv zeta.
  apply merge_domains_adds in Hd as (Hr & He & Hdir & Hp).
  assert (output_rules (Requirements.rules full) = mjoin (layer_rules <$> reverse cs) ∧
    (∀ n, output_events n (hooks full) = mjoin (layer_events n <$> reverse cs)) ∧
    (∀ c dir, c ∈ cs → layer_dir c = Some dir → same_dir (output_dir (hooks full)) dir) ∧
    (∀ c p, c ∈ cs → p ∈ layer_denies c → p ∈ output_denies (Requirements.permissions full))) as Hfull.
  { split_and!; [done|done| |].
    - intros c dir Hc Hl. apply Hdir. right. exists c. by rewrite elem_of_reverse.
    - intros c p Hc Hl. apply apply_deny_read_keeps, Hp. right. exists c. by rewrite elem_of_reverse. }
  destruct (requirements_is_empty (into_toml full)) eqn:Hempty; injection Ho as <-; [|exact Hfull].
  apply empty_adds_nothing in Hempty as (Er & Ep & Ed & Ee). rewrite Er, Ep, Ed in Hfull.
  destruct Hfull as (F1 & F2 & F3 & F4). split_and!; [done| |done|done]. intros n. by rewrite <-F2, Ee.
Qed.

(** Claim C22. Composing layers drops nothing an administrator forbids: the command rules and
    the hook groups of all layers are kept, those of higher layers first; every layer's
    managed hook directory is the directory of the result, so layers that disagree fail to
    compose; and what any layer denies reading is denied by the result.  When the result is
    empty, no layer had any of these. *)
Theorem layers_add_up `{RequirementsSerde, WildMatch} host ls o :
  compose_requirements host ls = Ok o →
  ∃ cs, Forall2 (λ l c, from_entry host l = Ok c) ls cs ∧
    let out := default no_requirements o in
    output_rules (Requirements.rules out) = mjoin (layer_rules <$> reverse cs) ∧
    (∀ n, output_events n (hooks out) = mjoin (layer_events n <$> reverse cs)) ∧
    (∀ c dir, c ∈ cs → layer_dir c = Some dir → same_dir (output_dir (hooks out)) dir) ∧
    (∀ c p, c ∈ cs → p ∈ layer_denies c → p ∈ output_denies (Requirements.permissions out)).
Proof.
  unfold compose_requirements. intros (cs & Hcs%add_layers_all & Ho)%res_bind_ok. exists cs. split; [done|].
  by apply compose_adds.
Qed.

(** ** Rules in the policy *)

Lemma fold_heads_elem (R : string → PrefixRule) heads m k x :
  x ∈ default [] (fold_left (λ m h, multi_insert h (R h) m) heads m !! k) ↔
  x ∈ default [] (m !! k) ∨ (k ∈ heads ∧ x = R k).
Proof.
  revert m. induction heads as [|h heads IH]; intros m; simpl; [set_solver|].
  rewrite IH, multi_insert_lookup, elem_of_app. case_bool_decide; subst; set_solver.
Qed.

Lemma parse_prefix_rule_restricts i rule f rest d : parse_prefix_rule i rule = Ok (f, rest, d) → d ≠ Allow.
Proof.
  unfold parse_prefix_rule. destruct (blank _); [done|]. case_bool_decide; [done|].
  intros (ps & _ & (d' & Hd & Hp)%res_bind_ok)%res_bind_ok. destruct ps as [|p ps]; [done|]. injection Hp as -> -> ->.
  destruct (toml_decision rule) as [[]|]; try done; by injection Hd as <-.
Qed.

Lemma insert_prefix_rules_all i rs m m' :
  insert_prefix_rules i rs m = Ok m' →
  (∀ k x, x ∈ default [] (m !! k) → x ∈ default [] (m' !! k)) ∧
  (∀ rule, rule ∈ rs → ∃ j f rest d, parse_prefix_rule j rule = Ok (f, rest, d) ∧
     ∀ h, h ∈ alternatives_of f → head_rule rest d (toml_justification rule) h ∈ default [] (m' !! h)).
Proof.
  revert i m. induction rs as [|r rs IH]; intros i m; simpl; [intros [= <-]; set_solver|].
  intros ([[f rest] d] & Hp & Hrest)%res_bind_ok. destruct (IH _ _ Hrest) as [Hkeep Hall]. split.
  - intros k x Hx. apply Hkeep, fold_heads_elem. by left.
  - intros rule [->|Hin]%elem_of_cons; [|by apply Hall]. exists i, f, rest, d. split; [done|].
    intros h Hh. apply Hkeep, fold_heads_elem. by right.
Qed.

Lemma to_policy_all toml p rule :
  to_policy toml = Ok p → rule ∈ prefix_rules toml →
  ∃ j f rest d, parse_prefix_rule j rule = Ok (f, rest, d) ∧
    ∀ h, h ∈ alternatives_of f → head_rule rest d (toml_justification rule) h ∈ default [] (rules_by_program p !! h).
Proof.
  unfold to_policy. destruct (prefix_rules toml) as [|r rs]; [done|].
  intros (m & Hm & [= <-])%res_bind_ok Hr. by apply insert_prefix_rules_all in Hm as [_ Hm]; apply Hm.
Qed.

(** Without a warning the session has the policy that was loaded, with one it has none. *)
Lemma load_warning `{PathEnv, RuleFiles, Starlark} s warning p :
  check_execpolicy_for_warnings s = Ok warning → load s = Ok p →
  match warning with Some _ => p = empty_policy | None => load_exec_policy s = Ok p end.
Proof.
  unfold check_execpolicy_for_warnings, load, load_exec_policy_with_warning.
  destruct (load_exec_policy s) as [q|[]]; simpl; intros; by simplify_eq.
Qed.

(** A rule of a layer is a rule of the session's policy. *)
Lemma layer_rule_in_policy `{RequirementsSerde, WildMatch} host ls out r l c rule :
  compose_requirements host ls = Ok (Some out) → try_from out = Ok r →
  l ∈ ls → from_entry host l = Ok c → rule ∈ layer_rules c →
  ∃ pol j f rest d, cr_exec_policy r = Some pol ∧ parse_prefix_rule j rule = Ok (f, rest, d) ∧
    ∀ h, h ∈ alternatives_of f →
      head_rule rest d (toml_justification rule) h ∈ default [] (rules_by_program (sourced_value pol) !! h).
Proof.
  unfold compose_requirements. intros (cs & Hcs%add_layers_all & Ho)%res_bind_ok Hr Hl Hc Hrule.
  apply compose_adds in Ho as (Hrules & _). simpl in Hrules. apply try_from_inv in Hr as (_ & _ & _ & _ & He & _).
  assert (rule ∈ output_rules (Requirements.rules out)) as Hin.
  { rewrite Hrules, list_elem_of_join. exists (layer_rules c). split; [done|]. apply list_elem_of_fmap. exists c.
    split; [done|]. apply elem_of_reverse. apply list_elem_of_lookup in Hl as [i Hi].
    destruct (Forall2_lookup_l _ _ _ _ _ Hcs Hi) as (c' & Hc' & Heq). rewrite Hc in Heq. injection Heq as <-.
    by eapply list_elem_of_lookup_2. }
  destruct (Requirements.rules out) as [[toml s]|]; simpl in *; [|by apply not_elem_of_nil in Hin].
  apply res_bind_ok in He as (p & Hp%map_err_ok & [= <-]).
  destruct (to_policy_all toml p rule Hp Hin) as (j & f & rest & d & ? & ?). eauto 10.
Qed.

(** Claim C20. A command rule of any requirements layer forbids or asks, never allows, and
    binds the policy a session starts with ([ExecPolicyManager::load], with the composed
    requirements), if no rule file of the session fails to parse, which is when there is no
    warning: a request with a command that begins with one of the rule's programs and goes
    on with its tokens is then forbidden by a forbidding rule and never skips the approval
    for a prompting one, whatever the other layers and the rule files say.  If a rule file
    fails to parse, there is a warning and the session starts with the empty policy, without
    any rule of the requirements. *)
Theorem managed_rules_bind `{RequirementsSerde, WildMatch, BashGrammar, PathEnv, Shlex, RuleFiles, Starlark}
    host ls out r l c rule :
  compose_requirements host ls = Ok (Some out) → try_from out = Ok r →
  l ∈ ls → from_entry host l = Ok c → rule ∈ layer_rules c →
  ∃ j f rest d, parse_prefix_rule j rule = Ok (f, rest, d) ∧ d ≠ Allow ∧
    ∀ s p warning, requirements_exec_policy s = sourced_value <$> cr_exec_policy r →
      load s = Ok p → check_execpolicy_for_warnings s = Ok warning →
      match warning with
      | Some _ => p = empty_policy
      | None => ∀ req h toks args,
          h ∈ alternatives_of f → Forall2 (λ q t, t ∈ alternatives_of q) rest toks →
          (h :: toks ++ args) ∈ commands (commands_for_exec_policy (req_command req)) →
          (d = Forbidden → ∃ reason, create_exec_approval_requirement_for_command p req = Some (RequirementForbidden reason)) ∧
          (d = Prompt → ∀ b a, create_exec_approval_requirement_for_command p req ≠ Some (Skip b a))
      end.
Proof.
  intros Ho Hr Hl Hc Hrule.
  destruct (layer_rule_in_policy host ls out r l c rule Ho Hr Hl Hc Hrule) as (pol & j & f & rest & d & Hpol & Hp & Hin).
  exists j, f, rest, d. split_and!; [done|by eapply parse_prefix_rule_restricts|].
  intros s p warning Hs Hload Hwarn. rewrite Hpol in Hs. pose proof (load_warning _ _ _ Hwarn Hload) as Hlw.
  destruct warning; [done|]. intros req h toks args Hh Htoks Hcmd.
  apply (requirements_enforced s p (sourced_value pol) req h (toks ++ args) (head_rule rest d (toml_justification rule) h));
    [done|done|done|by apply Hin|]. exists toks, args. done.
Qed.

(** ** Concrete layers *)

Module Managed.
Definition table_of (v : TomlValue) : TomlMap TomlValue := match v with TTable t => t | _ => [] end.
Definition items_of (v : TomlValue) : list TomlValue := match v with TArray l => l | _ => [] end.
Definition text_of (v : TomlValue) : option string := match v with TString s => Some s | _ => None end.
Definition field (key : string) (v : TomlValue) : option TomlValue := index_get key (table_of v).

Definition mode_of (v : TomlValue) : option SandboxModeRequirement :=
  text_of v ≫= λ s, List.find (λ m, str_eqb (mode_name m) s)
    [ModeReadOnly; ModeWorkspaceWrite; ModeDangerFullAccess; ModeExternalSandbox].

Definition decision_of (v : TomlValue) : option RequirementsExecPolicyDecisionToml :=
  text_of v ≫= λ s, if str_eqb s "prompt" then Some TomlPrompt else if str_eqb s "forbidden" then Some TomlForbidden else None.

Definition rule_of (v : TomlValue) : RequirementsExecPolicyPrefixRuleToml :=
  {| toml_pattern := (λ t, {| token := field "token" t ≫= text_of; any_of := (λ a, omap text_of (items_of a)) <$> field "any_of" t |})
                       <$> from_option items_of [] (field "pattern" v);
     toml_decision := field "decision" v ≫= decision_of;
     toml_justification := field "justification" v ≫= text_of |}.

Definition app_of (v : TomlValue) : AppRequirementToml :=
  {| enabled := field "enabled" v ≫= λ b, match b with TBoolean b => Some b | _ => None end; tools := None |}.

(** A reader of the fields the examples use. *)
Definition read_requirements (v : TomlValue) : ConfigRequirementsToml :=
  let none := fields (into_toml no_requirements) in
  {| fields :=
       {| allowed_approval_policies := None; allowed_approvals_reviewers := None;
          allowed_sandbox_modes := (λ l, omap mode_of (items_of l)) <$> field "allowed_sandbox_modes" v;
          allowed_permission_profiles := None; default_permissions := None; allowed_web_search_modes := None;
          allow_managed_hooks_only := None; allow_appshots := None; allow_remote_control := None; computer_use := None;
          windows := None; feature_requirements := None; hooks := None; mcp_servers := None; plugins := None;
          apps := (λ t, list_to_map ((λ '(k, a), (k, app_of a)) <$> table_of t)) <$> field "apps" v;
          Requirements.rules := (λ t, {| prefix_rules := rule_of <$> from_option items_of [] (field "prefix_rules" t) |}) <$> field "rules" v;
          enforce_residency := None; network := None;
          Requirements.permissions :=
            (λ t, {| filesystem := (λ f, {| deny_read := (λ l, omap text_of (items_of l)) <$> field "deny_read" f |})
                                     <$> field "filesystem" t; profiles := ∅ |}) <$> field "permissions" v;
          guardian_policy_config := None |};
     remote_sandbox_config := None |}.

#[export] Instance reader : RequirementsSerde :=
  {| toml_of_text _ := Err "unsupported"; requirements_of_text _ _ := Err "unsupported";
     requirements_of_value _ v := Ok (read_requirements v) |}.
#[export] Instance same_name : WildMatch := λ p h, str_eqb p h.

Definition word (s : string) : TomlValue := TTable [("token", TString s)].
Definition rule_value (words : list TomlValue) (decision : string) : TomlValue :=
  TTable [("pattern", TArray words); ("decision", TString decision)].
Definition layer (s : RequirementSource) (t : TomlMap TomlValue) : RequirementsLayerEntry :=
  {| layer_source := s; layer_toml := LayerValue (TTable t); layer_base_dir := None |}.

(** The system forbids pushes and hides a file; the device manager asks before downloads. *)
Definition system_layer : RequirementsLayerEntry :=
  layer (SystemRequirementsToml {| rooted := true; names := ["etc"; "requirements.toml"] |})
    [("rules", TTable [("prefix_rules", TArray [rule_value [word "git"; word "push"] "forbidden"])]);
     ("permissions", TTable [("filesystem", TTable [("deny_read", TArray [TString "/etc/shadow"])])]);
     ("apps", TTable [("mail", TTable [("enabled", TBoolean false)])])].
Definition device_layer : RequirementsLayerEntry :=
  layer LegacyManagedMdm
    [("allowed_sandbox_modes", TArray [TString "read-only"]);
     ("rules", TTable [("prefix_rules", TArray [rule_value [TTable [("any_of", TArray [TString "curl"; TString "wget"])]] "prompt"])]);
     ("apps", TTable [("mail", TTable [("enabled", TBoolean true)])])].

Definition composed : Result (option ConfigRequirementsWithSources) RequirementsCompositionError :=
  compose_requirements None [system_layer; device_layer].
Definition output : ConfigRequirementsWithSources :=
  match composed with Ok (Some o) => o | _ => no_requirements end.

Lemma composed_ok : composed = Ok (Some output).
Proof. vm_refl. Qed.

Definition is_ok {A E} (m : Result A E) : bool := match m with Ok _ => true | Err _ => false end.

Lemma output_accepted : ∃ r, try_from output = Ok r.
Proof.
  assert (is_ok (try_from output) = true) as Hok by vm_refl. destruct (try_from output) as [r|]; [by exists r|done].
Qed.

Lemma layers_add_up_witness :
  ∃ cs, Forall2 (λ l c, from_entry None l = Ok c) [system_layer; device_layer] cs ∧
    output_rules (Requirements.rules output) = mjoin (layer_rules <$> reverse cs) ∧
    "/etc/shadow" ∈ output_denies (Requirements.permissions output).
Proof.
  destruct (layers_add_up None [system_layer; device_layer] (Some output) composed_ok) as (cs & Hcs & Hr & _ & _ & Hp).
  exists cs. split; [done|]. split; [done|].
  inversion Hcs as [|l c ls cs' Hc _]; subst. apply (Hp c); [apply list_elem_of_here|].
  vm_compute in Hc. injection Hc as <-. apply list_elem_of_here.
Defined.

Lemma requirements_confine_values_witness :
  let env := sample_env in let probe := sample_probe in
  ∃ r, try_from output = Ok r ∧
    can_write_path_with_cwd (file_system_sandbox_policy (value (constrained (cr_permission_profile r)))) "/work/a" "/work" = false.
Proof.
  intros env probe. destruct output_accepted as [r Hr]. exists r. split; [done|].
  destruct (requirements_confine_values output r Hr) as (_ & _ & Hm & _).
  destruct (Hm [ModeReadOnly] LegacyManagedMdm) as [_ Hw]; [vm_refl|].
  apply Hw; [|apply reaches_refl]. intros m Hin. by apply list_elem_of_singleton in Hin.
Defined.

Definition push_rule : RequirementsExecPolicyPrefixRuleToml := rule_of (rule_value [word "git"; word "push"] "forbidden").

(** A session without rule files of its own. *)
Definition session (r : ConfigRequirements) : ApprovalPolicy.ConfigLayerStack :=
  {| ApprovalPolicy.layers := []; ignore_user_and_project_exec_policy_rules := false;
     requirements_exec_policy := sourced_value <$> cr_exec_policy r |}.

Lemma system_layer_rule : ∃ c, from_entry None system_layer = Ok c ∧ push_rule ∈ layer_rules c.
Proof.
  assert (match from_entry None system_layer with Ok c => head (layer_rules c) = Some push_rule | Err _ => False end) as Hc
    by (vm_compute; reflexivity).
  destruct (from_entry None system_layer) as [c|]; [|done]. exists c. split; [done|].
  destruct (layer_rules c); [done|]. injection Hc as ->. apply list_elem_of_here.
Qed.

Lemma managed_rules_bind_witness :
  let grammar := sample_grammar in let env := sample_env in let shlex := plain_shlex in
  let files := no_files in let star := sample_starlark in
  ∃ r p reason, try_from output = Ok r ∧ load (session r) = Ok p ∧
    create_exec_approval_requirement_for_command p git_push = Some (RequirementForbidden reason).
Proof.
  intros grammar env shlex files star. destruct output_accepted as [r Hr]. destruct system_layer_rule as (c & Hc & Hin).
  destruct (managed_rules_bind None [system_layer; device_layer] output r system_layer c push_rule)
    as (j & f & rest & d & Hp & _ & Hb); [apply composed_ok|done|apply list_elem_of_here|done|done|].
  vm_compute in Hp. injection Hp as <- <- <-.
  assert (∃ p, load (session r) = Ok p) as [p Hl] by (eexists; reflexivity).
  destruct (Hb (session r) p None eq_refl Hl eq_refl git_push "git" ["push"] ["-f"]) as [Hf _];
    [apply list_elem_of_here|repeat constructor|apply list_elem_of_here|].
  destruct (Hf eq_refl) as [reason Hreason]. eauto 8.
Defined.

(** An app that a lower layer turns off is on again when a higher one says so, although the
    merge of app requirements in config_requirements.rs lets a disablement win. *)
Example app_disablement_overridden :
  (apps output ≫= λ a, sourced_value a !! "mail" ≫= enabled) = Some true ∧
  (merge_app_requirements_descending {["mail" := {| enabled := Some true; tools := None |}]}
     {["mail" := {| enabled := Some false; tools := None |}]} !! "mail" ≫= enabled) = Some false.
Proof. split; vm_refl. Qed.
End Managed.
