(* ===== verification/ThreadHistory.v ===== *)
(** * The history of a thread

    codex-rs/app-server-protocol: [ThreadItem] of v2/item.rs, [Turn] of v2/thread_data.rs, the
    builders of item_builders.rs and, of protocol/thread_history.rs, the builder that turns
    the events of a rollout into turns and items, with the incremental changes it can report;
    from codex-rs/protocol the events that the history of a thread is built from.

    Types of the app server that mirror a type of the core one to one are that type.  Events
    carry the fields that are read here.  Durations are in milliseconds; paths that are only
    shown are their text.  The builder counts the UUIDs it draws.  A pending turn is the turn
    it will become with three flags. *)

From stdpp Require Import base gmap list strings.
From S2P Require Import Prelude Str Json Protocol AbsPath Permissions Fragments ApprovalPolicy.

(** ** What is taken from other code *)

Inductive ParsedCommand :=
| ParsedRead (cmd name path : string)
| ParsedListFiles (cmd : string) (path : option string)
| ParsedSearch (cmd : string) (query path : option string)
| ParsedUnknown (cmd : string).

(** URIs of working directories, the summary of a command (parse_command.rs) and UUIDs, by
    how many were drawn before. *)
Class ItemSources := {
  CwdUri : Type;
  inferred_native_path_string : CwdUri → string;
  native_convention : CwdUri → bool;             (** [infer_path_convention() == Some(native())] *)
  cwd_to_abs_path : CwdUri → option AbsolutePathBuf;
  parse_command : list string → list ParsedCommand;
  uuid : nat → string;
}.

(** ** Items *)

Record TextElement := { element_start : N; element_end : N; placeholder : option string }.

Inductive UserInput :=
| UserText (text : string) (text_elements : list TextElement)
| UserImage (url : string) (detail : option ImageDetail)
| UserLocalImage (path : string) (detail : option ImageDetail)
| UserSkill (name path : string)
| UserMention (name path : string).

Record MemoryCitationEntry := { citation_path : string; line_start : N; line_end : N; note : string }.
Record MemoryCitation := { citation_entries : list MemoryCitationEntry; rollout_ids : list string }.

Record HookPromptFragment := { fragment_text : string; hook_run_id : string }.

Inductive CommandExecutionSource := SourceAgent | SourceUserShell | SourceUnifiedExecStartup | SourceUnifiedExecInteraction.

Inductive CommandExecutionStatus := ExecInProgress | ExecCompleted | ExecFailed | ExecDeclined.

Inductive CommandAction :=
| ActionRead (command name : string) (path : AbsolutePathBuf)
| ActionListFiles (command : string) (path : option string)
| ActionSearch (command : string) (query path : option string)
| ActionUnknown (command : string).

Inductive PatchChangeKind := KindAdd | KindDelete | KindUpdate (move_path : option string).
Record FileUpdateChange := { change_path : string; change_kind : PatchChangeKind; change_diff : string }.
Inductive PatchApplyStatus := PatchInProgress | PatchCompleted | PatchFailed | PatchDeclined.

(** The three states of MCP, dynamic and collaboration calls. *)
Inductive ToolCallStatus := CallInProgress | CallCompleted | CallFailed.

Record McpToolCallAppContext := { connector_id : string; link_id : option string; resource_uri : option string }.
Record McpToolCallResult := { result_content : list Value; structured_content : option Value; result_meta : option Value }.

Inductive DynamicToolCallOutputContentItem := DynamicText (text : string) | DynamicImage (image_url : string).

Inductive CollabAgentTool := SpawnAgent | SendInput | ResumeAgent | WaitAgent | CloseAgent.
Inductive CollabAgentStatus :=
| AgentPendingInit | AgentRunning | AgentInterrupted | AgentCompleted | AgentErrored | AgentShutdown | AgentNotFound.
Record CollabAgentState := { agent_status : CollabAgentStatus; agent_message : option string }.
Inductive SubAgentActivityKind := ActivityStarted | ActivityInteracted | ActivityInterrupted.

Inductive ThreadItem :=
| ItemUserMessage (id : string) (client_id : option string) (content : list UserInput)
| ItemHookPrompt (id : string) (fragments : list HookPromptFragment)
| ItemAgentMessage (id text : string) (phase : option MessagePhase) (memory_citation : option MemoryCitation)
| ItemPlan (id text : string)
| ItemReasoning (id : string) (summary content : list string)
| ItemCommandExecution (id command cwd : string) (process_id : option string) (source : CommandExecutionSource)
    (status : CommandExecutionStatus) (command_actions : list CommandAction) (aggregated_output : option string)
    (exit_code duration_ms : option Z)
| ItemFileChange (id : string) (changes : list FileUpdateChange) (status : PatchApplyStatus)
| ItemMcpToolCall (id server tool : string) (status : ToolCallStatus) (arguments : Value)
    (app_context : option McpToolCallAppContext) (mcp_app_resource_uri plugin_id : option string)
    (result : option McpToolCallResult) (error : option string) (duration_ms : option Z)
| ItemDynamicToolCall (id : string) (namespace : option string) (tool : string) (arguments : Value)
    (status : ToolCallStatus) (content_items : option (list DynamicToolCallOutputContentItem)) (success : option bool)
    (duration_ms : option Z)
| ItemCollabAgentToolCall (id : string) (tool : CollabAgentTool) (status : ToolCallStatus) (sender_thread_id : string)
    (receiver_thread_ids : list string) (prompt model : option string) (reasoning_effort : option ReasoningEffort)
    (agents_states : gmap string CollabAgentState)
| ItemSubAgentActivity (id : string) (kind : SubAgentActivityKind) (agent_thread_id agent_path : string)
| ItemWebSearch (id query : string) (action : option WebSearchAction)
| ItemImageView (id : string) (path : AbsolutePathBuf)
| ItemSleep (id : string) (duration_ms : N)
| ItemImageGeneration (id status : string) (revised_prompt : option string) (result : string)
    (saved_path : option AbsolutePathBuf)
| ItemEnteredReviewMode (id review : string)
| ItemExitedReviewMode (id review : string)
| ItemContextCompaction (id : string).

Definition item_id (i : ThreadItem) : string :=
  match i with
  | ItemUserMessage id _ _ | ItemHookPrompt id _ | ItemAgentMessage id _ _ _ | ItemPlan id _ | ItemReasoning id _ _
  | ItemCommandExecution id _ _ _ _ _ _ _ _ _ | ItemFileChange id _ _ | ItemMcpToolCall id _ _ _ _ _ _ _ _ _ _
  | ItemDynamicToolCall id _ _ _ _ _ _ _ | ItemCollabAgentToolCall id _ _ _ _ _ _ _ _ | ItemSubAgentActivity id _ _ _
  | ItemWebSearch id _ _ | ItemImageView id _ | ItemSleep id _ | ItemImageGeneration id _ _ _ _
  | ItemEnteredReviewMode id _ | ItemExitedReviewMode id _ | ItemContextCompaction id => id
  end.

(** ** Turns *)

Inductive CodexErrorInfo :=
| ContextWindowExceeded | UsageLimitExceeded | ServerOverloaded | CyberPolicy
| HttpConnectionFailed (http_status_code : option N) | ResponseStreamConnectionFailed (http_status_code : option N)
| InternalServerError | Unauthorized | BadRequest | SandboxError
| ResponseStreamDisconnected (http_status_code : option N) | ResponseTooManyFailedAttempts (http_status_code : option N)
| ActiveTurnNotSteerable (review : bool) | ThreadRollbackFailed | OtherError.

Definition info_affects_turn_status (i : CodexErrorInfo) : bool :=
  match i with ThreadRollbackFailed | ActiveTurnNotSteerable _ => false | _ => true end.

Inductive TurnStatus := TurnCompleted | TurnInterrupted | TurnFailed | TurnInProgress.

Record TurnError := { error_message : string; codex_error_info : option CodexErrorInfo }.

Record Turn := {
  t_id : string;
  t_items : list ThreadItem;
  t_error : option TurnError;
  t_status : TurnStatus;
  t_started_at : option Z;
  t_completed_at : option Z;
  t_duration_ms : option Z;
}.

(** ** Events *)

Inductive AgentStatus :=
| StatusPendingInit | StatusRunning | StatusInterrupted | StatusCompleted (message : option string)
| StatusErrored (message : string) | StatusShutdown | StatusNotFound.

Definition state_of_status (s : AgentStatus) : CollabAgentState :=
  let state status message := {| agent_status := status; agent_message := message |} in
  match s with
  | StatusPendingInit => state AgentPendingInit None
  | StatusRunning => state AgentRunning None
  | StatusInterrupted => state AgentInterrupted None
  | StatusCompleted message => state AgentCompleted message
  | StatusErrored message => state AgentErrored (Some message)
  | StatusShutdown => state AgentShutdown None
  | StatusNotFound => state AgentNotFound None
  end.

Definition status_failed (s : AgentStatus) : bool :=
  match s with StatusErrored _ | StatusNotFound => true | _ => false end.

Inductive FileChange :=
| ChangeAdd (content : string)
| ChangeDelete (content : string)
| ChangeUpdate (unified_diff : string) (move_path : option string).

Inductive GuardianAssessmentStatus := AssessInProgress | AssessApproved | AssessDenied | AssessTimedOut | AssessAborted.
Inductive GuardianAssessmentAction :=
| GuardCommand (command : string) (cwd : AbsolutePathBuf)
| GuardExecve (program : string) (argv : list string) (cwd : AbsolutePathBuf)
| GuardApplyPatch | GuardNetworkAccess | GuardMcpToolCall | GuardRequestPermissions.

Inductive TurnItem :=
| TurnPlan (id text : string)
| TurnSleep (id : string) (duration_ms : N)
| TurnOtherItem.

Record McpInvocation := { server : string; mcp_tool : string; mcp_arguments : option Value }.

(** What both events of an MCP call say. *)
Record McpCall := {
  mcp_call_id : string;
  invocation : McpInvocation;
  mcp_connector_id : option string;
  mcp_resource_uri : option string;
  mcp_link_id : option string;
  mcp_plugin_id : option string;
}.

Record CallToolResult := {
  call_content : list Value;
  call_structured_content : option Value;
  is_error : option bool;
  call_meta : option Value;
}.

(** What both events of a command say. *)
Record ExecCall `{ItemSources} := {
  exec_call_id : string;
  exec_process_id : option string;
  exec_turn_id : string;
  exec_command : list string;
  exec_cwd : CwdUri;
  parsed_cmd : list ParsedCommand;
  exec_source : CommandExecutionSource;
}.

Inductive ExecCommandStatus := CommandCompleted | CommandFailed | CommandDeclined.
Inductive CorePatchApplyStatus := CorePatchCompleted | CorePatchFailed | CorePatchDeclined.

Inductive EventMsg `{ItemSources} :=
| EvUserMessage (client_id : option string) (message : string) (images : option (list string))
    (image_details : list (option ImageDetail)) (local_images : list string)
    (local_image_details : list (option ImageDetail)) (text_elements : list TextElement)
| EvAgentMessage (message : string) (phase : option MessagePhase) (memory_citation : option MemoryCitation)
| EvAgentReasoning (text : string)
| EvAgentReasoningRawContent (text : string)
| EvWebSearchBegin (call_id : string)
| EvWebSearchEnd (call_id query : string) (action : WebSearchAction)
| EvExecCommandBegin (call : ExecCall)
| EvExecCommandEnd (call : ExecCall) (aggregated_output : string) (exit_code : Z) (duration : N) (status : ExecCommandStatus)
| EvGuardianAssessment (target_item_id : option string) (turn_id : string) (status : GuardianAssessmentStatus)
    (action : GuardianAssessmentAction)
| EvApplyPatchApprovalRequest (call_id turn_id : string) (changes : gmap string FileChange)
| EvPatchApplyBegin (call_id turn_id : string) (changes : gmap string FileChange)
| EvPatchApplyEnd (call_id turn_id : string) (changes : gmap string FileChange) (status : CorePatchApplyStatus)
| EvDynamicToolCallRequest (call_id turn_id : string) (namespace : option string) (tool : string) (arguments : Value)
| EvDynamicToolCallResponse (call_id turn_id : string) (namespace : option string) (tool : string) (arguments : Value)
    (content_items : list DynamicToolCallOutputContentItem) (success : bool) (duration : N)
| EvMcpToolCallBegin (call : McpCall)
| EvMcpToolCallEnd (call : McpCall) (duration : N) (result : Result CallToolResult string)
| EvViewImageToolCall (call_id : string) (path : AbsolutePathBuf)
| EvImageGenerationBegin (call_id : string)
| EvImageGenerationEnd (call_id status : string) (revised_prompt : option string) (result : string)
    (saved_path : option AbsolutePathBuf)
| EvCollabAgentSpawnBegin (call_id sender prompt model : string) (effort : ReasoningEffort)
| EvCollabAgentSpawnEnd (call_id sender : string) (new_thread_id : option string) (prompt model : string)
    (effort : ReasoningEffort) (status : AgentStatus)
| EvCollabAgentInteractionBegin (call_id sender receiver prompt : string)
| EvCollabAgentInteractionEnd (call_id sender receiver prompt : string) (status : AgentStatus)
| EvSubAgentActivity (event_id agent_thread_id agent_path : string) (kind : SubAgentActivityKind)
| EvCollabWaitingBegin (call_id sender : string) (receivers : list string)
| EvCollabWaitingEnd (call_id sender : string) (statuses : gmap string AgentStatus)
| EvCollabCloseBegin (call_id sender receiver : string)
| EvCollabCloseEnd (call_id sender receiver : string) (status : AgentStatus)
| EvCollabResumeBegin (call_id sender receiver : string)
| EvCollabResumeEnd (call_id sender receiver : string) (status : AgentStatus)
| EvContextCompacted
| EvEnteredReviewMode (user_facing_hint : option string)
| EvExitedReviewMode (overall_explanation : option string)
| EvItemStarted (turn_id : string) (item : TurnItem)
| EvItemCompleted (turn_id : string) (item : TurnItem)
| EvError (message : string) (info : option CodexErrorInfo)
| EvThreadRolledBack (num_turns : N)
| EvTurnAborted (turn_id : option string) (completed_at duration_ms : option Z)
| EvTurnStarted (turn_id : string) (started_at : option Z)
| EvTurnComplete (turn_id : string) (completed_at duration_ms : option Z)
| EvOther.

(** What a rollout file holds. *)
Inductive RolloutItem `{ItemSources} :=
| RolloutEvent (event : EventMsg)
| RolloutCompacted
| RolloutResponseItem (item : ResponseItem)
| RolloutInterAgentCommunication
| RolloutTurnContext (turn_id : option string)
| RolloutSessionMeta.

(** ** Builders (item_builders.rs) *)

Section builders.
Context `{ItemSources, Shlex, PathEnv}.

Definition shlex_join (tokens : list string) : string :=
  default "<command included NUL byte>" (shlex_try_join tokens).

(** Bytes decide the order of texts. *)
Definition text_leb (a b : string) : bool := String.leb a b.

Definition map_patch_change_kind (c : FileChange) : PatchChangeKind :=
  match c with ChangeAdd _ => KindAdd | ChangeDelete _ => KindDelete | ChangeUpdate _ move_path => KindUpdate move_path end.

Definition format_file_change_diff (c : FileChange) : string :=
  match c with
  | ChangeAdd content | ChangeDelete content => content
  | ChangeUpdate unified_diff (Some path) => unified_diff +:+ NL +:+ NL +:+ "Moved to: " +:+ path
  | ChangeUpdate unified_diff None => unified_diff
  end.

Definition convert_patch_changes (changes : gmap string FileChange) : list FileUpdateChange :=
  sort_by (λ a b, text_leb (change_path a) (change_path b))
    ((λ '(path, c), {| change_path := path; change_kind := map_patch_change_kind c; change_diff := format_file_change_diff c |})
       <$> map_to_list changes).

Definition from_core_with_cwd (p : ParsedCommand) (cwd : AbsolutePathBuf) : CommandAction :=
  match p with
  | ParsedRead cmd name path => ActionRead cmd name (abs_join cwd path)
  | ParsedListFiles cmd path => ActionListFiles cmd path
  | ParsedSearch cmd query path => ActionSearch cmd query path
  | ParsedUnknown cmd => ActionUnknown cmd
  end.

Definition command_actions_for_path_uri (parsed : list ParsedCommand) (cwd : CwdUri) : list CommandAction :=
  let native_cwd := if native_convention cwd then cwd_to_abs_path cwd else None in
  omap (λ p,
    match p with
    | ParsedRead cmd name path => (λ native_cwd, ActionRead cmd name (abs_join native_cwd path)) <$> native_cwd
    | ParsedListFiles cmd path => Some (ActionListFiles cmd path)
    | ParsedSearch cmd query path => Some (ActionSearch cmd query path)
    | ParsedUnknown cmd => Some (ActionUnknown cmd)
    end) parsed.

Definition build_command_execution_begin_item (c : ExecCall) : ThreadItem :=
  ItemCommandExecution (exec_call_id c) (shlex_join (exec_command c)) (inferred_native_path_string (exec_cwd c))
    (exec_process_id c) (exec_source c) ExecInProgress (command_actions_for_path_uri (parsed_cmd c) (exec_cwd c))
    None None None.

Definition exec_status (s : ExecCommandStatus) : CommandExecutionStatus :=
  match s with CommandCompleted => ExecCompleted | CommandFailed => ExecFailed | CommandDeclined => ExecDeclined end.

(** [i64::try_from] of a duration *)
Definition millis (duration : N) : option Z := if (Z.of_N duration <=? i64_max)%Z then Some (Z.of_N duration) else None.

Definition build_command_execution_end_item (c : ExecCall) (output : string) (exit_code : Z) (duration : N)
    (status : ExecCommandStatus) : ThreadItem :=
  ItemCommandExecution (exec_call_id c) (shlex_join (exec_command c)) (inferred_native_path_string (exec_cwd c))
    (exec_process_id c) (exec_source c) (exec_status status) (command_actions_for_path_uri (parsed_cmd c) (exec_cwd c))
    (if str_is_empty output then None else Some output) (Some exit_code) (Some (default i64_max (millis duration))).

Definition build_file_change_begin_item (call_id : string) (changes : gmap string FileChange) : ThreadItem :=
  ItemFileChange call_id (convert_patch_changes changes) PatchInProgress.

Definition build_file_change_approval_request_item (call_id : string) (changes : gmap string FileChange) : ThreadItem :=
  ItemFileChange call_id (convert_patch_changes changes) PatchInProgress.

Definition patch_status (s : CorePatchApplyStatus) : PatchApplyStatus :=
  match s with CorePatchCompleted => PatchCompleted | CorePatchFailed => PatchFailed | CorePatchDeclined => PatchDeclined end.

Definition build_file_change_end_item (call_id : string) (changes : gmap string FileChange) (s : CorePatchApplyStatus) :
    ThreadItem :=
  ItemFileChange call_id (convert_patch_changes changes) (patch_status s).

Definition build_item_from_guardian_event (target_item_id : option string) (action : GuardianAssessmentAction)
    (status : CommandExecutionStatus) : option ThreadItem :=
  match action with
  | GuardCommand command cwd =>
      id ← target_item_id;
      Some (ItemCommandExecution id command (path_text cwd) None SourceAgent status [ActionUnknown command] None None None)
  | GuardExecve program argv cwd =>
      id ← target_item_id;
      let argv := match argv with [] => [program] | _ :: rest => program :: rest end in
      let command := shlex_join argv in
      let command_actions :=
        match parse_command argv with
        | [] => [ActionUnknown command]
        | parsed => (λ p, from_core_with_cwd p cwd) <$> parsed
        end in
      Some (ItemCommandExecution id command (path_text cwd) None SourceAgent status command_actions None None None)
  | _ => None
  end.
End builders.

(** ** Changes *)

Record ThreadHistoryItemChange := { item_change_turn_id : string; changed_item : ThreadItem }.

Record ThreadHistoryTurnChange := {
  tc_turn_id : string;
  tc_status : TurnStatus;
  tc_error : option TurnError;
  tc_started_at : option Z;
  tc_completed_at : option Z;
  tc_duration_ms : option Z;
}.

Record ThreadHistoryChangeSet := {
  changed_items : list ThreadHistoryItemChange;
  changed_turns : list ThreadHistoryTurnChange;
  removed_turn_ids : list string;
}.

Definition no_changes : ThreadHistoryChangeSet := {| changed_items := []; changed_turns := []; removed_turn_ids := [] |}.

(** [from_turn], and [from_pending_turn] *)
Definition from_turn (t : Turn) : ThreadHistoryTurnChange :=
  {| tc_turn_id := t_id t; tc_status := t_status t; tc_error := t_error t; tc_started_at := t_started_at t;
     tc_completed_at := t_completed_at t; tc_duration_ms := t_duration_ms t |}.

(** ** Coalescing *)

Record ThreadHistoryChangeAccumulator := {
  acc_items : list (option ThreadHistoryItemChange);
  acc_item_indexes : gmap (string * string) nat;
  acc_turns : list (option ThreadHistoryTurnChange);
  acc_turn_indexes : gmap string nat;
  acc_removed : list string;
  acc_removed_indexes : gmap string nat;
}.

Definition empty_accumulator : ThreadHistoryChangeAccumulator :=
  {| acc_items := []; acc_item_indexes := ∅; acc_turns := []; acc_turn_indexes := ∅; acc_removed := [];
     acc_removed_indexes := ∅ |}.

Definition item_change_key (c : ThreadHistoryItemChange) : string * string := (item_change_turn_id c, item_id (changed_item c)).

Definition push_item_change (a : ThreadHistoryChangeAccumulator) (c : ThreadHistoryItemChange) : ThreadHistoryChangeAccumulator :=
  match acc_item_indexes a !! item_change_key c with
  | Some index =>
      {| acc_items := <[index := Some c]> (acc_items a); acc_item_indexes := acc_item_indexes a; acc_turns := acc_turns a;
         acc_turn_indexes := acc_turn_indexes a; acc_removed := acc_removed a; acc_removed_indexes := acc_removed_indexes a |}
  | None =>
      {| acc_items := acc_items a ++ [Some c];
         acc_item_indexes := <[item_change_key c := length (acc_items a)]> (acc_item_indexes a);
         acc_turns := acc_turns a; acc_turn_indexes := acc_turn_indexes a; acc_removed := acc_removed a;
         acc_removed_indexes := acc_removed_indexes a |}
  end.

Definition push_turn_change (a : ThreadHistoryChangeAccumulator) (c : ThreadHistoryTurnChange) : ThreadHistoryChangeAccumulator :=
  match acc_turn_indexes a !! tc_turn_id c with
  | Some index =>
      {| acc_items := acc_items a; acc_item_indexes := acc_item_indexes a; acc_turns := <[index := Some c]> (acc_turns a);
         acc_turn_indexes := acc_turn_indexes a; acc_removed := acc_removed a; acc_removed_indexes := acc_removed_indexes a |}
  | None =>
      {| acc_items := acc_items a; acc_item_indexes := acc_item_indexes a; acc_turns := acc_turns a ++ [Some c];
         acc_turn_indexes := <[tc_turn_id c := length (acc_turns a)]> (acc_turn_indexes a); acc_removed := acc_removed a;
         acc_removed_indexes := acc_removed_indexes a |}
  end.

(** The keys of the removed turn, in the order the hash map gives them. *)
Definition removed_item_keys (a : ThreadHistoryChangeAccumulator) (turn_id : string) : list (string * string) :=
  List.filter (λ k, str_eqb k.1 turn_id) (map_to_list (acc_item_indexes a)).*1.

Definition drop_item_key (acc : list (option ThreadHistoryItemChange) * gmap (string * string) nat) (k : string * string) :
    list (option ThreadHistoryItemChange) * gmap (string * string) nat :=
  match acc.2 !! k with
  | Some index => (<[index := None]> acc.1, delete k acc.2)
  | None => acc
  end.

Definition push_removed_turn_id (a : ThreadHistoryChangeAccumulator) (turn_id : string) : ThreadHistoryChangeAccumulator :=
  let seen := bool_decide (is_Some (acc_removed_indexes a !! turn_id)) in
  let '(items, item_indexes) := fold_left drop_item_key (removed_item_keys a turn_id) (acc_items a, acc_item_indexes a) in
  {| acc_items := items;
     acc_item_indexes := item_indexes;
     acc_turns := match acc_turn_indexes a !! turn_id with Some index => <[index := None]> (acc_turns a) | None => acc_turns a end;
     acc_turn_indexes := delete turn_id (acc_turn_indexes a);
     acc_removed := if seen then acc_removed a else acc_removed a ++ [turn_id];
     acc_removed_indexes := if seen then acc_removed_indexes a
                            else <[turn_id := length (acc_removed a)]> (acc_removed_indexes a) |}.

Definition push_changes (a : ThreadHistoryChangeAccumulator) (cs : ThreadHistoryChangeSet) : ThreadHistoryChangeAccumulator :=
  fold_left push_turn_change (changed_turns cs)
    (fold_left push_item_change (changed_items cs) (fold_left push_removed_turn_id (removed_turn_ids cs) a)).

Definition finish_accumulator (a : ThreadHistoryChangeAccumulator) : ThreadHistoryChangeSet :=
  {| changed_items := omap id (acc_items a); changed_turns := omap id (acc_turns a); removed_turn_ids := acc_removed a |}.

(** ** The builder *)

Record PendingTurn := {
  p_turn : Turn;
  opened_explicitly : bool;
  saw_compaction : bool;
  rollout_start_index : nat;
}.

Record ThreadHistoryBuilder := {
  turns : list Turn;
  current_turn : option PendingTurn;
  next_item_index : Z;
  current_rollout_index : nat;
  next_rollout_index : nat;
  active_change_set : option ThreadHistoryChangeSet;
  uuids_drawn : nat;
}.

Definition new_builder : ThreadHistoryBuilder :=
  {| turns := []; current_turn := None; next_item_index := 1; current_rollout_index := 0; next_rollout_index := 0;
     active_change_set := None; uuids_drawn := 0 |}.

Notation Builder := ThreadHistoryBuilder.

Definition set_turns (ts : list Turn) (current : option PendingTurn) (b : Builder) : Builder :=
  {| turns := ts; current_turn := current; next_item_index := next_item_index b;
     current_rollout_index := current_rollout_index b; next_rollout_index := next_rollout_index b;
     active_change_set := active_change_set b; uuids_drawn := uuids_drawn b |}.
Definition set_next_item_index (n : Z) (b : Builder) : Builder :=
  {| turns := turns b; current_turn := current_turn b; next_item_index := n;
     current_rollout_index := current_rollout_index b; next_rollout_index := next_rollout_index b;
     active_change_set := active_change_set b; uuids_drawn := uuids_drawn b |}.
Definition set_changes (cs : option ThreadHistoryChangeSet) (b : Builder) : Builder :=
  {| turns := turns b; current_turn := current_turn b; next_item_index := next_item_index b;
     current_rollout_index := current_rollout_index b; next_rollout_index := next_rollout_index b;
     active_change_set := cs; uuids_drawn := uuids_drawn b |}.
Definition set_rollout_index (current next : nat) (b : Builder) : Builder :=
  {| turns := turns b; current_turn := current_turn b; next_item_index := next_item_index b;
     current_rollout_index := current; next_rollout_index := next; active_change_set := active_change_set b;
     uuids_drawn := uuids_drawn b |}.
Definition draw_uuid (b : Builder) : Builder :=
  {| turns := turns b; current_turn := current_turn b; next_item_index := next_item_index b;
     current_rollout_index := current_rollout_index b; next_rollout_index := next_rollout_index b;
     active_change_set := active_change_set b; uuids_drawn := S (uuids_drawn b) |}.

(** *** Recording changes *)

Definition record_changed_item (turn_id : string) (item : ThreadItem) (b : Builder) : Builder :=
  match active_change_set b with
  | None => b
  | Some cs =>
      set_changes (Some {| changed_items := changed_items cs ++ [{| item_change_turn_id := turn_id; changed_item := item |}];
                           changed_turns := changed_turns cs; removed_turn_ids := removed_turn_ids cs |}) b
  end.

Definition record_changed_turn (c : ThreadHistoryTurnChange) (b : Builder) : Builder :=
  match active_change_set b with
  | None => b
  | Some cs =>
      set_changes (Some {| changed_items := changed_items cs; changed_turns := changed_turns cs ++ [c];
                           removed_turn_ids := removed_turn_ids cs |}) b
  end.

Definition record_removed_turn_ids (ids : list string) (b : Builder) : Builder :=
  match active_change_set b with
  | None => b
  | Some cs =>
      set_changes (Some {| changed_items := changed_items cs; changed_turns := changed_turns cs;
                           removed_turn_ids := removed_turn_ids cs ++ ids |}) b
  end.

(** *** Turns *)

Definition finish_current_turn (b : Builder) : Builder :=
  match current_turn b with
  | None => b
  | Some p =>
      if bool_decide (t_items (p_turn p) = []) && negb (opened_explicitly p) && negb (saw_compaction p)
      then set_turns (turns b) None b
      else set_turns (turns b ++ [p_turn p]) None b
  end.

Definition finish (b : Builder) : list Turn := turns (finish_current_turn b).

Definition active_turn_snapshot (b : Builder) : option Turn :=
  match current_turn b with Some p => Some (p_turn p) | None => last (turns b) end.

Definition turn_snapshot (turn_id : string) (b : Builder) : option Turn :=
  let finished := List.find (λ t, str_eqb (t_id t) turn_id) (turns b) in
  match current_turn b with
  | Some p => if str_eqb (t_id (p_turn p)) turn_id then Some (p_turn p) else finished
  | None => finished
  end.

Definition active_turn_position (b : Builder) : option nat :=
  match current_turn b, turns b with
  | Some _, ts => Some (length ts)
  | None, [] => None
  | None, ts => Some (length ts - 1)
  end.

Definition has_active_turn (b : Builder) : bool := bool_decide (is_Some (current_turn b)).

Definition active_turn_id_if_explicit (b : Builder) : option string :=
  p ← current_turn b; if opened_explicitly p then Some (t_id (p_turn p)) else None.

Definition active_turn_start_index (b : Builder) : option nat := rollout_start_index <$> current_turn b.

(** The first of the turns with this id, changed. *)
Fixpoint update_turn (turn_id : string) (f : Turn → Turn) (ts : list Turn) : option (list Turn * Turn) :=
  match ts with
  | [] => None
  | t :: ts =>
      if str_eqb (t_id t) turn_id then Some (f t :: ts, f t)
      else '(ts', t') ← update_turn turn_id f ts; Some (t :: ts', t')
  end.

Definition map_pending (f : Turn → Turn) (p : PendingTurn) : PendingTurn :=
  {| p_turn := f (p_turn p); opened_explicitly := opened_explicitly p; saw_compaction := saw_compaction p;
     rollout_start_index := rollout_start_index p |}.

Definition with_items (items : list ThreadItem) (t : Turn) : Turn :=
  {| t_id := t_id t; t_items := items; t_error := t_error t; t_status := t_status t; t_started_at := t_started_at t;
     t_completed_at := t_completed_at t; t_duration_ms := t_duration_ms t |}.
Definition with_status (status : TurnStatus) (t : Turn) : Turn :=
  {| t_id := t_id t; t_items := t_items t; t_error := t_error t; t_status := status; t_started_at := t_started_at t;
     t_completed_at := t_completed_at t; t_duration_ms := t_duration_ms t |}.
Definition with_error (e : TurnError) (t : Turn) : Turn :=
  {| t_id := t_id t; t_items := t_items t; t_error := Some e; t_status := t_status t; t_started_at := t_started_at t;
     t_completed_at := t_completed_at t; t_duration_ms := t_duration_ms t |}.
Definition with_end (completed_at duration_ms : option Z) (t : Turn) : Turn :=
  {| t_id := t_id t; t_items := t_items t; t_error := t_error t; t_status := t_status t; t_started_at := t_started_at t;
     t_completed_at := completed_at; t_duration_ms := duration_ms |}.

Section builder.
Context `{ItemSources, Shlex, PathEnv, HookXml}.

(** The id of a turn that no event names. *)
Definition implicit_turn_id (b : Builder) : string :=
  if next_rollout_index b =? 0 then uuid (uuids_drawn b) else "rollout-" +:+ fmt_nat (current_rollout_index b).

Definition blank_turn (id : string) (status : TurnStatus) (started_at : option Z) : Turn :=
  {| t_id := id; t_items := []; t_error := None; t_status := status; t_started_at := started_at; t_completed_at := None;
     t_duration_ms := None |}.

(** [new_turn(None)], recorded and made the current turn *)
Definition ensure_turn (b : Builder) : Builder :=
  match current_turn b with
  | Some _ => b
  | None =>
      let turn := blank_turn (implicit_turn_id b) TurnCompleted None in
      let b' := if next_rollout_index b =? 0 then draw_uuid b else b in
      set_turns (turns b')
        (Some {| p_turn := turn; opened_explicitly := false; saw_compaction := false;
                 rollout_start_index := current_rollout_index b |})
        (record_changed_turn (from_turn turn) b')
  end.

(** Changes the current turn and says what to record. *)
Definition in_current_turn (f : Turn → Turn) (record : Turn → Builder → Builder) (b : Builder) : Builder :=
  match current_turn b with
  | Some p => record (f (p_turn p)) (set_turns (turns b) (Some (map_pending f p)) b)
  | None => b
  end.

Definition push_item_in_current_turn (item : ThreadItem) (b : Builder) : Builder :=
  in_current_turn (λ t, with_items (t_items t ++ [item]) t) (λ t, record_changed_item (t_id t) item) (ensure_turn b).

Fixpoint upsert_turn_item (item : ThreadItem) (items : list ThreadItem) : list ThreadItem :=
  match items with
  | [] => [item]
  | existing :: rest =>
      if str_eqb (item_id existing) (item_id item) then item :: rest else existing :: upsert_turn_item item rest
  end.

Definition upsert_in (item : ThreadItem) (t : Turn) : Turn := with_items (upsert_turn_item item (t_items t)) t.

Definition upsert_item_in_current_turn (item : ThreadItem) (b : Builder) : Builder :=
  in_current_turn (upsert_in item) (λ t, record_changed_item (t_id t) item) (ensure_turn b).

(** The turn with this id: the current one, else the first finished one. *)
Definition in_turn (turn_id : string) (f : Turn → Turn) (record : Turn → Builder → Builder) (b : Builder) : option Builder :=
  let finished :=
    '(ts, t) ← update_turn turn_id f (turns b); Some (record t (set_turns ts (current_turn b) b)) in
  match current_turn b with
  | Some p => if str_eqb (t_id (p_turn p)) turn_id then Some (in_current_turn f record b) else finished
  | None => finished
  end.

Definition upsert_item_in_turn_id (turn_id : string) (item : ThreadItem) (b : Builder) : Builder :=
  default b (in_turn turn_id (upsert_in item) (λ t, record_changed_item (t_id t) item) b).

Definition upsert_item (turn_id : string) (item : ThreadItem) (b : Builder) : Builder :=
  if str_is_empty turn_id then upsert_item_in_current_turn item b else upsert_item_in_turn_id turn_id item b.

(** *** Messages *)

(** The id and the builder after it is taken. *)
Definition next_item_id (b : Builder) : string * Builder :=
  ("item-" +:+ pretty (next_item_index b), set_next_item_index (wrap_i64 (next_item_index b + 1)) b).

Definition push_numbered (item : string → ThreadItem) (b : Builder) : Builder :=
  let '(id, b) := next_item_id b in push_item_in_current_turn (item id) b.

Definition build_user_inputs (message : string) (images : option (list string)) (image_details : list (option ImageDetail))
    (local_images : list string) (local_image_details : list (option ImageDetail)) (text_elements : list TextElement) :
    list UserInput :=
  (if str_is_empty (trim message) then [] else [UserText message text_elements])
  ++ imap (λ idx image, UserImage image (mjoin (image_details !! idx))) (default [] images)
  ++ imap (λ idx path, UserLocalImage path (mjoin (local_image_details !! idx))) local_images.

Definition handle_user_message (client_id : option string) (content : list UserInput) (b : Builder) : Builder :=
  let b :=
    match current_turn b with
    | Some p =>
        if negb (opened_explicitly p) && negb (saw_compaction p && bool_decide (t_items (p_turn p) = []))
        then finish_current_turn b else b
    | None => b
    end in
  push_numbered (λ id, ItemUserMessage id client_id content) b.

Definition handle_agent_message (text : string) (phase : option MessagePhase) (citation : option MemoryCitation) (b : Builder) :
    Builder :=
  if str_is_empty text then b else push_numbered (λ id, ItemAgentMessage id text phase citation) b.

(** Text goes to the reasoning item that comes last, else to a new one. *)
Definition add_reasoning (text : string) (extend : list string → list string → list string * list string) (b : Builder) : Builder :=
  if str_is_empty text then b
  else
    let b := ensure_turn b in
    match p ← current_turn b; last (t_items (p_turn p)) with
    | Some (ItemReasoning id summary content) =>
        let '(summary, content) := extend summary content in
        let item := ItemReasoning id summary content in
        in_current_turn (λ t, with_items (removelast (t_items t) ++ [item]) t) (λ t, record_changed_item (t_id t) item) b
    | _ => push_numbered (λ id, let '(summary, content) := extend [] [] in ItemReasoning id summary content) b
    end.

Definition handle_agent_reasoning (text : string) : Builder → Builder :=
  add_reasoning text (λ summary content, (summary ++ [text], content)).
Definition handle_agent_reasoning_raw_content (text : string) : Builder → Builder :=
  add_reasoning text (λ summary content, (summary, content ++ [text])).

(** *** Items with ids of their own *)

(** [handle_item_started] and [handle_item_completed] *)
Definition handle_turn_item (turn_id : string) (item : TurnItem) (b : Builder) : Builder :=
  match item with
  | TurnPlan id text => if str_is_empty text then b else upsert_item_in_turn_id turn_id (ItemPlan id text) b
  | TurnSleep id duration => upsert_item_in_turn_id turn_id (ItemSleep id duration) b
  | TurnOtherItem => b
  end.

Definition handle_guardian_assessment (target_item_id : option string) (turn_id : string) (s : GuardianAssessmentStatus)
    (action : GuardianAssessmentAction) (b : Builder) : Builder :=
  let build status := match build_item_from_guardian_event target_item_id action status with
                      | Some item => upsert_item turn_id item b
                      | None => b
                      end in
  match s with
  | AssessInProgress => build ExecInProgress
  | AssessDenied | AssessAborted => build ExecDeclined
  | AssessTimedOut => build ExecFailed
  | AssessApproved => b
  end.

Definition dynamic_tool_call_request_item (call_id : string) (namespace : option string) (tool : string) (arguments : Value) :
    ThreadItem :=
  ItemDynamicToolCall call_id namespace tool arguments CallInProgress None None None.

(** [convert_dynamic_tool_content_items] is the identity here. *)
Definition dynamic_tool_call_response_item (call_id : string) (namespace : option string) (tool : string) (arguments : Value)
    (content_items : list DynamicToolCallOutputContentItem) (success : bool) (duration : N) : ThreadItem :=
  ItemDynamicToolCall call_id namespace tool arguments (if success then CallCompleted else CallFailed) (Some content_items)
    (Some success) (millis duration).

Definition mcp_item (c : McpCall) (status : ToolCallStatus) (result : option McpToolCallResult) (error : option string)
    (duration_ms : option Z) : ThreadItem :=
  ItemMcpToolCall (mcp_call_id c) (server (invocation c)) (mcp_tool (invocation c)) status
    (default Null (mcp_arguments (invocation c)))
    ((λ id, {| connector_id := id; link_id := mcp_link_id c; resource_uri := mcp_resource_uri c |}) <$> mcp_connector_id c)
    (mcp_resource_uri c) (mcp_plugin_id c) result error duration_ms.

Definition mcp_is_success (result : Result CallToolResult string) : bool :=
  match result with Ok r => negb (default false (is_error r)) | Err _ => false end.

Definition mcp_tool_call_end_item (c : McpCall) (duration : N) (result : Result CallToolResult string) : ThreadItem :=
  let status := if mcp_is_success result then CallCompleted else CallFailed in
  match result with
  | Ok value =>
      mcp_item c status (Some {| result_content := call_content value; structured_content := call_structured_content value;
                                 result_meta := call_meta value |}) None (millis duration)
  | Err message => mcp_item c status None (Some message) (millis duration)
  end.

(** Calls between agents. *)
Definition collab_status (failed : bool) : ToolCallStatus := if failed then CallFailed else CallCompleted.

Definition spawn_begin_item (call_id sender prompt model : string) (effort : ReasoningEffort) : ThreadItem :=
  ItemCollabAgentToolCall call_id SpawnAgent CallInProgress sender [] (Some prompt) (Some model) (Some effort) ∅.

Definition spawn_end_item (call_id sender : string) (new_thread_id : option string) (prompt model : string)
    (effort : ReasoningEffort) (status : AgentStatus) : ThreadItem :=
  let '(receivers, states) :=
    match new_thread_id with
    | Some id => ([id], {[ id := state_of_status status ]})
    | None => ([], ∅)
    end in
  ItemCollabAgentToolCall call_id SpawnAgent (collab_status (status_failed status || negb (bool_decide (is_Some new_thread_id))))
    sender receivers (Some prompt) (Some model) (Some effort) states.

(** An event about one other agent, begun and ended. *)
Definition collab_begin_item (tool : CollabAgentTool) (call_id sender receiver : string) (prompt : option string) : ThreadItem :=
  ItemCollabAgentToolCall call_id tool CallInProgress sender [receiver] prompt None None ∅.
Definition collab_end_item (tool : CollabAgentTool) (call_id sender receiver : string) (prompt : option string)
    (status : AgentStatus) : ThreadItem :=
  ItemCollabAgentToolCall call_id tool (collab_status (status_failed status)) sender [receiver] prompt None None
    {[ receiver := state_of_status status ]}.

Definition waiting_begin_item (call_id sender : string) (receivers : list string) : ThreadItem :=
  ItemCollabAgentToolCall call_id WaitAgent CallInProgress sender receivers None None None ∅.
Definition waiting_end_item (call_id sender : string) (statuses : gmap string AgentStatus) : ThreadItem :=
  ItemCollabAgentToolCall call_id WaitAgent (collab_status (existsb status_failed (map_to_list statuses).*2)) sender
    (sort_by text_leb (map_to_list statuses).*1) None None None (state_of_status <$> statuses).

(** *** Reviews *)

Definition REVIEW_FALLBACK_MESSAGE : string := "Reviewer failed to output a response.".

Definition render_review_output_text (overall_explanation : string) : string :=
  let explanation := trim overall_explanation in
  if str_is_empty explanation then REVIEW_FALLBACK_MESSAGE else explanation.

(** *** The life of a turn *)

Definition handle_error (message : string) (info : option CodexErrorInfo) (b : Builder) : Builder :=
  if match info with Some i => info_affects_turn_status i | None => true end then
    in_current_turn (λ t, with_error {| error_message := message; codex_error_info := info |} (with_status TurnFailed t))
      (λ t, record_changed_turn (from_turn t)) b
  else b.

Definition apply_abort (completed_at duration_ms : option Z) (t : Turn) : Turn :=
  with_end completed_at duration_ms (with_status TurnInterrupted t).

Definition handle_turn_aborted (turn_id : option string) (completed_at duration_ms : option Z) (b : Builder) : Builder :=
  let record t := record_changed_turn (from_turn t) in
  let f := apply_abort completed_at duration_ms in
  match turn_id ≫= λ turn_id, in_turn turn_id f record b with
  | Some b' => b'
  | None => in_current_turn f record b
  end.

Definition handle_turn_started (turn_id : string) (started_at : option Z) (b : Builder) : Builder :=
  let b := finish_current_turn b in
  let turn := blank_turn turn_id TurnInProgress started_at in
  let b := record_changed_turn (from_turn turn) b in
  set_turns (turns b)
    (Some {| p_turn := turn; opened_explicitly := true; saw_compaction := false;
             rollout_start_index := current_rollout_index b |}) b.

Definition mark_completed (completed_at duration_ms : option Z) (t : Turn) : Turn :=
  with_end completed_at duration_ms
    match t_status t with TurnCompleted | TurnInProgress => with_status TurnCompleted t | _ => t end.

Definition handle_turn_complete (turn_id : string) (completed_at duration_ms : option Z) (b : Builder) : Builder :=
  let record t := record_changed_turn (from_turn t) in
  let f := mark_completed completed_at duration_ms in
  let close b := finish_current_turn (in_current_turn f record b) in
  let finished :=
    '(ts, t) ← update_turn turn_id f (turns b); Some (record t (set_turns ts (current_turn b) b)) in
  match current_turn b with
  | Some p =>
      if str_eqb (t_id (p_turn p)) turn_id then close b
      else default (close b) finished
  | None => default b finished
  end.

Definition handle_compacted (b : Builder) : Builder :=
  let b := ensure_turn b in
  match current_turn b with
  | Some p => set_turns (turns b) (Some {| p_turn := p_turn p; opened_explicitly := opened_explicitly p; saw_compaction := true;
                                           rollout_start_index := rollout_start_index p |}) b
  | None => b
  end.

Definition item_count (ts : list Turn) : nat := sum_list_with (λ t, length (t_items t)) ts.

(** [num_turns] is a [u32]. *)
Definition handle_thread_rollback (num_turns : N) (b : Builder) : Builder :=
  let b := finish_current_turn b in
  let n := N.to_nat num_turns in
  let kept := length (turns b) - n in
  let removed := t_id <$> (if length (turns b) <=? n then turns b else if n =? 0 then [] else drop kept (turns b)) in
  let b := record_removed_turn_ids removed b in
  let ts := if length (turns b) <=? n then [] else take kept (turns b) in
  set_next_item_index (Z.min (Z.of_nat (item_count ts) + 1) i64_max) (set_turns ts (current_turn b) b).

(** *** Dispatch *)

Definition handle_event (event : EventMsg) (b : Builder) : Builder :=
  match event with
  | EvUserMessage client_id message images details local_images local_details elements =>
      handle_user_message client_id (build_user_inputs message images details local_images local_details elements) b
  | EvAgentMessage message phase citation => handle_agent_message message phase citation b
  | EvAgentReasoning text => handle_agent_reasoning text b
  | EvAgentReasoningRawContent text => handle_agent_reasoning_raw_content text b
  | EvWebSearchBegin call_id => upsert_item_in_current_turn (ItemWebSearch call_id EmptyString None) b
  | EvWebSearchEnd call_id query action => upsert_item_in_current_turn (ItemWebSearch call_id query (Some action)) b
  | EvExecCommandBegin call => upsert_item_in_turn_id (exec_turn_id call) (build_command_execution_begin_item call) b
  | EvExecCommandEnd call output exit_code duration status =>
      upsert_item_in_turn_id (exec_turn_id call) (build_command_execution_end_item call output exit_code duration status) b
  | EvGuardianAssessment target turn_id status action => handle_guardian_assessment target turn_id status action b
  | EvApplyPatchApprovalRequest call_id turn_id changes =>
      upsert_item turn_id (build_file_change_approval_request_item call_id changes) b
  | EvPatchApplyBegin call_id turn_id changes => upsert_item turn_id (build_file_change_begin_item call_id changes) b
  | EvPatchApplyEnd call_id turn_id changes status =>
      upsert_item turn_id (build_file_change_end_item call_id changes status) b
  | EvDynamicToolCallRequest call_id turn_id namespace tool arguments =>
      upsert_item turn_id (dynamic_tool_call_request_item call_id namespace tool arguments) b
  | EvDynamicToolCallResponse call_id turn_id namespace tool arguments content_items success duration =>
      upsert_item turn_id (dynamic_tool_call_response_item call_id namespace tool arguments content_items success duration) b
  | EvMcpToolCallBegin call => upsert_item_in_current_turn (mcp_item call CallInProgress None None None) b
  | EvMcpToolCallEnd call duration result => upsert_item_in_current_turn (mcp_tool_call_end_item call duration result) b
  | EvViewImageToolCall call_id path => upsert_item_in_current_turn (ItemImageView call_id path) b
  | EvImageGenerationBegin call_id =>
      upsert_item_in_current_turn (ItemImageGeneration call_id EmptyString None EmptyString None) b
  | EvImageGenerationEnd call_id status revised_prompt result saved_path =>
      upsert_item_in_current_turn (ItemImageGeneration call_id status revised_prompt result saved_path) b
  | EvCollabAgentSpawnBegin call_id sender prompt model effort =>
      upsert_item_in_current_turn (spawn_begin_item call_id sender prompt model effort) b
  | EvCollabAgentSpawnEnd call_id sender new_thread_id prompt model effort status =>
      upsert_item_in_current_turn (spawn_end_item call_id sender new_thread_id prompt model effort status) b
  | EvCollabAgentInteractionBegin call_id sender receiver prompt =>
      upsert_item_in_current_turn (collab_begin_item SendInput call_id sender receiver (Some prompt)) b
  | EvCollabAgentInteractionEnd call_id sender receiver prompt status =>
      upsert_item_in_current_turn (collab_end_item SendInput call_id sender receiver (Some prompt) status) b
  | EvSubAgentActivity event_id agent_thread_id agent_path kind =>
      upsert_item_in_current_turn (ItemSubAgentActivity event_id kind agent_thread_id agent_path) b
  | EvCollabWaitingBegin call_id sender receivers =>
      upsert_item_in_current_turn (waiting_begin_item call_id sender receivers) b
  | EvCollabWaitingEnd call_id sender statuses => upsert_item_in_current_turn (waiting_end_item call_id sender statuses) b
  | EvCollabCloseBegin call_id sender receiver =>
      upsert_item_in_current_turn (collab_begin_item CloseAgent call_id sender receiver None) b
  | EvCollabCloseEnd call_id sender receiver status =>
      upsert_item_in_current_turn (collab_end_item CloseAgent call_id sender receiver None status) b
  | EvCollabResumeBegin call_id sender receiver =>
      upsert_item_in_current_turn (collab_begin_item ResumeAgent call_id sender receiver None) b
  | EvCollabResumeEnd call_id sender receiver status =>
      upsert_item_in_current_turn (collab_end_item ResumeAgent call_id sender receiver None status) b
  | EvContextCompacted => push_numbered ItemContextCompaction b
  | EvEnteredReviewMode hint => push_numbered (λ id, ItemEnteredReviewMode id (default "Review requested." hint)) b
  | EvExitedReviewMode explanation =>
      push_numbered (λ id, ItemExitedReviewMode id (from_option render_review_output_text REVIEW_FALLBACK_MESSAGE explanation)) b
  | EvItemStarted turn_id item | EvItemCompleted turn_id item => handle_turn_item turn_id item b
  | EvError message info => handle_error message info b
  | EvThreadRolledBack num_turns => handle_thread_rollback num_turns b
  | EvTurnAborted turn_id completed_at duration_ms => handle_turn_aborted turn_id completed_at duration_ms b
  | EvTurnStarted turn_id started_at => handle_turn_started turn_id started_at b
  | EvTurnComplete turn_id completed_at duration_ms => handle_turn_complete turn_id completed_at duration_ms b
  | EvOther => b
  end.

(** [parse_hook_prompt_message] of protocol/items.rs *)
Definition parse_hook_prompt_message (content : list ContentItem) : option (list HookPromptFragment) :=
  fragments ← mapM (λ c,
    match c with
    | InputText text => (λ '(text, id), {| fragment_text := text; hook_run_id := id |}) <$> parse_hook_prompt_fragment text
    | _ => None
    end) content;
  match fragments with [] => None | _ => Some fragments end.

Definition handle_response_item (item : ResponseItem) (b : Builder) : Builder :=
  match item with
  | Message id role content _ _ =>
      if str_eqb role "user" then
        match parse_hook_prompt_message content with
        | Some fragments =>
            match id with
            | Some id => push_item_in_current_turn (ItemHookPrompt id fragments) b
            | None => push_item_in_current_turn (ItemHookPrompt (uuid (uuids_drawn b)) fragments) (draw_uuid b)
            end
        | None => b
        end
      else b
  | _ => b
  end.

Definition handle_rollout_item (item : RolloutItem) (b : Builder) : Builder :=
  let b := set_rollout_index (next_rollout_index b) (S (next_rollout_index b)) b in
  match item with
  | RolloutEvent event => handle_event event b
  | RolloutCompacted => handle_compacted b
  | RolloutResponseItem item => handle_response_item item b
  | RolloutInterAgentCommunication | RolloutTurnContext _ | RolloutSessionMeta => b
  end.

Definition handle_rollout_items (items : list RolloutItem) (b : Builder) : Builder :=
  fold_left (λ b item, handle_rollout_item item b) items b.

Definition build_turns_from_rollout_items (items : list RolloutItem) : list Turn :=
  finish (handle_rollout_items items new_builder).

(** *** With changes *)

Definition collect_changes (handle : Builder → Builder) (b : Builder) : Builder * ThreadHistoryChangeSet :=
  let b := handle (set_changes (Some no_changes) b) in
  (set_changes None b, default no_changes (active_change_set b)).

Definition handle_event_with_changes (event : EventMsg) : Builder → Builder * ThreadHistoryChangeSet :=
  collect_changes (handle_event event).

Definition handle_rollout_item_with_changes (item : RolloutItem) : Builder → Builder * ThreadHistoryChangeSet :=
  collect_changes (handle_rollout_item item).

Definition accumulate (acc : Builder * ThreadHistoryChangeAccumulator) (item : RolloutItem) :
    Builder * ThreadHistoryChangeAccumulator :=
  let '(b, cs) := handle_rollout_item_with_changes item acc.1 in (b, push_changes acc.2 cs).

Definition handle_rollout_items_with_changes (items : list RolloutItem) (b : Builder) : Builder * ThreadHistoryChangeSet :=
  let '(b, acc) := fold_left accumulate items (b, empty_accumulator) in (b, finish_accumulator acc).
End builder.
