(* ===== verification/ThreadHistoryFacts.v ===== *)
(** * Facts about the history of a thread

    A client that applies the changes the builder reports keeps the turns the builder holds,
    one event at a time or in coalesced batches; the ids the builder makes up stay distinct
    also after a rollback. *)

From stdpp Require Import base gmap list strings.
From S2P Require Import Prelude Str Json Protocol AbsPath Permissions Fragments ApprovalPolicy ThreadHistory.

(** ** Updates by key

    Replacing an earlier update of the same key, in its place, does what applying it last does. *)

Fixpoint coalesce {X K} `{EqDecision K} (key : X → K) (l : list X) (x : X) : list X :=
  match l with
  | [] => [x]
  | y :: l => if decide (key y = key x) then x :: l else y :: coalesce key l x
  end.

Section updates.
Context {V X K : Type} `{EqDecision K} (key : X → K) (up : X → V → V) (present ready : K → V → Prop).
Hypothesis up_present : ∀ x v, ready (key x) v → present (key x) (up x v).
Hypothesis up_keeps : ∀ x k v, present k v → present k (up x v).
Hypothesis up_ready : ∀ x k v, ready k v → ready k (up x v).
Hypothesis up_again : ∀ x y v, key x = key y → up x (up y v) = up x v.
Hypothesis up_commute : ∀ x y v, key x ≠ key y → present (key x) v → up x (up y v) = up y (up x v).

Lemma fold_present k l v : present k v → present k (fold_left (λ v x, up x v) l v).
Proof using up_keeps. revert v. induction l; simpl; auto. Qed.

Lemma fold_commute x l v :
  present (key x) v → key x ∉ key <$> l → up x (fold_left (λ v x, up x v) l v) = fold_left (λ v x, up x v) l (up x v).
Proof using up_commute up_keeps.
  revert v. induction l as [|y l IH]; intros v Hp Hn; simpl; [done|]. apply not_elem_of_cons in Hn as [Hn1 Hn2].
  rewrite IH by auto. by rewrite up_commute.
Qed.

Lemma coalesce_fold l x v :
  NoDup (key <$> l) → ready (key x) v →
  fold_left (λ v x, up x v) (coalesce key l x) v = up x (fold_left (λ v x, up x v) l v).
Proof using All.
  revert v. induction l as [|y l IH]; intros v Hl Hr; simpl; [done|]. apply NoDup_cons in Hl as [Hy Hl].
  case_decide as Hk; simpl.
  - rewrite fold_commute; [by rewrite up_again|rewrite <-Hk; apply up_present; by rewrite Hk|by rewrite <-Hk].
  - apply IH; auto.
Qed.
End updates.

Lemma filter_id {A} (P : A → Prop) `{∀ x, Decision (P x)} (l : list A) : (∀ x, x ∈ l → P x) → filter P l = l.
Proof.
  induction l as [|x l IH]; intros Hl; [done|]. rewrite filter_cons_True by (apply Hl, list_elem_of_here).
  f_equal. apply IH. intros y Hy. apply Hl. by apply list_elem_of_further.
Qed.

Lemma list_filter_iff' {A} (P Q : A → Prop) `{∀ x, Decision (P x), ∀ x, Decision (Q x)} (l : list A) :
  (∀ x, x ∈ l → P x ↔ Q x) → filter P l = filter Q l.
Proof.
  induction l as [|x l IH]; intros Hl; [done|]. rewrite !filter_cons. specialize (Hl x (list_elem_of_here _ _)) as Hx.
  rewrite IH by (intros y Hy; by apply Hl, list_elem_of_further). case_decide; case_decide; naive_solver.
Qed.

Section coalesced.
Context {X K : Type} `{EqDecision K} (key : X → K).

Lemma coalesce_keys l x k : k ∈ key <$> coalesce key l x ↔ k ∈ key <$> l ∨ k = key x.
Proof. induction l as [|y l IH]; simpl; [set_solver|]. case_decide as Hk; simpl; rewrite ?elem_of_cons, ?IH, ?Hk; naive_solver. Qed.

Lemma coalesce_nodup l x : NoDup (key <$> l) → NoDup (key <$> coalesce key l x).
Proof.
  induction l as [|y l IH]; simpl; intros Hl; [apply NoDup_singleton|]. apply NoDup_cons in Hl as [Hy Hl].
  case_decide as Hk; simpl; apply NoDup_cons.
  - by rewrite <-Hk.
  - split; [|auto]. rewrite coalesce_keys. naive_solver.
Qed.

Lemma coalesce_elem l x y : y ∈ coalesce key l x → y = x ∨ y ∈ l.
Proof. induction l as [|z l IH]; simpl; [set_solver|]. case_decide; set_solver. Qed.

(** *** Slots with an index *)

(** No key is in two slots. *)
Definition unique_slots (l : list (option X)) : Prop :=
  ∀ i j x y, l !! i = Some (Some x) → l !! j = Some (Some y) → key x = key y → i = j.

Lemma unique_slots_cons o l : unique_slots (o :: l) → unique_slots l.
Proof. intros Hu i j x y Hi Hj Hk. specialize (Hu (S i) (S j) x y Hi Hj Hk). lia. Qed.

Lemma unique_slots_head x l y : unique_slots (Some x :: l) → y ∈ omap id l → key y ≠ key x.
Proof.
  intros Hu (o & Ho & Hid)%list_elem_of_omap Hk. simpl in Hid. subst o. apply list_elem_of_lookup in Ho as [j Hj].
  by specialize (Hu (S j) 0 y x Hj eq_refl Hk).
Qed.

Lemma unique_slots_nodup l : unique_slots l → NoDup (key <$> omap id l).
Proof.
  induction l as [|[x|] l IH]; intros Hu; simpl; [by apply NoDup_nil| |by apply unique_slots_cons, IH in Hu].
  constructor; [|by apply unique_slots_cons, IH in Hu].
  intros (y & Hk & Hy)%list_elem_of_fmap. by apply (unique_slots_head x l y Hu Hy).
Qed.

Lemma coalesce_absent l x : key x ∉ key <$> l → coalesce key l x = l ++ [x].
Proof.
  induction l as [|y l IH]; simpl; [done|]. intros [Hk Hn]%not_elem_of_cons.
  rewrite decide_False by done. by rewrite IH.
Qed.

Lemma replace_slot l i x y :
  unique_slots l → l !! i = Some (Some y) → key y = key x → omap id (<[i:=Some x]> l) = coalesce key (omap id l) x.
Proof.
  revert i. induction l as [|o l IH]; intros i Hu Hi Hk; [done|]. destruct i as [|i]; simpl in *.
  - injection Hi as ->. simpl. by rewrite decide_True.
  - destruct o as [z|]; simpl; [|by apply IH; [apply unique_slots_cons in Hu|..]].
    rewrite decide_False.
    + f_equal. by apply IH; [apply unique_slots_cons in Hu|..].
    + intros Hz. by specialize (Hu 0 (S i) z y eq_refl Hi (eq_trans Hz (eq_sym Hk))).
Qed.

Lemma drop_slot l i y :
  unique_slots l → l !! i = Some (Some y) → omap id (<[i:=None]> l) = filter (λ z, key z ≠ key y) (omap id l).
Proof.
  revert i. induction l as [|o l IH]; intros i Hu Hi; [done|]. destruct i as [|i]; simpl in *.
  - injection Hi as ->. simpl. rewrite filter_cons_False by naive_solver.
    symmetry. apply filter_id. intros z Hz. by apply (unique_slots_head y l z Hu Hz).
  - destruct o as [z|]; simpl; [|by apply IH; [apply unique_slots_cons in Hu|..]].
    rewrite filter_cons_True.
    + f_equal. by apply IH; [apply unique_slots_cons in Hu|..].
    + intros Hz. by specialize (Hu 0 (S i) z y eq_refl Hi Hz).
Qed.

Context `{!Countable K}.

(** [m] is the place of the slot of each key. *)
Definition indexed (l : list (option X)) (m : gmap K nat) : Prop :=
  ∀ k i, m !! k = Some i ↔ ∃ x, l !! i = Some (Some x) ∧ key x = k.

Lemma indexed_unique l m : indexed l m → unique_slots l.
Proof.
  intros Hm i j x y Hi Hj Hk. assert (m !! key x = Some i) as H1 by (apply Hm; eauto).
  assert (m !! key x = Some j) as H2 by (apply Hm; rewrite Hk; eauto). congruence.
Qed.

Lemma indexed_none l m k : indexed l m → m !! k = None → k ∉ key <$> omap id l.
Proof.
  intros Hm Hn (x & -> & (o & Ho & Hid)%list_elem_of_omap)%list_elem_of_fmap. simpl in Hid. subst o.
  apply list_elem_of_lookup in Ho as [i Hi]. assert (m !! key x = Some i) by (apply Hm; eauto). congruence.
Qed.

Lemma indexed_replace l m x i : indexed l m → m !! key x = Some i → indexed (<[i:=Some x]> l) m.
Proof.
  intros Hm Hi k j. rewrite (Hm k j). pose proof Hi as Hi'. apply Hm in Hi' as (y & Hy & Hk).
  destruct (decide (i = j)) as [->|Hne].
  - rewrite list_lookup_insert_eq by (by eapply lookup_lt_Some). rewrite Hy. naive_solver.
  - by rewrite list_lookup_insert_ne.
Qed.

Lemma indexed_append l m x : indexed l m → m !! key x = None → indexed (l ++ [Some x]) (<[key x := length l]> m).
Proof.
  intros Hm Hn k j. destruct (decide (k = key x)) as [->|Hne].
  - rewrite lookup_insert_eq. split.
    + intros [= <-]. exists x. by rewrite list_lookup_middle.
    + intros (y & Hy & Hk). apply lookup_app_Some in Hy as [Hy|[Hj Hy]].
      * assert (m !! key x = Some j) by (apply Hm; eauto). congruence.
      * f_equal. apply list_lookup_singleton_Some in Hy as [Hz _]. lia.
  - rewrite lookup_insert_ne by done. rewrite (Hm k j). split; intros (y & Hy & Hk); exists y; split; try done.
    + apply lookup_app_Some. by left.
    + apply lookup_app_Some in Hy as [Hy|[Hj Hy]]; [done|]. apply list_lookup_singleton_Some in Hy as [_ ?]. congruence.
Qed.

Lemma indexed_drop l m k i : indexed l m → m !! k = Some i → indexed (<[i:=None]> l) (delete k m).
Proof.
  intros Hm Hi k' j. rewrite lookup_delete_Some, (Hm k' j). pose proof Hi as Hi'. apply Hm in Hi' as (y & Hy & Hk).
  destruct (decide (i = j)) as [->|Hne].
  - rewrite list_lookup_insert_eq by (by eapply lookup_lt_Some). rewrite Hy. naive_solver.
  - rewrite list_lookup_insert_ne by done. split; [naive_solver|]. intros (z & Hz & Hzk). split; [|eauto].
    intros <-. apply Hne. eapply (indexed_unique l m Hm i j y z); congruence.
Qed.
End coalesced.

(** ** A client that applies changes *)

Notation View := (list Turn).

Definition ids (v : View) : list string := t_id <$> v.

Definition set_meta (c : ThreadHistoryTurnChange) (t : Turn) : Turn :=
  {| t_id := t_id t; t_items := t_items t; t_error := tc_error c; t_status := tc_status c; t_started_at := tc_started_at c;
     t_completed_at := tc_completed_at c; t_duration_ms := tc_duration_ms c |}.

(** A turn that is not known yet goes last, without items. *)
Fixpoint upsert_turn (c : ThreadHistoryTurnChange) (v : View) : View :=
  match v with
  | [] => [set_meta c (blank_turn (tc_turn_id c) TurnCompleted None)]
  | t :: v => if decide (t_id t = tc_turn_id c) then set_meta c t :: v else t :: upsert_turn c v
  end.

Fixpoint upsert_change (c : ThreadHistoryItemChange) (v : View) : View :=
  match v with
  | [] => []
  | t :: v => if decide (t_id t = item_change_turn_id c) then upsert_in (changed_item c) t :: v else t :: upsert_change c v
  end.

Definition remove_turns (removed : list string) (v : View) : View := filter (λ t, t_id t ∉ removed) v.

Definition apply_changes (cs : ThreadHistoryChangeSet) (v : View) : View :=
  fold_left (λ v c, upsert_change c v) (changed_items cs)
    (fold_left (λ v c, upsert_turn c v) (changed_turns cs) (remove_turns (removed_turn_ids cs) v)).

(** *** Turns *)

Lemma upsert_turn_ids c v k : k ∈ ids (upsert_turn c v) ↔ k ∈ ids v ∨ k = tc_turn_id c.
Proof.
  induction v as [|t v IH]; simpl; [set_solver|]. case_decide as Hd; simpl; rewrite !elem_of_cons, ?IH; naive_solver.
Qed.

Lemma upsert_turn_nodup c v : NoDup (ids v) → NoDup (ids (upsert_turn c v)).
Proof.
  induction v as [|t v IH]; simpl; intros Hv; [apply NoDup_singleton|]. apply NoDup_cons in Hv as [Ht Hv].
  case_decide as Hd; simpl; apply NoDup_cons; [done|]. split; [|auto]. rewrite upsert_turn_ids. naive_solver.
Qed.

Lemma upsert_turn_again x y v : tc_turn_id x = tc_turn_id y → upsert_turn x (upsert_turn y v) = upsert_turn x v.
Proof.
  intros Hxy. induction v as [|t v IH]; simpl; [by rewrite decide_True, Hxy|].
  case_decide as Hy; simpl; [by rewrite !decide_True by congruence|]. rewrite !decide_False by congruence. by rewrite IH.
Qed.

Lemma upsert_turn_commute x y v :
  tc_turn_id x ≠ tc_turn_id y → tc_turn_id x ∈ ids v → upsert_turn x (upsert_turn y v) = upsert_turn y (upsert_turn x v).
Proof.
  intros Hxy. induction v as [|t v IH]; simpl; [by intros ?%not_elem_of_nil|]. intros [Hx|Hx]%elem_of_cons.
  - rewrite (decide_False (P := t_id t = tc_turn_id y)), (decide_True (P := t_id t = tc_turn_id x)) by congruence. simpl.
    rewrite (decide_False (P := t_id t = tc_turn_id y)), (decide_True (P := t_id t = tc_turn_id x)) by congruence. done.
  - destruct (decide (t_id t = tc_turn_id y)) as [Hy|Hy], (decide (t_id t = tc_turn_id x)) as [Ht|Ht]; simpl;
      [congruence| | |].
    + rewrite (decide_False (P := t_id t = tc_turn_id x)), (decide_True (P := t_id t = tc_turn_id y)) by done. done.
    + rewrite (decide_False (P := t_id t = tc_turn_id y)), (decide_True (P := t_id t = tc_turn_id x)) by done. done.
    + rewrite (decide_False (P := t_id t = tc_turn_id y)), (decide_False (P := t_id t = tc_turn_id x)) by done. by rewrite IH.
Qed.

Lemma coalesce_turn l x v :
  NoDup (tc_turn_id <$> l) →
  fold_left (λ v c, upsert_turn c v) (coalesce tc_turn_id l x) v = upsert_turn x (fold_left (λ v c, upsert_turn c v) l v).
Proof.
  intros Hl. apply (coalesce_fold tc_turn_id upsert_turn (λ k v, k ∈ ids v) (λ _ _, True)); try done.
  - intros y w _. apply upsert_turn_ids. by right.
  - intros y k w Hk. apply upsert_turn_ids. by left.
  - apply upsert_turn_again.
  - intros y z w. apply upsert_turn_commute.
Qed.

(** *** Items *)

Lemma upsert_item_ids item items k :
  k ∈ item_id <$> upsert_turn_item item items ↔ k ∈ item_id <$> items ∨ k = item_id item.
Proof.
  induction items as [|i items IH]; simpl; [set_solver|].
  destruct (str_eqb (item_id i) (item_id item)) eqn:E; simpl; rewrite !elem_of_cons, ?IH; [|naive_solver].
  apply str_eqb_true in E. naive_solver.
Qed.

Lemma upsert_item_again x y items :
  item_id x = item_id y → upsert_turn_item x (upsert_turn_item y items) = upsert_turn_item x items.
Proof.
  intros Hxy. induction items as [|i items IH]; simpl; [by rewrite Hxy, str_eqb_refl|].
  destruct (str_eqb (item_id i) (item_id y)) eqn:E; simpl; rewrite Hxy, ?str_eqb_refl, E; [done|]. by rewrite IH.
Qed.

Lemma upsert_item_commute x y items :
  item_id x ≠ item_id y → item_id x ∈ item_id <$> items →
  upsert_turn_item x (upsert_turn_item y items) = upsert_turn_item y (upsert_turn_item x items).
Proof.
  intros Hxy. induction items as [|i items IH]; simpl; [by intros ?%not_elem_of_nil|]. intros Hx.
  destruct (str_eqb (item_id i) (item_id y)) eqn:Ey, (str_eqb (item_id i) (item_id x)) eqn:Ex; simpl.
  - apply str_eqb_true in Ey, Ex. congruence.
  - assert (str_eqb (item_id y) (item_id x) = false) as -> by (by apply str_eqb_false). by rewrite Ey.
  - assert (str_eqb (item_id x) (item_id y) = false) as -> by (by apply str_eqb_false). by rewrite Ex.
  - rewrite Ey, Ex, IH; [done|]. apply elem_of_cons in Hx as [Hx|Hx]; [|done].
    symmetry in Hx. apply str_eqb_true in Hx. congruence.
Qed.

Lemma upsert_change_ids c v : ids (upsert_change c v) = ids v.
Proof. induction v as [|t v IH]; [done|]. cbn. case_decide; cbn; [done|]. f_equal. exact IH. Qed.

(** Whether the first turn with the id has the item. *)
Fixpoint has_item (k : string * string) (v : View) : Prop :=
  match v with
  | [] => False
  | t :: v => if decide (t_id t = k.1) then k.2 ∈ item_id <$> t_items t else has_item k v
  end.

Lemma has_item_upsert c v : item_change_turn_id c ∈ ids v → has_item (item_change_key c) (upsert_change c v).
Proof.
  induction v as [|t v IH]; simpl; [by intros ?%not_elem_of_nil|]. intros Hc. case_decide as Ht; simpl.
  - rewrite decide_True by done. apply upsert_item_ids. by right.
  - rewrite decide_False by done. apply elem_of_cons in Hc as [?|?]; [congruence|auto].
Qed.

Lemma has_item_keeps c k v : has_item k v → has_item k (upsert_change c v).
Proof.
  induction v as [|t v IH]; simpl; [done|]. case_decide as Hk; case_decide as Hc; simpl.
  - rewrite decide_True by done. intros ?. apply upsert_item_ids. by left.
  - by rewrite decide_True.
  - by rewrite decide_False.
  - rewrite decide_False by done. auto.
Qed.

Lemma upsert_change_again x y v :
  item_change_key x = item_change_key y → upsert_change x (upsert_change y v) = upsert_change x v.
Proof.
  intros [= Ht Hi]. induction v as [|t v IH]; simpl; [done|]. case_decide as Hy; simpl.
  - rewrite !decide_True by congruence. unfold upsert_in. simpl. by rewrite upsert_item_again.
  - rewrite !decide_False by congruence. by rewrite IH.
Qed.

Lemma upsert_change_commute x y v :
  item_change_key x ≠ item_change_key y → has_item (item_change_key x) v →
  upsert_change x (upsert_change y v) = upsert_change y (upsert_change x v).
Proof.
  intros Hk. induction v as [|t v IH]; simpl; [done|]. intros Hx.
  destruct (decide (t_id t = item_change_turn_id x)) as [Ex|Ex], (decide (t_id t = item_change_turn_id y)) as [Ey|Ey]; simpl.
  - rewrite !decide_True by done. f_equal. unfold upsert_in, with_items. simpl. f_equal.
    apply upsert_item_commute; [|done]. intros He. apply Hk. unfold item_change_key. congruence.
  - rewrite decide_True by done. by rewrite decide_False.
  - rewrite decide_False by done. by rewrite decide_True.
  - rewrite !decide_False by done. by rewrite IH.
Qed.

Lemma coalesce_item l x v :
  NoDup (item_change_key <$> l) → item_change_turn_id x ∈ ids v →
  fold_left (λ v c, upsert_change c v) (coalesce item_change_key l x) v =
  upsert_change x (fold_left (λ v c, upsert_change c v) l v).
Proof.
  intros Hl Hx. apply (coalesce_fold item_change_key upsert_change has_item (λ k v, k.1 ∈ ids v)); try done.
  - intros y w. apply has_item_upsert.
  - intros y k w. apply has_item_keeps.
  - intros y k w. by rewrite upsert_change_ids.
  - intros y z w. apply upsert_change_again.
  - intros y z w. apply upsert_change_commute.
Qed.

(** *** Removals and the three kinds together *)

Notation apply_turns := (fold_left (λ v c, upsert_turn c v)).
Notation apply_items := (fold_left (λ v c, upsert_change c v)).

Lemma remove_turns_ids R v k : k ∈ ids (remove_turns R v) ↔ k ∈ ids v ∧ k ∉ R.
Proof. unfold ids, remove_turns. rewrite !list_elem_of_fmap. setoid_rewrite list_elem_of_filter. naive_solver. Qed.

Lemma remove_nothing v : remove_turns [] v = v.
Proof. apply filter_id. intros t _. apply not_elem_of_nil. Qed.

Lemma remove_twice R R' v : remove_turns R' (remove_turns R v) = remove_turns (R ++ R') v.
Proof. unfold remove_turns. rewrite list_filter_filter. apply list_filter_iff. intros t. rewrite not_elem_of_app. naive_solver. Qed.

Lemma remove_same R R' v : (∀ k, k ∈ R ↔ k ∈ R') → remove_turns R v = remove_turns R' v.
Proof. intros HR. apply list_filter_iff. intros t. by rewrite HR. Qed.

Lemma remove_upsert_turn R c v :
  remove_turns R (upsert_turn c v) = if decide (tc_turn_id c ∈ R) then remove_turns R v else upsert_turn c (remove_turns R v).
Proof.
  unfold remove_turns. induction v as [|t v IH]; simpl.
  { rewrite filter_cons. simpl. case_decide; case_decide; done. }
  destruct (decide (t_id t = tc_turn_id c)) as [Ht|Ht]; rewrite !filter_cons; simpl.
  - rewrite Ht. case_decide; case_decide; try done. simpl. by rewrite decide_True.
  - rewrite IH. case_decide; case_decide; try done. simpl. by rewrite decide_False.
Qed.

Lemma remove_upsert_change R c v :
  remove_turns R (upsert_change c v) =
  if decide (item_change_turn_id c ∈ R) then remove_turns R v else upsert_change c (remove_turns R v).
Proof.
  unfold remove_turns. induction v as [|t v IH]; simpl; [by case_decide|].
  destruct (decide (t_id t = item_change_turn_id c)) as [Ht|Ht]; rewrite !filter_cons; simpl.
  - rewrite Ht. case_decide; case_decide; try done. simpl. by rewrite decide_True.
  - rewrite IH. case_decide; case_decide; try done. simpl. by rewrite decide_False.
Qed.

Lemma remove_apply_turns R l v :
  remove_turns R (apply_turns l v) = apply_turns (filter (λ c, tc_turn_id c ∉ R) l) (remove_turns R v).
Proof.
  revert v. induction l as [|c l IH]; intros v; simpl; [done|]. rewrite IH, remove_upsert_turn, filter_cons.
  case_decide; case_decide; done.
Qed.

Lemma remove_apply_items R l v :
  remove_turns R (apply_items l v) = apply_items (filter (λ c, item_change_turn_id c ∉ R) l) (remove_turns R v).
Proof.
  revert v. induction l as [|c l IH]; intros v; simpl; [done|]. rewrite IH, remove_upsert_change, filter_cons.
  case_decide; case_decide; done.
Qed.

Lemma apply_items_ids l v : ids (apply_items l v) = ids v.
Proof. revert v. induction l as [|c l IH]; intros v; simpl; [done|]. by rewrite IH, upsert_change_ids. Qed.

Lemma apply_turns_ids l v k : k ∈ ids (apply_turns l v) ↔ k ∈ ids v ∨ k ∈ tc_turn_id <$> l.
Proof.
  revert v. induction l as [|c l IH]; intros v; simpl; [set_solver|]. rewrite IH, upsert_turn_ids. set_solver.
Qed.

Lemma turn_after_item c i v :
  item_change_turn_id i ∈ ids v → upsert_turn c (upsert_change i v) = upsert_change i (upsert_turn c v).
Proof.
  induction v as [|t v IH]; simpl; [by intros ?%not_elem_of_nil|]. intros Hi.
  destruct (decide (t_id t = item_change_turn_id i)) as [Ei|Ei], (decide (t_id t = tc_turn_id c)) as [Ec|Ec]; simpl.
  - by rewrite !decide_True.
  - rewrite decide_False by done. by rewrite decide_True.
  - rewrite decide_True by done. by rewrite decide_False.
  - rewrite !decide_False by done. apply elem_of_cons in Hi as [?|?]; [congruence|]. by rewrite IH.
Qed.

(** Items whose turns are known. *)
Definition refers (l : list ThreadHistoryItemChange) (v : View) : Prop := ∀ c, c ∈ l → item_change_turn_id c ∈ ids v.

Lemma turns_after_items l l' v : refers l v → apply_turns l' (apply_items l v) = apply_items l (apply_turns l' v).
Proof.
  revert v. induction l as [|i l IH]; intros v Hr; simpl; [done|].
  assert (item_change_turn_id i ∈ ids v) as Hi by (apply Hr, list_elem_of_here).
  rewrite IH by (intros c Hc; rewrite upsert_change_ids; by apply Hr, list_elem_of_further). f_equal. clear IH Hr.
  revert v Hi. induction l' as [|c l' IH]; intros v Hi; simpl; [done|].
  rewrite turn_after_item by done. apply IH, upsert_turn_ids. by left.
Qed.

Lemma coalesce_turns l l' v :
  NoDup (tc_turn_id <$> l) →
  apply_turns (fold_left (coalesce tc_turn_id) l' l) v = apply_turns l' (apply_turns l v) ∧
  NoDup (tc_turn_id <$> fold_left (coalesce tc_turn_id) l' l).
Proof.
  revert l. induction l' as [|c l' IH]; intros l Hl; simpl; [done|].
  destruct (IH (coalesce tc_turn_id l c)) as [IH1 IH2]; [by apply coalesce_nodup|]. split; [|done].
  by rewrite IH1, coalesce_turn.
Qed.

Lemma coalesce_items l l' v :
  NoDup (item_change_key <$> l) → refers l' v →
  apply_items (fold_left (coalesce item_change_key) l' l) v = apply_items l' (apply_items l v) ∧
  NoDup (item_change_key <$> fold_left (coalesce item_change_key) l' l) ∧
  ∀ c, c ∈ fold_left (coalesce item_change_key) l' l → c ∈ l ∨ c ∈ l'.
Proof.
  revert l. induction l' as [|c l' IH]; intros l Hl Hr; simpl; [naive_solver|].
  destruct (IH (coalesce item_change_key l c)) as (IH1 & IH2 & IH3);
    [by apply coalesce_nodup|intros d Hd; by apply Hr, list_elem_of_further|]. split_and!; [|done|].
  - rewrite IH1, coalesce_item; [done|done|]. apply Hr, list_elem_of_here.
  - intros d Hd. apply IH3 in Hd as [[->|Hd]%coalesce_elem|Hd]; set_solver.
Qed.

Definition add_new (l : list string) (k : string) : list string := if decide (k ∈ l) then l else l ++ [k].

Lemma add_new_elem l l' k : k ∈ fold_left add_new l' l ↔ k ∈ l ∨ k ∈ l'.
Proof.
  revert l. induction l' as [|j l' IH]; intros l; simpl; [set_solver|]. rewrite IH. unfold add_new. case_decide; set_solver.
Qed.

(** What a batch has collected. *)
Definition merged (cs cs' : ThreadHistoryChangeSet) : ThreadHistoryChangeSet :=
  {| changed_items := fold_left (coalesce item_change_key) (changed_items cs')
       (filter (λ c, item_change_turn_id c ∉ removed_turn_ids cs') (changed_items cs));
     changed_turns := fold_left (coalesce tc_turn_id) (changed_turns cs')
       (filter (λ c, tc_turn_id c ∉ removed_turn_ids cs') (changed_turns cs));
     removed_turn_ids := fold_left add_new (removed_turn_ids cs') (removed_turn_ids cs) |}.

Definition coalesced (cs : ThreadHistoryChangeSet) (v : View) : Prop :=
  NoDup (item_change_key <$> changed_items cs) ∧ NoDup (tc_turn_id <$> changed_turns cs) ∧ refers (changed_items cs) v.

Lemma NoDup_fmap_filter {A B} (f : A → B) (P : A → Prop) `{∀ x, Decision (P x)} (l : list A) :
  NoDup (f <$> l) → NoDup (f <$> filter P l).
Proof.
  induction l as [|x l IH]; intros Hl; [done|]. rewrite filter_cons. apply NoDup_cons in Hl as [Hx Hl].
  case_decide; [|auto]. apply NoDup_cons. split; [|auto]. intros (y & Hy & [_ Hin]%list_elem_of_filter)%list_elem_of_fmap.
  apply Hx. rewrite Hy. by apply list_elem_of_fmap_2.
Qed.

Lemma merged_applies cs cs' v v1 v2 :
  apply_changes cs v = v1 → coalesced cs v1 → apply_changes cs' v1 = v2 → refers (changed_items cs') v2 →
  apply_changes (merged cs cs') v = v2 ∧ coalesced (merged cs cs') v2.
Proof.
  intros <- (Hi & Ht & Hr) <- Hr'. set (R' := removed_turn_ids cs').
  set (w := remove_turns R' (remove_turns (removed_turn_ids cs) v)).
  set (items := filter (λ c, item_change_turn_id c ∉ R') (changed_items cs)).
  set (ts := filter (λ c, tc_turn_id c ∉ R') (changed_turns cs)).
  assert (remove_turns R' (apply_changes cs v) = apply_items items (apply_turns ts w)) as Hrem.
  { unfold apply_changes. by rewrite remove_apply_items, remove_apply_turns. }
  assert (refers items (apply_turns ts w)) as Hitems.
  { intros c [Hn Hc]%list_elem_of_filter. apply Hr in Hc. rewrite <-(apply_items_ids items), <-Hrem.
    by apply remove_turns_ids. }
  assert (remove_turns (removed_turn_ids (merged cs cs')) v = w) as Hw.
  { unfold w. rewrite remove_twice. apply remove_same. intros k. simpl.
    by rewrite elem_of_app, add_new_elem. }
  destruct (coalesce_turns ts (changed_turns cs') w) as [HT HTn]; [by apply NoDup_fmap_filter|].
  set (w' := apply_turns (changed_turns cs') (apply_turns ts w)) in *.
  assert (apply_changes cs' (apply_changes cs v) = apply_items (changed_items cs') (apply_items items w')) as Happ.
  { unfold apply_changes at 1. fold R'. rewrite Hrem. f_equal. by apply turns_after_items. }
  rewrite Happ in Hr' |- *.
  assert (refers (changed_items cs') w') as Hr'' by (intros c Hc; specialize (Hr' c Hc); by rewrite !apply_items_ids in Hr').
  destruct (coalesce_items items (changed_items cs') w') as (HI & HIn & HIe); [by apply NoDup_fmap_filter|done|].
  split; [|split_and!; [done|done|]].
  - unfold apply_changes. rewrite Hw. rewrite <-HI, <-HT. done.
  - intros c Hc. rewrite !apply_items_ids. apply HIe in Hc as [Hc|Hc]; [|by apply Hr''].
    apply Hitems in Hc. unfold w'. apply apply_turns_ids. by left.
Qed.

(** *** The accumulator *)

Definition acc_ok (a : ThreadHistoryChangeAccumulator) : Prop :=
  indexed item_change_key (acc_items a) (acc_item_indexes a) ∧ indexed tc_turn_id (acc_turns a) (acc_turn_indexes a) ∧
  ∀ k, is_Some (acc_removed_indexes a !! k) ↔ k ∈ acc_removed a.

Lemma empty_accumulator_ok : acc_ok empty_accumulator.
Proof.
  unfold acc_ok, indexed. simpl. split_and!; [intros k i|intros k i|intros k]; rewrite lookup_empty.
  1,2: split; [done|by intros (x & ? & _)]. split; [by intros [? ?]|by intros ?%not_elem_of_nil].
Qed.

Lemma push_item_change_spec a c :
  acc_ok a → acc_ok (push_item_change a c) ∧
  finish_accumulator (push_item_change a c) =
    {| changed_items := coalesce item_change_key (omap id (acc_items a)) c; changed_turns := omap id (acc_turns a);
       removed_turn_ids := acc_removed a |}.
Proof.
  intros (Hi & Ht & Hr). unfold push_item_change. destruct (acc_item_indexes a !! item_change_key c) as [i|] eqn:Hk.
  - split; [split_and!; [by apply indexed_replace|done|done]|]. unfold finish_accumulator. simpl. f_equal.
    pose proof Hk as (y & Hy & Hyk)%Hi. apply (replace_slot item_change_key _ _ _ y); [by eapply indexed_unique|done|done].
  - split; [split_and!; [by apply indexed_append|done|done]|]. unfold finish_accumulator. simpl. f_equal.
    rewrite omap_app. simpl. symmetry. apply coalesce_absent. by eapply indexed_none.
Qed.

Lemma push_turn_change_spec a c :
  acc_ok a → acc_ok (push_turn_change a c) ∧
  finish_accumulator (push_turn_change a c) =
    {| changed_items := omap id (acc_items a); changed_turns := coalesce tc_turn_id (omap id (acc_turns a)) c;
       removed_turn_ids := acc_removed a |}.
Proof.
  intros (Hi & Ht & Hr). unfold push_turn_change. destruct (acc_turn_indexes a !! tc_turn_id c) as [i|] eqn:Hk.
  - split; [split_and!; [done|by apply indexed_replace|done]|]. unfold finish_accumulator. simpl. f_equal.
    pose proof Hk as (y & Hy & Hyk)%Ht. apply (replace_slot tc_turn_id _ _ _ y); [by eapply indexed_unique|done|done].
  - split; [split_and!; [done|by apply indexed_append|done]|]. unfold finish_accumulator. simpl. f_equal.
    rewrite omap_app. simpl. symmetry. apply coalesce_absent. by eapply indexed_none.
Qed.

Lemma drop_keys ks l m :
  indexed item_change_key l m →
  let '(l', m') := fold_left drop_item_key ks (l, m) in
  indexed item_change_key l' m' ∧ omap id l' = filter (λ c, item_change_key c ∉ ks) (omap id l).
Proof.
  revert l m. induction ks as [|k ks IH]; intros l m Hm; simpl.
  { split; [done|]. symmetry. apply filter_id. intros c _. apply not_elem_of_nil. }
  unfold drop_item_key at 2. simpl. destruct (m !! k) as [i|] eqn:Hk.
  - pose proof Hk as (y & Hy & Hyk)%Hm. specialize (IH _ _ (indexed_drop _ _ _ _ _ Hm Hk)).
    destruct (fold_left _ _ _) as [l' m']. destruct IH as [IH1 IH2]. split; [done|].
    rewrite IH2, (drop_slot item_change_key _ _ y) by (done || by eapply indexed_unique). rewrite list_filter_filter.
    apply list_filter_iff. intros c. rewrite Hyk, not_elem_of_cons. naive_solver.
  - specialize (IH l m Hm). destruct (fold_left _ _ _) as [l' m']. destruct IH as [IH1 IH2]. split; [done|].
    rewrite IH2. apply list_filter_iff'. intros c Hc. rewrite not_elem_of_cons. split; [|naive_solver].
    intros Hn. split; [|done]. intros <-. apply (indexed_none _ _ _ _ Hm Hk). by apply list_elem_of_fmap_2.
Qed.

Lemma push_removed_spec a k :
  acc_ok a → acc_ok (push_removed_turn_id a k) ∧
  finish_accumulator (push_removed_turn_id a k) =
    {| changed_items := filter (λ c, item_change_turn_id c ≠ k) (omap id (acc_items a));
       changed_turns := filter (λ c, tc_turn_id c ≠ k) (omap id (acc_turns a));
       removed_turn_ids := add_new (acc_removed a) k |}.
Proof.
  intros (Hi & Ht & Hr). unfold push_removed_turn_id. pose proof (drop_keys (removed_item_keys a k) _ _ Hi) as Hd.
  destruct (fold_left _ _ _) as [items indexes]. destruct Hd as [Hd1 Hd2]. split; [split_and!; simpl; [done| |]|].
  - destruct (acc_turn_indexes a !! k) as [i|] eqn:Hk; [by apply indexed_drop|]. by rewrite delete_id.
  - intros j. case_bool_decide as Hs; [done|]. rewrite elem_of_app, list_elem_of_singleton.
    destruct (decide (k = j)) as [->|Hne]; [rewrite lookup_insert_eq; naive_solver|].
    rewrite lookup_insert_ne, Hr by done. naive_solver.
  - unfold finish_accumulator. simpl. f_equal.
    + rewrite Hd2. apply list_filter_iff'. intros c Hc. unfold removed_item_keys.
      rewrite list_elem_of_In, filter_In, <-list_elem_of_In, str_eqb_true, list_elem_of_fmap. simpl. split; [|naive_solver].
      intros Hn Hk. apply Hn. split; [|done]. apply list_elem_of_omap in Hc as (o & Ho & Hid). simpl in Hid. subst o.
      apply list_elem_of_lookup in Ho as [i Hidx]. exists (item_change_key c, i). split; [done|].
      apply elem_of_map_to_list, Hi. eauto.
    + destruct (acc_turn_indexes a !! k) as [i|] eqn:Hk.
      * pose proof Hk as (y & Hy & <-)%Ht. apply drop_slot; [by eapply indexed_unique|done].
      * symmetry. apply filter_id. intros c Hc <-. apply (indexed_none _ _ _ _ Ht Hk). by apply list_elem_of_fmap_2.
    + unfold add_new. specialize (Hr k). destruct (decide (k ∈ acc_removed a)); case_bool_decide; naive_solver.
Qed.

(** The three loops of a push. *)
Lemma push_all_removed R a :
  acc_ok a → acc_ok (fold_left push_removed_turn_id R a) ∧
  finish_accumulator (fold_left push_removed_turn_id R a) =
    {| changed_items := filter (λ c, item_change_turn_id c ∉ R) (omap id (acc_items a));
       changed_turns := filter (λ c, tc_turn_id c ∉ R) (omap id (acc_turns a));
       removed_turn_ids := fold_left add_new R (acc_removed a) |}.
Proof.
  revert a. induction R as [|k R IH]; intros a Ha; simpl.
  { split; [done|]. unfold finish_accumulator. f_equal; symmetry; apply filter_id; intros c _; apply not_elem_of_nil. }
  destruct (push_removed_spec a k Ha) as [Hk Hf]. destruct (IH _ Hk) as [IH1 IH2]. split; [done|]. rewrite IH2.
  unfold finish_accumulator in Hf. injection Hf as -> -> ->. rewrite !list_filter_filter. f_equal;
    apply list_filter_iff; intros c; rewrite not_elem_of_cons; naive_solver.
Qed.

Lemma push_all_items l a :
  acc_ok a → acc_ok (fold_left push_item_change l a) ∧
  finish_accumulator (fold_left push_item_change l a) =
    {| changed_items := fold_left (coalesce item_change_key) l (omap id (acc_items a));
       changed_turns := omap id (acc_turns a); removed_turn_ids := acc_removed a |}.
Proof.
  revert a. induction l as [|c l IH]; intros a Ha; simpl; [done|].
  destruct (push_item_change_spec a c Ha) as [Hk Hf]. destruct (IH _ Hk) as [IH1 IH2]. split; [done|]. rewrite IH2.
  unfold finish_accumulator in Hf. by injection Hf as -> -> ->.
Qed.

Lemma push_all_turns l a :
  acc_ok a → acc_ok (fold_left push_turn_change l a) ∧
  finish_accumulator (fold_left push_turn_change l a) =
    {| changed_items := omap id (acc_items a); changed_turns := fold_left (coalesce tc_turn_id) l (omap id (acc_turns a));
       removed_turn_ids := acc_removed a |}.
Proof.
  revert a. induction l as [|c l IH]; intros a Ha; simpl; [done|].
  destruct (push_turn_change_spec a c Ha) as [Hk Hf]. destruct (IH _ Hk) as [IH1 IH2]. split; [done|]. rewrite IH2.
  unfold finish_accumulator in Hf. by injection Hf as -> -> ->.
Qed.

Lemma push_changes_merged a cs :
  acc_ok a → acc_ok (push_changes a cs) ∧ finish_accumulator (push_changes a cs) = merged (finish_accumulator a) cs.
Proof.
  intros Ha. unfold push_changes. destruct (push_all_removed (removed_turn_ids cs) a Ha) as [H1 F1].
  destruct (push_all_items (changed_items cs) _ H1) as [H2 F2].
  destruct (push_all_turns (changed_turns cs) _ H2) as [H3 F3]. split; [done|]. rewrite F3.
  unfold finish_accumulator in F1, F2. injection F1 as E1 E2 E3. injection F2 as F4 F5 F6.
  unfold merged. simpl. by rewrite F4, F5, F6, E1, E2, E3.
Qed.
