(* ===== verification/ThreadReplay.v ===== *)
(** * Replaying the changes of a thread

    Each handler of the builder against the client of [ThreadHistoryFacts], the ids that stay
    distinct, and the replay of a batch. *)

From stdpp Require Import base gmap list strings.
From S2P Require Import Prelude Str Json Protocol AbsPath Permissions Fragments ApprovalPolicy ThreadHistory ThreadHistoryFacts.

(** The turns a builder stands for: the finished ones and the current one. *)
Definition view (b : Builder) : View := turns b ++ option_list (p_turn <$> current_turn b).

(** No two turns, and no two items of a turn, have the same id. *)
Definition distinct (v : View) : Prop := NoDup (ids v) ∧ ∀ t, t ∈ v → NoDup (item_id <$> t_items t).

(** The current turn is not one that closing would drop. *)
Definition kept (b : Builder) : Prop :=
  ∀ p, current_turn b = Some p → t_items (p_turn p) ≠ [] ∨ opened_explicitly p = true ∨ saw_compaction p = true.

(** ** Views of turns *)

Lemma ids_app v w : ids (v ++ w) = ids v ++ ids w.
Proof. apply fmap_app. Qed.

Lemma upsert_turn_new c v :
  tc_turn_id c ∉ ids v → upsert_turn c v = v ++ [set_meta c (blank_turn (tc_turn_id c) TurnCompleted None)].
Proof.
  induction v as [|t v IH]; simpl; [done|]. intros [Ht Hv]%not_elem_of_cons. rewrite decide_False by done. by rewrite IH.
Qed.

Lemma upsert_turn_last c v t : tc_turn_id c = t_id t → t_id t ∉ ids v → upsert_turn c (v ++ [t]) = v ++ [set_meta c t].
Proof.
  intros Hc. induction v as [|u v IH]; simpl; [by rewrite decide_True|].
  intros [Hu Hv]%not_elem_of_cons. rewrite decide_False by congruence. by rewrite IH.
Qed.

Lemma upsert_change_last c v t :
  item_change_turn_id c = t_id t → t_id t ∉ ids v → upsert_change c (v ++ [t]) = v ++ [upsert_in (changed_item c) t].
Proof.
  intros Hc. induction v as [|u v IH]; simpl; [by rewrite decide_True|].
  intros [Hu Hv]%not_elem_of_cons. rewrite decide_False by congruence. by rewrite IH.
Qed.

Lemma upsert_item_new item items : item_id item ∉ item_id <$> items → upsert_turn_item item items = items ++ [item].
Proof.
  induction items as [|i items IH]; simpl; [done|]. intros [Hi Hn]%not_elem_of_cons.
  assert (str_eqb (item_id i) (item_id item) = false) as -> by (apply str_eqb_false; congruence). by rewrite IH.
Qed.

Lemma upsert_item_last item items x :
  item_id x = item_id item → NoDup (item_id <$> items ++ [x]) → upsert_turn_item item (items ++ [x]) = items ++ [item].
Proof.
  intros Hx. induction items as [|i items IH]; simpl; [by rewrite Hx, str_eqb_refl|].
  intros [Hi Hn]%NoDup_cons. rewrite fmap_app in Hi.
  assert (str_eqb (item_id i) (item_id item) = false) as ->; [|by rewrite IH].
  apply str_eqb_false. intros He. apply Hi, elem_of_app. right. simpl. rewrite He, Hx. apply list_elem_of_here.
Qed.

(** Where [update_turn] finds its turn, the client does. *)
Lemma update_turn_item id item ts rest ts' t' :
  update_turn id (upsert_in item) ts = Some (ts', t') →
  upsert_change {| item_change_turn_id := id; changed_item := item |} (ts ++ rest) = ts' ++ rest ∧
  t_id t' = id ∧ id ∈ ids ts ∧ ids ts' = ids ts.
Proof.
  revert ts'. induction ts as [|t ts IH]; intros ts'; simpl; [done|]. destruct (str_eqb (t_id t) id) eqn:E.
  - apply str_eqb_true in E. intros [= <- <-]. rewrite decide_True by done. split_and!; [done|done| |done].
    rewrite <-E. apply list_elem_of_here.
  - apply str_eqb_false in E. rewrite decide_False by done.
    destruct (update_turn id (upsert_in item) ts) as [[us u]|] eqn:Hu; [|done]. simpl. intros [= <- <-].
    destruct (IH _ eq_refl) as (-> & -> & H3 & H4). split_and!; [done|done|by apply list_elem_of_further|]. cbn. by f_equal.
Qed.

(** A function that changes what the list of turns shows of a turn. *)
Definition meta_only (f : Turn → Turn) : Prop := ∀ t, t_id (f t) = t_id t ∧ t_items (f t) = t_items t.

Lemma meta_only_set f t : meta_only f → set_meta (from_turn (f t)) t = f t.
Proof. intros Hf. destruct (Hf t) as [H1 H2]. unfold set_meta, from_turn. simpl. rewrite <-H1, <-H2. by destruct (f t). Qed.

Lemma update_turn_meta id f ts rest ts' t' :
  meta_only f → update_turn id f ts = Some (ts', t') →
  upsert_turn (from_turn t') (ts ++ rest) = ts' ++ rest ∧ ids ts' = ids ts.
Proof.
  intros Hf. revert ts'. induction ts as [|t ts IH]; intros ts'; simpl; [done|]. destruct (str_eqb (t_id t) id) eqn:E.
  - intros [= <- <-]. simpl. destruct (Hf t) as [Hid _]. rewrite decide_True by (by rewrite Hid).
    rewrite meta_only_set by done. split; [done|]. cbn. by f_equal.
  - destruct (update_turn id f ts) as [[us u]|] eqn:Hu; [|done]. simpl. intros [= <- <-].
    destruct (IH _ eq_refl) as [H1 H2]. rewrite decide_False; [by rewrite H1; split; [|cbn; f_equal]|].
    apply str_eqb_false in E. assert (t_id u = id) as Hu_id; [|simpl; congruence].
    clear -Hf Hu. revert us Hu. induction ts as [|t ts IH]; intros us; simpl; [done|]. destruct (str_eqb (t_id t) id) eqn:E.
    + intros [= _ <-]. destruct (Hf t) as [-> _]. by apply str_eqb_true.
    + destruct (update_turn id f ts) as [[vs v]|]; [|done]. simpl. intros [= _ <-]. by eapply IH.
Qed.

(** ** Steps that report their changes exactly *)

Definition exact_step (b b' : Builder) : Prop :=
  kept b → kept b' ∧
  (distinct (view b) → distinct (view b') →
   ∃ cs, active_change_set b' = Some cs ∧ apply_changes cs (view b) = view b' ∧ refers (changed_items cs) (view b')).

(** The same turns and changes. *)
Definition same (b b' : Builder) : Prop :=
  turns b = turns b' ∧ current_turn b = current_turn b' ∧ active_change_set b = active_change_set b'.

Lemma same_view b b' : same b b' → view b = view b'.
Proof. intros (H1 & H2 & _). unfold view. by rewrite H1, H2. Qed.

Lemma same_kept b b' : same b b' → kept b → kept b'.
Proof. intros (_ & H2 & _). unfold kept. by rewrite H2. Qed.

Lemma exact_from b b1 b' : same b b1 → exact_step b1 b' → exact_step b b'.
Proof.
  intros Hs He Hk. destruct (He (same_kept _ _ Hs Hk)) as [Hk' Hc]. split; [done|].
  rewrite (same_view _ _ Hs). done.
Qed.

Lemma apply_nothing v : apply_changes no_changes v = v.
Proof. apply remove_nothing. Qed.

Lemma exact_nothing b b' : active_change_set b = Some no_changes → same b b' → exact_step b b'.
Proof.
  intros Ha Hs Hk. split; [by eapply same_kept|]. intros _ _. exists no_changes. split_and!.
  - destruct Hs as (_ & _ & <-). done.
  - rewrite apply_nothing. by apply same_view.
  - intros c Hc. by apply not_elem_of_nil in Hc.
Qed.

Lemma last_distinct v t : distinct (v ++ [t]) → t_id t ∉ ids v ∧ NoDup (item_id <$> t_items t).
Proof.
  intros [Hn Hi]. rewrite ids_app in Hn. apply NoDup_app in Hn as (_ & Hn & _). split.
  - intros Hin. apply (Hn _ Hin). apply list_elem_of_here.
  - apply Hi, elem_of_app. right. apply list_elem_of_here.
Qed.

Section replay.
Context `{ItemSources, Shlex, PathEnv, HookXml}.

(** What [ensure_turn] leaves as current turn. *)
Lemma ensure_turn_current b : ∃ p, current_turn (ensure_turn b) = Some p ∧ turns (ensure_turn b) = turns b.
Proof.
  unfold ensure_turn. destruct (current_turn b) as [p|] eqn:Hp; [eauto|]. unfold record_changed_turn.
  destruct (next_rollout_index b =? 0); simpl; destruct (active_change_set b); simpl; eauto.
Qed.

Lemma ensure_turn_new b :
  current_turn b = None → active_change_set b = Some no_changes →
  ∃ t p, t = blank_turn (implicit_turn_id b) TurnCompleted None ∧ p_turn p = t ∧
    current_turn (ensure_turn b) = Some p ∧ turns (ensure_turn b) = turns b ∧
    active_change_set (ensure_turn b) =
      Some {| changed_items := []; changed_turns := [from_turn t]; removed_turn_ids := [] |}.
Proof.
  intros Hp Ha. unfold ensure_turn. rewrite Hp. eexists. exists {| p_turn := blank_turn (implicit_turn_id b) TurnCompleted None; opened_explicitly := false; saw_compaction := false;
    rollout_start_index := current_rollout_index b |}. split; [reflexivity|]. unfold record_changed_turn.
  destruct (next_rollout_index b =? 0); simpl; rewrite Ha; simpl; split_and!; reflexivity.
Qed.

(** An item of the current turn, which is opened if there is none. *)
Lemma exact_item f item b :
  active_change_set b = Some no_changes → (∀ t, t_id (f t) = t_id t) → (∀ t, t_items (f t) ≠ []) →
  (∀ p, current_turn (ensure_turn b) = Some p → NoDup (item_id <$> t_items (p_turn p)) →
     NoDup (item_id <$> t_items (f (p_turn p))) → f (p_turn p) = upsert_in item (p_turn p)) →
  exact_step b (in_current_turn f (λ t, record_changed_item (t_id t) item) (ensure_turn b)).
Proof.
  intros Ha Hid Hne Hf. assert (∀ p, current_turn (in_current_turn f (λ t, record_changed_item (t_id t) item) (ensure_turn b)) = Some p
    → t_items (p_turn p) ≠ []) as Hk.
  { destruct (ensure_turn_current b) as (p & Hp & _). intros q. unfold in_current_turn. rewrite Hp.
    unfold record_changed_item. simpl. destruct (active_change_set (ensure_turn b)); simpl; intros [= <-]; simpl; apply Hne. }
  intros _. split; [intros p Hp; left; by apply Hk|]. intros Hd Hd'.
  destruct (current_turn b) as [p|] eqn:Hp.
  - assert (ensure_turn b = b) as He by (unfold ensure_turn; by rewrite Hp). rewrite He in *.
    unfold in_current_turn, view, record_changed_item in *. rewrite Hp in *. simpl in *. rewrite Ha in *. simpl in *.
    destruct (last_distinct _ _ Hd) as [Hn Hi]. destruct (last_distinct _ _ Hd') as [_ Hi'].
    eexists. split_and!; [reflexivity| |].
    + unfold apply_changes. simpl. rewrite remove_nothing, upsert_change_last by (done || by rewrite Hid). simpl.
      by rewrite <-(Hf p eq_refl Hi Hi').
    + intros c [->|Hc]%elem_of_cons; [|by apply not_elem_of_nil in Hc]. simpl. rewrite ids_app. apply elem_of_app. right.
      apply list_elem_of_here.
  - destruct (ensure_turn_new b Hp Ha) as (t & p & Ht & Hpt & Hc & Hts & Hch).
    unfold in_current_turn, view, record_changed_item in *. rewrite Hc, Hp in *. simpl in *. rewrite Hch, Hts in *. simpl in *.
    rewrite app_nil_r in *. rewrite Hpt in *. destruct (last_distinct _ _ Hd') as [Hn Hi']. rewrite Hid in Hn.
    assert (NoDup (item_id <$> t_items t)) as Hi by (rewrite Ht; apply NoDup_nil_2).
    eexists. split_and!; [reflexivity| |].
    + unfold apply_changes. simpl. rewrite remove_nothing, upsert_turn_new by done.
      assert (set_meta (from_turn t) (blank_turn (tc_turn_id (from_turn t)) TurnCompleted None) = t) as -> by (by rewrite Ht).
      rewrite upsert_change_last by (done || by rewrite Hid). simpl. specialize (Hf p eq_refl). rewrite Hpt in Hf. by rewrite <-(Hf Hi Hi').
    + intros c [->|Hcc]%elem_of_cons; [|by apply not_elem_of_nil in Hcc]. simpl. rewrite ids_app. apply elem_of_app. right.
      apply list_elem_of_here.
Qed.

Lemma exact_push item b : active_change_set b = Some no_changes → exact_step b (push_item_in_current_turn item b).
Proof.
  intros Ha. apply exact_item; [done|done|intros t; simpl; by destruct (t_items t)|]. intros p _ Hi Hn. simpl in Hn.
  unfold upsert_in. rewrite upsert_item_new; [done|]. rewrite fmap_app in Hn. apply NoDup_app in Hn as (_ & Hn & _).
  intros Hin. apply (Hn _ Hin). apply list_elem_of_here.
Qed.

Lemma upsert_item_ne item items : upsert_turn_item item items ≠ [].
Proof. destruct items as [|i items]; simpl; [done|]. by destruct (str_eqb _ _). Qed.

Lemma exact_upsert item b : active_change_set b = Some no_changes → exact_step b (upsert_item_in_current_turn item b).
Proof. intros Ha. apply exact_item; [done|done|intros t; apply upsert_item_ne|done]. Qed.

Lemma exact_numbered item b : active_change_set b = Some no_changes → exact_step b (push_numbered item b).
Proof. intros Ha. unfold push_numbered, next_item_id. eapply exact_from; [|apply exact_push]; [done|done]. Qed.

(** *** Closing a turn *)

Lemma finish_turn_view b :
  kept b → view (finish_current_turn b) = view b ∧ current_turn (finish_current_turn b) = None ∧
    active_change_set (finish_current_turn b) = active_change_set b.
Proof.
  intros Hk. unfold finish_current_turn, view. destruct (current_turn b) as [p|] eqn:Hp; simpl; [|by rewrite Hp].
  destruct (bool_decide _ && _ && _) eqn:Hdrop; simpl; [|by rewrite app_nil_r].
  apply andb_true_iff in Hdrop as [[Hi%bool_decide_eq_true Ho]%andb_true_iff Hs].
  destruct (Hk p Hp) as [?|[He|He]]; [done|by rewrite He in Ho|by rewrite He in Hs].
Qed.

Lemma no_current_kept b : current_turn b = None → kept b.
Proof. intros Hn p Hp. congruence. Qed.

Lemma exact_finish b b' : exact_step (finish_current_turn b) b' → exact_step b b'.
Proof.
  intros He Hk. destruct (finish_turn_view b Hk) as (Hv & Hc & _). rewrite <-Hv. by apply He, no_current_kept.
Qed.

Lemma exact_then_finish b b' : exact_step b b' → exact_step b (finish_current_turn b').
Proof.
  intros He Hk. destruct (He Hk) as [Hk' Hx]. destruct (finish_turn_view b' Hk') as (Hv & Hc & Ha).
  split; [by apply no_current_kept|]. rewrite Hv, Ha. done.
Qed.

Lemma finish_turn_active b : active_change_set (finish_current_turn b) = active_change_set b.
Proof. unfold finish_current_turn. destruct (current_turn b); [|done]. by destruct (_ && _). Qed.

(** *** What a turn says of itself *)

Notation record_turn := (λ t, record_changed_turn (from_turn t)).

Lemma exact_meta f b :
  active_change_set b = Some no_changes → meta_only f → exact_step b (in_current_turn f record_turn b).
Proof.
  intros Ha Hf. unfold in_current_turn. destruct (current_turn b) as [p|] eqn:Hp; [|by apply exact_nothing].
  unfold record_changed_turn. simpl. rewrite Ha. intros Hk. split.
  { intros q Hq. simpl in Hq. simplify_eq. simpl. destruct (Hf (p_turn p)) as [_ ->]. by apply Hk. }
  unfold view. simpl. rewrite Hp. simpl. intros Hd _. destruct (last_distinct _ _ Hd) as [Hn _]. destruct (Hf (p_turn p)) as [Hid _].
  eexists. split_and!; [reflexivity| |intros c Hc; by apply not_elem_of_nil in Hc].
  unfold apply_changes. simpl. rewrite remove_nothing, upsert_turn_last by (simpl; congruence). by rewrite meta_only_set.
Qed.

(** The first finished turn with the id, when it is not the current one. *)
Lemma exact_finished_meta id f b ts t :
  active_change_set b = Some no_changes → meta_only f → update_turn id f (turns b) = Some (ts, t) →
  exact_step b (record_changed_turn (from_turn t) (set_turns ts (current_turn b) b)).
Proof.
  intros Ha Hf Hu. unfold record_changed_turn. simpl. rewrite Ha. intros Hk. split; [exact Hk|]. intros _ _.
  eexists. split_and!; [reflexivity| |intros c Hc; by apply not_elem_of_nil in Hc].
  unfold apply_changes, view. simpl. rewrite remove_nothing. by apply (update_turn_meta id f).
Qed.

Lemma exact_finished_item id item b ts t :
  active_change_set b = Some no_changes → update_turn id (upsert_in item) (turns b) = Some (ts, t) →
  exact_step b (record_changed_item (t_id t) item (set_turns ts (current_turn b) b)).
Proof.
  intros Ha Hu. unfold record_changed_item. simpl. rewrite Ha. intros Hk. split; [exact Hk|]. intros _ _.
  destruct (update_turn_item id item (turns b) (option_list (p_turn <$> current_turn b)) ts t Hu) as (H1' & Ht & Hin & Hids).
  eexists. split_and!; [reflexivity| |].
  - unfold apply_changes, view. simpl. rewrite remove_nothing, Ht. done.
  - intros c [->|Hc]%elem_of_cons; [|by apply not_elem_of_nil in Hc]. unfold view. simpl. rewrite Ht, ids_app, Hids.
    apply elem_of_app. by left.
Qed.

Lemma exact_upsert_in_turn id item b :
  active_change_set b = Some no_changes → exact_step b (upsert_item_in_turn_id id item b).
Proof.
  intros Ha. unfold upsert_item_in_turn_id, in_turn.
  assert (exact_step b (default b ('(ts, t) ← update_turn id (upsert_in item) (turns b);
    Some (record_changed_item (t_id t) item (set_turns ts (current_turn b) b))))) as Hfin.
  { destruct (update_turn id (upsert_in item) (turns b)) as [[ts t]|] eqn:Hu; simpl; [|by apply exact_nothing].
    by eapply exact_finished_item. }
  destruct (current_turn b) as [p|] eqn:Hp; [|done]. destruct (str_eqb (t_id (p_turn p)) id); [|done]. simpl.
  pose proof (exact_upsert item b Ha) as He. unfold upsert_item_in_current_turn, ensure_turn in He. by rewrite Hp in He.
Qed.

Lemma exact_upsert_item id item b : active_change_set b = Some no_changes → exact_step b (upsert_item id item b).
Proof. intros Ha. unfold upsert_item. destruct (str_is_empty id); [by apply exact_upsert|by apply exact_upsert_in_turn]. Qed.

(** *** The events *)

Lemma abort_meta c d : meta_only (apply_abort c d).
Proof. done. Qed.

Lemma completed_meta c d : meta_only (mark_completed c d).
Proof. intros t. unfold mark_completed. simpl. by destruct (t_status t). Qed.

Lemma exact_aborted id c d b : active_change_set b = Some no_changes → exact_step b (handle_turn_aborted id c d b).
Proof.
  intros Ha. unfold handle_turn_aborted. set (f := apply_abort c d).
  assert (exact_step b (in_current_turn f record_turn b)) as Hcur by (apply exact_meta; [done|apply abort_meta]).
  destruct id as [id|]; simpl; [|done]. unfold in_turn.
  assert (exact_step b (default (in_current_turn f record_turn b) ('(ts, t) ← update_turn id f (turns b);
    Some (record_changed_turn (from_turn t) (set_turns ts (current_turn b) b))))) as Hfin.
  { destruct (update_turn id f (turns b)) as [[ts t]|] eqn:Hu; simpl; [|done].
    eapply exact_finished_meta; [done|apply abort_meta|done]. }
  destruct (current_turn b) as [p|] eqn:Hp; [destruct (str_eqb _ id); [done|]|];
    destruct (update_turn id f (turns b)) as [[ts t]|]; done.
Qed.

Lemma exact_complete id c d b : active_change_set b = Some no_changes → exact_step b (handle_turn_complete id c d b).
Proof.
  intros Ha. unfold handle_turn_complete. set (f := mark_completed c d).
  assert (exact_step b (finish_current_turn (in_current_turn f record_turn b))) as Hclose
    by (apply exact_then_finish, exact_meta; [done|apply completed_meta]).
  assert (∀ ts t, update_turn id f (turns b) = Some (ts, t) →
    exact_step b (record_changed_turn (from_turn t) (set_turns ts (current_turn b) b))) as Hfin
    by (intros ts t Hu; eapply exact_finished_meta; [done|apply completed_meta|done]).
  destruct (current_turn b) as [p|] eqn:Hp.
  - destruct (str_eqb _ id); [done|]. destruct (update_turn id f (turns b)) as [[ts t]|]; simpl; [by apply Hfin|done].
  - destruct (update_turn id f (turns b)) as [[ts t]|]; simpl; [by apply Hfin|by apply exact_nothing].
Qed.

Lemma exact_started id at_ b : active_change_set b = Some no_changes → exact_step b (handle_turn_started id at_ b).
Proof.
  intros Ha. apply exact_finish. unfold handle_turn_started. set (b1 := finish_current_turn b).
  assert (active_change_set b1 = Some no_changes) as Ha1 by (unfold b1; by rewrite finish_turn_active).
  unfold record_changed_turn. rewrite Ha1. intros Hk. split; [intros p [= <-]; right; by left|].
  intros Hd Hd'. unfold view in *. simpl in *. destruct (last_distinct _ _ Hd') as [Hn _]. simpl in Hn.
  assert (current_turn b1 = None) as Hc.
  { unfold b1, finish_current_turn. destruct (current_turn b) eqn:Hb; [by destruct (_ && _)|done]. }
  rewrite Hc in *. simpl in *. rewrite app_nil_r in *.
  eexists. split_and!; [reflexivity| |intros c Hcc; by apply not_elem_of_nil in Hcc].
  unfold apply_changes. simpl. rewrite remove_nothing, upsert_turn_new by done. done.
Qed.

Lemma remove_tail v w : NoDup (ids (v ++ w)) → remove_turns (ids w) (v ++ w) = v.
Proof.
  rewrite ids_app. intros (_ & Hn & _)%NoDup_app. unfold remove_turns. rewrite filter_app.
  rewrite filter_id; [|intros t Ht Hw; apply (Hn (t_id t)); [by apply list_elem_of_fmap_2|done]].
  rewrite (list_filter_iff' _ (λ _, False)); [|intros t Ht; split; [|done]; intros Hx; apply Hx; by apply list_elem_of_fmap_2].
  assert (filter (λ _, False) w = []) as -> by (clear; induction w; [done|]; rewrite filter_cons_False; auto). apply app_nil_r.
Qed.

(** The turns before and after the cut. *)
Lemma rollback_cut b n :
  let ts := turns b in
  let removed := if length ts <=? n then ts else if n =? 0 then [] else drop (length ts - n) ts in
  let remaining := if length ts <=? n then [] else take (length ts - n) ts in
  ts = remaining ++ removed.
Proof.
  simpl. destruct (Nat.leb_spec (length (turns b)) n); [done|]. destruct (Nat.eqb_spec n 0) as [->|];
    [rewrite app_nil_r, Nat.sub_0_r, take_ge; [done|lia]|by rewrite take_drop].
Qed.

Lemma exact_rollback n b : active_change_set b = Some no_changes → exact_step b (handle_thread_rollback n b).
Proof.
  intros Ha. apply exact_finish. unfold handle_thread_rollback. set (b1 := finish_current_turn b).
  assert (active_change_set b1 = Some no_changes) as Ha1 by (unfold b1; by rewrite finish_turn_active).
  assert (current_turn b1 = None) as Hc.
  { unfold b1, finish_current_turn. destruct (current_turn b) eqn:Hb; [by destruct (_ && _)|done]. }
  unfold record_removed_turn_ids. rewrite Ha1. intros _. split; [by apply no_current_kept|]. intros [Hd _] _.
  eexists. split_and!; [reflexivity| |intros c Hcc; by apply not_elem_of_nil in Hcc].
  unfold apply_changes, view in *. simpl in *. rewrite Hc in *. simpl in *. rewrite !app_nil_r in *.
  pose proof (rollback_cut b1 (N.to_nat n)) as Hcut. cbv zeta in Hcut. revert Hcut Hd.
  generalize (if length (turns b1) <=? N.to_nat n then [] else take (length (turns b1) - N.to_nat n) (turns b1)).
  generalize (if length (turns b1) <=? N.to_nat n then turns b1
    else if N.to_nat n =? 0 then [] else drop (length (turns b1) - N.to_nat n) (turns b1)).
  intros removed remaining -> Hd. by apply remove_tail.
Qed.

Lemma exact_compacted b : active_change_set b = Some no_changes → exact_step b (handle_compacted b).
Proof.
  intros Ha _. unfold handle_compacted. destruct (current_turn b) as [p|] eqn:Hp.
  - assert (ensure_turn b = b) as -> by (unfold ensure_turn; by rewrite Hp). rewrite Hp.
    split; [intros q [= <-]; right; by right|]. intros _ _. exists no_changes. simpl. rewrite Ha, apply_nothing.
    unfold view. simpl. rewrite Hp. split_and!; [done|done|]. intros c Hc. by apply not_elem_of_nil in Hc.
  - destruct (ensure_turn_new b Hp Ha) as (t & p & Ht & Hpt & Hc & Hts & Hch). rewrite Hc.
    split; [intros q [= <-]; right; by right|]. unfold view. simpl. rewrite Hp, Hts, Hpt. simpl. rewrite app_nil_r.
    intros _ Hd'. destruct (last_distinct _ _ Hd') as [Hn _].
    eexists. split_and!; [exact Hch| |intros c Hcc; by apply not_elem_of_nil in Hcc].
    unfold apply_changes. simpl. rewrite remove_nothing, upsert_turn_new by done. by rewrite Ht.
Qed.

Lemma ensure_turn_again b : ensure_turn (ensure_turn b) = ensure_turn b.
Proof. destruct (ensure_turn_current b) as (p & Hp & _). unfold ensure_turn at 1. by rewrite Hp. Qed.

Lemma ensure_turn_numbered n b : ensure_turn (set_next_item_index n b) = set_next_item_index n (ensure_turn b).
Proof.
  unfold ensure_turn, implicit_turn_id. simpl. destruct (current_turn b) as [p|]; [done|]. unfold record_changed_turn.
  destruct (next_rollout_index b =? 0); simpl; by destruct (active_change_set b).
Qed.

Lemma ensure_turn_index b : next_item_index (ensure_turn b) = next_item_index b.
Proof.
  unfold ensure_turn. destruct (current_turn b); [done|]. unfold record_changed_turn.
  destruct (next_rollout_index b =? 0); simpl; by destruct (active_change_set b).
Qed.

Lemma push_numbered_ensured item b : push_numbered item (ensure_turn b) = push_numbered item b.
Proof.
  unfold push_numbered, next_item_id, push_item_in_current_turn. rewrite ensure_turn_index.
  by rewrite !ensure_turn_numbered, ensure_turn_again.
Qed.

Lemma exact_reasoning text ext b : active_change_set b = Some no_changes → exact_step b (add_reasoning text ext b).
Proof.
  intros Ha. unfold add_reasoning. destruct (str_is_empty text); [by apply exact_nothing|]. cbv zeta.
  destruct (ensure_turn_current b) as (p & Hp & _). rewrite Hp. simpl.
  assert (exact_step b (push_numbered (λ id, let '(summary, content) := ext [] [] in ItemReasoning id summary content) (ensure_turn b)))
    as Hnew by (rewrite push_numbered_ensured; by apply exact_numbered).
  destruct (last (t_items (p_turn p))) as [[| | | |id summary content| | | | | | | | | | | | |]|] eqn:Hl; try exact Hnew.
  destruct (ext summary content) as [summary' content']. apply exact_item; [done|done| |].
  - intros t. simpl. by destruct (removelast (t_items t)).
  - rewrite Hp. intros q Hq. simplify_eq. intros Hi _. apply last_Some in Hl as [items Hl].
    unfold upsert_in. rewrite Hl in Hi |- *. rewrite removelast_last, upsert_item_last by done. done.
Qed.

Lemma exact_user client content b : active_change_set b = Some no_changes → exact_step b (handle_user_message client content b).
Proof.
  intros Ha. unfold handle_user_message. destruct (current_turn b) as [p|]; [|by apply exact_numbered].
  destruct (_ && _); [|by apply exact_numbered]. apply exact_finish, exact_numbered. by rewrite finish_turn_active.
Qed.

Lemma exact_guardian target id s action b :
  active_change_set b = Some no_changes → exact_step b (handle_guardian_assessment target id s action b).
Proof.
  intros Ha. unfold handle_guardian_assessment. destruct s; cbv zeta; try by apply exact_nothing.
  all: destruct (build_item_from_guardian_event _ _ _); [by apply exact_upsert_item|by apply exact_nothing].
Qed.

Lemma exact_turn_item id item b : active_change_set b = Some no_changes → exact_step b (handle_turn_item id item b).
Proof.
  intros Ha. unfold handle_turn_item. destruct item as [i text| |]; [|by apply exact_upsert_in_turn|by apply exact_nothing].
  destruct (str_is_empty text); [by apply exact_nothing|by apply exact_upsert_in_turn].
Qed.

Lemma exact_event ev b : active_change_set b = Some no_changes → exact_step b (handle_event ev b).
Proof.
  intros Ha. destruct ev; simpl;
    try first [by apply exact_upsert|by apply exact_upsert_in_turn|by apply exact_upsert_item|by apply exact_numbered
              |by apply exact_reasoning|by apply exact_turn_item|by apply exact_nothing].
  - by apply exact_user.
  - unfold handle_agent_message. destruct (str_is_empty _); [by apply exact_nothing|by apply exact_numbered].
  - by apply exact_guardian.
  - unfold handle_error. destruct (match info with Some i => info_affects_turn_status i | None => true end);
      [|by apply exact_nothing]. by apply exact_meta.
  - by apply exact_rollback.
  - by apply exact_aborted.
  - by apply exact_started.
  - by apply exact_complete.
Qed.

Lemma exact_response item b : active_change_set b = Some no_changes → exact_step b (handle_response_item item b).
Proof.
  intros Ha. destruct item; simpl; try by apply exact_nothing. destruct (str_eqb role "user"); [|by apply exact_nothing].
  destruct (parse_hook_prompt_message content) as [fragments|]; [|by apply exact_nothing].
  destruct id as [id|]; [by apply exact_push|]. eapply exact_from; [|by apply exact_push]. done.
Qed.

Lemma exact_rollout_item item b : active_change_set b = Some no_changes → exact_step b (handle_rollout_item item b).
Proof.
  intros Ha. unfold handle_rollout_item. eapply exact_from; [|destruct item]; [|by apply exact_event|by apply exact_compacted
    |by apply exact_response|by apply exact_nothing..]. done.
Qed.

(** ** Reporting does not change the history *)

Definition blind (f : Builder → Builder) : Prop :=
  ∀ b cs, ∃ cs', f (set_changes cs b) = set_changes cs' (f b) ∧ (cs = None → cs' = None).

Lemma blind_comp f g : blind f → blind g → blind (λ b, f (g b)).
Proof.
  intros Hf Hg b cs. destruct (Hg b cs) as (c1 & -> & E1). destruct (Hf (g b) c1) as (c2 & -> & E2). eauto.
Qed.

Lemma blind_id : blind (λ b, b).
Proof. intros b cs. eauto. Qed.

Lemma blind_item id item : blind (record_changed_item id item).
Proof.
  intros b [cs|]; unfold record_changed_item; simpl; destruct (active_change_set b); simpl; eexists; (split; [reflexivity|done]).
Qed.

Lemma blind_turn c : blind (record_changed_turn c).
Proof.
  intros b [cs|]; unfold record_changed_turn; simpl; destruct (active_change_set b); simpl; eexists; (split; [reflexivity|done]).
Qed.

Lemma blind_removed ids : blind (record_removed_turn_ids ids).
Proof.
  intros b [cs|]; unfold record_removed_turn_ids; simpl; destruct (active_change_set b); simpl; eexists;
    (split; [reflexivity|done]).
Qed.

Lemma blind_finish : blind finish_current_turn.
Proof.
  intros b cs. unfold finish_current_turn. simpl. destruct (current_turn b); [destruct (_ && _)|]; eauto.
Qed.

Lemma blind_set_turns ts c : blind (set_turns ts c).
Proof. intros b cs. eexists. split; [reflexivity|done]. Qed.

Lemma blind_ensure : blind ensure_turn.
Proof.
  intros b cs. unfold ensure_turn, implicit_turn_id. simpl. destruct (current_turn b); [eauto|].
  unfold record_changed_turn. destruct (next_rollout_index b =? 0), cs; simpl; destruct (active_change_set b); simpl;
    eexists; (split; [reflexivity|done]).
Qed.

Lemma blind_in_current f r : (∀ t, blind (r t)) → blind (in_current_turn f r).
Proof.
  intros Hr b cs. unfold in_current_turn. simpl. destruct (current_turn b) as [p|]; [|eauto].
  apply (blind_comp (r (f (p_turn p))) (set_turns (turns b) (Some (map_pending f p)))); [apply Hr|apply blind_set_turns].
Qed.

Lemma blind_upsert item : blind (upsert_item_in_current_turn item).
Proof.
  apply (blind_comp (in_current_turn _ _) ensure_turn); [|apply blind_ensure]. apply blind_in_current. intros t. apply blind_item.
Qed.

Lemma blind_push item : blind (push_item_in_current_turn item).
Proof.
  apply (blind_comp (in_current_turn _ _) ensure_turn); [|apply blind_ensure]. apply blind_in_current. intros t. apply blind_item.
Qed.

Lemma blind_numbered item : blind (push_numbered item).
Proof.
  intros b cs. unfold push_numbered, next_item_id. simpl.
  apply (blind_comp (push_item_in_current_turn (item ("item-" +:+ pretty (next_item_index b))))
    (set_next_item_index (wrap_i64 (next_item_index b + 1)))); [apply blind_push|]. intros c x. eexists. split; [reflexivity|done].
Qed.

(** The first finished turn, or else something else. *)
Lemma blind_finished id f (r : Turn → Builder → Builder) (g : Builder → Builder) :
  (∀ t, blind (r t)) → blind g →
  blind (λ b, default (g b) ('(ts, t) ← update_turn id f (turns b); Some (r t (set_turns ts (current_turn b) b)))).
Proof.
  intros Hr Hg b cs. simpl. destruct (update_turn id f (turns b)) as [[ts t]|]; simpl; [|apply Hg].
  apply (blind_comp (r t) (set_turns ts (current_turn b))); [apply Hr|apply blind_set_turns].
Qed.

Lemma blind_in_turn id f r g :
  (∀ t, blind (r t)) → blind g → blind (λ b, default (g b) (in_turn id f r b)).
Proof.
  intros Hr Hg b cs. unfold in_turn. simpl. destruct (current_turn b) as [p|] eqn:Hp.
  - destruct (str_eqb _ id); simpl; [by apply blind_in_current|]. rewrite <-Hp. by apply (blind_finished id f r g).
  - rewrite <-Hp. by apply (blind_finished id f r g).
Qed.

Lemma blind_upsert_in_turn id item : blind (upsert_item_in_turn_id id item).
Proof. apply blind_in_turn; [intros t; apply blind_item|apply blind_id]. Qed.

Lemma blind_upsert_item id item : blind (upsert_item id item).
Proof. intros b cs. unfold upsert_item. destruct (str_is_empty id); [apply blind_upsert|apply blind_upsert_in_turn]. Qed.

Lemma blind_aborted id c d : blind (handle_turn_aborted id c d).
Proof.
  assert (blind (in_current_turn (apply_abort c d) record_turn)) as Hc by (apply blind_in_current; intros t; apply blind_turn).
  destruct id as [id|]; [|exact Hc].
  pose proof (blind_in_turn id (apply_abort c d) record_turn _ (λ t, blind_turn _) Hc) as Hb.
  intros b cs. specialize (Hb b cs). unfold handle_turn_aborted. simpl in *.
  by destruct (in_turn id _ _ b), (in_turn id _ _ (set_changes cs b)).
Qed.

Lemma blind_complete id c d : blind (handle_turn_complete id c d).
Proof.
  set (f := mark_completed c d).
  assert (blind (λ b, finish_current_turn (in_current_turn f record_turn b))) as Hclose.
  { apply (blind_comp finish_current_turn); [apply blind_finish|]. apply blind_in_current. intros t. apply blind_turn. }
  intros b cs. unfold handle_turn_complete. simpl. destruct (current_turn b) as [p|] eqn:Hp.
  - destruct (str_eqb _ id); [apply Hclose|]. rewrite <-Hp.
    apply (blind_finished id f record_turn _ (λ t, blind_turn _) Hclose).
  - rewrite <-Hp. apply (blind_finished id f record_turn _ (λ t, blind_turn _) blind_id).
Qed.

Lemma blind_started id at_ : blind (handle_turn_started id at_).
Proof.
  set (t := blank_turn id TurnInProgress at_).
  assert (blind (λ b, set_turns (turns b) (Some {| p_turn := t; opened_explicitly := true; saw_compaction := false;
    rollout_start_index := current_rollout_index b |}) b)) as H' by (intros b cs; eexists; split; [reflexivity|done]).
  apply (blind_comp _ (λ b, record_changed_turn (from_turn t) (finish_current_turn b)) H').
  apply (blind_comp _ finish_current_turn); [apply blind_turn|apply blind_finish].
Qed.

Lemma blind_rollback n : blind (handle_thread_rollback n).
Proof.
  apply (blind_comp (λ b, let kept := length (turns b) - N.to_nat n in
    let removed := t_id <$> (if length (turns b) <=? N.to_nat n then turns b
                             else if N.to_nat n =? 0 then [] else drop kept (turns b)) in
    let b := record_removed_turn_ids removed b in
    let ts := if length (turns b) <=? N.to_nat n then [] else take kept (turns b) in
    set_next_item_index (Z.min (Z.of_nat (item_count ts) + 1) i64_max) (set_turns ts (current_turn b) b))
    finish_current_turn); [|apply blind_finish].
  intros b cs. unfold record_removed_turn_ids. simpl. destruct cs; simpl; destruct (active_change_set b); simpl;
    eexists; (split; [reflexivity|done]).
Qed.

Lemma blind_compacted : blind handle_compacted.
Proof.
  apply (blind_comp (λ b, match current_turn b with
    | Some p => set_turns (turns b) (Some {| p_turn := p_turn p; opened_explicitly := opened_explicitly p; saw_compaction := true;
                                             rollout_start_index := rollout_start_index p |}) b
    | None => b end) ensure_turn); [|apply blind_ensure].
  intros b cs. simpl. destruct (current_turn b); eexists; (split; [reflexivity|done]).
Qed.

Lemma blind_reasoning text ext : blind (add_reasoning text ext).
Proof.
  intros b cs. unfold add_reasoning. destruct (str_is_empty text); [apply blind_id|]. cbv zeta.
  destruct (blind_ensure b cs) as (c1 & -> & E1). simpl.
  assert (∀ item, ∃ cs', push_numbered item (set_changes c1 (ensure_turn b)) = set_changes cs' (push_numbered item (ensure_turn b)) ∧
    (cs = None → cs' = None)) as Hnew.
  { intros item. destruct (blind_numbered item (ensure_turn b) c1) as (c2 & -> & E2). eauto. }
  destruct (current_turn (ensure_turn b) ≫= λ p, last (t_items (p_turn p)))
    as [[| | | |id summary content| | | | | | | | | | | | |]|]; try apply Hnew.
  destruct (ext summary content) as [summary' content'].
  destruct (blind_in_current (λ t, with_items (removelast (t_items t) ++ [ItemReasoning id summary' content']) t)
    (λ t, record_changed_item (t_id t) (ItemReasoning id summary' content')) (λ t, blind_item _ _) (ensure_turn b) c1)
    as (c2 & -> & E2). eauto.
Qed.

Lemma blind_user client content : blind (handle_user_message client content).
Proof.
  apply (blind_comp (push_numbered (λ id, ItemUserMessage id client content)) (λ b,
    match current_turn b with
    | Some p =>
        if negb (opened_explicitly p) && negb (saw_compaction p && bool_decide (t_items (p_turn p) = []))
        then finish_current_turn b else b
    | None => b
    end)); [apply blind_numbered|].
  intros b cs. simpl. destruct (current_turn b) as [p|]; [|apply blind_id]. destruct (_ && _); [apply blind_finish|apply blind_id].
Qed.

Lemma blind_turn_item id item : blind (handle_turn_item id item).
Proof.
  intros b cs. destruct item as [i text| |]; simpl; [destruct (str_is_empty text)| |];
    first [apply blind_upsert_in_turn|apply blind_id].
Qed.

Lemma blind_event ev : blind (handle_event ev).
Proof.
  intros b cs. destruct ev; cbn [handle_event];
    try first [apply blind_upsert|apply blind_upsert_in_turn|apply blind_upsert_item|apply blind_numbered
    |apply blind_reasoning|apply blind_user|apply blind_rollback|apply blind_aborted|apply blind_started
    |apply blind_complete|apply blind_turn_item|apply blind_id].
  - unfold handle_agent_message. destruct (str_is_empty message); [apply blind_id|apply blind_numbered].
  - unfold handle_guardian_assessment. destruct status; cbv zeta; try apply blind_id;
      (destruct (build_item_from_guardian_event _ _ _); [apply blind_upsert_item|apply blind_id]).
  - unfold handle_error. destruct (match info with Some i => info_affects_turn_status i | None => true end);
      [|apply blind_id]. apply blind_in_current. intros t. apply blind_turn.
Qed.

Lemma blind_response item : blind (handle_response_item item).
Proof.
  intros b cs. destruct item; cbn [handle_response_item]; try apply blind_id.
  destruct (str_eqb role "user"); [|apply blind_id].
  destruct (parse_hook_prompt_message content) as [fragments|]; [|apply blind_id].
  destruct id as [id|]; [apply blind_push|].
  apply (blind_comp (push_item_in_current_turn (ItemHookPrompt (uuid (uuids_drawn b)) fragments)) draw_uuid); [apply blind_push|].
  intros c x. eexists. split; [reflexivity|done].
Qed.

Lemma blind_rollout_item item : blind (handle_rollout_item item).
Proof.
  assert (blind (λ b, set_rollout_index (next_rollout_index b) (S (next_rollout_index b)) b)) as Hi
    by (intros b cs; eexists; split; [reflexivity|done]).
  destruct item as [ev| |r| | |]; unfold handle_rollout_item;
    [apply (blind_comp (handle_event ev) _ (blind_event ev) Hi)|apply (blind_comp handle_compacted _ blind_compacted Hi)
    |apply (blind_comp (handle_response_item r) _ (blind_response r) Hi)|exact Hi..].
Qed.

(** Handling with changes does what handling does. *)
Lemma with_changes_same item b :
  active_change_set b = None →
  (handle_rollout_item_with_changes item b).1 = handle_rollout_item item b ∧
  active_change_set (handle_rollout_item item b) = None.
Proof.
  intros Ha. assert (b = set_changes None b) as Hb by (destruct b; simpl in *; by subst).
  destruct (blind_rollout_item item b None) as (c & Hc & Hn). rewrite Hn in Hc by done. rewrite <-Hb in Hc.
  split; [|by rewrite Hc]. unfold handle_rollout_item_with_changes, collect_changes. simpl.
  destruct (blind_rollout_item item b (Some no_changes)) as (c' & -> & _). rewrite Hc at 2. done.
Qed.

(** ** Batches *)

(** The ids are distinct before and after each item. *)
Fixpoint always_distinct (items : list RolloutItem) (b : Builder) : Prop :=
  distinct (view b) ∧ match items with [] => True | item :: items => always_distinct items (handle_rollout_item item b) end.

Lemma always_distinct_here items b : always_distinct items b → distinct (view b).
Proof. destruct items; by intros [? _]. Qed.

Lemma always_distinct_app items items' b :
  always_distinct (items ++ items') b → always_distinct items' (handle_rollout_items items b).
Proof. revert b. induction items as [|item items IH]; intros b; simpl; [done|]. intros [_ Hd]. by apply IH. Qed.

(** One item with its changes. *)
Lemma replay_item item b :
  active_change_set b = None → kept b → let b' := handle_rollout_item item b in
  kept b' ∧ (distinct (view b) → distinct (view b') →
    ∃ cs, handle_rollout_item_with_changes item b = (b', cs) ∧ apply_changes cs (view b) = view b' ∧
      refers (changed_items cs) (view b')).
Proof.
  intros Ha Hk b'. destruct (with_changes_same item b Ha) as [Hb _].
  pose proof (exact_rollout_item item (set_changes (Some no_changes) b) eq_refl Hk) as [Hk' Hx].
  unfold handle_rollout_item_with_changes, collect_changes in *. simpl in Hb.
  set (b1 := handle_rollout_item item (set_changes (Some no_changes) b)) in *. fold b' in Hb.
  assert (kept b') as Hkb by (by rewrite <-Hb). split; [done|]. intros Hd Hd'.
  assert (view b' = view b1) as Hv by (by rewrite <-Hb). destruct Hx as (cs & Hcs & Happ & Href); [done|by rewrite <-Hv|].
  exists cs. cbv zeta. rewrite Hb, Hcs, Hv. done.
Qed.

Lemma kept_items items b : active_change_set b = None → kept b →
  active_change_set (handle_rollout_items items b) = None ∧ kept (handle_rollout_items items b).
Proof.
  revert b. induction items as [|item items IH]; intros b Ha Hk; simpl; [done|].
  apply IH; [by apply with_changes_same|by apply replay_item].
Qed.

Lemma replay_items items b acc v :
  active_change_set b = None → kept b → always_distinct items b →
  acc_ok acc → apply_changes (finish_accumulator acc) v = view b → coalesced (finish_accumulator acc) (view b) →
  let '(b', acc') := fold_left accumulate items (b, acc) in
  b' = handle_rollout_items items b ∧ apply_changes (finish_accumulator acc') v = view b'.
Proof.
  revert b acc. induction items as [|item items IH]; intros b acc Ha Hk Hd Hok Happ Hco; simpl; [done|].
  destruct Hd as [Hd Hds]. destruct (replay_item item b Ha Hk) as [Hk' Hx].
  destruct Hx as (cs & Hcs & Hap & Href); [done|by eapply always_distinct_here|].
  assert (accumulate (b, acc) item = (handle_rollout_item item b, push_changes acc cs)) as -> by (unfold accumulate; cbn [fst snd]; by rewrite Hcs).
  destruct (push_changes_merged acc cs Hok) as [Hok' Hm].
  destruct (merged_applies _ cs v _ _ Happ Hco Hap Href) as [Hma Hmc]. rewrite <-Hm in Hma, Hmc.
  apply IH; try done. by apply with_changes_same.
Qed.

Lemma finish_view b : kept b → finish b = view b.
Proof.
  intros Hk. unfold finish. destruct (finish_turn_view b Hk) as (Hv & Hc & _). rewrite <-Hv. unfold view. rewrite Hc.
  simpl. by rewrite app_nil_r.
Qed.

(** ** Ids stay distinct *)

(** The turn that an item of a rollout starts, the item that it puts where its id stands, and
    the hook prompt that it appends. *)
Definition started_id (item : RolloutItem) : option string :=
  match item with RolloutEvent (EvTurnStarted turn_id _) => Some turn_id | _ => None end.

Definition upserted_id (item : RolloutItem) : option string :=
  match item with
  | RolloutEvent ev =>
      match ev with
      | EvWebSearchBegin id | EvWebSearchEnd id _ _ | EvApplyPatchApprovalRequest id _ _ | EvPatchApplyBegin id _ _
      | EvPatchApplyEnd id _ _ _ | EvDynamicToolCallRequest id _ _ _ _ | EvDynamicToolCallResponse id _ _ _ _ _ _ _
      | EvViewImageToolCall id _ | EvImageGenerationBegin id | EvImageGenerationEnd id _ _ _ _
      | EvCollabAgentSpawnBegin id _ _ _ _ | EvCollabAgentSpawnEnd id _ _ _ _ _ _ | EvCollabAgentInteractionBegin id _ _ _
      | EvCollabAgentInteractionEnd id _ _ _ _ | EvSubAgentActivity id _ _ _ | EvCollabWaitingBegin id _ _
      | EvCollabWaitingEnd id _ _ | EvCollabCloseBegin id _ _ | EvCollabCloseEnd id _ _ _ | EvCollabResumeBegin id _ _
      | EvCollabResumeEnd id _ _ _ => Some id
      | EvExecCommandBegin call | EvExecCommandEnd call _ _ _ _ => Some (exec_call_id call)
      | EvMcpToolCallBegin call | EvMcpToolCallEnd call _ _ => Some (mcp_call_id call)
      | EvGuardianAssessment target _ _ _ => target
      | EvItemStarted _ item | EvItemCompleted _ item =>
          match item with TurnPlan id _ | TurnSleep id _ => Some id | TurnOtherItem => None end
      | _ => None
      end
  | _ => None
  end.

Definition hook_id (item : RolloutItem) : option string :=
  match item with
  | RolloutResponseItem (Message id role content _ _) =>
      if str_eqb role "user" then parse_hook_prompt_message content ≫= λ _, id else None
  | _ => None
  end.

(** What holds of the ids of a rollout: turns are started under different ids and hook
    prompts have ids of their own; no id looks like one that the builder makes up.  The
    counter of items does not wrap. *)
Record well_named (items : list RolloutItem) : Prop := {
  short : (Z.of_nat (length items) < i64_max)%Z;
  started_distinct : NoDup (omap started_id items);
  started_plain : Forall (λ id, starts_with "rollout-" id = false) (omap started_id items);
  hooks_distinct : NoDup (omap hook_id items);
  hooks_apart : ∀ id, id ∈ omap hook_id items → id ∉ omap upserted_id items;
  items_plain : ∀ id, id ∈ omap hook_id items ++ omap upserted_id items →
    starts_with "item-" id = false ∧ ∀ n, uuid n ≠ id;
  uuids_fresh : ∀ n m, uuid n = uuid m → n = m;
  uuids_plain : ∀ n, starts_with "item-" (uuid n) = false;
}.

(** No turn has an id of [A], no item one of [B] and no item of the current turn one of [C]. *)
Record named (A B C : string → Prop) (N : nat) (b : Builder) : Prop := {
  turns_distinct : NoDup (ids (view b));
  turns_avoid : ∀ id, id ∈ ids (view b) → ¬ A id;
  items_avoid : ∀ t, t ∈ view b → NoDup (item_id <$> t_items t) ∧ ∀ id, id ∈ item_id <$> t_items t → ¬ B id;
  current_avoids : ∀ p id, current_turn b = Some p → id ∈ item_id <$> t_items (p_turn p) → ¬ C id;
  counted : item_count (view b) ≤ N;
}.

Lemma named_weaken (A A' B B' C C' : string → Prop) N N' b :
  (∀ x, A' x → A x) → (∀ x, B' x → B x) → (∀ x, C' x → C x) → N ≤ N' → named A B C N b → named A' B' C' N' b.
Proof.
  intros HA HB HC HN [D1 D2 D3 D4 D5]. split; [done|naive_solver| |naive_solver|lia].
  intros t Ht. destruct (D3 t Ht) as [Hn Hb]. split; [done|naive_solver].
Qed.

(** The same turns. *)
Lemma named_same A B C N b b' :
  turns b' = turns b → current_turn b' = current_turn b → named A B C N b → named A B C N b'.
Proof. intros Ht Hc [D1 D2 D3 D4 D5]. unfold view in *. split; unfold view; rewrite ?Ht, ?Hc; done. Qed.

Lemma item_count_app v w : item_count (v ++ w) = item_count v + item_count w.
Proof. unfold item_count. by rewrite sum_list_with_app. Qed.

Lemma item_count_sublist v w : v `sublist_of` w → item_count v ≤ item_count w.
Proof. induction 1; unfold item_count in *; simpl; lia. Qed.

(** Some turns, none of them current. *)
Lemma named_shrink A B C C' N b b' :
  view b' `sublist_of` view b → current_turn b' = None → named A B C N b → named A B C' N b'.
Proof.
  intros Hs Hc [D1 D2 D3 D4 D5]. split; [| | |intros p id; congruence|].
  - eapply sublist_NoDup; [exact D1|]. by apply fmap_sublist.
  - intros id Hid. apply D2. eapply elem_of_sublist; [exact Hid|]. by apply fmap_sublist.
  - intros t Ht. apply D3. by eapply elem_of_sublist.
  - pose proof (item_count_sublist _ _ Hs). lia.
Qed.

Lemma named_finish A B C N b : named A B C N b → named A B C N (finish_current_turn b).
Proof.
  destruct (current_turn b) as [p|] eqn:Hp; [|unfold finish_current_turn; by rewrite Hp].
  apply named_shrink; unfold finish_current_turn, view; rewrite Hp; [|by destruct (_ && _)].
  destruct (_ && _); simpl; rewrite ?app_nil_r; [|done]. by apply sublist_inserts_r.
Qed.

(** Another turn, under an id of [A]. *)
Lemma named_open A A' B C C' N b turn p :
  (∀ x, A' x → A x) → A (t_id turn) → ¬ A' (t_id turn) → t_items turn = [] → p_turn p = turn →
  current_turn b = None → named A B C N b → named A' B C' N (set_turns (turns b) (Some p) b).
Proof.
  intros HA Hnew Hold Hi Hp Hc [D1 D2 D3 D4 D5].
  assert (view (set_turns (turns b) (Some p) b) = view b ++ [turn]) as Hv.
  { unfold view. rewrite Hc. simpl. by rewrite Hp, app_nil_r. }
  split; rewrite ?Hv.
  - rewrite ids_app. apply NoDup_app. split_and!; [done| |apply NoDup_singleton].
    intros x Hx Hx'. apply list_elem_of_singleton in Hx' as ->. by apply (D2 (t_id turn)).
  - intros id. rewrite ids_app, elem_of_app. intros [Hid|Hid%list_elem_of_singleton]; [naive_solver|by rewrite Hid].
  - intros t. rewrite elem_of_app. intros [Ht|Ht%list_elem_of_singleton]; [by apply D3|]. rewrite Ht, Hi.
    split; [constructor|by intros ? ?%not_elem_of_nil].
  - simpl. intros q id [= <-]. rewrite Hp, Hi. by intros ?%not_elem_of_nil.
  - rewrite item_count_app. unfold item_count at 2. simpl. rewrite Hi. simpl. lia.
Qed.

(** A turn with at most one item more, whose ids are known or good. *)
Definition grown (good : string → Prop) (t t' : Turn) : Prop :=
  t_id t' = t_id t ∧ NoDup (item_id <$> t_items t') ∧ length (t_items t') ≤ S (length (t_items t)) ∧
  ∀ id, id ∈ item_id <$> t_items t' → id ∈ item_id <$> t_items t ∨ good id.

Lemma named_replace (A B B' C C' : string → Prop) N b b' l1 t t' l2 :
  view b = l1 ++ t :: l2 → view b' = l1 ++ t' :: l2 → grown (λ id, ¬ B' id) t t' → (∀ x, B' x → B x) →
  (∀ p id, current_turn b' = Some p → id ∈ item_id <$> t_items (p_turn p) → ¬ C' id) →
  named A B C N b → named A B' C' (S N) b'.
Proof.
  intros Hv Hv' (Hid & Hn & Hl & Hg) HB HC [D1 D2 D3 D4 D5].
  assert (ids (view b') = ids (view b)) as Hids by (rewrite Hv, Hv', !ids_app; simpl; by rewrite Hid).
  split; [by rewrite Hids|by rewrite Hids| |done|].
  - intros u. rewrite Hv', elem_of_app, elem_of_cons. intros Hu. assert (u = t' ∨ u ∈ view b) as [->|Hin].
    { rewrite Hv, elem_of_app, elem_of_cons. tauto. }
    + split; [done|]. intros id Hi. destruct (Hg id Hi) as [Ho|]; [|done]. intros Hb%HB. revert Hb. eapply D3; [|done].
      rewrite Hv. apply elem_of_app. right. apply list_elem_of_here.
    + destruct (D3 u Hin) as [? Hu']. split; [done|]. naive_solver.
  - rewrite Hv in D5. rewrite Hv'. rewrite item_count_app in *. unfold item_count in *. simpl in *. lia.
Qed.

(** Recording leaves the turns alone. *)
Definition only_records (record : Turn → Builder → Builder) : Prop := ∀ t b, ∃ cs, record t b = set_changes cs b.

Lemma records_changes b : ∃ cs, b = set_changes cs b.
Proof. exists (active_change_set b). by destruct b. Qed.

Lemma only_records_item (id : Turn → string) item : only_records (λ t, record_changed_item (id t) item).
Proof. intros t b. unfold record_changed_item. destruct (active_change_set b); [by eexists|apply records_changes]. Qed.

Lemma only_records_turn : only_records record_turn.
Proof. intros t b. unfold record_changed_turn. destruct (active_change_set b); [by eexists|apply records_changes]. Qed.

Lemma named_in_current (A B B' C C' : string → Prop) N f r b p :
  only_records r → current_turn b = Some p → grown (λ id, ¬ B' id ∧ ¬ C' id) (p_turn p) (f (p_turn p)) →
  (∀ x, B' x → B x) → (∀ x, C' x → C x) →
  named A B C N b → named A B' C' (S N) (in_current_turn f r b).
Proof.
  intros Hr Hp Hg HB HC Hb. unfold in_current_turn. rewrite Hp.
  destruct (Hr (f (p_turn p)) (set_turns (turns b) (Some (map_pending f p)) b)) as [cs ->].
  eapply (named_replace A B B' C C' N b _ (turns b) (p_turn p) (f (p_turn p)) []); [| | |done| |done].
  - unfold view. by rewrite Hp.
  - done.
  - destruct Hg as (? & ? & ? & Hg). split_and!; [done..|]. naive_solver.
  - simpl. intros q id [= <-] Hid. destruct Hg as (_ & _ & _ & Hg). destruct (Hg id Hid) as [Ho|[_ ?]]; [|done].
    intros Hc%HC. by apply (current_avoids _ _ _ _ _ Hb p id).
Qed.

Lemma update_turn_split id f ts ts' t' :
  update_turn id f ts = Some (ts', t') → ∃ l1 t l2, ts = l1 ++ t :: l2 ∧ ts' = l1 ++ f t :: l2.
Proof.
  revert ts'. induction ts as [|t ts IH]; intros ts'; simpl; [done|]. destruct (str_eqb (t_id t) id).
  - intros [= <- <-]. by exists [], t, ts.
  - destruct (update_turn id f ts) as [[us u]|]; [|done]. simpl. intros [= <- <-].
    destruct (IH us eq_refl) as (l1 & x & l2 & -> & ->). by exists (t :: l1), x, l2.
Qed.

(** [f] adds no more than an item with a good id to a turn. *)
Definition adds (good : string → Prop) (f : Turn → Turn) : Prop :=
  ∀ t, NoDup (item_id <$> t_items t) → grown good t (f t).

Lemma adds_upsert item : adds (λ id, id = item_id item) (upsert_in item).
Proof.
  intros t. unfold grown, upsert_in. simpl. induction (t_items t) as [|i l IH]; simpl; intros Hn.
  - split_and!; [done|apply NoDup_singleton|done|]. intros id Hid%list_elem_of_singleton. by right.
  - apply NoDup_cons in Hn as [Hi Hn]. destruct (str_eqb (item_id i) (item_id item)) eqn:E; simpl.
    + apply str_eqb_true in E. rewrite <-E. split_and!; [done|by apply NoDup_cons|lia|tauto].
    + apply str_eqb_false in E. destruct (IH Hn) as (_ & Hn' & Hl & Hg). split_and!; [done| |lia|].
      * apply NoDup_cons. split; [|done]. intros Hin. by destruct (Hg _ Hin).
      * intros id. rewrite !elem_of_cons. intros [->|Hin]; [tauto|]. destruct (Hg _ Hin); tauto.
Qed.

Lemma adds_meta good f : meta_only f → adds good f.
Proof. intros Hf t Hn. destruct (Hf t) as [D1 D2]. unfold grown. rewrite D1, D2. split_and!; [done|done|lia|tauto]. Qed.

Lemma adds_weaken (good good' : string → Prop) f : (∀ id, good id → good' id) → adds good f → adds good' f.
Proof. intros Hi Hf t Hn. destruct (Hf t Hn) as (? & ? & ? & Hg). split_and!; [done..|]. naive_solver. Qed.

Section steps.
Context (A B C : string → Prop) (N : nat).

Definition free (id : string) : Prop := ¬ B id ∧ ¬ C id.

Lemma named_turn_items b p : named A B C N b → current_turn b = Some p → NoDup (item_id <$> t_items (p_turn p)).
Proof.
  intros Hb Hp. apply (items_avoid _ _ _ _ _ Hb). unfold view. rewrite Hp. apply elem_of_app. right. apply list_elem_of_here.
Qed.

Lemma named_current f r b :
  only_records r → adds free f → named A B C N b → named A B C (S N) (in_current_turn f r b).
Proof.
  intros Hr Hf Hb. destruct (current_turn b) as [p|] eqn:Hp.
  - eapply (named_in_current A B B C C); eauto. apply Hf. by eapply named_turn_items.
  - unfold in_current_turn. rewrite Hp. eapply named_weaken; [..|exact Hb]; auto.
Qed.

Lemma named_finished id f r b ts t :
  only_records r → adds free f → named A B C N b → update_turn id f (turns b) = Some (ts, t) →
  named A B C (S N) (r t (set_turns ts (current_turn b) b)).
Proof.
  intros Hr Hf Hb Hu. destruct (Hr t (set_turns ts (current_turn b) b)) as [cs ->].
  destruct (update_turn_split _ _ _ _ _ Hu) as (l1 & x & l2 & Ht & ->).
  eapply (named_replace A B B C C N b _ l1 x (f x) (l2 ++ option_list (p_turn <$> current_turn b))); [| | |done| |done].
  - unfold view. by rewrite Ht, <-app_assoc.
  - unfold view. simpl. by rewrite <-app_assoc.
  - destruct (Hf x) as (? & ? & ? & Hg).
    + apply (items_avoid _ _ _ _ _ Hb). unfold view. rewrite Ht, <-app_assoc. apply elem_of_app. right. apply list_elem_of_here.
    + split_and!; [done..|]. intros i Hi. destruct (Hg i Hi) as [|[]]; tauto.
  - simpl. apply (current_avoids _ _ _ _ _ Hb).
Qed.

Lemma named_in_turn id f r b b' :
  only_records r → adds free f → named A B C N b → in_turn id f r b = Some b' → named A B C (S N) b'.
Proof.
  intros Hr Hf Hb. unfold in_turn. destruct (update_turn id f (turns b)) as [[ts t]|] eqn:Hu; simpl.
  - destruct (current_turn b) as [p|] eqn:Hp; [destruct (str_eqb _ id)|]; intros [= <-]; [by apply named_current|rewrite <-Hp|rewrite <-Hp];
      by eapply named_finished.
  - destruct (current_turn b) as [p|] eqn:Hp; [destruct (str_eqb _ id)|]; intros [= <-]. by apply named_current.
Qed.

Lemma named_upsert_in_turn id item b :
  free (item_id item) → named A B C N b → named A B C (S N) (upsert_item_in_turn_id id item b).
Proof.
  intros Hi Hb. unfold upsert_item_in_turn_id.
  destruct (in_turn id (upsert_in item) _ b) as [b'|] eqn:Hu; simpl; [|eapply named_weaken; [..|exact Hb]; auto].
  eapply named_in_turn; [apply only_records_item| |exact Hb|exact Hu].
  eapply adds_weaken; [|apply adds_upsert]. by intros ? ->.
Qed.
End steps.

(** *** Ids that are still to come *)

Definition turn_name (n : nat) : string := "rollout-" +:+ fmt_nat n.
Definition item_name (n : Z) : string := "item-" +:+ pretty n.

Definition future_turn (items : list RolloutItem) (k : nat) (id : string) : Prop :=
  id ∈ omap started_id items ∨ ∃ n, k ≤ n ∧ id = turn_name n.
Definition future_item (items : list RolloutItem) (drawn : nat) (id : string) : Prop :=
  id ∈ omap hook_id items ∨ ∃ n, drawn ≤ n ∧ id = uuid n.
Definition future_number (k : Z) (id : string) : Prop := ∃ n, (k <= n)%Z ∧ id = item_name n.

Definition during (A : string → Prop) (items : list RolloutItem) (N : nat) (b : Builder) : Prop :=
  named A (future_item items (uuids_drawn b)) (future_number (next_item_index b)) N b ∧
  (1 <= next_item_index b <= Z.of_nat N + 1)%Z.

(** Between two items of the rollout, of which [items] are to come. *)
Definition sound (items : list RolloutItem) (b : Builder) : Prop :=
  during (future_turn items (next_rollout_index b)) items (next_rollout_index b) b.

Lemma starts_with_name p x : starts_with p (p +:+ x) = false → False.
Proof. by rewrite starts_with_app. Qed.

Lemma turn_name_inj n m : turn_name n = turn_name m → n = m.
Proof. intros He%(inj (String.append "rollout-")). by apply fmt_nat_inj. Qed.

Lemma item_name_inj n m : item_name n = item_name m → n = m.
Proof. intros He%(inj (String.append "item-")). by apply (inj pretty). Qed.

Lemma omap_cons_elem {X Y} (f : X → option Y) x l y : y ∈ omap f l → y ∈ omap f (x :: l).
Proof. simpl. destruct (f x); [apply list_elem_of_further|done]. Qed.

Lemma omap_head {X Y} (f : X → option Y) x l y : f x = Some y → y ∈ omap f (x :: l).
Proof. simpl. intros ->. apply list_elem_of_here. Qed.

Lemma NoDup_omap_head {X Y} (f : X → option Y) x l y : f x = Some y → NoDup (omap f (x :: l)) → y ∉ omap f l.
Proof. simpl. intros ->. by intros [? _]%NoDup_cons. Qed.

Lemma NoDup_omap_tail {X Y} (f : X → option Y) x l : NoDup (omap f (x :: l)) → NoDup (omap f l).
Proof. simpl. destruct (f x); [by intros [_ ?]%NoDup_cons|done]. Qed.

Lemma well_named_tail item items : well_named (item :: items) → well_named items.
Proof.
  intros [E1 E2 E3 E4 E5 E6 E7 E8]. split; [|by eapply NoDup_omap_tail| |by eapply NoDup_omap_tail| | |done|done].
  - simpl in E1. lia.
  - rewrite Forall_forall in *. intros id Hid. by apply E3, omap_cons_elem.
  - intros id Hid Hu. by apply (E5 id); apply omap_cons_elem.
  - intros id Hid. apply E6. rewrite elem_of_app in *. destruct Hid; [left|right]; by apply omap_cons_elem.
Qed.

(** *** One item of the rollout *)

Section item_step.
Context (item : RolloutItem) (items : list RolloutItem) (k : nat).
Hypothesis Hnamed : well_named (item :: items).
Hypothesis Hsmall : (Z.of_nat k + 1 < i64_max)%Z.

(** While it is handled, it is the [k]-th. *)
Definition placed (b : Builder) : Prop := current_rollout_index b = k ∧ next_rollout_index b = S k.
Definition entered (b : Builder) : Prop := during (future_turn (item :: items) k) (item :: items) k b ∧ placed b.
Definition opened (b : Builder) : Prop :=
  during (future_turn items (S k)) (item :: items) k b ∧ placed b ∧ ∃ p, current_turn b = Some p.
Definition left_ (b : Builder) : Prop := sound items b ∧ next_rollout_index b = S k.

Lemma future_turn_less id : future_turn items (S k) id → future_turn (item :: items) k id.
Proof. intros [Hid|(n & Hn & ->)]; [left; by apply omap_cons_elem|right; exists n; split; [lia|done]]. Qed.

Lemma future_item_less d d' id : d ≤ d' → future_item items d' id → future_item (item :: items) d id.
Proof. intros Hd [Hid|(n & Hn & ->)]; [left; by apply omap_cons_elem|right; exists n; split; [lia|done]]. Qed.

(** Changes of the turns alone, which add at most an item with an id that is not to come. *)
Lemma left_when A B C b b' :
  (∀ x, future_turn items (S k) x → A x) → (∀ x, future_item items (uuids_drawn b') x → B x) →
  (∀ x, future_number (next_item_index b') x → C x) →
  named A B C (S k) b' → (1 <= next_item_index b' <= Z.of_nat k + 2)%Z → placed b → next_rollout_index b' = next_rollout_index b →
  left_ b'.
Proof.
  intros HA HB HC Hb Hi [_ Hp] Hr. unfold left_, sound, during. rewrite Hr, Hp. split_and!; [|lia..|done].
  by eapply named_weaken; [..|exact Hb].
Qed.

Definition counters (b : Builder) : Z * nat * nat * nat :=
  (next_item_index b, current_rollout_index b, next_rollout_index b, uuids_drawn b).

Lemma counters_in_current f r b : only_records r → counters (in_current_turn f r b) = counters b.
Proof.
  intros Hr. unfold in_current_turn. destruct (current_turn b) as [p|]; [|done].
  by destruct (Hr (f (p_turn p)) (set_turns (turns b) (Some (map_pending f p)) b)) as [cs ->].
Qed.

Lemma counters_in_turn id f r b b' : only_records r → in_turn id f r b = Some b' → counters b' = counters b.
Proof.
  intros Hr. unfold in_turn. destruct (update_turn id f (turns b)) as [[ts t]|]; simpl.
  - destruct (Hr t (set_turns ts (current_turn b) b)) as [cs ->].
    destruct (current_turn b) as [p|]; [destruct (str_eqb _ id)|]; intros [= <-]; [by apply counters_in_current|done|done].
  - destruct (current_turn b) as [p|]; [destruct (str_eqb _ id)|]; intros [= <-]. by apply counters_in_current.
Qed.

Lemma counters_finish b : counters (finish_current_turn b) = counters b.
Proof. unfold finish_current_turn. destruct (current_turn b); [|done]. by destruct (_ && _). Qed.

Lemma left_same (A : string → Prop) b b' :
  (∀ x, future_turn items (S k) x → A x) → during A (item :: items) k b → placed b → counters b' = counters b →
  named A (future_item (item :: items) (uuids_drawn b)) (future_number (next_item_index b)) (S k) b' → left_ b'.
Proof.
  intros HA [_ Hi] Hp Hc Hb'. injection Hc as Hc1 _ Hc2 Hc3. eapply left_when; [exact HA| | |exact Hb'|lia|done|done].
  - intros x. rewrite Hc3. by apply future_item_less.
  - by rewrite Hc1.
Qed.

Lemma left_entered b : entered b → left_ b.
Proof.
  intros [Hb Hp]. eapply left_same; [apply future_turn_less|exact Hb|done|done|]. eapply named_weaken; [..|apply Hb]; auto.
Qed.

Lemma entered_finish b : entered b → entered (finish_current_turn b).
Proof.
  unfold entered, during, placed. pose proof (counters_finish b) as Hc. injection Hc as -> -> -> ->.
  intros [[Hb Hi] Hp]. split; [|done]. split; [by apply named_finish|done].
Qed.

Lemma left_finish b : left_ b → left_ (finish_current_turn b).
Proof.
  unfold left_, sound, during. pose proof (counters_finish b) as Hc. injection Hc as -> _ -> ->.
  intros [[Hb Hi] Hp]. split; [|done]. split; [by apply named_finish|done].
Qed.

(** *** Ids that may be added *)

Lemma upserted_free id d n : upserted_id item = Some id → free (future_item (item :: items) d) (future_number n) id.
Proof.
  intros Hu%(omap_head upserted_id item items). destruct (items_plain _ Hnamed id) as [Hp Hn]; [apply elem_of_app; by right|].
  split.
  - intros [Hh|(m & _ & ->)]; [by apply (hooks_apart _ Hnamed id)|by apply (Hn m)].
  - intros (m & _ & ->). by eapply starts_with_name.
Qed.

Lemma left_upsert_in_turn tid x b :
  upserted_id item = Some (item_id x) → entered b → left_ (upsert_item_in_turn_id tid x b).
Proof.
  intros Hu [Hb Hp]. eapply left_same; [apply future_turn_less|exact Hb|done| |].
  - unfold upsert_item_in_turn_id. destruct (in_turn _ _ _ b) as [b'|] eqn:Hi; [|done]. eapply counters_in_turn, Hi. apply only_records_item.
  - apply named_upsert_in_turn; [by apply upserted_free|apply Hb].
Qed.

Lemma left_meta f b : meta_only f → entered b → left_ (in_current_turn f record_turn b).
Proof.
  intros Hf [Hb Hp]. eapply left_same; [apply future_turn_less|exact Hb|done|apply counters_in_current, only_records_turn|].
  apply named_current; [apply only_records_turn|by apply adds_meta|apply Hb].
Qed.

Lemma left_meta_in_turn id f b b' : meta_only f → entered b → in_turn id f record_turn b = Some b' → left_ b'.
Proof.
  intros Hf [Hb Hp] Hi. eapply left_same; [apply future_turn_less|exact Hb|done|eapply counters_in_turn, Hi; apply only_records_turn|].
  eapply named_in_turn; [apply only_records_turn|by apply adds_meta|apply Hb|exact Hi].
Qed.

(** *** In the current turn *)

Lemma turn_name_past : ¬ future_turn items (S k) (turn_name k).
Proof.
  intros [Hid|(n & Hn & He%turn_name_inj)]; [|lia]. pose proof (started_plain _ Hnamed) as Hp. rewrite Forall_forall in Hp.
  eapply starts_with_name, Hp. by apply omap_cons_elem.
Qed.

Lemma opened_ensure b : entered b → opened (ensure_turn b).
Proof.
  intros [[Hb Hi] [Hc Hr]]. unfold ensure_turn. destruct (current_turn b) as [p|] eqn:Hp.
  - split_and!; [split; [|done]|done|by exists p]. eapply named_weaken; [apply future_turn_less|..|exact Hb]; auto.
  - assert (implicit_turn_id b = turn_name k) as -> by (unfold implicit_turn_id; by rewrite Hr, Hc).
    rewrite Hr. cbn [Nat.eqb]. set (t := blank_turn (turn_name k) TurnCompleted None).
    destruct (only_records_turn t b) as [cs Hcs]. cbv beta in Hcs. rewrite Hcs.
    apply (named_same _ _ _ _ b (set_changes cs b)) in Hb; [|done|done]. split_and!; [split; [|done]|done|by eexists].
    eapply (named_open _ _ _ _ _ _ (set_changes cs b) t); [apply future_turn_less| |apply turn_name_past|done|done|done|exact Hb].
    right. by exists k.
Qed.

Lemma ensure_set_next n b : ensure_turn (set_next_item_index n b) = set_next_item_index n (ensure_turn b).
Proof.
  unfold ensure_turn, implicit_turn_id, record_changed_turn. simpl. destruct (current_turn b); [done|].
  by destruct (next_rollout_index b =? 0), (active_change_set b) as [cs|] eqn:E; simpl; rewrite ?E.
Qed.

Lemma ensure_draw b : placed b → ensure_turn (draw_uuid b) = draw_uuid (ensure_turn b).
Proof.
  intros [_ Hr]. unfold ensure_turn, implicit_turn_id, record_changed_turn. simpl. destruct (current_turn b); [done|].
  rewrite Hr. simpl. by destruct (active_change_set b) as [cs|] eqn:E; simpl; rewrite ?E.
Qed.

Lemma ensure_again b p : current_turn b = Some p → ensure_turn b = b.
Proof. intros Hp. unfold ensure_turn. by rewrite Hp. Qed.

Lemma left_opened b : opened b → left_ b.
Proof.
  intros (Hb & Hp & _). eapply left_same; [|exact Hb|done|done|]; [done|]. eapply named_weaken; [..|apply Hb]; auto.
Qed.

Lemma left_upsert x b : upserted_id item = Some (item_id x) → entered b → left_ (upsert_item_in_current_turn x b).
Proof.
  intros Hu (Hb & Hp & _)%opened_ensure. unfold upsert_item_in_current_turn.
  eapply left_same; [|exact Hb|done|apply counters_in_current, only_records_item|]; [done|].
  apply named_current; [apply only_records_item| |apply Hb]. eapply adds_weaken; [|apply adds_upsert].
  intros id ->. by apply upserted_free.
Qed.

Lemma left_upsert_item tid x b : upserted_id item = Some (item_id x) → entered b → left_ (upsert_item tid x b).
Proof. intros Hu Hb. unfold upsert_item. destruct (str_is_empty tid); [by apply left_upsert|by apply left_upsert_in_turn]. Qed.

(** An item with an id that was to come. *)
Lemma left_push x b b1 :
  opened b → turns b1 = turns b → current_turn b1 = current_turn b → next_rollout_index b1 = next_rollout_index b →
  uuids_drawn b ≤ uuids_drawn b1 → (next_item_index b <= next_item_index b1 <= Z.of_nat k + 2)%Z →
  future_item (item :: items) (uuids_drawn b) (item_id x) ∨ future_number (next_item_index b) (item_id x) →
  ¬ future_item items (uuids_drawn b1) (item_id x) → ¬ future_number (next_item_index b1) (item_id x) →
  left_ (in_current_turn (λ t, with_items (t_items t ++ [x]) t) (λ t, record_changed_item (t_id t) x) b1).
Proof.
  intros ([Hb Hi] & Hp & p & Hcur) Ht Hc Hr Hd Hn Hfresh Hb' Hc'.
  pose proof (counters_in_current (λ t, with_items (t_items t ++ [x]) t) (λ t, record_changed_item (t_id t) x) b1
    (only_records_item _ _)) as Hcs. injection Hcs as E1 _ E2 E3.
  eapply left_when; [..|exact Hp|by rewrite E2]; [done| | | |by rewrite E1; lia].
  1: intros y; rewrite E3; intros Hy; exact Hy. 1: intros y; rewrite E1; intros Hy; exact Hy.
  apply (named_same _ _ _ _ b b1 Ht Hc) in Hb as Hb1.
  eapply named_in_current; [apply only_records_item|by rewrite Hc| | | |exact Hb1].
  - assert (item_id x ∉ item_id <$> t_items (p_turn p)) as Hx.
    { intros Hin. destruct Hfresh as [Hf|Hf]; [|by apply (current_avoids _ _ _ _ _ Hb p (item_id x))].
      revert Hf. apply (items_avoid _ _ _ _ _ Hb (p_turn p)); [|done]. unfold view. rewrite Hcur. apply elem_of_app. right.
      apply list_elem_of_here. }
    unfold grown. simpl. rewrite fmap_app, length_app. simpl. split_and!; [done| |lia|].
    + apply NoDup_app. split_and!; [exact (named_turn_items _ _ _ _ b p Hb Hcur)| |apply NoDup_singleton].
      intros y Hy Hy'. apply list_elem_of_singleton in Hy' as ->. done.
    + intros id. rewrite elem_of_app. intros [Hin|Hin%list_elem_of_singleton]; [by left|right]. by rewrite Hin.
  - intros y. by apply future_item_less.
  - intros y (n & Hy & ->). exists n. split; [lia|done].
Qed.

Lemma left_numbered f b : (∀ id, item_id (f id) = id) → opened b → left_ (push_numbered f b).
Proof.
  intros Hf Ho. pose proof Ho as (Hb & Hp & p & Hcur). unfold push_numbered, next_item_id, push_item_in_current_turn.
  rewrite ensure_set_next, (ensure_again _ p Hcur). destruct Hb as [_ Hi].
  assert (wrap_i64 (next_item_index b + 1) = next_item_index b + 1)%Z as Hw.
  { apply wrap_i64_id, bool_decide_eq_true. unfold i64_min, i64_max in *. lia. }
  apply (left_push _ b); simpl; rewrite ?Hw, ?Hf; try done; [lia|right; by eexists| |].
  - intros [Hid|(n & _ & He)].
    + eapply starts_with_name, (items_plain _ Hnamed), elem_of_app. left. by apply omap_cons_elem.
    + pose proof (uuids_plain _ Hnamed n) as Hpl. rewrite <-He in Hpl. by eapply starts_with_name.
  - intros (n & Hn & He%item_name_inj). lia.
Qed.

Lemma ensure_number b : next_item_index (ensure_turn b) = next_item_index b.
Proof.
  unfold ensure_turn. destruct (current_turn b); [done|]. destruct (next_rollout_index b =? 0); simpl;
    match goal with |- context [record_changed_turn (from_turn ?t) ?c] => destruct (only_records_turn t c) as [cs Hcs] end;
    cbv beta in Hcs; by rewrite Hcs.
Qed.

Lemma ensure_current b : ∃ p, current_turn (ensure_turn b) = Some p.
Proof. unfold ensure_turn. destruct (current_turn b) as [p|] eqn:Hp; [by exists p|by eexists]. Qed.

Lemma push_numbered_ensure f b : push_numbered f b = push_numbered f (ensure_turn b).
Proof.
  destruct (ensure_current b) as [p Hp]. unfold push_numbered, next_item_id, push_item_in_current_turn.
  rewrite !ensure_set_next, ensure_number. by rewrite (ensure_again (ensure_turn b) p Hp).
Qed.

Lemma left_number f b : (∀ id, item_id (f id) = id) → entered b → left_ (push_numbered f b).
Proof. intros Hf Hb. rewrite push_numbered_ensure. apply left_numbered; [done|]. by apply opened_ensure. Qed.

Lemma left_user client content b : entered b → left_ (handle_user_message client content b).
Proof.
  intros Hb. unfold handle_user_message. apply left_number; [done|]. destruct (current_turn b) as [p|]; [|done].
  destruct (_ && _); [by apply entered_finish|done].
Qed.

Lemma left_reasoning text ext b : entered b → left_ (add_reasoning text ext b).
Proof.
  intros Hb. unfold add_reasoning. destruct (str_is_empty text); [by apply left_entered|]. cbv zeta.
  pose proof (opened_ensure b Hb) as Ho. set (b1 := ensure_turn b) in *.
  assert (left_ (push_numbered (λ id, let '(summary, content) := ext [] [] in ItemReasoning id summary content) b1)) as Hnew.
  { apply left_numbered; [|done]. intros id. by destruct (ext [] []). }
  destruct Ho as (Hd & Hp & p & Hcur). rewrite Hcur. simpl.
  destruct (last (t_items (p_turn p))) as [[| | | |id summary content| | | | | | | | | | | | |]|] eqn:Hlast; try exact Hnew.
  destruct (ext summary content) as [summary' content'].
  eapply left_same; [|exact Hd|done|apply counters_in_current, only_records_item|]; [done|].
  eapply named_in_current; [apply only_records_item|exact Hcur| | | |apply Hd]; [|auto..].
  apply last_Some in Hlast as [l Hl]. pose proof (named_turn_items _ _ _ _ b1 p (proj1 Hd) Hcur) as Hn. unfold grown. simpl.
  rewrite Hl, removelast_last in *. rewrite !length_app, !fmap_app in *. split_and!; [done|done|simpl; lia|]. intros x Hx. by left.
Qed.

(** *** Turns *)

Lemma left_started at_ id b : started_id item = Some id → entered b → left_ (handle_turn_started id at_ b).
Proof.
  intros Hs Hb%entered_finish. unfold handle_turn_started. set (b1 := finish_current_turn b) in *.
  assert (current_turn b1 = None) as Hc.
  { subst b1. unfold finish_current_turn. destruct (current_turn b) eqn:E; [by destruct (_ && _)|done]. }
  set (t := blank_turn id TurnInProgress at_). destruct (only_records_turn t b1) as [cs Hcs]. cbv beta in Hcs. rewrite Hcs.
  destruct Hb as [[Hb Hi] Hp]. eapply (left_when (future_turn items (S k))); [done| | | | |exact Hp|done].
  - intros x Hx. exact (future_item_less (uuids_drawn b1) _ x (le_n _) Hx).
  - intros x Hx. exact Hx.
  - apply (named_weaken (future_turn items (S k)) _ (future_item (item :: items) (uuids_drawn b1)) _
      (future_number (next_item_index b1)) _ k); [auto..|].
    eapply (named_open _ _ _ _ _ _ (set_changes cs b1) t); [apply future_turn_less| | |done|done|exact Hc|].
    + left. by apply omap_head.
    + intros [Hid|(n & _ & He)]; [by eapply NoDup_omap_head; [|apply (started_distinct _ Hnamed)|]|].
      pose proof (started_plain _ Hnamed) as Hpl. rewrite Forall_forall in Hpl. simpl in He. subst id.
      eapply starts_with_name, Hpl. by apply omap_head.
    + eapply named_same; [..|exact Hb]; done.
  - simpl. lia.
Qed.

Lemma left_aborted id c d b : entered b → left_ (handle_turn_aborted id c d b).
Proof.
  intros Hb. unfold handle_turn_aborted. destruct id as [id|]; simpl; [|apply left_meta; [apply abort_meta|done]].
  destruct (in_turn id _ _ b) as [b'|] eqn:Hi; [|apply left_meta; [apply abort_meta|done]].
  eapply left_meta_in_turn; [apply abort_meta|done|exact Hi].
Qed.

Lemma left_complete id c d b : entered b → left_ (handle_turn_complete id c d b).
Proof.
  intros Hb. unfold handle_turn_complete. set (f := mark_completed c d).
  assert (left_ (finish_current_turn (in_current_turn f record_turn b))) as Hclose
    by (apply left_finish, left_meta; [apply completed_meta|done]).
  destruct (update_turn id f (turns b)) as [[ts t]|] eqn:Hu; simpl.
  - assert (left_ (record_changed_turn (from_turn t) (set_turns ts (current_turn b) b))) as Hf.
    { destruct Hb as [Hb Hp]. eapply left_same; [apply future_turn_less|exact Hb|done| |].
      - by destruct (only_records_turn t (set_turns ts (current_turn b) b)) as [cs ->].
      - eapply (named_finished _ _ _ _ id f record_turn); [apply only_records_turn|apply adds_meta, completed_meta|apply Hb|done]. }
    destruct (current_turn b) as [p|] eqn:Hp; [by destruct (str_eqb _ id)|done].
  - destruct (current_turn b) as [p|] eqn:Hp; [by destruct (str_eqb _ id)|by apply left_entered].
Qed.

Lemma left_compacted b : entered b → left_ (handle_compacted b).
Proof.
  intros Ho%opened_ensure. unfold handle_compacted. pose proof (left_opened _ Ho) as [[Hb Hi] Hr]. destruct Ho as (_ & _ & p & Hp).
  rewrite Hp. split; [split; [|exact Hi]|exact Hr]. destruct Hb as [D1 D2 D3 D4 D5]. unfold view in *. rewrite Hp in *.
  split; unfold view; simpl; [exact D1|exact D2|exact D3| |exact D5]. intros q id [= <-]. exact (D4 p id eq_refl).
Qed.

Lemma left_rollback n b : entered b → left_ (handle_thread_rollback n b).
Proof.
  intros Hb%entered_finish. unfold handle_thread_rollback. set (b1 := finish_current_turn b) in *. cbv zeta.
  assert (current_turn b1 = None) as Hc.
  { subst b1. unfold finish_current_turn. destruct (current_turn b) eqn:E; [by destruct (_ && _)|done]. }
  match goal with |- context [record_removed_turn_ids ?r ?c] =>
    assert (∃ cs, record_removed_turn_ids r c = set_changes cs c) as [cs ->] end.
  { unfold record_removed_turn_ids. destruct (active_change_set b1); [by eexists|apply records_changes]. }
  cbn [turns current_turn set_changes]. rewrite Hc. destruct Hb as [[Hb Hi] Hp].
  set (ts := if _ <=? _ then [] else take _ (turns b1)).
  assert (ts `sublist_of` view b1) as Hs.
  { unfold view. rewrite Hc. simpl. rewrite app_nil_r. subst ts. destruct (_ <=? _); [apply sublist_nil_l|apply sublist_take]. }
  assert (item_count ts ≤ k) as Hn by (pose proof (counted _ _ _ _ _ Hb); pose proof (item_count_sublist _ _ Hs); lia).
  eapply (left_when (future_turn (item :: items) k)); [apply future_turn_less| |intros x Hx; exact Hx| | |exact Hp|done]; simpl.
  - intros x Hx. exact (future_item_less (uuids_drawn b1) _ x (le_n _) Hx).
  - eapply (named_weaken _ _ _ _ _ _ k); [intros x Hx; exact Hx..|lia|]. eapply named_shrink; [|done|exact Hb].
    unfold view. simpl. by rewrite app_nil_r.
  - unfold i64_max in *. lia.
Qed.

Lemma guardian_item_id target action status x : build_item_from_guardian_event target action status = Some x → target = Some (item_id x).
Proof. destruct action; simpl; try done; by destruct target; intros [= <-]. Qed.

Lemma left_guardian target tid s action b :
  upserted_id item = target → entered b → left_ (handle_guardian_assessment target tid s action b).
Proof.
  intros Hu Hb. unfold handle_guardian_assessment. cbv zeta. destruct s; try by apply left_entered.
  all: destruct (build_item_from_guardian_event target action _) as [x|] eqn:Hx; [|by apply left_entered];
    apply guardian_item_id in Hx; apply left_upsert_item; [congruence|done].
Qed.

Lemma left_event ev b : item = RolloutEvent ev → entered b → left_ (handle_event ev b).
Proof.
  intros Hitem Hb.
  assert (∀ id, upserted_id (RolloutEvent ev) = Some id → upserted_id item = Some id) as Hu by (by rewrite Hitem).
  destruct ev; cbn [handle_event];
    try first [by apply left_user|by apply left_reasoning|by apply left_entered|by apply left_rollback|by apply left_aborted
    |by apply left_complete|by apply left_number|by apply left_upsert; [apply Hu|]|by apply left_upsert_in_turn; [apply Hu|]
    |by apply left_upsert_item; [apply Hu|]].
  - unfold handle_agent_message. destruct (str_is_empty message); [by apply left_entered|by apply left_number].
  - apply left_guardian; [by rewrite Hitem|done].
  - apply left_upsert; [|done]. rewrite Hitem. unfold mcp_tool_call_end_item. by destruct result.
  - apply left_upsert; [|done]. rewrite Hitem. unfold spawn_end_item. by destruct new_thread_id.
  - destruct item0 as [i text| |]; simpl; [destruct (str_is_empty text)| |]; try by apply left_entered.
    all: by apply left_upsert_in_turn; [apply Hu|].
  - destruct item0 as [i text| |]; simpl; [destruct (str_is_empty text)| |]; try by apply left_entered.
    all: by apply left_upsert_in_turn; [apply Hu|].
  - unfold handle_error. destruct (match info with Some i => _ | None => true end); [|by apply left_entered]. by apply left_meta.
  - apply left_started; [by rewrite Hitem|done].
Qed.

Lemma left_response r b : item = RolloutResponseItem r → entered b → left_ (handle_response_item r b).
Proof.
  intros Hitem Hb. destruct r; cbn [handle_response_item]; try by apply left_entered.
  destruct (str_eqb role "user") eqn:Hrole; [|by apply left_entered].
  destruct (parse_hook_prompt_message content) as [fragments|] eqn:Hparse; [|by apply left_entered].
  pose proof (opened_ensure b Hb) as Ho. pose proof Ho as ([_ Hi] & _). unfold push_item_in_current_turn.
  destruct id as [id|].
  - assert (hook_id item = Some id) as Hh by (rewrite Hitem; simpl; by rewrite Hrole, Hparse).
    destruct (items_plain _ Hnamed id) as [Hp Hu]; [apply elem_of_app; left; by apply omap_head|].
    apply (left_push _ (ensure_turn b)); simpl; try done; [lia|left; left; by apply omap_head| |].
    + intros [Hin|(n & _ & He)]; [|by apply (Hu n)]. by eapply NoDup_omap_head; [|apply (hooks_distinct _ Hnamed)|].
    + intros (n & _ & ->). by eapply starts_with_name.
  - rewrite ensure_draw by apply Hb. assert (uuids_drawn (ensure_turn b) = uuids_drawn b) as Hd.
    { destruct Hb as [_ [_ Hr]]. unfold ensure_turn. destruct (current_turn b); [done|]. rewrite Hr. cbn [Nat.eqb].
      match goal with |- context [record_changed_turn (from_turn ?t) ?c] => destruct (only_records_turn t c) as [cs Hcs] end.
      cbv beta in Hcs. by rewrite Hcs. }
    apply (left_push _ (ensure_turn b)); simpl; rewrite ?Hd; try done; [lia|lia|left; right; by eexists| |].
    + intros [Hin|(n & Hn & He)]; [|apply (uuids_fresh _ Hnamed) in He; lia].
      apply (omap_cons_elem hook_id item) in Hin. destruct (items_plain _ Hnamed (uuid (uuids_drawn b))) as [_ Hu];
        [apply elem_of_app; by left|by apply (Hu (uuids_drawn b))].
    + intros (n & _ & He). pose proof (uuids_plain _ Hnamed (uuids_drawn b)) as Hp. rewrite He in Hp. by eapply starts_with_name.
Qed.
End item_step.

Lemma sound_item item items b :
  well_named (item :: items) → (Z.of_nat (next_rollout_index b) + 1 < i64_max)%Z → sound (item :: items) b →
  sound items (handle_rollout_item item b) ∧ next_rollout_index (handle_rollout_item item b) = S (next_rollout_index b).
Proof.
  intros Hn Hk [Hb Hi]. set (k := next_rollout_index b) in *. set (b0 := set_rollout_index k (S k) b).
  assert (entered item items k b0) as He.
  { split; [split; [|exact Hi]|done]. eapply named_same; [..|exact Hb]; done. }
  unfold handle_rollout_item. fold k. fold b0. destruct item as [ev| |r| | |] eqn:Hitem.
  - by eapply left_event.
  - by eapply left_compacted.
  - by eapply left_response.
  - by eapply left_entered.
  - by eapply left_entered.
  - by eapply left_entered.
Qed.

Lemma sound_distinct items b : sound items b → distinct (view b).
Proof. intros [Hb _]. split; [apply Hb|]. intros t Ht. by apply (items_avoid _ _ _ _ _ Hb). Qed.

Lemma well_named_distinct items b :
  well_named items → (Z.of_nat (next_rollout_index b + length items) < i64_max)%Z → sound items b → always_distinct items b.
Proof.
  revert b. induction items as [|item items IH]; intros b Hn Hk Hb; (split; [by eapply sound_distinct|]); [done|].
  simpl in Hk. destruct (sound_item item items b Hn) as [Hb' Hr]; [lia|done|].
  apply IH; [by eapply well_named_tail|rewrite Hr; lia|done].
Qed.

Lemma new_builder_sound items : sound items new_builder.
Proof.
  split; [|done]. split; [constructor|by intros ? ?%not_elem_of_nil|by intros ? ?%not_elem_of_nil|done|done].
Qed.

Lemma handle_rollout_items_app items items' b :
  handle_rollout_items (items ++ items') b = handle_rollout_items items' (handle_rollout_items items b).
Proof. apply fold_left_app. Qed.

Lemma well_named_always items : well_named items → always_distinct items new_builder.
Proof. intros Hn. apply well_named_distinct; [done|apply (short _ Hn)|apply new_builder_sound]. Qed.

(** Claim C15. Whatever a thread has been through, the changes that the builder reports for a
    batch of rollout items are exact: a client that has the turns from before the batch and
    applies them (forgets the removed turns, then puts in the changed turns, then the changed
    items, each where its id stands or else last) has the turns that building from the whole
    rollout gives, in the same order, and no two of these turns or of the items of one of them
    have the same id.  Ids from outside are to be distinct and unlike those that the builder
    makes up. *)
Theorem changes_replay before items b' cs :
  well_named (before ++ items) →
  handle_rollout_items_with_changes items (handle_rollout_items before new_builder) = (b', cs) →
  apply_changes cs (build_turns_from_rollout_items before) = finish b' ∧
  finish b' = build_turns_from_rollout_items (before ++ items) ∧ distinct (finish b').
Proof.
  intros Hd%well_named_always%always_distinct_app Hb. unfold build_turns_from_rollout_items. rewrite handle_rollout_items_app.
  destruct (kept_items before new_builder eq_refl (no_current_kept new_builder eq_refl)) as [Ha Hk].
  set (b := handle_rollout_items before new_builder) in *. destruct (kept_items items b Ha Hk) as [_ Hk'].
  pose proof (replay_items items b empty_accumulator (view b) Ha Hk Hd empty_accumulator_ok) as Hr.
  unfold handle_rollout_items_with_changes in Hb. destruct (fold_left accumulate items (b, empty_accumulator)) as [b1 acc].
  injection Hb as -> <-. destruct Hr as [-> Happ]; [apply apply_nothing| |].
  - split_and!; [constructor|constructor|by intros ? ?%not_elem_of_nil].
  - rewrite !finish_view by done. split_and!; [done|done|]. rewrite <-(app_nil_r items) in Hd.
    by eapply always_distinct_here, always_distinct_app.
Qed.
End replay.

(** ** A thread that is rolled back *)

Section sample.
Local Instance sample_sources : ItemSources :=
  {| CwdUri := string; inferred_native_path_string cwd := cwd; native_convention _ := false; cwd_to_abs_path _ := None;
     parse_command _ := []; uuid n := "uuid-" +:+ fmt_nat n |}.
Local Instance sample_shlex : Shlex := {| shlex_try_join args := Some (join " " args) |}.
Local Instance sample_path_env : PathEnv := sample_env.
Local Instance sample_hooks : HookXml := λ _, None.

Definition sample_before : list RolloutItem :=
  [RolloutEvent (EvTurnStarted "t1" None); RolloutEvent (EvAgentMessage "hello" None None);
   RolloutEvent (EvTurnComplete "t1" None None); RolloutEvent (EvTurnStarted "t2" None);
   RolloutEvent (EvWebSearchBegin "ws1")].

Definition sample_items : list RolloutItem :=
  [RolloutEvent (EvWebSearchEnd "ws1" "rust" SearchOther); RolloutEvent (EvTurnComplete "t2" None (Some 5%Z));
   RolloutEvent (EvThreadRolledBack 1); RolloutEvent (EvUserMessage None "again" None [] [] [] []);
   RolloutEvent (EvAgentReasoning "hm"); RolloutEvent (EvAgentReasoning "so")].

Lemma sample_well_named : well_named (sample_before ++ sample_items).
Proof.
  split.
  - done.
  - apply (bool_decide_unpack _). by vm_compute.
  - apply (bool_decide_unpack _). by vm_compute.
  - constructor.
  - by intros id ?%not_elem_of_nil.
  - intros id Hid. assert (id = "ws1") as ->; [|done]. simpl in Hid. by repeat (apply elem_of_cons in Hid as [->|Hid]); [..|apply not_elem_of_nil in Hid].
  - intros n m He%(inj (String.append "uuid-")). by apply fmt_nat_inj.
  - done.
Qed.

Lemma changes_replay_witness :
  well_named (sample_before ++ sample_items) ∧
  apply_changes (handle_rollout_items_with_changes sample_items (handle_rollout_items sample_before new_builder)).2
    (build_turns_from_rollout_items sample_before) = build_turns_from_rollout_items (sample_before ++ sample_items) ∧
  (λ t, (t_id t, item_id <$> t_items t)) <$> build_turns_from_rollout_items (sample_before ++ sample_items) =
    [("t1", ["item-1"]); ("rollout-8", ["item-2"; "item-3"])].
Proof.
  destruct (changes_replay sample_before sample_items _ _ sample_well_named (surjective_pairing _)) as (H1 & H2 & _).
  split_and!; [exact sample_well_named| |vm_compute; reflexivity]. rewrite <-H2. exact H1.
Defined.

(** The turn that a rollout names only in its context gets an id that is made up. *)
Example turn_context_id_unused :
  t_id <$> build_turns_from_rollout_items
    [RolloutTurnContext (Some "t7"); RolloutEvent (EvAgentMessage "hello" None None)] = ["rollout-1"].
Proof. vm_compute. reflexivity. Qed.
End sample.
